(* ===== verification/_CoqProject ===== *)
-Q . S2P
Prelude.v
MachineInt.v
Str.v
Postings.v
Grams.v
Layer.v
LayerSpec.v
QueryPlan.v
QueryPlanSpec.v
Candidates.v
CandidatesSpec.v
Scheduler.v
Plan.v
F64.v
F64Spec.v
Json.v
Kernel.v
KernelSpec.v
Shard.v
Bitmap.v
Coverage.v
Diagnostics.v
Gate.v
Diff.v
LcovFormat.v
RegistryDelta.v
RegistryDeltaSpec.v
RegistryWal.v
RegistryWalSpec.v
RegistryLog.v
RegistryReplay.v
Namespace.v
NamespaceSpec.v
RegistryStore.v
RegistryStoreSpec.v
Frame.v
AuthorityJson.v
AuthorityJsonSpec.v
EventLog.v
EventLogSpec.v
EventWriteSpec.v
EventPageSpec.v
EventRootSpec.v
Ordering.v
Text.v
Assemble.v
AssembleSpec.v
MemoryDoc.v
MemoryCache.v
MemoryPersist.v
MemoryExample.v
MemoryIndex.v
MemoryCacheSpec.v
MemoryDisk.v
MemoryPersistSpec.v
MemoryRestore.v
MemoryWalSpec.v
MemoryDiskSpec.v
MemoryOwner.v
MemorySystem.v
MemoryChunkSpec.v
MemoryDirtySpec.v
MemoryCommitSpec.v
MemoryWriteSpec.v
MemoryOwnerSpec.v
MemoryOpenSpec.v
MemorySystemSpec.v
MemoryRootSpec.v
Policy.v
Guard.v
GuardSpec.v
Execute.v
Governance.v
ExecuteSpec.v
GovernSpec.v
Session.v
SessionSpec.v
Recall.v
RecallSpec.v
RelatedSpec.v
