(* ===== verification/Prelude.v ===== *)
(** * Packet28: a verification development of its core logic

    Packet28 is a local context daemon for coding agents: it indexes a
    repository for search, reduces tool output to packets under a budget, runs
    kernel steps, and keeps tasks and watches durable.  This library models
    the parts of it whose correctness is a matter of logic rather than of
    calls to the outside, and proves what they promise.

    ** Parts

    Every model file has a header that names its source files; a definition
    keeps the name of the function or type it translates.  [XSpec.v] holds the
    theorems about [X.v] where they do not fit beside the definitions.

    The search index ([crates/packet28-search-core]):
    - [Postings]: the posting-table codec and its binary search ([postings.rs]).
    - [Grams]: the grams of a document and the covering grams of a literal.
    - [Layer], [LayerSpec]: building a layer by segments and a k-way merge,
      validating and loading one (its file names, digests and size limits),
      and looking grams up in it ([layer.rs], [query.rs]).
    - [QueryPlan], [QueryPlanSpec]: the plan of a pattern and of a request.
    - [Candidates], [CandidatesSpec]: evaluating a plan over the base layer
      and its overlays, and pruning by positions.
    The claims build on one another: a document's grams are indexed, a layer
    answers with exactly the documents of a gram, a plan is necessary for a
    match, evaluation keeps every document that satisfies the plan, and so
    does the pruning by positions where the plan has no conjunction; so
    indexed search misses no file ([indexed_search_complete]) outside the
    three defects that [repetition_plan_misses_match],
    [short_alternative_dropped] and [and_pruning_loses_match] exhibit.

    The task and watch registries ([crates/packet28-daemon-core],
    [crates/packet28-daemon-protocol]):
    - [RegistryDelta], [RegistryDeltaSpec]: batches of mutations, their
      validation, application and coalescing, and the relationship check.
    - [RegistryWal]: the write-ahead log on its bytes; [RegistryWalSpec]: what
      a scan of an encoded log sees, also when its last frame is torn;
      [RegistryLog]: the converse, the tail and appending; [RegistryReplay]:
      recovery from the checkpoint and the log.
    - [Namespace], [NamespaceSpec]: portable task identifiers and the
      admission of new tasks against the managed directories.
    - [RegistryStore], [RegistryStoreSpec]: the log, the checkpoint and the
      daemon's authority together, as a step relation with crashes.
    - [AuthorityJson], [AuthorityJsonSpec]: the budgets of registry and event
      JSON, checked while it is read ([authority_json_exact]).
    - [EventLog]: the event log of a task, its appends, pages and loading
      ([storage.rs], [storage/event_tail.rs]); [EventLogSpec],
      [EventWriteSpec], [EventPageSpec]: what a log holds, what a write leaves
      and what a page shows; [EventRootSpec]: every history of appends keeps
      the line of each acknowledged event byte for byte (reading a frame back
      is asked of the events appended, not of JSON in general).
    - [Frame]: the messages of the socket.
    The batches give the meaning of one frame, the log that of a sequence of
    frames, and the store is proved against both: it refines a sequence of
    batches through every history, in which a retry is acknowledged without
    effect only when its revisions and the digest of its payload are those of
    the batch last committed ([store_survives_crashes]).

    Kernel and scheduler ([crates/context-scheduler-core],
    [crates/context-kernel-mechanism]):
    - [Scheduler]: validation, topological order and budgeted schedule.
    - [Plan]: plan mutations, once for both step types (class [PlanStep]).
    - [Kernel], [KernelSpec]: the run of a step sequence over an environment
      of reducers, planner and observer (record [KernelEnv]).
    - [Execute]: one request, over the packet cache and an execution policy
      (class [ExecutionPolicy]); [ExecuteSpec]: what the cache answers, for
      every policy that keeps the promise [FormatBlind].
    - [Session]: the kernel as the environment of its sequences;
      [SessionSpec]: the steps of a sequence keep what the kernel guarantees
      of one request ([governed_sequence_complies]).

    Governance ([crates/guardy-core], [crates/suite-policy-core],
    [crates/context-kernel-builtins]):
    - [Policy]: the context policy and its validation; [Guard],
      [GuardSpec]: the audit of a packet against it.
    - [Governance]: the built-in policy, an instance of [ExecutionPolicy];
      [GovernSpec]: audits are exact, and with the kernel and its cache no
      packet escapes them ([governed_execution_complies]).

    Quality data ([crates/suite-packet-core], [diffy-core], [covy-ingest],
    [testy-core]):
    - [Coverage], [Diagnostics]: merge and totals; [Bitmap]: the interface of
      the line sets (class [Bitmap]), met by [gset].
    - [Gate]: coverage and issue gates; [Diff]: the reader of git's unified
      diffs and the text git prints (quoted names, empty and binary files,
      renames), with what the reader reports of all of it;
      [LcovFormat]: the LCOV parser; [Shard]: test shard planners.

    Context packets ([crates/contextq-core]):
    - [Assemble], [AssembleSpec]: assembling packets into one under a token and
      a byte budget.  References are merged by key, sections are scored and
      admitted greedily, and the payload is pruned until its JSON fits
      ([assembled_packet_bounded]); the summary adds up and hash-map order does
      not show.

    The packet cache ([crates/context-memory-core]):
    - [MemoryDoc]: the recall document of an entry ([recall_document.rs],
      [normalize.rs]); [MemoryCache]: the cache with its indexes ([cache.rs]);
      [MemoryIndex], [MemoryCacheSpec]: every index is a function of the
      documents, and the cache answers as a map ([cache_refines_map]).
    - [Recall]: the hits of a query and the entries related to paths, symbols
      and tests ([recall.rs]); [RecallSpec], [RelatedSpec]: both are scans of
      the documents, whatever the hash maps' order ([recall_exact],
      [related_entries_exact]).
    - [MemoryPersist]: checkpoint envelopes, their validation, the records of
      the log and their replay ([persist.rs]); [MemoryDisk]: the files, with
      writes that fail part-way; [MemoryPersistSpec], [MemoryRestore],
      [MemoryWalSpec], [MemoryDiskSpec]: what is accepted, restored, replayed.
    - [MemoryOwner]: the owner of a root and its worker
      ([persistence_owner.rs]); [MemoryChunkSpec], [MemoryDirtySpec],
      [MemoryCommitSpec], [MemoryWriteSpec], [MemoryOwnerSpec],
      [MemoryOpenSpec]: its operations one by one, as triples over the disk.
    - [MemorySystem], [MemorySystemSpec], [MemoryRootSpec]: processes that
      share a root, as a run of actions (commit, prune, open, crash, time, and
      the flush in the steps between which it releases the root: take, append,
      finish, checkpoint).  The abstract root is one map and the
      deltas of each process; the concrete one implements it in every run
      ([root_refines_map]), and a process that keeps trying makes its memory
      durable ([flush_liveness]).  [MemoryExample] has parameters that meet
      the laws assumed.

    Shared: this file ([result], list and sorting lemmas, tactics),
    [MachineInt], [Str], [Text] (characters), [F64], [F64Spec], [Json], [Ordering]
    (comparators as instances of [TotalCmp]).

    ** Conventions

    - A [u8], [u32], [u64] or [usize] (64-bit) is a [Z] in its range, with
      checked, saturating and wrapping operations as the source calls them; a
      bare [+] wraps, since the release profile keeps overflow checks off.
    - Bytes are [Z] in 0..255, strings their UTF-8 bytes; a [BTreeMap] or
      [HashMap] is a [gmap] whose iteration order is sorted out where the code
      depends on it; a [Vec] is a list.
    - [Result] is [result] with the source's [?] as its bind; an error keeps
      its constructor and the fixed part of its message.
    - A file is the list of its bytes, before and after a call.  Where writes
      may fail ([MemoryDisk]) a list of faults decides how many bytes of each
      write arrive; a crash is a fault after which the process is gone.
    - The runs of the packet cache are over a finite universe of entries
      that fits the counters, and with the log within the loader's 512 MiB at
      every moment ([within_limits]).  Appending does not check that limit and
      loading ignores a longer log, so the claims hold of the runs within it;
      [load_oversized] and [flush_acknowledged] say what happens beyond.
    - Code outside the repository (blake3, serde_json, regex_syntax, roaring,
      Unicode tables) is a parameter; a theorem that relies on it states what
      its documentation promises, and its witness instantiates it.

    ** Fuel

    Loops that do not recurse on their data take fuel, and an exhausted loop
    is distinct from every result.  The scan of a log takes the length of the
    file, enough because a turn consumes a frame of 128 bytes or more
    ([wal_scan_ends_and_is_sound]).  The binary search takes the width of its
    interval, which shrinks every turn; the merge of segments the number of
    their records and one more; the topological order and the sequence run
    the number of steps, since a turn takes one off; the removal of dependents
    the number of the remaining steps and one more; the varint encoder the
    five bytes a [u32] can need; the pruning of a packet the number of its
    references, sections and body bytes and one more, since a turn removes
    some of them; the replay of the cache's log the length of the log.  The theorems about these loops conclude with
    a result.

    ** What is not modelled

    - The file system under the registries: locks, leases, identity checks of
      open files, atomic replacement, and writes that fail while the daemon
      goes on.  The store's steps replace them by their outcomes.
      The encoding of the checkpoint, the raw JSON records that are kept beside
      the tasks, and retention passes, which are directory scans, descriptors
      and capabilities of the system.
    - Regex parsing and verification, file discovery and the publication of
      generations of the index.
    - The threads, timeouts, metrics and root registry around the packet
      cache's owner.
    - The kernel's reducers, repository maps over tree-sitter ([mapy-core]),
      the output reducers, and the command line and process glue: the manifest
      lists each with its reason. *)

From Stdlib Require Export Ascii ZArith Lia.
From stdpp Require Export prelude list sorting gmap strings pretty.

(** ** Scopes and databases of the development *)

Declare Scope p28_scope.
Delimit Scope p28_scope with p28.
Open Scope p28_scope.

Create HintDb p28 discriminated.
Create HintDb p28_bounds discriminated.
Create Rewrite HintDb p28_rw.

(** ** Fallible code: [Result<A, E>]

    [Ok]/[Err] are the source's constructors; the bind of the monad is the
    source's [?] operator. *)

Inductive result (E A : Type) : Type :=
| Ok (a : A)
| Err (e : E).
Arguments Ok {E A} a.
Arguments Err {E A} e.

#[export] Instance result_ret {E} : MRet (result E) := λ A a, Ok a.
#[export] Instance result_bind {E} : MBind (result E) := λ A B f m,
  match m with Ok a => f a | Err e => Err e end.
#[export] Instance result_fmap {E} : FMap (result E) := λ A B f m,
  match m with Ok a => Ok (f a) | Err e => Err e end.

#[export] Instance result_eq_dec {E A} `{EqDecision E, EqDecision A} : EqDecision (result E A).
Proof. solve_decision. Defined.

(** [is_ok r] is [Result::is_ok]. *)
Definition is_ok {E A} (r : result E A) : bool :=
  match r with Ok _ => true | Err _ => false end.

(** [ok_or o e] is [Option::ok_or]. *)
Definition ok_or {E A} (o : option A) (e : E) : result E A :=
  match o with Some a => Ok a | None => Err e end.

(** [ensure c e] is the early return [if !c { return Err(e) }]. *)
Definition ensure {E} (c : bool) (e : E) : result E () :=
  if c then Ok () else Err e.

(** A loop that stops at the first error. *)
Fixpoint for_each {E A} (f : A → result E ()) (l : list A) : result E () :=
  match l with
  | [] => Ok ()
  | x :: l => f x ;; for_each f l
  end.

(** A loop that updates an accumulator and stops at the first error. *)
Fixpoint fold_result {E A B} (f : B → A → result E B) (acc : B) (l : list A) : result E B :=
  match l with
  | [] => Ok acc
  | x :: l => acc ← f acc x; fold_result f acc l
  end.

Section ResultLemmas.
Context {E A B : Type}.
Implicit Types (m : result E A) (f : A → result E B).

Lemma result_bind_ok f a : (Ok a ≫= f) = f a.
Proof. done. Qed.

Lemma result_bind_err f (e : E) : (Err e ≫= f) = Err e.
Proof. done. Qed.

Lemma bind_Ok_inv m f b : (m ≫= f) = Ok b ↔ ∃ a, m = Ok a ∧ f a = Ok b.
Proof. destruct m; naive_solver. Qed.

Lemma bind_Err_inv m f e :
  (m ≫= f) = Err e ↔ m = Err e ∨ ∃ a, m = Ok a ∧ f a = Err e.
Proof. destruct m; naive_solver. Qed.

Lemma ensure_Ok_inv (c : bool) (e : E) u : ensure c e = Ok u ↔ c = true.
Proof. destruct c, u; naive_solver. Qed.

Lemma ok_or_Ok_inv (o : option A) (e : E) a : ok_or o e = Ok a ↔ o = Some a.
Proof. destruct o; naive_solver. Qed.
End ResultLemmas.

Lemma for_each_Ok {E A} (g : A → result E ()) l u : for_each g l = Ok u ↔ Forall (λ x, g x = Ok ()) l.
Proof.
  destruct u. induction l as [|x l IH]; cbn [for_each]; [by split|]. rewrite Forall_cons, <- IH.
  destruct (g x) as [[]|e]; simpl; naive_solver.
Qed.

Lemma fold_result_snoc {E A B} (f : B → A → result E B) acc l x :
  fold_result f acc (l ++ [x]) = (acc ← fold_result f acc l; f acc x).
Proof.
  revert acc. induction l as [|y l IH]; intros acc; cbn [fold_result app]; [simpl; by destruct (f acc x)|].
  destruct (f acc y); simpl; [apply IH|done].
Qed.

(** [inv_result] opens every hypothesis that says a monadic computation
    returned [Ok]. *)
Ltac inv_result :=
  repeat match goal with
  | H : (_ ≫= _) = Ok _ |- _ =>
      apply bind_Ok_inv in H; let a := fresh "a" in let Ha := fresh "Ha" in
      destruct H as (a & Ha & H)
  | H : (let '(_, _) := ?p in _) = Ok _ |- _ =>
      let x := fresh "x" in let y := fresh "y" in destruct p as [x y]
  | H : ensure _ _ = Ok _ |- _ => apply ensure_Ok_inv in H
  | H : ok_or _ _ = Ok _ |- _ => apply ok_or_Ok_inv in H
  | H : Ok (_, _) = Ok _ |- _ => injection H as ? ?
  | H : Ok _ = Ok (_, _) |- _ => injection H as ? ?
  | H : Ok _ = Ok _ |- _ => injection H as H
  | H : Err _ = Ok _ |- _ => discriminate H
  | H : Ok _ = Err _ |- _ => discriminate H
  end.

(** [reflect_bool] turns the boolean comparisons of the code into the
    propositions they decide, in the hypotheses and the goal. *)
Ltac reflect_bool :=
  repeat match goal with
  | H : (_ && _)%bool = true |- _ => apply andb_true_iff in H; destruct H
  | H : (_ || _)%bool = false |- _ => apply orb_false_iff in H; destruct H
  | H : negb _ = true |- _ => apply negb_true_iff in H
  | H : negb _ = false |- _ => apply negb_false_iff in H
  | H : (_ <? _)%Z = true |- _ => apply Z.ltb_lt in H
  | H : (_ <? _)%Z = false |- _ => apply Z.ltb_ge in H
  | H : (_ <=? _)%Z = true |- _ => apply Z.leb_le in H
  | H : (_ <=? _)%Z = false |- _ => apply Z.leb_gt in H
  | H : (_ =? _)%Z = true |- _ => apply Z.eqb_eq in H
  | H : (_ =? _)%Z = false |- _ => apply Z.eqb_neq in H
  | H : (_ <? _) = true |- _ => apply Nat.ltb_lt in H
  | H : (_ <? _) = false |- _ => apply Nat.ltb_ge in H
  | H : (_ <=? _) = true |- _ => apply Nat.leb_le in H
  | H : (_ <=? _) = false |- _ => apply Nat.leb_gt in H
  | H : (_ =? _) = true |- _ => apply Nat.eqb_eq in H
  | H : (_ =? _) = false |- _ => apply Nat.eqb_neq in H
  | H : bool_decide _ = true |- _ => apply bool_decide_eq_true in H
  | H : bool_decide _ = false |- _ => apply bool_decide_eq_false in H
  end.

(** ** Sums of integers *)

Definition sumZ (l : list Z) : Z := foldr Z.add 0%Z l.

Section SumZ.
Local Open Scope Z_scope.
Implicit Types (l k : list Z).

Lemma sumZ_nil : sumZ [] = 0.
Proof. done. Qed.
Lemma sumZ_cons x l : sumZ (x :: l) = x + sumZ l.
Proof. done. Qed.
Lemma sumZ_app l k : sumZ (l ++ k) = sumZ l + sumZ k.
Proof. induction l; simpl; [done|]. rewrite IHl. lia. Qed.
Lemma sumZ_perm l k : l ≡ₚ k → sumZ l = sumZ k.
Proof. induction 1; simpl in *; lia. Qed.
Lemma sumZ_nonneg l : Forall (λ x, 0 <= x) l → 0 <= sumZ l.
Proof. induction 1; simpl; lia. Qed.
Lemma sumZ_elem_le l x : Forall (λ x, 0 <= x) l → x ∈ l → x <= sumZ l.
Proof.
  induction 1 as [|y l Hy Hl IH]; [by rewrite elem_of_nil|].
  rewrite elem_of_cons, sumZ_cons. pose proof (sumZ_nonneg l Hl).
  intros [->|?%IH]; lia.
Qed.
Lemma sumZ_fmap_ext {A} (f g : A → Z) (l : list A) :
  (∀ x, x ∈ l → f x = g x) → sumZ (f <$> l) = sumZ (g <$> l).
Proof.
  induction l as [|a l IH]; intros Hfg; [done|]. rewrite !fmap_cons, !sumZ_cons.
  rewrite Hfg by left. f_equal. apply IH. intros. apply Hfg. by right.
Qed.
Lemma sumZ_fmap_add {A} (f g : A → Z) (l : list A) :
  sumZ ((λ x, f x + g x) <$> l) = sumZ (f <$> l) + sumZ (g <$> l).
Proof. induction l; [done|]. rewrite !fmap_cons, !sumZ_cons, IHl. lia. Qed.
Lemma sumZ_insert l i x y :
  l !! i = Some x → sumZ (<[i:=y]> l) = sumZ l - x + y.
Proof.
  revert i. induction l as [|z l IH]; intros [|i] ?; simplify_eq/=; [lia|].
  rewrite (IH i) by done. lia.
Qed.
End SumZ.

#[export] Hint Rewrite sumZ_nil sumZ_cons sumZ_app : p28_rw.
#[export] Hint Resolve sumZ_nonneg : p28.

(** ** Sorting: [slice::sort_by]

    Rust's [sort_by] is stable and takes a comparison; [sort_by leb] is the
    stable sort for "[leb x y]: [x] may stand before [y]". *)

Section SortBy.
Context {A : Type} (leb : A → A → bool).
Implicit Types (x y : A) (l : list A).

Fixpoint insert_by x l : list A :=
  match l with
  | [] => [x]
  | y :: l' => if leb x y then x :: y :: l' else y :: insert_by x l'
  end.

Definition sort_by l : list A := foldr insert_by [] l.

Lemma insert_by_perm x l : insert_by x l ≡ₚ x :: l.
Proof.
  induction l as [|y l IH]; simpl; [done|]. case_match; [done|].
  rewrite IH. apply Permutation_swap.
Qed.

Lemma sort_by_perm l : sort_by l ≡ₚ l.
Proof. induction l as [|x l IH]; simpl; [done|]. by rewrite insert_by_perm, IH. Qed.

Lemma elem_of_sort_by x l : x ∈ sort_by l ↔ x ∈ l.
Proof. by rewrite sort_by_perm. Qed.

Lemma length_sort_by l : length (sort_by l) = length l.
Proof. by rewrite sort_by_perm. Qed.

Context (leb_trans : ∀ x y z, leb x y = true → leb y z = true → leb x z = true).
Context (leb_total : ∀ x y, leb x y = false → leb y x = true).

Lemma insert_by_sorted x l :
  StronglySorted (λ a b, leb a b = true) l →
  StronglySorted (λ a b, leb a b = true) (insert_by x l).
Proof using leb_trans leb_total.
  induction 1 as [|y l Hl IH Hy]; simpl; [repeat constructor|].
  destruct (leb x y) eqn:Hxy.
  - constructor; [by constructor|]. constructor; [done|].
    eapply Forall_impl; [done|]. eauto.
  - constructor; [done|]. rewrite insert_by_perm. constructor; eauto.
Qed.

Lemma sort_by_sorted l : StronglySorted (λ a b, leb a b = true) (sort_by l).
Proof using leb_trans leb_total.
  induction l; simpl; [constructor|]. by apply insert_by_sorted.
Qed.

(** Two sorted permutations agree where the comparison is antisymmetric. *)
Lemma sort_by_perm_eq l k :
  (∀ x y, leb x y = true → leb y x = true → x = y) →
  l ≡ₚ k → sort_by l = sort_by k.
Proof using leb_trans leb_total.
  intros Hanti Hlk.
  apply (StronglySorted_unique_strong (λ a b, leb a b = true));
    [|apply sort_by_sorted..|by rewrite !sort_by_perm].
  intros x1 x2 _ _ ? ?. by apply Hanti.
Qed.
End SortBy.

(** ** [Iterator::min_by]: the first of the least elements *)

Section MinBy.
Context {A : Type} (leb : A → A → bool).
Implicit Types (x y : A) (l : list A).

Definition min_by (l : list A) : option A :=
  match l with
  | [] => None
  | x :: l => Some (foldl (λ x y, if leb x y then x else y) x l)
  end.

Context (leb_refl : ∀ x, leb x x = true).
Context (leb_trans : ∀ x y z, leb x y = true → leb y z = true → leb x z = true).
Context (leb_total : ∀ x y, leb x y = false → leb y x = true).

Lemma min_by_foldl x l :
  let r := foldl (λ x y, if leb x y then x else y) x l in
  r ∈ x :: l ∧ leb r x = true ∧ ∀ y, y ∈ l → leb r y = true.
Proof using leb_refl leb_trans leb_total.
  revert x. induction l as [|y l IH]; intros x; simpl.
  { split_and!; [left|done|]. by intros y ?%elem_of_nil. }
  destruct (IH (if leb x y then x else y)) as (Hin & Hx & Hl).
  destruct (leb x y) eqn:E; (split_and!; [set_solver| |]); eauto.
  - intros z [->|Hz]%elem_of_cons; eauto.
  - intros z [->|Hz]%elem_of_cons; eauto.
Qed.

Lemma min_by_Some l x : min_by l = Some x → x ∈ l ∧ ∀ y, y ∈ l → leb x y = true.
Proof using leb_refl leb_trans leb_total.
  destruct l as [|a l]; simpl; [done|]. intros [= <-].
  destruct (min_by_foldl a l) as (Hin & Ha & Hl). split; [done|].
  intros y [->|Hy]%elem_of_cons; auto.
Qed.

Lemma min_by_None l : min_by l = None ↔ l = [].
Proof. by destruct l. Qed.
End MinBy.

(** ** Lists *)

Section ListLemmas.
Context {A : Type}.
Implicit Types (l : list A).

(** [slice l a b] is the Rust slice [&l[a..b]]. *)
Definition slice (a b : nat) l : list A := take (b - a) (drop a l).

Lemma slice_length a b l : a ≤ b → b ≤ length l → length (slice a b l) = b - a.
Proof. intros. unfold slice. rewrite length_take, length_drop. lia. Qed.

Lemma slice_lookup a b l i : i < b - a → slice a b l !! i = l !! (a + i).
Proof. intros. unfold slice. rewrite lookup_take_lt by lia. by rewrite lookup_drop. Qed.

Lemma slice_app_mid (p l s : list A) a b :
  b ≤ length l → slice (length p + a) (length p + b) (p ++ l ++ s) = slice a b l.
Proof.
  intros. unfold slice. rewrite drop_app_ge by lia.
  replace (length p + a - length p) with a by lia.
  replace (length p + b - (length p + a)) with (b - a) by lia.
  destruct (decide (a ≤ b)).
  - rewrite drop_app_le by lia. apply take_app_le. rewrite length_drop. lia.
  - by replace (b - a) with 0 by lia.
Qed.
End ListLemmas.

Lemma filter_all {A} (P : A → Prop) `{∀ x, Decision (P x)} l : Forall P l → filter P l = l.
Proof. induction 1; [done|]. rewrite filter_cons_True by done. by f_equal. Qed.

Lemma foldl_fmap {A B C} (f : C → B → C) (g : A → B) (l : list A) c :
  foldl f c (g <$> l) = foldl (λ c a, f c (g a)) c l.
Proof. revert c. induction l; intros; simpl; auto. Qed.

Section SortedLemmas.
Context {A : Type} (R : relation A).
Implicit Types (l : list A).

Lemma StronglySorted_lookup_lt l i j x y :
  StronglySorted R l → l !! i = Some x → l !! j = Some y → i < j → R x y.
Proof.
  intros Hl. revert i j. induction Hl as [|z l Hl IH Hz]; intros i j Hi Hj Hij; [done|].
  destruct j as [|j]; [lia|]. destruct i as [|i]; simpl in *; [|eapply IH; eauto; lia].
  simplify_eq. eapply Forall_lookup_1; eauto.
Qed.

Lemma StronglySorted_impl (R' : relation A) l :
  (∀ x y, R x y → R' x y) → StronglySorted R l → StronglySorted R' l.
Proof. intros HR. induction 1; constructor; [done|]. eapply Forall_impl; eauto. Qed.

Lemma StronglySorted_NoDup l : Irreflexive R → StronglySorted R l → NoDup l.
Proof.
  intros HR. induction 1 as [|x l _ IH Hx]; constructor; [|done].
  intros Hin. rewrite Forall_forall in Hx. by apply (HR x), Hx.
Qed.
End SortedLemmas.

(** [windows n l] is [slice::windows]: the runs of [n] consecutive elements. *)
Fixpoint windows {A} (n : nat) (l : list A) : list (list A) :=
  match l with
  | [] => []
  | _ :: l' => if n <=? length l then take n l :: windows n l' else []
  end.

Lemma length_windows {A} n (l : list A) :
  1 ≤ n → length (windows n l) = length l + 1 - n.
Proof.
  intros Hn. induction l as [|x l IH]; [simpl; lia|].
  cbn [windows]. destruct (n <=? length (x :: l)) eqn:E; reflect_bool; simpl in *; lia.
Qed.

Lemma lookup_windows {A} n (l : list A) i :
  1 ≤ n → windows n l !! i = (if decide (i + n ≤ length l) then Some (slice i (i + n) l) else None).
Proof.
  intros Hn. revert i. induction l as [|x l IH]; intros i.
  - rewrite decide_False by (simpl; lia). done.
  - cbn [windows]. destruct (n <=? length (x :: l)) eqn:E; reflect_bool.
    + destruct i as [|i]; simpl.
      * rewrite decide_True by (simpl in *; lia). unfold slice. f_equal. by rewrite Nat.sub_0_r.
      * rewrite IH. unfold slice. simpl.
        destruct (decide (i + n ≤ length l)), (decide (S (i + n) ≤ S (length l))); try lia; done.
    + rewrite decide_False by (simpl in *; lia). done.
Qed.

(** The windows of a middle part are a run of the windows of the whole. *)
Lemma windows_app {A} n (p l q : list A) :
  1 ≤ n → n ≤ length l →
  ∃ pre post, windows n (p ++ l ++ q) = pre ++ windows n l ++ post ∧ length pre = length p.
Proof.
  intros Hn Hl. set (W := windows n (p ++ l ++ q)).
  assert (HW : length W = length p + length l + length q + 1 - n)
    by (unfold W; rewrite length_windows, !length_app by done; lia).
  assert (Hmid : slice (length p) (length p + (length l + 1 - n)) W = windows n l).
  { apply list_eq_same_length with (length l + 1 - n);
      [by rewrite length_windows|rewrite slice_length; lia|].
    intros i x y Hi. rewrite slice_lookup by lia. unfold W. rewrite !lookup_windows by done.
    rewrite !length_app, !decide_True by lia. rewrite <- Nat.add_assoc, slice_app_mid by lia. congruence. }
  exists (take (length p) W), (drop (length p + (length l + 1 - n)) W).
  rewrite length_take. split; [|lia].
  rewrite <- Hmid. unfold slice.
  rewrite <- (take_drop (length p) W) at 1. f_equal.
  rewrite <- (take_drop (length l + 1 - n) (drop (length p) W)) at 1. rewrite drop_drop.
  f_equal. f_equal. lia.
Qed.

(** ** Counting *)

(** The number of occurrences of [x]. *)
Definition occ {A} `{EqDecision A} (x : A) (l : list A) : nat := length (filter (x =.) l).

Section Occ.
Context {A : Type} `{EqDecision A}.
Implicit Types (x : A) (l : list A).

Lemma occ_cons x y l : occ x (y :: l) = (if decide (x = y) then 1 else 0) + occ x l.
Proof. unfold occ. rewrite filter_cons. repeat case_decide; done. Qed.
Lemma occ_nil x : occ x [] = 0.
Proof. done. Qed.
Lemma occ_single x y : occ x [y] = if decide (x = y) then 1 else 0.
Proof. rewrite occ_cons, occ_nil. lia. Qed.
Lemma occ_app x l k : occ x (l ++ k) = occ x l + occ x k.
Proof. unfold occ. by rewrite filter_app, length_app. Qed.
Lemma occ_perm x l k : l ≡ₚ k → occ x l = occ x k.
Proof. intros H. unfold occ. by rewrite H. Qed.
Lemma occ_0 x l : occ x l = 0 ↔ x ∉ l.
Proof.
  induction l as [|y l IH]; [split; [intros _ ?%elem_of_nil; done|done]|].
  rewrite occ_cons, elem_of_cons. case_decide; [|rewrite Nat.add_0_l, IH; tauto].
  split; [lia|]. intros Hn. exfalso. apply Hn. by left.
Qed.
Lemma occ_pos x l : 0 < occ x l ↔ x ∈ l.
Proof. pose proof (occ_0 x l). destruct (decide (x ∈ l)); [|intuition lia]. split; [done|]. intros _. destruct (occ x l); [|lia]. tauto. Qed.
End Occ.
