(* ===== verification/MachineInt.v ===== *)
(** * Machine integers

    The unsigned integers of the source ([u8], [u32], [u64], and [usize] on
    the 64-bit targets Packet28 ships) as [Z] with their ranges, and the
    arithmetic of Rust's standard library on them: checked, saturating and
    wrapping.  The release profile of the workspace does not turn overflow
    checks on, so a bare [+] or [-] is the wrapping one. *)

From S2P Require Export Prelude.
Local Open Scope Z_scope.

Definition u8_max : Z := 255.
Definition u32_max : Z := 4294967295.
Definition u64_max : Z := 18446744073709551615.
Definition usize_max : Z := u64_max.

(** A value [x] fits the width whose greatest value is [m]. *)
Definition fits (m x : Z) : Prop := 0 <= x <= m.

#[export] Instance fits_dec m x : Decision (fits m x).
Proof. unfold fits. apply _. Defined.

(** [checked_add], [checked_sub], [checked_mul]: [None] out of range. *)
Definition checked_add (m a b : Z) : option Z := if a + b <=? m then Some (a + b) else None.
Definition checked_sub (a b : Z) : option Z := if b <=? a then Some (a - b) else None.
Definition checked_mul (m a b : Z) : option Z := if a * b <=? m then Some (a * b) else None.

(** [saturating_add], [saturating_sub], [saturating_mul]. *)
Definition saturating_add (m a b : Z) : Z := Z.min m (a + b).
Definition saturating_sub (a b : Z) : Z := Z.max 0 (a - b).
Definition saturating_mul (m a b : Z) : Z := Z.min m (a * b).

(** The arithmetic of a release build: modulo the width. *)
Definition wrapping_add (m a b : Z) : Z := (a + b) mod (m + 1).
Definition wrapping_sub (m a b : Z) : Z := (a - b) mod (m + 1).

Definition wrapping_mul (m a b : Z) : Z := (a * b) mod (m + 1).

(** [Iterator::sum] in a release build. *)
Definition wrapping_sum (m : Z) (l : list Z) : Z := foldl (wrapping_add m) 0 l.

#[global] Arguments checked_add : simpl never.
#[global] Arguments checked_sub : simpl never.
#[global] Arguments checked_mul : simpl never.
#[global] Arguments saturating_add : simpl never.
#[global] Arguments saturating_sub : simpl never.
#[global] Arguments saturating_mul : simpl never.
#[global] Arguments wrapping_add : simpl never.
#[global] Arguments wrapping_sub : simpl never.
#[global] Arguments wrapping_mul : simpl never.

Section Bounds.
Implicit Types (m a b : Z).

Lemma saturating_add_fits m a b : fits m a → fits m b → fits m (saturating_add m a b).
Proof. unfold fits, saturating_add. lia. Qed.
Lemma saturating_sub_fits m a b : fits m a → 0 <= b → fits m (saturating_sub a b).
Proof. unfold fits, saturating_sub. lia. Qed.
Lemma saturating_sub_nonneg a b : 0 <= saturating_sub a b.
Proof. unfold saturating_sub. lia. Qed.
Lemma saturating_sub_exact a b : b <= a → saturating_sub a b = a - b.
Proof. unfold saturating_sub. lia. Qed.
Lemma saturating_mul_fits m a b : fits m a → fits m b → fits m (saturating_mul m a b).
Proof. unfold fits, saturating_mul. nia. Qed.
Lemma saturating_add_exact m a b : a + b <= m → saturating_add m a b = a + b.
Proof. unfold saturating_add. lia. Qed.
Lemma saturating_add_comm m a b : saturating_add m a b = saturating_add m b a.
Proof. unfold saturating_add. lia. Qed.

Lemma checked_add_Some m a b c : checked_add m a b = Some c ↔ c = a + b ∧ a + b <= m.
Proof. unfold checked_add. split; case_match; reflect_bool; try done; first [intros [= <-]|intros [-> ?]|intros ?]; (lia || done || (f_equal; lia)). Qed.
Lemma checked_add_None m a b : checked_add m a b = None ↔ m < a + b.
Proof. unfold checked_add. split; case_match; reflect_bool; try done; first [intros [= <-]|intros [-> ?]|intros ?]; (lia || done || (f_equal; lia)). Qed.
Lemma checked_sub_Some a b c : checked_sub a b = Some c ↔ c = a - b ∧ b <= a.
Proof. unfold checked_sub. split; case_match; reflect_bool; try done; first [intros [= <-]|intros [-> ?]|intros ?]; (lia || done || (f_equal; lia)). Qed.
Lemma checked_sub_None a b : checked_sub a b = None ↔ a < b.
Proof. unfold checked_sub. split; case_match; reflect_bool; try done; first [intros [= <-]|intros [-> ?]|intros ?]; (lia || done || (f_equal; lia)). Qed.
Lemma checked_mul_Some m a b c : checked_mul m a b = Some c ↔ c = a * b ∧ a * b <= m.
Proof. unfold checked_mul. split; case_match; reflect_bool; try done; first [intros [= <-]|intros [-> ?]|intros ?]; (lia || done || (f_equal; lia)). Qed.

Lemma checked_add_ok m a b : a + b <= m → checked_add m a b = Some (a + b).
Proof. intros. by apply checked_add_Some. Qed.
Lemma checked_sub_ok a b : b <= a → checked_sub a b = Some (a - b).
Proof. intros. by apply checked_sub_Some. Qed.
Lemma checked_mul_ok m a b : a * b <= m → checked_mul m a b = Some (a * b).
Proof. intros. by apply checked_mul_Some. Qed.

Lemma wrapping_add_fits m a b : 0 <= m → fits m (wrapping_add m a b).
Proof. unfold fits, wrapping_add. intros. pose proof (Z.mod_pos_bound (a+b) (m+1)). lia. Qed.
Lemma wrapping_add_exact m a b : fits m (a + b) → wrapping_add m a b = a + b.
Proof. unfold fits, wrapping_add. intros. apply Z.mod_small. lia. Qed.
Lemma wrapping_sub_exact m a b : fits m (a - b) → wrapping_sub m a b = a - b.
Proof. unfold fits, wrapping_sub. intros. apply Z.mod_small. lia. Qed.

Lemma wrapping_foldl_exact m l acc :
  0 <= acc → Forall (λ x, 0 <= x) l → acc + sumZ l <= m →
  foldl (wrapping_add m) acc l = acc + sumZ l.
Proof.
  revert acc. induction l as [|x l IH]; intros acc Hacc Hl Hm; simpl; [lia|].
  apply Forall_cons in Hl as [Hx Hl]. simpl in Hm.
  pose proof (sumZ_nonneg l Hl). rewrite wrapping_add_exact by (unfold fits; lia).
  rewrite IH by (done || lia). lia.
Qed.

(** A sum that fits the width is the mathematical sum. *)
Lemma wrapping_sum_exact m l :
  Forall (λ x, 0 <= x) l → sumZ l <= m → wrapping_sum m l = sumZ l.
Proof. intros. unfold wrapping_sum. rewrite wrapping_foldl_exact by (done || lia). lia. Qed.

Lemma wrapping_foldl_mod m l acc :
  foldl (wrapping_add m) (acc mod (m + 1)) l = (acc + sumZ l) mod (m + 1).
Proof.
  revert acc. induction l as [|x l IH]; intros acc; simpl; [by rewrite Z.add_0_r|].
  unfold wrapping_add at 2. rewrite Zplus_mod_idemp_l, IH. f_equal. lia.
Qed.

Lemma wrapping_sum_mod m l : 0 <= m → wrapping_sum m l = sumZ l mod (m + 1).
Proof.
  intros. unfold wrapping_sum.
  rewrite <- (Z.mod_0_l (m + 1)) by lia. by rewrite wrapping_foldl_mod, Z.add_0_l.
Qed.
End Bounds.

#[export] Hint Resolve saturating_add_fits saturating_sub_fits saturating_mul_fits
  wrapping_add_fits : p28_bounds.
#[export] Hint Rewrite wrapping_add_exact wrapping_sub_exact using (unfold fits in *; lia) : p28_rw.

(** [solve_bounds] closes range side conditions of machine integers. *)
Ltac solve_bounds :=
  unfold fits, u8_max, u32_max, usize_max, u64_max, saturating_add, saturating_sub in *;
  reflect_bool; lia.

(** ** Byte order: [to_le_bytes], [from_le_bytes], [to_be_bytes], [from_be_bytes] *)

Fixpoint to_le_bytes (n : nat) (x : Z) : list Z :=
  match n with
  | O => []
  | S n => x mod 256 :: to_le_bytes n (x / 256)
  end.

Fixpoint from_le_bytes (bs : list Z) : Z :=
  match bs with
  | [] => 0
  | b :: bs => b + 256 * from_le_bytes bs
  end.

Definition to_be_bytes (n : nat) (x : Z) : list Z := reverse (to_le_bytes n x).
Definition from_be_bytes (bs : list Z) : Z := from_le_bytes (reverse bs).

(** The value of a byte. *)
Definition byte (b : Z) : Prop := 0 <= b <= 255.

Lemma length_to_le_bytes n x : length (to_le_bytes n x) = n.
Proof. revert x. induction n; intros; simpl; auto. Qed.
Lemma length_to_be_bytes n x : length (to_be_bytes n x) = n.
Proof. unfold to_be_bytes. by rewrite length_reverse, length_to_le_bytes. Qed.

Lemma to_le_bytes_byte n x : Forall byte (to_le_bytes n x).
Proof.
  revert x. induction n; intros; simpl; constructor; [|done].
  unfold byte. pose proof (Z.mod_pos_bound x 256). lia.
Qed.

Lemma from_to_le_bytes n x : 0 <= x < 256 ^ Z.of_nat n → from_le_bytes (to_le_bytes n x) = x.
Proof.
  revert x. induction n as [|n IH]; intros x Hx; cbn [to_le_bytes from_le_bytes]; [simpl in Hx; lia|].
  rewrite Nat2Z.inj_succ, Z.pow_succ_r in Hx by lia.
  rewrite IH; [pose proof (Z_div_mod_eq_full x 256); lia|].
  split; [apply Z.div_pos; lia|]. apply Z.div_lt_upper_bound; lia.
Qed.

Lemma from_le_bytes_bound bs : Forall byte bs → 0 <= from_le_bytes bs < 256 ^ Z.of_nat (length bs).
Proof.
  induction 1 as [|b bs Hb _ IH]; cbn [from_le_bytes length]; [simpl; lia|].
  rewrite Nat2Z.inj_succ, Z.pow_succ_r by lia. unfold byte in Hb. lia.
Qed.

Lemma to_from_le_bytes bs : Forall byte bs → to_le_bytes (length bs) (from_le_bytes bs) = bs.
Proof.
  induction 1 as [|b bs Hb _ IH]; cbn [from_le_bytes to_le_bytes length]; [done|].
  unfold byte in Hb. rewrite (Z.mul_comm 256), Z.mod_add, Z.div_add by lia.
  rewrite Z.mod_small, Z.div_small by lia. by rewrite Z.add_0_l, IH.
Qed.

Lemma from_to_be_bytes n x : 0 <= x < 256 ^ Z.of_nat n → from_be_bytes (to_be_bytes n x) = x.
Proof. intros. unfold from_be_bytes, to_be_bytes. rewrite reverse_involutive. by apply from_to_le_bytes. Qed.

Lemma from_be_bytes_bound bs : Forall byte bs → 0 <= from_be_bytes bs < 256 ^ Z.of_nat (length bs).
Proof.
  intros. unfold from_be_bytes. rewrite <- (length_reverse bs).
  apply from_le_bytes_bound. by apply Forall_reverse.
Qed.

Lemma to_from_be_bytes bs : Forall byte bs → to_be_bytes (length bs) (from_be_bytes bs) = bs.
Proof.
  intros H. unfold to_be_bytes, from_be_bytes. rewrite <- (length_reverse bs).
  rewrite to_from_le_bytes by (by apply Forall_reverse). apply reverse_involutive.
Qed.

(** ** Bits *)

(** A property of all bytes below [n] is decided by running through them. *)
Lemma forall_below (n : Z) (P : Z → bool) :
  forallb P (seqZ 0 n) = true → ∀ b, 0 <= b < n → P b = true.
Proof.
  rewrite forallb_forall. intros H b Hb. apply H. apply list_elem_of_In, elem_of_seqZ. lia.
Qed.

Lemma land_pred_pow2 n x : 0 <= n → Z.land x (2 ^ n - 1) = x mod 2 ^ n.
Proof. intros. rewrite <- Z.land_ones by done. f_equal. rewrite Z.ones_equiv. lia. Qed.

Lemma lor_disjoint_add n a b :
  0 <= n → 0 <= a < 2 ^ n → Z.lor a (b * 2 ^ n) = a + b * 2 ^ n.
Proof.
  intros Hn Ha. rewrite <- Z.add_nocarry_lor; [done|].
  destruct (decide (a = 0)) as [->|Ha0]; [done|].
  apply Z.bits_inj'. intros i Hi. rewrite Z.land_spec, Z.bits_0.
  destruct (decide (i < n)).
  - rewrite (Z.mul_pow2_bits_low b) by lia. by rewrite andb_false_r.
  - rewrite (Z.bits_above_log2 a), andb_false_l; [done|lia|].
    apply Z.lt_le_trans with n; [|lia]. apply Z.log2_lt_pow2; lia.
Qed.

Lemma lor_fits n a b : 0 <= n → 0 <= a < 2 ^ n → 0 <= b < 2 ^ n → 0 <= Z.lor a b < 2 ^ n.
Proof.
  intros Hn Ha Hb.
  assert (Z.lor a b = Z.lor a b mod 2 ^ n) as ->; [|apply Z.mod_pos_bound; lia].
  rewrite <- Z.land_ones, Z.land_lor_distr_l, !Z.land_ones by done.
  by rewrite !Z.mod_small by done.
Qed.
