(* ===== verification/Str.v ===== *)
(** * Strings: the [str] operations the source uses

    A [String] is its UTF-8 bytes ([string]: a list of 8-bit characters), so
    [len] counts bytes and the derived order is the byte order, as in Rust.
    [trim] removes Unicode white space, whose UTF-8 encodings are spelled out:
    on valid UTF-8 a match at either end is a whole character. *)

From S2P Require Export MachineInt.

Definition chr (c : ascii) : N := N_of_ascii c.

(** [str::len]. *)
Definition str_len (s : string) : nat := String.length s.

(** Bytes of a string and back. *)
Fixpoint str_bytes (s : string) : list ascii :=
  match s with EmptyString => [] | String c s => c :: str_bytes s end.
Fixpoint str_of_bytes (l : list ascii) : string :=
  match l with [] => EmptyString | c :: l => String c (str_of_bytes l) end.

Lemma str_bytes_app s1 s2 : str_bytes (s1 +:+ s2) = str_bytes s1 ++ str_bytes s2.
Proof. induction s1 as [|c s1 IH]; [done|]. simpl. by rewrite <- IH. Qed.

Lemma str_app_assoc (a b c : string) : a +:+ b +:+ c = (a +:+ b) +:+ c.
Proof.
  induction a as [|x a IH]; [done|]. change (String x (a +:+ b +:+ c) = String x ((a +:+ b) +:+ c)). by rewrite IH.
Qed.

(** ** White space *)

(** The UTF-8 encodings of the white-space characters, by length. *)
Definition ws1 (a : N) : bool := ((9 <=? a) && (a <=? 13) || (a =? 32))%N.
Definition ws2 (a b : N) : bool := ((a =? 194) && ((b =? 133) || (b =? 160)))%N.
Definition ws3 (a b c : N) : bool :=
  ((a =? 225) && (b =? 154) && (c =? 128)
   || (a =? 226) && (b =? 128)
      && ((128 <=? c) && (c <=? 138) || (c =? 168) || (c =? 169) || (c =? 175))
   || (a =? 226) && (b =? 129) && (c =? 159)
   || (a =? 227) && (b =? 128) && (c =? 128))%N.

(** The length in bytes of the white-space character a byte sequence starts
    with, 0 when it starts with none. *)
Definition ws_front (l : list ascii) : nat :=
  match l with
  | [] => 0
  | a :: r =>
      if ws1 (chr a) then 1
      else match r with
      | [] => 0
      | b :: r =>
          if ws2 (chr a) (chr b) then 2
          else match r with
          | [] => 0
          | c :: _ => if ws3 (chr a) (chr b) (chr c) then 3 else 0
          end
      end
  end.

(** The same at the end of a sequence given in reverse. *)
Definition ws_back (l : list ascii) : nat :=
  match l with
  | [] => 0
  | a :: r =>
      if ws1 (chr a) then 1
      else match r with
      | [] => 0
      | b :: r =>
          if ws2 (chr b) (chr a) then 2
          else match r with
          | [] => 0
          | c :: _ => if ws3 (chr c) (chr b) (chr a) then 3 else 0
          end
      end
  end.

Fixpoint strip_ws (ws : list ascii → nat) (fuel : nat) (l : list ascii) : list ascii :=
  match fuel with
  | O => l
  | S fuel => match ws l with O => l | n => strip_ws ws fuel (drop n l) end
  end.

Definition trim_start (l : list ascii) : list ascii := strip_ws ws_front (length l) l.
Definition trim_end (l : list ascii) : list ascii :=
  reverse (strip_ws ws_back (length l) (reverse l)).

(** [str::trim]. *)
Definition trim (s : string) : string := str_of_bytes (trim_end (trim_start (str_bytes s))).

(** [s.trim().is_empty()]. *)
Definition is_blank (s : string) : bool := bool_decide (trim s = EmptyString).

(** ** Prefixes and splitting *)

Fixpoint strip_prefix (p s : string) : option string :=
  match p, s with
  | EmptyString, _ => Some s
  | String a p, String b s => if ascii_dec a b then strip_prefix p s else None
  | _, _ => None
  end.

Definition starts_with (p s : string) : bool :=
  match strip_prefix p s with Some _ => true | None => false end.

(** [str::contains] of a string. *)
Fixpoint contains (p s : string) : bool :=
  starts_with p s || match s with EmptyString => false | String _ s => contains p s end.

(** [str::split_once] at a character: the parts around its first occurrence. *)
Fixpoint split_once (c : ascii) (s : string) : option (string * string) :=
  match s with
  | EmptyString => None
  | String b s =>
      if ascii_dec b c then Some (EmptyString, s)
      else '(l, r) ← split_once c s; Some (String b l, r)
  end.

(** [s.splitn(n, c)], collected. *)
Fixpoint splitn (n : nat) (c : ascii) (s : string) : list string :=
  match n with
  | O => []
  | S O => [s]
  | S n => match split_once c s with
           | Some (l, r) => l :: splitn n c r
           | None => [s]
           end
  end.

(** [s.replace(a, b)] for single characters. *)
Fixpoint replace_char (a b : ascii) (s : string) : string :=
  match s with
  | EmptyString => EmptyString
  | String c s => String (if ascii_dec c a then b else c) (replace_char a b s)
  end.

(** ** Lines *)

Definition newline : ascii := "010".
Definition carriage : ascii := "013".

(** The pieces of [split_inclusive('\n')], each with whether it ended in one. *)
Fixpoint split_newlines (s : string) : list (string * bool) :=
  match s with
  | EmptyString => []
  | String c s =>
      if ascii_dec c newline then (EmptyString, true) :: split_newlines s
      else match split_newlines s with
           | (l, t) :: ls => (String c l, t) :: ls
           | [] => [(String c EmptyString, false)]
           end
  end.

Fixpoint strip_carriage (s : string) : string :=
  match s with
  | EmptyString => EmptyString
  | String c EmptyString => if ascii_dec c carriage then EmptyString else s
  | String c s => String c (strip_carriage s)
  end.

(** [str::lines]. *)
Definition lines (s : string) : list string :=
  (λ '(l, terminated), if terminated : bool then strip_carriage l else l) <$> split_newlines s.

(** ** Numbers: [str::parse] at an unsigned width *)

Definition digit_value (c : ascii) : option Z :=
  let n := Z.of_N (chr c) in
  if ((48 <=? n) && (n <=? 57))%Z then Some (n - 48)%Z else None.

Fixpoint parse_digits (max : Z) (acc : Z) (s : string) : option Z :=
  match s with
  | EmptyString => Some acc
  | String c s =>
      d ← digit_value c;
      acc ← checked_mul max acc 10;
      acc ← checked_add max acc d;
      parse_digits max acc s
  end.

(** [s.parse::<uN>().ok()]: an optional [+], then at least one digit. *)
Definition parse_uint (max : Z) (s : string) : option Z :=
  match s with
  | EmptyString => None
  | String "+" EmptyString => None
  | String "+" s => parse_digits max 0 s
  | s => parse_digits max 0 s
  end.

Definition parse_u32 : string → option Z := parse_uint u32_max.
Definition parse_u64 : string → option Z := parse_uint u64_max.

(** ** Decimal printing: [{}] of an unsigned integer *)

Definition show_uint (n : Z) : string := pretty (Z.to_N n).

(** The bytes of a text, as integers. *)
Definition text_bytes (s : string) : list Z := (λ c, Z.of_N (chr c)) <$> str_bytes s.
Definition bytes_text (l : list Z) : string := str_of_bytes ((λ z, ascii_of_N (Z.to_N z)) <$> l).

Example trim_ex : trim "  a b	" = "a b".
Proof. reflexivity. Qed.
Example lines_ex : lines (str_of_bytes ["a"; carriage; newline; newline; "b"])%char = ["a"; ""; "b"].
Proof. reflexivity. Qed.
Example splitn_ex : splitn 2 "," "a,b,c" = ["a"; "b,c"].
Proof. reflexivity. Qed.
Example parse_ex : (parse_u32 <$> ["12"; "+7"; ""; "+"; "4294967295"; "4294967296"; "1x"; "-0"])
  = [Some 12; Some 7; None; None; Some 4294967295; None; None; None]%Z.
Proof. reflexivity. Qed.

(** ** Printing and parsing *)

Definition is_digit (c : ascii) : bool := bool_decide (is_Some (digit_value c)).

Section Printing.
Local Open Scope Z_scope.

Lemma pretty_char_digit (d : N) : (d < 10)%N → digit_value (pretty_N_char d) = Some (Z.of_N d).
Proof.
  intros Hd. assert (Forall (λ d, digit_value (pretty_N_char d) = Some (Z.of_N d))
    [0; 1; 2; 3; 4; 5; 6; 7; 8; 9]%N) as Hall by (repeat constructor).
  rewrite Forall_forall in Hall. apply Hall.
  assert (d = 0 ∨ d = 1 ∨ d = 2 ∨ d = 3 ∨ d = 4 ∨ d = 5 ∨ d = 6 ∨ d = 7 ∨ d = 8 ∨ d = 9)%N as Hc by lia.
  repeat (destruct Hc as [->|Hc]; [set_solver|]). subst. set_solver.
Qed.

Lemma parse_pretty_go max (x : N) s :
  Z.of_N x <= max → parse_digits max 0 (pretty_N_go x s) = parse_digits max (Z.of_N x) s.
Proof.
  revert s. induction (N.lt_wf_0 x) as [x _ IH]; intros s Hx.
  destruct (decide (x = 0)%N) as [->|Hne]; [by rewrite pretty_N_go_0|].
  rewrite pretty_N_go_step by lia.
  assert (x / 10 < x)%N as Hq by (apply N.div_lt; lia).
  assert (x = 10 * (x / 10) + x mod 10)%N as E by (apply N.div_mod; lia).
  assert (x mod 10 < 10)%N as Hr by (apply N.mod_lt; lia).
  revert E Hq Hr. generalize (x / 10)%N as q, (x mod 10)%N as r. intros q r E Hq Hr.
  rewrite IH by lia. cbn [parse_digits]. rewrite pretty_char_digit by lia. cbn [mbind option_bind].
  rewrite checked_mul_ok by lia. cbn [mbind option_bind]. rewrite checked_add_ok by lia. cbn [mbind option_bind].
  f_equal. lia.
Qed.

Lemma pretty_go_digits (x : N) s :
  Forall (λ c, is_digit c = true) (str_bytes s) → Forall (λ c, is_digit c = true) (str_bytes (pretty_N_go x s)).
Proof.
  revert s. induction (N.lt_wf_0 x) as [x _ IH]; intros s Hs.
  destruct (decide (x = 0)%N) as [->|Hne]; [by rewrite pretty_N_go_0|].
  rewrite pretty_N_go_step by lia. apply IH; [apply N.div_lt; lia|]. simpl. constructor; [|done].
  unfold is_digit. rewrite pretty_char_digit by (apply N.mod_lt; lia). apply bool_decide_eq_true. eauto.
Qed.

Lemma pretty_go_nonempty (x : N) c s : pretty_N_go x (String c s) ≠ EmptyString.
Proof.
  revert c s. induction (N.lt_wf_0 x) as [x _ IH]; intros c s.
  destruct (decide (x = 0)%N) as [->|Hne]; [by rewrite pretty_N_go_0|].
  rewrite pretty_N_go_step by lia. apply IH, N.div_lt; lia.
Qed.

Lemma show_uint_digits n :
  Forall (λ c, is_digit c = true) (str_bytes (show_uint n)) ∧ show_uint n ≠ EmptyString.
Proof.
  unfold show_uint, pretty, pretty_N. case_decide as Hz; [split; [repeat constructor|done]|].
  split; [by apply pretty_go_digits|]. rewrite pretty_N_go_step by lia. apply pretty_go_nonempty.
Qed.

(** A printed number parses back. *)
Lemma parse_show_uint max n : fits max n → parse_uint max (show_uint n) = Some n.
Proof.
  intros [H0 Hm]. destruct (show_uint_digits n) as [Hd Hne].
  assert (parse_digits max 0 (show_uint n) = Some n) as Hp.
  { unfold show_uint, pretty, pretty_N. case_decide as Hz.
    - assert (n = 0) as -> by lia. simpl. rewrite checked_mul_ok by lia. simpl. by rewrite checked_add_ok by lia.
    - rewrite parse_pretty_go by lia. simpl. f_equal. lia. }
  unfold parse_uint. destruct (show_uint n) as [|c s]; [done|]. simpl in Hd.
  apply Forall_cons in Hd as [Hc _]. destruct c as [[] [] [] [] [] [] [] []]; try done.
Qed.

Lemma show_uint_no_char n c : is_digit c = false → c ∉ str_bytes (show_uint n).
Proof.
  intros Hc Hin. destruct (show_uint_digits n) as [Hd _]. rewrite Forall_forall in Hd.
  specialize (Hd _ Hin). congruence.
Qed.
End Printing.

(** ** Splitting *)

Section Splitting.
Implicit Types (c : ascii) (l r s p : string).

Lemma str_bytes_inj l r : str_bytes l = str_bytes r → l = r.
Proof.
  revert r. induction l as [|c l IH]; intros [|d r]; simpl; [done..|]. intros [= -> ?]. f_equal. auto.
Qed.

Lemma split_once_here c l r : c ∉ str_bytes l → split_once c (l +:+ String c r) = Some (l, r).
Proof.
  induction l as [|b l IH]; simpl; intros Hc.
  - by destruct (ascii_dec c c).
  - apply not_elem_of_cons in Hc as [Hne Hc]. destruct (ascii_dec b c) as [->|]; [done|].
    change (String.append l (String c r)) with (l +:+ String c r). by rewrite IH.
Qed.

Lemma split_once_none c l : c ∉ str_bytes l → split_once c l = None.
Proof.
  induction l as [|b l IH]; simpl; intros Hc; [done|].
  apply not_elem_of_cons in Hc as [Hne Hc]. destruct (ascii_dec b c) as [->|]; [done|]. by rewrite IH.
Qed.

Lemma strip_prefix_app p s : strip_prefix p (p +:+ s) = Some s.
Proof. induction p as [|c p IH]; simpl; [by destruct s|]. destruct (ascii_dec c c); [exact IH|done]. Qed.

Lemma strip_prefix_Some p s r : strip_prefix p s = Some r → s = p +:+ r.
Proof.
  revert s. induction p as [|c p IH]; intros s; [by intros [= ->]|].
  destruct s as [|d s]; [done|]. simpl. destruct (ascii_dec c d) as [->|]; [|done].
  intros E. by rewrite (IH s E).
Qed.

Lemma starts_with_Some p s : starts_with p s = true → ∃ r, s = p +:+ r.
Proof.
  unfold starts_with. destruct (strip_prefix p s) as [r|] eqn:E; [|done]. intros _. exists r.
  by apply strip_prefix_Some.
Qed.

Lemma starts_with_app p s : starts_with p (p +:+ s) = true.
Proof. unfold starts_with. by rewrite strip_prefix_app. Qed.
End Splitting.

Lemma contains_app p s r : contains p (s +:+ p +:+ r) = true.
Proof.
  induction s as [|c s IH].
  - change ("" +:+ p +:+ r) with (p +:+ r). destruct (p +:+ r) as [|c q] eqn:E; simpl; rewrite <- E, starts_with_app; done.
  - change (String c s +:+ p +:+ r) with (String c (s +:+ p +:+ r)). cbn [contains]. by rewrite IH, orb_true_r.
Qed.

(** ** Lines *)

(** A line of a text: no newline inside, no carriage return at its end. *)
Definition line_ok (s : string) : Prop := newline ∉ str_bytes s ∧ strip_carriage s = s.

(** Every line ended by a newline. *)
Fixpoint unlines (l : list string) : string :=
  match l with [] => EmptyString | s :: l => s +:+ String newline (unlines l) end.

Lemma unlines_cons s l : unlines (s :: l) = s +:+ String newline EmptyString +:+ unlines l.
Proof. done. Qed.

Lemma unlines_app l k : unlines (l ++ k) = unlines l +:+ unlines k.
Proof.
  induction l as [|s l IH]; [done|]. cbn [unlines app]. rewrite IH.
  change (String newline (unlines l)) with (String newline EmptyString +:+ unlines l).
  change (String newline (unlines l +:+ unlines k)) with (String newline EmptyString +:+ unlines l +:+ unlines k).
  by rewrite !str_app_assoc.
Qed.

Lemma split_newlines_line s t :
  newline ∉ str_bytes s → split_newlines (s +:+ String newline t) = (s, true) :: split_newlines t.
Proof.
  induction s as [|c s IH]; intros Hs; cbn [split_newlines String.append].
  - by destruct (ascii_dec newline newline).
  - apply not_elem_of_cons in Hs as [Hne Hs]. simpl. destruct (ascii_dec c newline) as [->|]; [done|].
    change (String.append s (String newline t)) with (s +:+ String newline t). by rewrite IH.
Qed.

Lemma lines_unlines l : Forall line_ok l → lines (unlines l) = l.
Proof.
  unfold lines. induction 1 as [|s l [Hn Hc] _ IH]; [done|]. cbn [unlines].
  rewrite split_newlines_line by done. rewrite fmap_cons. simpl. by rewrite Hc, IH.
Qed.

Lemma strip_carriage_app p s : strip_carriage p = p → strip_carriage (p +:+ s) = p +:+ strip_carriage s.
Proof.
  induction p as [|c p IH]; intros Hp; [done|].
  change (String c p +:+ s) with (String c (p +:+ s)). change (String c p +:+ strip_carriage s) with (String c (p +:+ strip_carriage s)).
  destruct p as [|d p].
  - destruct s; [exact Hp|done].
  - change (String c (strip_carriage (String d p +:+ s)) = String c (String d p +:+ strip_carriage s)).
    rewrite IH; [done|]. by injection Hp.
Qed.

Lemma strip_carriage_id s : carriage ∉ str_bytes s → strip_carriage s = s.
Proof.
  induction s as [|c s IH]; [done|]. cbn [str_bytes]. intros [Hc Hs]%not_elem_of_cons. destruct s as [|d s].
  - simpl. by destruct (ascii_dec c carriage) as [->|].
  - change (String c (strip_carriage (String d s)) = String c (String d s)). by rewrite IH.
Qed.

Lemma strip_carriage_tail p s : s ≠ EmptyString → strip_carriage (p +:+ s) = p +:+ strip_carriage s.
Proof.
  intros Hs. induction p as [|c p IH]; [done|].
  change (String c p +:+ s) with (String c (p +:+ s)). change (String c p +:+ strip_carriage s) with (String c (p +:+ strip_carriage s)).
  rewrite <- IH. destruct (p +:+ s) eqn:E; [|done]. destruct p; [by destruct s|done].
Qed.

Lemma strip_carriage_cases s : s = strip_carriage s ∨ s = strip_carriage s +:+ String carriage EmptyString.
Proof.
  induction s as [|c s IH]; [by left|]. destruct s as [|d s].
  - simpl. destruct (ascii_dec c carriage) as [->|]; [by right|by left].
  - change (strip_carriage (String c (String d s))) with (String c (strip_carriage (String d s))).
    destruct IH as [IH|IH]; [left; by rewrite <- IH|right].
    change (String c (String d s) = String c (strip_carriage (String d s) +:+ String carriage EmptyString)). by rewrite <- IH.
Qed.

Lemma lines_unlines_any l : Forall (λ s, newline ∉ str_bytes s) l → lines (unlines l) = strip_carriage <$> l.
Proof.
  unfold lines. induction 1 as [|s l Hn _ IH]; [done|]. cbn [unlines].
  rewrite split_newlines_line by done. rewrite !fmap_cons. by rewrite IH.
Qed.

(** ** The order of strings: byte by byte, as [Ord for str] *)

Fixpoint str_leb (a b : string) : bool :=
  match a, b with
  | EmptyString, _ => true
  | String _ _, EmptyString => false
  | String x a, String y b => (chr x <? chr y)%N || ((chr x =? chr y)%N && str_leb a b)
  end.

Definition str_ltb (a b : string) : bool := negb (str_leb b a).

Section StrOrder.
Implicit Types (a b c : string).

Lemma chr_inj x y : chr x = chr y → x = y.
Proof. intros H. rewrite <- (ascii_N_embedding x), <- (ascii_N_embedding y). unfold chr in H. by rewrite H. Qed.

Lemma str_leb_refl a : str_leb a a = true.
Proof. induction a as [|x a IH]; simpl; [done|]. by rewrite N.eqb_refl, IH, orb_true_r. Qed.

Lemma str_leb_total a b : str_leb a b = false → str_leb b a = true.
Proof.
  revert b. induction a as [|x a IH]; intros [|y b]; simpl; try done.
  rewrite orb_false_iff, andb_false_iff, orb_true_iff, andb_true_iff. rewrite N.ltb_ge, N.eqb_neq, N.ltb_lt, N.eqb_eq.
  intros [Hle Hor]. destruct (decide (chr x = chr y)) as [E|E].
  - right. split; [done|]. apply IH. naive_solver.
  - left. lia.
Qed.

Lemma str_leb_trans a b c : str_leb a b = true → str_leb b c = true → str_leb a c = true.
Proof.
  revert b c. induction a as [|x a IH]; intros [|y b] [|z c]; simpl; try done.
  rewrite !orb_true_iff, !andb_true_iff, !N.ltb_lt, !N.eqb_eq.
  intros [?|[? ?]] [?|[? ?]]; [left; lia|left; lia|left; lia|]. right. split; [congruence|eauto].
Qed.

Lemma str_leb_antisym a b : str_leb a b = true → str_leb b a = true → a = b.
Proof.
  revert b. induction a as [|x a IH]; intros [|y b]; simpl; try done.
  rewrite !orb_true_iff, !andb_true_iff, !N.ltb_lt, !N.eqb_eq.
  intros [?|[E ?]] [?|[? ?]]; try lia. apply chr_inj in E as ->. f_equal. auto.
Qed.
End StrOrder.

(** ** Trimming *)

Section Trim.
Implicit Types (l : list ascii).

Lemma str_bytes_of_bytes l : str_bytes (str_of_bytes l) = l.
Proof. induction l as [|c l IH]; simpl; [done|by rewrite IH]. Qed.

Lemma str_of_bytes_nil l : str_of_bytes l = EmptyString ↔ l = [].
Proof. by destruct l. Qed.

Lemma ws_front_app l k : ws_front l ≠ 0 → ws_front (l ++ k) = ws_front l.
Proof.
  unfold ws_front. destruct l as [|a [|b [|c l]]]; simpl; repeat case_match; done.
Qed.

Lemma strip_ws_suffix ws fuel l : ∃ k, l = k ++ strip_ws ws fuel l.
Proof.
  revert l. induction fuel as [|fuel IH]; intros l; simpl; [by exists []|].
  destruct (ws l) as [|n]; [by exists []|]. destruct (IH (drop (S n) l)) as [k Hk].
  exists (take (S n) l ++ k). rewrite <- app_assoc, <- Hk. by rewrite take_drop.
Qed.

Lemma strip_ws_done ws fuel l : ws [] = 0 → length l ≤ fuel → ws (strip_ws ws fuel l) = 0.
Proof.
  intros H0. revert l. induction fuel as [|fuel IH]; intros l Hl; simpl.
  - by destruct l; simpl in Hl; [|lia].
  - destruct (ws l) as [|n] eqn:E; [done|]. apply IH. rewrite length_drop. destruct l; simpl in *; [congruence|lia].
Qed.

Lemma strip_ws_stop ws fuel l : ws l = 0 → strip_ws ws fuel l = l.
Proof. destruct fuel; simpl; [done|]. by intros ->. Qed.

(** Trimming a trimmed string changes nothing. *)
Lemma trim_idemp s : trim (trim s) = trim s.
Proof.
  unfold trim. rewrite !str_bytes_of_bytes. f_equal. set (l := trim_start (str_bytes s)).
  assert (Hf : ws_front l = 0) by (apply strip_ws_done; done).
  destruct (strip_ws_suffix ws_back (length l) (reverse l)) as [k Hk].
  assert (Hl : l = trim_end l ++ reverse k)
    by (unfold trim_end; rewrite <- reverse_app, <- Hk; by rewrite reverse_involutive).
  assert (Hf' : ws_front (trim_end l) = 0).
  { destruct (decide (ws_front (trim_end l) = 0)) as [|Hne]; [done|].
    pose proof (ws_front_app (trim_end l) (reverse k) Hne) as E. rewrite <- Hl in E. congruence. }
  unfold trim_start at 1. rewrite strip_ws_stop by done.
  assert (Hb : ws_back (reverse (trim_end l)) = 0).
  { unfold trim_end. rewrite reverse_involutive. apply strip_ws_done; [done|]. by rewrite length_reverse. }
  unfold trim_end at 1. rewrite strip_ws_stop by done. apply reverse_involutive.
Qed.

(** A printable ASCII character. *)
Definition visible (c : ascii) : bool := ((33 <=? chr c) && (chr c <? 127))%N.

Lemma visible_not_ws c : visible c = true → ∀ l, ws_front (c :: l) = 0 ∧ ws_back (c :: l) = 0.
Proof.
  unfold visible. rewrite andb_true_iff, N.leb_le, N.ltb_lt. intros [Hlo Hhi] l.
  assert (ws1 (chr c) = false) as H1.
  { unfold ws1. apply orb_false_iff. rewrite andb_false_iff, !N.leb_gt, N.eqb_neq. lia. }
  assert (∀ x, ws2 (chr c) x = false ∧ ws2 x (chr c) = false) as H2.
  { intros x. unfold ws2. rewrite !andb_false_iff, !orb_false_iff, !N.eqb_neq. lia. }
  assert (∀ x y, ws3 (chr c) x y = false ∧ ws3 x y (chr c) = false) as H3.
  { intros x y. unfold ws3. rewrite !orb_false_iff, !andb_false_iff, !orb_false_iff, !andb_false_iff.
    rewrite !N.eqb_neq, !N.leb_gt. lia. }
  unfold ws_front, ws_back. rewrite H1. split.
  all: destruct l as [|x [|y l]]; [done| |];
    rewrite ?(proj1 (H2 (chr x))), ?(proj2 (H2 (chr x))), ?(proj1 (H3 (chr x) (chr y))), ?(proj2 (H3 (chr y) (chr x))); done.
Qed.

(** A string that starts and ends visibly is trimmed. *)
Lemma trim_visible s c d :
  head (str_bytes s) = Some c → last (str_bytes s) = Some d → visible c = true → visible d = true → trim s = s.
Proof.
  intros Hh Hl Hc Hd. unfold trim. apply str_bytes_inj. rewrite str_bytes_of_bytes.
  unfold trim_start. rewrite strip_ws_stop.
  2: { destruct (str_bytes s) as [|c' l]; [done|]. injection Hh as ->. by apply visible_not_ws. }
  unfold trim_end. rewrite strip_ws_stop, reverse_involutive; [done|].
  rewrite <- (reverse_involutive (str_bytes s)) in Hl. rewrite last_reverse in Hl.
  destruct (reverse (str_bytes s)) as [|d' l]; [done|]. injection Hl as ->. by apply visible_not_ws.
Qed.

(** The newline at the end of a text goes away. *)
Lemma trim_newline s c d :
  head (str_bytes s) = Some c → last (str_bytes s) = Some d → visible c = true → visible d = true →
  trim (s +:+ String newline EmptyString) = s.
Proof.
  intros Hh Hl Hc Hd. unfold trim. apply str_bytes_inj. rewrite str_bytes_of_bytes, str_bytes_app.
  change (str_bytes (String newline EmptyString)) with [newline].
  unfold trim_start. rewrite strip_ws_stop.
  2: { destruct (str_bytes s) as [|c' l]; [done|]. injection Hh as ->. by apply visible_not_ws. }
  unfold trim_end. rewrite reverse_snoc, length_app, Nat.add_comm. cbn [length Nat.add].
  set (n := length (str_bytes s)). set (r := reverse (str_bytes s)).
  change (strip_ws ws_back (S n) (newline :: r)) with (strip_ws ws_back n r). unfold r.
  rewrite strip_ws_stop, reverse_involutive; [done|].
  rewrite <- (reverse_involutive (str_bytes s)) in Hl. rewrite last_reverse in Hl.
  destruct (reverse (str_bytes s)) as [|d' l]; [done|]. injection Hl as ->. by apply visible_not_ws.
Qed.

Lemma digit_visible c : is_digit c = true → visible c = true.
Proof.
  unfold is_digit, visible. rewrite bool_decide_eq_true. intros [d Hd]. unfold digit_value in Hd.
  case_match eqn:E; [|done]. apply andb_true_iff in E as [E1 E2]. apply Z.leb_le in E1, E2.
  rewrite andb_true_iff, N.leb_le, N.ltb_lt. lia.
Qed.

Lemma last_show_uint s n : ∃ d, last (str_bytes (s +:+ show_uint n)) = Some d ∧ visible d = true.
Proof.
  rewrite str_bytes_app, last_app. destruct (show_uint_digits n) as [Hd Hne].
  destruct (last (str_bytes (show_uint n))) as [d|] eqn:E.
  - exists d. split; [done|]. apply digit_visible. rewrite Forall_forall in Hd. apply Hd.
    by apply last_Some_elem_of.
  - apply last_None in E. by destruct (show_uint n).
Qed.

Lemma is_blank_trim s : is_blank (trim s) = is_blank s.
Proof. unfold is_blank. by rewrite trim_idemp. Qed.

Lemma strip_ws_keeps ws fuel l c :
  (∀ l, c ∉ take (ws l) l) → c ∈ l → c ∈ strip_ws ws fuel l.
Proof.
  intros Hws. revert l. induction fuel as [|fuel IH]; intros l Hc; simpl; [done|].
  destruct (ws l) as [|n] eqn:E; [done|]. apply IH. rewrite <- (take_drop (S n) l) in Hc.
  apply elem_of_app in Hc as [Hc|?]; [|done]. exfalso. apply (Hws l). by rewrite E.
Qed.

Lemma dash_not_ws_front l : ("-"%char : ascii) ∉ take (ws_front l) l.
Proof.
  unfold ws_front. intros Hin. destruct l as [|a [|b [|c l]]]; simpl in Hin; repeat case_match; simpl in Hin;
    repeat (apply elem_of_cons in Hin as [<-|Hin]); try (by apply elem_of_nil in Hin).
  all: unfold ws1, ws2, ws3 in *; simpl in *; rewrite ?andb_false_r in *; simpl in *; try done.
  all: repeat rewrite ?andb_false_r, ?orb_false_r in *; done.
Qed.

Lemma dash_not_ws_back l : ("-"%char : ascii) ∉ take (ws_back l) l.
Proof.
  unfold ws_back. intros Hin. destruct l as [|a [|b [|c l]]]; simpl in Hin; repeat case_match; simpl in Hin;
    repeat (apply elem_of_cons in Hin as [<-|Hin]); try (by apply elem_of_nil in Hin).
  all: unfold ws1, ws2, ws3 in *; simpl in *; rewrite ?andb_false_r in *; simpl in *; try done.
  all: repeat rewrite ?andb_false_r, ?orb_false_r in *; done.
Qed.

(** A string with a dash is not blank. *)
Lemma is_blank_dash s : ("-"%char : ascii) ∈ str_bytes s → is_blank s = false.
Proof.
  intros Hc. unfold is_blank. apply bool_decide_eq_false. unfold trim. rewrite str_of_bytes_nil.
  assert (("-"%char : ascii) ∈ trim_end (trim_start (str_bytes s))) as Hin.
  { unfold trim_end. apply elem_of_reverse, strip_ws_keeps; [apply dash_not_ws_back|].
    apply elem_of_reverse, strip_ws_keeps; [apply dash_not_ws_front|done]. }
  intros E. rewrite E in Hin. by apply elem_of_nil in Hin.
Qed.

End Trim.

(** ** Bytes of texts and of numbers *)

Lemma chr_bytes_text s : bytes_text (text_bytes s) = s.
Proof.
  unfold bytes_text, text_bytes. rewrite <- list_fmap_compose. induction s as [|c s IH]; [done|]. cbn [str_bytes fmap list_fmap str_of_bytes].
  f_equal; [|exact IH]. unfold compose, chr. rewrite N2Z.id. apply ascii_N_embedding.
Qed.

Lemma length_text_bytes s : length (text_bytes s) = length (str_bytes s).
Proof. unfold text_bytes. by rewrite length_fmap. Qed.

Lemma pretty_go_length (x y : N) s s' : (x <= y)%N → length (str_bytes s) ≤ length (str_bytes s') →
  length (str_bytes (pretty_N_go x s)) ≤ length (str_bytes (pretty_N_go y s')).
Proof.
  revert x s s'. induction (N.lt_wf_0 y) as [y _ IH]; intros x s s' Hxy Hs.
  destruct (decide (y = 0)%N) as [->|Hy]; [assert (x = 0)%N as -> by lia; by rewrite !pretty_N_go_0|].
  rewrite (pretty_N_go_step y) by lia. destruct (decide (x = 0)%N) as [->|Hx].
  - apply IH; [apply N.div_lt; lia|apply N.le_0_l|simpl; lia].
  - rewrite (pretty_N_go_step x) by lia. apply IH; [apply N.div_lt; lia|apply N.Div0.div_le_mono; lia|simpl; lia].
Qed.

Lemma show_uint_length n n' : (0 <= n <= n')%Z → length (str_bytes (show_uint n)) ≤ length (str_bytes (show_uint n')).
Proof.
  intros Hn. unfold show_uint, pretty, pretty_N. case_decide as Hz; case_decide as Hz'; [done|..].
  - rewrite pretty_N_go_step by lia. rewrite <- (pretty_N_go_0 "0"). apply pretty_go_length; [apply N.le_0_l|done].
  - lia.
  - apply pretty_go_length; [lia|done].
Qed.
