(* ===== verification/Postings.v ===== *)
(** * Search postings: the codec of the index's posting table

    Models [src/crates/packet28-search-core/src/postings.rs] (posting blocks,
    varints, the lookup-table binary search) and the persisted records of
    [model.rs] they carry.  A byte is a [Z] in [0..255], a document id a [u32]
    and a gram hash a [u64]. *)

From S2P Require Export MachineInt.
Local Open Scope Z_scope.

(** ** Errors *)

Inductive SearchError : Type :=
| corrupt (message : string).

(** ** Data *)

Definition LOOKUP_ROW_BYTES : nat := 24.
Definition SHORT_GRAM_BYTES : nat := 2.
Definition MIN_GRAM_BYTES : nat := 3.
Definition MAX_GRAM_BYTES : nat := 24.
Definition POSITION_BUCKET_COUNT : Z := 16.

Record PositionSummary : Type := mkPositionSummary {
  buckets : Z;
  repeated : bool
}.

#[export] Instance PositionSummary_eq_dec : EqDecision PositionSummary.
Proof. solve_decision. Defined.

Module PositionSummary.
Definition new (bucket : Z) : PositionSummary :=
  {| buckets := Z.lor (Z.shiftl (Z.land bucket 15) 4) (Z.land bucket 15);
     repeated := false |}.

Definition first_bucket (self : PositionSummary) : Z := Z.shiftr (buckets self) 4.
Definition last_bucket (self : PositionSummary) : Z := Z.land (buckets self) 15.

Definition update (self : PositionSummary) (bucket : Z) : PositionSummary :=
  let bucket := Z.land bucket 15 in
  let first := Z.min (first_bucket self) bucket in
  let last := Z.max (last_bucket self) bucket in
  {| buckets := Z.lor (Z.shiftl first 4) last; repeated := true |}.

Definition merge (self other : PositionSummary) : PositionSummary :=
  let first := Z.min (first_bucket self) (first_bucket other) in
  let last := Z.max (last_bucket self) (last_bucket other) in
  {| buckets := Z.lor (Z.shiftl first 4) last; repeated := true |}.

Definition encode (self : PositionSummary) : list Z :=
  [buckets self; if repeated self then 1 else 0].

Definition decode (b0 b1 : Z) : PositionSummary :=
  {| buckets := b0; repeated := negb (b1 =? 0) |}.
End PositionSummary.

Record PostingEntry : Type := mkPostingEntry {
  doc_id : Z;
  summary : PositionSummary
}.

#[export] Instance PostingEntry_eq_dec : EqDecision PostingEntry.
Proof. solve_decision. Defined.

Record LookupPostingMeta : Type := mkLookupPostingMeta {
  lp_offset : Z;
  lp_len : Z;
  lp_doc_count : Z
}.

(** ** Varints *)

(** One turn of [encode_varint]'s loop per unit of fuel; a [u32] needs at
    most five (see [encode_varint_fuel]). *)
Fixpoint encode_varint_loop (fuel : nat) (value : Z) : list Z :=
  match fuel with
  | O => []
  | S fuel =>
      let byte := Z.land value 127 in
      let value := Z.shiftr value 7 in
      let byte := if negb (value =? 0) then Z.lor byte 128 else byte in
      byte :: (if value =? 0 then [] else encode_varint_loop fuel value)
  end.

Definition encode_varint (value : Z) : list Z := encode_varint_loop 5 value.

(** The [for] loop of [decode_varint] over [bytes.iter().take(5).enumerate()];
    [None] is falling out of the loop. *)
Fixpoint decode_varint_loop (bytes : list Z) (idx : nat) (acc : Z)
    : option (result SearchError (Z * nat)) :=
  match bytes with
  | [] => None
  | byte :: bytes =>
      if ((idx =? 4)%nat && (15 <? byte))%bool then Some (Err (corrupt "varint overflows u32"))
      else
        let value := Z.land byte 127 in
        let acc := Z.lor acc (Z.land (Z.shiftl value (Z.of_nat (idx * 7))) u32_max) in
        if Z.land byte 128 =? 0 then Some (Ok (acc, S idx))
        else decode_varint_loop bytes (S idx) acc
  end.

Definition decode_varint (bytes : list Z) : result SearchError (Z * nat) :=
  match decode_varint_loop (take 5 bytes) 0 0 with
  | Some r => r
  | None =>
      if (5 <=? length bytes)%nat then Err (corrupt "varint overflows u32")
      else Err (corrupt "unterminated varint")
  end.

#[global] Arguments encode_varint : simpl never.
#[global] Arguments encode_varint_loop : simpl never.
#[global] Arguments decode_varint : simpl never.

(** ** Fixed-width reads and ranges *)

Definition read_fixed_width (width : nat) (bytes : list Z) (offset : nat)
    : result SearchError (list Z) :=
  if (offset + width <=? length bytes)%nat
  then Ok (slice offset (offset + width) bytes)
  else Err (corrupt "field requires more bytes than the input has").

Definition checked_posting_bounds (offset len postings_len : Z) : result SearchError (Z * Z) :=
  end_ ← ok_or (checked_add u64_max offset len) (corrupt "posting range overflows u64");
  ensure (end_ <=? postings_len) (corrupt "posting range exceeds postings length") ;;
  Ok (offset, end_).

(** ** Posting blocks *)

Fixpoint encode_doc_ids (previous : Z) (entries : list PostingEntry) : list Z :=
  match entries with
  | [] => []
  | entry :: entries =>
      encode_varint (saturating_sub (doc_id entry) previous)
        ++ encode_doc_ids (doc_id entry) entries
  end.

Definition encode_postings (entries : list PostingEntry) : list Z :=
  to_le_bytes 4 (Z.of_nat (length entries) mod (u32_max + 1))
    ++ encode_doc_ids 0 entries
    ++ concat ((λ entry, PositionSummary.encode (summary entry)) <$> entries).

(** The loop [for position in 0..count]: the ids read and the final index. *)
Fixpoint decode_doc_ids (bytes : list Z) (count : nat) (first : bool) (index : nat) (current : Z)
    : result SearchError (list Z * nat) :=
  match count with
  | O => Ok ([], index)
  | S count =>
      '(delta, consumed) ← decode_varint (drop index bytes);
      ensure (first || (0 <? delta))
        (corrupt "posting block document ids are not strictly increasing") ;;
      current ← ok_or (checked_add u32_max current delta)
                  (corrupt "posting document id delta overflows u32");
      '(ids, index) ← decode_doc_ids bytes count false (index + consumed) current;
      Ok (current :: ids, index)
  end.

(** The summaries of [bytes[index..summary_end].chunks_exact(2)]. *)
Fixpoint decode_summaries (doc_ids : list Z) (bytes : list Z) : list PostingEntry :=
  match doc_ids, bytes with
  | d :: ds, b0 :: b1 :: bytes => mkPostingEntry d (PositionSummary.decode b0 b1) :: decode_summaries ds bytes
  | _, _ => []
  end.

(** [chunks_exact(2).all(|summary| summary[1] <= 1)]. *)
Fixpoint flags_valid (bytes : list Z) : bool :=
  match bytes with
  | _ :: b1 :: bytes => (b1 <=? 1) && flags_valid bytes
  | _ => true
  end.

Definition decode_postings (bytes : list Z) : result SearchError (list PostingEntry) :=
  ensure (4 <=? length bytes)%nat (corrupt "invalid posting block") ;;
  raw ← read_fixed_width 4 bytes 0;
  let count := from_le_bytes raw in
  minimum_len ← ok_or (len ← checked_mul usize_max count 3; checked_add usize_max len 4)
    (corrupt "posting block document count overflows its encoded size");
  ensure (minimum_len <=? Z.of_nat (length bytes))
    (corrupt "posting block declares more documents than its bytes") ;;
  '(doc_ids, index) ← decode_doc_ids bytes (Z.to_nat count) true 4 0;
  summary_len ← ok_or (checked_mul usize_max count 2) (corrupt "posting summary length overflows usize");
  summary_end ← ok_or (checked_add usize_max (Z.of_nat index) summary_len)
                  (corrupt "posting summary range overflows usize");
  ensure (summary_end <=? Z.of_nat (length bytes))
    (corrupt "posting block missing positional summaries") ;;
  ensure (Z.of_nat (length bytes) =? summary_end) (corrupt "posting block has trailing bytes") ;;
  let summaries := slice index (Z.to_nat summary_end) bytes in
  ensure (flags_valid summaries)
    (corrupt "posting block contains an invalid repeated-position flag") ;;
  Ok (decode_summaries doc_ids summaries).

(** ** The lookup table *)

Definition lookup_u64 (lookup : list Z) (start : nat) : Z := from_le_bytes (slice start (start + 8) lookup).
Definition lookup_u32 (lookup : list Z) (start : nat) : Z := from_le_bytes (slice start (start + 4) lookup).

Definition lookup_meta (lookup : list Z) (start : nat) : LookupPostingMeta :=
  {| lp_offset := lookup_u64 lookup (start + 8);
     lp_len := lookup_u32 lookup (start + 16);
     lp_doc_count := lookup_u32 lookup (start + 20) |}.

(** The [while low < high] loop; the interval shrinks on every turn, so its
    width is enough fuel. *)
Fixpoint lookup_loop (fuel : nat) (lookup : list Z) (hash : Z) (low high : nat)
    : option LookupPostingMeta :=
  match fuel with
  | O => None
  | S fuel =>
      if (low <? high)%nat then
        let mid := (low + (high - low) / 2)%nat in
        let start := (mid * LOOKUP_ROW_BYTES)%nat in
        let current := lookup_u64 lookup start in
        if current =? hash then Some (lookup_meta lookup start)
        else if current <? hash then lookup_loop fuel lookup hash (mid + 1) high
        else lookup_loop fuel lookup hash low mid
      else None
  end.

Definition lookup_posting_range (lookup : list Z) (hash : Z) : option LookupPostingMeta :=
  let rows := (length lookup / LOOKUP_ROW_BYTES)%nat in
  lookup_loop (S rows) lookup hash 0 rows.

Example encode_varint_300 : encode_varint 300 = [172; 2].
Proof. reflexivity. Qed.
Example decode_varint_300 : decode_varint [172; 2; 7] = Ok (300, 2%nat).
Proof. reflexivity. Qed.
Example decode_postings_two :
  let es := [mkPostingEntry 3 (PositionSummary.new 5); mkPostingEntry 200 (PositionSummary.new 0)] in
  decode_postings (encode_postings es) = Ok es.
Proof. vm_compute. reflexivity. Qed.

(** ** Varints: lemmas *)

Section Varint.
Implicit Types (v acc : Z) (fuel idx : nat).

Lemma varint_last_byte b :
  0 <= b < 128 → Z.land b 127 = b ∧ Z.land b 128 = 0.
Proof.
  intros Hb. pose proof (forall_below 128 (λ b, (Z.land b 127 =? b) && (Z.land b 128 =? 0))
    ltac:(vm_compute; reflexivity) b Hb) as H. simpl in H. reflect_bool. done.
Qed.

Lemma varint_more_byte b :
  0 <= b < 128 →
  Z.land (Z.lor b 128) 127 = b ∧ Z.land (Z.lor b 128) 128 ≠ 0 ∧ byte (Z.lor b 128).
Proof.
  intros Hb. pose proof (forall_below 128 (λ b, (Z.land (Z.lor b 128) 127 =? b) &&
    negb (Z.land (Z.lor b 128) 128 =? 0) && (0 <=? Z.lor b 128) && (Z.lor b 128 <=? 255))
    ltac:(vm_compute; reflexivity) b Hb) as H. simpl in H. reflect_bool. done.
Qed.

Lemma encode_varint_loop_unfold fuel v :
  encode_varint_loop (S fuel) v =
    (if negb (Z.shiftr v 7 =? 0) then Z.lor (Z.land v (2 ^ 7 - 1)) 128 else Z.land v (2 ^ 7 - 1)) ::
      (if Z.shiftr v 7 =? 0 then [] else encode_varint_loop fuel (Z.shiftr v 7)).
Proof. done. Qed.

Lemma encode_varint_loop_S fuel v :
  0 <= v →
  encode_varint_loop (S fuel) v =
    if v <? 128 then [v mod 128]
    else Z.lor (v mod 128) 128 :: encode_varint_loop fuel (v / 128).
Proof.
  intros Hv. rewrite encode_varint_loop_unfold, land_pred_pow2, Z.shiftr_div_pow2 by lia.
  change (2 ^ 7) with 128.
  destruct (v <? 128) eqn:E; reflect_bool.
  - rewrite Z.div_small by lia. done.
  - assert (1 <= v / 128) by (apply Z.div_le_lower_bound; lia).
    destruct (v / 128 =? 0) eqn:E'; reflect_bool; [lia|]. done.
Qed.

Lemma encode_varint_loop_length fuel v : (length (encode_varint_loop fuel v) ≤ fuel)%nat.
Proof.
  revert v. induction fuel as [|fuel IH]; intros v; [done|].
  rewrite encode_varint_loop_unfold. specialize (IH (Z.shiftr v 7)).
  destruct (Z.shiftr v 7 =? 0); cbn [length]; lia.
Qed.

Lemma encode_varint_loop_byte fuel v : 0 <= v → Forall byte (encode_varint_loop fuel v).
Proof.
  revert v. induction fuel as [|fuel IH]; intros v Hv; [constructor|].
  rewrite encode_varint_loop_S by done. pose proof (Z.mod_pos_bound v 128).
  case_match; constructor.
  - unfold byte. lia.
  - constructor.
  - apply varint_more_byte. lia.
  - apply IH. apply Z.div_pos; lia.
Qed.

(** Any fuel that covers the width gives the same bytes. *)
Lemma encode_varint_fuel fuel v :
  (5 ≤ fuel)%nat → fits u32_max v → encode_varint_loop fuel v = encode_varint v.
Proof.
  unfold encode_varint, fits, u32_max. intros Hfuel Hv.
  assert (∀ n m w, 0 <= w < 2 ^ (7 * Z.of_nat n) → (1 ≤ n)%nat → (n ≤ m)%nat →
    encode_varint_loop m w = encode_varint_loop n w) as Hgen.
  { induction n as [|n IH]; intros m w Hw Hn Hm; [lia|]. destruct m as [|m]; [lia|].
    rewrite !encode_varint_loop_S by lia. case_match; reflect_bool; [done|]. f_equal.
    destruct (decide (n = 0)%nat) as [->|].
    { change (2 ^ (7 * Z.of_nat 1)) with 128 in Hw. lia. }
    apply IH; [|lia..]. split; [apply Z.div_pos; lia|].
    apply Z.div_lt_upper_bound; [lia|].
    replace (7 * Z.of_nat (S n)) with (7 + 7 * Z.of_nat n) in Hw by lia.
    rewrite Z.pow_add_r in Hw by lia. lia. }
  apply Hgen; [|lia..]. change (2 ^ (7 * Z.of_nat 5)) with 34359738368. lia.
Qed.

Lemma decode_encode_loop fuel idx v acc rest :
  (idx + fuel = 5)%nat → (1 ≤ fuel)%nat →
  0 <= v → 0 <= acc < 2 ^ (7 * Z.of_nat idx) → v * 2 ^ (7 * Z.of_nat idx) < 2 ^ 32 →
  decode_varint_loop (encode_varint_loop fuel v ++ rest) idx acc =
    Some (Ok (acc + v * 2 ^ (7 * Z.of_nat idx), (idx + length (encode_varint_loop fuel v))%nat)).
Proof.
  revert idx v acc. induction fuel as [|fuel IH]; intros idx v acc Hidx Hf Hv Hacc Hbound; [lia|].
  rewrite encode_varint_loop_S by done.
  set (p := 2 ^ (7 * Z.of_nat idx)) in *.
  assert (0 < p) by (unfold p; lia).
  pose proof (Z.mod_pos_bound v 128 ltac:(lia)) as Hmod.
  assert (Hdm : v = v mod 128 + 128 * (v / 128)) by (pose proof (Z.div_mod v 128); lia).
  assert (0 <= v / 128) by (apply Z.div_pos; lia).
  assert (Hshift : Z.land (Z.shiftl (v mod 128) (Z.of_nat (idx * 7))) u32_max = v mod 128 * p).
  { rewrite Z.shiftl_mul_pow2 by lia. replace (Z.of_nat (idx * 7)) with (7 * Z.of_nat idx) by lia.
    fold p. change u32_max with (2 ^ 32 - 1). rewrite land_pred_pow2 by lia.
    apply Z.mod_small. nia. }
  assert (Hlor : Z.lor acc (v mod 128 * p) = acc + v mod 128 * p)
    by (apply lor_disjoint_add; lia).
  assert (Hfour : idx = 4%nat → v <= 15).
  { intros ->. change p with (2 ^ 28) in *. lia. }
  destruct (v <? 128) eqn:E; reflect_bool.
  - cbn [app decode_varint_loop]. destruct (varint_last_byte (v mod 128) Hmod) as [-> ->].
    rewrite Z.mod_small in * by lia.
    destruct ((idx =? 4)%nat && (15 <? v))%bool eqn:E4; reflect_bool; [lia|].
    rewrite Hshift, Hlor. simpl. by rewrite Nat.add_1_r.
  - cbn [app decode_varint_loop].
    destruct (varint_more_byte (v mod 128) Hmod) as (-> & Hne & Hbyte).
    destruct ((idx =? 4)%nat && (15 <? Z.lor (v mod 128) 128))%bool eqn:E4; reflect_bool; [lia|].
    destruct (Z.land (Z.lor (v mod 128) 128) 128 =? 0) eqn:E5; reflect_bool; [done|].
    rewrite Hshift, Hlor.
    assert (Hp : 2 ^ (7 * Z.of_nat (S idx)) = 128 * p).
    { unfold p. replace (7 * Z.of_nat (S idx)) with (7 + 7 * Z.of_nat idx) by lia.
      by rewrite Z.pow_add_r by lia. }
    assert (1 ≤ fuel)%nat by (destruct (decide (idx = 4)%nat); lia).
    rewrite (IH (S idx)); rewrite ?Hp; [|lia|done|done|nia..].
    do 3 f_equal; [nia|]. simpl. lia.
Qed.

Lemma encode_varint_length v :
  0 <= v → (1 ≤ length (encode_varint v) ≤ 5)%nat.
Proof.
  intros. split; [|apply encode_varint_loop_length].
  unfold encode_varint. rewrite encode_varint_loop_S by done.
  case_match; cbn [length]; lia.
Qed.

Lemma decode_encode_varint v rest :
  fits u32_max v →
  decode_varint (encode_varint v ++ rest) = Ok (v, length (encode_varint v)).
Proof.
  intros Hv. unfold decode_varint. rewrite take_app, take_ge by apply encode_varint_loop_length.
  unfold encode_varint. unfold fits, u32_max in Hv.
  rewrite decode_encode_loop; change (2 ^ (7 * Z.of_nat 0)) with 1; [|lia..].
  by rewrite Z.mul_1_r, Z.add_0_l, Nat.add_0_l.
Qed.

Lemma decode_varint_loop_bounds bs idx acc v n :
  (idx + length bs ≤ 5)%nat → Forall byte bs →
  0 <= acc < 2 ^ 32 →
  decode_varint_loop bs idx acc = Some (Ok (v, n)) →
  0 <= v < 2 ^ 32 ∧ (idx < n ≤ idx + length bs)%nat.
Proof.
  revert idx acc. induction bs as [|b bs IH]; intros idx acc Hlen Hb Hacc; simpl; [done|].
  apply Forall_cons in Hb as [Hb Hbs].
  destruct ((idx =? 4)%nat && (15 <? b))%bool; [done|].
  assert (Hacc' : 0 <= Z.lor acc (Z.land (Z.shiftl (Z.land b 127) (Z.of_nat (idx * 7))) u32_max) < 2 ^ 32).
  { apply lor_fits; [lia|done|]. change u32_max with (2 ^ 32 - 1).
    rewrite land_pred_pow2 by lia. apply Z.mod_pos_bound. lia. }
  case_match.
  - intros [= <- <-]. split; [done|simpl in *; lia].
  - intros H'%IH; [|simpl in *; lia|done|done]. simpl in *. lia.
Qed.

Lemma decode_varint_bounds bs v n :
  Forall byte bs → decode_varint bs = Ok (v, n) → fits u32_max v ∧ (1 ≤ n ≤ length bs)%nat.
Proof.
  unfold decode_varint. intros Hb H.
  destruct (decode_varint_loop _ _ _) as [[[v' n']|]|] eqn:E; try case_match; try done.
  injection H as -> ->.
  apply decode_varint_loop_bounds in E; [|rewrite length_take; lia|by apply Forall_take|lia].
  rewrite length_take in E. unfold fits, u32_max. lia.
Qed.
End Varint.

(** ** Posting blocks: lemmas *)

#[local] Opaque encode_varint decode_varint.

Section Blocks.
Implicit Types (es : list PostingEntry).

(** What the writer puts in a block: strictly increasing [u32] ids. *)
Definition block_ok es : Prop :=
  StronglySorted Z.lt (doc_id <$> es) ∧ Forall (λ e, fits u32_max (doc_id e)) es
  ∧ Z.of_nat (length es) <= u32_max.

Lemma encode_doc_ids_length prev es :
  (length es ≤ length (encode_doc_ids prev es) ≤ 5 * length es)%nat.
Proof.
  revert prev. induction es as [|e es IH]; intros prev; cbn [encode_doc_ids length]; [lia|].
  rewrite length_app. specialize (IH (doc_id e)).
  assert (0 <= saturating_sub (doc_id e) prev) as Hd by apply saturating_sub_nonneg.
  pose proof (encode_varint_length _ Hd). lia.
Qed.

Lemma decode_encode_doc_ids es prev pre rest first :
  StronglySorted Z.lt (doc_id <$> es) → Forall (λ e, fits u32_max (doc_id e)) es →
  (if first : bool then prev = 0 else Forall (λ e, prev < doc_id e) es) → fits u32_max prev →
  decode_doc_ids (pre ++ encode_doc_ids prev es ++ rest) (length es) first (length pre) prev =
    Ok (doc_id <$> es, (length pre + length (encode_doc_ids prev es))%nat).
Proof.
  revert prev pre first.
  induction es as [|e es IH]; intros prev pre first Hs Hf Hprev Hp.
  { simpl. by rewrite Nat.add_0_r. }
  rewrite fmap_cons in Hs |- *. cbn [encode_doc_ids decode_doc_ids length].
  apply StronglySorted_cons in Hs as [Hlt Hs]. apply Forall_cons in Hf as [He Hf].
  assert (Hd : saturating_sub (doc_id e) prev = doc_id e - prev ∧ (first = true ∨ 0 < doc_id e - prev)).
  { unfold fits in *. destruct first; [subst; rewrite saturating_sub_exact by lia; split; [lia|by left]|].
    apply Forall_cons in Hprev as [? _]. rewrite saturating_sub_exact by lia. split; [lia|right; lia]. }
  destruct Hd as [Hd Hpos]. rewrite Hd.
  rewrite drop_app_length, <- !app_assoc, decode_encode_varint
    by (unfold fits, u32_max in *; destruct first; [subst|]; destruct Hpos; try done; lia).
  cbn [mbind result_bind].
  replace (first || (0 <? doc_id e - prev))%bool with true
    by (destruct Hpos as [->|?]; [done|]; rewrite (proj2 (Z.ltb_lt _ _)) by done; by rewrite orb_true_r).
  cbn [ensure mbind result_bind].
  rewrite (proj2 (checked_add_Some _ _ _ (doc_id e))) by (unfold fits in He; lia).
  cbn [ok_or mbind result_bind].
  rewrite app_assoc, <- length_app, (IH (doc_id e)); [|done|done| |done].
  - simpl. do 2 f_equal. rewrite !length_app. lia.
  - exact (proj1 (Forall_fmap _ _ _) Hlt).
Qed.

Lemma decode_summaries_encode es :
  decode_summaries (doc_id <$> es) (concat ((λ e, PositionSummary.encode (summary e)) <$> es)) = es.
Proof.
  induction es as [|[d [b r]] es IH]; [done|].
  rewrite !fmap_cons, concat_cons. simpl. rewrite IH. by destruct r.
Qed.

Lemma summaries_length es :
  length (concat ((λ e, PositionSummary.encode (summary e)) <$> es)) = (2 * length es)%nat.
Proof. induction es as [|e es IH]; [done|]. rewrite fmap_cons, concat_cons, length_app, IH. simpl. lia. Qed.

Lemma summaries_flags es :
  flags_valid (concat ((λ e, PositionSummary.encode (summary e)) <$> es)) = true.
Proof.
  induction es as [|[d [b r]] es IH]; [done|].
  rewrite fmap_cons, concat_cons. simpl. rewrite IH. by destruct r.
Qed.

(** *** What a decoder accepts *)

Lemma decode_doc_ids_sound bs count first index current ids index' :
  Forall byte bs → fits u32_max current →
  decode_doc_ids bs count first index current = Ok (ids, index') →
  StronglySorted Z.lt ids ∧ Forall (fits u32_max) ids ∧ length ids = count ∧
  (first = false → Forall (Z.lt current) ids) ∧ (index + count ≤ index')%nat.
Proof.
  intros Hb. revert first index current ids.
  induction count as [|count IH]; intros first index current ids Hc H; simpl in H.
  { injection H as <- <-. repeat split; [constructor..|lia]. }
  inv_result. subst ids index'. rename x into delta, Ha into Hdec, Ha0 into Hfirst, Ha2 into Hrec.
  apply decode_varint_bounds in Hdec as [Hdelta Hn]; [|by apply Forall_drop].
  apply checked_add_Some in Ha1 as [-> Hmax].
  assert (fits u32_max (current + delta)) by (unfold fits in *; lia).
  apply IH in Hrec as (Hss & Hff & Hlen & Hlt & Hix); [|done].
  specialize (Hlt eq_refl). split_and!.
  - constructor; done.
  - by constructor.
  - by f_equal/=.
  - intros ->. simpl in Hfirst. reflect_bool. constructor; [lia|].
    eapply Forall_impl; [exact Hlt|]. intros; simpl in *; lia.
  - lia.
Qed.

Lemma decode_summaries_ids ids bs :
  length bs = (2 * length ids)%nat → doc_id <$> decode_summaries ids bs = ids.
Proof.
  revert bs. induction ids as [|d ids IH]; intros bs Hlen; [done|].
  destruct bs as [|b0 [|b1 bs]]; simpl in Hlen; try lia.
  cbn [decode_summaries]. rewrite fmap_cons, IH by lia. done.
Qed.
End Blocks.

(** ** Posting blocks: the codec *)

Lemma decode_encode_block (es : list PostingEntry) :
  block_ok es → decode_postings (encode_postings es) = Ok es.
Proof.
  intros (Hs & Hf & Hlen). unfold decode_postings, encode_postings.
  rewrite Z.mod_small by (unfold u32_max in *; lia).
  set (n := Z.of_nat (length es)) in *. set (ids := encode_doc_ids 0 es).
  set (sums := concat _). set (bytes := to_le_bytes 4 n ++ ids ++ sums).
  assert (Hsums : length sums = (2 * length es)%nat) by apply summaries_length.
  pose proof (encode_doc_ids_length 0 es) as Hids. fold ids in Hids.
  assert (Hbytes : length bytes = (4 + length ids + 2 * length es)%nat)
    by (unfold bytes; rewrite !length_app, length_to_le_bytes; lia).
  assert (Hcount : read_fixed_width 4 bytes 0 = Ok (to_le_bytes 4 n)).
  { unfold read_fixed_width. rewrite (proj2 (Nat.leb_le _ _)) by lia.
    done. }
  assert (Hdoc : decode_doc_ids bytes (length es) true 4 0 = Ok (doc_id <$> es, (4 + length ids)%nat)).
  { apply (decode_encode_doc_ids es 0 (to_le_bytes 4 n) sums true); done. }
  assert (Hslice : slice (4 + length ids) (4 + length ids + 2 * length es) bytes = sums).
  { unfold slice, bytes. rewrite app_assoc, drop_app_length' by (by rewrite length_app, length_to_le_bytes).
    apply take_ge. lia. }
  rewrite (proj2 (Nat.leb_le _ _)) by lia. cbn [ensure mbind result_bind].
  rewrite Hcount. cbn [mbind result_bind].
  rewrite from_to_le_bytes by (change (256 ^ Z.of_nat 4) with (u32_max + 1); lia).
  assert (n <= u32_max) as Hn by lia. unfold u32_max in Hn.
  rewrite (checked_mul_ok usize_max n 3) by solve_bounds. cbn [mbind option_bind].
  rewrite (checked_add_ok usize_max (n * 3) 4) by solve_bounds.
  cbn [ok_or mbind result_bind]. rewrite (proj2 (Z.leb_le _ _)) by lia.
  cbn [ensure mbind result_bind].
  replace (Z.to_nat n) with (length es) by lia. rewrite Hdoc. cbn [mbind result_bind].
  rewrite (checked_mul_ok usize_max n 2) by solve_bounds. cbn [ok_or mbind result_bind].
  rewrite (checked_add_ok usize_max _ (n * 2)) by solve_bounds.
  cbn [ok_or mbind result_bind].
  replace (Z.of_nat (4 + length ids) + n * 2) with (Z.of_nat (length bytes)) by lia.
  rewrite Z.leb_refl, Z.eqb_refl. cbn [ensure mbind result_bind].
  rewrite Nat2Z.id, Hbytes, Hslice. unfold sums. rewrite summaries_flags. cbn [ensure mbind result_bind].
  by rewrite decode_summaries_encode.
Qed.

Lemma encode_postings_length (es : list PostingEntry) :
  (4 + 3 * length es ≤ length (encode_postings es) ≤ 4 + 7 * length es)%nat.
Proof.
  unfold encode_postings. rewrite !length_app, length_to_le_bytes, summaries_length.
  pose proof (encode_doc_ids_length 0 es). lia.
Qed.

(** C33: decoding an encoded posting block gives back its entries, increasing document
    ids and their position summaries. A block of n entries takes between 4 + 3n and 4 +
    7n bytes. *)
Theorem decode_encode_postings (es : list PostingEntry) :
  block_ok es →
  decode_postings (encode_postings es) = Ok es ∧
  (4 + 3 * length es ≤ length (encode_postings es) ≤ 4 + 7 * length es)%nat.
Proof. intros Hes. split; [by apply decode_encode_block|apply encode_postings_length]. Qed.

Lemma decode_encode_postings_witness :
  let es := [mkPostingEntry 3 (mkPositionSummary 18 false); mkPostingEntry 300 (mkPositionSummary 255 true)] in
  decode_postings (encode_postings es) = Ok es.
Proof.
  intros es. apply (decode_encode_postings es). unfold block_ok, es, fits, u32_max.
  split_and!; [repeat constructor| |simpl; lia]. repeat constructor; simpl; lia.
Defined.

(** What a successful decode of arbitrary bytes yields. *)
Lemma decode_postings_sound (bytes : list Z) (es : list PostingEntry) :
  Forall byte bytes → decode_postings bytes = Ok es →
  StronglySorted Z.lt (doc_id <$> es) ∧ Forall (fits u32_max) (doc_id <$> es)
  ∧ Z.of_nat (length es) = from_le_bytes (take 4 bytes)
  ∧ (4 + 3 * length es ≤ length bytes)%nat.
Proof.
  unfold decode_postings. intros Hb H. inv_result. rename Ha into Hlen. reflect_bool.
  unfold read_fixed_width in Ha0. rewrite (proj2 (Nat.leb_le _ _)) in Ha0 by lia.
  injection Ha0 as <-. change (slice 0 (0 + 4) bytes) with (take 4 bytes) in *.
  assert (0 <= from_le_bytes (take 4 bytes)) as Hnn by (by apply from_le_bytes_bound, Forall_take).
  set (count := from_le_bytes (take 4 bytes)) in *.
  assert (fits u32_max 0) as H0 by done.
  apply decode_doc_ids_sound in Ha3 as (Hss & Hff & Hlen' & _ & Hy); [|done|done].
  apply checked_mul_Some in Ha4 as [-> _]. apply checked_add_Some in Ha5 as [-> _].
  change (slice 0 4 bytes) with (take 4 bytes) in *. fold count in Hlen', Hy, Ha7, H.
  assert (Hids : doc_id <$> es = x).
  { subst es. apply decode_summaries_ids. rewrite slice_length; lia. }
  assert (length es = length x) by (by rewrite <- Hids, length_fmap).
  rewrite Hids. split_and!; [done|done|lia|lia].
Qed.

(** ** The lookup table: rows, and the search over them *)

(** A row as [merge_segment_files] emits it: hash, offset, length, count. *)
Definition PostingRow : Type := Z * Z * Z * Z.

Definition encode_row (row : PostingRow) : list Z :=
  let '(hash, offset, len, doc_count) := row in
  to_le_bytes 8 hash ++ to_le_bytes 8 offset ++ to_le_bytes 4 len ++ to_le_bytes 4 doc_count.

Definition encode_lookup (rows : list PostingRow) : list Z := concat (encode_row <$> rows).

Definition row_hash (row : PostingRow) : Z := let '(hash, _, _, _) := row in hash.
Definition row_meta (row : PostingRow) : LookupPostingMeta :=
  let '(_, offset, len, doc_count) := row in
  {| lp_offset := offset; lp_len := len; lp_doc_count := doc_count |}.

(** Every field fits its width. *)
Definition row_ok (row : PostingRow) : Prop :=
  let '(hash, offset, len, doc_count) := row in
  fits u64_max hash ∧ fits u64_max offset ∧ fits u32_max len ∧ fits u32_max doc_count.

(** The table as a finite map: what [lookup_posting_range] searches. *)
Definition lookup_table (rows : list PostingRow) : gmap Z LookupPostingMeta :=
  list_to_map ((λ row, (row_hash row, row_meta row)) <$> rows).

Section Lookup.
Implicit Types (rows : list PostingRow) (row : PostingRow).

Lemma encode_row_length row : length (encode_row row) = LOOKUP_ROW_BYTES.
Proof. destruct row as [[[h o] l] d]. unfold encode_row. by rewrite !length_app, !length_to_le_bytes. Qed.

Lemma encode_lookup_length rows : length (encode_lookup rows) = (length rows * LOOKUP_ROW_BYTES)%nat.
Proof.
  unfold encode_lookup. induction rows as [|row rows IH]; [done|].
  rewrite fmap_cons, concat_cons, length_app, IH, encode_row_length. done.
Qed.

(** Row [i] starts at byte [24 i]. *)
Lemma encode_lookup_drop rows i row :
  rows !! i = Some row →
  ∃ rest, drop (i * LOOKUP_ROW_BYTES) (encode_lookup rows) = encode_row row ++ rest.
Proof.
  intros Hi. apply list_elem_of_split_length in Hi as (r1 & r2 & -> & ->).
  exists (encode_lookup r2). unfold encode_lookup. rewrite fmap_app, concat_app, fmap_cons, concat_cons.
  rewrite drop_app_length'; [done|]. symmetry. apply encode_lookup_length.
Qed.

Lemma lookup_field rows i row n off pre field post :
  rows !! i = Some row → encode_row row = pre ++ field ++ post →
  length pre = off → length field = n →
  slice (i * LOOKUP_ROW_BYTES + off) (i * LOOKUP_ROW_BYTES + off + n) (encode_lookup rows) = field.
Proof.
  intros (rest & Hd)%encode_lookup_drop Hrow Hpre Hn. unfold slice.
  rewrite <- drop_drop, Hd, Hrow, <- !app_assoc, drop_app_length' by done.
  apply take_app_length'. lia.
Qed.

Lemma lookup_row rows i row :
  rows !! i = Some row → row_ok row →
  lookup_u64 (encode_lookup rows) (i * LOOKUP_ROW_BYTES) = row_hash row ∧
  lookup_meta (encode_lookup rows) (i * LOOKUP_ROW_BYTES) = row_meta row.
Proof.
  destruct row as [[[h o] l] d]. intros Hi (Hh & Ho & Hl & Hd).
  assert (Hw8 : 256 ^ Z.of_nat 8 = u64_max + 1) by done.
  assert (Hw4 : 256 ^ Z.of_nat 4 = u32_max + 1) by done.
  pose proof (length_to_le_bytes) as HL.
  unfold lookup_meta, lookup_u64, lookup_u32, fits in *.
  rewrite <- (Nat.add_0_r (i * _)) at 1 2.
  rewrite (lookup_field rows i _ 8 0 [] (to_le_bytes 8 h) (to_le_bytes 8 o ++ to_le_bytes 4 l ++ to_le_bytes 4 d) Hi) by done.
  rewrite (lookup_field rows i _ 8 8 (to_le_bytes 8 h) (to_le_bytes 8 o) (to_le_bytes 4 l ++ to_le_bytes 4 d) Hi) by done.
  rewrite (lookup_field rows i _ 4 16 (to_le_bytes 8 h ++ to_le_bytes 8 o) (to_le_bytes 4 l) (to_le_bytes 4 d) Hi)
    by (by rewrite <- ?app_assoc).
  rewrite (lookup_field rows i _ 4 20 (to_le_bytes 8 h ++ to_le_bytes 8 o ++ to_le_bytes 4 l) (to_le_bytes 4 d) [] Hi)
    by (unfold encode_row; by rewrite <- ?app_assoc, ?app_nil_r).
  rewrite !from_to_le_bytes by lia. done.
Qed.

(** The loop, on an interval outside which the hash does not occur. *)
Lemma lookup_loop_spec fuel rows h low high :
  StronglySorted Z.lt (row_hash <$> rows) → Forall row_ok rows →
  (high - low < fuel)%nat → (high ≤ length rows)%nat →
  (∀ i row, rows !! i = Some row → row_hash row = h → (low ≤ i < high)%nat) →
  (∃ i row, rows !! i = Some row ∧ row_hash row = h ∧
    lookup_loop fuel (encode_lookup rows) h low high = Some (row_meta row)) ∨
  ((h ∉ (row_hash <$> rows)) ∧ lookup_loop fuel (encode_lookup rows) h low high = None).
Proof.
  intros Hs Hok. revert low high.
  induction fuel as [|fuel IH]; intros low high Hfuel Hhigh Hin; [lia|]. cbn [lookup_loop].
  destruct (low <? high)%nat eqn:Hlh; reflect_bool.
  2:{ right. split; [|done]. intros (row & -> & Hrow)%list_elem_of_fmap.
      apply list_elem_of_lookup in Hrow as [i Hi]. specialize (Hin i row Hi eq_refl). lia. }
  set (mid := (low + (high - low) / 2)%nat).
  assert (low ≤ mid < high)%nat as Hmid.
  { pose proof (Nat.div_lt (high - low) 2). unfold mid. lia. }
  destruct (lookup_lt_is_Some_2 rows mid) as [row Hrow]; [lia|].
  destruct (lookup_row rows mid row Hrow) as [-> Hmeta]; [by eapply Forall_lookup|].
  assert (Hord : ∀ i j ri rj, rows !! i = Some ri → rows !! j = Some rj → (i < j)%nat → row_hash ri < row_hash rj).
  { intros i j ri rj Hi Hj Hij. eapply (StronglySorted_lookup_lt Z.lt); [exact Hs| | |exact Hij];
      rewrite list_lookup_fmap; [by rewrite Hi|by rewrite Hj]. }
  destruct (row_hash row =? h) eqn:He; reflect_bool; [left; by exists mid, row; rewrite Hmeta|].
  destruct (row_hash row <? h) eqn:Hc; reflect_bool; apply IH; try lia;
    intros i ri Hi Heq; specialize (Hin i ri Hi Heq).
  - split; [|lia]. destruct (decide (i ≤ mid)%nat) as [Hle|]; [exfalso|lia].
    destruct (decide (i = mid)) as [->|]; [simplify_eq; lia|].
    specialize (Hord i mid ri row Hi Hrow ltac:(lia)). lia.
  - split; [lia|]. destruct (decide (mid ≤ i)%nat) as [Hle|]; [exfalso|lia].
    destruct (decide (i = mid)) as [->|]; [simplify_eq; lia|].
    specialize (Hord mid i row ri Hrow Hi ltac:(lia)). lia.
Qed.
End Lookup.

(** What the search finds, row by row. *)
Lemma lookup_posting_range_rows (rows : list PostingRow) (hash : Z) :
  StronglySorted Z.lt (row_hash <$> rows) → Forall row_ok rows →
  (∃ row, row ∈ rows ∧ row_hash row = hash ∧
     lookup_posting_range (encode_lookup rows) hash = Some (row_meta row)) ∨
  ((hash ∉ (row_hash <$> rows)) ∧ lookup_posting_range (encode_lookup rows) hash = None).
Proof.
  intros Hs Hok. unfold lookup_posting_range. rewrite encode_lookup_length, Nat.div_mul by done.
  destruct (lookup_loop_spec (S (length rows)) rows hash 0 (length rows))
    as [(i & row & Hi & Hh & ->)|[Hnot ->]]; [done|done|lia|lia| | |by right].
  - intros i row Hi _. apply lookup_lt_Some in Hi. lia.
  - left. exists row. split_and!; [by eapply list_elem_of_lookup_2|done|done].
Qed.

(** The binary search over an encoded lookup table (24-byte rows sorted by hash)
    returns exactly what the table, read as a finite map from hashes to posting ranges,
    holds for the hash. *)
Theorem lookup_posting_range_spec (rows : list PostingRow) (hash : Z) :
  StronglySorted Z.lt (row_hash <$> rows) → Forall row_ok rows →
  lookup_posting_range (encode_lookup rows) hash = lookup_table rows !! hash.
Proof.
  intros Hs Hok.
  assert (Hnd : NoDup ((λ row, (row_hash row, row_meta row)) <$> rows).*1).
  { rewrite <- list_fmap_compose. apply (StronglySorted_NoDup Z.lt); [|done]. intros ? ?; lia. }
  destruct (lookup_posting_range_rows rows hash Hs Hok) as [(row & Hrow & <- & ->)|[Hnot ->]].
  - symmetry. apply elem_of_list_to_map_1; [done|]. apply list_elem_of_fmap. by exists row.
  - symmetry. apply not_elem_of_list_to_map_1. by rewrite <- list_fmap_compose.
Qed.

Lemma lookup_posting_range_spec_witness :
  lookup_posting_range (encode_lookup [(3, 0, 12, 1); (9, 12, 20, 2)]) 9
  = lookup_table [(3, 0, 12, 1); (9, 12, 20, 2)] !! 9.
Proof.
  apply (lookup_posting_range_spec [(3, 0, 12, 1); (9, 12, 20, 2)] 9).
  - repeat constructor.
  - unfold row_ok, fits, u64_max, u32_max. repeat constructor; lia.
Defined.

