(* ===== verification/Grams.v ===== *)
(** * Grams: what the search index stores about a document

    Models the gram derivation of
    [src/crates/packet28-search-core/src/postings.rs]: the 2-grams, trigrams
    and sparse grams under which a document is indexed, the covering grams
    under which a literal is looked up, and the repeat requirements that
    [query.rs] prunes with.  The digest ([blake3], a dependency) and the
    generated table [PAIR_WEIGHTS] are parameters: the theorems hold for every
    digest and every weight table. *)

From S2P Require Export Postings.

Record SparseCandidate : Type := mkSparseCandidate {
  sc_hash : Z;
  sc_score : Z;
  sc_start : nat;
  sc_end : nat
}.

Record IndexedGram : Type := mkIndexedGram {
  ig_hash : Z;
  ig_summary : PositionSummary
}.

(** [u8::to_ascii_lowercase]. *)
Definition to_ascii_lowercase (b : Z) : Z :=
  if ((65 <=? b) && (b <=? 90))%Z then (b + 32)%Z else b.

Definition normalize_for_index (bytes : list Z) : list Z := to_ascii_lowercase <$> bytes.

Definition bucket_for_offset (offset byte_len : nat) : Z :=
  if byte_len <=? 1 then 0
  else Z.min (saturating_mul usize_max (Z.of_nat offset) POSITION_BUCKET_COUNT / Z.of_nat byte_len)
         (saturating_sub POSITION_BUCKET_COUNT 1).

(** [bytes.windows(w).enumerate()] with each window copied. *)
Definition contiguous_grams (w : nat) (bytes : list Z) : list (nat * list Z) :=
  imap (λ start window, (start, window)) (windows w bytes).

Definition contiguous_trigrams (bytes : list Z) : list (nat * list Z) :=
  if length bytes <? MIN_GRAM_BYTES then [] else contiguous_grams MIN_GRAM_BYTES bytes.

Definition contiguous_short_grams (bytes : list Z) : list (nat * list Z) :=
  if length bytes <? SHORT_GRAM_BYTES then [] else contiguous_grams SHORT_GRAM_BYTES bytes.

Definition pair_weight_prefix_sums (weights : list Z) : list Z :=
  let fix go (last : Z) (ws : list Z) : list Z :=
    match ws with
    | [] => []
    | w :: ws => let next := saturating_add u32_max last w in next :: go next ws
    end in
  0%Z :: go 0%Z weights.

Definition is_sparse_candidate_range (weights : list Z) (start end_ : nat) : bool :=
  if end_ - start <? MIN_GRAM_BYTES + 1 then false
  else
    let edge_left := weights !!! start in
    let edge_right := weights !!! (end_ - 2) in
    let interior_max := foldr Z.max 0%Z (slice (start + 1) (end_ - 2) weights) in
    ((interior_max <? edge_left) && (interior_max <? edge_right))%Z.

Definition literal_score_range (prefixes : list Z) (start end_ : nat) : Z :=
  let pair_score := saturating_sub (prefixes !!! (end_ - 1)) (prefixes !!! start) in
  saturating_add u32_max pair_score (wrapping_mul u32_max (Z.of_nat (end_ - start)) 32).

(** ** The map from hashes to position summaries *)

Definition add_indexed_gram (byte_len : nat) (by_hash : gmap Z PositionSummary)
    (hash : Z) (start : nat) : gmap Z PositionSummary :=
  let bucket := bucket_for_offset start byte_len in
  match by_hash !! hash with
  | Some summary => <[hash := PositionSummary.update summary bucket]> by_hash
  | None => <[hash := PositionSummary.new bucket]> by_hash
  end.

Definition index_map (byte_len : nat) (occs : list (Z * nat)) : gmap Z PositionSummary :=
  foldl (λ m hs, add_indexed_gram byte_len m hs.1 hs.2) ∅ occs.

(** ** Position summaries bracket the occurrences *)

Definition bucket_ok (b : Z) : Prop := (0 <= b <= 15)%Z.

Lemma bucket_for_offset_ok start len : bucket_ok (bucket_for_offset start len).
Proof.
  unfold bucket_for_offset, bucket_ok, POSITION_BUCKET_COUNT.
  destruct (len <=? 1) eqn:E; reflect_bool; [lia|].
  change (saturating_sub 16 1) with 15%Z.
  pose proof (saturating_mul_fits usize_max (Z.of_nat start) 16) as H.
  assert (0 <= saturating_mul usize_max (Z.of_nat start) 16)%Z
    by (unfold saturating_mul, usize_max, u64_max; lia).
  assert (0 <= saturating_mul usize_max (Z.of_nat start) 16 / Z.of_nat len)%Z
    by (apply Z.div_pos; lia). lia.
Qed.

Lemma nibbles f l :
  bucket_ok f → bucket_ok l →
  Z.shiftr (Z.lor (Z.shiftl f 4) l) 4 = f ∧ Z.land (Z.lor (Z.shiftl f 4) l) 15 = l.
Proof.
  unfold bucket_ok. intros. rewrite Z.shiftl_mul_pow2, Z.lor_comm by lia.
  rewrite lor_disjoint_add, Z.shiftr_div_pow2 by lia.
  change 15%Z with (2 ^ 4 - 1)%Z. rewrite land_pred_pow2 by lia. change (2 ^ 4)%Z with 16%Z.
  rewrite Z.div_add, Z.mod_add, Z.div_small, Z.mod_small by lia. lia.
Qed.

Lemma land_15 b : bucket_ok b → Z.land b 15 = b.
Proof.
  unfold bucket_ok. intros. change 15%Z with (2 ^ 4 - 1)%Z.
  rewrite land_pred_pow2 by lia. apply Z.mod_small. lia.
Qed.

Definition brackets (s : PositionSummary) (b : Z) : Prop :=
  (PositionSummary.first_bucket s <= b <= PositionSummary.last_bucket s)%Z.

Definition summary_ok (s : PositionSummary) : Prop :=
  bucket_ok (PositionSummary.first_bucket s) ∧ bucket_ok (PositionSummary.last_bucket s).

Lemma new_summary b :
  bucket_ok b → summary_ok (PositionSummary.new b) ∧ brackets (PositionSummary.new b) b.
Proof.
  intros Hb. unfold summary_ok, brackets, PositionSummary.first_bucket, PositionSummary.last_bucket,
    PositionSummary.new. simpl. rewrite !land_15 by done.
  destruct (nibbles b b Hb Hb) as [-> ->]. unfold bucket_ok in *. lia.
Qed.

Lemma update_buckets s b :
  summary_ok s → bucket_ok b →
  PositionSummary.first_bucket (PositionSummary.update s b) = Z.min (PositionSummary.first_bucket s) b ∧
  PositionSummary.last_bucket (PositionSummary.update s b) = Z.max (PositionSummary.last_bucket s) b.
Proof.
  intros [Hf Hl] Hb. unfold PositionSummary.update. rewrite (land_15 b) by done.
  apply nibbles; unfold bucket_ok in *; lia.
Qed.

Lemma update_summary s b :
  summary_ok s → bucket_ok b →
  summary_ok (PositionSummary.update s b) ∧ brackets (PositionSummary.update s b) b ∧
  (∀ b', brackets s b' → brackets (PositionSummary.update s b) b').
Proof.
  intros Hs Hb. unfold brackets, summary_ok. destruct (update_buckets s b Hs Hb) as [-> ->].
  destruct Hs. unfold bucket_ok in *. split_and!; lia.
Qed.

Lemma add_indexed_gram_spec len m h start :
  (∀ h s, m !! h = Some s → summary_ok s) →
  let m' := add_indexed_gram len m h start in
  (∀ h s, m' !! h = Some s → summary_ok s) ∧
  (∃ s, m' !! h = Some s ∧ brackets s (bucket_for_offset start len)) ∧
  (∀ h' s b, m !! h' = Some s → brackets s b → ∃ s', m' !! h' = Some s' ∧ brackets s' b).
Proof.
  intros Hm m'. unfold m', add_indexed_gram.
  pose proof (bucket_for_offset_ok start len) as Hb.
  destruct (m !! h) as [s0|] eqn:E.
  - destruct (update_summary s0 _ (Hm _ _ E) Hb) as (Hok & Hbr & Hpres). split_and!.
    + intros h' s. destruct (decide (h = h')) as [<-|]; [rewrite lookup_insert_eq; naive_solver|].
      rewrite lookup_insert_ne by done. apply Hm.
    + rewrite lookup_insert_eq. eauto.
    + intros h' s b Hs Hbr'. destruct (decide (h = h')) as [<-|]; [|rewrite lookup_insert_ne by done; eauto].
      rewrite lookup_insert_eq. simplify_eq. eauto.
  - destruct (new_summary _ Hb) as [Hok Hbr]. split_and!.
    + intros h' s. destruct (decide (h = h')) as [<-|]; [rewrite lookup_insert_eq; naive_solver|].
      rewrite lookup_insert_ne by done. apply Hm.
    + rewrite lookup_insert_eq. eauto.
    + intros h' s b Hs Hbr'. rewrite lookup_insert_ne by (intros ->; congruence). eauto.
Qed.

Lemma index_map_brackets len occs h start :
  (h, start) ∈ occs →
  ∃ s, index_map len occs !! h = Some s ∧ brackets s (bucket_for_offset start len).
Proof.
  unfold index_map.
  assert (∀ occs m, (∀ h s, m !! h = Some s → summary_ok s) →
    let m' := foldl (λ m hs, add_indexed_gram len m hs.1 hs.2) m occs in
    (∀ h s b, m !! h = Some s → brackets s b → ∃ s', m' !! h = Some s' ∧ brackets s' b) ∧
    (∀ h start, (h, start) ∈ occs → ∃ s, m' !! h = Some s ∧ brackets s (bucket_for_offset start len)))
    as Hgen.
  { clear occs h start. induction occs as [|[h0 s0] occs IH]; intros m Hm; simpl.
    { split; [eauto|]. intros ? ?. by rewrite elem_of_nil. }
    destruct (add_indexed_gram_spec len m h0 s0 Hm) as (Hok & (s1 & Hs1 & Hb1) & Hpres).
    destruct (IH _ Hok) as [Hp Hocc]. split.
    - intros h s b Hs Hb. destruct (Hpres h s b Hs Hb) as (s' & Hs' & Hb'). eauto.
    - intros h start [[= -> ->]|Hin]%elem_of_cons; eauto. }
  intros Hin. eapply Hgen; [|done]. intros ? ?. by rewrite lookup_empty.
Qed.

(** The [repeated] flag says that the hash was added more than once. *)
Lemma index_map_repeated len occs h s :
  index_map len occs !! h = Some s → repeated s = (1 <? occ h occs.*1).
Proof.
  unfold index_map.
  assert (∀ occs m k,
    match m !! h with None => k = 0 | Some s => 1 ≤ k ∧ repeated s = (1 <? k) end →
    foldl (λ m hs, add_indexed_gram len m hs.1 hs.2) m occs !! h = Some s →
    repeated s = (1 <? k + occ h occs.*1)) as Hgen.
  { clear occs. induction occs as [|[h0 s0] occs IH]; intros m k Hm Hs.
    { simpl in Hs. rewrite Hs in Hm. destruct Hm as [_ ->]. f_equal. unfold occ. simpl. lia. }
    simpl in Hs. rewrite fmap_cons, occ_cons. simpl.
    destruct (decide (h = h0)) as [<-|Hne].
    - rewrite Nat.add_succ_r, <- Nat.add_succ_l. eapply (IH _ (S k)); [|exact Hs].
      unfold add_indexed_gram.
      destruct (m !! h) as [s1|] eqn:E; rewrite lookup_insert_eq; simpl; [|by subst].
      destruct Hm as [Hk _]. split; [lia|]. symmetry. apply Nat.ltb_lt. lia.
    - eapply IH; [|exact Hs]. unfold add_indexed_gram.
      destruct (m !! h0); by rewrite lookup_insert_ne by done. }
  apply (Hgen occs ∅ 0). by rewrite lookup_empty.
Qed.

Section Grams.
Context (blake3 : list Z → list Z).
Context (PAIR_WEIGHTS : Z → Z).

Definition hash_bytes (bytes : list Z) : Z := from_le_bytes (take 8 (blake3 bytes)).

Definition pair_weight (left right : Z) : Z :=
  PAIR_WEIGHTS (Z.lor (Z.shiftl (to_ascii_lowercase left) 8) (to_ascii_lowercase right)).

Definition window_weight (pair : list Z) : Z := pair_weight (pair !!! 0) (pair !!! 1).

Definition pair_weights_for_bytes (bytes : list Z) : list Z := window_weight <$> windows 2 bytes.

Definition literal_score (bytes : list Z) : Z :=
  let pair_score := wrapping_sum u32_max (pair_weights_for_bytes bytes) in
  saturating_add u32_max pair_score (wrapping_mul u32_max (Z.of_nat (length bytes)) 32).

Definition collect_sparse_candidates (bytes : list Z) : list SparseCandidate :=
  if length bytes <? MIN_GRAM_BYTES + 1 then []
  else
    let weights := pair_weights_for_bytes bytes in
    let prefixes := pair_weight_prefix_sums weights in
    start ← seq 0 (length bytes - MIN_GRAM_BYTES + 1);
    let limit := Nat.min (start + MAX_GRAM_BYTES) (length bytes) in
    omap (λ end_,
      if is_sparse_candidate_range weights start end_ then
        Some {| sc_hash := hash_bytes (slice start end_ bytes);
                sc_score := literal_score_range prefixes start end_;
                sc_start := start; sc_end := end_ |}
      else None) (seq (start + MIN_GRAM_BYTES + 1) (limit + 1 - (start + MIN_GRAM_BYTES + 1))).

Definition build_indexed_grams (bytes : list Z) : list IndexedGram :=
  let normalized := normalize_for_index bytes in
  let byte_len := length normalized in
  let by_hash := ∅ in
  let by_hash := foldl (λ m sg, add_indexed_gram byte_len m (hash_bytes sg.2) sg.1)
                   by_hash (contiguous_short_grams normalized) in
  let by_hash := foldl (λ m sg, add_indexed_gram byte_len m (hash_bytes sg.2) sg.1)
                   by_hash (contiguous_trigrams normalized) in
  let by_hash := foldl (λ m candidate,
                     add_indexed_gram byte_len m (sc_hash candidate) (sc_start candidate))
                   by_hash (collect_sparse_candidates normalized) in
  sort_by (λ a b, (ig_hash a <=? ig_hash b)%Z)
    ((λ hs, mkIndexedGram hs.1 hs.2) <$> map_to_list by_hash).

(** The comparison of [candidates.sort_by]: score descending, then hash. *)
Definition candidate_leb (left right : SparseCandidate) : bool :=
  ((sc_score right <? sc_score left) ||
   ((sc_score left =? sc_score right) && (sc_hash left <=? sc_hash right)))%Z.

(** The fold that keeps the first candidate of every hash. *)
Fixpoint dedup_candidates (seen : list Z) (candidates : list SparseCandidate) : list SparseCandidate :=
  match candidates with
  | [] => []
  | c :: cs =>
      if decide (sc_hash c ∈ seen) then dedup_candidates seen cs
      else c :: dedup_candidates (sc_hash c :: seen) cs
  end.

Definition build_covering_candidates (literal : list Z) : list SparseCandidate :=
  let normalized := normalize_for_index literal in
  if length normalized =? SHORT_GRAM_BYTES then
    [{| sc_hash := hash_bytes normalized; sc_score := literal_score normalized;
        sc_start := 0; sc_end := length normalized |}]
  else if length normalized <? MIN_GRAM_BYTES then []
  else
    let candidates := collect_sparse_candidates normalized in
    let candidates :=
      match candidates with
      | [] =>
          (λ '(start, gram),
             {| sc_hash := hash_bytes gram; sc_score := literal_score gram;
                sc_start := start; sc_end := start + length gram |})
            <$> contiguous_trigrams normalized
      | _ => candidates
      end in
    dedup_candidates [] (sort_by candidate_leb candidates).

Definition build_covering_hashes (literal : list Z) : list Z :=
  sc_hash <$> build_covering_candidates literal.

(** [repeat_requirements_for_literal] of [query.rs]: the hashes with the
    [true] entry of its map. *)
Definition count_gram (counts : gmap Z nat) (gram : list Z) : gmap Z nat :=
  <[hash_bytes gram := S (default 0 (counts !! hash_bytes gram))]> counts.

Definition repeat_requirements_for_literal (literal : list Z) : gmap Z bool :=
  let normalized := normalize_for_index literal in
  let counts := foldl count_gram ∅ (windows SHORT_GRAM_BYTES normalized) in
  let counts := foldl count_gram counts (windows MIN_GRAM_BYTES normalized) in
  omap (λ count, if 1 <? count then Some true else None) counts.

(** ** The occurrences a document is indexed under *)

(** Every pair of a gram's hash and its start that [build_indexed_grams]
    feeds to [add_indexed_gram], in order. *)
Definition gram_occurrences (bytes : list Z) : list (Z * nat) :=
  let normalized := normalize_for_index bytes in
  ((λ sg, (hash_bytes sg.2, sg.1)) <$> contiguous_short_grams normalized)
  ++ ((λ sg, (hash_bytes sg.2, sg.1)) <$> contiguous_trigrams normalized)
  ++ ((λ c, (sc_hash c, sc_start c)) <$> collect_sparse_candidates normalized).

Lemma elem_of_build_indexed_grams bytes g :
  g ∈ build_indexed_grams bytes ↔
  index_map (length bytes) (gram_occurrences bytes) !! ig_hash g = Some (ig_summary g).
Proof.
  unfold build_indexed_grams. rewrite elem_of_sort_by.
  assert (Hlen : length (normalize_for_index bytes) = length bytes) by apply length_fmap.
  rewrite Hlen. unfold index_map, gram_occurrences. rewrite !foldl_app, !foldl_fmap.
  set (m := foldl _ _ (collect_sparse_candidates _)).
  rewrite list_elem_of_fmap. destruct g as [h s]. simpl. split.
  - intros ([h' s'] & [= -> ->] & Hin). by apply elem_of_map_to_list in Hin.
  - intros Hm. exists (h, s). split; [done|]. by apply elem_of_map_to_list.
Qed.

(** ** A gram of a substring is a gram of the whole *)

Lemma window_weights_app p l q :
  2 ≤ length l → ∃ pre post,
    pair_weights_for_bytes (p ++ l ++ q) = pre ++ pair_weights_for_bytes l ++ post ∧
    length pre = length p.
Proof.
  intros Hl. destruct (windows_app 2 p l q) as (pre & post & Heq & Hpre); [lia|done|].
  unfold pair_weights_for_bytes. rewrite Heq, !fmap_app.
  do 2 eexists. split; [done|]. by rewrite length_fmap.
Qed.

Lemma window_weights_length l : length (pair_weights_for_bytes l) = length l - 1.
Proof. unfold pair_weights_for_bytes. rewrite length_fmap, length_windows by lia. lia. Qed.

Lemma sparse_range_app p l q start end_ :
  start + MIN_GRAM_BYTES + 1 ≤ end_ → end_ ≤ length l →
  is_sparse_candidate_range (pair_weights_for_bytes (p ++ l ++ q)) (length p + start) (length p + end_)
  = is_sparse_candidate_range (pair_weights_for_bytes l) start end_.
Proof.
  unfold MIN_GRAM_BYTES. intros Hse He.
  destruct (window_weights_app p l q) as (pre & post & -> & Hpre); [lia|].
  pose proof (window_weights_length l). set (w := pair_weights_for_bytes l) in *.
  assert (Hget : ∀ i, i < length w → (pre ++ w ++ post) !!! (length p + i) = w !!! i).
  { intros i Hi. rewrite <- Hpre. rewrite lookup_total_app_r by lia.
    replace (length pre + i - length pre) with i by lia. by apply lookup_total_app_l. }
  unfold is_sparse_candidate_range.
  replace (length p + end_ - (length p + start)) with (end_ - start) by lia.
  replace (length p + end_ - 2) with (length p + (end_ - 2)) by lia.
  rewrite !Hget by lia. rewrite <- Nat.add_assoc, <- Hpre, slice_app_mid by lia. done.
Qed.

Lemma elem_of_collect_sparse bytes c :
  c ∈ collect_sparse_candidates bytes ↔
  ∃ start end_, start + MIN_GRAM_BYTES + 1 ≤ end_ ∧ end_ ≤ start + MAX_GRAM_BYTES ∧ end_ ≤ length bytes ∧
    is_sparse_candidate_range (pair_weights_for_bytes bytes) start end_ = true ∧
    c = {| sc_hash := hash_bytes (slice start end_ bytes);
           sc_score := literal_score_range (pair_weight_prefix_sums (pair_weights_for_bytes bytes)) start end_;
           sc_start := start; sc_end := end_ |}.
Proof.
  unfold collect_sparse_candidates, MIN_GRAM_BYTES.
  destruct (length bytes <? 3 + 1) eqn:E; reflect_bool.
  { rewrite elem_of_nil. split; [done|]. intros (? & ? & ? & ? & ? & ?). lia. }
  rewrite list_elem_of_bind. setoid_rewrite list_elem_of_omap. setoid_rewrite elem_of_seq.
  split.
  - intros (start & (end_ & Hend & Hc) & Hstart). case_match; [|done]. simplify_eq.
    exists start, end_. split_and!; try done; lia.
  - intros (start & end_ & H1 & H2 & H3 & Hsp & ->). exists start. split; [|lia].
    exists end_. rewrite Hsp. split; [lia|done].
Qed.

Lemma sparse_candidate_app p l q c :
  c ∈ collect_sparse_candidates l →
  (sc_hash c, length p + sc_start c) ∈
    (λ c, (sc_hash c, sc_start c)) <$> collect_sparse_candidates (p ++ l ++ q).
Proof.
  intros (start & end_ & H1 & H2 & H3 & Hsp & ->)%elem_of_collect_sparse. simpl.
  apply list_elem_of_fmap. eexists. split; [|apply elem_of_collect_sparse;
    exists (length p + start), (length p + end_); split_and!; [..|reflexivity]]; simpl.
  - rewrite slice_app_mid by lia. done.
  - lia.
  - lia.
  - rewrite !length_app. lia.
  - by rewrite sparse_range_app.
Qed.

Lemma elem_of_contiguous_grams w bytes i g :
  1 ≤ w → (i, g) ∈ contiguous_grams w bytes ↔ i + w ≤ length bytes ∧ g = slice i (i + w) bytes.
Proof.
  intros Hw. unfold contiguous_grams. rewrite list_elem_of_lookup.
  setoid_rewrite list_lookup_imap. setoid_rewrite lookup_windows; [|done].
  split.
  - intros (j & Hj). case_decide; simplify_eq/=. done.
  - intros [Hi ->]. exists i. by rewrite decide_True.
Qed.

Lemma contiguous_grams_app w p l q i g :
  1 ≤ w → (i, g) ∈ contiguous_grams w l → (length p + i, g) ∈ contiguous_grams w (p ++ l ++ q).
Proof.
  intros Hw. rewrite !elem_of_contiguous_grams by done. intros [Hi ->].
  rewrite !length_app, <- Nat.add_assoc, slice_app_mid by lia. split; [lia|done].
Qed.

Lemma elem_of_dedup_candidates seen cs c : c ∈ dedup_candidates seen cs → c ∈ cs.
Proof.
  revert seen. induction cs as [|c' cs IH]; intros seen; simpl; [done|].
  case_decide; rewrite !elem_of_cons; naive_solver.
Qed.

(** Each covering candidate of a literal is an occurrence in any document
    that contains the literal, at the literal's offset. *)
Lemma covering_candidate_occurs doc literal p q c :
  normalize_for_index doc = p ++ normalize_for_index literal ++ q →
  c ∈ build_covering_candidates literal →
  (sc_hash c, length p + sc_start c) ∈ gram_occurrences doc.
Proof.
  unfold build_covering_candidates, gram_occurrences. intros ->.
  set (l := normalize_for_index literal). intros Hc. rewrite !elem_of_app.
  destruct (length l =? SHORT_GRAM_BYTES) eqn:E2; reflect_bool.
  { apply list_elem_of_singleton in Hc as ->. left. unfold contiguous_short_grams.
    rewrite (proj2 (Nat.ltb_ge _ _)) by (rewrite !length_app; lia).
    apply list_elem_of_fmap. exists (length p + 0, l). split; [done|].
    apply contiguous_grams_app, elem_of_contiguous_grams; unfold SHORT_GRAM_BYTES in *; [lia..|].
    split; [lia|]. unfold slice. simpl. symmetry. apply take_ge. lia. }
  destruct (length l <? MIN_GRAM_BYTES) eqn:E3; reflect_bool; [by apply elem_of_nil in Hc|].
  apply elem_of_dedup_candidates, elem_of_sort_by in Hc.
  destruct (collect_sparse_candidates l) as [|c0 cs] eqn:Ec.
  - right; left. apply list_elem_of_fmap in Hc as ([i g] & -> & Hin). simpl.
    unfold contiguous_trigrams in Hin |- *. rewrite (proj2 (Nat.ltb_ge _ _)) in Hin by lia.
    rewrite (proj2 (Nat.ltb_ge _ _)) by (rewrite !length_app; lia).
    apply list_elem_of_fmap. exists (length p + i, g). split; [done|].
    by apply contiguous_grams_app; [unfold MIN_GRAM_BYTES; lia|].
  - right; right. rewrite <- Ec in Hc. by apply sparse_candidate_app.
Qed.
End Grams.

Section Repeats.
Context (blake3 : list Z → list Z).

Lemma count_gram_fold ws counts h :
  default 0 (foldl (count_gram blake3) counts ws !! h)
  = default 0 (counts !! h) + occ h (hash_bytes blake3 <$> ws).
Proof.
  revert counts. induction ws as [|w ws IH]; intros counts; [unfold occ; simpl; lia|].
  simpl foldl. rewrite IH, fmap_cons, occ_cons. unfold count_gram.
  case_decide as Hd; [rewrite <- Hd, lookup_insert_eq; simpl; lia|].
  rewrite lookup_insert_ne by done. lia.
Qed.

Lemma repeat_requirement_count literal h :
  repeat_requirements_for_literal blake3 literal !! h = Some true →
  let l := normalize_for_index literal in
  1 < occ h (hash_bytes blake3 <$> windows SHORT_GRAM_BYTES l)
      + occ h (hash_bytes blake3 <$> windows MIN_GRAM_BYTES l).
Proof.
  intros H l. unfold repeat_requirements_for_literal in H. rewrite lookup_omap in H.
  pose proof (count_gram_fold (windows MIN_GRAM_BYTES l)
    (foldl (count_gram blake3) ∅ (windows SHORT_GRAM_BYTES l)) h) as Hc.
  rewrite (count_gram_fold (windows SHORT_GRAM_BYTES l) ∅), lookup_empty in Hc. simpl in Hc.
  fold l in H. destruct (foldl _ _ (windows MIN_GRAM_BYTES l) !! h) as [c|]; simpl in *; [|done].
  case_match eqn:E; [|done]. reflect_bool. lia.
Qed.

Lemma windows_short {A} n (l : list A) : length l < n → windows n l = [].
Proof. destruct l; simpl; [done|]. intros. case_match; [reflect_bool; simpl in *; lia|done]. Qed.

Lemma occ_windows_app n p l q h :
  1 ≤ n → occ h (hash_bytes blake3 <$> windows n l) ≤ occ h (hash_bytes blake3 <$> windows n (p ++ l ++ q)).
Proof.
  intros Hn. destruct (decide (n ≤ length l)).
  - destruct (windows_app n p l q) as (pre & post & -> & _); [done..|].
    rewrite !fmap_app, !occ_app. lia.
  - rewrite windows_short by lia. unfold occ. simpl. lia.
Qed.

Lemma occ_gram_occurrences PAIR_WEIGHTS doc h :
  let l := normalize_for_index doc in
  occ h (hash_bytes blake3 <$> windows SHORT_GRAM_BYTES l)
    + occ h (hash_bytes blake3 <$> windows MIN_GRAM_BYTES l)
  ≤ occ h (gram_occurrences blake3 PAIR_WEIGHTS doc).*1.
Proof.
  intros l. unfold gram_occurrences. fold l. rewrite !fmap_app, !occ_app.
  assert (∀ w, (λ x : nat * list Z, hash_bytes blake3 x.2) <$> contiguous_grams w l = hash_bytes blake3 <$> windows w l) as Hw.
  { intros w. unfold contiguous_grams. rewrite fmap_imap. simpl.
    apply list_eq. intros i. rewrite list_lookup_imap, list_lookup_fmap. done. }
  assert (∀ w, occ h (((λ sg, (hash_bytes blake3 sg.2, sg.1)) <$> contiguous_grams w l).*1)
               = occ h (hash_bytes blake3 <$> windows w l)) as Hw'.
  { intros w. by rewrite <- list_fmap_compose, <- Hw. }
  unfold contiguous_short_grams, contiguous_trigrams.
  destruct (length l <? SHORT_GRAM_BYTES) eqn:E2; destruct (length l <? MIN_GRAM_BYTES) eqn:E3; reflect_bool;
    unfold SHORT_GRAM_BYTES, MIN_GRAM_BYTES in *; rewrite ?Hw'.
  - rewrite (windows_short 2), (windows_short 3) by lia. unfold occ. simpl. lia.
  - lia.
  - rewrite (windows_short 3) by lia. unfold occ. simpl. lia.
  - lia.
Qed.
End Repeats.

(** A gram that a literal contains more than once is flagged as repeated in the
    index of every document that contains the literal. *)
Lemma repeat_requirement_sound blake3 PAIR_WEIGHTS (doc literal p q : list Z) (g : IndexedGram) :
  normalize_for_index doc = p ++ normalize_for_index literal ++ q →
  repeat_requirements_for_literal blake3 literal !! ig_hash g = Some true →
  g ∈ build_indexed_grams blake3 PAIR_WEIGHTS doc →
  repeated (ig_summary g) = true.
Proof.
  intros Hdoc Hreq%repeat_requirement_count Hg%elem_of_build_indexed_grams. simpl in Hreq.
  rewrite (index_map_repeated _ _ _ _ Hg). apply Nat.ltb_lt.
  pose proof (occ_gram_occurrences blake3 PAIR_WEIGHTS doc (ig_hash g)) as Ho. simpl in Ho.
  rewrite Hdoc in Ho.
  pose proof (occ_windows_app blake3 SHORT_GRAM_BYTES p (normalize_for_index literal) q (ig_hash g)).
  pose proof (occ_windows_app blake3 MIN_GRAM_BYTES p (normalize_for_index literal) q (ig_hash g)).
  unfold SHORT_GRAM_BYTES, MIN_GRAM_BYTES in *. lia.
Qed.
