(* ===== verification/Layer.v ===== *)
(** * Layer: the immutable layers of the search index

    Models [src/crates/packet28-search-core/src/layer.rs]: the segments that
    the documents' grams are spilled to, their k-way merge into a lookup table
    and posting blocks, and the validation of a layer that is read back; and
    the lookups of [query.rs] in a loaded layer.  A file is the list of its
    bytes. *)

From S2P Require Export Str Grams.

(** ** Data *)

Definition SEGMENT_DOC_BATCH_SIZE : nat := 256.
Definition SEGMENT_RECORD_BYTES : nat := 14.
Definition MAX_REGEX_DOCS_BYTES : Z := 512 * 1024 * 1024.
Definition MAX_REGEX_MMAP_BYTES : Z := 4 * 1024 * 1024 * 1024.

Record IndexedDocument : Type := mkIndexedDocument {
  id_doc_id : Z;
  id_path : string;
  id_size : Z;
  id_mtime_secs : Z;
  id_fingerprint : string;
  id_grams : list IndexedGram
}.

Record DocRecord : Type := mkDocRecord {
  dr_doc_id : Z;
  dr_path : string;
  dr_size : Z;
  dr_mtime_secs : Z;
  dr_fingerprint : string
}.

Record HeapItem : Type := mkHeapItem {
  hi_hash : Z;
  hi_doc_id : Z;
  hi_summary : PositionSummary;
  hi_segment_idx : nat
}.

(** The files are memory maps; an empty file is not mapped. *)
Record LoadedLayer : Type := mkLoadedLayer {
  ly_docs : list DocRecord;
  ly_doc_ids_by_path : gmap string Z;
  ly_lookup : option (list Z);
  ly_postings : option (list Z)
}.

Definition Pair : Type := Z * Z * PositionSummary.

(** The derived [Ord] of [PositionSummary], of the triples and of [HeapItem]. *)
Definition summary_leb (a b : PositionSummary) : bool :=
  ((buckets a <? buckets b) || ((buckets a =? buckets b) && implb (repeated a) (repeated b)))%Z.

Definition pair_leb (a b : Pair) : bool :=
  let '(h, d, s) := a in
  let '(h', d', s') := b in
  ((h <? h') || ((h =? h') && ((d <? d') || ((d =? d') && summary_leb s s'))))%Z.

Definition hi_pair (i : HeapItem) : Pair := (hi_hash i, hi_doc_id i, hi_summary i).

Definition heap_item_leb (a b : HeapItem) : bool :=
  if decide (hi_pair a = hi_pair b) then hi_segment_idx a <=? hi_segment_idx b
  else pair_leb (hi_pair a) (hi_pair b).

(** ** Segments *)

(** [slice::chunks] for a positive width. *)
Fixpoint chunks_loop {A} (fuel n : nat) (l : list A) : list (list A) :=
  match fuel, l with
  | O, _ | _, [] => []
  | S fuel, _ => take n l :: chunks_loop fuel n (drop n l)
  end.
Definition chunks {A} (n : nat) (l : list A) : list (list A) := chunks_loop (length l) n l.

(** [Vec::dedup]. *)
Fixpoint dedup {A} `{EqDecision A} (l : list A) : list A :=
  match l with
  | [] => []
  | x :: l' =>
      match dedup l' with
      | y :: l'' => if decide (x = y) then y :: l'' else x :: y :: l''
      | [] => [x]
      end
  end.

Definition segment_pairs (batch : list IndexedDocument) : list Pair :=
  dedup (sort_by pair_leb (doc ← batch; (λ gram, (ig_hash gram, id_doc_id doc, ig_summary gram)) <$> id_grams doc)).

Definition encode_pair (p : Pair) : list Z :=
  let '(hash, doc_id, summary) := p in
  to_le_bytes 8 hash ++ to_le_bytes 4 doc_id ++ PositionSummary.encode summary.

Definition write_segment_file (pairs : list Pair) : list Z := concat (encode_pair <$> pairs).

Definition write_segment_files (docs : list IndexedDocument) : list (list Z) :=
  (λ batch, write_segment_file (segment_pairs batch)) <$> chunks SEGMENT_DOC_BATCH_SIZE docs.

(** The next record of a reader and what is left of it; [None] at its end. *)
Definition read_segment_pair (reader : list Z) : result SearchError (option (Pair * list Z)) :=
  match reader with
  | [] => Ok None
  | _ =>
      if (length reader <? SEGMENT_RECORD_BYTES)%nat then Err (corrupt "truncated segment record")
      else
        Ok (Some ((from_le_bytes (slice 0 8 reader), from_le_bytes (slice 8 12 reader),
                   PositionSummary.decode (reader !!! 12) (reader !!! 13)),
                  drop SEGMENT_RECORD_BYTES reader))
  end.

(** ** The merge

    The binary heap of reversed items is the sorted list of its items, its
    least one first. *)

Definition heap_push (item : HeapItem) (heap : list HeapItem) : list HeapItem :=
  insert_by heap_item_leb item heap.

Definition heap_item (p : Pair) (segment_idx : nat) : HeapItem :=
  let '(hash, doc_id, summary) := p in mkHeapItem hash doc_id summary segment_idx.

(** The first loop of [merge_segment_files]: the readers and the heap. *)
Fixpoint open_segments (segment_idx : nat) (segments : list (list Z)) (heap : list HeapItem)
    : result SearchError (list (list Z) * list HeapItem) :=
  match segments with
  | [] => Ok ([], heap)
  | file :: segments =>
      ensure (Z.of_nat (length file) <=? MAX_REGEX_MMAP_BYTES)%Z (corrupt "segment exceeds its size limit") ;;
      first ← read_segment_pair file;
      let '(reader, heap) :=
        match first with
        | Some (p, rest) => (rest, heap_push (heap_item p segment_idx) heap)
        | None => (file, heap)
        end in
      '(readers, heap) ← open_segments (S segment_idx) segments heap;
      Ok (reader :: readers, heap)
  end.

Record MergeState : Type := mkMergeState {
  ms_rows : list PostingRow;
  ms_postings : list Z;
  ms_current_hash : option Z;
  ms_current_docs : list PostingEntry
}.

Definition flush_posting_group (rows : list PostingRow) (postings : list Z) (current_hash : option Z)
    (current_docs : list PostingEntry) : list PostingRow * list Z :=
  match current_hash, current_docs with
  | Some hash, _ :: _ =>
      let offset := Z.of_nat (length postings) in
      let encoded := encode_postings current_docs in
      (rows ++ [(hash, offset, (Z.of_nat (length encoded) mod (u32_max + 1))%Z,
                 (Z.of_nat (length current_docs) mod (u32_max + 1))%Z)],
       postings ++ encoded)
  | _, _ => (rows, postings)
  end.

(** [match current_docs.last_mut()]. *)
Definition push_posting (docs : list PostingEntry) (id : Z) (s : PositionSummary) : list PostingEntry :=
  match last docs with
  | Some entry =>
      if (doc_id entry =? id)%Z
      then take (length docs - 1) docs ++ [mkPostingEntry id (PositionSummary.merge (summary entry) s)]
      else docs ++ [mkPostingEntry id s]
  | None => docs ++ [mkPostingEntry id s]
  end.

Definition merge_item (st : MergeState) (item : HeapItem) : MergeState :=
  let st :=
    if decide (ms_current_hash st = Some (hi_hash item)) then st
    else
      let flushed := flush_posting_group (ms_rows st) (ms_postings st) (ms_current_hash st) (ms_current_docs st) in
      {| ms_rows := flushed.1; ms_postings := flushed.2;
         ms_current_hash := Some (hi_hash item); ms_current_docs := [] |} in
  {| ms_rows := ms_rows st; ms_postings := ms_postings st; ms_current_hash := ms_current_hash st;
     ms_current_docs := push_posting (ms_current_docs st) (hi_doc_id item) (hi_summary item) |}.

(** The [while let] loop; every turn consumes a record, so the number of
    records is enough fuel.  [None]: out of fuel. *)
Fixpoint merge_loop (fuel : nat) (heap : list HeapItem) (readers : list (list Z)) (st : MergeState)
    : option (result SearchError MergeState) :=
  match heap with
  | [] => Some (Ok st)
  | item :: heap =>
      match fuel with
      | O => None
      | S fuel =>
          let st := merge_item st item in
          let segment_idx := hi_segment_idx item in
          match read_segment_pair (readers !!! segment_idx) with
          | Err e => Some (Err e)
          | Ok None => merge_loop fuel heap readers st
          | Ok (Some (p, rest)) =>
              merge_loop fuel (heap_push (heap_item p segment_idx) heap) (<[segment_idx := rest]> readers) st
          end
      end
  end.

Definition merge_segment_files (segments : list (list Z))
    : option (result SearchError (list PostingRow * list Z)) :=
  match open_segments 0 segments [] with
  | Err e => Some (Err e)
  | Ok (readers, heap) =>
      merged ← merge_loop (S (length (concat segments))) heap readers (mkMergeState [] [] None []);
      Some (st ← merged;
            Ok (flush_posting_group (ms_rows st) (ms_postings st) (ms_current_hash st) (ms_current_docs st)))
  end.

(** ** Reading a layer back *)

Definition mmap_retained (file : list Z) : option (list Z) :=
  match file with [] => None | _ => Some file end.

(** The loop over the document records. *)
Fixpoint check_docs (expected_id : nat) (paths : gset string) (docs : list DocRecord) : result SearchError () :=
  match docs with
  | [] => Ok ()
  | doc :: docs =>
      ensure (dr_doc_id doc =? Z.of_nat expected_id)%Z (corrupt "non-contiguous document id") ;;
      ensure (bool_decide (dr_path doc ∉ paths)) (corrupt "duplicate path") ;;
      check_docs (S expected_id) ({[dr_path doc]} ∪ paths) docs
  end.

(** One turn of the loop over the lookup rows: the row's hash and its end. *)
Definition check_row (doc_count : nat) (postings : list Z) (row : list Z) (previous : option Z)
    (expected_offset : Z) : result SearchError (Z * Z) :=
  hash ← read_fixed_width 8 row 0;
  offset ← read_fixed_width 8 row 8;
  len ← read_fixed_width 4 row 16;
  count ← read_fixed_width 4 row 20;
  let hash := from_le_bytes hash in
  let meta := {| lp_offset := from_le_bytes offset; lp_len := from_le_bytes len; lp_doc_count := from_le_bytes count |} in
  ensure (match previous with Some previous => (previous <? hash)%Z | None => true end)
    (corrupt "hashes must be strictly increasing") ;;
  ensure ((0 <? lp_len meta) && (0 <? lp_doc_count meta))%Z (corrupt "empty posting block") ;;
  '(start, end_) ← checked_posting_bounds (lp_offset meta) (lp_len meta) (Z.of_nat (length postings));
  ensure (lp_offset meta =? expected_offset)%Z (corrupt "expected contiguous offset") ;;
  entries ← decode_postings (slice (Z.to_nat start) (Z.to_nat end_) postings);
  ensure (Z.of_nat (length entries) =? lp_doc_count meta)%Z (corrupt "document count mismatch") ;;
  ensure (forallb (λ entry, (doc_id entry <? Z.of_nat doc_count)%Z) entries)
    (corrupt "references missing document id") ;;
  Ok (hash, end_).

Fixpoint check_rows (doc_count : nat) (postings : list Z) (rows : list (list Z)) (previous : option Z)
    (expected_offset : Z) : result SearchError Z :=
  match rows with
  | [] => Ok expected_offset
  | row :: rows =>
      '(hash, end_) ← check_row doc_count postings row previous expected_offset;
      check_rows doc_count postings rows (Some hash) end_
  end.

Definition validate_layer_files (docs : list DocRecord) (lookup postings : list Z) : result SearchError () :=
  check_docs 0 ∅ docs ;;
  ensure (length lookup mod LOOKUP_ROW_BYTES =? 0)%nat (corrupt "partial trailing row") ;;
  expected_offset ← check_rows (length docs) postings (chunks LOOKUP_ROW_BYTES lookup) None 0;
  ensure (expected_offset =? Z.of_nat (length postings))%Z (corrupt "unreferenced trailing bytes").

(** ** The files of a layer *)

(** The files of the index directory, by their names. *)
Notation Directory := (gmap string (list Z)).

Record LayerFiles : Type := mkLayerFiles {
  lf_lookup : string;
  lf_postings : string;
  lf_docs : string;
  lf_lookup_digest : string;
  lf_postings_digest : string;
  lf_docs_digest : string
}.
Definition has_digests (files : LayerFiles) : bool :=
  negb (bool_decide (lf_lookup_digest files = ""%string)) && negb (bool_decide (lf_postings_digest files = ""%string)) &&
  negb (bool_decide (lf_docs_digest files = ""%string)).

Fixpoint split_slash (s : string) : list string :=
  match s with
  | EmptyString => [EmptyString]
  | String c s =>
      if bool_decide (c = "/"%char) then EmptyString :: split_slash s
      else match split_slash s with w :: ws => String c w :: ws | [] => [String c EmptyString] end
  end.

(** [Path::components] of a path that is not absolute: empty segments are
    dropped, and so is [.] except at the beginning. *)
Definition path_components (name : string) : list string :=
  match split_slash name with
  | [] => []
  | first :: rest => filter (λ p, p ≠ ""%string) [first] ++ filter (λ p, p ≠ ""%string ∧ p ≠ "."%string) rest
  end.

Fixpoint check_names (unique : gset string) (names : list string) : result SearchError () :=
  match names with
  | [] => Ok ()
  | name :: names =>
      ensure (negb (bool_decide (name = ""%string)) && negb (starts_with "/" name) && (length (path_components name) =? 1)%nat &&
              bool_decide (name ∉ unique)) (corrupt "invalid or duplicate layer artifact name") ;;
      check_names ({[name]} ∪ unique) names
  end.
Definition layer_names (files : LayerFiles) : list string := [lf_lookup files; lf_postings files; lf_docs files].
Definition validate_layer_file_names (files : LayerFiles) : result SearchError () := check_names ∅ (layer_names files).

(** The leaf that a validated name stands for. *)
Definition state_leaf (name : string) : option string :=
  match path_components name with
  | [leaf] => if bool_decide (leaf = "."%string) || bool_decide (leaf = ".."%string) then None else Some leaf
  | _ => None
  end.

(** [open_optional_state_file] and [read_optional_state_file]. *)
Definition read_optional (dir : Directory) (name : string) (max_bytes : Z) : result SearchError (option (list Z)) :=
  leaf ← ok_or (state_leaf name) (corrupt "invalid leaf");
  match dir !! leaf with
  | None => Ok None
  | Some bytes => ensure (Z.of_nat (length bytes) <=? max_bytes)%Z (corrupt "file exceeds its size limit") ;; Ok (Some bytes)
  end.

(** [write_immutable]: an existing file is not replaced. *)
Definition write_immutable (dir : Directory) (name : string) (bytes : list Z) : result SearchError Directory :=
  leaf ← ok_or (state_leaf name) (corrupt "invalid leaf");
  ensure (bool_decide (dir !! leaf = None)) (corrupt "file exists") ;;
  Ok (<[leaf := bytes]> dir).

(** What the layers use of other crates: blake3 as text, and wincode on the
    document records. *)
Class LayerCodec : Type := {
  artifact_digest : list Z → string;
  serialize_docs : list DocRecord → result SearchError (list Z);
  deserialize_docs : list Z → result SearchError (list DocRecord)
}.

Section Store.
Context `{!LayerCodec}.

Definition verify_artifact_digest (bytes : list Z) (expected : string) : result SearchError () :=
  ensure (bool_decide (artifact_digest bytes = expected)) (corrupt "failed digest validation").

Definition load_layer (dir : Directory) (files : LayerFiles) : result SearchError LoadedLayer :=
  validate_layer_file_names files ;;
  raw ← read_optional dir (lf_docs files) MAX_REGEX_DOCS_BYTES;
  lookup_file ← read_optional dir (lf_lookup files) MAX_REGEX_MMAP_BYTES;
  postings_file ← read_optional dir (lf_postings files) MAX_REGEX_MMAP_BYTES;
  match raw, lookup_file, postings_file with
  | Some raw, Some lookup, Some postings =>
      docs ← deserialize_docs raw;
      let lookup := mmap_retained lookup in
      let postings := mmap_retained postings in
      (if has_digests files then
         verify_artifact_digest raw (lf_docs_digest files) ;;
         verify_artifact_digest (default [] lookup) (lf_lookup_digest files) ;;
         verify_artifact_digest (default [] postings) (lf_postings_digest files)
       else Ok ()) ;;
      validate_layer_files docs (default [] lookup) (default [] postings) ;;
      Ok {| ly_docs := docs;
            ly_doc_ids_by_path := foldl (λ m doc, <[dr_path doc := dr_doc_id doc]> m) ∅ docs;
            ly_lookup := lookup; ly_postings := postings |}
  | _, _, _ => Err (corrupt "incomplete regex index layer")
  end.

Definition doc_record (doc : IndexedDocument) : DocRecord :=
  {| dr_doc_id := id_doc_id doc; dr_path := id_path doc; dr_size := id_size doc;
     dr_mtime_secs := id_mtime_secs doc; dr_fingerprint := id_fingerprint doc |}.

(** The layer that is loaded, the directory and the names with the digests. *)
Definition build_layer (dir : Directory) (docs : list IndexedDocument) (files : LayerFiles)
    : option (result SearchError (LoadedLayer * Directory * LayerFiles)) :=
  match (validate_layer_file_names files ;;
         for_each (λ name, existing ← read_optional dir name MAX_REGEX_MMAP_BYTES;
                           ensure (bool_decide (existing = None)) (corrupt "immutable regex index artifact already exists"))
           (layer_names files)) with
  | Err e => Some (Err e)
  | Ok _ =>
      merged ← merge_segment_files (write_segment_files docs);
      Some ('(rows, postings) ← merged;
            let lookup := encode_lookup rows in
            docs_bytes ← serialize_docs (doc_record <$> docs);
            let files := mkLayerFiles (lf_lookup files) (lf_postings files) (lf_docs files) (artifact_digest lookup)
                           (artifact_digest postings) (artifact_digest docs_bytes) in
            dir ← write_immutable dir (lf_lookup files) lookup;
            dir ← write_immutable dir (lf_postings files) postings;
            dir ← write_immutable dir (lf_docs files) docs_bytes;
            layer ← load_layer dir files;
            Ok (layer, dir, files))
  end.
End Store.

(** ** Indexing the files of a workspace *)

Definition MAX_INDEXED_FILE_BYTES : nat := 2 * 1024 * 1024.

(** A regular file the walk yields: its path below the root (UTF-8), what
    [fs::read] returns and its modification time. *)
Record SourceFile : Type := mkSourceFile {
  sf_path : string;
  sf_bytes : list Z;
  sf_mtime_secs : Z
}.

Definition skipped_path (normalized : string) : bool :=
  starts_with ".git/" normalized || starts_with ".packet28/" normalized
  || starts_with "target/" normalized || starts_with "node_modules/" normalized.

Section Scan.
Context (blake3 : list Z → list Z) (PAIR_WEIGHTS : Z → Z) (hex_digest : list Z → string).

Definition index_document (file : SourceFile) : option IndexedDocument :=
  let normalized := replace_char "\"%char "/"%char (sf_path file) in
  if skipped_path normalized then None
  else if (MAX_INDEXED_FILE_BYTES <? length (sf_bytes file))%nat then None
  else if bool_decide (sf_bytes file = []) || bool_decide (0%Z ∈ sf_bytes file) then None
  else
    Some {| id_doc_id := 0; id_path := normalized; id_size := Z.of_nat (length (sf_bytes file));
            id_mtime_secs := sf_mtime_secs file; id_fingerprint := hex_digest (sf_bytes file);
            id_grams := build_indexed_grams blake3 PAIR_WEIGHTS (sf_bytes file) |}.

(** [doc.doc_id = idx as u32]. *)
Definition set_doc_id (idx : nat) (doc : IndexedDocument) : IndexedDocument :=
  {| id_doc_id := (Z.of_nat idx mod (u32_max + 1))%Z; id_path := id_path doc; id_size := id_size doc;
     id_mtime_secs := id_mtime_secs doc; id_fingerprint := id_fingerprint doc; id_grams := id_grams doc |}.

(** [scan_documents_with_progress] over the discovered files. *)
Definition scan_documents (files : list SourceFile) : list IndexedDocument :=
  imap set_doc_id (sort_by (λ left right, str_leb (id_path left) (id_path right)) (omap index_document files)).
End Scan.

(** ** Lookups *)

Definition lookup_doc_ids (layer : LoadedLayer) (hash : Z) (postings_bytes_read : Z)
    : result SearchError (option (list PostingEntry)) * Z :=
  match ly_lookup layer, ly_postings layer with
  | Some lookup, Some postings =>
      match lookup_posting_range lookup hash with
      | None => (Ok None, postings_bytes_read)
      | Some meta =>
          match checked_posting_bounds (lp_offset meta) (lp_len meta) (Z.of_nat (length postings)) with
          | Err e => (Err e, postings_bytes_read)
          | Ok (start, end_) =>
              (Some <$> decode_postings (slice (Z.to_nat start) (Z.to_nat end_) postings),
               saturating_add u64_max postings_bytes_read (lp_len meta))
          end
      end
  | _, _ => (Ok None, postings_bytes_read)
  end.

Definition lookup_doc_ids_quiet (layer : LoadedLayer) (hash : Z) : option (list PostingEntry) :=
  lookup ← ly_lookup layer;
  postings ← ly_postings layer;
  meta ← lookup_posting_range lookup hash;
  match checked_posting_bounds (lp_offset meta) (lp_len meta) (Z.of_nat (length postings)) with
  | Ok (start, end_) =>
      match decode_postings (slice (Z.to_nat start) (Z.to_nat end_) postings) with
      | Ok entries => Some entries
      | Err _ => None
      end
  | Err _ => None
  end.

Definition lookup_posting_count (layer : LoadedLayer) (hash : Z) : option Z :=
  lookup ← ly_lookup layer;
  lp_doc_count <$> lookup_posting_range lookup hash.
