(* ===== verification/LayerSpec.v ===== *)
(** * LayerSpec: what the layers of the search index hold

    The merge of the sorted segments is the fold over the sorted list of all
    records; a layer that was built answers every lookup with exactly the
    documents indexed under the hash; and a layer that passed validation
    answers every lookup without an error. *)

From S2P Require Export Layer.

(** ** The orders *)

Definition summary_key (s : PositionSummary) : Z := 2 * buckets s + Z.b2z (repeated s).

Lemma summary_key_inj a b : summary_key a = summary_key b → a = b.
Proof. destruct a as [b1 r1], b as [b2 r2]. unfold summary_key. simpl. destruct r1, r2; simpl; intros; f_equal; lia. Qed.

Lemma summary_leb_spec a b : summary_leb a b = true ↔ (summary_key a <= summary_key b)%Z.
Proof.
  destruct a as [b1 r1], b as [b2 r2]. unfold summary_leb, summary_key. simpl.
  rewrite orb_true_iff, andb_true_iff, Z.ltb_lt, Z.eqb_eq. destruct r1, r2; simpl; intuition lia.
Qed.

Definition pair_hash (p : Pair) : Z := p.1.1.
Definition pair_doc (p : Pair) : Z := p.1.2.

Lemma pair_leb_spec a b :
  pair_leb a b = true ↔
  (pair_hash a < pair_hash b ∨ (pair_hash a = pair_hash b ∧
     (pair_doc a < pair_doc b ∨ (pair_doc a = pair_doc b ∧ summary_key a.2 <= summary_key b.2))))%Z.
Proof.
  destruct a as [[h d] s], b as [[h' d'] s']. unfold pair_leb, pair_hash, pair_doc. simpl.
  rewrite orb_true_iff, andb_true_iff, orb_true_iff, andb_true_iff, !Z.ltb_lt, !Z.eqb_eq, summary_leb_spec. done.
Qed.

Lemma pair_eq_spec (a b : Pair) :
  a = b ↔ pair_hash a = pair_hash b ∧ pair_doc a = pair_doc b ∧ summary_key a.2 = summary_key b.2.
Proof.
  destruct a as [[h d] s], b as [[h' d'] s']. unfold pair_hash, pair_doc. simpl.
  split; [by intros [= -> -> ->]|]. intros (-> & -> & ->%summary_key_inj). done.
Qed.

Lemma heap_item_leb_spec a b :
  heap_item_leb a b = true ↔
  (hi_hash a < hi_hash b ∨ (hi_hash a = hi_hash b ∧
     (hi_doc_id a < hi_doc_id b ∨ (hi_doc_id a = hi_doc_id b ∧
        (summary_key (hi_summary a) < summary_key (hi_summary b) ∨
         (summary_key (hi_summary a) = summary_key (hi_summary b) ∧
          Z.of_nat (hi_segment_idx a) <= Z.of_nat (hi_segment_idx b)))))))%Z.
Proof.
  unfold heap_item_leb. destruct (decide (hi_pair a = hi_pair b)) as [E|E]; rewrite pair_eq_spec in E;
    unfold hi_pair, pair_hash, pair_doc in E; simpl in E.
  - rewrite Nat.leb_le. lia.
  - rewrite pair_leb_spec. unfold pair_hash, pair_doc, hi_pair. simpl. lia.
Qed.

Lemma pair_leb_trans a b c : pair_leb a b = true → pair_leb b c = true → pair_leb a c = true.
Proof. rewrite !pair_leb_spec. lia. Qed.
Lemma pair_leb_total a b : pair_leb a b = false → pair_leb b a = true.
Proof. rewrite <- not_true_iff_false, !pair_leb_spec. lia. Qed.
Lemma heap_item_leb_trans a b c : heap_item_leb a b = true → heap_item_leb b c = true → heap_item_leb a c = true.
Proof. rewrite !heap_item_leb_spec. lia. Qed.
Lemma heap_item_leb_total a b : heap_item_leb a b = false → heap_item_leb b a = true.
Proof. rewrite <- not_true_iff_false, !heap_item_leb_spec. lia. Qed.
Lemma heap_item_leb_antisym a b : heap_item_leb a b = true → heap_item_leb b a = true → a = b.
Proof.
  rewrite !heap_item_leb_spec. destruct a as [h d s i], b as [h' d' s' i']. simpl. intros H1 H2.
  assert (h = h' ∧ d = d' ∧ summary_key s = summary_key s' ∧ i = i') as (-> & -> & ->%summary_key_inj & ->) by lia.
  done.
Qed.
Lemma heap_item_leb_pair a b : pair_leb (hi_pair a) (hi_pair b) = true → hi_segment_idx a = hi_segment_idx b → heap_item_leb a b = true.
Proof. rewrite heap_item_leb_spec, pair_leb_spec. unfold hi_pair, pair_hash, pair_doc. simpl. lia. Qed.
Lemma heap_item_leb_hi_pair a b : heap_item_leb a b = true → pair_leb (hi_pair a) (hi_pair b) = true.
Proof. rewrite heap_item_leb_spec, pair_leb_spec. unfold hi_pair, pair_hash, pair_doc. simpl. lia. Qed.

#[export] Hint Resolve pair_leb_trans pair_leb_total heap_item_leb_trans heap_item_leb_total heap_item_leb_antisym : p28.

(** ** Segments *)

Lemma concat_chunks {A} n (l : list A) : 0 < n → concat (chunks n l) = l.
Proof.
  intros Hn. unfold chunks. generalize (le_n (length l)). generalize (length l) at 2 3 as fuel.
  intros fuel. revert l. induction fuel as [|fuel IH]; intros [|x l] Hl; try done; [simpl in Hl; lia|].
  cbn [chunks_loop]. rewrite concat_cons, IH; [apply take_drop|].
  rewrite length_drop. simpl in *. lia.
Qed.

Lemma chunks_app {A} n (l k : list A) :
  0 < n → length l = n → chunks n (l ++ k) = l :: chunks n k.
Proof.
  intros Hn Hl. unfold chunks.
  assert (Hfuel : ∀ fuel fuel' (m : list A), length m ≤ fuel → length m ≤ fuel' →
    chunks_loop fuel n m = chunks_loop fuel' n m).
  { induction fuel as [|fuel IH]; intros [|fuel'] [|y m] H1 H2; try (simpl in *; (lia || done)).
    cbn [chunks_loop]. f_equal. apply IH; rewrite length_drop; simpl in *; lia. }
  rewrite length_app. destruct l as [|x l]; [simpl in *; lia|].
  change (length (x :: l) + length k) with (S (length l + length k)). cbn [chunks_loop app].
  change (x :: l ++ k) with ((x :: l) ++ k). rewrite take_app_length', drop_app_length' by done. f_equal.
  apply Hfuel; lia.
Qed.

Lemma dedup_NoDup {A} `{EqDecision A} (l : list A) : NoDup l → dedup l = l.
Proof.
  induction 1 as [|x l Hx _ IH]; [done|]. simpl. rewrite IH. destruct l as [|y l]; [done|].
  rewrite decide_False; [done|]. intros ->. apply Hx. by left.
Qed.

(** What a record of a segment can hold. *)
Definition pair_ok (p : Pair) : Prop :=
  fits u64_max (pair_hash p) ∧ fits u32_max (pair_doc p) ∧ byte (buckets p.2).

Lemma encode_pair_length p : length (encode_pair p) = SEGMENT_RECORD_BYTES.
Proof. destruct p as [[h d] s]. unfold encode_pair. by rewrite !length_app, !length_to_le_bytes. Qed.

Lemma read_encode_pair p rest :
  pair_ok p → read_segment_pair (encode_pair p ++ rest) = Ok (Some (p, rest)).
Proof.
  intros (Hh & Hd & Hb). pose proof (encode_pair_length p) as Hlen. unfold read_segment_pair.
  destruct (encode_pair p ++ rest) as [|b bs] eqn:E.
  { apply (f_equal length) in E. rewrite length_app, Hlen in E. unfold SEGMENT_RECORD_BYTES in E. simpl in E. lia. }
  rewrite <- E. clear E b bs. rewrite (proj2 (Nat.ltb_ge _ _)) by (rewrite length_app; lia).
  destruct p as [[h d] [b r]]. unfold encode_pair, PositionSummary.encode, pair_hash, pair_doc, SEGMENT_RECORD_BYTES in *. simpl in Hh, Hd, Hb.
  set (H8 := to_le_bytes 8 h). set (D4 := to_le_bytes 4 d).
  assert (L8 : length H8 = 8%nat) by apply length_to_le_bytes.
  assert (L4 : length D4 = 4%nat) by apply length_to_le_bytes.
  change (buckets {| buckets := b; repeated := r |}) with b. change (repeated {| buckets := b; repeated := r |}) with r.
  rewrite <- !app_assoc.
  set (bytes := H8 ++ D4 ++ [b; if r then 1%Z else 0%Z] ++ rest).
  assert (slice 0 8 bytes = H8) as -> by (unfold slice, bytes; by rewrite drop_0, take_app_length').
  assert (slice 8 12 bytes = D4) as -> by (unfold slice, bytes; by rewrite drop_app_length', take_app_length').
  assert (drop 14 bytes = rest) as ->.
  { unfold bytes. rewrite app_assoc, (drop_app_ge (H8 ++ D4)) by (rewrite length_app, L8, L4; lia).
    by rewrite length_app, L8, L4. }
  assert (Hx : ∀ i, bytes !!! (12 + i) = ([b; if r then 1%Z else 0%Z] ++ rest) !!! i).
  { intros i. unfold bytes. rewrite !list_lookup_total_alt, app_assoc, lookup_app_r by (rewrite length_app, L8, L4; lia).
    rewrite length_app, L8, L4. by replace (12 + i - (8 + 4)) with i by lia. }
  assert (bytes !!! 12 = b) as -> by (apply (Hx 0)).
  assert (bytes !!! 13 = if r then 1%Z else 0%Z) as -> by (apply (Hx 1)).
  unfold H8, D4, fits, u32_max, u64_max in *. rewrite !from_to_le_bytes by (simpl; lia).
  unfold PositionSummary.decode. by destruct r.
Qed.

Lemma write_segment_length ps : length (write_segment_file ps) = length ps * SEGMENT_RECORD_BYTES.
Proof.
  unfold write_segment_file. induction ps as [|p ps IH]; [done|].
  rewrite fmap_cons, concat_cons, length_app, IH, encode_pair_length. simpl. lia.
Qed.

(** ** The merge pops the records in sorted order *)

Local Abbreviation item_le := (λ a b, heap_item_leb a b = true).
Local Abbreviation pair_le := (λ a b, pair_leb a b = true).

Lemma sort_by_min {A} (leb : A → A → bool) x l :
  (∀ y, y ∈ l → leb x y = true) → sort_by leb (x :: l) = x :: sort_by leb l.
Proof.
  intros Hx. simpl. destruct (sort_by leb l) as [|y k] eqn:E; [done|]. simpl.
  rewrite Hx; [done|]. rewrite <- (elem_of_sort_by leb), E. left.
Qed.

Lemma sort_items_perm l k : l ≡ₚ k → sort_by heap_item_leb l = sort_by heap_item_leb k.
Proof. apply sort_by_perm_eq; eauto with p28. Qed.

(** The records that the segments [k], [k + 1], ... still hold. *)
Fixpoint items (k : nat) (R : list (list Pair)) : list HeapItem :=
  match R with
  | [] => []
  | l :: R => ((λ p, heap_item p k) <$> l) ++ items (S k) R
  end.

Lemma items_pop k R i p l :
  R !! i = Some (p :: l) → items k R ≡ₚ heap_item p (k + i) :: items k (<[i := l]> R).
Proof.
  revert k i. induction R as [|l0 R IH]; intros k [|i] Hi; simplify_eq/=.
  - by rewrite Nat.add_0_r.
  - rewrite (IH (S k) i Hi), <- Permutation_middle, Nat.add_succ_r. done.
Qed.

Lemma elem_of_items k R it :
  it ∈ items k R ↔ ∃ i l p, R !! i = Some l ∧ p ∈ l ∧ it = heap_item p (k + i).
Proof.
  revert k. induction R as [|l0 R IH]; intros k; cbn [items].
  { rewrite elem_of_nil. split; [done|]. intros (i & ? & ? & Hi & _). done. }
  rewrite elem_of_app, list_elem_of_fmap, IH. split.
  - intros [(p & -> & Hp)|(i & l & p & Hi & Hp & ->)].
    + exists 0, l0, p. by rewrite Nat.add_0_r.
    + exists (S i), l, p. by rewrite Nat.add_succ_r.
  - intros ([|i] & l & p & Hi & Hp & ->); simplify_eq/=; [left; exists p; by rewrite Nat.add_0_r|right].
    exists i, l, p. by rewrite Nat.add_succ_r.
Qed.

Lemma hi_pair_heap_item p i : hi_pair (heap_item p i) = p.
Proof. by destruct p as [[h d] s]. Qed.
Lemma hi_seg_heap_item p i : hi_segment_idx (heap_item p i) = i.
Proof. by destruct p as [[h d] s]. Qed.

Lemma heap_push_sorted it heap : StronglySorted item_le heap → StronglySorted item_le (heap_push it heap).
Proof. apply insert_by_sorted; eauto with p28. Qed.

(** The heap and what the readers still hold: every segment that is not at its
    end has an item in the heap that stands before its next record. *)
Record merge_ready (heap : list HeapItem) (R : list (list Pair)) : Prop := {
  mr_sorted : StronglySorted item_le heap;
  mr_segments : ∀ i l, R !! i = Some l → StronglySorted pair_le l ∧ Forall pair_ok l;
  mr_front : ∀ i p l, R !! i = Some (p :: l) → ∃ it, it ∈ heap ∧ hi_segment_idx it = i ∧ pair_leb (hi_pair it) p = true;
  mr_index : ∀ it, it ∈ heap → hi_segment_idx it < length R
}.

Lemma merge_ready_min it heap R :
  merge_ready (it :: heap) R → ∀ y, y ∈ heap ++ items 0 R → heap_item_leb it y = true.
Proof.
  intros Hr y. pose proof (mr_sorted _ _ Hr) as Hs. inversion Hs as [|? ? _ Hit]; subst.
  rewrite Forall_forall in Hit. rewrite elem_of_app.
  intros [Hy|(i & l & p & Hi & Hp & ->)%elem_of_items]; [by apply Hit|].
  destruct l as [|p0 l]; [by apply elem_of_nil in Hp|].
  destruct (mr_front _ _ Hr _ _ _ Hi) as (it' & Hin & Hseg & Hle).
  destruct (mr_segments _ _ Hr _ _ Hi) as [Hsl _].
  assert (heap_item_leb it' (heap_item p i) = true) as Hstep.
  { apply heap_item_leb_pair; [|by rewrite hi_seg_heap_item]. rewrite hi_pair_heap_item.
    apply elem_of_cons in Hp as [->|Hp]; [done|]. inversion Hsl as [|? ? _ Hall]; subst.
    rewrite Forall_forall in Hall. eapply pair_leb_trans; [exact Hle|]. by apply Hall. }
  apply elem_of_cons in Hin as [->|Hin]; [done|].
  eapply heap_item_leb_trans; [apply Hit; exact Hin|done].
Qed.

Lemma merge_ready_drop it heap R :
  merge_ready (it :: heap) R → R !! hi_segment_idx it = Some [] → merge_ready heap R.
Proof.
  intros [Hs Hseg Hf Hi] Hnil. inversion Hs; subst. split; [done|done| |].
  - intros i p l Hil. destruct (Hf _ _ _ Hil) as (it' & Hin & Hsi & Hle).
    exists it'. split_and!; [|done|done]. apply elem_of_cons in Hin as [->|]; [congruence|done].
  - intros it' Hin. apply Hi. by right.
Qed.

Lemma merge_ready_push it heap R p l :
  merge_ready (it :: heap) R → R !! hi_segment_idx it = Some (p :: l) →
  merge_ready (heap_push (heap_item p (hi_segment_idx it)) heap) (<[hi_segment_idx it := l]> R).
Proof.
  intros [Hs Hseg Hf Hi] Hpl. inversion Hs; subst.
  destruct (Hseg _ _ Hpl) as [Hsl Hok]. inversion Hsl as [|? ? Hsl' Hall]; subst. inversion Hok; subst.
  assert (Hlt : hi_segment_idx it < length R) by (apply Hi; left).
  assert (Hin : ∀ x, x ∈ heap_push (heap_item p (hi_segment_idx it)) heap ↔ x = heap_item p (hi_segment_idx it) ∨ x ∈ heap).
  { intros x. unfold heap_push. by rewrite insert_by_perm, elem_of_cons. }
  split.
  - by apply heap_push_sorted.
  - intros i l'. rewrite list_lookup_insert_Some. intros [(<- & <- & _)|[_ ?]]; [done|eauto].
  - intros i p' l'. rewrite list_lookup_insert_Some. intros [(<- & -> & _)|[Hne Hil]].
    + exists (heap_item p (hi_segment_idx it)). rewrite hi_seg_heap_item, hi_pair_heap_item, Hin.
      inversion Hall; subst. auto.
    + destruct (Hf _ _ _ Hil) as (it' & Hin' & Hsi & Hle). exists it'. rewrite Hin. split_and!; [|done|done].
      apply elem_of_cons in Hin' as [->|]; [done|by right].
  - intros it' [->|Hit']%Hin; rewrite length_insert; [by rewrite hi_seg_heap_item|]. apply Hi. by right.
Qed.

Lemma merge_loop_spec fuel heap R st :
  merge_ready heap R → length heap + length (items 0 R) ≤ fuel →
  merge_loop fuel heap (write_segment_file <$> R) st =
    Some (Ok (foldl merge_item st (sort_by heap_item_leb (heap ++ items 0 R)))).
Proof.
  revert heap R st. induction fuel as [|fuel IH]; intros heap R st Hr Hfuel.
  all: destruct heap as [|it heap]; [|].
  1,3: assert (items 0 R = []) as ->; [|done].
  1,2: destruct (items 0 R) as [|x xs] eqn:E; [done|]; exfalso;
    assert (x ∈ items 0 R) as (i & l & p & Hi & Hp & _)%elem_of_items by (rewrite E; left);
    destruct l as [|p0 l]; [by apply elem_of_nil in Hp|];
    destruct (mr_front _ _ Hr _ _ _ Hi) as (? & ?%elem_of_nil & _); done.
  { simpl in Hfuel. lia. }
  cbn [merge_loop]. pose proof (merge_ready_min _ _ _ Hr) as Hmin.
  pose proof (mr_index _ _ Hr it ltac:(left)) as Hidx.
  rewrite <- app_comm_cons, sort_by_min by done. cbn [foldl].
  destruct (lookup_lt_is_Some_2 R _ Hidx) as [l Hl].
  rewrite list_lookup_total_alt, list_lookup_fmap, Hl. cbn [fmap option_fmap option_map from_option id].
  destruct (mr_segments _ _ Hr _ _ Hl) as [_ Hok]. simpl in Hfuel. destruct l as [|p l].
  - change (write_segment_file []) with (@nil Z). cbn [read_segment_pair].
    apply IH; [by eapply merge_ready_drop|lia].
  - change (write_segment_file (p :: l)) with (encode_pair p ++ write_segment_file l).
    inversion Hok; subst. rewrite read_encode_pair by done.
    rewrite <- list_fmap_insert. pose proof (items_pop 0 R _ _ _ Hl) as Hperm. simpl in Hperm.
    rewrite IH; [|by apply merge_ready_push|].
    + f_equal. f_equal. f_equal. apply sort_items_perm. unfold heap_push. rewrite insert_by_perm, Hperm.
      by rewrite <- app_comm_cons, Permutation_middle.
    + unfold heap_push. rewrite insert_by_perm. simpl. rewrite Hperm in Hfuel. simpl in Hfuel. lia.
Qed.

Definition segment_fits (l : list Pair) : Prop :=
  (Z.of_nat (length l * SEGMENT_RECORD_BYTES) <= MAX_REGEX_MMAP_BYTES)%Z ∧
  StronglySorted pair_le l ∧ Forall pair_ok l.

Lemma open_segments_spec k P heap :
  StronglySorted item_le heap → Forall segment_fits P →
  ∃ heap', open_segments k (write_segment_file <$> P) heap =
      Ok (write_segment_file <$> (tail <$> P), heap') ∧
    StronglySorted item_le heap' ∧
    (∀ it, it ∈ heap' ↔ it ∈ heap ∨ ∃ i p l, P !! i = Some (p :: l) ∧ it = heap_item p (k + i)) ∧
    heap' ++ items k (tail <$> P) ≡ₚ heap ++ items k P.
Proof.
  intros Hs HP. revert k heap Hs. induction HP as [|l P (Hsize & _ & Hok) HP IH]; intros k heap Hs.
  { exists heap. split_and!; [done|done| |done]. intros it. split; [by left|].
    intros [?|(i & ? & ? & Hi & _)]; done. }
  rewrite !fmap_cons. cbn [open_segments]. rewrite write_segment_length.
  rewrite (proj2 (Z.leb_le _ _)) by done. cbn [ensure mbind result_bind].
  destruct l as [|p l].
  - change (write_segment_file []) with (@nil Z). cbn [read_segment_pair mbind result_bind].
    destruct (IH (S k) heap Hs) as (heap' & -> & Hs' & Hin & Hperm). exists heap'. cbn [mbind result_bind].
    split_and!; [done|done| |by simpl].
    intros it. rewrite Hin. apply or_iff_compat_l. split.
    + intros (i & p & l & Hi & ->). exists (S i), p, l. by rewrite Nat.add_succ_r.
    + intros ([|i] & p & l & Hi & ->); [done|]. exists i, p, l. by rewrite Nat.add_succ_r.
  - change (write_segment_file (p :: l)) with (encode_pair p ++ write_segment_file l).
    inversion Hok; subst. rewrite read_encode_pair by done. cbn [mbind result_bind].
    destruct (IH (S k) _ (heap_push_sorted (heap_item p k) heap Hs)) as (heap' & -> & Hs' & Hin & Hperm).
    exists heap'. cbn [mbind result_bind]. split_and!; [done|done| |].
    + intros it. rewrite Hin. unfold heap_push. rewrite insert_by_perm, elem_of_cons. split.
      * intros [[->|?]|(i & q & l' & Hi & ->)]; [right|by left|right].
        { exists 0, p, l. by rewrite Nat.add_0_r. }
        exists (S i), q, l'. by rewrite Nat.add_succ_r.
      * intros [?|([|i] & q & l' & Hi & ->)]; simplify_eq/=; [by left; right|left; left; by rewrite Nat.add_0_r|right].
        exists i, q, l'. by rewrite Nat.add_succ_r.
    + cbn [items tail]. rewrite (Permutation_app_comm _ (items (S k) _)), (app_assoc heap'), Hperm.
      unfold heap_push. rewrite insert_by_perm. rewrite fmap_cons. cbn [app].
      rewrite <- app_assoc, (Permutation_app_comm (items (S k) P)). apply Permutation_middle.
Qed.

Definition flush (st : MergeState) : list PostingRow * list Z :=
  flush_posting_group (ms_rows st) (ms_postings st) (ms_current_hash st) (ms_current_docs st).

Definition initial_merge : MergeState := mkMergeState [] [] None [].

(** The merge of sorted segments never fails, and is the fold over the sorted
    list of all their records. *)
Lemma merge_segment_files_spec P :
  Forall segment_fits P →
  merge_segment_files (write_segment_file <$> P) =
    Some (Ok (flush (foldl merge_item initial_merge (sort_by heap_item_leb (items 0 P))))).
Proof.
  intros HP. unfold merge_segment_files.
  destruct (open_segments_spec 0 P [] ltac:(constructor) HP) as (heap & -> & Hs & Hin & Hperm).
  assert (Hlen : length (items 0 P) ≤ length (concat (write_segment_file <$> P))).
  { generalize 0. clear. induction P as [|l P IH]; intros k; [done|].
    rewrite fmap_cons, concat_cons. cbn [items]. rewrite !length_app, length_fmap, write_segment_length.
    specialize (IH (S k)). unfold SEGMENT_RECORD_BYTES. lia. }
  rewrite merge_loop_spec.
  - rewrite (sort_items_perm _ _ Hperm). done.
  - split; [done| | |].
    + intros i l. rewrite list_lookup_fmap. destruct (P !! i) as [l'|] eqn:Hi; [|done]. intros [= <-].
      apply (Forall_lookup_1 _ _ _ _ HP) in Hi as (_ & Hsl & Hok).
      destruct Hsl; [by split; [constructor|]|]. inversion Hok; subst. done.
    + intros i p l. rewrite list_lookup_fmap. destruct (P !! i) as [l'|] eqn:Hi; [|done]. intros [= Htl].
      destruct l' as [|p0 l']; [done|]. simpl in Htl. subst l'.
      exists (heap_item p0 i). rewrite Hin, hi_seg_heap_item, hi_pair_heap_item. split_and!; [|done|].
      * right. by exists i, p0, (p :: l).
      * apply (Forall_lookup_1 _ _ _ _ HP) in Hi as (_ & Hsl & _). inversion Hsl as [|? ? _ Hall]; subst.
        by inversion Hall.
    + intros it [?%elem_of_nil|(i & p & l & Hi & ->)]%Hin; [done|]. rewrite hi_seg_heap_item, length_fmap.
      by eapply lookup_lt_Some.
  - rewrite <- length_app, Hperm. cbn [app]. lia.
Qed.

(** ** What the fold builds

    [blocks] is the index as a list of posting lists in hash order; the rows
    and the bytes that the merge emits are its encoding. *)

Definition Block : Type := Z * list PostingEntry.

Definition block_pairs (b : Block) : list Pair := (λ e, (b.1, doc_id e, summary e)) <$> b.2.
Definition block_bytes (bs : list Block) : list Z := concat ((λ b : Block, encode_postings b.2) <$> bs).

Definition block_row (offset : Z) (b : Block) : PostingRow :=
  (b.1, offset, (Z.of_nat (length (encode_postings b.2)) mod (u32_max + 1))%Z,
   (Z.of_nat (length b.2) mod (u32_max + 1))%Z).

Fixpoint block_rows (offset : Z) (bs : list Block) : list PostingRow :=
  match bs with
  | [] => []
  | b :: bs => block_row offset b :: block_rows (offset + Z.of_nat (length (encode_postings b.2)))%Z bs
  end.

Lemma block_bytes_snoc bs b : block_bytes (bs ++ [b]) = block_bytes bs ++ encode_postings b.2.
Proof. unfold block_bytes. rewrite fmap_app, concat_app. cbn. by rewrite app_nil_r. Qed.

Lemma block_rows_snoc o bs b :
  block_rows o (bs ++ [b]) = block_rows o bs ++ [block_row (o + Z.of_nat (length (block_bytes bs)))%Z b].
Proof.
  revert o. induction bs as [|b0 bs IH]; intros o; [cbn; by rewrite Z.add_0_r|].
  cbn [app block_rows]. rewrite IH. unfold block_bytes. rewrite fmap_cons, concat_cons, length_app.
  do 2 f_equal. by rewrite Nat2Z.inj_add, Z.add_assoc.
Qed.

(** The key order: hash, then document. *)
Definition key_lt (a b : Pair) : Prop :=
  (pair_hash a < pair_hash b ∨ pair_hash a = pair_hash b ∧ pair_doc a < pair_doc b)%Z.

(** The merge's state after the pairs [P]. *)
Definition fold_inv (P : list Pair) (st : MergeState) : Prop :=
  match ms_current_hash st with
  | None => P = [] ∧ st = initial_merge
  | Some h => ∃ bs,
      ms_rows st = block_rows 0 bs ∧ ms_postings st = block_bytes bs ∧
      P = (bs ++ [(h, ms_current_docs st)]) ≫= block_pairs ∧
      StronglySorted Z.lt (bs ++ [(h, ms_current_docs st)]).*1 ∧
      Forall (λ b : Block, b.2 ≠ []) (bs ++ [(h, ms_current_docs st)])
  end.

Lemma StronglySorted_snoc {A} (R : relation A) l x :
  StronglySorted R (l ++ [x]) ↔ StronglySorted R l ∧ Forall (λ y, R y x) l.
Proof.
  split.
  - intros H. split; [by eapply StronglySorted_app_1_l|]. rewrite Forall_forall. intros y Hy.
    eapply StronglySorted_app_1_elem_of; [exact H|done|left].
  - intros [Hl Hx]. induction Hl as [|y l Hl IH Hy]; [repeat constructor|].
    inversion Hx; subst. cbn. constructor; [by apply IH|]. apply Forall_app. by repeat constructor.
Qed.

Lemma bind_single {A B} (f : A → list B) x : [x] ≫= f = f x.
Proof. cbn. apply app_nil_r. Qed.

Lemma block_pairs_snoc h docs id s :
  block_pairs (h, docs ++ [mkPostingEntry id s]) = block_pairs (h, docs) ++ [(h, id, s)].
Proof. unfold block_pairs. cbn [fst snd]. by rewrite fmap_app. Qed.

Lemma fold_inv_step P st p :
  fold_inv P st → StronglySorted key_lt (P ++ [p]) → fold_inv (P ++ [p]) (merge_item st (heap_item p 0)).
Proof.
  destruct p as [[h d] s]. cbn [heap_item]. intros Hinv [_ Hlt]%StronglySorted_snoc.
  unfold fold_inv in Hinv. destruct (ms_current_hash st) as [h0|] eqn:Eh0.
  2:{ destruct Hinv as [-> ->]. unfold fold_inv. cbn. exists []. cbn. split_and!; try done; repeat constructor; done. }
  destruct Hinv as (bs & Hrows & Hbytes & HP & Hs & Hne).
  assert (Hdocs : ms_current_docs st ≠ []).
  { rewrite Forall_app in Hne. destruct Hne as [_ Hne]. by inversion Hne. }
  destruct (last (ms_current_docs st)) as [e|] eqn:Elast; [|by apply last_None in Elast].
  assert (Hmem : (h0, doc_id e, summary e) ∈ P).
  { rewrite HP, bind_app, elem_of_app, bind_single. right. unfold block_pairs. cbn [fst snd].
    apply list_elem_of_fmap. exists e. split; [done|]. by apply last_Some_elem_of. }
  rewrite Forall_forall in Hlt. specialize (Hlt _ Hmem) as Hkey.
  unfold key_lt, pair_hash, pair_doc in Hkey. simpl in Hkey.
  unfold merge_item. cbn [hi_hash hi_doc_id hi_summary]. rewrite Eh0. case_decide as Eh; [injection Eh as <-|].
  - unfold fold_inv. cbn [ms_rows ms_postings ms_current_hash ms_current_docs]. rewrite Eh0. exists bs. unfold push_posting. rewrite Elast.
    rewrite (proj2 (Z.eqb_neq _ _)) by lia. split_and!; [done|done| | |].
    + by rewrite HP, !bind_app, !bind_single, block_pairs_snoc, app_assoc.
    + by rewrite fmap_app in Hs |- *.
    + rewrite !Forall_app in Hne |- *. split; [apply Hne|]. constructor; [|done]. by destruct (ms_current_docs st).
  - unfold fold_inv. cbn [ms_rows ms_postings ms_current_hash ms_current_docs]. exists (bs ++ [(h0, ms_current_docs st)]).
    unfold flush_posting_group. rewrite Hrows, Hbytes. destruct (ms_current_docs st) as [|e0 es] eqn:Edocs; [done|].
    assert (h0 < h)%Z as Hlth by (destruct (decide (h0 = h)); [congruence|lia]).
    cbn [fst snd]. split_and!.
    + rewrite block_rows_snoc. done.
    + by rewrite block_bytes_snoc.
    + by rewrite HP, !bind_app, !bind_single.
    + rewrite (fmap_app _ (bs ++ _)). apply StronglySorted_snoc. split; [done|].
      rewrite fmap_app in Hs |- *. apply StronglySorted_snoc in Hs as [_ Hs]. simpl in Hs.
      apply Forall_app. split; [|by repeat constructor].
      eapply Forall_impl; [exact Hs|]. simpl. intros. lia.
    + apply Forall_app. split; [done|repeat constructor; done].
Qed.

Lemma fold_inv_foldl P1 P st :
  fold_inv P1 st → StronglySorted key_lt (P1 ++ P) →
  fold_inv (P1 ++ P) (foldl (λ st p, merge_item st (heap_item p 0)) st P).
Proof.
  revert P1 st. induction P as [|p P IH]; intros P1 st Hinv Hs; [by rewrite app_nil_r|].
  rewrite cons_middle, app_assoc in Hs |- *. cbn [foldl].
  apply IH; [|done]. apply fold_inv_step; [done|]. by eapply StronglySorted_app_1_l.
Qed.

Lemma merge_item_pair st it : merge_item st it = merge_item st (heap_item (hi_pair it) 0).
Proof. by destruct it. Qed.

(** The rows and the posting bytes of a strictly sorted list of records are
    the encoding of its blocks. *)
Lemma fold_blocks S :
  StronglySorted key_lt (hi_pair <$> S) →
  ∃ bs, flush (foldl merge_item initial_merge S) = (block_rows 0 bs, block_bytes bs) ∧
    hi_pair <$> S = bs ≫= block_pairs ∧
    StronglySorted Z.lt bs.*1 ∧ Forall (λ b : Block, b.2 ≠ []) bs.
Proof.
  intros Hs. pose proof (fold_inv_foldl [] (hi_pair <$> S) initial_merge) as Hinv.
  rewrite foldl_fmap in Hinv.
  assert (Heq : foldl (λ st p, merge_item st (heap_item (hi_pair p) 0)) initial_merge S = foldl merge_item initial_merge S).
  { clear Hs Hinv. generalize initial_merge. induction S as [|it S IH]; intros st; [done|]. cbn [foldl].
    rewrite <- merge_item_pair. by apply IH. }
  rewrite Heq in Hinv. specialize (Hinv ltac:(done) Hs). cbn [app] in Hinv.
  set (st := foldl merge_item initial_merge S) in *. unfold fold_inv in Hinv. unfold flush.
  destruct (ms_current_hash st) as [h|] eqn:Eh.
  - destruct Hinv as (bs & -> & -> & HP & Hss & Hne). exists (bs ++ [(h, ms_current_docs st)]).
    split_and!; [|done|done|done]. apply Forall_app in Hne as [_ Hne]. inversion Hne; subst. simpl in *.
    destruct (ms_current_docs st) as [|e es]; [done|]. cbn [flush_posting_group].
    by rewrite block_rows_snoc, block_bytes_snoc.
  - destruct Hinv as [-> ->]. exists []. split_and!; [done|done|constructor|constructor].
Qed.

(** ** A layer that encodes blocks *)

Record blocks_ok (doc_count : nat) (bs : list Block) : Prop := {
  bo_sorted : StronglySorted Z.lt bs.*1;
  bo_hash : Forall (λ b : Block, fits u64_max b.1) bs;
  bo_block : Forall (λ b : Block, b.2 ≠ [] ∧ block_ok b.2 ∧ Forall (λ e, (0 <= doc_id e < Z.of_nat doc_count)%Z) b.2) bs;
  bo_size : (24 * Z.of_nat (length (bs ≫= block_pairs)) <= MAX_REGEX_MMAP_BYTES)%Z
}.

Lemma blocks_pairs_le b bs : b ∈ bs → length b.2 ≤ length (bs ≫= block_pairs).
Proof.
  intros (b1 & b2 & ->)%list_elem_of_split. rewrite bind_app, bind_cons, !length_app.
  unfold block_pairs at 2. rewrite length_fmap. lia.
Qed.

Lemma block_bytes_length bs :
  Forall (λ b : Block, b.2 ≠ []) bs → length (block_bytes bs) ≤ 11 * length (bs ≫= block_pairs).
Proof.
  unfold block_bytes. induction 1 as [|b bs Hb _ IH]; [done|].
  rewrite fmap_cons, concat_cons, bind_cons, !length_app. unfold block_pairs at 1. rewrite length_fmap.
  pose proof (encode_postings_length b.2). destruct b.2; [done|]. simpl in *. lia.
Qed.

Lemma block_rows_hashes o bs : row_hash <$> block_rows o bs = bs.*1.
Proof. revert o. induction bs as [|b bs IH]; intros o; [done|]. cbn [block_rows]. by rewrite !fmap_cons, IH. Qed.

Section Blocks.
Context (n : nat) (bs : list Block) (Hbs : blocks_ok n bs).
Local Open Scope Z_scope.

Lemma block_row_exact o b :
  b ∈ bs → block_row o b = (b.1, o, Z.of_nat (length (encode_postings b.2)), Z.of_nat (length b.2)).
Proof using Hbs.
  intros Hb. pose proof (blocks_pairs_le _ _ Hb). pose proof (bo_size _ _ Hbs).
  pose proof (encode_postings_length b.2). unfold block_row, MAX_REGEX_MMAP_BYTES, u32_max in *.
  by rewrite !Z.mod_small by lia.
Qed.

Lemma block_bytes_size : Z.of_nat (length (block_bytes bs)) <= MAX_REGEX_MMAP_BYTES.
Proof using Hbs.
  pose proof (bo_size _ _ Hbs). assert (length (block_bytes bs) ≤ 11 * length (bs ≫= block_pairs))%nat; [|lia].
  apply block_bytes_length. eapply Forall_impl; [apply (bo_block _ _ Hbs)|]. naive_solver.
Qed.

(** The blocks before and after one of them, and where its bytes lie. *)
Lemma block_slice bs1 b bs2 :
  bs = bs1 ++ b :: bs2 →
  let o := length (block_bytes bs1) in
  block_rows 0 bs = block_rows 0 bs1 ++ block_row (Z.of_nat o) b :: block_rows (Z.of_nat (o + length (encode_postings b.2))) bs2 ∧
  slice o (o + length (encode_postings b.2)) (block_bytes bs) = encode_postings b.2 ∧
  (o + length (encode_postings b.2) ≤ length (block_bytes bs))%nat.
Proof using Type.
  intros Heq o.
  assert (Hrows : ∀ o' bs1, block_rows o' (bs1 ++ b :: bs2) = block_rows o' bs1 ++
      block_row (o' + Z.of_nat (length (block_bytes bs1))) b ::
      block_rows (o' + Z.of_nat (length (block_bytes bs1) + length (encode_postings b.2))) bs2).
  { clear. intros o' bs1. revert o'. induction bs1 as [|b0 bs1 IH]; intros o'; [by cbn; rewrite Z.add_0_r|].
    cbn [app block_rows]. rewrite IH. unfold block_bytes. rewrite fmap_cons, concat_cons, length_app.
    f_equal. f_equal. f_equal; f_equal; lia. }
  assert (Hbytes : block_bytes bs = block_bytes bs1 ++ encode_postings b.2 ++ block_bytes bs2).
  { rewrite Heq. unfold block_bytes. by rewrite fmap_app, concat_app, fmap_cons, concat_cons. }
  split_and!.
  - rewrite Heq, Hrows. by rewrite !Z.add_0_l.
  - rewrite Hbytes. unfold slice, o. rewrite drop_app_length.
    replace (length (block_bytes bs1) + _ - _)%nat with (length (encode_postings b.2)) by lia. apply take_app_length.
  - rewrite Hbytes, !length_app. lia.
Qed.

Lemma elem_of_block_rows row :
  row ∈ block_rows 0 bs →
  ∃ bs1 b bs2, bs = bs1 ++ b :: bs2 ∧ row = block_row (Z.of_nat (length (block_bytes bs1))) b.
Proof using Type.
  assert (∀ o bs0, row ∈ block_rows o bs0 →
    ∃ bs1 b bs2, bs0 = bs1 ++ b :: bs2 ∧ row = block_row (o + Z.of_nat (length (block_bytes bs1))) b) as Hgen.
  { clear. intros o bs0. revert o. induction bs0 as [|b0 bs0 IH]; intros o; [by intros ?%elem_of_nil|].
    cbn [block_rows]. intros [->|(bs1 & b & bs2 & -> & ->)%IH]%elem_of_cons.
    - exists [], b0, bs0. split; [done|]. cbn. by rewrite Z.add_0_r.
    - exists (b0 :: bs1), b, bs2. split; [done|]. unfold block_bytes. rewrite fmap_cons, concat_cons, length_app.
      f_equal. lia. }
  intros Hrow. apply Hgen in Hrow as (bs1 & b & bs2 & ? & Hr). exists bs1, b, bs2. by rewrite Z.add_0_l in Hr.
Qed.

Lemma block_rows_ok : Forall row_ok (block_rows 0 bs).
Proof using Hbs.
  rewrite Forall_forall. intros row (bs1 & b & bs2 & Heq & ->)%elem_of_block_rows.
  assert (Hin : b ∈ bs) by (rewrite Heq; set_solver).
  destruct (block_slice bs1 b bs2 Heq) as (_ & _ & Hle). pose proof block_bytes_size as Hsize.
  pose proof (bo_hash _ _ Hbs) as Hh. rewrite Forall_forall in Hh. specialize (Hh _ Hin).
  pose proof (blocks_pairs_le _ _ Hin). pose proof (bo_size _ _ Hbs). pose proof (encode_postings_length b.2).
  rewrite block_row_exact by done. unfold row_ok, fits, MAX_REGEX_MMAP_BYTES, u64_max, u32_max in *. lia.
Qed.

(** What the code reads for a row: the bounds pass and the block decodes. *)
Lemma block_read bs1 b bs2 :
  bs = bs1 ++ b :: bs2 →
  let o := Z.of_nat (length (block_bytes bs1)) in
  let len := Z.of_nat (length (encode_postings b.2)) in
  checked_posting_bounds o len (Z.of_nat (length (block_bytes bs))) = Ok (o, o + len) ∧
  decode_postings (slice (Z.to_nat o) (Z.to_nat (o + len)) (block_bytes bs)) = Ok b.2.
Proof using Hbs.
  intros Heq o len. destruct (block_slice bs1 b bs2 Heq) as (_ & Hslice & Hle). pose proof block_bytes_size.
  assert (Hin : b ∈ bs) by (rewrite Heq; set_solver).
  pose proof (bo_block _ _ Hbs) as Hb. rewrite Forall_forall in Hb. destruct (Hb _ Hin) as (_ & Hok & _).
  split.
  - unfold checked_posting_bounds, o, len. rewrite checked_add_ok by (unfold MAX_REGEX_MMAP_BYTES, u64_max in *; lia).
    cbn [ok_or mbind result_bind]. rewrite (proj2 (Z.leb_le _ _)) by lia. done.
  - unfold o, len. replace (Z.to_nat _) with (length (block_bytes bs1)) by lia.
    replace (Z.to_nat _) with (length (block_bytes bs1) + length (encode_postings b.2))%nat by lia.
    rewrite Hslice. by apply decode_encode_block.
Qed.

(** The lookup of a hash in a layer over the encoded blocks. *)
Lemma block_lookup layer hash :
  ly_lookup layer = mmap_retained (encode_lookup (block_rows 0 bs)) →
  ly_postings layer = mmap_retained (block_bytes bs) →
  (∃ b, b ∈ bs ∧ b.1 = hash ∧ (∀ read, fst (lookup_doc_ids layer hash read) = Ok (Some b.2)) ∧
    lookup_posting_count layer hash = Some (Z.of_nat (length b.2))) ∨
  ((hash ∉ bs.*1) ∧ (∀ read, fst (lookup_doc_ids layer hash read) = Ok None) ∧ lookup_posting_count layer hash = None).
Proof using Hbs.
  intros Hl Hp. unfold lookup_doc_ids, lookup_posting_count. rewrite Hl, Hp.
  assert (bs = [] ∨ ∃ b bs', bs = [] ++ b :: bs') as [->|(b0 & bs0 & Hne)]
    by (destruct bs as [|b0 bs0]; [by left|right; by exists b0, bs0]).
  { right. split_and!; [apply not_elem_of_nil|done|done]. }
  destruct (encode_lookup (block_rows 0 bs)) as [|z zs] eqn:El.
  { apply (f_equal length) in El. rewrite encode_lookup_length in El. exfalso.
    rewrite Hne in El. unfold LOOKUP_ROW_BYTES in El. simpl in El. lia. }
  destruct (block_bytes bs) as [|z' zs'] eqn:Ep.
  { exfalso. destruct (block_slice [] b0 bs0 Hne) as (_ & _ & Hle).
    rewrite Ep in Hle. pose proof (encode_postings_length b0.2). simpl in Hle. lia. }
  cbn [mmap_retained mbind option_bind]. rewrite <- El, <- Ep.
  destruct (lookup_posting_range_rows (block_rows 0 bs) hash) as [(row & Hrow & Hh & ->)|[Hnot ->]].
  - rewrite block_rows_hashes. apply Hbs.
  - apply block_rows_ok.
  - left. apply elem_of_block_rows in Hrow as (bs1 & b & bs2 & Heq & ->).
    assert (Hin : b ∈ bs) by (rewrite Heq; set_solver). exists b. rewrite block_row_exact in Hh |- * by done.
    cbn [row_meta lp_offset lp_len lp_doc_count fmap option_fmap option_map].
    destruct (block_read bs1 b bs2 Heq) as [-> ->]. done.
  - right. by rewrite block_rows_hashes in Hnot.
Qed.
End Blocks.

(** ** Validation accepts the encoded blocks *)

Lemma check_docs_ok k seen docs :
  (∀ i d, docs !! i = Some d → dr_doc_id d = Z.of_nat (k + i)) →
  NoDup (dr_path <$> docs) → (∀ d, d ∈ docs → dr_path d ∉ seen) →
  check_docs k seen docs = Ok ().
Proof.
  revert k seen. induction docs as [|d docs IH]; intros k seen Hid Hnd Hseen; [done|].
  cbn [check_docs]. rewrite fmap_cons in Hnd. apply NoDup_cons in Hnd as [Hd Hnd].
  rewrite (Hid 0%nat d) by done. rewrite Nat.add_0_r, Z.eqb_refl. cbn [ensure mbind result_bind].
  rewrite bool_decide_true by (apply Hseen; left). cbn [ensure mbind result_bind].
  apply IH; [|done|].
  - intros i d' Hi. rewrite (Hid (S i) d') by done. f_equal. lia.
  - intros d' Hd'. rewrite elem_of_union, elem_of_singleton. intros [Heq|Hin].
    + apply Hd. rewrite <- Heq. by apply list_elem_of_fmap_2.
    + eapply Hseen; [|exact Hin]. by right.
Qed.

Lemma chunks_lookup rows : chunks LOOKUP_ROW_BYTES (encode_lookup rows) = encode_row <$> rows.
Proof.
  induction rows as [|row rows IH]; [done|]. unfold encode_lookup in *.
  rewrite !fmap_cons, concat_cons, chunks_app, IH; [done|unfold LOOKUP_ROW_BYTES; lia|apply encode_row_length].
Qed.

Section Validate.
Context (n : nat) (bs : list Block) (Hbs : blocks_ok n bs).
Local Open Scope Z_scope.

Lemma read_row row :
  row_ok row →
  read_fixed_width 8 (encode_row row) 0 = Ok (to_le_bytes 8 (row_hash row)) ∧
  read_fixed_width 8 (encode_row row) 8 = Ok (to_le_bytes 8 (lp_offset (row_meta row))) ∧
  read_fixed_width 4 (encode_row row) 16 = Ok (to_le_bytes 4 (lp_len (row_meta row))) ∧
  read_fixed_width 4 (encode_row row) 20 = Ok (to_le_bytes 4 (lp_doc_count (row_meta row))).
Proof using Type.
  destruct row as [[[h o] l] d]. intros _. unfold read_fixed_width. rewrite encode_row_length.
  cbn [row_hash row_meta lp_offset lp_len lp_doc_count].
  split_and!; f_equal; unfold encode_row; cbn [Nat.add].
Qed.

Lemma check_rows_ok bs1 bs2 previous :
  bs = bs1 ++ bs2 →
  (∀ p, previous = Some p → Forall (λ b : Block, p < b.1) bs2) →
  check_rows n (block_bytes bs) (encode_row <$> block_rows (Z.of_nat (length (block_bytes bs1))) bs2) previous
    (Z.of_nat (length (block_bytes bs1))) = Ok (Z.of_nat (length (block_bytes bs))).
Proof using Hbs.
  revert bs1 previous. induction bs2 as [|b bs2 IH]; intros bs1 previous Heq Hprev.
  { rewrite app_nil_r in Heq. by rewrite <- Heq. }
  assert (Hin : b ∈ bs) by (rewrite Heq; set_solver).
  destruct (block_slice bs bs1 b bs2 Heq) as (Hrows & _ & Hle).
  cbn [block_rows]. rewrite fmap_cons. cbn [check_rows].
  set (o := Z.of_nat (length (block_bytes bs1))) in *. set (len := Z.of_nat (length (encode_postings b.2))) in *.
  assert (Hrow : row_ok (block_row o b)).
  { pose proof (block_rows_ok n bs Hbs) as Hall. rewrite Forall_forall in Hall. apply Hall. rewrite Hrows. set_solver. }
  assert (Hcheck : check_row n (block_bytes bs) (encode_row (block_row o b)) previous o = Ok (b.1, o + len)).
  { pose proof (bo_block _ _ Hbs) as Hb. rewrite Forall_forall in Hb. destruct (Hb _ Hin) as (Hne & Hok & Hids).
    unfold check_row. destruct (read_row _ Hrow) as (-> & -> & -> & ->). cbn [mbind result_bind].
    rewrite (block_row_exact n bs Hbs o b Hin) in Hrow |- *. destruct Hrow as (Hh & Ho & Hl & Hc).
    cbn [row_hash row_meta lp_offset lp_len lp_doc_count] in *. fold len in Hl |- *.
    rewrite !from_to_le_bytes by (unfold fits, u32_max, u64_max in *; simpl; lia).
    assert ((match previous with Some p => p <? b.1 | None => true end) = true) as ->.
    { destruct previous as [p|]; [|done]. specialize (Hprev p eq_refl). inversion Hprev; subst. by apply Z.ltb_lt. }
    pose proof (encode_postings_length b.2).
    rewrite (proj2 (Z.ltb_lt 0 len)) by lia.
    rewrite (proj2 (Z.ltb_lt 0 (Z.of_nat (length b.2)))) by (destruct b.2; [done|simpl; lia]).
    cbn [andb ensure mbind result_bind].
    destruct (block_read n bs Hbs bs1 b bs2 Heq) as [Hbounds Hdec]. fold o len in Hbounds, Hdec.
    rewrite Hbounds. cbn [mbind result_bind]. rewrite Z.eqb_refl. cbn [ensure mbind result_bind].
    rewrite Hdec. cbn [mbind result_bind]. rewrite Z.eqb_refl. cbn [ensure mbind result_bind].
    assert (forallb (λ entry, doc_id entry <? Z.of_nat n) b.2 = true) as ->; [|done].
    apply forallb_forall. intros e He%list_elem_of_In. rewrite Forall_forall in Hids.
    apply Z.ltb_lt, Hids, He. }
  rewrite Hcheck. cbn [mbind result_bind].
  specialize (IH (bs1 ++ [b]) (Some b.1)). rewrite block_bytes_snoc, length_app, Nat2Z.inj_add in IH. fold o len in IH.
  apply IH; [by rewrite <- app_assoc|]. intros p [= <-].
  pose proof (bo_sorted _ _ Hbs) as Hs. rewrite Heq, fmap_app in Hs. apply StronglySorted_app_1_r in Hs.
  rewrite fmap_cons in Hs. inversion Hs as [|? ? _ Hall]; subst. by rewrite Forall_fmap in Hall.
Qed.

Lemma blocks_fit :
  Z.of_nat (length (encode_lookup (block_rows 0 bs))) <= MAX_REGEX_MMAP_BYTES ∧ Z.of_nat (length (block_bytes bs)) <= MAX_REGEX_MMAP_BYTES.
Proof using Hbs.
  assert (Hlen : length (block_rows 0 bs) = length bs) by (by rewrite <- (length_fmap row_hash), block_rows_hashes, length_fmap).
  assert (Hle : (length bs ≤ length (bs ≫= block_pairs))%nat).
  { clear Hlen. pose proof (bo_block _ _ Hbs) as Hb. clear -Hb. induction Hb as [|b bs (Hne & _) _ IH]; [done|].
    rewrite bind_cons, length_app. unfold block_pairs at 1. rewrite length_fmap. destruct b.2; [done|]. simpl. lia. }
  pose proof (bo_size _ _ Hbs). split; [|apply (block_bytes_size n bs Hbs)].
  rewrite encode_lookup_length. unfold LOOKUP_ROW_BYTES. lia.
Qed.

Lemma valid_blocks docs :
  (∀ i d, docs !! i = Some d → dr_doc_id d = Z.of_nat i) → NoDup (dr_path <$> docs) → length docs = n →
  validate_layer_files docs (encode_lookup (block_rows 0 bs)) (block_bytes bs) = Ok ().
Proof using Hbs.
  intros Hid Hnd Hn.
  unfold validate_layer_files. rewrite check_docs_ok; [|done|done|set_solver]. cbn [mbind result_bind].
  rewrite encode_lookup_length, Nat.Div0.mod_mul. cbn [Nat.eqb ensure mbind result_bind].
  rewrite chunks_lookup, Hn. pose proof (check_rows_ok [] bs None eq_refl ltac:(done)) as Hrows.
  change (Z.of_nat (length (block_bytes []))) with 0 in Hrows. rewrite Hrows. cbn [mbind result_bind].
  by rewrite Z.eqb_refl.
Qed.
End Validate.

(** ** From documents to blocks *)

Definition doc_pairs (d : IndexedDocument) : list Pair :=
  (λ g, (ig_hash g, id_doc_id d, ig_summary g)) <$> id_grams d.

(** What a lookup of the hash must answer: an entry for every document with a
    gram of that hash, in document order. *)
Definition posting_list (docs : list IndexedDocument) (hash : Z) : list PostingEntry :=
  d ← docs; g ← filter (λ g, ig_hash g = hash) (id_grams d); [mkPostingEntry (id_doc_id d) (ig_summary g)].

(** The documents of a build: numbered from 0, with distinct paths; each
    document's grams have distinct hashes (as [build_indexed_grams] leaves
    them); and the layer's files fit the size the loader accepts. *)
Record docs_ok (docs : list IndexedDocument) : Prop := {
  do_ids : ∀ i d, docs !! i = Some d → id_doc_id d = Z.of_nat i;
  do_count : (Z.of_nat (length docs) <= u32_max)%Z;
  do_paths : NoDup (id_path <$> docs);
  do_grams : Forall (λ d, NoDup (ig_hash <$> id_grams d) ∧
    Forall (λ g, fits u64_max (ig_hash g) ∧ byte (buckets (ig_summary g))) (id_grams d)) docs;
  do_size : (24 * Z.of_nat (length (docs ≫= doc_pairs)) <= MAX_REGEX_MMAP_BYTES)%Z
}.

Definition pair_key (p : Pair) : Z * Z := (pair_hash p, pair_doc p).

(** The entries of a hash among some records. *)
Definition pick (hash : Z) (P : list Pair) : list PostingEntry :=
  omap (λ p, if decide (pair_hash p = hash) then Some (mkPostingEntry (pair_doc p) p.2) else None) P.

Lemma pick_cons h p P :
  pick h (p :: P) = if decide (pair_hash p = h) then mkPostingEntry (pair_doc p) p.2 :: pick h P else pick h P.
Proof. unfold pick. cbn [omap list_omap]. by case_decide. Qed.

Lemma pick_app h P Q : pick h (P ++ Q) = pick h P ++ pick h Q.
Proof. apply omap_app. Qed.

Lemma pick_perm h P Q : P ≡ₚ Q → pick h P ≡ₚ pick h Q.
Proof. intros HPQ. unfold pick. by rewrite HPQ. Qed.

Lemma pick_doc_pairs h docs : pick h (docs ≫= doc_pairs) = posting_list docs h.
Proof.
  induction docs as [|d docs IH]; [done|]. unfold posting_list in *. rewrite !bind_cons, pick_app, IH. f_equal.
  unfold doc_pairs. induction (id_grams d) as [|g gs IHg]; [done|].
  rewrite fmap_cons, filter_cons, pick_cons, IHg. change (pair_hash _) with (ig_hash g).
  by destruct (decide (ig_hash g = h)).
Qed.

Lemma pick_block_in h es : pick h (block_pairs (h, es)) = es.
Proof.
  unfold block_pairs. cbn [fst snd]. induction es as [|[d s] es IH]; [done|].
  by rewrite fmap_cons, pick_cons, IH, decide_True.
Qed.

Lemma pick_block_out h b : b.1 ≠ h → pick h (block_pairs b) = [].
Proof.
  intros Hne. unfold block_pairs. induction b.2 as [|e es IH]; [done|].
  by rewrite fmap_cons, pick_cons, IH, decide_False.
Qed.

Lemma pick_blocks_out h bs : h ∉ bs.*1 → pick h (bs ≫= block_pairs) = [].
Proof.
  induction bs as [|b bs IH]; [done|]. rewrite fmap_cons, not_elem_of_cons. intros [Hne Hin].
  rewrite bind_cons, pick_app, pick_block_out, IH; done.
Qed.

Lemma pick_blocks_in b bs : StronglySorted Z.lt bs.*1 → b ∈ bs → pick b.1 (bs ≫= block_pairs) = b.2.
Proof.
  intros Hs (bs1 & bs2 & ->)%list_elem_of_split. rewrite fmap_app, fmap_cons in Hs.
  assert (Hout : ∀ bs', (∀ h, h ∈ bs'.*1 → h ≠ b.1) → pick b.1 (bs' ≫= block_pairs) = []).
  { intros bs' Hne. apply pick_blocks_out. intros Hin. by apply (Hne _ Hin). }
  rewrite bind_app, bind_cons, !pick_app, (Hout bs1), (Hout bs2); [| |].
  - rewrite app_nil_r. destruct b as [h es]. apply pick_block_in.
  - apply StronglySorted_app_1_r in Hs. inversion Hs as [|? ? _ Hall]; subst. rewrite Forall_forall in Hall.
    intros h Hh. specialize (Hall _ Hh). lia.
  - intros h Hh. pose proof (StronglySorted_app_1_elem_of _ _ _ h b.1 Hs Hh ltac:(left)). lia.
Qed.

(** *** The records of the documents *)

Lemma elem_of_doc_pairs docs p :
  p ∈ (docs ≫= doc_pairs) ↔ ∃ d g, d ∈ docs ∧ g ∈ id_grams d ∧ p = (ig_hash g, id_doc_id d, ig_summary g).
Proof.
  rewrite list_elem_of_bind. unfold doc_pairs. setoid_rewrite list_elem_of_fmap. naive_solver.
Qed.

Lemma doc_pairs_keys docs :
  docs_ok docs → NoDup (pair_key <$> (docs ≫= doc_pairs)).
Proof.
  intros [Hids _ _ Hgrams _].
  assert (∀ k, (∀ i d, docs !! i = Some d → id_doc_id d = Z.of_nat (k + i)) → NoDup (pair_key <$> (docs ≫= doc_pairs))) as Hgen;
    [|by apply (Hgen 0)]. clear Hids.
  induction Hgrams as [|d docs [Hd _] _ IH]; intros k Hids; [constructor|].
  rewrite bind_cons, fmap_app. apply NoDup_app. split_and!.
  - unfold doc_pairs. rewrite <- list_fmap_compose. eapply NoDup_fmap_1 with (f := fst).
    rewrite <- list_fmap_compose. exact Hd.
  - intros key (p & -> & (g & -> & _)%list_elem_of_fmap)%list_elem_of_fmap (q & Hq & Hin)%list_elem_of_fmap.
    apply elem_of_doc_pairs in Hin as (d' & g' & (i & Hi)%list_elem_of_lookup & _ & ->).
    injection Hq as _ Heq. unfold pair_doc in Heq. simpl in Heq.
    rewrite (Hids 0 d eq_refl), (Hids (S i) d' Hi) in Heq. lia.
  - apply (IH (S k)). intros i d' Hi. rewrite (Hids (S i) d' Hi). f_equal. lia.
Qed.

Lemma doc_pairs_ok docs : docs_ok docs → Forall pair_ok (docs ≫= doc_pairs).
Proof.
  intros Hdocs. rewrite Forall_forall. intros p (d & g & Hd & Hg & ->)%elem_of_doc_pairs.
  pose proof (do_grams _ Hdocs) as Hall. rewrite Forall_forall in Hall. destruct (Hall d Hd) as [_ Hgs].
  rewrite Forall_forall in Hgs. destruct (Hgs g Hg) as [Hh Hb].
  apply list_elem_of_lookup in Hd as [i Hi]. pose proof (do_ids _ Hdocs i d Hi). pose proof (do_count _ Hdocs).
  apply lookup_lt_Some in Hi. unfold pair_ok, pair_hash, pair_doc, fits in *. simpl. split_and!; (done || lia).
Qed.

(** Sorted records with distinct keys are strictly sorted by key. *)
Lemma sorted_keys P : StronglySorted pair_le P → NoDup (pair_key <$> P) → StronglySorted key_lt P.
Proof.
  induction 1 as [|p P Hs IH Hp]; intros Hnd; [constructor|]. rewrite fmap_cons in Hnd.
  apply NoDup_cons in Hnd as [Hnot Hnd]. constructor; [by apply IH|].
  rewrite Forall_forall in Hp |- *. intros q Hq. specialize (Hp q Hq). apply pair_leb_spec in Hp.
  assert (pair_key q ≠ pair_key p). { intros Heq. apply Hnot. rewrite <- Heq. by apply list_elem_of_fmap_2. }
  unfold pair_key, key_lt in *. destruct (decide (pair_hash p = pair_hash q)) as [E|], (decide (pair_doc p = pair_doc q)) as [E'|];
    [rewrite E, E' in *; done|lia..].
Qed.

Lemma segment_pairs_perm batch :
  NoDup (pair_key <$> (batch ≫= doc_pairs)) → segment_pairs batch = sort_by pair_leb (batch ≫= doc_pairs).
Proof.
  intros Hnd. unfold segment_pairs. apply dedup_NoDup. rewrite sort_by_perm. by eapply NoDup_fmap_1.
Qed.

Lemma fmap_hi_pair_items k R : hi_pair <$> items k R = concat R.
Proof.
  revert k. induction R as [|l R IH]; intros k; [done|]. cbn [items concat]. rewrite fmap_app, IH. f_equal.
  rewrite <- list_fmap_compose. rewrite <- (list_fmap_id l) at 2. apply list_fmap_ext. intros i p _. apply hi_pair_heap_item.
Qed.

Definition segments (docs : list IndexedDocument) : list (list Pair) :=
  (λ batch, sort_by pair_leb (batch ≫= doc_pairs)) <$> chunks SEGMENT_DOC_BATCH_SIZE docs.

Lemma concat_segments docs : concat (segments docs) ≡ₚ docs ≫= doc_pairs.
Proof.
  unfold segments. rewrite <- (concat_chunks SEGMENT_DOC_BATCH_SIZE docs) at 2 by (unfold SEGMENT_DOC_BATCH_SIZE; lia).
  induction (chunks SEGMENT_DOC_BATCH_SIZE docs) as [|b l IH]; [done|].
  rewrite fmap_cons, !concat_cons, bind_app, IH, sort_by_perm. done.
Qed.

Lemma StronglySorted_and {A} (R S : relation A) l :
  StronglySorted R l → StronglySorted S l → StronglySorted (λ x y, R x y ∧ S x y) l.
Proof.
  induction 1 as [|x l Hl IH Hx]; inversion 1 as [|? ? HSl HSx]; subst; constructor; [by apply IH|].
  rewrite Forall_forall in Hx, HSx |- *. auto.
Qed.

Lemma NoDup_StronglySorted {A B} (f : A → B) l : NoDup (f <$> l) → StronglySorted (λ x y, f x ≠ f y) l.
Proof.
  induction l as [|x l IH]; [constructor|]. rewrite fmap_cons. intros [Hx Hl]%NoDup_cons.
  constructor; [by apply IH|]. rewrite Forall_forall. intros y Hy Heq. apply Hx. rewrite Heq. by apply list_elem_of_fmap_2.
Qed.

Definition entry_lt (a b : PostingEntry) : Prop := (doc_id a < doc_id b)%Z.

#[export] Instance entry_lt_antisym : AntiSymm eq entry_lt.
Proof. intros a b H1 H2. unfold entry_lt in *. lia. Qed.

Lemma elem_of_pick h P e : e ∈ pick h P ↔ ∃ p, p ∈ P ∧ pair_hash p = h ∧ e = mkPostingEntry (pair_doc p) p.2.
Proof. unfold pick. rewrite list_elem_of_omap. split; intros (p & Hp & H); exists p; case_decide; naive_solver. Qed.

Lemma pick_sorted (R : relation Pair) h P :
  (∀ p q, pair_hash p = h → pair_hash q = h → R p q → (pair_doc p < pair_doc q)%Z) →
  StronglySorted R P → StronglySorted entry_lt (pick h P).
Proof.
  intros HR. induction 1 as [|p P Hs IH Hp]; [constructor|]. rewrite pick_cons.
  rewrite Forall_forall in Hp. case_decide as Hh; [|done]. constructor; [done|]. apply Forall_forall.
  intros e (q & Hq & Hqh & ->)%elem_of_pick. unfold entry_lt. simpl. auto.
Qed.

Lemma doc_pairs_sorted docs :
  docs_ok docs → StronglySorted (λ p q, pair_doc p <= pair_doc q)%Z (docs ≫= doc_pairs).
Proof.
  intros [Hids _ _ _ _].
  assert (∀ k, (∀ i d, docs !! i = Some d → id_doc_id d = Z.of_nat (k + i)) →
    StronglySorted (λ p q, pair_doc p <= pair_doc q)%Z (docs ≫= doc_pairs)) as Hgen; [|by apply (Hgen 0)]. clear Hids.
  induction docs as [|d docs IH]; intros k Hids; [constructor|]. rewrite bind_cons.
  assert (Htail : ∀ i d', docs !! i = Some d' → id_doc_id d' = Z.of_nat (S k + i)).
  { intros i d' Hi. rewrite (Hids (S i) d' Hi). f_equal. lia. }
  pose proof (Hids 0 d eq_refl) as Hd. specialize (IH (S k) Htail). unfold doc_pairs at 1.
  induction (id_grams d) as [|g gs IHg]; [done|]. rewrite fmap_cons, <- app_comm_cons. constructor; [done|].
  rewrite Forall_app. split; rewrite Forall_forall; intros q Hq.
  - apply list_elem_of_fmap in Hq as (g' & -> & _). unfold pair_doc. simpl. lia.
  - apply elem_of_doc_pairs in Hq as (d' & g' & (i & Hi)%list_elem_of_lookup & _ & ->).
    unfold pair_doc. simpl. rewrite Hd, (Htail i d' Hi). lia.
Qed.

Lemma posting_list_sorted docs h : docs_ok docs → StronglySorted entry_lt (posting_list docs h).
Proof.
  intros Hdocs. rewrite <- pick_doc_pairs.
  eapply pick_sorted; [|apply StronglySorted_and; [by apply doc_pairs_sorted|by apply (NoDup_StronglySorted pair_key), doc_pairs_keys]].
  simpl. intros p q Hp Hq [Hle Hne]. unfold pair_key in Hne. rewrite Hp, Hq in Hne.
  destruct (decide (pair_doc p = pair_doc q)) as [E|]; [by rewrite E in Hne|lia].
Qed.

Lemma batch_parts (docs batch : list IndexedDocument) :
  batch ∈ chunks SEGMENT_DOC_BATCH_SIZE docs → ∃ pre post, docs = pre ++ batch ++ post.
Proof.
  intros (l1 & l2 & Heq)%list_elem_of_split. exists (concat l1), (concat l2).
  rewrite <- (concat_chunks SEGMENT_DOC_BATCH_SIZE docs) by (unfold SEGMENT_DOC_BATCH_SIZE; lia).
  by rewrite Heq, concat_app, concat_cons.
Qed.

Lemma write_segments docs :
  docs_ok docs →
  write_segment_files docs = write_segment_file <$> segments docs ∧ Forall segment_fits (segments docs).
Proof.
  intros Hdocs. pose proof (doc_pairs_keys docs Hdocs) as Hnd. split.
  - unfold write_segment_files, segments. rewrite <- list_fmap_compose. apply list_fmap_ext. intros i batch Hi.
    simpl. f_equal. apply segment_pairs_perm. apply list_elem_of_lookup_2, batch_parts in Hi as (pre & post & Heq).
    rewrite Heq, !bind_app, !fmap_app in Hnd. apply NoDup_app in Hnd as (_ & _ & Hnd). by apply NoDup_app in Hnd as (Hnd & _).
  - unfold segments. rewrite Forall_fmap, Forall_forall. intros batch (pre & post & Heq)%batch_parts. simpl.
    pose proof (doc_pairs_ok docs Hdocs) as Hok. pose proof (do_size _ Hdocs) as Hsize.
    rewrite Heq, !bind_app in Hok, Hsize. rewrite !length_app in Hsize.
    rewrite !Forall_app in Hok. destruct Hok as (_ & Hok & _). split_and!.
    + simpl. rewrite length_sort_by. unfold SEGMENT_RECORD_BYTES. lia.
    + apply sort_by_sorted; eauto with p28.
    + simpl. by rewrite sort_by_perm.
Qed.

(** The merge of the segments of some documents encodes their posting lists. *)
Lemma merge_documents docs :
  docs_ok docs →
  ∃ bs, merge_segment_files (write_segment_files docs) = Some (Ok (block_rows 0 bs, block_bytes bs)) ∧
    blocks_ok (length docs) bs ∧ (∀ b, b ∈ bs → b.2 = posting_list docs b.1) ∧
    (∀ h, h ∉ bs.*1 → posting_list docs h = []).
Proof.
  intros Hdocs. destruct (write_segments docs Hdocs) as [-> Hfits].
  rewrite (merge_segment_files_spec _ Hfits). set (S := sort_by heap_item_leb (items 0 (segments docs))).
  assert (Hperm : hi_pair <$> S ≡ₚ docs ≫= doc_pairs).
  { unfold S. rewrite sort_by_perm, fmap_hi_pair_items. apply concat_segments. }
  assert (Hsorted : StronglySorted key_lt (hi_pair <$> S)).
  { apply sorted_keys; [|rewrite Hperm; by apply doc_pairs_keys].
    assert (StronglySorted item_le S) as Hs by (apply sort_by_sorted; eauto with p28). revert Hs. clear.
    induction 1 as [|it S Hs IH Hit]; [constructor|]. rewrite fmap_cons. constructor; [done|].
    rewrite Forall_fmap. eapply Forall_impl; [exact Hit|]. intros y. apply heap_item_leb_hi_pair. }
  destruct (fold_blocks S Hsorted) as (bs & -> & Hpairs & Hbs & Hne). exists bs.
  rewrite Hpairs in Hperm, Hsorted.
  assert (Hpick : ∀ h, pick h (bs ≫= block_pairs) = posting_list docs h).
  { intros h. apply (StronglySorted_unique entry_lt).
    - eapply pick_sorted; [|exact Hsorted]. unfold key_lt. intros p q Hp Hq. lia.
    - by apply posting_list_sorted.
    - rewrite <- pick_doc_pairs. by apply pick_perm. }
  assert (Hin : ∀ b, b ∈ bs → b.2 = posting_list docs b.1).
  { intros b Hb. rewrite <- Hpick. symmetry. by apply pick_blocks_in. }
  assert (Hall : ∀ p, p ∈ (bs ≫= block_pairs) → pair_ok p ∧ (pair_doc p < Z.of_nat (length docs))%Z).
  { intros p Hp. rewrite Hperm in Hp. split.
    - pose proof (doc_pairs_ok docs Hdocs) as Hok. rewrite Forall_forall in Hok. auto.
    - apply elem_of_doc_pairs in Hp as (d & g & (i & Hi)%list_elem_of_lookup & _ & ->).
      unfold pair_doc. simpl. rewrite (do_ids _ Hdocs i d Hi). apply lookup_lt_Some in Hi. lia. }
  assert (Hentry : ∀ b e, b ∈ bs → e ∈ b.2 → pair_ok (b.1, doc_id e, summary e) ∧ (doc_id e < Z.of_nat (length docs))%Z).
  { intros b e Hb He. apply (Hall (b.1, doc_id e, summary e)). apply list_elem_of_bind. exists b. split; [|done].
    unfold block_pairs. apply list_elem_of_fmap. by exists e. }
  split_and!; [done| |done|intros h Hh; rewrite <- Hpick; by apply pick_blocks_out].
  pose proof (do_size _ Hdocs) as Hsize. rewrite <- Hperm in Hsize. split; [done| | |done].
  - rewrite Forall_forall in Hne |- *. intros b Hb. specialize (Hne b Hb). destruct b.2 as [|e es] eqn:E; [done|].
    destruct (Hentry b e Hb) as [(Hh & _) _]; [rewrite E; left|done].
  - rewrite Forall_forall in Hne |- *. intros b Hb. split_and!; [by apply Hne| |].
    + split_and!.
      * rewrite (Hin b Hb). pose proof (posting_list_sorted docs b.1 Hdocs) as Hs. revert Hs. clear.
        induction 1 as [|e es _ IH He]; [constructor|]. rewrite fmap_cons. constructor; [done|]. by rewrite Forall_fmap.
      * rewrite Forall_forall. intros e He. destruct (Hentry b e Hb He) as [(_ & Hd & _) _]. done.
      * pose proof (blocks_pairs_le b bs Hb). unfold MAX_REGEX_MMAP_BYTES, u32_max in *. lia.
    + rewrite Forall_forall. intros e He. destruct (Hentry b e Hb He) as [(_ & Hd & _) ?].
      unfold fits, pair_doc in Hd. simpl in Hd. lia.
Qed.

(** What a layer over some documents answers. *)
Definition layer_answers (layer : LoadedLayer) (docs : list IndexedDocument) : Prop :=
  ly_docs layer = doc_record <$> docs ∧
  ly_doc_ids_by_path layer = foldl (λ m doc, <[dr_path doc := dr_doc_id doc]> m) ∅ (doc_record <$> docs) ∧
  ∀ hash,
    let es := posting_list docs hash in
    let answer := if decide (es = []) then None else Some es in
    (∀ read, fst (lookup_doc_ids layer hash read) = Ok answer) ∧
    lookup_posting_count layer hash = (λ es, Z.of_nat (length es)) <$> answer.

(** ** Writing the files and reading them back *)

Class LayerCodecLaws `{!LayerCodec} : Prop := {
  docs_round_trip docs bytes : serialize_docs docs = Ok bytes → deserialize_docs bytes = Ok docs
}.

Section Stored.
Context {CODEC : LayerCodec} {LAWS : LayerCodecLaws}.

(** The names are valid, no file has them yet, and the document records can
    be written within their limit. *)
Record stores (dir : Directory) (files : LayerFiles) (docs : list DocRecord) : Prop := {
  st_names : validate_layer_file_names files = Ok ();
  st_fresh : ∃ l p d, state_leaf (lf_lookup files) = Some l ∧ state_leaf (lf_postings files) = Some p ∧
    state_leaf (lf_docs files) = Some d ∧ NoDup [l; p; d] ∧ Forall (λ leaf, dir !! leaf = None) [l; p; d];
  st_docs : ∃ bytes, serialize_docs docs = Ok bytes ∧ (Z.of_nat (length bytes) <= MAX_REGEX_DOCS_BYTES)%Z
}.

Lemma read_present dir name leaf bytes limit : state_leaf name = Some leaf → dir !! leaf = Some bytes →
  (Z.of_nat (length bytes) <= limit)%Z → read_optional dir name limit = Ok (Some bytes).
Proof using Type. intros Hl Hd Hle. unfold read_optional. rewrite Hl. cbn [ok_or mbind result_bind]. rewrite Hd, (proj2 (Z.leb_le _ _) Hle). done. Qed.
Lemma read_absent dir name leaf limit : state_leaf name = Some leaf → dir !! leaf = None → read_optional dir name limit = Ok None.
Proof using Type. intros Hl Hd. unfold read_optional. rewrite Hl. cbn [ok_or mbind result_bind]. by rewrite Hd. Qed.
Lemma write_fresh dir name leaf bytes : state_leaf name = Some leaf → dir !! leaf = None → write_immutable dir name bytes = Ok (<[leaf := bytes]> dir).
Proof using Type. intros Hl Hd. unfold write_immutable. rewrite Hl. cbn [ok_or mbind result_bind]. by rewrite Hd, bool_decide_true. Qed.
Lemma verify_own bytes : verify_artifact_digest bytes (artifact_digest bytes) = Ok ().
Proof using Type. unfold verify_artifact_digest. by rewrite bool_decide_true. Qed.
Lemma default_mmap (file : list Z) : default [] (mmap_retained file) = file.
Proof using Type. by destruct file. Qed.

Lemma build_layer_answers dir files docs :
  docs_ok docs → stores dir files (doc_record <$> docs) →
  ∃ layer dir' files', build_layer dir docs files = Some (Ok (layer, dir', files')) ∧
    load_layer dir' files' = Ok layer ∧ layer_answers layer docs.
Proof using LAWS.
  intros Hdocs [Hnames (l & p & d & Hl & Hp & Hd & Hnd & Habsent) (bytes & Hser & Hbytes)].
  destruct (merge_documents docs Hdocs) as (bs & Hmerge & Hbs & Hin & Hout).
  apply NoDup_cons in Hnd as [Hl' Hnd]. apply NoDup_cons in Hnd as [Hp' _].
  assert (l ≠ p ∧ l ≠ d ∧ p ≠ d) as (Hlp & Hld & Hpd) by set_solver.
  rewrite !Forall_cons in Habsent. destruct Habsent as (Hal & Hap & Had & _).
  destruct (blocks_fit _ bs Hbs) as [Hfit1 Hfit2].
  set (lookup := encode_lookup (block_rows 0 bs)) in *. set (postings := block_bytes bs) in *.
  set (dir' := <[d := bytes]> (<[p := postings]> (<[l := lookup]> dir))).
  set (files' := mkLayerFiles (lf_lookup files) (lf_postings files) (lf_docs files) (artifact_digest lookup)
                   (artifact_digest postings) (artifact_digest bytes)).
  set (layer := {| ly_docs := doc_record <$> docs;
    ly_doc_ids_by_path := foldl (λ m doc, <[dr_path doc := dr_doc_id doc]> m) ∅ (doc_record <$> docs);
    ly_lookup := mmap_retained lookup; ly_postings := mmap_retained postings |}).
  assert (Hload : load_layer dir' files' = Ok layer).
  { unfold load_layer. change (validate_layer_file_names files') with (validate_layer_file_names files). rewrite Hnames.
    cbn [mbind result_bind lf_docs lf_lookup lf_postings files' lf_docs_digest lf_lookup_digest lf_postings_digest].
    rewrite (read_present dir' (lf_docs files) d bytes); [|done|unfold dir'; by simplify_map_eq|done].
    rewrite (read_present dir' (lf_lookup files) l lookup); [|done|unfold dir'; by simplify_map_eq|done].
    rewrite (read_present dir' (lf_postings files) p postings); [|done|unfold dir'; by simplify_map_eq|done].
    cbn [mbind result_bind]. rewrite (docs_round_trip _ _ Hser). cbn [mbind result_bind]. rewrite !default_mmap, !verify_own.
    rewrite (valid_blocks (length docs) bs Hbs); [by destruct (has_digests files')| | |by rewrite length_fmap].
    - intros i rec. rewrite list_lookup_fmap. destruct (docs !! i) as [doc|] eqn:Hi; [|done]. intros [= <-]. by apply (do_ids _ Hdocs).
    - rewrite <- list_fmap_compose. apply (do_paths _ Hdocs). }
  exists layer, dir', files'. split_and!; [|done|].
  - unfold build_layer. rewrite Hnames. cbn [mbind result_bind].
    assert (Hexist : for_each (λ name, existing ← read_optional dir name MAX_REGEX_MMAP_BYTES;
      ensure (bool_decide (existing = None)) (corrupt "immutable regex index artifact already exists")) (layer_names files) = Ok ()).
    { apply for_each_Ok. repeat constructor; erewrite read_absent by done; done. }
    rewrite Hexist, Hmerge. cbn [mbind option_bind result_bind]. fold lookup postings. rewrite Hser. cbn [mbind result_bind lf_lookup lf_postings lf_docs].
    rewrite (write_fresh dir _ l) by done. cbn [mbind result_bind].
    rewrite (write_fresh _ _ p) by (try done; by simplify_map_eq). cbn [mbind result_bind].
    rewrite (write_fresh _ _ d) by (try done; by simplify_map_eq). cbn [mbind result_bind].
    fold dir' files'. by rewrite Hload.
  - unfold layer_answers. split_and!; [done|done|]. intros hash.
    assert (∀ b, b ∈ bs → b.1 = hash → posting_list docs hash = b.2 ∧ b.2 ≠ []) as Hfound.
    { intros b Hb <-. rewrite <- (Hin b Hb). split; [done|]. pose proof (bo_block _ _ Hbs) as Hall.
      rewrite Forall_forall in Hall. by destruct (Hall b Hb). }
    destruct (block_lookup (length docs) bs Hbs layer hash eq_refl eq_refl) as [(b & Hb & Hh & Hread & ->)|(Hnot & Hread & ->)].
    + destruct (Hfound b Hb Hh) as [-> Hne]. by rewrite decide_False.
    + by rewrite (Hout _ Hnot), decide_True.
Qed.
End Stored.

(** ** A store for the examples *)

(** Records as one number each. *)
#[export] Instance DocRecord_eq_dec : EqDecision DocRecord.
Proof. solve_decision. Defined.
#[export] Instance DocRecord_countable : Countable DocRecord.
Proof.
  apply (inj_countable' (λ r, (dr_doc_id r, dr_path r, dr_size r, dr_mtime_secs r, dr_fingerprint r))
    (λ '(n, p, s, m, f), mkDocRecord n p s m f)). by intros [].
Defined.
Definition demo_codec : LayerCodec := {|
  artifact_digest _ := "d";
  serialize_docs docs := Ok [Z.pos (encode docs)];
  deserialize_docs bytes := match bytes with [Z.pos p] => ok_or (decode p) (corrupt "docs") | _ => Err (corrupt "docs") end
|}.
#[export] Instance demo_codec_laws : @LayerCodecLaws demo_codec.
Proof. constructor. intros docs bytes [= <-]. cbn. by rewrite decode_encode. Qed.
Definition demo_files : LayerFiles := mkLayerFiles "base.lookup.dat" "base.postings.dat" "base.docs.dat" "" "" "".
Lemma demo_stores docs : @stores demo_codec ∅ demo_files docs.
Proof.
  split.
  - vm_compute. reflexivity.
  - exists "base.lookup.dat", "base.postings.dat", "base.docs.dat". split_and!; [reflexivity..| |by repeat constructor].
    apply (bool_decide_unpack _). vm_compute. exact I.
  - eexists. split; [reflexivity|]. cbn. unfold MAX_REGEX_DOCS_BYTES. lia.
Qed.

(** C21: the index a build writes under fresh names, when its files are within their
    size limits (segments spilled in batches, merged, encoded as rows and posting
    blocks, and read back through the validation of names, sizes, digests and contents)
    is the map from hashes to posting lists. A lookup answers with one entry per
    document that has a gram of the hash, in document order, and with nothing when no
    document has. *)
Theorem build_layer_lookup `{!LayerCodec} `{!LayerCodecLaws} (dir : Directory) (files : LayerFiles) (docs : list IndexedDocument) :
  docs_ok docs → stores dir files (doc_record <$> docs) →
  ∃ layer dir' files', build_layer dir docs files = Some (Ok (layer, dir', files')) ∧ load_layer dir' files' = Ok layer ∧
    ly_docs layer = doc_record <$> docs ∧
    ∀ hash read, fst (lookup_doc_ids layer hash read) =
      Ok (if decide (posting_list docs hash = []) then None else Some (posting_list docs hash)).
Proof.
  intros Hdocs Hstores. destruct (build_layer_answers dir files docs Hdocs Hstores) as (layer & dir' & files' & Hbuild & Hload & Hrecs & _ & Hans).
  exists layer, dir', files'. split_and!; [done..|]. intros hash read. apply (Hans hash).
Qed.

Lemma build_layer_lookup_witness :
  let doc n p := mkIndexedDocument n p 4 0 "" [mkIndexedGram 5 (PositionSummary.new 3)] in
  ∃ layer dir' files', @build_layer demo_codec ∅ [doc 0%Z "a"; doc 1%Z "b"] demo_files = Some (Ok (layer, dir', files')) ∧
    fst (lookup_doc_ids layer 5 0) = Ok (Some [mkPostingEntry 0 (PositionSummary.new 3); mkPostingEntry 1 (PositionSummary.new 3)]).
Proof.
  intros doc. destruct (@build_layer_lookup demo_codec _ ∅ demo_files [doc 0%Z "a"; doc 1%Z "b"]) as (layer & dir' & files' & Hbuild & _ & _ & Hread).
  - split.
    + intros [|[|i]] d Hi; simplify_eq/=; reflexivity.
    + vm_compute. discriminate.
    + apply (bool_decide_unpack _). vm_compute. exact I.
    + repeat constructor; vm_compute; try discriminate; apply not_elem_of_nil.
    + vm_compute. discriminate.
  - apply demo_stores.
  - exists layer, dir', files'. split; [exact Hbuild|]. rewrite Hread. vm_compute. reflexivity.
Defined.

(** ** A layer that was loaded answers every lookup *)

Lemma field_app {A} i n (l : list A) : take n (drop i l) ++ drop (i + n) l = drop i l.
Proof. by rewrite <- drop_drop, take_drop. Qed.

Lemma parse_lookup lookup :
  Forall byte lookup → length lookup mod LOOKUP_ROW_BYTES = 0 →
  ∃ rows, lookup = encode_lookup rows ∧ Forall row_ok rows.
Proof.
  intros Hb [k Hk]%Nat.Div0.mod_divides. revert lookup Hb Hk.
  induction k as [|k IH]; intros lookup Hb Hk.
  { exists []. split; [|done]. apply nil_length_inv. lia. }
  destruct (IH (drop LOOKUP_ROW_BYTES lookup)) as (rows & Hrows & Hok).
  { by apply Forall_drop. }
  { rewrite length_drop. lia. }
  set (field := λ i n, take n (drop i lookup)).
  assert (Hfield : ∀ i n, i + n ≤ LOOKUP_ROW_BYTES →
    (0 <= from_le_bytes (field i n) < 256 ^ Z.of_nat n)%Z ∧ to_le_bytes n (from_le_bytes (field i n)) = field i n).
  { intros i n Hin. assert (Hlen : length (field i n) = n).
    { unfold field. rewrite length_take, length_drop. unfold LOOKUP_ROW_BYTES in *. lia. }
    assert (Forall byte (field i n)) as Hbf by (by apply Forall_take, Forall_drop).
    pose proof (from_le_bytes_bound _ Hbf). pose proof (to_from_le_bytes _ Hbf). by rewrite Hlen in *. }
  exists ((from_le_bytes (field 0 8), from_le_bytes (field 8 8), from_le_bytes (field 16 4), from_le_bytes (field 20 4)) :: rows).
  destruct (Hfield 0 8) as [B0 E0]; [unfold LOOKUP_ROW_BYTES; lia|].
  destruct (Hfield 8 8) as [B1 E1]; [unfold LOOKUP_ROW_BYTES; lia|].
  destruct (Hfield 16 4) as [B2 E2]; [unfold LOOKUP_ROW_BYTES; lia|].
  destruct (Hfield 20 4) as [B3 E3]; [unfold LOOKUP_ROW_BYTES; lia|].
  split.
  - unfold encode_lookup in *. rewrite fmap_cons, concat_cons, <- Hrows. unfold encode_row.
    rewrite E0, E1, E2, E3. unfold field, LOOKUP_ROW_BYTES. rewrite drop_0, <- !app_assoc.
    by rewrite (field_app 20 4), (field_app 16 4), (field_app 8 8), take_drop.
  - constructor; [|done]. simpl in B0, B1, B2, B3. unfold row_ok, fits, u64_max, u32_max. lia.
Qed.

(** What validation has established for a row. *)
Definition row_good (n : nat) (postings : list Z) (row : PostingRow) : Prop :=
  let meta := row_meta row in
  ∃ start end_ es,
    checked_posting_bounds (lp_offset meta) (lp_len meta) (Z.of_nat (length postings)) = Ok (start, end_) ∧
    decode_postings (slice (Z.to_nat start) (Z.to_nat end_) postings) = Ok es ∧
    Z.of_nat (length es) = lp_doc_count meta ∧ es ≠ [] ∧ Forall (λ e, (doc_id e < Z.of_nat n)%Z) es.

Lemma check_row_inv n postings row previous offset hash end_ :
  row_ok row → check_row n postings (encode_row row) previous offset = Ok (hash, end_) →
  hash = row_hash row ∧ (∀ p, previous = Some p → (p < hash)%Z) ∧ row_good n postings row.
Proof.
  intros Hok. unfold check_row. destruct (read_row row Hok) as (-> & -> & -> & ->). cbn [mbind result_bind].
  destruct row as [[[h o] l] c]. destruct Hok as (Hh & Ho & Hl & Hc).
  cbn [row_hash row_meta lp_offset lp_len lp_doc_count].
  rewrite !from_to_le_bytes by (unfold fits, u32_max, u64_max in *; simpl; lia).
  intros H. inv_result. reflect_bool. subst. split_and!; [done| |].
  - intros p ->. by apply Z.ltb_lt.
  - unfold row_good. cbn [row_meta lp_offset lp_len lp_doc_count]. do 3 eexists. split_and!; [done|done|done| |].
    + intros ->. simpl in *. lia.
    + match goal with H : forallb _ _ = true |- _ => rewrite forallb_forall in H; rename H into Hids end.
      rewrite Forall_forall. intros e He. apply Z.ltb_lt, Hids. by apply list_elem_of_In.
Qed.

Lemma check_rows_inv n postings rows previous offset end_ :
  Forall row_ok rows → check_rows n postings (encode_row <$> rows) previous offset = Ok end_ →
  StronglySorted Z.lt (row_hash <$> rows) ∧ Forall (row_good n postings) rows ∧
  (∀ p, previous = Some p → Forall (λ row, (p < row_hash row)%Z) rows).
Proof.
  intros Hok. revert previous offset. induction Hok as [|row rows Hrow _ IH]; intros previous offset.
  { intros _. split_and!; constructor. }
  rewrite fmap_cons. cbn [check_rows]. intros H. inv_result.
  match goal with H : check_row _ _ _ _ _ = Ok _ |- _ => apply check_row_inv in H as (-> & Hprev & Hgood); [|done] end.
  destruct (IH _ _ H) as (Hs & Hg & Hall). specialize (Hall _ eq_refl). split_and!.
  - rewrite fmap_cons. constructor; [done|]. by rewrite Forall_fmap.
  - by constructor.
  - intros p ->. specialize (Hprev p eq_refl). constructor; [done|]. eapply Forall_impl; [exact Hall|]. simpl. intros. lia.
Qed.

Lemma check_docs_inv k seen docs :
  check_docs k seen docs = Ok () → ∀ i d, docs !! i = Some d → dr_doc_id d = Z.of_nat (k + i).
Proof.
  revert k seen. induction docs as [|d docs IH]; intros k seen H i d' Hi; [done|]. cbn [check_docs] in H.
  inv_result. reflect_bool. destruct i as [|i]; simplify_eq/=; [by rewrite Nat.add_0_r|].
  rewrite (IH _ _ H i d' Hi). f_equal. lia.
Qed.

Lemma read_optional_inv dir name limit bytes : read_optional dir name limit = Ok (Some bytes) → ∃ leaf, dir !! leaf = Some bytes.
Proof.
  unfold read_optional. intros H. inv_result. destruct (dir !! _) as [file|] eqn:E; [|done]. inv_result. simplify_eq. by eexists.
Qed.
Lemma load_layer_inv `{!LayerCodec} dir files layer : map_Forall (λ _ bytes, Forall byte bytes) dir → load_layer dir files = Ok layer →
  ∃ docs lookup postings, Forall byte lookup ∧ Forall byte postings ∧ validate_layer_files docs lookup postings = Ok () ∧
    layer = {| ly_docs := docs; ly_doc_ids_by_path := foldl (λ m doc, <[dr_path doc := dr_doc_id doc]> m) ∅ docs;
               ly_lookup := mmap_retained lookup; ly_postings := mmap_retained postings |}.
Proof.
  intros Hbytes Hload. unfold load_layer in Hload. inv_result.
  repeat match goal with x : option (list Z) |- _ => destruct x as [?|]; [|done] end.
  repeat match goal with H : read_optional _ _ _ = Ok (Some _) |- _ => apply read_optional_inv in H as [? ?%Hbytes] end.
  inv_result. match goal with H : validate_layer_files _ _ _ = Ok ?u |- _ => destruct u; rewrite !default_mmap in H end.
  do 3 eexists. split_and!; [| |eassumption|by subst]; done.
Qed.

(** C22: whatever bytes the index files hold, a layer that loads answers every lookup.
    The decoding that the query code assumes cannot fail does not fail, the posting
    count agrees with the list, and every entry names a document of the layer. *)
Theorem load_layer_lookups_total `{!LayerCodec} (dir : Directory) (files : LayerFiles) (layer : LoadedLayer) :
  map_Forall (λ _ bytes, Forall byte bytes) dir → load_layer dir files = Ok layer →
  ∀ hash read, ∃ r, fst (lookup_doc_ids layer hash read) = Ok r ∧ lookup_doc_ids_quiet layer hash = r ∧
    lookup_posting_count layer hash = (λ es, Z.of_nat (length es)) <$> r ∧
    ∀ es, r = Some es → es ≠ [] ∧ StronglySorted entry_lt es ∧
      ∀ e, e ∈ es → ∃ doc, ly_docs layer !! Z.to_nat (doc_id e) = Some doc ∧ dr_doc_id doc = doc_id e.
Proof.
  intros Hbytes Hload hash read. apply load_layer_inv in Hload as (docs & lookup & postings & Hlb & Hpb & Hvalid & ->); [|done].
  unfold validate_layer_files in Hvalid. inv_result. reflect_bool.
  destruct (parse_lookup lookup) as (rows & -> & Hok); [done|done|].
  rewrite chunks_lookup in *.
  match goal with H : check_rows _ _ _ _ _ = Ok _ |- _ => apply check_rows_inv in H as (Hs & Hgood & _); [|done] end.
  match goal with H : check_docs _ _ _ = Ok _ |- _ => rename H into Hdocs end.
  match type of Hdocs with _ = Ok ?u => destruct u end. pose proof (check_docs_inv _ _ _ Hdocs) as Hids.
  unfold lookup_doc_ids, lookup_doc_ids_quiet, lookup_posting_count. cbn [ly_lookup ly_postings ly_docs].
  destruct (lookup_posting_range_rows rows hash Hs Hok) as [(row & Hrow & _ & Hfind)|[_ Hfind]].
  2:{ exists None. destruct (encode_lookup rows) as [|z zs] eqn:El; cbn [mmap_retained mbind option_bind]; [done|].
      rewrite Hfind. by destruct (mmap_retained postings). }
  rewrite Forall_forall in Hgood. destruct (Hgood row Hrow) as (start & end_ & es & Hbounds & Hdec & Hlen & Hne & Hlt).
  assert (mmap_retained (encode_lookup rows) = Some (encode_lookup rows)) as ->.
  { destruct (encode_lookup rows) eqn:El; [|done]. apply (f_equal length) in El. rewrite encode_lookup_length in El.
    apply list_elem_of_lookup in Hrow as [i Hi%lookup_lt_Some]. unfold LOOKUP_ROW_BYTES in El. simpl in El. lia. }
  assert (mmap_retained postings = Some postings) as ->.
  { destruct postings; [|done]. unfold slice in Hdec. rewrite drop_nil, take_nil in Hdec. discriminate. }
  cbn [mbind option_bind]. rewrite Hfind. cbn [mbind option_bind]. rewrite Hbounds, Hdec.
  exists (Some es). cbn. rewrite Hlen. split_and!; [done|done|done|]. intros es' [= <-]. split; [done|].
  apply decode_postings_sound in Hdec as (Hsorted & Hfits & _); [|by apply Forall_take, Forall_drop]. split.
  - revert Hsorted. clear. induction es as [|e es IH]; [constructor|]. rewrite fmap_cons. inversion 1; subst.
    constructor; [by apply IH|]. by rewrite Forall_fmap in *.
  - intros e He. rewrite Forall_forall in Hlt. specialize (Hlt e He). rewrite Forall_fmap, Forall_forall in Hfits.
    specialize (Hfits e He). unfold fits in Hfits. simpl in Hfits.
    destruct (lookup_lt_is_Some_2 docs (Z.to_nat (doc_id e))) as [doc Hdoc]; [lia|].
    exists doc. split; [done|]. rewrite (Hids _ _ Hdoc). lia.
Qed.

Lemma load_layer_lookups_total_witness :
  let postings := encode_postings [mkPostingEntry 0 (PositionSummary.new 3)] in
  let lookup := encode_lookup [(5, 0, 7, 1)]%Z in
  let codec := {| artifact_digest _ := "d"; serialize_docs _ := Ok []; deserialize_docs _ := Ok [mkDocRecord 0 "a" 4 0 ""] |} in
  let dir := <["d" := []]> (<["p" := postings]> {["l" := lookup]}) : Directory in
  let files := mkLayerFiles "l" "p" "d" "d" "d" "d" in
  ∃ layer, @load_layer codec dir files = Ok layer ∧
    ∃ r, fst (lookup_doc_ids layer 6 0) = Ok r.
Proof.
  intros postings lookup codec dir files.
  destruct (@load_layer codec dir files) as [layer|e] eqn:Hload; [|vm_compute in Hload; discriminate].
  exists layer. split; [reflexivity|].
  destruct (@load_layer_lookups_total codec dir files layer) with (hash := 6%Z) (read := 0%Z) as (r & Hr & _).
  - apply map_Forall_insert_2; [constructor|].
    apply map_Forall_insert_2; [|apply map_Forall_singleton]; vm_compute; repeat constructor; discriminate.
  - exact Hload.
  - exists r. exact Hr.
Defined.

(** ** The documents of a scan *)

Lemma nibbles_byte f l : bucket_ok f → bucket_ok l → byte (Z.lor (Z.shiftl f 4) l).
Proof.
  unfold bucket_ok, byte. intros. rewrite Z.shiftl_mul_pow2, Z.lor_comm by lia.
  rewrite lor_disjoint_add by lia. change (2 ^ 4)%Z with 16%Z. lia.
Qed.

Lemma byte_buckets s :
  byte (buckets s) → bucket_ok (PositionSummary.first_bucket s) ∧ bucket_ok (PositionSummary.last_bucket s).
Proof.
  unfold byte, bucket_ok, PositionSummary.first_bucket, PositionSummary.last_bucket. intros Hb. split.
  - rewrite Z.shiftr_div_pow2 by lia. change (2 ^ 4)%Z with 16%Z. split; [apply Z.div_pos; lia|].
    apply Z.lt_succ_r, Z.div_lt_upper_bound; lia.
  - change 15%Z with (2 ^ 4 - 1)%Z. rewrite land_pred_pow2 by lia.
    pose proof (Z.mod_pos_bound (buckets s) (2 ^ 4)). lia.
Qed.

Lemma index_map_keys len occs h s :
  index_map len occs !! h = Some s → (∃ start, (h, start) ∈ occs) ∧ byte (buckets s).
Proof.
  revert h s. induction occs as [|[h0 st0] occs IH] using rev_ind; intros h s; [done|].
  unfold index_map. rewrite foldl_app. fold (index_map len occs). simpl.
  pose proof (bucket_for_offset_ok st0 len) as Hb. unfold add_indexed_gram.
  destruct (decide (h = h0)) as [->|Hne].
  - intros Hs. split; [exists st0; set_solver|].
    destruct (index_map len occs !! h0) as [s0|] eqn:E; rewrite lookup_insert_eq in Hs; injection Hs as <-.
    + destruct (IH _ _ E) as [_ Hs0]. apply byte_buckets in Hs0 as [H1 H2]. unfold PositionSummary.update. simpl.
      rewrite land_15 by done. apply nibbles_byte; unfold bucket_ok in *; lia.
    + unfold PositionSummary.new. simpl. rewrite land_15 by done. by apply nibbles_byte.
  - intros Hs. assert (index_map len occs !! h = Some s) as Hs'.
    { destruct (index_map len occs !! h0); by rewrite lookup_insert_ne in Hs. }
    destruct (IH _ _ Hs') as [[st Hst] ?]. split; [exists st; set_solver|done].
Qed.

Lemma build_indexed_grams_ok blake3 PAIR_WEIGHTS bytes :
  (∀ l, Forall byte (blake3 l)) →
  NoDup (ig_hash <$> build_indexed_grams blake3 PAIR_WEIGHTS bytes) ∧
  Forall (λ g, fits u64_max (ig_hash g) ∧ byte (buckets (ig_summary g))) (build_indexed_grams blake3 PAIR_WEIGHTS bytes).
Proof.
  intros Hblake. split.
  - unfold build_indexed_grams. rewrite sort_by_perm, <- list_fmap_compose. apply NoDup_fst_map_to_list.
  - rewrite Forall_forall. intros g [(start & Hocc) Hb]%elem_of_build_indexed_grams%index_map_keys.
    split; [|done].
    assert (∃ l, ig_hash g = from_le_bytes (take 8 (blake3 l))) as [l ->].
    { revert Hocc. unfold gram_occurrences. rewrite !elem_of_app, !list_elem_of_fmap.
      intros [([? l] & [= -> _] & _)|[([? l] & [= -> _] & _)|(c & [= -> _] & Hc)]]; [by exists l..|].
      apply elem_of_collect_sparse in Hc. naive_solver. }
    assert (Forall byte (take 8 (blake3 l))) as Hl by (by apply Forall_take).
    pose proof (from_le_bytes_bound _ Hl) as Hbound. rewrite length_take in Hbound.
    assert (256 ^ Z.of_nat (8 `min` length (blake3 l)) <= 256 ^ 8)%Z by (apply Z.pow_le_mono_r; lia).
    unfold fits, u64_max. change (256 ^ 8)%Z with 18446744073709551616%Z in *. lia.
Qed.

Lemma elem_of_posting_list docs h e :
  e ∈ posting_list docs h ↔
  ∃ d g, d ∈ docs ∧ g ∈ id_grams d ∧ ig_hash g = h ∧ e = mkPostingEntry (id_doc_id d) (ig_summary g).
Proof.
  unfold posting_list. rewrite list_elem_of_bind. setoid_rewrite list_elem_of_bind.
  setoid_rewrite list_elem_of_filter. setoid_rewrite list_elem_of_singleton. naive_solver.
Qed.

(** A document that holds a literal has an entry for each of its covering grams. *)
Lemma doc_posting blake3 PAIR_WEIGHTS docs d text literal p q c :
  d ∈ docs → id_grams d = build_indexed_grams blake3 PAIR_WEIGHTS text →
  normalize_for_index text = p ++ normalize_for_index literal ++ q →
  c ∈ build_covering_candidates blake3 PAIR_WEIGHTS literal →
  ∃ s, mkPostingEntry (id_doc_id d) s ∈ posting_list docs (sc_hash c) ∧
    brackets s (bucket_for_offset (length p + sc_start c) (length text)).
Proof.
  intros Hd Hgrams Hlit Hc.
  pose proof (covering_candidate_occurs _ _ _ _ _ _ _ Hlit Hc) as Hocc.
  destruct (index_map_brackets (length text) _ _ _ Hocc) as (s & Hs & Hb).
  exists s. split; [|done]. apply elem_of_posting_list. exists d, (mkIndexedGram (sc_hash c) s).
  split_and!; [done| |done|done]. rewrite Hgrams. by apply elem_of_build_indexed_grams.
Qed.

Section ScanSpec.
Context (blake3 : list Z → list Z) (PAIR_WEIGHTS : Z → Z) (hex_digest : list Z → string).
Local Abbreviation index_document := (index_document blake3 PAIR_WEIGHTS hex_digest).
Local Abbreviation scan_documents := (scan_documents blake3 PAIR_WEIGHTS hex_digest).

Lemma scan_paths files : id_path <$> scan_documents files ≡ₚ id_path <$> omap index_document files.
Proof.
  unfold Layer.scan_documents. set (docs := sort_by _ _).
  assert (id_path <$> imap set_doc_id docs = id_path <$> docs) as ->.
  { apply list_eq. intros i. rewrite !list_lookup_fmap, list_lookup_imap. by destruct (docs !! i). }
  unfold docs. by rewrite sort_by_perm.
Qed.

Lemma elem_of_scan files doc :
  doc ∈ scan_documents files ↔
  ∃ idx d, doc = set_doc_id idx d ∧ scan_documents files !! idx = Some doc ∧ ∃ f, f ∈ files ∧ index_document f = Some d.
Proof.
  unfold Layer.scan_documents. set (docs := sort_by _ _).
  assert (Hdocs : ∀ d, d ∈ docs ↔ ∃ f, f ∈ files ∧ index_document f = Some d).
  { intros d. unfold docs. by rewrite elem_of_sort_by, list_elem_of_omap. }
  split.
  - intros (idx & Hi)%list_elem_of_lookup. pose proof Hi as Hi'. rewrite list_lookup_imap in Hi.
    destruct (docs !! idx) as [d|] eqn:Hd; [|done]. injection Hi as <-.
    exists idx, d. split_and!; [done|done|]. apply Hdocs. by eapply list_elem_of_lookup_2.
  - intros (idx & d & -> & Hi & _). by eapply list_elem_of_lookup_2.
Qed.

Definition scan_fits (files : list SourceFile) : Prop :=
  (∀ l, Forall byte (blake3 l)) ∧
  NoDup (id_path <$> omap index_document files) ∧
  (Z.of_nat (length (omap index_document files)) <= u32_max)%Z ∧
  (24 * Z.of_nat (length (scan_documents files ≫= doc_pairs)) <= MAX_REGEX_MMAP_BYTES)%Z.

Lemma scan_docs_ok files : scan_fits files → docs_ok (scan_documents files).
Proof.
  intros (Hblake & Hnd & Hcount & Hsize).
  assert (Hlen : length (scan_documents files) = length (omap index_document files)).
  { by rewrite <- (length_fmap id_path), scan_paths, length_fmap. }
  split; [| | | |done].
  - intros i doc Hi. pose proof (lookup_lt_Some _ _ _ Hi). unfold Layer.scan_documents in Hi.
    rewrite list_lookup_imap in Hi. destruct (_ !! i) as [d|]; [|done]. injection Hi as <-. simpl.
    apply Z.mod_small. lia.
  - by rewrite Hlen.
  - by rewrite scan_paths.
  - rewrite Forall_forall. intros doc (idx & d & -> & _ & f & _ & Hf)%elem_of_scan. simpl.
    unfold Layer.index_document in Hf. repeat case_match; simplify_eq. simpl. by apply build_indexed_grams_ok.
Qed.

(** The entry of an indexed file for a covering gram of a literal it holds. *)
Lemma scan_posting files f d literal p q c :
  scan_fits files → f ∈ files → index_document f = Some d →
  normalize_for_index (sf_bytes f) = p ++ normalize_for_index literal ++ q →
  c ∈ build_covering_candidates blake3 PAIR_WEIGHTS literal →
  ∃ i doc s, scan_documents files !! i = Some doc ∧ id_path doc = id_path d ∧ id_doc_id doc = Z.of_nat i ∧
    mkPostingEntry (id_doc_id doc) s ∈ posting_list (scan_documents files) (sc_hash c) ∧
    brackets s (bucket_for_offset (length p + sc_start c) (length (sf_bytes f))).
Proof.
  intros Hfits Hf Hd Hlit Hc. pose proof (scan_docs_ok files Hfits) as Hok.
  assert (∃ i, scan_documents files !! i = Some (set_doc_id i d)) as [i Hi].
  { unfold Layer.scan_documents. setoid_rewrite list_lookup_imap.
    assert (d ∈ sort_by (λ left right, str_leb (id_path left) (id_path right)) (omap index_document files)) as [i Hi]%list_elem_of_lookup.
    { rewrite elem_of_sort_by, list_elem_of_omap. by exists f. }
    exists i. by rewrite Hi. }
  destruct (doc_posting blake3 PAIR_WEIGHTS (scan_documents files) (set_doc_id i d) (sf_bytes f) literal p q c)
    as (s & Hin & Hb); [by eapply list_elem_of_lookup_2| |done|done|].
  { unfold Layer.index_document in Hd. repeat case_match; simplify_eq. done. }
  exists i, (set_doc_id i d), s. split_and!; [done|done|by apply (do_ids _ Hok)|done|done].
Qed.
End ScanSpec.

(** A digest for the examples. *)
Lemma digest_bytes (l : list Z) : Forall byte ((λ b, b mod 256)%Z <$> take 32 (l ++ replicate 32 0%Z)).
Proof. rewrite Forall_fmap, Forall_forall. intros b _. unfold byte. simpl. pose proof (Z.mod_pos_bound b 256). lia. Qed.

(** C19: no false negatives of the regex index. When the scanned files of a workspace
    have distinct paths and the files of the layer are within their size limits (at most
    2^32 - 1 documents, 512 MiB of document records, 4 GiB of rows and postings), the
    layer that is built under fresh names loads, and when the normalised bytes of an
    indexed file contain a literal, the lookup of every sparse gram that the query
    planner derives from the literal answers with an entry for that file, whose position
    summary brackets the place of the occurrence. *)
Theorem index_finds_literal blake3 PAIR_WEIGHTS hex_digest `{!LayerCodec} `{!LayerCodecLaws} (files : list SourceFile)
    (dir : Directory) (names : LayerFiles) :
  scan_fits blake3 PAIR_WEIGHTS hex_digest files →
  stores dir names (doc_record <$> scan_documents blake3 PAIR_WEIGHTS hex_digest files) →
  ∃ layer dir' names', build_layer dir (scan_documents blake3 PAIR_WEIGHTS hex_digest files) names = Some (Ok (layer, dir', names')) ∧
    load_layer dir' names' = Ok layer ∧
    ∀ f d literal p q c read,
      f ∈ files → index_document blake3 PAIR_WEIGHTS hex_digest f = Some d →
      normalize_for_index (sf_bytes f) = p ++ normalize_for_index literal ++ q →
      c ∈ build_covering_candidates blake3 PAIR_WEIGHTS literal →
      ∃ es e doc, fst (lookup_doc_ids layer (sc_hash c) read) = Ok (Some es) ∧ e ∈ es ∧
        ly_docs layer !! Z.to_nat (doc_id e) = Some doc ∧ dr_path doc = id_path d ∧
        brackets (summary e) (bucket_for_offset (length p + sc_start c) (length (sf_bytes f))).
Proof.
  intros Hfits Hstores.
  destruct (build_layer_answers dir names _ (scan_docs_ok _ _ _ _ Hfits) Hstores) as (layer & dir' & names' & Hbuild & Hload & Hdocs & _ & Hans).
  exists layer, dir', names'. split; [done|]. split; [done|]. intros f d literal p q c read Hf Hd Hlit Hc.
  destruct (scan_posting _ _ _ _ _ _ _ _ _ _ Hfits Hf Hd Hlit Hc) as (i & doc & s & Hi & Hpath & Hid & Hin & Hb).
  destruct (Hans (sc_hash c)) as [Hread _]. rewrite Hread, decide_False by (intros E; rewrite E in Hin; by apply elem_of_nil in Hin).
  do 2 eexists. exists (doc_record doc). split_and!; [done|exact Hin| |done|done].
  simpl. rewrite Hid, Nat2Z.id, Hdocs, list_lookup_fmap, Hi. done.
Qed.

Lemma index_finds_literal_witness :
  let digest l := (λ b, b mod 256)%Z <$> take 32 (l ++ replicate 32 0%Z) in
  let files := [mkSourceFile "src/a.rs" [120; 65; 98; 99; 121]%Z 7; mkSourceFile "b.rs" [97; 98]%Z 9] in
  ∃ layer dir' names', @build_layer demo_codec ∅ (scan_documents digest (λ n, n) (λ _, "") files) demo_files = Some (Ok (layer, dir', names')) ∧
    ∃ es e doc, fst (lookup_doc_ids layer 6513249 0) = Ok (Some es) ∧ e ∈ es ∧
      ly_docs layer !! Z.to_nat (doc_id e) = Some doc ∧ dr_path doc = "src/a.rs".
Proof.
  intros digest files. destruct (@index_finds_literal digest (λ n, n) (λ _, "") demo_codec _ files ∅ demo_files) as (layer & dir' & names' & Hbuild & _ & Hfind).
  { split_and!; [exact digest_bytes| | |].
    - apply (bool_decide_unpack _). vm_compute. exact I.
    - vm_compute. discriminate.
    - vm_compute. discriminate. }
  { apply demo_stores. }
  exists layer, dir', names'. split; [exact Hbuild|].
  destruct (index_document digest (λ n, n) (λ _, "") (mkSourceFile "src/a.rs" [120; 65; 98; 99; 121]%Z 7)) as [d|] eqn:Hd;
    [|vm_compute in Hd; discriminate].
  destruct (Hfind _ _ [97; 66; 99]%Z [120]%Z [121]%Z (mkSparseCandidate 6513249%Z 50213%Z 0 3) 0%Z ltac:(left) Hd)
    as (es & e & doc & Hes & He & Hdoc & Hpath & _).
  - vm_compute. reflexivity.
  - apply list_elem_of_lookup. exists 0. vm_compute. reflexivity.
  - exists es, e, doc. split_and!; [exact Hes|exact He|exact Hdoc|]. rewrite Hpath. vm_compute in Hd. injection Hd as <-. reflexivity.
Defined.

