(* ===== verification/QueryPlan.v ===== *)
(** * QueryPlan: from a pattern to the literals it requires

    Models the planner of [src/crates/packet28-search-core/src/query.rs]: the
    plan of a pattern ([plan_from_hir] and its helpers), the normalisation of
    plans, and the plan of a request.  The pattern's syntax tree is
    [regex_syntax]'s [Hir], with the variants the planner matches on; its
    character classes, its look-arounds and the literal extractor of
    [regex_syntax::hir::literal] are parameters. *)

From S2P Require Export Grams.

(** ** Plans *)

#[warnings="-register-all"] Inductive SearchPlan : Type :=
| PlanAll
| PlanLiteral (literal : list Z)
| PlanAnd (children : list SearchPlan)
| PlanOr (children : list SearchPlan).

(** The derived [PartialEq]. *)
Fixpoint plan_eqb (a b : SearchPlan) : bool :=
  let fix eqb_list (l k : list SearchPlan) : bool :=
    match l, k with
    | [], [] => true
    | x :: l, y :: k => plan_eqb x y && eqb_list l k
    | _, _ => false
    end in
  match a, b with
  | PlanAll, PlanAll => true
  | PlanLiteral l, PlanLiteral k => bool_decide (l = k)
  | PlanAnd l, PlanAnd k => eqb_list l k
  | PlanOr l, PlanOr k => eqb_list l k
  | _, _ => false
  end.

(** One turn of the loop of [normalize_and], on the normalised child. *)
Definition push_and (normalized : list SearchPlan) (child : SearchPlan) : list SearchPlan :=
  match child with
  | PlanAll => normalized
  | PlanAnd nested => normalized ++ nested
  | other => if existsb (λ existing, plan_eqb existing other) normalized then normalized else normalized ++ [other]
  end.

(** One turn of the loop of [normalize_or]; [None] is its early return. *)
Definition push_or (normalized : list SearchPlan) (child : SearchPlan) : option (list SearchPlan) :=
  match child with
  | PlanAll => None
  | PlanOr nested => Some (normalized ++ nested)
  | other => Some (if existsb (λ existing, plan_eqb existing other) normalized then normalized else normalized ++ [other])
  end.

Definition and_result (normalized : list SearchPlan) : SearchPlan :=
  match normalized with [] => PlanAll | [p] => p | _ => PlanAnd normalized end.
Definition or_result (normalized : list SearchPlan) : SearchPlan :=
  match normalized with [] => PlanAll | [p] => p | _ => PlanOr normalized end.

Fixpoint normalize_plan (plan : SearchPlan) : SearchPlan :=
  match plan with
  | PlanAnd children =>
      (fix loop (normalized children : list SearchPlan) : SearchPlan :=
         match children with
         | [] => and_result normalized
         | child :: children => loop (push_and normalized (normalize_plan child)) children
         end) [] children
  | PlanOr children =>
      (fix loop (normalized children : list SearchPlan) : SearchPlan :=
         match children with
         | [] => or_result normalized
         | child :: children =>
             match push_or normalized (normalize_plan child) with
             | Some normalized => loop normalized children
             | None => PlanAll
             end
         end) [] children
  | other => other
  end.

Definition normalize_and (children : list SearchPlan) : SearchPlan := normalize_plan (PlanAnd children).
Definition normalize_or (children : list SearchPlan) : SearchPlan := normalize_plan (PlanOr children).

(** ** Patterns *)

#[warnings="-register-all"] Inductive Hir (C L : Type) : Type :=
| HirEmpty
| HirLiteral (bytes : list Z)
| HirClass (class : C)
| HirLook (look : L)
| HirRepetition (min : Z) (max : option Z) (sub : Hir C L)
| HirCapture (sub : Hir C L)
| HirConcat (subs : list (Hir C L))
| HirAlternation (subs : list (Hir C L)).
Arguments HirEmpty {C L}.
Arguments HirLiteral {C L} bytes.
Arguments HirClass {C L} class.
Arguments HirLook {C L} look.
Arguments HirRepetition {C L} min max sub.
Arguments HirCapture {C L} sub.
Arguments HirConcat {C L} subs.
Arguments HirAlternation {C L} subs.

Inductive ExtractKind : Type := Prefix | Suffix.

(** The literal extractor, with the limits the planner sets, and the literal
    sequences it returns. *)
Class LiteralExtractor (H Seq : Type) : Type := {
  extract : ExtractKind → H → Seq;
  seq_is_finite : Seq → bool;
  seq_is_empty : Seq → bool;
  minimize_by_preference : Seq → Seq;
  keep_first_bytes : nat → Seq → Seq;
  keep_last_bytes : nat → Seq → Seq;
  seq_literals : Seq → option (list (list Z));
  longest_common_prefix : Seq → option (list Z);
  longest_common_suffix : Seq → option (list Z)
}.

(** [Vec::repeat]. *)
Definition repeat_bytes (n : nat) (l : list Z) : list Z := concat (replicate n l).

(** ** The planner *)

Section Planner.
Context (blake3 : list Z → list Z) (PAIR_WEIGHTS : Z → Z).
Local Abbreviation build_covering_hashes := (build_covering_hashes blake3 PAIR_WEIGHTS).

Definition is_poisonous_literal (bytes : list Z) : bool := length bytes <? SHORT_GRAM_BYTES.

(** [is_poisonous_literal(&b) || build_covering_hashes(&b).is_empty()]. *)
Definition unusable_literal (bytes : list Z) : bool :=
  is_poisonous_literal bytes || bool_decide (build_covering_hashes bytes = []).

Definition literal_plan_from_bytes (bytes : list Z) : SearchPlan :=
  let normalized := normalize_for_index bytes in
  if unusable_literal normalized then PlanAll else PlanLiteral normalized.

Context {C L Seq : Type} `{!LiteralExtractor (Hir C L) Seq}.
Implicit Types (hir : Hir C L) (seq : Seq).

Definition common_literal_from_seq seq (kind : ExtractKind) : option (list Z) :=
  common ← match kind with Prefix => longest_common_prefix seq | Suffix => longest_common_suffix seq end;
  let bytes := normalize_for_index common in
  if unusable_literal bytes then None else Some bytes.

Fixpoint usable_literals (normalized literals : list (list Z)) : list (list Z) :=
  match literals with
  | [] => normalized
  | literal :: literals =>
      let bytes := normalize_for_index literal in
      if unusable_literal bytes then usable_literals normalized literals
      else if bool_decide (bytes ∈ normalized) then usable_literals normalized literals
      else usable_literals (normalized ++ [bytes]) literals
  end.

Definition plan_from_literal_seq seq (kind : ExtractKind) : SearchPlan :=
  match seq_literals seq with
  | None => PlanAll
  | Some literals =>
      match common_literal_from_seq seq kind with
      | Some common => PlanLiteral common
      | None =>
          match usable_literals [] literals with
          | [] => PlanAll
          | [literal] => PlanLiteral literal
          | normalized => PlanOr (PlanLiteral <$> normalized)
          end
      end
  end.

Definition plan_from_extractor hir (kind : ExtractKind) : SearchPlan :=
  let seq := extract kind hir in
  if negb (seq_is_finite seq) || seq_is_empty seq then PlanAll
  else
    let seq := minimize_by_preference seq in
    let seq := match kind with
               | Prefix => keep_first_bytes MAX_GRAM_BYTES seq
               | Suffix => keep_last_bytes MAX_GRAM_BYTES seq
               end in
    plan_from_literal_seq seq kind.

(** The common shape of [combine_extractor_plans] and of the end of
    [combine_required_plan]. *)
Definition combine_plans (a b : SearchPlan) : SearchPlan :=
  match a, b with
  | PlanAll, other | other, PlanAll => other
  | _, _ => if plan_eqb a b then a else normalize_and [a; b]
  end.

Definition combine_extractor_plans (prefix suffix : SearchPlan) : SearchPlan := combine_plans prefix suffix.

Definition plan_from_extractors hir : SearchPlan :=
  combine_extractor_plans (plan_from_extractor hir Prefix) (plan_from_extractor hir Suffix).

Definition combine_required_plan (structural : SearchPlan) hir : SearchPlan :=
  combine_plans (normalize_plan structural) (normalize_plan (plan_from_extractors hir)).

Definition plan_from_repetition (min : Z) (child_plan : SearchPlan) hir : SearchPlan :=
  if (min =? 0)%Z then PlanAll
  else
    let repeated_plan :=
      if (1 <? min)%Z then
        match child_plan with
        | PlanLiteral ((_ :: _) as literal) =>
            let repeats_to_materialize := Nat.min (Z.to_nat min) (MAX_GRAM_BYTES / length literal + 1) in
            literal_plan_from_bytes (repeat_bytes repeats_to_materialize literal)
        | _ => child_plan
        end
      else child_plan in
    combine_required_plan repeated_plan hir.

Fixpoint plan_from_hir hir : SearchPlan :=
  match hir with
  | HirEmpty | HirClass _ | HirLook _ => PlanAll
  | HirLiteral literal => literal_plan_from_bytes literal
  | HirCapture sub => combine_required_plan (plan_from_hir sub) hir
  | HirConcat subs => combine_required_plan (normalize_and (plan_from_hir <$> subs)) hir
  | HirAlternation subs => combine_required_plan (normalize_or (plan_from_hir <$> subs)) hir
  | HirRepetition min _ sub => plan_from_repetition min (plan_from_hir sub) hir
  end.

(** The fields of [SearchRequest] that the planner reads. *)
Record SearchRequest : Type := mkSearchRequest {
  fixed_string : bool;
  case_sensitive : option bool
}.

(** [parse] is [regex_syntax::parse]; [None] is [InvalidRegexSyntax]. *)
Definition build_search_plan (parse : list Z → option (Hir C L)) (request : SearchRequest) (query : list Z)
    : option (SearchPlan * option string) :=
  if fixed_string request then
    if bool_decide (case_sensitive request = Some false) && negb (forallb (λ b, b <? 128)%Z query) then
      Some (PlanAll, Some "unicode ignore-case fixed-string queries use regex fallback instead of ASCII-only index normalization")
    else
      let literal := normalize_for_index query in
      if bool_decide (build_covering_hashes literal = []) then
        Some (PlanAll, Some "fixed string query is too short to derive a selective index plan")
      else Some (PlanLiteral literal, None)
  else
    hir ← parse query;
    let plan := normalize_plan (plan_from_hir hir) in
    Some (plan, match plan with
                | PlanAll => Some "planner could not derive required literals; verifying all indexed candidates"
                | _ => None
                end).
End Planner.

(** ** What a plan requires of a document

    [text] is the document after [normalize_for_index]. *)

Definition occurs (literal text : list Z) : Prop := ∃ p q, text = p ++ literal ++ q.

Fixpoint plan_holds (plan : SearchPlan) (text : list Z) : Prop :=
  match plan with
  | PlanAll => True
  | PlanLiteral literal => occurs (normalize_for_index literal) text
  | PlanAnd children => foldr (λ child P, plan_holds child text ∧ P) True children
  | PlanOr children => foldr (λ child P, plan_holds child text ∨ P) False children
  end.

(** ** The strings a pattern can match

    Literals match up to ASCII case, which covers both the exact and the
    case-insensitive search of ASCII patterns; look-arounds match the empty
    string anywhere, so this is at least what the pattern matches. *)

Section Language.
Context {C L : Type} (class_lang : C → list Z → Prop).

Fixpoint hir_lang (hir : Hir C L) (s : list Z) : Prop :=
  match hir with
  | HirEmpty => s = []
  | HirLiteral bytes => normalize_for_index s = normalize_for_index bytes
  | HirClass class => class_lang class s
  | HirLook _ => s = []
  | HirRepetition min max sub =>
      ∃ parts, s = concat parts ∧ (min <= Z.of_nat (length parts))%Z ∧
        (∀ m, max = Some m → (Z.of_nat (length parts) <= m)%Z) ∧ Forall (hir_lang sub) parts
  | HirCapture sub => hir_lang sub s
  | HirConcat subs =>
      (fix go (subs : list (Hir C L)) (s : list Z) : Prop :=
         match subs with
         | [] => s = []
         | sub :: subs => ∃ s1 s2, s = s1 ++ s2 ∧ hir_lang sub s1 ∧ go subs s2
         end) subs s
  | HirAlternation subs => foldr (λ sub P, hir_lang sub s ∨ P) False subs
  end.
End Language.

Example normalize_ex :
  normalize_plan (PlanAnd [PlanAll; PlanAnd [PlanLiteral [1]%Z]; PlanLiteral [1]%Z]) = PlanLiteral [1]%Z.
Proof. reflexivity. Qed.
