(* ===== verification/QueryPlanSpec.v ===== *)
(** * QueryPlanSpec: the plan is a necessary condition of a match

    A document with a match of the pattern satisfies the planned literals,
    for the patterns whose extracted literals are all long enough to be used
    and whose repeated parts are planned exactly; and what the planner does
    on the patterns outside these conditions. *)

From S2P Require Export QueryPlan.

(** ** Plans *)

Section SearchPlanInd.
Context (P : SearchPlan → Prop) (Hall : P PlanAll) (Hlit : ∀ l, P (PlanLiteral l))
  (Hand : ∀ cs, Forall P cs → P (PlanAnd cs)) (Hor : ∀ cs, Forall P cs → P (PlanOr cs)).

Fixpoint SearchPlan_nested_ind (p : SearchPlan) : P p :=
  let fix go (cs : list SearchPlan) : Forall P cs :=
    match cs with
    | [] => List.Forall_nil _
    | c :: cs => List.Forall_cons _ _ _ (SearchPlan_nested_ind c) (go cs)
    end in
  match p with
  | PlanAll => Hall
  | PlanLiteral l => Hlit l
  | PlanAnd cs => Hand cs (go cs)
  | PlanOr cs => Hor cs (go cs)
  end.
End SearchPlanInd.

Section HirInd.
Context {C L : Type} (P : Hir C L → Prop) (Hempty : P HirEmpty) (Hlit : ∀ b, P (HirLiteral b))
  (Hclass : ∀ c, P (HirClass c)) (Hlook : ∀ l, P (HirLook l))
  (Hrep : ∀ min max sub, P sub → P (HirRepetition min max sub)) (Hcap : ∀ sub, P sub → P (HirCapture sub))
  (Hconcat : ∀ subs, Forall P subs → P (HirConcat subs)) (Halt : ∀ subs, Forall P subs → P (HirAlternation subs)).

Fixpoint Hir_nested_ind (h : Hir C L) : P h :=
  let fix go (hs : list (Hir C L)) : Forall P hs :=
    match hs with
    | [] => List.Forall_nil _
    | h :: hs => List.Forall_cons _ _ _ (Hir_nested_ind h) (go hs)
    end in
  match h with
  | HirEmpty => Hempty
  | HirLiteral b => Hlit b
  | HirClass c => Hclass c
  | HirLook l => Hlook l
  | HirRepetition min max sub => Hrep min max sub (Hir_nested_ind sub)
  | HirCapture sub => Hcap sub (Hir_nested_ind sub)
  | HirConcat subs => Hconcat subs (go subs)
  | HirAlternation subs => Halt subs (go subs)
  end.
End HirInd.

Lemma plan_eqb_eq a b : plan_eqb a b = true → a = b.
Proof.
  assert (Hlist : ∀ l, Forall (λ a, ∀ b, plan_eqb a b = true → a = b) l → ∀ k,
    (fix eqb_list (l k : list SearchPlan) : bool :=
       match l, k with [], [] => true | x :: l, y :: k => plan_eqb x y && eqb_list l k | _, _ => false end) l k = true → l = k).
  { induction 1 as [|x l Hx _ IH]; intros [|y k] Heq; try done. apply andb_true_iff in Heq as [H1 H2].
    by rewrite (Hx y H1), (IH k H2). }
  revert b. induction a as [|l|cs IH|cs IH] using SearchPlan_nested_ind; intros [|l'|cs'|cs'] Heq; simpl in Heq; try done.
  - by apply bool_decide_eq_true in Heq as ->.
  - by rewrite (Hlist cs IH cs' Heq).
  - by rewrite (Hlist cs IH cs' Heq).
Qed.

Lemma existsb_plan existing normalized :
  existsb (λ e, plan_eqb e existing) normalized = true → existing ∈ normalized.
Proof. intros (e & He & ->%plan_eqb_eq)%existsb_exists. by apply list_elem_of_In. Qed.

Lemma plan_holds_and cs t : plan_holds (PlanAnd cs) t ↔ Forall (λ c, plan_holds c t) cs.
Proof.
  induction cs as [|c cs IH]; [split; [constructor|done]|]. rewrite Forall_cons, <- IH. done.
Qed.
Lemma plan_holds_or cs t : plan_holds (PlanOr cs) t ↔ Exists (λ c, plan_holds c t) cs.
Proof.
  induction cs as [|c cs IH]; [split; [done|by intros ?%Exists_nil]|]. rewrite Exists_cons, <- IH. done.
Qed.

Lemma push_and_holds t acc c :
  Forall (λ c, plan_holds c t) acc → plan_holds c t → Forall (λ c, plan_holds c t) (push_and acc c).
Proof.
  intros Hacc Hc. destruct c as [|l|cs|cs]; cbn [push_and]; [done| | |].
  - case_match; [done|]. apply Forall_app. by rewrite Forall_singleton.
  - apply Forall_app. split; [done|]. by apply plan_holds_and.
  - case_match; [done|]. apply Forall_app. by rewrite Forall_singleton.
Qed.

Lemma push_or_holds t acc c acc' :
  push_or acc c = Some acc' →
  Exists (λ c, plan_holds c t) acc ∨ plan_holds c t → Exists (λ c, plan_holds c t) acc'.
Proof.
  assert (Hpush : ∀ c', Exists (λ c, plan_holds c t) acc ∨ plan_holds c' t →
    Exists (λ c, plan_holds c t) (if existsb (λ e, plan_eqb e c') acc then acc else acc ++ [c'])).
  { intros c' Hor. destruct (existsb _ acc) eqn:E.
    - apply existsb_plan in E. destruct Hor as [|Hc]; [done|]. apply Exists_exists. eauto.
    - rewrite Exists_app, Exists_cons. tauto. }
  destruct c as [|l|cs|cs]; cbn [push_or]; intros Heq Hor; simplify_eq; [by apply Hpush..|].
  rewrite Exists_app, <- (plan_holds_or cs). done.
Qed.

Lemma and_result_holds t acc : Forall (λ c, plan_holds c t) acc → plan_holds (and_result acc) t.
Proof. destruct acc as [|c [|c' acc]]; intros H; [done|by inversion H|]. by apply plan_holds_and. Qed.
Lemma or_result_holds t acc : Exists (λ c, plan_holds c t) acc → plan_holds (or_result acc) t.
Proof.
  destruct acc as [|c [|c' acc]]; intros H; [done| |by apply plan_holds_or].
  apply Exists_cons in H as [|H%Exists_nil]; done.
Qed.

Lemma normalize_plan_holds p t : plan_holds p t → plan_holds (normalize_plan p) t.
Proof.
  induction p as [|l|cs IH|cs IH] using SearchPlan_nested_ind; [done|done| |].
  - rewrite plan_holds_and. cbn [normalize_plan].
    assert (Forall (λ c, plan_holds c t) []) as Hacc by constructor. revert Hacc. generalize (@nil SearchPlan).
    induction IH as [|c cs Hc _ IH]; intros acc Hacc Hcs; [by apply and_result_holds|].
    apply Forall_cons in Hcs as [? ?]. apply IH; [|done]. apply push_and_holds; auto.
  - rewrite plan_holds_or. cbn [normalize_plan]. intros Hcs.
    assert (Exists (λ c, plan_holds c t) [] ∨ Exists (λ c, plan_holds c t) cs) as Hor by auto. clear Hcs.
    revert Hor. generalize (@nil SearchPlan).
    induction IH as [|c cs Hc _ IH]; intros acc Hor.
    { destruct Hor as [|?%Exists_nil]; [by apply or_result_holds|done]. }
    destruct (push_or acc (normalize_plan c)) as [acc'|] eqn:E; [|done]. apply IH.
    rewrite Exists_cons in Hor. destruct Hor as [?|[?|?]]; [left|left|by right]; eapply push_or_holds; eauto.
Qed.

Lemma combine_plans_holds a b t : plan_holds a t → plan_holds b t → plan_holds (combine_plans a b) t.
Proof.
  intros Ha Hb. assert (plan_holds (normalize_and [a; b]) t) as Hab by (by apply normalize_plan_holds).
  unfold combine_plans. destruct a, b; try done; by case_match.
Qed.

(** ** Occurrences *)

Lemma occurs_refl l : occurs l l.
Proof. exists [], []. by rewrite app_nil_r. Qed.
Lemma occurs_trans l k t : occurs l k → occurs k t → occurs l t.
Proof. intros (p & q & ->) (p' & q' & ->). exists (p' ++ p), (q ++ q'). by rewrite <- !app_assoc. Qed.
Lemma occurs_app_l l k : occurs l (l ++ k).
Proof. by exists [], k. Qed.
Lemma occurs_app_r l k : occurs l (k ++ l).
Proof. exists k, []. by rewrite app_nil_r. Qed.

Lemma to_ascii_lowercase_idemp b : to_ascii_lowercase (to_ascii_lowercase b) = to_ascii_lowercase b.
Proof. unfold to_ascii_lowercase. repeat case_match; reflect_bool; rewrite ?andb_false_iff, ?Z.leb_gt in *; lia. Qed.
Lemma normalize_idemp l : normalize_for_index (normalize_for_index l) = normalize_for_index l.
Proof.
  unfold normalize_for_index. rewrite <- list_fmap_compose. apply list_fmap_ext. intros i b _. apply to_ascii_lowercase_idemp.
Qed.
Lemma normalize_app l k : normalize_for_index (l ++ k) = normalize_for_index l ++ normalize_for_index k.
Proof. apply fmap_app. Qed.

#[export] Hint Resolve occurs_refl occurs_trans occurs_app_l occurs_app_r : p28.

(** ** The documented behaviour of the literal extractor

    A finite sequence covers the matches of its pattern: every match contains
    one of its literals.  Minimising removes literals that contain a kept one,
    truncating keeps a part of each, and the common prefix (suffix) is one of
    every literal. *)

Definition contains_one (literals : list (list Z)) (s : list Z) : Prop :=
  ∃ l, l ∈ literals ∧ occurs (normalize_for_index l) (normalize_for_index s).

Section Soundness.
Context (blake3 : list Z → list Z) (PAIR_WEIGHTS : Z → Z).
Context {C L Seq : Type} `{!LiteralExtractor (Hir C L) Seq} (class_lang : C → list Z → Prop).
Implicit Types (hir : Hir C L) (seq : Seq) (kind : ExtractKind).

Definition covers seq (s : list Z) : Prop := ∀ literals, seq_literals seq = Some literals → contains_one literals s.

Class ExtractorLaws : Prop := {
  extract_covers kind hir s :
    hir_lang class_lang hir s → seq_is_finite (extract kind hir) = true → covers (extract kind hir) s;
  minimize_covers seq s : covers seq s → covers (minimize_by_preference seq) s;
  keep_first_covers n seq s : covers seq s → covers (keep_first_bytes n seq) s;
  keep_last_covers n seq s : covers seq s → covers (keep_last_bytes n seq) s;
  common_prefix_law seq c literals l :
    longest_common_prefix seq = Some c → seq_literals seq = Some literals → l ∈ literals → ∃ r, l = c ++ r;
  common_suffix_law seq c literals l :
    longest_common_suffix seq = Some c → seq_literals seq = Some literals → l ∈ literals → ∃ r, l = r ++ c
}.

(** The sequence that [plan_from_extractor] plans from. *)
Definition planned_seq hir kind : Seq :=
  let seq := minimize_by_preference (extract kind hir) in
  match kind with Prefix => keep_first_bytes MAX_GRAM_BYTES seq | Suffix => keep_last_bytes MAX_GRAM_BYTES seq end.

(** No literal of the sequence is passed over for being too short. *)
Definition usable_seq hir kind : Prop :=
  ∀ literals l, seq_literals (planned_seq hir kind) = Some literals → l ∈ literals →
    unusable_literal blake3 PAIR_WEIGHTS (normalize_for_index l) = false.

(** The repeated part is planned as the literal [l] only if [l] is all it can match. *)
Definition exact_repetition (min : Z) (sub : Hir C L) : Prop :=
  (1 < min)%Z → ∀ l s, plan_from_hir blake3 PAIR_WEIGHTS sub = PlanLiteral l →
    hir_lang class_lang sub s → normalize_for_index s = l.

Fixpoint plannable hir : Prop :=
  match hir with
  | HirEmpty | HirClass _ | HirLook _ | HirLiteral _ => True
  | HirCapture sub => plannable sub ∧ ∀ kind, usable_seq hir kind
  | HirConcat subs | HirAlternation subs =>
      foldr (λ sub P, plannable sub ∧ P) True subs ∧ ∀ kind, usable_seq hir kind
  | HirRepetition min _ sub => (min = 0)%Z ∨ ((0 < min)%Z ∧ plannable sub ∧ exact_repetition min sub ∧ ∀ kind, usable_seq hir kind)
  end.

Context {Hlaws : ExtractorLaws}.

Lemma literal_plan_holds b t : occurs (normalize_for_index b) t → plan_holds (literal_plan_from_bytes blake3 PAIR_WEIGHTS b) t.
Proof using Type. intros Hb. unfold literal_plan_from_bytes. case_match; [done|]. simpl. by rewrite normalize_idemp. Qed.

Lemma elem_of_usable_literals normalized literals b :
  b ∈ normalized ∨ (∃ l, l ∈ literals ∧ b = normalize_for_index l ∧ unusable_literal blake3 PAIR_WEIGHTS b = false) →
  b ∈ usable_literals blake3 PAIR_WEIGHTS normalized literals.
Proof using Type.
  revert normalized. induction literals as [|l0 ls IH]; intros normalized Hb; cbn [usable_literals].
  { destruct Hb as [|(l & ?%elem_of_nil & _)]; done. }
  destruct (unusable_literal _ _ (normalize_for_index l0)) eqn:E.
  - apply IH. destruct Hb as [|(l & [->|Hl]%elem_of_cons & -> & Hu)]; [by left|congruence|right; eauto].
  - case_bool_decide as Hin; apply IH; rewrite ?elem_of_app, ?list_elem_of_singleton;
      destruct Hb as [|(l & [->|Hl]%elem_of_cons & -> & Hu)]; eauto; right; eauto.
Qed.

Lemma plan_from_literal_seq_holds seq kind s t :
  covers seq s → occurs (normalize_for_index s) t →
  (∀ literals l, seq_literals seq = Some literals → l ∈ literals → unusable_literal blake3 PAIR_WEIGHTS (normalize_for_index l) = false) →
  plan_holds (plan_from_literal_seq blake3 PAIR_WEIGHTS seq kind) t.
Proof using Hlaws.
  intros Hcov Hs Husable. unfold plan_from_literal_seq. destruct (seq_literals seq) as [literals|] eqn:El; [|done].
  destruct (Hcov literals El) as (l & Hl & Hocc).
  destruct (common_literal_from_seq _ _ seq kind) as [common|] eqn:Ec.
  - unfold common_literal_from_seq in Ec. apply bind_Some in Ec as (c & Hc & Ec). case_match; simplify_eq. simpl.
    rewrite normalize_idemp. apply (occurs_trans _ (normalize_for_index l)); [|by eapply occurs_trans].
    destruct kind.
    + destruct (common_prefix_law _ _ _ _ Hc El Hl) as [r ->]. rewrite normalize_app. auto with p28.
    + destruct (common_suffix_law _ _ _ _ Hc El Hl) as [r ->]. rewrite normalize_app. auto with p28.
  - assert (normalize_for_index l ∈ usable_literals blake3 PAIR_WEIGHTS [] literals) as Hin.
    { apply elem_of_usable_literals. right. exists l. split_and!; [done|done|]. by eapply Husable. }
    assert (occurs (normalize_for_index (normalize_for_index l)) t) as Ht.
    { rewrite normalize_idemp. by eapply occurs_trans. }
    destruct (usable_literals _ _ [] literals) as [|b0 [|b1 bs]]; [done| |].
    + apply list_elem_of_singleton in Hin as <-. done.
    + apply plan_holds_or, Exists_exists. exists (PlanLiteral (normalize_for_index l)). split; [|done].
      by apply list_elem_of_fmap_2.
Qed.

Lemma planned_seq_covers hir kind s :
  hir_lang class_lang hir s → seq_is_finite (extract kind hir) = true → covers (planned_seq hir kind) s.
Proof using Hlaws.
  intros Hs Hf. unfold planned_seq.
  destruct kind; [apply keep_first_covers|apply keep_last_covers]; by apply minimize_covers, extract_covers.
Qed.

Lemma plan_from_extractors_holds hir s t :
  hir_lang class_lang hir s → occurs (normalize_for_index s) t → (∀ kind, usable_seq hir kind) →
  plan_holds (plan_from_extractors blake3 PAIR_WEIGHTS hir) t.
Proof using Hlaws.
  intros Hs Ht Hu.
  assert (∀ kind, plan_holds (plan_from_extractor blake3 PAIR_WEIGHTS hir kind) t) as Hkind.
  { intros kind. unfold plan_from_extractor. destruct (_ || _) eqn:E; [done|]. apply orb_false_iff in E as [E _].
    apply negb_false_iff in E. apply (plan_from_literal_seq_holds (planned_seq hir kind) kind s t); [|done|].
    - by apply planned_seq_covers.
    - intros. by eapply Hu. }
  by apply combine_plans_holds.
Qed.

Lemma combine_required_holds p hir s t :
  plan_holds p t → hir_lang class_lang hir s → occurs (normalize_for_index s) t → (∀ kind, usable_seq hir kind) →
  plan_holds (combine_required_plan blake3 PAIR_WEIGHTS p hir) t.
Proof using Hlaws.
  intros. unfold combine_required_plan. apply combine_plans_holds; apply normalize_plan_holds; [done|].
  by eapply plan_from_extractors_holds.
Qed.

Lemma repeated_occurs n l parts :
  n ≤ length parts → Forall (λ s, normalize_for_index s = l) parts →
  occurs (normalize_for_index (repeat_bytes n l)) (normalize_for_index (concat parts)).
Proof using Type.
  intros Hn Hparts.
  assert (Hfull : normalize_for_index (concat parts) = normalize_for_index (repeat_bytes (length parts) l)).
  { clear Hn. induction Hparts as [|s parts Hs _ IH]; [done|]. unfold repeat_bytes in *.
    cbn [length replicate concat]. by rewrite !normalize_app, IH, <- Hs, normalize_idemp. }
  rewrite Hfull. replace (length parts) with (n + (length parts - n)) by lia.
  unfold repeat_bytes. rewrite replicate_add, concat_app, normalize_app. apply occurs_app_l.
Qed.

Lemma plan_from_hir_holds hir s t :
  plannable hir → hir_lang class_lang hir s → occurs (normalize_for_index s) t →
  plan_holds (plan_from_hir blake3 PAIR_WEIGHTS hir) t.
Proof using Hlaws.
  revert s t. induction hir as [|b|c|l|min max sub IH|sub IH|subs IH|subs IH] using Hir_nested_ind;
    intros s t Hp Hs Ht; try done.
  - cbn [plan_from_hir hir_lang] in *. apply literal_plan_holds. by rewrite <- Hs.
  - cbn [plan_from_hir]. unfold plan_from_repetition. destruct (min =? 0)%Z eqn:E0; [done|]. reflect_bool.
    destruct Hp as [|(Hmin0 & Hsub & Hexact & Hu)]; [done|]. eapply combine_required_holds; [|exact Hs|done|done].
    destruct Hs as (parts & -> & Hmin & _ & Hparts).
    assert (Hchild : plan_holds (plan_from_hir blake3 PAIR_WEIGHTS sub) t).
    { destruct parts as [|s1 parts]; [simpl in Hmin; lia|]. inversion Hparts; subst.
      eapply IH; [done|done|]. eapply occurs_trans; [|exact Ht]. simpl. rewrite normalize_app. apply occurs_app_l. }
    destruct (1 <? min)%Z eqn:E1; reflect_bool; [|done].
    destruct (plan_from_hir _ _ sub) as [|[|x l]|cs|cs] eqn:Eplan; try done.
    apply literal_plan_holds. eapply occurs_trans; [|exact Ht]. apply repeated_occurs; [lia|].
    eapply Forall_impl; [exact Hparts|]. intros s' Hs'. exact (Hexact E1 _ _ Eplan Hs').
  - destruct Hp as [Hsub Hu]. cbn [plan_from_hir]. eapply combine_required_holds; [|exact Hs|done|done]. by eapply IH.
  - destruct Hp as [Hsub Hu]. cbn [plan_from_hir]. eapply combine_required_holds; [|exact Hs|done|done].
    apply normalize_plan_holds, plan_holds_and. cbn [hir_lang] in Hs. clear Hu. revert s Hs Ht.
    induction IH as [|sub subs Hh _ IH]; intros s Hs Ht; [constructor|].
    destruct Hs as (s1 & s2 & -> & Hs1 & Hs2), Hsub as [Hsub Hsubs]. rewrite normalize_app in Ht. constructor.
    + eapply Hh; [done|done|]. eapply occurs_trans; [|exact Ht]. apply occurs_app_l.
    + eapply IH; [done|done|]. eapply occurs_trans; [|exact Ht]. apply occurs_app_r.
  - destruct Hp as [Hsub Hu]. cbn [plan_from_hir]. eapply combine_required_holds; [|exact Hs|done|done].
    apply normalize_plan_holds, plan_holds_or. cbn [hir_lang] in Hs. clear Hu.
    induction IH as [|sub subs Hh _ IH]; [done|]. destruct Hsub as [Hsub Hsubs].
    destruct Hs as [Hs|Hs]; [left; by eapply Hh|right; by apply IH].
Qed.
End Soundness.

(** ** Literals that can be looked up *)

Lemma covering_nonempty blake3 PAIR_WEIGHTS l :
  2 ≤ length l → build_covering_hashes blake3 PAIR_WEIGHTS l ≠ [].
Proof.
  intros Hl. unfold build_covering_hashes, build_covering_candidates, SHORT_GRAM_BYTES, MIN_GRAM_BYTES.
  assert (Hn : length (normalize_for_index l) = length l) by apply length_fmap. rewrite Hn.
  destruct (length l =? 2) eqn:E2; [done|]. destruct (length l <? 3) eqn:E3; reflect_bool; [lia|].
  assert (Hdedup : ∀ cs : list SparseCandidate, cs ≠ [] → dedup_candidates [] (sort_by candidate_leb cs) ≠ []).
  { intros cs Hcs. destruct (sort_by candidate_leb cs) as [|c cs'] eqn:E; [|done].
    apply (f_equal length) in E. rewrite length_sort_by in E. by destruct cs. }
  intros Hnil%fmap_nil_inv. revert Hnil. apply Hdedup.
  destruct (collect_sparse_candidates _ _ _) eqn:E; [|done].
  intros Hnil%fmap_nil_inv. unfold contiguous_trigrams, MIN_GRAM_BYTES in Hnil. rewrite Hn in Hnil.
  rewrite (proj2 (Nat.ltb_ge _ _)) in Hnil by lia.
  assert ((0, slice 0 (0 + 3) (normalize_for_index l)) ∈ contiguous_grams 3 (normalize_for_index l)) as Hin.
  { apply elem_of_contiguous_grams; [lia|]. rewrite Hn. split; [lia|done]. }
  rewrite Hnil in Hin. by apply elem_of_nil in Hin.
Qed.

(** A literal can be looked up exactly when it has two bytes. *)
Lemma unusable_literal_spec blake3 PAIR_WEIGHTS l :
  unusable_literal blake3 PAIR_WEIGHTS l = (length l <? 2).
Proof.
  unfold unusable_literal, is_poisonous_literal, SHORT_GRAM_BYTES. destruct (length l <? 2) eqn:E; [done|]. reflect_bool.
  rewrite bool_decide_false; [done|]. by apply covering_nonempty.
Qed.

(** ** A literal extractor that satisfies the laws *)

Definition demo_literal (h : Hir () ()) : option (list Z) :=
  match h with HirLiteral b => Some b | _ => None end.

Definition demo_extract (kind : ExtractKind) (h : Hir () ()) : option (list (list Z)) :=
  match h with
  | HirLiteral b => Some [b]
  | HirAlternation subs => mapM demo_literal subs
  | _ => None
  end.

#[export] Instance demo_extractor : LiteralExtractor (Hir () ()) (option (list (list Z))) := {|
  extract := demo_extract;
  seq_is_finite seq := bool_decide (is_Some seq);
  seq_is_empty seq := bool_decide (seq = Some []);
  minimize_by_preference seq := seq;
  keep_first_bytes n seq := (λ ls : list (list Z), take n <$> ls) <$> seq;
  keep_last_bytes n seq := (λ ls : list (list Z), (λ l, drop (length l - n) l) <$> ls) <$> seq;
  seq_literals seq := seq;
  longest_common_prefix seq := Some [];
  longest_common_suffix seq := Some []
|}.

Definition demo_class (_ : ()) (s : list Z) : Prop := length s = 1.

Lemma contains_one_map f ls s :
  (∀ l, occurs (f l) l) → contains_one ls s → contains_one (f <$> ls) s.
Proof.
  intros Hf (l & Hl & Hocc). exists (f l). split; [by apply list_elem_of_fmap_2|].
  eapply occurs_trans; [|exact Hocc]. destruct (Hf l) as (p & q & E).
  exists (normalize_for_index p), (normalize_for_index q). by rewrite <- !normalize_app, <- E.
Qed.

#[export] Instance demo_extractor_laws : ExtractorLaws (Seq := option (list (list Z))) demo_class.
Proof.
  split.
  - intros kind h s Hs _ literals Hl. destruct h; try done; cbn in Hl.
    + injection Hl as <-. exists bytes. split; [left|]. cbn in Hs. rewrite Hs. apply occurs_refl.
    + apply mapM_Some in Hl. cbn [hir_lang] in Hs.
      induction Hl as [|h b hs bs Hh _ IH]; [done|]. destruct Hs as [Hs|Hs].
      * exists b. split; [left|]. destruct h; try done. injection Hh as <-. cbn in Hs. rewrite Hs. apply occurs_refl.
      * destruct (IH Hs) as (l & Hl & Hocc). exists l. split; [by right|done].
  - done.
  - intros n [ls|] s Hcov literals [= <-]. apply contains_one_map; [|by apply Hcov].
    intros l. exists [], (drop n l). by rewrite app_nil_l, take_drop.
  - intros n [ls|] s Hcov literals [= <-]. apply contains_one_map; [|by apply Hcov].
    intros l. exists (take (length l - n) l), []. by rewrite app_nil_r, take_drop.
  - intros seq c literals l [= <-] _ _. by exists l.
  - intros seq c literals l [= <-] _ _. exists l. by rewrite app_nil_r.
Qed.

(** ** The plan of a request *)

(** The strings a request searches for. *)
Definition request_match {C L} (class_lang : C → list Z → Prop) (request : SearchRequest) (query : list Z)
    (hir : Hir C L) (s : list Z) : Prop :=
  if fixed_string request then normalize_for_index s = normalize_for_index query else hir_lang class_lang hir s.

Lemma build_search_plan_holds blake3 PAIR_WEIGHTS {C L Seq} `{!LiteralExtractor (Hir C L) Seq}
    (class_lang : C → list Z → Prop) `{!ExtractorLaws class_lang} parse request query plan reason hir s text :
  build_search_plan blake3 PAIR_WEIGHTS parse request query = Some (plan, reason) →
  parse query = Some hir → plannable blake3 PAIR_WEIGHTS class_lang hir →
  request_match class_lang request query hir s →
  occurs (normalize_for_index s) (normalize_for_index text) →
  plan_holds plan (normalize_for_index text).
Proof.
  unfold build_search_plan, request_match. intros Hplan Hparse Hok Hs Ht. destruct (fixed_string request).
  - repeat case_match; simplify_eq; try done. simpl. by rewrite normalize_idemp, <- Hs.
  - rewrite Hparse in Hplan. cbn [mbind option_bind] in Hplan. simplify_eq.
    eapply normalize_plan_holds, plan_from_hir_holds; eauto.
Qed.

(** C23: the planned literals are a necessary condition of a match. For a fixed string,
    and for a pattern whose extracted literals are all long enough to be looked up and
    whose repeated parts are planned exactly, a document with a match (up to ASCII case)
    satisfies the plan, given the documented behaviour of the literal extractor. *)
Theorem build_search_plan_sound blake3 PAIR_WEIGHTS {C L Seq} `{!LiteralExtractor (Hir C L) Seq}
    (class_lang : C → list Z → Prop) `{!ExtractorLaws class_lang} parse request query plan reason hir s text :
  build_search_plan blake3 PAIR_WEIGHTS parse request query = Some (plan, reason) →
  parse query = Some hir → plannable blake3 PAIR_WEIGHTS class_lang hir →
  request_match class_lang request query hir s →
  occurs (normalize_for_index s) (normalize_for_index text) →
  plan_holds plan (normalize_for_index text).
Proof. intros. by eapply build_search_plan_holds. Qed.

Lemma build_search_plan_sound_witness :
  let digest (l : list Z) := l in
  let hir := HirConcat [HirAlternation [HirLiteral [102; 111]%Z; HirLiteral [98; 97]%Z]; HirClass ()] in
  let text := [32; 66; 65; 49; 32]%Z in
  plan_holds (plan_from_hir digest (λ n, n) hir) (normalize_for_index text).
Proof.
  intros digest hir text.
  apply (build_search_plan_sound digest (λ n, n) demo_class (λ _, Some hir) (mkSearchRequest false None) []
    (plan_from_hir digest (λ n, n) hir) None hir [98; 97; 49]%Z text).
  - vm_compute. reflexivity.
  - reflexivity.
  - split; [|intros kind literals l H; destruct kind; discriminate H].
    repeat split. intros kind literals l H Hl. destruct kind; vm_compute in H; injection H as <-;
      repeat (apply elem_of_cons in Hl as [->|Hl]; [vm_compute; reflexivity|]); by apply elem_of_nil in Hl.
  - exists [98; 97]%Z, [49]%Z. split; [reflexivity|]. split; [right; left; reflexivity|].
    exists [49]%Z, []. split; [reflexivity|]. split; reflexivity.
  - exists [32]%Z, [32]%Z. reflexivity.
Defined.

(** ** Where the planner requires too much *)

Lemma combine_plans_literal l b t :
  plan_holds (combine_plans (PlanLiteral l) b) t → occurs (normalize_for_index l) t.
Proof.
  assert (Hand : plan_holds (normalize_and [PlanLiteral l; b]) t → occurs (normalize_for_index l) t).
  { change (normalize_and [PlanLiteral l; b]) with (and_result (push_and [PlanLiteral l] (normalize_plan b))).
    assert (Hin : PlanLiteral l ∈ push_and [PlanLiteral l] (normalize_plan b)).
    { destruct (normalize_plan b); cbn [push_and]; try case_match; set_solver. }
    intros H. destruct (push_and _ _) as [|x [|y acc]]; [by apply elem_of_nil in Hin| |].
    - by apply list_elem_of_singleton in Hin as <-.
    - apply plan_holds_and in H. rewrite Forall_forall in H. by apply (H _ Hin). }
  unfold combine_plans. destruct b; [done|..]; by case_match; auto.
Qed.

(** A defect of the planner. The plan of a repeated part is its literal repeated,
    although the literal need not be all that the part matches, so the plan of the
    pattern (\dpx){2} rejects the matching text 1px2px. *)
Theorem repetition_plan_misses_match blake3 PAIR_WEIGHTS {C L Seq} `{!LiteralExtractor (Hir C L) Seq}
    (class_lang : C → list Z → Prop) (digit : C) :
  let sub := HirConcat [HirClass digit; HirLiteral [112; 120]%Z] in
  let twice := HirRepetition 2 (Some 2%Z) sub in
  let text := [49; 112; 120; 50; 112; 120]%Z in
  plan_from_hir blake3 PAIR_WEIGHTS sub = PlanLiteral [112; 120]%Z →
  class_lang digit [49]%Z → class_lang digit [50]%Z →
  hir_lang class_lang twice text ∧
  ¬ plan_holds (plan_from_hir blake3 PAIR_WEIGHTS twice) (normalize_for_index text).
Proof.
  intros sub twice text Hplan H1 H2. split.
  - exists [[49; 112; 120]%Z; [50; 112; 120]%Z]. split_and!; [done|done|intros m [= <-]; done|].
    repeat constructor; [exists [49%Z], [112; 120]%Z|exists [50%Z], [112; 120]%Z];
      (split_and!; [done|done|]); exists [112; 120]%Z, []; done.
  - unfold twice. cbn [plan_from_hir]. fold (plan_from_hir blake3 PAIR_WEIGHTS sub). rewrite Hplan.
    unfold plan_from_repetition, combine_required_plan. cbn [Z.eqb Z.ltb Z.compare].
    unfold literal_plan_from_bytes. rewrite unusable_literal_spec.
    intros (p & q & E)%combine_plans_literal.
    pose proof (f_equal length E) as Hlen. rewrite !length_app in Hlen. change (length (normalize_for_index text)) with 6 in Hlen.
    change (length (normalize_for_index _)) with 4 in Hlen.
    destruct p as [|? [|? [|? p]]]; [discriminate E..|simpl in Hlen; lia].
Qed.

Lemma repetition_plan_misses_match_witness :
  let sub := HirConcat [HirClass (); HirLiteral [112; 120]%Z] in
  ¬ plan_holds (plan_from_hir (λ l, l) (λ n, n) (HirRepetition 2 (Some 2%Z) sub)) [49; 112; 120; 50; 112; 120]%Z.
Proof.
  intros sub.
  destruct (repetition_plan_misses_match (λ l, l) (λ n, n) demo_class ()) as [_ H];
    [vm_compute; reflexivity|reflexivity|reflexivity|exact H].
Defined.

(** A defect of the planner. Literals that are too short to look up are left out of
    the required alternatives, so the plan of the pattern a|xyz is the literal xyz and
    rejects the matching text a. *)
Theorem short_alternative_dropped blake3 PAIR_WEIGHTS {C L Seq} `{!LiteralExtractor (Hir C L) Seq}
    (class_lang : C → list Z → Prop) :
  let hir := HirAlternation [HirLiteral [97]%Z; HirLiteral [120; 121; 122]%Z] in
  (∀ kind, seq_is_finite (extract kind hir) = true ∧ seq_is_empty (extract kind hir) = false ∧
     seq_literals (planned_seq hir kind) = Some [[97]%Z; [120; 121; 122]%Z]) →
  longest_common_prefix (planned_seq hir Prefix) = Some [] → longest_common_suffix (planned_seq hir Suffix) = Some [] →
  hir_lang class_lang hir [97]%Z ∧ plan_from_hir blake3 PAIR_WEIGHTS hir = PlanLiteral [120; 121; 122]%Z ∧
  ¬ plan_holds (plan_from_hir blake3 PAIR_WEIGHTS hir) [97]%Z.
Proof.
  intros hir Hseq Hlcp Hlcs.
  assert (Hkind : ∀ kind, plan_from_extractor blake3 PAIR_WEIGHTS hir kind = PlanLiteral [120; 121; 122]%Z).
  { intros kind. destruct (Hseq kind) as (Hf & He & Hl). unfold plan_from_extractor. rewrite Hf, He. cbn [negb orb].
    fold (planned_seq hir kind). unfold plan_from_literal_seq. rewrite Hl.
    assert (common_literal_from_seq blake3 PAIR_WEIGHTS (planned_seq hir kind) kind = None) as ->.
    { unfold common_literal_from_seq. destruct kind; [rewrite Hlcp|rewrite Hlcs]; cbn [mbind option_bind];
        by rewrite unusable_literal_spec. }
    cbn [usable_literals]. rewrite !unusable_literal_spec. done. }
  assert (Hplan : plan_from_hir blake3 PAIR_WEIGHTS hir = PlanLiteral [120; 121; 122]%Z).
  { unfold hir. cbn [plan_from_hir]. fold hir. unfold combine_required_plan, plan_from_extractors.
    rewrite !Hkind. rewrite !fmap_cons. cbn [plan_from_hir]. unfold literal_plan_from_bytes.
    rewrite !unusable_literal_spec. done. }
  split_and!; [by left|done|]. rewrite Hplan. intros (p & q & E).
  apply (f_equal length) in E. rewrite !length_app in E. simpl in E. lia.
Qed.

Lemma short_alternative_dropped_witness :
  ¬ plan_holds (plan_from_hir (λ l, l) (λ n, n) (HirAlternation [HirLiteral [97]%Z; HirLiteral [120; 121; 122]%Z] : Hir () ())) [97]%Z.
Proof.
  destruct (short_alternative_dropped (λ l, l) (λ n, n) demo_class) as (_ & _ & H); [|reflexivity|reflexivity|exact H].
  intros kind. split; [|split]; destruct kind; vm_compute; reflexivity.
Defined.

