(* ===== verification/Candidates.v ===== *)
(** * Candidates: the files a plan leaves to verify

    Models the evaluation of a plan over a loaded index
    ([src/crates/packet28-search-core/src/query.rs]): the base layer and the
    overlay segments, the choice of covering grams, the intersection and union
    of posting lists with their caches, the cardinality estimates that order
    it, and the pruning by gram positions. *)

From S2P Require Export Layer QueryPlan.

(** ** Data *)

Definition MAX_LITERAL_COVER : nat := 8.
Definition MAX_INDEX_VERIFY_CANDIDATES : Z := 1024.
Definition MAX_INDEX_VERIFY_NUMERATOR : Z := 1.
Definition MAX_INDEX_VERIFY_DENOMINATOR : Z := 2.

Inductive LayerKind : Type := LayerBase | LayerOverlay (generation : Z).

#[export] Instance LayerKind_eq_dec : EqDecision LayerKind.
Proof. solve_decision. Defined.
#[export] Instance LayerKind_countable : Countable LayerKind.
Proof.
  apply (inj_countable' (λ k, match k with LayerBase => None | LayerOverlay g => Some g end)
           (λ o, match o with None => LayerBase | Some g => LayerOverlay g end)).
  by intros [].
Defined.

Record OverlayState : Type := mkOverlayState {
  shadowed_paths : gset string;
  deleted_paths : gset string;
  owners : gmap string Z
}.

Record LoadedOverlaySegment : Type := mkLoadedOverlaySegment {
  os_generation : Z;
  os_layer : LoadedLayer
}.

Record LoadedIndex : Type := mkLoadedIndex {
  li_base : LoadedLayer;
  li_overlays : list LoadedOverlaySegment;
  li_overlay_state : OverlayState
}.

Record LiteralWindow : Type := mkLiteralWindow {
  earliest_bucket : Z;
  latest_bucket : Z
}.

Record QueryCache : Type := mkQueryCache {
  qc_postings : gmap (LayerKind * Z) (option (list PostingEntry));
  literal_candidates : gmap (list Z) (gset string);
  literal_hashes : gmap (list Z) (list Z);
  literal_repeat_requirements : gmap (list Z) (gmap Z bool);
  literal_windows : gmap (string * list Z) (option LiteralWindow)
}.

Definition empty_cache : QueryCache := mkQueryCache ∅ ∅ ∅ ∅ ∅.

(** The counters of [SearchEngineStats] that a lookup changes. *)
Record EngineStats : Type := mkEngineStats {
  index_lookups : Z;
  postings_bytes_read : Z
}.

Definition cache_posting (key : LayerKind * Z) (value : option (list PostingEntry)) (c : QueryCache) : QueryCache :=
  {| qc_postings := <[key := value]> (qc_postings c); literal_candidates := literal_candidates c;
     literal_hashes := literal_hashes c; literal_repeat_requirements := literal_repeat_requirements c;
     literal_windows := literal_windows c |}.

Definition cache_literal (literal : list Z) (paths : gset string) (hashes : list Z) (repeats : gmap Z bool)
    (c : QueryCache) : QueryCache :=
  {| qc_postings := qc_postings c; literal_candidates := <[literal := paths]> (literal_candidates c);
     literal_hashes := <[literal := hashes]> (literal_hashes c);
     literal_repeat_requirements := <[literal := repeats]> (literal_repeat_requirements c);
     literal_windows := literal_windows c |}.

Definition cache_window (key : string * list Z) (window : option LiteralWindow) (c : QueryCache) : QueryCache :=
  {| qc_postings := qc_postings c; literal_candidates := literal_candidates c; literal_hashes := literal_hashes c;
     literal_repeat_requirements := literal_repeat_requirements c;
     literal_windows := <[key := window]> (literal_windows c) |}.

(** ** Which documents of the layers count *)

Definition overlay_doc_is_active (loaded : LoadedIndex) (generation : Z) (path : string) : bool :=
  bool_decide (path ∉ deleted_paths (li_overlay_state loaded))
  && bool_decide (owners (li_overlay_state loaded) !! path = Some generation).

Definition path_allowed (path : string) (requested_filter : option (gset string)) : bool :=
  match requested_filter with
  | None => true
  | Some filters =>
      existsb (λ filter, bool_decide (path = filter) || starts_with (filter +:+ "/") path) (elements filters)
  end.

Definition base_doc_is_active (loaded : LoadedIndex) (path : string) : bool :=
  bool_decide (path ∉ shadowed_paths (li_overlay_state loaded)).

(** The paths of some records that are active and allowed. *)
Definition insert_docs (active : string → bool) (requested_filter : option (gset string)) (docs : list DocRecord)
    (paths : gset string) : gset string :=
  foldl (λ paths doc,
    if active (dr_path doc) && path_allowed (dr_path doc) requested_filter then {[dr_path doc]} ∪ paths else paths)
    paths docs.

Definition all_indexed_paths (loaded : LoadedIndex) (requested_filter : option (gset string)) : gset string :=
  let paths := insert_docs (base_doc_is_active loaded) requested_filter (ly_docs (li_base loaded)) ∅ in
  foldl (λ paths segment,
    insert_docs (overlay_doc_is_active loaded (os_generation segment)) requested_filter (ly_docs (os_layer segment)) paths)
    paths (li_overlays loaded).

(** ** Lookups over all layers *)

Definition lookup_doc_ids_cached (layer : LoadedLayer) (layer_kind : LayerKind) (hash : Z) (cache : QueryCache)
    (engine : EngineStats) : result SearchError (option (list PostingEntry) * QueryCache * EngineStats) :=
  match qc_postings cache !! (layer_kind, hash) with
  | Some cached => Ok (cached, cache, engine)
  | None =>
      let '(value, bytes_read) := lookup_doc_ids layer hash (postings_bytes_read engine) in
      value ← value;
      Ok (value, cache_posting (layer_kind, hash) value cache, mkEngineStats (index_lookups engine) bytes_read)
  end.

(** [docs.get(entry.doc_id)] for every entry. *)
Definition entry_docs (layer : LoadedLayer) (entries : option (list PostingEntry)) : list DocRecord :=
  omap (λ entry, ly_docs layer !! Z.to_nat (doc_id entry)) (default [] entries).

Fixpoint overlay_paths_for_hash (loaded : LoadedIndex) (hash : Z) (requested_filter : option (gset string))
    (segments : list LoadedOverlaySegment) (paths : gset string) (cache : QueryCache) (engine : EngineStats)
    : result SearchError (gset string * QueryCache * EngineStats) :=
  match segments with
  | [] => Ok (paths, cache, engine)
  | segment :: segments =>
      '(entries, cache, engine) ←
        lookup_doc_ids_cached (os_layer segment) (LayerOverlay (os_generation segment)) hash cache engine;
      let paths := insert_docs (overlay_doc_is_active loaded (os_generation segment)) requested_filter
                     (entry_docs (os_layer segment) entries) paths in
      overlay_paths_for_hash loaded hash requested_filter segments paths cache engine
  end.

Definition paths_for_hash (loaded : LoadedIndex) (hash : Z) (requested_filter : option (gset string))
    (cache : QueryCache) (engine : EngineStats) : result SearchError (gset string * QueryCache * EngineStats) :=
  let engine := mkEngineStats (saturating_add u64_max (index_lookups engine) 1) (postings_bytes_read engine) in
  '(entries, cache, engine) ← lookup_doc_ids_cached (li_base loaded) LayerBase hash cache engine;
  let paths := insert_docs (base_doc_is_active loaded) requested_filter (entry_docs (li_base loaded) entries) ∅ in
  overlay_paths_for_hash loaded hash requested_filter (li_overlays loaded) paths cache engine.

(** ** Cardinalities *)

Definition overlay_posting_count (loaded : LoadedIndex) (hash : Z) : Z :=
  foldl (λ count segment, saturating_add u32_max count (default 0%Z (lookup_posting_count (os_layer segment) hash)))
    0%Z (li_overlays loaded).

Definition hash_docs (loaded : LoadedIndex) (hash : Z) : Z :=
  saturating_add u32_max (default 0%Z (lookup_posting_count (li_base loaded) hash)) (overlay_posting_count loaded hash).

(** One [estimate += 1] per entry whose document is active and requested. *)
Definition count_docs (active : string → bool) (filter : gset string) (docs : list DocRecord) (estimate : Z) : Z :=
  foldl (λ estimate doc,
    if active (dr_path doc) && bool_decide (dr_path doc ∈ filter) then saturating_add usize_max estimate 1 else estimate)
    estimate docs.

Definition estimate_hash_cardinality (loaded : LoadedIndex) (hash : Z) (requested_filter : option (gset string))
    (all_path_count : Z) : Z :=
  match requested_filter with
  | Some filter =>
      let estimate := count_docs (base_doc_is_active loaded) filter
        (entry_docs (li_base loaded) (lookup_doc_ids_quiet (li_base loaded) hash)) 0 in
      let estimate := foldl (λ estimate segment,
        count_docs (overlay_doc_is_active loaded (os_generation segment)) filter
          (entry_docs (os_layer segment) (lookup_doc_ids_quiet (os_layer segment) hash)) estimate)
        estimate (li_overlays loaded) in
      Z.min estimate all_path_count
  | None => hash_docs loaded hash
  end.

Definition min_list (d : Z) (l : list Z) : Z := default d (min_by Z.leb l).

(** ** Slots of a literal *)

(** [covered.iter().skip(start).take(end - start).any(|slot| !slot)]. *)
Definition adds_new_coverage (covered : list bool) (c : SparseCandidate) : bool :=
  existsb negb (take (sc_end c - sc_start c) (drop (sc_start c) covered)).

(** [covered.iter_mut().take(end.min(len)).skip(start)] set to [true]. *)
Definition mark_covered (covered : list bool) (c : SparseCandidate) : list bool :=
  imap (λ idx slot, if (sc_start c <=? idx)%nat && (idx <? Nat.min (sc_end c) (length covered))%nat then true else slot)
    covered.

Section Query.
Context (blake3 : list Z → list Z) (PAIR_WEIGHTS : Z → Z).

(** The comparison of [select_covering_candidates]: fewer documents first,
    then longer grams, then higher scores, then hashes. *)
Definition covering_leb (loaded : LoadedIndex) (left right : SparseCandidate) : bool :=
  let left_docs := hash_docs loaded (sc_hash left) in
  let right_docs := hash_docs loaded (sc_hash right) in
  let left_len := (sc_end left - sc_start left)%nat in
  let right_len := (sc_end right - sc_start right)%nat in
  if negb (left_docs =? right_docs)%Z then (left_docs <? right_docs)%Z
  else if negb (left_len =? right_len)%nat then (right_len <? left_len)%nat
  else if negb (sc_score left =? sc_score right)%Z then (sc_score right <? sc_score left)%Z
  else (sc_hash left <=? sc_hash right)%Z.

Fixpoint select_loop (candidates selected : list SparseCandidate) (seen : gset Z) (covered : list bool)
    : list SparseCandidate :=
  match candidates with
  | [] => selected
  | candidate :: candidates =>
      if bool_decide (sc_hash candidate ∈ seen) then select_loop candidates selected seen covered
      else
        let seen := {[sc_hash candidate]} ∪ seen in
        let take_it := adds_new_coverage covered candidate || (length selected <? SHORT_GRAM_BYTES)%nat in
        let covered := if take_it then mark_covered covered candidate else covered in
        let selected := if take_it then selected ++ [candidate] else selected in
        if (MAX_LITERAL_COVER <=? length selected)%nat && forallb (λ slot, slot) covered then selected
        else select_loop candidates selected seen covered
  end.

Definition select_covering_candidates (loaded : LoadedIndex) (literal : list Z) : list SparseCandidate :=
  select_loop (sort_by (covering_leb loaded) (build_covering_candidates blake3 PAIR_WEIGHTS literal))
    [] ∅ (replicate (length literal) false).

Fixpoint estimate_plan_cardinality (loaded : LoadedIndex) (plan : SearchPlan) (requested_filter : option (gset string))
    (all_path_count : Z) : Z :=
  match plan with
  | PlanAll => all_path_count
  | PlanLiteral literal =>
      match sc_hash <$> select_covering_candidates loaded literal with
      | [] => all_path_count
      | hashes =>
          min_list all_path_count
            ((λ hash, estimate_hash_cardinality loaded hash requested_filter all_path_count) <$> hashes)
      end
  | PlanAnd children =>
      min_list all_path_count
        ((λ child, estimate_plan_cardinality loaded child requested_filter all_path_count) <$> children)
  | PlanOr children =>
      Z.min (wrapping_sum usize_max
        ((λ child, estimate_plan_cardinality loaded child requested_filter all_path_count) <$> children)) all_path_count
  end.

Definition should_fallback_to_rg (candidate_count all_path_count : Z) : bool :=
  if (candidate_count =? 0)%Z then true
  else if (all_path_count =? 0)%Z then false
  else
    (MAX_INDEX_VERIFY_CANDIDATES <? candidate_count)%Z
    || (saturating_mul usize_max all_path_count MAX_INDEX_VERIFY_NUMERATOR <?
        saturating_mul usize_max candidate_count MAX_INDEX_VERIFY_DENOMINATOR)%Z.

Definition should_stop_literal_refinement (candidate_count all_path_count : Z) (covered_all : bool)
    (selected_count : nat) (materially_reduced : bool) : bool :=
  if (candidate_count =? 0)%Z || (MAX_LITERAL_COVER <=? selected_count)%nat then true
  else if negb covered_all then false
  else if negb materially_reduced && (3 <=? selected_count)%nat then true
  else
    (candidate_count <=? 8)%Z
    || (saturating_mul usize_max candidate_count 8 <=? all_path_count)%Z
    || (4 <=? selected_count)%nat.

(** The loop over the candidates of a literal: the paths so far, the hashes
    used and the state. *)
Fixpoint refine_literal (loaded : LoadedIndex) (requested_filter : option (gset string)) (all_path_count : Z)
    (candidates : list SparseCandidate) (literal_paths : option (gset string)) (selected_hashes : list Z)
    (covered : list bool) (previous_size : Z) (cache : QueryCache) (engine : EngineStats)
    : result SearchError (option (gset string) * list Z * QueryCache * EngineStats) :=
  match candidates with
  | [] => Ok (literal_paths, selected_hashes, cache, engine)
  | candidate :: candidates =>
      '(current, cache, engine) ← paths_for_hash loaded (sc_hash candidate) requested_filter cache engine;
      let paths := match literal_paths with Some existing => existing ∩ current | None => current end in
      let selected_hashes := selected_hashes ++ [sc_hash candidate] in
      let covered := mark_covered covered candidate in
      let covered_all := forallb (λ slot, slot) covered in
      let current_size := Z.of_nat (size paths) in
      let materially_reduced :=
        (saturating_mul usize_max current_size 10 <? saturating_mul usize_max previous_size 9)%Z in
      if should_stop_literal_refinement current_size all_path_count covered_all (length selected_hashes) materially_reduced
      then Ok (Some paths, selected_hashes, cache, engine)
      else refine_literal loaded requested_filter all_path_count candidates (Some paths) selected_hashes covered
             (Z.max current_size 1) cache engine
  end.

Definition literal_paths (loaded : LoadedIndex) (literal : list Z) (requested_filter : option (gset string))
    (all_paths : gset string) (cache : QueryCache) (engine : EngineStats)
    : result SearchError (gset string * QueryCache * EngineStats) :=
  match literal_candidates cache !! literal with
  | Some cached => Ok (cached, cache, engine)
  | None =>
      match select_covering_candidates loaded literal with
      | [] => Ok (all_paths, cache, engine)
      | candidates =>
          '(paths, selected_hashes, cache, engine) ←
            refine_literal loaded requested_filter (Z.of_nat (size all_paths)) candidates None []
              (replicate (length literal) false) (Z.of_nat (size all_paths)) cache engine;
          let resolved := default all_paths paths in
          Ok (resolved,
              cache_literal literal resolved selected_hashes (repeat_requirements_for_literal blake3 literal) cache,
              engine)
      end
  end.

(** What evaluating a plan does to the state. *)
Definition Evaluation : Type := QueryCache → EngineStats → result SearchError (gset string * QueryCache * EngineStats).

(** The loop of [SearchPlan::And] over the children in the order of their
    estimates. *)
Fixpoint intersect_all (current : option (gset string)) (children : list Evaluation) (cache : QueryCache)
    (engine : EngineStats) : result SearchError (option (gset string) * QueryCache * EngineStats) :=
  match children with
  | [] => Ok (current, cache, engine)
  | child :: children =>
      '(child_paths, cache, engine) ← child cache engine;
      let current := match current with Some existing => existing ∩ child_paths | None => child_paths end in
      intersect_all (Some current) children cache engine
  end.

Fixpoint union_all (union_ : gset string) (children : list Evaluation) (cache : QueryCache) (engine : EngineStats)
    : result SearchError (gset string * QueryCache * EngineStats) :=
  match children with
  | [] => Ok (union_, cache, engine)
  | child :: children =>
      '(child_paths, cache, engine) ← child cache engine;
      union_all (union_ ∪ child_paths) children cache engine
  end.

Fixpoint candidate_paths_for_plan (loaded : LoadedIndex) (plan : SearchPlan) (requested_filter : option (gset string))
    (all_paths : gset string) (cache : QueryCache) (engine : EngineStats)
    : result SearchError (gset string * QueryCache * EngineStats) :=
  match plan with
  | PlanAll => Ok (all_paths, cache, engine)
  | PlanLiteral literal => literal_paths loaded literal requested_filter all_paths cache engine
  | PlanAnd children =>
      let ordered := sort_by (λ a b : Z * Evaluation, (a.1 <=? b.1)%Z)
        ((λ child, (estimate_plan_cardinality loaded child requested_filter (Z.of_nat (size all_paths)),
                    candidate_paths_for_plan loaded child requested_filter all_paths)) <$> children) in
      '(current, cache, engine) ← intersect_all None (ordered.*2) cache engine;
      Ok (default all_paths current, cache, engine)
  | PlanOr children =>
      union_all ∅ ((λ child, candidate_paths_for_plan loaded child requested_filter all_paths) <$> children) cache engine
  end.

(** ** Pruning by positions *)

Definition lookup_posting_entry (layer : LoadedLayer) (layer_kind : LayerKind) (hash id : Z) (cache : QueryCache)
    : option PostingEntry * QueryCache :=
  let entries := default (lookup_doc_ids_quiet layer hash) (qc_postings cache !! (layer_kind, hash)) in
  let cache := match qc_postings cache !! (layer_kind, hash) with
               | Some _ => cache
               | None => cache_posting (layer_kind, hash) entries cache
               end in
  (entries ← entries; list_find (λ entry, doc_id entry = id) entries ≫= λ found, Some found.2, cache).

Definition lookup_summary_for_path (loaded : LoadedIndex) (hash : Z) (path : string) (cache : QueryCache)
    : option PositionSummary * QueryCache :=
  let state := li_overlay_state loaded in
  if bool_decide (path ∈ deleted_paths state) then (None, cache)
  else
    match owners state !! path with
    | Some owner =>
        match list_find (λ segment, os_generation segment = owner) (li_overlays loaded) with
        | None => (None, cache)
        | Some (_, segment) =>
            match ly_doc_ids_by_path (os_layer segment) !! path with
            | None => (None, cache)
            | Some id =>
                let '(entry, cache) := lookup_posting_entry (os_layer segment) (LayerOverlay owner) hash id cache in
                (summary <$> entry, cache)
            end
        end
    | None =>
        if bool_decide (path ∈ shadowed_paths state) then (None, cache)
        else
          match ly_doc_ids_by_path (li_base loaded) !! path with
          | None => (None, cache)
          | Some id =>
              let '(entry, cache) := lookup_posting_entry (li_base loaded) LayerBase hash id cache in
              (summary <$> entry, cache)
          end
    end.

(** The accumulators of the loop over the hashes of a literal. *)
Record WindowBounds : Type := mkWindowBounds {
  overlap_earliest : Z;
  overlap_latest : Z;
  union_earliest : Z;
  union_latest : Z
}.

(** The loop: [Ok None] when it runs to its end without the early returns;
    [Err cached] when it returns [None], and whether it caches that. *)
Fixpoint window_loop (loaded : LoadedIndex) (path : string) (repeats : gmap Z bool) (hashes : list Z)
    (b : WindowBounds) (cache : QueryCache) : result bool WindowBounds * QueryCache :=
  match hashes with
  | [] => (Ok b, cache)
  | hash :: hashes =>
      let '(summary, cache) := lookup_summary_for_path loaded hash path cache in
      match summary with
      | None => (Err false, cache)
      | Some summary =>
          if default false (repeats !! hash) && negb (repeated summary) then (Err true, cache)
          else
            window_loop loaded path repeats hashes
              {| overlap_earliest := Z.max (overlap_earliest b) (PositionSummary.first_bucket summary);
                 overlap_latest := Z.min (overlap_latest b) (PositionSummary.last_bucket summary);
                 union_earliest := Z.min (union_earliest b) (PositionSummary.first_bucket summary);
                 union_latest := Z.max (union_latest b) (PositionSummary.last_bucket summary) |} cache
      end
  end.

Definition literal_window_for_path (loaded : LoadedIndex) (path : string) (literal : list Z) (cache : QueryCache)
    : option LiteralWindow * QueryCache :=
  match literal_windows cache !! (path, literal) with
  | Some cached => (cached, cache)
  | None =>
      let hashes := default (sc_hash <$> select_covering_candidates loaded literal) (literal_hashes cache !! literal) in
      let repeats := default (repeat_requirements_for_literal blake3 literal)
                       (literal_repeat_requirements cache !! literal) in
      match hashes with
      | [] => (None, cache_window (path, literal) None cache)
      | _ =>
          match window_loop loaded path repeats hashes
                  (mkWindowBounds 0 (saturating_sub POSITION_BUCKET_COUNT 1) u8_max 0) cache with
          | (Err cached, cache) => (None, if cached : bool then cache_window (path, literal) None cache else cache)
          | (Ok b, cache) =>
              let window :=
                if (overlap_earliest b <=? overlap_latest b)%Z
                then mkLiteralWindow (overlap_earliest b) (overlap_latest b)
                else mkLiteralWindow (union_earliest b) (union_latest b) in
              (Some window, cache_window (path, literal) (Some window) cache)
          end
      end
  end.

(** What computing the window of a plan does to the cache. *)
Definition WindowEval : Type := QueryCache → option LiteralWindow * QueryCache.

(** The loop of [SearchPlan::Or]: the union of the windows there are. *)
Fixpoint or_windows (acc : option LiteralWindow) (children : list WindowEval) (cache : QueryCache)
    : option LiteralWindow * QueryCache :=
  match children with
  | [] => (acc, cache)
  | child :: children =>
      let '(window, cache) := child cache in
      match window with
      | None => or_windows acc children cache
      | Some window =>
          let acc := default (mkLiteralWindow u8_max 0) acc in
          or_windows
            (Some (mkLiteralWindow (Z.min (earliest_bucket acc) (earliest_bucket window))
                     (Z.max (latest_bucket acc) (latest_bucket window)))) children cache
      end
  end.

(** The loop of [SearchPlan::And]: no window as soon as a child has none, or
    ends before the earlier children begin. *)
Fixpoint and_windows (current : option LiteralWindow) (children : list WindowEval) (cache : QueryCache)
    : option LiteralWindow * QueryCache :=
  match children with
  | [] => (current, cache)
  | child :: children =>
      let '(window, cache) := child cache in
      match window with
      | None => (None, cache)
      | Some child_window =>
          match current with
          | None => and_windows (Some child_window) children cache
          | Some existing =>
              if (latest_bucket child_window <? earliest_bucket existing)%Z then (None, cache)
              else
                and_windows
                  (Some (mkLiteralWindow (Z.min (earliest_bucket existing) (earliest_bucket child_window))
                           (Z.max (latest_bucket existing) (latest_bucket child_window)))) children cache
          end
      end
  end.

Fixpoint plan_window_for_path (loaded : LoadedIndex) (path : string) (plan : SearchPlan) (cache : QueryCache)
    : option LiteralWindow * QueryCache :=
  match plan with
  | PlanAll => (Some (mkLiteralWindow 0 (saturating_sub POSITION_BUCKET_COUNT 1)), cache)
  | PlanLiteral literal => literal_window_for_path loaded path literal cache
  | PlanOr children => or_windows None (plan_window_for_path loaded path <$> children) cache
  | PlanAnd children => and_windows None (plan_window_for_path loaded path <$> children) cache
  end.

(** The filter over the ordered set of candidates, which threads the cache. *)
Definition prune_candidates_with_positions (loaded : LoadedIndex) (plan : SearchPlan) (candidates : gset string)
    (cache : QueryCache) : gset string * QueryCache :=
  foldl (λ '(kept, cache) path,
    let '(window, cache) := plan_window_for_path loaded path plan cache in
    (match window with Some _ => {[path]} ∪ kept | None => kept end, cache))
    (∅, cache) (sort_by str_leb (elements candidates)).

(** The candidates of a search over the loaded index, before and after the
    pruning, from an empty cache. *)
Definition search_candidates (loaded : LoadedIndex) (plan : SearchPlan) (requested_filter : option (gset string))
    (engine : EngineStats) : result SearchError (gset string * gset string) :=
  let all_paths := all_indexed_paths loaded requested_filter in
  '(candidate_paths, cache, _) ← candidate_paths_for_plan loaded plan requested_filter all_paths empty_cache engine;
  Ok (candidate_paths, (prune_candidates_with_positions loaded plan candidate_paths cache).1).
End Query.
