(* ===== verification/CandidatesSpec.v ===== *)
(** * CandidatesSpec: evaluating a plan never loses a document

    Over an index whose layers answer for their documents, the candidates of
    a plan hold every active document that satisfies the plan, whatever the
    caches, the estimates and the early stops of the refinement; and the
    pruning by positions keeps them for plans without conjunctions. *)

From S2P Require Export LayerSpec QueryPlanSpec Candidates.

(** ** The index and its documents *)

(** A layer built over some documents. *)
Definition layer_over (layer : LoadedLayer) (docs : list IndexedDocument) : Prop :=
  docs_ok docs ∧ layer_answers layer docs.

Definition segment_over (segment : LoadedOverlaySegment) (docs : list IndexedDocument) : Prop :=
  layer_over (os_layer segment) docs.

(** What the loader of a generation checks: the segments' generations are
    distinct, and every owned or deleted path is shadowed. *)
Record index_over (loaded : LoadedIndex) (base : list IndexedDocument) (overlays : list (list IndexedDocument)) : Prop := {
  io_base : layer_over (li_base loaded) base;
  io_overlays : Forall2 segment_over (li_overlays loaded) overlays;
  io_generations : NoDup (os_generation <$> li_overlays loaded);
  io_shadowed : ∀ path, path ∉ shadowed_paths (li_overlay_state loaded) →
    path ∉ deleted_paths (li_overlay_state loaded) ∧ owners (li_overlay_state loaded) !! path = None
}.

Definition answer (docs : list IndexedDocument) (hash : Z) : option (list PostingEntry) :=
  if decide (posting_list docs hash = []) then None else Some (posting_list docs hash).

Lemma lookup_answer layer docs hash read :
  layer_over layer docs → fst (lookup_doc_ids layer hash read) = Ok (answer docs hash).
Proof. intros [_ (_ & _ & Hans)]. apply (Hans hash). Qed.

Lemma default_answer docs hash : default [] (answer docs hash) = posting_list docs hash.
Proof. unfold answer. case_decide as E; [by rewrite E|done]. Qed.

Lemma quiet_answer layer docs hash : layer_over layer docs → lookup_doc_ids_quiet layer hash = answer docs hash.
Proof.
  intros Hl. pose proof (lookup_answer layer docs hash 0 Hl) as Ha. revert Ha.
  unfold lookup_doc_ids, lookup_doc_ids_quiet.
  destruct (ly_lookup layer) as [lookup|]; [|cbn; by intros [= <-]]. cbn [mbind option_bind].
  destruct (ly_postings layer) as [postings|]; [|cbn; by intros [= <-]].
  destruct (lookup_posting_range lookup hash) as [meta|]; [|cbn; by intros [= <-]]. cbn [mbind option_bind].
  destruct (checked_posting_bounds _ _ _) as [[start end_]|]; [|done].
  destruct (decode_postings _) as [es|]; [|done]. cbn. congruence.
Qed.

(** The record of an entry is the record of its document. *)
Lemma elem_of_entry_docs layer docs hash d s :
  layer_over layer docs → d ∈ docs → mkPostingEntry (id_doc_id d) s ∈ posting_list docs hash →
  doc_record d ∈ entry_docs layer (answer docs hash).
Proof.
  intros [Hok (Hdocs & _ & _)] Hd He. unfold entry_docs. rewrite default_answer. apply list_elem_of_omap.
  exists (mkPostingEntry (id_doc_id d) s). split; [done|]. cbn [doc_id].
  apply list_elem_of_lookup in Hd as [i Hi]. rewrite (do_ids _ Hok i d Hi), Nat2Z.id, Hdocs, list_lookup_fmap, Hi. done.
Qed.

Lemma doc_id_of_path layer docs d :
  layer_over layer docs → d ∈ docs → ly_doc_ids_by_path layer !! id_path d = Some (id_doc_id d).
Proof.
  intros [Hok (_ & Hmap & _)] Hd. rewrite Hmap. pose proof (do_paths _ Hok) as Hnd. clear Hmap Hok.
  assert (Hother : ∀ ds (m : gmap string Z), id_path d ∉ (id_path <$> ds) →
    foldl (λ m doc, <[dr_path doc := dr_doc_id doc]> m) m (doc_record <$> ds) !! id_path d = m !! id_path d).
  { induction ds as [|d0 ds IH]; intros m Hnot; [done|]. rewrite fmap_cons in Hnot. rewrite fmap_cons.
    apply not_elem_of_cons in Hnot as [Hne Hnot]. cbn [foldl]. rewrite IH by done. by rewrite lookup_insert_ne. }
  generalize (∅ : gmap string Z). induction docs as [|d0 docs IH]; intros m; [by apply elem_of_nil in Hd|].
  rewrite fmap_cons in Hnd. rewrite fmap_cons. apply NoDup_cons in Hnd as [Hnot Hnd]. cbn [foldl].
  apply elem_of_cons in Hd as [->|Hd]; [|by apply IH]. rewrite Hother by done. apply lookup_insert_eq.
Qed.

(** ** Active documents *)

Section Sound.
Context (blake3 : list Z → list Z) (PAIR_WEIGHTS : Z → Z).
Context (loaded : LoadedIndex) (base : list IndexedDocument) (overlays : list (list IndexedDocument)).
Context (Hindex : index_over loaded base overlays).
Local Abbreviation covering := (build_covering_candidates blake3 PAIR_WEIGHTS).

(** The document [d], indexed from [text], is the one the index shows. *)
Inductive active_doc (d : IndexedDocument) : Prop :=
| active_base : d ∈ base → base_doc_is_active loaded (id_path d) = true → active_doc d
| active_overlay i segment docs :
    li_overlays loaded !! i = Some segment → overlays !! i = Some docs → d ∈ docs →
    overlay_doc_is_active loaded (os_generation segment) (id_path d) = true → active_doc d.

Definition indexed (path : string) (text : list Z) : Prop :=
  ∃ d, active_doc d ∧ id_path d = path ∧ id_grams d = build_indexed_grams blake3 PAIR_WEIGHTS text.

(** An active document of the path has an entry for the hash. *)
Inductive hit (path : string) (hash : Z) : Prop :=
| hit_base d s : d ∈ base → id_path d = path → base_doc_is_active loaded path = true →
    mkPostingEntry (id_doc_id d) s ∈ posting_list base hash → hit path hash
| hit_overlay i segment docs d s :
    li_overlays loaded !! i = Some segment → overlays !! i = Some docs → d ∈ docs → id_path d = path →
    overlay_doc_is_active loaded (os_generation segment) path = true →
    mkPostingEntry (id_doc_id d) s ∈ posting_list docs hash → hit path hash.

Lemma indexed_hit path text literal c :
  indexed path text → occurs (normalize_for_index literal) (normalize_for_index text) → c ∈ covering literal →
  hit path (sc_hash c).
Proof using Type.
  intros (d & Hact & <- & Hgrams) (p & q & Hocc) Hc. destruct Hact as [Hd Ha|i segment docs Hi Hdocs Hd Ha].
  - destruct (doc_posting _ _ base d text literal p q c Hd Hgrams Hocc Hc) as (s & Hs & _). by eapply hit_base.
  - destruct (doc_posting _ _ docs d text literal p q c Hd Hgrams Hocc Hc) as (s & Hs & _). by eapply hit_overlay.
Qed.

(** *** Inserting documents *)

Lemma elem_of_insert_docs active filter docs paths path :
  path ∈ insert_docs active filter docs paths ↔
  path ∈ paths ∨ ∃ doc, doc ∈ docs ∧ dr_path doc = path ∧ active path = true ∧ path_allowed path filter = true.
Proof using Type.
  unfold insert_docs. revert paths. induction docs as [|doc docs IH]; intros paths; cbn [foldl].
  { split; [by left|]. intros [?|(doc & ?%elem_of_nil & _)]; done. }
  rewrite IH. split.
  - intros [Hp|(doc' & Hd & H)]; [|right; exists doc'; split; [by right|done]].
    destruct (_ && _) eqn:E; [|by left]. apply andb_true_iff in E as [? ?].
    apply elem_of_union in Hp as [->%elem_of_singleton|Hp]; [right; exists doc|by left].
    split; [by left|done].
  - intros [Hp|(doc' & [->|Hd]%elem_of_cons & <- & Ha & Hf)].
    + left. destruct (_ && _); [|done]. by apply elem_of_union_r.
    + left. rewrite Ha, Hf. cbn [andb]. apply elem_of_union_l, elem_of_singleton. done.
    + right. by exists doc'.
Qed.

(** *** The cache of posting lists *)

Inductive kind_docs : LayerKind → list IndexedDocument → Prop :=
| kind_base : kind_docs LayerBase base
| kind_overlay i segment docs :
    li_overlays loaded !! i = Some segment → overlays !! i = Some docs →
    kind_docs (LayerOverlay (os_generation segment)) docs.

Lemma kind_docs_unique kind docs docs' : kind_docs kind docs → kind_docs kind docs' → docs = docs'.
Proof using Hindex.
  intros [|i segment ? Hi Hd] H'; inversion H' as [|i' segment' ? Hi' Hd' Heq]; subst; [done|].
  assert (i = i') as ->; [|congruence].
  eapply (NoDup_lookup (os_generation <$> li_overlays loaded)); [apply Hindex| |];
    rewrite list_lookup_fmap, ?Hi, ?Hi'; [done|]. simpl. congruence.
Qed.

Definition postings_ok (c : QueryCache) : Prop :=
  ∀ kind hash v docs, qc_postings c !! (kind, hash) = Some v → kind_docs kind docs → v = answer docs hash.

(** The fields other than the posting lists are the same. *)
Definition same_literals (c c' : QueryCache) : Prop :=
  literal_candidates c' = literal_candidates c ∧ literal_hashes c' = literal_hashes c ∧
  literal_repeat_requirements c' = literal_repeat_requirements c ∧ literal_windows c' = literal_windows c.

#[local] Instance same_literals_preorder : PreOrder same_literals.
Proof using Type. unfold same_literals. split; [done|]. intros c1 c2 c3. intros (-> & -> & -> & ->) (-> & -> & -> & ->). done. Qed.

Lemma cache_posting_ok kind hash docs c :
  postings_ok c → kind_docs kind docs →
  postings_ok (cache_posting (kind, hash) (answer docs hash) c) ∧
  same_literals c (cache_posting (kind, hash) (answer docs hash) c).
Proof using Hindex.
  intros Hok Hkind. split; [|done]. intros kind' hash' v docs'. simpl.
  destruct (decide ((kind, hash) = (kind', hash'))) as [[= <- <-]|Hne].
  - rewrite lookup_insert_eq. intros [= <-] Hk'. by rewrite (kind_docs_unique _ _ _ Hk' Hkind).
  - rewrite lookup_insert_ne by done. apply Hok.
Qed.

Lemma lookup_cached_spec layer kind docs hash c e :
  layer_over layer docs → kind_docs kind docs → postings_ok c →
  ∃ c' e', lookup_doc_ids_cached layer kind hash c e = Ok (answer docs hash, c', e') ∧
    postings_ok c' ∧ same_literals c c'.
Proof using Hindex.
  intros Hl Hk Hok. unfold lookup_doc_ids_cached. destruct (qc_postings c !! (kind, hash)) as [v|] eqn:E.
  - rewrite (Hok _ _ _ _ E Hk). exists c, e. split_and!; [done|done|reflexivity].
  - pose proof (lookup_answer layer docs hash (Candidates.postings_bytes_read e) Hl) as Ha.
    destruct (lookup_doc_ids _ _ _) as [value read]. simpl in Ha. subst value. cbn [mbind result_bind].
    destruct (cache_posting_ok kind hash docs c Hok Hk). by do 2 eexists.
Qed.

Lemma overlay_at i segment :
  li_overlays loaded !! i = Some segment → ∃ docs, overlays !! i = Some docs ∧ layer_over (os_layer segment) docs.
Proof using Hindex. intros Hi. pose proof (Forall2_lookup_l _ _ _ _ _ (io_overlays _ _ _ Hindex) Hi). done. Qed.

Lemma overlay_paths_spec filter hash pre segments paths c e :
  li_overlays loaded = pre ++ segments → postings_ok c →
  ∃ paths' c' e', overlay_paths_for_hash loaded hash filter segments paths c e = Ok (paths', c', e') ∧
    postings_ok c' ∧ same_literals c c' ∧ paths ⊆ paths' ∧
    ∀ i segment docs d s, length pre ≤ i → li_overlays loaded !! i = Some segment → overlays !! i = Some docs → d ∈ docs →
      overlay_doc_is_active loaded (os_generation segment) (id_path d) = true → path_allowed (id_path d) filter = true →
      mkPostingEntry (id_doc_id d) s ∈ posting_list docs hash → id_path d ∈ paths'.
Proof using Hindex.
  revert pre paths c e. induction segments as [|segment segments IH]; intros pre paths c e Heq Hok; cbn [overlay_paths_for_hash].
  { exists paths, c, e. split_and!; [done|done|reflexivity|done|]. intros i segment docs d s Hi Hseg.
    rewrite Heq, app_nil_r in Hseg. apply lookup_lt_Some in Hseg. lia. }
  assert (Hseg : li_overlays loaded !! length pre = Some segment) by (rewrite Heq; by apply list_lookup_middle).
  destruct (overlay_at _ _ Hseg) as (docs & Hdocs & Hl).
  destruct (lookup_cached_spec (os_layer segment) _ docs hash c e Hl (kind_overlay _ _ _ Hseg Hdocs) Hok) as (c1 & e1 & -> & Hok1 & Hs1).
  cbn [mbind result_bind].
  destruct (IH (pre ++ [segment]) (insert_docs (overlay_doc_is_active loaded (os_generation segment)) filter
    (entry_docs (os_layer segment) (answer docs hash)) paths) c1 e1) as (paths' & c2 & e2 & -> & Hok2 & Hs2 & Hsub & Hrest);
    [by rewrite <- app_assoc|done|].
  exists paths', c2, e2. split_and!; [done|done|by etrans| |].
  - intros x Hx. apply Hsub, elem_of_insert_docs. by left.
  - intros i segment' docs' d s Hi Hseg' Hdocs' Hd Ha Hf He.
    destruct (decide (i = length pre)) as [->|Hne].
    + simplify_eq. apply Hsub, elem_of_insert_docs. right. exists (doc_record d).
      split_and!; [by eapply elem_of_entry_docs|done|done|done].
    + apply (Hrest i segment' docs' d s); [rewrite length_app; simpl; lia|done..].
Qed.

Lemma paths_for_hash_spec filter hash c e :
  postings_ok c →
  ∃ paths c' e', paths_for_hash loaded hash filter c e = Ok (paths, c', e') ∧ postings_ok c' ∧ same_literals c c' ∧
    ∀ path, hit path hash → path_allowed path filter = true → path ∈ paths.
Proof using Hindex.
  intros Hok. unfold paths_for_hash.
  destruct (lookup_cached_spec (li_base loaded) LayerBase base hash c
    (mkEngineStats (saturating_add u64_max (index_lookups e) 1) (Candidates.postings_bytes_read e))
    (io_base _ _ _ Hindex) kind_base Hok) as (c1 & e1 & -> & Hok1 & Hs1). cbn [mbind result_bind].
  destruct (overlay_paths_spec filter hash [] (li_overlays loaded)
    (insert_docs (base_doc_is_active loaded) filter (entry_docs (li_base loaded) (answer base hash)) ∅) c1 e1)
    as (paths & c2 & e2 & -> & Hok2 & Hs2 & Hsub & Hover); [done|done|].
  exists paths, c2, e2. split_and!; [done|done|by etrans|].
  intros path [d s Hd <- Ha He|i segment docs d s Hi Hdocs Hd <- Ha He] Hf.
  - apply Hsub, elem_of_insert_docs. right. exists (doc_record d).
    split_and!; [|done|done|done]. eapply elem_of_entry_docs; [apply Hindex|done|done].
  - by eapply Hover; [simpl; lia|..].
Qed.

(** *** The choice of covering grams *)

Lemma select_loop_spec cs selected seen covered c :
  c ∈ select_loop cs selected seen covered → c ∈ selected ∨ c ∈ cs.
Proof using Type.
  revert selected seen covered. induction cs as [|c0 cs IH]; intros selected seen covered; cbn [select_loop]; [by left|].
  assert (Hin : ∀ b : bool, c ∈ (if b then selected ++ [c0] else selected) → c ∈ selected ∨ c ∈ c0 :: cs).
  { intros []; [|by left]. rewrite elem_of_app, list_elem_of_singleton, elem_of_cons. tauto. }
  case_bool_decide; [intros [|]%IH; [by left|right; by right]|].
  destruct (_ && _); [apply Hin|]. intros [|]%IH; [by eapply Hin|right; by right].
Qed.

Lemma elem_of_select literal c : c ∈ select_covering_candidates blake3 PAIR_WEIGHTS loaded literal → c ∈ covering literal.
Proof using Type. intros [?%elem_of_nil|Hc]%select_loop_spec; [done|]. by apply elem_of_sort_by in Hc. Qed.

(** *** The caches of literals *)

Context (filter : option (gset string)).

Definition holds_literal (literal : list Z) (text : list Z) : Prop :=
  occurs (normalize_for_index literal) (normalize_for_index text).

(** The set has every active, allowed document that satisfies [P]. *)
Definition keeps (P : list Z → Prop) (paths : gset string) : Prop :=
  ∀ path text, indexed path text → path_allowed path filter = true → P text → path ∈ paths.

Record cache_ok (c : QueryCache) : Prop := {
  co_postings : postings_ok c;
  co_candidates literal paths : literal_candidates c !! literal = Some paths → keeps (holds_literal literal) paths;
  co_hashes literal hs : literal_hashes c !! literal = Some hs →
    hs ≠ [] ∧ Forall (λ h, ∃ cand, cand ∈ covering literal ∧ sc_hash cand = h) hs;
  co_repeats literal r : literal_repeat_requirements c !! literal = Some r → r = repeat_requirements_for_literal blake3 literal;
  co_windows path literal w text : literal_windows c !! (path, literal) = Some w →
    indexed path text → holds_literal literal text → covering literal ≠ [] → is_Some w
}.

Lemma empty_cache_ok : cache_ok empty_cache.
Proof using Type. split; intros *; try (simpl; by rewrite lookup_empty). intros ? ? ?. simpl. by rewrite lookup_empty. Qed.

Lemma cache_ok_same c c' : cache_ok c → postings_ok c' → same_literals c c' → cache_ok c'.
Proof using Type. intros [_ H2 H3 H4 H5] Hok (E1 & E2 & E3 & E4). split; rewrite ?E1, ?E2, ?E3, ?E4; done. Qed.

Lemma keeps_inter P A B : keeps P A → keeps P B → keeps P (A ∩ B).
Proof using Type. intros HA HB path text Hi Hf Hp. apply elem_of_intersection. split; [by eapply HA|by eapply HB]. Qed.

Lemma keeps_impl (P Q : list Z → Prop) A : (∀ t, Q t → P t) → keeps P A → keeps Q A.
Proof using Type. intros HPQ HA path text Hi Hf Hq. eapply HA; eauto. Qed.

Lemma refine_literal_spec literal count cands lp hs covered prev c e :
  Forall (λ cand, cand ∈ covering literal) cands → cache_ok c →
  (∀ paths, lp = Some paths → keeps (holds_literal literal) paths) →
  Forall (λ h, ∃ cand, cand ∈ covering literal ∧ sc_hash cand = h) hs → (cands ≠ [] ∨ hs ≠ []) →
  ∃ lp' hs' c' e', refine_literal loaded filter count cands lp hs covered prev c e = Ok (lp', hs', c', e') ∧
    cache_ok c' ∧ (∀ paths, lp' = Some paths → keeps (holds_literal literal) paths) ∧
    hs' ≠ [] ∧ Forall (λ h, ∃ cand, cand ∈ covering literal ∧ sc_hash cand = h) hs'.
Proof using Hindex.
  intros Hcands. revert lp hs covered prev c e. induction Hcands as [|cand cands Hc _ IH];
    intros lp hs covered prev c e Hok Hlp Hhs Hne; cbn [refine_literal].
  { exists lp, hs, c, e. destruct Hne; done. }
  destruct (paths_for_hash_spec filter (sc_hash cand) c e (co_postings _ Hok)) as (current & c1 & e1 & -> & Hp1 & Hs1 & Hcur).
  cbn [mbind result_bind]. pose proof (cache_ok_same _ _ Hok Hp1 Hs1) as Hok1.
  assert (Hkeep : keeps (holds_literal literal) (match lp with Some existing => existing ∩ current | None => current end)).
  { assert (keeps (holds_literal literal) current) as Hk.
    { intros path text Hi Hf Hocc. apply Hcur; [by eapply indexed_hit|done]. }
    destruct lp as [existing|]; [|done]. apply keeps_inter; [by apply Hlp|done]. }
  assert (Hhs' : Forall (λ h, ∃ cand, cand ∈ covering literal ∧ sc_hash cand = h) (hs ++ [sc_hash cand])).
  { apply Forall_app. split; [done|]. constructor; [by exists cand|constructor]. }
  destruct (should_stop_literal_refinement _ _ _ _ _).
  - do 4 eexists. split_and!; [done|done|by intros paths [= <-]|by destruct hs|done].
  - apply IH; [done|by intros paths [= <-]|done|]. right. by destruct hs.
Qed.

Lemma cache_literal_ok literal paths hs c :
  cache_ok c → keeps (holds_literal literal) paths → hs ≠ [] →
  Forall (λ h, ∃ cand, cand ∈ covering literal ∧ sc_hash cand = h) hs →
  cache_ok (cache_literal literal paths hs (repeat_requirements_for_literal blake3 literal) c).
Proof using Type.
  intros [H1 H2 H3 H4 H5] Hk Hne Hhs. split; [exact H1| | | |exact H5]; intros literal' x; simpl;
    (destruct (decide (literal = literal')) as [<-|Hdiff];
      [rewrite lookup_insert_eq; intros [= <-]|rewrite lookup_insert_ne by done]); auto.
Qed.

Context (all_paths : gset string) (Hall : all_paths = all_indexed_paths loaded filter).

Lemma all_paths_keep P : keeps P all_paths.
Proof using Hindex Hall.
  intros path text (d & Hact & <- & _) Hf _. rewrite Hall. unfold all_indexed_paths.
  set (start := insert_docs _ _ _ ∅).
  assert (Hfold : ∀ segs paths x,
    (x ∈ paths ∨ ∃ segment doc, segment ∈ segs ∧ doc ∈ ly_docs (os_layer segment) ∧ dr_path doc = x ∧
       overlay_doc_is_active loaded (os_generation segment) x = true ∧ path_allowed x filter = true) →
    x ∈ foldl (λ paths segment, insert_docs (overlay_doc_is_active loaded (os_generation segment)) filter
                 (ly_docs (os_layer segment)) paths) paths segs).
  { induction segs as [|seg segs IH]; intros paths x Hx; cbn [foldl].
    - destruct Hx as [|(? & ? & ?%elem_of_nil & _)]; done.
    - apply IH. rewrite elem_of_insert_docs. destruct Hx as [|(seg' & doc & [->|Hin]%elem_of_cons & H)]; [by left; left|left; right|right].
      + exists doc. naive_solver.
      + by exists seg', doc. }
  apply Hfold. destruct Hact as [Hd Ha|i segment docs Hi Hdocs Hd Ha].
  - left. apply elem_of_insert_docs. right. exists (doc_record d). split_and!; [|done|done|done].
    destruct (io_base _ _ _ Hindex) as [_ (-> & _)]. by apply list_elem_of_fmap_2.
  - right. exists segment, (doc_record d). split_and!; [by eapply list_elem_of_lookup_2| |done|done|done].
    destruct (overlay_at _ _ Hi) as (docs' & Hdocs' & [_ (-> & _)]). simplify_eq. by apply list_elem_of_fmap_2.
Qed.

(** *** Plans *)

(** An evaluation that succeeds, keeps the caches sound and keeps [P]. *)
Definition sound_eval (P : list Z → Prop) (eval : Evaluation) : Prop :=
  ∀ c e, cache_ok c → ∃ paths c' e', eval c e = Ok (paths, c', e') ∧ cache_ok c' ∧ keeps P paths.

Lemma literal_paths_sound literal :
  sound_eval (holds_literal literal) (literal_paths blake3 PAIR_WEIGHTS loaded literal filter all_paths).
Proof using Hindex Hall.
  intros c e Hok. unfold literal_paths. destruct (literal_candidates c !! literal) as [cached|] eqn:E.
  { exists cached, c, e. split_and!; [done|done|by eapply co_candidates]. }
  assert (Hsel : Forall (λ cand, cand ∈ covering literal) (select_covering_candidates blake3 PAIR_WEIGHTS loaded literal)).
  { rewrite Forall_forall. intros cand. apply elem_of_select. }
  destruct (select_covering_candidates _ _ _ _) as [|cand cands] eqn:Es.
  { exists all_paths, c, e. split_and!; [done|done|apply all_paths_keep]. }
  destruct (refine_literal_spec literal (Z.of_nat (size all_paths)) (cand :: cands) None []
    (replicate (length literal) false) (Z.of_nat (size all_paths)) c e Hsel Hok)
    as (lp & hs & c1 & e1 & -> & Hok1 & Hlp & Hne & Hhs); [done|constructor|by left|].
  cbn [mbind result_bind]. do 3 eexists. split_and!; [done| |].
  - apply cache_literal_ok; [done| |done|done]. destruct lp as [paths|]; [by apply Hlp|apply all_paths_keep].
  - destruct lp as [paths|]; [by apply Hlp|apply all_paths_keep].
Qed.

Lemma intersect_all_sound (P : list Z → Prop) evals current :
  Forall (sound_eval P) evals → (∀ paths, current = Some paths → keeps P paths) →
  ∀ c e, cache_ok c → ∃ r c' e', intersect_all current evals c e = Ok (r, c', e') ∧ cache_ok c' ∧
    ∀ paths, r = Some paths → keeps P paths.
Proof using Type.
  intros Hevals. revert current. induction Hevals as [|eval evals He _ IH]; intros current Hcur c e Hok; cbn [intersect_all].
  { by do 3 eexists. }
  destruct (He c e Hok) as (paths & c1 & e1 & -> & Hok1 & Hk). cbn [mbind result_bind]. apply IH; [|done].
  intros paths' [= <-]. destruct current; [apply keeps_inter; auto|done].
Qed.

Lemma union_all_sound evals (Qs : list (list Z → Prop)) u :
  Forall2 sound_eval Qs evals →
  ∀ c e, cache_ok c → ∃ paths c' e', union_all u evals c e = Ok (paths, c', e') ∧ cache_ok c' ∧
    u ⊆ paths ∧ Forall (λ Q, keeps Q paths) Qs.
Proof using Type.
  intros Hevals. revert u. induction Hevals as [|Q eval Qs evals He _ IH]; intros u c e Hok; cbn [union_all].
  { exists u, c, e. split_and!; [done|done|done|constructor]. }
  destruct (He c e Hok) as (paths & c1 & e1 & -> & Hok1 & Hk). cbn [mbind result_bind].
  destruct (IH (u ∪ paths) c1 e1 Hok1) as (paths' & c2 & e2 & -> & Hok2 & Hsub & Hks).
  do 3 eexists. split_and!; [done|done| |].
  - intros x Hx. apply Hsub. by apply elem_of_union_l.
  - constructor; [|done]. intros path text Hi Hf Hq. apply Hsub, elem_of_union_r. by eapply Hk.
Qed.

Definition plan_matches (plan : SearchPlan) (text : list Z) : Prop := plan_holds plan (normalize_for_index text).

Lemma candidate_paths_sound_eval plan :
  sound_eval (plan_matches plan) (candidate_paths_for_plan blake3 PAIR_WEIGHTS loaded plan filter all_paths).
Proof using Hindex Hall.
  induction plan as [|literal|children IH|children IH] using SearchPlan_nested_ind.
  - intros c e Hok. exists all_paths, c, e. split_and!; [done|done|apply all_paths_keep].
  - apply literal_paths_sound.
  - intros c e Hok. cbn [candidate_paths_for_plan]. set (ordered := sort_by _ _).
    assert (Hsound : Forall (sound_eval (plan_matches (PlanAnd children))) ordered.*2).
    { unfold ordered. rewrite sort_by_perm, <- list_fmap_compose, Forall_fmap. rewrite Forall_forall in IH |- *.
      intros child Hchild c0 e0 Hok0. destruct (IH child Hchild c0 e0 Hok0) as (paths & c1 & e1 & E & Hok1 & Hk).
      exists paths, c1, e1. split_and!; [done|done|]. eapply keeps_impl; [|exact Hk]. unfold plan_matches.
      intros t Ht%plan_holds_and. rewrite Forall_forall in Ht. by apply Ht. }
    destruct (intersect_all_sound _ _ None Hsound ltac:(done) c e Hok) as (r & c1 & e1 & -> & Hok1 & Hr).
    cbn [mbind result_bind]. do 3 eexists. split_and!; [done|done|].
    destruct r; [by apply Hr|apply all_paths_keep].
  - intros c e Hok. cbn [candidate_paths_for_plan].
    destruct (union_all_sound ((λ child, candidate_paths_for_plan blake3 PAIR_WEIGHTS loaded child filter all_paths) <$> children)
      (plan_matches <$> children) ∅) with (c := c) (e := e) as (paths & c1 & e1 & -> & Hok1 & _ & Hks); [|done|].
    { apply Forall2_fmap, Forall_Forall2_diag. exact IH. }
    do 3 eexists. split_and!; [done|done|]. intros path text Hi Hf Hm.
    apply plan_holds_or, Exists_exists in Hm as (child & Hchild & Hm). rewrite Forall_fmap, Forall_forall in Hks.
    by eapply (Hks child Hchild).
Qed.

(** *** Windows *)

Lemma list_find_first {A} (P : A → Prop) `{∀ x, Decision (P x)} l x :
  x ∈ l → P x → (∀ y, y ∈ l → P y → y = x) → ∃ i, list_find P l = Some (i, x).
Proof using Type.
  intros Hx HP Huniq. destruct (list_find_elem_of P l x Hx HP) as [[i y] Hy]. exists i. rewrite Hy.
  apply list_find_Some in Hy as (Hi & HPy & _). by rewrite (Huniq y (list_elem_of_lookup_2 _ _ _ Hi) HPy).
Qed.

(** The entry that an indexed document has for a covering gram, or any gram. *)
Lemma entry_unique docs hash d s e :
  docs_ok docs → d ∈ docs → mkPostingEntry (id_doc_id d) s ∈ posting_list docs hash →
  e ∈ posting_list docs hash → doc_id e = id_doc_id d → e = mkPostingEntry (id_doc_id d) s.
Proof using Type.
  intros Hok Hd He He' Hid. pose proof (posting_list_sorted docs hash Hok) as Hs.
  apply list_elem_of_lookup in He as [i Hi]. apply list_elem_of_lookup in He' as [j Hj].
  destruct (decide (i < j)) as [Hij|]; [|destruct (decide (j < i)) as [Hji|]].
  - pose proof (StronglySorted_lookup_lt _ _ _ _ _ _ Hs Hi Hj Hij) as Hlt. unfold entry_lt in Hlt. simpl in Hlt. lia.
  - pose proof (StronglySorted_lookup_lt _ _ _ _ _ _ Hs Hj Hi Hji) as Hlt. unfold entry_lt in Hlt. simpl in Hlt. lia.
  - assert (i = j) as -> by lia. congruence.
Qed.

Lemma lookup_entry_spec layer kind docs hash ident c :
  layer_over layer docs → kind_docs kind docs → cache_ok c →
  ∃ c', lookup_posting_entry layer kind hash ident c =
      (found ← list_find (λ entry, doc_id entry = ident) (posting_list docs hash); Some found.2, c') ∧ cache_ok c'.
Proof using Hindex.
  intros Hl Hk Hok. unfold lookup_posting_entry.
  assert (Hans : ∀ v, v = answer docs hash →
    (entries ← v; list_find (λ entry, doc_id entry = ident) entries ≫= λ found, Some found.2) =
    (found ← list_find (λ entry, doc_id entry = ident) (posting_list docs hash); Some found.2)).
  { intros v ->. unfold answer. case_decide as E; [by rewrite E|done]. }
  destruct (qc_postings c !! (kind, hash)) as [v|] eqn:E; cbn [from_option id].
  - exists c. split; [|done]. f_equal. apply Hans. by eapply co_postings.
  - rewrite (quiet_answer layer docs hash Hl). eexists. split; [f_equal; by apply Hans|].
    destruct (cache_posting_ok kind hash docs c (co_postings _ Hok) Hk) as [Hp Hs]. by eapply cache_ok_same.
Qed.

(** The lookup of an indexed document's summary of a gram of its text. *)
Lemma summary_for_path_spec path text hash s c :
  indexed path text → mkIndexedGram hash s ∈ build_indexed_grams blake3 PAIR_WEIGHTS text → cache_ok c →
  ∃ c', lookup_summary_for_path loaded hash path c = (Some s, c') ∧ cache_ok c'.
Proof using Hindex.
  intros (d & Hact & <- & Hgrams) Hg Hok.
  assert (Hentry : ∀ docs, d ∈ docs → docs_ok docs →
    ∃ i, list_find (λ entry, doc_id entry = id_doc_id d) (posting_list docs hash) = Some (i, mkPostingEntry (id_doc_id d) s)).
  { intros docs Hd Hdocs.
    assert (Hin : mkPostingEntry (id_doc_id d) s ∈ posting_list docs hash).
    { apply elem_of_posting_list. exists d, (mkIndexedGram hash s). rewrite Hgrams. done. }
    apply list_find_first; [done|done|]. intros e He Hid. by eapply entry_unique. }
  unfold lookup_summary_for_path. destruct Hact as [Hd Ha|i segment docs Hi Hdocs Hd Ha].
  - unfold base_doc_is_active in Ha. apply bool_decide_eq_true in Ha.
    destruct (io_shadowed _ _ _ Hindex _ Ha) as [Hdel Hown].
    rewrite bool_decide_false by done. rewrite Hown, bool_decide_false by done.
    rewrite (doc_id_of_path (li_base loaded) base d) by (done || apply Hindex).
    destruct (lookup_entry_spec (li_base loaded) LayerBase base hash (id_doc_id d) c) as (c' & -> & Hok');
      [apply Hindex|constructor|done|].
    destruct (Hentry base Hd) as [j ->]; [apply Hindex|]. by exists c'.
  - unfold overlay_doc_is_active in Ha. apply andb_true_iff in Ha as [Hdel Hown].
    apply bool_decide_eq_true in Hdel. apply bool_decide_eq_true in Hown.
    rewrite bool_decide_false by done. rewrite Hown.
    destruct (list_find_first (λ seg, os_generation seg = os_generation segment) (li_overlays loaded) segment) as [k ->];
      [by eapply list_elem_of_lookup_2|done| |].
    { intros seg (j & Hj)%list_elem_of_lookup Hgen.
      assert (j = i) as ->; [|congruence].
      eapply (NoDup_lookup (os_generation <$> li_overlays loaded)); [apply Hindex| |];
        rewrite list_lookup_fmap, ?Hi, ?Hj; [done|]. simpl. congruence. }
    destruct (overlay_at _ _ Hi) as (docs' & Hdocs' & Hl). simplify_eq.
    rewrite (doc_id_of_path (os_layer segment) docs d) by done.
    destruct (lookup_entry_spec (os_layer segment) (LayerOverlay (os_generation segment)) docs hash (id_doc_id d) c)
      as (c' & -> & Hok'); [done|by econstructor|done|].
    destruct (Hentry docs Hd) as [j ->]; [apply Hl|]. by exists c'.
Qed.

(** A lookup for any path keeps the caches sound. *)
Lemma summary_for_path_ok path hash c : cache_ok c → cache_ok (snd (lookup_summary_for_path loaded hash path c)).
Proof using Hindex.
  intros Hok. unfold lookup_summary_for_path. case_bool_decide; [done|].
  destruct (owners _ !! path) as [owner|].
  - destruct (list_find _ (li_overlays loaded)) as [[i segment]|] eqn:E; [|done].
    apply list_find_Some in E as (Hi & <- & _). destruct (overlay_at _ _ Hi) as (docs & Hdocs & Hl).
    destruct (ly_doc_ids_by_path (os_layer segment) !! path) as [ident|]; [|done].
    destruct (lookup_entry_spec (os_layer segment) (LayerOverlay (os_generation segment)) docs hash ident c)
      as (c' & -> & Hok'); [done|by econstructor|done|done].
  - case_bool_decide; [done|]. destruct (ly_doc_ids_by_path (li_base loaded) !! path) as [ident|]; [|done].
    destruct (lookup_entry_spec (li_base loaded) LayerBase base hash ident c) as (c' & -> & Hok');
      [apply Hindex|constructor|done|done].
Qed.

Lemma select_nonempty literal : covering literal ≠ [] → select_covering_candidates blake3 PAIR_WEIGHTS loaded literal ≠ [].
Proof using Type.
  intros Hne. unfold select_covering_candidates. destruct (sort_by _ (covering literal)) as [|c cs] eqn:E.
  { apply (f_equal length) in E. rewrite length_sort_by in E. by destruct (covering literal). }
  assert (Hmono : ∀ cs selected seen covered, selected ≠ [] → select_loop cs selected seen covered ≠ []).
  { clear. induction cs as [|c cs IH]; intros selected seen covered Hs; cbn [select_loop]; [done|].
    assert (∀ b : bool, (if b then selected ++ [c] else selected) ≠ []) by (intros []; [by destruct selected|done]).
    case_bool_decide; [by apply IH|]. destruct (_ && _); [done|by apply IH]. }
  cbn [select_loop length]. rewrite bool_decide_false by apply not_elem_of_empty.
  replace (0 <? SHORT_GRAM_BYTES) with true by done. rewrite orb_true_r. destruct (_ && _); [done|]. by apply Hmono.
Qed.

Definition literal_hashes_ok (literal : list Z) (hs : list Z) : Prop :=
  Forall (λ h, ∃ cand, cand ∈ covering literal ∧ sc_hash cand = h) hs.

(** An indexed document that holds the literal has a summary for each of its
    grams, marked as repeated when the literal repeats the gram. *)
Lemma holds_summary path text literal cand c :
  indexed path text → holds_literal literal text → cand ∈ covering literal → cache_ok c →
  ∃ s c', lookup_summary_for_path loaded (sc_hash cand) path c = (Some s, c') ∧ cache_ok c' ∧
    (repeat_requirements_for_literal blake3 literal !! sc_hash cand = Some true → repeated s = true).
Proof using Hindex.
  intros Hi (p & q & Hocc) Hc Hok.
  pose proof (covering_candidate_occurs _ _ _ _ _ _ _ Hocc Hc) as Hgram.
  destruct (index_map_brackets (length text) _ _ _ Hgram) as (s & Hs & _).
  assert (Hg : mkIndexedGram (sc_hash cand) s ∈ build_indexed_grams blake3 PAIR_WEIGHTS text)
    by (by apply elem_of_build_indexed_grams).
  destruct (summary_for_path_spec path text _ s c Hi Hg Hok) as (c' & E & Hok').
  exists s, c'. split_and!; [done|done|]. intros Hr.
  by apply (repeat_requirement_sound blake3 PAIR_WEIGHTS text literal p q (mkIndexedGram (sc_hash cand) s)).
Qed.

Lemma window_loop_ok path repeats hs b c :
  cache_ok c → cache_ok (window_loop loaded path repeats hs b c).2.
Proof using Hindex.
  revert b c. induction hs as [|h hs IH]; intros b c Hok; cbn [window_loop]; [done|].
  pose proof (summary_for_path_ok path h c Hok) as Hok'. destruct (lookup_summary_for_path _ _ _ _) as [[s|] c']; [|done].
  destruct (_ && _); [done|by apply IH].
Qed.

Lemma window_loop_spec path text literal hs b c :
  indexed path text → holds_literal literal text → literal_hashes_ok literal hs → cache_ok c →
  ∃ b', (window_loop loaded path (repeat_requirements_for_literal blake3 literal) hs b c).1 = Ok b'.
Proof using Hindex.
  intros Hi Hocc Hhs. revert b c. induction Hhs as [|h hs (cand & Hc & <-) _ IH]; intros b c Hok; cbn [window_loop].
  { by exists b. }
  destruct (holds_summary path text literal cand c Hi Hocc Hc Hok) as (s & c' & -> & Hok' & Hr).
  destruct (repeat_requirements_for_literal blake3 literal !! sc_hash cand) as [[|]|] eqn:E; cbn [default from_option id andb].
  - rewrite (Hr eq_refl). cbn [negb]. by apply IH.
  - by apply IH.
  - by apply IH.
Qed.

Lemma cache_window_ok path literal w c :
  cache_ok c →
  (∀ text, indexed path text → holds_literal literal text → covering literal ≠ [] → is_Some w) →
  cache_ok (cache_window (path, literal) w c).
Proof using Type.
  intros [H1 H2 H3 H4 H5] Hw. split; [exact H1|exact H2|exact H3|exact H4|]. intros path' literal' w' text. simpl.
  destruct (decide ((path, literal) = (path', literal'))) as [[= <- <-]|Hne].
  - rewrite lookup_insert_eq. intros [= <-]. apply Hw.
  - rewrite lookup_insert_ne by done. apply H5.
Qed.

(** A window evaluation that keeps the caches sound and finds a window in
    every indexed document that satisfies [P]. *)
Definition sound_window (path : string) (P : list Z → Prop) (eval : WindowEval) : Prop :=
  ∀ c, cache_ok c → cache_ok (eval c).2 ∧ ∀ text, indexed path text → P text → is_Some (eval c).1.

Lemma literal_window_sound path literal :
  covering literal ≠ [] →
  sound_window path (holds_literal literal) (literal_window_for_path blake3 PAIR_WEIGHTS loaded path literal).
Proof using Hindex.
  intros Hcov c Hok. unfold literal_window_for_path.
  destruct (literal_windows c !! (path, literal)) as [w|] eqn:Ew.
  { split; [done|]. intros text Hi Hocc. by eapply co_windows. }
  assert (Hr : default (repeat_requirements_for_literal blake3 literal) (literal_repeat_requirements c !! literal) =
    repeat_requirements_for_literal blake3 literal).
  { destruct (literal_repeat_requirements c !! literal) as [r|] eqn:E; [|done]. cbn [default from_option id]. by eapply co_repeats. }
  rewrite Hr.
  assert (Hhs : ∃ h hs, default (sc_hash <$> select_covering_candidates blake3 PAIR_WEIGHTS loaded literal)
      (literal_hashes c !! literal) = h :: hs ∧ literal_hashes_ok literal (h :: hs)).
  { destruct (literal_hashes c !! literal) as [hs|] eqn:E; cbn [default from_option id].
    - destruct (co_hashes _ Hok _ _ E) as [Hne Hfor]. destruct hs as [|h hs]; [done|by exists h, hs].
    - assert (Hsel : literal_hashes_ok literal (sc_hash <$> select_covering_candidates blake3 PAIR_WEIGHTS loaded literal)).
      { apply Forall_fmap, Forall_forall. intros cand Hc. exists cand. split; [by apply elem_of_select|done]. }
      pose proof (select_nonempty literal Hcov) as Hne.
      destruct (select_covering_candidates _ _ _ _) as [|cand cands]; [done|]. rewrite fmap_cons in Hsel |- *. eauto. }
  destruct Hhs as (h & hs & -> & Hhs). set (b := mkWindowBounds _ _ _ _).
  pose proof (window_loop_ok path (repeat_requirements_for_literal blake3 literal) (h :: hs) b c Hok) as Hok'.
  assert (Hspec : ∀ text, indexed path text → holds_literal literal text →
    ∃ b', (window_loop loaded path (repeat_requirements_for_literal blake3 literal) (h :: hs) b c).1 = Ok b')
    by (intros; by eapply window_loop_spec).
  destruct (window_loop _ _ _ _ _ _) as [[b'|cached] c'].
  - split; [|done]. apply cache_window_ok; [done|]. intros text _ _ _. done.
  - split.
    + destruct cached; [|done]. apply cache_window_ok; [done|]. intros text Hi Hocc _.
      by destruct (Hspec text Hi Hocc).
    + intros text Hi Hocc. by destruct (Hspec text Hi Hocc).
Qed.

Lemma or_windows_sound path evals (Ps : list (list Z → Prop)) acc :
  Forall2 (sound_window path) Ps evals → ∀ c, cache_ok c →
  cache_ok (or_windows acc evals c).2 ∧
  ∀ text, indexed path text → is_Some acc ∨ Exists (λ P, P text) Ps → is_Some (or_windows acc evals c).1.
Proof using Type.
  intros Hevals. revert acc. induction Hevals as [|P eval Ps evals He _ IH]; intros acc c Hok; cbn [or_windows].
  { split; [done|]. by intros text _ [|?%Exists_nil]. }
  destruct (He c Hok) as [Hok' Hw]. destruct (eval c) as [[w|] c']; cbn [fst snd] in *.
  - destruct (IH (Some (mkLiteralWindow
      (Z.min (earliest_bucket (default (mkLiteralWindow u8_max 0) acc)) (earliest_bucket w))
      (Z.max (latest_bucket (default (mkLiteralWindow u8_max 0) acc)) (latest_bucket w)))) c' Hok') as [Hok2 Hw2].
    split; [done|]. intros text Hi _. apply (Hw2 text Hi). by left.
  - destruct (IH acc c' Hok') as [Hok2 Hw2]. split; [done|]. intros text Hi Hp. apply (Hw2 text Hi).
    destruct Hp as [|[Hp|]%Exists_cons]; [by left| |by right]. by destruct (Hw text Hi Hp).
Qed.

(** The plans without conjunctions whose literals can be looked up. *)
Fixpoint prunable (plan : SearchPlan) : Prop :=
  match plan with
  | PlanAll => True
  | PlanLiteral literal => 2 ≤ length literal
  | PlanAnd _ => False
  | PlanOr children => foldr (λ child P, prunable child ∧ P) True children
  end.

Lemma prunable_or children : prunable (PlanOr children) ↔ Forall prunable children.
Proof using Type. cbn [prunable]. induction children; [done|]. rewrite Forall_cons. naive_solver. Qed.

Lemma plan_window_sound path plan :
  prunable plan → sound_window path (plan_matches plan) (plan_window_for_path blake3 PAIR_WEIGHTS loaded path plan).
Proof using Hindex.
  induction plan as [|literal|children IH|children IH] using SearchPlan_nested_ind; intros Hp.
  - intros c Hok. split; [done|]. by intros.
  - apply literal_window_sound. intros E. apply (covering_nonempty blake3 PAIR_WEIGHTS literal Hp).
    unfold build_covering_hashes. by rewrite E.
  - done.
  - intros c Hok. cbn [plan_window_for_path]. apply prunable_or in Hp.
    destruct (or_windows_sound path (plan_window_for_path blake3 PAIR_WEIGHTS loaded path <$> children)
      (plan_matches <$> children) None) with (c := c) as [Hok' Hw]; [|done|].
    { apply Forall2_fmap, Forall_Forall2_diag. rewrite Forall_forall in IH, Hp |- *. intros child Hc. by apply IH, Hp. }
    split; [done|]. intros text Hi Hm. apply (Hw text Hi). right. apply Exists_fmap.
    by apply plan_holds_or in Hm.
Qed.

Lemma prune_keeps plan candidates c :
  prunable plan → cache_ok c → keeps (plan_matches plan) candidates →
  keeps (plan_matches plan) (prune_candidates_with_positions blake3 PAIR_WEIGHTS loaded plan candidates c).1.
Proof using Hindex.
  intros Hp Hok Hk path text Hi Hf Hm. unfold prune_candidates_with_positions.
  assert (Hloop : ∀ l (kept : gset string) c, cache_ok c → path ∈ kept ∨ path ∈ l →
    path ∈ (foldl (λ '(kept, cache) path,
      let '(window, cache) := plan_window_for_path blake3 PAIR_WEIGHTS loaded path plan cache in
      (match window with Some _ => {[path]} ∪ kept | None => kept end, cache)) (kept, c) l).1).
  { clear c Hok. induction l as [|x l IH]; intros kept c Hok Hin; cbn [foldl].
    { by destruct Hin as [|?%elem_of_nil]. }
    destruct (plan_window_sound x plan Hp c Hok) as [Hok' Hw].
    destruct (plan_window_for_path _ _ _ _ _ _) as [window c']. apply IH; [done|].
    destruct Hin as [Hin|[->|Hin]%elem_of_cons]; [left|left|by right].
    - destruct window; [by apply elem_of_union_r|done].
    - destruct (Hw text Hi Hm) as [w E]. cbn in E. subst window. by apply elem_of_union_l, elem_of_singleton. }
  apply Hloop; [done|]. right. rewrite sort_by_perm. apply elem_of_elements. by eapply Hk.
Qed.
End Sound.

(** ** From a scan to the candidates of a request *)

(** The index of a build without overlays. *)
Definition base_index (layer : LoadedLayer) : LoadedIndex := mkLoadedIndex layer [] (mkOverlayState ∅ ∅ ∅).

Lemma base_index_over layer docs : layer_over layer docs → index_over (base_index layer) docs [].
Proof. intros Hl. split; [done|constructor|constructor|]. intros path _. split; [apply not_elem_of_empty|apply lookup_empty]. Qed.

Lemma scan_indexed blake3 PAIR_WEIGHTS hex_digest layer files f d :
  f ∈ files → index_document blake3 PAIR_WEIGHTS hex_digest f = Some d →
  indexed blake3 PAIR_WEIGHTS (base_index layer) (scan_documents blake3 PAIR_WEIGHTS hex_digest files) [] (id_path d) (sf_bytes f).
Proof.
  intros Hf Hd.
  assert (∃ i, scan_documents blake3 PAIR_WEIGHTS hex_digest files !! i = Some (set_doc_id i d)) as [i Hi].
  { unfold scan_documents. setoid_rewrite list_lookup_imap.
    assert (d ∈ sort_by (λ left right, str_leb (id_path left) (id_path right))
      (omap (index_document blake3 PAIR_WEIGHTS hex_digest) files)) as [i Hi]%list_elem_of_lookup.
    { rewrite elem_of_sort_by, list_elem_of_omap. by exists f. }
    exists i. by rewrite Hi. }
  exists (set_doc_id i d). split_and!.
  - apply active_base; [by eapply list_elem_of_lookup_2|]. apply bool_decide_eq_true_2, not_elem_of_empty.
  - done.
  - unfold index_document in Hd. repeat case_match; simplify_eq. done.
Qed.

(** Both stages of a search keep what satisfies the plan, the second for the
    plans that can be pruned. *)
Lemma search_candidates_keep blake3 PAIR_WEIGHTS (loaded : LoadedIndex) base overlays plan filter engine :
  index_over loaded base overlays →
  ∃ candidates pruned, search_candidates blake3 PAIR_WEIGHTS loaded plan filter engine = Ok (candidates, pruned) ∧
    ∀ path text, indexed blake3 PAIR_WEIGHTS loaded base overlays path text → path_allowed path filter = true →
      plan_holds plan (normalize_for_index text) → path ∈ candidates ∧ (prunable plan → path ∈ pruned).
Proof.
  intros Hindex. unfold search_candidates.
  destruct (candidate_paths_sound_eval blake3 PAIR_WEIGHTS loaded base overlays Hindex filter _ eq_refl plan empty_cache engine)
    as (paths & c & e & -> & Hok & Hk); [apply empty_cache_ok|]. cbn [mbind result_bind].
  do 2 eexists. split; [done|]. intros path text Hi Hf Hp. split; [by eapply Hk|]. intros Hplan.
  by eapply (prune_keeps blake3 PAIR_WEIGHTS loaded base overlays Hindex).
Qed.

Lemma covering_looked_up blake3 PAIR_WEIGHTS literal : build_covering_hashes blake3 PAIR_WEIGHTS literal ≠ [] → 2 ≤ length literal.
Proof.
  unfold build_covering_hashes, build_covering_candidates, SHORT_GRAM_BYTES, MIN_GRAM_BYTES.
  assert (Hn : length (normalize_for_index literal) = length literal) by apply length_fmap. rewrite Hn.
  destruct (length literal =? 2) eqn:E2; destruct (length literal <? 3) eqn:E3; reflect_bool; [lia..| |lia]. done.
Qed.

(** A fixed string is planned without conjunctions. *)
Lemma fixed_plan_prunable blake3 PAIR_WEIGHTS {C L Seq} `{!LiteralExtractor (Hir C L) Seq} parse request query plan reason :
  build_search_plan blake3 PAIR_WEIGHTS parse request query = Some (plan, reason) → fixed_string request = true → prunable plan.
Proof.
  unfold build_search_plan. intros H Hfixed. rewrite Hfixed in H. destruct (_ && _); [by injection H as <- <-|].
  case_bool_decide as Hcov; injection H as <- <-; [done|]. by eapply covering_looked_up.
Qed.

(** ** A scanned file and a pattern, for the examples *)

(** The extractor's answers for a class of bytes before a literal, as in [[ab]cd]. *)
Definition class_extract (h : Hir (list Z) ()) : option (list (list Z)) :=
  match h with
  | HirConcat [HirClass class; HirLiteral b] => Some ((λ c, c :: b) <$> class)
  | _ => None
  end.

Fixpoint common_prefix (l k : list Z) : list Z :=
  match l, k with
  | x :: l, y :: k => if (x =? y)%Z then x :: common_prefix l k else []
  | _, _ => []
  end.

Definition common_of (ls : list (list Z)) : option (list Z) :=
  match ls with [] => None | l :: ls => Some (foldr common_prefix l ls) end.

#[export] Instance class_extractor : LiteralExtractor (Hir (list Z) ()) (option (list (list Z))) := {|
  extract _ := class_extract;
  seq_is_finite seq := bool_decide (is_Some seq);
  seq_is_empty seq := bool_decide (seq = Some []);
  minimize_by_preference seq := seq;
  keep_first_bytes n seq := (λ ls : list (list Z), take n <$> ls) <$> seq;
  keep_last_bytes n seq := (λ ls : list (list Z), (λ l, drop (length l - n) l) <$> ls) <$> seq;
  seq_literals seq := seq;
  longest_common_prefix seq := seq ≫= common_of;
  longest_common_suffix seq := reverse <$> (seq ≫= λ ls, common_of (reverse <$> ls))
|}.

Definition demo_digest (l : list Z) : list Z := (λ b, b mod 256)%Z <$> take 32 (l ++ replicate 32 0%Z).
Definition abcd_hir : Hir (list Z) () := HirConcat [HirClass [97; 98]%Z; HirLiteral [99; 100]%Z].
Definition abcd_file : SourceFile := mkSourceFile "a.txt" [46; 46; 97; 99; 100; 46; 46; 46; 46; 46; 46; 46; 46; 46; 46; 46]%Z 0.

Lemma abcd_fits : scan_fits demo_digest (λ n, n) (λ _, "") [abcd_file].
Proof.
  split_and!; [exact digest_bytes| | |].
  - apply (bool_decide_unpack _). vm_compute. exact I.
  - vm_compute. discriminate.
  - vm_compute. discriminate.
Qed.

Lemma abcd_index :
  ∃ layer dir' names',
    @build_layer demo_codec ∅ (scan_documents demo_digest (λ n, n) (λ _, "") [abcd_file]) demo_files = Some (Ok (layer, dir', names')) ∧
    index_over (base_index layer) (scan_documents demo_digest (λ n, n) (λ _, "") [abcd_file]) [] ∧
    indexed demo_digest (λ n, n) (base_index layer) (scan_documents demo_digest (λ n, n) (λ _, "") [abcd_file]) []
      "a.txt" (sf_bytes abcd_file).
Proof.
  pose proof (scan_docs_ok _ _ _ _ abcd_fits) as Hok. destruct (@build_layer_answers demo_codec _ ∅ demo_files _ Hok (demo_stores _)) as (layer & dir' & names' & Hbuild & _ & Hans).
  exists layer, dir', names'. split; [exact Hbuild|]. split; [apply base_index_over; exact (conj Hok Hans)|].
  destruct (index_document demo_digest (λ n, n) (λ _, "") abcd_file) as [d|] eqn:Hd; [|vm_compute in Hd; discriminate].
  replace "a.txt" with (id_path d) by (vm_compute in Hd; by injection Hd as <-).
  eapply scan_indexed; [|exact Hd]. by left.
Qed.

(** ** Claims *)

(** Over a loaded index of a base layer and overlays, the evaluation of any plan
    succeeds and keeps every active, requested document that satisfies the plan,
    whatever the choice of covering grams, the order by estimated cardinality, the early
    stops of the refinement and the caches. *)
Theorem candidate_paths_sound blake3 PAIR_WEIGHTS (loaded : LoadedIndex) base overlays plan filter engine :
  index_over loaded base overlays →
  ∃ paths cache engine',
    candidate_paths_for_plan blake3 PAIR_WEIGHTS loaded plan filter (all_indexed_paths loaded filter) empty_cache engine =
      Ok (paths, cache, engine') ∧
    ∀ path text, indexed blake3 PAIR_WEIGHTS loaded base overlays path text → path_allowed path filter = true →
      plan_holds plan (normalize_for_index text) → path ∈ paths.
Proof.
  intros Hindex.
  destruct (candidate_paths_sound_eval blake3 PAIR_WEIGHTS loaded base overlays Hindex filter _ eq_refl plan empty_cache engine)
    as (paths & c & e & E & _ & Hk); [apply empty_cache_ok|].
  exists paths, c, e. split; [exact E|]. intros path text Hi Hf Hp. by eapply Hk.
Qed.

Lemma candidate_paths_sound_witness :
  let plan := PlanAnd [PlanLiteral [99; 100]%Z; PlanLiteral [97; 99]%Z] in
  ∃ layer paths cache engine,
    candidate_paths_for_plan demo_digest (λ n, n) (base_index layer) plan None
      (all_indexed_paths (base_index layer) None) empty_cache (mkEngineStats 0 0) = Ok (paths, cache, engine) ∧
    "a.txt" ∈ paths.
Proof.
  intros plan. destruct abcd_index as (layer & dir' & names' & _ & Hindex & Hdoc).
  destruct (candidate_paths_sound demo_digest (λ n, n) (base_index layer) _ [] plan None (mkEngineStats 0 0) Hindex)
    as (paths & cache & engine & Hpaths & Hfound).
  exists layer, paths, cache, engine. split; [exact Hpaths|]. apply (Hfound "a.txt" (sf_bytes abcd_file) Hdoc).
  - reflexivity.
  - split; [|split; [|exact I]].
    + exists [46; 46; 97]%Z, [46; 46; 46; 46; 46; 46; 46; 46; 46; 46; 46]%Z. reflexivity.
    + exists [46; 46]%Z, [100; 46; 46; 46; 46; 46; 46; 46; 46; 46; 46; 46]%Z. reflexivity.
Defined.

(** The pruning by gram positions and repetitions loses no document that satisfies
    a plan without conjunctions whose literals can be looked up, from whatever state the
    evaluation of the plan leaves the caches in. *)
Theorem pruned_paths_sound blake3 PAIR_WEIGHTS (loaded : LoadedIndex) base overlays plan filter engine :
  index_over loaded base overlays → prunable plan →
  ∃ candidates pruned, search_candidates blake3 PAIR_WEIGHTS loaded plan filter engine = Ok (candidates, pruned) ∧
    ∀ path text, indexed blake3 PAIR_WEIGHTS loaded base overlays path text → path_allowed path filter = true →
      plan_holds plan (normalize_for_index text) → path ∈ pruned.
Proof.
  intros Hindex Hplan. destruct (search_candidates_keep blake3 PAIR_WEIGHTS loaded base overlays plan filter engine Hindex)
    as (candidates & pruned & E & Hk). exists candidates, pruned. split; [exact E|]. intros path text Hi Hf Hp. by eapply Hk.
Qed.

Lemma pruned_paths_sound_witness :
  let plan := PlanOr [PlanLiteral [99; 100]%Z; PlanLiteral [46; 46; 46; 46]%Z] in
  ∃ layer candidates pruned,
    search_candidates demo_digest (λ n, n) (base_index layer) plan None (mkEngineStats 0 0) = Ok (candidates, pruned) ∧
    "a.txt" ∈ pruned.
Proof.
  intros plan. destruct abcd_index as (layer & dir' & names' & _ & Hindex & Hdoc).
  destruct (pruned_paths_sound demo_digest (λ n, n) (base_index layer) _ [] plan None (mkEngineStats 0 0) Hindex)
    as (candidates & pruned & Hpaths & Hfound).
  - repeat split; repeat constructor.
  - exists layer, candidates, pruned. split; [exact Hpaths|]. apply (Hfound "a.txt" (sf_bytes abcd_file) Hdoc).
    + reflexivity.
    + left. exists [46; 46; 97]%Z, [46; 46; 46; 46; 46; 46; 46; 46; 46; 46; 46]%Z. reflexivity.
Defined.

(** C1: an indexed search loses no match before the pruning by positions, nor in the
    pruning where the plan has no conjunction. When the files of a workspace are
    scanned, have distinct paths and fit the index (at most 2^32 - 1 documents, 512 MiB
    of document records, 4 GiB of rows and postings), the index is built and loads; then
    for a fixed string, and for a pattern whose extracted literals are long enough to be
    looked up and whose repeated parts are planned exactly, given the documented
    behaviour of the literal extractor, the planned query evaluates, its candidates hold
    every indexed, requested file with a match (up to ASCII case), and for a fixed
    string or a plan without conjunctions so do the pruned candidates, the files that
    are verified. For conjunctions the pruning can lose a match
    (and_pruning_loses_match, a finding). *)
Theorem indexed_search_complete blake3 PAIR_WEIGHTS hex_digest `{!LayerCodec} `{!LayerCodecLaws} {C L Seq} `{!LiteralExtractor (Hir C L) Seq}
    (class_lang : C → list Z → Prop) `{!ExtractorLaws class_lang} parse files dir names request query plan reason hir filter engine :
  scan_fits blake3 PAIR_WEIGHTS hex_digest files →
  stores dir names (doc_record <$> scan_documents blake3 PAIR_WEIGHTS hex_digest files) →
  build_search_plan blake3 PAIR_WEIGHTS parse request query = Some (plan, reason) →
  parse query = Some hir → plannable blake3 PAIR_WEIGHTS class_lang hir →
  ∃ layer dir' names' candidates pruned,
    build_layer dir (scan_documents blake3 PAIR_WEIGHTS hex_digest files) names = Some (Ok (layer, dir', names')) ∧
    load_layer dir' names' = Ok layer ∧
    search_candidates blake3 PAIR_WEIGHTS (base_index layer) plan filter engine = Ok (candidates, pruned) ∧
    ∀ f d s, f ∈ files → index_document blake3 PAIR_WEIGHTS hex_digest f = Some d →
      path_allowed (id_path d) filter = true → request_match class_lang request query hir s →
      occurs (normalize_for_index s) (normalize_for_index (sf_bytes f)) →
      id_path d ∈ candidates ∧ (fixed_string request = true ∨ prunable plan → id_path d ∈ pruned).
Proof.
  intros Hfits Hstores Hplan Hparse Hok. pose proof (scan_docs_ok _ _ _ _ Hfits) as Hdocs.
  destruct (build_layer_answers dir names _ Hdocs Hstores) as (layer & dir' & names' & Hbuild & Hload & Hans).
  assert (Hindex : index_over (base_index layer) (scan_documents blake3 PAIR_WEIGHTS hex_digest files) [])
    by (by apply base_index_over).
  destruct (search_candidates_keep blake3 PAIR_WEIGHTS _ _ _ plan filter engine Hindex) as (candidates & pruned & E & Hk).
  exists layer, dir', names', candidates, pruned. split_and!; [done|done|exact E|]. intros f d s Hf Hd Hallowed Hs Hocc.
  destruct (Hk (id_path d) (sf_bytes f)) as [Hc Hp]; [by eapply scan_indexed|done|by eapply build_search_plan_holds|].
  split; [exact Hc|]. intros [Hfixed|Hplain]; [|by apply Hp]. by eapply Hp, fixed_plan_prunable.
Qed.

Lemma indexed_search_complete_witness :
  let digest := demo_digest in
  let hir := HirConcat [HirAlternation [HirLiteral [97; 99]%Z; HirLiteral [99; 100]%Z]; HirClass ()] in
  ∃ layer dir' names' candidates pruned,
    @build_layer demo_codec ∅ (scan_documents digest (λ n, n) (λ _, "") [abcd_file]) demo_files = Some (Ok (layer, dir', names')) ∧
    search_candidates digest (λ n, n) (base_index layer) (plan_from_hir digest (λ n, n) hir) None (mkEngineStats 0 0) =
      Ok (candidates, pruned) ∧
    "a.txt" ∈ candidates ∧ "a.txt" ∈ pruned.
Proof.
  intros digest hir.
  destruct (@indexed_search_complete digest (λ n, n) (λ _, "") demo_codec _ () () _ _ demo_class _ (λ _, Some hir) [abcd_file] ∅ demo_files
    (mkSearchRequest false None) [] (plan_from_hir digest (λ n, n) hir) None hir None (mkEngineStats 0 0))
    as (layer & dir' & names' & candidates & pruned & Hbuild & _ & Hpaths & Hfound).
  - exact abcd_fits.
  - apply demo_stores.
  - vm_compute. reflexivity.
  - reflexivity.
  - split; [|intros kind literals l H; destruct kind; discriminate H].
    repeat split. intros kind literals l H Hl. destruct kind; vm_compute in H; injection H as <-;
      repeat (apply elem_of_cons in Hl as [->|Hl]; [vm_compute; reflexivity|]); by apply elem_of_nil in Hl.
  - exists layer, dir', names', candidates, pruned. split; [exact Hbuild|]. split; [exact Hpaths|].
    destruct (index_document digest (λ n, n) (λ _, "") abcd_file) as [d|] eqn:Hd; [|vm_compute in Hd; discriminate].
    replace "a.txt" with (id_path d) by (vm_compute in Hd; by injection Hd as <-).
    destruct (Hfound abcd_file d [97; 99; 100]%Z) as [Hc Hp]; [by left|exact Hd|reflexivity| | |].
    + exists [97; 99]%Z, [100]%Z. split; [reflexivity|]. split; [left; reflexivity|].
      exists [100]%Z, []. split; [reflexivity|]. split; reflexivity.
    + exists [46; 46]%Z, [46; 46; 46; 46; 46; 46; 46; 46; 46; 46; 46]%Z. reflexivity.
    + split; [exact Hc|]. apply Hp. right. vm_compute. repeat constructor.
Defined.

(** *** Pruning a conjunction can lose a match *)

(** Indexing the file, planning the pattern and collecting the candidates. *)
Definition abcd_search : option (SearchPlan * (gset string * gset string)) :=
  built ← @build_layer demo_codec ∅ (scan_documents demo_digest (λ n, n) (λ _, "") [abcd_file]) demo_files;
  '(plan, _) ← build_search_plan demo_digest (λ n, n) (λ _, Some abcd_hir) (mkSearchRequest false None) [];
  match ('(layer, _, _) ← built; search_candidates demo_digest (λ n, n) (base_index layer) plan None (mkEngineStats 0 0)) with
  | Ok paths => Some (plan, paths)
  | Err _ => None
  end.

(** The pruning of a conjunction can lose a match. For the pattern [[ab]cd], whose
    plan asks for cd and for acd or bcd, the file with acd across a bucket boundary is a
    candidate and holds the planned literals, but it is pruned, because the literal cd
    begins in a later bucket than the literals of the second child. *)
Theorem and_pruning_loses_match :
  ∃ plan, abcd_search = Some (plan, ({["a.txt"]}, ∅)) ∧
    hir_lang (λ class s, ∃ c, c ∈ class ∧ s = [c]) abcd_hir [97; 99; 100]%Z ∧
    occurs [97; 99; 100]%Z (sf_bytes abcd_file) ∧ plan_holds plan (sf_bytes abcd_file).
Proof.
  eexists. split; [vm_compute; reflexivity|]. split_and!.
  - exists [97]%Z, [99; 100]%Z. split; [done|]. split; [exists 97%Z; by repeat constructor|].
    exists [99; 100]%Z, []. done.
  - by exists [46; 46]%Z, [46; 46; 46; 46; 46; 46; 46; 46; 46; 46; 46]%Z.
  - cbn [plan_holds foldr]. split_and!; [|left|done].
    + by exists [46; 46; 97]%Z, [46; 46; 46; 46; 46; 46; 46; 46; 46; 46; 46]%Z.
    + by exists [46; 46]%Z, [46; 46; 46; 46; 46; 46; 46; 46; 46; 46; 46]%Z.
Qed.

