(* ===== verification/Scheduler.v ===== *)
(** * The step scheduler

    Models [src/crates/context-scheduler-core/src/types.rs] and [runtime.rs]:
    validation of a request, Kahn's topological order, the budgeted schedule
    and the plan mutations.  A [HashMap] is a [gmap]; where the code iterates
    one, it sorts the result by a key that is unique, so the map's own order
    does not show. *)

From S2P Require Export Str.

(** ** Data *)

Record ScheduleBudget : Type := mkScheduleBudget {
  token_cap : option Z;
  byte_cap : option Z;
  runtime_ms_cap : option Z
}.

Record StepEstimate : Type := mkStepEstimate {
  tokens : Z;
  bytes : Z;
  runtime_ms : Z
}.

Record ScheduleStep : Type := mkScheduleStep {
  step_id : string;
  target : string;
  depends_on : list string;
  estimate : StepEstimate
}.

Record ScheduleRequest : Type := mkScheduleRequest {
  steps : list ScheduleStep;
  budget : ScheduleBudget
}.

Record SkippedStep : Type := mkSkippedStep { skipped_id : string; reason : string }.

Record ScheduleResult : Type := mkScheduleResult {
  ordered_steps : list ScheduleStep;
  skipped_steps : list SkippedStep;
  estimated_usage : StepEstimate;
  budget_exhausted : bool
}.

Inductive ScheduleError : Type :=
| EmptyStepId
| DuplicateStepId (id : string)
| UnknownDependency (step_id depends_on : string)
| DependencyCycle.

Definition default_budget : ScheduleBudget :=
  {| token_cap := None; byte_cap := None; runtime_ms_cap := None |}.
Definition default_estimate : StepEstimate := {| tokens := 0; bytes := 0; runtime_ms := 0 |}.

(** ** Validation *)

(** The first loop: [known] after it, or the error it returns. *)
Fixpoint collect_known (known : gset string) (l : list ScheduleStep)
    : result ScheduleError (gset string) :=
  match l with
  | [] => Ok known
  | step :: l =>
      if is_blank (step_id step) then Err EmptyStepId
      else if decide (step_id step ∈ known) then Err (DuplicateStepId (step_id step))
      else collect_known ({[step_id step]} ∪ known) l
  end.

Fixpoint check_deps (known : gset string) (id : string) (deps : list string)
    : result ScheduleError () :=
  match deps with
  | [] => Ok ()
  | dep :: deps =>
      if decide (dep ∈ known) then check_deps known id deps else Err (UnknownDependency id dep)
  end.

Fixpoint check_all_deps (known : gset string) (l : list ScheduleStep) : result ScheduleError () :=
  match l with
  | [] => Ok ()
  | step :: l => check_deps known (step_id step) (depends_on step) ;; check_all_deps known l
  end.

Definition validate_request (request : ScheduleRequest) : result ScheduleError () :=
  known ← collect_known ∅ (steps request);
  check_all_deps known (steps request).

(** ** Topological order *)

Record TopoMaps : Type := mkTopoMaps {
  indegree : gmap string nat;
  outgoing : gmap string (list string);
  steps_by_id : gmap string ScheduleStep;
  first_seen_index : gmap string nat
}.

(** One turn of the first loop over [steps.iter().enumerate()]. *)
Definition register_step (idx : nat) (step : ScheduleStep) (m : TopoMaps) : TopoMaps :=
  let id := step_id step in
  {| indegree := <[id := default 0 (indegree m !! id)]> (indegree m);
     outgoing := <[id := default [] (outgoing m !! id)]> (outgoing m);
     steps_by_id := <[id := step]> (steps_by_id m);
     first_seen_index := <[id := idx]> (first_seen_index m) |}.

Fixpoint topo_register (idx : nat) (l : list ScheduleStep) (m : TopoMaps) : TopoMaps :=
  match l with
  | [] => m
  | step :: l => topo_register (S idx) l (register_step idx step m)
  end.

(** One dependency edge of the second loop. *)
Definition topo_edge (id : string) (m : gmap string nat * gmap string (list string)) (dep : string) :=
  (<[id := S (default 0 (m.1 !! id))]> m.1,
   <[dep := default [] (m.2 !! dep) ++ [id]]> m.2).

Definition topo_edges (l : list ScheduleStep) (m : gmap string nat * gmap string (list string)) :=
  foldl (λ m step, foldl (topo_edge (step_id step)) m (depends_on step)) m l.

(** One child of the inner [for] loop: decrement, enqueue at zero. *)
Definition visit_child (st : gmap string nat * list string) (child : string) :=
  match st.1 !! child with
  | Some indeg =>
      let indeg := indeg - 1 in
      (<[child := indeg]> st.1, if indeg =? 0 then st.2 ++ [child] else st.2)
  | None => st
  end.

(** The [while let Some(id) = queue.pop_front()] loop, one turn per unit of
    fuel.  [None]: the fuel ran out, or [expect] panicked. *)
Fixpoint topo_loop (fuel : nat) (out : gmap string (list string)) (by_id : gmap string ScheduleStep)
    (indeg : gmap string nat) (queue : list string) (ordered : list ScheduleStep)
    : option (list ScheduleStep) :=
  match queue with
  | [] => Some ordered
  | id :: queue =>
      match fuel with
      | O => None
      | S fuel =>
          step ← by_id !! id;
          let '(indeg, queue) := foldl visit_child (indeg, queue) (default [] (out !! id)) in
          topo_loop fuel out by_id indeg queue (ordered ++ [step])
      end
  end.

(** [indegree.iter().filter_map(..)]: the ids that wait for nothing. *)
Definition zero_keys (kv : list (string * nat)) : list string :=
  omap (λ '(id, d), if d =? 0 then Some id else None) kv.

Definition topological_order (l : list ScheduleStep) : option (result ScheduleError (list ScheduleStep)) :=
  let m := topo_register 0 l (mkTopoMaps ∅ ∅ ∅ ∅) in
  let '(indeg, out) := topo_edges l (indegree m, outgoing m) in
  let ready := zero_keys (map_to_list indeg) in
  let seen id := default usize_max (Z.of_nat <$> first_seen_index m !! id) in
  let queue := sort_by (λ a b, (seen a <=? seen b)%Z) ready in
  ordered ← topo_loop (length l) out (steps_by_id m) indeg queue [];
  Some (if length ordered =? length l then Ok ordered else Err DependencyCycle).

(** ** The budgeted schedule *)

Definition exceeds_cap (max used add : Z) (cap : option Z) : bool :=
  match cap with Some cap => (cap <? saturating_add max used add)%Z | None => false end.

Definition exceeds_budget (current add : StepEstimate) (b : ScheduleBudget) : bool :=
  exceeds_cap u64_max (tokens current) (tokens add) (token_cap b)
  || exceeds_cap usize_max (bytes current) (bytes add) (byte_cap b)
  || exceeds_cap u64_max (runtime_ms current) (runtime_ms add) (runtime_ms_cap b).

Definition add_estimate (usage add : StepEstimate) : StepEstimate :=
  {| tokens := saturating_add u64_max (tokens usage) (tokens add);
     bytes := saturating_add usize_max (bytes usage) (bytes add);
     runtime_ms := saturating_add u64_max (runtime_ms usage) (runtime_ms add) |}.

Record ScheduleState : Type := mkScheduleState {
  ss_ordered : list ScheduleStep;
  ss_skipped : list SkippedStep;
  ss_accepted : gmap string bool;
  ss_usage : StepEstimate;
  ss_exhausted : bool
}.

(** The loop over [topo]; the [break] ends it. *)
Fixpoint schedule_loop (b : ScheduleBudget) (topo : list ScheduleStep) (st : ScheduleState) : ScheduleState :=
  match topo with
  | [] => st
  | step :: rest =>
      if existsb (λ dep, negb (default false (ss_accepted st !! dep))) (depends_on step) then
        schedule_loop b rest
          {| ss_ordered := ss_ordered st;
             ss_skipped := ss_skipped st ++ [mkSkippedStep (step_id step) "dependency_not_satisfied"];
             ss_accepted := <[step_id step := false]> (ss_accepted st);
             ss_usage := ss_usage st; ss_exhausted := ss_exhausted st |}
      else if exceeds_budget (ss_usage st) (estimate step) b then
        {| ss_ordered := ss_ordered st;
           ss_skipped := ss_skipped st
             ++ ((λ s, mkSkippedStep (step_id s) "budget_exceeded") <$> step :: rest);
           ss_accepted := foldl (λ m s, <[step_id s := false]> m) (ss_accepted st) (step :: rest);
           ss_usage := ss_usage st; ss_exhausted := true |}
      else
        schedule_loop b rest
          {| ss_ordered := ss_ordered st ++ [step];
             ss_skipped := ss_skipped st;
             ss_accepted := <[step_id step := true]> (ss_accepted st);
             ss_usage := add_estimate (ss_usage st) (estimate step); ss_exhausted := ss_exhausted st |}
  end.

Definition schedule (request : ScheduleRequest) : option (result ScheduleError ScheduleResult) :=
  match validate_request request with
  | Err e => Some (Err e)
  | Ok _ =>
      topo ← topological_order (steps request);
      Some (topo ← topo;
        let st := schedule_loop (budget request) topo (mkScheduleState [] [] ∅ default_estimate false) in
        Ok {| ordered_steps := ss_ordered st; skipped_steps := ss_skipped st;
              estimated_usage := ss_usage st; budget_exhausted := ss_exhausted st |})
  end.

(** ** Validation: what it accepts *)

Definition ids (l : list ScheduleStep) : list string := step_id <$> l.

Record well_formed (l : list ScheduleStep) : Prop := {
  wf_unique : NoDup (ids l);
  wf_nonblank : Forall (λ id, is_blank id = false) (ids l);
  wf_known : ∀ s d, s ∈ l → d ∈ depends_on s → d ∈ ids l
}.

Section Validate.
Implicit Types (l : list ScheduleStep) (known : gset string).

Lemma collect_known_spec known l k :
  collect_known known l = Ok k ↔
  NoDup (ids l) ∧ Forall (λ id, is_blank id = false) (ids l) ∧
  (∀ id, id ∈ ids l → id ∉ known) ∧ k = known ∪ list_to_set (ids l).
Proof.
  revert known. induction l as [|step l IH]; intros known; simpl.
  - split; [intros [= <-]|intros (_ & _ & _ & ->); f_equal; set_solver].
    split_and!; [constructor|constructor|set_solver|set_solver].
  - rewrite NoDup_cons, Forall_cons. destruct (is_blank (step_id step)) eqn:Eb; [naive_solver|].
    case_decide as Hk.
    { split; [done|]. intros (_ & _ & Hn & _). exfalso. apply (Hn (step_id step)); [left|done]. }
    rewrite IH. unfold ids. split.
    + intros (Hnd & Hf & Hn & ->). split_and!; try done; [|set_solver..].
      intros Hin. apply (Hn _ Hin). set_solver.
    + intros ((Hni & Hnd) & (_ & Hf) & Hn & ->). split_and!; try done; [|set_solver].
      intros id Hid. apply not_elem_of_union. split; [|apply Hn; by right].
      apply not_elem_of_singleton. by intros ->.
Qed.

Lemma check_deps_spec known id deps u :
  check_deps known id deps = Ok u ↔ ∀ d, d ∈ deps → d ∈ known.
Proof.
  destruct u. induction deps as [|d deps IH]; simpl; [split; [by intros _ ? ?%elem_of_nil|done]|].
  setoid_rewrite elem_of_cons. case_decide; [rewrite IH; naive_solver|naive_solver].
Qed.

Lemma check_all_deps_spec known l u :
  check_all_deps known l = Ok u ↔ ∀ s d, s ∈ l → d ∈ depends_on s → d ∈ known.
Proof.
  destruct u. induction l as [|step l IH]; simpl; [split; [by intros _ ? ? ?%elem_of_nil|done]|].
  setoid_rewrite elem_of_cons. rewrite bind_Ok_inv. setoid_rewrite check_deps_spec. setoid_rewrite IH.
  split; [intros (_ & ? & ?); naive_solver|]. intros H. exists (). naive_solver.
Qed.

Lemma validate_request_spec r u : validate_request r = Ok u ↔ well_formed (steps r).
Proof.
  unfold validate_request. rewrite bind_Ok_inv. setoid_rewrite collect_known_spec.
  setoid_rewrite check_all_deps_spec. split.
  - intros (k & (Hnd & Hb & _ & ->) & Hk). split; [done..|].
    intros s d Hs Hd. specialize (Hk s d Hs Hd). set_solver.
  - intros [Hnd Hb Hk]. eexists. split; [split_and!; [done..|set_solver|done]|].
    intros s d Hs Hd. specialize (Hk s d Hs Hd). set_solver.
Qed.

Lemma step_id_inj l s s' : NoDup (ids l) → s ∈ l → s' ∈ l → step_id s = step_id s' → s = s'.
Proof.
  intros Hnd [i Hi]%list_elem_of_lookup [j Hj]%list_elem_of_lookup Heq.
  assert (i = j) as ->; [|congruence].
  apply (NoDup_lookup (ids l) i j (step_id s) Hnd); unfold ids; rewrite list_lookup_fmap.
  - by rewrite Hi.
  - rewrite Hj. simpl. congruence.
Qed.
End Validate.

(** ** Kahn's algorithm: the maps *)

(** An order in which every dependency of a step stands before it. *)
Definition deps_before (out : list ScheduleStep) : Prop :=
  ∀ pre s post, out = pre ++ s :: post → ∀ d, d ∈ depends_on s → d ∈ ids pre.

Definition valid_order (l out : list ScheduleStep) : Prop := out ≡ₚ l ∧ deps_before out.

(** The number of occurrences in [deps] outside [P]. *)
Definition remaining (P deps : list string) : nat := length (filter (.∉ P) deps).

(** What the steps of [l] with id [c] contribute, [f] each. *)
Definition sum_for (f : ScheduleStep → nat) (c : string) (l : list ScheduleStep) : nat :=
  sum_list ((λ s, if decide (step_id s = c) then f s else 0) <$> l).

Section TopoMaps.
Implicit Types (l : list ScheduleStep) (c d : string).

Lemma sum_for_cons f c s l :
  sum_for f c (s :: l) = (if decide (step_id s = c) then f s else 0) + sum_for f c l.
Proof. done. Qed.

Lemma sum_for_notin f c l : c ∉ ids l → sum_for f c l = 0.
Proof.
  induction l as [|s l IH]; [done|]. unfold ids. rewrite fmap_cons, not_elem_of_cons.
  intros [? ?]. rewrite sum_for_cons, decide_False by done. by apply IH.
Qed.

Lemma sum_for_in f s l : NoDup (ids l) → s ∈ l → sum_for f (step_id s) l = f s.
Proof.
  unfold ids. induction l as [|s' l IH]; intros Hnd; [by intros ?%elem_of_nil|].
  rewrite fmap_cons in Hnd. apply NoDup_cons in Hnd as [Hni Hnd]. rewrite sum_for_cons.
  intros [->|Hin]%elem_of_cons.
  - rewrite decide_True, sum_for_notin by done. lia.
  - rewrite decide_False; [by apply IH|]. intros Heq. apply Hni. rewrite Heq. by apply list_elem_of_fmap_2.
Qed.

Lemma topo_register_notin idx l m c :
  c ∉ ids l →
  indegree (topo_register idx l m) !! c = indegree m !! c ∧
  outgoing (topo_register idx l m) !! c = outgoing m !! c ∧
  steps_by_id (topo_register idx l m) !! c = steps_by_id m !! c.
Proof.
  revert idx m. induction l as [|s l IH]; intros idx m; [done|].
  unfold ids. rewrite fmap_cons, not_elem_of_cons. intros [Hne Hni]. simpl.
  destruct (IH (S idx) (register_step idx s m) Hni) as (-> & -> & ->).
  simpl. by rewrite !lookup_insert_ne.
Qed.

Lemma topo_register_in idx l m s :
  NoDup (ids l) → s ∈ l →
  indegree (topo_register idx l m) !! step_id s = Some (default 0 (indegree m !! step_id s)) ∧
  outgoing (topo_register idx l m) !! step_id s = Some (default [] (outgoing m !! step_id s)) ∧
  steps_by_id (topo_register idx l m) !! step_id s = Some s.
Proof.
  revert idx m. induction l as [|s' l IH]; intros idx m Hnd; [by intros ?%elem_of_nil|].
  unfold ids in Hnd. rewrite fmap_cons in Hnd. apply NoDup_cons in Hnd as [Hni Hnd].
  intros [->|Hin]%elem_of_cons; simpl.
  - destruct (topo_register_notin (S idx) l (register_step idx s' m) _ Hni) as (-> & -> & ->).
    simpl. by rewrite !lookup_insert_eq.
  - assert (step_id s' ≠ step_id s) as Hne
      by (intros Heq; apply Hni; rewrite Heq; by apply list_elem_of_fmap_2).
    destruct (IH (S idx) (register_step idx s' m) Hnd Hin) as (-> & -> & ->).
    simpl. by rewrite !lookup_insert_ne.
Qed.
End TopoMaps.

Section TopoEdges.
Implicit Types (l : list ScheduleStep) (c d : string).
Implicit Types (m : gmap string nat * gmap string (list string)).

Lemma topo_edge_fold id deps m c d :
  let m' := foldl (topo_edge id) m deps in
  default 0 (m'.1 !! c) = default 0 (m.1 !! c) + (if decide (id = c) then length deps else 0) ∧
  (m'.1 !! c = None ↔ m.1 !! c = None ∧ (id = c → deps = [])) ∧
  occ c (default [] (m'.2 !! d)) = occ c (default [] (m.2 !! d)) + (if decide (id = c) then occ d deps else 0).
Proof.
  revert m. induction deps as [|d0 deps IH]; intros m; simpl.
  { unfold occ. simpl. split_and!; [case_decide; lia|tauto|case_decide; simpl; lia]. }
  destruct (IH (topo_edge id m d0)) as (-> & -> & ->). unfold topo_edge. simpl. rewrite occ_cons.
  split_and!.
  - case_decide as Hd; [subst; rewrite lookup_insert_eq; simpl; lia|by rewrite lookup_insert_ne].
  - destruct (decide (id = c)) as [->|]; [rewrite lookup_insert_eq; naive_solver|].
    rewrite lookup_insert_ne by done. naive_solver.
  - destruct (decide (d = d0)) as [->|].
    + rewrite lookup_insert_eq. simpl. rewrite occ_app, occ_single.
      destruct (decide (id = c)) as [->|]; [rewrite decide_True by done; lia|].
      rewrite decide_False by done. lia.
    + rewrite lookup_insert_ne by done. case_decide; lia.
Qed.

Lemma topo_edges_spec l m c d :
  let m' := topo_edges l m in
  default 0 (m'.1 !! c) = default 0 (m.1 !! c) + sum_for (λ s, length (depends_on s)) c l ∧
  (c ∉ ids l → m'.1 !! c = m.1 !! c) ∧
  (is_Some (m.1 !! c) → is_Some (m'.1 !! c)) ∧
  occ c (default [] (m'.2 !! d)) = occ c (default [] (m.2 !! d)) + sum_for (λ s, occ d (depends_on s)) c l.
Proof.
  unfold topo_edges. revert m. induction l as [|s l IH]; intros m; simpl; [split_and!; done || lia|].
  destruct (topo_edge_fold (step_id s) (depends_on s) m c d) as (H1 & H2 & H3).
  destruct (IH (foldl (topo_edge (step_id s)) m (depends_on s))) as (-> & Hn & Hs & ->).
  rewrite H1, H3, !sum_for_cons. split_and!; [lia| | |lia].
  - intros [Hne Hni]%not_elem_of_cons. rewrite Hn by done.
    clear -Hne. generalize (depends_on s). intros deps. revert m.
    induction deps as [|d0 deps IHd]; intros m; simpl; [done|]. rewrite IHd. unfold topo_edge. simpl.
    by rewrite lookup_insert_ne.
  - intros Hm. apply Hs. destruct (_ !! c); [done|]. destruct (proj1 H2 eq_refl) as [E _].
    rewrite E in Hm. by destruct Hm.
Qed.
End TopoEdges.

(** ** Kahn's algorithm: the loop *)

Section TopoLoop.
Implicit Types (c d : string) (P deps : list string).

Lemma remaining_nil deps : remaining [] deps = length deps.
Proof.
  unfold remaining. f_equal. induction deps as [|d ds IH]; [done|]. rewrite filter_cons, decide_True, IH; [done|].
  by intros ?%elem_of_nil.
Qed.

Lemma remaining_0 P deps : remaining P deps = 0 ↔ ∀ d, d ∈ deps → d ∈ P.
Proof.
  unfold remaining. rewrite length_zero_iff_nil. split.
  - intros Hf d Hd. destruct (decide (d ∈ P)) as [|Hn]; [done|]. exfalso.
    assert (d ∈ filter (.∉ P) deps) as Hin by (by apply list_elem_of_filter). rewrite Hf in Hin.
    by apply elem_of_nil in Hin.
  - intros Hall. destruct (filter (.∉ P) deps) as [|d ds] eqn:E; [done|]. exfalso.
    assert (d ∈ filter (.∉ P) deps) as [Hn Hd]%list_elem_of_filter by (rewrite E; left). auto.
Qed.

Lemma remaining_snoc P d deps : d ∉ P → remaining P deps = remaining (P ++ [d]) deps + occ d deps.
Proof.
  intros Hd. unfold remaining. induction deps as [|d0 deps IH]; [done|].
  rewrite occ_cons, !filter_cons.
  destruct (decide (d = d0)) as [->|Hne].
  - rewrite decide_True by done. rewrite decide_False; [simpl; lia|]. intros Hn. apply Hn. set_solver.
  - destruct (decide (d0 ∉ P)) as [Hp|Hp].
    + rewrite decide_True; [simpl; lia|]. set_solver.
    + rewrite decide_False; [lia|]. set_solver.
Qed.

(** The inner [for] over the children of one step. *)
Lemma visit_children cs ind q :
  (∀ c, c ∈ cs → ∃ n, ind !! c = Some n ∧ occ c cs ≤ n) →
  ∃ ind' new, foldl visit_child (ind, q) cs = (ind', q ++ new) ∧ NoDup new ∧
    (∀ c, ind' !! c = (λ n, n - occ c cs) <$> ind !! c) ∧
    (∀ c, c ∈ new ↔ c ∈ cs ∧ ind !! c = Some (occ c cs)).
Proof.
  revert ind q. induction cs as [|c0 cs IH]; intros ind q Hcs; simpl.
  { exists ind, []. rewrite app_nil_r. split_and!; [done|constructor| |].
    - intros c. destruct (ind !! c); [|done]. simpl. f_equal. unfold occ. simpl. lia.
    - intros c. split; [by intros ?%elem_of_nil|by intros [?%elem_of_nil _]]. }
  destruct (Hcs c0) as (n & Hn & Hle); [left|]. rewrite occ_cons, decide_True in Hle by done.
  unfold visit_child at 2. simpl. rewrite Hn.
  set (ind1 := <[c0 := n - 1]> ind). set (q1 := if n - 1 =? 0 then q ++ [c0] else q).
  destruct (IH ind1 q1) as (ind' & new & -> & Hnd & Hind & Hnew).
  { intros c Hc. destruct (Hcs c) as (nc & Hnc & Hlec); [by right|]. rewrite occ_cons in Hlec.
    unfold ind1. destruct (decide (c = c0)) as [->|].
    - rewrite lookup_insert_eq. simplify_eq. eexists. split; [done|]. lia.
    - rewrite lookup_insert_ne by done. eauto with lia. }
  exists ind', ((if n - 1 =? 0 then [c0] else []) ++ new).
  assert (Hc0 : c0 ∈ new ↔ c0 ∈ cs ∧ n - 1 = occ c0 cs).
  { rewrite Hnew. unfold ind1. rewrite lookup_insert_eq. naive_solver. }
  split_and!.
  - unfold q1. case_match; by rewrite <- ?app_assoc.
  - destruct (n - 1 =? 0) eqn:E; [|done]. reflect_bool. simpl. apply NoDup_cons. split; [|done].
    rewrite Hc0. intros [Hin Heq]. rewrite E in Heq. symmetry in Heq. by apply occ_0 in Heq.
  - intros c. rewrite Hind, occ_cons. unfold ind1. destruct (decide (c = c0)) as [->|].
    + rewrite lookup_insert_eq, Hn. simpl. f_equal. lia.
    + by rewrite lookup_insert_ne.
  - intros c. rewrite elem_of_app, elem_of_cons, occ_cons. destruct (decide (c = c0)) as [->|].
    + rewrite Hc0, Hn. destruct (n - 1 =? 0) eqn:E; reflect_bool; rewrite ?list_elem_of_singleton, ?elem_of_nil.
      * split; [intros _|by left]. split; [by left|]. f_equal. lia.
      * split; [intros [[]|[? ?]]; split; [by left|f_equal; lia]|].
        intros [_ [= Heq]]. right. split; [|lia].
        destruct (decide (c0 ∈ cs)) as [|Hni]; [done|]. apply occ_0 in Hni. lia.
    + rewrite Hnew. unfold ind1. rewrite lookup_insert_ne by done.
      assert (c ∉ (if n - 1 =? 0 then [c0] else [])) by (case_match; set_solver). naive_solver.
Qed.

(** What the maps hold after both registration loops. *)
Record topo_graph (l : list ScheduleStep) (out : gmap string (list string))
    (by_id : gmap string ScheduleStep) : Prop := {
  tg_out s d : s ∈ l → occ (step_id s) (default [] (out !! d)) = occ d (depends_on s);
  tg_out_known c d : c ∈ default [] (out !! d) → c ∈ ids l;
  tg_by_id s : s ∈ l → by_id !! step_id s = Some s
}.

(** The loop invariant: [ordered] was popped, [queue] is waiting. *)
Record topo_inv (l : list ScheduleStep) (ind : gmap string nat) (queue : list string)
    (ordered : list ScheduleStep) : Prop := {
  ti_nodup : NoDup (ids ordered ++ queue);
  ti_queue : ∀ c, c ∈ queue → c ∈ ids l;
  ti_ordered : ∀ s, s ∈ ordered → s ∈ l;
  ti_ind : ∀ s, s ∈ l → ind !! step_id s = Some (remaining (ids ordered) (depends_on s));
  ti_ready : ∀ s, s ∈ l →
    step_id s ∈ ids ordered ++ queue ↔ remaining (ids ordered) (depends_on s) = 0;
  ti_deps : deps_before ordered
}.

Lemma elem_of_ids l c : c ∈ ids l ↔ ∃ s, s ∈ l ∧ step_id s = c.
Proof. unfold ids. rewrite list_elem_of_fmap. naive_solver. Qed.

Lemma ids_app l k : ids (l ++ k) = ids l ++ ids k.
Proof. apply fmap_app. Qed.

Lemma deps_before_snoc O s :
  deps_before O → (∀ d, d ∈ depends_on s → d ∈ ids O) → deps_before (O ++ [s]).
Proof.
  intros HO Hs pre s' post Heq d Hd. destruct post as [|p post _] using rev_ind.
  - apply app_inj_tail in Heq as [-> ->]. auto.
  - rewrite app_comm_cons, app_assoc in Heq. apply app_inj_tail in Heq as [-> _].
    by eapply HO.
Qed.

Lemma topo_step l out by_id ind id queue O s :
  topo_graph l out by_id → topo_inv l ind (id :: queue) O → s ∈ l → step_id s = id →
  ∃ ind' new, foldl visit_child (ind, queue) (default [] (out !! id)) = (ind', queue ++ new) ∧
    topo_inv l ind' (queue ++ new) (O ++ [s]).
Proof.
  intros Hg [Hnd Hq HO Hind Hready Hdeps] Hs <-. set (cs := default [] (out !! step_id s)).
  assert (HidO : step_id s ∉ ids O) by (apply NoDup_app in Hnd as (_ & H & _); intros Hin; apply (H _ Hin); left).
  assert (Hocc : ∀ s', s' ∈ l → occ (step_id s') cs = occ (step_id s) (depends_on s'))
    by (intros s' Hs'; by apply (tg_out _ _ _ Hg)).
  assert (Hrem : ∀ s', s' ∈ l → remaining (ids O) (depends_on s') =
      remaining (ids (O ++ [s])) (depends_on s') + occ (step_id s) (depends_on s')).
  { intros s' _. rewrite ids_app. by apply remaining_snoc. }
  destruct (visit_children cs ind queue) as (ind' & new & Hfold & Hndn & Hind' & Hnew).
  { intros c Hc. apply (tg_out_known _ _ _ Hg) in Hc. apply elem_of_ids in Hc as (s' & Hs' & <-).
    eexists. split; [by apply Hind|]. rewrite Hocc, Hrem by done. lia. }
  exists ind', new. split; [done|].
  assert (Hnew' : ∀ s', s' ∈ l → step_id s' ∈ new ↔
    0 < occ (step_id s) (depends_on s') ∧ remaining (ids (O ++ [s])) (depends_on s') = 0).
  { intros s' Hs'. rewrite Hnew, Hind, Hocc by done. rewrite (Hrem s') by done.
    assert (step_id s' ∈ cs ↔ 0 < occ (step_id s) (depends_on s')) as ->
      by (rewrite <- Hocc by done; by rewrite occ_pos).
    split; [intros [? [= ?]]; lia|intros [? ?]; split; [done|f_equal; lia]]. }
  assert (Hknown : ∀ c, c ∈ new → c ∈ ids l)
    by (intros c [Hc _]%Hnew; by apply (tg_out_known _ _ _ Hg) in Hc).
  assert (Hperm : ids (O ++ [s]) ++ queue ++ new = (ids O ++ step_id s :: queue) ++ new)
    by (rewrite ids_app; by rewrite <- !app_assoc).
  split.
  - rewrite Hperm. apply NoDup_app. split_and!; [done| |done].
    intros c Hc Hcn. destruct (proj1 (elem_of_ids _ _) (Hknown c Hcn)) as (s' & Hs' & <-).
    apply Hready in Hc; [|done]. apply Hnew' in Hcn as [? ?]; [|done]. rewrite Hrem in Hc by done. lia.
  - intros c [Hc|Hc]%elem_of_app; [apply Hq; by right|auto].
  - intros s' [?|Hs']%elem_of_app; [auto|]. apply list_elem_of_singleton in Hs' as ->. done.
  - intros s' Hs'. rewrite Hind', Hind by done. simpl. rewrite Hocc, Hrem by done. f_equal. lia.
  - intros s' Hs'. rewrite Hperm, elem_of_app, Hready, Hnew', Hrem by done. lia.
  - apply deps_before_snoc; [done|]. apply remaining_0, Hready; [done|]. apply elem_of_app. right. left.
Qed.

(** The loop ends within [length l] turns, with the invariant and an empty queue. *)
Lemma topo_loop_spec l out by_id fuel ind queue O :
  NoDup (ids l) → topo_graph l out by_id → topo_inv l ind queue O → length l ≤ length O + fuel →
  ∃ O' ind', topo_loop fuel out by_id ind queue O = Some O' ∧ topo_inv l ind' [] O'.
Proof.
  intros Hnd Hg. revert ind queue O. induction fuel as [|fuel IH]; intros ind queue O Hinv Hf;
    (destruct queue as [|id queue]; [by exists O, ind|]).
  - exfalso. assert (length (ids O ++ id :: queue) ≤ length (ids l)) as Hle.
    { apply submseteq_length, NoDup_submseteq; [apply Hinv|].
      intros c [Hc|Hc]%elem_of_app; [|by apply (ti_queue _ _ _ _ Hinv)].
      apply elem_of_ids in Hc as (s & Hs & <-). apply elem_of_ids. exists s. split; [|done]. by apply (ti_ordered _ _ _ _ Hinv). }
    unfold ids in Hle. rewrite length_app, !length_fmap in Hle. simpl in Hle. lia.
  - assert (id ∈ ids l) as Hin by (apply (ti_queue _ _ _ _ Hinv); left).
    apply elem_of_ids in Hin as (s & Hs & Hid).
    destruct (topo_step l out by_id ind id queue O s) as (ind' & new & Hfold & Hinv'); [done..|].
    cbn [topo_loop]. rewrite <- Hid, (tg_by_id _ _ _ Hg s Hs). cbn. rewrite Hid, Hfold.
    apply IH; [done|]. rewrite length_app. simpl. lia.
Qed.
End TopoLoop.

(** ** Kahn's algorithm: the result *)

Section TopoResult.
Implicit Types (l out : list ScheduleStep) (c d : string).

Lemma elem_of_zero_keys kv c : c ∈ zero_keys kv ↔ (c, 0) ∈ kv.
Proof.
  unfold zero_keys. rewrite list_elem_of_omap. split.
  - intros ([k d] & Hin & Heq). destruct (d =? 0) eqn:E; reflect_bool; naive_solver.
  - intros Hin. by exists (c, 0).
Qed.

Lemma NoDup_zero_keys kv : NoDup kv.*1 → NoDup (zero_keys kv).
Proof.
  induction kv as [|[k d] kv IH]; [done|]. rewrite fmap_cons, NoDup_cons. intros [Hk Hnd].
  unfold zero_keys. simpl. destruct (d =? 0) eqn:E; reflect_bool; [|by apply IH].
  apply NoDup_cons. split; [|by apply IH]. intros Hin. apply elem_of_zero_keys in Hin.
  apply Hk. by apply (list_elem_of_fmap_2 fst) in Hin.
Qed.

(** The maps after both loops describe the graph of [l]; the first queue
    holds the steps without dependencies. *)
Lemma topo_start l :
  NoDup (ids l) → (∀ s d, s ∈ l → d ∈ depends_on s → d ∈ ids l) →
  let m := topo_register 0 l (mkTopoMaps ∅ ∅ ∅ ∅) in
  let m' := topo_edges l (indegree m, outgoing m) in
  topo_graph l m'.2 (steps_by_id m) ∧
  ∀ queue, queue ≡ₚ zero_keys (map_to_list m'.1) → topo_inv l m'.1 queue [].
Proof.
  intros Hnd Hknown m m'.
  assert (Hreg : ∀ s, s ∈ l → indegree m !! step_id s = Some 0 ∧
      outgoing m !! step_id s = Some [] ∧ steps_by_id m !! step_id s = Some s)
    by (intros s Hs; exact (topo_register_in 0 l (mkTopoMaps ∅ ∅ ∅ ∅) s Hnd Hs)).
  assert (Hnreg : ∀ c, c ∉ ids l → indegree m !! c = None ∧ outgoing m !! c = None)
    by (intros c Hc; destruct (topo_register_notin 0 l (mkTopoMaps ∅ ∅ ∅ ∅) c Hc) as (? & ? & _); split; done).
  assert (Hout0 : ∀ d, default [] (outgoing m !! d) = []).
  { intros d. destruct (decide (d ∈ ids l)) as [Hd|Hd].
    - apply elem_of_ids in Hd as (s & Hs & <-). by destruct (Hreg s Hs) as (_ & -> & _).
    - by destruct (Hnreg d Hd) as [_ ->]. }
  assert (Hind : ∀ s, s ∈ l → m'.1 !! step_id s = Some (remaining [] (depends_on s))).
  { intros s Hs. destruct (topo_edges_spec l (indegree m, outgoing m) (step_id s) "") as (Hd & _ & Hs' & _).
    destruct (Hreg s Hs) as (E & _). simpl in *. rewrite E in Hd, Hs'.
    rewrite sum_for_in in Hd by done. destruct Hs' as [n Hn]; [eauto|].
    unfold m'. rewrite Hn in *. simpl in Hd. rewrite Hd, remaining_nil. done. }
  assert (Hnone : ∀ c, c ∉ ids l → m'.1 !! c = None).
  { intros c Hc. destruct (topo_edges_spec l (indegree m, outgoing m) c "") as (_ & Hx & _).
    unfold m'. rewrite Hx by done. by apply Hnreg. }
  split.
  - split.
    + intros s d Hs. destruct (topo_edges_spec l (indegree m, outgoing m) (step_id s) d) as (_ & _ & _ & E).
      unfold m'. rewrite E. simpl. by rewrite Hout0, occ_nil, sum_for_in.
    + intros c d Hc. apply occ_pos in Hc.
      destruct (topo_edges_spec l (indegree m, outgoing m) c d) as (_ & _ & _ & E). unfold m' in Hc.
      rewrite E in Hc. simpl in Hc. rewrite Hout0, occ_nil in Hc.
      destruct (decide (c ∈ ids l)) as [|Hn]; [done|]. rewrite sum_for_notin in Hc by done. lia.
    + intros s Hs. by apply Hreg.
  - intros queue Hq.
    assert (Hin : ∀ c, c ∈ queue ↔ m'.1 !! c = Some 0)
      by (intros c; by rewrite Hq, elem_of_zero_keys, elem_of_map_to_list).
    split; simpl.
    + rewrite Hq. apply NoDup_zero_keys, NoDup_fst_map_to_list.
    + intros c Hc. apply Hin in Hc. destruct (decide (c ∈ ids l)) as [|Hn]; [done|].
      rewrite Hnone in Hc; done.
    + by intros s ?%elem_of_nil.
    + done.
    + intros s Hs. rewrite Hin, Hind by done. naive_solver.
    + intros pre s post Heq. by destruct pre.
Qed.

Lemma deps_before_closed l out (P : list string) :
  (∀ s, s ∈ out → s ∈ l) → deps_before out →
  (∀ s, s ∈ l → (∀ d, d ∈ depends_on s → d ∈ P) → step_id s ∈ P) →
  ∀ s, s ∈ out → step_id s ∈ P.
Proof.
  intros Hsub Hdeps Hcl.
  assert (∀ pre post, out = pre ++ post → ∀ c, c ∈ ids pre → c ∈ P) as Hpre.
  { induction pre as [|s pre IH] using rev_ind; intros post Heq c Hc; [by apply elem_of_nil in Hc|].
    rewrite <- app_assoc in Heq. rewrite ids_app in Hc. apply elem_of_app in Hc as [Hc|Hc]; [by eapply IH|].
    apply list_elem_of_singleton in Hc as ->. apply Hcl; [apply Hsub; rewrite Heq; set_solver|].
    intros d Hd. eapply IH; [done|]. by eapply Hdeps. }
  intros s Hs. apply (Hpre out []); [by rewrite app_nil_r|]. by apply list_elem_of_fmap_2.
Qed.

Lemma topological_order_total l :
  NoDup (ids l) → (∀ s d, s ∈ l → d ∈ depends_on s → d ∈ ids l) →
  (∃ out, topological_order l = Some (Ok out) ∧ valid_order l out) ∨
  (topological_order l = Some (Err DependencyCycle) ∧ ∀ out, ¬ valid_order l out).
Proof.
  intros Hnd Hknown. destruct (topo_start l Hnd Hknown) as [Hg Hi].
  unfold topological_order. destruct (topo_edges l _) as [indeg out] eqn:E. simpl in *.
  set (q := sort_by _ _). assert (Hq : q ≡ₚ zero_keys (map_to_list indeg)) by apply sort_by_perm.
  destruct (topo_loop_spec l out _ (length l) indeg q [] Hnd Hg (Hi q Hq)) as (O & ind' & -> & Hinv);
    [simpl; lia|]. simpl. destruct Hinv as [HndO _ HO _ Hready Hdeps].
  rewrite app_nil_r in HndO.
  assert (Hclosed : ∀ s, s ∈ l → (∀ d, d ∈ depends_on s → d ∈ ids O) → step_id s ∈ ids O).
  { intros s Hs Hd. rewrite app_nil_r in Hready. apply Hready; [done|]. by apply remaining_0. }
  destruct (length O =? length l) eqn:El; reflect_bool.
  - left. exists O. split; [done|]. split; [|done]. apply submseteq_length_Permutation; [|lia].
    apply NoDup_submseteq; [exact (NoDup_fmap_1 step_id _ HndO)|done].
  - right. split; [done|]. intros out' [Hp Hd]. apply El. apply Nat.le_antisymm.
    + apply submseteq_length, NoDup_submseteq; [exact (NoDup_fmap_1 step_id _ HndO)|done].
    + rewrite <- (length_fmap step_id l), <- (length_fmap step_id O).
      apply submseteq_length, NoDup_submseteq; [done|]. intros c Hc.
      apply elem_of_ids in Hc as (s & Hs & <-).
      eapply deps_before_closed; [|exact Hd|exact Hclosed|by rewrite Hp]. intros ?. by rewrite Hp.
Qed.
End TopoResult.

(** ** The budgeted schedule: what it selects *)

(** The usage of a list of steps, each field the sum capped at its width. *)
Definition usage_of (l : list ScheduleStep) : StepEstimate :=
  {| tokens := Z.min u64_max (sumZ ((tokens ∘ estimate) <$> l));
     bytes := Z.min usize_max (sumZ ((bytes ∘ estimate) <$> l));
     runtime_ms := Z.min u64_max (sumZ ((runtime_ms ∘ estimate) <$> l)) |}.

Definition under_cap (x : Z) (cap : option Z) : Prop := ∀ c, cap = Some c → (x <= c)%Z.

Definition within_budget (b : ScheduleBudget) (u : StepEstimate) : Prop :=
  under_cap (tokens u) (token_cap b) ∧ under_cap (bytes u) (byte_cap b) ∧
  under_cap (runtime_ms u) (runtime_ms_cap b).

Definition estimate_ok (e : StepEstimate) : Prop :=
  fits u64_max (tokens e) ∧ fits usize_max (bytes e) ∧ fits u64_max (runtime_ms e).

Definition budget_ok (b : ScheduleBudget) : Prop :=
  (∀ c, token_cap b = Some c → (0 <= c)%Z) ∧ (∀ c, byte_cap b = Some c → (0 <= c)%Z) ∧
  (∀ c, runtime_ms_cap b = Some c → (0 <= c)%Z).

(** [pre] is the part of [topo] the budget [b] pays for: it fits, and one
    more step would not. *)
Definition budget_prefix (b : ScheduleBudget) (topo pre rest : list ScheduleStep) : Prop :=
  topo = pre ++ rest ∧ within_budget b (usage_of pre) ∧
  ∀ s rest', rest = s :: rest' → ¬ within_budget b (usage_of (pre ++ [s])).

Definition steps_ok (l : list ScheduleStep) : Prop := Forall (λ s, estimate_ok (estimate s)) l.

Section ScheduleLoop.
Implicit Types (b : ScheduleBudget) (l topo pre rest : list ScheduleStep).

Lemma exceeds_cap_false max u a cap :
  exceeds_cap max u a cap = false ↔ under_cap (saturating_add max u a) cap.
Proof.
  unfold exceeds_cap, under_cap. destruct cap as [c|]; [|naive_solver].
  rewrite Z.ltb_ge. naive_solver.
Qed.

Lemma exceeds_budget_false b u a : exceeds_budget u a b = false ↔ within_budget b (add_estimate u a).
Proof.
  unfold exceeds_budget, within_budget. rewrite !orb_false_iff, !exceeds_cap_false. simpl. tauto.
Qed.

Lemma usage_of_snoc pre s :
  steps_ok (pre ++ [s]) → add_estimate (usage_of pre) (estimate s) = usage_of (pre ++ [s]).
Proof.
  unfold steps_ok. rewrite Forall_app, Forall_singleton. intros [_ ((? & _) & (? & _) & (? & _))].
  unfold usage_of, add_estimate, saturating_add. rewrite !fmap_app, !sumZ_app. simpl.
  f_equal; lia.
Qed.

Definition accepted_are (P : list string) (acc : gmap string bool) : Prop :=
  ∀ c, default false (acc !! c) = bool_decide (c ∈ P).

(** The loop from a state that accepted [pre]. *)
Lemma schedule_loop_spec b pre topo acc :
  steps_ok (pre ++ topo) → deps_before (pre ++ topo) → accepted_are (ids pre) acc →
  within_budget b (usage_of pre) →
  ∃ pre' rest, pre ++ topo = pre' ++ rest ∧ budget_prefix b (pre ++ topo) pre' rest ∧
    let st := schedule_loop b topo (mkScheduleState pre [] acc (usage_of pre) false) in
    ss_ordered st = pre' ∧
    ss_skipped st = (λ s, mkSkippedStep (step_id s) "budget_exceeded") <$> rest ∧
    ss_usage st = usage_of pre' ∧ ss_exhausted st = negb (bool_decide (rest = [])).
Proof.
  revert pre acc. induction topo as [|s topo IH]; intros pre acc Hok Hdeps Hacc Hfit; cbn [schedule_loop].
  { exists pre, []. split_and!; [done| |done..]. split_and!; [done..|]. intros s r. discriminate. }
  assert (existsb (λ dep, negb (default false (acc !! dep))) (depends_on s) = false) as Hex.
  { apply not_true_is_false. intros (d & Hd & Hn)%existsb_exists. apply negb_true_iff in Hn.
    rewrite Hacc in Hn. apply bool_decide_eq_false in Hn. apply Hn.
    eapply (Hdeps pre s topo); [done|]. by apply list_elem_of_In. }
  cbn [ss_ordered ss_skipped ss_accepted ss_usage ss_exhausted]. rewrite Hex.
  assert (Hok1 : steps_ok (pre ++ [s])).
  { unfold steps_ok in *. rewrite Forall_app, Forall_cons in Hok. rewrite Forall_app, Forall_singleton. naive_solver. }
  destruct (exceeds_budget (usage_of pre) (estimate s) b) eqn:Eb.
  - exists pre, (s :: topo). split_and!; [done| |done..]. split_and!; [done..|].
    intros s' rest' [= <- <-] Hw. rewrite <- usage_of_snoc in Hw by done.
    apply exceeds_budget_false in Hw. congruence.
  - apply exceeds_budget_false in Eb. rewrite usage_of_snoc in Eb |- * by done.
    assert (pre ++ s :: topo = (pre ++ [s]) ++ topo) as Heq by (by rewrite <- app_assoc).
    rewrite Heq in Hok, Hdeps |- *.
    destruct (IH (pre ++ [s]) (<[step_id s := true]> acc)) as (pre' & rest & H); [done..| |done|by exists pre', rest].
    intros c. unfold ids. rewrite fmap_app. destruct (decide (c = step_id s)) as [->|Hne].
    + rewrite lookup_insert_eq. symmetry. apply bool_decide_eq_true. set_solver.
    + rewrite lookup_insert_ne, Hacc by done. apply bool_decide_ext. unfold ids. set_solver.
Qed.
End ScheduleLoop.

(** What a budgeted schedule of [r] is: a valid order cut at the budget. *)
Definition schedule_spec (r : ScheduleRequest) (res : ScheduleResult) : Prop :=
  ∃ topo rest, valid_order (steps r) topo ∧
    budget_prefix (budget r) topo (ordered_steps res) rest ∧
    skipped_steps res = (λ s, mkSkippedStep (step_id s) "budget_exceeded") <$> rest ∧
    estimated_usage res = usage_of (ordered_steps res) ∧
    budget_exhausted res = negb (bool_decide (rest = [])).

(** A well-formed request is scheduled, or has no valid order. *)
Lemma schedule_well_formed r :
  steps_ok (steps r) → budget_ok (budget r) → well_formed (steps r) →
  (∃ res, schedule r = Some (Ok res) ∧ schedule_spec r res) ∨
  (schedule r = Some (Err DependencyCycle) ∧ ∀ out, ¬ valid_order (steps r) out).
Proof.
  intros Hok (Hb1 & Hb2 & Hb3) Hwf. unfold schedule.
  rewrite (proj2 (validate_request_spec r ()) Hwf). destruct Hwf as [Hnd _ Hknown].
  destruct (topological_order_total (steps r) Hnd Hknown) as [(topo & -> & Hv)|[-> Hn]]; [|by right].
  left. destruct Hv as [Hp Hd].
  destruct (schedule_loop_spec (budget r) [] topo ∅) as (pre & rest & Ht & Hbp & Ho & Hs & Hu & He).
  - unfold steps_ok. simpl. by rewrite Hp.
  - done.
  - intros c. by rewrite lookup_empty.
  - unfold within_budget, under_cap, usage_of; simpl. split_and!; intros c Hc; eauto with lia.
    all: first [specialize (Hb1 c Hc)|specialize (Hb2 c Hc)|specialize (Hb3 c Hc)]; done || lia.
  - eexists. split; [done|]. exists topo, rest. simpl in *. change (usage_of []) with default_estimate in *.
    rewrite Ho, Hs, Hu, He. split_and!; done.
Qed.

(** Validation never reports a cycle. *)
Lemma validate_request_err r e : validate_request r = Err e → e ≠ DependencyCycle.
Proof.
  intros E ->. unfold validate_request in E. apply bind_Err_inv in E as [E|(k & _ & E)].
  - revert E. generalize (∅ : gset string). induction (steps r) as [|s l IH]; intros known; simpl; [done|].
    repeat case_match; try done. apply IH.
  - revert E. induction (steps r) as [|s l IH]; simpl; [done|]. intros [E|(? & _ & E)]%bind_Err_inv; [|auto].
    revert E. induction (depends_on s); simpl; [done|]. case_decide; [done|congruence].
Qed.

(** C34: the scheduler rejects exactly the ill-formed requests with a validation error,
    reports a dependency cycle exactly when no order puts every dependency first, and
    otherwise returns a valid topological order cut at the longest prefix the budget
    pays for, with the rest skipped as budget_exceeded and the usage of what it kept. It
    never panics. *)
Theorem schedule_correct r :
  steps_ok (steps r) → budget_ok (budget r) →
  (¬ well_formed (steps r) ∧ ∃ e, schedule r = Some (Err e) ∧ e ≠ DependencyCycle) ∨
  (well_formed (steps r) ∧
   ((∃ res, schedule r = Some (Ok res) ∧ schedule_spec r res) ∨
    (schedule r = Some (Err DependencyCycle) ∧ ∀ out, ¬ valid_order (steps r) out))).
Proof.
  intros Hok Hb. destruct (validate_request r) as [u|e] eqn:E.
  - apply validate_request_spec in E. right. split; [done|]. by apply schedule_well_formed.
  - left. split.
    + intros Hwf. apply (validate_request_spec r ()) in Hwf. congruence.
    + exists e. unfold schedule. rewrite E. split; [done|]. by eapply validate_request_err.
Qed.

Lemma schedule_correct_witness :
  let e := mkStepEstimate 10 10 10 in
  let r := mkScheduleRequest [mkScheduleStep "b" "t" ["a"] e; mkScheduleStep "a" "t" [] e]
             (mkScheduleBudget (Some 15%Z) None None) in
  ∃ res, schedule r = Some (Ok res) ∧ schedule_spec r res.
Proof.
  intros e r. destruct (schedule_correct r) as [(_ & err & Herr & _)|(_ & [Hok|[Hcyc _]])].
  - repeat constructor; vm_compute; discriminate.
  - split_and!; simpl; intros c Hc; simplify_eq; lia.
  - vm_compute in Herr. discriminate.
  - exact Hok.
  - vm_compute in Hcyc. discriminate.
Defined.

(** *** Orders of a smaller plan *)

Lemma fmap_filter_split {A B} (g : A → B) (p : A → Prop) `{∀ x, Decision (p x)} (l : list A) pre' x post' :
  g <$> filter p l = pre' ++ x :: post' →
  ∃ pre s post, l = pre ++ s :: post ∧ x = g s ∧ p s ∧ pre' = g <$> filter p pre.
Proof.
  revert pre'. induction l as [|a l IH]; intros pre' Heq; [by destruct pre'|].
  rewrite filter_cons in Heq. case_decide as Ha.
  - destruct pre' as [|b pre']; rewrite fmap_cons in Heq; injection Heq as Ha0 Heq; subst; [by exists [], a, l|].
    destruct (IH _ Heq) as (pre & s & post & -> & -> & Hs & ->). exists (a :: pre), s, post.
    split_and!; try done. rewrite filter_cons, decide_True by done. done.
  - destruct (IH _ Heq) as (pre & s & post & -> & -> & Hs & ->). exists (a :: pre), s, post.
    split_and!; try done. by rewrite filter_cons, decide_False.
Qed.

(** Dropping steps and dependencies keeps an order valid, when the dependencies
    that stay are on steps that stay. *)
Lemma deps_before_filter (g : ScheduleStep → ScheduleStep) (p : ScheduleStep → Prop) `{∀ x, Decision (p x)} out :
  (∀ s, step_id (g s) = step_id s) →
  (∀ s d, s ∈ out → p s → d ∈ depends_on (g s) →
     d ∈ depends_on s ∧ ∀ s', s' ∈ out → step_id s' = d → p s') →
  deps_before out → deps_before (g <$> filter p out).
Proof.
  intros Hg Hdeps Hout pre' x post' Heq d Hd.
  apply fmap_filter_split in Heq as (pre & s & post & -> & -> & Hs & ->).
  destruct (Hdeps s d) as [Hds Hp]; [set_solver|done|done|].
  pose proof (Hout pre s post eq_refl d Hds) as Hin. apply elem_of_ids in Hin as (s' & Hs' & <-).
  apply elem_of_ids. exists (g s'). rewrite Hg. split; [|done].
  apply list_elem_of_fmap_2, list_elem_of_filter. split; [|done]. apply Hp; set_solver.
Qed.

Lemma deps_before_head s out : deps_before (s :: out) → depends_on s = [].
Proof.
  intros Hd. destruct (depends_on s) as [|d ds] eqn:E; [done|].
  destruct (not_elem_of_nil d). eapply (Hd [] s out); [done|]. rewrite E. left.
Qed.

Lemma sumZ_head (f : ScheduleStep → Z) (s : ScheduleStep) (l : list ScheduleStep) :
  Forall (λ s, (0 <= f s)%Z) l → (f s <= sumZ (f <$> s :: l))%Z.
Proof.
  intros Hl. rewrite fmap_cons, sumZ_cons.
  pose proof (sumZ_nonneg (f <$> l) (proj2 (Forall_fmap _ _ _) Hl)). lia.
Qed.

Lemma within_budget_head b s l :
  steps_ok (s :: l) → within_budget b (usage_of (s :: l)) → within_budget b (estimate s).
Proof.
  intros Hok (H1 & H2 & H3). apply Forall_cons in Hok as [(Ht & Hb & Hr) Hl].
  pose proof (sumZ_head (tokens ∘ estimate) s l). pose proof (sumZ_head (bytes ∘ estimate) s l).
  pose proof (sumZ_head (runtime_ms ∘ estimate) s l). unfold steps_ok, estimate_ok, fits in *.
  unfold within_budget, under_cap, usage_of in *. cbn [tokens bytes runtime_ms] in *.
  assert (∀ f : ScheduleStep → Z, (∀ s, s ∈ l → (0 <= f s)%Z) → Forall (λ s, (0 <= f s)%Z) l) as Hf
    by (intros f Hf; apply Forall_forall; auto).
  rewrite Forall_forall in Hl. unfold compose in *.
  split_and!; intros c Hc; [specialize (H1 c Hc)|specialize (H2 c Hc)|specialize (H3 c Hc)].
  - assert (tokens (estimate s) <= sumZ ((λ s, tokens (estimate s)) <$> s :: l))%Z as Hle; [|lia].
    apply H, Hf. intros s' Hs'. destruct (Hl s' Hs') as ((? & _) & _ & _). done.
  - assert (bytes (estimate s) <= sumZ ((λ s, bytes (estimate s)) <$> s :: l))%Z as Hle; [|lia].
    apply H0, Hf. intros s' Hs'. destruct (Hl s' Hs') as (_ & (? & _) & _). done.
  - assert (runtime_ms (estimate s) <= sumZ ((λ s, runtime_ms (estimate s)) <$> s :: l))%Z as Hle; [|lia].
    apply H4, Hf. intros s' Hs'. destruct (Hl s' Hs') as (_ & _ & (? & _)). done.
Qed.

(** The first step of a schedule waits for nothing and fits the budget; when
    there is none the budget is exhausted. *)
Lemma schedule_head r :
  steps_ok (steps r) → budget_ok (budget r) → well_formed (steps r) →
  (∃ out, valid_order (steps r) out) → steps r ≠ [] →
  ∃ res, schedule r = Some (Ok res) ∧
    ((ordered_steps res = [] ∧ budget_exhausted res = true) ∨
     ∃ s rest, ordered_steps res = s :: rest ∧ s ∈ steps r ∧ depends_on s = [] ∧
       within_budget (budget r) (estimate s)).
Proof.
  intros Hok Hb Hwf [out0 Hv] Hne.
  destruct (schedule_well_formed r Hok Hb Hwf) as [(res & E & Hs)|[_ Hno]]; [|by destruct (Hno out0)].
  exists res. split; [done|]. destruct Hs as (topo & rest & [Hp Hd] & (-> & Hfit & _) & _ & _ & Hex).
  destruct (ordered_steps res) as [|s pre] eqn:Eo.
  - left. split; [done|]. rewrite Hex. destruct rest; [|done]. simpl in Hp. symmetry in Hp.
    by apply Permutation_nil_r in Hp.
  - right. exists s, pre. simpl in *. split; [done|]. split; [rewrite <- Hp; left|].
    split; [by eapply deps_before_head|]. eapply within_budget_head; [|done].
    unfold steps_ok in *. rewrite <- Hp in Hok. inversion Hok; subst. constructor; [done|].
    by apply Forall_app in H2 as [? _].
Qed.
