(* ===== verification/Plan.v ===== *)
(** * Plan mutations

    Models [apply_mutations] of [src/crates/context-scheduler-core/src/runtime.rs]
    and [apply_kernel_mutations] of
    [src/crates/context-kernel-mechanism/src/reactive_runtime.rs].  The two run
    the same loop over two step types, so the loop is written once against the
    class [PlanStep].  The code keeps the plan as a [HashMap] and an order
    vector; the reference [plan_mutate] works on the list of steps. *)

From S2P Require Export Scheduler.

(** What the mutation loop needs of a step. *)
Class PlanStep (S : Type) : Type := {
  ps_id : S → string;
  ps_deps : S → list string;
  ps_set_deps : list string → S → S;
  ps_id_set ds s : ps_id (ps_set_deps ds s) = ps_id s;
  ps_deps_set ds s : ps_deps (ps_set_deps ds s) = ds
}.

Definition set_depends_on (ds : list string) (s : ScheduleStep) : ScheduleStep :=
  {| step_id := step_id s; target := target s; depends_on := ds; estimate := estimate s |}.

#[export] Program Instance schedule_step_plan : PlanStep ScheduleStep :=
  {| ps_id := step_id; ps_deps := depends_on; ps_set_deps := set_depends_on |}.
Solve Obligations with done.

Inductive PlanMutation (S : Type) : Type :=
| Cancel (step_id reason : string)
| Replace (step : S) (reason : string)
| Append (step : S) (reason : string).
Arguments Cancel {S} step_id reason.
Arguments Replace {S} step reason.
Arguments Append {S} step reason.

Definition ScheduleMutation : Type := PlanMutation ScheduleStep.

Record AppliedMutation : Type := mkAppliedMutation { am_kind : string; am_step_id : string; am_reason : string }.

Record PlanState (S : Type) : Type := mkPlanState {
  by_id : gmap string S;
  order : list string;
  applied : list AppliedMutation
}.
Arguments mkPlanState {S}.
Arguments by_id {S}.
Arguments order {S}.
Arguments applied {S}.

Section Mutations.
Context {S : Type} `{PlanStep S}.
Implicit Types (l : list S) (s : S) (st : PlanState S).

(** [step.depends_on.retain(|d| d != dep)]. *)
Definition retain_deps (dep : string) (s : S) : S :=
  ps_set_deps (filter (λ d, d ≠ dep) (ps_deps s)) s.

Definition initial_plan (l : list S) : PlanState S :=
  {| by_id := foldl (λ acc s, <[ps_id s := s]> acc) ∅ l; order := ps_id <$> l; applied := [] |}.

(** One turn of the loop over the mutations. *)
Definition apply_mutation (st : PlanState S) (m : PlanMutation S) : PlanState S :=
  match m with
  | Cancel id reason =>
      match by_id st !! id with
      | Some _ =>
          {| by_id := retain_deps id <$> delete id (by_id st);
             order := filter (λ c, c ≠ id) (order st);
             applied := applied st ++ [mkAppliedMutation "cancel" id reason] |}
      | None => st
      end
  | Replace step reason =>
      match by_id st !! ps_id step with
      | Some _ =>
          {| by_id := <[ps_id step := step]> (by_id st); order := order st;
             applied := applied st ++ [mkAppliedMutation "replace" (ps_id step) reason] |}
      | None => st
      end
  | Append step reason =>
      match by_id st !! ps_id step with
      | Some _ => st
      | None =>
          {| by_id := <[ps_id step := step]> (by_id st); order := order st ++ [ps_id step];
             applied := applied st ++ [mkAppliedMutation "append" (ps_id step) reason] |}
      end
  end.

(** [order.into_iter().filter_map(|id| by_id.remove(&id))]. *)
Fixpoint drain_order (ord : list string) (by_id : gmap string S) : list S :=
  match ord with
  | [] => []
  | id :: ord =>
      match by_id !! id with
      | Some s => s :: drain_order ord (delete id by_id)
      | None => drain_order ord by_id
      end
  end.

Definition plan_result (st : PlanState S) : list S := drain_order (order st) (by_id st).

(** *** The reference: a plan is the list of its steps *)

Definition plan_ids (l : list S) : list string := ps_id <$> l.

Definition plan_mutate (l : list S) (m : PlanMutation S) : list S :=
  match m with
  | Cancel id _ =>
      if decide (id ∈ plan_ids l) then retain_deps id <$> filter (λ s, ps_id s ≠ id) l else l
  | Replace step _ => (λ s, if decide (ps_id s = ps_id step) then step else s) <$> l
  | Append step _ => if decide (ps_id step ∈ plan_ids l) then l else l ++ [step]
  end.

(** Which mutations take effect. *)
Definition plan_applied (l : list S) (m : PlanMutation S) : list AppliedMutation :=
  match m with
  | Cancel id reason => if decide (id ∈ plan_ids l) then [mkAppliedMutation "cancel" id reason] else []
  | Replace step reason =>
      if decide (ps_id step ∈ plan_ids l) then [mkAppliedMutation "replace" (ps_id step) reason] else []
  | Append step reason =>
      if decide (ps_id step ∈ plan_ids l) then [] else [mkAppliedMutation "append" (ps_id step) reason]
  end.

Fixpoint plan_applied_all (l : list S) (ms : list (PlanMutation S)) : list AppliedMutation :=
  match ms with
  | [] => []
  | m :: ms => plan_applied l m ++ plan_applied_all (plan_mutate l m) ms
  end.

(** *** The refinement *)

Record plan_rep (st : PlanState S) (l : list S) : Prop := {
  pr_order : order st = plan_ids l;
  pr_nodup : NoDup (plan_ids l);
  pr_in s : s ∈ l → by_id st !! ps_id s = Some s;
  pr_out c : c ∉ plan_ids l → by_id st !! c = None
}.

Lemma elem_of_plan_ids l c : c ∈ plan_ids l ↔ ∃ s, s ∈ l ∧ ps_id s = c.
Proof. unfold plan_ids. rewrite list_elem_of_fmap. naive_solver. Qed.

Lemma plan_id_inj l s s' : NoDup (plan_ids l) → s ∈ l → s' ∈ l → ps_id s = ps_id s' → s = s'.
Proof.
  intros Hnd [i Hi]%list_elem_of_lookup [j Hj]%list_elem_of_lookup Heq.
  assert (i = j) as ->; [|congruence].
  apply (NoDup_lookup (plan_ids l) i j (ps_id s) Hnd); unfold plan_ids; rewrite list_lookup_fmap.
  - by rewrite Hi.
  - rewrite Hj. simpl. congruence.
Qed.

Lemma plan_lookup st l c : plan_rep st l → is_Some (by_id st !! c) ↔ c ∈ plan_ids l.
Proof.
  intros [Ho Hnd Hin Hout]. destruct (decide (c ∈ plan_ids l)) as [Hc|Hc].
  - split; [done|]. intros _. apply elem_of_plan_ids in Hc as (s & Hs & <-). rewrite Hin; eauto.
  - rewrite Hout by done. split; [by intros [? ?]|done].
Qed.

Lemma collect_by_id l (acc : gmap string S) :
  NoDup (plan_ids l) →
  (∀ c, c ∉ plan_ids l → foldl (λ acc s, <[ps_id s := s]> acc) acc l !! c = acc !! c) ∧
  (∀ s, s ∈ l → foldl (λ acc s, <[ps_id s := s]> acc) acc l !! ps_id s = Some s).
Proof.
  unfold plan_ids. revert acc. induction l as [|s l IH]; intros acc Hnd.
  { split; [done|]. by intros s ?%elem_of_nil. }
  rewrite fmap_cons in *. apply NoDup_cons in Hnd as [Hni Hnd].
  destruct (IH (<[ps_id s := s]> acc) Hnd) as [Hout Hin]. simpl. split.
  - intros c [Hne Hn]%not_elem_of_cons. rewrite Hout by done. by rewrite lookup_insert_ne.
  - intros s' [->|Hs']%elem_of_cons; [|auto]. rewrite Hout by done. by rewrite lookup_insert_eq.
Qed.

Lemma initial_plan_rep l : NoDup (plan_ids l) → plan_rep (initial_plan l) l.
Proof.
  intros Hnd. destruct (collect_by_id l ∅ Hnd) as [Hout Hin]. split; [done..|].
  intros c Hc. simpl. rewrite Hout by done. apply lookup_empty.
Qed.

Lemma retain_deps_id id s : ps_id (retain_deps id s) = ps_id s.
Proof. apply ps_id_set. Qed.

Lemma plan_ids_retain id l : plan_ids (retain_deps id <$> l) = plan_ids l.
Proof.
  unfold plan_ids. rewrite <- list_fmap_compose. apply list_fmap_ext. intros ? s _.
  unfold compose, retain_deps. by rewrite ps_id_set.
Qed.

Lemma plan_ids_filter id l : plan_ids (filter (λ s, ps_id s ≠ id) l) = filter (λ c, c ≠ id) (plan_ids l).
Proof.
  unfold plan_ids. induction l as [|s l IH]; [done|]. rewrite fmap_cons, !filter_cons.
  case_decide; [rewrite fmap_cons|]; by rewrite IH.
Qed.

Lemma plan_ids_replace step l :
  plan_ids ((λ s, if decide (ps_id s = ps_id step) then step else s) <$> l) = plan_ids l.
Proof.
  unfold plan_ids. rewrite <- list_fmap_compose. apply list_fmap_ext. intros ? s _. simpl.
  by case_decide.
Qed.

Lemma apply_mutation_rep st l mu :
  plan_rep st l →
  plan_rep (apply_mutation st mu) (plan_mutate l mu) ∧
  applied (apply_mutation st mu) = applied st ++ plan_applied l mu.
Proof.
  intros Hrep. pose proof (λ c, plan_lookup st l c Hrep) as Hlk. destruct Hrep as [Ho Hnd Hin Hout].
  destruct mu as [id r|step r|step r]; simpl.
  - specialize (Hlk id). destruct (by_id st !! id) as [s0|] eqn:E.
    + rewrite !decide_True by (apply Hlk; eauto). split; [|done]. split; simpl.
      * by rewrite plan_ids_retain, plan_ids_filter, Ho.
      * rewrite plan_ids_retain, plan_ids_filter. by apply NoDup_filter.
      * intros s Hs. apply list_elem_of_fmap in Hs as (s' & -> & [Hne Hs']%list_elem_of_filter).
        rewrite lookup_fmap, retain_deps_id, lookup_delete_ne by done. by rewrite Hin.
      * intros c. rewrite plan_ids_retain, plan_ids_filter, lookup_fmap, list_elem_of_filter. intros Hc.
        destruct (decide (c = id)) as [->|Hne]; [by rewrite lookup_delete_eq|].
        rewrite lookup_delete_ne by done. rewrite Hout; tauto.
    + rewrite !decide_False by (rewrite <- Hlk; by intros [? ?]). split; [done|]. by rewrite app_nil_r.
  - specialize (Hlk (ps_id step)). destruct (by_id st !! ps_id step) as [s0|] eqn:E.
    + rewrite decide_True by (apply Hlk; eauto). split; [|done]. split; simpl.
      * by rewrite plan_ids_replace.
      * by rewrite plan_ids_replace.
      * intros s Hs. apply list_elem_of_fmap in Hs as (s' & -> & Hs').
        case_decide as Hd; [by rewrite lookup_insert_eq|]. rewrite lookup_insert_ne; auto.
      * intros c. rewrite plan_ids_replace. intros Hc. rewrite lookup_insert_ne; [auto|].
        intros <-. apply Hc, Hlk. eauto.
    + assert (ps_id step ∉ plan_ids l) as Hni by (rewrite <- Hlk; by intros [? ?]).
      rewrite decide_False by done. rewrite app_nil_r. split; [|done].
      replace ((λ s, _) <$> l) with l; [done|]. symmetry. rewrite <- list_fmap_id.
      apply list_fmap_ext. intros i s Hs. rewrite decide_False; [done|]. intros Heq. apply Hni.
      rewrite <- Heq. apply list_elem_of_fmap_2. by eapply list_elem_of_lookup_2.
  - specialize (Hlk (ps_id step)). destruct (by_id st !! ps_id step) as [s0|] eqn:E.
    + rewrite !decide_True by (apply Hlk; eauto). split; [done|]. by rewrite app_nil_r.
    + assert (ps_id step ∉ plan_ids l) as Hni by (rewrite <- Hlk; by intros [? ?]).
      rewrite !decide_False by done. split; [|done]. split; simpl.
      * unfold plan_ids. by rewrite fmap_app, Ho.
      * unfold plan_ids. rewrite fmap_app. apply NoDup_app. split_and!; [done| |apply NoDup_singleton].
        intros c Hc ->%list_elem_of_singleton. done.
      * intros s [Hs| ->%list_elem_of_singleton]%elem_of_app; [|by rewrite lookup_insert_eq].
        rewrite lookup_insert_ne; [auto|]. intros Heq. apply Hni. rewrite Heq. by apply list_elem_of_fmap_2.
      * intros c. unfold plan_ids. rewrite fmap_app, not_elem_of_app. intros [Hc Hne].
        rewrite lookup_insert_ne; [auto|]. intros <-. apply Hne. left.
Qed.

Lemma apply_mutations_rep st l ms :
  plan_rep st l →
  plan_rep (foldl apply_mutation st ms) (foldl plan_mutate l ms) ∧
  applied (foldl apply_mutation st ms) = applied st ++ plan_applied_all l ms.
Proof.
  revert st l. induction ms as [|mu ms IH]; intros st l Hrep; simpl; [by rewrite app_nil_r|].
  destruct (apply_mutation_rep st l mu Hrep) as [Hrep' Ha].
  destruct (IH _ _ Hrep') as [? Ha']. split; [done|]. by rewrite Ha', Ha, <- app_assoc.
Qed.

Lemma drain_order_rep l (ids0 : gmap string S) :
  NoDup (plan_ids l) → (∀ s, s ∈ l → ids0 !! ps_id s = Some s) → drain_order (plan_ids l) ids0 = l.
Proof.
  unfold plan_ids. revert ids0. induction l as [|s l IH]; intros ids0 Hnd Hin; [done|].
  rewrite fmap_cons in *. apply NoDup_cons in Hnd as [Hni Hnd]. simpl. rewrite Hin by left. f_equal.
  apply IH; [done|]. intros s' Hs'. rewrite lookup_delete_ne; [apply Hin; by right|].
  intros Heq. apply Hni. rewrite Heq. by apply list_elem_of_fmap_2.
Qed.

(** The loop computes the reference plan. *)
Lemma plan_result_spec l ms :
  NoDup (plan_ids l) → plan_result (foldl apply_mutation (initial_plan l) ms) = foldl plan_mutate l ms.
Proof.
  intros Hnd. destruct (apply_mutations_rep _ _ ms (initial_plan_rep l Hnd)) as [[Ho Hnd' Hin _] _].
  unfold plan_result. rewrite Ho. by apply drain_order_rep.
Qed.
End Mutations.

(** ** [apply_mutations] of the scheduler *)

Record MutationResult : Type := mkMutationResult {
  mr_steps : list ScheduleStep;
  mr_applied : list AppliedMutation
}.

Definition apply_mutations (steps : list ScheduleStep) (mutations : list ScheduleMutation)
    : option (result ScheduleError MutationResult) :=
  match validate_request (mkScheduleRequest steps default_budget) with
  | Err e => Some (Err e)
  | Ok _ =>
      let st := foldl apply_mutation (initial_plan steps) mutations in
      let result_steps := plan_result st in
      match validate_request (mkScheduleRequest result_steps default_budget) with
      | Err e => Some (Err e)
      | Ok _ =>
          topo ← topological_order result_steps;
          Some (_ ← topo; Ok (mkMutationResult result_steps (applied st)))
      end
  end.

Section ApplyMutations.
Implicit Types (l : list ScheduleStep) (ms : list ScheduleMutation).

Lemma validate_steps_spec l u : validate_request (mkScheduleRequest l default_budget) = Ok u ↔ well_formed l.
Proof. exact (validate_request_spec (mkScheduleRequest l default_budget) u). Qed.

Lemma validate_steps_dec l :
  (∃ u, validate_request (mkScheduleRequest l default_budget) = Ok u ∧ well_formed l) ∨
  (∃ e, validate_request (mkScheduleRequest l default_budget) = Err e ∧ ¬ well_formed l).
Proof.
  destruct (validate_request (mkScheduleRequest l default_budget)) as [u|e] eqn:E.
  - left. exists u. split; [done|]. by apply validate_steps_spec in E.
  - right. exists e. split; [done|]. intros Hwf. apply (validate_steps_spec l ()) in Hwf. congruence.
Qed.

Lemma plan_ids_schedule l : plan_ids l = ids l.
Proof. done. Qed.

Lemma apply_mutations_applied l ms :
  NoDup (ids l) → applied (foldl apply_mutation (initial_plan l) ms) = plan_applied_all l ms.
Proof.
  intros Hnd. pose proof (initial_plan_rep (S:=ScheduleStep) l Hnd) as Hrep.
  by destruct (apply_mutations_rep _ _ ms Hrep) as [_ ->].
Qed.

Lemma apply_mutations_total l ms :
  well_formed l →
  let l' := foldl plan_mutate l ms in
  (well_formed l' ∧ (∃ out, valid_order l' out) ∧
     apply_mutations l ms = Some (Ok (mkMutationResult l' (plan_applied_all l ms)))) ∨
  (well_formed l' ∧ (∀ out, ¬ valid_order l' out) ∧ apply_mutations l ms = Some (Err DependencyCycle)) ∨
  (¬ well_formed l' ∧ ∃ e, apply_mutations l ms = Some (Err e)).
Proof.
  intros Hwf l'. pose proof Hwf as [Hnd _ _]. unfold apply_mutations.
  destruct (validate_steps_dec l) as [(u & -> & _)|(e & _ & Hn)]; [|done].
  cbv zeta. rewrite plan_result_spec, apply_mutations_applied by done. fold l'.
  destruct (validate_steps_dec l') as [(u' & -> & Hwf')|(e & -> & Hn)]; [|right; right; eauto].
  destruct Hwf' as [Hnd' Hb' Hk']. destruct (topological_order_total l' Hnd' Hk') as [(out & -> & Hv)|[-> Hn]].
  - left. eauto 10 using Build_well_formed.
  - right. left. done.
Qed.
End ApplyMutations.

(** C35: apply_mutations, which works on a hash map and an order vector, returns a plan
    exactly when the plan before and the list-level result of the mutations after are
    well-formed and orderable, and then it returns that list and the mutations that took
    effect. *)
Theorem apply_mutations_correct (l : list ScheduleStep) (ms : list ScheduleMutation) (res : MutationResult) :
  apply_mutations l ms = Some (Ok res) ↔
  well_formed l ∧ well_formed (foldl plan_mutate l ms) ∧
  (∃ out, valid_order (foldl plan_mutate l ms) out) ∧
  res = mkMutationResult (foldl plan_mutate l ms) (plan_applied_all l ms).
Proof.
  destruct (validate_steps_dec l) as [(u & E & Hwf)|(e & E & Hn)].
  - destruct (apply_mutations_total l ms Hwf) as [(? & ? & ->)|[(? & Hno & ->)|(? & e & ->)]]; naive_solver.
  - unfold apply_mutations. rewrite E. naive_solver.
Qed.
