(* ===== verification/F64.v ===== *)
(** * [f64]: IEEE 754 binary64

    The source's [f64] as the Standard Library's executable [spec_float] at
    precision 53 and maximal exponent 1024: conversions from integers, the
    four operations (round to nearest, ties to even), comparisons, [ceil] and
    the saturating [as usize]. *)

From Stdlib Require Export SpecFloat.
From S2P Require Export Str.

Definition f64 : Type := spec_float.

Definition f64_of_Z (z : Z) : f64 := binary_normalize 53 1024 z 0 false.

Definition f64_zero : f64 := S754_zero false.

Definition f64_add (x y : f64) : f64 := SFadd 53 1024 x y.
Definition f64_sub (x y : f64) : f64 := SFsub 53 1024 x y.
Definition f64_mul (x y : f64) : f64 := SFmul 53 1024 x y.
Definition f64_div (x y : f64) : f64 := SFdiv 53 1024 x y.

(** A decimal literal [n / d]: both are exact, the division rounds once. *)
Definition f64_lit (n d : Z) : f64 := f64_div (f64_of_Z n) (f64_of_Z d).

(** [<], [>], [<=], [>=], [==]: false on a NaN. *)
Definition f64_lt (x y : f64) : bool := SFltb x y.
Definition f64_le (x y : f64) : bool := SFleb x y.
Definition f64_eq (x y : f64) : bool := SFeqb x y.

(** The integer above [(-1)^s * m * 2^e]. *)
Definition ceil_finite (s : bool) (m : positive) (e : Z) : Z :=
  let v := if s then Z.neg m else Z.pos m in
  if (0 <=? e)%Z then (v * 2 ^ e)%Z else (- (- v / 2 ^ (- e)))%Z.

(** [f64::ceil]; the sign of a zero result is the argument's. *)
Definition f64_ceil (x : f64) : f64 :=
  match x with
  | S754_finite s m e =>
      match ceil_finite s m e with Z0 => S754_zero s | z => f64_of_Z z end
  | _ => x
  end.

(** [x as usize] with the greatest value [max]: toward zero, saturating, 0 on a NaN. *)
Definition f64_to_uint (max : Z) (x : f64) : Z :=
  match x with
  | S754_finite false m e =>
      Z.min max (if (0 <=? e)%Z then Z.pos m * 2 ^ e else Z.pos m / 2 ^ (- e))
  | S754_infinity false => max
  | _ => 0
  end.

(** [format!("{:.1}")]: one decimal, rounded half to even on the exact value. *)
Definition tenths (m : positive) (e : Z) : Z :=
  if (0 <=? e)%Z then (Z.pos m * 2 ^ e * 10)%Z
  else
    let num := (Z.pos m * 10)%Z in let den := (2 ^ (- e))%Z in
    let q := (num / den)%Z in let r := (num mod den)%Z in
    if (2 * r <? den)%Z || ((2 * r =? den)%Z && Z.even q) then q else (q + 1)%Z.

Definition f64_sign (s : bool) : string := if s then "-" else "".

Definition f64_fmt1 (x : f64) : string :=
  match x with
  | S754_nan => "NaN"
  | S754_infinity s => f64_sign s +:+ "inf"
  | S754_zero s => f64_sign s +:+ "0.0"
  | S754_finite s m e =>
      let n := tenths m e in f64_sign s +:+ show_uint (n / 10) +:+ "." +:+ show_uint (n mod 10)
  end.

(** [format!("{:.2}")]. *)
Definition hundredths (m : positive) (e : Z) : Z :=
  if (0 <=? e)%Z then (Z.pos m * 2 ^ e * 100)%Z
  else
    let num := (Z.pos m * 100)%Z in let den := (2 ^ (- e))%Z in
    let q := (num / den)%Z in let r := (num mod den)%Z in
    if (2 * r <? den)%Z || ((2 * r =? den)%Z && Z.even q) then q else (q + 1)%Z.

Definition f64_fmt2 (x : f64) : string :=
  match x with
  | S754_nan => "NaN"
  | S754_infinity s => f64_sign s +:+ "inf"
  | S754_zero s => f64_sign s +:+ "0.00"
  | S754_finite s m e =>
      let n := hundredths m e in
      f64_sign s +:+ show_uint (n / 100) +:+ "." +:+ show_uint (n / 10 mod 10) +:+ show_uint (n mod 10)
  end.

(** [f64::max] and [f64::min]: the other argument when one is a NaN. *)
Definition f64_max (x y : f64) : f64 :=
  match x, y with
  | S754_nan, _ => y
  | _, S754_nan => x
  | _, _ => if f64_lt x y then y else x
  end.
Definition f64_min (x y : f64) : f64 :=
  match x, y with
  | S754_nan, _ => y
  | _, S754_nan => x
  | _, _ => if f64_lt y x then y else x
  end.

Example f64_fmt2_ex : f64_fmt2 <$> [f64_lit 1 8; f64_lit 905 1000; f64_of_Z 1; f64_lit 5 100] = ["0.12"; "0.91"; "1.00"; "0.05"].
Proof. reflexivity. Qed.
Example f64_fmt1_ex : f64_fmt1 <$> [f64_lit 1 4; f64_lit 7999 100; f64_lit 35 100; f64_of_Z 100]
  = ["0.2"; "80.0"; "0.3"; "100.0"].
Proof. reflexivity. Qed.

Example f64_lit_ex : f64_lit 95 100 = S754_finite false 8556839292003942 (-53).
Proof. reflexivity. Qed.
Example f64_ceil_ex : f64_to_uint usize_max (f64_ceil (f64_mul (f64_of_Z 7) (f64_lit 95 100))) = 7%Z.
Proof. reflexivity. Qed.
Example f64_div_ex : f64_div (f64_of_Z 1) (f64_of_Z 4) = S754_finite false 4503599627370496 (-54).
Proof. reflexivity. Qed.

(** [f64::is_finite], [is_sign_negative] (of a NaN, the sign is lost and
    taken as positive), [abs] and [f64::EPSILON]. *)
Definition f64_is_finite (x : f64) : bool :=
  match x with S754_zero _ | S754_finite _ _ _ => true | _ => false end.
Definition f64_is_sign_negative (x : f64) : bool :=
  match x with S754_zero s | S754_finite s _ _ | S754_infinity s => s | S754_nan => false end.
Definition f64_abs (x : f64) : f64 :=
  match x with
  | S754_zero _ => S754_zero false
  | S754_finite _ m e => S754_finite false m e
  | S754_infinity _ => S754_infinity false
  | S754_nan => S754_nan
  end.
Definition f64_epsilon : f64 := f64_lit 1 4503599627370496.
