(* ===== verification/F64Spec.v ===== *)
(** * F64Spec: conversions and quotients of machine integers are finite

    What the modelled code relies on of binary64 arithmetic: an integer of the
    width of [usize] converts to a finite number, the quotient of two such
    numbers with a positive divisor is finite and not negative, and a finite
    number minus itself is zero. *)

From S2P Require Export F64 MachineInt.

Local Open Scope Z_scope.

Lemma digits2_bounds p : 2 ^ (Z.pos (digits2_pos p) - 1) <= Z.pos p < 2 ^ Z.pos (digits2_pos p).
Proof.
  induction p as [p IH|p IH|]; cbn [digits2_pos]; [| |simpl; lia];
    rewrite Pos2Z.inj_succ; replace (Z.succ (Z.pos (digits2_pos p)) - 1) with (Z.pos (digits2_pos p)) by lia;
    rewrite Z.pow_succ_r by lia;
    assert (2 ^ Z.pos (digits2_pos p) = 2 * 2 ^ (Z.pos (digits2_pos p) - 1))
      by (rewrite <- Z.pow_succ_r by lia; f_equal; lia); lia.
Qed.

Lemma Zdigits2_lt m : 0 <= m → m < 2 ^ Zdigits2 m.
Proof. destruct m; [simpl; lia| |lia]. intros _. apply digits2_bounds. Qed.
Lemma Zdigits2_nonneg m : 0 <= Zdigits2 m.
Proof. destruct m; simpl; lia. Qed.
Lemma Zdigits2_ge m : 0 < m → 2 ^ (Zdigits2 m - 1) <= m.
Proof. destruct m; [lia| |lia]. intros _. apply digits2_bounds. Qed.
Lemma Zdigits2_le m k : 0 <= m < 2 ^ k → 0 <= k → Zdigits2 m <= k.
Proof.
  intros Hm Hk. destruct m as [|p|p]; [simpl; lia| |lia]. simpl. destruct (digits2_bounds p) as [Hp _].
  destruct (Z.le_gt_cases (Z.pos (digits2_pos p)) k) as [|Hgt]; [done|].
  assert (2 ^ k <= 2 ^ (Z.pos (digits2_pos p) - 1)) by (apply Z.pow_le_mono_r; lia). lia.
Qed.

(** Shifting right divides. *)
Lemma shr_1_m r : 0 <= shr_m r → shr_m (shr_1 r) = shr_m r / 2.
Proof.
  destruct r as [m rb sb]. cbn [shr_m]. intros Hm. destruct m as [|p|p]; [done| |lia].
  destruct p as [p|p|]; cbn [shr_1 shr_m]; [|by rewrite (Pos2Z.inj_xO p), Z.mul_comm, Z.div_mul|done].
  rewrite (Pos2Z.inj_xI p). apply (Z.div_unique _ _ _ 1); lia.
Qed.
Lemma iter_pos_nat {A} (f : A → A) p x : @SpecFloat.iter_pos A f p x = Nat.iter (Pos.to_nat p) f x.
Proof.
  revert x. induction p as [p IH|p IH|]; intros x; cbn [SpecFloat.iter_pos].
  - rewrite !IH, Pos2Nat.inj_xI, <- Nat.iter_add, Nat.iter_swap. simpl. by rewrite Nat.add_0_r.
  - rewrite !IH, Pos2Nat.inj_xO. simpl. by rewrite Nat.add_0_r, Nat.iter_add.
  - done.
Qed.
Lemma shr_iter n r : 0 <= shr_m r → shr_m (Nat.iter n shr_1 r) = shr_m r / 2 ^ Z.of_nat n.
Proof.
  intros Hm. induction n as [|n IH]; [by rewrite Z.div_1_r|].
  change (Nat.iter (S n) shr_1 r) with (shr_1 (Nat.iter n shr_1 r)).
  rewrite shr_1_m by (rewrite IH; apply Z.div_pos; [done|lia]).
  rewrite IH, Zdiv_Zdiv by lia. f_equal. rewrite Nat2Z.inj_succ, Z.pow_succ_r by lia. lia.
Qed.
Lemma shr_spec r e n : 0 <= shr_m r →
  shr_m (shr r e n).1 = shr_m r / 2 ^ Z.max 0 n ∧ (shr r e n).2 = e + Z.max 0 n.
Proof.
  intros Hm. destruct n as [|p|p]; cbn [shr fst snd]; [rewrite Z.div_1_r; split; [done|simpl; lia]| |].
  - rewrite iter_pos_nat, shr_iter by done. rewrite positive_nat_Z. split; [done|lia].
  - rewrite Z.max_l by lia. rewrite Z.div_1_r. split; [done|lia].
Qed.

Lemma shr_fexp_spec m e l : 0 <= m → -1074 <= e →
  let '(r, e') := shr_fexp 53 1024 m e l in
  0 <= shr_m r <= m ∧ e <= e' <= Z.max e (Zdigits2 m + e - 53) ∧ (0 < m → 0 < shr_m r).
Proof.
  intros Hm He. unfold shr_fexp. set (n := fexp 53 1024 (Zdigits2 m + e) - e).
  assert (Hr : shr_m (shr_record_of_loc m l) = m) by (by destruct l as [|[]]).
  destruct (shr_spec (shr_record_of_loc m l) e n) as [H1 H2]; [by rewrite Hr|].
  destruct (shr _ e n) as [r e']. cbn [fst snd] in *. rewrite Hr in H1.
  assert (Hn : Z.max 0 n <= Z.max 0 (Zdigits2 m - 53)) by (unfold n, fexp, emin; lia).
  pose proof (Z.pow_pos_nonneg 2 (Z.max 0 n)). split_and!; try lia.
  - rewrite H1. apply Z.div_pos; lia.
  - rewrite H1. apply Z.div_le_upper_bound; [lia|]. nia.
  - intros Hpos. rewrite H1. apply Z.div_str_pos. split; [lia|].
    pose proof (Zdigits2_ge m Hpos). pose proof (Zdigits2_nonneg m).
    assert (1 <= Zdigits2 m) by (destruct m; simpl; lia).
    assert (2 ^ Z.max 0 n <= 2 ^ (Zdigits2 m - 1)) by (apply Z.pow_le_mono_r; lia). lia.
Qed.

(** Rounding a bounded significand gives a finite number that is not
    negative, and not zero when the significand is not. *)
Definition finite_nonneg (x : f64) : Prop := f64_is_finite x = true ∧ f64_is_sign_negative x = false.

Lemma round_aux_finite m e l : 0 <= m < 2 ^ 300 → -1074 <= e <= 400 →
  finite_nonneg (binary_round_aux 53 1024 false m e l) ∧
  (0 < m → ∃ m' e', binary_round_aux 53 1024 false m e l = S754_finite false m' e' ∧ Z.pos m' <= m + 1 ∧ e <= e' <= e + 2 * Z.max 0 (Zdigits2 m - 52)).
Proof.
  intros Hm He. unfold binary_round_aux. pose proof (shr_fexp_spec m e l ltac:(lia) ltac:(lia)) as H1.
  destruct (shr_fexp 53 1024 m e l) as [r e1]. destruct H1 as (Hr & He1 & Hpos).
  pose proof (Zdigits2_le m 300 ltac:(lia) ltac:(lia)).
  set (m1 := round_nearest_even (shr_m r) (loc_of_shr_record r)).
  assert (Hm1 : 0 <= shr_m r <= m1 ∧ m1 <= shr_m r + 1) by (unfold m1, round_nearest_even; repeat case_match; lia).
  pose proof (shr_fexp_spec m1 e1 loc_Exact ltac:(lia) ltac:(lia)) as H2.
  destruct (shr_fexp 53 1024 m1 e1 loc_Exact) as [r2 e2]. destruct H2 as (Hr2 & He2 & Hpos2).
  assert (Hd1 : Zdigits2 m1 <= Zdigits2 m + 1).
  { pose proof (Zdigits2_nonneg m). apply Zdigits2_le; [|lia]. split; [lia|].
    pose proof (Zdigits2_lt m ltac:(lia)). rewrite Z.pow_add_r by lia. pose proof (Z.pow_pos_nonneg 2 (Zdigits2 m)). lia. }
  assert (m1 < 2 ^ 301) by (replace (2 ^ 301) with (2 * 2 ^ 300) by reflexivity; lia).
  pose proof (Zdigits2_le m1 301 ltac:(lia) ltac:(lia)).
  destruct (shr_m r2) as [|p|p] eqn:E; [|rewrite (proj2 (Z.leb_le e2 (1024 - 53))) by lia|lia].
  - split; [done|]. intros. exfalso. lia.
  - split; [done|]. intros. exists p, e2. split_and!; [done|lia..].
Qed.

Lemma shl_align_spec m e e' : let '(m', ez) := shl_align m e e' in
  (e' < e ∧ ez = e' ∧ Z.pos m' = Z.pos m * 2 ^ (e - e')) ∨ (e <= e' ∧ m' = m ∧ ez = e).
Proof.
  unfold shl_align. destruct (e' - e) as [|p|p] eqn:E; [right; split_and!; [lia|done..]|right; split_and!; [lia|done..]|].
  left. split_and!; [lia|done|]. replace (e - e') with (Z.pos p) by lia.
  clear. induction p as [|p IH] using Pos.peano_ind; [simpl; lia|]. rewrite Pos.iter_succ, Pos2Z.inj_xO, IH.
  rewrite Pos2Z.inj_succ, Z.pow_succ_r by lia. lia.
Qed.

Lemma f64_of_pos n : 0 < n <= 2 ^ 64 →
  ∃ m e, f64_of_Z n = S754_finite false m e ∧ Z.pos m <= 2 ^ 65 ∧ -52 <= e <= 30.
Proof.
  intros Hn. destruct n as [|n|n]; [lia| |lia]. unfold f64_of_Z, binary_normalize, binary_round.
  pose proof (Zdigits2_le (Z.pos n) 65 ltac:(lia) ltac:(lia)) as Hd. simpl in Hd. set (d := Z.pos (digits2_pos n)) in *.
  assert (Hd1 : 1 <= d) by (unfold d; lia). pose proof (digits2_bounds n) as [_ Hlt]. fold d in Hlt.
  replace (fexp 53 1024 (d + 0)) with (d - 53) by (unfold fexp, emin; lia).
  pose proof (shl_align_spec n 0 (d - 53)) as Hs. destruct (shl_align n 0 (d - 53)) as [mz ez].
  assert (Hmz : Z.pos mz < 2 ^ 65 ∧ -52 <= ez <= 0).
  { destruct Hs as [(Hlt' & -> & ->)|(Hge & -> & ->)]; [|lia]. split; [|lia].
    apply Z.lt_le_trans with (2 ^ d * 2 ^ (0 - (d - 53))).
    - apply Z.mul_lt_mono_pos_r; [apply Z.pow_pos_nonneg; lia|done].
    - rewrite <- Z.pow_add_r by lia. apply Z.pow_le_mono_r; lia. }
  pose proof (Zdigits2_le (Z.pos mz) 65 ltac:(lia) ltac:(lia)).
  destruct (round_aux_finite (Z.pos mz) ez loc_Exact) as [_ H1]; [split; [lia|]; apply Z.lt_trans with (2 ^ 65); [lia|done]|lia|].
  destruct (H1 ltac:(lia)) as (m' & e' & -> & Hm' & He'). exists m', e'. split_and!; [done|lia..].
Qed.

Lemma f64_div_finite t n : 0 <= t <= 2 ^ 64 → 0 < n <= 2 ^ 64 → finite_nonneg (f64_div (f64_of_Z t) (f64_of_Z n)).
Proof.
  intros Ht Hn. destruct (f64_of_pos n Hn) as (m2 & e2 & E2 & Hm2 & He2). unfold f64_div. rewrite E2.
  destruct (decide (t = 0)) as [->|Ht0]; [done|].
  destruct (f64_of_pos t ltac:(lia)) as (m1 & e1 & E1 & Hm1 & He1). rewrite E1. unfold SFdiv, SFdiv_core_binary.
  pose proof (Zdigits2_nonneg (Z.pos m1)). pose proof (Zdigits2_le (Z.pos m1) 66 ltac:(lia) ltac:(lia)) as Hd1.
  pose proof (Zdigits2_nonneg (Z.pos m2)). pose proof (Zdigits2_le (Z.pos m2) 66 ltac:(lia) ltac:(lia)) as Hd2.
  set (d1 := Zdigits2 (Z.pos m1)) in *. set (d2 := Zdigits2 (Z.pos m2)) in *.
  set (e' := Z.min _ _). assert (He' : e1 - e2 - 119 <= e' <= e1 - e2) by (unfold e', fexp, emin; lia).
  set (m' := match e1 - e2 - e' with Z0 => _ | _ => _ end).
  assert (Hm' : 0 <= m' <= Z.pos m1 * 2 ^ 119).
  { assert (m' = Z.pos m1 * 2 ^ (e1 - e2 - e')) as ->.
    { unfold m'. destruct (e1 - e2 - e') as [|p|p] eqn:E; [by rewrite Z.mul_1_r|by rewrite Z.shiftl_mul_pow2|lia]. }
    split; [apply Z.mul_nonneg_nonneg; lia|]. apply Z.mul_le_mono_nonneg_l; [lia|]. apply Z.pow_le_mono_r; lia. }

  destruct (Z.div_eucl m' (Z.pos m2)) as [q r] eqn:Eq.
  assert (Hq : q = m' / Z.pos m2) by (unfold Z.div; by rewrite Eq).
  apply round_aux_finite; [|lia]. rewrite Hq. split; [apply Z.div_pos; lia|].
  apply Z.le_lt_trans with m'; [apply Z.div_le_upper_bound; [lia|nia]|].
  apply Z.le_lt_trans with (2 ^ 65 * 2 ^ 119); [|by vm_compute].
  etrans; [apply Hm'|]. apply Z.mul_le_mono_nonneg_r; [by vm_compute|done].
Qed.

Lemma f64_sub_diag x : f64_is_finite x = true → f64_abs (f64_sub x x) = f64_zero.
Proof.
  intros H. destruct x as [s| | |s m e]; try done; [by destruct s|]. unfold f64_sub, SFsub. by rewrite Z.sub_diag.
Qed.

Example f64_average_ex : f64_div (f64_of_Z 5) (f64_of_Z 2) = f64_lit 25 10.
Proof. reflexivity. Qed.
