(* ===== verification/Json.v ===== *)
(** * JSON values

    [serde_json::Value]: the accessors the modelled code uses.  An object is
    its list of entries in the map's order.  Numbers the models never look
    inside are kept as their text. *)

From S2P Require Export Str.

#[warnings="-register-all"] Inductive Json : Type :=
| JNull
| JBool (b : bool)
| JUint (n : Z)
| JNumber (text : string)
| JString (s : string)
| JArray (l : list Json)
| JObject (fields : list (string * Json)).

Fixpoint assoc_get {A} (k : string) (l : list (string * A)) : option A :=
  match l with
  | [] => None
  | (k', v) :: l => if decide (k = k') then Some v else assoc_get k l
  end.

(** [Value::get], [Value::as_str]. *)
Definition json_get (k : string) (v : Json) : option Json :=
  match v with JObject fields => assoc_get k fields | _ => None end.
Definition json_as_str (v : Json) : option string :=
  match v with JString s => Some s | _ => None end.

(** [Value::as_bool], [Value::as_array], [Value::as_u64], [Value::as_object]. *)
Definition json_as_bool (v : Json) : option bool := match v with JBool b => Some b | _ => None end.
Definition json_as_array (v : Json) : option (list Json) := match v with JArray l => Some l | _ => None end.
Definition json_as_u64 (v : Json) : option Z := match v with JUint n => Some n | _ => None end.

(** [{}] of a [bool] and of a [usize]. *)
Definition show_bool (b : bool) : string := if b then "true" else "false".
Definition show_nat (n : nat) : string := show_uint (Z.of_nat n).

(** [map.entry(k).or_insert_with(|| v)]. *)
Definition entry_or_insert {A} (k : string) (v : A) (l : list (string * A)) : list (string * A) :=
  match assoc_get k l with Some _ => l | None => l ++ [(k, v)] end.

Lemma assoc_get_app {A} k (l l' : list (string * A)) :
  assoc_get k (l ++ l') = match assoc_get k l with Some v => Some v | None => assoc_get k l' end.
Proof. induction l as [|[k' v] l IH]; simpl; [done|]. by case_decide. Qed.

Lemma entry_or_insert_get {A} k (v : A) l :
  assoc_get k (entry_or_insert k v l) = Some (default v (assoc_get k l)).
Proof.
  unfold entry_or_insert. destruct (assoc_get k l) eqn:E; [done|].
  rewrite assoc_get_app, E. simpl. by rewrite decide_True.
Qed.
