(* ===== verification/Kernel.v ===== *)
(** * The kernel's step sequences

    Models [execute_sequence_with_observer] of
    [src/crates/context-kernel-mechanism/src/kernel_runtime.rs] with the helpers of
    [reactive_runtime.rs], [governance_runtime.rs] and [kernel_types.rs] it calls.
    The reducers and the cache behind [execute], the planner service and the
    observer are the record [KernelEnv] over a world type: the theorems hold for
    every one of them. *)

From S2P Require Export Json Plan.

(** ** Data *)

Record ExecutionBudget : Type := mkExecutionBudget {
  eb_token_cap : option Z;
  eb_byte_cap : option Z;
  eb_runtime_ms_cap : option Z
}.

#[export] Instance execution_budget_eq_dec : EqDecision ExecutionBudget.
Proof. solve_decision. Defined.

Definition default_execution_budget : ExecutionBudget :=
  {| eb_token_cap := None; eb_byte_cap := None; eb_runtime_ms_cap := None |}.

Record KernelPacket : Type := mkKernelPacket {
  kp_packet_id : option string;
  kp_format : string;
  kp_body : Json;
  kp_token_usage : option Z;
  kp_runtime_ms : option Z;
  kp_metadata : Json
}.

Record KernelStepRequest : Type := mkKernelStep {
  ks_id : string;
  ks_target : string;
  ks_depends_on : list string;
  ks_input_packets : list KernelPacket;
  ks_policy_context : Json;
  ks_reducer_input : Json;
  ks_budget : ExecutionBudget
}.

Record KernelRequest : Type := mkKernelRequest {
  kq_target : string;
  kq_input_packets : list KernelPacket;
  kq_budget : ExecutionBudget;
  kq_policy_context : Json;
  kq_reducer_input : Json
}.

Inductive ReactiveReplanMode : Type := Basic | TaskAware.

Record ReactiveSequenceConfig : Type := mkReactiveConfig {
  rc_enabled : bool;
  rc_task_id : option string;
  rc_append_focused_map : bool;
  rc_mode : ReactiveReplanMode
}.

Record KernelSequenceRequest : Type := mkSequenceRequest {
  sr_budget : ExecutionBudget;
  sr_steps : list KernelStepRequest;
  sr_reactive : ReactiveSequenceConfig
}.

Record KernelFailure : Type := mkKernelFailure {
  kf_code : string;
  kf_message : string;
  kf_target : option string
}.

Inductive KernelError : Type :=
| InvalidRequest (detail : string)
| SchedulerFailed (detail : string)
| SequenceCancelled (task_id : option string)
| ServiceError (detail : string).

(** ** Estimates: [usage_for_packets], [kernel_step_estimate] *)

Definition div_ceil (a b : Z) : Z := (a + b - 1) / b.

(** [lib.rs]: four bytes of JSON are one token. *)
Definition estimate_tokens (bytes : Z) : Z := div_ceil bytes 4.

Section Estimates.
(** The length of [serde_json::to_string], 0 when it fails. *)
Context (estimate_json_bytes : Json → Z).

Definition packet_usage (usage : StepEstimate) (packet : KernelPacket) : StepEstimate :=
  let body_bytes := estimate_json_bytes (kp_body packet) in
  {| tokens := saturating_add u64_max (tokens usage)
       (default (estimate_tokens body_bytes) (kp_token_usage packet));
     bytes := saturating_add usize_max (bytes usage) body_bytes;
     runtime_ms := saturating_add u64_max (runtime_ms usage) (default 0%Z (kp_runtime_ms packet)) |}.

Definition usage_for_packets (packets : list KernelPacket) : StepEstimate :=
  foldl packet_usage default_estimate packets.

Definition kernel_step_estimate (step : KernelStepRequest) : StepEstimate :=
  usage_for_packets (ks_input_packets step).

Definition schedule_step_from_kernel (step : KernelStepRequest) : ScheduleStep :=
  {| step_id := ks_id step; target := ks_target step; depends_on := ks_depends_on step;
     estimate := kernel_step_estimate step |}.

Definition to_schedule_mutation (m : PlanMutation KernelStepRequest) : ScheduleMutation :=
  match m with
  | Cancel id reason => Cancel id reason
  | Replace step reason => Replace (schedule_step_from_kernel step) reason
  | Append step reason => Append (schedule_step_from_kernel step) reason
  end.

Definition to_schedule_mutations (ms : list (PlanMutation KernelStepRequest)) : list ScheduleMutation :=
  to_schedule_mutation <$> ms.
End Estimates.

Definition saturating_sub_cap (cap : option Z) (consumed : Z) : option Z :=
  (λ c, saturating_sub c consumed) <$> cap.

Definition schedule_budget_remaining (budget : ExecutionBudget) (consumed : StepEstimate) : ScheduleBudget :=
  {| token_cap := saturating_sub_cap (eb_token_cap budget) (tokens consumed);
     byte_cap := saturating_sub_cap (eb_byte_cap budget) (bytes consumed);
     runtime_ms_cap := saturating_sub_cap (eb_runtime_ms_cap budget) (runtime_ms consumed) |}.

(** ** The plan of a kernel sequence *)

Definition ks_set_depends_on (ds : list string) (s : KernelStepRequest) : KernelStepRequest :=
  {| ks_id := ks_id s; ks_target := ks_target s; ks_depends_on := ds;
     ks_input_packets := ks_input_packets s; ks_policy_context := ks_policy_context s;
     ks_reducer_input := ks_reducer_input s; ks_budget := ks_budget s |}.

#[export] Program Instance kernel_step_plan : PlanStep KernelStepRequest :=
  {| ps_id := ks_id; ps_deps := ks_depends_on; ps_set_deps := ks_set_depends_on |}.
Solve Obligations with done.

Definition apply_kernel_mutations (steps : list KernelStepRequest)
    (mutations : list (PlanMutation KernelStepRequest)) : list KernelStepRequest :=
  plan_result (foldl apply_mutation (initial_plan steps) mutations).

Definition remove_satisfied_dependency (remaining : list KernelStepRequest) (completed_id : string)
    : list KernelStepRequest :=
  retain_deps completed_id <$> remaining.

(** The worklist of [remove_failed_dependents]; [failed] is a stack.  [None]:
    out of fuel. *)
Fixpoint failed_loop (fuel : nat) (failed : list string) (remaining removed : list KernelStepRequest)
    : option (list KernelStepRequest * list KernelStepRequest) :=
  match failed with
  | [] => Some (removed, remaining)
  | dep_id :: failed =>
      match fuel with
      | O => None
      | S fuel =>
          let newly_removed := filter (λ s, dep_id ∈ ks_depends_on s) remaining in
          let kept := filter (λ s, dep_id ∉ ks_depends_on s) remaining in
          failed_loop fuel (reverse (ks_id <$> newly_removed) ++ failed) kept (removed ++ newly_removed)
      end
  end.

(** Each step is removed, so pushed, at most once. *)
Definition remove_failed_dependents (remaining : list KernelStepRequest) (failed_id : string)
    : option (list KernelStepRequest * list KernelStepRequest) :=
  failed_loop (S (length remaining)) [failed_id] remaining [].

(** ** The request: [policy_context_with_task_id], [resolve_sequence_task_id],
    [normalize_sequence_request] *)

Definition nonblank (s : option string) : option string :=
  s ≫= λ s, if is_blank s then None else Some s.

Definition policy_context_with_task_id (policy_context : Json) (task_id : option string) : Json :=
  match nonblank task_id with
  | None => policy_context
  | Some task_id =>
      match policy_context with
      | JObject fields => JObject (entry_or_insert "task_id" (JString task_id) fields)
      | JNull => JObject [("task_id", JString task_id)]
      | other => JObject [("task_id", JString task_id); ("sequence_policy_context", other)]
      end
  end.

Fixpoint find_map {A B} (f : A → option B) (l : list A) : option B :=
  match l with
  | [] => None
  | a :: l => match f a with Some b => Some b | None => find_map f l end
  end.

Definition resolve_sequence_task_id (req : KernelSequenceRequest) : option string :=
  match nonblank (rc_task_id (sr_reactive req)) with
  | Some task_id => Some task_id
  | None =>
      find_map (λ step, nonblank (json_get "task_id" (ks_policy_context step) ≫= json_as_str)) (sr_steps req)
  end.

Definition autogenerated_sequence_step_id (target : string) (index : nat) : string :=
  replace_char "." "-" target +:+ "-" +:+ pretty index.

Definition ks_set_id (id : string) (s : KernelStepRequest) : KernelStepRequest :=
  {| ks_id := id; ks_target := ks_target s; ks_depends_on := ks_depends_on s;
     ks_input_packets := ks_input_packets s; ks_policy_context := ks_policy_context s;
     ks_reducer_input := ks_reducer_input s; ks_budget := ks_budget s |}.

Fixpoint normalize_ids (index : nat) (ids : gset string) (l : list KernelStepRequest)
    : result KernelError (gset string * list KernelStepRequest) :=
  match l with
  | [] => Ok (ids, [])
  | step :: l =>
      if is_blank (ks_target step) then
        Err (InvalidRequest ("sequence step " +:+ pretty index +:+ " target cannot be empty"))
      else
        let id := if is_blank (ks_id step) then autogenerated_sequence_step_id (ks_target step) index
                  else trim (ks_id step) in
        if decide (id ∈ ids) then Err (InvalidRequest ("sequence step id '" +:+ id +:+ "' must be unique"))
        else '(ids, l) ← normalize_ids (S index) ({[id]} ∪ ids) l; Ok (ids, ks_set_id id step :: l)
  end.

Fixpoint normalize_deps (ids : gset string) (id : string) (deps : list string) : result KernelError () :=
  match deps with
  | [] => Ok ()
  | dep :: deps =>
      if is_blank dep then Err (InvalidRequest ("sequence step '" +:+ id +:+ "' has an empty dependency id"))
      else if decide (dep = id) then
        Err (InvalidRequest ("sequence step '" +:+ id +:+ "' cannot depend on itself"))
      else if decide (dep ∈ ids) then normalize_deps ids id deps
      else Err (InvalidRequest ("sequence step '" +:+ id +:+ "' depends on unknown step '" +:+ dep +:+ "'"))
  end.

Fixpoint normalize_all_deps (ids : gset string) (l : list KernelStepRequest) : result KernelError () :=
  match l with
  | [] => Ok ()
  | step :: l => normalize_deps ids (ks_id step) (ks_depends_on step) ;; normalize_all_deps ids l
  end.

Definition normalize_sequence_request (req : KernelSequenceRequest) : result KernelError KernelSequenceRequest :=
  '(ids, l) ← normalize_ids 0 ∅ (sr_steps req);
  normalize_all_deps ids l ;;
  Ok {| sr_budget := sr_budget req; sr_steps := l; sr_reactive := sr_reactive req |}.

Definition schedule_error_text (e : ScheduleError) : string :=
  match e with
  | EmptyStepId => "step id cannot be empty"
  | DuplicateStepId id => "duplicate step id '" +:+ id +:+ "'"
  | UnknownDependency s d => "step '" +:+ s +:+ "' depends on unknown step '" +:+ d +:+ "'"
  | DependencyCycle => "dependency cycle detected in scheduler request"
  end.

(** ** The sequence loop *)

Record StepResponse (R : Type) : Type := mkStepResponse {
  kr_id : string;
  kr_target : string;
  kr_status : string;
  kr_response : option R;
  kr_failure : option KernelFailure
}.
Arguments mkStepResponse {R}.
Arguments kr_id {R}.
Arguments kr_target {R}.
Arguments kr_status {R}.
Arguments kr_response {R}.
Arguments kr_failure {R}.

Record PlanRequest : Type := mkPlanRequest {
  pq_task_id : string;
  pq_remaining : list KernelStepRequest;
  pq_original_steps : list KernelStepRequest;
  pq_completed_success : gset string;
  pq_mode : ReactiveReplanMode;
  pq_append_focused_map : bool;
  pq_anchor_step_id : option string
}.

Record ReactivePlan : Type := mkReactivePlan {
  rp_event_count : Z;
  rp_mutations : list (PlanMutation KernelStepRequest)
}.

Record Replan : Type := mkReplan {
  re_trigger : string;
  re_after_step : option string;
  re_event_count : Z;
  re_applied : list AppliedMutation
}.

(** What surrounds the loop: the reducers behind [execute] (with
    [KernelError::structured] applied to its errors), the planner service with
    the cache snapshot it is given, and the observer.  [W] is their state. *)
Record KernelEnv (W R : Type) : Type := mkKernelEnv {
  env_json_bytes : Json → Z;
  env_execute : KernelRequest → W → result KernelFailure R * W;
  env_plan : PlanRequest → W → result KernelError ReactivePlan;
  env_should_cancel : W → bool;
  env_step_started : nat → KernelStepRequest → W → W;
  env_step_completed : nat → KernelStepRequest → R → W → W;
  env_step_failed : nat → KernelStepRequest → KernelFailure → W → W;
  env_replan_applied : option string → Z → Replan → W → W
}.
Arguments env_json_bytes {W R}.
Arguments env_execute {W R}.
Arguments env_plan {W R}.
Arguments env_should_cancel {W R}.
Arguments env_step_started {W R}.
Arguments env_step_completed {W R}.
Arguments env_step_failed {W R}.
Arguments env_replan_applied {W R}.

(** The local variables of the loop. *)
Record SeqState (W R : Type) : Type := mkSeqState {
  sq_world : W;
  sq_remaining : list KernelStepRequest;
  sq_results : list (StepResponse R);
  sq_scheduled : list string;
  sq_skipped : list string;
  sq_consumed : StepEstimate;
  sq_exhausted : bool;
  sq_completed : gset string;
  sq_last_event : Z;
  sq_replans : list Replan
}.
Arguments mkSeqState {W R}.
Arguments sq_world {W R}.
Arguments sq_remaining {W R}.
Arguments sq_results {W R}.
Arguments sq_scheduled {W R}.
Arguments sq_skipped {W R}.
Arguments sq_consumed {W R}.
Arguments sq_exhausted {W R}.
Arguments sq_completed {W R}.
Arguments sq_last_event {W R}.
Arguments sq_replans {W R}.

Record SequenceResponse (R : Type) : Type := mkSequenceResponse {
  sp_scheduled : list string;
  sp_skipped : list string;
  sp_budget_exhausted : bool;
  sp_step_results : list (StepResponse R);
  sp_consumed : StepEstimate;
  sp_replans : list Replan
}.
Arguments mkSequenceResponse {R}.
Arguments sp_scheduled {R}.
Arguments sp_skipped {R}.
Arguments sp_budget_exhausted {R}.
Arguments sp_step_results {R}.
Arguments sp_consumed {R}.
Arguments sp_replans {R}.

Definition skipped_response {R} (step : KernelStepRequest) (code message : string) (t : option string)
    : StepResponse R :=
  {| kr_id := ks_id step; kr_target := ks_target step; kr_status := "skipped"; kr_response := None;
     kr_failure := Some (mkKernelFailure code message t) |}.

(** [record_replan_cancellations]: the steps the applied cancellations name. *)
Definition replan_cancellations (steps : list KernelStepRequest) (applied : list AppliedMutation)
    : list (KernelStepRequest * string) :=
  omap (λ m,
    if decide (am_kind m = "cancel") then
      (λ step, (step, am_reason m)) <$> find_map (λ s, if decide (ks_id s = am_step_id m) then Some s else None) steps
    else None) applied.

Definition take_scheduled_step (remaining : list KernelStepRequest) (id : string)
    : result KernelError (KernelStepRequest * list KernelStepRequest) :=
  match list_find (λ s, ks_id s = id) remaining with
  | Some (i, step) => Ok (step, delete i remaining)
  | None => Err (SchedulerFailed ("scheduler selected step `" +:+ id +:+ "` that is absent from the remaining plan"))
  end.

Section Sequence.
Context {W R : Type} (env : KernelEnv W R).
Context (budget : ExecutionBudget) (reactive : ReactiveSequenceConfig).
Context (task_id : option string) (original_steps : list KernelStepRequest).

Local Abbreviation state := (SeqState W R).
Local Abbreviation to_schedule := (schedule_step_from_kernel (env_json_bytes env)).

Definition ensure_sequence_active (w : W) : result KernelError () :=
  if env_should_cancel env w then Err (SequenceCancelled task_id) else Ok ().

Definition scheduler_failed {A} (e : ScheduleError) : result KernelError A :=
  Err (SchedulerFailed (schedule_error_text e)).

Definition plan_request (st : state) (tid : string) (anchor : option string) : PlanRequest :=
  {| pq_task_id := tid; pq_remaining := sq_remaining st; pq_original_steps := original_steps;
     pq_completed_success := sq_completed st; pq_mode := rc_mode reactive;
     pq_append_focused_map := rc_append_focused_map reactive; pq_anchor_step_id := anchor |}.

Definition set_last_event (n : Z) (st : state) : state :=
  {| sq_world := sq_world st; sq_remaining := sq_remaining st; sq_results := sq_results st;
     sq_scheduled := sq_scheduled st; sq_skipped := sq_skipped st; sq_consumed := sq_consumed st;
     sq_exhausted := sq_exhausted st; sq_completed := sq_completed st; sq_last_event := n;
     sq_replans := sq_replans st |}.

(** A non-empty plan: validate it on the scheduler's steps, record the
    cancelled steps, mutate the pending steps, tell the observer. *)
Definition apply_replan (st : state) (trigger : string) (after : option string) (plan : ReactivePlan)
    : option (result KernelError state) :=
  applied ← apply_mutations (to_schedule <$> sq_remaining st)
              (to_schedule_mutations (env_json_bytes env) (rp_mutations plan));
  Some match applied with
  | Err e => scheduler_failed e
  | Ok res =>
      let cancelled := replan_cancellations (sq_remaining st) (mr_applied res) in
      let replan := mkReplan trigger after (rp_event_count plan) (mr_applied res) in
      Ok {| sq_world := env_replan_applied env after (rp_event_count plan) replan (sq_world st);
            sq_remaining := apply_kernel_mutations (sq_remaining st) (rp_mutations plan);
            sq_results := sq_results st ++
              ((λ c, skipped_response c.1 c.2 ("step skipped by replanning: " +:+ c.2) (Some (ks_target c.1))) <$> cancelled);
            sq_scheduled := sq_scheduled st;
            sq_skipped := sq_skipped st ++ (ks_id ∘ fst <$> cancelled);
            sq_consumed := sq_consumed st; sq_exhausted := sq_exhausted st;
            sq_completed := sq_completed st; sq_last_event := sq_last_event st;
            sq_replans := sq_replans st ++ [replan] |}
  end.

(** The block before the loop. *)
Definition initial_replan (st : state) : option (result KernelError state) :=
  match rc_enabled reactive, task_id with
  | true, Some tid =>
      match env_plan env (plan_request st tid None) (sq_world st) with
      | Err e => Some (Err e)
      | Ok plan =>
          let st := set_last_event (rp_event_count plan) st in
          if decide (rp_mutations plan = []) then Some (Ok st)
          else
            replanned ← apply_replan st "initial_state" None plan;
            Some (st ← (replanned : result KernelError state); ensure_sequence_active (sq_world st) ;; Ok st)
      end
  | _, _ => Some (Ok st)
  end.

(** The block after a successful step. *)
Definition step_replan (st : state) (after : string) : option (result KernelError state) :=
  match rc_enabled reactive, task_id with
  | true, Some tid =>
      match env_plan env (plan_request st tid (Some after)) (sq_world st) with
      | Err e => Some (Err e)
      | Ok plan =>
          if (sq_last_event st <? rp_event_count plan)%Z then
            if decide (rp_mutations plan = []) then Some (Ok (set_last_event (rp_event_count plan) st))
            else
              replanned ← apply_replan st "task_state_update" (Some after) plan;
              Some (set_last_event (rp_event_count plan) <$> (replanned : result KernelError state))
          else Some (Ok st)
      end
  | _, _ => Some (Ok st)
  end.

(** No step fits: everything that remains is skipped. *)
Definition skip_remaining (st : state) (exhausted : bool) : state :=
  {| sq_world := sq_world st; sq_remaining := [];
     sq_results := sq_results st ++
       ((λ s, if exhausted then skipped_response s "budget_exceeded" "step skipped: budget_exceeded" None
              else skipped_response s "dependency_not_satisfied" "step skipped: dependency_not_satisfied" None)
          <$> sq_remaining st);
     sq_scheduled := sq_scheduled st; sq_skipped := sq_skipped st ++ (ks_id <$> sq_remaining st);
     sq_consumed := sq_consumed st; sq_exhausted := exhausted; sq_completed := sq_completed st;
     sq_last_event := sq_last_event st; sq_replans := sq_replans st |}.

Definition kernel_request (step : KernelStepRequest) : KernelRequest :=
  {| kq_target := ks_target step; kq_input_packets := ks_input_packets step;
     kq_budget := if decide (ks_budget step = default_execution_budget) then budget else ks_budget step;
     kq_policy_context := policy_context_with_task_id (ks_policy_context step) task_id;
     kq_reducer_input := ks_reducer_input step |}.

(** The [Ok(response)] arm up to the replan. *)
Definition step_ok (st : state) (original : KernelStepRequest) (response : R) (w : W) : state :=
  {| sq_world := w;
     sq_remaining := remove_satisfied_dependency (sq_remaining st) (ks_id original);
     sq_results := sq_results st ++
       [mkStepResponse (ks_id original) (ks_target original) "ok" (Some response) None];
     sq_scheduled := sq_scheduled st ++ [ks_id original]; sq_skipped := sq_skipped st;
     sq_consumed := sq_consumed st; sq_exhausted := sq_exhausted st;
     sq_completed := {[ks_id original]} ∪ sq_completed st;
     sq_last_event := sq_last_event st; sq_replans := sq_replans st |}.

(** The [Err(err)] arm. *)
Definition step_failed (st : state) (original : KernelStepRequest) (failure : KernelFailure) (w : W)
    (dependents kept : list KernelStepRequest) : state :=
  {| sq_world := w; sq_remaining := kept;
     sq_results := sq_results st ++
       mkStepResponse (ks_id original) (ks_target original) "failed" None (Some failure) ::
       ((λ s, skipped_response s "dependency_failed" "step skipped due to failed dependency" None) <$> dependents);
     sq_scheduled := sq_scheduled st; sq_skipped := sq_skipped st ++ (ks_id <$> dependents);
     sq_consumed := sq_consumed st; sq_exhausted := sq_exhausted st; sq_completed := sq_completed st;
     sq_last_event := sq_last_event st; sq_replans := sq_replans st |}.

(** [original] was taken from the plan; [st] already counts its estimate. *)
Definition run_step (st : state) (original : KernelStepRequest) : option (result KernelError state) :=
  let position := S (length (sq_scheduled st)) in
  let w := env_step_started env position original (sq_world st) in
  match ensure_sequence_active w with
  | Err e => Some (Err e)
  | Ok _ =>
      let '(response, w) := env_execute env (kernel_request original) w in
      match response with
      | Ok response =>
          let w := env_step_completed env position original response w in
          match ensure_sequence_active w with
          | Err e => Some (Err e)
          | Ok _ => step_replan (step_ok st original response w) (ks_id original)
          end
      | Err failure =>
          let w := env_step_failed env position original failure w in
          match ensure_sequence_active w with
          | Err e => Some (Err e)
          | Ok _ =>
              '(dependents, kept) ← remove_failed_dependents (sq_remaining st) (ks_id original);
              Some (Ok (step_failed st original failure w dependents kept))
          end
      end
  end.

Definition take_step (st : state) (original : KernelStepRequest) (remaining : list KernelStepRequest) : state :=
  {| sq_world := sq_world st; sq_remaining := remaining; sq_results := sq_results st;
     sq_scheduled := sq_scheduled st; sq_skipped := sq_skipped st;
     sq_consumed := add_estimate (sq_consumed st) (kernel_step_estimate (env_json_bytes env) original);
     sq_exhausted := sq_exhausted st; sq_completed := sq_completed st;
     sq_last_event := sq_last_event st; sq_replans := sq_replans st |}.

(** One turn of the [while] loop. *)
Definition sequence_turn (st : state) : option (result KernelError state) :=
  match ensure_sequence_active (sq_world st) with
  | Err e => Some (Err e)
  | Ok _ =>
      sched ← schedule (mkScheduleRequest (to_schedule <$> sq_remaining st)
                          (schedule_budget_remaining budget (sq_consumed st)));
      match sched with
      | Err e => Some (scheduler_failed e)
      | Ok sched =>
          match ordered_steps sched with
          | [] => Some (Ok (skip_remaining st (budget_exhausted sched)))
          | next :: _ =>
              match take_scheduled_step (sq_remaining st) (step_id next) with
              | Err e => Some (Err e)
              | Ok (original, remaining) => run_step (take_step st original remaining) original
              end
          end
      end
  end.

Fixpoint sequence_loop (fuel : nat) (st : state) : option (result KernelError state) :=
  match sq_remaining st with
  | [] => Some (Ok st)
  | _ :: _ =>
      match fuel with
      | O => None
      | S fuel =>
          st ← sequence_turn st;
          match st with Err e => Some (Err e) | Ok st => sequence_loop fuel st end
      end
  end.

Definition initial_state (w : W) : state :=
  {| sq_world := w; sq_remaining := original_steps; sq_results := []; sq_scheduled := [];
     sq_skipped := []; sq_consumed := default_estimate; sq_exhausted := false; sq_completed := ∅;
     sq_last_event := 0; sq_replans := [] |}.

Definition sequence_body (fuel : nat) (w : W) : option (result KernelError state) :=
  match ensure_sequence_active w with
  | Err e => Some (Err e)
  | Ok _ =>
      st ← initial_replan (initial_state w);
      match st with Err e => Some (Err e) | Ok st => sequence_loop fuel st end
  end.
End Sequence.

Definition sequence_response {W R} (st : SeqState W R) : SequenceResponse R :=
  {| sp_scheduled := sq_scheduled st; sp_skipped := sq_skipped st; sp_budget_exhausted := sq_exhausted st;
     sp_step_results := sq_results st; sp_consumed := sq_consumed st; sp_replans := sq_replans st |}.

(** [execute_sequence_with_observer], the request counter left out.  [None]:
    out of fuel, or a panic. *)
Definition execute_sequence {W R} (env : KernelEnv W R) (fuel : nat) (req : KernelSequenceRequest) (w : W)
    : option (result KernelError (SequenceResponse R)) :=
  match normalize_sequence_request req with
  | Err e => Some (Err e)
  | Ok req =>
      st ← sequence_body env (sr_budget req) (sr_reactive req) (resolve_sequence_task_id req) (sr_steps req) fuel w;
      Some (sequence_response <$> (st : result KernelError (SeqState W R)))
  end.
