(* ===== verification/KernelSpec.v ===== *)
(** * The kernel's step sequences: theorems

    What [Kernel] promises: the kernel's plan mutations refine the scheduler's,
    [remove_failed_dependents] removes the transitive dependents, and a
    sequence run accounts for every step, runs a step only after its
    dependencies and stays within its budget. *)

From S2P Require Export Kernel.

(** ** The two plans agree *)

Section PlanRefinement.
Context (json_bytes : Json → Z).
Local Abbreviation to_schedule := (schedule_step_from_kernel json_bytes).
Implicit Types (l : list KernelStepRequest) (m : PlanMutation KernelStepRequest).

Lemma ids_to_schedule l : ids (to_schedule <$> l) = plan_ids l.
Proof. unfold ids, plan_ids. rewrite <- list_fmap_compose. done. Qed.

Lemma to_schedule_retain id s : to_schedule (retain_deps id s) = retain_deps id (to_schedule s).
Proof. done. Qed.

Lemma filter_to_schedule id l :
  filter (λ s, step_id s ≠ id) (to_schedule <$> l) = to_schedule <$> filter (λ s, ks_id s ≠ id) l.
Proof.
  induction l as [|s l IH]; [done|]. rewrite fmap_cons, !filter_cons. simpl.
  case_decide; [rewrite fmap_cons|]; by rewrite IH.
Qed.

Lemma ks_ids_filter id l : plan_ids (filter (λ s, ks_id s ≠ id) l) = filter (λ c, c ≠ id) (plan_ids l).
Proof. exact (plan_ids_filter id l). Qed.

Lemma plan_mutate_to_schedule l m :
  to_schedule <$> plan_mutate l m = plan_mutate (to_schedule <$> l) (to_schedule_mutation json_bytes m).
Proof.
  destruct m as [id r|step r|step r]; simpl.
  - rewrite plan_ids_schedule, ids_to_schedule. case_decide; [|done].
    simpl. rewrite filter_to_schedule, <- !list_fmap_compose. done.
  - rewrite <- !list_fmap_compose. apply list_fmap_ext. intros ? s _. simpl. by case_decide.
  - rewrite plan_ids_schedule, ids_to_schedule. case_decide; [done|]. by rewrite fmap_app.
Qed.

Lemma plan_mutate_all_to_schedule l ms :
  to_schedule <$> foldl plan_mutate l ms =
  foldl plan_mutate (to_schedule <$> l) (to_schedule_mutations json_bytes ms).
Proof.
  unfold to_schedule_mutations. revert l. induction ms as [|m ms IH]; intros l; [done|].
  rewrite fmap_cons. simpl. by rewrite IH, plan_mutate_to_schedule.
Qed.
End PlanRefinement.

(** When the scheduler accepts a replan, the kernel's own mutated plan, seen
    through the conversion to scheduler steps, is the plan the scheduler accepted. *)
Theorem apply_kernel_mutations_refine json_bytes remaining ms res :
  apply_mutations (schedule_step_from_kernel json_bytes <$> remaining)
    (to_schedule_mutations json_bytes ms) = Some (Ok res) →
  schedule_step_from_kernel json_bytes <$> apply_kernel_mutations remaining ms = mr_steps res.
Proof.
  intros Hok. unfold apply_mutations in Hok.
  destruct (validate_steps_dec (schedule_step_from_kernel json_bytes <$> remaining)) as [(u & E & Hwf)|(e & E & _)];
    rewrite E in Hok; [|done].
  pose proof (wf_unique _ Hwf) as Hnd.
  rewrite (plan_result_spec (S:=ScheduleStep)) in Hok by done.
  unfold apply_kernel_mutations. rewrite plan_result_spec by (by rewrite ids_to_schedule in Hnd).
  rewrite plan_mutate_all_to_schedule. repeat case_match; try done.
  apply bind_Some in Hok as (topo & _ & [= Hok]). destruct topo; [|done]. by simplify_eq/=.
Qed.

Lemma apply_kernel_mutations_refine_witness :
  let step id deps := mkKernelStep id "t" deps [] JNull JNull default_execution_budget in
  let steps := [step "a" []; step "b" ["a"]] in
  let ms := [Cancel "a" "stale"; Append (step "c" ["b"]) "more"] in
  ∃ res, apply_mutations (schedule_step_from_kernel (λ _, 8%Z) <$> steps) (to_schedule_mutations (λ _, 8%Z) ms) = Some (Ok res) ∧
    schedule_step_from_kernel (λ _, 8%Z) <$> apply_kernel_mutations steps ms = mr_steps res.
Proof.
  intros step steps ms.
  assert (∃ res, apply_mutations (schedule_step_from_kernel (λ _, 8%Z) <$> steps)
    (to_schedule_mutations (λ _, 8%Z) ms) = Some (Ok res)) as [res Hres] by (eexists; vm_compute; reflexivity).
  exists res. split; [exact Hres|]. exact (apply_kernel_mutations_refine _ steps ms res Hres).
Defined.

(** ** Transitive dependents *)

Section Dependents.
Implicit Types (l K M : list KernelStepRequest) (f : string).

(** [a] names a step of [l] that lists [b]. *)
Definition depends_edge l : relation string := λ a b, ∃ s, s ∈ l ∧ ks_id s = a ∧ b ∈ ks_depends_on s.

(** [a] depends on [b], directly or through other steps. *)
Definition depends_tc l : relation string := tc (depends_edge l).

(** The worklist's invariant: [D] are the ids popped so far. *)
Record failed_inv (l : list KernelStepRequest) (f : string) (D failed : list string) K M : Prop := {
  fi_perm : K ++ M ≡ₚ l;
  fi_sub : K `sublist_of` l;
  fi_kept s d : s ∈ K → d ∈ D → d ∉ ks_depends_on s;
  fi_pushed c : c ∈ D ++ failed ↔ c = f ∨ c ∈ plan_ids M;
  fi_reach s : s ∈ M → depends_tc l (ks_id s) f
}.

Lemma filter_sublist {A} (P : A → Prop) `{∀ x, Decision (P x)} (k : list A) : filter P k `sublist_of` k.
Proof.
  induction k as [|x k IH]; [constructor|]. rewrite filter_cons. case_decide; by constructor.
Qed.

Lemma filter_partition {A} (P Q : A → Prop) `{∀ x, Decision (P x), ∀ x, Decision (Q x)} (k : list A) :
  (∀ x, x ∈ k → P x ↔ ¬ Q x) → filter P k ++ filter Q k ≡ₚ k.
Proof.
  induction k as [|x k IH]; intros HPQ; [done|]. rewrite !filter_cons.
  assert (P x ↔ ¬ Q x) by (apply HPQ; left).
  assert (filter P k ++ filter Q k ≡ₚ k) as IH' by (apply IH; intros; apply HPQ; by right).
  destruct (decide (P x)), (decide (Q x)); try tauto; simpl; [by rewrite IH'|].
  rewrite <- Permutation_middle. by rewrite IH'.
Qed.

Lemma failed_inv_step l f D d failed K M :
  failed_inv l f D (d :: failed) K M →
  failed_inv l f (d :: D)
    (reverse (ks_id <$> filter (λ s, d ∈ ks_depends_on s) K) ++ failed)
    (filter (λ s, d ∉ ks_depends_on s) K) (M ++ filter (λ s, d ∈ ks_depends_on s) K).
Proof.
  intros [Hp Hs Hk Hpu Hr].
  assert (HK : ∀ s, s ∈ K → s ∈ l) by (intros s Hin; rewrite <- Hp; set_solver).
  assert (Hd : d = f ∨ depends_tc l d f).
  { destruct (proj1 (Hpu d)) as [?|Hin]; [set_solver|by left|]. right.
    apply elem_of_plan_ids in Hin as (s & Hs' & <-). by apply Hr. }
  split.
  - rewrite (Permutation_app_comm M), app_assoc, <- Hp. f_equiv. apply filter_partition. done.
  - by rewrite filter_sublist.
  - intros s d' [Hn Hin]%list_elem_of_filter [->|Hd']%elem_of_cons; [done|]. by eapply Hk.
  - intros c. unfold plan_ids. rewrite fmap_app, elem_of_app. fold (plan_ids M).
    pose proof (Hpu c) as Hc. simpl. rewrite elem_of_cons, !elem_of_app, elem_of_reverse.
    rewrite elem_of_app, elem_of_cons in Hc. simpl. tauto.
  - intros s [Hin|[Hin HinK]%list_elem_of_filter]%elem_of_app; [by apply Hr|].
    assert (depends_edge l (ks_id s) d) as He by (exists s; auto).
    destruct Hd as [->|Hd]; [by apply tc_once|by eapply tc_l].
Qed.

Lemma failed_loop_spec l f fuel D failed K M :
  failed_inv l f D failed K M → length failed + length K ≤ fuel →
  ∃ D' K' M', failed_loop fuel failed K M = Some (M', K') ∧ failed_inv l f D' [] K' M'.
Proof.
  revert D failed K M. induction fuel as [|fuel IH]; intros D failed K M Hinv Hf;
    (destruct failed as [|d failed]; [by exists D, K, M|]); simpl in Hf; [lia|].
  cbn [failed_loop]. apply (IH (d :: D)); [by apply failed_inv_step|].
  rewrite length_app, length_reverse, length_fmap.
  assert (length (filter (λ s, d ∈ ks_depends_on s) K) + length (filter (λ s, d ∉ ks_depends_on s) K) = length K)
    as Hlen; [|lia].
  rewrite <- length_app, (Permutation_app_comm (filter _ K)). apply Permutation_length.
  by apply filter_partition.
Qed.

Lemma depends_tc_source l a b : depends_tc l a b → a ∈ plan_ids l.
Proof. by destruct 1 as [a b (s & ? & <- & _)|a b c (s & ? & <- & _) _]; apply list_elem_of_fmap_2. Qed.

(** What is left does not depend on the failed step, what is removed does. *)
Lemma remove_failed_dependents_spec l f :
  NoDup (plan_ids l) →
  ∃ removed kept, remove_failed_dependents l f = Some (removed, kept) ∧
    kept ++ removed ≡ₚ l ∧ kept `sublist_of` l ∧
    (∀ s, s ∈ removed → depends_tc l (ks_id s) f) ∧
    (∀ s, s ∈ kept → ¬ depends_tc l (ks_id s) f) ∧
    (∀ s d, s ∈ kept → d ∈ ks_depends_on s → d ≠ f ∧ d ∉ plan_ids removed).
Proof.
  intros Hnd. destruct (failed_loop_spec l f (S (length l)) [] [f] l []) as (D & K & M & Hloop & Hinv).
  - split; [by rewrite app_nil_r|done| | |].
    + intros s d _ ?%elem_of_nil. done.
    + intros c. simpl. set_solver.
    + intros s ?%elem_of_nil. done.
  - simpl. lia.
  - destruct Hinv as [Hp Hs Hk Hpu Hr]. rewrite app_nil_r in Hpu.
    exists M, K. split; [done|]. split; [done|]. split; [done|]. split; [done|].
    assert (Hkeep : ∀ s d, s ∈ K → d ∈ ks_depends_on s → d ≠ f ∧ d ∉ plan_ids M)
      by (intros s d HinK Hd; split; intros Hc; eapply Hk; eauto; apply Hpu; auto).
    split; [|done]. intros s Hin Htc.
    assert (∀ a b, depends_tc l a b → b = f → a ∈ plan_ids K → False) as Hno; [|by eapply Hno; [..|by apply list_elem_of_fmap_2]].
    clear s Hin Htc. intros a b Htc Hb. induction Htc as [a b (s & Hs' & <- & Hd)|a b c (s & Hs' & <- & Hd) Htc IH];
      intros (s' & HsK & Heq)%elem_of_plan_ids.
    all: assert (s' ∈ l) as Hs'' by (rewrite <- Hp; set_solver).
    all: assert (s' = s) as -> by (by eapply plan_id_inj).
    all: destruct (Hkeep s _ HsK Hd) as [Hne HnM]; [done||idtac].
    apply (IH Hb). apply depends_tc_source, elem_of_plan_ids in Htc as (s'' & Hs3 & <-).
    rewrite <- Hp in Hs3. apply elem_of_app in Hs3 as [?|?]; [by apply list_elem_of_fmap_2|].
    exfalso. apply HnM. by apply list_elem_of_fmap_2.
Qed.
End Dependents.

(** ** A sequence run *)

Definition budget_of (b : ExecutionBudget) : ScheduleBudget :=
  {| token_cap := eb_token_cap b; byte_cap := eb_byte_cap b; runtime_ms_cap := eb_runtime_ms_cap b |}.

Definition packet_ok (p : KernelPacket) : Prop :=
  fits u64_max (default 0%Z (kp_token_usage p)) ∧ fits u64_max (default 0%Z (kp_runtime_ms p)).

Definition step_ok_packets (s : KernelStepRequest) : Prop := Forall packet_ok (ks_input_packets s).

(** The failure code of a skipped step. *)
Definition skip_code {R} (r : StepResponse R) : option string :=
  if decide (kr_status r = "skipped") then kf_code <$> kr_failure r else None.

Definition ok_in {R} (results : list (StepResponse R)) (id : string) : Prop :=
  ∃ r, r ∈ results ∧ kr_id r = id ∧ kr_status r = "ok".

Definition failed_in {R} (results : list (StepResponse R)) (id : string) : Prop :=
  ∃ r, r ∈ results ∧ kr_id r = id ∧ kr_status r = "failed".

(** Every step that ran (and succeeded or failed) ran after its dependencies succeeded. *)
Definition ran_after_deps {R} (orig : list KernelStepRequest) (results : list (StepResponse R)) : Prop :=
  ∀ pre r post o d, results = pre ++ r :: post → kr_status r ≠ "skipped" →
    o ∈ orig → ks_id o = kr_id r → d ∈ ks_depends_on o → ok_in pre d.

(** The outcome of a run of [orig] under [budget]. *)
Record sequence_outcome {R} (orig : list KernelStepRequest) (budget : ExecutionBudget)
    (resp : SequenceResponse R) : Prop := {
  so_all : kr_id <$> sp_step_results resp ≡ₚ plan_ids orig;
  so_status : Forall (λ r, kr_status r ∈ ["ok"; "failed"; "skipped"]) (sp_step_results resp);
  so_order : ran_after_deps orig (sp_step_results resp);
  so_failed r : r ∈ sp_step_results resp →
    skip_code r = Some "dependency_failed" ↔
    ∃ f, failed_in (sp_step_results resp) f ∧ depends_tc orig (kr_id r) f;
  so_budget r c : r ∈ sp_step_results resp → skip_code r = Some c → c ≠ "dependency_failed" →
    c = "budget_exceeded" ∧ sp_budget_exhausted resp = true;
  so_scheduled : sp_scheduled resp = kr_id <$> filter (λ r, kr_status r = "ok") (sp_step_results resp);
  so_skipped : sp_skipped resp = kr_id <$> filter (λ r, kr_status r = "skipped") (sp_step_results resp);
  so_consumed : within_budget (budget_of budget) (sp_consumed resp)
}.

Section Estimate.
Context (json_bytes : Json → Z) (Hjson : ∀ j, fits usize_max (json_bytes j)).

Lemma estimate_tokens_nonneg n : (0 <= n → 0 <= estimate_tokens n)%Z.
Proof. intros. unfold estimate_tokens, div_ceil. apply Z.div_pos; lia. Qed.

Lemma usage_for_packets_ok ps : Forall packet_ok ps → estimate_ok (usage_for_packets json_bytes ps).
Proof using Hjson.
  unfold usage_for_packets. assert (estimate_ok default_estimate) as Hd
    by (unfold estimate_ok, fits, default_estimate, u64_max, usize_max, u64_max; simpl; lia).
  revert Hd. generalize default_estimate as u. induction ps as [|p ps IH]; intros u Hu Hps; [done|].
  apply Forall_cons in Hps as [(Ht & Hr) Hps]. simpl. apply IH; [|done].
  pose proof (Hjson (kp_body p)) as Hj. pose proof (estimate_tokens_nonneg _ (proj1 Hj)).
  destruct Hu as (Hu1 & Hu2 & Hu3). unfold estimate_ok, packet_usage, fits, saturating_add in *. simpl.
  destruct (kp_token_usage p), (kp_runtime_ms p); simpl in *; lia.
Qed.

Lemma steps_ok_to_schedule l :
  Forall step_ok_packets l → steps_ok (schedule_step_from_kernel json_bytes <$> l).
Proof using Hjson.
  intros Hl. unfold steps_ok. apply Forall_fmap. eapply Forall_impl; [exact Hl|].
  intros s Hs. by apply usage_for_packets_ok.
Qed.
End Estimate.

Section BudgetLeft.
Lemma under_cap_remaining max cap consumed add :
  under_cap consumed cap → (0 <= add)%Z → under_cap add (saturating_sub_cap cap consumed) →
  under_cap (saturating_add max consumed add) cap.
Proof.
  unfold under_cap, saturating_sub_cap, saturating_sub, saturating_add. intros Hc Ha Hs c ->.
  specialize (Hc c eq_refl). specialize (Hs _ eq_refl). lia.
Qed.

Lemma within_budget_remaining b consumed add :
  within_budget (budget_of b) consumed → estimate_ok add →
  within_budget (schedule_budget_remaining b consumed) add →
  within_budget (budget_of b) (add_estimate consumed add).
Proof.
  intros (? & ? & ?) ((? & _) & (? & _) & (? & _)) (? & ? & ?).
  split_and!; by apply under_cap_remaining.
Qed.

Lemma budget_remaining_ok b consumed : budget_ok (schedule_budget_remaining b consumed).
Proof.
  unfold budget_ok, schedule_budget_remaining, saturating_sub_cap. simpl.
  split_and!; intros c (c' & _ & ->)%fmap_Some; apply saturating_sub_nonneg.
Qed.
End BudgetLeft.

Section Run.
Context {W R : Type} (env : KernelEnv W R) (b : ExecutionBudget) (rc : ReactiveSequenceConfig).
Context (tid : option string) (orig : list KernelStepRequest).
Local Abbreviation S := (schedule_step_from_kernel (env_json_bytes env)).
Implicit Types (st : SeqState W R) (res : list (StepResponse R)).

(** The loop's invariant. *)
Record seq_inv (st : SeqState W R) : Prop := {
  si_ids : (kr_id <$> sq_results st) ++ plan_ids (sq_remaining st) ≡ₚ plan_ids orig;
  si_from s : s ∈ sq_remaining st → ∃ o, o ∈ orig ∧ ks_id o = ks_id s ∧
    ∀ d, d ∈ ks_depends_on o → d ∈ ks_depends_on s ∨ ok_in (sq_results st) d;
  si_sub s o d : s ∈ sq_remaining st → o ∈ orig → ks_id o = ks_id s →
    d ∈ ks_depends_on s → d ∈ ks_depends_on o;
  si_closed s d : s ∈ sq_remaining st → d ∈ ks_depends_on s → d ∈ plan_ids (sq_remaining st);
  si_packets : Forall step_ok_packets (sq_remaining st);
  si_order : ∃ out, valid_order (S <$> sq_remaining st) out;
  si_status : Forall (λ r, kr_status r ∈ ["ok"; "failed"; "skipped"]) (sq_results st);
  si_ran : ran_after_deps orig (sq_results st);
  si_skip r : r ∈ sq_results st → kr_status r = "skipped" →
    skip_code r = Some "dependency_failed" ∧ ∃ f, failed_in (sq_results st) f ∧ depends_tc orig (kr_id r) f;
  si_scheduled : sq_scheduled st = kr_id <$> filter (λ r, kr_status r = "ok") (sq_results st);
  si_skipped : sq_skipped st = kr_id <$> filter (λ r, kr_status r = "skipped") (sq_results st);
  si_budget : within_budget (budget_of b) (sq_consumed st)
}.

Context (Horig : NoDup (plan_ids orig)).

Lemma ok_in_app res res' d : ok_in res d → ok_in (res ++ res') d.
Proof. intros (r & ? & ?). exists r. set_solver. Qed.

Lemma si_ids_nodup st : seq_inv st → NoDup ((kr_id <$> sq_results st) ++ plan_ids (sq_remaining st)).
Proof using Horig. intros [Hp]. by rewrite Hp. Qed.

Lemma results_unique st r r' :
  seq_inv st → r ∈ sq_results st → r' ∈ sq_results st → kr_id r = kr_id r' → r = r'.
Proof using Horig.
  intros Hinv Hr Hr' Heq. pose proof (si_ids_nodup _ Hinv) as Hnd.
  apply NoDup_app in Hnd as (Hnd & _ & _).
  apply list_elem_of_lookup in Hr as [i Hi]. apply list_elem_of_lookup in Hr' as [j Hj].
  assert (i = j) as ->; [|congruence].
  apply (NoDup_lookup _ i j (kr_id r) Hnd); rewrite list_lookup_fmap; [by rewrite Hi|].
  rewrite Hj. simpl. congruence.
Qed.

(** What is done or pending never depends on a failed step. *)
Lemma alive_no_failed st a f :
  seq_inv st → a ∈ plan_ids (sq_remaining st) ∨ ok_in (sq_results st) a →
  depends_tc orig a f → f ∈ plan_ids (sq_remaining st) ∨ ok_in (sq_results st) f.
Proof using Horig.
  intros Hinv Ha Htc. revert Ha.
  assert (∀ a d, a ∈ plan_ids (sq_remaining st) ∨ ok_in (sq_results st) a → depends_edge orig a d →
    d ∈ plan_ids (sq_remaining st) ∨ ok_in (sq_results st) d) as Hstep.
  { clear a f Htc. intros a d [Ha|(r & Hr & <- & Hok)] (o & Ho & Heq & Hd).
    - apply elem_of_plan_ids in Ha as (s & Hs & <-).
      destruct (si_from _ Hinv s Hs) as (o' & Ho' & Heq' & Hdeps).
      assert (o' = o) as -> by (eapply (plan_id_inj orig); [done..|exact (eq_trans Heq' (eq_sym Heq))]).
      destruct (Hdeps d Hd) as [Hds|?]; [|by right]. left. by apply (si_closed _ Hinv s).
    - right. apply list_elem_of_split in Hr as (pre & post & Heqr). rewrite Heqr.
      apply ok_in_app. eapply (si_ran _ Hinv pre r post o d); eauto. by rewrite Hok. }
  induction Htc as [a d He|a d f He _ IH]; intros Ha; eauto.
Qed.

Lemma alive_not_failed st a f :
  seq_inv st → a ∈ plan_ids (sq_remaining st) ∨ ok_in (sq_results st) a →
  failed_in (sq_results st) f → ¬ depends_tc orig a f.
Proof using Horig.
  intros Hinv Ha (r & Hr & <- & Hf) Htc.
  destruct (alive_no_failed _ _ _ Hinv Ha Htc) as [Hin|(r' & Hr' & Heq & Hok)].
  - pose proof (si_ids_nodup _ Hinv) as Hnd. apply NoDup_app in Hnd as (_ & Hd & _).
    eapply Hd; [|exact Hin]. by apply list_elem_of_fmap_2.
  - assert (r' = r) as -> by (by eapply results_unique). congruence.
Qed.

(** A step that ran does not depend on a failed one. *)
Lemma ran_no_failed st r f :
  seq_inv st → r ∈ sq_results st → kr_status r ≠ "skipped" →
  failed_in (sq_results st) f → ¬ depends_tc orig (kr_id r) f.
Proof using Horig.
  intros Hinv Hr Hst Hf Htc. pose proof Hr as Hr'. apply list_elem_of_split in Hr' as (pre & post & Heq).
  assert (Hdep : ∀ d, depends_edge orig (kr_id r) d → ok_in (sq_results st) d).
  { intros d (o & Ho & Hid & Hd). rewrite Heq. apply ok_in_app. by eapply (si_ran _ Hinv pre r post o d). }
  inversion Htc as [? ? He|? d ? He Htc']; subst.
  - destruct (Hdep _ He) as (r1 & Hr1 & Hid & Hok), Hf as (r2 & Hr2 & Hid2 & Hf).
    assert (r1 = r2) as -> by (eapply results_unique; eauto; congruence). congruence.
  - eapply alive_not_failed; [done| |done|done]. right. by apply Hdep.
Qed.

Lemma ran_after_deps_app res res' :
  ran_after_deps orig res →
  (∀ pre r post o d, res' = pre ++ r :: post → kr_status r ≠ "skipped" → o ∈ orig →
     ks_id o = kr_id r → d ∈ ks_depends_on o → ok_in (res ++ pre) d) →
  ran_after_deps orig (res ++ res').
Proof.
  intros Hr Hr' pre r post o d Heq. apply app_eq_app in Heq as (k & [[-> Hk]|[-> Hk]]).
  - destruct k as [|x k].
    + rewrite app_nil_r in *. simpl in Hk. intros. rewrite <- (app_nil_r pre). by eapply (Hr' [] r post).
    + simplify_eq/=. intros. by eapply (Hr pre _ k).
  - intros. by eapply (Hr' k r post).
Qed.

Lemma take_spec (l : list KernelStepRequest) k :
  NoDup (plan_ids l) → k ∈ l →
  take_scheduled_step l (ks_id k) = Ok (k, filter (λ s, ks_id s ≠ ks_id k) l) ∧
  l ≡ₚ k :: filter (λ s, ks_id s ≠ ks_id k) l.
Proof.
  unfold take_scheduled_step, plan_ids. induction l as [|s l IH]; intros Hnd Hk; [by apply elem_of_nil in Hk|].
  rewrite fmap_cons in Hnd. apply NoDup_cons in Hnd as [Hni Hnd]. rewrite filter_cons. cbn [list_find].
  destruct (decide (ks_id s = ks_id k)) as [Heq|Hne].
  - assert (k = s) as ->.
    { apply elem_of_cons in Hk as [->|Hk]; [done|]. exfalso. apply Hni. simpl. rewrite Heq. by apply (list_elem_of_fmap_2 ks_id). }
    assert (filter (λ s', ks_id s' ≠ ks_id s) l = l) as E; [|rewrite decide_False by tauto; rewrite E; done].
    assert (∀ x, x ∈ l → ks_id x ≠ ks_id s) as Hall
      by (intros x Hx Hxe; apply Hni; simpl; rewrite <- Hxe; by apply (list_elem_of_fmap_2 ks_id)).
    clear -Hall. induction l as [|x l IH]; [done|]. rewrite filter_cons, decide_True by (apply Hall; left).
    f_equal. apply IH. intros y Hy. apply Hall. by right.
  - assert (k ∈ l) as Hkl by (apply elem_of_cons in Hk as [->|]; done).
    rewrite decide_True by done. destruct (IH Hnd Hkl) as [Ht Hp].
    destruct (list_find (λ s', ks_id s' = ks_id k) l) as [[i k']|] eqn:Ef; [|done].
    injection Ht as -> Hdel. simpl. split; [by rewrite Hdel|].
    rewrite Permutation_swap. by rewrite <- Hp.
Qed.

(** A pending step [k] that waits for nothing and fits the budget. *)
Record startable st (k : KernelStepRequest) : Prop := {
  sa_in : k ∈ sq_remaining st;
  sa_deps : ks_depends_on k = [];
  sa_budget : within_budget (schedule_budget_remaining b (sq_consumed st))
    (kernel_step_estimate (env_json_bytes env) k)
}.

Local Abbreviation rest_of st k := (filter (λ s, ks_id s ≠ ks_id k) (sq_remaining st)).
Local Abbreviation taken st k := (take_step env st k (rest_of st k)).

Lemma skipped_not_ok (f : KernelStepRequest → StepResponse R) (l : list KernelStepRequest) :
  (∀ s, kr_status (f s) = "skipped") → filter (λ r, kr_status r = "ok") (f <$> l) = [].
Proof.
  intros Hf. induction l as [|s l IH]; [done|]. rewrite fmap_cons, filter_cons, decide_False; [done|].
  by rewrite Hf.
Qed.

Lemma skipped_are_skipped (f : KernelStepRequest → StepResponse R) (l : list KernelStepRequest) :
  (∀ s, kr_status (f s) = "skipped" ∧ kr_id (f s) = ks_id s) →
  kr_id <$> filter (λ r, kr_status r = "skipped") (f <$> l) = ks_id <$> l.
Proof.
  intros Hf. induction l as [|s l IH]; [done|]. destruct (Hf s) as [H1 H2].
  rewrite fmap_cons, filter_cons, decide_True by done. rewrite !fmap_cons. by rewrite H2, IH.
Qed.

Lemma seq_inv_outcome st ex :
  seq_inv st → sq_remaining st = [] ∨ ex = true →
  sequence_outcome orig b (sequence_response (skip_remaining st ex)).
Proof using Horig.
  intros Hinv Hex. set (skips := (λ s, @skipped_response R s "budget_exceeded" "step skipped: budget_exceeded" None)).
  assert (Hres : sp_step_results (sequence_response (skip_remaining st ex)) =
    sq_results st ++ (skips <$> sq_remaining st)) by (by destruct Hex as [Hr| ->]; simpl; rewrite ?Hr).
  split; rewrite ?Hres.
  - rewrite fmap_app, <- (si_ids _ Hinv). f_equiv. by rewrite <- list_fmap_compose.
  - apply Forall_app. split; [apply Hinv|]. apply Forall_fmap, Forall_forall. intros s _. simpl. set_solver.
  - apply ran_after_deps_app; [apply Hinv|]. intros pre r post o d Heq Hst. exfalso.
    assert (r ∈ skips <$> sq_remaining st) as Hin by (rewrite Heq; set_solver).
    apply list_elem_of_fmap in Hin as (? & -> & _). done.
  - intros r Hr. assert (Hfail : ∀ f, failed_in (sq_results st ++ (skips <$> sq_remaining st)) f ↔ failed_in (sq_results st) f).
    { intros f. split; intros (rf & Hrf & ? & Hst); [|exists rf; set_solver].
      apply elem_of_app in Hrf as [?|Hrf]; [by exists rf|]. by apply list_elem_of_fmap in Hrf as (? & -> & _). }
    setoid_rewrite Hfail. apply elem_of_app in Hr as [Hr|Hr].
    + split; [intros Hc; apply (si_skip _ Hinv r Hr); unfold skip_code in Hc; by case_decide|].
      intros (f & Hf & Htc). pose proof (proj1 (Forall_forall _ _) (si_status _ Hinv) r Hr) as Hst.
      rewrite !elem_of_cons in Hst. destruct Hst as [Hst|[Hst|[Hst|?%elem_of_nil]]]; [| |by apply (si_skip _ Hinv)|done]; exfalso.
      * eapply alive_not_failed; [done| |done|done]. right. by exists r.
      * apply (ran_no_failed st r f); auto. by rewrite Hst.
    + apply list_elem_of_fmap in Hr as (s & -> & Hs). split; [done|]. intros (f & Hf & Htc). exfalso.
      eapply alive_not_failed; [done| |done|done]. left. by apply (list_elem_of_fmap_2 ks_id).
  - intros r c Hr Hc Hne. apply elem_of_app in Hr as [Hr|Hr].
    + unfold skip_code in Hc. case_decide as Hst; [|done].
      destruct (si_skip _ Hinv r Hr Hst) as [Hc' _]. unfold skip_code in Hc'. rewrite decide_True in Hc' by done. congruence.
    + apply list_elem_of_fmap in Hr as (s & -> & Hs). split; [by injection Hc as <-|].
      destruct Hex as [Hr|]; [|done]. rewrite Hr in Hs. by apply elem_of_nil in Hs.
  - rewrite filter_app, fmap_app, skipped_not_ok, app_nil_r by done. apply Hinv.
  - rewrite filter_app, fmap_app, <- (si_skipped _ Hinv). simpl. f_equal. by rewrite (skipped_are_skipped skips).
  - apply Hinv.
Qed.

Context (Hjson : ∀ j, fits usize_max (env_json_bytes env j)).

Lemma consumed_within st k :
  seq_inv st → startable st k → within_budget (budget_of b) (sq_consumed (taken st k)).
Proof using Hjson.
  intros Hinv [Hk _ Hb]. simpl. apply within_budget_remaining; [by apply si_budget| |done].
  apply usage_for_packets_ok; [done|]. by apply (proj1 (Forall_forall _ _) (si_packets _ Hinv)).
Qed.

(** The step that was taken has all its dependencies done. *)
Lemma taken_deps_ok st k o d :
  seq_inv st → startable st k → o ∈ orig → ks_id o = ks_id k → d ∈ ks_depends_on o →
  ok_in (sq_results st) d.
Proof using Horig.
  intros Hinv [Hk Hdeps _] Ho Heq Hd. destruct (si_from _ Hinv k Hk) as (o' & Ho' & Heq' & Hfrom).
  assert (o' = o) as -> by (eapply (plan_id_inj orig); [done..|exact (eq_trans Heq' (eq_sym Heq))]).
  destruct (Hfrom d Hd) as [Hin|?]; [|done]. rewrite Hdeps in Hin. by apply elem_of_nil in Hin.
Qed.

Lemma remaining_perm st k :
  seq_inv st → k ∈ sq_remaining st →
  (kr_id <$> sq_results st) ++ ks_id k :: plan_ids (rest_of st k) ≡ₚ plan_ids orig.
Proof using Horig.
  intros Hinv Hk. rewrite <- (si_ids _ Hinv). f_equiv. unfold plan_ids.
  pose proof (si_ids_nodup _ Hinv) as Hnd. apply NoDup_app in Hnd as (_ & _ & Hnd).
  destruct (take_spec _ k Hnd Hk) as [_ Hp]. rewrite Hp at 2. done.
Qed.

Lemma step_ok_inv st k r w :
  seq_inv st → startable st k → seq_inv (step_ok (taken st k) k r w).
Proof using Horig Hjson.
  intros Hinv Hsa. pose proof (sa_in _ _ Hsa) as Hk. split; simpl.
  - unfold remove_satisfied_dependency. rewrite plan_ids_retain, fmap_app, <- app_assoc. by apply remaining_perm.
  - intros s Hs. apply list_elem_of_fmap in Hs as (s0 & -> & [Hne Hs0]%list_elem_of_filter).
    destruct (si_from _ Hinv s0 Hs0) as (o & Ho & Heq & Hd). exists o. split_and!; [done|done|].
    intros d Hdo. destruct (decide (d = ks_id k)) as [->|Hdne].
    + right. eexists. split; [apply elem_of_app; right; left|]. done.
    + destruct (Hd d Hdo) as [?|?]; [left; by apply list_elem_of_filter|right; by apply ok_in_app].
  - intros s o d Hs Ho Heq Hd. apply list_elem_of_fmap in Hs as (s0 & -> & [Hne Hs0]%list_elem_of_filter).
    simpl in Hd. apply list_elem_of_filter in Hd as [_ Hd]. by apply (si_sub _ Hinv s0).
  - intros s d Hs Hd. unfold remove_satisfied_dependency. rewrite plan_ids_retain, ks_ids_filter.
    apply list_elem_of_fmap in Hs as (s0 & -> & [Hne Hs0]%list_elem_of_filter).
    simpl in Hd. apply list_elem_of_filter in Hd as [? Hd]. apply list_elem_of_filter. split; [done|].
    by apply (si_closed _ Hinv s0).
  - pose proof (si_packets _ Hinv) as Hp. apply Forall_fmap, Forall_forall. rewrite Forall_forall in Hp.
    intros s [_ Hs]%list_elem_of_filter. by apply Hp in Hs.
  - destruct (si_order _ Hinv) as (out & Hp & Hd).
    exists (retain_deps (ks_id k) <$> filter (λ s, step_id s ≠ ks_id k) out). split.
    + rewrite Hp, filter_to_schedule. unfold remove_satisfied_dependency.
      rewrite <- !list_fmap_compose. done.
    + apply deps_before_filter; [done| |done]. intros s d Hs _ [Hne Hd']%list_elem_of_filter.
      split; [done|]. intros s' _ ->. done.
  - apply Forall_app. split; [apply Hinv|]. apply Forall_singleton. simpl. set_solver.
  - apply ran_after_deps_app; [apply Hinv|]. intros pre r' post o d Heq _ Ho Hid Hd.
    destruct pre as [|? [|? ?]]; simplify_eq/=. rewrite app_nil_r. by eapply taken_deps_ok.
  - intros r' [Hr|Hr]%elem_of_app Hst.
    + destruct (si_skip _ Hinv r' Hr Hst) as (? & f & (rf & ? & ?) & ?). split; [done|]. exists f.
      split; [|done]. exists rf. set_solver.
    + apply list_elem_of_singleton in Hr as ->. done.
  - rewrite filter_app, fmap_app, <- (si_scheduled _ Hinv). done.
  - rewrite filter_app, fmap_app, <- (si_skipped _ Hinv). simpl. by rewrite app_nil_r.
  - by apply consumed_within.
Qed.
(** The steps that stay after a failure still have an order. *)
Lemma kept_order st kept :
  seq_inv st → NoDup (plan_ids kept) → (∀ s, s ∈ kept → s ∈ sq_remaining st) →
  (∀ s d, s ∈ kept → d ∈ ks_depends_on s → d ∈ plan_ids kept) →
  ∃ out, valid_order (S <$> kept) out.
Proof using Horig.
  intros Hinv Hnd HK Hclosed. pose proof (si_ids_nodup _ Hinv) as Hn. apply NoDup_app in Hn as (_ & _ & Hn).
  assert (Huniq : ∀ s c, s ∈ sq_remaining st → ks_id s = c → c ∈ plan_ids kept → s ∈ kept).
  { intros s c Hs <- (s0 & Hs0 & Heq)%elem_of_plan_ids.
    assert (s0 = s) as <-; [|done]. eapply (plan_id_inj (sq_remaining st)); eauto. }
  destruct (si_order _ Hinv) as (out & Hpo & Hd). exists (id <$> filter (λ s, step_id s ∈ plan_ids kept) out). split.
  - rewrite list_fmap_id, Hpo. apply NoDup_Permutation.
    + apply NoDup_filter, (NoDup_fmap_1 step_id). fold (ids (S <$> sq_remaining st)). by rewrite ids_to_schedule.
    + apply (NoDup_fmap_1 step_id). fold (ids (S <$> kept)). by rewrite ids_to_schedule.
    + intros s. rewrite list_elem_of_filter, !list_elem_of_fmap. split.
      * intros (Hin & s0 & -> & Hs0). eauto.
      * intros (s0 & -> & Hs0). split; [by apply (list_elem_of_fmap_2 ks_id)|eauto].
  - apply deps_before_filter; [done| |done]. intros s d Hs Hps Hd'. split; [done|]. intros s' _ <-.
    rewrite Hpo in Hs. apply list_elem_of_fmap in Hs as (s1 & -> & Hs1). apply (Hclosed s1); eauto.
Qed.

Lemma step_failed_inv st k e w removed kept :
  seq_inv st → startable st k →
  remove_failed_dependents (rest_of st k) (ks_id k) = Some (removed, kept) →
  seq_inv (step_failed (taken st k) k e w removed kept).
Proof using Horig Hjson.
  intros Hinv Hsa Hrm. pose proof (sa_in _ _ Hsa) as Hk.
  pose proof (remaining_perm st k Hinv Hk) as Hperm.
  assert (Hnd : NoDup (plan_ids (rest_of st k))).
  { rewrite <- Hperm in Horig. apply NoDup_app in Horig as (_ & _ & Hn). by apply NoDup_cons in Hn as [_ ?]. }
  destruct (remove_failed_dependents_spec (rest_of st k) (ks_id k) Hnd) as
    (removed' & kept' & E & Hp & _ & Htc & _ & Hkept). rewrite Hrm in E. injection E as <- <-.
  assert (HK : ∀ s, s ∈ kept → s ∈ sq_remaining st).
  { intros s Hs. assert (s ∈ rest_of st k) as Hin by (rewrite <- Hp; set_solver).
    by apply list_elem_of_filter in Hin as [_ ?]. }
  assert (Hclosed : ∀ s d, s ∈ kept → d ∈ ks_depends_on s → d ∈ plan_ids kept).
  { intros s d Hs Hd. destruct (Hkept s d Hs Hd) as [Hne Hni].
    assert (d ∈ plan_ids (rest_of st k)) as Hin.
    { rewrite ks_ids_filter. apply list_elem_of_filter. split; [done|]. by apply (si_closed _ Hinv s); auto. }
    unfold plan_ids in *. rewrite <- Hp, fmap_app, elem_of_app in Hin. tauto. }
  split; simpl.
  - unfold plan_ids in *. rewrite <- Hperm, fmap_app. simpl. rewrite <- app_assoc. f_equiv. simpl. f_equiv.
    rewrite <- Hp, fmap_app, Permutation_app_comm. f_equiv. by rewrite <- list_fmap_compose.
  - intros s Hs. destruct (si_from _ Hinv s (HK s Hs)) as (o & Ho & Heq & Hd). exists o.
    split_and!; [done|done|]. intros d Hdo. destruct (Hd d Hdo) as [?|?]; [by left|right; by apply ok_in_app].
  - intros s o d Hs. by apply (si_sub _ Hinv s o d), HK.
  - done.
  - pose proof (si_packets _ Hinv) as Hpk. rewrite Forall_forall in Hpk |- *. auto.
  - apply (kept_order st); auto. unfold plan_ids in *. rewrite <- Hp, fmap_app in Hnd.
    by apply NoDup_app in Hnd as (? & _ & _).
  - apply Forall_app. split; [apply Hinv|]. constructor; [simpl; set_solver|].
    apply Forall_fmap, Forall_forall. intros s _. simpl. set_solver.
  - apply ran_after_deps_app; [apply Hinv|]. intros pre r' post o d Heq Hst Ho Hid Hd.
    destruct pre as [|r0 pre]; injection Heq as <- Heq; [rewrite app_nil_r; by eapply taken_deps_ok|].
    exfalso. assert (r' ∈ (λ s, @skipped_response R s "dependency_failed" "step skipped due to failed dependency" None) <$> removed)
      as Hin by (rewrite Heq; set_solver).
    apply list_elem_of_fmap in Hin as (? & -> & _). done.
  - intros r' [Hr|Hr]%elem_of_app Hst.
    + destruct (si_skip _ Hinv r' Hr Hst) as (? & f & (rf & ? & ?) & ?). split; [done|]. exists f.
      split; [|done]. exists rf. set_solver.
    + apply elem_of_cons in Hr as [->|Hr]; [done|]. apply list_elem_of_fmap in Hr as (s & -> & Hs).
      split; [done|]. exists (ks_id k). split; [eexists; split; [apply elem_of_app; right; left|done]|].
      specialize (Htc s Hs). simpl. revert Htc. apply tc_congruence with (f := λ x, x).
      intros x y (s0 & [Hne Hs0]%list_elem_of_filter & <- & Hd).
      destruct (si_from _ Hinv s0 Hs0) as (o & Ho & Heq & _). exists o. split_and!; [done..|].
      by apply (si_sub _ Hinv s0).
  - rewrite filter_app, fmap_app, <- (si_scheduled _ Hinv). rewrite filter_cons. simpl.
    by rewrite skipped_not_ok, app_nil_r.
  - rewrite filter_app, fmap_app, <- (si_skipped _ Hinv). rewrite filter_cons. simpl.
    by rewrite (skipped_are_skipped (λ s, skipped_response s _ _ _)).
  - by apply consumed_within.
Qed.

Context (Hblank : Forall (λ id, is_blank id = false) (plan_ids orig)).

Lemma remaining_well_formed st : seq_inv st → well_formed (S <$> sq_remaining st).
Proof using Horig Hblank Hjson.
  intros Hinv. pose proof (si_ids_nodup _ Hinv) as Hnd. apply NoDup_app in Hnd as (_ & _ & Hnd).
  split; rewrite ids_to_schedule; [done| |].
  - apply Forall_forall. intros c Hc. rewrite Forall_forall in Hblank. apply Hblank.
    rewrite <- (si_ids _ Hinv). set_solver.
  - intros s d Hs Hd. apply list_elem_of_fmap in Hs as (k & -> & Hk). by apply (si_closed _ Hinv k).
Qed.

Context (Hrc : rc_enabled rc = false) (Hlive : ∀ w, env_should_cancel env w = false).

Lemma run_step_inv st k :
  seq_inv st → startable st k →
  ∃ st', run_step env b rc tid orig (taken st k) k = Some (Ok st') ∧ seq_inv st' ∧
    length (sq_remaining st') < length (sq_remaining st).
Proof using Horig Hjson Hrc Hlive.
  intros Hinv Hsa. pose proof (sa_in _ _ Hsa) as Hk.
  assert (Hnd : NoDup (plan_ids (sq_remaining st)))
    by (pose proof (si_ids_nodup _ Hinv) as Hn; by apply NoDup_app in Hn as (_ & _ & ?)).
  assert (Hlen : length (rest_of st k) < length (sq_remaining st))
    by (destruct (take_spec _ k Hnd Hk) as [_ ->%Permutation_length]; simpl; lia).
  unfold run_step, ensure_sequence_active. rewrite Hlive.
  destruct (env_execute env _ _) as [[r|e] w]; rewrite Hlive.
  - unfold step_replan. rewrite Hrc. eexists. split; [done|]. split; [by apply step_ok_inv|].
    simpl. unfold remove_satisfied_dependency. by rewrite length_fmap.
  - assert (NoDup (plan_ids (rest_of st k))) as Hnd' by (rewrite ks_ids_filter; by apply NoDup_filter).
    destruct (remove_failed_dependents_spec _ (ks_id k) Hnd') as (M & K & E & _ & Hs & _).
    simpl. rewrite E. simpl. eexists. split; [done|]. split; [by apply step_failed_inv|].
    simpl. apply sublist_length in Hs. lia.
Qed.

Lemma sequence_turn_inv st :
  seq_inv st → sq_remaining st ≠ [] →
  ∃ st', sequence_turn env b rc tid orig st = Some (Ok st') ∧
    (st' = skip_remaining st true ∨
     (seq_inv st' ∧ length (sq_remaining st') < length (sq_remaining st))).
Proof using Horig Hblank Hjson Hrc Hlive.
  intros Hinv Hne. unfold sequence_turn, ensure_sequence_active. rewrite Hlive.
  set (r := mkScheduleRequest _ _).
  destruct (schedule_head r) as (res & -> & Hhead).
  - apply steps_ok_to_schedule; [done|]. apply Hinv.
  - apply budget_remaining_ok.
  - by apply remaining_well_formed.
  - apply Hinv.
  - simpl. by destruct (sq_remaining st).
  - cbn [mbind option_bind]. destruct Hhead as [[-> ->]|(s & rest & -> & Hin & Hdeps & Hfit)]; [eauto|].
    apply list_elem_of_fmap in Hin as (k & -> & Hk).
    pose proof (si_ids_nodup _ Hinv) as Hn. apply NoDup_app in Hn as (_ & _ & Hn).
    destruct (take_spec _ k Hn Hk) as [Htake _]. cbn [schedule_step_from_kernel step_id]. rewrite Htake.
    destruct (run_step_inv st k Hinv) as (st' & E & ? & ?); [by split|]. eauto.
Qed.

(** The loop ends within as many turns as there are steps. *)
Lemma sequence_loop_inv fuel st :
  seq_inv st → length (sq_remaining st) ≤ fuel →
  ∃ st0 st', sequence_loop env b rc tid orig fuel st = Some (Ok st') ∧ seq_inv st0 ∧
    (st' = st0 ∧ sq_remaining st0 = [] ∨ st' = skip_remaining st0 true).
Proof using Horig Hblank Hjson Hrc Hlive.
  revert st. induction fuel as [|fuel IH]; intros st Hinv Hf; cbn [sequence_loop];
    destruct (sq_remaining st) as [|s l] eqn:Er; [by eauto 10|simpl in Hf; lia|by eauto 10|].
  destruct (sequence_turn_inv st Hinv) as (st' & -> & [->|[Hinv' Hlen]]); [by rewrite Er| |].
  - exists st, (skip_remaining st true). cbn. destruct fuel; auto.
  - cbn. apply IH; [done|]. rewrite Er in Hlen. simpl in *. lia.
Qed.

Lemma initial_inv w :
  (∀ s d, s ∈ orig → d ∈ ks_depends_on s → d ∈ plan_ids orig) →
  Forall step_ok_packets orig → budget_ok (budget_of b) →
  (∃ out, valid_order (S <$> orig) out) → seq_inv (initial_state orig w).
Proof using Horig.
  intros Hknown Hpk (Hb1 & Hb2 & Hb3) Hord. split; simpl; try done.
  - intros s Hs. exists s. auto.
  - intros s o d Hs Ho Heq. by rewrite (plan_id_inj orig o s).
  - intros pre r post o d Heq. by destruct pre.
  - intros r Hr. by apply elem_of_nil in Hr.
Qed.

Lemma sequence_body_correct fuel w :
  (∀ s d, s ∈ orig → d ∈ ks_depends_on s → d ∈ plan_ids orig) →
  Forall step_ok_packets orig → budget_ok (budget_of b) → length orig ≤ fuel →
  (∃ st, sequence_body env b rc tid orig fuel w = Some (Ok st) ∧
     sequence_outcome orig b (sequence_response st)) ∨
  (sequence_body env b rc tid orig fuel w = Some (scheduler_failed DependencyCycle) ∧
     ∀ out, ¬ valid_order (S <$> orig) out).
Proof using Horig Hblank Hjson Hrc Hlive.
  intros Hknown Hpk Hb Hf. unfold sequence_body, ensure_sequence_active, initial_replan. rewrite Hlive, Hrc.
  cbn [mbind option_bind].
  set (r0 := mkScheduleRequest (S <$> orig) (schedule_budget_remaining b default_estimate)).
  destruct (schedule_well_formed r0) as [(res & _ & Hs)|[E Hno]].
  - by apply steps_ok_to_schedule.
  - apply budget_remaining_ok.
  - split; simpl; rewrite ids_to_schedule; [done|done|].
    intros s d Hs Hd. apply list_elem_of_fmap in Hs as (k & -> & Hk). by apply (Hknown k).
  - left. destruct Hs as (topo & _ & Hv & _).
    destruct (sequence_loop_inv fuel (initial_state orig w)) as (st0 & st' & E & Hinv & Hend);
      [apply initial_inv; eauto|done|]. exists st'. split; [done|].
    destruct Hend as [[-> Hnil]| ->]; [|apply seq_inv_outcome; auto].
    pose proof (seq_inv_outcome st0 (sq_exhausted st0) Hinv (or_introl Hnil)) as Ho.
    unfold sequence_response, skip_remaining in *. simpl in Ho. rewrite Hnil in Ho. simpl in Ho.
    by rewrite !app_nil_r in Ho.
  - right. split; [|done]. destruct orig as [|s l] eqn:Eo.
    { exfalso. apply (Hno []). split; [done|]. intros pre s post Heq. by destruct pre. }
    destruct fuel as [|fuel]; [simpl in Hf; lia|]. cbn [sequence_loop initial_state sq_remaining].
    unfold sequence_turn, ensure_sequence_active. rewrite Hlive. cbn [initial_state sq_remaining sq_consumed].
    fold r0. by rewrite E.
Qed.
End Run.

(** ** Normalisation of a request *)

Section Normalize.
Implicit Types (l : list KernelStepRequest).

Lemma normalize_ids_spec index known l known' l' :
  normalize_ids index known l = Ok (known', l') →
  NoDup (plan_ids l') ∧ (∀ c, c ∈ plan_ids l' → c ∉ known) ∧ known' = known ∪ list_to_set (plan_ids l') ∧
  Forall (λ id, is_blank id = false) (plan_ids l') ∧ length l' = length l ∧
  ks_input_packets <$> l' = ks_input_packets <$> l.
Proof.
  unfold plan_ids. revert index known known' l'. induction l as [|s l IH]; intros index known known' l'; simpl.
  { intros [= <- <-]. split_and!; [constructor| |set_solver|constructor|done..]. by intros c ?%elem_of_nil. }
  destruct (is_blank (ks_target s)); [done|].
  set (id := if is_blank (ks_id s) then _ else _). case_decide as Hid; [done|].
  intros Hok. apply bind_Ok_inv in Hok as ([k1 l1] & E & [= <- <-]).
  apply IH in E as (Hnd & Hni & -> & Hb & Hlen & Hpk). simpl. split_and!.
  - apply NoDup_cons. split; [|done]. intros Hin. apply (Hni _ Hin). set_solver.
  - intros c [->|Hc]%elem_of_cons; [done|]. specialize (Hni c Hc). set_solver.
  - set_solver.
  - constructor; [|done]. unfold id. destruct (is_blank (ks_id s)) eqn:Eb; [|by rewrite is_blank_trim].
    apply is_blank_dash. unfold autogenerated_sequence_step_id. rewrite !str_bytes_app, !elem_of_app.
    right. left. simpl. left.
  - by rewrite Hlen.
  - f_equal. exact Hpk.
Qed.

Lemma normalize_deps_spec known id deps u :
  normalize_deps known id deps = Ok u → ∀ d, d ∈ deps → d ∈ known.
Proof.
  induction deps as [|d deps IH]; simpl; [by intros _ d ?%elem_of_nil|].
  destruct (is_blank d); [done|]. repeat case_decide; try done. intros Hok d' [->|Hd']%elem_of_cons; auto.
Qed.

Lemma normalize_all_deps_spec known l u :
  normalize_all_deps known l = Ok u → ∀ s d, s ∈ l → d ∈ ks_depends_on s → d ∈ known.
Proof.
  induction l as [|s l IH]; simpl; [by intros _ s d ?%elem_of_nil|].
  intros (u' & E & Hok)%bind_Ok_inv s' d [->|Hs']%elem_of_cons Hd; [by eapply normalize_deps_spec|eauto].
Qed.

Lemma normalize_sequence_request_spec req req' :
  normalize_sequence_request req = Ok req' →
  sr_budget req' = sr_budget req ∧ sr_reactive req' = sr_reactive req ∧
  length (sr_steps req') = length (sr_steps req) ∧
  ks_input_packets <$> sr_steps req' = ks_input_packets <$> sr_steps req ∧
  NoDup (plan_ids (sr_steps req')) ∧ Forall (λ id, is_blank id = false) (plan_ids (sr_steps req')) ∧
  ∀ s d, s ∈ sr_steps req' → d ∈ ks_depends_on s → d ∈ plan_ids (sr_steps req').
Proof.
  intros ([k l] & E & (u & Ed & [= <-])%bind_Ok_inv)%bind_Ok_inv. simpl.
  apply normalize_ids_spec in E as (? & _ & -> & ? & ? & ?). split_and!; try done.
  intros s d Hs Hd. pose proof (normalize_all_deps_spec _ _ _ Ed s d Hs Hd). set_solver.
Qed.
End Normalize.

(** C20: a kernel sequence run (no reactive replanning, never cancelled) always ends.
    Either the plan has no valid order and the run reports the scheduler's cycle error,
    or it returns a response in which every step appears exactly once, a step that ran
    did so after all its dependencies succeeded, a step is skipped as dependency_failed
    exactly when it depends (transitively) on a failed one, any other skip is a budget
    skip, and the consumed estimate is within the budget. *)
Theorem execute_sequence_correct {W R} (env : KernelEnv W R) fuel req req' w :
  (∀ j, fits usize_max (env_json_bytes env j)) → (∀ w, env_should_cancel env w = false) →
  rc_enabled (sr_reactive req) = false → budget_ok (budget_of (sr_budget req)) →
  Forall step_ok_packets (sr_steps req) → normalize_sequence_request req = Ok req' →
  length (sr_steps req) ≤ fuel →
  (∃ resp, execute_sequence env fuel req w = Some (Ok resp) ∧
     sequence_outcome (sr_steps req') (sr_budget req) resp) ∨
  (execute_sequence env fuel req w = Some (scheduler_failed DependencyCycle) ∧
     ∀ out, ¬ valid_order (schedule_step_from_kernel (env_json_bytes env) <$> sr_steps req') out).
Proof.
  intros Hjson Hlive Hrc Hb Hpk Hnorm Hf. unfold execute_sequence. rewrite Hnorm.
  apply normalize_sequence_request_spec in Hnorm as (Hsb & Hsr & Hlen & Hpks & Hnd & Hbl & Hknown).
  destruct (sequence_body_correct env (sr_budget req') (sr_reactive req') (resolve_sequence_task_id req')
    (sr_steps req') Hnd Hjson Hbl) with (fuel := fuel) (w := w) as [(st & -> & Ho)|[-> Hno]]; rewrite ?Hsb, ?Hsr in *; auto.
  - apply (Forall_fmap ks_input_packets (Forall packet_ok)). rewrite Hpks. by apply Forall_fmap.
  - lia.
  - left. eexists. split; [done|]. done.
Qed.

Lemma execute_sequence_correct_witness :
  let env : KernelEnv () string := mkKernelEnv () string (λ _, 8%Z)
    (λ q w, (if decide (kq_target q = "bad") then Err (mkKernelFailure "reducer_failed" "" None) else Ok "done", w))
    (λ _ _, Ok (mkReactivePlan 0 [])) (λ _, false) (λ _ _ w, w) (λ _ _ _ w, w) (λ _ _ _ w, w) (λ _ _ _ w, w) in
  let step id target deps := mkKernelStep id target deps [] JNull JNull default_execution_budget in
  let req := mkSequenceRequest default_execution_budget
    [step "c" "t" ["b"]; step "a" "t" []; step "b" "bad" ["a"]] (mkReactiveConfig false None false Basic) in
  ∃ resp, execute_sequence env 3 req () = Some (Ok resp) ∧ sequence_outcome (sr_steps req) (sr_budget req) resp.
Proof.
  intros env step req.
  destruct (execute_sequence_correct env 3 req req ()) as [Hok|[Hcyc _]].
  - intros j. vm_compute. split; discriminate.
  - reflexivity.
  - reflexivity.
  - split_and!; discriminate.
  - repeat constructor.
  - vm_compute. reflexivity.
  - simpl. lia.
  - exact Hok.
  - vm_compute in Hcyc. discriminate.
Defined.

