(* ===== verification/Shard.v ===== *)
(** * Test shards

    Models [src/crates/testy-core/src/shard.rs]: the planners that spread timed
    tests over shards and the figures they report. *)

From S2P Require Export F64 Str.

Record Shard : Type := mkShard {
  shard_id : nat;
  shard_tests : list string;
  predicted_duration_ms : Z
}.

Record ShardPlan : Type := mkShardPlan {
  shards : list Shard;
  total_predicted_duration_ms : Z;
  makespan_ms : Z;
  imbalance_ratio : f64;
  parallel_efficiency : f64;
  whale_count : nat;
  top_10_share : f64
}.

Definition default_shard_plan : ShardPlan :=
  {| shards := []; total_predicted_duration_ms := 0; makespan_ms := 0; imbalance_ratio := f64_zero;
     parallel_efficiency := f64_zero; whale_count := 0; top_10_share := f64_zero |}.

Definition Job : Type := (string * Z)%type.

Definition build_timed_jobs (test_ids : list string) (duration_ms : gmap string Z)
    (unknown_test_duration_ms : Z) : list Job :=
  (λ id, (id, default unknown_test_duration_ms (duration_ms !! id))) <$> test_ids.

(** Longest first, then by name. *)
Definition job_leb (a b : Job) : bool :=
  (b.2 <? a.2)%Z || ((b.2 =? a.2)%Z && str_leb a.1 b.1).

Definition sort_jobs (input : list Job) : list Job := sort_by job_leb input.

(** Least loaded first, then by number. *)
Definition shard_leb (a b : Shard) : bool :=
  (predicted_duration_ms a <? predicted_duration_ms b)%Z
  || ((predicted_duration_ms a =? predicted_duration_ms b)%Z && (shard_id a <=? shard_id b)).

Definition push_job (job : Job) (s : Shard) : Shard :=
  {| shard_id := shard_id s; shard_tests := shard_tests s ++ [job.1];
     predicted_duration_ms := saturating_add u64_max (predicted_duration_ms s) job.2 |}.

(** One turn of the loop over the jobs. *)
Definition assign_job (shards : list Shard) (job : Job) : list Shard :=
  let target := default 0 (shard_id <$> min_by shard_leb shards) in
  alter (push_job job) target shards.

Definition empty_shard (id : nat) : Shard :=
  {| shard_id := id; shard_tests := []; predicted_duration_ms := 0 |}.

Definition empty_shards (shard_count : nat) : list Shard := empty_shard <$> seq 0 shard_count.

Definition z_sort (l : list Z) : list Z := sort_by Z.leb l.

Definition median (loads : list Z) : f64 :=
  let n := length loads in
  if n mod 2 =? 1 then f64_of_Z (loads !!! (n / 2))
  else f64_div (f64_add (f64_of_Z (loads !!! (n / 2 - 1))) (f64_of_Z (loads !!! (n / 2)))) (f64_of_Z 2).

Definition compute_load_metrics (shards : list Shard) (total makespan : Z) : f64 * f64 :=
  match shards with
  | [] => (f64_zero, f64_zero)
  | _ =>
      let median := median (z_sort (predicted_duration_ms <$> shards)) in
      (if f64_lt f64_zero median then f64_div (f64_of_Z makespan) median else f64_zero,
       if (0 <? makespan)%Z
       then f64_div (f64_of_Z total) (f64_mul (f64_of_Z makespan) (f64_of_Z (Z.of_nat (length shards))))
       else f64_of_Z 1)
  end.

Definition compute_whale_threshold_ms (input : list Job) : Z :=
  match input with
  | [] => 30000
  | _ =>
      let durations := z_sort (input.*2) in
      let idx := saturating_sub
        (f64_to_uint usize_max (f64_ceil (f64_mul (f64_of_Z (Z.of_nat (length durations))) (f64_lit 95 100)))) 1 in
      let p95 := durations !!! Nat.min (Z.to_nat idx) (length durations - 1) in
      Z.max 30000 (saturating_mul u64_max p95 2)
  end.

Definition count_whales (input : list Job) (whale_threshold : Z) : nat :=
  length (filter (λ job : Job, (whale_threshold < job.2)%Z) input).

Definition compute_top_10_share (input : list Job) (total : Z) : f64 :=
  if (total =? 0)%Z || (length input =? 0) then f64_zero
  else
    let durations := sort_by (λ a b, (b <=? a)%Z) (input.*2) in
    f64_div (f64_of_Z (wrapping_sum u64_max (take 10 durations))) (f64_of_Z total).

(** The figures both planners compute from the shards. *)
Definition finish_plan (input : list Job) (shards : list Shard) (whale_threshold : Z) : ShardPlan :=
  let total := wrapping_sum u64_max (predicted_duration_ms <$> shards) in
  let makespan := foldr Z.max 0%Z (predicted_duration_ms <$> shards) in
  let metrics := compute_load_metrics shards total makespan in
  {| shards := shards; total_predicted_duration_ms := total; makespan_ms := makespan;
     imbalance_ratio := metrics.1; parallel_efficiency := metrics.2;
     whale_count := count_whales input whale_threshold; top_10_share := compute_top_10_share input total |}.

Definition plan_shards_lpt (input : list Job) (shard_count : nat) : ShardPlan :=
  match shard_count with
  | 0 => default_shard_plan
  | _ =>
      let shards := foldl assign_job (empty_shards shard_count) (sort_jobs input) in
      finish_plan input shards (compute_whale_threshold_ms input)
  end.

Definition plan_shards_whale_lpt (input : list Job) (shard_count : nat) : ShardPlan :=
  match shard_count with
  | 0 => default_shard_plan
  | _ =>
      let jobs := sort_jobs input in
      let whale_threshold := compute_whale_threshold_ms jobs in
      let whales := filter (λ job : Job, (whale_threshold < job.2)%Z) jobs in
      let rest := filter (λ job : Job, ¬ (whale_threshold < job.2)%Z) jobs in
      let shards := foldl assign_job (empty_shards shard_count) (whales ++ rest) in
      finish_plan input shards whale_threshold
  end.

(** ** Orders *)

Section JobOrder.
Implicit Types (a b c : Job) (s t u : Shard).

Lemma job_leb_trans a b c : job_leb a b = true → job_leb b c = true → job_leb a c = true.
Proof.
  unfold job_leb. rewrite !orb_true_iff, !andb_true_iff, !Z.ltb_lt, !Z.eqb_eq.
  intros [?|[? H1]] [?|[? H2]]; [left; lia..|]. right. split; [lia|]. by eapply str_leb_trans.
Qed.

Lemma job_leb_total a b : job_leb a b = false → job_leb b a = true.
Proof.
  unfold job_leb. rewrite orb_false_iff, andb_false_iff, orb_true_iff, andb_true_iff.
  rewrite Z.ltb_ge, Z.eqb_neq, Z.ltb_lt, Z.eqb_eq. intros [? [?|?%str_leb_total]]; [left; lia|].
  destruct (decide (a.2 = b.2)); [by right|left; lia].
Qed.

Lemma job_leb_antisym a b : job_leb a b = true → job_leb b a = true → a = b.
Proof.
  unfold job_leb. rewrite !orb_true_iff, !andb_true_iff, !Z.ltb_lt, !Z.eqb_eq.
  intros [?|[? H1]] [?|[? H2]]; try lia. destruct a, b; simpl in *. f_equal; [by apply str_leb_antisym|done].
Qed.

Lemma shard_leb_spec s t :
  shard_leb s t = true ↔
  (predicted_duration_ms s < predicted_duration_ms t)%Z ∨
  predicted_duration_ms s = predicted_duration_ms t ∧ shard_id s ≤ shard_id t.
Proof.
  unfold shard_leb. by rewrite orb_true_iff, andb_true_iff, Z.ltb_lt, Z.eqb_eq, Nat.leb_le.
Qed.

Lemma shard_leb_refl s : shard_leb s s = true.
Proof. rewrite shard_leb_spec. lia. Qed.
Lemma shard_leb_trans s t u : shard_leb s t = true → shard_leb t u = true → shard_leb s u = true.
Proof. rewrite !shard_leb_spec. lia. Qed.
Lemma shard_leb_total s t : shard_leb s t = false → shard_leb t s = true.
Proof.
  destruct (shard_leb t s) eqn:E; [done|]. rewrite <- !not_true_iff_false, !shard_leb_spec in *. lia.
Qed.
End JobOrder.

(** ** The schedule the loop builds *)

(** The duration of a list of jobs. *)
Definition job_sum (jobs : list Job) : Z := sumZ (jobs.*2).

Definition jobs_ok (jobs : list Job) : Prop := Forall (λ j, (0 <= j.2)%Z) jobs.

Definition shard_of (i : nat) (jobs : list Job) : Shard :=
  mkShard i jobs.*1 (Z.min u64_max (job_sum jobs)).

(** The shards hold the jobs [parts], one part each, numbered from 0. *)
Definition holds (shards : list Shard) (parts : list (list Job)) : Prop :=
  shards = imap shard_of parts.

(** A schedule of [jobs] on [m] machines. *)
Definition assignment (jobs : list Job) (m : nat) (parts : list (list Job)) : Prop :=
  length parts = m ∧ concat parts ≡ₚ jobs.

Definition makespan (parts : list (list Job)) : Z := foldr Z.max 0%Z (job_sum <$> parts).

Section Assign.
Implicit Types (job : Job) (jobs : list Job) (parts : list (list Job)) (ss : list Shard).

Lemma job_sum_app jobs jobs' : job_sum (jobs ++ jobs') = (job_sum jobs + job_sum jobs')%Z.
Proof. unfold job_sum. by rewrite fmap_app, sumZ_app. Qed.

Lemma job_sum_nonneg jobs : jobs_ok jobs → (0 <= job_sum jobs)%Z.
Proof. intros H. apply sumZ_nonneg, Forall_fmap. eapply Forall_impl; [exact H|done]. Qed.

Lemma job_sum_perm jobs jobs' : jobs ≡ₚ jobs' → job_sum jobs = job_sum jobs'.
Proof. intros H. apply sumZ_perm. by rewrite H. Qed.

Lemma job_sum_concat parts : job_sum (concat parts) = sumZ (job_sum <$> parts).
Proof. induction parts as [|p parts IH]; [done|]. simpl. by rewrite job_sum_app, IH. Qed.

Lemma jobs_ok_perm jobs jobs' : jobs ≡ₚ jobs' → jobs_ok jobs → jobs_ok jobs'.
Proof. unfold jobs_ok. by intros ->. Qed.

Lemma holds_lookup ss parts i :
  holds ss parts → ss !! i = shard_of i <$> parts !! i.
Proof. intros ->. by rewrite list_lookup_imap. Qed.

Lemma holds_length ss parts : holds ss parts → length ss = length parts.
Proof. intros ->. by rewrite length_imap. Qed.

Lemma holds_push ss parts i job :
  holds ss parts → (0 <= job.2)%Z → Forall jobs_ok parts →
  holds (alter (push_job job) i ss) (alter (λ jobs, jobs ++ [job]) i parts).
Proof.
  intros Hh Hj Hok. unfold holds. apply list_eq. intros k. rewrite list_lookup_imap.
  destruct (decide (k = i)) as [->|Hne].
  - rewrite !list_lookup_alter_eq, (holds_lookup _ _ _ Hh). destruct (parts !! i) as [p|] eqn:E; simpl; [|done].
    f_equal. unfold push_job, shard_of. simpl. rewrite fmap_app, job_sum_app. f_equal.
    pose proof (job_sum_nonneg p (Forall_lookup_1 _ _ _ _ Hok E)). unfold saturating_add, job_sum at 3. simpl. lia.
  - rewrite !list_lookup_alter_ne by done. by rewrite (holds_lookup _ _ _ Hh).
Qed.

Lemma concat_alter_snoc parts i job :
  i < length parts → concat (alter (λ jobs, jobs ++ [job]) i parts) ≡ₚ job :: concat parts.
Proof.
  revert i. induction parts as [|p parts IH]; intros [|i] Hi; simpl in *; [lia|lia| |].
  - rewrite <- app_assoc. simpl. by rewrite <- Permutation_middle.
  - change (list_alter (λ jobs, jobs ++ [job]) i parts) with (alter (λ jobs, jobs ++ [job]) i parts).
    rewrite IH by lia. by rewrite <- Permutation_middle.
Qed.

(** The loop's target is the first shard of least load. *)
Lemma target_spec ss parts :
  holds ss parts → ss ≠ [] →
  ∃ p, let t := default 0 (shard_id <$> min_by shard_leb ss) in
    parts !! t = Some p ∧ ∀ q, q ∈ parts → (Z.min u64_max (job_sum p) <= Z.min u64_max (job_sum q))%Z.
Proof.
  intros Hh Hne. destruct (min_by shard_leb ss) as [s|] eqn:E; [|by apply min_by_None in E].
  apply min_by_Some in E as [Hin Hmin];
    [|apply shard_leb_refl|apply shard_leb_trans|apply shard_leb_total].
  apply list_elem_of_lookup in Hin as [i Hi]. rewrite (holds_lookup _ _ _ Hh) in Hi.
  apply fmap_Some in Hi as (p & Hp & ->). exists p. simpl. split; [done|].
  intros q [k Hk]%list_elem_of_lookup.
  assert (shard_of k q ∈ ss) as Hq.
  { apply (list_elem_of_lookup_2 _ k). by rewrite (holds_lookup _ _ _ Hh), Hk. }
  specialize (Hmin _ Hq). apply shard_leb_spec in Hmin. simpl in Hmin. lia.
Qed.
End Assign.

Section ListScheduling.
Implicit Types (job : Job) (jobs : list Job) (parts : list (list Job)) (ss : list Shard).

Lemma assign_job_holds ss parts job :
  holds ss parts → ss ≠ [] → (0 <= job.2)%Z → Forall jobs_ok parts →
  ∃ t p, parts !! t = Some p ∧
    (∀ q, q ∈ parts → (Z.min u64_max (job_sum p) <= Z.min u64_max (job_sum q))%Z) ∧
    holds (assign_job ss job) (alter (λ jobs, jobs ++ [job]) t parts).
Proof.
  intros Hh Hne Hj Hok. destruct (target_spec ss parts Hh Hne) as (p & Hp & Hmin).
  eexists _, p. split; [exact Hp|]. split; [done|]. by apply holds_push.
Qed.

Lemma alter_jobs_ok parts t p job :
  parts !! t = Some p → (0 <= job.2)%Z → Forall jobs_ok parts →
  Forall jobs_ok (alter (λ jobs, jobs ++ [job]) t parts).
Proof.
  intros Hp Hj Hok. apply Forall_alter; [done|]. intros q Hq Hqok. apply Forall_app. split; [done|].
  by apply Forall_singleton.
Qed.

(** The loop places every job on one shard. *)
Lemma assign_jobs_holds jobs ss parts :
  holds ss parts → ss ≠ [] → jobs_ok jobs → Forall jobs_ok parts →
  ∃ parts', holds (foldl assign_job ss jobs) parts' ∧ length parts' = length parts ∧
    concat parts' ≡ₚ concat parts ++ jobs.
Proof.
  revert ss parts. induction jobs as [|job jobs IH]; intros ss parts Hh Hne Hj Hok; simpl.
  { exists parts. by rewrite app_nil_r. }
  apply Forall_cons in Hj as [Hj Hjs].
  destruct (assign_job_holds ss parts job Hh Hne Hj Hok) as (t & p & Hp & _ & Hh').
  destruct (IH _ _ Hh') as (parts' & Hh2 & Hlen & Hperm); [|done|by eapply alter_jobs_ok|].
  - intros E. apply (f_equal length) in E. rewrite (holds_length _ _ Hh'), length_alter in E.
    rewrite <- (holds_length _ _ Hh) in E. by destruct ss.
  - exists parts'. rewrite length_alter in Hlen. split; [done|]. split; [done|]. rewrite Hperm.
    rewrite concat_alter_snoc by (by eapply lookup_lt_Some). by rewrite <- Permutation_middle.
Qed.

(** No part is longer than its fair share and one job of length [D] more. *)
Definition balanced (D : Z) (parts : list (list Job)) : Prop :=
  Forall (λ p, Z.of_nat (length parts) * job_sum p
               <= job_sum (concat parts) + (Z.of_nat (length parts) - 1) * D)%Z parts.

Lemma least_below_average parts p :
  (∀ q, q ∈ parts → (job_sum p <= job_sum q)%Z) →
  (Z.of_nat (length parts) * job_sum p <= job_sum (concat parts))%Z.
Proof.
  intros Hmin. rewrite job_sum_concat. induction parts as [|q parts IH]; [simpl; lia|].
  rewrite fmap_cons, sumZ_cons. cbn [length]. rewrite Nat2Z.inj_succ.
  assert (job_sum p <= job_sum q)%Z by (apply Hmin; left).
  assert (Z.of_nat (length parts) * job_sum p <= sumZ (job_sum <$> parts))%Z
    by (apply IH; intros; apply Hmin; by right). nia.
Qed.

Lemma alter_balanced D parts t p job :
  parts !! t = Some p → (∀ q, q ∈ parts → (job_sum p <= job_sum q)%Z) →
  (0 <= job.2 <= D)%Z → balanced D parts → balanced D (alter (λ jobs, jobs ++ [job]) t parts).
Proof.
  intros Hp Hmin Hj Hb. pose proof (lookup_lt_Some _ _ _ Hp) as Ht. unfold balanced.
  rewrite length_alter, (job_sum_perm _ _ (concat_alter_snoc parts t job Ht)).
  assert (job_sum (job :: concat parts) = (job.2 + job_sum (concat parts))%Z) as -> by done.
  apply Forall_lookup_2. intros i q Hq. destruct (decide (i = t)) as [->|Hne].
  - rewrite list_lookup_alter_eq, Hp in Hq. injection Hq as <-. rewrite job_sum_app.
    pose proof (least_below_average parts p Hmin).
    assert (job_sum [job] = job.2) as -> by (unfold job_sum; simpl; lia). nia.
  - rewrite list_lookup_alter_ne in Hq by done.
    pose proof (Forall_lookup_1 _ _ _ _ Hb Hq) as Hle. simpl in Hle. lia.
Qed.

Lemma assign_jobs_balanced D jobs ss parts :
  holds ss parts → ss ≠ [] → Forall jobs_ok parts → Forall (λ j, (0 <= j.2 <= D)%Z) jobs →
  (job_sum (concat parts) + job_sum jobs <= u64_max)%Z → balanced D parts →
  ∃ parts', holds (foldl assign_job ss jobs) parts' ∧ length parts' = length parts ∧
    concat parts' ≡ₚ concat parts ++ jobs ∧ balanced D parts'.
Proof.
  revert ss parts. induction jobs as [|job jobs IH]; intros ss parts Hh Hne Hok Hj Hsum Hb; simpl.
  { exists parts. by rewrite app_nil_r. }
  apply Forall_cons in Hj as [Hj Hjs].
  destruct (assign_job_holds ss parts job Hh Hne (proj1 Hj) Hok) as (t & p & Hp & Hmin & Hh').
  pose proof (lookup_lt_Some _ _ _ Hp) as Ht.
  assert (Hjs0 : jobs_ok jobs) by (eapply Forall_impl; [exact Hjs|simpl; lia]).
  assert (job_sum (job :: jobs) = (job.2 + job_sum jobs)%Z) as Econs by done.
  assert (Hcap : ∀ q, q ∈ parts → (job_sum q <= u64_max)%Z).
  { intros q Hq. pose proof (job_sum_nonneg jobs Hjs0). rewrite job_sum_concat in Hsum.
    assert (job_sum q <= sumZ (job_sum <$> parts))%Z; [|lia]. apply sumZ_elem_le; [|by apply list_elem_of_fmap_2].
    apply Forall_fmap. eapply Forall_impl; [exact Hok|]. apply job_sum_nonneg. }
  assert (Hmin' : ∀ q, q ∈ parts → (job_sum p <= job_sum q)%Z).
  { intros q Hq. pose proof (Hmin q Hq). pose proof (Hcap q Hq).
    pose proof (Hcap p (list_elem_of_lookup_2 _ _ _ Hp)). lia. }
  pose proof (job_sum_perm _ _ (concat_alter_snoc parts t job Ht)) as Esum.
  assert (job_sum (job :: concat parts) = (job.2 + job_sum (concat parts))%Z) as Ecc by done.
  destruct (IH _ _ Hh') as (parts' & Hh2 & Hlen & Hperm & Hb').
  - intros E. apply (f_equal length) in E. rewrite (holds_length _ _ Hh'), length_alter in E.
    rewrite <- (holds_length _ _ Hh) in E. by destruct ss.
  - eapply alter_jobs_ok; [done|lia|done].
  - done.
  - lia.
  - by eapply alter_balanced.
  - exists parts'. rewrite length_alter in Hlen. split; [done|]. split; [done|]. split; [|done].
    rewrite Hperm, concat_alter_snoc by done. by rewrite <- Permutation_middle.
Qed.
End ListScheduling.

(** ** The planners *)

Lemma elem_of_concat {A} (x : A) (ls : list (list A)) : x ∈ concat ls ↔ ∃ l, x ∈ l ∧ l ∈ ls.
Proof.
  induction ls as [|l ls IH]; simpl; [set_solver|]. rewrite elem_of_app, IH. set_solver.
Qed.

Section Planners.
Implicit Types (input jobs : list Job) (parts : list (list Job)) (n : nat).

Lemma sort_jobs_perm input : sort_jobs input ≡ₚ input.
Proof. apply sort_by_perm. Qed.

Lemma empty_holds n : holds (empty_shards n) (replicate n []).
Proof.
  unfold holds, empty_shards. apply list_eq. intros i. rewrite list_lookup_imap, list_lookup_fmap.
  destruct (decide (i < n)).
  - rewrite lookup_seq_lt, lookup_replicate_2 by done. done.
  - rewrite lookup_seq_ge, lookup_ge_None_2 by (rewrite ?length_replicate; lia). done.
Qed.

Lemma concat_replicate_nil n : concat (replicate n ([] : list Job)) = [].
Proof. by induction n. Qed.

Lemma shard_loads ss parts :
  holds ss parts → (predicted_duration_ms <$> ss) = (λ p, Z.min u64_max (job_sum p)) <$> parts.
Proof.
  intros Hh. apply list_eq. intros i. rewrite !list_lookup_fmap, (holds_lookup _ _ _ Hh).
  by destruct (parts !! i).
Qed.

Lemma parts_cap jobs parts :
  jobs_ok jobs → concat parts ≡ₚ jobs → (job_sum jobs <= u64_max)%Z →
  Forall (λ p, 0 <= job_sum p <= u64_max)%Z parts ∧
  (λ p, Z.min u64_max (job_sum p)) <$> parts = job_sum <$> parts.
Proof.
  intros Hok Hp Hsum. rewrite <- (job_sum_perm _ _ Hp), job_sum_concat in Hsum.
  apply (jobs_ok_perm _ _ (Permutation_sym Hp)) in Hok.
  assert (Hnn : Forall (λ p, 0 <= job_sum p)%Z parts).
  { apply Forall_forall. intros p Hin. apply job_sum_nonneg. unfold jobs_ok in *.
    rewrite Forall_forall in Hok |- *. intros j Hj. apply Hok, elem_of_concat. eauto. }
  assert (Hcap : ∀ p, p ∈ parts → (job_sum p <= u64_max)%Z).
  { intros p Hin. enough (job_sum p <= sumZ (job_sum <$> parts))%Z by lia.
    apply sumZ_elem_le; [by apply Forall_fmap|by apply list_elem_of_fmap_2]. }
  split.
  - rewrite Forall_forall in Hnn |- *. intros p Hin. split; auto.
  - apply list_fmap_ext. intros i p Hin. specialize (Hcap p (list_elem_of_lookup_2 _ _ _ Hin)). lia.
Qed.

Lemma makespan_nonneg parts : (0 <= makespan parts)%Z.
Proof. unfold makespan. induction parts; [done|]. rewrite fmap_cons; cbn [foldr]; lia. Qed.

Lemma makespan_ge parts p : p ∈ parts → (job_sum p <= makespan parts)%Z.
Proof. unfold makespan. induction 1; rewrite fmap_cons; cbn [foldr]; lia. Qed.

Lemma makespan_le parts b : (0 <= b)%Z → Forall (λ p, job_sum p <= b)%Z parts → (makespan parts <= b)%Z.
Proof. unfold makespan. induction 2; [done|]. rewrite fmap_cons; cbn [foldr]; lia. Qed.

Lemma total_le_makespan parts : (job_sum (concat parts) <= Z.of_nat (length parts) * makespan parts)%Z.
Proof.
  rewrite job_sum_concat. assert (Forall (λ p, job_sum p <= makespan parts)%Z parts) as Hf
    by (apply Forall_forall; intros p; apply makespan_ge).
  revert Hf. generalize (makespan parts) as b. intros b. induction 1; [simpl; lia|].
  rewrite fmap_cons, sumZ_cons. cbn [length]. nia.
Qed.

(** Any schedule takes as long as its longest job. *)
Lemma job_le_makespan jobs parts :
  jobs_ok jobs → concat parts ≡ₚ jobs → Forall (λ j, 0 <= j.2 <= makespan parts)%Z jobs.
Proof.
  intros Hok Hp. apply Forall_forall. intros j Hj. rewrite <- Hp in Hj.
  apply elem_of_concat in Hj as (p & Hj & Hin). pose proof (makespan_ge _ _ Hin).
  apply (jobs_ok_perm _ _ (Permutation_sym Hp)) in Hok. unfold jobs_ok in Hok. rewrite Forall_forall in Hok.
  assert (Forall (λ j, 0 <= j.2)%Z p) as Hpok
    by (apply Forall_forall; intros j' Hj'; apply Hok, elem_of_concat; eauto).
  assert (j.2 <= job_sum p)%Z; [|split; [apply Hok, elem_of_concat; eauto|lia]].
  apply sumZ_elem_le; [by apply Forall_fmap|by apply list_elem_of_fmap_2].
Qed.
End Planners.

Section Whales.
Implicit Types (input jobs : list Job).

Lemma compute_whale_threshold_ms_perm input jobs :
  input ≡ₚ jobs → compute_whale_threshold_ms input = compute_whale_threshold_ms jobs.
Proof.
  intros Hp. assert (z_sort (input.*2) = z_sort (jobs.*2)) as Hs.
  { apply sort_by_perm_eq; [| | |by rewrite Hp]; intros; rewrite ?Z.leb_le, ?Z.leb_gt in *; lia. }
  unfold compute_whale_threshold_ms. destruct input as [|a input], jobs as [|b jobs]; [done| | |by rewrite Hs].
  - by apply Permutation_nil_cons in Hp.
  - symmetry in Hp. by apply Permutation_nil_cons in Hp.
Qed.

(** In longest-first order the whales already stand in front. *)
Lemma whales_in_front w jobs :
  StronglySorted (λ a b, job_leb a b = true) jobs →
  filter (λ job : Job, (w < job.2)%Z) jobs ++ filter (λ job : Job, ¬ (w < job.2)%Z) jobs = jobs.
Proof.
  induction 1 as [|a jobs Hs IH Ha]; [done|]. rewrite !filter_cons. destruct (decide (w < a.2)%Z) as [Hw|Hw].
  - rewrite decide_False by tauto. cbn [app]. f_equal. exact IH.
  - rewrite decide_True by done.
    assert (filter (λ job : Job, (w < job.2)%Z) jobs = []) as E; [|rewrite E in IH |- *; cbn [app] in *; f_equal; exact IH].
    clear -Ha Hw. induction jobs as [|b jobs IH]; [done|]. apply Forall_cons in Ha as [Hab Ha].
    rewrite filter_cons, decide_False; [auto|]. unfold job_leb in Hab.
    rewrite orb_true_iff, andb_true_iff, Z.ltb_lt, Z.eqb_eq in Hab. lia.
Qed.

Lemma sort_jobs_sorted input : StronglySorted (λ a b, job_leb a b = true) (sort_jobs input).
Proof. apply sort_by_sorted; [apply job_leb_trans|apply job_leb_total]. Qed.
End Whales.

(** The planner neither loses nor repeats a job. The shards, numbered from 0, hold
    the parts of a partition of the input, and each predicted duration is the sum of its
    part, saturating at the width. *)
Theorem plan_shards_lpt_conserves (input : list Job) (n : nat) :
  jobs_ok input → n ≠ 0 →
  ∃ parts, assignment input n parts ∧ shards (plan_shards_lpt input n) = imap shard_of parts.
Proof.
  intros Hok Hn. destruct n as [|n]; [done|].
  destruct (assign_jobs_holds (sort_jobs input) _ _ (empty_holds (S n))) as (parts & Hh & Hlen & Hp).
  - done.
  - by apply (jobs_ok_perm input); [rewrite sort_jobs_perm|].
  - apply Forall_replicate. constructor.
  - exists parts. split; [|exact Hh]. split; [by rewrite Hlen, length_replicate|].
    by rewrite Hp, concat_replicate_nil, sort_jobs_perm.
Qed.

Lemma plan_shards_lpt_conserves_witness :
  ∃ parts, assignment [("a", 5); ("b", 4)]%Z 3 parts ∧
    shards (plan_shards_lpt [("a", 5); ("b", 4)]%Z 3) = imap shard_of parts.
Proof.
  apply (plan_shards_lpt_conserves [("a", 5); ("b", 4)]%Z 3); [repeat constructor; vm_compute; discriminate|lia].
Defined.

(** C36: when the durations sum without overflow, the reported total is the sum of the
    durations, and the makespan of the plan is at most 2 - 1/n times the makespan of any
    assignment of the jobs to n shards. *)
Theorem plan_shards_lpt_makespan (input : list Job) (n : nat) (parts' : list (list Job)) :
  jobs_ok input → (job_sum input <= u64_max)%Z → n ≠ 0 → assignment input n parts' →
  let plan := plan_shards_lpt input n in
  total_predicted_duration_ms plan = job_sum input ∧
  (Z.of_nat n * makespan_ms plan >= job_sum input)%Z ∧
  (Z.of_nat n * makespan_ms plan <= (2 * Z.of_nat n - 1) * makespan parts')%Z.
Proof.
  intros Hok Hsum Hn [Hlen' Hp'] plan. destruct n as [|n]; [done|].
  set (D := makespan parts').
  assert (Hjobs : Forall (λ j, 0 <= j.2 <= D)%Z (sort_jobs input)).
  { rewrite sort_jobs_perm. by apply job_le_makespan. }
  destruct (assign_jobs_balanced D (sort_jobs input) _ _ (empty_holds (S n))) as (parts & Hh & Hlen & Hp & Hb).
  - done.
  - apply Forall_replicate. constructor.
  - done.
  - rewrite concat_replicate_nil, (job_sum_perm _ _ (sort_jobs_perm input)). done.
  - apply Forall_forall. intros p Hin. apply elem_of_replicate in Hin as [-> _].
    rewrite concat_replicate_nil, length_replicate. pose proof (makespan_nonneg parts'). unfold job_sum. simpl. unfold D. lia.
  - rewrite concat_replicate_nil, sort_jobs_perm in Hp. simpl in Hp.
    rewrite length_replicate in Hlen. destruct (parts_cap input parts Hok Hp Hsum) as [Hcap Hmin].
    assert (Hloads : predicted_duration_ms <$> shards plan = job_sum <$> parts)
      by (rewrite <- Hmin; by apply shard_loads).
    assert (Hspan : makespan_ms plan = makespan parts) by (unfold makespan; rewrite <- Hloads; done).
    pose proof (job_sum_perm _ _ Hp) as Hs. pose proof (total_le_makespan parts) as Hge.
    pose proof (total_le_makespan parts') as Hge'. rewrite Hlen in Hge. rewrite Hlen', (job_sum_perm _ _ Hp') in Hge'.
    split_and!.
    + change (wrapping_sum u64_max (predicted_duration_ms <$> shards plan) = job_sum input).
      rewrite Hloads, wrapping_sum_exact; [by rewrite <- job_sum_concat|apply Forall_fmap; eapply Forall_impl; [exact Hcap|simpl; lia]|].
      rewrite <- job_sum_concat. lia.
    + rewrite Hspan. lia.
    + rewrite Hspan. fold D in Hge' |- *. unfold balanced in Hb. rewrite Hlen in Hb.
      pose proof (makespan_nonneg parts') as HD. fold D in HD.
      assert (Hall : Forall (λ p, Z.of_nat (S n) * job_sum p <= (2 * Z.of_nat (S n) - 1) * D)%Z parts)
        by (eapply Forall_impl; [exact Hb|simpl; lia]).
      clear -Hall HD. unfold makespan. induction Hall; [simpl; lia|]. rewrite fmap_cons. cbn [foldr]. lia.
Qed.

Lemma plan_shards_lpt_makespan_witness :
  let jobs := [("a", 5); ("b", 4); ("c", 3); ("d", 3)]%Z in
  (2 * makespan_ms (plan_shards_lpt jobs 2) <= 3 * makespan [[("a", 5); ("c", 3)]; [("b", 4); ("d", 3)]])%Z.
Proof.
  intros jobs. destruct (plan_shards_lpt_makespan jobs 2 [[("a", 5); ("c", 3)]; [("b", 4); ("d", 3)]]%Z)
    as (_ & _ & Hle); [| | | |exact Hle].
  - repeat constructor; vm_compute; discriminate.
  - vm_compute. discriminate.
  - lia.
  - split; [reflexivity|]. simpl. apply perm_skip. apply Permutation_swap.
Defined.

(** The whale-lpt planner computes the same plan as the lpt planner on every input.
    Its whales already come first in longest-first order. *)
Theorem plan_shards_whale_lpt_is_lpt (input : list Job) (n : nat) :
  plan_shards_whale_lpt input n = plan_shards_lpt input n.
Proof.
  unfold plan_shards_whale_lpt, plan_shards_lpt. destruct n as [|n]; [done|].
  rewrite (whales_in_front _ (sort_jobs input) (sort_jobs_sorted input)).
  by rewrite (compute_whale_threshold_ms_perm _ _ (sort_jobs_perm input)).
Qed.
