(* ===== verification/Bitmap.v ===== *)
(** * Bitmaps of line numbers

    The code keeps sets of [u32] line numbers in [roaring::RoaringBitmap], a
    library outside the repository.  [Bitmap] states the operations the code
    calls and their documented behaviour; the components take it as a
    parameter.  [gset_bitmap] shows that the interface can be met. *)

From S2P Require Export MachineInt.

Class Bitmap (B : Type) : Type := {
  bm_new : B;
  bm_insert : Z → B → B;
  bm_contains : B → Z → bool;
  bm_or : B → B → B;
  bm_and : B → B → B;
  bm_iter : B → list Z;

  bm_contains_new x : bm_contains bm_new x = false;
  bm_contains_insert x b y : bm_contains (bm_insert x b) y = bool_decide (x = y) || bm_contains b y;
  bm_contains_or b c x : bm_contains (bm_or b c) x = bm_contains b x || bm_contains c x;
  bm_contains_and b c x : bm_contains (bm_and b c) x = bm_contains b x && bm_contains c x;
  (** [iter] yields the members in increasing order. *)
  bm_iter_sorted b : StronglySorted Z.lt (bm_iter b);
  bm_iter_elem b x : x ∈ bm_iter b ↔ bm_contains b x = true
}.

(** [len] counts the members, as [u64]; [is_empty]. *)
Definition bm_len {B} `{Bitmap B} (b : B) : Z := Z.of_nat (length (bm_iter b)).
Definition bm_is_empty {B} `{Bitmap B} (b : B) : bool := (bm_len b =? 0)%Z.

Section Bitmaps.
Context {B : Type} `{Bitmap B}.
Implicit Types (a b c : B) (x y : Z).

(** Two bitmaps with the same members. *)
Definition bm_equiv (a b : B) : Prop := ∀ x, bm_contains a x = bm_contains b x.

#[export] Instance bm_equiv_equivalence : Equivalence bm_equiv.
Proof.
  split; unfold bm_equiv; [done|by intros a b Hab x; rewrite Hab|].
  intros a b c Hab Hbc x. by rewrite Hab, Hbc.
Qed.

#[export] Instance bm_or_proper : Proper (bm_equiv ==> bm_equiv ==> bm_equiv) bm_or.
Proof. intros a a' Ha b b' Hb x. by rewrite !bm_contains_or, Ha, Hb. Qed.
#[export] Instance bm_and_proper : Proper (bm_equiv ==> bm_equiv ==> bm_equiv) bm_and.
Proof. intros a a' Ha b b' Hb x. by rewrite !bm_contains_and, Ha, Hb. Qed.
#[export] Instance bm_insert_proper x : Proper (bm_equiv ==> bm_equiv) (bm_insert x).
Proof. intros a a' Ha y. by rewrite !bm_contains_insert, Ha. Qed.

Lemma bm_or_comm a b : bm_equiv (bm_or a b) (bm_or b a).
Proof. intros x. rewrite !bm_contains_or. apply orb_comm. Qed.
Lemma bm_or_assoc a b c : bm_equiv (bm_or a (bm_or b c)) (bm_or (bm_or a b) c).
Proof. intros x. rewrite !bm_contains_or. apply orb_assoc. Qed.
Lemma bm_or_idemp a : bm_equiv (bm_or a a) a.
Proof. intros x. rewrite bm_contains_or. apply orb_diag. Qed.
Lemma bm_or_new a : bm_equiv (bm_or bm_new a) a.
Proof. intros x. by rewrite bm_contains_or, bm_contains_new. Qed.

Lemma bm_iter_NoDup a : NoDup (bm_iter a).
Proof. apply (StronglySorted_NoDup Z.lt); [intros ? ?; lia|apply bm_iter_sorted]. Qed.

Lemma bm_iter_equiv a b : bm_equiv a b → bm_iter a = bm_iter b.
Proof.
  intros Hab. apply (StronglySorted_unique_strong Z.lt); [intros; lia|apply bm_iter_sorted..|].
  apply NoDup_Permutation; [apply bm_iter_NoDup..|]. intros x. rewrite !bm_iter_elem. by rewrite Hab.
Qed.

#[export] Instance bm_len_proper : Proper (bm_equiv ==> eq) (@bm_len B _).
Proof. intros a b Hab. unfold bm_len. by rewrite (bm_iter_equiv a b). Qed.

Lemma bm_len_nonneg a : (0 <= bm_len a)%Z.
Proof. unfold bm_len. lia. Qed.

Lemma bm_is_empty_spec a : bm_is_empty a = true ↔ ∀ x, bm_contains a x = false.
Proof.
  unfold bm_is_empty, bm_len. rewrite Z.eqb_eq. split.
  - intros Hl x. apply not_true_is_false. rewrite <- bm_iter_elem.
    assert (bm_iter a = []) as -> by (apply length_zero_iff_nil; lia). apply not_elem_of_nil.
  - intros Ha. destruct (bm_iter a) as [|x l] eqn:E; [done|]. exfalso.
    assert (bm_contains a x = true) as Hx by (apply bm_iter_elem; rewrite E; left). by rewrite Ha in Hx.
Qed.

(** A bitmap inside another is not longer. *)
Lemma bm_len_mono a b : (∀ x, bm_contains a x = true → bm_contains b x = true) → (bm_len a <= bm_len b)%Z.
Proof.
  intros Hab. unfold bm_len. apply inj_le, submseteq_length, NoDup_submseteq; [apply bm_iter_NoDup|].
  intros x. rewrite !bm_iter_elem. auto.
Qed.

(** [insert] of every number of [lo..=hi]. *)
Definition bm_insert_list (l : list Z) (b : B) : B := foldl (λ b x, bm_insert x b) b l.

Lemma bm_contains_insert_list l b x :
  bm_contains (bm_insert_list l b) x = bool_decide (x ∈ l) || bm_contains b x.
Proof.
  unfold bm_insert_list. revert b. induction l as [|y l IH]; intros b; cbn [foldl].
  - rewrite bool_decide_eq_false_2; [done|apply not_elem_of_nil].
  - rewrite IH, bm_contains_insert, orb_assoc. f_equal. apply eq_true_iff_eq.
    rewrite orb_true_iff, !bool_decide_eq_true, elem_of_cons. naive_solver.
Qed.
End Bitmaps.

#[export] Hint Rewrite @bm_contains_new @bm_contains_insert @bm_contains_or @bm_contains_and : p28_rw.

(** ** A bitmap as a finite set *)

Definition gset_iter (b : gset Z) : list Z := sort_by Z.leb (elements b).

#[export] Program Instance gset_bitmap : Bitmap (gset Z) := {|
  bm_new := ∅;
  bm_insert x b := {[x]} ∪ b;
  bm_contains b x := bool_decide (x ∈ b);
  bm_or := (∪);
  bm_and := (∩);
  bm_iter := gset_iter
|}.
Next Obligation. intros x. simpl. by apply bool_decide_eq_false_2. Qed.
Next Obligation. intros x b y. apply eq_true_iff_eq. rewrite orb_true_iff, !bool_decide_eq_true. set_solver. Qed.
Next Obligation. intros b c x. apply eq_true_iff_eq. rewrite orb_true_iff, !bool_decide_eq_true. set_solver. Qed.
Next Obligation. intros b c x. apply eq_true_iff_eq. rewrite andb_true_iff, !bool_decide_eq_true. set_solver. Qed.
Next Obligation.
  intros b. unfold gset_iter.
  assert (Hs : StronglySorted (λ x y, Z.leb x y = true) (sort_by Z.leb (elements b)))
    by (apply sort_by_sorted; intros; rewrite ?Z.leb_le, ?Z.leb_gt in *; lia).
  assert (Hn : NoDup (sort_by Z.leb (elements b))) by (rewrite sort_by_perm; apply NoDup_elements).
  induction Hs as [|x l Hs IH Hx]; constructor; apply NoDup_cons in Hn as [Hni Hn]; [by apply IH|].
  rewrite Forall_forall in Hx |- *. intros y Hy. specialize (Hx y Hy). apply Z.leb_le in Hx.
  assert (x ≠ y) by (by intros ->). lia.
Qed.
Next Obligation. intros b x. unfold gset_iter. rewrite elem_of_sort_by, elem_of_elements, bool_decide_eq_true. done. Qed.
