(* ===== verification/Coverage.v ===== *)
(** * Coverage data

    Models [src/crates/suite-packet-core/src/coverage.rs]: the per-file line
    sets and hit counts, their merge and their percentages.  A [BTreeMap] is a
    [gmap]; the folds over one here do not depend on the order. *)

From S2P Require Export Bitmap F64 Str.

Inductive CoverageFormat : Type := Lcov | Cobertura | JaCoCo | GoCov | LlvmCov.

Definition coverage_format_name (f : CoverageFormat) : string :=
  match f with
  | Lcov => "lcov" | Cobertura => "cobertura" | JaCoCo => "jacoco" | GoCov => "gocov" | LlvmCov => "llvm-cov"
  end.

Inductive DiffStatus : Type := Added | Modified | Deleted | Renamed.

#[export] Instance diff_status_eq_dec : EqDecision DiffStatus.
Proof. solve_decision. Defined.

Record FileDiff (B : Type) : Type := mkFileDiff {
  fd_path : string;
  fd_old_path : option string;
  fd_status : DiffStatus;
  fd_changed_lines : B
}.
Arguments mkFileDiff {B}.
Arguments fd_path {B}.
Arguments fd_old_path {B}.
Arguments fd_status {B}.
Arguments fd_changed_lines {B}.

Record FileCoverage (B : Type) : Type := mkFileCoverage {
  lines_covered : B;
  lines_instrumented : B;
  branches : gmap (Z * Z) Z;
  functions : gmap string Z
}.
Arguments mkFileCoverage {B}.
Arguments lines_covered {B}.
Arguments lines_instrumented {B}.
Arguments branches {B}.
Arguments functions {B}.

Record CoverageData (B : Type) : Type := mkCoverageData {
  files : gmap string (FileCoverage B);
  format : option CoverageFormat;
  timestamp : Z
}.
Arguments mkCoverageData {B}.
Arguments files {B}.
Arguments format {B}.
Arguments timestamp {B}.

(** [entry(k).or_insert(0) += c] for every entry of [other]. *)
Definition merge_counts {K} `{Countable K} (m other : gmap K Z) : gmap K Z :=
  foldl (λ m kv, <[kv.1 := wrapping_add u64_max (default 0%Z (m !! kv.1)) kv.2]> m) m (map_to_list other).

(** [(part as f64 / whole as f64) * 100.0]. *)
Definition percentage (part whole : Z) : f64 :=
  f64_mul (f64_div (f64_of_Z part) (f64_of_Z whole)) (f64_of_Z 100).

Section Coverage.
Context {B : Type} `{Bitmap B}.

Definition file_coverage_new : FileCoverage B :=
  {| lines_covered := bm_new; lines_instrumented := bm_new; branches := ∅; functions := ∅ |}.

Definition line_coverage_pct (fc : FileCoverage B) : option f64 :=
  if f64_eq (f64_of_Z (bm_len (lines_instrumented fc))) f64_zero then None
  else Some (percentage (bm_len (lines_covered fc)) (bm_len (lines_instrumented fc))).

Definition file_coverage_merge (fc other : FileCoverage B) : FileCoverage B :=
  {| lines_covered := bm_or (lines_covered fc) (lines_covered other);
     lines_instrumented := bm_or (lines_instrumented fc) (lines_instrumented other);
     branches := merge_counts (branches fc) (branches other);
     functions := merge_counts (functions fc) (functions other) |}.

Definition coverage_data_new (now : Z) : CoverageData B :=
  {| files := ∅; format := None; timestamp := now |}.

(** [self.files.entry(path).or_default().merge(fc)]. *)
Definition merge_file (m : gmap string (FileCoverage B)) (path : string) (fc : FileCoverage B)
    : gmap string (FileCoverage B) :=
  <[path := file_coverage_merge (default file_coverage_new (m !! path)) fc]> m.

Definition coverage_data_merge (cd other : CoverageData B) : CoverageData B :=
  {| files := foldl (λ m kv, merge_file m kv.1 kv.2) (files cd) (map_to_list (files other));
     format := format cd; timestamp := timestamp cd |}.

Definition total_of (f : FileCoverage B → Z) (cd : CoverageData B) : Z :=
  wrapping_sum u64_max ((λ kv, f kv.2) <$> map_to_list (files cd)).

Definition total_coverage_pct (cd : CoverageData B) : option f64 :=
  let total_covered := total_of (λ fc, bm_len (lines_covered fc)) cd in
  let total_instrumented := total_of (λ fc, bm_len (lines_instrumented fc)) cd in
  if (total_instrumented =? 0)%Z then None else Some (percentage total_covered total_instrumented).

(** ** Equivalence *)

Record fc_equiv (a b : FileCoverage B) : Prop := {
  fe_covered : bm_equiv (lines_covered a) (lines_covered b);
  fe_instrumented : bm_equiv (lines_instrumented a) (lines_instrumented b);
  fe_branches : branches a = branches b;
  fe_functions : functions a = functions b
}.

#[export] Instance fc_equiv_equivalence : Equivalence fc_equiv.
Proof.
  split; [intros a; by split|intros a b []; split; by symmetry|].
  intros a b c [? ? ? ?] [? ? ? ?]; split; by etrans.
Qed.

#[export] Instance file_coverage_merge_proper :
  Proper (fc_equiv ==> fc_equiv ==> fc_equiv) file_coverage_merge.
Proof.
  intros a a' [H1 H2 H3 H4] b b' [H5 H6 H7 H8]. split; simpl; [by rewrite H1, H5|by rewrite H2, H6|congruence..].
Qed.

Definition files_equiv (m m' : gmap string (FileCoverage B)) : Prop :=
  ∀ p, option_relation fc_equiv (λ _, False) (λ _, False) (m !! p) (m' !! p).

Definition cd_equiv (a b : CoverageData B) : Prop := files_equiv (files a) (files b).

(** The counts are [u64]s. *)
Definition counts_ok {K} `{Countable K} (m : gmap K Z) : Prop := ∀ k c, m !! k = Some c → fits u64_max c.

Definition fc_ok (fc : FileCoverage B) : Prop := counts_ok (branches fc) ∧ counts_ok (functions fc).
Definition cd_ok (cd : CoverageData B) : Prop := ∀ p fc, files cd !! p = Some fc → fc_ok fc.
End Coverage.

(** ** Lookups in merged maps *)

Lemma lookup_foldl_upd {K V A} `{Countable K} (g : option A → V → A) (l : list (K * V)) (m : gmap K A) k :
  NoDup l.*1 →
  foldl (λ m kv, <[kv.1 := g (m !! kv.1) kv.2]> m) m l !! k =
  match (list_to_map l : gmap K V) !! k with Some v => Some (g (m !! k) v) | None => m !! k end.
Proof.
  revert m. induction l as [|[k0 v0] l IH]; intros m; [done|]. rewrite fmap_cons, NoDup_cons. simpl.
  intros [Hni Hnd]. rewrite IH by done. destruct (decide (k = k0)) as [->|Hne].
  - rewrite (not_elem_of_list_to_map_1 l k0 Hni), !lookup_insert_eq. done.
  - by rewrite !lookup_insert_ne.
Qed.

Lemma lookup_merge_counts {K} `{Countable K} (m o : gmap K Z) k :
  merge_counts m o !! k =
  match o !! k with Some c => Some (wrapping_add u64_max (default 0%Z (m !! k)) c) | None => m !! k end.
Proof.
  unfold merge_counts.
  rewrite (lookup_foldl_upd (λ o c, wrapping_add u64_max (default 0%Z o) c)) by apply NoDup_fst_map_to_list.
  by rewrite list_to_map_to_list.
Qed.

Lemma wrapping_add_swap m x a b : wrapping_add m (wrapping_add m x a) b = wrapping_add m (wrapping_add m x b) a.
Proof. unfold wrapping_add. rewrite !Zplus_mod_idemp_l. f_equal. lia. Qed.

Lemma merge_counts_swap {K} `{Countable K} (m a b : gmap K Z) :
  merge_counts (merge_counts m a) b = merge_counts (merge_counts m b) a.
Proof.
  apply map_eq. intros k. rewrite !lookup_merge_counts.
  destruct (a !! k) as [ca|], (b !! k) as [cb|]; simpl; try done. by rewrite wrapping_add_swap.
Qed.

Section MergeLemmas.
Context {B : Type} `{Bitmap B}.
Implicit Types (a b x : CoverageData B) (fc : FileCoverage B) (l : list (CoverageData B)).

Lemma lookup_coverage_merge a b p :
  files (coverage_data_merge a b) !! p =
  match files b !! p with
  | Some fc => Some (file_coverage_merge (default file_coverage_new (files a !! p)) fc)
  | None => files a !! p
  end.
Proof.
  unfold coverage_data_merge, merge_file. simpl.
  rewrite (lookup_foldl_upd (λ o fc, file_coverage_merge (default file_coverage_new o) fc))
    by apply NoDup_fst_map_to_list. by rewrite list_to_map_to_list.
Qed.

Lemma file_coverage_merge_swap fc fa fb :
  fc_equiv (file_coverage_merge (file_coverage_merge fc fa) fb)
           (file_coverage_merge (file_coverage_merge fc fb) fa).
Proof.
  split; simpl; [| |apply merge_counts_swap..].
  all: rewrite <- !bm_or_assoc; by rewrite (bm_or_comm _ (_ fb)).
Qed.

Lemma option_relation_fc_refl (o : option (FileCoverage B)) :
  option_relation fc_equiv (λ _, False) (λ _, False) o o.
Proof. by destruct o. Qed.

#[export] Instance cd_equiv_equivalence : Equivalence (@cd_equiv B _).
Proof.
  split; unfold cd_equiv, files_equiv.
  - intros a p. apply option_relation_fc_refl.
  - intros a b Hab p. specialize (Hab p). destruct (files a !! p), (files b !! p); simpl in *; by symmetry || done.
  - intros a b c Hab Hbc p. specialize (Hab p). specialize (Hbc p).
    destruct (files a !! p), (files b !! p), (files c !! p); simpl in *; try done. by etrans.
Qed.

#[export] Instance coverage_data_merge_proper : Proper (cd_equiv ==> eq ==> cd_equiv) coverage_data_merge.
Proof.
  intros a a' Ha b ? <- p. specialize (Ha p). rewrite !lookup_coverage_merge.
  destruct (files b !! p) as [fb|]; [|exact Ha].
  destruct (files a !! p), (files a' !! p); simpl in *; try done. by rewrite Ha.
Qed.

Lemma coverage_merge_swap x a b :
  cd_equiv (coverage_data_merge (coverage_data_merge x a) b) (coverage_data_merge (coverage_data_merge x b) a).
Proof.
  intros p. rewrite !lookup_coverage_merge.
  destruct (files a !! p) as [fa|], (files b !! p) as [fb|]; try apply option_relation_fc_refl.
  apply file_coverage_merge_swap.
Qed.

Lemma coverage_merge_perm l l' x x' :
  l ≡ₚ l' → cd_equiv x x' → cd_equiv (foldl coverage_data_merge x l) (foldl coverage_data_merge x' l').
Proof.
  intros Hp. revert x x'. induction Hp as [|a l l' _ IH|a b l|l l1 l' _ IH1 _ IH2]; intros x x' Hx; [done| | |].
  - simpl. apply IH. by rewrite Hx.
  - assert (∀ y y', cd_equiv y y' → cd_equiv (foldl coverage_data_merge y l) (foldl coverage_data_merge y' l)) as Hl.
    { induction l as [|c l IH]; intros y y' Hy; simpl; [done|]. apply IH. by rewrite Hy. }
    simpl. apply Hl. rewrite coverage_merge_swap. by rewrite Hx.
  - etrans; [by apply IH1|by apply IH2].
Qed.

Lemma total_of_proper (f : FileCoverage B → Z) a b :
  Proper (fc_equiv ==> eq) f → cd_equiv a b → total_of f a = total_of f b.
Proof.
  intros Hf Hab. unfold total_of. rewrite !wrapping_sum_mod by (unfold u64_max; lia). f_equal.
  assert (Hm : f <$> files a = f <$> files b).
  { apply map_eq. intros p. rewrite !lookup_fmap. specialize (Hab p).
    destruct (files a !! p), (files b !! p); simpl in *; try done. by rewrite Hab. }
  assert (Hl : ∀ m : gmap string (FileCoverage B),
    (λ kv, f kv.2) <$> map_to_list m ≡ₚ (map_to_list (f <$> m)).*2).
  { intros m. rewrite map_to_list_fmap. rewrite <- list_fmap_compose. done. }
  apply sumZ_perm. by rewrite !Hl, Hm.
Qed.

#[export] Instance total_coverage_pct_proper : Proper (cd_equiv ==> eq) (@total_coverage_pct B _).
Proof.
  intros a b Hab. unfold total_coverage_pct.
  rewrite (total_of_proper (λ fc, bm_len (lines_instrumented fc)) a b), (total_of_proper (λ fc, bm_len (lines_covered fc)) a b);
    [done| |done| |done]; intros ? ? []; by apply bm_len_proper.
Qed.

(** The lines of a file of a report. *)
Definition covered_at (cd : CoverageData B) (p : string) (x : Z) : bool :=
  match files cd !! p with Some fc => bm_contains (lines_covered fc) x | None => false end.
Definition instrumented_at (cd : CoverageData B) (p : string) (x : Z) : bool :=
  match files cd !! p with Some fc => bm_contains (lines_instrumented fc) x | None => false end.
Definition function_hits (cd : CoverageData B) (p name : string) : Z :=
  match files cd !! p with Some fc => default 0%Z (functions fc !! name) | None => 0 end.

Lemma lines_merge a b p n :
  covered_at (coverage_data_merge a b) p n = covered_at a p n || covered_at b p n ∧
  instrumented_at (coverage_data_merge a b) p n = instrumented_at a p n || instrumented_at b p n.
Proof.
  unfold covered_at, instrumented_at. rewrite lookup_coverage_merge.
  destruct (files b !! p) as [fb|]; [|by rewrite !orb_false_r].
  destruct (files a !! p) as [fa|]; simpl; rewrite !bm_contains_or; [done|].
  by rewrite bm_contains_new.
Qed.

Lemma hits_merge a b p n :
  (function_hits (coverage_data_merge a b) p n mod (u64_max + 1) =
   (function_hits a p n + function_hits b p n) mod (u64_max + 1))%Z.
Proof.
  unfold function_hits. rewrite lookup_coverage_merge.
  destruct (files b !! p) as [fb|]; [|by rewrite Z.add_0_r].
  simpl. rewrite lookup_merge_counts. destruct (functions fb !! n) as [c|]; simpl.
  - unfold wrapping_add. rewrite Zmod_mod. by destruct (files a !! p).
  - rewrite Z.add_0_r. by destruct (files a !! p).
Qed.
End MergeLemmas.

(** Merging coverage reports does not depend on their order, up to equality of the
    line sets, and neither does the total percentage. A line is covered or instrumented
    after the merge exactly when it is in one of the reports, and hit counts add up
    modulo 2^64. *)
Theorem coverage_merge_reports {B} `{Bitmap B} (x : CoverageData B) (l l' : list (CoverageData B)) :
  l ≡ₚ l' →
  let m := foldl coverage_data_merge x l in
  let m' := foldl coverage_data_merge x l' in
  cd_equiv m m' ∧ total_coverage_pct m = total_coverage_pct m' ∧
  (∀ p n, covered_at m p n = covered_at x p n || existsb (λ r, covered_at r p n) l ∧
          instrumented_at m p n = instrumented_at x p n || existsb (λ r, instrumented_at r p n) l) ∧
  (∀ p f, function_hits m p f mod (u64_max + 1) =
          (function_hits x p f + sumZ ((λ r, function_hits r p f) <$> l)) mod (u64_max + 1))%Z.
Proof.
  intros Hp m m'. pose proof (coverage_merge_perm l l' x x Hp (reflexivity x)) as He.
  split; [done|]. split; [by apply total_coverage_pct_proper|]. clear m' He Hp l'. subst m. split.
  - intros p n. revert x. induction l as [|a l IH]; intros x; simpl; [by rewrite !orb_false_r|].
    destruct (IH (coverage_data_merge x a)) as [-> ->], (lines_merge x a p n) as [-> ->].
    by rewrite <- !orb_assoc.
  - intros p f. revert x. induction l as [|a l IH]; intros x; [simpl; by rewrite Z.add_0_r|].
    cbn [foldl]. rewrite IH. rewrite <- Zplus_mod_idemp_l, hits_merge, Zplus_mod_idemp_l.
    f_equal. rewrite fmap_cons, sumZ_cons. lia.
Qed.

Lemma coverage_merge_reports_witness :
  let fc n : FileCoverage (gset Z) := mkFileCoverage {[n]} {[n]} ∅ {["f" := n]} in
  let r n := mkCoverageData {["a.rs" := fc n]} (Some Lcov) 0 in
  let base := mkCoverageData ∅ None 0 in
  total_coverage_pct (foldl coverage_data_merge base [r 1%Z; r 2%Z])
  = total_coverage_pct (foldl coverage_data_merge base [r 2%Z; r 1%Z]).
Proof.
  intros fc r base.
  destruct (coverage_merge_reports base [r 1%Z; r 2%Z] [r 2%Z; r 1%Z]) as (_ & E & _); [apply perm_swap|exact E].
Defined.

