(* ===== verification/Diagnostics.v ===== *)
(** * Diagnostics

    Models [src/crates/suite-packet-core/src/diagnostics.rs]: issues by file,
    their merge without repeated fingerprints, and the issues on changed lines. *)

From S2P Require Export Coverage.

Inductive Severity : Type := Error | Warning | Note.

#[export] Instance severity_eq_dec : EqDecision Severity.
Proof. solve_decision. Defined.

#[export] Instance severity_countable : Countable Severity.
Proof.
  refine (inj_countable' (λ s, match s with Error => 0 | Warning => 1 | Note => 2 end)
    (λ n, match n with 0 => Error | 1 => Warning | _ => Note end) _).
  by intros [].
Defined.

Definition severity_name (s : Severity) : string :=
  match s with Error => "error" | Warning => "warning" | Note => "note" end.

Record Issue : Type := mkIssue {
  issue_path : string;
  issue_line : Z;
  issue_column : option Z;
  issue_end_line : option Z;
  issue_severity : Severity;
  issue_rule_id : string;
  issue_message : string;
  issue_source : string;
  issue_fingerprint : string
}.

Record DiagnosticsData : Type := mkDiagnosticsData {
  issues_by_file : gmap string (list Issue);
  diag_sarif : bool;
  diag_timestamp : Z
}.

Definition total_issues (d : DiagnosticsData) : Z :=
  wrapping_sum usize_max ((λ kv, Z.of_nat (length kv.2)) <$> map_to_list (issues_by_file d)).

Definition count_by_severity (d : DiagnosticsData) : gmap Severity nat :=
  foldl (λ (counts : gmap Severity nat) issue, <[issue_severity issue := S (default 0 (counts !! issue_severity issue))]> counts) ∅
    (map_to_list (issues_by_file d) ≫= snd).

(** [if seen.insert(fingerprint) { existing.push(issue) }] over [issues]. *)
Fixpoint push_new_issues (seen : gset string) (existing issues : list Issue) : list Issue :=
  match issues with
  | [] => existing
  | issue :: issues =>
      if decide (issue_fingerprint issue ∈ seen) then push_new_issues seen existing issues
      else push_new_issues ({[issue_fingerprint issue]} ∪ seen) (existing ++ [issue]) issues
  end.

Definition merge_issues (existing issues : list Issue) : list Issue :=
  push_new_issues (list_to_set (issue_fingerprint <$> existing)) existing issues.

Definition diagnostics_merge (d other : DiagnosticsData) : DiagnosticsData :=
  {| issues_by_file :=
       foldl (λ m kv, <[kv.1 := merge_issues (default [] (m !! kv.1)) kv.2]> m)
         (issues_by_file d) (map_to_list (issues_by_file other));
     diag_sarif := diag_sarif d; diag_timestamp := diag_timestamp d |}.

Section ChangedLines.
Context {B : Type} `{Bitmap B}.

Definition issues_on_changed_lines (d : DiagnosticsData) (diffs : list (FileDiff B)) : list Issue :=
  foldl (λ result diff,
    match issues_by_file d !! fd_path diff with
    | Some issues =>
        foldl (λ result issue,
          if bm_contains (fd_changed_lines diff) (issue_line issue) then result ++ [issue] else result)
          result issues
    | None => result
    end) [] diffs.
End ChangedLines.

(** ** Merging *)

Definition fingerprints (l : list Issue) : list string := issue_fingerprint <$> l.

(** The issues of [issues] that are the first to bring a fingerprint that
    [seen] lacks. *)
Fixpoint fresh_issues (seen : gset string) (issues : list Issue) : list Issue :=
  match issues with
  | [] => []
  | issue :: issues =>
      if decide (issue_fingerprint issue ∈ seen) then fresh_issues seen issues
      else issue :: fresh_issues ({[issue_fingerprint issue]} ∪ seen) issues
  end.

Section Merge.
Implicit Types (issues l : list Issue) (seen : gset string) (d : DiagnosticsData).

Lemma push_new_issues_app seen l issues :
  push_new_issues seen l issues = l ++ fresh_issues seen issues.
Proof.
  revert seen l. induction issues as [|i issues IH]; intros seen l; simpl; [by rewrite app_nil_r|].
  case_decide; rewrite IH; [done|]. by rewrite <- app_assoc.
Qed.

Lemma fresh_issues_spec seen issues :
  NoDup (fingerprints (fresh_issues seen issues)) ∧
  (∀ f, f ∈ fingerprints (fresh_issues seen issues) ↔ f ∈ fingerprints issues ∧ f ∉ seen) ∧
  fresh_issues seen issues `sublist_of` issues.
Proof.
  unfold fingerprints. revert seen. induction issues as [|i issues IH]; intros seen; simpl.
  { split_and!; [constructor|set_solver|constructor]. }
  case_decide as Hi.
  - destruct (IH seen) as (? & Hf & ?). split_and!; [done| |by constructor]. intros f. rewrite Hf. set_solver.
  - destruct (IH ({[issue_fingerprint i]} ∪ seen)) as (Hnd & Hf & Hs). split_and!; [| |by constructor].
    + simpl. apply NoDup_cons. split; [|done]. rewrite Hf. set_solver.
    + intros f. simpl. rewrite !elem_of_cons, Hf.
      destruct (decide (f = issue_fingerprint i)) as [->|]; set_solver.
Qed.

Lemma fresh_issues_nil seen issues :
  (∀ f, f ∈ fingerprints issues → f ∈ seen) → fresh_issues seen issues = [].
Proof.
  unfold fingerprints. induction issues as [|i issues IH]; intros Hs; [done|]. simpl.
  rewrite decide_True by (apply Hs; left). apply IH. intros f Hf. apply Hs. by right.
Qed.

Lemma merge_issues_fingerprints l issues f :
  f ∈ fingerprints (merge_issues l issues) ↔ f ∈ fingerprints l ∨ f ∈ fingerprints issues.
Proof.
  unfold merge_issues. rewrite push_new_issues_app. unfold fingerprints at 1. rewrite fmap_app, elem_of_app.
  fold (fingerprints l). fold (fingerprints (fresh_issues (list_to_set (issue_fingerprint <$> l)) issues)).
  destruct (fresh_issues_spec (list_to_set (issue_fingerprint <$> l)) issues) as (_ & -> & _).
  rewrite elem_of_list_to_set. destruct (decide (f ∈ fingerprints l)); unfold fingerprints in *; tauto.
Qed.

Lemma merge_issues_NoDup l issues : NoDup (fingerprints l) → NoDup (fingerprints (merge_issues l issues)).
Proof.
  intros Hl. unfold merge_issues. rewrite push_new_issues_app. unfold fingerprints. rewrite fmap_app.
  destruct (fresh_issues_spec (list_to_set (issue_fingerprint <$> l)) issues) as (Hnd & Hf & _).
  apply NoDup_app. split_and!; [done| |done]. intros f Hfl Hff. apply Hf in Hff as [_ Hff].
  apply Hff. by apply elem_of_list_to_set.
Qed.

Lemma merge_issues_again l issues :
  (∀ f, f ∈ fingerprints issues → f ∈ fingerprints l) → merge_issues l issues = l.
Proof.
  intros Hs. unfold merge_issues. rewrite push_new_issues_app, fresh_issues_nil; [by rewrite app_nil_r|].
  intros f Hf. apply elem_of_list_to_set. by apply Hs.
Qed.

Lemma lookup_diagnostics_merge d other p :
  issues_by_file (diagnostics_merge d other) !! p =
  match issues_by_file other !! p with
  | Some issues => Some (merge_issues (default [] (issues_by_file d !! p)) issues)
  | None => issues_by_file d !! p
  end.
Proof.
  unfold diagnostics_merge. simpl.
  rewrite (lookup_foldl_upd (λ o issues, merge_issues (default [] o) issues)) by apply NoDup_fst_map_to_list.
  by rewrite list_to_map_to_list.
Qed.
End Merge.

(** The issues of a file. *)
Definition issues_at (d : DiagnosticsData) (p : string) : list Issue := default [] (issues_by_file d !! p).

(** Merging diagnostics keeps the issues of each file and appends, in order, those
    of the other data whose fingerprint is new; no fingerprint is lost or repeated, and
    merging the same data again changes nothing. *)
Theorem diagnostics_merge_correct (d other : DiagnosticsData) :
  (∀ p, ∃ fresh, issues_at (diagnostics_merge d other) p = issues_at d p ++ fresh ∧
     fresh `sublist_of` issues_at other p ∧
     (NoDup (fingerprints (issues_at d p)) → NoDup (fingerprints (issues_at (diagnostics_merge d other) p))) ∧
     ∀ f, f ∈ fingerprints (issues_at (diagnostics_merge d other) p) ↔
          f ∈ fingerprints (issues_at d p) ∨ f ∈ fingerprints (issues_at other p)) ∧
  diagnostics_merge (diagnostics_merge d other) other = diagnostics_merge d other.
Proof.
  split.
  - intros p. unfold issues_at. rewrite lookup_diagnostics_merge.
    destruct (issues_by_file other !! p) as [issues|]; simpl.
    + set (l := default [] (issues_by_file d !! p)).
      exists (fresh_issues (list_to_set (issue_fingerprint <$> l)) issues). split_and!.
      * apply push_new_issues_app.
      * apply fresh_issues_spec.
      * apply merge_issues_NoDup.
      * apply merge_issues_fingerprints.
    + exists []. rewrite app_nil_r. split_and!; [done..|]. intros f. unfold fingerprints. set_solver.
  - assert (∀ a b : DiagnosticsData, issues_by_file a = issues_by_file b → diag_sarif a = diag_sarif b →
      diag_timestamp a = diag_timestamp b → a = b) as Hext by (intros [] []; simpl; by intros -> -> ->).
    apply Hext; [|done..]. apply map_eq. intros p. rewrite !lookup_diagnostics_merge.
    destruct (issues_by_file other !! p) as [issues|]; [|done]. simpl. f_equal.
    apply merge_issues_again. intros f Hf. apply merge_issues_fingerprints. by right.
Qed.

(** ** Issues on changed lines *)

Section ChangedLinesSpec.
Context {B : Type} `{Bitmap B}.
Implicit Types (d : DiagnosticsData) (diff : FileDiff B) (diffs : list (FileDiff B)).

Definition on_changed_line (diff : FileDiff B) (i : Issue) : Prop :=
  bm_contains (fd_changed_lines diff) (issue_line i) = true.

#[export] Instance on_changed_line_dec diff i : Decision (on_changed_line diff i).
Proof. unfold on_changed_line. apply _. Defined.

Lemma issues_on_changed_lines_spec d diffs :
  issues_on_changed_lines d diffs = diffs ≫= λ diff, filter (on_changed_line diff) (issues_at d (fd_path diff)).
Proof.
  unfold issues_on_changed_lines.
  assert (∀ acc, foldl (λ result diff,
    match issues_by_file d !! fd_path diff with
    | Some issues =>
        foldl (λ result issue,
          if bm_contains (fd_changed_lines diff) (issue_line issue) then result ++ [issue] else result)
          result issues
    | None => result
    end) acc diffs = acc ++ (diffs ≫= λ diff, filter (on_changed_line diff) (issues_at d (fd_path diff)))) as Hacc;
    [|exact (Hacc [])].
  induction diffs as [|diff diffs IH]; intros acc; simpl; [by rewrite app_nil_r|].
  rewrite IH, app_assoc. f_equal. unfold issues_at.
  destruct (issues_by_file d !! fd_path diff) as [issues|]; simpl; [|by rewrite app_nil_r].
  clear. revert acc. induction issues as [|i issues IH]; intros acc; simpl; [by rewrite app_nil_r|].
  rewrite filter_cons, IH. destruct (decide (on_changed_line diff i)) as [Hc|Hc]; unfold on_changed_line in Hc.
  - rewrite Hc. by rewrite <- app_assoc.
  - apply not_true_is_false in Hc. by rewrite Hc.
Qed.
End ChangedLinesSpec.
