(* ===== verification/Gate.v ===== *)
(** * Quality gates

    Models [src/crates/diffy-core/src/gate.rs]: the coverage and issue gates
    over a diff. *)

From S2P Require Export Diagnostics.

Record IssueGateConfig : Type := mkIssueGateConfig {
  max_new_errors : option Z;
  max_new_warnings : option Z;
  max_new_issues : option Z
}.

Record GateConfig : Type := mkGateConfig {
  fail_under_total : option f64;
  fail_under_changed : option f64;
  fail_under_new : option f64;
  gate_issues : IssueGateConfig
}.

Record IssueGateCounts : Type := mkIssueGateCounts {
  changed_errors : Z;
  changed_warnings : Z;
  changed_notes : Z;
  igc_total_issues : Z
}.

Record QualityGateResult : Type := mkQualityGateResult {
  gate_passed : bool;
  gate_total_coverage_pct : option f64;
  gate_changed_coverage_pct : option f64;
  gate_new_file_coverage_pct : option f64;
  gate_violations : list string;
  gate_issue_counts : option IssueGateCounts
}.

(** One coverage check: [passed] and [violations] after it. *)
Definition check_coverage (what : string) (threshold actual : option f64) (st : bool * list string)
    : bool * list string :=
  match threshold, actual with
  | Some threshold, Some actual =>
      if f64_lt actual threshold then
        (false, st.2 ++ [what +:+ " " +:+ f64_fmt1 actual +:+ "% is below threshold " +:+ f64_fmt1 threshold +:+ "%"])
      else st
  | _, _ => st
  end.

(** One issue limit. *)
Definition check_limit (what limit_name : string) (count : Z) (limit : option Z) (st : bool * list string)
    : bool * list string :=
  match limit with
  | Some max =>
      if (max <? count)%Z then
        (false, st.2 ++ [what +:+ " " +:+ show_uint count +:+ " exceed " +:+ limit_name +:+ " " +:+ show_uint max])
      else st
  | None => st
  end.

Section Gate.
Context {B : Type} `{Bitmap B}.

(** The sums are [(total_changed, total_covered)]. *)
Definition changed_coverage_step (coverage : CoverageData B) (acc : Z * Z) (diff : FileDiff B) : Z * Z :=
  if decide (fd_status diff = Deleted) then acc
  else if bm_is_empty (fd_changed_lines diff) then acc
  else
    match files coverage !! fd_path diff with
    | Some fc =>
        (wrapping_add u64_max acc.1 (bm_len (bm_and (fd_changed_lines diff) (lines_instrumented fc))),
         wrapping_add u64_max acc.2 (bm_len (bm_and (fd_changed_lines diff) (lines_covered fc))))
    | None => (wrapping_add u64_max acc.1 (bm_len (fd_changed_lines diff)), acc.2)
    end.

Definition compute_changed_coverage (coverage : CoverageData B) (diffs : list (FileDiff B)) : option f64 :=
  let totals := foldl (changed_coverage_step coverage) (0%Z, 0%Z) diffs in
  if (totals.1 =? 0)%Z then None else Some (percentage totals.2 totals.1).

(** The sums are [(total_instrumented, total_covered)]. *)
Definition new_file_coverage_step (coverage : CoverageData B) (acc : Z * Z) (diff : FileDiff B) : Z * Z :=
  if decide (fd_status diff = Added) then
    match files coverage !! fd_path diff with
    | Some fc =>
        (wrapping_add u64_max acc.1 (bm_len (lines_instrumented fc)),
         wrapping_add u64_max acc.2 (bm_len (lines_covered fc)))
    | None => acc
    end
  else acc.

Definition compute_new_file_coverage (coverage : CoverageData B) (diffs : list (FileDiff B)) : option f64 :=
  let totals := foldl (new_file_coverage_step coverage) (0%Z, 0%Z) diffs in
  if (totals.1 =? 0)%Z then None else Some (percentage totals.2 totals.1).

Definition evaluate_gate (config : GateConfig) (coverage : CoverageData B) (diffs : list (FileDiff B))
    : QualityGateResult :=
  let total := total_coverage_pct coverage in
  let changed := compute_changed_coverage coverage diffs in
  let new := compute_new_file_coverage coverage diffs in
  let st := check_coverage "Total coverage" (fail_under_total config) total (true, []) in
  let st := check_coverage "Changed lines coverage" (fail_under_changed config) changed st in
  let st := check_coverage "New file coverage" (fail_under_new config) new st in
  {| gate_passed := st.1; gate_total_coverage_pct := total; gate_changed_coverage_pct := changed;
     gate_new_file_coverage_pct := new; gate_violations := st.2; gate_issue_counts := None |}.

Definition count_issue (c : Z * Z * Z) (issue : Issue) : Z * Z * Z :=
  match issue_severity issue with
  | Error => (wrapping_add u32_max c.1.1 1, c.1.2, c.2)
  | Warning => (c.1.1, wrapping_add u32_max c.1.2 1, c.2)
  | Note => (c.1.1, c.1.2, wrapping_add u32_max c.2 1)
  end.

Definition evaluate_issue_gate (config : IssueGateConfig) (diagnostics : DiagnosticsData)
    (diffs : list (FileDiff B)) : bool * list string * IssueGateCounts :=
  let c := foldl count_issue (0%Z, 0%Z, 0%Z) (issues_on_changed_lines diagnostics diffs) in
  let changed_total := wrapping_add u32_max (wrapping_add u32_max c.1.1 c.1.2) c.2 in
  let counts := {| changed_errors := c.1.1; changed_warnings := c.1.2; changed_notes := c.2;
                   igc_total_issues := total_issues diagnostics |} in
  let st := check_limit "Changed-line errors" "max_new_errors" c.1.1 (max_new_errors config) (true, []) in
  let st := check_limit "Changed-line warnings" "max_new_warnings" c.1.2 (max_new_warnings config) st in
  let st := check_limit "Changed-line total issues" "max_new_issues" changed_total (max_new_issues config) st in
  (st.1, st.2, counts).

Definition evaluate_full_gate (config : GateConfig) (coverage : CoverageData B)
    (diagnostics : option DiagnosticsData) (diffs : list (FileDiff B)) : QualityGateResult :=
  let result := evaluate_gate config coverage diffs in
  match diagnostics with
  | None => result
  | Some diag =>
      let '(issues_passed, issue_violations, issue_counts) := evaluate_issue_gate (gate_issues config) diag diffs in
      {| gate_passed := gate_passed result && issues_passed;
         gate_total_coverage_pct := gate_total_coverage_pct result;
         gate_changed_coverage_pct := gate_changed_coverage_pct result;
         gate_new_file_coverage_pct := gate_new_file_coverage_pct result;
         gate_violations := gate_violations result ++ issue_violations;
         gate_issue_counts := Some issue_counts |}
  end.
End Gate.

(** ** Gate specification *)

(** A measured percentage meets an optional threshold. *)
Definition meets (threshold actual : option f64) : Prop :=
  ∀ t a, threshold = Some t → actual = Some a → f64_lt a t = false.

Definition at_most (count : Z) (limit : option Z) : Prop := ∀ m, limit = Some m → (count <= m)%Z.

Section GateSpec.
Context {B : Type} `{Bitmap B}.
Implicit Types (cov : CoverageData B) (diff : FileDiff B) (diffs : list (FileDiff B)) (l : list Issue).

(** The changed lines that are measured, and those of them that ran. *)
Definition measured_lines (cov : CoverageData B) (diff : FileDiff B) : list Z :=
  if decide (fd_status diff = Deleted) then []
  else match files cov !! fd_path diff with
  | Some fc => filter (λ x, bm_contains (lines_instrumented fc) x = true) (bm_iter (fd_changed_lines diff))
  | None => bm_iter (fd_changed_lines diff)
  end.

Definition hit_lines (cov : CoverageData B) (diff : FileDiff B) : list Z :=
  if decide (fd_status diff = Deleted) then []
  else filter (λ x, covered_at cov (fd_path diff) x = true) (bm_iter (fd_changed_lines diff)).

Definition line_count (f : FileDiff B → list Z) (diffs : list (FileDiff B)) : Z :=
  Z.of_nat (length (diffs ≫= f)).

(** The issues of one severity on changed lines. *)
Definition severity_count (s : Severity) (d : DiagnosticsData) (diffs : list (FileDiff B)) : Z :=
  Z.of_nat (length (filter (λ i, issue_severity i = s)
    (diffs ≫= λ diff, filter (on_changed_line diff) (issues_at d (fd_path diff))))).

Definition changed_issue_count (d : DiagnosticsData) (diffs : list (FileDiff B)) : Z :=
  Z.of_nat (length (diffs ≫= λ diff, filter (on_changed_line diff) (issues_at d (fd_path diff)))).

Lemma bm_len_and (a b : B) :
  bm_len (bm_and a b) = Z.of_nat (length (filter (λ x, bm_contains b x = true) (bm_iter a))).
Proof.
  unfold bm_len. f_equal. apply Permutation_length, NoDup_Permutation.
  - apply bm_iter_NoDup.
  - apply NoDup_filter, bm_iter_NoDup.
  - intros x. rewrite list_elem_of_filter, !bm_iter_elem, bm_contains_and, andb_true_iff. tauto.
Qed.

Lemma check_coverage_spec what t a st :
  ((check_coverage what t a st).1 = true ↔ st.1 = true ∧ meets t a) ∧
  ((check_coverage what t a st).2 = [] ↔ st.2 = [] ∧ meets t a).
Proof.
  unfold check_coverage, meets. destruct t as [t|], a as [a|]; try (split; naive_solver).
  destruct (f64_lt a t) eqn:E; simpl; [|split; naive_solver]. split.
  - split; [done|]. intros [_ Hm]. specialize (Hm t a eq_refl eq_refl). congruence.
  - split; [by intros [_ ?]%app_nil|]. intros [_ Hm]. specialize (Hm t a eq_refl eq_refl). congruence.
Qed.

Lemma check_limit_spec what name c m st :
  ((check_limit what name c m st).1 = true ↔ st.1 = true ∧ at_most c m) ∧
  ((check_limit what name c m st).2 = [] ↔ st.2 = [] ∧ at_most c m).
Proof.
  unfold check_limit, at_most. destruct m as [m|]; [|split; naive_solver].
  destruct (m <? c)%Z eqn:E; reflect_bool; simpl.
  - split; [split; [done|]|split; [by intros [_ ?]%app_nil|]]; intros [_ Hm]; specialize (Hm m eq_refl); lia.
  - split; (split; [intros ?; split; [done|by intros ? [= <-]]|by intros [? _]]).
Qed.

(** The changed-line sums. *)
Lemma changed_coverage_fold cov diffs a b :
  foldl (changed_coverage_step cov) (a mod (u64_max + 1), b mod (u64_max + 1))%Z diffs =
  ((a + line_count (measured_lines cov) diffs) mod (u64_max + 1),
   (b + line_count (hit_lines cov) diffs) mod (u64_max + 1))%Z.
Proof.
  revert a b. induction diffs as [|diff diffs IH]; intros a b.
  { unfold line_count. simpl. by rewrite !Z.add_0_r. }
  assert (Hcons : ∀ f : FileDiff B → list Z, line_count f (diff :: diffs) =
      (Z.of_nat (length (f diff)) + line_count f diffs)%Z)
    by (intros f; unfold line_count; rewrite bind_cons, length_app; lia).
  rewrite !Hcons, !Z.add_assoc, <- IH. cbn [foldl]. f_equal.
  unfold changed_coverage_step, measured_lines, hit_lines, covered_at, wrapping_add. cbn [fst snd].
  case_decide; [simpl; by rewrite !Z.add_0_r|].
  destruct (bm_is_empty (fd_changed_lines diff)) eqn:Ee.
  { assert (bm_iter (fd_changed_lines diff) = []) as ->.
    { unfold bm_is_empty, bm_len in Ee. apply Z.eqb_eq in Ee. apply length_zero_iff_nil. lia. }
    destruct (files cov !! fd_path diff); simpl; by rewrite !Z.add_0_r. }
  destruct (files cov !! fd_path diff) as [fc|].
  - by rewrite !bm_len_and, !Zplus_mod_idemp_l.
  - unfold bm_len. rewrite Zplus_mod_idemp_l. f_equal.
    assert (filter (λ _ : Z, false = true) (bm_iter (fd_changed_lines diff)) = []) as ->; [|simpl; by rewrite Z.add_0_r].
    generalize (bm_iter (fd_changed_lines diff)) as l. clear. induction l; [done|]. by rewrite filter_cons.
Qed.

Lemma compute_changed_coverage_spec cov diffs :
  (line_count (measured_lines cov) diffs <= u64_max)%Z → (line_count (hit_lines cov) diffs <= u64_max)%Z →
  compute_changed_coverage cov diffs =
  if (line_count (measured_lines cov) diffs =? 0)%Z then None
  else Some (percentage (line_count (hit_lines cov) diffs) (line_count (measured_lines cov) diffs)).
Proof.
  intros H1 H2. unfold compute_changed_coverage.
  pose proof (changed_coverage_fold cov diffs 0 0) as Hf. rewrite Z.mod_0_l, !Z.add_0_l in Hf by (unfold u64_max; lia).
  rewrite Hf. cbn [fst snd]. unfold line_count in *. by rewrite !Z.mod_small by lia.
Qed.

Definition count_of (s : Severity) (l : list Issue) : Z := Z.of_nat (length (filter (λ i, issue_severity i = s) l)).

Lemma count_of_cons s i l :
  count_of s (i :: l) = ((if decide (issue_severity i = s) then 1 else 0) + count_of s l)%Z.
Proof. unfold count_of. rewrite filter_cons. case_decide; simpl; lia. Qed.

Lemma count_of_total l : (count_of Error l + count_of Warning l + count_of Note l = Z.of_nat (length l))%Z.
Proof.
  induction l as [|i l IH]; [done|]. rewrite !count_of_cons. cbn [length].
  destruct (issue_severity i); repeat case_decide; try done; lia.
Qed.

Lemma count_issue_fold l a b c :
  let m := (u32_max + 1)%Z in
  foldl count_issue (a mod m, b mod m, c mod m)%Z l =
  ((a + count_of Error l) mod m, (b + count_of Warning l) mod m, (c + count_of Note l) mod m)%Z.
Proof.
  intros m. revert a b c. induction l as [|i l IH]; intros a b c.
  { unfold count_of. simpl. by rewrite !Z.add_0_r. }
  rewrite !count_of_cons, !Z.add_assoc, <- IH. cbn [foldl]. f_equal.
  unfold count_issue, wrapping_add. cbn [fst snd]. fold m.
  destruct (issue_severity i); repeat case_decide; try done; by rewrite !Zplus_mod_idemp_l, ?Z.add_0_r.
Qed.

Lemma evaluate_issue_gate_spec config d diffs :
  (changed_issue_count d diffs <= u32_max)%Z →
  let '(passed, violations, counts) := evaluate_issue_gate config d diffs in
  (passed = true ↔
     at_most (severity_count Error d diffs) (max_new_errors config) ∧
     at_most (severity_count Warning d diffs) (max_new_warnings config) ∧
     at_most (changed_issue_count d diffs) (max_new_issues config)) ∧
  (violations = [] ↔ passed = true).
Proof.
  unfold changed_issue_count, severity_count. intros Hmax. unfold evaluate_issue_gate.
  rewrite issues_on_changed_lines_spec. set (l := diffs ≫= _) in *.
  pose proof (count_issue_fold l 0 0 0) as Hf. cbv zeta in Hf.
  rewrite Z.mod_0_l, !Z.add_0_l in Hf by (unfold u32_max; lia). rewrite Hf. cbn [fst snd]. clear Hf.
  pose proof (count_of_total l) as Ht. fold (count_of Error l). fold (count_of Warning l).
  assert (0 <= count_of Error l ∧ 0 <= count_of Warning l ∧ 0 <= count_of Note l)%Z as (? & ? & ?)
    by (unfold count_of; lia).
  unfold wrapping_add. rewrite !(Z.mod_small (count_of _ _)) by (unfold u32_max in *; lia).
  rewrite (Z.mod_small (count_of Error l + count_of Warning l)) by (unfold u32_max in *; lia).
  rewrite Z.mod_small by (unfold u32_max in *; lia). rewrite Ht.
  split.
  - rewrite (proj1 (check_limit_spec _ _ _ _ _)), (proj1 (check_limit_spec _ _ _ _ _)), (proj1 (check_limit_spec _ _ _ _ _)).
    simpl. tauto.
  - rewrite !(proj1 (check_limit_spec _ _ _ _ _)), !(proj2 (check_limit_spec _ _ _ _ _)). simpl. tauto.
Qed.
End GateSpec.

(** the full gate passes exactly when every configured coverage threshold that has
    a measured value is met and, when diagnostics are given, the numbers of errors,
    warnings and issues on changed lines stay within their limits; it lists violations
    exactly when it fails. *)
Theorem evaluate_full_gate_correct {B} `{Bitmap B} (config : GateConfig) (cov : CoverageData B)
    (diag : option DiagnosticsData) (diffs : list (FileDiff B)) :
  (∀ d, diag = Some d → changed_issue_count d diffs <= u32_max)%Z →
  let r := evaluate_full_gate config cov diag diffs in
  (gate_passed r = true ↔
     meets (fail_under_total config) (total_coverage_pct cov) ∧
     meets (fail_under_changed config) (compute_changed_coverage cov diffs) ∧
     meets (fail_under_new config) (compute_new_file_coverage cov diffs) ∧
     ∀ d, diag = Some d →
       at_most (severity_count Error d diffs) (max_new_errors (gate_issues config)) ∧
       at_most (severity_count Warning d diffs) (max_new_warnings (gate_issues config)) ∧
       at_most (changed_issue_count d diffs) (max_new_issues (gate_issues config))) ∧
  (gate_violations r = [] ↔ gate_passed r = true).
Proof.
  intros Hmax r.
  assert (Hcov : (gate_passed (evaluate_gate config cov diffs) = true ↔
      meets (fail_under_total config) (total_coverage_pct cov) ∧
      meets (fail_under_changed config) (compute_changed_coverage cov diffs) ∧
      meets (fail_under_new config) (compute_new_file_coverage cov diffs)) ∧
      (gate_violations (evaluate_gate config cov diffs) = [] ↔ gate_passed (evaluate_gate config cov diffs) = true)).
  { unfold evaluate_gate. cbn [gate_passed gate_violations].
    rewrite !(proj1 (check_coverage_spec _ _ _ _)), !(proj2 (check_coverage_spec _ _ _ _)). simpl. tauto. }
  destruct Hcov as [Hp Hv]. subst r. unfold evaluate_full_gate. destruct diag as [d|].
  - pose proof (evaluate_issue_gate_spec (gate_issues config) d diffs (Hmax d eq_refl)) as Hi.
    destruct (evaluate_issue_gate (gate_issues config) d diffs) as [[ip iv] ic]. destruct Hi as [Hip Hiv].
    cbn [gate_passed gate_violations]. rewrite andb_true_iff, Hp, Hip. split.
    + split; [intros [? ?]; split_and!; try tauto; by intros ? [= <-]|].
      intros (? & ? & ? & Hd). specialize (Hd d eq_refl). tauto.
    + rewrite app_nil, Hv, Hiv, Hp, Hip. tauto.
  - rewrite Hp. split; [|by rewrite Hv, Hp]. split; [|tauto]. intros ?. split_and!; try tauto. done.
Qed.

Lemma evaluate_full_gate_correct_witness :
  let cfg := mkGateConfig (Some (f64_of_Z 80)) None None (mkIssueGateConfig (Some 0%Z) None None) in
  let cov : CoverageData (gset Z) := mkCoverageData ∅ None 0 in
  gate_violations (evaluate_full_gate cfg cov None []) = [] ↔ gate_passed (evaluate_full_gate cfg cov None []) = true.
Proof.
  intros cfg cov. apply (evaluate_full_gate_correct cfg cov None []). intros d. discriminate.
Defined.

(** The changed-line coverage is the percentage of measured changed lines that ran:
    measured are the changed lines of files still present that are instrumented, or all
    changed lines of a file without coverage data. It is absent exactly when nothing is
    measured, and never above 100 per cent when covered lines are instrumented. *)
Theorem changed_coverage_correct {B} `{Bitmap B} (cov : CoverageData B) (diffs : list (FileDiff B)) :
  (line_count (measured_lines cov) diffs <= u64_max)%Z →
  (∀ p x, covered_at cov p x = true → instrumented_at cov p x = true) →
  (0 <= line_count (hit_lines cov) diffs <= line_count (measured_lines cov) diffs)%Z ∧
  compute_changed_coverage cov diffs =
  if (line_count (measured_lines cov) diffs =? 0)%Z then None
  else Some (percentage (line_count (hit_lines cov) diffs) (line_count (measured_lines cov) diffs)).
Proof.
  intros Hmax Hinst.
  assert (line_count (hit_lines cov) diffs <= line_count (measured_lines cov) diffs)%Z as Hle.
  { unfold line_count. apply inj_le. induction diffs as [|diff diffs IH]; [done|].
    rewrite !bind_cons, !length_app. apply Nat.add_le_mono; [|apply IH; clear -Hmax; unfold line_count in *;
      rewrite bind_cons, length_app in Hmax; lia].
    unfold hit_lines, measured_lines. case_decide; [done|].
    apply submseteq_length, NoDup_submseteq; [apply NoDup_filter, bm_iter_NoDup|].
    intros x [Hx Hin]%list_elem_of_filter. pose proof (Hinst _ _ Hx) as Hi. unfold instrumented_at in Hi.
    destruct (files cov !! fd_path diff); [by apply list_elem_of_filter|done]. }
  split; [unfold line_count in *; lia|]. apply compute_changed_coverage_spec; [done|lia].
Qed.

Lemma changed_coverage_correct_witness :
  let cov : CoverageData (gset Z) := mkCoverageData ∅ None 0 in
  let diffs := [mkFileDiff "a.rs" None Modified ({[3%Z; 4%Z]} : gset Z)] in
  compute_changed_coverage cov diffs = Some (percentage 0 2).
Proof.
  intros cov diffs. destruct (changed_coverage_correct cov diffs) as [_ E]; [vm_compute; discriminate| |exact E].
  intros p x Hx. vm_compute in Hx. discriminate.
Defined.

