(* ===== verification/Diff.v ===== *)
(** * Unified diffs

    Models [parse_diff_output] and [parse_hunk_header] of
    [src/crates/diffy-core/src/diff.rs], which read the output of
    [git diff --unified=0].  Running git and the diff cache are not modelled. *)

From S2P Require Export Coverage.

(** ** The parser *)

(** [rest[..rest.find(c).unwrap_or(rest.len())]]. *)
Definition before (c : ascii) (s : string) : string :=
  match split_once c s with Some (l, _) => l | None => s end.

(** [&line[line.find('+').unwrap_or(0) + 1..]]. *)
Definition after_plus (line : string) : string :=
  match split_once "+" line with
  | Some (_, r) => r
  | None => match line with String _ r => r | EmptyString => EmptyString end
  end.

Definition parse_hunk_header (line : string) : option (Z * Z) :=
  let range_str := before " " (after_plus line) in
  match split_once "," range_str with
  | Some (l, r) =>
      start ← parse_u32 l;
      count ← parse_u32 r;
      if (count =? 0)%Z then None
      else Some (start, wrapping_sub u32_max (wrapping_add u32_max start count) 1)
  | None =>
      start ← parse_u32 range_str;
      Some (start, start)
  end.

(** [lo..=hi]. *)
Definition inclusive_range (lo hi : Z) : list Z := seqZ lo (hi - lo + 1).

Section Diff.
Context {B : Type} `{Bitmap B}.

(** The local variables of [parse_diff_output]. *)
Record DiffState : Type := mkDiffState {
  ds_diffs : list (FileDiff B);
  ds_path : option string;
  ds_old_path : option string;
  ds_status : DiffStatus;
  ds_lines : B
}.

Definition initial_diff_state : DiffState :=
  {| ds_diffs := []; ds_path := None; ds_old_path := None; ds_status := Modified; ds_lines := bm_new |}.

(** What the state holds of the current file. *)
Definition current_file (st : DiffState) : list (FileDiff B) :=
  match ds_path st with
  | Some path => [mkFileDiff path (ds_old_path st) (ds_status st) (ds_lines st)]
  | None => []
  end.

(** One line of the text. *)
Definition diff_line (st : DiffState) (line : string) : DiffState :=
  if starts_with "diff --git" line then
    {| ds_diffs := ds_diffs st ++ current_file st; ds_path := None; ds_old_path := None;
       ds_status := Modified;
       ds_lines := match ds_path st with Some _ => bm_new | None => ds_lines st end |}
  else
    match strip_prefix "+++ b/" line with
    | Some stripped =>
        {| ds_diffs := ds_diffs st; ds_path := Some stripped; ds_old_path := ds_old_path st;
           ds_status := ds_status st; ds_lines := ds_lines st |}
    | None =>
        if starts_with "+++ /dev/null" line then st
        else if starts_with "new file" line then
          {| ds_diffs := ds_diffs st; ds_path := ds_path st; ds_old_path := ds_old_path st;
             ds_status := Added; ds_lines := ds_lines st |}
        else
          match strip_prefix "rename from " line with
          | Some stripped =>
              {| ds_diffs := ds_diffs st; ds_path := ds_path st; ds_old_path := Some stripped;
                 ds_status := Renamed; ds_lines := ds_lines st |}
          | None =>
              if starts_with "@@" line then
                match parse_hunk_header line with
                | Some (lo, hi) =>
                    {| ds_diffs := ds_diffs st; ds_path := ds_path st; ds_old_path := ds_old_path st;
                       ds_status := ds_status st;
                       ds_lines := bm_insert_list (inclusive_range lo hi) (ds_lines st) |}
                | None => st
                end
              else st
          end
    end.

Definition parse_diff_output (diff_text : string) : list (FileDiff B) :=
  let st := foldl diff_line initial_diff_state (lines diff_text) in
  ds_diffs st ++ current_file st.
End Diff.
Arguments DiffState : clear implicits.

(** ** The text git prints *)

(** A hunk: the old range, the new range, the section heading git may append,
    and the body lines. *)
Record Hunk : Type := mkHunk {
  hk_old : Z * Z;
  hk_new : Z * Z;
  hk_section : string;
  hk_body : list string
}.

(** What [--diff-filter=ACMR] lets through: the new file's mode, or the old name
    and the similarity. *)
Inductive GitStatus : Type :=
| GitAdded (mode : string)
| GitModified
| GitRenamed (from : string) (similarity : Z)
| GitCopied (from : string) (similarity : Z).

Inductive GitContent : Type := Binary | Text (hunks : list Hunk).

(** One file of a diff.  [gf_modes] is a change of mode; [gf_index] is what the
    [index] line says, which git prints when the two blobs differ.  A file whose
    text does not change (a pure rename or copy, a change of mode, a new empty
    file) has no hunks. *)
Record GitFile : Type := mkGitFile {
  gf_path : string;
  gf_status : GitStatus;
  gf_modes : option (string * string);
  gf_index : option string;
  gf_content : GitContent
}.

(** [start,count], the count left out when it is 1. *)
Definition render_range (r : Z * Z) : string :=
  if decide (r.2 = 1%Z) then show_uint r.1 else show_uint r.1 +:+ "," +:+ show_uint r.2.

Definition hunk_header (h : Hunk) : string :=
  "@@ -" +:+ render_range (hk_old h) +:+ " +" +:+ render_range (hk_new h) +:+ " @@" +:+ hk_section h.

Definition render_hunk (h : Hunk) : list string := hunk_header h :: hk_body h.

(** Git's quoting of names ([core.quotePath], on by default): a name with a
    control character, a quote, a backslash or a byte that is not ASCII is
    printed between quotes, those bytes as C escapes. *)
Definition needs_escape (c : ascii) : bool :=
  let n := chr c in ((n <? 32) || (127 <=? n) || (n =? 34) || (n =? 92))%N.

Definition octal_digit (n : N) : ascii := ascii_of_N (48 + n mod 8).

Definition escape_char (c : ascii) : string :=
  let n := chr c in
  let letter a := String "\" (String a EmptyString) in
  if needs_escape c then
    match n with
    | 7 => letter "a"%char | 8 => letter "b"%char | 9 => letter "t"%char | 10 => letter "n"%char
    | 11 => letter "v"%char | 12 => letter "f"%char | 13 => letter "r"%char
    | 34 | 92 => letter c
    | _ => String "\" (String (octal_digit (n / 64))
             (String (octal_digit (n / 8)) (String (octal_digit n) EmptyString)))
    end%N
  else String c EmptyString.

Fixpoint escape (s : string) : string :=
  match s with EmptyString => EmptyString | String c s => escape_char c +:+ escape s end.

Definition quoted (s : string) : bool := existsb needs_escape (str_bytes s).
Definition quote : string := String "034" EmptyString.

Definition quote_name (prefix s : string) : string :=
  if quoted s then quote +:+ prefix +:+ escape s +:+ quote else prefix +:+ s.

(** A label with a space in it is ended by a tab. *)
Definition has_space (s : string) : bool := existsb (λ c, bool_decide (c = " "%char)) (str_bytes s).
Definition tab_end (s : string) : string := if has_space s then String "009" EmptyString else EmptyString.
Definition label (prefix s : string) : string := quote_name prefix s +:+ tab_end s.

Definition old_path (f : GitFile) : string :=
  match gf_status f with GitRenamed from _ | GitCopied from _ => from | _ => gf_path f end.

Definition render_status (f : GitFile) : list string :=
  match gf_status f with
  | GitAdded mode => ["new file mode " +:+ mode]
  | _ => match gf_modes f with Some (o, n) => ["old mode " +:+ o; "new mode " +:+ n] | None => [] end
  end ++
  match gf_status f with
  | GitRenamed from n =>
      ["similarity index " +:+ show_uint n +:+ "%"; "rename from " +:+ quote_name "" from;
       "rename to " +:+ quote_name "" (gf_path f)]
  | GitCopied from n =>
      ["similarity index " +:+ show_uint n +:+ "%"; "copy from " +:+ quote_name "" from;
       "copy to " +:+ quote_name "" (gf_path f)]
  | _ => []
  end ++
  match gf_index f with Some ids => ["index " +:+ ids] | None => [] end.

Definition old_label (f : GitFile) : string :=
  match gf_status f with GitAdded _ => "/dev/null" | _ => label "a/" (old_path f) end.

Definition render_content (f : GitFile) : list string :=
  match gf_content f with
  | Binary =>
      ["Binary files " +:+ match gf_status f with GitAdded _ => "/dev/null" | _ => quote_name "a/" (old_path f) end
       +:+ " and " +:+ quote_name "b/" (gf_path f) +:+ " differ"]
  | Text [] => []
  | Text hunks => ("--- " +:+ old_label f) :: ("+++ " +:+ label "b/" (gf_path f)) :: (hunks ≫= render_hunk)
  end.

Definition render_file (f : GitFile) : list string :=
  ("diff --git " +:+ quote_name "a/" (old_path f) +:+ " " +:+ quote_name "b/" (gf_path f))
    :: render_status f ++ render_content f.

(** A text that is one line. *)
Definition one_line (s : string) : Prop := newline ∉ str_bytes s.

(** A line of a hunk's body: an added, a removed or the no-newline line, and
    not one the parser takes for a file header. *)
Definition body_line_ok (l : string) : bool :=
  (starts_with "+" l || starts_with "-" l || starts_with "\" l)
  && match strip_prefix "+++ b/" l with Some _ => false | None => true end.

Definition hunk_ok (h : Hunk) : Prop :=
  (0 <= (hk_new h).1)%Z ∧ (0 <= (hk_new h).2)%Z ∧ ((hk_new h).1 + (hk_new h).2 <= u32_max)%Z ∧
  one_line (hk_section h) ∧
  Forall (λ l, one_line l ∧ body_line_ok l = true) (hk_body h).

#[export] Instance hunk_ok_dec h : Decision (hunk_ok h).
Proof. unfold hunk_ok, one_line. apply _. Defined.

Definition gf_hunks (f : GitFile) : list Hunk :=
  match gf_content f with Text hunks => hunks | Binary => [] end.

Definition git_file_ok (f : GitFile) : Prop :=
  Forall hunk_ok (gf_hunks f) ∧
  (∀ mode, gf_status f = GitAdded mode → one_line mode) ∧
  (∀ o n, gf_modes f = Some (o, n) → one_line o ∧ one_line n) ∧
  (∀ ids, gf_index f = Some ids → one_line ids).

(** The lines a hunk adds. *)
Definition hunk_lines (h : Hunk) : list Z := seqZ (hk_new h).1 (hk_new h).2.
Definition added_lines (f : GitFile) : list Z := gf_hunks f ≫= hunk_lines.

(** The name in a [+++ b/] line of the file, when it has one: it has changed
    text and its name is not quoted. *)
Definition reported_path (f : GitFile) : option string :=
  match gf_hunks f with
  | [] => None
  | _ => if quoted (gf_path f) then None else Some (gf_path f +:+ tab_end (gf_path f))
  end.

Definition reported_old (f : GitFile) : option string :=
  match gf_status f with GitRenamed from _ => Some (quote_name "" from) | _ => None end.

Definition reported_status (f : GitFile) : DiffStatus :=
  match gf_status f with
  | GitAdded _ => Added
  | GitRenamed _ _ => Renamed
  | GitModified | GitCopied _ _ => Modified
  end.

(** A file whose names git prints as they are, with nothing after them. *)
Definition plain_names (f : GitFile) : Prop :=
  quoted (gf_path f) = false ∧ has_space (gf_path f) = false ∧
  ∀ from n, gf_status f = GitRenamed from n → quoted from = false.

(** ** Lines and names *)

Lemma string_app_nil_r (s : string) : s +:+ EmptyString = s.
Proof. induction s as [|c s IH]; [done|]. change (String c (s +:+ EmptyString) = String c s). by rewrite IH. Qed.

Lemma one_line_app a b : one_line (a +:+ b) ↔ one_line a ∧ one_line b.
Proof. unfold one_line. rewrite str_bytes_app, elem_of_app. tauto. Qed.

Lemma one_line_strip s : one_line s → one_line (strip_carriage s).
Proof. destruct (strip_carriage_cases s) as [<-|E]; [done|]. rewrite E at 1. by intros [? _]%one_line_app. Qed.

Definition printable (s : string) : Prop := Forall (λ c, (32 <= chr c)%N) (str_bytes s).

Lemma printable_app a b : printable (a +:+ b) ↔ printable a ∧ printable b.
Proof. unfold printable. by rewrite str_bytes_app, Forall_app. Qed.

Lemma escape_char_printable c : printable (escape_char c).
Proof.
  apply (bool_decide_unpack _).
  destruct c as [[] [] [] [] [] [] [] []]; vm_compute; exact I.
Qed.

Lemma escape_printable s : printable (escape s).
Proof.
  induction s as [|c s IH]; [by constructor|]. cbn [escape]. apply printable_app. auto using escape_char_printable.
Qed.

Lemma quote_name_printable p s : printable p → printable (quote_name p s).
Proof.
  intros Hp. unfold quote_name. destruct (quoted s) eqn:E.
  - repeat (apply printable_app; split); [by repeat constructor|done|apply escape_printable|by repeat constructor].
  - apply printable_app. split; [done|]. apply Forall_forall. intros c Hc.
    destruct (decide (32 <= chr c)%N); [done|]. exfalso. unfold quoted in E.
    assert (existsb needs_escape (str_bytes s) = true); [|congruence].
    apply existsb_exists. exists c. rewrite <- list_elem_of_In. split; [done|]. unfold needs_escape.
    assert (chr c <? 32 = true)%N as -> by (apply N.ltb_lt; lia). done.
Qed.

Lemma printable_one_line s : printable s → one_line s.
Proof. unfold printable, one_line. rewrite Forall_forall. intros Hs Hin. by apply Hs in Hin. Qed.

Lemma printable_carriage s : printable s → strip_carriage s = s.
Proof. unfold printable. rewrite Forall_forall. intros Hs. apply strip_carriage_id. intros Hin. by apply Hs in Hin. Qed.

Lemma show_uint_printable n : printable (show_uint n).
Proof.
  destruct (show_uint_digits n) as [Hd _]. eapply Forall_impl; [exact Hd|].
  intros c. simpl. destruct c as [[] [] [] [] [] [] [] []]; vm_compute; congruence.
Qed.

Lemma tab_end_cases s : tab_end s = EmptyString ∨ tab_end s = String "009" EmptyString.
Proof. unfold tab_end. destruct (has_space s); auto. Qed.

Lemma label_one_line p s : printable p → one_line (label p s).
Proof.
  intros Hp. apply one_line_app. split; [by apply printable_one_line, quote_name_printable|].
  destruct (tab_end_cases s) as [->| ->]; vm_compute; [apply not_elem_of_nil|]. intros Hin. by apply list_elem_of_singleton in Hin.
Qed.

Lemma label_carriage p s : printable p → strip_carriage (label p s) = label p s.
Proof.
  intros Hp. unfold label. rewrite strip_carriage_app by (by apply printable_carriage, quote_name_printable).
  by destruct (tab_end_cases s) as [->| ->].
Qed.

Lemma strip_header h :
  strip_carriage (hunk_header h) =
  hunk_header (mkHunk (hk_old h) (hk_new h) (strip_carriage (hk_section h)) (hk_body h)).
Proof.
  unfold hunk_header. cbn [hk_old hk_new hk_section].
  rewrite strip_carriage_app by done. f_equal. rewrite strip_carriage_tail by (by destruct (render_range (hk_old h))).
  f_equal. rewrite strip_carriage_app by done. f_equal. rewrite strip_carriage_tail by done. f_equal.
  by rewrite strip_carriage_app.
Qed.

Lemma strip_hunk_ok h :
  hunk_ok h → hunk_ok (mkHunk (hk_old h) (hk_new h) (strip_carriage (hk_section h)) (hk_body h)).
Proof. intros (? & ? & ? & ? & ?). split_and!; simpl; auto using one_line_strip. Qed.

(** The header, status and label lines, and those of the hunks, are lines. *)
#[local] Ltac lines_of_names :=
  repeat first
    [ apply label_one_line | apply printable_one_line, quote_name_printable | apply one_line_app; split
    | apply printable_one_line, show_uint_printable | apply (bool_decide_unpack _); vm_compute; exact I
    | done ].

Lemma range_one_line r : one_line (render_range r).
Proof. unfold render_range. case_decide; lines_of_names. Qed.

Lemma render_hunk_lines h : hunk_ok h → Forall one_line (render_hunk h).
Proof.
  intros (_ & _ & _ & Hs & Hb). constructor.
  - unfold hunk_header. repeat (apply one_line_app; split); try apply range_one_line; lines_of_names.
  - eapply Forall_impl; [exact Hb|]. by intros s [].
Qed.

Lemma render_status_lines f : git_file_ok f → Forall one_line (render_status f).
Proof.
  intros (_ & Hm & Ho & Hi). unfold render_status. rewrite !Forall_app. split_and!.
  - destruct (gf_status f) as [mode| |from n|from n].
    1: { constructor; [|constructor]. apply one_line_app. split; [lines_of_names|by apply Hm]. }
    all: destruct (gf_modes f) as [[o n']|]; [|constructor]; destruct (Ho o n' eq_refl);
      repeat constructor; lines_of_names.
  - destruct (gf_status f); repeat constructor; lines_of_names.
  - destruct (gf_index f) as [ids|]; [|constructor]. specialize (Hi ids eq_refl). repeat constructor; lines_of_names.
Qed.

Lemma render_file_lines f : git_file_ok f → Forall one_line (render_file f).
Proof.
  intros Hok. unfold render_file. constructor; [lines_of_names|]. apply Forall_app. split; [by apply render_status_lines|].
  destruct Hok as (Hh & _). unfold render_content, gf_hunks, old_label in *.
  destruct (gf_content f) as [|[|h hs]]; [|constructor|].
  - constructor; [|constructor]. destruct (gf_status f); lines_of_names.
  - constructor; [destruct (gf_status f); lines_of_names|]. constructor; [lines_of_names|].
    apply Forall_bind. eapply Forall_impl; [exact Hh|]. apply render_hunk_lines.
Qed.

(** ** What the parser makes of it *)

Section RoundTrip.
Context {B : Type} `{Bitmap B}.
Implicit Types (st : DiffState B) (f : GitFile) (h : Hunk) (l : list string).

Definition add_lines (ls : list Z) (st : DiffState B) : DiffState B :=
  {| ds_diffs := ds_diffs st; ds_path := ds_path st; ds_old_path := ds_old_path st;
     ds_status := ds_status st; ds_lines := bm_insert_list ls (ds_lines st) |}.

Lemma add_lines_nil st : add_lines [] st = st.
Proof. by destruct st. Qed.

Lemma add_lines_app ls ls' st : add_lines ls' (add_lines ls st) = add_lines (ls ++ ls') st.
Proof. unfold add_lines, bm_insert_list. simpl. by rewrite foldl_app. Qed.

(** A number and a character that is no digit. *)
Lemma range_no_char r c : is_digit c = false → c ≠ ","%char → c ∉ str_bytes (render_range r).
Proof.
  intros Hd Hc. unfold render_range. case_decide; [by apply show_uint_no_char|].
  rewrite !str_bytes_app, !elem_of_app. simpl. intros [Hin|[Hin|Hin]].
  - by apply (show_uint_no_char r.1 c).
  - by apply list_elem_of_singleton in Hin.
  - by apply (show_uint_no_char r.2 c).
Qed.

Lemma parse_header_spec h :
  hunk_ok h →
  parse_hunk_header (hunk_header h)
  = if ((hk_new h).2 =? 0)%Z then None else Some ((hk_new h).1, ((hk_new h).1 + (hk_new h).2 - 1)%Z).
Proof.
  intros (Hs0 & Hc0 & Hmax & _). unfold parse_hunk_header, after_plus, hunk_header.
  set (rest := render_range (hk_new h) +:+ " @@" +:+ hk_section h).
  assert (("@@ -" +:+ render_range (hk_old h) +:+ " +" +:+ rest : string) =
    ("@@ -" +:+ render_range (hk_old h) +:+ " ") +:+ String "+" rest) as ->
    by (rewrite <- !str_app_assoc; done).
  rewrite split_once_here.
  2: { rewrite !str_bytes_app, !elem_of_app. simpl. intros [Hin|[Hin|Hin]]; [set_solver| |set_solver].
       by apply (range_no_char (hk_old h) "+"%char) in Hin. }
  unfold before, rest.
  assert ((render_range (hk_new h) +:+ " @@" +:+ hk_section h : string) =
    render_range (hk_new h) +:+ String " " ("@@" +:+ hk_section h)) as -> by done.
  rewrite split_once_here by (by apply range_no_char).
  destruct (hk_new h) as [s c]. simpl in *. unfold render_range. simpl. case_decide as Hc.
  - subst c. rewrite split_once_none by (by apply show_uint_no_char).
    unfold parse_u32. rewrite parse_show_uint by (unfold fits; lia). simpl. do 2 f_equal. lia.
  - change (show_uint s +:+ "," +:+ show_uint c) with (show_uint s +:+ String "," (show_uint c)).
    rewrite split_once_here by (by apply show_uint_no_char).
    unfold parse_u32. rewrite !parse_show_uint by (unfold fits; lia). simpl. case_match; [done|]. reflect_bool.
    rewrite wrapping_add_exact by (unfold fits; lia). by rewrite wrapping_sub_exact by (unfold fits; lia).
Qed.

(** What the parser's loop does with lines of the text, which [lines] hands over
    without a carriage return at their end. *)
Definition feed (st : DiffState B) (l : list string) : DiffState B := foldl diff_line st (strip_carriage <$> l).

Lemma feed_cons st s l : feed st (s :: l) = feed (diff_line st (strip_carriage s)) l.
Proof. done. Qed.

Lemma feed_app st l k : feed st (l ++ k) = feed (feed st l) k.
Proof. unfold feed. by rewrite fmap_app, foldl_app. Qed.

(** A line with a first word the parser does not know. *)
Lemma feed_ignored p s st l :
  (∀ st s, diff_line st (p +:+ s) = st) → strip_carriage p = p → feed st ((p +:+ s) :: l) = feed st l.
Proof. intros Hi Hp. by rewrite feed_cons, strip_carriage_app, Hi. Qed.

Lemma body_line_skipped st s : body_line_ok s = true → diff_line st (strip_carriage s) = st.
Proof.
  unfold body_line_ok. intros [Hs Hp]%andb_true_iff. unfold diff_line.
  assert (strip_prefix "+++ b/" (strip_carriage s) = None) as ->.
  { destruct (strip_prefix "+++ b/" (strip_carriage s)) as [r|] eqn:E; [|done]. exfalso.
    apply strip_prefix_Some in E. destruct (strip_carriage_cases s) as [E'|E']; rewrite E', E in Hp.
    - by rewrite strip_prefix_app in Hp.
    - by rewrite <- str_app_assoc, strip_prefix_app in Hp. }
  assert (∃ r, strip_carriage s = "+" +:+ r ∨ strip_carriage s = "-" +:+ r ∨ strip_carriage s = "\" +:+ r) as (r & Hr).
  { apply orb_true_iff in Hs as [[Hs|Hs]%orb_true_iff|Hs]; apply starts_with_Some in Hs as [r ->];
      rewrite strip_carriage_app by done; eauto. }
  unfold starts_with. destruct Hr as [->|[->| ->]]; by destruct (strip_prefix "+++ /dev/null" _).
Qed.

Lemma body_skipped st l : Forall (λ s, one_line s ∧ body_line_ok s = true) l → feed st l = st.
Proof. induction 1 as [|s l [_ Hs] _ IH]; [done|]. by rewrite feed_cons, body_line_skipped. Qed.

Lemma hunk_parsed st h : hunk_ok h → feed st (render_hunk h) = add_lines (hunk_lines h) st.
Proof.
  intros Hok. unfold render_hunk. rewrite feed_cons, body_skipped by apply Hok.
  rewrite strip_header. set (h' := mkHunk _ _ _ _).
  pose proof (parse_header_spec h' (strip_hunk_ok h Hok)) as Hp. destruct Hok as (Hs0 & Hc0 & _).
  unfold diff_line. unfold starts_with.
  set (hd := hunk_header h') in *. change (strip_prefix "diff --git" hd) with (@None string).
  change (strip_prefix "+++ b/" hd) with (@None string). change (strip_prefix "+++ /dev/null" hd) with (@None string).
  change (strip_prefix "new file" hd) with (@None string). change (strip_prefix "rename from " hd) with (@None string).
  assert (∃ r, strip_prefix "@@" hd = Some r) as [r ->] by (eexists; reflexivity). cbv iota. rewrite Hp.
  unfold hunk_lines. subst h'. cbn [hk_new]. destruct ((hk_new h).2 =? 0)%Z eqn:E; reflect_bool.
  - rewrite E. simpl. by rewrite add_lines_nil.
  - unfold add_lines, inclusive_range.
    by replace ((hk_new h).1 + (hk_new h).2 - 1 - (hk_new h).1 + 1)%Z with (hk_new h).2 by lia.
Qed.

Lemma hunks_parsed st hs :
  Forall hunk_ok hs → feed st (hs ≫= render_hunk) = add_lines (hs ≫= hunk_lines) st.
Proof.
  intros Hok. revert st. induction Hok as [|h hs Hh _ IH]; intros st; [by rewrite add_lines_nil|].
  rewrite !bind_cons, feed_app, hunk_parsed, IH by done. apply add_lines_app.
Qed.

(** What the parser makes of the files when [pending] lines are left over from
    files it does not report: such a file's lines stay in [current_lines], so the
    next reported file gets them. *)
Fixpoint reported (pending : list Z) (fs : list GitFile) : list (FileDiff B) :=
  match fs with
  | [] => []
  | f :: fs =>
      match reported_path f with
      | Some path =>
          {| fd_path := path; fd_old_path := reported_old f; fd_status := reported_status f;
             fd_changed_lines := bm_insert_list (pending ++ added_lines f) bm_new |} :: reported [] fs
      | None => reported (pending ++ added_lines f) fs
      end
  end.

(** What it should report for a file with changed text. *)
Definition expected_diff (f : GitFile) : FileDiff B :=
  {| fd_path := gf_path f;
     fd_old_path := match gf_status f with GitRenamed from _ => Some from | _ => None end;
     fd_status := reported_status f;
     fd_changed_lines := bm_insert_list (added_lines f) bm_new |}.

(** Between two files the parser carries the lines of those it will not report. *)
Definition carries (st : DiffState B) (pending : list Z) : Prop :=
  match ds_path st with
  | Some _ => pending = []
  | None => ds_lines st = bm_insert_list pending bm_new
  end.

Lemma header_parsed st pending s :
  carries st pending →
  diff_line st (strip_carriage ("diff --git " +:+ s)) =
  mkDiffState (ds_diffs st ++ current_file st) None None Modified (bm_insert_list pending bm_new).
Proof.
  intros Hc. rewrite strip_carriage_app by done. unfold diff_line, carries in *.
  change ("diff --git " +:+ strip_carriage s) with ("diff --git" +:+ String " " (strip_carriage s)).
  rewrite starts_with_app. f_equal. destruct (ds_path st); [by subst|done].
Qed.

Lemma status_parsed f d b :
  feed (mkDiffState d None None Modified b) (render_status f) =
  mkDiffState d None (reported_old f) (reported_status f) b.
Proof.
  assert (∀ l l', (∀ st, feed st l' = st) → ∀ st, feed st (l ++ l') = feed st l) as Hend.
  { intros l l' Hl st. by rewrite feed_app, Hl. }
  unfold render_status, reported_old, reported_status. rewrite app_assoc, Hend.
  2: { intros st. destruct (gf_index f); [|done]. by rewrite feed_ignored. }
  destruct (gf_status f) as [mode| |from n|from n]; rewrite feed_app.
  1: { unfold feed. cbn [fmap list_fmap foldl]. by rewrite strip_carriage_app. }
  all: assert (∀ st, feed st (match gf_modes f with Some (o, n) => ["old mode " +:+ o; "new mode " +:+ n] | None => [] end) = st)
      as -> by (intros st; destruct (gf_modes f) as [[o n']|]; [|done]; by rewrite 2!feed_ignored).
  - done.
  - rewrite feed_ignored, feed_cons by done. rewrite feed_ignored by done.
    rewrite strip_carriage_app, (printable_carriage (quote_name _ _)) by (done || by apply quote_name_printable, Forall_nil). unfold diff_line.
    by rewrite strip_prefix_app.
  - by rewrite 3!feed_ignored.
Qed.

Lemma plus_line_parsed st f :
  gf_hunks f ≠ [] → ds_path st = None →
  diff_line st (strip_carriage ("+++ " +:+ label "b/" (gf_path f))) =
  mkDiffState (ds_diffs st) (reported_path f) (ds_old_path st) (ds_status st) (ds_lines st).
Proof.
  intros Hh Hp. rewrite strip_carriage_app, label_carriage by (done || by repeat constructor).
  unfold reported_path, label, quote_name. destruct (gf_hunks f); [done|]. destruct (quoted (gf_path f)).
  - by destruct st; simpl in *; subst.
  - unfold diff_line. rewrite <- (str_app_assoc "b/"), (str_app_assoc "+++ ").
    change ("+++ " +:+ "b/") with "+++ b/". by rewrite strip_prefix_app.
Qed.

Lemma content_parsed f d b :
  Forall hunk_ok (gf_hunks f) →
  feed (mkDiffState d None (reported_old f) (reported_status f) b) (render_content f) =
  mkDiffState d (reported_path f) (reported_old f) (reported_status f) (bm_insert_list (added_lines f) b).
Proof.
  intros Hh. unfold added_lines. destruct (gf_hunks f) as [|h hs] eqn:E.
  - unfold reported_path. rewrite E. unfold render_content. unfold gf_hunks in E.
    destruct (gf_content f) as [|hs]; [by rewrite feed_ignored|by subst].
  - unfold render_content. unfold gf_hunks in E. destruct (gf_content f) as [|hs'] eqn:Ec; [done|subst hs'].
    rewrite feed_ignored, feed_cons, hunks_parsed, plus_line_parsed by (try done; unfold gf_hunks; by rewrite Ec).
    done.
Qed.

Lemma file_parsed st pending f :
  git_file_ok f → carries st pending →
  feed st (render_file f) =
  mkDiffState (ds_diffs st ++ current_file st) (reported_path f) (reported_old f) (reported_status f)
    (bm_insert_list (pending ++ added_lines f) bm_new).
Proof.
  intros [Hh _] Hc. unfold render_file. rewrite feed_cons, (header_parsed _ pending), feed_app, status_parsed, content_parsed by done.
  f_equal. unfold bm_insert_list. by rewrite foldl_app.
Qed.

Lemma files_parsed fs st pending :
  Forall git_file_ok fs → carries st pending →
  let st' := feed st (fs ≫= render_file) in
  ds_diffs st' ++ current_file st' = ds_diffs st ++ current_file st ++ reported pending fs.
Proof.
  intros Hok. revert st pending. induction Hok as [|f fs Hf _ IH]; intros st pending Hc; [by rewrite app_nil_r|].
  cbv zeta in *. rewrite bind_cons, feed_app, (file_parsed st pending f Hf Hc). cbn [reported].
  destruct (reported_path f) as [path|].
  - rewrite (IH _ []) by done. simpl. by rewrite <- !app_assoc.
  - rewrite (IH _ (pending ++ added_lines f)) by done. simpl. by rewrite <- !app_assoc.
Qed.

Lemma reported_plain fs :
  Forall plain_names fs → reported [] fs = expected_diff <$> filter (λ f, gf_hunks f ≠ []) fs.
Proof.
  induction 1 as [|f fs (Hq & Hs & Ho) _ IH]; [done|]. cbn [reported]. unfold reported_path.
  destruct (gf_hunks f) as [|h hs] eqn:E.
  - rewrite filter_cons_False by (rewrite E; auto). rewrite <- IH. unfold added_lines. by rewrite E.
  - rewrite filter_cons_True by (by rewrite E). rewrite Hq, fmap_cons, <- IH. f_equal. unfold expected_diff.
    f_equal.
    + unfold tab_end. rewrite Hs. apply string_app_nil_r.
    + unfold reported_old. destruct (gf_status f) as [| |from n|] eqn:Est; try done.
      unfold quote_name. by rewrite (Ho from n).
Qed.
End RoundTrip.

(** C37: what the parser makes of the text git prints, by default, for added, modified,
    renamed and copied files, whose body lines do not look like a '+++ b/' header: it
    reports, in order, the files with changed text whose name git does not quote, each
    with its name (and the tab git ends a name with a space by), its old name as git
    prints it, its status and the new-side lines of its hunks, together with the lines
    of the files before it that it did not report. New empty files, pure renames and
    copies, mode changes, binary files and quoted names are not reported, and the lines
    of a file with a quoted name go to the next one reported. When all names are plain,
    that is one exact record for each file with changed text, a copied file being
    reported as modified. *)
Theorem parse_diff_output_correct {B} `{Bitmap B} (fs : list GitFile) :
  Forall git_file_ok fs →
  parse_diff_output (unlines (fs ≫= render_file)) = (reported [] fs : list (FileDiff B)) ∧
  (Forall plain_names fs → reported [] fs = (expected_diff <$> filter (λ f, gf_hunks f ≠ []) fs : list (FileDiff B))).
Proof.
  intros Hok. split; [|apply reported_plain].
  unfold parse_diff_output. rewrite lines_unlines_any.
  2: { apply Forall_bind. eapply Forall_impl; [done|]. apply render_file_lines. }
  pose proof (files_parsed fs initial_diff_state [] Hok) as Hf. simpl in Hf. by apply Hf.
Qed.

Lemma parse_diff_output_correct_witness :
  let text name st := mkGitFile name st None (Some "257cc56..e69de29 100644")
    (Text [mkHunk (1, 1)%Z (1, 2)%Z " fn main() {" ["-a"; "+b"; "+c"]]) in
  let fs := [mkGitFile "empty" (GitAdded "100644") None (Some "0000000..e69de29") (Text []);
             text "x.rs" GitModified; text "a b.rs" (GitRenamed "o.rs" 90)] in
  (fd_path <$> (parse_diff_output (unlines (fs ≫= render_file)) : list (FileDiff (gset Z))))
  = ["x.rs"; "a b.rs" +:+ String "009" EmptyString].
Proof.
  intros text fs.
  assert (Forall git_file_ok fs) as Hok.
  { apply Forall_cons_2; [|apply Forall_cons_2; [|apply Forall_cons_2; [|apply Forall_nil_2]]].
    all: split; [apply (bool_decide_unpack _); vm_compute; exact I|].
    all: split; [intros mode E|split; [intros o n E; discriminate E|intros ids E; injection E as <-]].
    1: injection E as <-. 3,5: discriminate E.
    all: apply (bool_decide_unpack _); vm_compute; exact I. }
  destruct (parse_diff_output_correct (B := gset Z) fs Hok) as [E _]. rewrite E. reflexivity.
Defined.

(** An added line whose content starts with '++ b/' reads as a file header: the
    changed lines of notes.md are reported for the path the line names. *)
Theorem diff_body_redirects_path :
  let f := mkGitFile "notes.md" GitModified None (Some "257cc56..e69de29 100644")
             (Text [mkHunk (3, 1)%Z (3, 1)%Z "" ["-old"; "+++ b/other.rs"]]) in
  let d : list (FileDiff (gset Z)) := parse_diff_output (unlines (render_file f)) in
  (fd_path <$> d) = ["other.rs"].
Proof. vm_compute. reflexivity. Qed.
