(* ===== verification/LcovFormat.v ===== *)
(** * LCOV reports

    Models [src/crates/covy-ingest/src/lcov.rs]: the tolerant line parser for
    LCOV traces, on text that is already valid UTF-8. *)

From S2P Require Export Coverage.

Inductive CovyError : Type :=
| EmptyInput (path : string)
| Parse (format detail : string).

Definition parse_da_record (record : string) : option (Z * Z) :=
  let fields := splitn 3 "," record in
  line ← fields !! 0;
  line ← parse_u32 line;
  count ← fields !! 1;
  Some (line, default 0%Z (parse_u64 count)).

Definition parse_brda_record (record : string) : option (Z * Z * Z) :=
  let fields := splitn 4 "," record in
  line ← fields !! 0;
  line ← parse_u32 line;
  block ← fields !! 1;
  block ← parse_u32 block;
  _ ← fields !! 2;
  taken ← fields !! 3;
  Some (line, block, default 0%Z (parse_u64 taken)).

Definition parse_fnda_record (record : string) : option (string * Z) :=
  let fields := splitn 2 "," record in
  count ← fields !! 0;
  name ← fields !! 1;
  Some (name, default 0%Z (parse_u64 count)).

Section Lcov.
Context {B : Type} `{Bitmap B}.

Definition record_da (fc : FileCoverage B) (line_no count : Z) : FileCoverage B :=
  {| lines_covered := if (0 <? count)%Z then bm_insert line_no (lines_covered fc) else lines_covered fc;
     lines_instrumented := bm_insert line_no (lines_instrumented fc);
     branches := branches fc; functions := functions fc |}.

Definition record_brda (fc : FileCoverage B) (line_no block taken : Z) : FileCoverage B :=
  {| lines_covered := lines_covered fc; lines_instrumented := lines_instrumented fc;
     branches := <[(line_no, block) := taken]> (branches fc); functions := functions fc |}.

Definition record_fnda (fc : FileCoverage B) (name : string) (count : Z) : FileCoverage B :=
  {| lines_covered := lines_covered fc; lines_instrumented := lines_instrumented fc;
     branches := branches fc; functions := <[name := count]> (functions fc) |}.

(** The local variables of [parse_lcov]: the files so far, the current file
    and its coverage. *)
Record LcovState : Type := mkLcovState {
  lc_files : gmap string (FileCoverage B);
  lc_file : option string;
  lc_coverage : FileCoverage B
}.

Definition set_coverage (st : LcovState) (fc : FileCoverage B) : LcovState :=
  {| lc_files := lc_files st; lc_file := lc_file st; lc_coverage := fc |}.

(** One line of the text. *)
Definition lcov_line (st : LcovState) (line : string) : LcovState :=
  let line := trim line in
  if decide (line = EmptyString) then st
  else
    match strip_prefix "SF:" line with
    | Some path => {| lc_files := lc_files st; lc_file := Some path; lc_coverage := file_coverage_new |}
    | None =>
        match strip_prefix "DA:" line with
        | Some stripped =>
            match parse_da_record stripped with
            | Some (line_no, count) => set_coverage st (record_da (lc_coverage st) line_no count)
            | None => st
            end
        | None =>
            match strip_prefix "BRDA:" line with
            | Some stripped =>
                match parse_brda_record stripped with
                | Some (line_no, block, taken) => set_coverage st (record_brda (lc_coverage st) line_no block taken)
                | None => st
                end
            | None =>
                if starts_with "FN:" line then st
                else
                  match strip_prefix "FNDA:" line with
                  | Some stripped =>
                      match parse_fnda_record stripped with
                      | Some (name, count) => set_coverage st (record_fnda (lc_coverage st) name count)
                      | None => st
                      end
                  | None =>
                      if decide (line = "end_of_record") then
                        match lc_file st with
                        | Some path =>
                            {| lc_files := merge_file (lc_files st) path (lc_coverage st);
                               lc_file := None; lc_coverage := file_coverage_new |}
                        | None => st
                        end
                      else st
                  end
            end
        end
    end.

Definition parse_lcov (now : Z) (text : string) : result CovyError (CoverageData B) :=
  let trimmed := trim text in
  if decide (trimmed = EmptyString) then Err (EmptyInput "(lcov input)")
  else if negb (contains "SF:" trimmed) then
    if starts_with "<" trimmed then
      Err (Parse "lcov" (str_of_bytes (str_bytes "Input looks like XML " ++ ["226"; "128"; "148"]%char)
                           +:+ " did you mean --format cobertura or --format jacoco?"))
    else Err (Parse "lcov" "No SF: (source file) lines found")
  else
    let st := foldl lcov_line (mkLcovState ∅ None file_coverage_new) (lines text) in
    Ok {| files := lc_files st; format := Some Lcov; timestamp := now |}.
End Lcov.
Arguments LcovState : clear implicits.

(** ** Traces *)

(** The records of one source file: [DA] lines with their counts, [BRDA] and
    [FNDA] records, and the summary lines a tool adds. *)
Record TraceFile : Type := mkTraceFile {
  tf_path : string;
  tf_da : list (Z * Z);
  tf_brda : list (Z * Z * Z * Z);
  tf_fnda : list (string * Z)
}.

Definition render_da (r : Z * Z) : string := "DA:" +:+ show_uint r.1 +:+ "," +:+ show_uint r.2.
Definition render_brda (r : Z * Z * Z * Z) : string :=
  let '(line, block, branch, taken) := r in
  "BRDA:" +:+ show_uint line +:+ "," +:+ show_uint block +:+ "," +:+ show_uint branch +:+ "," +:+ show_uint taken.
Definition render_fnda (r : string * Z) : string := "FNDA:" +:+ show_uint r.2 +:+ "," +:+ r.1.

Definition render_trace (t : TraceFile) : list string :=
  ["TN:"; "SF:" +:+ tf_path t] ++ (render_fnda <$> tf_fnda t) ++ (render_brda <$> tf_brda t)
    ++ (render_da <$> tf_da t) ++ ["end_of_record"].

(** A line that trimming leaves alone. *)
Definition trimmed (s : string) : Prop := trim s = s.

Definition trace_ok (t : TraceFile) : Prop :=
  trimmed ("SF:" +:+ tf_path t) ∧
  Forall (λ r, fits u32_max r.1 ∧ fits u64_max r.2) (tf_da t) ∧
  Forall (λ '(line, block, _, taken), fits u32_max line ∧ fits u32_max block ∧ fits u64_max taken) (tf_brda t) ∧
  Forall (λ r, trimmed (render_fnda r) ∧ fits u64_max r.2) (tf_fnda t).

(** ** The parser on a trace *)

Section RoundTrip.
Context {B : Type} `{Bitmap B}.
Implicit Types (st : LcovState B) (t : TraceFile) (fc : FileCoverage B).

Lemma trimmed_da r : trimmed (render_da r).
Proof.
  unfold trimmed, render_da. rewrite !str_app_assoc.
  destruct (last_show_uint (("DA:" +:+ show_uint r.1) +:+ ",") r.2) as (d & Hl & Hd).
  by apply (trim_visible _ "D" d).
Qed.

Lemma trimmed_brda r : trimmed (render_brda r).
Proof.
  destruct r as [[[line block] branch] taken]. unfold trimmed, render_brda. rewrite !str_app_assoc.
  destruct (last_show_uint (((((("BRDA:" +:+ show_uint line) +:+ ",") +:+ show_uint block) +:+ ",")
    +:+ show_uint branch) +:+ ",") taken) as (d & Hl & Hd).
  by apply (trim_visible _ "B" d).
Qed.

Lemma split_show n s : split_once "," (show_uint n +:+ "," +:+ s) = Some (show_uint n, s).
Proof. change ("," +:+ s) with (String "," s). apply split_once_here. by apply show_uint_no_char. Qed.

Lemma show_no_comma n : split_once "," (show_uint n) = None.
Proof. apply split_once_none. by apply show_uint_no_char. Qed.

Lemma parse_da_spec r :
  fits u32_max r.1 → fits u64_max r.2 → parse_da_record (show_uint r.1 +:+ "," +:+ show_uint r.2) = Some r.
Proof.
  intros H1 H2. unfold parse_da_record. cbn [splitn]. rewrite split_show. cbn [splitn]. rewrite show_no_comma.
  simpl. unfold parse_u32, parse_u64. rewrite !parse_show_uint by done. simpl. by destruct r.
Qed.

Lemma parse_brda_spec line block branch taken :
  fits u32_max line → fits u32_max block → fits u64_max taken →
  parse_brda_record (show_uint line +:+ "," +:+ show_uint block +:+ "," +:+ show_uint branch +:+ "," +:+ show_uint taken)
  = Some (line, block, taken).
Proof.
  intros H1 H2 H3. unfold parse_brda_record. cbn [splitn]. rewrite !split_show.
  simpl. unfold parse_u32, parse_u64. by rewrite !parse_show_uint.
Qed.

Lemma parse_fnda_spec r : fits u64_max r.2 → parse_fnda_record (show_uint r.2 +:+ "," +:+ r.1) = Some r.
Proof.
  intros H1. unfold parse_fnda_record. cbn [splitn]. rewrite split_show.
  simpl. unfold parse_u64. rewrite parse_show_uint by done. by destruct r.
Qed.

Lemma da_line st r :
  fits u32_max r.1 → fits u64_max r.2 →
  lcov_line st (render_da r) = set_coverage st (record_da (lc_coverage st) r.1 r.2).
Proof.
  intros H1 H2. unfold lcov_line. rewrite (trimmed_da r : trim _ = _).
  rewrite decide_False by done. unfold render_da. rewrite strip_prefix_app, parse_da_spec by done.
  change (strip_prefix "SF:" ("DA:" +:+ show_uint r.1 +:+ "," +:+ show_uint r.2)) with (@None string).
  by destruct r.
Qed.

Lemma brda_line st line block branch taken :
  fits u32_max line → fits u32_max block → fits u64_max taken →
  lcov_line st (render_brda (line, block, branch, taken))
  = set_coverage st (record_brda (lc_coverage st) line block taken).
Proof.
  intros H1 H2 H3. unfold lcov_line. rewrite (trimmed_brda _ : trim _ = _).
  rewrite decide_False by done. unfold render_brda.
  set (s := show_uint line +:+ _). change (strip_prefix "SF:" ("BRDA:" +:+ s)) with (@None string).
  change (strip_prefix "DA:" ("BRDA:" +:+ s)) with (@None string). rewrite strip_prefix_app.
  unfold s. by rewrite parse_brda_spec.
Qed.

Lemma fnda_line st r :
  trimmed (render_fnda r) → fits u64_max r.2 →
  lcov_line st (render_fnda r) = set_coverage st (record_fnda (lc_coverage st) r.1 r.2).
Proof.
  intros Ht H2. unfold lcov_line. rewrite (Ht : trim _ = _).
  rewrite decide_False by done. unfold render_fnda.
  set (s := show_uint r.2 +:+ _). change (strip_prefix "SF:" ("FNDA:" +:+ s)) with (@None string).
  change (strip_prefix "DA:" ("FNDA:" +:+ s)) with (@None string).
  change (strip_prefix "BRDA:" ("FNDA:" +:+ s)) with (@None string).
  change (starts_with "FN:" ("FNDA:" +:+ s)) with false. rewrite strip_prefix_app.
  unfold s. rewrite parse_fnda_spec by done. by destruct r.
Qed.

Definition fold_da fc (l : list (Z * Z)) : FileCoverage B := foldl (λ fc r, record_da fc r.1 r.2) fc l.
Definition fold_brda fc (l : list (Z * Z * Z * Z)) : FileCoverage B :=
  foldl (λ fc r, record_brda fc r.1.1.1 r.1.1.2 r.2) fc l.
Definition fold_fnda fc (l : list (string * Z)) : FileCoverage B := foldl (λ fc r, record_fnda fc r.1 r.2) fc l.

(** The coverage of one section. *)
Definition trace_coverage (t : TraceFile) : FileCoverage B :=
  fold_da (fold_brda (fold_fnda file_coverage_new (tf_fnda t)) (tf_brda t)) (tf_da t).

Lemma trace_parsed m fc t :
  trace_ok t →
  foldl lcov_line (mkLcovState m None fc) (render_trace t) =
  mkLcovState (merge_file m (tf_path t) (trace_coverage t)) None file_coverage_new.
Proof.
  intros (Hsf & Hda & Hbrda & Hfnda). unfold render_trace, trace_coverage. cbn [app foldl].
  change (lcov_line (mkLcovState m None fc) "TN:") with (mkLcovState m None fc).
  assert (lcov_line (mkLcovState m None fc) ("SF:" +:+ tf_path t) = mkLcovState m (Some (tf_path t)) file_coverage_new) as ->.
  { unfold lcov_line. rewrite (Hsf : trim _ = _), decide_False by done. by rewrite strip_prefix_app. }
  rewrite !foldl_app, !foldl_fmap.
  assert (∀ st, foldl (λ st r, lcov_line st (render_fnda r)) st (tf_fnda t) = set_coverage st (fold_fnda (lc_coverage st) (tf_fnda t))) as ->.
  { clear -Hfnda. induction Hfnda as [|r l [Ht H2] _ IH]; intros st; simpl; [by destruct st|].
    rewrite fnda_line, IH by done. done. }
  assert (∀ st, foldl (λ st r, lcov_line st (render_brda r)) st (tf_brda t) = set_coverage st (fold_brda (lc_coverage st) (tf_brda t))) as ->.
  { clear -Hbrda. induction Hbrda as [|[[[line block] branch] taken] l (? & ? & ?) _ IH]; intros st; cbn [foldl]; [by destruct st|].
    rewrite brda_line, IH by done. done. }
  assert (∀ st, foldl (λ st r, lcov_line st (render_da r)) st (tf_da t) = set_coverage st (fold_da (lc_coverage st) (tf_da t))) as ->.
  { clear -Hda. induction Hda as [|r l [H1 H2] _ IH]; intros st; simpl; [by destruct st|].
    rewrite da_line, IH by done. done. }
  reflexivity.
Qed.
End RoundTrip.

Section Traces.
Context {B : Type} `{Bitmap B}.
Implicit Types (t : TraceFile) (ts : list TraceFile) (m : gmap string (FileCoverage B)) (fc : FileCoverage B).

Definition merge_traces m ts : gmap string (FileCoverage B) :=
  foldl (λ m t, merge_file m (tf_path t) (trace_coverage t)) m ts.

Lemma traces_parsed m ts :
  Forall trace_ok ts →
  foldl lcov_line (mkLcovState m None file_coverage_new) (ts ≫= render_trace) =
  mkLcovState (merge_traces m ts) None file_coverage_new.
Proof.
  intros Hok. revert m. induction Hok as [|t ts Ht _ IH]; intros m; [done|].
  rewrite bind_cons, foldl_app, trace_parsed, IH by done. done.
Qed.

(** The text starts with [TN:], ends with [end_of_record] and names a file. *)
Lemma traces_trim ts :
  ts ≠ [] → ∃ X, trim (unlines (ts ≫= render_trace)) = X ∧ X ≠ EmptyString ∧ contains "SF:" X = true.
Proof.
  intros Hne. destruct ts as [|t ts] using rev_ind; [done|]. clear IHts.
  assert (Hrt : ∀ t, ∃ r, render_trace t = "TN:" :: ("SF:" +:+ tf_path t) :: r ++ ["end_of_record"]).
  { intros t'. eexists. unfold render_trace. rewrite !app_assoc. cbn [app]. reflexivity. }
  assert (∃ p Z, (ts ++ [t]) ≫= render_trace = "TN:" :: ("SF:" +:+ p) :: Z ++ ["end_of_record"]) as (p & Z & ->).
  { rewrite bind_app. change ([t] ≫= render_trace) with (render_trace t ++ []).
    destruct (Hrt t) as [r ->]. rewrite app_nil_r. destruct ts as [|t0 ts]; [by exists (tf_path t), r|].
    destruct (Hrt t0) as [r0 Hr0]. rewrite bind_cons, Hr0.
    exists (tf_path t0), ((r0 ++ ["end_of_record"]) ++ (ts ≫= render_trace) ++ "TN:" :: ("SF:" +:+ tf_path t) :: r).
    cbn [app]. rewrite <- !app_assoc. done. }
  assert (∃ Y, unlines ("TN:" :: ("SF:" +:+ p) :: Z ++ ["end_of_record"]) =
    ("TN:" +:+ String newline "") +:+ "SF:" +:+ Y +:+ "end_of_record" +:+ String newline "") as [Y ->].
  { exists (p +:+ String newline "" +:+ unlines Z). rewrite 2!unlines_cons, unlines_app.
    change (unlines ["end_of_record"]) with ("end_of_record" +:+ String newline ""). by rewrite !str_app_assoc. }
  exists (("TN:" +:+ String newline "") +:+ "SF:" +:+ Y +:+ "end_of_record"). split_and!.
  - rewrite !str_app_assoc. apply (trim_newline _ "T" "d"); [done| |done..].
    rewrite !str_bytes_app, last_app. done.
  - done.
  - apply contains_app.
Qed.

Lemma fold_fnda_lines fc l :
  lines_covered (fold_fnda fc l) = lines_covered fc ∧ lines_instrumented (fold_fnda fc l) = lines_instrumented fc.
Proof. unfold fold_fnda. revert fc. induction l as [|r l IH]; intros fc; simpl; [done|]. by destruct (IH (record_fnda fc r.1 r.2)) as [-> ->]. Qed.

Lemma fold_brda_lines fc l :
  lines_covered (fold_brda fc l) = lines_covered fc ∧ lines_instrumented (fold_brda fc l) = lines_instrumented fc ∧
  functions (fold_brda fc l) = functions fc.
Proof.
  unfold fold_brda. revert fc. induction l as [|r l IH]; intros fc; simpl; [done|].
  by destruct (IH (record_brda fc r.1.1.1 r.1.1.2 r.2)) as (-> & -> & ->).
Qed.

Lemma fold_da_lines fc l n :
  (bm_contains (lines_covered (fold_da fc l)) n = true ↔
     bm_contains (lines_covered fc) n = true ∨ ∃ c, (n, c) ∈ l ∧ (0 < c)%Z) ∧
  (bm_contains (lines_instrumented (fold_da fc l)) n = true ↔
     bm_contains (lines_instrumented fc) n = true ∨ ∃ c, (n, c) ∈ l).
Proof.
  unfold fold_da. revert fc. induction l as [|[x c] l IH]; intros fc; cbn [foldl].
  { split; split; [by left|intros [?|(c & ?%elem_of_nil & _)]; done|by left|intros [?|(c & ?%elem_of_nil)]; done]. }
  destruct (IH (record_da fc x c)) as [-> ->]. simpl. setoid_rewrite elem_of_cons. split.
  - destruct (0 <? c)%Z eqn:E; reflect_bool; [rewrite bm_contains_insert, orb_true_iff, bool_decide_eq_true|].
    + naive_solver.
    + split; [naive_solver|]. intros [?|(c' & [[= -> ->]|?] & ?)]; [by left|lia|right; eauto].
  - rewrite bm_contains_insert, orb_true_iff, bool_decide_eq_true. naive_solver.
Qed.

Lemma trace_coverage_lines t n :
  (bm_contains (lines_covered (trace_coverage t)) n = true ↔ ∃ c, (n, c) ∈ tf_da t ∧ (0 < c)%Z) ∧
  (bm_contains (lines_instrumented (trace_coverage t)) n = true ↔ ∃ c, (n, c) ∈ tf_da t).
Proof.
  unfold trace_coverage. destruct (fold_da_lines (fold_brda (fold_fnda file_coverage_new (tf_fnda t)) (tf_brda t)) (tf_da t) n) as [-> ->].
  destruct (fold_brda_lines (fold_fnda file_coverage_new (tf_fnda t)) (tf_brda t)) as (-> & -> & _).
  destruct (fold_fnda_lines file_coverage_new (tf_fnda t)) as [-> ->]. simpl. rewrite !bm_contains_new. naive_solver.
Qed.

Lemma exists_trace_cons t ts (P : TraceFile → Z → Prop) :
  (∃ t' c, t' ∈ t :: ts ∧ P t' c) ↔ (∃ c, P t c) ∨ ∃ t' c, t' ∈ ts ∧ P t' c.
Proof. setoid_rewrite elem_of_cons. naive_solver. Qed.

Lemma exists_and_true {A} (Q : Prop) (P : A → Prop) : Q → (∃ a, Q ∧ P a) ↔ ∃ a, P a.
Proof. naive_solver. Qed.

Lemma exists_and_false {A} (Q : Prop) (P : A → Prop) : ¬ Q → (∃ a, Q ∧ P a) ↔ False.
Proof. naive_solver. Qed.

Lemma merge_traces_lines m ts p n now fmt :
  let before := mkCoverageData m fmt now in
  let after := mkCoverageData (merge_traces m ts) fmt now in
  (covered_at after p n = true ↔ covered_at before p n = true ∨
     ∃ t c, t ∈ ts ∧ tf_path t = p ∧ (n, c) ∈ tf_da t ∧ (0 < c)%Z) ∧
  (instrumented_at after p n = true ↔ instrumented_at before p n = true ∨
     ∃ t c, t ∈ ts ∧ tf_path t = p ∧ (n, c) ∈ tf_da t).
Proof.
  unfold merge_traces, covered_at, instrumented_at. cbn [files]. revert m. induction ts as [|t ts IH]; intros m; cbn [foldl].
  { split; split; [by left|intros [?|(t & c & ?%elem_of_nil & _)]; done|by left|intros [?|(t & c & ?%elem_of_nil & _)]; done]. }
  destruct (IH (merge_file m (tf_path t) (trace_coverage t))) as [-> ->].
  rewrite !(exists_trace_cons t ts). destruct (trace_coverage_lines t n) as [Hc Hi]. unfold merge_file.
  destruct (decide (tf_path t = p)) as [<-|Hne].
  - rewrite lookup_insert_eq. simpl. rewrite !bm_contains_or, !orb_true_iff, Hc, Hi.
    rewrite !(exists_and_true (A:=Z) (tf_path t = tf_path t)) by done.
    destruct (m !! tf_path t); simpl; rewrite ?bm_contains_new; (split; [tauto|]).
    all: intuition done.
  - rewrite lookup_insert_ne by done. rewrite !(exists_and_false (A:=Z) (tf_path t = p)) by done.
    destruct (m !! p); tauto.
Qed.
End Traces.

(** C38: on a rendered LCOV trace the parser succeeds, and a line of a file is
    instrumented exactly when a DA record of one of the file's sections names it,
    covered exactly when one of them has a positive count. *)
Theorem parse_lcov_correct {B} `{Bitmap B} (now : Z) (ts : list TraceFile) :
  ts ≠ [] → Forall trace_ok ts → Forall line_ok (ts ≫= render_trace) →
  ∃ cd : CoverageData B, parse_lcov now (unlines (ts ≫= render_trace)) = Ok cd ∧
    format cd = Some Lcov ∧
    (∀ p n, covered_at cd p n = true ↔ ∃ t c, t ∈ ts ∧ tf_path t = p ∧ (n, c) ∈ tf_da t ∧ (0 < c)%Z) ∧
    (∀ p n, instrumented_at cd p n = true ↔ ∃ t c, t ∈ ts ∧ tf_path t = p ∧ (n, c) ∈ tf_da t).
Proof.
  intros Hne Hok Hl. unfold parse_lcov. destruct (traces_trim ts Hne) as (X & -> & HX & Hsf).
  rewrite decide_False, Hsf by done. cbn [negb]. rewrite lines_unlines, traces_parsed by done.
  exists (mkCoverageData (merge_traces ∅ ts) (Some Lcov) now). split; [done|]. split; [done|]. split; intros p n.
  - rewrite (proj1 (merge_traces_lines ∅ ts p n now (Some Lcov))). unfold covered_at. simpl. rewrite lookup_empty. naive_solver.
  - rewrite (proj2 (merge_traces_lines ∅ ts p n now (Some Lcov))). unfold instrumented_at. simpl. rewrite lookup_empty. naive_solver.
Qed.

Lemma parse_lcov_correct_witness :
  let t := mkTraceFile "src/a.rs" [(1, 2); (2, 0)]%Z [(1, 0, 0, 1)]%Z [("main", 2%Z)] in
  ∃ cd : CoverageData (gset Z), parse_lcov 0 (unlines (render_trace t ++ [])) = Ok cd ∧ format cd = Some Lcov.
Proof.
  intros t. destruct (parse_lcov_correct (B := gset Z) 0 [t]) as (cd & E & F & _); [discriminate| | |exists cd; split; [exact E|exact F]].
  - constructor; [|constructor]. split_and!; [vm_compute; reflexivity|..]; repeat constructor; vm_compute; done.
  - apply (bool_decide_unpack _). vm_compute. exact I.
Defined.

