(* ===== verification/RegistryDelta.v ===== *)
(** * RegistryDelta: atomic mutations of the task and watch registries

    Models the batches of [src/crates/packet28-daemon-core/src/storage/registry_delta.rs]:
    how a batch is assembled, validated, applied and coalesced with a later
    one, and the relationship check of [storage.rs] between the registries.
    The fields of the records that this code does not read are a parameter. *)

From S2P Require Export Str.

(** ** Data *)

(** [BTreeMap] iteration: the entries in the order of their keys. *)
Definition btree_entries {A} (m : gmap string A) : list (string * A) :=
  sort_by (λ a b, str_leb a.1 b.1) (map_to_list m).
Definition btree_items (s : gset string) : list string := sort_by str_leb (elements s).

Section Records.
Context {TBody WBody : Type}.

Record TaskRecord : Type := mkTaskRecord {
  task_id : string;
  watch_ids : list string;
  task_body : TBody
}.

(** [watch_task_id] is [spec.task_id]. *)
Record WatchRegistration : Type := mkWatchRegistration {
  watch_id : string;
  watch_task_id : string;
  watch_body : WBody
}.

Record RegistryDeltaBatch : Type := mkRegistryDeltaBatch {
  task_upserts : gmap string TaskRecord;
  task_removals : gset string;
  watch_upserts : gmap string WatchRegistration;
  watch_upsert_order : list string;
  watch_removals : gset string
}.
End Records.
Arguments TaskRecord : clear implicits.
Arguments WatchRegistration : clear implicits.
Arguments RegistryDeltaBatch : clear implicits.

Inductive RegistryDeltaValidationError : Type :=
| InvalidRevisionRange (first last : Z)
| TaskIdentifierMismatch (key record_id : string)
| WatchIdentifierMismatch (key record_id : string)
| EmptyTaskIdentifier
| EmptyWatchIdentifier
| ConflictingTaskMutation (id : string)
| InvalidWatchUpsertOrder
| UnknownOrderedWatchUpsert (id : string)
| DuplicateOrderedWatchUpsert (id : string)
| DuplicateWatchIdentifier (id : string).

(** The registries are the maps [gmap string (TaskRecord TBody)] and the lists
    [list (WatchRegistration WBody)]. *)

Section Batch.
Context {TBody WBody : Type}.
Local Abbreviation Task := (TaskRecord TBody).
Local Abbreviation Watch := (WatchRegistration WBody).
Local Abbreviation Tasks := (gmap string (TaskRecord TBody)).
Local Abbreviation Watches := (list (WatchRegistration WBody)).
Local Abbreviation Batch := (RegistryDeltaBatch TBody WBody).
Implicit Types (b : Batch) (tasks : Tasks) (watches : Watches).

(** ** Assembling a batch *)

Definition empty_batch : Batch := mkRegistryDeltaBatch ∅ ∅ ∅ [] ∅.

Definition upsert_task (b : Batch) (task : Task) : Batch :=
  {| task_upserts := <[task_id task := task]> (task_upserts b); task_removals := task_removals b ∖ {[task_id task]};
     watch_upserts := watch_upserts b; watch_upsert_order := watch_upsert_order b; watch_removals := watch_removals b |}.

Definition remove_task (b : Batch) (id : string) : Batch :=
  {| task_upserts := delete id (task_upserts b); task_removals := {[id]} ∪ task_removals b;
     watch_upserts := watch_upserts b; watch_upsert_order := watch_upsert_order b; watch_removals := watch_removals b |}.

Definition upsert_watch (b : Batch) (watch : Watch) : Batch :=
  {| task_upserts := task_upserts b; task_removals := task_removals b;
     watch_upserts := <[watch_id watch := watch]> (watch_upserts b);
     watch_upsert_order :=
       match watch_upserts b !! watch_id watch with
       | Some _ => watch_upsert_order b
       | None => watch_upsert_order b ++ [watch_id watch]
       end;
     watch_removals := watch_removals b |}.

Definition remove_watch (b : Batch) (id : string) : Batch :=
  {| task_upserts := task_upserts b; task_removals := task_removals b;
     watch_upserts := delete id (watch_upserts b);
     watch_upsert_order := filter (λ candidate, candidate ≠ id) (watch_upsert_order b);
     watch_removals := {[id]} ∪ watch_removals b |}.

(** ** Validation *)

Definition validate_task_identifier (id : string) : result RegistryDeltaValidationError () :=
  ensure (negb (is_blank id)) EmptyTaskIdentifier.
Definition validate_watch_identifier (id : string) : result RegistryDeltaValidationError () :=
  ensure (negb (is_blank id)) EmptyWatchIdentifier.

Definition validate_task_upsert (b : Batch) (entry : string * Task) : result RegistryDeltaValidationError () :=
  let '(id, task) := entry in
  validate_task_identifier id ;;
  ensure (bool_decide (task_id task = id)) (TaskIdentifierMismatch id (task_id task)) ;;
  ensure (bool_decide (id ∉ task_removals b)) (ConflictingTaskMutation id).

Definition validate_watch_upsert (entry : string * Watch) : result RegistryDeltaValidationError () :=
  let '(id, watch) := entry in
  validate_watch_identifier id ;;
  ensure (bool_decide (watch_id watch = id)) (WatchIdentifierMismatch id (watch_id watch)).

(** The loop over [watch_upsert_order]: the set [ordered] at its end. *)
Fixpoint validate_order (b : Batch) (ordered : gset string) (order : list string)
    : result RegistryDeltaValidationError (gset string) :=
  match order with
  | [] => Ok ordered
  | id :: order =>
      ensure (bool_decide (is_Some (watch_upserts b !! id))) (UnknownOrderedWatchUpsert id) ;;
      ensure (bool_decide (id ∉ ordered)) (DuplicateOrderedWatchUpsert id) ;;
      validate_order b ({[id]} ∪ ordered) order
  end.

Definition batch_validate (b : Batch) : result RegistryDeltaValidationError () :=
  for_each (validate_task_upsert b) (btree_entries (task_upserts b)) ;;
  for_each validate_task_identifier (btree_items (task_removals b)) ;;
  for_each validate_watch_upsert (btree_entries (watch_upserts b)) ;;
  ordered ← validate_order b ∅ (watch_upsert_order b);
  ensure (size ordered =? size (watch_upserts b))%nat InvalidWatchUpsertOrder ;;
  for_each validate_watch_identifier (btree_items (watch_removals b)).

(** ** Applying a batch *)

(** The loop that rejects duplicates: the set [admitted_watch_ids]. *)
Fixpoint admit_watches (admitted : gset string) (watches : Watches) : result RegistryDeltaValidationError () :=
  match watches with
  | [] => Ok ()
  | watch :: watches =>
      ensure (bool_decide (watch_id watch ∉ admitted)) (DuplicateWatchIdentifier (watch_id watch)) ;;
      admit_watches ({[watch_id watch]} ∪ admitted) watches
  end.

Definition apply_task_upserts (upserts : gmap string Task) (tasks : Tasks) : Tasks :=
  foldl (λ tasks entry, <[entry.1 := entry.2]> tasks) tasks (btree_entries upserts).

(** [watches.iter().enumerate().map(..).collect()]. *)
Definition watch_positions (watches : Watches) : gmap string nat :=
  foldl (λ m entry, <[watch_id entry.2 := entry.1]> m) ∅ (imap pair watches).

(** One turn of the loop over [watch_upsert_order].  The lookup of the upsert
    panics when it is missing, which validation has excluded. *)
Definition apply_watch_upsert (upserts : gmap string Watch) (st : Watches * gmap string nat) (id : string)
    : Watches * gmap string nat :=
  let '(watches, positions) := st in
  match upserts !! id with
  | None => st
  | Some watch =>
      match positions !! id with
      | Some position => (<[position := watch]> watches, positions)
      | None => (watches ++ [watch], <[id := length watches]> positions)
      end
  end.

Definition apply_to (b : Batch) (tasks : Tasks) (watches : Watches)
    : result RegistryDeltaValidationError (Tasks * Watches) :=
  batch_validate b ;;
  admit_watches ∅ watches ;;
  let tasks := foldl (λ tasks id, delete id tasks) tasks (btree_items (task_removals b)) in
  let tasks := apply_task_upserts (task_upserts b) tasks in
  let watches := filter (λ watch, watch_id watch ∉ watch_removals b) watches in
  Ok (tasks, (foldl (apply_watch_upsert (watch_upserts b)) (watches, watch_positions watches) (watch_upsert_order b)).1).

Definition preserves_authenticated_relationships (b : Batch) (tasks : Tasks) : bool :=
  bool_decide (task_removals b = ∅)
  && bool_decide (dom (watch_upserts b) = ∅) && bool_decide (watch_upsert_order b = [])
  && bool_decide (watch_removals b = ∅)
  && forallb (λ '(id, candidate),
       match tasks !! id with
       | Some current => bool_decide (watch_ids current = watch_ids candidate)
       | None => false
       end) (btree_entries (task_upserts b)).

(** The flag says that the relationships were kept. *)
Definition apply_to_authenticated (b : Batch) (tasks : Tasks) (watches : Watches)
    : result RegistryDeltaValidationError (bool * (Tasks * Watches)) :=
  batch_validate b ;;
  if preserves_authenticated_relationships b tasks then
    Ok (true, (apply_task_upserts (task_upserts b) tasks, watches))
  else
    applied ← apply_to b tasks watches;
    Ok (false, applied).

(** ** Coalescing *)

(** The loops of [merge_later_wins], one turn each. *)
Definition merge_task_removal (merged : Batch) (id : string) : Batch :=
  {| task_upserts := delete id (task_upserts merged); task_removals := {[id]} ∪ task_removals merged;
     watch_upserts := watch_upserts merged; watch_upsert_order := watch_upsert_order merged;
     watch_removals := watch_removals merged |}.

Definition merge_task_upsert (merged : Batch) (entry : string * Task) : Batch :=
  {| task_upserts := <[entry.1 := entry.2]> (task_upserts merged); task_removals := task_removals merged ∖ {[entry.1]};
     watch_upserts := watch_upserts merged; watch_upsert_order := watch_upsert_order merged;
     watch_removals := watch_removals merged |}.

Definition merge_watch_removal (merged : Batch) (id : string) : Batch :=
  {| task_upserts := task_upserts merged; task_removals := task_removals merged;
     watch_upserts := delete id (watch_upserts merged);
     watch_upsert_order := filter (λ candidate, candidate ≠ id) (watch_upsert_order merged);
     watch_removals := {[id]} ∪ watch_removals merged |}.

Definition merge_watch_upsert (later merged : Batch) (id : string) : result RegistryDeltaValidationError Batch :=
  watch ← ok_or (watch_upserts later !! id) (UnknownOrderedWatchUpsert id);
  let later_reinserts := bool_decide (id ∈ watch_removals later) in
  let already_upserted := bool_decide (is_Some (watch_upserts merged !! id)) in
  let already_removed := bool_decide (id ∈ watch_removals merged) in
  let removals := if later_reinserts then {[id]} ∪ watch_removals merged else watch_removals merged in
  let order :=
    if later_reinserts then filter (λ candidate, candidate ≠ id) (watch_upsert_order merged) ++ [id]
    else if already_removed && negb already_upserted then watch_upsert_order merged ++ [id]
    else if negb already_upserted then watch_upsert_order merged ++ [id]
    else watch_upsert_order merged in
  Ok {| task_upserts := task_upserts merged; task_removals := task_removals merged;
        watch_upserts := <[id := watch]> (watch_upserts merged); watch_upsert_order := order;
        watch_removals := removals |}.

Fixpoint merge_watch_upserts (later merged : Batch) (order : list string) : result RegistryDeltaValidationError Batch :=
  match order with
  | [] => Ok merged
  | id :: order => merged ← merge_watch_upsert later merged id; merge_watch_upserts later merged order
  end.

(** The batch after the call, when it succeeds. *)
Definition merge_later_wins (self later : Batch) : result RegistryDeltaValidationError Batch :=
  batch_validate self ;;
  batch_validate later ;;
  let merged := foldl merge_task_removal self (btree_items (task_removals later)) in
  let merged := foldl merge_task_upsert merged (btree_entries (task_upserts later)) in
  let merged := foldl merge_watch_removal merged (btree_items (watch_removals later)) in
  merged ← merge_watch_upserts later merged (watch_upsert_order later);
  batch_validate merged ;;
  Ok merged.

(** ** Relationships of the registries

    [validate_task_watch_registry_relationships]: every watch belongs to an
    existing task that lists it, and every listed watch exists and is owned
    by the task. The errors carry the fixed part of their message. *)

Definition own_watch (tasks : Tasks) (owners : gmap string string) (watch : Watch) : result string (gmap string string) :=
  ensure (negb (is_blank (watch_id watch))) "watch registry contains an empty watch identifier" ;;
  ensure (negb (is_blank (watch_task_id watch))) "watch has an empty task identifier" ;;
  ensure (bool_decide (is_Some (tasks !! watch_task_id watch))) "watch refers to missing task" ;;
  ensure (bool_decide (owners !! watch_id watch = None)) "watch identifier is duplicated" ;;
  Ok (<[watch_id watch := watch_task_id watch]> owners).

Fixpoint own_watches (tasks : Tasks) (owners : gmap string string) (watches : Watches)
    : result string (gmap string string) :=
  match watches with
  | [] => Ok owners
  | watch :: watches => owners ← own_watch tasks owners watch; own_watches tasks owners watches
  end.

Fixpoint check_listed (owners : gmap string string) (id : string) (seen : gset string) (listed : list string)
    : result string () :=
  match listed with
  | [] => Ok ()
  | watch :: listed =>
      ensure (bool_decide (watch ∉ seen)) "task repeats watch identifier" ;;
      match owners !! watch with
      | Some owner => ensure (bool_decide (owner = id)) "task lists watch owned by another task"
      | None => Err "task refers to missing watch"
      end ;;
      check_listed owners id ({[watch]} ∪ seen) listed
  end.

Definition validate_task_watch_registry_relationships (tasks : Tasks) (watches : Watches) : result string () :=
  owners ← own_watches tasks ∅ watches;
  for_each (λ '(id, task), check_listed owners id ∅ (watch_ids task)) (btree_entries tasks) ;;
  for_each (λ '(watch, id),
    ensure (match tasks !! id with Some task => bool_decide (watch ∈ watch_ids task) | None => false end)
      "watch is not listed by its task record") (btree_entries owners).
End Batch.
