(* ===== verification/RegistryDeltaSpec.v ===== *)
(** * RegistryDeltaSpec: what a batch does

    A batch stands for a sequence of mutations: applying the batch that the
    builders assemble runs the mutations in order, and coalescing two batches
    composes them.  The shortcut for relationship-neutral batches agrees with
    the full application. *)

From S2P Require Export RegistryDelta.

(** ** Iteration over ordered maps *)

Lemma elem_of_btree_entries {A} (m : gmap string A) e : e ∈ btree_entries m ↔ m !! e.1 = Some e.2.
Proof. unfold btree_entries. rewrite elem_of_sort_by. destruct e. apply elem_of_map_to_list. Qed.

Lemma btree_entries_lookup {A} (m : gmap string A) id v : (id, v) ∈ btree_entries m ↔ m !! id = Some v.
Proof. apply elem_of_btree_entries. Qed.

Lemma elem_of_btree_items (s : gset string) x : x ∈ btree_items s ↔ x ∈ s.
Proof. unfold btree_items. rewrite elem_of_sort_by. apply elem_of_elements. Qed.

Lemma btree_entries_keys {A} (m : gmap string A) : NoDup (btree_entries m).*1.
Proof.
  unfold btree_entries. assert ((sort_by (λ a b : string * A, str_leb a.1 b.1) (map_to_list m)).*1 ≡ₚ (map_to_list m).*1) as ->
    by (by rewrite sort_by_perm). apply NoDup_fst_map_to_list.
Qed.

(** Inserting every entry is the union of the maps. *)
Lemma foldl_insert {A} (es : list (string * A)) (m : gmap string A) :
  NoDup es.*1 → foldl (λ m e, <[e.1 := e.2]> m) m es = list_to_map es ∪ m.
Proof.
  revert m. induction es as [|[k v] es IH]; intros m Hnd; [cbn; by rewrite map_empty_union|].
  rewrite fmap_cons in Hnd. apply NoDup_cons in Hnd as [Hk Hnd]. cbn [foldl fst snd]. rewrite IH by done.
  rewrite <- insert_union_r by (by apply not_elem_of_list_to_map_1). by rewrite insert_union_l.
Qed.

Lemma foldl_btree_entries {A} (u m : gmap string A) :
  foldl (λ m e, <[e.1 := e.2]> m) m (btree_entries u) = u ∪ m.
Proof.
  rewrite foldl_insert by apply btree_entries_keys. f_equal.
  assert (list_to_map (btree_entries u) = list_to_map (M := gmap string A) (map_to_list u)) as ->; [|apply list_to_map_to_list].
  apply list_to_map_proper; [apply btree_entries_keys|apply sort_by_perm].
Qed.

Lemma foldl_delete {A} (ids : list string) (m : gmap string A) k :
  foldl (λ m id, delete id m) m ids !! k = if decide (k ∈ ids) then None else m !! k.
Proof.
  revert m. induction ids as [|id ids IH]; intros m; cbn [foldl].
  { by rewrite decide_False by apply not_elem_of_nil. }
  rewrite IH. destruct (decide (k = id)) as [->|Hne].
  - rewrite lookup_delete_eq. rewrite (decide_True (P := id ∈ id :: ids)) by left. by case_decide.
  - rewrite lookup_delete_ne by done. repeat case_decide; try done.
    + exfalso. naive_solver (by apply elem_of_cons; auto).
    + exfalso. match goal with H : k ∈ id :: ids |- _ => apply elem_of_cons in H as [|]; done end.
Qed.

Section Spec.
Context {TBody WBody : Type}.
Local Abbreviation Task := (TaskRecord TBody).
Local Abbreviation Watch := (WatchRegistration WBody).
Local Abbreviation Tasks := (gmap string (TaskRecord TBody)).
Local Abbreviation Watches := (list (WatchRegistration WBody)).
Local Abbreviation Batch := (RegistryDeltaBatch TBody WBody).
Implicit Types (b : Batch) (tasks : Tasks) (watches ws : Watches) (w x y : Watch).

(** ** Mutations, one at a time *)

Inductive Mutation : Type :=
| UpsertTask (task : Task)
| RemoveTask (id : string)
| UpsertWatch (watch : Watch)
| RemoveWatch (id : string).

(** Replace the watch in place, or append it. *)
Fixpoint put_watch w (ws : Watches) : Watches :=
  match ws with
  | [] => [w]
  | x :: ws => if decide (watch_id x = watch_id w) then w :: ws else x :: put_watch w ws
  end.

Definition drop_watch (id : string) (ws : Watches) : Watches := filter (λ w, watch_id w ≠ id) ws.

Definition run_mutation (s : Tasks * Watches) (m : Mutation) : Tasks * Watches :=
  match m with
  | UpsertTask task => (<[task_id task := task]> s.1, s.2)
  | RemoveTask id => (delete id s.1, s.2)
  | UpsertWatch watch => (s.1, put_watch watch s.2)
  | RemoveWatch id => (s.1, drop_watch id s.2)
  end.

Definition mutation_ok (m : Mutation) : Prop :=
  match m with
  | UpsertTask task => is_blank (task_id task) = false
  | UpsertWatch watch => is_blank (watch_id watch) = false
  | RemoveTask id | RemoveWatch id => is_blank id = false
  end.

Definition add_mutation b (m : Mutation) : Batch :=
  match m with
  | UpsertTask task => upsert_task b task
  | RemoveTask id => remove_task b id
  | UpsertWatch watch => upsert_watch b watch
  | RemoveWatch id => remove_watch b id
  end.

(** ** Valid batches *)

Record batch_wf b : Prop := {
  wf_task id t : task_upserts b !! id = Some t → is_blank id = false ∧ task_id t = id ∧ id ∉ task_removals b;
  wf_task_removal id : id ∈ task_removals b → is_blank id = false;
  wf_watch id w : watch_upserts b !! id = Some w → is_blank id = false ∧ watch_id w = id;
  wf_order_NoDup : NoDup (watch_upsert_order b);
  wf_order id : id ∈ watch_upsert_order b ↔ is_Some (watch_upserts b !! id);
  wf_watch_removal id : id ∈ watch_removals b → is_blank id = false
}.

Lemma validate_order_Ok b ordered order s :
  validate_order b ordered order = Ok s ↔
  (∀ id, id ∈ order → is_Some (watch_upserts b !! id) ∧ id ∉ ordered) ∧ NoDup order ∧ s = ordered ∪ list_to_set order.
Proof.
  revert ordered. induction order as [|id order IH]; intros ordered; cbn [validate_order].
  { split; [intros [= <-]|intros (_ & _ & ->)].
    - split; [by intros ? ?%elem_of_nil|]. split; [constructor|]. cbn. by rewrite (right_id_L ∅ (∪)).
    - cbn. by rewrite (right_id_L ∅ (∪)). }
  destruct (bool_decide (is_Some _)) eqn:E1; reflect_bool; cbn [ensure mbind result_bind].
  2: { split; [done|]. intros (H & _). destruct E1. by apply H; left. }
  destruct (bool_decide (id ∉ ordered)) eqn:E2; reflect_bool; cbn [ensure mbind result_bind].
  2: { split; [done|]. intros (H & _). destruct E2. by apply H; left. }
  rewrite IH, NoDup_cons. cbn [list_to_set]. rewrite (assoc_L (∪)), (comm_L (∪) ordered). split.
  - intros (H & Hnd & ->). split_and!; [|intros Hin; destruct (H id Hin) as [_ []]; by apply elem_of_union_l, elem_of_singleton|done|done].
    intros id' [->|Hin]%elem_of_cons; [done|]. destruct (H id' Hin) as [? Hn]. split; [done|].
    intros ?. apply Hn. by apply elem_of_union_r.
  - intros (H & (Hid & Hnd) & ->). split_and!; [|done|done]. intros id' Hin. split; [by apply H; right|].
    intros [->%elem_of_singleton|Hin']%elem_of_union; [done|]. destruct (H id') as [_ Hn]; [by right|done].
Qed.

Lemma batch_validate_wf b : batch_validate b = Ok () ↔ batch_wf b.
Proof.
  unfold batch_validate. rewrite bind_Ok_inv. setoid_rewrite bind_Ok_inv. setoid_rewrite bind_Ok_inv.
  setoid_rewrite bind_Ok_inv. setoid_rewrite bind_Ok_inv.
  setoid_rewrite for_each_Ok. setoid_rewrite validate_order_Ok. setoid_rewrite ensure_Ok_inv.
  setoid_rewrite Forall_forall. setoid_rewrite elem_of_btree_items. split.
  - intros (_ & Ht & _ & Htr & _ & Hw & s & (Ho & Hnd & ->) & _ & Hsize & Hwr). reflect_bool.
    rewrite (left_id_L ∅ (∪)), size_list_to_set in Hsize by done.
    split; [| | |done| |].
    + intros id t Hid%btree_entries_lookup. specialize (Ht (id, t) Hid).
      unfold validate_task_upsert, validate_task_identifier in Ht. inv_result. by reflect_bool.
    + intros id Hid. specialize (Htr id Hid). by reflect_bool.
    + intros id w Hid%btree_entries_lookup. specialize (Hw (id, w) Hid).
      unfold validate_watch_upsert, validate_watch_identifier in Hw. inv_result. by reflect_bool.
    + assert (Hsub : list_to_set (watch_upsert_order b) ⊆ dom (watch_upserts b)).
      { intros id Hid%elem_of_list_to_set. apply elem_of_dom. by apply Ho. }
      assert (list_to_set (watch_upsert_order b) = dom (watch_upserts b)) as Heq.
      { apply set_subseteq_size_eq; [done|]. rewrite size_dom, size_list_to_set by done. lia. }
      intros id. by rewrite <- elem_of_dom, <- Heq, elem_of_list_to_set.
    + intros id Hid. specialize (Hwr id Hid). by reflect_bool.
  - intros [Ht Htr Hw Hnd Ho Hwr]. exists (). split.
    { intros [id t] Hid%elem_of_btree_entries. destruct (Ht id t Hid) as (H1 & H2 & H3). unfold validate_task_upsert, validate_task_identifier.
      rewrite H1, !bool_decide_true by done. done. }
    exists (). split; [intros id Hid; by rewrite (Htr id Hid)|].
    exists (). split.
    { intros [id w] Hid%elem_of_btree_entries. destruct (Hw id w Hid) as (H1 & H2). unfold validate_watch_upsert, validate_watch_identifier.
      rewrite H1, !bool_decide_true by done. done. }
    exists (list_to_set (watch_upsert_order b)). split.
    { split_and!; [|done|by rewrite (left_id_L ∅ (∪))]. intros id Hid. split; [by apply Ho|apply not_elem_of_empty]. }
    exists (). split; [|intros id Hid; by rewrite (Hwr id Hid)].
    apply Nat.eqb_eq. rewrite <- size_dom. f_equal. apply set_eq. intros id. by rewrite elem_of_list_to_set, elem_of_dom, Ho.
Qed.

(** ** The meaning of a batch *)

Definition ordered b : list Watch := omap (λ id, watch_upserts b !! id) (watch_upsert_order b).

Definition batch_tasks b tasks : Tasks :=
  task_upserts b ∪ foldl (λ tasks id, delete id tasks) tasks (btree_items (task_removals b)).

Definition batch_watches b watches : Watches :=
  foldl (λ ws w, put_watch w ws) (filter (λ w, watch_id w ∉ watch_removals b) watches) (ordered b).

Definition run_batch (s : Tasks * Watches) b : Tasks * Watches := (batch_tasks b s.1, batch_watches b s.2).

Lemma batch_tasks_lookup b tasks k :
  batch_tasks b tasks !! k =
  match task_upserts b !! k with
  | Some t => Some t
  | None => if decide (k ∈ task_removals b) then None else tasks !! k
  end.
Proof.
  unfold batch_tasks. destruct (task_upserts b !! k) as [t|] eqn:E; [by apply lookup_union_Some_l|].
  rewrite lookup_union_r by done. rewrite foldl_delete. pose proof (elem_of_btree_items (task_removals b) k).
  repeat case_decide; tauto.
Qed.

(** *** Lists of watches *)

Lemma put_watch_ids w ws : watch_id <$> put_watch w ws =
  if decide (watch_id w ∈ watch_id <$> ws) then watch_id <$> ws else (watch_id <$> ws) ++ [watch_id w].
Proof.
  induction ws as [|x ws IH]; cbn [put_watch]; [by rewrite decide_False by apply not_elem_of_nil|].
  rewrite (fmap_cons _ x ws). destruct (decide (watch_id x = watch_id w)) as [E|E].
  - rewrite fmap_cons, E, decide_True; [done|left].
  - rewrite fmap_cons, IH. destruct (decide (watch_id w ∈ watch_id <$> ws)) as [Hin|Hin].
    + rewrite decide_True; [done|by right].
    + rewrite decide_False; [done|]. intros [Hx|Hx]%elem_of_cons; [by rewrite Hx in E|done].
Qed.

Lemma put_watch_NoDup w ws : NoDup (watch_id <$> ws) → NoDup (watch_id <$> put_watch w ws).
Proof.
  intros Hnd. rewrite put_watch_ids. case_decide; [done|]. apply NoDup_app. split_and!; [done| |apply NoDup_singleton].
  intros id Hid ->%list_elem_of_singleton. done.
Qed.

Lemma put_watch_twice w x ws : watch_id x = watch_id w → put_watch w (put_watch x ws) = put_watch w ws.
Proof.
  intros Hx. induction ws as [|y ws IH]; cbn [put_watch]; [by rewrite decide_True|].
  rewrite Hx. case_decide; cbn [put_watch]; [by rewrite decide_True|]. rewrite decide_False by done. by rewrite IH.
Qed.

Lemma put_watch_comm w y ws :
  watch_id y ≠ watch_id w → watch_id w ∈ watch_id <$> ws → put_watch w (put_watch y ws) = put_watch y (put_watch w ws).
Proof.
  intros Hne. induction ws as [|x ws IH]; intros Hin; [by apply elem_of_nil in Hin|].
  rewrite fmap_cons in Hin. cbn [put_watch].
  destruct (decide (watch_id x = watch_id y)) as [E1|E1], (decide (watch_id x = watch_id w)) as [E2|E2]; cbn [put_watch].
  - congruence.
  - rewrite decide_False by congruence. by rewrite decide_True.
  - rewrite decide_True by done. by rewrite decide_False by congruence.
  - rewrite !decide_False by done. f_equal. apply IH. apply elem_of_cons in Hin as [Hx|]; [by destruct E2|done].
Qed.

Lemma drop_put_same id w ws : watch_id w = id → drop_watch id (put_watch w ws) = drop_watch id ws.
Proof.
  intros Hw. unfold drop_watch. induction ws as [|x ws IH]; cbn [put_watch].
  - rewrite filter_cons_False, filter_nil; [done|tauto].
  - case_decide as E; [rewrite !filter_cons_False by (intros []; congruence); done|].
    rewrite !filter_cons. case_decide; congruence.
Qed.

Lemma drop_put_other id w ws : watch_id w ≠ id → drop_watch id (put_watch w ws) = put_watch w (drop_watch id ws).
Proof.
  intros Hw. unfold drop_watch. induction ws as [|x ws IH]; cbn [put_watch].
  - by rewrite filter_cons_True, filter_nil.
  - case_decide as E.
    + rewrite !filter_cons_True by congruence. cbn [put_watch]. by rewrite decide_True.
    + rewrite !filter_cons. case_decide; [|done]. cbn [put_watch]. by rewrite decide_False, IH.
Qed.

Lemma foldl_put_present w ys ws :
  watch_id w ∈ watch_id <$> ws → watch_id w ∉ watch_id <$> ys →
  put_watch w (foldl (λ ws y, put_watch y ws) ws ys) = foldl (λ ws y, put_watch y ws) (put_watch w ws) ys.
Proof.
  revert ws. induction ys as [|y ys IH]; intros ws Hin Hnot; [done|]. rewrite fmap_cons in Hnot.
  apply not_elem_of_cons in Hnot as [Hne Hnot]. cbn [foldl]. rewrite IH; [|rewrite put_watch_ids; case_decide|done].
  - f_equal. by apply put_watch_comm.
  - done.
  - apply elem_of_app. by left.
Qed.

Lemma drop_foldl_put id ys ws :
  drop_watch id (foldl (λ ws y, put_watch y ws) ws ys) =
  foldl (λ ws y, put_watch y ws) (drop_watch id ws) (drop_watch id ys).
Proof.
  revert ws. induction ys as [|y ys IH]; intros ws; [done|]. cbn [foldl]. rewrite IH.
  unfold drop_watch at 4. rewrite filter_cons. fold (drop_watch id ys). case_decide as E; cbn [foldl].
  - f_equal. by apply drop_put_other.
  - f_equal. apply drop_put_same. by destruct (decide (watch_id y = id)).
Qed.

(** ** The imperative application *)

Lemma admit_watches_Ok admitted ws u :
  admit_watches admitted ws = Ok u ↔ NoDup (watch_id <$> ws) ∧ ∀ id, id ∈ watch_id <$> ws → id ∉ admitted.
Proof.
  destruct u. revert admitted. induction ws as [|w ws IH]; intros admitted; cbn [admit_watches].
  { split; [intros _; split; [constructor|by intros ? ?%elem_of_nil]|done]. }
  rewrite fmap_cons, NoDup_cons. destruct (bool_decide _) eqn:E; reflect_bool; cbn [ensure mbind result_bind].
  - rewrite IH. split.
    + intros [Hnd Hnot]. split_and!; [|done|].
      * intros Hin. apply (Hnot _ Hin). by apply elem_of_union_l, elem_of_singleton.
      * intros id [->|Hin]%elem_of_cons; [done|]. intros ?. apply (Hnot id Hin). by apply elem_of_union_r.
    + intros [[Hw Hnd] Hnot]. split; [done|]. intros id Hin [->%elem_of_singleton|Hid]%elem_of_union; [done|].
      apply (Hnot id); [by right|done].
  - split; [done|]. intros [_ Hnot]. destruct E. apply Hnot. left.
Qed.

(** The positions are those of the watches. *)
Definition positions_ok (ws : Watches) (positions : gmap string nat) : Prop :=
  ∀ id p, positions !! id = Some p ↔ (watch_id <$> ws) !! p = Some id.

Lemma watch_positions_ok ws : NoDup (watch_id <$> ws) → positions_ok ws (watch_positions ws).
Proof.
  unfold watch_positions. set (step := λ (m : gmap string nat) (entry : nat * Watch), <[watch_id entry.2 := entry.1]> m).
  assert (Hgen : ∀ ws pre (m : gmap string nat) (f : nat → Watch → nat * Watch),
    (∀ i w, f i w = (length pre + i, w)) → NoDup (watch_id <$> pre ++ ws) → positions_ok pre m →
    positions_ok (pre ++ ws) (foldl step m (imap f ws))).
  { clear ws. induction ws as [|w ws IH]; intros pre m f Hf Hnd Hm; [by rewrite app_nil_r|].
    cbn [imap foldl]. rewrite Hf. rewrite cons_middle, app_assoc in Hnd |- *. apply IH; [|done|].
    { intros i w'. unfold compose. rewrite Hf, length_app. simpl. f_equal. lia. }
    intros id p. unfold step. cbn [fst snd].
    rewrite fmap_app. rewrite fmap_app, fmap_app in Hnd. apply NoDup_app in Hnd as ((_ & Hnot & _)%NoDup_app & _).
    assert (Hw : watch_id w ∉ watch_id <$> pre) by (intros Hin; apply (Hnot _ Hin); left).
    rewrite Nat.add_0_r. destruct (decide (id = watch_id w)) as [->|Hne].
    - rewrite lookup_insert_eq. split.
      + intros [= <-]. apply list_lookup_middle. by rewrite length_fmap.
      + intros [Hin|[Hp Hin]]%lookup_app_Some; [destruct Hw; by eapply list_elem_of_lookup_2|].
        rewrite length_fmap in *. apply list_lookup_singleton_Some in Hin as [? _]. f_equal. lia.
    - rewrite lookup_insert_ne by done. rewrite (Hm id p), lookup_app_Some. split; [by left|].
      intros [|[_ [_ Heq]%list_lookup_singleton_Some]]; [done|congruence]. }
  intros Hnd. apply (Hgen ws [] ∅ pair); [done|done|]. intros id p. by rewrite lookup_empty.
Qed.

Lemma put_watch_insert w ws p :
  NoDup (watch_id <$> ws) → (watch_id <$> ws) !! p = Some (watch_id w) → put_watch w ws = <[p := w]> ws.
Proof.
  revert p. induction ws as [|x ws IH]; intros p Hnd Hp; [done|]. rewrite fmap_cons in Hnd, Hp.
  apply NoDup_cons in Hnd as [Hx Hnd]. cbn [put_watch]. destruct p as [|p].
  - simplify_eq/=. by rewrite decide_True.
  - simpl in Hp. rewrite decide_False; [simpl; f_equal; by apply IH|].
    intros E. apply Hx. rewrite E. by eapply list_elem_of_lookup_2.
Qed.

Lemma put_watch_append w ws : watch_id w ∉ watch_id <$> ws → put_watch w ws = ws ++ [w].
Proof.
  induction ws as [|x ws IH]; intros Hnot; [done|]. rewrite fmap_cons in Hnot. apply not_elem_of_cons in Hnot as [Hne Hnot].
  cbn [put_watch]. rewrite decide_False by done. by rewrite IH.
Qed.

Lemma apply_watch_upserts_spec (upserts : gmap string Watch) order ws positions :
  (∀ id w, upserts !! id = Some w → watch_id w = id) → NoDup (watch_id <$> ws) → positions_ok ws positions →
  (foldl (apply_watch_upsert upserts) (ws, positions) order).1 =
  foldl (λ ws w, put_watch w ws) ws (omap (λ id, upserts !! id) order).
Proof.
  intros Hkeys. revert ws positions. induction order as [|id order IH]; intros ws positions Hnd Hpos; [done|].
  cbn [foldl omap list_omap]. unfold apply_watch_upsert at 2. destruct (upserts !! id) as [w|] eqn:Ew; [|by apply IH].
  pose proof (Hkeys id w Ew) as Hw. destruct (positions !! id) as [p|] eqn:Ep; cbn [foldl].
  - apply Hpos in Ep. rewrite <- Hw in Ep. rewrite <- (put_watch_insert w ws p Hnd Ep). apply IH.
    + by apply put_watch_NoDup.
    + intros id' p'. rewrite put_watch_ids, decide_True by (by eapply list_elem_of_lookup_2). apply Hpos.
  - assert (Hnot : watch_id w ∉ watch_id <$> ws).
    { rewrite Hw. intros [p Hp]%list_elem_of_lookup. apply Hpos in Hp. congruence. }
    rewrite (put_watch_append w ws Hnot). rewrite <- (put_watch_append w ws Hnot). apply IH; [by apply put_watch_NoDup|].
    rewrite put_watch_append by done. intros id' p'. rewrite fmap_app. destruct (decide (id' = id)) as [->|Hne].
    + rewrite lookup_insert_eq. split.
      * intros [= <-]. rewrite <- Hw. apply list_lookup_middle. by rewrite length_fmap.
      * intros [Hin|[Hp' Hin]]%lookup_app_Some; [destruct Hnot; rewrite Hw; by eapply list_elem_of_lookup_2|].
        rewrite length_fmap in *. apply list_lookup_singleton_Some in Hin as [? _]. f_equal. lia.
    + rewrite lookup_insert_ne by done. rewrite (Hpos id' p'), lookup_app_Some. split; [by left|].
      intros [|[_ [_ Heq]%list_lookup_singleton_Some]]; [done|by simplify_eq/=].
Qed.

(** A valid batch applies exactly to registries without duplicate watches. *)
Lemma apply_to_spec b tasks ws s :
  apply_to b tasks ws = Ok s ↔ batch_wf b ∧ NoDup (watch_id <$> ws) ∧ s = run_batch (tasks, ws) b.
Proof.
  unfold apply_to.
  assert (Hrun : batch_wf b → NoDup (watch_id <$> ws) →
    (apply_task_upserts (task_upserts b) (foldl (λ tasks id, delete id tasks) tasks (btree_items (task_removals b))),
     (foldl (apply_watch_upsert (watch_upserts b))
        (filter (λ watch, watch_id watch ∉ watch_removals b) ws,
         watch_positions (filter (λ watch, watch_id watch ∉ watch_removals b) ws)) (watch_upsert_order b)).1) =
    run_batch (tasks, ws) b).
  { intros Hwf Hnd. unfold run_batch, batch_tasks, batch_watches, apply_task_upserts. cbn [fst snd]. rewrite foldl_btree_entries. f_equal.
    assert (NoDup (watch_id <$> filter (λ watch, watch_id watch ∉ watch_removals b) ws)) as Hnd'.
    { eapply sublist_NoDup; [exact Hnd|]. apply fmap_sublist. apply sublist_filter. }
    apply apply_watch_upserts_spec; [|done|by apply watch_positions_ok].
    intros id w Hid. by apply (wf_watch _ Hwf id w Hid). }
  pose proof (batch_validate_wf b) as Hval. pose proof (admit_watches_Ok ∅ ws ()) as Hadmit.
  split.
  - destruct (batch_validate b) as [[]|e]; cbn [mbind result_bind]; [|done].
    destruct (admit_watches ∅ ws) as [[]|e]; cbn [mbind result_bind]; [|done].
    intros [= <-]. destruct (proj1 Hadmit eq_refl) as [Hnd _]. pose proof (proj1 Hval eq_refl) as Hwf.
    split_and!; [done|done|by apply Hrun].
  - intros (Hwf & Hnd & ->). rewrite (proj2 Hval Hwf). cbn [mbind result_bind].
    rewrite (proj2 Hadmit); [|split; [done|intros; apply not_elem_of_empty]]. cbn [mbind result_bind].
    f_equal. by apply Hrun.
Qed.

(** ** The builders *)

Lemma empty_batch_wf : batch_wf (empty_batch (TBody := TBody) (WBody := WBody)).
Proof.
  split; intros *; cbn; try (by rewrite lookup_empty); try (by intros ?%elem_of_empty).
  - constructor.
  - rewrite lookup_empty. split; [by intros ?%elem_of_nil|by intros []].
Qed.

Lemma run_empty s : run_batch s empty_batch = s.
Proof.
  destruct s as [tasks ws]. unfold run_batch. f_equal; cbn [fst snd].
  - apply map_eq. intros k. rewrite batch_tasks_lookup. cbn. rewrite lookup_empty. by rewrite decide_False by apply not_elem_of_empty.
  - unfold batch_watches, ordered. cbn. induction ws as [|w ws IH]; [done|].
    rewrite filter_cons_True by apply not_elem_of_empty. by rewrite IH.
Qed.

Lemma add_mutation_wf b m : batch_wf b → mutation_ok m → batch_wf (add_mutation b m).
Proof.
  intros [H1 H2 H3 H4 H5 H6] Hm. destruct m as [task|id|watch|id]; (split; [| | | | |]); cbn in *; try done.
  - intros id t [[<- <-]|[Hne Hid]]%lookup_insert_Some.
    + split_and!; [done|done|]. by intros [_ []%not_elem_of_singleton]%elem_of_difference.
    + destruct (H1 id t Hid) as (? & ? & Hn). split_and!; [done|done|]. by intros [? _]%elem_of_difference.
  - intros id [Hid _]%elem_of_difference. by apply H2.
  - intros id' t [Hne Hid]%lookup_delete_Some. destruct (H1 id' t Hid) as (? & ? & Hn). split_and!; [done|done|].
    by intros [->%elem_of_singleton|]%elem_of_union.
  - intros id' [->%elem_of_singleton|?]%elem_of_union; [done|by apply H2].
  - intros id w [[<- <-]|[Hne Hid]]%lookup_insert_Some; [done|by apply H3].
  - destruct (watch_upserts b !! watch_id watch) eqn:E; [done|]. apply NoDup_app. split_and!; [done| |apply NoDup_singleton].
    intros id Hin ->%list_elem_of_singleton. apply H5 in Hin. rewrite E in Hin. by destruct Hin.
  - intros id. rewrite lookup_insert_is_Some'. destruct (watch_upserts b !! watch_id watch) eqn:E.
    + rewrite H5. split; [by right|]. intros [<-|]; [by rewrite E|done].
    + rewrite elem_of_app, H5, list_elem_of_singleton. naive_solver.
  - intros id' w [Hne Hid]%lookup_delete_Some. by apply H3.
  - by apply NoDup_filter.
  - intros id'. rewrite list_elem_of_filter, H5, lookup_delete_is_Some. naive_solver.
  - intros id' [->%elem_of_singleton|?]%elem_of_union; [done|by apply H6].
Qed.

(** The ordered upserts around one identifier. *)
Lemma ordered_split b id x :
  batch_wf b → watch_upserts b !! id = Some x →
  ∃ ys zs, (∀ w, watch_upserts b !! id = Some x → omap (λ id', <[id := w]> (watch_upserts b) !! id') (watch_upsert_order b) = ys ++ w :: zs) ∧
    ordered b = ys ++ x :: zs ∧ id ∉ watch_id <$> zs.
Proof.
  intros Hwf Hx. assert (Hin : id ∈ watch_upsert_order b) by (apply (wf_order _ Hwf); by exists x).
  pose proof (wf_order_NoDup _ Hwf) as Hnd. apply list_elem_of_split in Hin as (o1 & o2 & Ho).
  rewrite Ho in Hnd. apply NoDup_app in Hnd as (_ & Hno1 & [Hno2 _]%NoDup_cons).
  assert (Hout : ∀ w (o : list string), id ∉ o → omap (λ id', <[id := w]> (watch_upserts b) !! id') o = omap (λ id', watch_upserts b !! id') o).
  { intros w. induction o as [|id' o IH]; intros Hnot; [done|]. apply not_elem_of_cons in Hnot as [Hne Hnot].
    cbn [omap list_omap]. rewrite lookup_insert_ne by done. by rewrite IH. }
  assert (id ∉ o1) as Hno1' by (intros H; apply (Hno1 id H); left).
  exists (omap (λ id', watch_upserts b !! id') o1), (omap (λ id', watch_upserts b !! id') o2). split_and!.
  - intros w _. rewrite Ho, omap_app. cbn [omap list_omap]. rewrite lookup_insert_eq. by rewrite !Hout.
  - unfold ordered. rewrite Ho, omap_app. cbn [omap list_omap]. by rewrite Hx.
  - intros (w & -> & Hw)%list_elem_of_fmap. apply list_elem_of_omap in Hw as (id' & Hid' & Hw).
    destruct (wf_watch _ Hwf id' w Hw) as [_ Heq]. congruence.
Qed.

Lemma filter_drop b id ws :
  filter (λ w, watch_id w ∉ {[id]} ∪ watch_removals b) ws = drop_watch id (filter (λ w, watch_id w ∉ watch_removals b) ws).
Proof.
  unfold drop_watch. rewrite list_filter_filter. apply list_filter_iff. intros w.
  rewrite not_elem_of_union, not_elem_of_singleton. tauto.
Qed.

Lemma ordered_remove b id :
  batch_wf b →
  omap (λ id', delete id (watch_upserts b) !! id') (filter (λ candidate, candidate ≠ id) (watch_upsert_order b)) =
  drop_watch id (ordered b).
Proof.
  intros Hwf. unfold ordered, drop_watch. induction (watch_upsert_order b) as [|id' o IH]; [done|]. cbn [omap list_omap].
  rewrite filter_cons. destruct (decide (id' ≠ id)) as [Hne|Heq].
  - cbn [omap list_omap]. rewrite lookup_delete_ne by done. destruct (watch_upserts b !! id') as [w|] eqn:Ew; [|done].
    destruct (wf_watch _ Hwf id' w Ew) as [_ Hw]. rewrite filter_cons_True by congruence. by rewrite IH.
  - destruct (watch_upserts b !! id') as [w|] eqn:Ew; [|done].
    destruct (wf_watch _ Hwf id' w Ew) as [_ Hw]. rewrite filter_cons_False; [done|]. intros Hn. apply Hn. apply dec_stable in Heq. congruence.
Qed.

(** Adding a mutation to a batch runs it after the batch. *)
Lemma run_add_mutation b m s : batch_wf b → run_batch s (add_mutation b m) = run_mutation (run_batch s b) m.
Proof.
  intros Hwf. destruct s as [tasks ws]. destruct m as [task|id|watch|id]; unfold run_batch; cbn [run_mutation fst snd]; f_equal.
  - apply map_eq. intros k. destruct (decide (k = task_id task)) as [->|Hne].
    + rewrite batch_tasks_lookup. cbn. by rewrite !lookup_insert_eq.
    + rewrite lookup_insert_ne, !batch_tasks_lookup by done. cbn. rewrite lookup_insert_ne by done.
      destruct (task_upserts b !! k); [done|]. repeat case_decide; set_solver.
  - apply map_eq. intros k. destruct (decide (k = id)) as [->|Hne].
    + rewrite batch_tasks_lookup. cbn. rewrite !lookup_delete_eq, decide_True; [done|]. by apply elem_of_union_l, elem_of_singleton.
    + rewrite lookup_delete_ne, !batch_tasks_lookup by done. cbn. rewrite lookup_delete_ne by done.
      destruct (task_upserts b !! k); [done|]. repeat case_decide; set_solver.
  - unfold batch_watches. cbn [watch_removals add_mutation upsert_watch]. unfold ordered at 1.
    cbn [watch_upserts watch_upsert_order upsert_watch]. destruct (watch_upserts b !! watch_id watch) as [x|] eqn:E.
    + destruct (ordered_split b _ x Hwf E) as (ys & zs & Hw & -> & Hzs). rewrite (Hw watch E).
      destruct (wf_watch _ Hwf _ x E) as [_ Hx]. rewrite !foldl_app. cbn [foldl].
      rewrite (foldl_put_present watch zs); [by rewrite put_watch_twice| |done].
      rewrite put_watch_ids, Hx. case_decide; [done|apply elem_of_app; right; left].
    + rewrite omap_app. cbn [omap list_omap]. rewrite lookup_insert_eq, foldl_app. cbn [foldl]. f_equal.
      assert (Hnot : watch_id watch ∉ watch_upsert_order b).
      { intros Hin%(wf_order _ Hwf). rewrite E in Hin. by destruct Hin. }
      f_equal. unfold ordered. induction (watch_upsert_order b) as [|id o IH]; [done|].
      apply not_elem_of_cons in Hnot as [Hne Hnot]. cbn [omap list_omap]. rewrite lookup_insert_ne by done. by rewrite IH.
  - unfold batch_watches. cbn [watch_removals add_mutation remove_watch]. unfold ordered at 1.
    cbn [watch_upserts watch_upsert_order remove_watch]. rewrite ordered_remove, filter_drop by done. by rewrite drop_foldl_put.
Qed.

Lemma add_mutations ms b :
  batch_wf b → Forall mutation_ok ms →
  batch_wf (foldl add_mutation b ms) ∧ ∀ s, run_batch s (foldl add_mutation b ms) = foldl run_mutation (run_batch s b) ms.
Proof.
  intros Hwf Hms. revert b Hwf. induction Hms as [|m ms Hm _ IH]; intros b Hwf; [done|]. cbn [foldl].
  destruct (IH _ (add_mutation_wf b m Hwf Hm)) as [Hwf' Hrun]. split; [done|]. intros s. by rewrite Hrun, run_add_mutation.
Qed.

(** ** Coalescing is composition *)

(** The mutations that a batch stands for. *)
Definition mutations_of b : list Mutation :=
  (RemoveTask <$> btree_items (task_removals b)) ++ ((λ e, UpsertTask e.2) <$> btree_entries (task_upserts b)) ++
  (RemoveWatch <$> btree_items (watch_removals b)) ++ (UpsertWatch <$> ordered b).

Lemma elem_of_ordered b w : batch_wf b → w ∈ ordered b → watch_upserts b !! watch_id w = Some w.
Proof.
  intros Hwf (id & Hid & Hw)%list_elem_of_omap. by destruct (wf_watch _ Hwf id w Hw) as [_ ->].
Qed.

Lemma mutations_of_ok b : batch_wf b → Forall mutation_ok (mutations_of b).
Proof.
  intros Hwf. unfold mutations_of. rewrite !Forall_app, !Forall_fmap, !Forall_forall. split_and!.
  - intros id Hid%elem_of_btree_items. by apply (wf_task_removal _ Hwf).
  - intros [id t] Hid%btree_entries_lookup. destruct (wf_task _ Hwf id t Hid) as (? & <- & _). done.
  - intros id Hid%elem_of_btree_items. by apply (wf_watch_removal _ Hwf).
  - intros w Hw%(elem_of_ordered b w Hwf). by destruct (wf_watch _ Hwf _ w Hw).
Qed.

Lemma foldl_drop ids ws : foldl (λ ws id, drop_watch id ws) ws ids = filter (λ w, watch_id w ∉ ids) ws.
Proof.
  revert ws. induction ids as [|id ids IH]; intros ws; cbn [foldl].
  - symmetry. apply filter_all. rewrite Forall_forall. intros w _. apply not_elem_of_nil.
  - rewrite IH. unfold drop_watch. rewrite list_filter_filter. apply list_filter_iff. intros w. rewrite not_elem_of_cons. tauto.
Qed.

Lemma run_mutations_of b s : batch_wf b → foldl run_mutation s (mutations_of b) = run_batch s b.
Proof.
  intros Hwf. destruct s as [tasks ws]. unfold mutations_of. rewrite !foldl_app, !foldl_fmap.
  assert (H1 : ∀ ids t (v : Watches), foldl (λ c id, run_mutation c (RemoveTask id)) (t, v) ids = (foldl (λ t id, delete id t) t ids, v)).
  { induction ids; intros; [done|]. cbn [foldl run_mutation fst snd]. auto. }
  assert (H2 : ∀ es t (v : Watches), (∀ e, e ∈ es → task_id e.2 = e.1) →
    foldl (λ c (e : string * Task), run_mutation c (UpsertTask e.2)) (t, v) es = (foldl (λ t e, <[e.1 := e.2]> t) t es, v)).
  { induction es as [|e es IH]; intros t v Hes; [done|]. cbn [foldl run_mutation fst snd].
    rewrite (Hes e) by left. apply IH. intros. apply Hes. by right. }
  assert (H3 : ∀ ids (t : Tasks) v, foldl (λ c id, run_mutation c (RemoveWatch id)) (t, v) ids = (t, foldl (λ v id, drop_watch id v) v ids)).
  { induction ids; intros; [done|]. cbn [foldl run_mutation fst snd]. auto. }
  assert (H4 : ∀ us (t : Tasks) v, foldl (λ c w, run_mutation c (UpsertWatch w)) (t, v) us = (t, foldl (λ v w, put_watch w v) v us)).
  { induction us; intros; [done|]. cbn [foldl run_mutation fst snd]. auto. }
  rewrite H1, H2, H3, H4.
  - unfold run_batch, batch_tasks, batch_watches. cbn [fst snd]. rewrite foldl_btree_entries, foldl_drop. f_equal. f_equal.
    apply list_filter_iff. intros w. by rewrite elem_of_btree_items.
  - intros [id t] Hid%btree_entries_lookup. by destruct (wf_task _ Hwf id t Hid) as (_ & ? & _).
Qed.

Lemma merge_watch_upserts_spec later merged order :
  batch_wf later → batch_wf merged → NoDup order → (∀ id, id ∈ order → is_Some (watch_upserts later !! id)) →
  (∀ id, id ∈ order → id ∈ watch_removals later → id ∈ watch_removals merged ∧ id ∉ watch_upsert_order merged) →
  merge_watch_upserts later merged order =
    Ok (foldl upsert_watch merged (omap (λ id, watch_upserts later !! id) order)).
Proof.
  intros Hl Hm Hnd. revert merged Hm. induction Hnd as [|id order Hid Hnd IH]; intros merged Hm Hsome Hinv; [done|].
  destruct (Hsome id) as [w Hw]; [by left|]. destruct (wf_watch _ Hl id w Hw) as [Hblank Hwid].
  cbn [merge_watch_upserts omap list_omap]. unfold merge_watch_upsert. rewrite Hw. cbn [ok_or mbind result_bind foldl].
  assert (Hnone : id ∉ watch_upsert_order merged → watch_upserts merged !! id = None).
  { intros Hn. apply eq_None_not_Some. by rewrite <- (wf_order _ Hm). }
  match goal with |- merge_watch_upserts _ ?m _ = _ => assert (m = upsert_watch merged w) as -> end.
  { unfold upsert_watch. rewrite Hwid. case_bool_decide as Er.
    - destruct (Hinv id) as [Hr Ho]; [by left|done|]. rewrite (Hnone Ho). f_equal; [|set_solver].
      f_equal. apply filter_all. rewrite Forall_forall. by intros id' Hid' ->.
    - destruct (watch_upserts merged !! id) eqn:E.
      + rewrite (bool_decide_true (is_Some _)) by done. by rewrite andb_false_r.
      + rewrite (bool_decide_false (is_Some _)) by (by intros []). by case_match. }
  apply IH.
  - apply (add_mutation_wf merged (UpsertWatch w) Hm). cbn. by rewrite Hwid.
  - intros id' Hid'. apply Hsome. by right.
  - intros id' Hid' Hr. destruct (Hinv id') as [H1 H2]; [by right|done|]. cbn. split; [done|].
    destruct (watch_upserts merged !! watch_id w); [done|]. rewrite Hwid, elem_of_app, list_elem_of_singleton.
    intros [| ->]; done.
Qed.

Lemma merge_later_wins_mutations self later :
  batch_wf self → batch_wf later →
  merge_later_wins self later = Ok (foldl add_mutation self (mutations_of later)).
Proof.
  intros Hself Hlater. destruct (add_mutations (mutations_of later) self Hself (mutations_of_ok _ Hlater)) as [Hwf _].
  pose proof (mutations_of_ok _ Hlater) as Hok. revert Hwf Hok.
  unfold merge_later_wins. rewrite (proj2 (batch_validate_wf self) Hself), (proj2 (batch_validate_wf later) Hlater).
  cbn [mbind result_bind]. unfold mutations_of. rewrite !foldl_app, !foldl_fmap. intros Hwf Hok.
  change (foldl merge_task_removal self (btree_items (task_removals later)))
    with (foldl (λ c id, add_mutation c (RemoveTask id)) self (btree_items (task_removals later))).
  set (m1 := foldl (λ c id, add_mutation c (RemoveTask id)) self _) in *.
  assert (foldl merge_task_upsert m1 (btree_entries (task_upserts later)) =
    foldl (λ c e, add_mutation c (UpsertTask e.2)) m1 (btree_entries (task_upserts later))) as ->.
  { assert (Hes : ∀ e, e ∈ btree_entries (task_upserts later) → task_id e.2 = e.1).
    { intros [id t] Hid%btree_entries_lookup. by destruct (wf_task _ Hlater id t Hid) as (_ & ? & _). }
    revert Hes. clearbody m1. clear. revert m1. induction (btree_entries (task_upserts later)) as [|e es IH]; intros m1 Hes; [done|].
    cbn [foldl]. rewrite <- IH by (intros; apply Hes; by right). f_equal. unfold merge_task_upsert. cbn [add_mutation]. unfold upsert_task.
    by rewrite (Hes e) by left. }
  set (m2 := foldl (λ c e, add_mutation c (UpsertTask e.2)) m1 _) in *.
  change (foldl merge_watch_removal m2 (btree_items (watch_removals later)))
    with (foldl (λ c id, add_mutation c (RemoveWatch id)) m2 (btree_items (watch_removals later))).
  set (m3 := foldl (λ c id, add_mutation c (RemoveWatch id)) m2 _) in *.
  assert (Hm3 : batch_wf m3).
  { unfold mutations_of in Hok. rewrite !Forall_app in Hok. destruct Hok as (O1 & O2 & O3 & _).
    destruct (add_mutations _ _ Hself O1) as [W1 _]. rewrite foldl_fmap in W1.
    destruct (add_mutations _ _ W1 O2) as [W2 _]. rewrite foldl_fmap in W2.
    destruct (add_mutations _ _ W2 O3) as [W3 _]. by rewrite foldl_fmap in W3. }
  rewrite merge_watch_upserts_spec; [|done|done|apply (wf_order_NoDup _ Hlater)|intros id; apply (wf_order _ Hlater)|].
  - cbn [mbind result_bind]. change (foldl upsert_watch m3 _) with (foldl (λ c w, add_mutation c (UpsertWatch w)) m3 (ordered later)).
    rewrite (proj2 (batch_validate_wf _)); done.
  - intros id _ Hr%elem_of_btree_items. unfold m3. clearbody m2. clear -Hr. revert m2 Hr.
    assert (Hkeep : ∀ ids (m : Batch), id ∈ watch_removals m ∧ id ∉ watch_upsert_order m →
      let r := foldl (λ c id, add_mutation c (RemoveWatch id)) m ids in id ∈ watch_removals r ∧ id ∉ watch_upsert_order r).
    { induction ids as [|id' ids IH]; intros m Hm; [done|]. apply IH. cbn. destruct Hm as [Hm1 Hm2].
      split; [by apply elem_of_union_r|]. by intros [_ ?]%list_elem_of_filter. }
    induction (btree_items (watch_removals later)) as [|id' ids IH]; intros m Hr; [by apply elem_of_nil in Hr|].
    apply elem_of_cons in Hr as [->|Hr]; cbn [foldl]; [|by apply IH].
    apply Hkeep. cbn. split; [by apply elem_of_union_l, elem_of_singleton|]. by intros [? _]%list_elem_of_filter.
Qed.

(** ** Relationships *)

(** The registries have the same tasks with the same lists of watches. *)
Definition same_relationships (tasks tasks' : Tasks) : Prop :=
  ∀ id, watch_ids <$> tasks !! id = watch_ids <$> tasks' !! id.

#[local] Instance same_relationships_equiv : Equivalence same_relationships.
Proof. split; [done| |]; intros ?; repeat intro; [done|]. unfold same_relationships in *. congruence. Qed.

Lemma own_watches_same tasks tasks' owners ws :
  same_relationships tasks tasks' → own_watches tasks owners ws = own_watches tasks' owners ws.
Proof.
  intros Hsame. revert owners. induction ws as [|w ws IH]; intros owners; [done|]. cbn [own_watches].
  assert (own_watch tasks owners w = own_watch tasks' owners w) as ->.
  { unfold own_watch. rewrite (bool_decide_ext (is_Some (tasks !! _)) (is_Some (tasks' !! watch_task_id w))); [done|].
    rewrite <- !(fmap_is_Some watch_ids). by rewrite Hsame. }
  destruct (own_watch tasks' owners w); [apply IH|done].
Qed.

#[local] Instance relationships_proper :
  Proper (same_relationships ==> eq ==> iff) (λ tasks ws, validate_task_watch_registry_relationships tasks ws = Ok ()).
Proof.
  assert (Himpl : ∀ tasks tasks' ws, same_relationships tasks tasks' →
    validate_task_watch_registry_relationships tasks ws = Ok () → validate_task_watch_registry_relationships tasks' ws = Ok ()).
  { intros tasks tasks' ws Hsame. unfold validate_task_watch_registry_relationships. rewrite (own_watches_same _ _ _ _ Hsame).
    destruct (own_watches tasks' ∅ ws) as [owners|]; cbn [mbind result_bind]; [|done].
    intros ([] & H1 & H2)%bind_Ok_inv. rewrite for_each_Ok, Forall_forall in H1. rewrite for_each_Ok, Forall_forall in H2.
    apply bind_Ok_inv. exists (). rewrite !for_each_Ok, !Forall_forall. split.
    - intros [id t'] Hid%btree_entries_lookup. pose proof (Hsame id) as E. rewrite Hid in E.
      destruct (tasks !! id) as [t|] eqn:Ht; simplify_eq/=. specialize (H1 (id, t) (proj2 (btree_entries_lookup _ _ _) Ht)).
      cbn in H1. congruence.
    - intros [watch id] Hin. specialize (H2 _ Hin). cbn in *. pose proof (Hsame id) as E.
      destruct (tasks !! id) as [t|], (tasks' !! id) as [t'|]; cbn in *; [|done..]. injection E as E. by rewrite <- E. }
  intros tasks tasks' Hsame ws ? <-. split; apply Himpl; [done|by symmetry].
Qed.

Lemma preserves_same b tasks :
  preserves_authenticated_relationships b tasks = true →
  task_removals b = ∅ ∧ watch_upsert_order b = [] ∧ watch_removals b = ∅ ∧
  same_relationships (task_upserts b ∪ tasks) tasks.
Proof.
  unfold preserves_authenticated_relationships. intros H. reflect_bool.
  match goal with H : forallb _ _ = true |- _ => rename H into Hall end. split_and!; [done..|].
  intros id. destruct (task_upserts b !! id) as [t|] eqn:E.
  - rewrite (lookup_union_Some_l _ _ _ t) by done. rewrite forallb_forall in Hall.
    specialize (Hall (id, t)). rewrite <- list_elem_of_In, btree_entries_lookup in Hall. specialize (Hall E). cbn in Hall.
    destruct (tasks !! id); [|done]. reflect_bool. cbn. congruence.
  - by rewrite lookup_union_r.
Qed.

(** *** What the validation of the registries accepts *)

(** Every watch has an existing owner that lists it, no identifier is used
    twice, and every listed watch exists and belongs to the task that lists
    it. *)
Record registry_wf (s : Tasks * Watches) : Prop := {
  rw_watch w : w ∈ s.2 → is_blank (watch_id w) = false ∧ is_blank (watch_task_id w) = false ∧
    ∃ t, s.1 !! watch_task_id w = Some t ∧ watch_id w ∈ watch_ids t;
  rw_ids : NoDup (watch_id <$> s.2);
  rw_task id t : s.1 !! id = Some t → NoDup (watch_ids t) ∧
    ∀ wid, wid ∈ watch_ids t → ∃ w, w ∈ s.2 ∧ watch_id w = wid ∧ watch_task_id w = id
}.

Lemma own_watches_Ok tasks owners ws o :
  own_watches tasks owners ws = Ok o ↔
  (∀ w, w ∈ ws → is_blank (watch_id w) = false ∧ is_blank (watch_task_id w) = false ∧ is_Some (tasks !! watch_task_id w)) ∧
  NoDup (watch_id <$> ws) ∧ (∀ w, w ∈ ws → owners !! watch_id w = None) ∧
  o = foldl (λ o w, <[watch_id w := watch_task_id w]> o) owners ws.
Proof.
  revert owners. induction ws as [|w ws IH]; intros owners; cbn [own_watches foldl].
  { split; [intros [= ->]|by intros (_ & _ & _ & ->)]. split_and!; [by intros ? ?%elem_of_nil|constructor|by intros ? ?%elem_of_nil|done]. }
  rewrite fmap_cons, NoDup_cons. split.
  - intros H. destruct (own_watch tasks owners w) as [o'|] eqn:E; [|discriminate H]. cbn [mbind result_bind] in H.
    apply IH in H as (H1 & H2 & H3 & ->). unfold own_watch in E. inv_result. reflect_bool. subst o'.
    assert (Hnot : watch_id w ∉ watch_id <$> ws).
    { intros (x & Hx & Hin)%list_elem_of_fmap. specialize (H3 x Hin). rewrite <- Hx, lookup_insert_eq in H3. done. }
    split_and!; [|done|done| |done].
    + intros x [->|Hin]%elem_of_cons; [done|by apply H1].
    + intros x [->|Hin]%elem_of_cons; [done|]. specialize (H3 x Hin). by apply lookup_insert_None in H3 as [? _].
  - intros (H1 & [Hnot H2] & H3 & ->). unfold own_watch. destruct (H1 w) as (-> & -> & Hsome); [left|].
    rewrite (H3 w) by left. rewrite (bool_decide_true (is_Some _)), bool_decide_true by done. cbn [negb ensure mbind result_bind].
    apply IH. split_and!; [|done| |done].
    + intros x Hin. apply H1. by right.
    + intros x Hin. rewrite lookup_insert_ne; [apply H3; by right|]. intros Heq. apply Hnot. rewrite Heq. by apply list_elem_of_fmap_2.
Qed.

Lemma owners_lookup ws id t :
  NoDup (watch_id <$> ws) →
  foldl (λ o w, <[watch_id w := watch_task_id w]> o) (∅ : gmap string string) ws !! id = Some t ↔
  ∃ w, w ∈ ws ∧ watch_id w = id ∧ watch_task_id w = t.
Proof.
  intros Hnd. set (es := (λ w, (watch_id w, watch_task_id w)) <$> ws).
  assert (foldl (λ o w, <[watch_id w := watch_task_id w]> o) (∅ : gmap string string) ws = list_to_map es) as ->.
  { assert (NoDup es.*1) by (unfold es; by rewrite <- list_fmap_compose). rewrite <- (map_union_empty (list_to_map es)), <- foldl_insert by done.
    unfold es. by rewrite foldl_fmap. }
  rewrite <- elem_of_list_to_map by (unfold es; by rewrite <- list_fmap_compose).
  unfold es. rewrite list_elem_of_fmap. split; [intros (w & [= -> ->] & ?); eauto|intros (w & ? & <- & <-); eauto].
Qed.

Lemma check_listed_Ok owners id seen listed :
  check_listed owners id seen listed = Ok () ↔
  NoDup listed ∧ ∀ wid : string, wid ∈ listed → wid ∉ seen ∧ owners !! wid = Some id.
Proof.
  revert seen. induction listed as [|wid listed IH]; intros seen; cbn [check_listed].
  { split; [intros _; split; [constructor|by intros ? ?%elem_of_nil]|done]. }
  rewrite NoDup_cons. split.
  - intros H. destruct (bool_decide (wid ∉ seen)) eqn:E1; [|discriminate H]. cbn [ensure mbind result_bind] in H.
    destruct (owners !! wid) as [o|] eqn:E2; [|discriminate H]. destruct (bool_decide (o = id)) eqn:E3; [|discriminate H].
    cbn [ensure mbind result_bind] in H. apply IH in H as [Hnd Hall]. reflect_bool. subst o. split; [split; [|done]|].
    + intros Hin. destruct (Hall wid Hin) as [Hn _]. apply Hn. by apply elem_of_union_l, elem_of_singleton.
    + intros y [->|Hin]%elem_of_cons; [done|]. destruct (Hall y Hin) as [Hn ?]. split; [|done]. intros ?. apply Hn. by apply elem_of_union_r.
  - intros [[Hx Hnd] Hall]. destruct (Hall wid) as [Hseen ->]; [left|]. rewrite !bool_decide_true by done. cbn [ensure mbind result_bind].
    apply IH. split; [done|]. intros y Hin. destruct (Hall y) as [? ?]; [by right|]. split; [|done].
    intros [->%elem_of_singleton|]%elem_of_union; done.
Qed.

Lemma validate_registry_wf tasks ws : validate_task_watch_registry_relationships tasks ws = Ok () ↔ registry_wf (tasks, ws).
Proof.
  unfold validate_task_watch_registry_relationships. split.
  - intros (o & (H1 & H2 & _ & ->)%own_watches_Ok & H)%bind_Ok_inv. apply bind_Ok_inv in H as ([] & H3 & H4).
    rewrite for_each_Ok, Forall_forall in H3. rewrite for_each_Ok, Forall_forall in H4. split; cbn [fst snd]; [|done|].
    + intros w Hw. destruct (H1 w Hw) as (? & ? & t & Ht). split_and!; [done|done|]. exists t. split; [done|].
      specialize (H4 (watch_id w, watch_task_id w)). rewrite btree_entries_lookup, owners_lookup in H4 by done.
      specialize (H4 ltac:(eauto)). cbn in H4. rewrite Ht in H4. apply ensure_Ok_inv in H4. by reflect_bool.
    + intros id t Ht. specialize (H3 (id, t)). rewrite btree_entries_lookup in H3. specialize (H3 Ht). cbn in H3.
      apply check_listed_Ok in H3 as [Hnd Hall]. split; [done|]. intros x Hx. destruct (Hall x Hx) as [_ Ho]. by apply owners_lookup in Ho.
  - intros [H1 H2 H3]. cbn [fst snd] in *. apply bind_Ok_inv. eexists. split.
    { apply own_watches_Ok. split_and!; [|done|by intros; apply lookup_empty|reflexivity].
      intros w Hw. destruct (H1 w Hw) as (? & ? & t & Ht & _). eauto. }
    apply bind_Ok_inv. exists (). rewrite !for_each_Ok, !Forall_forall. split.
    + intros [id t] Ht%btree_entries_lookup. cbn. destruct (H3 id t Ht) as [Hnd Hall]. apply check_listed_Ok. split; [done|].
      intros x Hx. split; [apply not_elem_of_empty|]. apply owners_lookup; [done|]. by apply Hall.
    + intros [x id] (w & Hw & <- & <-)%btree_entries_lookup%owners_lookup; [|done]. cbn.
      destruct (H1 w Hw) as (_ & _ & t & -> & Hin). by rewrite bool_decide_true.
Qed.
End Spec.
Arguments Mutation : clear implicits.

(** ** Claims *)

(** C40: applying the batch that the builders assemble from a sequence of mutations runs
    the mutations in order; a watch that is upserted keeps its place in the list, a new
    one goes to the end, and one that was removed and upserted again goes to the end. *)
Theorem built_batch_correct {TBody WBody} (ms : list (Mutation TBody WBody)) tasks watches :
  Forall mutation_ok ms → NoDup (watch_id <$> watches) →
  apply_to (foldl add_mutation empty_batch ms) tasks watches = Ok (foldl run_mutation (tasks, watches) ms).
Proof.
  intros Hms Hnd. destruct (add_mutations ms empty_batch empty_batch_wf Hms) as [Hwf Hrun].
  apply apply_to_spec. split_and!; [done|done|]. by rewrite Hrun, run_empty.
Qed.

Lemma built_batch_correct_witness :
  let t : TaskRecord () := mkTaskRecord "t" [] () in
  let w : WatchRegistration () := mkWatchRegistration "w" "t" () in
  apply_to (foldl add_mutation empty_batch [UpsertTask t; UpsertWatch w; RemoveTask "u"]) ∅ [] =
    Ok (foldl run_mutation (∅, []) [UpsertTask t; UpsertWatch w; RemoveTask "u"]).
Proof.
  intros t w. apply (built_batch_correct [UpsertTask t; UpsertWatch w; RemoveTask "u"] ∅ []); [|constructor].
  repeat constructor.
Defined.

(** Coalescing two batches that apply one after the other gives a batch that
    applies in one step with the same result. *)
Theorem merge_later_wins_correct {TBody WBody} (self later : RegistryDeltaBatch TBody WBody) tasks watches tasks' watches' s :
  apply_to self tasks watches = Ok (tasks', watches') → apply_to later tasks' watches' = Ok s →
  ∃ merged, merge_later_wins self later = Ok merged ∧ apply_to merged tasks watches = Ok s.
Proof.
  intros (Hself & Hnd & E)%apply_to_spec (Hlater & _ & ->)%apply_to_spec.
  exists (foldl add_mutation self (mutations_of later)). split; [by apply merge_later_wins_mutations|].
  destruct (add_mutations (mutations_of later) self Hself (mutations_of_ok _ Hlater)) as [Hwf Hrun].
  apply apply_to_spec. split_and!; [done|done|]. by rewrite Hrun, run_mutations_of, <- E.
Qed.

Lemma merge_later_wins_correct_witness :
  let t : TaskRecord () := mkTaskRecord "t" [] () in
  let a : RegistryDeltaBatch () () := upsert_task empty_batch t in
  let b : RegistryDeltaBatch () () := remove_task empty_batch "t" in
  ∃ merged, merge_later_wins a b = Ok merged ∧ apply_to merged ∅ [] = Ok (∅, []).
Proof.
  intros t a b. apply (merge_later_wins_correct a b ∅ [] {["t" := t]} [] (∅, [])); vm_compute; reflexivity.
Defined.

(** The application that skips the watches for batches that only rewrite tasks
    gives the same registries as the full one, and when it says that the relationships
    are unchanged, the registries are valid after it exactly when they were before. *)
Theorem apply_to_authenticated_correct {TBody WBody} (b : RegistryDeltaBatch TBody WBody) tasks watches s :
  apply_to b tasks watches = Ok s →
  ∃ unchanged, apply_to_authenticated b tasks watches = Ok (unchanged, s) ∧
    (unchanged = true →
      validate_task_watch_registry_relationships s.1 s.2 = Ok () ↔
      validate_task_watch_registry_relationships tasks watches = Ok ()).
Proof.
  intros Happ. pose proof (proj1 (apply_to_spec _ _ _ _) Happ) as (Hwf & Hnd & ->). unfold apply_to_authenticated.
  rewrite (proj2 (batch_validate_wf b) Hwf). cbn [mbind result_bind].
  destruct (preserves_authenticated_relationships b tasks) eqn:E.
  - apply preserves_same in E as (Hr & Ho & Hwr & Hsame).
    assert (run_batch (tasks, watches) b = (task_upserts b ∪ tasks, watches)) as ->.
    { unfold run_batch, batch_tasks, batch_watches, ordered. rewrite Hr, Ho, Hwr. f_equal.
      apply filter_all, Forall_forall. intros w _. apply not_elem_of_empty. }
    exists true. unfold apply_task_upserts. rewrite foldl_btree_entries. split; [done|]. intros _.
    exact (relationships_proper _ _ Hsame _ _ eq_refl).
  - rewrite Happ. by exists false.
Qed.

Lemma apply_to_authenticated_correct_witness :
  let t : TaskRecord () := mkTaskRecord "t" [] () in
  let b : RegistryDeltaBatch () () := upsert_task empty_batch t in
  ∃ unchanged, apply_to_authenticated b {["t" := t]} [] = Ok (unchanged, ({["t" := t]}, [])).
Proof.
  intros t b. assert (H : apply_to b {["t" := t]} [] = Ok ({["t" := t]}, [])) by (vm_compute; reflexivity).
  destruct (apply_to_authenticated_correct b {["t" := t]} [] _ H) as (unchanged & E & _). exists unchanged. exact E.
Defined.

