(* ===== verification/RegistryWal.v ===== *)
(** * RegistryWal: the write-ahead log of registry deltas

    Models the log of [src/crates/packet28-daemon-core/src/storage/registry_delta.rs]
    on its bytes: headers, frames and footers, the scan with its policies for
    a torn suffix, the fast inspection of the tail, appending, and the replay
    onto a checkpoint.  The state of the file is the list of its bytes.
    blake3 and the JSON codec of the batches are parameters. *)

From S2P Require Export RegistryDelta MachineInt.

(** ** Constants and data *)

Definition WAL_MAGIC : list Z := [80; 50; 56; 82; 68; 87; 48; 49]%Z.
Definition FRAME_MAGIC : list Z := [80; 50; 56; 82; 68; 70; 48; 49]%Z.
Definition FRAME_FOOTER_MAGIC : list Z := [80; 50; 56; 82; 68; 69; 48; 49]%Z.
Definition WAL_FORMAT_VERSION : Z := 1.
Definition FRAME_FORMAT_VERSION : Z := 1.
Definition WAL_HEADER_BYTES : nat := 56.
Definition FRAME_HEADER_BYTES : nat := 72.
Definition FRAME_FOOTER_BYTES : nat := 56.
Definition MAX_TASK_REGISTRY_BYTES : Z := (64 * 1024 * 1024)%Z.
Definition MAX_WATCH_REGISTRY_BYTES : Z := (64 * 1024 * 1024)%Z.
Definition MAX_REGISTRY_DELTA_FRAME_BYTES : Z := (MAX_TASK_REGISTRY_BYTES + MAX_WATCH_REGISTRY_BYTES + 1024 * 1024)%Z.
Definition MAX_REGISTRY_DELTA_WAL_BYTES : Z := (256 * 1024 * 1024)%Z.

(** The constructors of [DaemonCoreError] that this code returns, without the
    paths; with the fixed part of a message, or the error that it prints. *)
Inductive WalError : Type :=
| InvalidRegistryDeltaWal (message : string)
| InvalidRegistryDeltaBatch (message : RegistryDeltaValidationError + string)
| InvalidTaskWatchRegistry (message : string)
| InvalidTaskRegistry (message : string)
| Io (operation : string)
| RegistryDeltaWalTooLarge (encoded_bytes max_bytes : Z)
| RegistryDeltaFrameTooLarge (encoded_bytes max_bytes : Z)
| RegistryDeltaRevisionMismatch (expected_first actual_first actual_last : Z).

Definition invalid_wal {A} (message : string) : result WalError A := Err (InvalidRegistryDeltaWal message).

Record RegistryRevisionRange : Type := mkRange {
  first : Z;
  last : Z
}.

#[export] Instance range_eq_dec : EqDecision RegistryRevisionRange.
Proof. solve_decision. Defined.

(** [RegistryRevision::checked_next]. *)
Definition checked_next (revision : Z) : option Z := checked_add u64_max revision 1.

Definition range_validate (range : RegistryRevisionRange) : result RegistryDeltaValidationError () :=
  ensure (negb ((first range =? 0) || (last range <? first range)))%Z (InvalidRevisionRange (first range) (last range)).

Definition new_range (first last : Z) : result RegistryDeltaValidationError RegistryRevisionRange :=
  range_validate (mkRange first last) ;; Ok (mkRange first last).

Record DecodedFrameHeader : Type := mkDecodedFrameHeader {
  fh_payload_len : Z;
  fh_payload_checksum : list Z;
  fh_revisions : RegistryRevisionRange
}.

Record FrameTail : Type := mkFrameTail {
  ft_offset : Z;
  ft_payload_len : Z;
  ft_payload_checksum : list Z;
  ft_revisions : RegistryRevisionRange
}.

Record WalInspection : Type := mkWalInspection {
  base_revision : Z;
  last_revision : Z;
  complete_len : Z;
  last_frame : option FrameTail
}.

Inductive TornWalSuffix : Type := Reject | Repair | Tolerate.

(** ** Bytes *)

Definition decode_u32_le (bytes : list Z) (start : nat) : option Z :=
  if (start + 4 <=? length bytes)%nat then Some (from_le_bytes (slice start (start + 4) bytes)) else None.
Definition decode_u64_le (bytes : list Z) (start : nat) : option Z :=
  if (start + 8 <=? length bytes)%nat then Some (from_le_bytes (slice start (start + 8) bytes)) else None.

(** [header[at..at + bytes.len()].copy_from_slice(bytes)]. *)
Definition copy_from_slice (header : list Z) (at_ : nat) (bytes : list Z) : list Z :=
  take at_ header ++ bytes ++ drop (at_ + length bytes) header.

Definition frame_length_from_footer (footer : list Z) : option Z :=
  if bool_decide (slice 0 8 footer = FRAME_FOOTER_MAGIC) then decode_u64_le footer 8 else None.

(** [read_exact] at an offset, for a range inside the file. *)
Definition read_at (file : list Z) (offset len : Z) : list Z :=
  slice (Z.to_nat offset) (Z.to_nat (offset + len)%Z) file.

Definition file_len (file : list Z) : Z := Z.of_nat (length file).

(** The length of a frame, as the checked additions of the code. *)
Definition frame_len_of (payload_len : Z) : option Z :=
  bytes ← checked_add u64_max (Z.of_nat FRAME_HEADER_BYTES) payload_len;
  checked_add u64_max bytes (Z.of_nat FRAME_FOOTER_BYTES).

Section Wal.
Context (blake3 : list Z → list Z).

Definition encode_wal_header (base : Z) : list Z :=
  let fields := WAL_MAGIC ++ to_le_bytes 4 WAL_FORMAT_VERSION ++ to_le_bytes 4 (Z.of_nat WAL_HEADER_BYTES) ++
                to_le_bytes 8 base in
  fields ++ blake3 fields.

Definition decode_wal_header (header : list Z) : result WalError Z :=
  ensure (bool_decide (slice 0 8 header = WAL_MAGIC)) (InvalidRegistryDeltaWal "WAL magic does not identify Packet28 registry deltas") ;;
  version ← ok_or (decode_u32_le header 8) (InvalidRegistryDeltaWal "WAL format version is truncated");
  ensure (version =? WAL_FORMAT_VERSION)%Z (InvalidRegistryDeltaWal "unsupported WAL format version") ;;
  header_len ← ok_or (decode_u32_le header 12) (InvalidRegistryDeltaWal "WAL header length is truncated");
  ensure (header_len =? Z.of_nat WAL_HEADER_BYTES)%Z (InvalidRegistryDeltaWal "invalid WAL header length") ;;
  ensure (bool_decide (slice 24 56 header = blake3 (slice 0 24 header))) (InvalidRegistryDeltaWal "WAL header checksum mismatch") ;;
  ok_or (decode_u64_le header 16) (InvalidRegistryDeltaWal "WAL base revision is truncated").

Definition encode_frame_header (revisions : RegistryRevisionRange) (payload : list Z) : list Z :=
  FRAME_MAGIC ++ to_le_bytes 4 FRAME_FORMAT_VERSION ++ to_le_bytes 4 (Z.of_nat FRAME_HEADER_BYTES) ++
  to_le_bytes 8 (Z.of_nat (length payload)) ++ to_le_bytes 8 (first revisions) ++ to_le_bytes 8 (last revisions) ++
  blake3 payload.

Definition encode_frame_footer (frame_header : list Z) (payload_len : Z) : list Z :=
  FRAME_FOOTER_MAGIC ++ to_le_bytes 8 (Z.of_nat FRAME_HEADER_BYTES + payload_len + Z.of_nat FRAME_FOOTER_BYTES)%Z ++
  slice 32 40 frame_header ++ blake3 frame_header.

Definition decode_frame_header (header : list Z) : result WalError DecodedFrameHeader :=
  ensure (bool_decide (slice 0 8 header = FRAME_MAGIC)) (InvalidRegistryDeltaWal "invalid complete frame magic") ;;
  version ← ok_or (decode_u32_le header 8) (InvalidRegistryDeltaWal "frame format version is truncated");
  ensure (version =? FRAME_FORMAT_VERSION)%Z (InvalidRegistryDeltaWal "unsupported frame format version") ;;
  header_len ← ok_or (decode_u32_le header 12) (InvalidRegistryDeltaWal "frame header length is truncated");
  ensure (header_len =? Z.of_nat FRAME_HEADER_BYTES)%Z (InvalidRegistryDeltaWal "invalid frame header length") ;;
  payload_len ← ok_or (decode_u64_le header 16) (InvalidRegistryDeltaWal "frame payload length is truncated");
  ensure (payload_len <=? MAX_REGISTRY_DELTA_FRAME_BYTES)%Z (RegistryDeltaFrameTooLarge payload_len MAX_REGISTRY_DELTA_FRAME_BYTES) ;;
  first ← ok_or (decode_u64_le header 24) (InvalidRegistryDeltaWal "frame first revision is truncated");
  last ← ok_or (decode_u64_le header 32) (InvalidRegistryDeltaWal "frame last revision is truncated");
  match new_range first last with
  | Ok revisions => Ok (mkDecodedFrameHeader payload_len (slice 40 72 header) revisions)
  | Err _ => invalid_wal "invalid revision range"
  end.

Definition decode_frame_footer (frame_len : Z) (decoded : DecodedFrameHeader) (frame_header footer : list Z)
    : result WalError () :=
  ensure (bool_decide (slice 0 8 footer = FRAME_FOOTER_MAGIC)) (InvalidRegistryDeltaWal "invalid complete frame footer magic") ;;
  encoded_frame_len ← ok_or (decode_u64_le footer 8) (InvalidRegistryDeltaWal "complete frame footer length is truncated");
  ensure (encoded_frame_len =? frame_len)%Z (InvalidRegistryDeltaWal "complete frame footer length mismatch") ;;
  encoded_last ← ok_or (decode_u64_le footer 16) (InvalidRegistryDeltaWal "complete frame footer revision is truncated");
  ensure (encoded_last =? last (fh_revisions decoded))%Z (InvalidRegistryDeltaWal "complete frame footer revision mismatch") ;;
  ensure (bool_decide (slice 24 56 footer = blake3 frame_header)) (InvalidRegistryDeltaWal "complete frame footer checksum mismatch").

(** The payload length that the last bytes of the file authenticate, as the
    footer of the frame at the offset. *)
Definition payload_len_authenticated_by_final_footer (file : list Z) (frame_offset : Z) (frame_header : list Z) : option Z :=
  let frame_len := saturating_sub (file_len file) frame_offset in
  payload_len ← checked_sub frame_len (Z.of_nat (FRAME_HEADER_BYTES + FRAME_FOOTER_BYTES));
  let footer := read_at file (file_len file - Z.of_nat FRAME_FOOTER_BYTES)%Z (Z.of_nat FRAME_FOOTER_BYTES) in
  if negb (bool_decide (frame_length_from_footer footer = Some frame_len))
     || negb (bool_decide (slice 16 24 footer = slice 32 40 frame_header)) then None
  else
    let authenticated_header := copy_from_slice frame_header 16 (to_le_bytes 8 payload_len) in
    if bool_decide (slice 24 56 footer = blake3 authenticated_header) then Some payload_len else None.

(** The inspection, and the file after the call. *)
Definition repair_or_reject_torn_suffix (torn_suffix : TornWalSuffix) (file : list Z) (inspection : WalInspection)
    : result WalError (WalInspection * list Z) :=
  match torn_suffix with
  | Reject => invalid_wal "registry delta WAL ends in a torn frame"
  | Tolerate => Ok (inspection, file)
  | Repair => Ok (inspection, take (Z.to_nat (complete_len inspection)) file)
  end.

Context {TBody WBody : Type}.
Local Abbreviation Batch := (RegistryDeltaBatch TBody WBody).
Local Abbreviation Tasks := (gmap string (TaskRecord TBody)).
Local Abbreviation Watches := (list (WatchRegistration WBody)).

(** [serde_json::from_slice] and [to_vec] of a batch. *)
Context (from_slice : list Z → option Batch) (to_vec : Batch → list Z).

(** ** The scan *)

Section Scan.
Context {S : Type} (visit : S → RegistryRevisionRange → Batch → result WalError S).

(** A complete frame of the scan: its payload is checked, decoded and
    validated, then its footer is checked. *)
Definition read_frame (file : list Z) (offset frame_len : Z) (decoded : DecodedFrameHeader) (frame_header : list Z)
    : result WalError Batch :=
  let payload := read_at file (offset + Z.of_nat FRAME_HEADER_BYTES)%Z (fh_payload_len decoded) in
  ensure (bool_decide (blake3 payload = fh_payload_checksum decoded))
    (InvalidRegistryDeltaWal "payload checksum mismatch for complete frame") ;;
  batch ← ok_or (from_slice payload) (InvalidRegistryDeltaWal "complete frame has invalid JSON");
  match batch_validate batch with
  | Err _ => invalid_wal "complete frame is invalid"
  | Ok _ =>
      let footer := read_at file (offset + Z.of_nat FRAME_HEADER_BYTES + fh_payload_len decoded)%Z (Z.of_nat FRAME_FOOTER_BYTES) in
      decode_frame_footer frame_len decoded frame_header footer ;;
      Ok batch
  end.

(** The loop over the frames; every turn moves the offset over a frame, so
    the length of the file is enough fuel.  [None]: out of fuel. *)
Fixpoint scan_loop (fuel : nat) (torn_suffix : TornWalSuffix) (file : list Z) (base : Z)
    (last_rev : Z) (tail : option FrameTail) (offset : Z) (s : S)
    : option (result WalError (S * WalInspection * list Z)) :=
  let inspection := mkWalInspection base last_rev offset tail in
  let remaining := saturating_sub (file_len file) offset in
  let torn := Some ('(inspection, file) ← repair_or_reject_torn_suffix torn_suffix file inspection; Ok (s, inspection, file)) in
  if (remaining =? 0)%Z then Some (Ok (s, inspection, file))
  else if (remaining <? Z.of_nat FRAME_HEADER_BYTES)%Z then torn
  else
    let frame_header := read_at file offset (Z.of_nat FRAME_HEADER_BYTES) in
    match decode_frame_header frame_header with
    | Err e => Some (Err e)
    | Ok decoded =>
        match frame_len_of (fh_payload_len decoded) with
        | None => Some (invalid_wal "registry delta frame length overflow")
        | Some frame_len =>
            if (remaining <? frame_len)%Z then
              match payload_len_authenticated_by_final_footer file offset frame_header with
              | Some _ => Some (invalid_wal "complete frame has corrupted payload length")
              | None => torn
              end
            else
              match checked_next last_rev with
              | None => Some (invalid_wal "registry revision is exhausted before WAL end")
              | Some expected_first =>
                  if negb (first (fh_revisions decoded) =? expected_first)%Z then Some (invalid_wal "revision gap")
                  else
                    match (batch ← read_frame file offset frame_len decoded frame_header; visit s (fh_revisions decoded) batch) with
                    | Err e => Some (Err e)
                    | Ok s =>
                        match checked_add u64_max offset frame_len, fuel with
                        | None, _ => Some (invalid_wal "registry delta WAL offset overflow")
                        | Some _, O => None
                        | Some offset', Datatypes.S fuel =>
                            scan_loop fuel torn_suffix file base (last (fh_revisions decoded))
                              (Some (mkFrameTail offset (fh_payload_len decoded) (fh_payload_checksum decoded) (fh_revisions decoded)))
                              offset' s
                        end
                    end
              end
        end
    end.

Definition check_wal_len (file : list Z) : result WalError () :=
  ensure (file_len file <=? MAX_REGISTRY_DELTA_WAL_BYTES)%Z (RegistryDeltaWalTooLarge (file_len file) MAX_REGISTRY_DELTA_WAL_BYTES) ;;
  ensure (Z.of_nat WAL_HEADER_BYTES <=? file_len file)%Z (InvalidRegistryDeltaWal "WAL header is truncated").

(** The state of the visitor, the inspection and the file after the scan. *)
Definition scan_wal_with_policy (torn_suffix : TornWalSuffix) (file : list Z) (s : S)
    : option (result WalError (S * WalInspection * list Z)) :=
  match check_wal_len file ;; decode_wal_header (read_at file 0 (Z.of_nat WAL_HEADER_BYTES)) with
  | Err e => Some (Err e)
  | Ok base => scan_loop (length file) torn_suffix file base base None (Z.of_nat WAL_HEADER_BYTES) s
  end.
End Scan.

Definition scan_wal (repair_torn_suffix : bool) (file : list Z) : option (result WalError (WalInspection * list Z)) :=
  (λ r, '(_, inspection, file) ← r; Ok (inspection, file)) <$>
    scan_wal_with_policy (λ _ _ _, Ok ()) (if repair_torn_suffix then Repair else Reject) file ().

(** ** The tail *)

(** The last frame as its footer describes it; [None]: fall back to the scan. *)
Definition inspect_last_frame (file : list Z) (base : Z) : option (result WalError WalInspection) :=
  let footer := read_at file (file_len file - Z.of_nat FRAME_FOOTER_BYTES)%Z (Z.of_nat FRAME_FOOTER_BYTES) in
  frame_len ← frame_length_from_footer footer;
  if ((frame_len <? Z.of_nat (FRAME_HEADER_BYTES + FRAME_FOOTER_BYTES)) ||
      (saturating_sub (file_len file) (Z.of_nat WAL_HEADER_BYTES) <? frame_len))%Z then None
  else
    let frame_offset := (file_len file - frame_len)%Z in
    let frame_header := read_at file frame_offset (Z.of_nat FRAME_HEADER_BYTES) in
    match decode_frame_header frame_header with
    | Err _ => None
    | Ok decoded =>
        match frame_len_of (fh_payload_len decoded) with
        | None => Some (invalid_wal "registry delta frame length overflow")
        | Some expected_frame_len =>
            if negb (expected_frame_len =? frame_len)%Z then None
            else if negb (is_ok (decode_frame_footer frame_len decoded frame_header footer)) then None
            else
              Some (Ok (mkWalInspection base (last (fh_revisions decoded)) (file_len file)
                (Some (mkFrameTail frame_offset (fh_payload_len decoded) (fh_payload_checksum decoded) (fh_revisions decoded)))))
        end
    end.

Definition inspect_wal_tail (file : list Z) : option (result WalError (WalInspection * list Z)) :=
  match check_wal_len file ;; decode_wal_header (read_at file 0 (Z.of_nat WAL_HEADER_BYTES)) with
  | Err e => Some (Err e)
  | Ok base =>
      if (file_len file =? Z.of_nat WAL_HEADER_BYTES)%Z then Some (Ok (mkWalInspection base base (file_len file) None, file))
      else if (file_len file - Z.of_nat WAL_HEADER_BYTES <? Z.of_nat (FRAME_HEADER_BYTES + FRAME_FOOTER_BYTES))%Z then
        scan_wal true file
      else
        match inspect_last_frame file base with
        | Some inspected => Some (inspection ← inspected; Ok (inspection, file))
        | None => scan_wal true file
        end
  end.

Definition verify_last_frame_payload (file : list Z) (tail : FrameTail) : result WalError () :=
  let payload := read_at file (ft_offset tail + Z.of_nat FRAME_HEADER_BYTES)%Z (ft_payload_len tail) in
  ensure (bool_decide (blake3 payload = ft_payload_checksum tail))
    (InvalidRegistryDeltaWal "final durable frame payload checksum does not match its header").

(** ** Appending *)

(** The checks after the inspection: [true] for the idempotent retry of the
    last frame. *)
Definition check_append (file : list Z) (inspection : WalInspection) (revisions : RegistryRevisionRange)
    (payload : list Z) : result WalError bool :=
  match last_frame inspection with Some tail => verify_last_frame_payload file tail | None => Ok () end ;;
  match last_frame inspection with
  | Some tail =>
      if bool_decide (revisions = ft_revisions tail) then
        ensure (bool_decide (blake3 payload = ft_payload_checksum tail))
          (InvalidRegistryDeltaWal "retry for durable revision range carries different payload bytes") ;;
        Ok true
      else Ok false
  | None => Ok false
  end.

Definition check_new_frame (inspection : WalInspection) (revisions : RegistryRevisionRange) (payload : list Z)
    : result WalError () :=
  expected_first ← ok_or (checked_next (last_revision inspection)) (InvalidRegistryDeltaWal "registry revision is exhausted");
  ensure (first revisions =? expected_first)%Z
    (RegistryDeltaRevisionMismatch expected_first (first revisions) (last revisions)) ;;
  frame_bytes ← ok_or (frame_len_of (Z.of_nat (length payload))) (InvalidRegistryDeltaWal "registry delta frame length overflow");
  resulting_bytes ← ok_or (checked_add u64_max (complete_len inspection) frame_bytes)
    (InvalidRegistryDeltaWal "registry delta WAL length overflow");
  ensure (resulting_bytes <=? MAX_REGISTRY_DELTA_WAL_BYTES)%Z (RegistryDeltaWalTooLarge resulting_bytes MAX_REGISTRY_DELTA_WAL_BYTES).

(** The result and the file after the call.  [None]: out of fuel. *)
Definition append_to_wal (file : list Z) (revisions : RegistryRevisionRange) (frame_header payload frame_footer : list Z)
    : option (result WalError () * list Z) :=
  inspected ← inspect_wal_tail file;
  Some match inspected with
  | Err e => (Err e, file)
  | Ok (inspection, file) =>
      match check_append file inspection revisions payload with
      | Err e => (Err e, file)
      | Ok true => (Ok (), file)
      | Ok false =>
          match check_new_frame inspection revisions payload with
          | Err e => (Err e, file)
          | Ok _ =>
              (Ok (), copy_from_slice file (Z.to_nat (complete_len inspection)) (frame_header ++ payload ++ frame_footer))
          end
      end
  end.

(** [append_under_task_lock]: a missing log is created first. *)
Definition append_under_task_lock (wal : option (list Z)) (checkpoint_revision : Z) (revisions : RegistryRevisionRange)
    (frame_header payload frame_footer : list Z) : option (result WalError () * list Z) :=
  append_to_wal (default (encode_wal_header checkpoint_revision) wal) revisions frame_header payload frame_footer.

Record PreparedRegistryDelta : Type := mkPreparedRegistryDelta {
  pd_payload : list Z;
  pd_header : list Z;
  pd_footer : list Z
}.

Definition invalid_batch {A} (r : result RegistryDeltaValidationError A) : result WalError A :=
  match r with Ok a => Ok a | Err e => Err (InvalidRegistryDeltaBatch (inl e)) end.

Definition prepare_registry_delta (revisions : RegistryRevisionRange) (batch : Batch) : result WalError PreparedRegistryDelta :=
  invalid_batch (range_validate revisions) ;;
  invalid_batch (batch_validate batch) ;;
  let payload := to_vec batch in
  ensure (Z.of_nat (length payload) <=? MAX_REGISTRY_DELTA_FRAME_BYTES)%Z
    (RegistryDeltaFrameTooLarge (Z.of_nat (length payload)) MAX_REGISTRY_DELTA_FRAME_BYTES) ;;
  let header := encode_frame_header revisions payload in
  Ok (mkPreparedRegistryDelta payload header (encode_frame_footer header (Z.of_nat (length payload)))).

Definition invalid_relationships (r : result string ()) : result WalError () :=
  match r with Ok _ => Ok () | Err message => Err (InvalidTaskWatchRegistry message) end.

Definition prepare_registry_delta_candidate (tasks : Tasks) (watches : Watches) (batch : Batch)
    : result WalError (option (Tasks * Watches)) :=
  if preserves_authenticated_relationships batch tasks then Ok None
  else
    '(candidate_tasks, candidate_watches) ← invalid_batch (apply_to batch tasks watches);
    invalid_relationships (validate_task_watch_registry_relationships candidate_tasks candidate_watches) ;;
    Ok (Some (candidate_tasks, candidate_watches)).

(** ** Replay *)

Record LoadedTaskWatchRegistry : Type := mkLoadedTaskWatchRegistry {
  lt_tasks : Tasks;
  lt_watches : Watches;
  checkpoint_revision : Z;
  replayed_revision : Z
}.

(** The visitor of the replay; its state is the registries and the replayed
    revision. *)
Definition replay_frame (checkpoint : Z) (s : (Tasks * Watches) * Z) (revisions : RegistryRevisionRange) (batch : Batch)
    : result WalError ((Tasks * Watches) * Z) :=
  if (last revisions <=? checkpoint)%Z then Ok s
  else
    expected ← ok_or (checked_next s.2) (InvalidRegistryDeltaWal "registry revision is exhausted before a replayed frame");
    ensure (first revisions =? expected)%Z (InvalidRegistryDeltaWal "frame does not continue checkpoint/replay revision") ;;
    match apply_to_authenticated batch s.1.1 s.1.2 with
    | Err _ => invalid_wal "invalid batch"
    | Ok (relationships_unchanged, registries) =>
        match (if relationships_unchanged : bool then Ok ()
               else validate_task_watch_registry_relationships registries.1 registries.2) with
        | Err message => invalid_wal message
        | Ok _ => Ok (registries, last revisions)
        end
    end.

(** [replay_wal_with_policy] without the raw task records: the loaded
    registries, the tasks admitted by the log, the inspection and the log
    after the call. *)
Definition replay_wal_with_policy (wal : option (list Z)) (tasks : Tasks) (watches : Watches) (checkpoint : Z)
    (torn_suffix : TornWalSuffix)
    : option (result WalError (LoadedTaskWatchRegistry * gset string * option WalInspection * option (list Z))) :=
  match wal with
  | None => Some (Ok (mkLoadedTaskWatchRegistry tasks watches checkpoint checkpoint, ∅, None, None))
  | Some file =>
      scanned ← scan_wal_with_policy (replay_frame checkpoint) torn_suffix file ((tasks, watches), checkpoint);
      Some (
        '(registries, replayed, inspection, file) ← scanned;
        ensure (base_revision inspection <=? checkpoint)%Z
          (InvalidRegistryDeltaWal "WAL base revision is newer than committed checkpoint revision") ;;
        let replayed := if (last_revision inspection <? checkpoint)%Z then checkpoint else replayed in
        Ok (mkLoadedTaskWatchRegistry registries.1 registries.2 checkpoint replayed,
            dom registries.1 ∖ dom tasks, Some inspection, Some file))
  end.
End Wal.
