(* ===== verification/RegistryWalSpec.v ===== *)
(** * RegistryWalSpec: what a scan sees of an encoded log

    Scanning what the encoder wrote visits the frames in order, and a frame
    that a crash has torn is recognised as such, so that the policy for torn
    suffixes decides what happens to it. *)

From S2P Require Export RegistryDeltaSpec RegistryWal.

(** ** Slices of concatenations *)

Section Slices.
Context {A : Type}.
Implicit Types (l x r : list A).

Lemma slice_skip n x r a b : length x = n → n ≤ a → slice a b (x ++ r) = slice (a - n) (b - n) r.
Proof. intros <- Ha. unfold slice. rewrite drop_app_ge by done. f_equal. lia. Qed.

Lemma slice_here n x r : length x = n → slice 0 n (x ++ r) = x.
Proof. intros <-. unfold slice. by rewrite Nat.sub_0_r, drop_0, take_app_length. Qed.

Lemma slice_all n x : length x = n → slice 0 n x = x.
Proof. intros <-. unfold slice. rewrite Nat.sub_0_r, drop_0. apply take_ge. lia. Qed.

Lemma slice_slice a b c l : a ≤ b → b ≤ c → slice a b l ++ slice b c l = slice a c l.
Proof.
  intros Hab Hbc. unfold slice. rewrite <- (take_drop (b - a) (take (c - a) (drop a l))). f_equal.
  - rewrite take_take. f_equal. lia.
  - rewrite skipn_firstn_comm, drop_drop. f_equal; [lia|]. f_equal. lia.
Qed.
End Slices.

Lemma Forall_slice {A} (P : A → Prop) a b l : Forall P l → Forall P (slice a b l).
Proof. intros. unfold slice. by apply Forall_take, Forall_drop. Qed.

(** The width of a fixed field of the encodings. *)
Ltac field_width x :=
  match x with
  | to_le_bytes ?n _ => n
  | _ => let n := eval cbv in (length x) in n
  end.

(** Finds the field of a slice by skipping those before it. *)
Ltac slice_fields :=
  repeat match goal with
  | |- context [slice 0 ?n (?x ++ _)] => rewrite (slice_here n x) by (rewrite ?length_to_le_bytes; first [reflexivity|auto])
  | |- context [slice 0 ?n ?x] => rewrite (slice_all n x) by (rewrite ?length_to_le_bytes; first [reflexivity|auto])
  | |- context [slice ?a ?b (?x ++ ?r)] =>
      let n := field_width x in
      rewrite (slice_skip n x r a b) by (rewrite ?length_to_le_bytes; first [reflexivity|lia]); cbn [Nat.sub]
  end.

Lemma read_at_mid file pre x post offset len :
  file = pre ++ x ++ post → offset = Z.of_nat (length pre) → len = Z.of_nat (length x) → read_at file offset len = x.
Proof.
  intros -> -> ->. unfold read_at. rewrite <- Nat2Z.inj_add, !Nat2Z.id.
  rewrite (slice_skip (length pre)) by done. rewrite Nat.sub_diag.
  replace (length pre + length x - length pre) with (length x) by lia. by apply slice_here.
Qed.

Lemma frame_len_of_spec n : (0 <= n <= MAX_REGISTRY_DELTA_FRAME_BYTES)%Z → frame_len_of n = Some (n + 128)%Z.
Proof.
  unfold MAX_REGISTRY_DELTA_FRAME_BYTES, MAX_TASK_REGISTRY_BYTES, MAX_WATCH_REGISTRY_BYTES. intros Hn. unfold frame_len_of.
  unfold FRAME_HEADER_BYTES, FRAME_FOOTER_BYTES. rewrite checked_add_ok by (unfold u64_max; lia). cbn [mbind option_bind].
  rewrite checked_add_ok by (unfold u64_max; lia). f_equal. lia.
Qed.

Lemma to_le_bytes_lookup n x i : i < n → to_le_bytes n x !! i = Some (x / 256 ^ Z.of_nat i mod 256)%Z.
Proof.
  revert x i. induction n as [|n IH]; intros x [|i] Hi; [lia|lia| |]; cbn [to_le_bytes].
  - cbn. by rewrite Z.div_1_r.
  - cbn [lookup list_lookup]. rewrite IH by lia. do 2 f_equal. rewrite Nat2Z.inj_succ, Z.pow_succ_r by lia.
    rewrite Z.div_div by lia. done.
Qed.

(** The bytes above the value are zero. *)
Lemma to_le_bytes_zero n x i : i < n → (0 <= x < 256 ^ Z.of_nat i)%Z → to_le_bytes n x !! i = Some 0%Z.
Proof. intros Hi Hx. rewrite to_le_bytes_lookup by done. by rewrite Z.div_small. Qed.

(** ** Encoded logs *)

Section Encode.
Context (blake3 : list Z → list Z) (Hdigest : ∀ l, length (blake3 l) = 32).
Context {TBody WBody : Type} (from_slice : list Z → option (RegistryDeltaBatch TBody WBody)).

(** A frame of the log: what its header says and what its payload decodes to. *)
Record Frame : Type := mkFrame {
  fr_revisions : RegistryRevisionRange;
  fr_payload : list Z;
  fr_batch : RegistryDeltaBatch TBody WBody
}.

Record frame_ok (f : Frame) : Prop := {
  fo_first : (1 <= first (fr_revisions f))%Z;
  fo_last : (first (fr_revisions f) <= last (fr_revisions f) <= u64_max)%Z;
  fo_payload : (Z.of_nat (length (fr_payload f)) <= MAX_REGISTRY_DELTA_FRAME_BYTES)%Z;
  fo_decodes : from_slice (fr_payload f) = Some (fr_batch f);
  fo_valid : batch_wf (fr_batch f)
}.

Definition frame_header (f : Frame) : list Z := encode_frame_header blake3 (fr_revisions f) (fr_payload f).
Definition frame_footer (f : Frame) : list Z :=
  encode_frame_footer blake3 (frame_header f) (Z.of_nat (length (fr_payload f))).
Definition encode_frame (f : Frame) : list Z := frame_header f ++ fr_payload f ++ frame_footer f.

Definition encode_wal (base : Z) (fs : list Frame) : list Z :=
  encode_wal_header blake3 base ++ concat (encode_frame <$> fs).

(** Every frame begins after the one before it ends. *)
Fixpoint contiguous (base : Z) (fs : list Frame) : Prop :=
  match fs with
  | [] => True
  | f :: fs => first (fr_revisions f) = (base + 1)%Z ∧ contiguous (last (fr_revisions f)) fs
  end.

Definition last_of (base : Z) (fs : list Frame) : Z := foldl (λ _ f, last (fr_revisions f)) base fs.

Record wal_ok (base : Z) (fs : list Frame) : Prop := {
  wo_base : (0 <= base <= u64_max)%Z;
  wo_frames : Forall frame_ok fs;
  wo_contiguous : contiguous base fs
}.

Lemma contiguous_app base fs gs : contiguous base (fs ++ gs) ↔ contiguous base fs ∧ contiguous (last_of base fs) gs.
Proof using Type.
  revert base. induction fs as [|f fs IH]; intros base; cbn; [tauto|]. rewrite IH. unfold last_of. cbn. tauto.
Qed.

Lemma last_of_bound base fs : wal_ok base fs → (0 <= last_of base fs <= u64_max)%Z.
Proof using Type.
  intros [Hb Hfs _]. revert base Hb. induction Hfs as [|f fs Hf _ IH]; intros base Hb; [done|].
  unfold last_of. cbn. apply IH. destruct Hf. lia.
Qed.

(** *** Lengths *)

Lemma length_wal_header base : length (encode_wal_header blake3 base) = WAL_HEADER_BYTES.
Proof using Hdigest. unfold encode_wal_header. rewrite !length_app, !length_to_le_bytes, Hdigest. done. Qed.

Lemma length_frame_header f : length (frame_header f) = FRAME_HEADER_BYTES.
Proof using Hdigest. unfold frame_header, encode_frame_header. rewrite !length_app, !length_to_le_bytes, Hdigest. done. Qed.

Lemma header_last f : slice 32 40 (frame_header f) = to_le_bytes 8 (last (fr_revisions f)).
Proof using Type. unfold frame_header, encode_frame_header. by slice_fields. Qed.

Lemma length_frame_footer f : length (frame_footer f) = FRAME_FOOTER_BYTES.
Proof using Hdigest.
  unfold frame_footer, encode_frame_footer. rewrite header_last, !length_app, !length_to_le_bytes, Hdigest. done.
Qed.

Lemma length_encode_frame f : length (encode_frame f) = length (fr_payload f) + 128.
Proof using Hdigest.
  unfold encode_frame. rewrite !length_app, length_frame_header, length_frame_footer. unfold FRAME_HEADER_BYTES, FRAME_FOOTER_BYTES. lia.
Qed.

Lemma encode_wal_snoc base fs f : encode_wal base (fs ++ [f]) = encode_wal base fs ++ encode_frame f.
Proof using Type.
  unfold encode_wal. rewrite fmap_app, concat_app. cbn. by rewrite app_nil_r, app_assoc.
Qed.

Lemma encode_wal_length base fs : WAL_HEADER_BYTES + 128 * length fs ≤ length (encode_wal base fs).
Proof using Hdigest.
  unfold encode_wal. rewrite length_app, length_wal_header. apply Nat.add_le_mono_l.
  induction fs as [|f fs IH]; [simpl; lia|]. rewrite fmap_cons. cbn [concat length]. rewrite length_app, length_encode_frame. lia.
Qed.

(** *** Round trips of the headers and footers *)

Lemma u64_bytes x : (0 <= x <= u64_max)%Z → from_le_bytes (to_le_bytes 8 x) = x.
Proof using Type. intros. apply from_to_le_bytes. unfold u64_max in *. lia. Qed.

Lemma u32_bytes x : (0 <= x <= u32_max)%Z → from_le_bytes (to_le_bytes 4 x) = x.
Proof using Type. intros. apply from_to_le_bytes. unfold u32_max in *. lia. Qed.

Lemma decode_u32_slice l a x : a + 4 ≤ length l → slice a (a + 4) l = to_le_bytes 4 x → (0 <= x <= u32_max)%Z → decode_u32_le l a = Some x.
Proof using Type. intros Hl Hs Hx. unfold decode_u32_le. rewrite (proj2 (Nat.leb_le _ _)) by done. by rewrite Hs, u32_bytes. Qed.

Lemma decode_u64_slice l a x : a + 8 ≤ length l → slice a (a + 8) l = to_le_bytes 8 x → (0 <= x <= u64_max)%Z → decode_u64_le l a = Some x.
Proof using Type. intros Hl Hs Hx. unfold decode_u64_le. rewrite (proj2 (Nat.leb_le _ _)) by done. by rewrite Hs, u64_bytes. Qed.

Lemma decode_encode_wal_header base :
  (0 <= base <= u64_max)%Z → decode_wal_header blake3 (encode_wal_header blake3 base) = Ok base.
Proof using Hdigest.
  intros Hb. pose proof (length_wal_header base) as Hlen. unfold WAL_HEADER_BYTES in Hlen.
  assert (Hf : encode_wal_header blake3 base = slice 0 24 (encode_wal_header blake3 base) ++ blake3 (slice 0 24 (encode_wal_header blake3 base))).
  { unfold encode_wal_header. by rewrite (slice_here 24) by (rewrite !length_app, !length_to_le_bytes; done). }
  assert (H3 : slice 24 56 (encode_wal_header blake3 base) = blake3 (slice 0 24 (encode_wal_header blake3 base))).
  { rewrite Hf at 1. rewrite (slice_skip 24) by (rewrite ?slice_length; lia). apply slice_all, Hdigest. }
  unfold decode_wal_header. rewrite H3, (bool_decide_true (blake3 _ = _)) by done.
  rewrite (decode_u32_slice _ 8 WAL_FORMAT_VERSION); [|lia|unfold encode_wal_header; rewrite <- !app_assoc; by slice_fields|vm_compute; split; congruence].
  rewrite (decode_u32_slice _ 12 (Z.of_nat WAL_HEADER_BYTES)); [|lia|unfold encode_wal_header; rewrite <- !app_assoc; by slice_fields|vm_compute; split; congruence].
  rewrite (decode_u64_slice _ 16 base); [|lia|unfold encode_wal_header; rewrite <- !app_assoc; by slice_fields|done].
  rewrite bool_decide_true; [done|]. unfold encode_wal_header. rewrite <- !app_assoc. by slice_fields.
Qed.

Lemma frame_payload_fits f : frame_ok f → (0 <= Z.of_nat (length (fr_payload f)) <= u64_max)%Z.
Proof using Type.
  intros Hf. pose proof (fo_payload _ Hf).
  unfold MAX_REGISTRY_DELTA_FRAME_BYTES, MAX_TASK_REGISTRY_BYTES, MAX_WATCH_REGISTRY_BYTES, u64_max in *. lia.
Qed.

Definition decoded_of (f : Frame) : DecodedFrameHeader :=
  mkDecodedFrameHeader (Z.of_nat (length (fr_payload f))) (blake3 (fr_payload f)) (fr_revisions f).

Lemma decode_encode_frame_header f : frame_ok f → decode_frame_header (frame_header f) = Ok (decoded_of f).
Proof using Hdigest.
  intros Hf. pose proof (length_frame_header f) as Hlen. unfold FRAME_HEADER_BYTES in Hlen. pose proof (frame_payload_fits f Hf).
  pose proof Hf as [Hfirst Hlast Hpay _ _].
  assert (Hsl : ∀ a b x, slice a b (encode_frame_header blake3 (fr_revisions f) (fr_payload f)) = x → slice a b (frame_header f) = x) by done.
  unfold decode_frame_header.
  rewrite (decode_u32_slice _ 8 FRAME_FORMAT_VERSION); [|lia|apply Hsl; unfold encode_frame_header; by slice_fields|vm_compute; split; congruence].
  rewrite (decode_u32_slice _ 12 (Z.of_nat FRAME_HEADER_BYTES)); [|lia|apply Hsl; unfold encode_frame_header; by slice_fields|vm_compute; split; congruence].
  rewrite (decode_u64_slice _ 16 (Z.of_nat (length (fr_payload f)))); [|lia|apply Hsl; unfold encode_frame_header; by slice_fields|lia].
  rewrite (decode_u64_slice _ 24 (first (fr_revisions f))); [|lia|apply Hsl; unfold encode_frame_header; by slice_fields|lia].
  rewrite (decode_u64_slice _ 32 (last (fr_revisions f))); [|lia|apply Hsl; unfold encode_frame_header; by slice_fields|lia].
  rewrite (Hsl 40 72 (blake3 (fr_payload f))) by (unfold encode_frame_header; by slice_fields).
  rewrite bool_decide_true by (apply Hsl; unfold encode_frame_header; by slice_fields).
  cbn [ensure ok_or mbind result_bind]. rewrite !Z.eqb_refl. cbn [ensure mbind result_bind].
  rewrite (proj2 (Z.leb_le _ _) Hpay). cbn [ensure mbind result_bind]. unfold new_range, range_validate. cbn [first last].
  rewrite (proj2 (Z.eqb_neq _ _)) by lia. rewrite (proj2 (Z.ltb_ge _ _)) by lia. cbn [orb negb ensure mbind result_bind].
  unfold decoded_of. by destruct (fr_revisions f).
Qed.

Lemma footer_fields f :
  frame_ok f →
  slice 0 8 (frame_footer f) = FRAME_FOOTER_MAGIC ∧
  decode_u64_le (frame_footer f) 8 = Some (Z.of_nat (length (encode_frame f))) ∧
  slice 16 24 (frame_footer f) = slice 32 40 (frame_header f) ∧
  slice 24 56 (frame_footer f) = blake3 (frame_header f).
Proof using Hdigest.
  intros Hf. pose proof (length_frame_footer f) as Hlen. unfold FRAME_FOOTER_BYTES in Hlen. pose proof (frame_payload_fits f Hf).
  pose proof (fo_payload _ Hf). unfold MAX_REGISTRY_DELTA_FRAME_BYTES, MAX_TASK_REGISTRY_BYTES, MAX_WATCH_REGISTRY_BYTES, u64_max in *.
  assert (Hsl : ∀ a b x, slice a b (encode_frame_footer blake3 (frame_header f) (Z.of_nat (length (fr_payload f)))) = x →
    slice a b (frame_footer f) = x) by done.
  pose proof (header_last f) as Hl. split_and!.
  - apply Hsl. unfold encode_frame_footer. by slice_fields.
  - apply decode_u64_slice; [lia| |rewrite length_encode_frame; unfold u64_max; lia]. apply Hsl. unfold encode_frame_footer. rewrite length_encode_frame.
    slice_fields. f_equal. unfold FRAME_HEADER_BYTES, FRAME_FOOTER_BYTES. lia.
  - apply Hsl. unfold encode_frame_footer. rewrite Hl. by slice_fields.
  - apply Hsl. unfold encode_frame_footer. rewrite Hl. by slice_fields.
Qed.

Lemma decode_encode_footer f :
  frame_ok f → decode_frame_footer blake3 (Z.of_nat (length (encode_frame f))) (decoded_of f) (frame_header f) (frame_footer f) = Ok ().
Proof using Hdigest.
  intros Hf. destruct (footer_fields f Hf) as (H1 & H2 & H3 & H4). unfold decode_frame_footer.
  rewrite H1, H2, H4, !bool_decide_true by done. cbn [ensure ok_or mbind result_bind]. rewrite Z.eqb_refl. cbn [ensure mbind result_bind].
  rewrite (decode_u64_slice _ 16 (last (fr_revisions f))).
  - cbn [ok_or mbind result_bind]. unfold decoded_of. cbn [fh_revisions]. by rewrite Z.eqb_refl.
  - rewrite length_frame_footer. unfold FRAME_FOOTER_BYTES. lia.
  - change (16 + 8) with 24. rewrite H3. apply header_last.
  - destruct Hf. lia.
Qed.

(** ** The scan of an encoded log *)

Section ScanSpec.
Context {S : Type} (visit : S → RegistryRevisionRange → RegistryDeltaBatch TBody WBody → result WalError S).

Fixpoint visit_all (s : S) (fs : list Frame) : result WalError S :=
  match fs with
  | [] => Ok s
  | f :: fs => s ← visit s (fr_revisions f) (fr_batch f); visit_all s fs
  end.

Definition tail_of (offset : Z) (f : Frame) : FrameTail :=
  mkFrameTail offset (Z.of_nat (length (fr_payload f))) (blake3 (fr_payload f)) (fr_revisions f).

(** The tail after the frames that begin at the offset. *)
Fixpoint tail_after (offset : Z) (tail : option FrameTail) (fs : list Frame) : option FrameTail :=
  match fs with
  | [] => tail
  | f :: fs => tail_after (offset + Z.of_nat (length (encode_frame f))) (Some (tail_of offset f)) fs
  end.

Definition wal_inspection (base : Z) (fs : list Frame) : WalInspection :=
  mkWalInspection base (last_of base fs) (Z.of_nat (length (encode_wal base fs)))
    (tail_after (Z.of_nat WAL_HEADER_BYTES) None fs).

Lemma read_frame_encoded file pre f post :
  frame_ok f → file = pre ++ encode_frame f ++ post →
  read_frame blake3 from_slice file (Z.of_nat (length pre)) (Z.of_nat (length (encode_frame f))) (decoded_of f) (frame_header f) =
    Ok (fr_batch f).
Proof using Hdigest.
  intros Hf Hfile. unfold read_frame. cbn [decoded_of fh_payload_len fh_payload_checksum].
  assert (read_at file (Z.of_nat (length pre) + Z.of_nat FRAME_HEADER_BYTES) (Z.of_nat (length (fr_payload f))) = fr_payload f) as ->.
  { apply (read_at_mid _ (pre ++ frame_header f) _ (frame_footer f ++ post)); [|rewrite length_app, length_frame_header; lia|done].
    rewrite Hfile. unfold encode_frame. by rewrite <- !app_assoc. }
  assert (read_at file (Z.of_nat (length pre) + Z.of_nat FRAME_HEADER_BYTES + Z.of_nat (length (fr_payload f))) (Z.of_nat FRAME_FOOTER_BYTES) =
    frame_footer f) as ->.
  { apply (read_at_mid _ (pre ++ frame_header f ++ fr_payload f) _ post);
      [|rewrite !length_app, length_frame_header; lia|by rewrite length_frame_footer].
    rewrite Hfile. unfold encode_frame. by rewrite <- !app_assoc. }
  rewrite bool_decide_true by done. cbn [ensure mbind result_bind]. rewrite (fo_decodes _ Hf). cbn [ok_or mbind result_bind].
  rewrite (proj2 (batch_validate_wf _) (fo_valid _ Hf)). by rewrite decode_encode_footer.
Qed.

(** The scan of a complete frame visits it and goes on behind it. *)
Lemma scan_step fuel torn file base lastr tail pre f post s :
  frame_ok f → first (fr_revisions f) = (lastr + 1)%Z → file = pre ++ encode_frame f ++ post →
  (file_len file <= MAX_REGISTRY_DELTA_WAL_BYTES)%Z →
  scan_loop blake3 from_slice visit (Datatypes.S fuel) torn file base lastr tail (Z.of_nat (length pre)) s =
  match visit s (fr_revisions f) (fr_batch f) with
  | Err e => Some (Err e)
  | Ok s => scan_loop blake3 from_slice visit fuel torn file base (last (fr_revisions f))
              (Some (tail_of (Z.of_nat (length pre)) f)) (Z.of_nat (length (pre ++ encode_frame f))) s
  end.
Proof using Hdigest.
  intros Hf Hfirst Hfile Hlen. cbn [scan_loop].
  assert (Hrem : saturating_sub (file_len file) (Z.of_nat (length pre)) = Z.of_nat (length (encode_frame f) + length post)).
  { unfold file_len. rewrite Hfile, !length_app. rewrite saturating_sub_exact by lia. lia. }
  pose proof (length_encode_frame f) as Hfl. rewrite Hrem.
  rewrite (proj2 (Z.eqb_neq _ _)) by lia. rewrite (proj2 (Z.ltb_ge _ _)) by (unfold FRAME_HEADER_BYTES; lia).
  rewrite (read_at_mid file pre (frame_header f) (fr_payload f ++ frame_footer f ++ post));
    [|rewrite Hfile; unfold encode_frame; by rewrite <- !app_assoc|done|by rewrite length_frame_header].
  rewrite (decode_encode_frame_header f Hf). cbn [decoded_of fh_payload_len fh_revisions fh_payload_checksum].
  rewrite frame_len_of_spec by (pose proof (fo_payload _ Hf); lia).
  replace (Z.of_nat (length (fr_payload f)) + 128)%Z with (Z.of_nat (length (encode_frame f))) by lia.
  rewrite (proj2 (Z.ltb_ge _ _)) by lia. unfold checked_next.
  rewrite checked_add_ok by (destruct Hf; lia). rewrite Hfirst, Z.eqb_refl. cbn [negb].
  change (mkDecodedFrameHeader (Z.of_nat (length (fr_payload f))) (blake3 (fr_payload f)) (fr_revisions f)) with (decoded_of f).
  rewrite (read_frame_encoded file pre f post Hf Hfile). cbn [mbind result_bind].
  destruct (visit s (fr_revisions f) (fr_batch f)) as [s'|e]; [|done].
  assert (Hoff : (Z.of_nat (length pre) + Z.of_nat (length (encode_frame f)) <= file_len file)%Z).
  { unfold file_len. rewrite Hfile, !length_app. lia. }
  rewrite checked_add_ok by (unfold MAX_REGISTRY_DELTA_WAL_BYTES, u64_max in *; lia).
  rewrite length_app, Nat2Z.inj_add. done.
Qed.

Lemma scan_frames fs fuel torn file base lastr tail pre rest s :
  Forall frame_ok fs → contiguous lastr fs → file = pre ++ concat (encode_frame <$> fs) ++ rest →
  (file_len file <= MAX_REGISTRY_DELTA_WAL_BYTES)%Z →
  scan_loop blake3 from_slice visit (length fs + fuel) torn file base lastr tail (Z.of_nat (length pre)) s =
  match visit_all s fs with
  | Err e => Some (Err e)
  | Ok s => scan_loop blake3 from_slice visit fuel torn file base (last_of lastr fs) (tail_after (Z.of_nat (length pre)) tail fs)
              (Z.of_nat (length (pre ++ concat (encode_frame <$> fs)))) s
  end.
Proof using Hdigest.
  intros Hfs. revert lastr tail pre s. induction Hfs as [|f fs Hf _ IH]; intros lastr tail pre s Hc Hfile Hlen.
  { cbn. by rewrite app_nil_r. }
  destruct Hc as [Hfirst Hc]. rewrite fmap_cons in Hfile |- *. cbn [concat] in Hfile |- *. cbn [length Nat.add].
  rewrite (scan_step _ _ _ _ _ _ pre f (concat (encode_frame <$> fs) ++ rest)); [|done|done|by rewrite Hfile, <- !app_assoc|done].
  cbn [visit_all]. destruct (visit s (fr_revisions f) (fr_batch f)) as [s'|e]; [|done]. cbn [mbind result_bind].
  rewrite (IH (last (fr_revisions f)) _ (pre ++ encode_frame f)); [|done|by rewrite Hfile, <- !app_assoc|done].
  destruct (visit_all s' fs); [|done]. cbn [tail_after]. unfold last_of. cbn [foldl].
  by rewrite <- app_assoc, (length_app pre (encode_frame f)), Nat2Z.inj_add.
Qed.

Lemma scan_done fuel torn file base lastr tail s :
  scan_loop blake3 from_slice visit fuel torn file base lastr tail (file_len file) s =
    Some (Ok (s, mkWalInspection base lastr (file_len file) tail, file)).
Proof using Type.
  destruct fuel; cbn [scan_loop]; unfold saturating_sub; rewrite Z.sub_diag; done.
Qed.

Lemma scan_start torn base fs rest s :
  wal_ok base fs → (file_len (encode_wal base fs ++ rest) <= MAX_REGISTRY_DELTA_WAL_BYTES)%Z →
  ∃ fuel, 0 < fuel ∧ scan_wal_with_policy blake3 from_slice visit torn (encode_wal base fs ++ rest) s =
    match visit_all s fs with
    | Err e => Some (Err e)
    | Ok s => scan_loop blake3 from_slice visit fuel torn (encode_wal base fs ++ rest) base (last_of base fs)
                (tail_after (Z.of_nat WAL_HEADER_BYTES) None fs) (Z.of_nat (length (encode_wal base fs))) s
    end.
Proof using Hdigest.
  intros Hwal Hlen. pose proof (encode_wal_length base fs) as Hl. unfold WAL_HEADER_BYTES in Hl.
  exists (length (encode_wal base fs ++ rest) - length fs). split; [rewrite length_app; lia|].
  unfold scan_wal_with_policy, check_wal_len. rewrite (proj2 (Z.leb_le _ _) Hlen). cbn [ensure mbind result_bind].
  rewrite (proj2 (Z.leb_le _ _)) by (unfold file_len, WAL_HEADER_BYTES; rewrite length_app; lia). cbn [ensure mbind result_bind].
  rewrite (read_at_mid _ [] (encode_wal_header blake3 base) (concat (encode_frame <$> fs) ++ rest));
    [|unfold encode_wal; by rewrite <- app_assoc|done|by rewrite length_wal_header].
  rewrite decode_encode_wal_header by apply Hwal.
  replace (length (encode_wal base fs ++ rest)) with (length fs + (length (encode_wal base fs ++ rest) - length fs)) at 1 by (rewrite length_app; lia).
  rewrite <- (length_wal_header base) at 1.
  rewrite (scan_frames fs _ _ _ _ _ _ (encode_wal_header blake3 base) rest); [|apply Hwal|apply Hwal|unfold encode_wal; by rewrite <- app_assoc|done].
  destruct (visit_all s fs); [|done]. by rewrite length_wal_header.
Qed.

Lemma scan_encoded torn base fs s :
  wal_ok base fs → (file_len (encode_wal base fs) <= MAX_REGISTRY_DELTA_WAL_BYTES)%Z →
  scan_wal_with_policy blake3 from_slice visit torn (encode_wal base fs) s =
    Some (s ← visit_all s fs; Ok (s, wal_inspection base fs, encode_wal base fs)).
Proof using Hdigest.
  intros Hwal Hlen. rewrite <- (app_nil_r (encode_wal base fs)) at 1. rewrite <- (app_nil_r (encode_wal base fs)) in Hlen.
  destruct (scan_start torn base fs [] s Hwal Hlen) as (fuel & _ & ->). destruct (visit_all s fs); [|done].
  cbn [mbind result_bind]. rewrite app_nil_r. apply scan_done.
Qed.

(** *** Torn frames *)

(** What is known of the frames that a daemon writes: JSON text holds no NUL,
    and the revisions, counted up from zero, stay far below [2^56]. *)
Record frame_plain (f : Frame) : Prop := {
  fp_ok : frame_ok f;
  fp_text : Forall (λ b, 1 <= b <= 255)%Z (fr_payload f);
  fp_revision : (last (fr_revisions f) < 2 ^ 56)%Z
}.

Lemma frame_zero_bytes f i : frame_plain f → i = 23 ∨ i = 31 ∨ i = 39 → encode_frame f !! i = Some 0%Z.
Proof using Hdigest.
  intros [Hf _ Hr] Hi. pose proof (length_frame_header f) as Hl. unfold FRAME_HEADER_BYTES in Hl.
  unfold encode_frame. rewrite lookup_app_l by (destruct Hi as [->|[->| ->]]; lia).
  assert (Hlook : ∀ a x, slice a (a + 8) (frame_header f) = to_le_bytes 8 x → (0 <= x < 256 ^ 7)%Z →
    frame_header f !! (a + 7) = Some 0%Z).
  { intros a x Hs Hx. rewrite <- (slice_lookup a (a + 8)) by lia. rewrite Hs. apply to_le_bytes_zero; [lia|done]. }
  pose proof (fo_payload _ Hf). unfold MAX_REGISTRY_DELTA_FRAME_BYTES, MAX_TASK_REGISTRY_BYTES, MAX_WATCH_REGISTRY_BYTES in *.
  destruct Hf as [Hfirst Hlast _ _ _]. destruct Hi as [->|[->| ->]].
  - apply (Hlook 16 (Z.of_nat (length (fr_payload f)))); [|lia]. cbn [Nat.add]. unfold frame_header, encode_frame_header. by slice_fields.
  - apply (Hlook 24 (first (fr_revisions f))); [|lia]. cbn [Nat.add]. unfold frame_header, encode_frame_header. by slice_fields.
  - apply (Hlook 32 (last (fr_revisions f))); [|lia]. cbn [Nat.add]. unfold frame_header, encode_frame_header. by slice_fields.
Qed.

Lemma magic_nonzero i b : FRAME_FOOTER_MAGIC !! i = Some b → b ≠ 0%Z.
Proof using Type. intros Hi%list_elem_of_lookup_2. unfold FRAME_FOOTER_MAGIC in Hi. repeat (apply elem_of_cons in Hi as [->|Hi]; [done|]). by apply elem_of_nil in Hi. Qed.

Lemma magic_lookup i : i < 8 → is_Some (FRAME_FOOTER_MAGIC !! i).
Proof using Type. intros. apply lookup_lt_is_Some. done. Qed.

Definition digest_holds_magic (f : Frame) : Prop := ∃ a, slice a (a + 8) (blake3 (fr_payload f)) = FRAME_FOOTER_MAGIC.

(** The bytes of a frame that end a torn write do not look like a footer that
    ends there, but for a digest that happens to hold the footer's magic. *)
Lemma no_false_footer f k :
  frame_plain f → 72 ≤ k < length (encode_frame f) →
  slice (k - 56) (k - 48) (encode_frame f) = FRAME_FOOTER_MAGIC →
  slice (k - 48) (k - 40) (encode_frame f) = to_le_bytes 8 (Z.of_nat k) → digest_holds_magic f.
Proof using Hdigest.
  intros Hp Hk Hmagic Hlen. pose proof Hp as [Hf Htext Hrev]. pose proof (length_encode_frame f) as HF.
  pose proof (length_frame_header f) as Hh. unfold FRAME_HEADER_BYTES in Hh.
  pose proof (fo_payload _ Hf) as Hpay. unfold MAX_REGISTRY_DELTA_FRAME_BYTES, MAX_TASK_REGISTRY_BYTES, MAX_WATCH_REGISTRY_BYTES in Hpay.
  assert (Hm : ∀ i, i < 8 → encode_frame f !! (k - 56 + i) = FRAME_FOOTER_MAGIC !! i).
  { intros i Hi. rewrite <- Hmagic, slice_lookup by lia. done. }
  assert (Hz : ∀ j, j < 4 → encode_frame f !! (k - 44 + j) = Some 0%Z).
  { intros j Hj. replace (k - 44 + j) with (k - 48 + (4 + j)) by lia. rewrite <- (slice_lookup _ (k - 40)) by lia. rewrite Hlen.
    apply to_le_bytes_zero; [lia|]. split; [lia|]. apply Z.lt_le_trans with (256 ^ 4)%Z; [lia|]. apply Z.pow_le_mono_r; lia. }
  assert (Hclash : ∀ p, k - 56 ≤ p < k - 48 → encode_frame f !! p = Some 0%Z → False).
  { intros p Hp1 Hp2. replace p with (k - 56 + (p - (k - 56))) in Hp2 by lia. rewrite Hm in Hp2 by lia. by apply magic_nonzero in Hp2. }
  assert (Hpayload : ∀ p, 72 ≤ p < 72 + length (fr_payload f) → encode_frame f !! p = Some 0%Z → False).
  { intros p Hp1. unfold encode_frame. rewrite lookup_app_r, lookup_app_l by lia. rewrite Hh. intros Hp2.
    eapply Forall_lookup_1 in Htext; [|exact Hp2]. cbn in Htext. lia. }
  assert (Hfooter : ∀ i, i < 8 → encode_frame f !! (72 + length (fr_payload f) + i) = FRAME_FOOTER_MAGIC !! i).
  { intros i Hi. unfold encode_frame. rewrite !lookup_app_r by lia. rewrite Hh.
    destruct (footer_fields f Hf) as (<- & _). rewrite slice_lookup by lia. f_equal. lia. }
  destruct (decide (k < 80)); [exfalso; apply (Hclash 23); [lia|apply frame_zero_bytes; auto]|].
  destruct (decide (k < 88)); [exfalso; apply (Hclash 31); [lia|apply frame_zero_bytes; auto]|].
  destruct (decide (k < 96)); [exfalso; apply (Hclash 39); [lia|apply frame_zero_bytes; auto]|].
  destruct (decide (k ≤ 112)).
  { exists (k - 96). rewrite <- Hmagic. unfold encode_frame. apply list_eq. intros i. destruct (decide (i < 8)) as [Hi|Hi].
    - rewrite !slice_lookup by lia. rewrite lookup_app_l by lia.
      assert (slice 40 72 (frame_header f) = blake3 (fr_payload f)) as <- by (unfold frame_header, encode_frame_header; by slice_fields).
      rewrite slice_lookup by lia. f_equal. lia.
    - rewrite !lookup_ge_None_2; [done|rewrite slice_length; rewrite ?length_app, ?Hdigest; lia..]. }
  exfalso. destruct (decide (k - 44 < 72 + length (fr_payload f))) as [Hin|Hin].
  { destruct (decide (72 ≤ k - 44)); [eapply (Hpayload (k - 44 + 0)); [lia|apply Hz; lia]|].
    assert (Hz72 : encode_frame f !! 72 = Some 0%Z) by (replace 72 with (k - 44 + (116 - k)) by lia; apply Hz; lia).
    destruct (decide (length (fr_payload f) = 0)) as [H0|]; [|by apply (Hpayload 72); [lia|]].
    pose proof (Hfooter 0 ltac:(lia)) as E. rewrite H0 in E. cbn [Nat.add] in E. rewrite Hz72 in E. done. }
  set (o := k - 44 - 72 - length (fr_payload f)). assert (o < 12) by (unfold o; lia).
  destruct (decide (o < 8)).
  { pose proof (Hz 0 ltac:(lia)) as E. replace (k - 44 + 0) with (72 + length (fr_payload f) + o) in E by (unfold o; lia).
    rewrite Hfooter in E by done. by apply magic_nonzero in E. }
  pose proof (Hm (12 - o) ltac:(lia)) as E.
  replace (k - 56 + (12 - o)) with (72 + length (fr_payload f) + 0) in E by (unfold o; lia). rewrite Hfooter in E by lia.
  assert (o = 8 ∨ o = 9 ∨ o = 10 ∨ o = 11) as [->|[->|[->| ->]]] by lia; discriminate E.
Qed.

Context (Hbytes : ∀ l, Forall byte (blake3 l)).

Lemma byte_lookup l i b : Forall byte l → l !! i = Some b → byte b.
Proof using Type. intros Hl Hi. by eapply Forall_lookup_1 in Hl. Qed.

Lemma encode_frame_bytes f : Forall byte (fr_payload f) → Forall byte (encode_frame f).
Proof using Hbytes.
  intros Hp. unfold encode_frame, frame_footer, encode_frame_footer, frame_header, encode_frame_header.
  assert (Forall byte FRAME_MAGIC ∧ Forall byte FRAME_FOOTER_MAGIC) as [Hm1 Hm2].
  { split; apply (bool_decide_unpack _); vm_compute; exact I. }
  rewrite !Forall_app. split_and!; try done; try apply to_le_bytes_byte; try apply Hbytes. apply Forall_slice.
  rewrite !Forall_app. split_and!; try done; try apply to_le_bytes_byte.
Qed.

Lemma torn_not_authenticated pre f k :
  frame_plain f → 72 ≤ k < length (encode_frame f) →
  payload_len_authenticated_by_final_footer blake3 (pre ++ take k (encode_frame f)) (Z.of_nat (length pre)) (frame_header f) = None ∨
  digest_holds_magic f.
Proof using Hdigest Hbytes.
  intros Hp Hk. unfold payload_len_authenticated_by_final_footer. set (file := pre ++ _).
  assert (Hlen : file_len file = (Z.of_nat (length pre) + Z.of_nat k)%Z).
  { unfold file_len, file. rewrite length_app, length_take. lia. }
  assert (saturating_sub (file_len file) (Z.of_nat (length pre)) = Z.of_nat k) as -> by (rewrite saturating_sub_exact; lia).
  destruct (checked_sub _ _) as [payload_len|]; [|by left]. cbn [mbind option_bind].
  assert (read_at file (file_len file - Z.of_nat FRAME_FOOTER_BYTES) (Z.of_nat FRAME_FOOTER_BYTES) = slice (k - 56) k (encode_frame f)) as ->.
  { apply (read_at_mid _ (pre ++ take (k - 56) (encode_frame f)) _ []).
    - unfold file, slice. rewrite app_nil_r, <- app_assoc, take_take_drop. do 2 f_equal. lia.
    - rewrite Hlen, length_app, length_take. unfold FRAME_FOOTER_BYTES. lia.
    - rewrite slice_length by lia. unfold FRAME_FOOTER_BYTES. lia. }
  destruct (bool_decide (frame_length_from_footer _ = _)) eqn:E; cbn [negb orb]; [|by left].
  reflect_bool. unfold frame_length_from_footer in E. case_bool_decide as Hm; [|done].
  assert (Hslice : ∀ a b, a ≤ b ≤ 56 → slice a b (slice (k - 56) k (encode_frame f)) = slice (k - 56 + a) (k - 56 + b) (encode_frame f)).
  { intros a b Hab. unfold slice. rewrite skipn_firstn_comm, take_take, drop_drop. f_equal. lia. }
  rewrite Hslice in Hm by lia. unfold decode_u64_le in E. rewrite slice_length in E by lia.
  rewrite (proj2 (Nat.leb_le _ _)) in E by lia. injection E as E. rewrite Hslice in E by lia.
  right. apply (no_false_footer f k Hp Hk).
  - rewrite <- Hm. f_equal; lia.
  - replace (k - 48) with (k - 56 + 8) by lia. replace (k - 40) with (k - 56 + (8 + 8)) by lia. rewrite <- E.
    set (l := slice _ _ _). assert (length l = 8) as <- by (unfold l; rewrite slice_length; lia).
    symmetry. apply to_from_le_bytes. unfold l. apply Forall_slice, encode_frame_bytes.
    eapply Forall_impl; [apply (fp_text _ Hp)|]. intros b Hb. unfold byte. cbn in Hb. lia.
Qed.

Lemma scan_torn_loop fuel torn pre f k base lastr tail s :
  frame_plain f → 0 < k < length (encode_frame f) →
  let file := pre ++ take k (encode_frame f) in
  let inspection := mkWalInspection base lastr (Z.of_nat (length pre)) tail in
  scan_loop blake3 from_slice visit fuel torn file base lastr tail (Z.of_nat (length pre)) s =
    Some ('(inspection, file) ← repair_or_reject_torn_suffix torn file inspection; Ok (s, inspection, file)) ∨
  digest_holds_magic f.
Proof using Hdigest Hbytes.
  intros Hp Hk file inspection.
  assert (Hlen : file_len file = (Z.of_nat (length pre) + Z.of_nat k)%Z).
  { unfold file_len, file. rewrite length_app, length_take. lia. }
  assert (Hrem : saturating_sub (file_len file) (Z.of_nat (length pre)) = Z.of_nat k) by (rewrite saturating_sub_exact; lia).
  destruct fuel as [|fuel]; cbn [scan_loop]; rewrite Hrem, (proj2 (Z.eqb_neq _ _)) by lia;
    (destruct (Z.of_nat k <? Z.of_nat FRAME_HEADER_BYTES)%Z eqn:E; [by left|]; reflect_bool; unfold FRAME_HEADER_BYTES in E;
     rewrite (read_at_mid file pre (frame_header f) (take (k - 72) (fr_payload f ++ frame_footer f)));
     [|unfold file, encode_frame; rewrite (take_app_ge (frame_header f)), length_frame_header;
        [done|rewrite length_frame_header; unfold FRAME_HEADER_BYTES; lia]|done|by rewrite length_frame_header];
     rewrite decode_encode_frame_header by apply Hp; cbn [decoded_of fh_payload_len];
     rewrite frame_len_of_spec by (pose proof (fo_payload _ (fp_ok _ Hp)); lia);
     rewrite (length_encode_frame f) in Hk; rewrite (proj2 (Z.ltb_lt _ _)) by lia;
     destruct (torn_not_authenticated pre f k Hp) as [Hnone|]; [rewrite length_encode_frame; lia| |by right];
      left; unfold file; by rewrite Hnone).
Qed.

(** A log whose last frame was cut: the scan visits the frames before it, then
    repairs, tolerates or rejects the rest. *)
Lemma scan_torn torn base fs f k s :
  wal_ok base fs → frame_plain f → 0 < k < length (encode_frame f) →
  (file_len (encode_wal base fs ++ take k (encode_frame f)) <= MAX_REGISTRY_DELTA_WAL_BYTES)%Z →
  scan_wal_with_policy blake3 from_slice visit torn (encode_wal base fs ++ take k (encode_frame f)) s =
    Some (s ← visit_all s fs;
          '(inspection, file) ← repair_or_reject_torn_suffix torn (encode_wal base fs ++ take k (encode_frame f)) (wal_inspection base fs);
          Ok (s, inspection, file)) ∨
  digest_holds_magic f.
Proof using Hdigest Hbytes.
  intros Hwal Hp Hk Hlen. destruct (scan_start torn base fs _ s Hwal Hlen) as (fuel & _ & ->).
  destruct (visit_all s fs) as [s'|e]; [|by left].
  destruct (scan_torn_loop fuel torn (encode_wal base fs) f k base (last_of base fs) (tail_after (Z.of_nat WAL_HEADER_BYTES) None fs) s' Hp Hk)
    as [->|]; [by left|by right].
Qed.
End ScanSpec.
End Encode.
