(* ===== verification/RegistryLog.v ===== *)
(** * RegistryLog: the registry log as a durable sequence of batches

    The converse of the encoding: whatever a scan accepts is the encoding of
    contiguous valid frames, and the scan always ends.  The inspection of the
    tail reads off the same, and appending adds one frame or nothing. *)

From S2P Require Export RegistryWalSpec.

Section Decode.
Context (blake3 : list Z → list Z) (Hdigest : ∀ l, length (blake3 l) = 32).
Context {TBody WBody : Type} (from_slice : list Z → option (RegistryDeltaBatch TBody WBody)).
Local Abbreviation FrameT := (Frame (TBody := TBody) (WBody := WBody)).
Local Abbreviation encode_frame := (encode_frame blake3 (TBody := TBody) (WBody := WBody)).
Local Abbreviation encode_wal := (encode_wal blake3 (TBody := TBody) (WBody := WBody)).
Local Abbreviation frame_ok := (frame_ok from_slice).
Local Abbreviation wal_ok := (wal_ok from_slice).

(** ** What the decoders accept *)

Lemma decode_u64_inv l a x :
  Forall byte l → decode_u64_le l a = Some x → slice a (a + 8) l = to_le_bytes 8 x ∧ (0 <= x <= u64_max)%Z.
Proof using Type.
  intros Hl. unfold decode_u64_le. destruct (a + 8 <=? length l) eqn:E; [|done]. reflect_bool. intros [= <-].
  assert (Hs : length (slice a (a + 8) l) = 8) by (rewrite slice_length; lia).
  pose proof (Forall_slice _ a (a + 8) _ Hl) as Hb. split; [symmetry; rewrite <- Hs at 1; by apply to_from_le_bytes|].
  pose proof (from_le_bytes_bound _ Hb) as Hbd. rewrite Hs in Hbd. unfold u64_max. lia.
Qed.

Lemma decode_u32_inv l a x : Forall byte l → decode_u32_le l a = Some x → slice a (a + 4) l = to_le_bytes 4 x.
Proof using Type.
  intros Hl. unfold decode_u32_le. destruct (a + 4 <=? length l) eqn:E; [|done]. reflect_bool. intros [= <-].
  assert (Hs : length (slice a (a + 4) l) = 4) by (rewrite slice_length; lia).
  symmetry. rewrite <- Hs at 1. apply to_from_le_bytes. by apply Forall_slice.
Qed.

Lemma slice_full {A} (l : list A) : l = slice 0 (length l) l.
Proof using Type. by rewrite slice_all. Qed.

(** Reads the fields that the decoders have checked. *)
Ltac decoded_fields :=
  repeat match goal with
  | H : decode_u32_le _ _ = Some _ |- _ => apply decode_u32_inv in H; [|done]
  | H : decode_u64_le _ _ = Some _ |- _ => apply decode_u64_inv in H as [H ?]; [|done]
  end;
  repeat match goal with
  | H : slice _ (?a + ?k) _ = _ |- _ => let n := eval cbv in (a + k) in change (a + k) with n in H
  end.

Lemma decode_wal_header_inv h base :
  length h = WAL_HEADER_BYTES → Forall byte h → decode_wal_header blake3 h = Ok base →
  h = encode_wal_header blake3 base ∧ (0 <= base <= u64_max)%Z.
Proof using Type.
  intros Hlen Hb. unfold decode_wal_header, WAL_HEADER_BYTES in *. intros H. inv_result. reflect_bool. subst.
  decoded_fields.
  split; [|done]. rewrite (slice_full h), Hlen, <- (slice_slice 0 24 56) by lia. unfold encode_wal_header, WAL_HEADER_BYTES.
  assert (slice 0 24 h = WAL_MAGIC ++ to_le_bytes 4 WAL_FORMAT_VERSION ++ to_le_bytes 4 (Z.of_nat 56) ++ to_le_bytes 8 base) as Hf.
  { rewrite <- (slice_slice 0 8 24), <- (slice_slice 8 12 24), <- (slice_slice 12 16 24) by lia. congruence. }
  by rewrite Ha4, Hf.
Qed.

Lemma decode_frame_header_inv h d :
  length h = FRAME_HEADER_BYTES → Forall byte h → decode_frame_header h = Ok d →
  h = FRAME_MAGIC ++ to_le_bytes 4 FRAME_FORMAT_VERSION ++ to_le_bytes 4 (Z.of_nat FRAME_HEADER_BYTES) ++
      to_le_bytes 8 (fh_payload_len d) ++ to_le_bytes 8 (first (fh_revisions d)) ++ to_le_bytes 8 (last (fh_revisions d)) ++
      fh_payload_checksum d ∧
  (0 <= fh_payload_len d <= MAX_REGISTRY_DELTA_FRAME_BYTES)%Z ∧ (1 <= first (fh_revisions d) <= last (fh_revisions d))%Z ∧
  (last (fh_revisions d) <= u64_max)%Z.
Proof using Type.
  intros Hlen Hb. unfold decode_frame_header, FRAME_HEADER_BYTES in *. intros H. inv_result.
  match goal with H : match new_range ?a ?b with _ => _ end = _ |- _ => unfold new_range in H; destruct (range_validate _) as [[]|] eqn:Hv; [|discriminate H]; cbn [mbind result_bind] in H end.
  inv_result. subst d. cbn [fh_payload_len fh_revisions fh_payload_checksum first last].
  unfold range_validate in Hv. cbn [first last] in Hv. inv_result. reflect_bool. subst.
  decoded_fields. reflect_bool.
  split; [|split_and!; lia].
  rewrite (slice_full h) at 1. rewrite Hlen, <- (slice_slice 0 8 72), <- (slice_slice 8 12 72), <- (slice_slice 12 16 72),
    <- (slice_slice 16 24 72), <- (slice_slice 24 32 72), <- (slice_slice 32 40 72) by lia. congruence.
Qed.

Lemma decode_frame_footer_inv frame_len d h footer :
  length footer = FRAME_FOOTER_BYTES → Forall byte footer → decode_frame_footer blake3 frame_len d h footer = Ok () →
  footer = FRAME_FOOTER_MAGIC ++ to_le_bytes 8 frame_len ++ to_le_bytes 8 (last (fh_revisions d)) ++ blake3 h.
Proof using Type.
  intros Hlen Hb. unfold decode_frame_footer, FRAME_FOOTER_BYTES in *. intros H. inv_result. reflect_bool. subst.
  decoded_fields.
  rewrite (slice_full footer), Hlen, <- (slice_slice 0 8 56), <- (slice_slice 8 16 56), <- (slice_slice 16 24 56) by lia.
  congruence.
Qed.

Lemma read_at_byte file a b : Forall byte file → Forall byte (read_at file a b).
Proof using Type. apply Forall_slice. Qed.

Lemma read_at_length file a n :
  (0 <= a)%Z → (0 <= n)%Z → (a + n <= file_len file)%Z → length (read_at file a n) = Z.to_nat n.
Proof using Type. unfold file_len. intros. unfold read_at. rewrite slice_length; lia. Qed.

Lemma read_at_join file a m n : (0 <= a)%Z → (0 <= m)%Z → (0 <= n)%Z → read_at file a m ++ read_at file (a + m) n = read_at file a (m + n).
Proof using Type. intros. unfold read_at. rewrite Z.add_assoc. apply slice_slice; lia. Qed.

(** A frame that the scan reads is the encoding of what it decodes. *)
Lemma read_frame_inv file offset d batch :
  Forall byte file → (0 <= offset)%Z → (offset + 72 <= file_len file)%Z → (offset + (fh_payload_len d + 128) <= file_len file)%Z →
  decode_frame_header (read_at file offset (Z.of_nat FRAME_HEADER_BYTES)) = Ok d →
  read_frame blake3 from_slice file offset (fh_payload_len d + 128) d (read_at file offset (Z.of_nat FRAME_HEADER_BYTES)) = Ok batch →
  ∃ f : FrameT, frame_ok f ∧ read_at file offset (fh_payload_len d + 128) = encode_frame f ∧
    fr_revisions f = fh_revisions d ∧ fr_batch f = batch ∧ decoded_of blake3 f = d.
Proof using Hdigest.
  intros Hb Hoff Hhead Hlen Hd Hread. unfold FRAME_HEADER_BYTES in *.
  apply decode_frame_header_inv in Hd as (Hh & Hp & Hrev & Hmax);
    [|rewrite read_at_length; unfold FRAME_HEADER_BYTES; lia|by apply read_at_byte].
  unfold read_frame, FRAME_HEADER_BYTES in Hread. set (payload := read_at file (offset + Z.of_nat 72) (fh_payload_len d)) in *.
  assert (Hplen : length payload = Z.to_nat (fh_payload_len d)) by (unfold payload; apply read_at_length; lia).
  inv_result. destruct (batch_validate _) as [[]|] eqn:Hv; [|discriminate Hread]. inv_result. subst. reflect_bool.
  match goal with H : decode_frame_footer _ _ _ _ _ = Ok ?u |- _ => destruct u; apply decode_frame_footer_inv in H as Hf;
    [|rewrite read_at_length; unfold FRAME_FOOTER_BYTES; lia|by apply read_at_byte] end.
  set (f := mkFrame (fh_revisions d) payload batch). exists f.
  assert (Hheader : frame_header blake3 f = read_at file offset (Z.of_nat 72)).
  { rewrite Hh. unfold frame_header, encode_frame_header, f. cbn [fr_revisions fr_payload].
    rewrite Hplen, Z2Nat.id by lia. congruence. }
  split; [|split_and!; try done].
  - split; cbn [f fr_revisions fr_payload fr_batch]; [lia|lia|rewrite Hplen; lia|done|by apply batch_validate_wf].
  - unfold RegistryWalSpec.encode_frame, frame_footer, encode_frame_footer. rewrite header_last, Hheader. cbn [f fr_revisions fr_payload].
    replace (fh_payload_len d + 128)%Z with (Z.of_nat 72 + (fh_payload_len d + Z.of_nat FRAME_FOOTER_BYTES))%Z by (unfold FRAME_FOOTER_BYTES; lia).
    rewrite <- !read_at_join by lia. f_equal. f_equal. rewrite Hf. rewrite Hplen, Z2Nat.id by lia. do 2 f_equal.
    unfold FRAME_HEADER_BYTES, FRAME_FOOTER_BYTES. f_equal. lia.
  - unfold decoded_of, f. cbn [fr_payload fr_revisions]. rewrite Hplen, Z2Nat.id by lia. destruct d; cbn in *. congruence.
Qed.

(** ** The scan *)

Section ScanSound.
Context {S : Type} (visit : S → RegistryRevisionRange → RegistryDeltaBatch TBody WBody → result WalError S).
Local Abbreviation visit_all := (visit_all visit).

Lemma visit_all_app s fs gs : visit_all s (fs ++ gs) = s ← visit_all s fs; visit_all s gs.
Proof using Type.
  revert s. induction fs as [|f fs IH]; intros s; [done|]. cbn [app RegistryWalSpec.visit_all].
  destruct (visit s (fr_revisions f) (fr_batch f)); [|done]. cbn [mbind result_bind]. apply IH.
Qed.

Lemma tail_after_snoc offset tail fs f :
  tail_after blake3 offset tail (fs ++ [f]) =
  Some (tail_of blake3 (offset + Z.of_nat (length (concat (encode_frame <$> fs)))) f).
Proof using Type.
  revert offset tail. induction fs as [|g fs IH]; intros offset tail; [cbn; do 2 f_equal; lia|].
  cbn [app tail_after]. rewrite IH, fmap_cons. cbn [concat]. rewrite length_app. do 2 f_equal. lia.
Qed.

Lemma last_of_snoc base fs f : last_of base (fs ++ [f]) = last (fr_revisions (f : FrameT)).
Proof using Type. unfold last_of. by rewrite foldl_snoc. Qed.

Lemma wal_tail_snoc base fs f :
  tail_after blake3 (Z.of_nat WAL_HEADER_BYTES) None (fs ++ [f]) = Some (tail_of blake3 (Z.of_nat (length (encode_wal base fs))) f).
Proof using Hdigest.
  rewrite tail_after_snoc. unfold RegistryWalSpec.encode_wal. rewrite length_app, (length_wal_header blake3 Hdigest), Nat2Z.inj_add. done.
Qed.

Lemma wal_ok_snoc base fs f :
  wal_ok base fs → frame_ok f → first (fr_revisions f) = (last_of base fs + 1)%Z → wal_ok base (fs ++ [f]).
Proof using Type.
  intros [Hb Hfs Hc] Hf Hfirst. split; [done|by apply Forall_app; split; [|apply Forall_singleton]|].
  apply contiguous_app. by split.
Qed.

Lemma Ok_inj {E A} (a b : A) : Ok (E := E) a = Ok b → a = b.
Proof using Type. by intros [=]. Qed.

(** What the scan has read, and what it leaves. *)
Definition scanned (torn : TornWalSuffix) (base : Z) (s0 : S) (file : list Z) (r : S * WalInspection * list Z) : Prop :=
  ∃ (fs : list FrameT) rest,
    file = encode_wal base fs ++ rest ∧ wal_ok base fs ∧ r.1.2 = wal_inspection blake3 base fs ∧ visit_all s0 fs = Ok r.1.1 ∧
    (rest = [] ∧ r.2 = file ∨ torn = Repair ∧ r.2 = encode_wal base fs ∨ torn = Tolerate ∧ r.2 = file).

Lemma repair_scanned torn base s0 fs rest s r :
  wal_ok base fs → visit_all s0 fs = Ok s →
  ('(inspection, file) ← repair_or_reject_torn_suffix torn (encode_wal base fs ++ rest) (wal_inspection blake3 base fs);
   Ok (s, inspection, file)) = Ok r →
  scanned torn base s0 (encode_wal base fs ++ rest) r.
Proof using Type.
  intros Hwal Hs Hr. exists fs, rest. unfold repair_or_reject_torn_suffix in Hr.
  split; [done|]. split; [done|].
  destruct torn; cbn [mbind result_bind] in Hr; [discriminate Hr| |]; apply Ok_inj in Hr as <-; (split; [done|]; split; [done|]; right).
  - left. split; [done|]. cbn [complete_len wal_inspection snd]. by rewrite Nat2Z.id, take_app_length.
  - by right.
Qed.

(** A turn of the loop that ends well: the end of the file, a torn suffix, or
    a frame. *)
Lemma scan_loop_inv fuel torn file base lastr tail offset s r :
  scan_loop blake3 from_slice visit fuel torn file base lastr tail offset s = Some (Ok r) →
  let remaining := saturating_sub (file_len file) offset in
  let inspection := mkWalInspection base lastr offset tail in
  let header := read_at file offset (Z.of_nat FRAME_HEADER_BYTES) in
  (remaining = 0%Z ∧ r = (s, inspection, file)) ∨
  ('(inspection, file) ← repair_or_reject_torn_suffix torn file inspection; Ok (s, inspection, file)) = Ok r ∨
  ∃ d frame_len batch s' fuel',
    fuel = Datatypes.S fuel' ∧ (Z.of_nat FRAME_HEADER_BYTES <= remaining)%Z ∧ decode_frame_header header = Ok d ∧
    frame_len_of (fh_payload_len d) = Some frame_len ∧ (frame_len <= remaining)%Z ∧
    checked_next lastr = Some (first (fh_revisions d)) ∧
    read_frame blake3 from_slice file offset frame_len d header = Ok batch ∧ visit s (fh_revisions d) batch = Ok s' ∧
    scan_loop blake3 from_slice visit fuel' torn file base (last (fh_revisions d))
      (Some (mkFrameTail offset (fh_payload_len d) (fh_payload_checksum d) (fh_revisions d))) (offset + frame_len)%Z s' = Some (Ok r).
Proof using Type.
  intros Hscan remaining inspection header.
  destruct fuel as [|fuel]; cbn [scan_loop] in Hscan; fold remaining inspection header in Hscan;
    (destruct (remaining =? 0)%Z eqn:E0; [left; reflect_bool; split; congruence|]; right);
    (destruct (remaining <? Z.of_nat FRAME_HEADER_BYTES)%Z eqn:E1; [left; congruence|]);
    (destruct (decode_frame_header header) as [d|] eqn:Ed; [|discriminate Hscan]);
    (destruct (frame_len_of (fh_payload_len d)) as [frame_len|] eqn:Efl; [|discriminate Hscan]);
    (destruct (remaining <? frame_len)%Z eqn:E2;
      [left; destruct (payload_len_authenticated_by_final_footer _ _ _ _); [discriminate Hscan|congruence]|]; right);
    (destruct (checked_next lastr) as [expected|] eqn:En; [|discriminate Hscan]);
    (destruct (negb (first (fh_revisions d) =? expected)%Z) eqn:E3; [discriminate Hscan|]);
    (destruct (read_frame _ _ _ _ _ _ _) as [batch|] eqn:Er; cbn [mbind result_bind] in Hscan; [|discriminate Hscan]);
    (destruct (visit s _ batch) as [s'|] eqn:Ev; [|discriminate Hscan]);
    (destruct (checked_add u64_max offset frame_len) as [offset'|] eqn:Eo; [|discriminate Hscan]);
    reflect_bool; [discriminate Hscan|].
  apply checked_add_Some in Eo as [-> _]. exists d, frame_len, batch, s', fuel. split_and!; try done; lia || congruence.
Qed.

Lemma scan_loop_sound fuel torn file base fs s0 s rest r :
  Forall byte file → file = encode_wal base fs ++ rest → wal_ok base fs → visit_all s0 fs = Ok s →
  scan_loop blake3 from_slice visit fuel torn file base (last_of base fs) (tail_after blake3 (Z.of_nat WAL_HEADER_BYTES) None fs)
    (Z.of_nat (length (encode_wal base fs))) s = Some (Ok r) →
  scanned torn base s0 file r.
Proof using Hdigest.
  intros Hb. revert fs rest s. induction fuel as [fuel IH] using lt_wf_ind; intros fs rest s Hfile Hwal Hs Hscan.
  assert (Hrem : saturating_sub (file_len file) (Z.of_nat (length (encode_wal base fs))) = Z.of_nat (length rest)).
  { unfold file_len. rewrite Hfile, length_app, saturating_sub_exact; lia. }
  apply scan_loop_inv in Hscan as [[H0 ->]|[Hr|(d & frame_len & batch & s' & fuel' & -> & Hhead & Hd & Hfl & Hle & Hnext & Hread & Hv & Hscan)]].
  - rewrite Hrem in H0. exists fs, rest. destruct rest; [|cbn in H0; lia]. split_and!; try done. by left.
  - rewrite Hfile in Hr |- *. by apply repair_scanned with s.
  - rewrite Hrem in Hhead, Hle. assert (Hflen : file_len file = (Z.of_nat (length (encode_wal base fs)) + Z.of_nat (length rest))%Z).
    { unfold file_len. rewrite Hfile, length_app. lia. }
    pose proof Hd as Hd'. apply decode_frame_header_inv in Hd' as (_ & Hpl & _);
      [|rewrite read_at_length; unfold FRAME_HEADER_BYTES in *; lia|by apply read_at_byte].
    rewrite frame_len_of_spec in Hfl by lia. injection Hfl as <-.
    destruct (read_frame_inv file (Z.of_nat (length (encode_wal base fs))) d batch Hb) as (f & Hf & Hbytes & _ & <- & <-);
      [lia|unfold FRAME_HEADER_BYTES in *; lia|lia|done|done|].
    cbn [decoded_of fh_payload_len fh_payload_checksum fh_revisions] in *.
    assert (Hlen : length (encode_frame f) = Z.to_nat (Z.of_nat (length (fr_payload f)) + 128)) by (rewrite <- Hbytes; apply read_at_length; lia).
    assert (Hrest : rest = encode_frame f ++ drop (length (encode_frame f)) rest).
    { rewrite <- (take_drop (length (encode_frame f)) rest) at 1. f_equal. rewrite <- Hbytes at 2.
      unfold read_at, slice. rewrite Hfile, drop_app_ge by lia. rewrite Nat2Z.id, Nat.sub_diag, drop_0. f_equal. lia. }
    apply (IH fuel' ltac:(lia) (fs ++ [f]) (drop (length (encode_frame f)) rest) s').
    + rewrite encode_wal_snoc, <- app_assoc, <- Hrest. done.
    + apply wal_ok_snoc; [done|done|]. unfold checked_next in Hnext. apply checked_add_Some in Hnext as [Hnext _]. done.
    + rewrite visit_all_app, Hs. cbn [mbind result_bind RegistryWalSpec.visit_all]. rewrite Hv. done.
    + rewrite last_of_snoc, (wal_tail_snoc base), encode_wal_snoc, length_app, Hlen, Nat2Z.inj_add, Z2Nat.id by lia. exact Hscan.
Qed.

(** The file a scan starts on. *)
Lemma check_wal_start file base :
  Forall byte file → (check_wal_len file ;; decode_wal_header blake3 (read_at file 0 (Z.of_nat WAL_HEADER_BYTES))) = Ok base →
  file = encode_wal base [] ++ drop WAL_HEADER_BYTES file ∧ (0 <= base <= u64_max)%Z ∧ WAL_HEADER_BYTES ≤ length file ∧
  (file_len file <= MAX_REGISTRY_DELTA_WAL_BYTES)%Z.
Proof using Type.
  intros Hb H. unfold check_wal_len in H. inv_result. reflect_bool. unfold file_len in *.
  apply decode_wal_header_inv in H as [Hh Hbase]; [|rewrite read_at_length; unfold file_len; lia|by apply read_at_byte].
  split; [|split_and!; lia].
  unfold RegistryWalSpec.encode_wal. cbn [fmap list_fmap concat]. rewrite app_nil_r, <- Hh.
  unfold read_at, slice. rewrite drop_0, Z.add_0_l, Nat2Z.id, Nat.sub_0_r. by rewrite take_drop.
Qed.

Lemma scan_wal_sound torn file s r :
  Forall byte file → scan_wal_with_policy blake3 from_slice visit torn file s = Some (Ok r) → ∃ base, scanned torn base s file r.
Proof using Hdigest.
  intros Hb. unfold scan_wal_with_policy. destruct (_ ≫= _) as [base|] eqn:E; [|done]. intros Hscan.
  destruct (check_wal_start file base Hb E) as (Hfile & Hbase & _). exists base.
  apply (scan_loop_sound (length file) torn file base [] s s (drop WAL_HEADER_BYTES file) r Hb Hfile); [done|done|].
  unfold RegistryWalSpec.encode_wal, last_of. cbn [fmap list_fmap concat foldl tail_after]. rewrite app_nil_r, (length_wal_header blake3 Hdigest). exact Hscan.
Qed.

(** Every turn moves the offset, so the length of the file is enough fuel. *)
Lemma scan_loop_total fuel torn file base lastr tail offset s :
  Forall byte file → (0 <= offset)%Z → (file_len file <= offset + Z.of_nat fuel)%Z →
  is_Some (scan_loop blake3 from_slice visit fuel torn file base lastr tail offset s).
Proof using Type.
  intros Hb. revert lastr tail offset s. induction fuel as [|fuel IH]; intros lastr tail offset s Hoff Hfuel; cbn [scan_loop].
  { assert (saturating_sub (file_len file) offset = 0%Z) as -> by (unfold saturating_sub; lia). by eexists. }
  unfold saturating_sub. destruct (_ =? 0)%Z eqn:E0; [by eexists|]. destruct (_ <? Z.of_nat FRAME_HEADER_BYTES)%Z eqn:E1; [by eexists|].
  reflect_bool. destruct (decode_frame_header _) as [d|] eqn:Ed; [|by eexists].
  destruct (frame_len_of (fh_payload_len d)) as [frame_len|] eqn:Efl; [|by eexists].
  apply decode_frame_header_inv in Ed as (_ & Hpl & _); [|rewrite read_at_length; unfold FRAME_HEADER_BYTES in *; lia|by apply read_at_byte].
  rewrite frame_len_of_spec in Efl by lia. injection Efl as <-.
  destruct (_ <? _)%Z; [destruct (payload_len_authenticated_by_final_footer _ _ _ _); by eexists|].
  destruct (checked_next lastr); [|by eexists]. destruct (negb _); [by eexists|].
  destruct (_ ≫= _); [|by eexists]. destruct (checked_add u64_max offset _) as [offset'|] eqn:Eo; [|by eexists].
  apply checked_add_Some in Eo as [-> _]. apply IH; lia.
Qed.

Lemma scan_wal_total torn file s :
  Forall byte file → is_Some (scan_wal_with_policy blake3 from_slice visit torn file s).
Proof using Type.
  intros Hb. unfold scan_wal_with_policy. destruct (_ ≫= _); [|by eexists].
  apply scan_loop_total; [done|lia|unfold file_len; lia].
Qed.

End ScanSound.

(** ** The inspection of the tail *)

Lemma scan_wal_encoded repair base fs :
  wal_ok base fs → (file_len (encode_wal base fs) <= MAX_REGISTRY_DELTA_WAL_BYTES)%Z →
  scan_wal blake3 from_slice repair (encode_wal base fs) = Some (Ok (wal_inspection blake3 base fs, encode_wal base fs)).
Proof using Hdigest.
  intros Hwal Hlen. unfold scan_wal. rewrite (scan_encoded blake3 Hdigest) by done.
  assert (Hv : ∀ gs : list FrameT, visit_all (λ _ _ _, Ok ()) () gs = Ok ()) by (by induction gs).
  by rewrite Hv.
Qed.

Lemma check_wal_encoded base fs rest :
  wal_ok base fs → (file_len (encode_wal base fs ++ rest) <= MAX_REGISTRY_DELTA_WAL_BYTES)%Z →
  (check_wal_len (encode_wal base fs ++ rest) ;; decode_wal_header blake3 (read_at (encode_wal base fs ++ rest) 0 (Z.of_nat WAL_HEADER_BYTES))) = Ok base.
Proof using Hdigest.
  intros Hwal Hlen. pose proof (encode_wal_length blake3 Hdigest base fs) as Hl. unfold check_wal_len.
  rewrite (proj2 (Z.leb_le _ _) Hlen). cbn [ensure mbind result_bind].
  rewrite (proj2 (Z.leb_le _ _)) by (unfold file_len; rewrite length_app; lia). cbn [ensure mbind result_bind].
  rewrite (read_at_mid _ [] (encode_wal_header blake3 base) (concat (encode_frame <$> fs) ++ rest));
    [|unfold RegistryWalSpec.encode_wal; by rewrite <- app_assoc|done|by rewrite (length_wal_header blake3 Hdigest)].
  by rewrite (decode_encode_wal_header blake3 Hdigest) by apply Hwal.
Qed.

(** The last frame, read from its footer. *)
Lemma inspect_last_frame_encoded base fs f :
  wal_ok base (fs ++ [f]) → (file_len (encode_wal base (fs ++ [f])) <= MAX_REGISTRY_DELTA_WAL_BYTES)%Z →
  inspect_last_frame blake3 (encode_wal base (fs ++ [f])) base = Some (Ok (wal_inspection blake3 base (fs ++ [f]))).
Proof using Hdigest.
  intros Hwal Hlen. set (file := encode_wal base (fs ++ [f])) in *.
  assert (Hf : frame_ok f) by (eapply Forall_forall; [apply Hwal|apply elem_of_app; right; left]).
  pose proof (encode_wal_length blake3 Hdigest base fs) as Hpre. pose proof (length_encode_frame blake3 Hdigest f) as Hfl.
  assert (Hfile : file = encode_wal base fs ++ encode_frame f) by (unfold file; by rewrite encode_wal_snoc).
  assert (Hfilelen : file_len file = (Z.of_nat (length (encode_wal base fs)) + Z.of_nat (length (encode_frame f)))%Z).
  { unfold file_len. rewrite Hfile, length_app. lia. }
  destruct (footer_fields blake3 Hdigest from_slice f Hf) as (Hmagic & Hfooter_len & _).
  unfold inspect_last_frame.
  assert (read_at file (file_len file - Z.of_nat FRAME_FOOTER_BYTES) (Z.of_nat FRAME_FOOTER_BYTES) = frame_footer blake3 f) as ->.
  { apply (read_at_mid _ (encode_wal base fs ++ frame_header blake3 f ++ fr_payload f) _ []).
    - rewrite Hfile. unfold RegistryWalSpec.encode_frame. by rewrite app_nil_r, <- !app_assoc.
    - rewrite Hfilelen, Hfl, !length_app, (length_frame_header blake3 Hdigest). unfold FRAME_FOOTER_BYTES, FRAME_HEADER_BYTES. lia.
    - by rewrite (length_frame_footer blake3 Hdigest). }
  unfold frame_length_from_footer. rewrite bool_decide_true, Hfooter_len by done. cbn [mbind option_bind].
  rewrite (proj2 (Z.ltb_ge _ _)) by (unfold FRAME_HEADER_BYTES, FRAME_FOOTER_BYTES; lia).
  rewrite saturating_sub_exact by (unfold WAL_HEADER_BYTES in *; lia).
  rewrite (proj2 (Z.ltb_ge _ _)) by (unfold WAL_HEADER_BYTES in *; lia). cbn [orb].
  replace (file_len file - Z.of_nat (length (encode_frame f)))%Z with (Z.of_nat (length (encode_wal base fs))) by lia.
  rewrite (read_at_mid file (encode_wal base fs) (frame_header blake3 f) (fr_payload f ++ frame_footer blake3 f));
    [|by rewrite Hfile|done|by rewrite (length_frame_header blake3 Hdigest)].
  rewrite (decode_encode_frame_header blake3 Hdigest from_slice f Hf). cbn [decoded_of fh_payload_len fh_revisions fh_payload_checksum].
  rewrite frame_len_of_spec by (pose proof (fo_payload _ _ Hf); lia).
  replace (Z.of_nat (length (fr_payload f)) + 128)%Z with (Z.of_nat (length (encode_frame f))) by lia.
  rewrite Z.eqb_refl. cbn [negb]. change (mkDecodedFrameHeader _ _ _) with (decoded_of blake3 f).
  rewrite (decode_encode_footer blake3 Hdigest from_slice f Hf). cbn [is_ok negb]. do 2 f_equal.
  unfold wal_inspection. rewrite last_of_snoc, (wal_tail_snoc base). done.
Qed.

Lemma inspect_wal_tail_encoded base fs :
  wal_ok base fs → (file_len (encode_wal base fs) <= MAX_REGISTRY_DELTA_WAL_BYTES)%Z →
  inspect_wal_tail blake3 from_slice (encode_wal base fs) = Some (Ok (wal_inspection blake3 base fs, encode_wal base fs)).
Proof using Hdigest.
  intros Hwal Hlen. unfold inspect_wal_tail. rewrite <- (app_nil_r (encode_wal base fs)) in Hlen.
  pose proof (check_wal_encoded base fs [] Hwal Hlen) as Hcheck. rewrite app_nil_r in Hcheck, Hlen. rewrite Hcheck.
  assert (Hh : length (encode_wal base []) = WAL_HEADER_BYTES).
  { unfold RegistryWalSpec.encode_wal. by rewrite length_app, (length_wal_header blake3 Hdigest). }
  destruct fs as [|f fs _] using rev_ind.
  - unfold file_len. rewrite Hh, Z.eqb_refl. unfold wal_inspection. by rewrite Hh.
  - pose proof (encode_wal_length blake3 Hdigest base (fs ++ [f])) as Hl. rewrite length_app in Hl. cbn [length] in Hl. unfold file_len in *.
    rewrite (proj2 (Z.eqb_neq _ _)) by lia.
    rewrite (proj2 (Z.ltb_ge _ _)) by (unfold FRAME_HEADER_BYTES, FRAME_FOOTER_BYTES; lia).
    by rewrite inspect_last_frame_encoded.
Qed.
(** ** Appending *)

(** What a new frame must satisfy. *)
Definition frame_continues (base : Z) (fs : list FrameT) (f : FrameT) : result WalError () :=
  let size := Z.of_nat (length (encode_wal base (fs ++ [f]))) in
  if (u64_max <=? last_of base fs)%Z then invalid_wal "registry revision is exhausted"
  else if negb (first (fr_revisions f) =? last_of base fs + 1)%Z then
    Err (RegistryDeltaRevisionMismatch (last_of base fs + 1) (first (fr_revisions f)) (last (fr_revisions f)))
  else if (MAX_REGISTRY_DELTA_WAL_BYTES <? size)%Z then Err (RegistryDeltaWalTooLarge size MAX_REGISTRY_DELTA_WAL_BYTES)
  else Ok ().

(** The log as a list of frames: a retry of the last frame changes nothing, a
    frame that continues the log is added, every other one is refused. *)
Definition append_frame (base : Z) (fs : list FrameT) (f : FrameT) : result WalError () * list FrameT :=
  let new := (frame_continues base fs f, if is_ok (frame_continues base fs f) then fs ++ [f] else fs) in
  match foldl (λ _ g, Some g) None fs with
  | Some g =>
      if bool_decide (fr_revisions f = fr_revisions g) then
        if bool_decide (blake3 (fr_payload f) = blake3 (fr_payload g)) then (Ok (), fs)
        else (invalid_wal "retry for durable revision range carries different payload bytes", fs)
      else new
  | None => new
  end.

Lemma check_new_frame_encoded base fs f :
  wal_ok base fs → frame_ok f → (file_len (encode_wal base fs) <= MAX_REGISTRY_DELTA_WAL_BYTES)%Z →
  check_new_frame (wal_inspection blake3 base fs) (fr_revisions f) (fr_payload f) =
  frame_continues base fs f.
Proof using Hdigest.
  intros Hwal Hf Hlen. unfold check_new_frame, frame_continues, wal_inspection, checked_next. cbn [last_revision complete_len].
  pose proof (length_encode_frame blake3 Hdigest f) as Hfl. pose proof (fo_payload _ _ Hf). unfold file_len in Hlen.
  assert (Hsize : Z.of_nat (length (encode_wal base (fs ++ [f]))) =
    (Z.of_nat (length (encode_wal base fs)) + (Z.of_nat (length (fr_payload f)) + 128))%Z).
  { rewrite encode_wal_snoc, length_app, Hfl. lia. }
  destruct (u64_max <=? last_of base fs)%Z eqn:E; reflect_bool.
  { by rewrite (proj2 (checked_add_None _ _ _)) by lia. }
  rewrite checked_add_ok by lia. cbn [ok_or mbind result_bind]. destruct (_ =? _)%Z; [|done]. cbn [negb ensure mbind result_bind].
  rewrite frame_len_of_spec by lia. cbn [ok_or mbind result_bind].
  rewrite checked_add_ok by (unfold u64_max, MAX_REGISTRY_DELTA_WAL_BYTES, MAX_REGISTRY_DELTA_FRAME_BYTES, MAX_TASK_REGISTRY_BYTES, MAX_WATCH_REGISTRY_BYTES in *; lia).
  cbn [ok_or mbind result_bind]. rewrite <- Hsize, Z.leb_antisym. cbv zeta. by destruct (_ <? _)%Z.
Qed.

Lemma append_to_wal_encoded base fs f :
  wal_ok base fs → frame_ok f → (file_len (encode_wal base fs) <= MAX_REGISTRY_DELTA_WAL_BYTES)%Z →
  append_to_wal blake3 from_slice (encode_wal base fs) (fr_revisions f) (frame_header blake3 f) (fr_payload f) (frame_footer blake3 f) =
    Some ((append_frame base fs f).1, encode_wal base (append_frame base fs f).2) ∧
  wal_ok base (append_frame base fs f).2 ∧ (file_len (encode_wal base (append_frame base fs f).2) <= MAX_REGISTRY_DELTA_WAL_BYTES)%Z.
Proof using Hdigest.
  intros Hwal Hf Hlen. unfold append_to_wal. rewrite inspect_wal_tail_encoded by done. cbn [mbind option_bind].
  pose proof (check_new_frame_encoded base fs f Hwal Hf Hlen) as Hnew.
  assert (Hwrite : copy_from_slice (encode_wal base fs) (Z.to_nat (complete_len (wal_inspection blake3 base fs)))
    (frame_header blake3 f ++ fr_payload f ++ frame_footer blake3 f) = encode_wal base (fs ++ [f])).
  { unfold copy_from_slice, wal_inspection. cbn [complete_len]. rewrite Nat2Z.id, take_ge, drop_ge by lia.
    by rewrite encode_wal_snoc, app_nil_r. }
  assert (Htail : check_append blake3 (encode_wal base fs) (wal_inspection blake3 base fs) (fr_revisions f) (fr_payload f) =
    match foldl (λ _ g, Some g) None fs with
    | Some g =>
        if bool_decide (fr_revisions f = fr_revisions g) then
          if bool_decide (blake3 (fr_payload f) = blake3 (fr_payload g)) then Ok true
          else invalid_wal "retry for durable revision range carries different payload bytes"
        else Ok false
    | None => Ok false
    end).
  { unfold check_append. cbn [last_frame wal_inspection]. destruct fs as [|g fs _] using rev_ind; [done|].
    rewrite foldl_snoc, (wal_tail_snoc base). unfold verify_last_frame_payload. cbn [tail_of ft_offset ft_payload_len ft_payload_checksum ft_revisions].
    rewrite (read_at_mid _ (encode_wal base fs ++ frame_header blake3 g) (fr_payload g) (frame_footer blake3 g));
      [|rewrite encode_wal_snoc; unfold RegistryWalSpec.encode_frame; by rewrite <- !app_assoc
       |rewrite length_app, (length_frame_header blake3 Hdigest); lia|done].
    rewrite (bool_decide_true (blake3 (fr_payload g) = _)) by done. cbn [ensure mbind result_bind].
    by destruct (bool_decide (fr_revisions f = _)), (bool_decide (blake3 (fr_payload f) = _)). }
  rewrite Htail. unfold append_frame.
  assert (Hnew' : wal_ok base (if is_ok (frame_continues base fs f) then fs ++ [f] else fs) ∧
    (file_len (encode_wal base (if is_ok (frame_continues base fs f) then fs ++ [f] else fs)) <= MAX_REGISTRY_DELTA_WAL_BYTES)%Z).
  { unfold frame_continues. destruct (u64_max <=? _)%Z; [done|]. destruct (_ =? _)%Z eqn:E; [|done]. cbn [negb].
    destruct (_ <? _)%Z eqn:E'; [done|]. cbn [is_ok]. reflect_bool. split; [by apply wal_ok_snoc|unfold file_len; lia]. }
  assert (Hdone : wal_ok base fs ∧ (file_len (encode_wal base fs) <= MAX_REGISTRY_DELTA_WAL_BYTES)%Z) by (split; assumption).
  assert (Hcase : Some match check_new_frame (wal_inspection blake3 base fs) (fr_revisions f) (fr_payload f) with
    | Ok _ => (Ok (), encode_wal base (fs ++ [f])) | Err e => (Err e, encode_wal base fs) end =
    Some (frame_continues base fs f, encode_wal base (if is_ok (frame_continues base fs f) then fs ++ [f] else fs))).
  { rewrite Hnew. by destruct (frame_continues base fs f) as [[]|]. }
  rewrite Hwrite. destruct (foldl (λ _ g, Some g) None fs) as [g|]; [|split; [exact Hcase|exact Hnew']].
  destruct (bool_decide (fr_revisions f = fr_revisions g)); [|split; [exact Hcase|exact Hnew']].
  destruct (bool_decide (blake3 (fr_payload f) = _)); (split; [reflexivity|exact Hdone]).
Qed.
End Decode.
