(* ===== verification/RegistryReplay.v ===== *)
(** * RegistryReplay: recovery from the checkpoint and the log

    Replaying a log runs the batches that the checkpoint does not have, in the
    order of their revisions, and leaves valid registries; a committed batch
    survives, and a batch whose write was cut is as if it never began. *)

From S2P Require Export RegistryLog.

Section Replay.
Context {TBody WBody : Type}.
Local Abbreviation Tasks := (gmap string (TaskRecord TBody)).
Local Abbreviation Watches := (list (WatchRegistration WBody)).
Local Abbreviation Batch := (RegistryDeltaBatch TBody WBody).
Local Abbreviation FrameT := (Frame (TBody := TBody) (WBody := WBody)).
Implicit Types (s : Tasks * Watches) (b : Batch) (f : FrameT) (fs gs olds news : list FrameT).

(** ** One batch *)

Lemma registry_wf_validate s : validate_task_watch_registry_relationships s.1 s.2 = Ok () ↔ registry_wf s.
Proof using Type. destruct s. apply validate_registry_wf. Qed.

Lemma authenticated_run b s :
  registry_wf s → batch_wf b →
  ∃ unchanged, apply_to_authenticated b s.1 s.2 = Ok (unchanged, run_batch s b) ∧
    (unchanged = true → registry_wf (run_batch s b)).
Proof using Type.
  intros Hs Hb. unfold apply_to_authenticated. rewrite (proj2 (batch_validate_wf b) Hb). cbn [mbind result_bind].
  destruct (preserves_authenticated_relationships b s.1) eqn:E.
  - apply preserves_same in E as (Hr & Ho & Hwr & Hsame).
    assert (run_batch s b = (task_upserts b ∪ s.1, s.2)) as ->.
    { unfold run_batch, batch_tasks, batch_watches, ordered. rewrite Hr, Ho, Hwr. f_equal.
      apply filter_all, Forall_forall. intros w _. apply not_elem_of_empty. }
    exists true. unfold apply_task_upserts. rewrite foldl_btree_entries. split; [done|]. intros _.
    apply registry_wf_validate. cbn [fst snd]. by apply (relationships_proper _ _ Hsame _ _ eq_refl), registry_wf_validate.
  - exists false. rewrite (proj2 (apply_to_spec b s.1 s.2 (run_batch s b))); [done|].
    split_and!; [done|apply (rw_ids _ Hs)|by destruct s].
Qed.

Lemma replay_frame_old checkpoint x revisions b :
  (last revisions <= checkpoint)%Z → replay_frame checkpoint x revisions b = Ok x.
Proof using Type. intros H. unfold replay_frame. by rewrite (proj2 (Z.leb_le _ _) H). Qed.

Lemma replay_frame_new checkpoint s replayed revisions b x :
  registry_wf s → batch_wf b → (checkpoint < last revisions)%Z → (first revisions <= u64_max)%Z →
  replay_frame checkpoint (s, replayed) revisions b = Ok x ↔
  first revisions = (replayed + 1)%Z ∧ registry_wf (run_batch s b) ∧ x = (run_batch s b, last revisions).
Proof using Type.
  intros Hs Hb Hlast Hmax. unfold replay_frame. rewrite (proj2 (Z.leb_gt _ _) Hlast). cbn [fst snd].
  destruct (authenticated_run b s Hs Hb) as (unchanged & -> & Hunchanged). unfold checked_next. split.
  - intros H. destruct (checked_add u64_max replayed 1) as [e|] eqn:E; [|discriminate H]. apply checked_add_Some in E as [-> _].
    cbn [ok_or mbind result_bind] in H. destruct (first revisions =? replayed + 1)%Z eqn:E; [|discriminate H].
    cbn [ensure mbind result_bind] in H. reflect_bool. split; [done|].
    destruct unchanged; [split; [auto|congruence]|].
    destruct (validate_task_watch_registry_relationships _ _) as [[]|] eqn:Hv; [|discriminate H].
    apply registry_wf_validate in Hv. split; [done|congruence].
  - intros (Hfirst & Hwf & ->). rewrite checked_add_ok by lia. cbn [ok_or mbind result_bind]. rewrite Hfirst, Z.eqb_refl.
    cbn [ensure mbind result_bind]. apply registry_wf_validate in Hwf. destruct unchanged; [done|]. by rewrite Hwf.
Qed.

Lemma candidate_run b s candidate :
  registry_wf s → batch_wf b → prepare_registry_delta_candidate s.1 s.2 b = Ok candidate →
  registry_wf (run_batch s b) ∧
  (candidate = None ∧ run_batch s b = (apply_task_upserts (task_upserts b) s.1, s.2) ∨ candidate = Some (run_batch s b)).
Proof using Type.
  intros Hs Hb. unfold prepare_registry_delta_candidate.
  destruct (preserves_authenticated_relationships b s.1) eqn:E.
  - intros [= <-]. destruct (authenticated_run b s Hs Hb) as (u & Ha & Hu).
    unfold apply_to_authenticated in Ha. rewrite (proj2 (batch_validate_wf b) Hb), E in Ha. cbn [mbind result_bind] in Ha.
    split; [apply Hu; congruence|left; split; [done|congruence]].
  - rewrite (proj2 (apply_to_spec b s.1 s.2 (run_batch s b))); [|split_and!; [done|apply (rw_ids _ Hs)|by destruct s]].
    cbn [invalid_batch mbind result_bind]. destruct (run_batch s b) as [t w] eqn:Er. unfold invalid_relationships.
    destruct (validate_task_watch_registry_relationships t w) as [[]|] eqn:Hv; cbn [mbind result_bind]; [|done].
    intros [= <-]. split; [by apply validate_registry_wf|by right].
Qed.

(** ** Runs of frames *)

Definition run_frames s fs : Tasks * Watches := foldl run_batch s (fr_batch <$> fs).

(** Every state on the way is valid. *)
Fixpoint states_wf s fs : Prop :=
  match fs with
  | [] => True
  | f :: fs => registry_wf (run_batch s (fr_batch f)) ∧ states_wf (run_batch s (fr_batch f)) fs
  end.

Lemma states_wf_end s fs : registry_wf s → states_wf s fs → registry_wf (run_frames s fs).
Proof using Type. revert s. induction fs as [|f fs IH]; intros s Hs; [done|]. intros [H1 H2]. by apply (IH (run_batch s (fr_batch f))). Qed.

Lemma states_wf_snoc s fs f : states_wf s fs → registry_wf (run_batch (run_frames s fs) (fr_batch f)) → states_wf s (fs ++ [f]).
Proof using Type. revert s. induction fs as [|g fs IH]; intros s; [done|]. intros [H1 H2] H. split; [done|]. by apply IH. Qed.

Lemma run_frames_snoc s fs f : run_frames s (fs ++ [f]) = run_batch (run_frames s fs) (fr_batch f).
Proof using Type. unfold run_frames. by rewrite fmap_app, foldl_app. Qed.

Context (from_slice : list Z → option Batch).
Local Abbreviation frame_ok := (frame_ok from_slice).

Lemma visit_old checkpoint x fs :
  Forall (λ f, last (fr_revisions f) <= checkpoint)%Z fs → visit_all (replay_frame checkpoint) x fs = Ok x.
Proof using Type. induction 1 as [|f fs Hf _ IH]; [done|]. cbn [visit_all]. rewrite replay_frame_old by done. exact IH. Qed.

Lemma visit_new checkpoint s replayed fs x :
  registry_wf s → Forall frame_ok fs → Forall (λ f, checkpoint < last (fr_revisions f))%Z fs →
  visit_all (replay_frame checkpoint) (s, replayed) fs = Ok x ↔
  contiguous replayed fs ∧ states_wf s fs ∧ x = (run_frames s fs, last_of replayed fs).
Proof using Type.
  intros Hs Hok. revert s replayed Hs. induction Hok as [|f fs Hf _ IH]; intros s replayed Hs Hnew.
  { cbn. split; [intros [= <-]; done|by intros (_ & _ & ->)]. }
  apply Forall_cons in Hnew as [Hlast Hnew]. cbn [visit_all contiguous states_wf]. split.
  - intros H. destruct (replay_frame _ _ _ _) as [x'|] eqn:E; [|discriminate H]. cbn [mbind result_bind] in H.
    apply replay_frame_new in E as (H1 & H2 & ->); [|done|apply Hf|done|destruct Hf; lia].
    apply IH in H as (H3 & H4 & ->); done.
  - intros ([H1 H2] & [H3 H4] & ->).
    rewrite (proj2 (replay_frame_new checkpoint s replayed (fr_revisions f) (fr_batch f) (run_batch s (fr_batch f), last (fr_revisions f)) Hs (fo_valid _ _ Hf) Hlast ltac:(destruct Hf; lia)))
      by done.
    cbn [mbind result_bind]. by apply IH.
Qed.

(** The frames of a contiguous log that a checkpoint has come first. *)
Lemma contiguous_after base fs :
  Forall frame_ok fs → contiguous base fs → Forall (λ f, base < last (fr_revisions f))%Z fs.
Proof using Type.
  intros Hok. revert base. induction Hok as [|f fs Hf _ IH]; intros base; [constructor|]. intros [H1 H2].
  destruct Hf. constructor; [lia|]. eapply Forall_impl; [by apply IH|]. intros g Hg. cbn in *. lia.
Qed.

Lemma split_checkpoint checkpoint base fs :
  Forall frame_ok fs → contiguous base fs →
  ∃ olds news, fs = olds ++ news ∧ Forall (λ f, last (fr_revisions f) <= checkpoint)%Z olds ∧
    Forall (λ f, checkpoint < last (fr_revisions f))%Z news.
Proof using Type.
  intros Hok. revert base. induction Hok as [|f fs Hf Hok IH]; intros base; [by exists [], []|]. intros [H1 H2].
  destruct (decide (last (fr_revisions f) <= checkpoint)%Z).
  - destruct (IH _ H2) as (olds & news & -> & Holds & Hnews). exists (f :: olds), news. by repeat constructor.
  - exists [], (f :: fs). split_and!; [done|constructor|]. constructor; [lia|].
    eapply Forall_impl; [by apply (contiguous_after _ _ Hok H2)|]. intros g Hg. cbn in *. lia.
Qed.

(** *** The replay of an encoded log *)

Section Log.
Context (blake3 : list Z → list Z) (Hdigest : ∀ l, length (blake3 l) = 32).
Local Abbreviation encode_frame := (encode_frame blake3 (TBody := TBody) (WBody := WBody)).
Local Abbreviation encode_wal := (encode_wal blake3 (TBody := TBody) (WBody := WBody)).
Local Abbreviation wal_ok := (wal_ok from_slice).
Local Abbreviation replay := (replay_wal_with_policy blake3 from_slice).

(** What the replay of the frames on a checkpoint returns. *)
Definition replayed_result s checkpoint base olds news (file : list Z)
    : LoadedTaskWatchRegistry * gset string * option WalInspection * option (list Z) :=
  let registries := run_frames s news in
  (mkLoadedTaskWatchRegistry registries.1 registries.2 checkpoint (last_of checkpoint news),
   dom registries.1 ∖ dom s.1, Some (wal_inspection blake3 base (olds ++ news)), Some file).

(** The log can be replayed on the checkpoint. *)
Record replayable s (checkpoint base : Z) olds news : Prop := {
  rp_base : (base <= checkpoint)%Z;
  rp_olds : Forall (λ f, last (fr_revisions f) <= checkpoint)%Z olds;
  rp_news : Forall (λ f, checkpoint < last (fr_revisions f))%Z news;
  rp_contiguous : contiguous checkpoint news;
  rp_states : states_wf s news
}.

Lemma visit_replay s checkpoint base olds news x :
  registry_wf s → Forall frame_ok news → Forall (λ f, last (fr_revisions f) <= checkpoint)%Z olds →
  Forall (λ f, checkpoint < last (fr_revisions f))%Z news → (base <= checkpoint)%Z →
  visit_all (replay_frame checkpoint) (s, checkpoint) (olds ++ news) = Ok x ↔
  replayable s checkpoint base olds news ∧ x = (run_frames s news, last_of checkpoint news).
Proof using Type.
  intros Hs Hok Holds Hnews Hbase. rewrite visit_all_app, visit_old by done. cbn [mbind result_bind]. rewrite visit_new by done.
  split; [intros (? & ? & ?); split; [by split|done]|intros ([] & ->); done].
Qed.

(** The replayed revision is at least the checkpoint, so the guard of the code
    on the last revision of the log changes nothing. *)
Lemma replayed_guard checkpoint base olds news :
  contiguous base (olds ++ news) → contiguous checkpoint news → Forall frame_ok news →
  (if (last_of base (olds ++ news) <? checkpoint)%Z then checkpoint else last_of checkpoint news) = last_of checkpoint news.
Proof using Type.
  intros Hc Hn Hok. destruct (_ <? _)%Z eqn:E; [|done]. reflect_bool.
  destruct news as [|f news _] using rev_ind; [done|]. rewrite app_assoc, last_of_snoc in E.
  pose proof (contiguous_after _ _ Hok Hn) as Hafter. apply Forall_app in Hafter as [_ Hf]. apply Forall_cons in Hf as [Hf _]. cbn in Hf. lia.
Qed.

Lemma replay_scanned file s checkpoint torn base olds news file' :
  registry_wf s → wal_ok base (olds ++ news) → replayable s checkpoint base olds news →
  scan_wal_with_policy blake3 from_slice (replay_frame checkpoint) torn file (s, checkpoint) =
    Some (x ← visit_all (replay_frame checkpoint) (s, checkpoint) (olds ++ news);
          Ok (x, wal_inspection blake3 base (olds ++ news), file')) →
  replay (Some file) s.1 s.2 checkpoint torn = Some (Ok (replayed_result s checkpoint base olds news file')).
Proof using Type.
  intros Hs Hwal Hr Hscan. unfold replay_wal_with_policy. replace (s.1, s.2) with s by (by destruct s).
  assert (Forall frame_ok news) as Hok by (destruct Hwal as [_ Hfs _]; by apply Forall_app in Hfs as [_ ?]).
  rewrite Hscan. rewrite (proj2 (visit_replay s checkpoint base olds news (run_frames s news, last_of checkpoint news) Hs Hok (rp_olds _ _ _ _ _ Hr) (rp_news _ _ _ _ _ Hr) (rp_base _ _ _ _ _ Hr))) by done.
  cbn [mbind result_bind option_bind]. unfold wal_inspection at 1 2. cbn [base_revision last_revision].
  rewrite (proj2 (Z.leb_le _ _)) by apply Hr. cbn [ensure mbind result_bind]. unfold replayed_result. do 6 f_equal.
  apply replayed_guard; [apply Hwal|apply Hr|done].
Qed.

Lemma replay_encoded s checkpoint torn base olds news :
  registry_wf s → wal_ok base (olds ++ news) → replayable s checkpoint base olds news →
  (file_len (encode_wal base (olds ++ news)) <= MAX_REGISTRY_DELTA_WAL_BYTES)%Z →
  replay (Some (encode_wal base (olds ++ news))) s.1 s.2 checkpoint torn =
    Some (Ok (replayed_result s checkpoint base olds news (encode_wal base (olds ++ news)))).
Proof using Hdigest.
  intros Hs Hwal Hr Hlen. apply replay_scanned; [done..|]. by rewrite (scan_encoded blake3 Hdigest).
Qed.

(** The replay of a log whose last write was cut drops the rest. *)
Lemma replay_torn (Hbytes : ∀ l, Forall byte (blake3 l)) s checkpoint base olds news f k :
  registry_wf s → wal_ok base (olds ++ news) → replayable s checkpoint base olds news →
  frame_plain from_slice f → 0 < k < length (encode_frame f) →
  (file_len (encode_wal base (olds ++ news) ++ take k (encode_frame f)) <= MAX_REGISTRY_DELTA_WAL_BYTES)%Z →
  replay (Some (encode_wal base (olds ++ news) ++ take k (encode_frame f))) s.1 s.2 checkpoint Repair =
    Some (Ok (replayed_result s checkpoint base olds news (encode_wal base (olds ++ news)))) ∨
  digest_holds_magic blake3 f.
Proof using Hdigest.
  intros Hs Hwal Hr Hf Hk Hlen.
  destruct (scan_torn blake3 Hdigest from_slice (replay_frame checkpoint) Hbytes Repair base (olds ++ news) f k (s, checkpoint))
    as [Hscan|]; [done..| |by right].
  left. apply replay_scanned; [done..|]. rewrite Hscan.
  unfold repair_or_reject_torn_suffix. cbn [mbind result_bind complete_len wal_inspection]. by rewrite Nat2Z.id, take_app_length.
Qed.

(** Whatever a replay accepts is such a log. *)
Lemma replay_inv file s checkpoint torn r :
  Forall byte file → registry_wf s → replay (Some file) s.1 s.2 checkpoint torn = Some (Ok r) →
  ∃ base olds news rest file',
    file = encode_wal base (olds ++ news) ++ rest ∧ wal_ok base (olds ++ news) ∧ replayable s checkpoint base olds news ∧
    r = replayed_result s checkpoint base olds news file' ∧
    (rest = [] ∧ file' = file ∨ torn = Repair ∧ file' = encode_wal base (olds ++ news) ∨ torn = Tolerate ∧ file' = file).
Proof using Hdigest.
  intros Hb Hs Hreplay. unfold replay_wal_with_policy in Hreplay. replace (s.1, s.2) with s in Hreplay by (by destruct s).
  destruct (scan_wal_with_policy _ _ _ _ _ _) as [scan|] eqn:Hscan; [|discriminate Hreplay]. cbn [mbind option_bind] in Hreplay.
  destruct scan as [[[[registries replayed] inspection] file']|]; [|discriminate Hreplay].
  pose proof Hscan as Hscan'. apply (scan_wal_sound blake3 Hdigest) in Hscan' as (base & fs & rest & Hfile & Hwal & Hi & Hv & Hend); [|done].
  cbn [fst snd] in Hi, Hv, Hend. subst inspection. cbn [mbind result_bind wal_inspection base_revision last_revision] in Hreplay.
  destruct (base <=? checkpoint)%Z eqn:E; [|discriminate Hreplay]. cbn [ensure mbind result_bind] in Hreplay. reflect_bool.
  destruct (split_checkpoint checkpoint base fs) as (olds & news & -> & Holds & Hnews); [apply Hwal|apply Hwal|].
  assert (Forall frame_ok news) as Hok by (destruct Hwal as [_ Hfs _]; by apply Forall_app in Hfs as [_ ?]).
  apply (visit_replay s checkpoint base olds news _ Hs Hok Holds Hnews E) in Hv as [Hr Hx].
  exists base, olds, news, rest, file'. split_and!; [done|done|done| |done].
  injection Hx as -> ->. injection Hreplay as <-. unfold replayed_result. do 5 f_equal.
  apply replayed_guard; [apply Hwal|apply Hr|done].
Qed.

Lemma replay_size file s checkpoint torn r :
  replay (Some file) s.1 s.2 checkpoint torn = Some (Ok r) → (file_len file <= MAX_REGISTRY_DELTA_WAL_BYTES)%Z.
Proof using Type.
  unfold replay_wal_with_policy, scan_wal_with_policy, check_wal_len.
  destruct (file_len file <=? MAX_REGISTRY_DELTA_WAL_BYTES)%Z eqn:E; [intros _; by reflect_bool|done].
Qed.

(** ** One commit *)

(** The log after a replay that repairs or rejects a torn suffix. *)
Lemma replayed_log file s checkpoint torn loaded admitted inspection log :
  Forall byte file → registry_wf s → torn ≠ Tolerate →
  replay (Some file) s.1 s.2 checkpoint torn = Some (Ok (loaded, admitted, inspection, Some log)) →
  ∃ base olds news,
    log = encode_wal base (olds ++ news) ∧ wal_ok base (olds ++ news) ∧ replayable s checkpoint base olds news ∧
    (loaded, admitted, inspection, Some log) = replayed_result s checkpoint base olds news log ∧
    (file_len log <= MAX_REGISTRY_DELTA_WAL_BYTES)%Z.
Proof using Hdigest.
  intros Hb Hs Htorn Hreplay. pose proof (replay_size _ _ _ _ _ Hreplay) as Hsize.
  apply replay_inv in Hreplay as (base & olds & news & rest & file' & Hfile & Hwal & Hr & Heq & Hend); [|done..].
  assert (file' = log) as -> by (unfold replayed_result in Heq; congruence).
  assert (log = encode_wal base (olds ++ news)) as Hlog.
  { destruct Hend as [[-> ->]|[[_ ->]|[-> _]]]; [by rewrite Hfile, app_nil_r|done|done]. }
  exists base, olds, news. split; [exact Hlog|]. split; [exact Hwal|]. split; [exact Hr|]. split; [exact Heq|].
  unfold file_len in *. rewrite Hlog. rewrite Hfile, length_app in Hsize. lia.
Qed.

(** The frame of a prepared batch. *)
Lemma prepared_frame (to_vec : Batch → list Z) revisions batch prepared :
  from_slice (to_vec batch) = Some batch → (last revisions <= u64_max)%Z → (0 <= first revisions)%Z →
  prepare_registry_delta blake3 to_vec revisions batch = Ok prepared →
  let f := mkFrame revisions (to_vec batch) batch in
  frame_ok f ∧ prepared = mkPreparedRegistryDelta (to_vec batch) (frame_header blake3 f) (frame_footer blake3 f).
Proof using Type.
  intros Hcodec Hlast Hfirst Hp. unfold prepare_registry_delta in Hp.
  destruct (range_validate revisions) as [[]|] eqn:Er; [|discriminate Hp]. cbn [invalid_batch mbind result_bind] in Hp.
  destruct (batch_validate batch) as [[]|] eqn:Ev; [|discriminate Hp]. cbn [mbind result_bind] in Hp.
  destruct (_ <=? _)%Z eqn:E; [|discriminate Hp]. cbn [ensure mbind result_bind] in Hp. apply Ok_inj in Hp as <-.
  unfold range_validate in Er. apply ensure_Ok_inv in Er. reflect_bool. split; [|done].
  split; cbn [fr_revisions fr_payload fr_batch]; [lia|lia|done|done|by apply batch_validate_wf].
Qed.

(** An append that continues the replayed revision adds its frame. *)
Lemma append_continues s checkpoint base olds news f log' :
  wal_ok base (olds ++ news) → replayable s checkpoint base olds news → frame_ok f →
  (file_len (encode_wal base (olds ++ news)) <= MAX_REGISTRY_DELTA_WAL_BYTES)%Z →
  first (fr_revisions f) = (last_of checkpoint news + 1)%Z →
  append_to_wal blake3 from_slice (encode_wal base (olds ++ news)) (fr_revisions f) (frame_header blake3 f) (fr_payload f) (frame_footer blake3 f) =
    Some (Ok (), log') →
  log' = encode_wal base (olds ++ news ++ [f]) ∧ wal_ok base (olds ++ news ++ [f]) ∧
  (file_len log' <= MAX_REGISTRY_DELTA_WAL_BYTES)%Z.
Proof using Hdigest.
  intros Hwal Hr Hf Hlen Hfirst Happend.
  destruct (append_to_wal_encoded blake3 Hdigest from_slice base (olds ++ news) f Hwal Hf Hlen) as (Heq & Hwal' & Hlen').
  rewrite Heq in Happend. clear Heq. rewrite !app_assoc.
  assert (Hcheckpoint : (checkpoint <= last_of checkpoint news)%Z).
  { assert (Forall frame_ok news) as Hok by (destruct Hwal as [_ Hfs _]; by apply Forall_app in Hfs as [_ ?]).
    destruct news as [|g news _] using rev_ind; [unfold last_of; cbn; lia|]. rewrite last_of_snoc.
    pose proof (contiguous_after _ _ Hok (rp_contiguous _ _ _ _ _ Hr)) as H. apply Forall_app in H as [_ H]. apply Forall_cons in H as [H _].
    cbn in H. lia. }
  assert (Hnoretry : ∀ g, foldl (λ _ g, Some g) None (olds ++ news) = Some g → fr_revisions f ≠ fr_revisions g).
  { intros g Hg Heq. destruct Hf as [_ Hlast _ _ _]. rewrite Heq in Hfirst, Hlast. destruct news as [|h news _] using rev_ind.
    - rewrite app_nil_r in Hg. destruct olds as [|h olds _] using rev_ind; [done|]. rewrite foldl_snoc in Hg. injection Hg as ->.
      pose proof (rp_olds _ _ _ _ _ Hr) as H. apply Forall_app in H as [_ H]. apply Forall_cons in H as [H _]. cbn in H. lia.
    - rewrite app_assoc, foldl_snoc in Hg. injection Hg as ->. rewrite last_of_snoc in Hfirst. lia. }
  assert (Hnew : append_frame blake3 base (olds ++ news) f =
    (frame_continues blake3 base (olds ++ news) f,
     if is_ok (frame_continues blake3 base (olds ++ news) f) then (olds ++ news) ++ [f] else olds ++ news)).
  { unfold append_frame. destruct (foldl _ None (olds ++ news)) as [g|] eqn:Eg; [|reflexivity].
    rewrite bool_decide_false by (by apply Hnoretry). reflexivity. }
  rewrite Hnew in Happend, Hwal', Hlen'. cbn [fst snd] in *.
  destruct (frame_continues blake3 base (olds ++ news) f) as [[]|]; [|discriminate Happend]. cbn [is_ok] in *.
  assert (log' = encode_wal base ((olds ++ news) ++ [f])) as -> by congruence. split; [reflexivity|]. split; assumption.
Qed.

Lemma replayable_snoc s checkpoint base olds news f :
  replayable s checkpoint base olds news → Forall frame_ok news → frame_ok f → first (fr_revisions f) = (last_of checkpoint news + 1)%Z →
  registry_wf (run_batch (run_frames s news) (fr_batch f)) → replayable s checkpoint base olds (news ++ [f]).
Proof using Type.
  intros [] Hok Hf Hfirst Hwf.
  assert (Hc : contiguous checkpoint (news ++ [f])) by (apply contiguous_app; done).
  split; [done|done| |done|by apply states_wf_snoc].
  apply (contiguous_after checkpoint); [|done]. apply Forall_app. split; [done|]. by constructor.
Qed.
End Log.
End Replay.

(** ** Commits *)

Section Commit.
Context {TBody WBody : Type} (blake3 : list Z → list Z).
Context (from_slice : list Z → option (RegistryDeltaBatch TBody WBody)) (to_vec : RegistryDeltaBatch TBody WBody → list Z).
Local Abbreviation replay := (replay_wal_with_policy blake3 from_slice).

(** The log is replayed, then a batch is prepared on the registries and
    appended. *)
Record committed (file : list Z) (tasks : gmap string (TaskRecord TBody)) (watches : list (WatchRegistration WBody)) (checkpoint : Z)
    (loaded : LoadedTaskWatchRegistry) (before : gset string * option WalInspection) (log log' : list Z)
    (revisions : RegistryRevisionRange) (batch : RegistryDeltaBatch TBody WBody) : Prop := {
  co_bytes : Forall byte file;
  co_checkpoint : registry_wf (tasks, watches);
  co_loaded : replay (Some file) tasks watches checkpoint Repair = Some (Ok (loaded, before.1, before.2, Some log));
  co_codec : from_slice (to_vec batch) = Some batch;
  co_next : first revisions = (replayed_revision loaded + 1)%Z;
  co_range : (0 <= first revisions ∧ last revisions <= u64_max)%Z;
  co_appended : ∃ prepared candidate,
    prepare_registry_delta blake3 to_vec revisions batch = Ok prepared ∧
    prepare_registry_delta_candidate (lt_tasks loaded) (lt_watches loaded) batch = Ok candidate ∧
    append_to_wal blake3 from_slice log revisions (pd_header prepared) (pd_payload prepared) (pd_footer prepared) = Some (Ok (), log')
}.

Lemma committed_frames file tasks watches checkpoint loaded before log log' revisions batch :
  (∀ l, length (blake3 l) = 32) → committed file tasks watches checkpoint loaded before log log' revisions batch →
  let f := mkFrame revisions (to_vec batch) batch in
  ∃ base olds news,
    log = encode_wal blake3 base (olds ++ news) ∧ wal_ok from_slice base (olds ++ news) ∧
    replayable (tasks, watches) checkpoint base olds news ∧
    (loaded, before.1, before.2, Some log) = replayed_result blake3 (tasks, watches) checkpoint base olds news log ∧
    log' = encode_wal blake3 base (olds ++ news ++ [f]) ∧ wal_ok from_slice base (olds ++ news ++ [f]) ∧
    replayable (tasks, watches) checkpoint base olds (news ++ [f]) ∧ (file_len log' <= MAX_REGISTRY_DELTA_WAL_BYTES)%Z.
Proof.
  intros Hd [Hb Hs Hloaded Hcodec Hnext Hrange (prepared & candidate & Hp & Hc & Ha)] f.
  apply (replayed_log from_slice blake3 Hd file (tasks, watches)) in Hloaded as (base & olds & news & -> & Hwal & Hr & Heq & Hsize); [|done..].
  destruct (prepared_frame from_slice blake3 to_vec revisions batch prepared Hcodec ltac:(lia) ltac:(lia) Hp) as [Hf ->].
  cbn [pd_header pd_payload pd_footer] in Ha. pose proof (f_equal (λ r, r.1.1.1) Heq) as Hl. cbn in Hl. subst loaded.
  cbn [replayed_revision lt_tasks lt_watches] in *.
  destruct (append_continues from_slice blake3 Hd (tasks, watches) checkpoint base olds news f log' Hwal Hr Hf Hsize Hnext Ha) as (-> & Hwal' & Hsize').
  exists base, olds, news. split_and!; try assumption || reflexivity.
  assert (Forall (frame_ok from_slice) news) as Hok by (destruct Hwal as [_ Hfs _]; by apply Forall_app in Hfs as [_ ?]).
  apply (replayable_snoc from_slice); [done..|].
  apply candidate_run in Hc as [? _]; [done|by apply states_wf_end; [|apply Hr]|apply (fo_valid _ _ Hf)].
Qed.
End Commit.

(** ** A log with one batch *)

Definition demo_digest (l : list Z) : list Z := to_le_bytes 32 (foldl (λ h b, (h * 31 + b + 1) mod 2 ^ 61)%Z 7%Z l).
Definition demo_task : TaskRecord () := mkTaskRecord "t" ["w"] ().
Definition demo_watch : WatchRegistration () := mkWatchRegistration "w" "t" ().
Definition demo_batch : RegistryDeltaBatch () () := upsert_watch (upsert_task empty_batch demo_task) demo_watch.
Definition demo_to_vec (b : RegistryDeltaBatch () ()) : list Z := [123; 125]%Z.
Definition demo_from_slice (l : list Z) : option (RegistryDeltaBatch () ()) :=
  if bool_decide (l = [123; 125]%Z) then Some demo_batch else None.
Definition demo_frame : Frame := mkFrame (mkRange 1 1) (demo_to_vec demo_batch) demo_batch.

Lemma demo_digest_length l : length (demo_digest l) = 32.
Proof. apply length_to_le_bytes. Qed.

Lemma demo_digest_bytes l : Forall byte (demo_digest l).
Proof. apply to_le_bytes_byte. Qed.

Lemma demo_batch_wf : batch_wf demo_batch.
Proof. apply batch_validate_wf. vm_compute. reflexivity. Qed.

Lemma demo_frame_ok : frame_ok demo_from_slice demo_frame.
Proof. split; [vm_compute; discriminate|vm_compute; split; discriminate|vm_compute; discriminate|reflexivity|exact demo_batch_wf]. Qed.

Lemma demo_wal_ok : wal_ok demo_from_slice 0 [demo_frame].
Proof. split; [vm_compute; split; discriminate|constructor; [exact demo_frame_ok|constructor]|by split]. Qed.

Lemma demo_empty_registry : registry_wf (∅ : gmap string (TaskRecord ()), [] : list (WatchRegistration ())).
Proof. apply validate_registry_wf. reflexivity. Qed.

Definition demo_log : list Z := encode_wal_header demo_digest 0.
Definition demo_log' : list Z := encode_wal demo_digest 0 [demo_frame].

Lemma demo_committed :
  committed demo_digest demo_from_slice demo_to_vec demo_log ∅ [] 0 (mkLoadedTaskWatchRegistry ∅ [] 0 0)
    (∅, Some (mkWalInspection 0 0 56 None)) demo_log demo_log' (mkRange 1 1) demo_batch.
Proof.
  split; [apply (bool_decide_unpack _); vm_compute; exact I|exact demo_empty_registry|vm_compute; reflexivity|reflexivity|reflexivity|
    vm_compute; split; discriminate|].
  eexists _, _. split; [vm_compute; reflexivity|]. split; [vm_compute; reflexivity|]. vm_compute. reflexivity.
Qed.

(** ** Claims *)

(** C39: the relationship check accepts exactly the registries in which no watch
    identifier is blank or repeated, every watch has an existing owner that lists it,
    and every listed watch exists, belongs to the task that lists it and is listed once.
    *)
Theorem registry_relationships_checked {TBody WBody} (tasks : gmap string (TaskRecord TBody)) (watches : list (WatchRegistration WBody)) :
  validate_task_watch_registry_relationships tasks watches = Ok () ↔ registry_wf (tasks, watches).
Proof. apply validate_registry_wf. Qed.

(** A batch that passes the checks before its append leaves registries whose
    watches and tasks agree, and the candidate that replaces the registries in memory is
    the batch run on them. *)
Theorem prepared_batch_keeps_registry {TBody WBody} (b : RegistryDeltaBatch TBody WBody) tasks watches candidate :
  registry_wf (tasks, watches) → batch_validate b = Ok () → prepare_registry_delta_candidate tasks watches b = Ok candidate →
  registry_wf (run_batch (tasks, watches) b) ∧ (candidate = None ∨ candidate = Some (run_batch (tasks, watches) b)).
Proof.
  intros Hs Hb%batch_validate_wf Hc. apply (candidate_run b (tasks, watches)) in Hc as [? Hc]; [|done..].
  split; [done|]. destruct Hc as [[? _]|?]; auto.
Qed.

Lemma prepared_batch_keeps_registry_witness :
  registry_wf (run_batch (∅, []) demo_batch).
Proof.
  eapply (proj1 (prepared_batch_keeps_registry demo_batch ∅ [] (Some (run_batch (∅, []) demo_batch)) demo_empty_registry ltac:(vm_compute; reflexivity)
    ltac:(vm_compute; reflexivity))).
Defined.

(** The scan of an encoded log visits exactly its frames in order and reports its
    revisions, its length and its last frame, and the fast inspection of the tail
    reports the same without reading the other frames. *)
Theorem wal_round_trip {TBody WBody S} blake3 from_slice
    (visit : S → RegistryRevisionRange → RegistryDeltaBatch TBody WBody → result WalError S) torn base fs s :
  (∀ l, length (blake3 l) = 32) → wal_ok from_slice base fs →
  (file_len (encode_wal blake3 base fs) <= MAX_REGISTRY_DELTA_WAL_BYTES)%Z →
  scan_wal_with_policy blake3 from_slice visit torn (encode_wal blake3 base fs) s =
    Some (s ← visit_all visit s fs; Ok (s, wal_inspection blake3 base fs, encode_wal blake3 base fs)) ∧
  inspect_wal_tail blake3 from_slice (encode_wal blake3 base fs) =
    Some (Ok (wal_inspection blake3 base fs, encode_wal blake3 base fs)).
Proof. intros. split; [by apply scan_encoded|by apply inspect_wal_tail_encoded]. Qed.

Lemma wal_round_trip_witness :
  let visit := λ (n : nat) (_ : RegistryRevisionRange) (_ : RegistryDeltaBatch () ()), Ok (S n) : result WalError nat in
  scan_wal_with_policy demo_digest demo_from_slice visit Reject (encode_wal demo_digest 0 [demo_frame]) 0 =
    Some (s ← visit_all visit 0 [demo_frame]; Ok (s, wal_inspection demo_digest 0 [demo_frame], encode_wal demo_digest 0 [demo_frame])) ∧
  inspect_wal_tail demo_digest demo_from_slice (encode_wal demo_digest 0 [demo_frame]) =
    Some (Ok (wal_inspection demo_digest 0 [demo_frame], encode_wal demo_digest 0 [demo_frame])).
Proof.
  intros visit. apply (wal_round_trip demo_digest demo_from_slice visit Reject 0 [demo_frame] 0 demo_digest_length demo_wal_ok).
  vm_compute. discriminate.
Defined.

(** C24: the scan of a log ends on every sequence of bytes, and when it succeeds the
    file begins with an encoded log of contiguous valid frames that were visited in
    order. What follows them was empty, cut off by the repair, or tolerated. *)
Theorem wal_scan_ends_and_is_sound {TBody WBody S} blake3 from_slice
    (visit : S → RegistryRevisionRange → RegistryDeltaBatch TBody WBody → result WalError S) torn file s :
  (∀ l, length (blake3 l) = 32) → Forall byte file →
  ∃ outcome, scan_wal_with_policy blake3 from_slice visit torn file s = Some outcome ∧
    ∀ s' inspection file', outcome = Ok (s', inspection, file') →
      ∃ base fs rest, file = encode_wal blake3 base fs ++ rest ∧ wal_ok from_slice base fs ∧
        inspection = wal_inspection blake3 base fs ∧ visit_all visit s fs = Ok s' ∧
        (rest = [] ∧ file' = file ∨ torn = Repair ∧ file' = encode_wal blake3 base fs ∨ torn = Tolerate ∧ file' = file).
Proof.
  intros Hdigest Hb. destruct (scan_wal_total blake3 from_slice visit torn file s Hb) as [outcome Hscan]. exists outcome. split; [done|].
  intros s' inspection file' ->. by apply (scan_wal_sound blake3 Hdigest) in Hscan.
Qed.

Lemma wal_scan_ends_and_is_sound_witness :
  ∃ outcome, scan_wal_with_policy demo_digest demo_from_slice (λ (n : nat) _ _, Ok (S n)) Repair demo_log 0 = Some outcome ∧
    ∀ s' inspection file', outcome = Ok (s', inspection, file') →
      ∃ base fs rest, demo_log = encode_wal demo_digest base fs ++ rest ∧ wal_ok demo_from_slice base fs ∧
        inspection = wal_inspection demo_digest base fs ∧ visit_all (λ (n : nat) _ _, Ok (S n)) 0 fs = Ok s' ∧
        (rest = [] ∧ file' = demo_log ∨ Repair = Repair ∧ file' = encode_wal demo_digest base fs ∨ Repair = Tolerate ∧ file' = demo_log).
Proof.
  apply (wal_scan_ends_and_is_sound demo_digest demo_from_slice (λ (n : nat) _ _, Ok (S n)) Repair demo_log 0 demo_digest_length).
  apply (bool_decide_unpack _). vm_compute. exact I.
Defined.

(** appending on the bytes is appending on the list of frames. A retry of the last
    revisions with the same payload changes nothing, a frame that continues the log
    within the size limit is added, and every other one is refused with its error and
    leaves the log as it was. *)
Theorem append_refines_frames {TBody WBody} blake3 from_slice base fs (f : Frame (TBody := TBody) (WBody := WBody)) :
  (∀ l, length (blake3 l) = 32) → wal_ok from_slice base fs → frame_ok from_slice f →
  (file_len (encode_wal blake3 base fs) <= MAX_REGISTRY_DELTA_WAL_BYTES)%Z →
  append_to_wal blake3 from_slice (encode_wal blake3 base fs) (fr_revisions f) (frame_header blake3 f) (fr_payload f) (frame_footer blake3 f) =
    Some ((append_frame blake3 base fs f).1, encode_wal blake3 base (append_frame blake3 base fs f).2) ∧
  wal_ok from_slice base (append_frame blake3 base fs f).2.
Proof. intros Hd Hwal Hf Hlen. destruct (append_to_wal_encoded blake3 Hd from_slice base fs f Hwal Hf Hlen) as (? & ? & _). done. Qed.

Lemma append_refines_frames_witness :
  append_to_wal demo_digest demo_from_slice (encode_wal demo_digest 0 [demo_frame]) (fr_revisions demo_frame) (frame_header demo_digest demo_frame)
    (fr_payload demo_frame) (frame_footer demo_digest demo_frame) =
    Some ((append_frame demo_digest 0 [demo_frame] demo_frame).1, encode_wal demo_digest 0 (append_frame demo_digest 0 [demo_frame] demo_frame).2) ∧
  wal_ok demo_from_slice 0 (append_frame demo_digest 0 [demo_frame] demo_frame).2.
Proof.
  apply (append_refines_frames demo_digest demo_from_slice 0 [demo_frame] demo_frame demo_digest_length demo_wal_ok demo_frame_ok).
  vm_compute. discriminate.
Defined.

(** whatever bytes a log holds, if the replay accepts it then the log begins with
    contiguous valid frames, those up to the checkpoint are skipped, the others continue
    the checkpoint without a gap, and the loaded registries are the checkpoint with
    their batches run in order; every watch belongs to the task that lists it. *)
Theorem replay_runs_new_batches {TBody WBody} blake3 (from_slice : list Z → option (RegistryDeltaBatch TBody WBody))
    file tasks watches checkpoint torn loaded admitted inspection log :
  (∀ l, length (blake3 l) = 32) → Forall byte file → registry_wf (tasks, watches) →
  replay_wal_with_policy blake3 from_slice (Some file) tasks watches checkpoint torn = Some (Ok (loaded, admitted, inspection, log)) →
  ∃ base olds news rest,
    file = encode_wal blake3 base (olds ++ news) ++ rest ∧ wal_ok from_slice base (olds ++ news) ∧ (base <= checkpoint)%Z ∧
    Forall (λ f, last (fr_revisions f) <= checkpoint)%Z olds ∧ contiguous checkpoint news ∧
    (lt_tasks loaded, lt_watches loaded) = foldl run_batch (tasks, watches) (fr_batch <$> news) ∧
    replayed_revision loaded = last_of checkpoint news ∧ registry_wf (lt_tasks loaded, lt_watches loaded).
Proof.
  intros Hd Hb Hs Hreplay. apply (replay_inv from_slice blake3 Hd file (tasks, watches)) in Hreplay
    as (base & olds & news & rest & file' & Hfile & Hwal & Hr & Heq & _); [|done..].
  pose proof (f_equal (λ r, r.1.1.1) Heq) as Hl. cbn in Hl. subst loaded.
  exists base, olds, news, rest. cbn [lt_tasks lt_watches replayed_revision].
  rewrite <- (surjective_pairing (run_frames (tasks, watches) news)). destruct Hr.
  split_and!; try done. by apply states_wf_end.
Qed.

Lemma replay_runs_new_batches_witness :
  ∃ base olds news rest,
    demo_log = encode_wal demo_digest base (olds ++ news) ++ rest ∧ wal_ok demo_from_slice base (olds ++ news) ∧ (base <= 0)%Z ∧
    Forall (λ f, last (fr_revisions f) <= 0)%Z olds ∧ contiguous 0 news ∧
    ((∅ : gmap string (TaskRecord ())), ([] : list (WatchRegistration ()))) = foldl run_batch (∅, []) (fr_batch <$> news) ∧
    0%Z = last_of 0 news ∧ registry_wf ((∅ : gmap string (TaskRecord ())), ([] : list (WatchRegistration ()))).
Proof.
  apply (replay_runs_new_batches demo_digest demo_from_slice demo_log ∅ [] 0 Repair (mkLoadedTaskWatchRegistry ∅ [] 0 0)
    ∅ (Some (mkWalInspection 0 0 56 None)) (Some demo_log) demo_digest_length).
  - apply (bool_decide_unpack _). vm_compute. exact I.
  - exact demo_empty_registry.
  - vm_compute. reflexivity.
Defined.

(** C4: a registry batch that was prepared on the loaded registries and appended to the
    log survives a restart. Replaying the new log on the same checkpoint gives the
    loaded registries with the batch run on them, at the last revision of the batch,
    under every policy for torn suffixes. The codec of the batch is assumed to read back
    what it wrote. *)
Theorem commit_is_durable {TBody WBody} blake3 (from_slice : list Z → option (RegistryDeltaBatch TBody WBody)) to_vec
    file tasks watches checkpoint loaded before log log' revisions batch torn :
  (∀ l, length (blake3 l) = 32) →
  committed blake3 from_slice to_vec file tasks watches checkpoint loaded before log log' revisions batch →
  ∃ loaded' after,
    replay_wal_with_policy blake3 from_slice (Some log') tasks watches checkpoint torn = Some (Ok (loaded', after.1, after.2, Some log')) ∧
    (lt_tasks loaded', lt_watches loaded') = run_batch (lt_tasks loaded, lt_watches loaded) batch ∧
    replayed_revision loaded' = last revisions.
Proof.
  intros Hd Hcommit. pose proof (co_checkpoint _ _ _ _ _ _ _ _ _ _ _ _ _ Hcommit) as Hs.
  destruct (committed_frames _ _ _ _ _ _ _ _ _ _ _ _ _ Hd Hcommit) as (base & olds & news & _ & _ & _ & Heq & -> & Hwal & Hr & Hsize).
  pose proof (replay_encoded from_slice blake3 Hd (tasks, watches) checkpoint torn base olds _ Hs Hwal Hr Hsize) as Hreplay.
  eexists _, (_, _). split; [exact Hreplay|]. pose proof (f_equal (λ r, r.1.1.1) Heq) as Hl. cbn in Hl. subst loaded. cbn [lt_tasks lt_watches replayed_revision].
  rewrite run_frames_snoc, last_of_snoc, <- !surjective_pairing. done.
Qed.

Lemma commit_is_durable_witness :
  ∃ loaded' after,
    replay_wal_with_policy demo_digest demo_from_slice (Some demo_log') ∅ [] 0 Reject = Some (Ok (loaded', after.1, after.2, Some demo_log')) ∧
    (lt_tasks loaded', lt_watches loaded') = run_batch (∅, []) demo_batch ∧ replayed_revision loaded' = 1%Z.
Proof.
  exact (commit_is_durable demo_digest demo_from_slice demo_to_vec demo_log ∅ [] 0 (mkLoadedTaskWatchRegistry ∅ [] 0 0)
    (∅, Some (mkWalInspection 0 0 56 None)) demo_log demo_log' (mkRange 1 1) demo_batch Reject demo_digest_length demo_committed).
Defined.

(** A crash at any byte of an append leaves the registries as they were. Replaying
    the cut log gives the same registries and revision as before the append and
    truncates the log to its old bytes, unless the digest of the payload happens to hold
    the footer's magic number. The payload is JSON text and the revisions are below
    2^56. *)
Theorem torn_commit_is_dropped {TBody WBody} blake3 (from_slice : list Z → option (RegistryDeltaBatch TBody WBody)) to_vec
    file tasks watches checkpoint loaded before log log' revisions batch k :
  (∀ l, length (blake3 l) = 32) → (∀ l, Forall byte (blake3 l)) →
  committed blake3 from_slice to_vec file tasks watches checkpoint loaded before log log' revisions batch →
  Forall (λ b, 1 <= b <= 255)%Z (to_vec batch) → (last revisions < 2 ^ 56)%Z → length log ≤ k < length log' →
  replay_wal_with_policy blake3 from_slice (Some (take k log')) tasks watches checkpoint Repair =
    Some (Ok (loaded, before.1, before.2, Some log)) ∨
  ∃ a, slice a (a + 8) (blake3 (to_vec batch)) = FRAME_FOOTER_MAGIC.
Proof.
  intros Hd Hbytes Hcommit Htext Hrev Hk. pose proof (co_checkpoint _ _ _ _ _ _ _ _ _ _ _ _ _ Hcommit) as Hs.
  destruct (committed_frames _ _ _ _ _ _ _ _ _ _ _ _ _ Hd Hcommit) as (base & olds & news & -> & Hwal & Hr & Heq & -> & Hwal' & Hr' & Hsize).
  rewrite Heq. set (f := mkFrame revisions (to_vec batch) batch) in *. set (log := encode_wal blake3 base (olds ++ news)) in *.
  rewrite app_assoc, encode_wal_snoc in Hk, Hsize |- *. fold log in Hk, Hsize |- *. rewrite length_app in Hk.
  assert (Hf : frame_ok from_slice f) by (eapply Forall_forall; [apply Hwal'|rewrite !elem_of_app; right; right; left]).
  rewrite (take_app_ge log) by lia.
  assert (Hlen : (file_len (log ++ take (k - length log) (encode_frame blake3 f)) <= MAX_REGISTRY_DELTA_WAL_BYTES)%Z).
  { unfold file_len in *. rewrite length_app in *. rewrite length_take. lia. }
  destruct (decide (k = length log)) as [->|Hne].
  { left. rewrite Nat.sub_diag, take_0, app_nil_r in Hlen |- *. by apply (replay_encoded from_slice blake3 Hd (tasks, watches)). }
  apply (replay_torn from_slice blake3 Hd Hbytes (tasks, watches) checkpoint base olds news f); [done..|by split|lia|exact Hlen].
Qed.

Lemma torn_commit_is_dropped_witness :
  replay_wal_with_policy demo_digest demo_from_slice (Some (take 150 demo_log')) ∅ [] 0 Repair =
    Some (Ok (mkLoadedTaskWatchRegistry ∅ [] 0 0, ∅, Some (mkWalInspection 0 0 56 None), Some demo_log)) ∨
  ∃ a, slice a (a + 8) (demo_digest (demo_to_vec demo_batch)) = FRAME_FOOTER_MAGIC.
Proof.
  apply (torn_commit_is_dropped demo_digest demo_from_slice demo_to_vec demo_log ∅ [] 0 (mkLoadedTaskWatchRegistry ∅ [] 0 0)
    (∅, Some (mkWalInspection 0 0 56 None)) demo_log demo_log' (mkRange 1 1) demo_batch 150 demo_digest_length demo_digest_bytes demo_committed).
  - repeat constructor; discriminate.
  - reflexivity.
  - apply (bool_decide_unpack _). vm_compute. exact I.
Defined.

