(* ===== verification/Namespace.v ===== *)
(** * Namespace: portable task identifiers and the admission of new tasks

    Models the storage identifiers of [src/crates/packet28-daemon-protocol/src/paths.rs],
    their alias classes in [src/crates/packet28-daemon-core/src/storage.rs],
    and the admission of a batch of registry mutations against the entries
    that the managed directories already hold
    ([validate_registry_delta_namespace_admission]).  The Unicode
    normalisation of the alias classes is a parameter; a directory is what
    its enumeration returns. *)

From S2P Require Export RegistryWal.

(** ** Storage identifiers *)

Definition TASK_EVENT_LOG_SUFFIX : string := ".events.jsonl".
Definition MAX_TASK_STORAGE_ID_BYTES : nat := 255 - str_len TASK_EVENT_LOG_SUFFIX.
Definition MAX_CONTEXT_VERSION_STORAGE_ID_BYTES : nat := 255 - str_len ".json".
Definition MAX_TASK_STORAGE_KEY_BYTES : nat := MAX_TASK_STORAGE_ID_BYTES.
Definition MAX_TASK_REGISTRY_RECORDS : Z := 65536.

Inductive StorageIdentifierError : Type :=
| Empty
| TooLong (observed max : nat)
| InvalidByte (offset : nat) (byte : ascii)
| ReservedDosDeviceName (identifier : string).

(** [is_ascii_lowercase], [is_ascii_digit], [-] or [_]. *)
Definition portable_byte (c : ascii) : bool :=
  ((97 <=? chr c) && (chr c <=? 122) || (48 <=? chr c) && (chr c <=? 57) || (chr c =? 45) || (chr c =? 95))%N.

(** The first byte outside the portable domain. *)
Fixpoint find_invalid_byte (offset : nat) (l : list ascii) : option (nat * ascii) :=
  match l with
  | [] => None
  | c :: l => if negb (portable_byte c) then Some (offset, c) else find_invalid_byte (S offset) l
  end.

(** One byte between ['1'] and ['9']. *)
Definition device_number (suffix : string) : bool :=
  match suffix with
  | String c EmptyString => ((49 <=? chr c) && (chr c <=? 57))%N
  | _ => false
  end.

(** [strip_prefix(a).or_else(|| strip_prefix(b)).is_some_and(..)]. *)
Definition device_port (com lpt value : string) : bool :=
  match Str.strip_prefix com value with
  | Some suffix => device_number suffix
  | None => match Str.strip_prefix lpt value with Some suffix => device_number suffix | None => false end
  end.

Definition is_reserved_dos_device_name (value : string) : bool :=
  bool_decide (value ∈ ["con"; "prn"; "aux"; "nul"]) || device_port "com" "lpt" value.

Definition validate_storage_identifier (value : string) (max_bytes : nat) : result StorageIdentifierError () :=
  ensure (negb (bool_decide (value = EmptyString))) Empty ;;
  ensure (str_len value <=? max_bytes) (TooLong (str_len value) max_bytes) ;;
  match find_invalid_byte 0 (str_bytes value) with
  | Some (offset, byte) => Err (InvalidByte offset byte)
  | None => ensure (negb (is_reserved_dos_device_name value)) (ReservedDosDeviceName value)
  end.

(** [TaskStorageId::try_from]: the identifier itself. *)
Definition task_storage_id (value : string) : result StorageIdentifierError string :=
  validate_storage_identifier value MAX_TASK_STORAGE_ID_BYTES ;; Ok value.
Definition context_version_storage_id (value : string) : result StorageIdentifierError string :=
  validate_storage_identifier value MAX_CONTEXT_VERSION_STORAGE_ID_BYTES ;; Ok value.

Definition task_identifier_shape_error (task_id : string) : option StorageIdentifierError :=
  match task_storage_id task_id with Ok _ => None | Err e => Some e end.

(** The names of the entries of a task in the managed directories. *)
Definition task_artifact_name (id : string) : string := id.
Definition task_event_log_name (id : string) : string := id +:+ TASK_EVENT_LOG_SUFFIX.

(** ** Storage keys *)

Fixpoint skip_while (p : ascii → bool) (l : list ascii) : list ascii :=
  match l with
  | [] => []
  | c :: l => if p c then skip_while p l else c :: l
  end.

(** [trim_end_matches([' ', '.'])]. *)
Definition trim_end_dots (s : string) : string :=
  str_of_bytes (reverse (skip_while (λ c, bool_decide (chr c = 32%N) || bool_decide (chr c = 46%N)) (reverse (str_bytes s)))).

Definition to_ascii_uppercase_byte (c : ascii) : ascii :=
  if ((97 <=? chr c) && (chr c <=? 122))%N then ascii_of_N (chr c - 32)%N else c.
Definition to_ascii_uppercase (s : string) : string := str_of_bytes (to_ascii_uppercase_byte <$> str_bytes s).

Definition windows_storage_key_is_reserved (storage_key : string) : bool :=
  let normalized := to_ascii_uppercase (trim_end_dots storage_key) in
  bool_decide (normalized ∈ ["CON"; "PRN"; "AUX"; "NUL"]) || device_port "COM" "LPT" normalized.

Definition task_storage_key_is_portable (storage_key : string) : bool :=
  negb (bool_decide (storage_key = EmptyString)) && (str_len storage_key <=? MAX_TASK_STORAGE_KEY_BYTES) &&
  forallb portable_byte (str_bytes storage_key) && negb (windows_storage_key_is_reserved storage_key).

(** ** The managed directories *)

(** An entry of an enumeration; [None] in [de_name]: not UTF-8; [None] in
    [de_metadata]: it cannot be inspected. *)
Record DirEntry : Type := mkDirEntry {
  de_name : option string;
  de_metadata : option (bool * Z)
}.

(** [None] in the list: the enumeration failed there. *)
Inductive ManagedDir : Type :=
| DirMissing
| DirUnreadable
| DirNotReal
| DirEntries (entries : list (option DirEntry)).

Section Alias.
(** [s.nfkc().case_fold().nfkc()]. *)
Context (normalize : string → string).

Definition task_storage_key_alias_class (storage_key : string) : string := trim_end_dots (normalize storage_key).

(** The loop over the entries of one directory. *)
Fixpoint check_entries (expected : gmap string (string * string)) (existing_task_ids : gset string) (entries_seen : Z)
    (entries : list (option DirEntry)) : result WalError () :=
  match entries with
  | [] => Ok ()
  | entry :: entries =>
      let entries_seen := (entries_seen + 1)%Z in
      ensure (entries_seen <=? MAX_TASK_REGISTRY_RECORDS)%Z (InvalidTaskRegistry "managed task namespace exceeds the supported validation bound") ;;
      match entry with
      | None => Err (Io "failed to enumerate task storage namespace before registry save")
      | Some entry =>
          match de_name entry with
          | None => Ok ()
          | Some actual_name =>
              match expected !! task_storage_key_alias_class actual_name with
              | None => Ok ()
              | Some (task_id, expected_name) =>
                  ensure (bool_decide (actual_name = expected_name)) (InvalidTaskRegistry "managed entry aliases the canonical spelling") ;;
                  ensure (bool_decide (task_id ∈ existing_task_ids)) (InvalidTaskRegistry "new task cannot adopt pre-existing managed entry") ;;
                  match de_metadata entry with
                  | None => Err (Io "failed to inspect managed task entry before registry save")
                  | Some (is_file, nlink) =>
                      ensure (negb (is_file && (1 <? nlink)%Z)) (InvalidTaskRegistry "managed task entry has multiple physical links")
                  end
              end
          end
      end ;;
      check_entries expected existing_task_ids entries_seen entries
  end.

Definition check_managed_dir (expected : gmap string (string * string)) (existing_task_ids : gset string) (dir : ManagedDir)
    : result WalError () :=
  match dir with
  | DirMissing => Ok ()
  | DirUnreadable => Err (Io "failed to inspect task storage namespace before registry save")
  | DirNotReal => Err (InvalidTaskRegistry "managed task namespace is not a real directory")
  | DirEntries entries => check_entries expected existing_task_ids 0 entries
  end.

(** The expected entries of the tasks, by their alias class. *)
Definition expected_entries (name : string → string) (ids : list string) : gmap string (string * string) :=
  foldl (λ m id, <[task_storage_key_alias_class (name id) := (id, name id)]> m) ∅ ids.

Definition validate_task_registry_namespace_bindings (artifacts events : ManagedDir) (ids : list string)
    (existing_registry : option (gset string)) (wal_admitted_task_ids : option (gset string)) : result WalError () :=
  let existing_task_ids := default ∅ existing_registry ∪ default ∅ wal_admitted_task_ids in
  check_managed_dir (expected_entries task_artifact_name ids) existing_task_ids artifacts ;;
  check_managed_dir (expected_entries task_event_log_name ids) existing_task_ids events.

(** The loop that claims an alias class for every new task. *)
Fixpoint claim_aliases (alias_owners : gmap string string) (ids : list string) : result WalError () :=
  match ids with
  | [] => Ok ()
  | id :: ids =>
      let alias := task_storage_key_alias_class id in
      ensure (bool_decide (alias_owners !! alias = None)) (InvalidTaskRegistry "task identifiers derive filesystem-aliasing storage keys") ;;
      claim_aliases (<[alias := id]> alias_owners) ids
  end.

(** The loop over the touched identifiers. *)
Definition check_shape (id : string) : result WalError () :=
  match task_identifier_shape_error id with
  | Some _ => Err (InvalidTaskRegistry "storage identifier is not portable")
  | None => Ok ()
  end.

Definition validate_registry_delta_namespace_admission {TBody WBody} (artifacts events : ManagedDir)
    (current : gmap string (TaskRecord TBody)) (batch : RegistryDeltaBatch TBody WBody) : result WalError () :=
  for_each check_shape ((btree_entries (task_upserts batch)).*1 ++ btree_items (task_removals batch)) ;;
  let new_tasks := btree_items (dom (task_upserts batch) ∖ dom current) in
  if bool_decide (new_tasks = []) then Ok ()
  else
    let alias_owners := foldl (λ m id, <[task_storage_key_alias_class id := id]> m) ∅ (btree_items (dom current)) in
    claim_aliases alias_owners new_tasks ;;
    validate_task_registry_namespace_bindings artifacts events new_tasks (Some (dom current)) None.

(** [task_registry_shape_error], the check of a whole registry: [None] when
    it is well formed. *)
Fixpoint registry_shape_error {TBody} (owners : gmap string string) (entries : list (string * TaskRecord TBody)) : option string :=
  match entries with
  | [] => None
  | (id, record) :: entries =>
      match task_identifier_shape_error id with
      | Some _ => Some "task map contains an unsupported identifier"%string
      | None =>
          let alias := task_storage_key_alias_class id in
          match owners !! alias with
          | Some _ => Some "task identifiers derive filesystem-aliasing storage keys"%string
          | None =>
              if negb (bool_decide (task_id record = id)) then Some "task map key does not match embedded identifier"%string
              else registry_shape_error (<[alias := id]> owners) entries
          end
      end
  end.

Definition task_registry_shape_error {TBody} (tasks : gmap string (TaskRecord TBody)) : option string :=
  registry_shape_error ∅ (btree_entries tasks).
End Alias.
