(* ===== verification/NamespaceSpec.v ===== *)
(** * NamespaceSpec: what the namespace admission guarantees

    The two definitions of a portable key agree, and a batch is admitted
    exactly when the identifiers it touches are portable and no managed entry
    would be adopted by one of its new tasks. *)

From S2P Require Export RegistryDeltaSpec Namespace.

(** ** Portable identifiers *)

Record portable_id (max : nat) (s : string) : Prop := {
  pi_nonempty : s ≠ EmptyString;
  pi_length : str_len s ≤ max;
  pi_bytes : Forall (λ c, portable_byte c = true) (str_bytes s);
  pi_device : is_reserved_dos_device_name s = false
}.

Lemma find_invalid_byte_None offset l : find_invalid_byte offset l = None ↔ Forall (λ c, portable_byte c = true) l.
Proof.
  revert offset. induction l as [|c l IH]; intros offset; cbn [find_invalid_byte]; [by split|].
  rewrite Forall_cons. destruct (portable_byte c); cbn [negb]; [rewrite IH; tauto|]. split; [done|by intros [? _]].
Qed.

Lemma find_invalid_byte_Some offset l o c :
  find_invalid_byte offset l = Some (o, c) →
  ∃ pre post, l = pre ++ c :: post ∧ o = offset + length pre ∧ Forall (λ c, portable_byte c = true) pre ∧ portable_byte c = false.
Proof.
  revert offset. induction l as [|x l IH]; intros offset; cbn [find_invalid_byte]; [done|].
  destruct (portable_byte x) eqn:E; cbn [negb].
  - intros (pre & post & -> & -> & ? & ?)%IH. exists (x :: pre), post. split_and!; [done|simpl; lia|by constructor|done].
  - intros [= <- <-]. exists [], l. split_and!; [done|simpl; lia|constructor|done].
Qed.

Lemma validate_storage_identifier_Ok s max : validate_storage_identifier s max = Ok () ↔ portable_id max s.
Proof.
  unfold validate_storage_identifier. split.
  - intros H. destruct (bool_decide (s = EmptyString)) eqn:E1; [discriminate H|]. cbn [negb ensure mbind result_bind] in H.
    destruct (str_len s <=? max) eqn:E2; [|discriminate H]. cbn [ensure mbind result_bind] in H.
    destruct (find_invalid_byte 0 _) as [[o c]|] eqn:E3; [discriminate H|]. apply ensure_Ok_inv in H. reflect_bool.
    apply find_invalid_byte_None in E3. done.
  - intros [H1 H2 H3 H4]. rewrite bool_decide_false by done. rewrite (proj2 (Nat.leb_le _ _) H2). cbn [negb ensure mbind result_bind].
    rewrite (proj2 (find_invalid_byte_None 0 _) H3). by rewrite H4.
Qed.

Lemma shape_error_None id : task_identifier_shape_error id = None ↔ portable_id MAX_TASK_STORAGE_ID_BYTES id.
Proof.
  unfold task_identifier_shape_error, task_storage_id. rewrite <- validate_storage_identifier_Ok.
  destruct (validate_storage_identifier id _) as [[]|]; cbn [mbind result_bind]; split; done.
Qed.

(** *** Upper case *)

Lemma portable_byte_cases c : portable_byte c = true → ∃ i : N, c = ascii_of_N i ∧ (i < 128)%N ∧
  ((97 <= i <= 122) ∨ (48 <= i <= 57) ∨ i = 45 ∨ i = 95)%N.
Proof.
  unfold portable_byte, chr. intros H. exists (N_of_ascii c). split; [by rewrite ascii_N_embedding|].
  apply orb_true_iff in H as [H|H]; [|apply N.eqb_eq in H; lia]. apply orb_true_iff in H as [H|H]; [|apply N.eqb_eq in H; lia].
  apply orb_true_iff in H as [H|H]; apply andb_true_iff in H as [H1%N.leb_le H2%N.leb_le]; lia.
Qed.

Lemma skip_while_none p l : Forall (λ c, p c = false) l → skip_while p l = l.
Proof. destruct 1 as [|c l Hc]; [done|]. cbn [skip_while]. by rewrite Hc. Qed.

Lemma trim_end_dots_keep s c l : str_bytes s = l ++ [c] → chr c ≠ 32%N → chr c ≠ 46%N → trim_end_dots s = s.
Proof.
  intros Hs H1 H2. unfold trim_end_dots. rewrite Hs, reverse_snoc. cbn [skip_while].
  rewrite !bool_decide_false by done. cbn [orb]. rewrite <- reverse_snoc, reverse_involutive, <- Hs.
  apply str_bytes_inj. by rewrite str_bytes_of_bytes.
Qed.

Lemma portable_trim s : Forall (λ c, portable_byte c = true) (str_bytes s) → trim_end_dots s = s.
Proof.
  intros H. destruct (str_bytes s) as [|c l _] eqn:E using rev_ind.
  - assert (s = EmptyString) as -> by (by apply str_bytes_inj). done.
  - apply Forall_app in H as [_ H]. apply Forall_cons in H as [H _]. apply portable_byte_cases in H as (i & -> & Hi & Hc).
    apply (trim_end_dots_keep s (ascii_of_N i) l); [done|..]; unfold chr; rewrite N_ascii_embedding; lia.
Qed.

Definition to_ascii_lowercase_byte (c : ascii) : ascii :=
  if ((65 <=? chr c) && (chr c <=? 90))%N then ascii_of_N (chr c + 32)%N else c.

Lemma lower_upper_byte c : portable_byte c = true → to_ascii_lowercase_byte (to_ascii_uppercase_byte c) = c.
Proof. destruct c as [[] [] [] [] [] [] [] []]; vm_compute; congruence. Qed.

Lemma upper_byte_inj c d : portable_byte c = true → portable_byte d = true → to_ascii_uppercase_byte c = to_ascii_uppercase_byte d → c = d.
Proof. intros Hc Hd H. rewrite <- (lower_upper_byte c), <- (lower_upper_byte d) by done. by rewrite H. Qed.

Lemma upper_digit c s : portable_byte c = true → device_number (String (to_ascii_uppercase_byte c) s) = device_number (String c s).
Proof. destruct s; [|done]. destruct c as [[] [] [] [] [] [] [] []]; vm_compute; congruence. Qed.

Lemma to_ascii_uppercase_cons c s : to_ascii_uppercase (String c s) = String (to_ascii_uppercase_byte c) (to_ascii_uppercase s).
Proof. done. Qed.

Local Abbreviation portable s := (Forall (λ c, portable_byte c = true) (str_bytes s)).

Lemma upper_inj s t : portable s → portable t → to_ascii_uppercase s = to_ascii_uppercase t → s = t.
Proof.
  revert t. induction s as [|c s IH]; intros [|d t] Hs Ht; try done. rewrite !to_ascii_uppercase_cons. intros H.
  apply Forall_cons in Hs as [Hc Hs]. apply Forall_cons in Ht as [Hd Ht]. injection H as H1 H2.
  apply upper_byte_inj in H1 as ->; [|done..]. by rewrite (IH t).
Qed.

Lemma upper_strip_prefix p s :
  portable p → portable s →
  Str.strip_prefix (to_ascii_uppercase p) (to_ascii_uppercase s) = to_ascii_uppercase <$> Str.strip_prefix p s.
Proof.
  revert s. induction p as [|a p IH]; intros s Hp Hs; [by destruct s|]. destruct s as [|b s]; [done|].
  apply Forall_cons in Hp as [Ha Hp]. apply Forall_cons in Hs as [Hb Hs]. rewrite !to_ascii_uppercase_cons. cbn [Str.strip_prefix].
  destruct (ascii_dec a b) as [->|Hne].
  - destruct (ascii_dec _ _) as [_|[]]; [by apply IH|done].
  - destruct (ascii_dec _ _) as [Heq|_]; [|done]. destruct Hne. by apply upper_byte_inj.
Qed.

Lemma strip_prefix_portable p s r : portable s → Str.strip_prefix p s = Some r → portable r.
Proof. intros Hs ->%strip_prefix_Some. rewrite str_bytes_app in Hs. by apply Forall_app in Hs as [_ ?]. Qed.

Lemma upper_device_number s : portable s → device_number (to_ascii_uppercase s) = device_number s.
Proof.
  destruct s as [|c s]; [done|]. intros [Hc _]%Forall_cons. rewrite to_ascii_uppercase_cons. destruct s as [|d s]; [by apply upper_digit|done].
Qed.

Lemma upper_device_port com lpt s :
  portable com → portable lpt → portable s →
  device_port (to_ascii_uppercase com) (to_ascii_uppercase lpt) (to_ascii_uppercase s) = device_port com lpt s.
Proof.
  intros Hcom Hlpt Hs. unfold device_port. rewrite !upper_strip_prefix by done.
  destruct (Str.strip_prefix com s) as [r|] eqn:E; cbn [fmap option_fmap option_map].
  - apply upper_device_number. by apply strip_prefix_portable in E.
  - destruct (Str.strip_prefix lpt s) as [r|] eqn:E'; cbn [fmap option_fmap option_map]; [|done].
    apply upper_device_number. by apply strip_prefix_portable in E'.
Qed.

Lemma reserved_agree s : portable s → windows_storage_key_is_reserved s = is_reserved_dos_device_name s.
Proof.
  intros Hs. unfold windows_storage_key_is_reserved, is_reserved_dos_device_name. rewrite portable_trim by done.
  assert (Hnames : ∀ t, t ∈ ["con"; "prn"; "aux"; "nul"; "com"; "lpt"] → portable t).
  { intros t Ht. repeat (apply elem_of_cons in Ht as [->|Ht]; [repeat constructor|]). by apply elem_of_nil in Ht. }
  f_equal.
  - apply bool_decide_ext. change ["CON"; "PRN"; "AUX"; "NUL"] with (to_ascii_uppercase <$> ["con"; "prn"; "aux"; "nul"]).
    rewrite list_elem_of_fmap. split.
    + intros (t & Ht & Hin). assert (portable t) by (apply Hnames; set_solver). by rewrite (upper_inj s t).
    + intros Hin. by exists s.
  - apply (upper_device_port "com" "lpt"); [apply Hnames; set_solver..|done].
Qed.

Lemma portable_key_agree s : task_storage_key_is_portable s = is_ok (validate_storage_identifier s MAX_TASK_STORAGE_ID_BYTES).
Proof.
  apply eq_true_iff_eq. transitivity (portable_id MAX_TASK_STORAGE_ID_BYTES s).
  - unfold task_storage_key_is_portable, MAX_TASK_STORAGE_KEY_BYTES. rewrite !andb_true_iff, !negb_true_iff, forallb_forall.
    rewrite Nat.leb_le, bool_decide_eq_false.
    assert (Hall : (∀ x, In x (str_bytes s) → portable_byte x = true) ↔ portable s).
    { rewrite Forall_forall. setoid_rewrite list_elem_of_In. done. }
    rewrite Hall. split; [intros [[[H1 H2] H3] H4]; split; [done..|by rewrite <- reserved_agree]|].
    intros [H1 H2 H3 H4]. split_and!; [done..|by rewrite reserved_agree].
  - rewrite <- validate_storage_identifier_Ok. destruct (validate_storage_identifier s _) as [[]|]; cbn; split; done.
Qed.

(** ** Alias classes *)

(** The bytes of identifiers and of the names derived from them. *)
Definition plain (s : string) : Prop := Forall (λ c, (portable_byte c || (chr c =? 46)%N) = true) (str_bytes s).

Lemma portable_plain s : portable s → plain s.
Proof. intros H. eapply Forall_impl; [exact H|]. intros c Hc. cbn in *. by rewrite Hc. Qed.

Lemma event_name_plain id : portable id → plain (task_event_log_name id).
Proof.
  intros H. unfold plain, task_event_log_name. rewrite str_bytes_app, Forall_app. split; [by apply portable_plain|].
  repeat constructor.
Qed.

Lemma event_name_trim id : trim_end_dots (task_event_log_name id) = task_event_log_name id.
Proof.
  apply (trim_end_dots_keep _ "l"%char (str_bytes id ++ str_bytes ".events.json")); [|done..].
  unfold task_event_log_name. by rewrite str_bytes_app, <- app_assoc.
Qed.

Lemma event_name_inj a b : task_event_log_name a = task_event_log_name b → a = b.
Proof.
  unfold task_event_log_name. intros H. apply str_bytes_inj. apply (f_equal str_bytes) in H. rewrite !str_bytes_app in H.
  by apply app_inv_tail in H.
Qed.

Section Admission.
(** On lower-case ASCII, normalisation and case folding change nothing. *)
Context (normalize : string → string) (Hnormalize : ∀ s, plain s → normalize s = s).
Local Abbreviation alias := (task_storage_key_alias_class normalize).

Lemma alias_artifact id : portable id → alias (task_artifact_name id) = id.
Proof using Hnormalize.
  intros H. unfold task_storage_key_alias_class, task_artifact_name. rewrite Hnormalize by (by apply portable_plain). by apply portable_trim.
Qed.

Lemma alias_event id : portable id → alias (task_event_log_name id) = task_event_log_name id.
Proof using Hnormalize. intros H. unfold task_storage_key_alias_class. rewrite Hnormalize by (by apply event_name_plain). apply event_name_trim. Qed.

(** A naming of tasks that is its own alias class. *)
Definition faithful (name : string → string) : Prop :=
  (∀ id, portable id → alias (name id) = name id) ∧ ∀ a b, name a = name b → a = b.

Lemma expected_entries_lookup name ids a e :
  faithful name → Forall (λ id, portable id) ids →
  expected_entries normalize name ids !! a = Some e ↔ ∃ id, id ∈ ids ∧ a = name id ∧ e = (id, name id).
Proof using Type.
  intros [Hname Hinj] Hids. unfold expected_entries. induction ids as [|id ids IH] using rev_ind; cbn [foldl].
  { rewrite lookup_empty. split; [done|]. by intros (id & ?%elem_of_nil & _). }
  apply Forall_app in Hids as [Hids Hid]. apply Forall_cons in Hid as [Hid _]. rewrite foldl_snoc, Hname by done.
  rewrite lookup_insert_Some, IH by done. setoid_rewrite elem_of_app. setoid_rewrite list_elem_of_singleton. split.
  - intros [[<- <-]|[Hne (x & Hx & -> & ->)]]; [exists id; auto|exists x; auto].
  - intros (x & [Hx| ->] & -> & ->); [|by left]. destruct (decide (id = x)) as [->|Hne]; [by left|right].
    split; [intros H; by apply Hinj in H|exists x; auto].
Qed.

(** No entry stands where a task of the set would put its own. *)
Definition dir_free (name : string → string) (ids : gset string) (dir : ManagedDir) : Prop :=
  match dir with
  | DirMissing => True
  | DirUnreadable | DirNotReal => False
  | DirEntries entries =>
      (Z.of_nat (length entries) <= MAX_TASK_REGISTRY_RECORDS)%Z ∧
      ∀ entry, entry ∈ entries → ∃ d, entry = Some d ∧
        ∀ actual id, de_name d = Some actual → id ∈ ids → alias actual ≠ name id
  end.

Lemma check_entries_Ok name ids existing seen entries :
  faithful name → Forall (λ id, portable id) ids → (∀ id, id ∈ ids → id ∉ existing) → (0 <= seen)%Z →
  check_entries normalize (expected_entries normalize name ids) existing seen entries = Ok () ↔
  (entries = [] ∨ (seen + Z.of_nat (length entries) <= MAX_TASK_REGISTRY_RECORDS)%Z) ∧
  ∀ entry, entry ∈ entries → ∃ d, entry = Some d ∧ ∀ actual id, de_name d = Some actual → id ∈ ids → alias actual ≠ name id.
Proof using Type.
  intros Hname Hids Hnew. revert seen. induction entries as [|entry entries IH]; intros seen Hseen; cbn [check_entries].
  { split; [intros _; split; [by left|by intros ? ?%elem_of_nil]|done]. }
  destruct (seen + 1 <=? MAX_TASK_REGISTRY_RECORDS)%Z eqn:Emax; cbn [ensure mbind result_bind].
  2: { split; [done|]. intros [[|H] _]; [done|]. reflect_bool. cbn [length] in H. lia. }
  reflect_bool. destruct entry as [d|]; cbn [mbind result_bind].
  2: { split; [done|]. intros [_ H]. destruct (H None) as (d & [=] & _). left. }
  assert (Hentry : (∀ actual id, de_name d = Some actual → id ∈ ids → alias actual ≠ name id) ↔
    match de_name d with
    | None => Ok ()
    | Some actual_name =>
        match expected_entries normalize name ids !! alias actual_name with
        | None => Ok ()
        | Some (task_id, expected_name) =>
            ensure (bool_decide (actual_name = expected_name)) (InvalidTaskRegistry "managed entry aliases the canonical spelling") ;;
            ensure (bool_decide (task_id ∈ existing)) (InvalidTaskRegistry "new task cannot adopt pre-existing managed entry") ;;
            match de_metadata d with
            | None => Err (Io "failed to inspect managed task entry before registry save")
            | Some (is_file, nlink) =>
                ensure (negb (is_file && (1 <? nlink)%Z)) (InvalidTaskRegistry "managed task entry has multiple physical links")
            end
        end
    end = Ok ()).
  { destruct (de_name d) as [actual|]; [|by split]. destruct (expected_entries _ _ _ !! _) as [[id n]|] eqn:E.
    - apply expected_entries_lookup in E as (x & Hx & Ha & [= -> ->]); [|done..]. split.
      + intros H. by destruct (H actual x eq_refl Hx).
      + intros H. destruct (bool_decide (actual = _)); [|discriminate H]. rewrite bool_decide_false in H by (by apply Hnew). discriminate H.
    - split; [done|]. intros _ a id [= <-] Hid Ha.
      assert (expected_entries normalize name ids !! alias actual = Some (id, name id)) as H by (apply expected_entries_lookup; eauto).
      congruence. }
  match type of Hentry with _ ↔ ?r = _ => destruct r as [[]|] eqn:Er end; cbn [mbind result_bind].
  - rewrite IH by lia. cbn [length]. split.
    + intros [Hlen Hall]. split; [right; destruct Hlen as [->|]; [simpl; lia|lia]|].
      intros e [->|He]%elem_of_cons; [exists d; split; [done|by apply Hentry]|by apply Hall].
    + intros [[|Hlen] Hall]; [done|]. split; [right; lia|]. intros e He. apply Hall. by right.
  - split; [done|]. intros [_ H]. destruct (H (Some d)) as (? & [= <-] & Hd); [left|]. by apply Hentry in Hd.
Qed.

Lemma artifact_faithful : faithful task_artifact_name.
Proof using Hnormalize. split; [apply alias_artifact|done]. Qed.

Lemma event_faithful : faithful task_event_log_name.
Proof using Hnormalize. split; [apply alias_event|apply event_name_inj]. Qed.

Lemma check_dir_Ok name ids existing dir :
  faithful name → Forall (λ id, portable id) (btree_items ids) → (∀ id, id ∈ ids → id ∉ existing) →
  check_managed_dir normalize (expected_entries normalize name (btree_items ids)) existing dir = Ok () ↔ dir_free name ids dir.
Proof using Type.
  intros Hname Hids Hnew. destruct dir as [| | |entries]; [done|by split..|]. cbn [check_managed_dir dir_free].
  rewrite check_entries_Ok; [|done|done|intros id; rewrite elem_of_btree_items; apply Hnew|lia].
  setoid_rewrite elem_of_btree_items. split; intros [H1 H2]; (split; [|exact H2]).
  - destruct H1 as [->|H1]; [vm_compute; discriminate|lia].
  - right. lia.
Qed.

Lemma claim_aliases_Ok owners ids :
  Forall (λ id, portable id) ids → NoDup ids → (∀ id, id ∈ ids → owners !! id = None) →
  claim_aliases normalize owners ids = Ok ().
Proof using Hnormalize.
  intros Hids. revert owners. induction Hids as [|id ids Hid _ IH]; intros owners Hnd Howners; [done|]. cbn [claim_aliases].
  apply NoDup_cons in Hnd as [Hnot Hnd]. change (alias id) with (alias (task_artifact_name id)). rewrite alias_artifact by done.
  rewrite bool_decide_true by (apply Howners; left). cbn [ensure mbind result_bind]. apply IH; [done|].
  intros x Hx. rewrite lookup_insert_ne by (intros ->; done). apply Howners. by right.
Qed.

Lemma owners_of_current ids id :
  Forall (λ id, portable id) ids → id ∉ ids → foldl (λ m x, <[alias x := x]> m) (∅ : gmap string string) ids !! id = None.
Proof using Hnormalize.
  intros Hids Hid. induction ids as [|x ids IH] using rev_ind; [apply lookup_empty|]. apply Forall_app in Hids as [Hids Hx].
  apply Forall_cons in Hx as [Hx _]. rewrite not_elem_of_app in Hid. destruct Hid as [Hid Hne]. rewrite foldl_snoc.
  change (alias x) with (alias (task_artifact_name x)). rewrite alias_artifact by done. rewrite lookup_insert_ne; [by apply IH|].
  intros ->. apply Hne. by left.
Qed.

Lemma btree_items_NoDup (s : gset string) : NoDup (btree_items s).
Proof using Type. unfold btree_items. rewrite sort_by_perm. apply NoDup_elements. Qed.

Lemma elem_of_btree_keys {A} (m : gmap string A) id : id ∈ (btree_entries m).*1 ↔ id ∈ dom m.
Proof using Type.
  rewrite elem_of_dom. split.
  - intros ([k v] & -> & H%btree_entries_lookup)%list_elem_of_fmap. by exists v.
  - intros [v Hv]. apply list_elem_of_fmap. exists (id, v). split; [done|]. by apply btree_entries_lookup.
Qed.

Lemma check_shape_Ok id : check_shape id = Ok () ↔ portable_id MAX_TASK_STORAGE_ID_BYTES id.
Proof using Type. unfold check_shape. rewrite <- shape_error_None. destruct (task_identifier_shape_error id); by split. Qed.

Lemma admission_Ok {TBody WBody} artifacts events (current : gmap string (TaskRecord TBody)) (batch : RegistryDeltaBatch TBody WBody) :
  (∀ id, id ∈ dom current → portable_id MAX_TASK_STORAGE_ID_BYTES id) →
  validate_registry_delta_namespace_admission normalize artifacts events current batch = Ok () ↔
  (∀ id, id ∈ dom (task_upserts batch) ∪ task_removals batch → portable_id MAX_TASK_STORAGE_ID_BYTES id) ∧
  (dom (task_upserts batch) ⊆ dom current ∨
   dir_free task_artifact_name (dom (task_upserts batch) ∖ dom current) artifacts ∧
   dir_free task_event_log_name (dom (task_upserts batch) ∖ dom current) events).
Proof using Hnormalize.
  intros Hcurrent. unfold validate_registry_delta_namespace_admission. set (new := dom (task_upserts batch) ∖ dom current).
  assert (Hshape : for_each check_shape ((btree_entries (task_upserts batch)).*1 ++ btree_items (task_removals batch)) = Ok () ↔
    ∀ id, id ∈ dom (task_upserts batch) ∪ task_removals batch → portable_id MAX_TASK_STORAGE_ID_BYTES id).
  { rewrite for_each_Ok, Forall_forall. setoid_rewrite check_shape_Ok. setoid_rewrite elem_of_app. setoid_rewrite elem_of_union.
    setoid_rewrite elem_of_btree_keys. setoid_rewrite elem_of_btree_items. done. }
  destruct (for_each check_shape _) as [[]|]; cbn [mbind result_bind].
  2: { split; [done|]. intros [H _]. by apply Hshape in H. }
  pose proof (proj1 Hshape eq_refl) as Hids. case_bool_decide as Hnil.
  { split; [|done]. intros _. split; [done|left]. intros id Hid. apply dec_stable. intros Hnot.
    assert (id ∈ btree_items new) as Hin by (apply elem_of_btree_items, elem_of_difference; done). rewrite Hnil in Hin. by apply elem_of_nil in Hin. }
  assert (Hport : Forall (λ id, portable id) (btree_items new)).
  { apply Forall_forall. intros id [Hid _]%elem_of_btree_items%elem_of_difference. apply (pi_bytes MAX_TASK_STORAGE_ID_BYTES), Hids. by apply elem_of_union_l. }
  assert (Hold : Forall (λ id, portable id) (btree_items (dom current))).
  { apply Forall_forall. intros id Hid%elem_of_btree_items. by apply (pi_bytes MAX_TASK_STORAGE_ID_BYTES), Hcurrent. }
  rewrite claim_aliases_Ok; [|done|apply btree_items_NoDup|].
  2: { intros id [_ Hid]%elem_of_btree_items%elem_of_difference. apply owners_of_current; [done|]. by rewrite elem_of_btree_items. }
  cbn [mbind result_bind]. unfold validate_task_registry_namespace_bindings. cbn [default].
  assert (Hnew : ∀ id, id ∈ new → id ∉ dom current ∪ ∅) by (intros id [_ Hid]%elem_of_difference; by rewrite (right_id_L ∅ (∪))).
  pose proof (check_dir_Ok task_artifact_name new (dom current ∪ ∅) artifacts artifact_faithful Hport Hnew) as Ha.
  pose proof (check_dir_Ok task_event_log_name new (dom current ∪ ∅) events event_faithful Hport Hnew) as He.
  assert (Hne : ¬ dom (task_upserts batch) ⊆ dom current).
  { intros Hsub. apply Hnil. destruct (btree_items new) as [|x l] eqn:E; [done|]. exfalso.
    assert (x ∈ btree_items new) as [H1 H2]%elem_of_btree_items%elem_of_difference by (rewrite E; left). by apply H2, Hsub. }
  destruct (check_managed_dir _ _ _ artifacts) as [[]|]; cbn [mbind result_bind].
  - rewrite He. split; [intros H; split; [done|right; split; [by apply Ha|done]]|intros [_ [|[_ H]]]; done].
  - split; [done|]. intros [_ [|[H _]]]; [done|]. by apply Ha in H.
Qed.
End Admission.

(** ** Claims *)

Theorem storage_key_checks_agree s :
  (task_storage_key_is_portable s = true ↔ portable_id MAX_TASK_STORAGE_ID_BYTES s) ∧
  (task_storage_key_is_portable s = true ↔ task_storage_id s = Ok s).
Proof.
  rewrite portable_key_agree. unfold task_storage_id. rewrite <- validate_storage_identifier_Ok.
  destruct (validate_storage_identifier s _) as [[]|]; cbn; split; by split.
Qed.

(** a batch is admitted exactly when every identifier it touches is a portable
    storage identifier and, if it brings new tasks, both managed directories can be
    enumerated within the bound and hold no entry whose alias class is that of a new
    task's entry, so no new task adopts existing files. *)
Theorem namespace_admission_correct {TBody WBody} normalize artifacts events (current : gmap string (TaskRecord TBody))
    (batch : RegistryDeltaBatch TBody WBody) :
  (∀ s, plain s → normalize s = s) → (∀ id, id ∈ dom current → portable_id MAX_TASK_STORAGE_ID_BYTES id) →
  validate_registry_delta_namespace_admission normalize artifacts events current batch = Ok () ↔
  (∀ id, id ∈ dom (task_upserts batch) ∪ task_removals batch → portable_id MAX_TASK_STORAGE_ID_BYTES id) ∧
  (dom (task_upserts batch) ⊆ dom current ∨
   dir_free normalize task_artifact_name (dom (task_upserts batch) ∖ dom current) artifacts ∧
   dir_free normalize task_event_log_name (dom (task_upserts batch) ∖ dom current) events).
Proof. intros. by apply admission_Ok. Qed.

Lemma namespace_admission_correct_witness :
  let b : RegistryDeltaBatch () () := upsert_task empty_batch (mkTaskRecord "t" [] ()) in
  validate_registry_delta_namespace_admission id DirMissing DirMissing (∅ : gmap string (TaskRecord ())) b = Ok () ↔
  (∀ x, x ∈ dom (task_upserts b) ∪ task_removals b → portable_id MAX_TASK_STORAGE_ID_BYTES x) ∧
  (dom (task_upserts b) ⊆ dom (∅ : gmap string (TaskRecord ())) ∨
   dir_free id task_artifact_name (dom (task_upserts b) ∖ dom (∅ : gmap string (TaskRecord ()))) DirMissing ∧
   dir_free id task_event_log_name (dom (task_upserts b) ∖ dom (∅ : gmap string (TaskRecord ()))) DirMissing).
Proof.
  intros b. apply (namespace_admission_correct id DirMissing DirMissing ∅ b); [reflexivity|].
  intros x Hx. apply elem_of_empty in Hx. destruct Hx.
Defined.

