(* ===== verification/RegistryStore.v ===== *)
(** * RegistryStore: the durable store of the registries and its daemon

    Puts the write-ahead log, the checkpoint and the authority that the
    daemon keeps in memory together: loading, appending a batch with or
    without the authority, and committing a checkpoint
    ([src/crates/packet28-daemon-core/src/storage/registry_delta.rs]).  A load
    that fails is taken to leave the log as it was: the only failure after the
    repair of a torn suffix is a log that is newer than its checkpoint. *)

From S2P Require Export RegistryWal Namespace.

Section Store.
Context {TBody WBody : Type}.
Local Abbreviation Tasks := (gmap string (TaskRecord TBody)).
Local Abbreviation Watches := (list (WatchRegistration WBody)).
Local Abbreviation Batch := (RegistryDeltaBatch TBody WBody).

(** ** The authority of the daemon *)

(** Without the root and the leases. *)
Record RegistryAdmissionAuthority : Type := mkAuthority {
  au_tasks : Tasks;
  au_watches : Watches;
  au_revision : Z
}.

Definition contains_task (authority : RegistryAdmissionAuthority) (id : string) : bool :=
  bool_decide (is_Some (au_tasks authority !! id)).

Definition require_task (authority : RegistryAdmissionAuthority) (id : string) : result WalError () :=
  ensure (contains_task authority id) (InvalidTaskRegistry "task identifier is not present in authenticated registry authority").

Definition apply_committed_batch (authority : RegistryAdmissionAuthority) (revisions : RegistryRevisionRange) (batch : Batch)
    (candidate : option (Tasks * Watches)) : RegistryAdmissionAuthority :=
  match candidate with
  | Some (tasks, watches) => mkAuthority tasks watches (last revisions)
  | None => mkAuthority (apply_task_upserts (task_upserts batch) (au_tasks authority)) (au_watches authority) (last revisions)
  end.

(** ** The files *)

Record Checkpoint : Type := mkCheckpoint {
  cp_tasks : Tasks;
  cp_watches : Watches;
  cp_revision : Z
}.

Context (blake3 : list Z → list Z) (from_slice : list Z → option Batch) (to_vec : Batch → list Z).
Context (normalize : string → string).

(** [load_under_task_lock]: the registries and the log after the call. *)
Definition load_registries (checkpoint : Checkpoint) (wal : option (list Z))
    : option (result WalError (LoadedTaskWatchRegistry (TBody := TBody) (WBody := WBody) * option (list Z))) :=
  replayed ← replay_wal_with_policy blake3 from_slice wal (cp_tasks checkpoint) (cp_watches checkpoint) (cp_revision checkpoint) Repair;
  Some ('(loaded, _, _, wal) ← replayed; Ok (loaded, wal)).

Definition load_registry_admission_authority (checkpoint : Checkpoint) (wal : option (list Z))
    : option (result WalError (RegistryAdmissionAuthority * option (list Z))) :=
  loaded ← load_registries checkpoint wal;
  Some ('(loaded, wal) ← loaded; Ok (mkAuthority (lt_tasks loaded) (lt_watches loaded) (replayed_revision loaded), wal)).

(** The managed directories, as they are when the batch is admitted. *)
Context (artifacts events : ManagedDir).

(** The checks under the registry lock: the candidate. *)
Definition admit_batch (tasks : Tasks) (watches : Watches) (batch : Batch) : result WalError (option (Tasks * Watches)) :=
  validate_registry_delta_namespace_admission normalize artifacts events tasks batch ;;
  prepare_registry_delta_candidate tasks watches batch.

(** [append_task_watch_registry_delta]: the result and the log after it. *)
Definition append_task_watch_registry_delta (checkpoint : Checkpoint) (wal : option (list Z)) (revisions : RegistryRevisionRange)
    (batch : Batch) : option (result WalError () * option (list Z)) :=
  match prepare_registry_delta blake3 to_vec revisions batch with
  | Err e => Some (Err e, wal)
  | Ok prepared =>
      loaded ← load_registries checkpoint wal;
      match loaded with
      | Err e => Some (Err e, wal)
      | Ok (current, wal) =>
          match admit_batch (lt_tasks current) (lt_watches current) batch with
          | Err e => Some (Err e, wal)
          | Ok _ =>
              '(appended, file) ← append_under_task_lock blake3 from_slice wal (checkpoint_revision current) revisions
                (pd_header prepared) (pd_payload prepared) (pd_footer prepared);
              Some (appended, Some file)
          end
      end
  end.

(** [append_task_watch_registry_delta_with_authority]: the result, and the
    authority and the log after it. *)
Definition append_task_watch_registry_delta_with_authority (authority : RegistryAdmissionAuthority) (wal : option (list Z))
    (revisions : RegistryRevisionRange) (batch : Batch)
    : option (result WalError () * RegistryAdmissionAuthority * option (list Z)) :=
  let refused e := Some (Err e, authority, wal) in
  match prepare_registry_delta blake3 to_vec revisions batch with
  | Err e => refused e
  | Ok prepared =>
      match checked_next (au_revision authority) with
      | None => refused (InvalidRegistryDeltaWal "registry revision is exhausted")
      | Some expected_first =>
          if negb (first revisions =? expected_first)%Z then
            refused (RegistryDeltaRevisionMismatch expected_first (first revisions) (last revisions))
          else
            match admit_batch (au_tasks authority) (au_watches authority) batch with
            | Err e => refused e
            | Ok candidate =>
                '(appended, file) ← append_under_task_lock blake3 from_slice wal (au_revision authority) revisions
                  (pd_header prepared) (pd_payload prepared) (pd_footer prepared);
                Some match appended with
                | Err e => (Err e, authority, Some file)
                | Ok _ => (Ok (), apply_committed_batch authority revisions batch candidate, Some file)
                end
            end
      end
  end.

(** ** Checkpoints *)

(** [serde_json::to_value] of the registries. *)
Context {V : Type} `{EqDecision V} (tasks_value : Tasks → V) (watches_value : Watches → V).

Definition validate_checkpoint_candidate (loaded : LoadedTaskWatchRegistry (TBody := TBody) (WBody := WBody))
    (tasks : Tasks) (watches : Watches) (revision : Z) : result WalError () :=
  ensure (revision =? replayed_revision loaded)%Z (RegistryDeltaRevisionMismatch (replayed_revision loaded) revision revision) ;;
  ensure (bool_decide (tasks_value (lt_tasks loaded) = tasks_value tasks))
    (InvalidRegistryDeltaBatch (inr "checkpoint task registry does not equal WAL replay"%string)) ;;
  ensure (bool_decide (watches_value (lt_watches loaded) = watches_value watches))
    (InvalidRegistryDeltaBatch (inr "checkpoint watch registry does not equal WAL replay"%string)).

Definition reset_wal (revision : Z) : list Z := encode_wal_header blake3 revision.

(** The checks of [save_task_watch_registry_checkpoint_at_revision] and the
    log after them.  [encoded] is the outcome of encoding the registries,
    which has limits that are not modelled. *)
Definition prepare_checkpoint (encoded : result WalError ()) (checkpoint : Checkpoint) (wal : option (list Z))
    (tasks : Tasks) (watches : Watches) (revision : Z) : option (result WalError () * option (list Z)) :=
  match invalid_relationships (validate_task_watch_registry_relationships tasks watches) ;; encoded with
  | Err e => Some (Err e, wal)
  | Ok _ =>
      loaded ← load_registries checkpoint wal;
      Some match loaded with
      | Err e => (Err e, wal)
      | Ok (loaded, wal) => (validate_checkpoint_candidate loaded tasks watches revision, wal)
      end
  end.

(** The checkpoint and the log after the whole call; [published] is the
    outcome of the atomic replacement of the checkpoint. *)
Definition save_task_watch_registry_checkpoint_at_revision (encoded published : result WalError ()) (checkpoint : Checkpoint)
    (wal : option (list Z)) (tasks : Tasks) (watches : Watches) (revision : Z)
    : option (result WalError () * Checkpoint * option (list Z)) :=
  '(checked, wal) ← prepare_checkpoint encoded checkpoint wal tasks watches revision;
  Some match checked ;; published with
  | Err e => (Err e, checkpoint, wal)
  | Ok _ => (Ok (), mkCheckpoint tasks watches revision, Some (reset_wal revision))
  end.
End Store.
