(* ===== verification/RegistryStoreSpec.v ===== *)
(** * RegistryStoreSpec: the store refines a sequence of batches

    The store keeps its registries through every sequence of loads, appends,
    checkpoints and crashes: what it loads is its initial checkpoint with the
    committed batches run on it in order. *)

From S2P Require Export RegistryReplay NamespaceSpec RegistryStore.

Section Spec.
Context {TBody WBody : Type}.
Local Abbreviation Tasks := (gmap string (TaskRecord TBody)).
Local Abbreviation Watches := (list (WatchRegistration WBody)).
Local Abbreviation Batch := (RegistryDeltaBatch TBody WBody).
Local Abbreviation CheckpointT := (Checkpoint (TBody := TBody) (WBody := WBody)).
Local Abbreviation AuthorityT := (RegistryAdmissionAuthority (TBody := TBody) (WBody := WBody)).
Local Abbreviation FrameT := (Frame (TBody := TBody) (WBody := WBody)).

(** ** Steps of the store *)

Record StoreState : Type := mkStoreState {
  ss_checkpoint : CheckpointT;
  ss_wal : option (list Z);
  ss_authority : option AuthorityT
}.

(** What an observer is told: a batch was acknowledged, or its append was
    interrupted. *)
Inductive Event : Type :=
| Acknowledged (revisions : RegistryRevisionRange) (batch : Batch)
| Interrupted (revisions : RegistryRevisionRange) (batch : Batch)
| Quiet.

Context (blake3 : list Z → list Z) (from_slice : list Z → option Batch) (to_vec : Batch → list Z).
Context (normalize : string → string).
Context {V : Type} `{EqDecision V} (tasks_value : Tasks → V) (watches_value : Watches → V).

Definition revisions_fit (revisions : RegistryRevisionRange) : Prop := (0 <= first revisions ∧ last revisions <= u64_max)%Z.

(** A step without the daemon has no authority.  An interrupted append leaves
    a prefix of what it would have written; the frames whose digest holds the
    footer's magic number, on which recovery refuses to start, and revisions
    above [2^56] are left out. *)
Inductive store_step : StoreState → Event → StoreState → Prop :=
| step_start checkpoint wal authority authority' wal' :
    load_registry_admission_authority blake3 from_slice checkpoint wal = Some (Ok (authority', wal')) →
    store_step (mkStoreState checkpoint wal authority) Quiet (mkStoreState checkpoint wal' (Some authority'))
| step_stop checkpoint wal authority :
    store_step (mkStoreState checkpoint wal authority) Quiet (mkStoreState checkpoint wal None)
| step_append artifacts events checkpoint wal authority revisions batch authority' wal' :
    revisions_fit revisions →
    append_task_watch_registry_delta_with_authority blake3 from_slice to_vec normalize artifacts events authority wal revisions batch =
      Some (Ok (), authority', wal') →
    store_step (mkStoreState checkpoint wal (Some authority)) (Acknowledged revisions batch) (mkStoreState checkpoint wal' (Some authority'))
| step_append_refused artifacts events checkpoint wal authority revisions batch e authority' wal' :
    revisions_fit revisions →
    append_task_watch_registry_delta_with_authority blake3 from_slice to_vec normalize artifacts events authority wal revisions batch =
      Some (Err e, authority', wal') →
    store_step (mkStoreState checkpoint wal (Some authority)) Quiet (mkStoreState checkpoint wal' (Some authority'))
| step_append_cut artifacts events checkpoint wal authority revisions batch authority' log' k :
    revisions_fit revisions →
    append_task_watch_registry_delta_with_authority blake3 from_slice to_vec normalize artifacts events authority wal revisions batch =
      Some (Ok (), authority', Some log') →
    length (default (encode_wal_header blake3 (au_revision authority)) wal) ≤ k →
    (last revisions < 2 ^ 56)%Z → ¬ (∃ a, slice a (a + 8) (blake3 (to_vec batch)) = FRAME_FOOTER_MAGIC) →
    store_step (mkStoreState checkpoint wal (Some authority)) (Interrupted revisions batch) (mkStoreState checkpoint (Some (take k log')) None)
| step_external_append artifacts events checkpoint wal revisions batch wal' :
    revisions_fit revisions →
    append_task_watch_registry_delta blake3 from_slice to_vec normalize artifacts events checkpoint wal revisions batch = Some (Ok (), wal') →
    store_step (mkStoreState checkpoint wal None) (Acknowledged revisions batch) (mkStoreState checkpoint wal' None)
| step_publish encoded checkpoint wal authority tasks watches revision wal' :
    prepare_checkpoint blake3 from_slice tasks_value watches_value encoded checkpoint wal tasks watches revision = Some (Ok (), wal') →
    store_step (mkStoreState checkpoint wal authority) Quiet (mkStoreState (mkCheckpoint tasks watches revision) wal' None)
| step_save encoded published checkpoint wal authority tasks watches revision r checkpoint' wal' :
    save_task_watch_registry_checkpoint_at_revision blake3 from_slice tasks_value watches_value encoded published checkpoint wal tasks watches revision =
      Some (r, checkpoint', wal') →
    store_step (mkStoreState checkpoint wal authority) Quiet (mkStoreState checkpoint' wal' authority).

(** ** The abstract store *)

Local Abbreviation Abs := ((Tasks * Watches) * Z)%type.

(** The last committed batch. *)
Local Abbreviation Committed := (option (RegistryRevisionRange * Batch)).

Definition commits (a : Abs) (revisions : RegistryRevisionRange) (batch : Batch) (a' : Abs) : Prop :=
  first revisions = (a.2 + 1)%Z ∧ batch_wf batch ∧ a' = (run_batch a.1 batch, last revisions).

(** The last committed batch again: the same revisions, and the digest of its
    bytes is the one the log holds. *)
Definition repeats (c : Committed) (revisions : RegistryRevisionRange) (batch : Batch) : Prop :=
  ∃ committed, c = Some (revisions, committed) ∧ blake3 (to_vec batch) = blake3 (to_vec committed).

(** An acknowledged batch is committed, or it repeats the last one; an
    interrupted one is committed or not; nothing else changes. *)
Definition abs_step (s : Abs * Committed) (event : Event) (s' : Abs * Committed) : Prop :=
  match event with
  | Acknowledged revisions batch =>
      commits s.1 revisions batch s'.1 ∧ s'.2 = Some (revisions, batch) ∨ repeats s.2 revisions batch ∧ s' = s
  | Interrupted revisions batch => commits s.1 revisions batch s'.1 ∧ s'.2 = Some (revisions, batch) ∨ s' = s
  | Quiet => s' = s
  end.

Record abs_wf (a : Abs) : Prop := {
  aw_registry : registry_wf a.1;
  aw_ids id : id ∈ dom a.1.1 → portable_id MAX_TASK_STORAGE_ID_BYTES id;
  aw_revision : (0 <= a.2 <= u64_max)%Z
}.

(** ** The refinement *)

Local Abbreviation encode_frame := (encode_frame blake3 (TBody := TBody) (WBody := WBody)).
Local Abbreviation encode_wal := (encode_wal blake3 (TBody := TBody) (WBody := WBody)).
Local Abbreviation wal_ok := (wal_ok from_slice).

(** What a crash leaves behind the complete frames. *)
Definition torn_rest (rest : list Z) : Prop :=
  rest = [] ∨ ∃ (f : FrameT) k, rest = take k (encode_frame f) ∧ frame_plain from_slice f ∧ 0 < k < length (encode_frame f) ∧
    ¬ digest_holds_magic blake3 f.

(** The last frame of a log holds the last committed batch. *)
Definition holds_last (fs : list FrameT) (c : Committed) : Prop :=
  ∀ f, foldl (λ _ g, Some g) None fs = Some f → c = Some (fr_revisions f, fr_batch f) ∧ fr_payload f = to_vec (fr_batch f).

Definition registries (checkpoint : CheckpointT) : Tasks * Watches := (cp_tasks checkpoint, cp_watches checkpoint).

(** The log, whose complete frames give the abstract state. *)
Inductive log_rep (checkpoint : CheckpointT) (a : Abs) (c : Committed) : option (list Z) → bool → Prop :=
| rep_missing : a = (registries checkpoint, cp_revision checkpoint) → log_rep checkpoint a c None true
| rep_log base olds news rest :
    wal_ok base (olds ++ news) → replayable (registries checkpoint) (cp_revision checkpoint) base olds news →
    a = (run_frames (registries checkpoint) news, last_of (cp_revision checkpoint) news) →
    last_of base (olds ++ news) = a.2 → holds_last (olds ++ news) c → torn_rest rest →
    (file_len (encode_wal base (olds ++ news) ++ rest) <= MAX_REGISTRY_DELTA_WAL_BYTES)%Z →
    log_rep checkpoint a c (Some (encode_wal base (olds ++ news) ++ rest)) (bool_decide (rest = [])).

Record store_rep (st : StoreState) (a : Abs) (c : Committed) : Prop := {
  sr_abs : abs_wf a;
  sr_checkpoint : abs_wf (registries (ss_checkpoint st), cp_revision (ss_checkpoint st));
  sr_log : ∃ clean, log_rep (ss_checkpoint st) a c (ss_wal st) clean ∧ (is_Some (ss_authority st) → clean = true);
  sr_authority au : ss_authority st = Some au → a = ((au_tasks au, au_watches au), au_revision au)
}.

Context (Hdigest : ∀ l, length (blake3 l) = 32) (Hbytes : ∀ l, Forall byte (blake3 l)).
Context (Hcodec : ∀ b, batch_wf b → from_slice (to_vec b) = Some b).
Context (Htext : ∀ b, Forall (λ c, 1 <= c <= 255)%Z (to_vec b)).
Context (Hnormalize : ∀ s, plain s → normalize s = s).
Context (Htasks : ∀ t t', tasks_value t = tasks_value t' → t = t') (Hwatches : ∀ w w', watches_value w = watches_value w' → w = w').

(** *** Loading *)

Lemma load_rep checkpoint a c wal clean :
  registry_wf (registries checkpoint) → log_rep checkpoint a c wal clean →
  ∃ loaded wal', load_registries blake3 from_slice checkpoint wal = Some (Ok (loaded, wal')) ∧
    a = ((lt_tasks loaded, lt_watches loaded), replayed_revision loaded) ∧ checkpoint_revision loaded = cp_revision checkpoint ∧
    log_rep checkpoint a c wal' true ∧ (wal' = None ↔ wal = None).
Proof using Hdigest Hbytes.
  intros Hcp [->|base olds news rest Hwal Hr Ha Hlast Hheld Htorn Hsize].
  { eexists _, _. split; [reflexivity|]. cbn. split_and!; try done. by constructor. }
  set (s := registries checkpoint) in *.
  assert (Hclean : log_rep checkpoint a c (Some (encode_wal base (olds ++ news))) true).
  { rewrite <- (app_nil_r (encode_wal base (olds ++ news))). change true with (bool_decide (@nil Z = [])). apply rep_log; [exact Hwal|exact Hr|exact Ha|exact Hlast|exact Hheld|by left|].
    unfold file_len in *. rewrite length_app in *. cbn [length]. lia. }
  assert (Hload : replay_wal_with_policy blake3 from_slice (Some (encode_wal base (olds ++ news) ++ rest)) s.1 s.2 (cp_revision checkpoint) Repair =
    Some (Ok (replayed_result blake3 s (cp_revision checkpoint) base olds news (encode_wal base (olds ++ news))))).
  { destruct Htorn as [->|(f & k & -> & Hf & Hk & Hmagic)].
    - rewrite app_nil_r in *. apply (replay_encoded from_slice blake3 Hdigest s); assumption.
    - destruct (replay_torn from_slice blake3 Hdigest Hbytes s (cp_revision checkpoint) base olds news f k) as [|]; [assumption..|done]. }
  unfold load_registries. change (cp_tasks checkpoint) with s.1. change (cp_watches checkpoint) with s.2. rewrite Hload.
  eexists _, _. split; [reflexivity|]. cbn [lt_tasks lt_watches replayed_revision checkpoint_revision].
  split; [by rewrite <- surjective_pairing|]. split; [done|]. by split.
Qed.

(** *** Appending *)

(** A log without a torn suffix. *)
Record clean_log (checkpoint : CheckpointT) (a : Abs) (c : Committed) (log : list Z) : Prop := {
  cl_frames : ∃ base olds news,
    log = encode_wal base (olds ++ news) ∧ wal_ok base (olds ++ news) ∧
    replayable (registries checkpoint) (cp_revision checkpoint) base olds news ∧
    a = (run_frames (registries checkpoint) news, last_of (cp_revision checkpoint) news) ∧ last_of base (olds ++ news) = a.2 ∧ holds_last (olds ++ news) c;
  cl_size : (file_len log <= MAX_REGISTRY_DELTA_WAL_BYTES)%Z
}.

Lemma clean_log_rep checkpoint a c log : clean_log checkpoint a c log → log_rep checkpoint a c (Some log) true.
Proof using Type.
  intros [(base & olds & news & -> & Hwal & Hr & Ha & Hlast & Hheld) Hsize].
  rewrite <- (app_nil_r (encode_wal base (olds ++ news))) in Hsize |- *. change true with (bool_decide (@nil Z = [])).
  apply rep_log; [exact Hwal|exact Hr|exact Ha|exact Hlast|exact Hheld|by left|exact Hsize].
Qed.

Lemma log_rep_clean checkpoint a c wal revision :
  abs_wf a → log_rep checkpoint a c wal true → (wal = None → revision = a.2) →
  clean_log checkpoint a c (default (encode_wal_header blake3 revision) wal).
Proof using Hdigest.
  intros Hwf Hrep Hrev. inversion Hrep as [Ha|base olds news rest Hwal Hr Ha Hlast Hheld _ Hsize Hw Hclean]; subst wal.
  - cbn [default]. rewrite (Hrev eq_refl). pose proof (aw_revision _ Hwf) as Hbound. subst a. cbn [snd] in *. split.
    + exists (cp_revision checkpoint), [], []. split; [unfold RegistryWalSpec.encode_wal; cbn; by rewrite app_nil_r|].
      split; [split; [exact Hbound|constructor|exact I]|]. split; [split; [lia|constructor|constructor|done|done]|]. split_and!; [done|done|intros f [=]].
    + unfold file_len. rewrite (length_wal_header blake3 Hdigest). vm_compute. discriminate.
  - cbn [default]. apply bool_decide_eq_true in Hclean as ->. rewrite app_nil_r in *. split; [|exact Hsize]. by exists base, olds, news.
Qed.

(** The frame that an append writes continues the log. *)
Lemma clean_log_snoc checkpoint a c log f :
  clean_log checkpoint a c log → frame_ok from_slice f → first (fr_revisions f) = (a.2 + 1)%Z →
  fr_payload f = to_vec (fr_batch f) → registry_wf (run_batch a.1 (fr_batch f)) → (file_len (log ++ encode_frame f) <= MAX_REGISTRY_DELTA_WAL_BYTES)%Z →
  clean_log checkpoint (run_batch a.1 (fr_batch f), last (fr_revisions f)) (Some (fr_revisions f, fr_batch f)) (log ++ encode_frame f).
Proof using Type.
  intros [(base & olds & news & -> & Hwal & Hr & -> & Hlast & _) _] Hf Hfirst Hpayload Hwf Hsize. cbn [fst snd] in *. split; [|exact Hsize].
  assert (Forall (frame_ok from_slice) news) as Hok by (destruct Hwal as [_ Hfs _]; by apply Forall_app in Hfs as [_ ?]).
  exists base, olds, (news ++ [f]). rewrite app_assoc, encode_wal_snoc. split; [done|]. split; [apply wal_ok_snoc; [done|done|congruence]|].
  split; [by apply (replayable_snoc from_slice)|]. split; [by rewrite run_frames_snoc, last_of_snoc|]. cbn [snd]. split; [by rewrite last_of_snoc|].
  intros g. rewrite foldl_snoc. by intros [= <-].
Qed.

Lemma append_clean checkpoint a c log f r file :
  clean_log checkpoint a c log → frame_ok from_slice f →
  append_to_wal blake3 from_slice log (fr_revisions f) (frame_header blake3 f) (fr_payload f) (frame_footer blake3 f) = Some (r, file) →
  (r = Ok () ∧ first (fr_revisions f) = (a.2 + 1)%Z ∧ file = log ++ encode_frame f ∧ (file_len file <= MAX_REGISTRY_DELTA_WAL_BYTES)%Z) ∨
  (file = log ∧ (r = Ok () → last (fr_revisions f) = a.2 ∧
     ∃ b, c = Some (fr_revisions f, b) ∧ blake3 (fr_payload f) = blake3 (to_vec b))).
Proof using Hdigest.
  intros [(base & olds & news & -> & Hwal & Hr & Ha & Hlast & Hheld) Hsize] Hf Happend.
  destruct (append_to_wal_encoded blake3 Hdigest from_slice base (olds ++ news) f Hwal Hf Hsize) as (Heq & _ & Hsize').
  rewrite Heq in Happend. clear Heq. injection Happend as <- <-. unfold append_frame in *.
  assert (Hnew : frame_continues blake3 base (olds ++ news) f = Ok () → first (fr_revisions f) = (a.2 + 1)%Z).
  { unfold frame_continues. destruct (u64_max <=? _)%Z; [done|]. destruct (_ =? _)%Z eqn:E; [|done]. intros _. reflect_bool. congruence. }
  assert (Hcontinue : ∀ res : result WalError () * list FrameT,
    res = (frame_continues blake3 base (olds ++ news) f,
           if is_ok (frame_continues blake3 base (olds ++ news) f) then (olds ++ news) ++ [f] else olds ++ news) →
    (file_len (encode_wal base res.2) <= MAX_REGISTRY_DELTA_WAL_BYTES)%Z →
    (res.1 = Ok () ∧ first (fr_revisions f) = (a.2 + 1)%Z ∧ encode_wal base res.2 = encode_wal base (olds ++ news) ++ encode_frame f ∧
       (file_len (encode_wal base res.2) <= MAX_REGISTRY_DELTA_WAL_BYTES)%Z) ∨
    (encode_wal base res.2 = encode_wal base (olds ++ news) ∧ (res.1 = Ok () → last (fr_revisions f) = a.2 ∧
       ∃ b, c = Some (fr_revisions f, b) ∧ blake3 (fr_payload f) = blake3 (to_vec b)))).
  { intros res -> Hres. destruct (frame_continues blake3 base (olds ++ news) f) as [[]|] eqn:E; cbn [is_ok fst snd] in *.
    - left. split; [done|]. split; [by apply Hnew|]. split; [apply encode_wal_snoc|exact Hres].
    - right. split; [done|discriminate]. }
  destruct (foldl (λ _ g, Some g) None (olds ++ news)) as [g|] eqn:Eg; [|by apply Hcontinue].
  destruct (bool_decide (fr_revisions f = fr_revisions g)) eqn:Erev; [|by apply Hcontinue]. reflect_bool.
  right. assert (last (fr_revisions f) = a.2) as Hl.
  { rewrite Erev, <- Hlast. destruct (olds ++ news) as [|h fs _] using rev_ind; [done|]. rewrite foldl_snoc in Eg. injection Eg as ->.
    by rewrite last_of_snoc. }
  destruct (bool_decide (blake3 _ = _)) eqn:Eb; cbn [fst snd]; [|done]. reflect_bool. split; [done|]. intros _. split; [done|].
  destruct (Hheld g Eg) as [-> Hpayload]. exists (fr_batch g). by rewrite Erev, <- Hpayload.
Qed.

Lemma prepared_ok revisions batch prepared :
  revisions_fit revisions → prepare_registry_delta blake3 to_vec revisions batch = Ok prepared →
  let f := mkFrame revisions (to_vec batch) batch in
  frame_ok from_slice f ∧ prepared = mkPreparedRegistryDelta (to_vec batch) (frame_header blake3 f) (frame_footer blake3 f).
Proof using Hcodec.
  intros [Hfirst Hlast] Hp. apply (prepared_frame from_slice blake3 to_vec revisions batch prepared); [|done..]. apply Hcodec.
  unfold prepare_registry_delta in Hp. destruct (range_validate revisions) as [[]|]; [|discriminate Hp]. cbn [invalid_batch mbind result_bind] in Hp.
  destruct (batch_validate batch) as [[]|] eqn:E; [|discriminate Hp]. by apply batch_validate_wf.
Qed.

Lemma admit_batch_ok artifacts events (a : Abs) batch candidate :
  abs_wf a → batch_wf batch → admit_batch normalize artifacts events a.1.1 a.1.2 batch = Ok candidate →
  registry_wf (run_batch a.1 batch) ∧
  (∀ id, id ∈ dom (run_batch a.1 batch).1 → portable_id MAX_TASK_STORAGE_ID_BYTES id) ∧
  (candidate = None ∧ run_batch a.1 batch = (apply_task_upserts (task_upserts batch) a.1.1, a.1.2) ∨ candidate = Some (run_batch a.1 batch)).
Proof using Hnormalize.
  intros [Hwf Hids _] Hb Hadmit. unfold admit_batch in Hadmit.
  destruct (validate_registry_delta_namespace_admission _ _ _ _ _) as [[]|] eqn:Hn; [|discriminate Hadmit]. cbn [mbind result_bind] in Hadmit.
  apply (admission_Ok normalize Hnormalize artifacts events a.1.1 batch Hids) in Hn as [Hnew _].
  apply (candidate_run batch a.1) in Hadmit as [Hrun Hc]; [|done..]. split; [done|]. split; [|done].
  intros id [t Ht]%elem_of_dom. cbn [run_batch fst] in Ht. rewrite batch_tasks_lookup in Ht.
  destruct (task_upserts batch !! id) as [u|] eqn:Eu.
  - apply Hnew, elem_of_union_l, elem_of_dom. by exists u.
  - case_decide; [done|]. apply Hids, elem_of_dom. by exists t.
Qed.

Lemma run_batch_abs_wf (a : Abs) batch revisions :
  registry_wf (run_batch a.1 batch) → (∀ id, id ∈ dom (run_batch a.1 batch).1 → portable_id MAX_TASK_STORAGE_ID_BYTES id) →
  (1 <= first revisions <= last revisions)%Z → revisions_fit revisions → abs_wf (run_batch a.1 batch, last revisions).
Proof using Type. intros H1 H2 H3 [H4 H5]. split; [done|done|cbn; lia]. Qed.

(** The cases of an append with the authority. *)
Lemma authority_append_inv artifacts events au wal revisions batch r au' wal' :
  append_task_watch_registry_delta_with_authority blake3 from_slice to_vec normalize artifacts events au wal revisions batch = Some (r, au', wal') →
  (∃ e, r = Err e ∧ au' = au ∧ wal' = wal) ∨
  ∃ prepared candidate appended file,
    prepare_registry_delta blake3 to_vec revisions batch = Ok prepared ∧ first revisions = (au_revision au + 1)%Z ∧
    admit_batch normalize artifacts events (au_tasks au) (au_watches au) batch = Ok candidate ∧
    append_to_wal blake3 from_slice (default (encode_wal_header blake3 (au_revision au)) wal) revisions
      (pd_header prepared) (pd_payload prepared) (pd_footer prepared) = Some (appended, file) ∧
    wal' = Some file ∧
    match appended with
    | Err e => r = Err e ∧ au' = au
    | Ok _ => r = Ok () ∧ au' = apply_committed_batch au revisions batch candidate
    end.
Proof using Type.
  unfold append_task_watch_registry_delta_with_authority, append_under_task_lock. cbv zeta. intros H.
  destruct (prepare_registry_delta _ _ _ _) as [prepared|e]; [|left; exists e; split_and!; congruence].
  unfold checked_next in H. destruct (checked_add _ _ _) as [expected|] eqn:E; [|simplify_eq; left; by eexists].
  apply checked_add_Some in E as [-> _].
  destruct (negb _) eqn:Efirst; [simplify_eq; left; by eexists|]. reflect_bool.
  destruct (admit_batch _ _ _ _ _ _) as [candidate|e]; [|left; exists e; split_and!; congruence].
  destruct (append_to_wal _ _ _ _ _ _ _) as [[appended file]|] eqn:Ea; [|discriminate H]. cbn [mbind option_bind] in H.
  right. exists prepared, candidate, appended, file. split_and!; try done; [|]; destruct appended as [[]|]; simplify_eq; done.
Qed.

Definition authority_of (a : Abs) : AuthorityT := mkAuthority a.1.1 a.1.2 a.2.

Lemma authority_append_rep artifacts events checkpoint (a : Abs) c wal revisions batch r au' wal' :
  abs_wf a → log_rep checkpoint a c wal true → revisions_fit revisions →
  append_task_watch_registry_delta_with_authority blake3 from_slice to_vec normalize artifacts events (authority_of a) wal revisions batch =
    Some (r, au', wal') →
  (∃ e, r = Err e ∧ au' = authority_of a ∧ log_rep checkpoint a c wal' true) ∨
  let f := mkFrame revisions (to_vec batch) batch in
  let a' := (run_batch a.1 batch, last revisions) in
  let c' := Some (revisions, batch) in
  let log := default (encode_wal_header blake3 a.2) wal in
  r = Ok () ∧ commits a revisions batch a' ∧ abs_wf a' ∧ frame_ok from_slice f ∧ au' = authority_of a' ∧
  wal' = Some (log ++ encode_frame f) ∧ clean_log checkpoint a c log ∧ clean_log checkpoint a' c' (log ++ encode_frame f).
Proof using Hdigest Hcodec Hnormalize.
  intros Hwf Hlog Hfit Happend. pose proof (log_rep_clean checkpoint a c wal a.2 Hwf Hlog (λ _, eq_refl)) as Hclean.
  apply authority_append_inv in Happend as [(e & -> & -> & ->)|(prepared & candidate & appended & file & Hp & Hfirst & Hadmit & Ha & -> & Hr)];
    [left; by exists e|]. cbn [authority_of au_tasks au_watches au_revision] in *.
  destruct (prepared_ok revisions batch prepared Hfit Hp) as [Hf ->]. cbn [pd_header pd_payload pd_footer] in Ha.
  destruct (admit_batch_ok artifacts events a batch candidate Hwf (fo_valid _ _ Hf) Hadmit) as (Hrun & Hids & Hcandidate).
  set (f := mkFrame revisions (to_vec batch) batch) in *.
  pose proof (fo_first _ _ Hf) as H1. pose proof (fo_last _ _ Hf) as H2. cbn [f fr_revisions] in H1, H2.
  destruct (append_clean checkpoint a c _ f appended file Hclean Hf Ha) as [(-> & _ & -> & Hsize)|[-> Hlast]].
  - destruct Hr as [-> ->]. right. cbn zeta. split; [done|]. split; [split; [done|split; [apply Hf|done]]|].
    split; [apply run_batch_abs_wf; [done|done|lia|done]|]. split; [exact Hf|]. split.
    + destruct Hcandidate as [[-> Heq]| ->]; unfold apply_committed_batch, authority_of; cbn [fst snd au_tasks au_watches]; [by rewrite Heq|done].
    + split; [reflexivity|]. split; [exact Hclean|]. apply (clean_log_snoc checkpoint a c _ f); [exact Hclean|exact Hf|exact Hfirst|done|exact Hrun|exact Hsize].
  - destruct appended as [[]|e]; [destruct (Hlast eq_refl) as [Hlast' _]; cbn [f fr_revisions] in Hlast'; lia|]. destruct Hr as [-> ->]. left. exists e.
    split; [done|]. split; [done|]. by apply clean_log_rep.
Qed.

(** A cut append leaves the frame, whole or torn. *)
Lemma cut_rep checkpoint (a a' : Abs) c c' log f k :
  clean_log checkpoint a c log → clean_log checkpoint a' c' (log ++ encode_frame f) → frame_plain from_slice f →
  ¬ digest_holds_magic blake3 f → length log ≤ k →
  ∃ clean, log_rep checkpoint a' c' (Some (take k (log ++ encode_frame f))) clean ∨ log_rep checkpoint a c (Some (take k (log ++ encode_frame f))) clean.
Proof using Type.
  intros Hlog Hlog' Hf Hmagic Hk. destruct (decide (length log + length (encode_frame f) ≤ k)) as [Hge|Hlt].
  { exists true. left. rewrite take_ge by (rewrite length_app; lia). by apply clean_log_rep. }
  rewrite take_app_ge by done. pose proof Hlog as [(base & olds & news & -> & Hwal & Hr & Ha & Hlast & Hheld) _].
  assert (Hsize : (file_len (encode_wal base (olds ++ news) ++ take (k - length (encode_wal base (olds ++ news))) (encode_frame f)) <= MAX_REGISTRY_DELTA_WAL_BYTES)%Z).
  { pose proof (cl_size _ _ _ _ Hlog') as H. unfold file_len in *. rewrite length_app in *. rewrite length_take. lia. }
  eexists. right. apply rep_log; [exact Hwal|exact Hr|exact Ha|exact Hlast|exact Hheld| |exact Hsize].
  destruct (decide (k = length (encode_wal base (olds ++ news)))) as [->|Hne]; [left; by rewrite Nat.sub_diag|].
  right. exists f, (k - length (encode_wal base (olds ++ news))). split; [done|]. split; [done|]. split; [lia|done].
Qed.

Lemma external_append_rep artifacts events checkpoint (a : Abs) c wal clean revisions batch wal' :
  abs_wf a → registry_wf (registries checkpoint) → log_rep checkpoint a c wal clean → revisions_fit revisions →
  append_task_watch_registry_delta blake3 from_slice to_vec normalize artifacts events checkpoint wal revisions batch = Some (Ok (), wal') →
  ∃ a' c', abs_step (a, c) (Acknowledged revisions batch) (a', c') ∧ abs_wf a' ∧ log_rep checkpoint a' c' wal' true.
Proof using Hdigest Hbytes Hcodec Hnormalize.
  intros Hwf Hcp Hlog Hfit Happend. unfold append_task_watch_registry_delta in Happend.
  destruct (prepare_registry_delta _ _ _ _) as [prepared|] eqn:Hp; [|discriminate Happend].
  destruct (load_rep checkpoint a c wal clean Hcp Hlog) as (loaded & wal1 & Hload & Ha & Hcprev & Hlog1 & _). rewrite Hload in Happend.
  cbn [mbind option_bind] in Happend.
  destruct (admit_batch _ _ _ _ _ _) as [candidate|] eqn:Hadmit; [|discriminate Happend].
  destruct (append_under_task_lock _ _ _ _ _ _ _ _) as [[appended file]|] eqn:Hap; [|discriminate Happend]. cbn [mbind option_bind] in Happend.
  injection Happend as -> <-. unfold append_under_task_lock in Hap. rewrite Hcprev in Hap.
  destruct (prepared_ok revisions batch prepared Hfit Hp) as [Hf ->]. cbn [pd_header pd_payload pd_footer] in Hap.
  assert (Hclean : clean_log checkpoint a c (default (encode_wal_header blake3 (cp_revision checkpoint)) wal1)).
  { apply log_rep_clean; [done|done|]. intros ->. inversion Hlog1 as [Heq|]. by rewrite Heq. }
  set (f := mkFrame revisions (to_vec batch) batch) in *.
  pose proof (fo_first _ _ Hf) as H1. pose proof (fo_last _ _ Hf) as H2. cbn [f fr_revisions] in H1, H2.
  assert (Hadmit' : admit_batch normalize artifacts events a.1.1 a.1.2 batch = Ok candidate) by (by rewrite Ha).
  destruct (admit_batch_ok artifacts events a batch candidate Hwf (fo_valid _ _ Hf) Hadmit') as (Hrun & Hids & _).
  destruct (append_clean checkpoint a c _ f (Ok ()) file Hclean Hf Hap) as [(_ & Hfirst & -> & Hsize)|[-> Hlast]].
  - exists (run_batch a.1 batch, last revisions), (Some (revisions, batch)). split; [left; split; [split; [done|split; [apply Hf|done]]|done]|].
    split; [apply run_batch_abs_wf; [done|done|lia|done]|]. apply clean_log_rep.
    apply (clean_log_snoc checkpoint a c _ f); [exact Hclean|exact Hf|exact Hfirst|done|exact Hrun|exact Hsize].
  - exists a, c. split; [right; split; [by apply Hlast|done]|]. split; [done|]. by apply clean_log_rep.
Qed.

(** *** Checkpoints *)

Lemma frames_up_to_last base (fs : list FrameT) :
  Forall (frame_ok from_slice) fs → contiguous base fs → Forall (λ f, last (fr_revisions f) <= last_of base fs)%Z fs ∧ (base <= last_of base fs)%Z.
Proof using Type.
  intros Hok. revert base. induction Hok as [|f fs Hf _ IH]; intros base Hc; [split; [constructor|unfold last_of; cbn; lia]|].
  destruct Hc as [H1 H2]. destruct (IH _ H2) as [IH1 IH2]. unfold last_of in *. cbn [foldl]. destruct Hf. split; [|lia].
  constructor; [exact IH2|exact IH1].
Qed.

(** A checkpoint of the current registries absorbs the frames of the log. *)
Lemma absorb_rep checkpoint (a : Abs) c wal tasks watches revision :
  log_rep checkpoint a c wal true → a = ((tasks, watches), revision) → log_rep (mkCheckpoint tasks watches revision) a c wal true.
Proof using Type.
  intros Hlog Ha. inversion Hlog as [Heq|base olds news rest Hwal Hr Heq Hlast Hheld _ Hsize Hw Hclean]; subst wal; [by constructor|].
  apply bool_decide_eq_true in Hclean as ->. rewrite app_nil_r in *. apply clean_log_rep. split; [|exact Hsize].
  exists base, (olds ++ news), []. rewrite app_nil_r. split; [done|]. split; [done|].
  destruct (frames_up_to_last base (olds ++ news) (wo_frames _ _ _ Hwal) (wo_contiguous _ _ _ Hwal)) as [Hall Hbase].
  rewrite Hlast in Hall, Hbase. subst a. cbn [snd cp_revision] in *.
  split; [split; [exact Hbase|exact Hall|constructor|exact I|exact I]|]. split; [done|]. split; [exact Hlast|exact Hheld].
Qed.

Lemma prepare_checkpoint_rep encoded checkpoint (a : Abs) c wal clean tasks watches revision r wal' :
  registry_wf (registries checkpoint) → log_rep checkpoint a c wal clean →
  prepare_checkpoint blake3 from_slice tasks_value watches_value encoded checkpoint wal tasks watches revision = Some (r, wal') →
  (∃ clean', log_rep checkpoint a c wal' clean' ∧ (clean = true → clean' = true)) ∧
  (r = Ok () → a = ((tasks, watches), revision) ∧ log_rep (mkCheckpoint tasks watches revision) a c wal' true).
Proof using Hdigest Hbytes Htasks Hwatches.
  intros Hcp Hlog Hp. unfold prepare_checkpoint in Hp.
  destruct (invalid_relationships _ ;; encoded) as [[]|e].
  2: { simplify_eq. split; [by exists clean|done]. }
  destruct (load_rep checkpoint a c wal clean Hcp Hlog) as (loaded & wal1 & Hload & Ha & _ & Hlog1 & _). rewrite Hload in Hp.
  cbn [mbind option_bind] in Hp. injection Hp as <- <-. split; [by exists true|]. unfold validate_checkpoint_candidate. intros Hv.
  assert (Heq : a = ((tasks, watches), revision)).
  { destruct (revision =? _)%Z eqn:E1; [|discriminate Hv]. cbn [ensure mbind result_bind] in Hv.
    destruct (bool_decide (tasks_value _ = _)) eqn:E2; [|discriminate Hv]. cbn [ensure mbind result_bind] in Hv.
    apply ensure_Ok_inv in Hv. reflect_bool. apply Htasks in E2. apply Hwatches in Hv. congruence. }
  split; [done|]. by apply (absorb_rep checkpoint a c).
Qed.

(** ** Steps keep the representation *)

Lemma mk_store_rep checkpoint wal authority (a : Abs) c clean :
  abs_wf a → abs_wf (registries checkpoint, cp_revision checkpoint) → log_rep checkpoint a c wal clean →
  (∀ au, authority = Some au → clean = true ∧ a = ((au_tasks au, au_watches au), au_revision au)) →
  store_rep (mkStoreState checkpoint wal authority) a c.
Proof using Type.
  intros Ha Hcp Hlog Hau. split; cbn [ss_checkpoint ss_wal ss_authority]; [done|done| |intros au H; by apply Hau].
  exists clean. split; [done|]. intros [au Heq]. by destruct (Hau au Heq).
Qed.

Lemma authority_of_eq (a : Abs) au : a = ((au_tasks au, au_watches au), au_revision au) → au = authority_of a.
Proof using Type. intros ->. by destruct au. Qed.

Lemma authority_of_rep (a : Abs) : a = ((au_tasks (authority_of a), au_watches (authority_of a)), au_revision (authority_of a)).
Proof using Type. by destruct a as [[]]. Qed.

Lemma store_step_rep st event st' (a : Abs) c :
  store_rep st a c → store_step st event st' → ∃ a' c', abs_step (a, c) event (a', c') ∧ store_rep st' a' c'.
Proof using Hdigest Hbytes Hcodec Htext Hnormalize Htasks Hwatches.
  intros [Ha Hcp (clean & Hlog & Hclean) Hau] Hstep.
  destruct Hstep as [checkpoint wal au0 au wal' Hload|checkpoint wal au0|artifacts events checkpoint wal au revisions batch au' wal' Hfit Happend
    |artifacts events checkpoint wal au revisions batch e au' wal' Hfit Happend
    |artifacts events checkpoint wal au revisions batch au' log' k Hfit Happend Hk Hrev Hmagic
    |artifacts events checkpoint wal revisions batch wal' Hfit Happend
    |encoded checkpoint wal au tasks watches revision wal' Hp|encoded published checkpoint wal au tasks watches revision r checkpoint' wal' Hs];
    cbn [ss_checkpoint ss_wal ss_authority] in *; pose proof (aw_registry _ Hcp) as Hcpwf; cbn [fst] in Hcpwf;
    try (assert (clean = true) as -> by (apply Hclean; by eexists); pose proof (authority_of_eq a au (Hau au eq_refl)); subst au).
  - exists a, c. split; [done|]. destruct (load_rep checkpoint a c wal clean Hcpwf Hlog) as (loaded & wal1 & Hl & Heq & _ & Hlog1 & _).
    unfold load_registry_admission_authority in Hload. rewrite Hl in Hload. cbn [mbind option_bind result_bind] in Hload. injection Hload as <- <-.
    apply (mk_store_rep _ _ _ _ _ true); [done..|]. intros au1 [= <-]. by split.
  - exists a, c. split; [done|]. by apply (mk_store_rep _ _ _ _ _ clean).
  - destruct (authority_append_rep _ _ checkpoint a c wal _ _ _ _ _ Ha Hlog Hfit Happend) as [(e & [=] & _)|(_ & Hc & Ha' & _ & -> & -> & _ & Hclean')].
    eexists _, _. split; [left; by split|]. apply (mk_store_rep _ _ _ _ _ true); [done|done|by apply clean_log_rep|].
    intros au [= <-]. split; [done|apply authority_of_rep].
  - destruct (authority_append_rep _ _ checkpoint a c wal _ _ _ _ _ Ha Hlog Hfit Happend) as [(e' & _ & -> & Hlog')|([=] & _)].
    exists a, c. split; [done|]. apply (mk_store_rep _ _ _ _ _ true); [done..|]. intros au [= <-]. split; [done|apply authority_of_rep].
  - destruct (authority_append_rep _ _ checkpoint a c wal _ _ _ _ _ Ha Hlog Hfit Happend) as [(e & [=] & _)|(_ & Hc & Ha' & Hf & _ & [= ->] & Hlog1 & Hlog2)].
    destruct (cut_rep checkpoint a _ c _ _ _ k Hlog1 Hlog2) as [clean' [Hrep|Hrep]]; [split; [done|apply Htext|done]|done|done| |].
    + eexists _, _. split; [left; by split|]. by apply (mk_store_rep _ _ _ _ _ clean').
    + exists a, c. split; [by right|]. by apply (mk_store_rep _ _ _ _ _ clean').
  - destruct (external_append_rep _ _ checkpoint a c wal clean _ _ _ Ha Hcpwf Hlog Hfit Happend) as (a' & c' & Hs & Ha' & Hlog').
    exists a', c'. split; [done|]. by apply (mk_store_rep _ _ _ _ _ true).
  - destruct (prepare_checkpoint_rep _ _ _ _ _ _ _ _ _ _ _ Hcpwf Hlog Hp) as (_ & Hok). destruct (Hok eq_refl) as [Heq Hlog'].
    exists a, c. split; [done|]. apply (mk_store_rep _ _ _ _ _ true); [done| |done|done]. unfold registries. cbn [cp_tasks cp_watches cp_revision]. by rewrite <- Heq.
  - exists a, c. split; [done|]. unfold save_task_watch_registry_checkpoint_at_revision in Hs.
    destruct (prepare_checkpoint _ _ _ _ _ _ _ _ _ _) as [[checked wal1]|] eqn:Hp; [|discriminate Hs]. cbn [mbind option_bind] in Hs.
    destruct (prepare_checkpoint_rep _ _ _ _ _ _ _ _ _ _ _ Hcpwf Hlog Hp) as ((clean' & Hlog' & Hclean') & Hok).
    destruct (checked ;; published) as [[]|e] eqn:Hchecked; injection Hs as <- <- <-.
    2: { apply (mk_store_rep _ _ _ _ _ clean'); [done..|]. intros au1 Heq. split; [apply Hclean', Hclean; by eexists|by apply Hau]. }
    destruct checked as [[]|]; [|discriminate Hchecked]. destruct (Hok eq_refl) as [Heq _].
    apply (mk_store_rep _ _ _ _ _ true); [done| | |].
    + unfold registries. cbn [cp_tasks cp_watches cp_revision]. by rewrite <- Heq.
    + unfold reset_wal. apply clean_log_rep.
      apply (log_rep_clean (mkCheckpoint tasks watches revision) a c None revision Ha); [by constructor|]. intros _. by rewrite Heq.
    + intros au1 Hau1. split; [done|by apply Hau].
Qed.

(** ** Histories *)

Inductive store_run : StoreState → list Event → StoreState → Prop :=
| run_start st : store_run st [] st
| run_step st events st' event st'' : store_run st events st' → store_step st' event st'' → store_run st (events ++ [event]) st''.

Inductive abs_run : Abs * Committed → list Event → Abs * Committed → Prop :=
| abs_start s : abs_run s [] s
| abs_more s events s' event s'' : abs_run s events s' → abs_step s' event s'' → abs_run s (events ++ [event]) s''.

Lemma store_run_rep st events st' (a : Abs) c :
  store_rep st a c → store_run st events st' → ∃ a' c', abs_run (a, c) events (a', c') ∧ store_rep st' a' c'.
Proof using Hdigest Hbytes Hcodec Htext Hnormalize Htasks Hwatches.
  intros Hrep Hrun. revert Hrep. induction Hrun as [|st events st1 event st2 _ IH Hstep]; intros Hrep; [exists a, c; by split; [constructor|]|].
  destruct (IH Hrep) as (a1 & c1 & Hruns & Hrep1). destruct (store_step_rep _ _ _ _ _ Hrep1 Hstep) as (a2 & c2 & Habs & Hrep2).
  exists a2, c2. split; [by apply (abs_more _ events (a1, c1))|done].
Qed.

Lemma initial_rep checkpoint :
  abs_wf (registries checkpoint, cp_revision checkpoint) →
  store_rep (mkStoreState checkpoint None None) (registries checkpoint, cp_revision checkpoint) None.
Proof using Type. intros H. by apply (mk_store_rep _ _ _ _ _ true); [| |constructor|]. Qed.
End Spec.
Arguments Event : clear implicits.

(** ** A codec for records without a body *)

#[local] Instance task_record_eq_dec : EqDecision (TaskRecord ()).
Proof. solve_decision. Defined.
#[local] Instance watch_registration_eq_dec : EqDecision (WatchRegistration ()).
Proof. solve_decision. Defined.

#[local] Program Instance task_record_countable : Countable (TaskRecord ()) :=
  inj_countable' (λ t, (task_id t, watch_ids t)) (λ p, mkTaskRecord p.1 p.2 ()) _.
Next Obligation. by intros [? ? []]. Qed.
#[local] Program Instance watch_registration_countable : Countable (WatchRegistration ()) :=
  inj_countable' (λ w, (watch_id w, watch_task_id w)) (λ p, mkWatchRegistration p.1 p.2 ()) _.
Next Obligation. by intros [? ? []]. Qed.

#[local] Instance batch_eq_dec : EqDecision (RegistryDeltaBatch () ()).
Proof. solve_decision. Defined.
#[local] Program Instance batch_countable : Countable (RegistryDeltaBatch () ()) :=
  inj_countable' (λ b, (task_upserts b, task_removals b, watch_upserts b, watch_upsert_order b, watch_removals b))
    (λ p, mkRegistryDeltaBatch p.1.1.1.1 p.1.1.1.2 p.1.1.2 p.1.2 p.2) _.
Next Obligation. by intros []. Qed.

Fixpoint bits_of (p : positive) : list Z :=
  match p with
  | xH => []
  | xO p => 1%Z :: bits_of p
  | xI p => 2%Z :: bits_of p
  end.

Fixpoint of_bits (l : list Z) : positive :=
  match l with
  | [] => xH
  | b :: l => if (b =? 1)%Z then xO (of_bits l) else xI (of_bits l)
  end.

Lemma of_bits_of p : of_bits (bits_of p) = p.
Proof. induction p as [p IH|p IH|]; cbn; by rewrite ?IH. Qed.

Definition demo_write (b : RegistryDeltaBatch () ()) : list Z := bits_of (encode b).
Definition demo_read (l : list Z) : option (RegistryDeltaBatch () ()) := decode (of_bits l).

Lemma demo_read_write b : demo_read (demo_write b) = Some b.
Proof. unfold demo_read, demo_write. by rewrite of_bits_of, decode_encode. Qed.

Lemma demo_write_text b : Forall (λ c, 1 <= c <= 255)%Z (demo_write b).
Proof. unfold demo_write. induction (encode b) as [p IH|p IH|]; cbn; constructor; done || lia. Qed.

Definition demo_checkpoint : Checkpoint (TBody := ()) (WBody := ()) := mkCheckpoint ∅ [] 0.
Definition demo_authority : RegistryAdmissionAuthority (TBody := ()) (WBody := ()) := mkAuthority ∅ [] 0.
Definition demo_tasks_value (t : gmap string (TaskRecord ())) : gmap string (TaskRecord ()) + list (WatchRegistration ()) := inl t.
Definition demo_watches_value (w : list (WatchRegistration ())) : gmap string (TaskRecord ()) + list (WatchRegistration ()) := inr w.

Lemma demo_checkpoint_wf : abs_wf (registries demo_checkpoint, cp_revision demo_checkpoint).
Proof. split; [exact demo_empty_registry|by intros id ?%elem_of_empty|vm_compute; split; discriminate]. Qed.

(** The daemon starts and appends a batch. *)
Lemma demo_history :
  ∃ authority wal, store_run demo_digest demo_read demo_write id demo_tasks_value demo_watches_value
    (mkStoreState demo_checkpoint None None) [Quiet; Acknowledged (mkRange 1 1) demo_batch]
    (mkStoreState demo_checkpoint wal authority).
Proof.
  eexists _, _. change [Quiet; Acknowledged (mkRange 1 1) demo_batch] with (([] ++ [Quiet]) ++ [Acknowledged (mkRange 1 1) demo_batch]).
  eapply run_step; [eapply run_step; [apply run_start|]|].
  - eapply (step_start _ _ _ _ _ _ _ _ _ demo_authority None). vm_compute. reflexivity.
  - eapply (step_append _ _ _ _ _ _ DirMissing DirMissing); [vm_compute; split; discriminate|].
    vm_compute. reflexivity.
Qed.

(** ** Claims *)



