(* ===== verification/Frame.v ===== *)
(** * Frame: length-prefixed messages on the daemon's socket

    Models [src/crates/packet28-daemon-protocol/src/frame.rs]: a frame is the
    length of its body in eight big-endian bytes, then the body.  A reader is
    the list of the bytes that it has not read yet, a writer the list of those
    written; the JSON codec of the messages is a parameter, and [usize] has 64
    bits. *)

From S2P Require Export MachineInt.

Definition MAX_SOCKET_MESSAGE_BYTES : Z := (8 * 1024 * 1024)%Z.

(** [Io] stands for the errors of the stream; reading has only the unexpected
    end. *)
Inductive FrameError : Type :=
| Io
| Json
| Empty
| TooLarge (actual limit : Z)
| LengthOverflow.

(** [Read::read_exact] of a buffer: its bytes and the rest of the stream; on
    an early end the stream is used up. *)
Definition read_exact (len : Z) (reader : list Z) : result FrameError (list Z) * list Z :=
  if (len <=? Z.of_nat (length reader))%Z then (Ok (take (Z.to_nat len) reader), drop (Z.to_nat len) reader)
  else (Err Io, []).

Section Frame.
Context {T : Type} (to_vec : T → option (list Z)) (from_slice : list Z → option T).

(** The outcome and the bytes written after the call. *)
Definition write_frame (writer : list Z) (value : T) : result FrameError () * list Z :=
  match to_vec value with
  | None => (Err Json, writer)
  | Some bytes =>
      if (MAX_SOCKET_MESSAGE_BYTES <? Z.of_nat (length bytes))%Z then
        (Err (TooLarge (Z.of_nat (length bytes)) MAX_SOCKET_MESSAGE_BYTES), writer)
      else if (u64_max <? Z.of_nat (length bytes))%Z then (Err LengthOverflow, writer)
      else (Ok (), writer ++ to_be_bytes 8 (Z.of_nat (length bytes)) ++ bytes)
  end.

(** The outcome and the stream after the call. *)
Definition read_frame (reader : list Z) : result FrameError T * list Z :=
  match read_exact 8 reader with
  | (Err e, reader) => (Err e, reader)
  | (Ok len_bytes, reader) =>
      let declared := from_be_bytes len_bytes in
      if (usize_max <? declared)%Z then (Err LengthOverflow, reader)
      else if (declared =? 0)%Z then (Err Empty, reader)
      else if (MAX_SOCKET_MESSAGE_BYTES <? declared)%Z then (Err (TooLarge declared MAX_SOCKET_MESSAGE_BYTES), reader)
      else
        match read_exact declared reader with
        | (Err e, reader) => (Err e, reader)
        | (Ok body, reader) => (ok_or (from_slice body) Json, reader)
        end
  end.

(** ** Streams of frames *)

(** Writing values one after the other, and reading as many. *)
Fixpoint write_frames (writer : list Z) (values : list T) : result FrameError () * list Z :=
  match values with
  | [] => (Ok (), writer)
  | value :: values =>
      match write_frame writer value with
      | (Ok _, writer) => write_frames writer values
      | (Err e, writer) => (Err e, writer)
      end
  end.

Fixpoint read_frames (n : nat) (reader : list Z) : result FrameError (list T) * list Z :=
  match n with
  | O => (Ok [], reader)
  | S n =>
      match read_frame reader with
      | (Err e, reader) => (Err e, reader)
      | (Ok value, reader) =>
          match read_frames n reader with
          | (Ok values, reader) => (Ok (value :: values), reader)
          | (Err e, reader) => (Err e, reader)
          end
      end
  end.

Lemma read_exact_app bytes rest : read_exact (Z.of_nat (length bytes)) (bytes ++ rest) = (Ok bytes, rest).
Proof.
  unfold read_exact. rewrite length_app, (proj2 (Z.leb_le _ _)) by lia. by rewrite Nat2Z.id, take_app_length, drop_app_length.
Qed.

Lemma read_exact_short len bytes : (Z.of_nat (length bytes) < len)%Z → read_exact len bytes = (Err Io, []).
Proof. intros H. unfold read_exact. by rewrite (proj2 (Z.leb_gt _ _)). Qed.

(** What a successful write has appended. *)
Lemma write_frame_Ok writer value writer' :
  write_frame writer value = (Ok (), writer') →
  ∃ bytes, to_vec value = Some bytes ∧ (Z.of_nat (length bytes) <= MAX_SOCKET_MESSAGE_BYTES)%Z ∧
    writer' = writer ++ to_be_bytes 8 (Z.of_nat (length bytes)) ++ bytes.
Proof.
  unfold write_frame. destruct (to_vec value) as [bytes|]; [|done].
  destruct (_ <? _)%Z eqn:E; [done|]. destruct (u64_max <? _)%Z; [done|]. intros [= <-]. reflect_bool. by exists bytes.
Qed.

Lemma length_bytes n : (0 <= n <= MAX_SOCKET_MESSAGE_BYTES)%Z → from_be_bytes (to_be_bytes 8 n) = n.
Proof.
  intros Hn. apply from_to_be_bytes. assert (256 ^ Z.of_nat 8 = 18446744073709551616)%Z as -> by reflexivity.
  unfold MAX_SOCKET_MESSAGE_BYTES in Hn. lia.
Qed.

Lemma read_frame_bytes bytes rest :
  (1 <= Z.of_nat (length bytes) <= MAX_SOCKET_MESSAGE_BYTES)%Z →
  read_frame (to_be_bytes 8 (Z.of_nat (length bytes)) ++ bytes ++ rest) = (ok_or (from_slice bytes) Json, rest).
Proof.
  intros Hlen. unfold read_frame. change 8%Z with (Z.of_nat 8). rewrite <- (length_to_be_bytes 8 (Z.of_nat (length bytes))) at 1.
  rewrite read_exact_app. rewrite length_bytes by lia.
  rewrite (proj2 (Z.ltb_ge _ _)) by (unfold MAX_SOCKET_MESSAGE_BYTES, usize_max, u64_max in *; lia).
  rewrite (proj2 (Z.eqb_neq _ _)) by lia. rewrite (proj2 (Z.ltb_ge _ _)) by lia. by rewrite read_exact_app.
Qed.

(** The JSON codec reads back what it wrote, and writes no empty text. *)
Context (Hcodec : ∀ v bytes, to_vec v = Some bytes → from_slice bytes = Some v ∧ bytes ≠ []).

Lemma written_frame writer value writer' :
  write_frame writer value = (Ok (), writer') →
  ∃ frame, writer' = writer ++ frame ∧ 8 < length frame ∧ (∀ rest, read_frame (frame ++ rest) = (Ok value, rest)) ∧
    ∀ k, k < length frame → read_frame (take k frame) = (Err Io, []).
Proof using Hcodec.
  intros (bytes & Hvec & Hmax & ->)%write_frame_Ok. destruct (Hcodec _ _ Hvec) as [Hread Hne].
  assert (Hlen : (1 <= Z.of_nat (length bytes))%Z) by (destruct bytes; [done|simpl; lia]).
  set (header := to_be_bytes 8 (Z.of_nat (length bytes))). assert (length header = 8) as Hheader by apply length_to_be_bytes.
  exists (header ++ bytes). split; [done|]. split; [rewrite length_app; lia|]. split.
  - intros rest. rewrite <- app_assoc. unfold header. rewrite read_frame_bytes by done. by rewrite Hread.
  - intros k Hk. rewrite length_app in Hk. unfold read_frame. destruct (decide (k < 8)).
    + rewrite read_exact_short; [done|]. rewrite length_take, length_app. lia.
    + rewrite take_app_ge by lia. change 8%Z with (Z.of_nat 8). rewrite <- Hheader at 1. rewrite read_exact_app.
      assert (from_be_bytes header = Z.of_nat (length bytes)) as -> by (apply length_bytes; lia).
      rewrite (proj2 (Z.ltb_ge _ _)) by (unfold MAX_SOCKET_MESSAGE_BYTES, usize_max, u64_max in *; lia).
      rewrite (proj2 (Z.eqb_neq _ _)) by lia. rewrite (proj2 (Z.ltb_ge _ _)) by lia.
      rewrite read_exact_short; [done|]. rewrite length_take. lia.
Qed.
End Frame.

(** ** Claims *)

(** A stream of written frames reads back as the same values in order and leaves
    what follows them unread, and a stream that ends early in any frame gives an error
    at that frame, never a value. *)
Theorem frames_round_trip {T} (to_vec : T → option (list Z)) from_slice values writer writer' rest :
  (∀ v bytes, to_vec v = Some bytes → from_slice bytes = Some v ∧ bytes ≠ []) →
  write_frames to_vec writer values = (Ok (), writer') →
  ∃ sent, writer' = writer ++ sent ∧ read_frames from_slice (length values) (sent ++ rest) = (Ok values, rest) ∧
    ∀ k, k < length sent → ∃ reader, read_frames from_slice (length values) (take k sent) = (Err Io, reader).
Proof.
  intros Hcodec. revert writer. induction values as [|v values IH]; intros writer; cbn [write_frames read_frames length].
  { intros [= <-]. exists []. split; [by rewrite app_nil_r|]. split; [done|]. intros k Hk. simpl in Hk. lia. }
  destruct (write_frame to_vec writer v) as [[[]|] w1] eqn:E; [|done].
  destruct (written_frame to_vec from_slice Hcodec writer v w1 E) as (frame & -> & _ & Hread & Hcut).
  intros (sent & -> & Hrest & Hcuts)%IH. exists (frame ++ sent). split; [by rewrite app_assoc|]. split.
  - rewrite <- app_assoc, Hread, Hrest. done.
  - intros k Hk. rewrite length_app in Hk. destruct (decide (k < length frame)) as [Hlt|Hge].
    + rewrite take_app_le by lia. rewrite Hcut by done. by eexists.
    + rewrite take_app_ge by lia. rewrite Hread. destruct (Hcuts (k - length frame)) as [reader ->]; [lia|]. by eexists.
Qed.

Lemma frames_round_trip_witness :
  ∃ sent, [] ++ to_be_bytes 8 1 ++ [7%Z] = [] ++ sent ∧
    read_frames (λ l, head l) 1 (sent ++ [9%Z]) = (Ok [7%Z], [9%Z]) ∧
    ∀ k, k < length sent → ∃ reader, read_frames (λ l, head l) 1 (take k sent) = (Err Io, reader).
Proof.
  apply (frames_round_trip (λ v : Z, Some [v]) (λ l, head l) [7%Z] [] ([] ++ to_be_bytes 8 1 ++ [7%Z]) [9%Z]).
  - intros v bytes [= <-]. split; [reflexivity|discriminate].
  - vm_compute. reflexivity.
Defined.

(** A declared length above the limit is refused before any byte of the body is
    read, whatever the peer declares up to 2^64 - 1. *)
Theorem oversized_frame_refused {T} (from_slice : list Z → option T) declared body :
  (MAX_SOCKET_MESSAGE_BYTES < declared <= u64_max)%Z →
  read_frame from_slice (to_be_bytes 8 declared ++ body) = (Err (TooLarge declared MAX_SOCKET_MESSAGE_BYTES), body).
Proof.
  intros Hd. unfold read_frame. change 8%Z with (Z.of_nat 8). rewrite <- (length_to_be_bytes 8 declared) at 1.
  rewrite read_exact_app. assert (Hpos : (0 <= MAX_SOCKET_MESSAGE_BYTES)%Z) by (vm_compute; discriminate).
  rewrite from_to_be_bytes by (assert (256 ^ Z.of_nat 8 = u64_max + 1)%Z as -> by reflexivity; lia).
  unfold usize_max. rewrite (proj2 (Z.ltb_ge _ _)) by lia. rewrite (proj2 (Z.eqb_neq _ _)) by lia.
  by rewrite (proj2 (Z.ltb_lt _ _)) by lia.
Qed.

Lemma oversized_frame_refused_witness :
  read_frame (λ l, head l) (to_be_bytes 8 u64_max ++ [1%Z]) = (Err (TooLarge u64_max MAX_SOCKET_MESSAGE_BYTES), [1%Z]).
Proof.
  apply (oversized_frame_refused (λ l, head l) u64_max [1%Z]). vm_compute. split; [reflexivity|discriminate].
Defined.

