(* ===== verification/AuthorityJson.v ===== *)
(** * AuthorityJson: budgets of an authority's JSON

    Models the streaming check of
    [src/crates/packet28-daemon-core/src/storage.rs] that bounds a JSON
    document before it is decoded: depth, values, entries, tokens, string
    bytes and the records of a registry, and no key twice in an object
    ([AuthorityJsonVisitor]).  The document comes as what the deserializer
    hands to the visitor, with the place where its syntax breaks. *)

From S2P Require Export Json MachineInt.
From S2P Require Import RegistryWal Namespace.
Local Open Scope Z_scope.

Definition MAX_ACTIVE_TASK_RECORD_BYTES : Z := 1024 * 1024.
Definition MAX_AUTHORITY_JSON_DEPTH : Z := 64.
Definition MAX_AUTHORITY_JSON_VALUE_NODES : Z := 262144.
Definition MAX_AUTHORITY_JSON_CONTAINER_ENTRIES : Z := 262144.
Definition MAX_AUTHORITY_JSON_ENTRIES_PER_CONTAINER : Z := 65536.
Definition MAX_AUTHORITY_JSON_TOKENS : Z := 524288.
Definition MAX_TASK_REGISTRY_AUTHORITY_JSON_VALUE_NODES : Z := MAX_AUTHORITY_JSON_VALUE_NODES * 2.
Definition MAX_TASK_REGISTRY_AUTHORITY_JSON_CONTAINER_ENTRIES : Z := MAX_AUTHORITY_JSON_CONTAINER_ENTRIES * 2.
Definition MAX_TASK_REGISTRY_AUTHORITY_JSON_TOKENS : Z := MAX_AUTHORITY_JSON_TOKENS * 2.
Definition MAX_WATCH_REGISTRY_RECORDS : Z := 65536.
Definition MAX_TASK_EVENT_LINE_BYTES : Z := 1024 * 1024.

Inductive AuthorityJsonProfile : Type :=
| ActiveTask
| TaskRegistryJson
| WatchRegistryJson
| TaskEventFrame
| RetentionJournal (max_bytes : Z).

Definition profile_authority (p : AuthorityJsonProfile) : string :=
  match p with
  | ActiveTask => "active-task"
  | TaskRegistryJson => "task-registry"
  | WatchRegistryJson => "watch-registry"
  | TaskEventFrame => "task-event-frame"
  | RetentionJournal _ => "retention-journal"
  end.
Definition profile_string_bytes (p : AuthorityJsonProfile) : Z :=
  match p with
  | ActiveTask => MAX_ACTIVE_TASK_RECORD_BYTES
  | TaskRegistryJson => MAX_TASK_REGISTRY_BYTES
  | WatchRegistryJson => MAX_WATCH_REGISTRY_BYTES
  | TaskEventFrame => MAX_TASK_EVENT_LINE_BYTES
  | RetentionJournal max_bytes => max_bytes
  end.
Definition profile_registry_records (p : AuthorityJsonProfile) : Z :=
  match p with WatchRegistryJson => MAX_WATCH_REGISTRY_RECORDS | _ => MAX_TASK_REGISTRY_RECORDS end.
Definition profile_value_nodes (p : AuthorityJsonProfile) : Z :=
  match p with TaskRegistryJson => MAX_TASK_REGISTRY_AUTHORITY_JSON_VALUE_NODES | _ => MAX_AUTHORITY_JSON_VALUE_NODES end.
Definition profile_container_entries (p : AuthorityJsonProfile) : Z :=
  match p with TaskRegistryJson => MAX_TASK_REGISTRY_AUTHORITY_JSON_CONTAINER_ENTRIES | _ => MAX_AUTHORITY_JSON_CONTAINER_ENTRIES end.
Definition profile_tokens (p : AuthorityJsonProfile) : Z :=
  match p with TaskRegistryJson => MAX_TASK_REGISTRY_AUTHORITY_JSON_TOKENS | _ => MAX_AUTHORITY_JSON_TOKENS end.

Record AuthorityJsonLimits : Type := mkLimits {
  max_depth : Z;
  max_value_nodes : Z;
  max_container_entries : Z;
  max_entries_per_container : Z;
  max_tokens : Z;
  max_decoded_string_bytes : Z;
  max_registry_records : Z
}.
Definition for_profile (p : AuthorityJsonProfile) : AuthorityJsonLimits :=
  mkLimits MAX_AUTHORITY_JSON_DEPTH (profile_value_nodes p) (profile_container_entries p) MAX_AUTHORITY_JSON_ENTRIES_PER_CONTAINER
    (profile_tokens p) (profile_string_bytes p) (profile_registry_records p).

Inductive AuthorityJsonPosition : Type :=
| Root
| RegistryTasks
| RegistryWatches
| JournalRecordValues
| JournalComponents
| OtherPosition.

(** A violated budget, or the deserializer's own error. *)
Inductive AuthorityJsonError : Type :=
| JsonSyntax
| LimitExceeded (resource : string) (observed max : Z).

(** What is consumed so far. *)
Record AuthorityJsonBudget : Type := mkBudget {
  value_nodes : Z;
  container_entries : Z;
  tokens : Z;
  decoded_string_bytes : Z
}.
Definition new_budget : AuthorityJsonBudget := mkBudget 0 0 0 0.

(** The calls of the deserializer.  A container that is not closed ends with
    a syntax error instead of its next entry; [JBroken] is an error inside a
    value, [JMissing] one before it. *)
#[warnings="-register-all"] Inductive JsonStream : Type :=
| JScalar
| JText (s : string)
| JItems (items : list JsonStream) (closed : bool)
| JFields (fields : list (string * JsonStream)) (closed : bool)
| JBroken
| JMissing.

Section Budget.
Context (profile : AuthorityJsonProfile) (limits : AuthorityJsonLimits).
Implicit Types (b : AuthorityJsonBudget).
Local Abbreviation Checked := (result AuthorityJsonError AuthorityJsonBudget).

Definition consume_token b : Checked :=
  let observed := saturating_add usize_max (tokens b) 1 in
  ensure (observed <=? max_tokens limits) (LimitExceeded "tokens" observed (max_tokens limits)) ;;
  Ok (mkBudget (value_nodes b) (container_entries b) observed (decoded_string_bytes b)).

Definition consume_value (depth : Z) b : Checked :=
  ensure (depth <=? max_depth limits) (LimitExceeded "nesting depth" depth (max_depth limits)) ;;
  let observed := saturating_add usize_max (value_nodes b) 1 in
  ensure (observed <=? max_value_nodes limits) (LimitExceeded "value nodes" observed (max_value_nodes limits)) ;;
  consume_token (mkBudget observed (container_entries b) (tokens b) (decoded_string_bytes b)).

Definition consume_container_entry b : Checked :=
  let observed := saturating_add usize_max (container_entries b) 1 in
  ensure (observed <=? max_container_entries limits) (LimitExceeded "container entries" observed (max_container_entries limits)) ;;
  Ok (mkBudget (value_nodes b) observed (tokens b) (decoded_string_bytes b)).

Definition consume_string (length : Z) b : Checked :=
  let observed := saturating_add usize_max (decoded_string_bytes b) length in
  ensure (observed <=? max_decoded_string_bytes limits)
    (LimitExceeded "decoded string bytes" observed (max_decoded_string_bytes limits)) ;;
  Ok (mkBudget (value_nodes b) (container_entries b) (tokens b) observed).

Definition check_container_length (entries : Z) : result AuthorityJsonError () :=
  ensure (entries <=? max_entries_per_container limits)
    (LimitExceeded "entries per container" entries (max_entries_per_container limits)).

Definition position_limit (position : AuthorityJsonPosition) : option (Z * string) :=
  match position with
  | RegistryTasks => Some (max_registry_records limits, "task-registry records"%string)
  | RegistryWatches => Some (max_registry_records limits, "watch-registry records"%string)
  | JournalRecordValues => Some (1, "journal record values"%string)
  | JournalComponents => Some (2, "journal components"%string)
  | Root | OtherPosition => None
  end.
Definition check_profile_container_length (position : AuthorityJsonPosition) (entries : Z) : result AuthorityJsonError () :=
  match position_limit position with
  | Some (limit, resource) => ensure (entries <=? limit) (LimitExceeded resource entries limit)
  | None => Ok ()
  end.

Definition child_position (parent : AuthorityJsonPosition) (key : string) : AuthorityJsonPosition :=
  match parent with
  | Root =>
      match profile with
      | TaskRegistryJson => if bool_decide (key = "tasks"%string) then RegistryTasks else OtherPosition
      | WatchRegistryJson => if bool_decide (key = "watches"%string) then RegistryWatches else OtherPosition
      | RetentionJournal _ =>
          if bool_decide (key = "record_values"%string) then JournalRecordValues
          else if bool_decide (key = "components"%string) then JournalComponents
          else OtherPosition
      | _ => OtherPosition
      end
  | _ => OtherPosition
  end.

(** One more entry of a container. *)
Definition count_entry (position : AuthorityJsonPosition) (entries : Z) b : Checked :=
  check_profile_container_length position entries ;;
  check_container_length entries ;;
  consume_container_entry b.

(** The loops of [visit_seq] and [visit_map], over how an entry is visited. *)
Definition visit_seq (position : AuthorityJsonPosition) (closed : bool) (visit_item : JsonStream → AuthorityJsonBudget → Checked)
    : list JsonStream → Z → AuthorityJsonBudget → Checked :=
  fix go items entries b :=
    match items with
    | [] => ensure closed JsonSyntax ;; Ok b
    | item :: items =>
        b ← visit_item item b;
        let entries := saturating_add usize_max entries 1 in
        b ← count_entry position entries b;
        go items entries b
    end.
Definition visit_map (position : AuthorityJsonPosition) (closed : bool)
    (visit_field : string → JsonStream → AuthorityJsonBudget → Checked)
    : list (string * JsonStream) → gset string → Z → AuthorityJsonBudget → Checked :=
  fix go fields keys entries b :=
    match fields with
    | [] => ensure closed JsonSyntax ;; Ok b
    | (key, value) :: fields =>
        b ← consume_token b;
        b ← consume_string (Z.of_nat (str_len key)) b;
        ensure (negb (bool_decide (key ∈ keys))) JsonSyntax ;;
        let entries := saturating_add usize_max entries 1 in
        b ← count_entry position entries b;
        b ← visit_field key value b;
        go fields ({[key]} ∪ keys) entries b
    end.

(** [AuthorityJsonSeed::deserialize] with the visitor. *)
Fixpoint visit (depth : Z) (position : AuthorityJsonPosition) (stream : JsonStream) b {struct stream} : Checked :=
  let child_depth := saturating_add usize_max depth 1 in
  match stream with
  | JMissing => Err JsonSyntax
  | JBroken => consume_value depth b ;; Err JsonSyntax
  | JScalar => consume_value depth b
  | JText s => b ← consume_value depth b; consume_string (Z.of_nat (str_len s)) b
  | JItems items closed =>
      b ← consume_value depth b;
      visit_seq position closed (λ item, visit child_depth OtherPosition item) items 0 b
  | JFields fields closed =>
      b ← consume_value depth b;
      visit_map position closed (λ key value, visit child_depth (child_position position key) value) fields ∅ 0 b
  end.

(** [validate_authority_json_with_limits]; [ended]: nothing follows the
    document. *)
Definition validate_authority_json_with_limits (document : JsonStream) (ended : bool) : result AuthorityJsonError () :=
  visit 1 Root document new_budget ;;
  ensure ended JsonSyntax.
End Budget.

Definition validate_authority_json (profile : AuthorityJsonProfile) (document : JsonStream) (ended : bool)
    : result AuthorityJsonError () :=
  validate_authority_json_with_limits profile (for_profile profile) document ended.
