(* ===== verification/AuthorityJsonSpec.v ===== *)
(** * AuthorityJsonSpec: the streaming check is a check of the whole document

    The budgets are spent while the document streams in; the check accepts
    exactly the documents whose totals are within them. *)

From S2P Require Export AuthorityJson.
Local Open Scope Z_scope.

(** ** Measures of a document *)

Definition children (s : JsonStream) : list JsonStream :=
  match s with JItems items _ => items | JFields fields _ => fields.*2 | _ => [] end.
Definition width (s : JsonStream) : Z := Z.of_nat (length (children s)).
Definition field_keys (s : JsonStream) : list string := match s with JFields fields _ => fields.*1 | _ => [] end.

(** A value whose own syntax is whole and whose keys differ. *)
Definition sound (s : JsonStream) : bool :=
  match s with
  | JScalar | JText _ => true
  | JItems _ closed => closed
  | JFields fields closed => closed && bool_decide (NoDup fields.*1)
  | JBroken | JMissing => false
  end.

(** The sum of [f] over every value of the document. *)
Fixpoint total (f : JsonStream → Z) (s : JsonStream) : Z :=
  f s + match s with
        | JItems items _ => sumZ ((λ c, total f c) <$> items)
        | JFields fields _ => sumZ ((λ kv : string * JsonStream, total f kv.2) <$> fields)
        | _ => 0
        end.
Fixpoint every (P : JsonStream → Prop) (s : JsonStream) : Prop :=
  P s ∧ match s with
        | JItems items _ => foldr (λ c Q, every P c ∧ Q) True items
        | JFields fields _ => foldr (λ kv Q, every P kv.2 ∧ Q) True fields
        | _ => True
        end.
Fixpoint height (s : JsonStream) : Z :=
  1 + match s with
      | JItems items _ => foldr (λ c n, Z.max (height c) n) 0 items
      | JFields fields _ => foldr (λ kv n, Z.max (height kv.2) n) 0 fields
      | _ => 0
      end.

(** What a value consumes by itself. *)
Definition own_tokens (s : JsonStream) : Z := 1 + Z.of_nat (length (field_keys s)).
Definition own_string_bytes (s : JsonStream) : Z :=
  match s with JText t => Z.of_nat (str_len t) | _ => sumZ ((λ k, Z.of_nat (str_len k)) <$> field_keys s) end.

Definition count_values : JsonStream → Z := total (λ _, 1).
Definition count_entries : JsonStream → Z := total width.
Definition count_tokens : JsonStream → Z := total own_tokens.
Definition count_string_bytes : JsonStream → Z := total own_string_bytes.

Definition cost (s : JsonStream) : AuthorityJsonBudget :=
  mkBudget (count_values s) (count_entries s) (count_tokens s) (count_string_bytes s).
Definition plus (b c : AuthorityJsonBudget) : AuthorityJsonBudget :=
  mkBudget (value_nodes b + value_nodes c) (container_entries b + container_entries c) (tokens b + tokens c)
    (decoded_string_bytes b + decoded_string_bytes c).
Local Infix "⊕" := plus (at level 50, left associativity).

Lemma budget_eq b c : value_nodes b = value_nodes c → container_entries b = container_entries c → tokens b = tokens c →
  decoded_string_bytes b = decoded_string_bytes c → b = c.
Proof. destruct b, c. cbn. congruence. Qed.

(** An equation of sums of budgets, by components. *)
Local Ltac solve_budget :=
  apply budget_eq; cbn [plus value_nodes container_entries tokens decoded_string_bytes]; lia.

Lemma plus_assoc b c d : b ⊕ (c ⊕ d) = b ⊕ c ⊕ d.
Proof. unfold plus. cbn. f_equal; lia. Qed.
Lemma plus_0_l b : new_budget ⊕ b = b.
Proof. by destruct b. Qed.
Lemma plus_0_r b : b ⊕ new_budget = b.
Proof. destruct b. unfold plus. cbn. f_equal; lia. Qed.

Definition nonneg (b : AuthorityJsonBudget) : Prop :=
  0 <= value_nodes b ∧ 0 <= container_entries b ∧ 0 <= tokens b ∧ 0 <= decoded_string_bytes b.

Lemma nonneg_plus b c : nonneg b → nonneg c → nonneg (b ⊕ c).
Proof. unfold nonneg. cbn. lia. Qed.

(** ** Induction over documents *)

Section Induction.
Context (P : JsonStream → Prop) (Hscalar : P JScalar) (Htext : ∀ s, P (JText s)) (Hbroken : P JBroken) (Hmissing : P JMissing).
Context (Hitems : ∀ items closed, Forall P items → P (JItems items closed)).
Context (Hfields : ∀ fields closed, Forall (λ kv, P kv.2) fields → P (JFields fields closed)).

Fixpoint stream_ind (s : JsonStream) : P s :=
  match s with
  | JScalar => Hscalar
  | JText s => Htext s
  | JItems items closed =>
      Hitems items closed ((fix go items : Forall P items :=
        match items with [] => Forall_nil_2 _ | c :: items => Forall_cons_2 _ _ _ (stream_ind c) (go items) end) items)
  | JFields fields closed =>
      Hfields fields closed ((fix go fields : Forall (λ kv, P kv.2) fields :=
        match fields with [] => Forall_nil_2 _ | kv :: fields => Forall_cons_2 _ _ _ (stream_ind kv.2) (go fields) end) fields)
  | JBroken => Hbroken
  | JMissing => Hmissing
  end.
End Induction.

Lemma total_children f s : total f s = f s + sumZ (total f <$> children s).
Proof. destruct s; simpl; rewrite <- ?list_fmap_compose; done. Qed.
Lemma every_children (P : JsonStream → Prop) s : every P s ↔ P s ∧ Forall (every P) (children s).
Proof.
  destruct s as [|t|items closed|fields closed| |]; simpl; try (rewrite Forall_nil; tauto); f_equiv.
  - induction items as [|c items IH]; simpl; [by rewrite Forall_nil|]. by rewrite Forall_cons, IH.
  - induction fields as [|kv fields IH]; simpl; [by rewrite Forall_nil|]. by rewrite Forall_cons, IH.
Qed.
Lemma height_children s n : 0 <= n → height s <= 1 + n ↔ Forall (λ c, height c <= n) (children s).
Proof.
  intros Hn. destruct s as [|t|items closed|fields closed| |]; simpl; try (rewrite Forall_nil; lia).
  - induction items as [|c items IH]; simpl; [rewrite Forall_nil; lia|]. rewrite Forall_cons, <- IH. lia.
  - induction fields as [|kv fields IH]; simpl; [rewrite Forall_nil; lia|]. rewrite Forall_cons, <- IH. lia.
Qed.
Lemma height_pos s : 1 <= height s.
Proof.
  destruct s as [|t|items closed|fields closed| |]; simpl; try lia; [induction items|induction fields]; simpl in *; lia.
Qed.

Lemma children_ind (P : JsonStream → Prop) : (∀ s, Forall P (children s) → P s) → ∀ s, P s.
Proof.
  intros H. apply stream_ind; try (intros; apply H, Forall_nil_2).
  - intros items closed Hitems. by apply H.
  - intros fields closed Hfields. apply H. by apply Forall_fmap.
Qed.

Lemma total_over_nonneg f s : (∀ c, 0 <= f c) → 0 <= total f s.
Proof.
  intros Hf. induction s as [s IH] using children_ind. rewrite total_children. specialize (Hf s).
  assert (0 <= sumZ (total f <$> children s)); [|lia]. apply sumZ_nonneg. by apply Forall_fmap.
Qed.

Lemma own_string_bytes_nonneg s : 0 <= own_string_bytes s.
Proof. destruct s; simpl; try lia; apply sumZ_nonneg, Forall_fmap, Forall_forall; intros; simpl; lia. Qed.
Lemma cost_nonneg s : nonneg (cost s).
Proof.
  unfold nonneg, cost. cbn.
  split; [|split; [|split]]; apply total_over_nonneg; intros c; [lia|unfold width; lia|unfold own_tokens; lia|apply own_string_bytes_nonneg].
Qed.

(** The cost of a document is that of its value and of its entries. *)
Definition own_cost (s : JsonStream) : AuthorityJsonBudget := mkBudget 1 (width s) (own_tokens s) (own_string_bytes s).
Definition costs (l : list JsonStream) : AuthorityJsonBudget := foldr (λ c d, cost c ⊕ d) new_budget l.

Lemma cost_children s : cost s = own_cost s ⊕ costs (children s).
Proof.
  assert (Hc : costs (children s) = mkBudget (sumZ (count_values <$> children s)) (sumZ (count_entries <$> children s))
                                  (sumZ (count_tokens <$> children s)) (sumZ (count_string_bytes <$> children s))).
  { induction (children s) as [|c l IH]; [done|]. simpl. by rewrite IH. }
  rewrite Hc. unfold cost, own_cost, plus. f_equal; apply total_children.
Qed.
Lemma costs_nonneg l : nonneg (costs l).
Proof. induction l as [|c l IH]; [by repeat split|]. apply nonneg_plus; [apply cost_nonneg|exact IH]. Qed.

(** ** Spending a budget *)

Section Spending.
Context (profile : AuthorityJsonProfile) (limits : AuthorityJsonLimits).
Local Abbreviation Checked := (result AuthorityJsonError AuthorityJsonBudget).

Record limits_ok : Prop := {
  lo_depth : max_depth limits < usize_max;
  lo_values : max_value_nodes limits < usize_max;
  lo_entries : max_container_entries limits < usize_max;
  lo_container : 0 <= max_entries_per_container limits < usize_max;
  lo_tokens : max_tokens limits < usize_max;
  lo_strings : max_decoded_string_bytes limits < usize_max;
  lo_records : 0 <= max_registry_records limits
}.
Context (HL : limits_ok).

Definition within (b : AuthorityJsonBudget) : Prop :=
  value_nodes b <= max_value_nodes limits ∧ container_entries b <= max_container_entries limits ∧
  tokens b <= max_tokens limits ∧ decoded_string_bytes b <= max_decoded_string_bytes limits.

Lemma within_plus b d : within (b ⊕ d) → nonneg d → within b.
Proof. unfold within, nonneg. cbn. lia. Qed.

(** [m] succeeds under [P] when the budget has [d] left, and spends it. *)
Definition spends (m : AuthorityJsonBudget → Checked) (P : Prop) (d : AuthorityJsonBudget) : Prop :=
  nonneg d ∧ ∀ b b', within b → m b = Ok b' ↔ P ∧ b' = b ⊕ d ∧ within b'.

Lemma spends_bind m k P Q d e : spends m P d → (P → spends k Q e) → nonneg e → spends (λ b, b ← m b; k b) (P ∧ Q) (d ⊕ e).
Proof.
  intros [Hd Hm] Hk He. split; [by apply nonneg_plus|]. intros b b' Hb. rewrite bind_Ok_inv. split.
  - intros (b1 & H1 & H2). apply Hm in H1 as (HP & -> & Hw); [|done]. apply (Hk HP) in H2 as (HQ & -> & Hw'); [|done].
    rewrite plus_assoc. done.
  - intros ([HP HQ] & -> & Hw). rewrite plus_assoc in *. pose proof (within_plus _ _ Hw He) as Hw1.
    exists (b ⊕ d). split; [by apply Hm|]. by apply (Hk HP).
Qed.
Lemma spends_ok (P Q : Prop) m d d' : (P ↔ Q) → d = d' → spends m P d → spends m Q d'.
Proof. intros HPQ <- [Hd Hm]. split; [done|]. intros b b' Hb. by rewrite (Hm b b' Hb), HPQ. Qed.
Lemma spends_check (r : result AuthorityJsonError ()) (P : Prop) k Q e : (r = Ok () ↔ P) → (P → spends k Q e) → nonneg e →
  spends (λ b, r ;; k b) (P ∧ Q) e.
Proof.
  intros Hr Hk He. split; [done|]. intros b b' Hb. rewrite bind_Ok_inv. split.
  - intros ([] & H1 & H2). apply Hr in H1. apply (Hk H1) in H2; [|done]. by destruct H2 as (? & ? & ?).
  - intros ([HP HQ] & Hb' & Hw). exists (). split; [by apply Hr|]. by apply (Hk HP).
Qed.
Lemma spends_ret : spends Ok True new_budget.
Proof. split; [by repeat split|]. intros b b' Hb. rewrite plus_0_r. naive_solver. Qed.

Lemma ensure_iff {E} c (e : E) : ensure c e = Ok () ↔ c = true.
Proof. apply ensure_Ok_inv. Qed.

(** One counter against its limit. *)
Local Ltac solve_spend :=
  split; [repeat split; simpl; lia|]; intros b b' Hb; rewrite bind_Ok_inv; destruct HL, Hb; split;
  [ intros ([] & H1 & H2); apply ensure_iff in H1; reflect_bool; injection H2 as <-; unfold within, plus, saturating_add in *; cbn in *;
    split; [done|]; split; [f_equal; lia|lia]
  | intros (_ & -> & Hw); exists (); unfold within, plus, saturating_add in *; cbn in *; split; [apply ensure_iff; lia|]; do 2 f_equal; lia].

Lemma consume_token_spends : spends (consume_token limits) True (mkBudget 0 0 1 0).
Proof.
  unfold consume_token. solve_spend.
Qed.
Lemma consume_value_spends depth : spends (consume_value limits depth) (depth <= max_depth limits) (mkBudget 1 0 1 0).
Proof.
  unfold consume_value. eapply spends_ok; [apply (right_id True (∧))|reflexivity|].
  apply spends_check; [by rewrite ensure_iff, Z.leb_le|intros _|repeat split; simpl; lia].
  assert (Hfirst : spends (λ b, let observed := saturating_add usize_max (value_nodes b) 1 in
    ensure (observed <=? max_value_nodes limits) (LimitExceeded "value nodes" observed (max_value_nodes limits)) ;;
    Ok (mkBudget observed (container_entries b) (tokens b) (decoded_string_bytes b))) True (mkBudget 1 0 0 0)) by solve_spend.
  pose proof (spends_bind _ _ _ _ _ _ Hfirst (λ _, consume_token_spends) (proj1 consume_token_spends)) as [Hd H].
  split; [exact Hd|]. intros b b' Hb. rewrite <- (right_id True (∧) True), <- (H b b' Hb). cbn zeta.
  by destruct (ensure _ _) as [[]|].
Qed.
Lemma consume_string_spends n : 0 <= n → spends (consume_string limits n) True (mkBudget 0 0 0 n).
Proof.
  intros Hn. unfold consume_string. solve_spend.
Qed.

Definition allows (position : AuthorityJsonPosition) (entries : Z) : Prop :=
  match position_limit limits position with Some (limit, _) => entries <= limit | None => True end.

Lemma count_entry_spends position entries :
  spends (count_entry limits position entries) (allows position entries ∧ entries <= max_entries_per_container limits) (mkBudget 0 1 0 0).
Proof.
  unfold count_entry. apply spends_check; [|intros _|repeat split; simpl; lia].
  { unfold check_profile_container_length, allows. destruct (position_limit limits position) as [[limit r]|]; [|by split].
    rewrite ensure_iff. by rewrite Z.leb_le. }
  eapply spends_ok; [apply (right_id True (∧))|reflexivity|].
  apply spends_check; [unfold check_container_length; by rewrite ensure_iff, Z.leb_le|intros _|repeat split; simpl; lia].
  unfold consume_container_entry. solve_spend.
Qed.

Lemma allows_0 position : allows position 0.
Proof. destruct HL. unfold allows. by destruct position. Qed.
Lemma allows_le position m n : allows position n → m <= n → allows position m.
Proof. unfold allows. destruct (position_limit _ _) as [[limit ?]|]; [lia|done]. Qed.

Local Abbreviation fits_container position n := (allows position n ∧ n <= max_entries_per_container limits).

Lemma next_entry n : n <= max_entries_per_container limits → saturating_add usize_max n 1 = n + 1.
Proof. destruct HL. intros. apply saturating_add_exact. lia. Qed.

Lemma visit_seq_spends position closed f (G : JsonStream → Prop) items n :
  Forall (λ c, spends (f c) (G c) (cost c)) items → 0 <= n → fits_container position n →
  spends (visit_seq limits position closed f items n)
    (Forall G items ∧ fits_container position (n + Z.of_nat (length items)) ∧ closed = true)
    (costs items ⊕ mkBudget 0 (Z.of_nat (length items)) 0 0).
Proof.
  intros Hall Hn0 Hn. revert n Hn0 Hn. induction Hall as [|c items Hc Hall IH]; intros n Hn0 Hn; cbn [visit_seq].
  - eapply spends_ok; [| |apply (spends_check (ensure closed JsonSyntax) (closed = true) Ok True); [apply ensure_iff|intros _; apply spends_ret|by repeat split]].
    { rewrite Forall_nil. simpl. rewrite Z.add_0_r. tauto. }
    done.
  - eapply spends_ok; [| |apply (spends_bind _ _ _ (fits_container position (n + 1) ∧
        (Forall G items ∧ fits_container position (n + 1 + Z.of_nat (length items)) ∧ closed = true)) _
        (mkBudget 0 1 0 0 ⊕ (costs items ⊕ mkBudget 0 (Z.of_nat (length items)) 0 0)) Hc)].
    { rewrite Forall_cons. replace (n + 1 + Z.of_nat (length items)) with (n + Z.of_nat (length (c :: items))) by (simpl; lia).
      split; [tauto|]. intros ([HG HGs] & [Hp Hw] & Hcl). split_and!; try done; [|simpl in Hw; lia].
      apply (allows_le _ _ _ Hp). simpl. lia. }
    { rewrite length_cons. change (costs (c :: items)) with (cost c ⊕ costs items). solve_budget. }
    + intros _. rewrite next_entry by apply Hn. apply spends_bind; [apply count_entry_spends| |].
      * intros Hn1. apply IH; [lia|exact Hn1].
      * apply nonneg_plus; [apply costs_nonneg|repeat split; simpl; lia].
    + apply nonneg_plus; [repeat split; simpl; lia|]. apply nonneg_plus; [apply costs_nonneg|repeat split; simpl; lia].
Qed.

Definition key_bytes (keys : list string) : Z := sumZ ((λ k, Z.of_nat (str_len k)) <$> keys).
Lemma key_bytes_nonneg keys : 0 <= key_bytes keys.
Proof. apply sumZ_nonneg, Forall_fmap, Forall_forall. intros; simpl; lia. Qed.

(** What the entries of an object consume beside their values. *)
Definition fields_cost (keys : list string) : AuthorityJsonBudget :=
  mkBudget 0 (Z.of_nat (length keys)) (Z.of_nat (length keys)) (key_bytes keys).
Lemma fields_cost_nonneg keys : nonneg (fields_cost keys).
Proof. pose proof (key_bytes_nonneg keys). repeat split; simpl; lia. Qed.

Lemma visit_map_spends position closed f (G : string → JsonStream → Prop) fields keys n :
  Forall (λ kv, spends (f kv.1 kv.2) (G kv.1 kv.2) (cost kv.2)) fields → 0 <= n → fits_container position n →
  spends (visit_map limits position closed f fields keys n)
    (Forall (λ kv, G kv.1 kv.2) fields ∧ fits_container position (n + Z.of_nat (length fields)) ∧
     Forall (λ kv, kv.1 ∉ keys) fields ∧ NoDup fields.*1 ∧ closed = true)
    (costs fields.*2 ⊕ fields_cost fields.*1).
Proof.
  intros Hall Hn0 Hn. revert keys n Hn0 Hn. induction Hall as [|[k v] fields Hv Hall IH]; intros keys n Hn0 Hn; cbn [visit_map].
  - eapply spends_ok; [| |apply (spends_check (ensure closed JsonSyntax) (closed = true) Ok True); [apply ensure_iff|intros _; apply spends_ret|by repeat split]].
    { rewrite !Forall_nil. simpl. rewrite Z.add_0_r. pose proof NoDup_nil_2 (A := string). tauto. }
    done.
  - pose proof (costs_nonneg fields.*2) as H1. pose proof (fields_cost_nonneg fields.*1) as H2. pose proof (cost_nonneg v) as H3.
    simpl in Hv. rewrite next_entry by apply Hn.
    assert (Htail : spends (λ b, b ← count_entry limits position (n + 1) b; b ← f k v b; visit_map limits position closed f fields ({[k]} ∪ keys) (n + 1) b)
      (fits_container position (n + 1) ∧ G k v ∧ Forall (λ kv, G kv.1 kv.2) fields ∧ fits_container position (n + 1 + Z.of_nat (length fields)) ∧
       Forall (λ kv, kv.1 ∉ {[k]} ∪ keys) fields ∧ NoDup fields.*1 ∧ closed = true)
      (mkBudget 0 1 0 0 ⊕ (cost v ⊕ (costs fields.*2 ⊕ fields_cost fields.*1)))).
    { apply spends_bind; [apply count_entry_spends| |by repeat apply nonneg_plus]. intros Hn1.
      apply spends_bind; [exact Hv| |by apply nonneg_plus]. intros _. apply IH; [lia|exact Hn1]. }
    pose proof (proj1 Htail) as H4.
    assert (Hkey : ensure (negb (bool_decide (k ∈ keys))) JsonSyntax = Ok () ↔ k ∉ keys)
      by (rewrite ensure_iff, negb_true_iff, bool_decide_eq_false; done).
    pose proof (spends_check _ _ _ _ _ Hkey (λ _, Htail) H4) as Hchecked.
    pose proof (spends_bind _ _ _ _ _ _ (consume_string_spends (Z.of_nat (str_len k)) (Nat2Z.is_nonneg _)) (λ _, Hchecked) H4) as Hstring.
    pose proof (spends_bind _ _ _ _ _ _ consume_token_spends (λ _, Hstring) (proj1 Hstring)) as Htoken.
    eapply spends_ok; [| |exact Htoken].
    + rewrite !Forall_cons, fmap_cons, NoDup_cons. cbn [fst snd].
      replace (n + 1 + Z.of_nat (length fields)) with (n + Z.of_nat (length ((k, v) :: fields))) by (rewrite length_cons; lia).
      rewrite list_elem_of_fmap. split.
      * intros (_ & _ & Hk & Hn1 & HG & HGs & Hfit & Hd & Hnd & Hcl). rewrite Forall_forall in Hd.
        split; [by split|]. split; [done|]. split; [split; [done|]|].
        { apply Forall_forall. intros kv Hkv Hin. apply (Hd kv Hkv). set_solver. }
        split; [|done]. split; [|done]. intros (kv & -> & Hkv). apply (Hd kv Hkv). set_solver.
      * intros ([HG HGs] & Hfit & [Hk Hd] & [Hfresh Hnd] & Hcl). rewrite Forall_forall in Hd.
        split_and!; try done; try (destruct Hfit as [Hp Hw]; rewrite length_cons in *; first [lia|apply (allows_le _ _ _ Hp); lia]).
        apply Forall_forall. intros kv Hkv [<-%elem_of_singleton|Hin]%elem_of_union; [apply Hfresh; by exists kv|by apply (Hd kv Hkv)].
    + rewrite !fmap_cons. cbn [fst snd]. change (costs (v :: fields.*2)) with (cost v ⊕ costs fields.*2).
      unfold fields_cost, key_bytes. rewrite fmap_cons, sumZ_cons, length_cons. solve_budget.
Qed.

(** ** What is accepted *)

(** A document below a position and a depth. *)
Definition fields_of (s : JsonStream) : list (string * JsonStream) := match s with JFields fields _ => fields | _ => [] end.
Definition good (depth : Z) (position : AuthorityJsonPosition) (s : JsonStream) : Prop :=
  every sound s ∧ depth + height s <= max_depth limits + 1 ∧ every (λ c, width c <= max_entries_per_container limits) s ∧
  allows position (width s) ∧ Forall (λ kv, allows (child_position profile position kv.1) (width kv.2)) (fields_of s).

Lemma child_not_root position key : child_position profile position key ≠ Root.
Proof. unfold child_position. destruct position, profile; try done; repeat case_bool_decide; done. Qed.
Lemma below_root position s : position ≠ Root →
  Forall (λ kv, allows (child_position profile position kv.1) (width kv.2)) (fields_of s).
Proof. intros Hp. apply Forall_forall. intros [k v] _. by destruct position. Qed.

Lemma good_leaf depth position s : children s = [] → sound s → good depth position s ↔ depth <= max_depth limits.
Proof.
  intros Hc Hs. assert (Hw : width s = 0) by (unfold width; by rewrite Hc).
  assert (Hh : height s = 1).
  { pose proof (height_pos s). assert (height s <= 1 + 0); [|lia]. apply height_children; [done|]. by rewrite Hc. }
  unfold good. rewrite !every_children, Hc, Hh, Hw. pose proof (lo_container HL). split; [intros (_ & ? & _); lia|]. intros Hd.
  split; [done|]. split; [lia|]. split; [split; [lia|done]|]. split; [apply allows_0|].
  destruct s; try done. by apply fmap_nil_inv in Hc as ->.
Qed.

Lemma good_children depth position s : sound s →
  good depth position s ↔ depth <= max_depth limits ∧ fits_container position (width s) ∧
    Forall (λ c, every sound c ∧ depth + 1 + height c <= max_depth limits + 1 ∧ every (λ c, width c <= max_entries_per_container limits) c) (children s) ∧
    Forall (λ kv, allows (child_position profile position kv.1) (width kv.2)) (fields_of s).
Proof.
  intros Hs. unfold good. rewrite (every_children _ s), (every_children (λ c, width c <= _) s), !Forall_and.
  pose proof (height_pos s). split.
  - intros ([_ H1] & H2 & [H3 H4] & H5 & H6). split_and!; try done; [lia|].
    eapply Forall_impl; [apply (height_children s (max_depth limits - depth)); lia|]. simpl. lia.
  - intros (H1 & [H2 H3] & (H4 & H5 & H6) & H7). split_and!; try done.
    assert (height s <= 1 + (max_depth limits - depth)); [|lia]. apply height_children; [lia|]. eapply Forall_impl; [exact H5|]. simpl. lia.
Qed.

Local Abbreviation visited := (λ s, ∀ depth position, spends (visit profile limits depth position s) (good depth position s) (cost s)).

Lemma visit_items_spends items closed : Forall visited items → visited (JItems items closed).
Proof.
  intros IH depth position.
  cbn [visit]. set (child := λ item, visit profile limits (saturating_add usize_max depth 1) OtherPosition item).
  assert (Hseq : depth <= max_depth limits → spends (visit_seq limits position closed child items 0)
    (Forall (good (depth + 1) OtherPosition) items ∧ fits_container position (width (JItems items closed)) ∧ closed = true)
    (costs items ⊕ mkBudget 0 (Z.of_nat (length items)) 0 0)).
  { intros Hd. apply visit_seq_spends; [|done|split; [apply allows_0|apply (lo_container HL)]].
    eapply Forall_impl; [exact IH|]. intros c Hc. unfold child. rewrite saturating_add_exact by (destruct HL; lia). apply Hc. }
  eapply spends_ok; [| |apply (spends_bind _ _ _ _ _ _ (consume_value_spends depth) Hseq)].
  + split.
    * intros (Hd & HG & Hfit & ->). apply good_children; [done|]. split; [done|]. split; [done|]. split; [|done].
      eapply Forall_impl; [exact HG|]. by intros c (? & ? & ? & _).
    * intros Hg. assert (closed = true) as -> by (destruct Hg as [[Hg _] _]; by apply Is_true_true). apply good_children in Hg as (Hd & Hfit & Hc & _); [|done].
      split; [done|]. split; [|done]. eapply Forall_impl; [exact Hc|]. intros c (? & ? & ?). split_and!; try done. by apply below_root.
  + rewrite cost_children. change (children (JItems items closed)) with items. change (own_cost (JItems items closed)) with (mkBudget 1 (Z.of_nat (length items)) 1 0).
    solve_budget.
  + apply nonneg_plus; [apply costs_nonneg|repeat split; simpl; lia].
Qed.
Lemma visit_fields_spends fields closed : Forall (λ kv, visited kv.2) fields → visited (JFields fields closed).
Proof.
  intros IH depth position.
  cbn [visit].
  set (child := λ key value, visit profile limits (saturating_add usize_max depth 1) (child_position profile position key) value).
  assert (Hmap : depth <= max_depth limits → spends (visit_map limits position closed child fields ∅ 0)
    (Forall (λ kv, good (depth + 1) (child_position profile position kv.1) kv.2) fields ∧
     fits_container position (0 + Z.of_nat (length fields)) ∧ Forall (λ kv, kv.1 ∉ (∅ : gset string)) fields ∧ NoDup fields.*1 ∧ closed = true)
    (costs fields.*2 ⊕ fields_cost fields.*1)).
  { intros Hd. apply (visit_map_spends _ _ _ (λ k v, good (depth + 1) (child_position profile position k) v)); [|done|split; [apply allows_0|apply (lo_container HL)]].
    eapply Forall_impl; [exact IH|]. intros [k v] Hc. unfold child. rewrite saturating_add_exact by (destruct HL; lia). apply Hc. }
  assert (Hwidth : width (JFields fields closed) = 0 + Z.of_nat (length fields)) by (unfold width; simpl; by rewrite length_fmap).
  eapply spends_ok; [| |apply (spends_bind _ _ _ _ _ _ (consume_value_spends depth) Hmap)].
  + rewrite <- Hwidth. split.
    * intros (Hd & HG & Hfit & _ & Hnd & ->). apply good_children; [simpl; by rewrite bool_decide_true|]. rewrite Forall_forall in HG.
      split; [done|]. split; [done|]. split.
      { apply Forall_fmap, Forall_forall. intros kv Hkv. by destruct (HG kv Hkv) as (? & ? & ? & _). }
      apply Forall_forall. intros kv Hkv. by destruct (HG kv Hkv) as (_ & _ & _ & ? & _).
    * intros Hg. assert (closed = true ∧ NoDup fields.*1) as [-> Hnd].
      { destruct Hg as [[Hg _] _]. simpl in Hg. apply Is_true_true, andb_true_iff in Hg as [? Hg]. by apply bool_decide_eq_true in Hg. }
      apply good_children in Hg as (Hd & Hfit & Hc & Hp); [|simpl; by rewrite bool_decide_true].
      split; [done|]. split; [|split; [done|split; [apply Forall_forall; intros ? _; apply not_elem_of_empty|done]]].
      simpl in Hc, Hp. rewrite Forall_fmap in Hc. rewrite Forall_forall in Hc, Hp. apply Forall_forall. intros kv Hkv.
      destruct (Hc kv Hkv) as (? & ? & ?). split_and!; try done; [by apply Hp|apply below_root, child_not_root].
  + rewrite cost_children. change (children (JFields fields closed)) with fields.*2. unfold own_cost, own_tokens, own_string_bytes, fields_cost.
    rewrite Hwidth. change (field_keys (JFields fields closed)) with fields.*1. rewrite !length_fmap. fold (key_bytes fields.*1). solve_budget.
  + apply nonneg_plus; [apply costs_nonneg|apply fields_cost_nonneg].
Qed.

Lemma visit_spends s : visited s.
Proof.
  induction s as [|t| | |items closed IH|fields closed IH] using stream_ind; [| | | |by apply visit_items_spends|by apply visit_fields_spends];
    intros depth position.
  - eapply spends_ok; [|reflexivity|apply consume_value_spends]. by rewrite good_leaf.
  - eapply spends_ok; [| |apply (spends_bind _ _ _ True _ _ (consume_value_spends depth) (λ _, consume_string_spends _ (Nat2Z.is_nonneg _)))].
    + by rewrite good_leaf, (right_id True (∧)).
    + rewrite cost_children. change (costs (children (JText t))) with new_budget. by rewrite plus_0_r.
    + repeat split; simpl; lia.
  - split; [apply cost_nonneg|]. intros b b' _. cbn [visit]. rewrite bind_Ok_inv. split; [by intros (? & _ & ?)|by intros ([[] _] & _)].
  - split; [apply cost_nonneg|]. intros b b' _. split; [done|by intros ([[] _] & _)].
Qed.
End Spending.

(** The retention journal's budget of string bytes is its file's length. *)
Definition profile_ok (profile : AuthorityJsonProfile) : Prop :=
  match profile with RetentionJournal max_bytes => 0 <= max_bytes < usize_max | _ => True end.
Lemma profile_limits_ok profile : profile_ok profile → limits_ok (for_profile profile).
Proof.
  intros H.
  split; destruct profile; first [exact eq_refl|exact (proj2 H)|discriminate|split; [discriminate|exact eq_refl]].
Qed.
Lemma profile_within_new profile : profile_ok profile → within (for_profile profile) new_budget.
Proof. intros H. destruct profile; repeat split; first [discriminate|exact (proj1 H)]. Qed.

(** C30: the streaming check of the authority JSON budgets accepts exactly the documents
    that are whole JSON without a repeated key, nested at most 64 deep, with at most
    65536 entries per container, with their registry's records within the profile's
    limit, and with their totals of values, entries, tokens and decoded string bytes
    within the budget. *)
Theorem authority_json_exact (profile : AuthorityJsonProfile) (document : JsonStream) (ended : bool) :
  profile_ok profile →
  let limits := for_profile profile in
  validate_authority_json profile document ended = Ok () ↔
  every sound document ∧ ended = true ∧ height document <= MAX_AUTHORITY_JSON_DEPTH ∧
  every (λ s, width s <= MAX_AUTHORITY_JSON_ENTRIES_PER_CONTAINER) document ∧
  Forall (λ kv, allows limits (child_position profile Root kv.1) (width kv.2)) (fields_of document) ∧
  within limits (cost document).
Proof.
  intros Hp limits. destruct (visit_spends profile limits (profile_limits_ok profile Hp) document 1 Root) as [_ Hvisit].
  specialize (Hvisit new_budget). unfold validate_authority_json, validate_authority_json_with_limits. fold limits.
  rewrite bind_Ok_inv. setoid_rewrite (λ b, Hvisit b (profile_within_new profile Hp)). setoid_rewrite ensure_iff.
  unfold good. rewrite plus_0_l. change (max_depth limits) with MAX_AUTHORITY_JSON_DEPTH.
  change (max_entries_per_container limits) with MAX_AUTHORITY_JSON_ENTRIES_PER_CONTAINER. split.
  - intros (b & ((H1 & H2 & H3 & _ & H4) & -> & H5) & H6). split_and!; try done. clear -H2. lia.
  - intros (H1 & H2 & H3 & H4 & H5 & H6). exists (cost document).
    split; [split; [|by split]; split; [done|split; [clear -H3; lia|done]]|done].
Qed.

Lemma authority_json_exact_witness :
  let record := JFields [("id", JText "t"); ("tags", JItems [JScalar; JText "x"] true)] true in
  profile_ok TaskRegistryJson ∧
  validate_authority_json TaskRegistryJson (JFields [("tasks", JFields [("t", record)] true)] true) true = Ok () ∧
  validate_authority_json TaskRegistryJson (JFields [("tasks", record); ("tasks", record)] true) true ≠ Ok ().
Proof.
  intros record. split; [exact I|]. split.
  - apply (authority_json_exact TaskRegistryJson); [exact I|].
    repeat split; try (vm_compute; reflexivity); try (vm_compute; discriminate); vm_compute; repeat constructor; discriminate.
  - intros H. apply (authority_json_exact TaskRegistryJson) in H; [|exact I]. destruct H as [[H _] _]. vm_compute in H. exact H.
Defined.

