(* ===== verification/EventLog.v ===== *)
(** * EventLog: the durable event log of a task

    Models [src/crates/packet28-daemon-core/src/storage/event_tail.rs] and the
    event functions of [src/crates/packet28-daemon-core/src/storage.rs]: a
    log of JSON lines, one frame each, numbered from 1, that is inspected from
    its first byte before every append, repaired when a crash cut its last
    line, and read in pages.  The store that admits a task is the one of
    [RegistryStore].  Symbolic links and replaced files are not modelled, and
    a message names no path and no offset. *)

From S2P Require Export AuthorityJson RegistryStore.
Local Open Scope Z_scope.

Definition MAX_TASK_EVENT_PAGE_BYTES : Z := 4 * 1024 * 1024.
Definition MAX_TASK_EVENT_PAGE_FRAMES : Z := 4096.
Definition MAX_TASK_EVENT_LOAD_BYTES : Z := 64 * 1024 * 1024.
Definition MAX_TASK_EVENT_LOAD_FRAMES : Z := MAX_TASK_REGISTRY_RECORDS.

(** ** Frames *)

Record DaemonEventFrame (DaemonEvent : Type) : Type := mkEventFrame {
  seq : Z;
  frame_task_id : string;
  frame_event : DaemonEvent
}.
Arguments mkEventFrame {DaemonEvent} _ _ _.
Arguments seq {DaemonEvent} _.
Arguments frame_task_id {DaemonEvent} _.
Arguments frame_event {DaemonEvent} _.

Inductive EventError : Type :=
| EventLimitExceeded (resource : string) (observed max : Z)
| InvalidTaskEventFrame (message : string)
| EventJson (message : string)
| EventIo (message : string)
| EventAuthorityLost
| EventTaskId (e : StorageIdentifierError)
| EventRegistry (e : WalError)
| TaskSuperseded (task_id successor_task_id : string)
| TaskArchived (task_id archive_file : string).

Definition invalid_frame {A} (message : string) : result EventError A := Err (InvalidTaskEventFrame message).

(** ** Reading a line *)

Definition line_end : Z := 10.

(** [reader.take(limit).read_until(b'\n', &mut line)] at the start of [l]. *)
Fixpoint read_until (limit : Z) (l : list Z) : list Z :=
  match l with
  | [] => []
  | b :: l => if limit <=? 0 then [] else if b =? line_end then [b] else b :: read_until (limit - 1) l
  end.
Definition ends_with_newline (line : list Z) : bool := bool_decide (list.last line = Some line_end).

(** [strip_suffix(b"\r")]. *)
Definition strip_cr (encoded : list Z) : list Z :=
  if bool_decide (list.last encoded = Some 13) then removelast encoded else encoded.

Definition next_task_event_sequence (current : option Z) : result EventError Z :=
  ok_or (checked_add u64_max (default 0 current) 1) (InvalidTaskEventFrame "task event sequence is exhausted at u64::MAX").

Section Events.
Context {DaemonEvent : Type}.
Local Abbreviation Frame := (DaemonEventFrame DaemonEvent).

(** [serde_json]: writing and reading a frame, and the calls of the
    deserializer on some bytes, with whether nothing follows the document. *)
Context (to_vec : Frame → option (list Z)) (from_slice : list Z → option Frame) (stream : list Z → JsonStream * bool).

Definition event_json_error (malformed : EventError) (e : AuthorityJsonError) : EventError :=
  match e with LimitExceeded resource observed max => EventLimitExceeded resource observed max | JsonSyntax => malformed end.
Definition check_event_json (malformed : EventError) (bytes : list Z) : result EventError () :=
  match validate_authority_json TaskEventFrame (stream bytes).1 (stream bytes).2 with
  | Ok _ => Ok ()
  | Err e => Err (event_json_error malformed e)
  end.
Definition check_line_len (bytes : list Z) : result EventError () :=
  ensure (file_len bytes <=? MAX_TASK_EVENT_LINE_BYTES)
    (EventLimitExceeded "event-line bytes" (file_len bytes) MAX_TASK_EVENT_LINE_BYTES).

Definition validate_task_event_frame_bytes (bytes : list Z) : result EventError () :=
  check_line_len bytes ;;
  check_event_json (EventJson "failed to validate encoded task event for") bytes.

Definition encode_task_event_frame (task_id : string) (frame : Frame) : result EventError (list Z) :=
  ensure (bool_decide (frame_task_id frame = task_id))
    (InvalidTaskEventFrame "event frame identifier does not match admitted identifier") ;;
  bytes ← ok_or (to_vec frame) (EventJson "failed to encode task event for");
  validate_task_event_frame_bytes bytes ;;
  Ok (bytes ++ [line_end]).

Definition decode_complete_task_event_frame (task_id : string) (encoded : list Z) : result EventError Frame :=
  let encoded := strip_cr encoded in
  check_line_len encoded ;;
  check_event_json (InvalidTaskEventFrame "malformed task event JSON") encoded ;;
  frame ← ok_or (from_slice encoded) (InvalidTaskEventFrame "failed to decode task event frame");
  ensure (bool_decide (frame_task_id frame = task_id)) (InvalidTaskEventFrame "task event belongs to another task") ;;
  ensure (negb (seq frame =? 0)) (InvalidTaskEventFrame "task event sequence must be greater than zero") ;;
  Ok frame.

(** ** Inspecting a log *)

Record TaskEventTailInspection : Type := mkInspection {
  tail : option Frame;
  complete_len : Z;
  has_partial_suffix : bool
}.

Definition check_contiguous (tail : option Frame) (frame : Frame) : result EventError () :=
  match tail with
  | Some previous =>
      expected ← next_task_event_sequence (Some (seq previous));
      ensure (seq frame =? expected) (InvalidTaskEventFrame "task event sequence is not contiguous")
  | None => ensure (seq frame =? 1) (InvalidTaskEventFrame "first task event sequence must be 1")
  end.

(** The loop over the lines of [rest].  A line has at least one byte, so the
    bytes of the file are fuel enough: none are left when it ends. *)
Fixpoint inspect_lines (fuel : nat) (task_id : string) (rest : list Z) (complete_len : Z) (tail : option Frame)
    : result EventError TaskEventTailInspection :=
  match fuel with
  | O => Ok (mkInspection tail complete_len false)
  | S fuel =>
      let line := read_until (MAX_TASK_EVENT_LINE_BYTES + 2) rest in
      if bool_decide (line = []) then Ok (mkInspection tail complete_len false)
      else if negb (ends_with_newline line) then
        ensure (file_len line <=? MAX_TASK_EVENT_LINE_BYTES)
          (EventLimitExceeded "crash-partial tail bytes" (file_len line) MAX_TASK_EVENT_LINE_BYTES) ;;
        Ok (mkInspection tail complete_len true)
      else
        frame ← decode_complete_task_event_frame task_id (removelast line);
        check_contiguous tail frame ;;
        inspect_lines fuel task_id (drop (length line) rest) (complete_len + file_len line) (Some frame)
  end.

Definition inspect_locked_task_event_tail (task_id : string) (file : list Z) : result EventError TaskEventTailInspection :=
  inspect_lines (length file) task_id file 0 None.

Definition task_event_log_tail_sequence_admitted (task_id : string) (file : option (list Z)) : result EventError (option Z) :=
  match file with
  | None => Ok None
  | Some file => inspection ← inspect_locked_task_event_tail task_id file; Ok (seq <$> tail inspection)
  end.

(** ** Appending *)

(** A file with the number of its first bytes that a power loss keeps. *)
Record EventFile : Type := mkEventFile {
  ef_bytes : list Z;
  ef_synced : nat
}.
Definition sync_task_event_file (file : EventFile) : EventFile := mkEventFile (ef_bytes file) (length (ef_bytes file)).
Definition set_len (file : EventFile) (len : Z) : EventFile :=
  mkEventFile (take (Z.to_nat len) (ef_bytes file)) (Nat.min (Z.to_nat len) (ef_synced file)).
Definition write_all (file : EventFile) (bytes : list Z) : EventFile := mkEventFile (ef_bytes file ++ bytes) (ef_synced file).

(** What the system calls of one append do; [FinishFails] is a failure after
    the line is on the disk, of the last checks or of the unlock. *)
Inductive AppendFault : Type :=
| NoFault
| OpenFails
| LockFails (after_open : bool)
| TruncateFails
| TruncateSyncFails
| WriteFails (written : nat)
| SyncFails
| FinishFails (authority_lost : bool).

(** [open_append_file]: a missing log is created. *)
Definition open_append_file (file : option EventFile) : EventFile := default (mkEventFile [] 0) file.

(** The end of both appends: a torn suffix is cut off, then the line is
    written. *)
Definition truncate_partial_suffix (fault : AppendFault) (inspection : TaskEventTailInspection) (file : EventFile)
    : result EventError () * EventFile :=
  if has_partial_suffix inspection then
    match fault with
    | TruncateFails => (Err (EventIo "failed to truncate crash-partial task event suffix"), file)
    | TruncateSyncFails => (Err (EventIo "failed to synchronize task event log"), set_len file (complete_len inspection))
    | _ => (Ok (), sync_task_event_file (set_len file (complete_len inspection)))
    end
  else (Ok (), file).
Definition write_synced (fault : AppendFault) (bytes : list Z) (file : EventFile) : result EventError () * EventFile :=
  match fault with
  | WriteFails written => (Err (EventIo "failed to append allocated task event"), write_all file (take written bytes))
  | SyncFails => (Err (EventIo "failed to synchronize task event log"), write_all file bytes)
  | _ => (Ok (), sync_task_event_file (write_all file bytes))
  end.
Definition write_event_line (fault : AppendFault) (inspection : TaskEventTailInspection) (bytes : list Z) (file : EventFile)
    : result EventError () * EventFile :=
  match truncate_partial_suffix fault inspection file with
  | (Err e, file) => (Err e, file)
  | (Ok _, file) => write_synced fault bytes file
  end.

(** Opening and locking the log, then [operation]. *)
Definition with_locked_log {A} (fault : AppendFault) (file : option EventFile)
    (operation : EventFile → result EventError A * EventFile) : result EventError A * option EventFile :=
  match fault with
  | OpenFails => (Err (EventIo "failed to open task event log for sequence allocation"), file)
  | LockFails after_open =>
      (Err (EventIo "failed to acquire exclusive task event sequence lock"),
       if after_open then Some (open_append_file file) else file)
  | _ =>
      let '(answer, file) := operation (open_append_file file) in
      (match fault with
       | FinishFails authority_lost =>
           answer ;; Err (if authority_lost then EventAuthorityLost else EventIo "failed to unlock allocated task event")
       | _ => answer
       end, Some file)
  end.

Definition append_next_task_event_admitted (fault : AppendFault) (task_id : string) (event : DaemonEvent) (file : option EventFile)
    : result EventError Frame * option EventFile :=
  with_locked_log fault file (λ file,
    match (inspection ← inspect_locked_task_event_tail task_id (ef_bytes file);
           sequence ← next_task_event_sequence (seq <$> tail inspection);
           let frame := mkEventFrame sequence task_id event in
           bytes ← encode_task_event_frame task_id frame;
           Ok (inspection, frame, bytes)) with
    | Err e => (Err e, file)
    | Ok (inspection, frame, bytes) =>
        let '(answer, file) := write_event_line fault inspection bytes file in
        (answer ;; Ok frame, file)
    end).

Definition append_locked_task_event (fault : AppendFault) (task_id : string) (frame : Frame) (bytes : list Z) (file : EventFile)
    : result EventError () * EventFile :=
  match (inspection ← inspect_locked_task_event_tail task_id (ef_bytes file);
         expected ← next_task_event_sequence (seq <$> tail inspection);
         ensure (seq frame =? expected) (InvalidTaskEventFrame "task event append is not contiguous") ;;
         Ok inspection) with
  | Err e => (Err e, file)
  | Ok inspection => write_event_line fault inspection bytes file
  end.

(** ** Admission *)

Definition checked_task_storage_id (task_id : string) : result EventError string :=
  match task_storage_id task_id with Ok id => Ok id | Err e => Err (EventTaskId e) end.

Definition preflight_task_event (task_id : string) (event : DaemonEvent) : result EventError () :=
  encode_task_event_frame task_id (mkEventFrame u64_max task_id event) ;; Ok ().

Context {TBody WBody : Type}.
Local Abbreviation Tasks := (gmap string (TaskRecord TBody)).

(** [task.superseded_by] and [task.archived]: the successor and the archive
    file that the body of a task names. *)
Context (superseded_by archived : TBody → option string).

Definition require_continuable_task (task : TaskRecord TBody) : result EventError () :=
  match superseded_by (task_body task), archived (task_body task) with
  | Some successor, _ => Err (TaskSuperseded (task_id task) successor)
  | None, Some archive => Err (TaskArchived (task_id task) archive)
  | None, None => Ok ()
  end.

Definition require_registered_task_storage_id (tasks : Tasks) (id : string) : result EventError () :=
  ensure (match tasks !! id with Some record => bool_decide (task_id record = id) | None => false end)
    (EventRegistry (InvalidTaskRegistry "task must be durably admitted before its first event append")).

Definition require_continuable_record (tasks : Tasks) (id : string) : result EventError () :=
  match tasks !! id with Some record => require_continuable_task record | None => Ok () end.

Definition authority_require_continuable_task (authority : RegistryAdmissionAuthority (TBody := TBody) (WBody := WBody)) (id : string)
    : result EventError () :=
  match require_task authority id with
  | Ok _ => require_continuable_record (au_tasks authority) id
  | Err e => Err (EventRegistry e)
  end.

Context (blake3 : list Z → list Z) (batch_from_slice : list Z → option (RegistryDeltaBatch TBody WBody)).
Local Abbreviation CheckpointT := (Checkpoint (TBody := TBody) (WBody := WBody)).

(** [with_continuable_task_admission] up to its operation. *)
Definition require_continuable_task_admission (checkpoint : CheckpointT) (wal : option (list Z)) (id : string)
    : option (result EventError ()) :=
  loaded ← replay_wal_with_policy blake3 batch_from_slice wal (cp_tasks checkpoint) (cp_watches checkpoint) (cp_revision checkpoint) Reject;
  Some (match loaded with
        | Err e => Err (EventRegistry e)
        | Ok (loaded, _, _, _) =>
            require_registered_task_storage_id (lt_tasks loaded) id ;;
            require_continuable_record (lt_tasks loaded) id
        end).

(** ** The event logs of a root *)

Local Abbreviation EventLogs := (gmap string EventFile).
Definition store_log (id : string) (file : option EventFile) (logs : EventLogs) : EventLogs := partial_alter (λ _, file) id logs.

Definition append_next_task_event (fault : AppendFault) (checkpoint : CheckpointT) (wal : option (list Z)) (task_id : string)
    (event : DaemonEvent) (logs : EventLogs) : option (result EventError Frame * EventLogs) :=
  match checked_task_storage_id task_id with
  | Err e => Some (Err e, logs)
  | Ok id =>
      match preflight_task_event id event with
      | Err e => Some (Err e, logs)
      | Ok _ =>
          admitted ← require_continuable_task_admission checkpoint wal id;
          Some (match admitted with
                | Err e => (Err e, logs)
                | Ok _ =>
                    let '(answer, file) := append_next_task_event_admitted fault id event (logs !! id) in
                    (answer, store_log id file logs)
                end)
      end
  end.

Definition append_next_task_event_with_authority (fault : AppendFault)
    (authority : RegistryAdmissionAuthority (TBody := TBody) (WBody := WBody)) (task_id : string) (event : DaemonEvent)
    (logs : EventLogs) : result EventError Frame * EventLogs :=
  match (id ← checked_task_storage_id task_id;
         authority_require_continuable_task authority id ;;
         preflight_task_event id event ;;
         Ok id) with
  | Err e => (Err e, logs)
  | Ok id =>
      let '(answer, file) := append_next_task_event_admitted fault id event (logs !! id) in
      (answer, store_log id file logs)
  end.

(** [append_task_event] with [append_task_event_for]. *)
Definition append_task_event (fault : AppendFault) (checkpoint : CheckpointT) (wal : option (list Z)) (frame : Frame)
    (logs : EventLogs) : option (result EventError () * EventLogs) :=
  match (id ← checked_task_storage_id (frame_task_id frame); bytes ← encode_task_event_frame id frame; Ok (id, bytes)) with
  | Err e => Some (Err e, logs)
  | Ok (id, bytes) =>
      admitted ← require_continuable_task_admission checkpoint wal id;
      Some (match admitted with
            | Err e => (Err e, logs)
            | Ok _ =>
                let '(answer, file) := with_locked_log fault (logs !! id) (append_locked_task_event fault id frame bytes) in
                (answer, store_log id file logs)
            end)
  end.

(** [task_event_log_tail_sequence]: the registry is that of the checkpoint. *)
Definition task_event_log_tail_sequence (checkpoint : CheckpointT) (task_id : string) (logs : EventLogs)
    : result EventError (option Z) :=
  id ← checked_task_storage_id task_id;
  require_registered_task_storage_id (cp_tasks checkpoint) id ;;
  task_event_log_tail_sequence_admitted id (ef_bytes <$> logs !! id).

(** ** Reading pages *)

(** The start of the line that ends at [offset], within a window of the file. *)
Fixpoint rposition_newline (window : list Z) : option nat :=
  match window with
  | [] => None
  | b :: window => match rposition_newline window with
                   | Some i => Some (S i)
                   | None => if b =? line_end then Some 0%nat else None
                   end
  end.

Definition task_event_sequence_before_offset (task_id : string) (file : list Z) (offset : Z) : result EventError (option Z) :=
  if offset =? 0 then Ok None
  else
    let window_bytes := MAX_TASK_EVENT_LINE_BYTES + 3 in
    let window_start := saturating_sub offset window_bytes in
    let window := read_at file window_start (offset - window_start) in
    ensure ((file_len window =? offset - window_start) && ends_with_newline window)
      (InvalidTaskEventFrame "task event replay offset is not a complete-frame boundary") ;;
    let line := removelast window in
    let predecessor_start := match rposition_newline line with Some i => S i | None => 0%nat end in
    ensure (negb (negb (window_start =? 0) && (Z.of_nat predecessor_start =? 0)))
      (EventLimitExceeded "event-line bytes" window_bytes MAX_TASK_EVENT_LINE_BYTES) ;;
    frame ← decode_complete_task_event_frame task_id (drop predecessor_start line);
    Ok (Some (seq frame)).

Record TaskEventPageOutcome : Type := mkPageOutcome {
  page_events : list Frame;
  next_offset : Z;
  at_end : bool;
  log_len : Z
}.

(** The page takes no further line. *)
Definition page_full (events : list Frame) (page_bytes : Z) : bool :=
  let remaining := saturating_sub MAX_TASK_EVENT_PAGE_BYTES page_bytes in
  (MAX_TASK_EVENT_PAGE_FRAMES <=? Z.of_nat (length events)) || (remaining =? 0)
  || ((0 <? page_bytes) && (remaining <? MAX_TASK_EVENT_LINE_BYTES + 1)).

Definition check_page_sequence (previous : option Z) (frame : Frame) : result EventError () :=
  expected ← next_task_event_sequence previous;
  ensure (seq frame =? expected) (InvalidTaskEventFrame "task event sequence is not contiguous").

(** The loop over the lines of a page, on fuel as in [inspect_lines]. *)
Fixpoint page_lines (fuel : nat) (task_id : string) (len : Z) (rest : list Z) (next_offset page_bytes : Z) (previous : option Z)
    (events : list Frame) : result EventError TaskEventPageOutcome :=
  if page_full events page_bytes then Ok (mkPageOutcome events next_offset false len)
  else
    match fuel with
    | O => Ok (mkPageOutcome events next_offset true len)
    | S fuel =>
        let read_limit := Z.min (saturating_sub MAX_TASK_EVENT_PAGE_BYTES page_bytes) (MAX_TASK_EVENT_LINE_BYTES + 1) in
        let line := read_until read_limit rest in
        if bool_decide (line = []) then Ok (mkPageOutcome events next_offset true len)
        else if negb (ends_with_newline line) then
          check_line_len line ;;
          Ok (mkPageOutcome events next_offset (file_len line <? read_limit) len)
        else
          check_line_len (removelast line) ;;
          frame ← decode_complete_task_event_frame task_id (removelast line);
          check_page_sequence previous frame ;;
          page_lines fuel task_id len (drop (length line) rest) (saturating_add u64_max next_offset (file_len line))
            (saturating_add usize_max page_bytes (file_len line)) (Some (seq frame)) (events ++ [frame])
    end.

Definition read_locked_task_event_page (task_id : string) (file : list Z) (offset : Z) : result EventError TaskEventPageOutcome :=
  let len := file_len file in
  let start := Z.min offset len in
  previous ← task_event_sequence_before_offset task_id file start;
  let rest := drop (Z.to_nat start) file in
  page_lines (length rest) task_id len rest start 0 previous [].

Definition load_task_event_page (task_id : string) (file : option (list Z)) (offset : Z) : result EventError TaskEventPageOutcome :=
  match file with
  | None => Ok (mkPageOutcome [] 0 true 0)
  | Some file => read_locked_task_event_page task_id file offset
  end.

Definition load_task_events_from_offset (task_id : string) (file : option (list Z)) (offset : Z)
    : result EventError (list Frame * Z) :=
  id ← checked_task_storage_id task_id;
  outcome ← load_task_event_page id file offset;
  Ok (page_events outcome, next_offset outcome).

(** ** Loading a log *)

Definition check_whole_log (len : Z) : result EventError () :=
  ensure (len <=? MAX_TASK_EVENT_LOAD_BYTES) (EventLimitExceeded "whole-log bytes" len MAX_TASK_EVENT_LOAD_BYTES).

(** The loop of [load_task_events]; the log may grow between two pages, each
    of which finds it as [log] says.  [None]: out of fuel. *)
Fixpoint load_pages (fuel : nat) (log : nat → option (list Z)) (task_id : string) (page : nat) (offset : Z) (events : list Frame)
    : option (result EventError (list Frame)) :=
  match fuel with
  | O => None
  | S fuel =>
      match (outcome ← load_task_event_page task_id (log page) offset;
             check_whole_log (log_len outcome) ;;
             let next_count := Z.of_nat (length events + length (page_events outcome)) in
             ensure (next_count <=? MAX_TASK_EVENT_LOAD_FRAMES)
               (EventLimitExceeded "whole-log decoded frames" next_count MAX_TASK_EVENT_LOAD_FRAMES) ;;
             Ok outcome) with
      | Err e => Some (Err e)
      | Ok outcome =>
          let events := events ++ page_events outcome in
          if at_end outcome || (next_offset outcome <=? offset) then Some (Ok events)
          else load_pages fuel log task_id (S page) (next_offset outcome) events
      end
  end.

Definition load_task_events (fuel : nat) (log : nat → option (list Z)) (task_id : string) : option (result EventError (list Frame)) :=
  match (id ← checked_task_storage_id task_id;
         check_whole_log (match log 0%nat with Some file => file_len file | None => 0 end) ;; Ok id) with
  | Err e => Some (Err e)
  | Ok id => load_pages fuel log id 1 0 []
  end.
End Events.
