(* ===== verification/EventLogSpec.v ===== *)
(** * EventLogSpec: a log of lines is a numbered list of frames

    What a log holds as a list of frames with a torn suffix, and that the
    inspection accepts exactly the logs that hold frames numbered from 1. *)

From S2P Require Export EventLog.
Local Open Scope Z_scope.

(** ** Lines *)

Definition log_lines (ls : list (list Z)) : list Z := ls ≫= (λ l, l ++ [line_end]).

Lemma log_lines_cons l ls : log_lines (l :: ls) = l ++ line_end :: log_lines ls.
Proof. unfold log_lines. simpl. by rewrite <- app_assoc. Qed.
Lemma log_lines_app ls ls' : log_lines (ls ++ ls') = log_lines ls ++ log_lines ls'.
Proof. unfold log_lines. apply bind_app. Qed.
Lemma log_lines_snoc ls l : log_lines (ls ++ [l]) = log_lines ls ++ l ++ [line_end].
Proof. rewrite log_lines_app. unfold log_lines at 2. simpl. by rewrite app_nil_r. Qed.

Lemma read_until_line limit l rest : line_end ∉ l → file_len l < limit → read_until limit (l ++ line_end :: rest) = l ++ [line_end].
Proof.
  unfold file_len. revert limit. induction l as [|b l IH]; intros limit Hl Hlen; simpl in *.
  - destruct (Z.leb_spec limit 0); [lia|]. done.
  - apply not_elem_of_cons in Hl as [Hb Hl]. destruct (Z.leb_spec limit 0); [lia|].
    destruct (Z.eqb_spec b line_end); [congruence|]. rewrite IH; [done|done|lia].
Qed.
Lemma read_until_torn limit t : line_end ∉ t → file_len t <= limit → read_until limit t = t.
Proof.
  unfold file_len. revert limit. induction t as [|b t IH]; intros limit Ht Hlen; simpl in *; [done|].
  apply not_elem_of_cons in Ht as [Hb Ht]. destruct (Z.leb_spec limit 0); [lia|].
  destruct (Z.eqb_spec b line_end); [congruence|]. rewrite IH; [done|done|lia].
Qed.

(** What a bounded read returns: a line, or bytes without a newline. *)
Lemma read_until_cases limit rest : 0 < limit →
  (∃ l rest', read_until limit rest = l ++ [line_end] ∧ rest = l ++ line_end :: rest' ∧ line_end ∉ l ∧ file_len l < limit) ∨
  (∃ rest', rest = read_until limit rest ++ rest' ∧ line_end ∉ read_until limit rest ∧ (rest' = [] ∨ file_len (read_until limit rest) = limit)).
Proof.
  unfold file_len. revert limit. induction rest as [|b rest IH]; intros limit Hl; cbn [read_until].
  - right. exists []. split; [done|]. split; [apply not_elem_of_nil|by left].
  - destruct (Z.leb_spec limit 0); [lia|]. destruct (Z.eqb_spec b line_end) as [->|Hb].
    { left. exists [], rest. split_and!; [done|done|apply not_elem_of_nil|simpl; lia]. }
    destruct (decide (limit = 1)) as [->|H1].
    { right. exists rest. destruct rest as [|b' rest]; simpl.
      - split; [done|]. split; [|by right]. apply not_elem_of_cons. split; [done|apply not_elem_of_nil].
      - split; [done|]. split; [|by right]. apply not_elem_of_cons. split; [done|apply not_elem_of_nil]. }
    destruct (IH (limit - 1)) as [(l & rest' & H2 & H3 & H4 & H5)|(rest' & H2 & H3 & H4)]; [lia| |].
    + left. exists (b :: l), rest'. rewrite H2. split_and!; [done|by rewrite H3|by apply not_elem_of_cons|simpl; lia].
    + right. exists rest'. split; [simpl; by rewrite <- H2|]. split; [by apply not_elem_of_cons|].
      destruct H4 as [?|?]; [by left|right; simpl; lia].
Qed.

Lemma line_unique l l' rest rest' : line_end ∉ l → line_end ∉ l' → l ++ line_end :: rest = l' ++ line_end :: rest' → l = l' ∧ rest = rest'.
Proof.
  revert l'. induction l as [|b l IH]; intros [|b' l'] Hl Hl' E; simpl in *.
  - by injection E.
  - injection E as <- _. set_solver.
  - injection E as -> _. set_solver.
  - injection E as -> E. apply IH in E as [-> ->]; [done|set_solver..].
Qed.

Lemma ends_with_newline_snoc l : ends_with_newline (l ++ [line_end]) = true.
Proof. unfold ends_with_newline. by rewrite bool_decide_eq_true, last_snoc. Qed.
Lemma ends_with_newline_torn t : line_end ∉ t → ends_with_newline t = false.
Proof.
  intros Ht. unfold ends_with_newline. apply bool_decide_eq_false. intros H. apply Ht. by apply last_Some_elem_of.
Qed.
Lemma file_len_app a b : file_len (a ++ b) = file_len a + file_len b.
Proof. unfold file_len. rewrite length_app. lia. Qed.
Lemma file_len_nonneg a : 0 <= file_len a.
Proof. unfold file_len. lia. Qed.

(** ** The frames of a log *)

Section Spec.
Context {DaemonEvent : Type}.
Local Abbreviation Frame := (DaemonEventFrame DaemonEvent).
Context (from_slice : list Z → option Frame) (stream : list Z → JsonStream * bool).
Local Abbreviation decode := (decode_complete_task_event_frame from_slice stream).

Definition numbered (n : nat) (fs : list Frame) : Prop := ∀ i f, fs !! i = Some f → seq f = Z.of_nat (n + i + 1).
Definition is_line (id : string) (l : list Z) (f : Frame) : Prop := line_end ∉ l ∧ decode id l = Ok f.

(** The bytes are lines of the frames [fs], numbered after [n], with a torn
    suffix. *)
Record holds_frames (id : string) (n : nat) (file : list Z) (ls : list (list Z)) (fs : list Frame) (t : list Z) : Prop := {
  hf_file : file = log_lines ls ++ t;
  hf_lines : Forall2 (is_line id) ls fs;
  hf_numbered : numbered n fs;
  hf_bound : Z.of_nat (n + length fs) <= u64_max;
  hf_torn : line_end ∉ t ∧ file_len t <= MAX_TASK_EVENT_LINE_BYTES
}.

Lemma numbered_cons n f fs : numbered n (f :: fs) ↔ seq f = Z.of_nat (S n) ∧ numbered (S n) fs.
Proof.
  split.
  - intros H. split; [rewrite (H 0%nat f eq_refl); lia|]. intros i g Hg. rewrite (H (S i) g Hg). lia.
  - intros [Hf H] [|i] g Hg; [injection Hg as <-; lia|]. rewrite (H i g Hg). lia.
Qed.
Lemma numbered_snoc n fs f : numbered n fs → seq f = Z.of_nat (n + length fs + 1) → numbered n (fs ++ [f]).
Proof.
  intros H Hf i g Hg. apply lookup_snoc_Some in Hg as [[_ Hg]|[-> <-]]; [by apply H|exact Hf].
Qed.
Lemma numbered_drop n k fs : numbered n fs → numbered (n + k) (drop k fs).
Proof. intros H i f Hf. rewrite lookup_drop in Hf. rewrite (H _ _ Hf). lia. Qed.
Lemma numbered_prefix n fs fs' : fs `prefix_of` fs' → numbered n fs' → numbered n fs.
Proof. intros Hp H i f Hf. apply H. by eapply prefix_lookup_Some. Qed.

Lemma strip_cr_length l : file_len (strip_cr l) <= file_len l <= file_len (strip_cr l) + 1.
Proof.
  unfold strip_cr, file_len. case_bool_decide as H; [|lia]. apply last_Some in H as [l' ->].
  rewrite removelast_last, length_app. simpl. lia.
Qed.
Lemma decode_len id l f : decode id l = Ok f → file_len l <= MAX_TASK_EVENT_LINE_BYTES + 1.
Proof.
  unfold decode_complete_task_event_frame, check_line_len. intros H. apply bind_Ok_inv in H as (u & H & _).
  apply ensure_Ok_inv, Z.leb_le in H. pose proof (strip_cr_length l). lia.
Qed.

(** ** The inspection *)

(** The tail before the frames that follow [n]. *)
Definition tail_at (n : nat) (tail : option Frame) : Prop := match tail with None => n = 0%nat | Some f => n ≠ 0%nat ∧ seq f = Z.of_nat n end.
Definition tail_of (tail : option Frame) (fs : list Frame) : option Frame := match list.last fs with Some f => Some f | None => tail end.

Lemma next_sequence_spec n m : next_task_event_sequence (Some n) = Ok m ↔ m = n + 1 ∧ n + 1 <= u64_max.
Proof. unfold next_task_event_sequence. by rewrite ok_or_Ok_inv, checked_add_Some. Qed.
Lemma check_contiguous_spec n tail f u : tail_at n tail →
  check_contiguous tail f = Ok u ↔ seq f = Z.of_nat (S n) ∧ Z.of_nat (S n) <= u64_max.
Proof.
  intros Ht. destruct u, tail as [g|]; simpl in *; unfold check_contiguous.
  - destruct Ht as [_ Ht]. rewrite bind_Ok_inv. setoid_rewrite next_sequence_spec. setoid_rewrite ensure_Ok_inv.
    setoid_rewrite Z.eqb_eq. rewrite Ht, Nat2Z.inj_succ, <- Z.add_1_r. naive_solver.
  - subst n. rewrite ensure_Ok_inv, Z.eqb_eq. split; [|by intros []]. intros ->. split; [done|discriminate].
Qed.
Lemma tail_of_cons tail f fs : tail_of tail (f :: fs) = tail_of (Some f) fs.
Proof. unfold tail_of. rewrite last_cons. by destruct (list.last fs). Qed.

Lemma holds_frames_cons id n l ls f fs rest t : line_end ∉ l →
  holds_frames id n (l ++ line_end :: rest) (l :: ls) (f :: fs) t ↔
  decode id l = Ok f ∧ seq f = Z.of_nat (S n) ∧ holds_frames id (S n) rest ls fs t.
Proof.
  intros Hl. split.
  - intros [H1 H2 H3 H4 H5]. apply Forall2_cons in H2 as [[_ Hd] H2]. apply numbered_cons in H3 as [Hf H3]. split; [done|]. split; [done|].
    split; try done; [|simpl in H4; lia]. rewrite log_lines_cons, <- app_assoc in H1. simpl in H1. by simplify_list_eq.
  - intros (Hd & Hf & [H1 H2 H3 H4 H5]). split; try done.
    + by rewrite log_lines_cons, H1, <- app_assoc.
    + by constructor.
    + by apply numbered_cons.
    + simpl. lia.
Qed.

Lemma holds_frames_line id n l rest ls fs t : line_end ∉ l → holds_frames id n (l ++ line_end :: rest) ls fs t →
  ∃ ls' f fs', ls = l :: ls' ∧ fs = f :: fs' ∧ decode id l = Ok f ∧ seq f = Z.of_nat (S n) ∧ Z.of_nat (S n) <= u64_max ∧
    holds_frames id (S n) rest ls' fs' t.
Proof.
  intros Hl H. destruct ls as [|l' ls].
  { exfalso. destruct H as [H1 _ _ _ [H5 _]]. simpl in H1. apply H5. rewrite <- H1. set_solver. }
  pose proof (hf_lines _ _ _ _ _ _ H) as Hls. apply Forall2_cons_inv_l in Hls as (f & fs' & [Hl' _] & _ & ->).
  pose proof (hf_file _ _ _ _ _ _ H) as Hfile. rewrite log_lines_cons, <- app_assoc in Hfile. simpl in Hfile.
  apply line_unique in Hfile as [<- _]; [|done|done]. pose proof (hf_bound _ _ _ _ _ _ H) as Hb. simpl in Hb.
  apply holds_frames_cons in H as (Hd & Hf & H); [|done]. exists ls, f, fs'. split_and!; try done. lia.
Qed.

Lemma holds_frames_torn id n rest : line_end ∉ rest → Z.of_nat n <= u64_max → ∀ ls fs t,
  holds_frames id n rest ls fs t ↔ ls = [] ∧ fs = [] ∧ t = rest ∧ file_len rest <= MAX_TASK_EVENT_LINE_BYTES.
Proof.
  intros Hr Hn ls fs t. split.
  - intros [H1 H2 H3 H4 H5]. destruct ls as [|l ls]; [|exfalso; apply Hr; rewrite H1, log_lines_cons; set_solver].
    apply Forall2_nil_inv_l in H2 as ->. simpl in H1. subst. by destruct H5.
  - intros (-> & -> & -> & H). split; [done|by apply Forall2_nil|by intros i f Hf; rewrite lookup_nil in Hf|by rewrite Nat.add_0_r|done].
Qed.

(** No log holds frames when a line is longer than the inspection reads. *)
Lemma holds_frames_long id n line rest ls fs t : line_end ∉ line → file_len line = MAX_TASK_EVENT_LINE_BYTES + 2 →
  ¬ holds_frames id n (line ++ rest) ls fs t.
Proof.
  intros Hl Hlen H. pose proof (hf_file _ _ _ _ _ _ H) as Hfile. destruct ls as [|l ls].
  - destruct (hf_torn _ _ _ _ _ _ H) as [_ Ht]. simpl in Hfile. rewrite <- Hfile, file_len_app in Ht.
    pose proof (file_len_nonneg rest). lia.
  - pose proof (hf_lines _ _ _ _ _ _ H) as Hls. apply Forall2_cons_inv_l in Hls as (f & fs' & [_ Hd] & _ & ->).
    apply decode_len in Hd. rewrite log_lines_cons, <- app_assoc in Hfile.
    assert (Hin : line !! length l = Some line_end).
    { rewrite <- (lookup_app_l _ rest) by (unfold file_len in *; lia). rewrite Hfile, lookup_app_r by lia. by rewrite Nat.sub_diag. }
    apply Hl. by eapply list_elem_of_lookup_2.
Qed.

#[local] Opaque decode_complete_task_event_frame check_contiguous.

(** The loop accepts exactly the bytes that hold frames. *)
Lemma inspect_lines_exact id fuel n rest c prev insp : (length rest ≤ fuel)%nat → tail_at n prev → Z.of_nat n <= u64_max →
  inspect_lines from_slice stream fuel id rest c prev = Ok insp ↔
  ∃ ls fs t, holds_frames id n rest ls fs t ∧
    insp = mkInspection (tail_of prev fs) (c + file_len (log_lines ls)) (negb (bool_decide (t = []))).
Proof.
  revert n rest c prev. induction fuel as [|fuel IH]; intros n rest c prev Hfuel Hprev Hn.
  - destruct rest; [|simpl in Hfuel; lia]. setoid_rewrite holds_frames_torn; [|apply not_elem_of_nil|done]. simpl. split.
    + intros [= <-]. exists [], [], []. rewrite Z.add_0_r. by split_and!.
    + intros (ls & fs & t & (-> & -> & -> & _) & ->). simpl. by rewrite Z.add_0_r.
  - cbn [inspect_lines]. destruct (read_until_cases (MAX_TASK_EVENT_LINE_BYTES + 2) rest) as [(l & rest' & -> & -> & Hl & Hlen)|(rest' & Hrest & Hl & Hend)]; [done| |].
    + rewrite bool_decide_eq_false_2 by (by destruct l). rewrite ends_with_newline_snoc, removelast_last. simpl negb. cbv iota.
      rewrite length_app. simpl length. replace (drop (length l + 1) (l ++ line_end :: rest')) with rest'
        by (change (line_end :: rest') with ([line_end] ++ rest'); by rewrite app_assoc, drop_app_length' by (rewrite length_app; simpl; lia)).
      rewrite length_app in Hfuel. simpl in Hfuel. rewrite bind_Ok_inv. setoid_rewrite bind_Ok_inv.
      setoid_rewrite (check_contiguous_spec n prev); [|done]. split.
      * intros (f & Hd & u & [Hf Hb] & Hi). apply (IH (S n)) in Hi as (ls & fs & t & H & ->); [|lia|split; [lia|done]|done].
        exists (l :: ls), (f :: fs), t. split; [apply holds_frames_cons; [done|]; split; [exact Hd|by split]|]. rewrite tail_of_cons, log_lines_cons. f_equal.
        unfold file_len. rewrite !length_app. simpl. lia.
      * intros (ls & fs & t & H & ->). apply holds_frames_line in H as (ls' & f & fs' & -> & -> & Hd & Hf & Hb & H); [|done].
        exists f. split; [done|]. exists (). split; [done|]. apply (IH (S n)); [lia|split; [lia|done]|done|].
        exists ls', fs', t. split; [done|]. rewrite tail_of_cons, log_lines_cons. f_equal. unfold file_len. rewrite !length_app. simpl. lia.
    + set (line := read_until _ rest) in *. rewrite (ends_with_newline_torn line Hl). cbn [negb]. case_bool_decide as Hline.
      { assert (rest = []) as -> by (destruct Hend as [->|Hend]; [by rewrite Hline, app_nil_r in Hrest|by rewrite Hline in Hend]).
        setoid_rewrite holds_frames_torn; [|apply not_elem_of_nil|done]. simpl. split.
        - intros [= <-]. exists [], [], []. rewrite Z.add_0_r. by split_and!.
        - intros (ls & fs & t & (-> & -> & -> & _) & ->). simpl. by rewrite Z.add_0_r. }
      destruct Hend as [->|Hend].
      * rewrite app_nil_r in Hrest. rewrite <- Hrest in *. setoid_rewrite holds_frames_torn; [|done..]. rewrite bind_Ok_inv.
        setoid_rewrite ensure_Ok_inv. setoid_rewrite Z.leb_le. split.
        -- intros (u & Hlen & [= <-]). exists [], [], rest. simpl. rewrite Z.add_0_r, bool_decide_eq_false_2 by done. by split_and!.
        -- intros (ls & fs & t & (-> & -> & -> & Hlen) & ->). exists (). simpl. by rewrite Z.add_0_r, bool_decide_eq_false_2.
      * rewrite Hend. simpl. split; [done|]. intros (ls & fs & t & H & _). rewrite Hrest in H. by apply holds_frames_long in H.
Qed.
End Spec.
