(* ===== verification/EventWriteSpec.v ===== *)
(** * EventWriteSpec: appends and power losses keep a log numbered

    An append leaves the lines of a log, or adds one; a power loss drops
    lines that were not acknowledged.  So a log holds, at its number, the line
    of every frame whose append was acknowledged. *)

From S2P Require Export EventLogSpec.
Local Open Scope Z_scope.

(** ** The codec of frames *)

(** What is relied on of [serde_json]: the JSON of a frame is one line that does
    not end in a carriage return, and the sequence shows in it as a decimal
    number only.  That a frame reads back is not relied on: without its
    [float_roundtrip] feature, which the workspace does not turn on, a number
    with a fraction may read back as a neighbour. *)
Record event_codec {DaemonEvent} (to_vec : DaemonEventFrame DaemonEvent → option (list Z))
    (stream : list Z → JsonStream * bool) : Prop := {
  ec_line f bytes : to_vec f = Some bytes → line_end ∉ bytes ∧ list.last bytes ≠ Some 13;
  ec_number id event : (∀ n, to_vec (mkEventFrame n id event) = None) ∨
    ∃ before after document, ∀ n, fits u64_max n →
      to_vec (mkEventFrame n id event) = Some (before ++ text_bytes (show_uint n) ++ after) ∧
      stream (before ++ text_bytes (show_uint n) ++ after) = document
}.

Section Write.
Context {DaemonEvent : Type}.
Local Abbreviation Frame := (DaemonEventFrame DaemonEvent).
Local Abbreviation EventLogs := (gmap string EventFile).
Context (to_vec : Frame → option (list Z)) (from_slice : list Z → option Frame) (stream : list Z → JsonStream * bool).
Context (Hcodec : event_codec to_vec stream).
Local Abbreviation encode := (encode_task_event_frame to_vec stream).
Local Abbreviation line_of := (is_line from_slice stream).

Lemma check_event_json_ok e e' bytes : check_event_json stream e bytes = Ok () → check_event_json stream e' bytes = Ok ().
Proof. unfold check_event_json. by destruct (validate_authority_json _ _ _). Qed.

Lemma encode_inv id f bytes : encode id f = Ok bytes ↔
  ∃ b, bytes = b ++ [line_end] ∧ to_vec f = Some b ∧ frame_task_id f = id ∧ file_len b <= MAX_TASK_EVENT_LINE_BYTES ∧
       ∀ e, check_event_json stream e b = Ok ().
Proof.
  unfold encode_task_event_frame, validate_task_event_frame_bytes, check_line_len. split.
  - intros H. apply bind_Ok_inv in H as ([] & Hid & H). apply bind_Ok_inv in H as (b & Hb & H). apply bind_Ok_inv in H as ([] & Hv & H).
    apply bind_Ok_inv in Hv as ([] & Hlen & Hjson). apply ensure_Ok_inv in Hid, Hlen. apply ok_or_Ok_inv in Hb. reflect_bool.
    injection H as <-. exists b. split_and!; try done. intros e. by eapply check_event_json_ok.
  - intros (b & -> & Hb & Hid & Hlen & Hjson). rewrite bool_decide_eq_true_2, Hb by done. simpl.
    rewrite (proj2 (Z.leb_le _ _) Hlen). simpl. by rewrite Hjson.
Qed.

(** What [serde_json] wrote for [f], when the checks admit it, it reads with the
    number and the task of [f]; the event may differ in its numbers with a
    fraction. *)
Definition reads_back (f : Frame) : Prop := ∀ b, fits u64_max (seq f) → to_vec f = Some b → (∀ e, check_event_json stream e b = Ok ()) →
  ∃ event, from_slice b = Some (mkEventFrame (seq f) (frame_task_id f) event).

(** A line that was encoded is the line of the frame read back. *)
Lemma encode_line id f bytes : encode id f = Ok bytes → reads_back f → fits u64_max (seq f) → seq f ≠ 0 →
  ∃ b g, bytes = b ++ [line_end] ∧ to_vec f = Some b ∧ from_slice b = Some g ∧ frame_task_id f = id ∧ seq g = seq f ∧
    line_of id b g ∧ file_len b <= MAX_TASK_EVENT_LINE_BYTES.
Proof.
  intros H Hreads Hfit Hseq. apply encode_inv in H as (b & -> & Hb & Hid & Hlen & Hjson).
  destruct (Hreads b Hfit Hb Hjson) as [event Hread]. eexists b, _. split_and!; [done|done|exact Hread|done|done| |done].
  destruct (ec_line _ _ Hcodec f b Hb) as [Hnl Hcr]. split; [done|]. unfold decode_complete_task_event_frame, strip_cr, check_line_len.
  rewrite bool_decide_eq_false_2, (proj2 (Z.leb_le _ _) Hlen) by done. simpl. rewrite Hjson. simpl.
  rewrite Hread. simpl. rewrite bool_decide_eq_true_2 by done. simpl.
  by rewrite (proj2 (Z.eqb_neq _ _) Hseq).
Qed.

(** The preflight at the largest sequence admits every sequence. *)
Lemma preflight_encodes id event n : preflight_task_event to_vec stream id event = Ok () → fits u64_max n →
  ∃ bytes, encode id (mkEventFrame n id event) = Ok bytes.
Proof.
  unfold preflight_task_event. intros H Hn. apply bind_Ok_inv in H as (bytes & H & _). apply encode_inv in H as (b & _ & Hb & _ & Hlen & Hjson).
  assert (Hmax : fits u64_max u64_max) by (split; [discriminate|apply Z.le_refl]).
  destruct (ec_number _ _ Hcodec id event) as [Hnone|(before & after & document & Hall)]; [by rewrite Hnone in Hb|].
  destruct (Hall _ Hmax) as [Hb' Hdoc]. rewrite Hb in Hb'. apply (inj Some) in Hb' as ->. destruct (Hall n Hn) as [Hbn Hdocn].
  exists ((before ++ text_bytes (show_uint n) ++ after) ++ [line_end]). apply encode_inv.
  exists (before ++ text_bytes (show_uint n) ++ after). split_and!; try done.
  - unfold file_len in *. rewrite !length_app, !length_text_bytes in *. pose proof (show_uint_length n u64_max Hn). lia.
  - intros e. specialize (Hjson e). unfold check_event_json in *. rewrite Hdoc in Hjson. by rewrite Hdocn.
Qed.

(** ** The state of a log *)

(** Lines as the program writes them. *)
Record written (id : string) (bytes : list Z) (ls : list (list Z)) (fs : list Frame) (t : list Z) : Prop := {
  wr_frames : holds_frames from_slice stream id 0 bytes ls fs t;
  wr_short : Forall (λ l, file_len l <= MAX_TASK_EVENT_LINE_BYTES) ls
}.

(** A log with its frames [fs], of which the first [k] survive a power loss. *)
Record log_state (id : string) (file : EventFile) (ls : list (list Z)) (fs : list Frame) (k : nat) : Prop := {
  lg_written : ∃ t, written id (ef_bytes file) ls fs t;
  lg_kept : (k ≤ length fs)%nat;
  lg_durable : (length (log_lines (take k ls)) ≤ ef_synced file)%nat;
  lg_synced : (ef_synced file ≤ length (ef_bytes file))%nat
}.

Lemma written_nil id : written id [] [] [] [].
Proof. split; [|constructor]. apply holds_frames_torn; [apply not_elem_of_nil|done|by split_and!]. Qed.
Lemma log_state_new id : log_state id (mkEventFile [] 0) [] [] 0.
Proof. split; [exists []; apply written_nil|done..]. Qed.

Lemma written_torn id ls fs t t' : written id (log_lines ls ++ t) ls fs t → line_end ∉ t' → file_len t' <= MAX_TASK_EVENT_LINE_BYTES →
  written id (log_lines ls ++ t') ls fs t'.
Proof. intros [[H1 H2 H3 H4 H5] H6] Ht' Hlen. split; [by split|done]. Qed.

Lemma written_snoc id ls fs t b f : written id (log_lines ls ++ t) ls fs t → line_of id b f → file_len b <= MAX_TASK_EVENT_LINE_BYTES →
  seq f = Z.of_nat (length fs + 1) → Z.of_nat (length fs + 1) <= u64_max →
  written id (log_lines ls ++ b ++ [line_end]) (ls ++ [b]) (fs ++ [f]) [].
Proof.
  intros [[H1 H2 H3 H4 H5] H6] Hl Hlen Hseq Hb. split; [|apply Forall_app; split; [done|by constructor]]. split.
  - by rewrite log_lines_snoc, app_nil_r.
  - apply Forall2_app; [done|]. by constructor.
  - apply numbered_snoc; [done|]. by rewrite Hseq.
  - rewrite length_app. simpl. lia.
  - split; [apply not_elem_of_nil|done].
Qed.

Lemma written_inspect id bytes ls fs t : written id bytes ls fs t →
  inspect_locked_task_event_tail from_slice stream id bytes =
    Ok (mkInspection (list.last fs) (file_len (log_lines ls)) (negb (bool_decide (t = [])))).
Proof.
  intros [H _]. unfold inspect_locked_task_event_tail.
  apply (inspect_lines_exact from_slice stream id _ 0); [done|done|discriminate|]. exists ls, fs, t. split; [done|].
  unfold tail_of. by destruct (list.last fs).
Qed.
Lemma last_numbered (fs : list Frame) : numbered 0 fs → default 0 (seq <$> list.last fs) = Z.of_nat (length fs).
Proof.
  intros H. destruct fs as [|f fs _] using rev_ind; [done|]. rewrite last_snoc, length_app. simpl.
  rewrite (H (length fs) f); [lia|]. rewrite lookup_app_r by lia. by rewrite Nat.sub_diag.
Qed.

(** ** One append *)

Lemma newline_free_prefix (l t : list Z) : line_end ∉ l → t `prefix_of` l → line_end ∉ t.
Proof. intros Hl [t' ->]. by apply not_elem_of_app in Hl as [? _]. Qed.

(** A write that is cut leaves a torn suffix or the whole line. *)
Lemma take_line (written : nat) b : line_end ∉ b →
  take written (b ++ [line_end]) = b ++ [line_end] ∨
  line_end ∉ take written (b ++ [line_end]) ∧ file_len (take written (b ++ [line_end])) <= file_len b.
Proof.
  intros Hb. destruct (decide (length b < written)%nat) as [Hw|Hw].
  - left. apply take_ge. rewrite length_app. simpl. lia.
  - right. rewrite take_app_le by lia. split; [eapply newline_free_prefix; [exact Hb|apply prefix_take]|].
    unfold file_len. rewrite length_take. lia.
Qed.

Lemma log_lines_take_le k ls : (length (log_lines (take k ls)) ≤ length (log_lines ls))%nat.
Proof. rewrite <- (take_drop k ls) at 2. rewrite log_lines_app, length_app. lia. Qed.

Lemma written_kept id bytes ls fs t : written id bytes ls fs t → length ls = length fs ∧ (length (log_lines ls) ≤ length bytes)%nat.
Proof. intros [[-> H _ _ _] _]. split; [by eapply Forall2_length|]. rewrite length_app. lia. Qed.

Lemma log_state_bytes id file ls fs k bytes synced t : log_state id file ls fs k → written id bytes ls fs t →
  (length (log_lines (take k ls)) ≤ synced ≤ length bytes)%nat → log_state id (mkEventFile bytes synced) ls fs k.
Proof. intros [_ Hk _ _] Hw [H1 H2]. split; simpl; [by exists t|done..]. Qed.

Lemma log_state_snoc id file ls fs k bytes synced b f : log_state id file ls fs k →
  written id bytes (ls ++ [b]) (fs ++ [f]) [] → length ls = length fs →
  (length (log_lines (take k ls)) ≤ synced ≤ length bytes)%nat → log_state id (mkEventFile bytes synced) (ls ++ [b]) (fs ++ [f]) k.
Proof.
  intros [_ Hk _ _] Hw Hlen [H1 H2]. split; simpl; [by exists []|rewrite length_app; lia| |done]. by rewrite take_app_le by lia.
Qed.

Lemma truncate_state id fault file ls fs t k answer file' : log_state id file ls fs k → written id (ef_bytes file) ls fs t →
  truncate_partial_suffix fault (mkInspection (list.last fs) (file_len (log_lines ls)) (negb (bool_decide (t = [])))) file = (answer, file') →
  log_state id file' ls fs k ∧ (answer = Ok () → ef_bytes file' = log_lines ls) ∧ (fault = NoFault → answer = Ok ()).
Proof.
  intros Hst Hw. pose proof (hf_file _ _ _ _ _ _ _ _ (wr_frames _ _ _ _ _ Hw)) as Hfile. unfold truncate_partial_suffix.
  cbn [has_partial_suffix complete_len]. case_bool_decide as Ht; cbn [negb].
  { intros [= <- <-]. split; [done|]. rewrite Hfile, Ht, app_nil_r. done. }
  pose proof (lg_durable _ _ _ _ _ Hst) as Hd. pose proof (log_lines_take_le k ls) as Hk.
  assert (Hcut : take (Z.to_nat (file_len (log_lines ls))) (ef_bytes file) = log_lines ls).
  { unfold file_len. by rewrite Nat2Z.id, Hfile, take_app_length. }
  assert (Hw' : written id (log_lines ls) ls fs []).
  { rewrite <- (app_nil_r (log_lines ls)) at 1. apply (written_torn _ _ _ t); [by rewrite <- Hfile|apply not_elem_of_nil|done]. }
  assert (Hset : log_state id (set_len file (file_len (log_lines ls))) ls fs k).
  { unfold set_len. rewrite Hcut. apply (log_state_bytes id file ls fs k _ _ []); [done|done|]. unfold file_len. rewrite Nat2Z.id. lia. }
  assert (Hsync : log_state id (sync_task_event_file (set_len file (file_len (log_lines ls)))) ls fs k).
  { unfold sync_task_event_file. unfold set_len at 1 2. cbn [ef_bytes]. rewrite Hcut.
    apply (log_state_bytes id file ls fs k _ _ []); [done|done|]. lia. }
  destruct fault; intros [= <- <-]; (split; [done|split; [first [done|intros _; exact Hcut]|done]]).
Qed.

Lemma write_synced_state id fault file ls fs b f k answer file' :
  log_state id file ls fs k → ef_bytes file = log_lines ls → line_of id b f → file_len b <= MAX_TASK_EVENT_LINE_BYTES →
  seq f = Z.of_nat (length fs + 1) → Z.of_nat (length fs + 1) <= u64_max →
  write_synced fault (b ++ [line_end]) file = (answer, file') →
  (log_state id file' ls fs k ∨ log_state id file' (ls ++ [b]) (fs ++ [f]) k) ∧
  (answer = Ok () → log_state id file' (ls ++ [b]) (fs ++ [f]) (length fs + 1)) ∧
  (fault = NoFault → answer = Ok ()).
Proof.
  intros Hst Hfile Hline Hlen Hseq Hmax. destruct (lg_written _ _ _ _ _ Hst) as [t Hw].
  pose proof (proj1 (written_kept _ _ _ _ _ Hw)) as Hls. pose proof (hf_file _ _ _ _ _ _ _ _ (wr_frames _ _ _ _ _ Hw)) as Ht.
  assert (Hlong : ∀ m, (length (log_lines (take k ls)) ≤ ef_synced file ≤ length (log_lines ls ++ m))%nat).
  { intros m. destruct Hst as [_ _ H1 H2]. rewrite Hfile in H2. rewrite length_app. lia. }
  rewrite Ht in Hw. pose proof (written_snoc _ _ _ _ _ _ Hw Hline Hlen Hseq Hmax) as Hw'.
  assert (Hwhole : log_state id (write_all file (b ++ [line_end])) (ls ++ [b]) (fs ++ [f]) k).
  { unfold write_all. rewrite Hfile. by apply (log_state_snoc id file). }
  assert (Hsync : log_state id (sync_task_event_file (write_all file (b ++ [line_end]))) (ls ++ [b]) (fs ++ [f]) (length fs + 1)).
  { unfold sync_task_event_file, write_all. cbn [ef_bytes]. rewrite Hfile. split; simpl; [by exists []|rewrite length_app; simpl; lia| |lia].
    rewrite <- log_lines_snoc. apply log_lines_take_le. }
  assert (Hsync' : log_state id (sync_task_event_file (write_all file (b ++ [line_end]))) (ls ++ [b]) (fs ++ [f]) k).
  { destruct Hsync as [H1 H2 H3 H4]. destruct Hst as [_ Hk H5 H6]. split; [done|lia| |done].
    rewrite take_app_le by lia. unfold sync_task_event_file, write_all in *. cbn [ef_bytes ef_synced] in *. rewrite Hfile, length_app.
    pose proof (log_lines_take_le k ls). lia. }
  destruct fault as [| | | | |n| |]; intros [= <- <-]; try (split; [by right|done]).
  split; [|done]. destruct (take_line n b (proj1 Hline)) as [->|[H1 H2]]; [by right|left].
  unfold write_all. rewrite Hfile. apply (log_state_bytes id file ls fs k _ _ (take n (b ++ [line_end]))); [done| |apply Hlong].
  apply (written_torn _ _ _ t); [done..|lia].
Qed.

(** The end of an append: the line is added, or the log keeps its frames; the
    line of an acknowledged append is durable. *)
Lemma write_event_line_state id fault file ls fs t b f k answer file' :
  log_state id file ls fs k → written id (ef_bytes file) ls fs t → line_of id b f → file_len b <= MAX_TASK_EVENT_LINE_BYTES →
  seq f = Z.of_nat (length fs + 1) → Z.of_nat (length fs + 1) <= u64_max →
  write_event_line fault (mkInspection (list.last fs) (file_len (log_lines ls)) (negb (bool_decide (t = [])))) (b ++ [line_end]) file
    = (answer, file') →
  (log_state id file' ls fs k ∨ log_state id file' (ls ++ [b]) (fs ++ [f]) k) ∧
  (answer = Ok () → log_state id file' (ls ++ [b]) (fs ++ [f]) (length fs + 1)) ∧
  (fault = NoFault → answer = Ok ()).
Proof.
  intros Hst Hw Hline Hlen Hseq Hmax. unfold write_event_line.
  destruct (truncate_partial_suffix _ _ _) as [answer1 file1] eqn:H1. destruct (truncate_state _ _ _ _ _ _ _ _ _ Hst Hw H1) as (Hst1 & Hbytes & Hok).
  destruct answer1 as [[]|e].
  - intros H2. apply (write_synced_state id fault file1 ls fs b f k); try done. by apply Hbytes.
  - intros [= <- <-]. split; [by left|]. split; [done|]. intros H. by apply Hok in H.
Qed.

Lemma write_event_line_whole ls t bytes (tail : option Frame) file : ef_bytes file = log_lines ls ++ t →
  write_event_line NoFault (mkInspection tail (file_len (log_lines ls)) (negb (bool_decide (t = [])))) bytes file =
    (Ok (), mkEventFile (log_lines ls ++ bytes) (length (log_lines ls ++ bytes))).
Proof.
  intros Hfile. unfold write_event_line, truncate_partial_suffix. cbn [has_partial_suffix complete_len].
  case_bool_decide as Ht; cbn [negb]; unfold write_synced, write_all, sync_task_event_file, set_len; cbn [ef_bytes].
  - by rewrite Hfile, Ht, app_nil_r.
  - unfold file_len. by rewrite Nat2Z.id, Hfile, take_app_length.
Qed.

(** ** The two appends *)

(** The log of a task, empty when it has no file. *)
Definition slot_state (id : string) (slot : option EventFile) : list (list Z) → list Frame → nat → Prop :=
  log_state id (open_append_file slot).

(** One more line, that of [f] at its number, and the frame it reads as. *)
Definition last_stored (id : string) (ls : list (list Z)) (fs : list Frame) (ls' : list (list Z)) (fs' : list Frame) (f : Frame) : Prop :=
  ∃ b g, ls' = ls ++ [b] ∧ fs' = fs ++ [g] ∧ to_vec f = Some b ∧ from_slice b = Some g ∧ frame_task_id f = id ∧ seq g = seq f ∧
    seq f = Z.of_nat (length fs + 1).

(** A log that held [ls], read as [fs], [k] of them durable, and what its append
    answered: they are kept, and an acknowledged one is durable at its number. *)
Definition grows (id : string) (ls : list (list Z)) (fs : list Frame) (k : nat) (slot : option EventFile) (acknowledged : option Frame) : Prop :=
  ∃ ls' fs' k', slot_state id slot ls' fs' k' ∧ ls `prefix_of` ls' ∧ fs `prefix_of` fs' ∧ (k ≤ k')%nat ∧
    ∀ f, acknowledged = Some f → last_stored id ls fs ls' fs' f ∧ k' = (length fs + 1)%nat.

Lemma grows_none id ls fs k slot : slot_state id slot ls fs k → grows id ls fs k slot None.
Proof. intros H. by exists ls, fs, k. Qed.
Lemma grows_forget id ls fs k slot a : grows id ls fs k slot a → grows id ls fs k slot None.
Proof. intros (ls' & fs' & k' & H1 & H2 & H3 & H4 & _). by exists ls', fs', k'. Qed.

Definition acknowledges {A} (g : A → Frame) (answer : result EventError A) : option Frame :=
  match answer with Ok a => Some (g a) | Err _ => None end.

Lemma with_locked_log_grows {A} id fault slot ls fs k (g : A → Frame) operation answer slot' :
  slot_state id slot ls fs k →
  (∀ answer file', operation (open_append_file slot) = (answer, file') → grows id ls fs k (Some file') (acknowledges g answer)) →
  with_locked_log fault slot operation = (answer, slot') → grows id ls fs k slot' (acknowledges g answer).
Proof.
  intros Hst Hop. unfold with_locked_log. destruct (operation (open_append_file slot)) as [answer1 file1] eqn:E.
  specialize (Hop _ _ eq_refl). destruct fault as [| |after| | | | |lost]; intros [= <- <-]; try exact Hop.
  - by eapply grows_none.
  - eapply grows_none. destruct after; exact Hst.
  - destruct answer1; by eapply grows_forget.
Qed.

(** The end of both appends, after their checks. *)
Lemma write_event_line_grows id fault file ls fs t b f g k answer file' :
  log_state id file ls fs k → written id (ef_bytes file) ls fs t → line_of id b g → file_len b <= MAX_TASK_EVENT_LINE_BYTES →
  to_vec f = Some b → from_slice b = Some g → frame_task_id f = id → seq g = seq f →
  seq f = Z.of_nat (length fs + 1) → Z.of_nat (length fs + 1) <= u64_max →
  write_event_line fault (mkInspection (list.last fs) (file_len (log_lines ls)) (negb (bool_decide (t = [])))) (b ++ [line_end]) file
    = (answer, file') →
  grows id ls fs k (Some file') (acknowledges (λ _, f) answer).
Proof.
  intros Hst Hw Hline Hlen Hb Hg Hid Hgf Hseq Hmax H. rewrite <- Hgf in Hseq.
  destruct (write_event_line_state _ _ _ _ _ _ _ _ _ _ _ Hst Hw Hline Hlen Hseq Hmax H) as (Hor & Hok & _).
  destruct answer as [[]|e]; simpl.
  - exists (ls ++ [b]), (fs ++ [g]), (length fs + 1)%nat. split; [by apply Hok|]. split; [by apply prefix_app_r|].
    split; [by apply prefix_app_r|]. split; [pose proof (lg_kept _ _ _ _ _ Hst); lia|]. intros h [= <-].
    split; [|done]. exists b, g. split_and!; try done. by rewrite <- Hgf.
  - destruct Hor as [Hor|Hor]; [by exists ls, fs, k|]. exists (ls ++ [b]), (fs ++ [g]), k.
    split; [done|]. split; [by apply prefix_app_r|]. split; [by apply prefix_app_r|]. by split.
Qed.

Lemma written_next id bytes ls fs t n : written id bytes ls fs t → next_task_event_sequence (seq <$> list.last fs) = Ok n ↔
  n = Z.of_nat (length fs + 1) ∧ Z.of_nat (length fs + 1) <= u64_max.
Proof.
  intros [[_ _ Hn _ _] _]. unfold next_task_event_sequence. rewrite (last_numbered fs Hn), ok_or_Ok_inv, checked_add_Some.
  rewrite Nat2Z.inj_add. done.
Qed.

Lemma append_next_grows id fault event slot ls fs k answer slot' : slot_state id slot ls fs k →
  (∀ n, reads_back (mkEventFrame n id event)) →
  append_next_task_event_admitted to_vec from_slice stream fault id event slot = (answer, slot') →
  grows id ls fs k slot' (acknowledges (λ f, f) answer).
Proof.
  intros Hst Hreads. apply with_locked_log_grows; [done|]. clear answer slot'. intros answer file'.
  destruct (lg_written _ _ _ _ _ Hst) as [t Hw]. rewrite (written_inspect id _ ls fs t Hw). cbn [mbind result_bind tail].
  destruct (next_task_event_sequence _) as [n|e] eqn:Hn; simpl; [|intros [= <- <-]; by eapply grows_none].
  apply (written_next _ _ _ _ _ _ Hw) in Hn as [-> Hmax].
  destruct (encode id _) as [bytes|e] eqn:Hbytes; simpl; [|intros [= <- <-]; by eapply grows_none].
  apply encode_line in Hbytes as (b & g & -> & Hb & Hg & Hid & Hgf & Hline & Hlen); [|apply Hreads|simpl; unfold fits; lia|simpl; lia].
  destruct (write_event_line _ _ _ _) as [answer1 file1] eqn:Hwrite. intros [= <- <-].
  eapply write_event_line_grows in Hwrite; [|done..]. by destruct answer1 as [[]|].
Qed.

Lemma append_locked_grows id fault f slot ls fs k bytes answer slot' : slot_state id slot ls fs k → encode id f = Ok bytes →
  reads_back f →
  with_locked_log fault slot (append_locked_task_event from_slice stream fault id f bytes) = (answer, slot') →
  grows id ls fs k slot' (acknowledges (λ _, f) answer).
Proof.
  intros Hst Hbytes Hreads. apply with_locked_log_grows; [done|]. clear answer slot'. intros answer file'. unfold append_locked_task_event.
  destruct (lg_written _ _ _ _ _ Hst) as [t Hw]. rewrite (written_inspect id _ ls fs t Hw). cbn [mbind result_bind tail].
  destruct (next_task_event_sequence _) as [n|e] eqn:Hn; simpl; [|intros [= <- <-]; by eapply grows_none].
  apply (written_next _ _ _ _ _ _ Hw) in Hn as [-> Hmax].
  destruct (Z.eqb_spec (seq f) (Z.of_nat (length fs + 1))) as [Hseq|Hseq]; simpl; [|intros [= <- <-]; by eapply grows_none].
  apply encode_line in Hbytes as (b & g & -> & Hb & Hg & Hid & Hgf & Hline & Hlen); [|done|unfold fits; lia|lia]. intros Hwrite.
  by eapply write_event_line_grows in Hwrite.
Qed.

(** ** Power loss *)

(** A cut keeps whole lines and a piece of the next one. *)
Lemma cut_lines n ls t : line_end ∉ t → Forall (λ l, line_end ∉ l) ls →
  ∃ m t', take n (log_lines ls ++ t) = log_lines (take m ls) ++ t' ∧ line_end ∉ t' ∧
    (t' `prefix_of` t ∨ ∃ l, l ∈ ls ∧ t' `prefix_of` l) ∧
    ∀ k, (k ≤ length ls)%nat → (length (log_lines (take k ls)) ≤ n)%nat → (k ≤ m)%nat.
Proof.
  intros Ht. revert n. induction ls as [|l ls IH]; intros n Hls.
  - exists 0%nat, (take n t). split; [done|]. split; [eapply newline_free_prefix; [exact Ht|apply prefix_take]|].
    split; [left; apply prefix_take|]. simpl. lia.
  - apply Forall_cons in Hls as [Hl Hls]. rewrite log_lines_cons. destruct (decide (n ≤ length l)%nat) as [Hn|Hn].
    + exists 0%nat, (take n l). split; [simpl; rewrite <- app_assoc; by rewrite take_app_le|].
      split; [eapply newline_free_prefix; [exact Hl|apply prefix_take]|].
      split; [right; exists l; split; [by left|apply prefix_take]|]. intros [|k] _ Hk; [done|].
      rewrite firstn_cons, log_lines_cons, length_app in Hk. simpl in Hk. lia.
    + destruct (IH (n - length l - 1)%nat Hls) as (m & t' & H1 & H2 & H3 & H4). exists (S m), t'. split.
      { rewrite firstn_cons, log_lines_cons, <- !app_assoc. rewrite take_app_ge by lia. f_equal.
        replace (n - length l)%nat with (S (n - length l - 1)) by lia. simpl. by rewrite H1. }
      split; [done|]. split; [destruct H3 as [H3|(l' & Hl' & H3)]; [by left|right; exists l'; split; [by right|done]]|].
      intros [|k] Hk Hlen; [lia|]. rewrite firstn_cons, log_lines_cons, length_app in Hlen. simpl in Hk, Hlen.
      assert (k ≤ m)%nat; [|lia]. apply H4; lia.
Qed.

Definition cut_file (n : nat) (file : EventFile) : EventFile :=
  mkEventFile (take n (ef_bytes file)) (length (take n (ef_bytes file))).

Lemma prefix_file_len (l t : list Z) : t `prefix_of` l → file_len t <= file_len l.
Proof. intros H%prefix_length. unfold file_len. lia. Qed.

Lemma cut_file_state id n file ls fs k : log_state id file ls fs k → (ef_synced file ≤ n)%nat →
  ∃ m, (k ≤ m)%nat ∧ log_state id (cut_file n file) (take m ls) (take m fs) k.
Proof.
  intros [[t Hw] Hk Hd Hs] Hn. pose proof (written_kept _ _ _ _ _ Hw) as [Hlen _]. destruct Hw as [[Hfile Hls Hnum Hb [Ht Htl]] Hshort].
  destruct (cut_lines n ls t Ht) as (m & t' & Hcut & Ht' & Hpiece & Hm).
  { clear -Hls. induction Hls as [|l f ls fs [Hl _] _ IH]; by constructor. }
  assert (Hkm : (k ≤ m)%nat) by (apply Hm; lia). exists m. split; [done|]. split; unfold cut_file; cbn [ef_bytes ef_synced].
  - exists t'. split; [split|by apply Forall_take].
    + by rewrite Hfile.
    + by apply Forall2_take.
    + eapply numbered_prefix; [apply prefix_take|done].
    + rewrite length_take. lia.
    + split; [done|]. destruct Hpiece as [Hp|(l & Hl & Hp)]; apply prefix_file_len in Hp; [lia|].
      rewrite Forall_forall in Hshort. specialize (Hshort l Hl). lia.
  - rewrite length_take. lia.
  - rewrite take_take, Nat.min_l by lia. rewrite Hfile, Hcut, length_app.
    rewrite <- (Nat.min_l k m) at 1 by done. rewrite <- take_take. pose proof (log_lines_take_le k (take m ls)). lia.
  - done.
Qed.

(** ** Histories of the logs of a root *)

Context {TBody WBody : Type} (superseded_by archived : TBody → option string).
Context (blake3 : list Z → list Z) (batch_from_slice : list Z → option (RegistryDeltaBatch TBody WBody)).

Definition power_loss (keep : string → nat) (logs : EventLogs) : EventLogs := map_imap (λ id file, Some (cut_file (keep id) file)) logs.

(** A step, with the frame that it acknowledges.  An event that is appended reads
    back with its number and task. *)
Inductive event_step : EventLogs → option Frame → EventLogs → Prop :=
| step_append_next fault checkpoint wal task_id event logs answer logs' :
    append_next_task_event to_vec from_slice stream superseded_by archived blake3 batch_from_slice fault checkpoint wal task_id event logs
      = Some (answer, logs') →
    (∀ n id, reads_back (mkEventFrame n id event)) →
    event_step logs (acknowledges (λ f, f) answer) logs'
| step_append_with_authority fault authority task_id event logs answer logs' :
    append_next_task_event_with_authority (WBody := WBody) to_vec from_slice stream superseded_by archived fault authority task_id event logs
      = (answer, logs') →
    (∀ n id, reads_back (mkEventFrame n id event)) →
    event_step logs (acknowledges (λ f, f) answer) logs'
| step_append_frame fault checkpoint wal frame logs answer logs' :
    append_task_event to_vec from_slice stream superseded_by archived blake3 batch_from_slice fault checkpoint wal frame logs
      = Some (answer, logs') →
    reads_back frame →
    event_step logs (acknowledges (λ _, frame) answer) logs'
| step_power_loss keep logs :
    (∀ id file, logs !! id = Some file → (ef_synced file ≤ keep id)%nat) →
    event_step logs None (power_loss keep logs).

Inductive reaches : EventLogs → list Frame → Prop :=
| reaches_start : reaches ∅ []
| reaches_step logs acknowledged ack logs' :
    reaches logs acknowledged → event_step logs ack logs' → reaches logs' (acknowledged ++ option_list ack).

(** The line of [f] is at the number of [f], and reads as a frame of that number. *)
Definition stored_at (ls : list (list Z)) (fs : list Frame) (f : Frame) : Prop :=
  ∃ b g, to_vec f = Some b ∧ from_slice b = Some g ∧ seq g = seq f ∧
    ls !! Z.to_nat (seq f - 1) = Some b ∧ fs !! Z.to_nat (seq f - 1) = Some g.

(** What the logs hold of the acknowledged frames. *)
Definition keeps (logs : EventLogs) (acknowledged : list Frame) : Prop :=
  ∀ id, ∃ ls fs k, slot_state id (logs !! id) ls fs k ∧
    ∀ f, f ∈ acknowledged → frame_task_id f = id → 1 <= seq f <= Z.of_nat k ∧ stored_at ls fs f.

Lemma stored_at_prefix ls fs ls' fs' f : ls `prefix_of` ls' → fs `prefix_of` fs' → stored_at ls fs f → stored_at ls' fs' f.
Proof. intros Hl Hf (b & g & ? & ? & ? & H1 & H2). exists b, g. split_and!; try done; by eapply prefix_lookup_Some. Qed.

Lemma last_stored_at id ls fs ls' fs' f : length ls = length fs → last_stored id ls fs ls' fs' f → stored_at ls' fs' f.
Proof.
  intros Hlen (b & g & -> & -> & Hb & Hg & _ & Hgf & Hseq). exists b, g.
  assert (Z.to_nat (seq f - 1) = length fs) as -> by lia. split_and!; try done.
  - rewrite <- Hlen. by apply list_lookup_middle.
  - by apply list_lookup_middle.
Qed.

Lemma keeps_start : keeps ∅ [].
Proof. intros id. exists [], [], 0%nat. split; [apply log_state_new|]. intros f Hf. by apply elem_of_nil in Hf. Qed.

Lemma slot_lengths id slot ls fs k : slot_state id slot ls fs k → length ls = length fs.
Proof. intros [[t Hw] _ _ _]. by destruct (written_kept _ _ _ _ _ Hw). Qed.

(** A step that grows one log keeps the frames of all. *)
Lemma keeps_grows id slot logs acknowledged ack : keeps logs acknowledged →
  (∀ ls fs k, slot_state id (logs !! id) ls fs k → grows id ls fs k slot ack) → keeps (store_log id slot logs) (acknowledged ++ option_list ack).
Proof.
  intros Hk Hg id'. destruct (Hk id) as (ls & fs & k & Hst & Hacks).
  destruct (Hg ls fs k Hst) as (ls' & fs' & k' & Hst' & Hpl & Hpf & Hkk & Hack).
  unfold store_log. destruct (decide (id = id')) as [<-|Hne].
  - exists ls', fs', k'. split; [by rewrite lookup_partial_alter_eq|]. intros f [Hf|Hf]%elem_of_app Hid.
    + destruct (Hacks f Hf Hid) as [Hseq Hlook]. split; [lia|]. by eapply stored_at_prefix.
    + destruct ack as [a|]; simpl in Hf; [|by apply elem_of_nil in Hf]. apply list_elem_of_singleton in Hf as ->.
      destruct (Hack _ eq_refl) as [Hstored ->]. split; [|eapply last_stored_at; [exact (slot_lengths _ _ _ _ _ Hst)|exact Hstored]].
      destruct Hstored as (b & g & _ & _ & _ & _ & _ & _ & Hseq). lia.
  - destruct (Hk id') as (ls2 & fs2 & k2 & Hst2 & Hacks2). exists ls2, fs2, k2. split; [by rewrite lookup_partial_alter_ne|].
    intros f [Hf|Hf]%elem_of_app Hid; [by apply Hacks2|]. exfalso. apply Hne. rewrite <- Hid.
    destruct ack as [a|]; simpl in Hf; [|by apply elem_of_nil in Hf]. apply list_elem_of_singleton in Hf as ->.
    by destruct (Hack _ eq_refl) as [(b & g & _ & _ & _ & _ & Ha & _) _].
Qed.

Lemma keeps_power_loss keep logs acknowledged : (∀ id file, logs !! id = Some file → (ef_synced file ≤ keep id)%nat) →
  keeps logs acknowledged → keeps (power_loss keep logs) acknowledged.
Proof.
  intros Hkeep Hk id. destruct (Hk id) as (ls & fs & k & Hst & Hacks). unfold power_loss. rewrite map_lookup_imap.
  destruct (logs !! id) as [file|] eqn:Hfile; simpl.
  - destruct (cut_file_state id (keep id) file ls fs k Hst (Hkeep _ _ Hfile)) as (m & Hm & Hst'). exists (take m ls), (take m fs), k.
    split; [exact Hst'|]. intros f Hf Hid. destruct (Hacks f Hf Hid) as [Hseq (b & g & Hb & Hg & Hgf & Hl & Hl')]. split; [done|].
    exists b, g. rewrite !lookup_take_lt by lia. done.
  - by exists ls, fs, k.
Qed.

Lemma keeps_refused logs acknowledged : keeps logs acknowledged → keeps logs (acknowledged ++ option_list None).
Proof. intros H. simpl. by rewrite app_nil_r. Qed.

Lemma keeps_append_next fault id event logs acknowledged answer slot : keeps logs acknowledged →
  (∀ n id, reads_back (mkEventFrame n id event)) →
  append_next_task_event_admitted to_vec from_slice stream fault id event (logs !! id) = (answer, slot) →
  keeps (store_log id slot logs) (acknowledged ++ option_list (acknowledges (λ f, f) answer)).
Proof. intros Hk Hreads H. apply keeps_grows; [done|]. intros ls fs k Hst. by eapply append_next_grows. Qed.

Lemma keeps_step logs acknowledged ack logs' : keeps logs acknowledged → event_step logs ack logs' → keeps logs' (acknowledged ++ option_list ack).
Proof.
  intros Hk Hstep. revert Hk. destruct Hstep as [fault checkpoint wal task_id event logs answer logs' H Hreads|
    fault authority task_id event logs answer logs' H Hreads|fault checkpoint wal frame logs answer logs' H Hreads|keep logs H]; intros Hk.
  - unfold append_next_task_event in H. destruct (checked_task_storage_id task_id) as [id|e]; [|injection H as <- <-; exact (keeps_refused _ _ Hk)].
    destruct (preflight_task_event _ _ _ _); [|injection H as <- <-; exact (keeps_refused _ _ Hk)].
    destruct (require_continuable_task_admission _ _ _ _ _ _ _) as [[[]|e]|]; simpl in H; [| |done];
      [|injection H as <- <-; exact (keeps_refused _ _ Hk)].
    destruct (append_next_task_event_admitted _ _ _ _ _ _ _) as [answer1 slot] eqn:E. injection H as <- <-. by eapply keeps_append_next.
  - unfold append_next_task_event_with_authority in H. destruct (checked_task_storage_id task_id ≫= _) as [id|e];
      [|injection H as <- <-; exact (keeps_refused _ _ Hk)].
    destruct (append_next_task_event_admitted _ _ _ _ _ _ _) as [answer1 slot] eqn:E. injection H as <- <-. by eapply keeps_append_next.
  - unfold append_task_event in H. destruct (checked_task_storage_id (frame_task_id frame)) as [id|e]; simpl in H;
      [|injection H as <- <-; exact (keeps_refused _ _ Hk)].
    destruct (encode id frame) as [bytes|e] eqn:Hbytes; simpl in H; [|injection H as <- <-; exact (keeps_refused _ _ Hk)].
    destruct (require_continuable_task_admission _ _ _ _ _ _ _) as [[[]|e]|]; simpl in H; [| |done];
      [|injection H as <- <-; exact (keeps_refused _ _ Hk)].
    destruct (with_locked_log _ _ _) as [answer1 slot] eqn:E. injection H as <- <-. apply keeps_grows; [done|].
    intros ls fs k Hst. by eapply append_locked_grows.
  - rewrite app_nil_r. by apply keeps_power_loss.
Qed.

Lemma reaches_keeps logs acknowledged : reaches logs acknowledged → keeps logs acknowledged.
Proof. induction 1; [apply keeps_start|by eapply keeps_step]. Qed.
End Write.
