(* ===== verification/EventPageSpec.v ===== *)
(** * EventPageSpec: pages partition a log

    An offset is accepted when it is the end of a frame; the page read there
    holds the next frames, at least one unless the log ends.  So loading a
    log ends, also while it grows, with all the frames it held at the start. *)

From S2P Require Export EventWriteSpec.
Local Open Scope Z_scope.

(** ** The predecessor of an offset *)

Lemma rposition_app a l : line_end ∉ l → rposition_newline (a ++ l) = rposition_newline a.
Proof.
  intros Hl. induction a as [|b a IH]; simpl; [|by rewrite IH].
  induction l as [|b l IH]; [done|]. apply not_elem_of_cons in Hl as [Hb Hl]. simpl. rewrite IH by done.
  by destruct (Z.eqb_spec b line_end).
Qed.
Lemma rposition_snoc a : rposition_newline (a ++ [line_end]) = Some (length a).
Proof. induction a as [|b a IH]; [done|]. simpl. by rewrite IH. Qed.

Lemma log_lines_nil_or_newline ls : log_lines ls = [] ∨ ∃ a, log_lines ls = a ++ [line_end].
Proof.
  destruct ls as [|l ls _] using rev_ind; [by left|right]. exists (log_lines ls ++ l). by rewrite log_lines_snoc, app_assoc.
Qed.

(** Every line_end of a log ends one of its lines. *)
Lemma newline_ends_line ls t i : line_end ∉ t → Forall (λ l, line_end ∉ l) ls → (log_lines ls ++ t) !! i = Some line_end →
  ∃ m, (m ≤ length ls)%nat ∧ S i = length (log_lines (take m ls)).
Proof.
  intros Ht. revert i. induction ls as [|l ls IH]; intros i Hls Hi.
  - exfalso. apply Ht. by eapply list_elem_of_lookup_2.
  - apply Forall_cons in Hls as [Hl Hls]. rewrite log_lines_cons, <- app_assoc in Hi. destruct (decide (i < length l)%nat) as [Hlt|Hge].
    { exfalso. apply Hl. rewrite lookup_app_l in Hi by done. by eapply list_elem_of_lookup_2. }
    rewrite lookup_app_r in Hi by lia. simpl in Hi. destruct (i - length l)%nat as [|i'] eqn:Hd; simpl in Hi.
    + exists 1%nat. simpl. split; [lia|]. rewrite app_nil_r, length_app. simpl. lia.
    + apply IH in Hi as (m & Hm & Hlen); [|done]. exists (S m). split; [simpl; lia|].
      rewrite firstn_cons, log_lines_cons, length_app. simpl. lia.
Qed.

Section Page.
Context {DaemonEvent : Type}.
Local Abbreviation Frame := (DaemonEventFrame DaemonEvent).
Context (from_slice : list Z → option Frame) (stream : list Z → JsonStream * bool).
Local Abbreviation line_of := (is_line from_slice stream).
Local Abbreviation written := (written from_slice stream).

Definition boundary (ls : list (list Z)) (m : nat) : Z := file_len (log_lines (take m ls)).

Lemma boundary_0 ls : boundary ls 0 = 0.
Proof. done. Qed.
Lemma boundary_S ls m l : ls !! m = Some l → boundary ls (S m) = boundary ls m + file_len l + 1.
Proof. intros H. unfold boundary. rewrite (take_S_r _ _ _ H), log_lines_snoc, !file_len_app. unfold file_len. simpl. lia. Qed.
Lemma boundary_le ls m : 0 <= boundary ls m <= file_len (log_lines ls).
Proof. unfold boundary, file_len. pose proof (log_lines_take_le m ls). lia. Qed.

Lemma written_lines id file ls fs t : written id file ls fs t → Forall (λ l, line_end ∉ l) ls.
Proof. intros [[_ Hls _ _ _] _]. induction Hls as [|l f ls fs [Hl _] _ IH]; by constructor. Qed.

Lemma predecessor_found id file ls fs t m : written id file ls fs t → (m ≤ length fs)%nat →
  task_event_sequence_before_offset from_slice stream id file (boundary ls m) = Ok (match m with O => None | _ => Some (Z.of_nat m) end).
Proof.
  intros Hw Hm. pose proof (written_kept _ _ _ _ _ _ _ Hw) as [Hlen _]. pose proof (written_lines _ _ _ _ _ Hw) as Hnl.
  destruct Hw as [[Hfile Hls Hnum _ _] Hshort]. destruct m as [|m]; [done|]. destruct (lookup_lt_is_Some_2 fs m) as [f Hf]; [lia|].
  destruct (Forall2_lookup_r _ _ _ _ _ Hls Hf) as (l & Hl & _ & Hdecode).
  rewrite Forall_lookup in Hshort, Hnl. specialize (Hshort m l Hl). specialize (Hnl m l Hl).
  set (a := log_lines (take m ls)). assert (Hbound : boundary ls (S m) = file_len a + file_len l + 1) by (by apply boundary_S).
  assert (Hsplit : ∃ rest, file = a ++ (l ++ [line_end]) ++ rest).
  { exists (log_lines (drop (S m) ls) ++ t). rewrite Hfile, <- (take_drop_middle ls m l Hl) at 1. unfold a.
    rewrite log_lines_app, log_lines_cons, <- !app_assoc. done. }
  destruct Hsplit as [rest Hsplit]. unfold task_event_sequence_before_offset. rewrite Hbound.
  pose proof (file_len_nonneg a). pose proof (file_len_nonneg l).
  rewrite (proj2 (Z.eqb_neq _ _)) by lia. cbv zeta. set (ws := saturating_sub _ _).
  assert (Hws : 0 <= ws ∧ (ws = 0 ∨ ws <= file_len a - 2)).
  { unfold ws, saturating_sub. lia. }
  assert (Hwindow : read_at file ws (file_len a + file_len l + 1 - ws) = drop (Z.to_nat ws) a ++ l ++ [line_end]).
  { unfold read_at, slice, file_len in *. rewrite Hsplit, drop_app_le by lia. rewrite app_assoc. apply take_app_length'.
    rewrite !length_app, length_drop. simpl. lia. }
  rewrite Hwindow. replace (file_len (drop (Z.to_nat ws) a ++ l ++ [line_end]) =? _) with true
    by (symmetry; apply Z.eqb_eq; unfold file_len in *; rewrite !length_app, length_drop; simpl; lia).
  rewrite app_assoc, ends_with_newline_snoc, removelast_last, rposition_app by done. simpl andb.
  assert (Hstart : ∀ o, o = match rposition_newline (drop (Z.to_nat ws) a) with Some i => S i | None => 0%nat end →
    o = length (drop (Z.to_nat ws) a) ∧ (ws = 0 ∨ o ≠ 0%nat)).
  { intros o ->. destruct (log_lines_nil_or_newline (take m ls)) as [Ha|[a' Ha]]; fold a in Ha; rewrite Ha in *.
    - rewrite drop_nil. split; [done|]. left. unfold file_len in Hws. simpl in Hws. lia.
    - rewrite file_len_app in Hws. unfold file_len in Hws. simpl in Hws. rewrite drop_app_le by lia.
      rewrite rposition_snoc, length_app. simpl. split; [lia|by right]. }
  destruct (Hstart _ eq_refl) as [Hs1 Hs2]. rewrite Hs1 in *.
  replace (negb _) with true by (symmetry; apply negb_true_iff, andb_false_iff; destruct Hs2 as [->|Hs2]; [by left|right; apply Z.eqb_neq; lia]).
  simpl. rewrite drop_app_length, Hdecode. simpl. rewrite (Hnum m f Hf). do 2 f_equal. lia.
Qed.

(** Every other offset of the log is refused. *)
Lemma predecessor_boundary id file ls fs t offset previous : written id file ls fs t → 0 <= offset <= file_len file →
  task_event_sequence_before_offset from_slice stream id file offset = Ok previous →
  ∃ m, (m ≤ length fs)%nat ∧ offset = boundary ls m.
Proof.
  intros Hw Ho. pose proof (written_kept _ _ _ _ _ _ _ Hw) as [Hlen _]. pose proof (written_lines _ _ _ _ _ Hw) as Hnl.
  destruct Hw as [[Hfile _ _ _ [Ht _]] _]. unfold task_event_sequence_before_offset.
  destruct (Z.eqb_spec offset 0) as [->|H0]; [intros _; exists 0%nat; split; [lia|done]|]. cbv zeta.
  set (ws := saturating_sub _ _). intros H. apply bind_Ok_inv in H as (u & H & _). apply ensure_Ok_inv in H.
  apply andb_true_iff in H as [_ H]. unfold ends_with_newline in H. apply bool_decide_eq_true in H.
  assert (Hws : 0 <= ws < offset) by (unfold ws, saturating_sub, MAX_TASK_EVENT_LINE_BYTES; lia).
  unfold file_len in Ho. rewrite last_lookup in H. unfold read_at in H. rewrite slice_length in H by lia.
  rewrite slice_lookup in H by lia. rewrite Hfile in H. apply newline_ends_line in H as (m & Hm & Hend); [|done|done].
  exists m. split; [lia|]. unfold boundary, file_len. lia.
Qed.

(** ** One page *)

Lemma page_full_bounds (events : list Frame) page_bytes : 0 <= page_bytes → page_full events page_bytes = false →
  Z.min (saturating_sub MAX_TASK_EVENT_PAGE_BYTES page_bytes) (MAX_TASK_EVENT_LINE_BYTES + 1) = MAX_TASK_EVENT_LINE_BYTES + 1 ∧
  page_bytes <= MAX_TASK_EVENT_PAGE_BYTES.
Proof.
  unfold page_full. intros H0 H. apply orb_false_iff in H as [H H2]. apply orb_false_iff in H as [_ H1]. apply Z.eqb_neq in H1.
  apply andb_false_iff in H2. unfold saturating_sub, MAX_TASK_EVENT_PAGE_BYTES, MAX_TASK_EVENT_LINE_BYTES in *.
  destruct H2 as [H2|H2]; [apply Z.ltb_ge in H2|apply Z.ltb_ge in H2]; lia.
Qed.

Lemma check_page_sequence_next n previous (f : Frame) : default 0 previous = Z.of_nat n → seq f = Z.of_nat (S n) →
  Z.of_nat (S n) <= u64_max → check_page_sequence previous f = Ok ().
Proof.
  intros Hp Hf Hb. unfold check_page_sequence, next_task_event_sequence. rewrite Hp, checked_add_ok by lia. simpl.
  rewrite Hf. replace (Z.of_nat n + 1) with (Z.of_nat (S n)) by lia. by rewrite Z.eqb_refl.
Qed.

(** The page at a torn suffix, and at a line. *)
Lemma page_lines_torn id fuel len t next page_bytes previous events : line_end ∉ t → file_len t <= MAX_TASK_EVENT_LINE_BYTES →
  0 <= page_bytes → page_full events page_bytes = false →
  page_lines from_slice stream (S fuel) id len t next page_bytes previous events = Ok (mkPageOutcome events next true len).
Proof.
  intros Ht Htl Hpb Hfull. cbn [page_lines]. rewrite Hfull. destruct (page_full_bounds events page_bytes Hpb Hfull) as [-> _].
  rewrite read_until_torn by (done || lia). case_bool_decide; [done|]. rewrite (ends_with_newline_torn t Ht). simpl. unfold check_line_len.
  rewrite (proj2 (Z.leb_le _ _) Htl). simpl. by rewrite (proj2 (Z.ltb_lt _ _)) by lia.
Qed.
Lemma page_lines_line id fuel len n l f rest next page_bytes previous events : line_of id l f → file_len l <= MAX_TASK_EVENT_LINE_BYTES →
  default 0 previous = Z.of_nat n → seq f = Z.of_nat (S n) → Z.of_nat (S n) <= u64_max → 0 <= page_bytes →
  next + file_len l + 1 <= u64_max → page_full events page_bytes = false →
  page_lines from_slice stream (S fuel) id len (l ++ line_end :: rest) next page_bytes previous events =
  page_lines from_slice stream fuel id len rest (next + (file_len l + 1)) (page_bytes + (file_len l + 1)) (Some (seq f)) (events ++ [f]).
Proof.
  intros [Hl Hdecode] Hlen Hprev Hf Hbound Hpb Hnext Hfull. cbn [page_lines]. rewrite Hfull.
  destruct (page_full_bounds events page_bytes Hpb Hfull) as [-> Hpb']. rewrite read_until_line by (done || lia).
  rewrite bool_decide_eq_false_2 by (by destruct l). rewrite ends_with_newline_snoc, removelast_last. cbn [negb].
  unfold check_line_len at 1. rewrite (proj2 (Z.leb_le _ _) Hlen). simpl ensure. rewrite result_bind_ok, Hdecode, result_bind_ok.
  rewrite (check_page_sequence_next n), result_bind_ok by done.
  assert (Hline : file_len (l ++ [line_end]) = file_len l + 1) by (by rewrite file_len_app).
  change (line_end :: rest) with ([line_end] ++ rest). rewrite app_assoc, drop_app_length, Hline. pose proof (file_len_nonneg l).
  by rewrite !saturating_add_exact by (unfold usize_max, u64_max, MAX_TASK_EVENT_PAGE_BYTES, MAX_TASK_EVENT_LINE_BYTES in *; lia).
Qed.

(** The page ends at the first frame that fills it, or with the log. *)
Lemma page_lines_frames id fuel len n rest ls fs t previous next page_bytes events :
  (length rest ≤ fuel)%nat → holds_frames from_slice stream id n rest ls fs t → Forall (λ l, file_len l <= MAX_TASK_EVENT_LINE_BYTES) ls →
  default 0 previous = Z.of_nat n → 0 <= page_bytes → next + file_len rest <= u64_max →
  ∃ j ended, (j ≤ length fs)%nat ∧
    page_lines from_slice stream fuel id len rest next page_bytes previous events =
      Ok (mkPageOutcome (events ++ take j fs) (next + boundary ls j) ended len) ∧
    (if ended : bool then j = length fs else page_full (events ++ take j fs) (page_bytes + boundary ls j) = true).
Proof.
  revert n rest ls fs previous next page_bytes events.
  induction fuel as [|fuel IH]; intros n rest ls fs previous next page_bytes events Hfuel H Hshort Hprev Hpb Hnext;
    (destruct (page_full events page_bytes) eqn:Hfull;
     [exists 0%nat, false; cbn [page_lines]; rewrite Hfull, take_0, app_nil_r, boundary_0, !Z.add_0_r; split_and!; [lia|done|done]|]).
  - destruct rest; [|simpl in Hfuel; lia]. pose proof (hf_bound _ _ _ _ _ _ _ _ H). apply holds_frames_torn in H as (-> & -> & -> & _);
      [|apply not_elem_of_nil|lia]. cbn [page_lines]. exists 0%nat, true. by rewrite Hfull, app_nil_r, boundary_0, !Z.add_0_r.
  - pose proof (hf_file _ _ _ _ _ _ _ _ H) as Hfile. pose proof (hf_lines _ _ _ _ _ _ _ _ H) as Hls.
    pose proof (hf_torn _ _ _ _ _ _ _ _ H) as [Ht Htl]. destruct ls as [|l ls].
    + apply Forall2_nil_inv_l in Hls as ->. simpl in Hfile. subst rest. exists 0%nat, true.
      rewrite page_lines_torn, app_nil_r, boundary_0, !Z.add_0_r by done. done.
    + apply Forall2_cons_inv_l in Hls as (f & fs' & [Hl Hdecode] & _ & ->). apply Forall_cons in Hshort as [Hlen Hshort].
      pose proof (hf_bound _ _ _ _ _ _ _ _ H) as Hbound. simpl in Hbound. rewrite log_lines_cons, <- app_assoc in Hfile.
      simpl in Hfile. subst rest.
      apply holds_frames_cons in H as (_ & Hf & H); [|done]. pose proof (file_len_nonneg (log_lines ls ++ t)).
      assert (Hsum : file_len (l ++ line_end :: log_lines ls ++ t) = file_len l + 1 + file_len (log_lines ls ++ t))
        by (unfold file_len; rewrite length_app; simpl; lia).
      rewrite (page_lines_line id fuel len n l f) by (done || lia). rewrite length_app in Hfuel. simpl in Hfuel.
      destruct (IH (S n) (log_lines ls ++ t) ls fs' (Some (seq f)) (next + (file_len l + 1)) (page_bytes + (file_len l + 1)) (events ++ [f]))
        as (j & ended & Hj & -> & Hend); [lia|exact H|done|by rewrite Hf|pose proof (file_len_nonneg l); lia|lia|].
      assert (Hb : boundary (l :: ls) (S j) = file_len l + 1 + boundary ls j).
      { unfold boundary. rewrite firstn_cons, log_lines_cons. unfold file_len. rewrite length_app. simpl. lia. }
      exists (S j), ended. rewrite Hb, firstn_cons, !Z.add_assoc in *. rewrite <- app_assoc in *. simpl in Hend |- *.
      split; [lia|]. split; [do 2 f_equal; lia|]. destruct ended; [simpl; lia|]. by rewrite <- Hend.
Qed.

Lemma holds_frames_drop id n file ls fs t m : holds_frames from_slice stream id n file ls fs t → (m ≤ length fs)%nat →
  holds_frames from_slice stream id (n + m) (drop (length (log_lines (take m ls))) file) (drop m ls) (drop m fs) t.
Proof.
  intros [Hfile Hls Hnum Hb Ht] Hm. split; try done.
  - rewrite Hfile. rewrite <- (take_drop m ls) at 2. by rewrite log_lines_app, <- app_assoc, drop_app_length.
  - by apply Forall2_drop.
  - by apply numbered_drop.
  - rewrite length_drop. lia.
Qed.
Lemma boundary_drop ls m j : boundary ls (m + j) = boundary ls m + boundary (drop m ls) j.
Proof. unfold boundary. by rewrite <- take_take_drop, log_lines_app, file_len_app. Qed.

(** The page at the end of frame [m] holds the next frames, and at least one
    unless the log ends there. *)
Lemma page_at_boundary id file ls fs t m : written id file ls fs t → file_len file <= u64_max → (m ≤ length fs)%nat →
  ∃ j ended, (m + j ≤ length fs)%nat ∧
    read_locked_task_event_page from_slice stream id file (boundary ls m) =
      Ok (mkPageOutcome (take j (drop m fs)) (boundary ls (m + j)) ended (file_len file)) ∧
    (if ended : bool then m + j = length fs else 0 < j)%nat.
Proof.
  intros Hw Hlen Hm. pose proof (predecessor_found id file ls fs t m Hw Hm) as Hprev. pose proof Hw as [H Hshort].
  pose proof (boundary_le ls m) as Hb. assert (Hle : boundary ls m <= file_len file).
  { rewrite (hf_file _ _ _ _ _ _ _ _ H), file_len_app. pose proof (file_len_nonneg t). lia. }
  unfold read_locked_task_event_page. cbv zeta. rewrite Z.min_l, Hprev, result_bind_ok by done.
  pose proof (holds_frames_drop _ _ _ _ _ _ _ H Hm) as Hrest. set (rest := drop (Z.to_nat _) file).
  assert (Hrest' : rest = drop (length (log_lines (take m ls))) file) by (unfold rest, boundary, file_len; by rewrite Nat2Z.id).
  rewrite <- Hrest' in Hrest. assert (Hsum : boundary ls m + file_len rest = file_len file).
  { unfold rest, file_len in *. rewrite length_drop. lia. }
  destruct (page_lines_frames id (length rest) (file_len file) m rest (drop m ls) (drop m fs) t
    (match m with O => None | _ => Some (Z.of_nat m) end) (boundary ls m) 0 []) as (j & ended & Hj & Hpage & Hend); try done.
  - by apply Forall_drop.
  - by destruct m.
  - lia.
  - rewrite length_drop in *. exists j, ended. split; [lia|]. split; [rewrite Hpage, boundary_drop; done|].
    destruct ended; [lia|]. destruct j; [|lia]. rewrite take_0, boundary_0 in Hend. discriminate Hend.
Qed.

(** ** Loading a log that grows *)

Definition log_bytes (slot : option (list Z)) : list Z := default [] slot.

(** A log that only gains frames, within the limits of a load. *)
Record growing (id : string) (log : nat → option (list Z)) (ls : nat → list (list Z)) (fs : nat → list Frame) : Prop := {
  gr_written i : ∃ t, written id (log_bytes (log i)) (ls i) (fs i) t;
  gr_lines i : ls i `prefix_of` ls (S i);
  gr_frames i : fs i `prefix_of` fs (S i);
  gr_bytes i : file_len (log_bytes (log i)) <= MAX_TASK_EVENT_LOAD_BYTES;
  gr_count i : Z.of_nat (length (fs i)) <= MAX_TASK_EVENT_LOAD_FRAMES
}.

Lemma load_page id slot ls fs t m : written id (log_bytes slot) ls fs t → file_len (log_bytes slot) <= u64_max → (m ≤ length fs)%nat →
  ∃ j ended, (m + j ≤ length fs)%nat ∧
    load_task_event_page from_slice stream id slot (boundary ls m) =
      Ok (mkPageOutcome (take j (drop m fs)) (boundary ls (m + j)) ended (file_len (log_bytes slot))) ∧
    (if ended : bool then m + j = length fs else 0 < j)%nat.
Proof.
  intros Hw Hlen Hm. destruct slot as [file|]; [by eapply page_at_boundary|].
  destruct Hw as [H _]. apply holds_frames_torn in H as (-> & -> & _); [|apply not_elem_of_nil|discriminate].
  simpl in Hm. exists 0%nat, true. replace m with 0%nat by lia. by split_and!.
Qed.

Lemma growing_prefix id log ls fs i j : growing id log ls fs → (i ≤ j)%nat → fs i `prefix_of` fs j.
Proof. intros Hg Hij. induction Hij as [|j _ IH]; [done|]. etrans; [exact IH|]. by apply (gr_frames _ _ _ _ Hg). Qed.

Lemma prefix_take_eq {A} (l l' : list A) m : l `prefix_of` l' → (m ≤ length l)%nat → take m l' = take m l.
Proof. intros [k ->] Hm. by rewrite take_app_le. Qed.

Lemma load_pages_ends id log ls fs fuel page m : growing id log ls fs → (m ≤ length (fs page))%nat →
  (MAX_TASK_EVENT_LOAD_FRAMES - Z.of_nat m < Z.of_nat fuel) →
  ∃ i, (page ≤ i)%nat ∧
    load_pages from_slice stream fuel log id page (boundary (ls page) m) (take m (fs page)) = Some (Ok (fs i)).
Proof.
  intros Hg. revert page m. induction fuel as [|fuel IH]; intros page m Hm Hfuel.
  { pose proof (gr_count _ _ _ _ Hg page). lia. }
  destruct (gr_written _ _ _ _ Hg page) as [t Hw]. pose proof (gr_bytes _ _ _ _ Hg page) as Hbytes. pose proof (gr_count _ _ _ _ Hg page) as Hcount.
  destruct (load_page id (log page) _ _ t m Hw) as (j & ended & Hj & Hpage & Hend); [unfold MAX_TASK_EVENT_LOAD_BYTES, u64_max in *; lia|done|].
  cbn [load_pages]. rewrite Hpage, result_bind_ok. cbn [log_len page_events next_offset at_end].
  unfold check_whole_log. rewrite (proj2 (Z.leb_le _ _) Hbytes). simpl ensure. rewrite result_bind_ok. cbv zeta.
  assert (Htake : take m (fs page) ++ take j (drop m (fs page)) = take (m + j) (fs page)) by apply take_take_drop.
  rewrite <- length_app, Htake, length_take, Nat.min_l by lia. rewrite (proj2 (Z.leb_le _ _)) by lia. simpl ensure. rewrite !result_bind_ok.
  cbn [log_len page_events next_offset at_end]. rewrite Htake. destruct ended.
  - exists page. split; [done|]. simpl. by rewrite take_ge by lia.
  - assert (Hadvance : boundary (ls page) m < boundary (ls page) (m + j)).
    { destruct j as [|j]; [lia|]. destruct (lookup_lt_is_Some_2 (ls page) m) as [l Hl].
      { rewrite (proj1 (written_kept _ _ _ _ _ _ _ Hw)). lia. }
      replace (m + S j)%nat with (S m + j)%nat by lia. rewrite boundary_drop, (boundary_S _ _ _ Hl).
      pose proof (boundary_le (drop (S m) (ls page)) j). pose proof (file_len_nonneg l). lia. }
    rewrite (proj2 (Z.leb_gt _ _) Hadvance). simpl.
    pose proof (gr_lines _ _ _ _ Hg page) as Hl. pose proof (gr_frames _ _ _ _ Hg page) as Hf.
    pose proof (proj1 (written_kept _ _ _ _ _ _ _ Hw)) as Hlen.
    destruct (IH (S page) (m + j)%nat) as (i & Hi & Hload); [apply prefix_length in Hf; lia|lia|].
    exists i. split; [lia|]. rewrite <- Hload. unfold boundary. rewrite (prefix_take_eq _ _ _ Hl), (prefix_take_eq _ _ _ Hf) by lia. done.
Qed.
End Page.
