(* ===== verification/EventRootSpec.v ===== *)
(** * EventRootSpec: what the event logs of a root guarantee

    The theorems about the inspection, the appends with their crashes, the
    pages and the loading of event logs. *)

From S2P Require Export EventPageSpec.
Local Open Scope Z_scope.

(** ** A codec of frames and a history of a log

    A codec that meets the laws asked of [serde_json], with tasks named "t"
    and one event, and a short history: two appends, the second of which is
    cut by a power loss. *)

Definition demo_to_vec (f : DaemonEventFrame ()) : option (list Z) :=
  if bool_decide (frame_task_id f = "t") then Some ([123] ++ text_bytes (show_uint (seq f)) ++ [125]) else None.
Definition demo_from_slice (bytes : list Z) : option (DaemonEventFrame ()) :=
  n ← parse_uint u64_max (bytes_text (removelast (List.tl bytes))); Some (mkEventFrame n "t" ()).
Definition demo_stream (bytes : list Z) : JsonStream * bool := (JFields [("seq", JScalar)] true, true).

Lemma demo_reads_back f : reads_back demo_to_vec demo_from_slice demo_stream f.
Proof.
  destruct f as [n id []]. intros bytes Hfit. unfold demo_to_vec. cbn [frame_task_id seq] in *. case_bool_decide as Hid; [|done].
  intros H _. apply (inj Some) in H as <-. exists (). unfold demo_from_slice. simpl List.tl.
  rewrite removelast_last, chr_bytes_text, parse_show_uint by done. simpl. by rewrite Hid.
Qed.

Lemma demo_codec : event_codec demo_to_vec demo_stream.
Proof.
  split.
  - intros f bytes. unfold demo_to_vec. case_bool_decide; [|done]. intros E. apply (inj Some) in E as <-. split.
    + intros [Hin%list_elem_of_singleton|[Hin|Hin%list_elem_of_singleton]%elem_of_app]%elem_of_app; [done| |done].
      apply list_elem_of_fmap in Hin as (c & Hc & Hin). apply (show_uint_no_char (seq f) "010"%char); [done|].
      replace "010"%char with c; [done|]. rewrite <- (ascii_N_embedding c). unfold line_end, chr in Hc.
      by replace (N_of_ascii c) with 10%N by lia.
    + by rewrite app_assoc, last_snoc.
  - intros id []. unfold demo_to_vec. cbn [frame_task_id seq]. case_bool_decide; [right|by left].
    exists [123], [125], (JFields [("seq", JScalar)] true, true). by intros n _.
Qed.

(** The authority of a daemon with the task. *)
Definition demo_authority : RegistryAdmissionAuthority (TBody := ()) (WBody := ()) :=
  mkAuthority {["t" := mkTaskRecord "t" [] ()]} [] 0.
Definition demo_append (fault : AppendFault) (logs : gmap string EventFile) :=
  append_next_task_event_with_authority demo_to_vec demo_from_slice demo_stream (λ _, None) (λ _, None) fault demo_authority "t" () logs.

Definition demo_logs : gmap string EventFile :=
  power_loss (λ _, 5%nat) (demo_append SyncFails (demo_append NoFault ∅).2).2.
Definition demo_frame (n : Z) : DaemonEventFrame () := mkEventFrame n "t" ().

Lemma demo_reaches : reaches demo_to_vec demo_from_slice demo_stream (TBody := ()) (WBody := ()) (λ _, None) (λ _, None) (λ l, l) (λ _, None)
  demo_logs [demo_frame 1].
Proof.
  set (logs1 := (demo_append NoFault ∅).2). set (logs2 := (demo_append SyncFails logs1).2).
  assert (H1 : demo_append NoFault ∅ = (Ok (demo_frame 1), logs1)) by (apply pair_eq; split; [vm_compute; reflexivity|reflexivity]).
  assert (H2 : demo_append SyncFails logs1 = (Err (EventIo "failed to synchronize task event log"), logs2))
    by (apply pair_eq; split; [vm_compute; reflexivity|reflexivity]).
  change [demo_frame 1] with (([] ++ option_list (acknowledges (λ f, f) (demo_append NoFault ∅).1)) ++
    option_list (acknowledges (λ f, f) (demo_append SyncFails logs1).1) ++ option_list None).
  rewrite app_assoc. eapply reaches_step; [eapply reaches_step; [eapply reaches_step; [apply reaches_start|]|]|].
  - eapply step_append_with_authority; [exact H1|]. intros n id. apply demo_reads_back.
  - eapply step_append_with_authority; [exact H2|]. intros n id. apply demo_reads_back.
  - apply step_power_loss. assert (H : map_Forall (λ _ file, (ef_synced file ≤ 5)%nat) logs2); [|exact H].
    apply (bool_decide_eq_true_1 _). vm_compute. reflexivity.
Qed.

(** The log that the power loss leaves. *)
Definition demo_log : list Z := [123; 49; 125; 10; 123].
Lemma demo_written : written demo_from_slice demo_stream "t" demo_log [[123; 49; 125]] [demo_frame 1] [123].
Proof.
  split; [|by repeat constructor]. split.
  - reflexivity.
  - constructor; [|constructor]. split; [|vm_compute; reflexivity]. apply (bool_decide_eq_true_1 _). vm_compute. reflexivity.
  - intros [|i] f [= <-]. reflexivity.
  - discriminate.
  - split; [|discriminate]. apply (bool_decide_eq_true_1 _). vm_compute. reflexivity.
Qed.

(** ** A log and its readers *)

(** C27: the inspection of an event log accepts exactly the bytes that are lines of
    frames of the task, numbered 1, 2, 3, ..., followed by at most 1 MiB without a
    newline; it reports the last frame, the length of the lines and whether a torn
    suffix follows. *)
Theorem event_log_inspection_exact {DaemonEvent} (from_slice : list Z → option (DaemonEventFrame DaemonEvent)) stream id file inspection :
  inspect_locked_task_event_tail from_slice stream id file = Ok inspection ↔
  ∃ ls fs t, holds_frames from_slice stream id 0 file ls fs t ∧
    inspection = mkInspection (list.last fs) (file_len (log_lines ls)) (negb (bool_decide (t = []))).
Proof.
  unfold inspect_locked_task_event_tail. rewrite (inspect_lines_exact from_slice stream id _ 0) by (done || discriminate).
  unfold tail_of. setoid_rewrite Z.add_0_l. split; intros (ls & fs & t & H & ->); exists ls, fs, t; (split; [done|]); by destruct (list.last fs).
Qed.

(** C5: an event log is a numbered list of frames through every history of appends, with
    or without the daemon's authority, of their failures at any system call and of power
    losses that cut a file no shorter than what was synchronized: the log of each task
    holds lines that read as frames numbered from 1, with at most a torn suffix; the
    line of every frame whose append was acknowledged is at the frame's number, byte for
    byte as it was encoded; and the tail that is reported is the last frame's. Relied on
    of serde_json: a frame's JSON is one line that does not end in a carriage return,
    and the events that are appended read back with their number and task; the rest of
    the event need not be read back exactly, as numbers with a fraction are not without
    serde_json's float_roundtrip feature. *)
Theorem event_logs_keep_acknowledged {DaemonEvent TBody WBody} to_vec (from_slice : list Z → option (DaemonEventFrame DaemonEvent)) stream
    (superseded_by archived : TBody → option string) blake3 (batch_from_slice : list Z → option (RegistryDeltaBatch TBody WBody))
    logs acknowledged :
  event_codec to_vec stream →
  reaches to_vec from_slice stream superseded_by archived blake3 batch_from_slice logs acknowledged → ∀ id,
  let slot := ef_bytes <$> logs !! id in
  ∃ ls fs t, written from_slice stream id (log_bytes slot) ls fs t ∧
    (∀ f, f ∈ acknowledged → frame_task_id f = id → 1 <= seq f ∧ stored_at to_vec from_slice ls fs f) ∧
    task_event_log_tail_sequence_admitted from_slice stream id slot = Ok (seq <$> list.last fs).
Proof.
  intros Hcodec H id slot. destruct (reaches_keeps _ _ _ Hcodec _ _ _ _ _ _ H id) as (ls & fs & k & Hst & Hacks).
  destruct (lg_written _ _ _ _ _ _ _ Hst) as [t Hw]. exists ls, fs, t. unfold slot, log_bytes.
  unfold open_append_file in Hw. destruct (logs !! id) as [file|]; simpl in *; (split; [done|]); (split; [intros f Hf Hid; destruct (Hacks f Hf Hid) as [? ?]; split; [lia|done]|]).
  - by rewrite (written_inspect _ _ _ _ _ _ _ Hw).
  - destruct Hw as [Hw _]. apply holds_frames_torn in Hw as (_ & -> & _); [done|apply not_elem_of_nil|discriminate].
Qed.

Lemma event_logs_keep_acknowledged_witness :
  reaches demo_to_vec demo_from_slice demo_stream (TBody := ()) (WBody := ()) (λ _, None) (λ _, None) (λ l, l) (λ _, None) demo_logs [demo_frame 1] ∧
  ∃ ls fs t, written demo_from_slice demo_stream "t" (log_bytes (ef_bytes <$> demo_logs !! "t")) ls fs t ∧
    stored_at demo_to_vec demo_from_slice ls fs (demo_frame 1).
Proof.
  split; [exact demo_reaches|].
  destruct (event_logs_keep_acknowledged demo_to_vec demo_from_slice demo_stream _ _ _ _ demo_logs [demo_frame 1] demo_codec demo_reaches "t")
    as (ls & fs & t & Hw & Hacks & _).
  exists ls, fs, t. split; [exact Hw|]. apply (Hacks (demo_frame 1)); [by left|reflexivity].
Defined.

(** When nothing fails, the next event of a task that may continue and whose event
    passes the preflight is appended: the torn suffix of the log is cut off, the line of
    the frame with the next number is written and synchronized, and the frame is
    returned. The preflight at the largest sequence is enough for every sequence. *)
Theorem next_event_appended {DaemonEvent TBody WBody} to_vec (from_slice : list Z → option (DaemonEventFrame DaemonEvent)) stream
    (superseded_by archived : TBody → option string) (authority : RegistryAdmissionAuthority (TBody := TBody) (WBody := WBody))
    logs id event ls fs t :
  event_codec to_vec stream →
  task_storage_id id = Ok id →
  authority_require_continuable_task superseded_by archived authority id = Ok () →
  preflight_task_event to_vec stream id event = Ok () →
  written from_slice stream id (log_bytes (ef_bytes <$> logs !! id)) ls fs t →
  Z.of_nat (length fs) < u64_max →
  let frame := mkEventFrame (Z.of_nat (length fs + 1)) id event in
  ∃ bytes, encode_task_event_frame to_vec stream id frame = Ok bytes ∧
  append_next_task_event_with_authority to_vec from_slice stream superseded_by archived NoFault authority id event logs =
    (Ok frame, <[id := mkEventFile (log_lines ls ++ bytes) (length (log_lines ls ++ bytes))]> logs).
Proof.
  intros Hcodec Hid Hauth Hpre Hw Hmax frame.
  destruct (preflight_encodes _ _ Hcodec id event (Z.of_nat (length fs + 1)) Hpre) as [bytes Hbytes]; [unfold fits; lia|].
  exists bytes. split; [exact Hbytes|]. unfold append_next_task_event_with_authority, checked_task_storage_id. rewrite Hid. simpl.
  rewrite Hauth. simpl. rewrite Hpre. simpl. unfold append_next_task_event_admitted, with_locked_log.
  assert (Hfile : ef_bytes (open_append_file (logs !! id)) = log_bytes (ef_bytes <$> logs !! id)) by by destruct (logs !! id).
  rewrite Hfile, (written_inspect _ _ _ _ _ _ _ Hw). cbn [mbind result_bind tail].
  rewrite (proj2 (written_next _ _ _ _ _ _ _ _ Hw)) by (split; [done|lia]). cbn [mbind result_bind]. fold frame. fold frame in Hbytes. rewrite Hbytes.
  cbn [mbind result_bind]. pose proof (hf_file _ _ _ _ _ _ _ _ (wr_frames _ _ _ _ _ _ _ Hw)) as Hcontent. rewrite <- Hfile in Hcontent.
  rewrite (write_event_line_whole _ _ _ _ _ Hcontent). done.
Qed.

Lemma next_event_appended_witness :
  ∃ bytes, encode_task_event_frame demo_to_vec demo_stream "t" (demo_frame 2) = Ok bytes ∧
    demo_append NoFault demo_logs = (Ok (demo_frame 2), <["t" := mkEventFile ([123; 49; 125; 10] ++ bytes) (length ([123; 49; 125; 10] ++ bytes))]> demo_logs).
Proof.
  apply (next_event_appended demo_to_vec demo_from_slice demo_stream (λ _, None) (λ _, None) demo_authority demo_logs "t" () [[123; 49; 125]] [demo_frame 1] [123]).
  - exact demo_codec.
  - vm_compute. reflexivity.
  - vm_compute. reflexivity.
  - vm_compute. reflexivity.
  - exact demo_written.
  - reflexivity.
Defined.

(** C28: reading a page of an event log fails exactly when the offset is not the end of
    one of its frames. The page read at the end of a frame holds the frames that follow,
    reports the offset where they end, and holds at least one frame unless it reports
    the end of the log. *)
Theorem event_page_exact {DaemonEvent} (from_slice : list Z → option (DaemonEventFrame DaemonEvent)) stream id file ls fs t offset :
  written from_slice stream id file ls fs t → file_len file <= u64_max → 0 <= offset <= file_len file →
  (is_ok (read_locked_task_event_page from_slice stream id file offset) = true ↔ ∃ m, (m ≤ length fs)%nat ∧ offset = boundary ls m) ∧
  ∀ m, (m ≤ length fs)%nat → ∃ j ended,
    read_locked_task_event_page from_slice stream id file (boundary ls m) =
      Ok (mkPageOutcome (take j (drop m fs)) (boundary ls (m + j)) ended (file_len file)) ∧
    (m + j ≤ length fs)%nat ∧ (ended = true → m + j = length fs)%nat ∧ (ended = false → 0 < j)%nat.
Proof.
  intros Hw Hlen Ho. assert (Hat : ∀ m, (m ≤ length fs)%nat → ∃ j ended,
    read_locked_task_event_page from_slice stream id file (boundary ls m) =
      Ok (mkPageOutcome (take j (drop m fs)) (boundary ls (m + j)) ended (file_len file)) ∧
    (m + j ≤ length fs)%nat ∧ (ended = true → m + j = length fs)%nat ∧ (ended = false → 0 < j)%nat).
  { intros m Hm. destruct (page_at_boundary _ _ _ _ _ _ _ m Hw Hlen Hm) as (j & ended & Hj & Hpage & Hend). exists j, ended.
    split; [done|]. split; [done|]. by destruct ended. }
  split; [|exact Hat]. split.
  - destruct (read_locked_task_event_page _ _ _ _ _) as [outcome|] eqn:H; [intros _|done]. unfold read_locked_task_event_page in H.
    apply bind_Ok_inv in H as (previous & H & _). rewrite Z.min_l in H by lia. by eapply predecessor_boundary.
  - intros (m & Hm & ->). destruct (Hat m Hm) as (j & ended & -> & _). done.
Qed.

Lemma event_page_exact_witness :
  is_ok (read_locked_task_event_page demo_from_slice demo_stream "t" demo_log 4) = true ∧
  ∃ j ended, read_locked_task_event_page demo_from_slice demo_stream "t" demo_log 0 =
    Ok (mkPageOutcome (take j [demo_frame 1]) (boundary [[123; 49; 125]] j) ended 5).
Proof.
  destruct (event_page_exact demo_from_slice demo_stream "t" demo_log [[123; 49; 125]] [demo_frame 1] [123] 4) as [Hok Hpage];
    [exact demo_written|discriminate|split; discriminate|]. split.
  - apply Hok. exists 1%nat. split; [apply le_n|reflexivity].
  - destruct (Hpage 0%nat (Nat.le_0_l _)) as (j & ended & H & _). exists j, ended. exact H.
Defined.

(** C29: loading an event log ends, also while other processes append to it between its
    pages: within the limits of 64 MiB and 65536 frames it returns all the frames that
    the log held at the moment of one of its pages, which include those it held when the
    load began. *)
Theorem load_returns_a_snapshot {DaemonEvent} (from_slice : list Z → option (DaemonEventFrame DaemonEvent)) stream id log ls fs fuel :
  task_storage_id id = Ok id →
  growing from_slice stream id log ls fs →
  MAX_TASK_EVENT_LOAD_FRAMES < Z.of_nat fuel →
  ∃ i, (1 ≤ i)%nat ∧ fs 0%nat `prefix_of` fs i ∧ load_task_events from_slice stream fuel log id = Some (Ok (fs i)).
Proof.
  intros Hid Hg Hfuel. destruct (load_pages_ends _ _ id log ls fs fuel 1 0 Hg) as (i & Hi & Hload); [lia|lia|].
  exists i. split; [done|]. split; [eapply growing_prefix; [exact Hg|lia]|].
  unfold load_task_events, checked_task_storage_id. rewrite Hid. simpl.
  pose proof (gr_bytes _ _ _ _ _ _ Hg 0) as Hbytes. unfold check_whole_log at 1.
  replace (match log 0%nat with Some file => file_len file | None => 0 end) with (file_len (log_bytes (log 0%nat))) by by destruct (log 0%nat).
  rewrite (proj2 (Z.leb_le _ _) Hbytes). simpl. exact Hload.
Qed.

Lemma load_returns_a_snapshot_witness :
  let log := λ _ : nat, Some demo_log in
  ∃ i : nat, (1 ≤ i)%nat ∧ load_task_events demo_from_slice demo_stream (Z.to_nat (MAX_TASK_EVENT_LOAD_FRAMES + 1)) log "t" = Some (Ok [demo_frame 1]).
Proof.
  intros log. destruct (load_returns_a_snapshot demo_from_slice demo_stream "t" log (λ _, [[123; 49; 125]]) (λ _, [demo_frame 1])
    (Z.to_nat (MAX_TASK_EVENT_LOAD_FRAMES + 1))) as (i & Hi & _ & Hload).
  - vm_compute. reflexivity.
  - split; intros i; [exists [123]; exact demo_written|done|done|discriminate|discriminate].
  - rewrite Z2Nat.id by discriminate. reflexivity.
  - exists i. split; [exact Hi|exact Hload].
Defined.

