(* ===== verification/Ordering.v ===== *)
(** * Orderings: [std::cmp::Ordering] and the comparators passed to [sort_by]

    A comparator returns a [comparison].  [TotalCmp] states what a sort asks
    of it; the instances build the comparators of the source from those of
    its fields, as the source does with [cmp], [total_cmp], [reverse] and
    [then_with].  [sort_by_cmp] is the stable sort, and two lists with the
    same elements sort alike when no two of them compare equal. *)

From S2P Require Export F64.

(** [Ordering::then_with] and [Ordering::reverse]. *)
Definition then_with (a b : comparison) : comparison :=
  match a with Eq => b | _ => a end.
Definition cmp_reverse : comparison → comparison := CompOpp.

Class TotalCmp {A} (cmp : A → A → comparison) : Prop := {
  cmp_sym : ∀ x y, cmp y x = CompOpp (cmp x y);
  cmp_eq_l : ∀ x y z, cmp x y = Eq → cmp x z = cmp y z;
  cmp_lt_trans : ∀ x y z, cmp x y = Lt → cmp y z = Lt → cmp x z = Lt
}.

Section Instances.
Context {A B : Type}.

#[export] Instance total_cmp_on (f : A → B) (cmp : B → B → comparison) :
  TotalCmp cmp → TotalCmp (λ x y, cmp (f x) (f y)).
Proof. intros H. split; intros; [apply cmp_sym|by apply cmp_eq_l|by eapply cmp_lt_trans]. Qed.

#[export] Instance total_cmp_flip (cmp : A → A → comparison) : TotalCmp cmp → TotalCmp (λ x y, cmp y x).
Proof.
  intros H. split; intros x y; [apply cmp_sym| |].
  - intros z E. rewrite (cmp_sym x z), (cmp_sym y z). f_equal. apply cmp_eq_l. by rewrite (cmp_sym y x), E.
  - intros z Hx Hy. by apply (cmp_lt_trans z y x).
Qed.

#[export] Instance total_cmp_reverse (cmp : A → A → comparison) :
  TotalCmp cmp → TotalCmp (λ x y, cmp_reverse (cmp x y)).
Proof.
  intros H. unfold cmp_reverse. split; intros x y; [by rewrite (cmp_sym x y)| |].
  - intros z E. f_equal. apply cmp_eq_l. by destruct (cmp x y).
  - intros z Hx Hy. rewrite <- cmp_sym in Hx, Hy |- *. by apply (cmp_lt_trans _ y).
Qed.

#[export] Instance total_cmp_then (c d : A → A → comparison) :
  TotalCmp c → TotalCmp d → TotalCmp (λ x y, then_with (c x y) (d x y)).
Proof.
  intros Hc Hd. unfold then_with. split; intros x y.
  - rewrite (cmp_sym (cmp:=c) x y), (cmp_sym (cmp:=d) x y). by destruct (c x y).
  - intros z. destruct (c x y) eqn:E; [|done..]. intros Hxy. rewrite (cmp_eq_l (cmp:=c) x y z E). destruct (c y z); [|done..].
    by apply cmp_eq_l.
  - intros z. destruct (c x y) eqn:E; [|intros _|done].
    + rewrite (cmp_eq_l (cmp:=c) x y z E). destruct (c y z) eqn:E'; [|done..]. apply cmp_lt_trans.
    + destruct (c y z) eqn:E'; [intros _| |done].
      * rewrite (cmp_sym (cmp:=c) z x), (cmp_eq_l (cmp:=c) z y x); [by rewrite (cmp_sym (cmp:=c) x y), E|].
        rewrite (cmp_sym (cmp:=c) y z), E'. done.
      * intros _. by rewrite (cmp_lt_trans (cmp:=c) x y z).
Qed.
End Instances.

#[export] Instance total_cmp_Z : TotalCmp Z.compare.
Proof.
  split; intros.
  - apply Z.compare_antisym.
  - apply Z.compare_eq in H. by subst.
  - rewrite Z.compare_lt_iff in *. lia.
Qed.
#[export] Instance total_cmp_nat : TotalCmp Nat.compare.
Proof.
  split; intros.
  - apply Nat.compare_antisym.
  - apply Nat.compare_eq in H. by subst.
  - rewrite Nat.compare_lt_iff in *. lia.
Qed.

(** [str::cmp]: the order of the bytes. *)
Definition str_cmp (a b : string) : comparison :=
  if decide (a = b) then Eq else if str_leb a b then Lt else Gt.

Lemma str_cmp_Lt a b : str_cmp a b = Lt ↔ a ≠ b ∧ str_leb a b = true.
Proof. unfold str_cmp. repeat case_match; naive_solver. Qed.
Lemma str_cmp_Eq a b : str_cmp a b = Eq ↔ a = b.
Proof. unfold str_cmp. repeat case_match; naive_solver. Qed.

#[export] Instance total_cmp_str : TotalCmp str_cmp.
Proof.
  split; intros x y.
  - unfold str_cmp. repeat case_match; subst; try done; exfalso.
    + apply n. by apply str_leb_antisym.
    + pose proof (str_leb_total x y). naive_solver congruence.
  - by intros z ->%str_cmp_Eq.
  - intros z. rewrite !str_cmp_Lt. intros [Hn H] [Hn' H']. split; [|by eapply str_leb_trans].
    intros ->. apply Hn. by apply str_leb_antisym.
Qed.

(** ** [f64::total_cmp]: the order of the bit patterns, that is of the sign,
    then the exponent and the significand.  A NaN of [spec_float] has no sign
    and is placed last, where the positive ones are. *)

Definition f64_total_key (x : f64) : Z * (Z * Z) :=
  match x with
  | S754_infinity true => (-3, (0, 0))
  | S754_finite true m e => (-2, (- e, Z.neg m))
  | S754_zero true => (-1, (0, 0))
  | S754_zero false => (1, (0, 0))
  | S754_finite false m e => (2, (e, Z.pos m))
  | S754_infinity false => (3, (0, 0))
  | S754_nan => (4, (0, 0))
  end%Z.

Definition f64_total_cmp (x y : f64) : comparison :=
  then_with (Z.compare (f64_total_key x).1 (f64_total_key y).1)
    (then_with (Z.compare (f64_total_key x).2.1 (f64_total_key y).2.1)
       (Z.compare (f64_total_key x).2.2 (f64_total_key y).2.2)).

#[export] Instance total_cmp_f64 : TotalCmp f64_total_cmp.
Proof.
  unfold f64_total_cmp. apply total_cmp_then; [|apply total_cmp_then].
  - apply (total_cmp_on (λ x, (f64_total_key x).1) Z.compare), _.
  - apply (total_cmp_on (λ x, (f64_total_key x).2.1) Z.compare), _.
  - apply (total_cmp_on (λ x, (f64_total_key x).2.2) Z.compare), _.
Qed.

Lemma then_with_Eq a b : then_with a b = Eq ↔ a = Eq ∧ b = Eq.
Proof. destruct a; simpl; naive_solver. Qed.

Lemma f64_total_cmp_Eq x y : f64_total_cmp x y = Eq → x = y.
Proof.
  unfold f64_total_cmp. rewrite !then_with_Eq, !Z.compare_eq_iff. intros (H1 & H2 & H3).
  destruct x as [[]|[]| |[]], y as [[]|[]| |[]]; simpl in *; try done; f_equal; lia.
Qed.

(** ** [slice::sort_by] *)

Lemma StronglySorted_sublist {A} (R : relation A) (l k : list A) : l `sublist_of` k → StronglySorted R k → StronglySorted R l.
Proof.
  induction 1 as [|x l k H IH|x l k H IH]; intros Hk; [done|..]; apply StronglySorted_inv in Hk as [Hk Hx]; [|by apply IH].
  constructor; [by apply IH|]. rewrite Forall_forall in *. intros y Hy. apply Hx. by eapply elem_of_sublist.
Qed.
Lemma sublist_length_eq {A} (l k : list A) : l `sublist_of` k → length k ≤ length l → l = k.
Proof.
  induction 1 as [|x l k H IH|x l k H IH]; simpl; intros Hl; [done|f_equal; apply IH; lia|].
  apply sublist_length in H. lia.
Qed.
Lemma prefix_sublist {A} (l k : list A) : l `prefix_of` k → l `sublist_of` k.
Proof. intros [x ->]. by apply sublist_inserts_r. Qed.

Section SortByCmp.
Context {A : Type} (cmp : A → A → comparison).

Definition cmp_leb (x y : A) : bool := match cmp x y with Gt => false | _ => true end.
Definition sort_by_cmp (l : list A) : list A := sort_by cmp_leb l.

Lemma sort_by_cmp_perm l : sort_by_cmp l ≡ₚ l.
Proof. apply sort_by_perm. Qed.
Lemma elem_of_sort_by_cmp x l : x ∈ sort_by_cmp l ↔ x ∈ l.
Proof. apply elem_of_sort_by. Qed.
Lemma length_sort_by_cmp l : length (sort_by_cmp l) = length l.
Proof. apply length_sort_by. Qed.

Context `{!TotalCmp cmp}.

Lemma cmp_leb_total x y : cmp_leb x y = false → cmp_leb y x = true.
Proof using TotalCmp0. unfold cmp_leb. rewrite (cmp_sym x y). by destruct (cmp x y). Qed.

Lemma cmp_leb_trans x y z : cmp_leb x y = true → cmp_leb y z = true → cmp_leb x z = true.
Proof using TotalCmp0.
  unfold cmp_leb. destruct (cmp x y) eqn:E; [|intros _|done].
  - by rewrite (cmp_eq_l x y z E).
  - destruct (cmp y z) eqn:E'; [intros _|intros _|done].
    + rewrite (cmp_sym z x), (cmp_eq_l z y x), (cmp_sym x y), E; [done|]. by rewrite (cmp_sym y z), E'.
    + by rewrite (cmp_lt_trans x y z).
Qed.

Lemma sort_by_cmp_sorted l : StronglySorted (λ a b, cmp_leb a b = true) (sort_by_cmp l).
Proof using TotalCmp0. apply sort_by_sorted; [apply cmp_leb_trans|apply cmp_leb_total]. Qed.

(** The order of the input does not matter when its elements are told apart. *)
Lemma sort_by_cmp_perm_eq l k :
  (∀ x y, x ∈ l → y ∈ l → cmp x y = Eq → x = y) → l ≡ₚ k → sort_by_cmp l = sort_by_cmp k.
Proof using TotalCmp0.
  intros Hdist Hlk. apply (StronglySorted_unique_strong (λ a b, cmp_leb a b = true));
    [|apply sort_by_cmp_sorted..|by rewrite !sort_by_cmp_perm].
  intros x y Hx Hy Hxy Hyx. rewrite elem_of_sort_by_cmp in Hx, Hy. apply Hdist; [done|by rewrite Hlk|].
  unfold cmp_leb in *. rewrite (cmp_sym x y) in Hyx. by destruct (cmp x y).
Qed.
End SortByCmp.

(** [BTreeSet::into_iter().collect()]. *)
Definition btree_strings (X : gset string) : list string := sort_by_cmp str_cmp (elements X).
Lemma elem_of_btree_strings s X : s ∈ btree_strings X ↔ s ∈ X.
Proof. unfold btree_strings. by rewrite elem_of_sort_by_cmp, elem_of_elements. Qed.

Example f64_total_cmp_ex :
  sort_by_cmp f64_total_cmp [f64_of_Z 2; S754_zero false; f64_lit 1 2; S754_zero true; f64_of_Z (-7); f64_of_Z (-3)]
  = [f64_of_Z (-7); f64_of_Z (-3); S754_zero true; S754_zero false; f64_lit 1 2; f64_of_Z 2].
Proof. reflexivity. Qed.
