(* ===== verification/Text.v ===== *)
(** * Text: the operations of [str] on characters

    A [String] holds UTF-8, so a character is a leading byte with its
    continuation bytes.  This file adds to [Str] the operations that look at
    characters: counting, boundaries, splitting, and ASCII lower case. *)

From S2P Require Export Str.

(** ** Characters and their boundaries *)

Definition is_continuation (c : ascii) : bool := ((128 <=? chr c) && (chr c <? 192))%N.

(** [s.chars().count()]: every byte that does not continue a character. *)
Definition char_count (s : string) : nat := length (filter (λ c, is_continuation c = false) (str_bytes s)).

(** [str::is_char_boundary]. *)
Definition is_char_boundary (s : string) (i : nat) : bool :=
  (i =? 0) || match str_bytes s !! i with
              | Some c => negb (is_continuation c)
              | None => i =? str_len s
              end.

(** [String::truncate] at a boundary. *)
Definition str_take (n : nat) (s : string) : string := str_of_bytes (take n (str_bytes s)).

(** The characters of a string, each as its bytes. *)
Fixpoint chars_of (l : list ascii) : list (list ascii) :=
  match l with
  | [] => []
  | c :: l =>
      match chars_of l with
      | (d :: ch) :: chs => if is_continuation d then (c :: d :: ch) :: chs else [c] :: (d :: ch) :: chs
      | chs => [c] :: chs
      end
  end.
Definition chars (s : string) : list (list ascii) := chars_of (str_bytes s).

(** [s.chars().take(n)], collected. *)
Definition take_chars (n : nat) (s : string) : string := str_of_bytes (concat (take n (chars s))).

(** [str::split] at the characters that satisfy [p]. *)
Fixpoint split_chars_of (p : list ascii → bool) (l : list (list ascii)) : list (list ascii) :=
  match l with
  | [] => [[]]
  | c :: l =>
      if p c then [] :: split_chars_of p l
      else match split_chars_of p l with
           | part :: parts => (c ++ part) :: parts
           | [] => [c]
           end
  end.
Definition split_chars (p : list ascii → bool) (s : string) : list string :=
  str_of_bytes <$> split_chars_of p (chars s).

(** [str::split_whitespace]: the parts between runs of white space, none empty. *)
Fixpoint split_ws (fuel : nat) (word : list ascii) (l : list ascii) : list (list ascii) :=
  let flush rest := match word with [] => rest | _ => word :: rest end in
  match fuel, l with
  | S fuel, c :: l' =>
      match ws_front l with
      | O => split_ws fuel (word ++ [c]) l'
      | n => flush (split_ws fuel [] (drop n l))
      end
  | _, _ => flush []
  end.
Definition split_whitespace (s : string) : list string :=
  str_of_bytes <$> split_ws (str_len s) [] (str_bytes s).

(** [str::to_ascii_lowercase]. *)
Definition ascii_lowercase (c : ascii) : ascii :=
  if ((65 <=? chr c) && (chr c <=? 90))%N then ascii_of_N (chr c + 32) else c.
Fixpoint str_to_ascii_lowercase (s : string) : string :=
  match s with
  | EmptyString => EmptyString
  | String c s => String (ascii_lowercase c) (str_to_ascii_lowercase s)
  end.

(** [c.is_ascii_alphanumeric()], [is_ascii_uppercase()], [is_ascii_lowercase()], [is_ascii_digit()]. *)
Definition ascii_upper (c : ascii) : bool := ((65 <=? chr c) && (chr c <=? 90))%N.
Definition ascii_lower (c : ascii) : bool := ((97 <=? chr c) && (chr c <=? 122))%N.
Definition ascii_digit (c : ascii) : bool := ((48 <=? chr c) && (chr c <=? 57))%N.
Definition is_ascii_alphanumeric (c : ascii) : bool := ascii_digit c || ascii_upper c || ascii_lower c.

(** [!c.is_alphanumeric() && c != '_' && c != ':' && c != '/'], where [alphanumeric]
    is [char::is_alphanumeric] past ASCII. *)
Definition separates_tokens (alphanumeric : list ascii → bool) (ch : list ascii) : bool :=
  match ch with
  | [c] => if (chr c <? 128)%N
           then negb (is_ascii_alphanumeric c) && bool_decide (c ∉ ["_"; ":"; "/"]%char)
           else negb (alphanumeric ch)
  | _ => negb (alphanumeric ch)
  end.

(** [str::split] at ASCII characters: the bytes of [set] occur in no other character. *)
Fixpoint split_bytes (set : list ascii) (l : list ascii) : list (list ascii) :=
  match l with
  | [] => [[]]
  | c :: l =>
      if bool_decide (c ∈ set) then [] :: split_bytes set l
      else match split_bytes set l with part :: parts => (c :: part) :: parts | [] => [[c]] end
  end.
Definition split_at (set : list ascii) (s : string) : list string := str_of_bytes <$> split_bytes set (str_bytes s).

(** [str::trim_matches] of ASCII characters. *)
Fixpoint strip_bytes (set : list ascii) (l : list ascii) : list ascii :=
  match l with
  | [] => []
  | c :: l' => if bool_decide (c ∈ set) then strip_bytes set l' else l
  end.
Definition trim_matches (set : list ascii) (s : string) : string :=
  str_of_bytes (reverse (strip_bytes set (reverse (strip_bytes set (str_bytes s))))).

(** ** Lemmas *)

Lemma length_str_bytes s : length (str_bytes s) = str_len s.
Proof. induction s as [|c s IH]; [done|]. simpl. by rewrite IH. Qed.

Lemma str_len_app s t : str_len (s +:+ t) = str_len s + str_len t.
Proof. by rewrite <- !length_str_bytes, str_bytes_app, length_app. Qed.

Lemma str_of_bytes_bytes s : str_of_bytes (str_bytes s) = s.
Proof. induction s as [|c s IH]; [done|]. simpl. by rewrite IH. Qed.

Lemma str_bytes_take n s : str_bytes (str_take n s) = take n (str_bytes s).
Proof. apply str_bytes_of_bytes. Qed.

Lemma str_len_take n s : n ≤ str_len s → str_len (str_take n s) = n.
Proof. intros. rewrite <- length_str_bytes, str_bytes_take, length_take, length_str_bytes. lia. Qed.

Lemma str_take_app n s t : n ≤ str_len s → str_take n (s +:+ t) = str_take n s.
Proof. intros. unfold str_take. by rewrite str_bytes_app, take_app_le by (by rewrite length_str_bytes). Qed.

Lemma str_take_take n m s : n ≤ m → str_take n (str_take m s) = str_take n s.
Proof. intros. unfold str_take. rewrite str_bytes_of_bytes, take_take. by rewrite Nat.min_l. Qed.

Lemma is_char_boundary_0 s : is_char_boundary s 0 = true.
Proof. done. Qed.

Lemma is_char_boundary_app s t i : i < str_len s → is_char_boundary (s +:+ t) i = is_char_boundary s i.
Proof.
  intros H. unfold is_char_boundary. rewrite str_bytes_app, lookup_app_l by (by rewrite length_str_bytes).
  destruct (str_bytes s !! i) eqn:E; [done|]. apply lookup_ge_None in E. rewrite length_str_bytes in E. lia.
Qed.

Lemma is_char_boundary_take s n i : i < n → n ≤ str_len s → is_char_boundary (str_take n s) i = is_char_boundary s i.
Proof.
  intros H Hn. unfold is_char_boundary. rewrite str_bytes_take, lookup_take_lt by done.
  destruct (str_bytes s !! i) eqn:E; [done|]. apply lookup_ge_None in E. rewrite length_str_bytes in E. lia.
Qed.

Lemma char_count_le s : char_count s ≤ str_len s.
Proof. unfold char_count. rewrite <- length_str_bytes. apply length_filter. Qed.

(** Cutting at a boundary cuts between characters. *)
Lemma chars_of_app l k :
  match k with [] => True | c :: _ => is_continuation c = false end → chars_of (l ++ k) = chars_of l ++ chars_of k.
Proof.
  intros Hk. induction l as [|c l IH]; [done|]. simpl. rewrite IH.
  destruct (chars_of l) as [|[|d ch] chs] eqn:E; simpl; [|done|by destruct (is_continuation d)].
  destruct k as [|d k]; [done|]. simpl.
  destruct (chars_of k) as [|[|d' ch] chs]; simpl; rewrite ?Hk; [done..|].
  destruct (is_continuation d'); by rewrite Hk.
Qed.

Lemma concat_chars_of l : concat (chars_of l) = l.
Proof.
  induction l as [|c l IH]; [done|]. simpl. destruct (chars_of l) as [|[|d ch] chs]; simpl in *; [by rewrite <- IH|by rewrite <- IH|].
  destruct (is_continuation d); simpl; by rewrite <- IH.
Qed.

Example chars_ex : chars (str_of_bytes (ascii_of_N <$> [97; 195; 169; 98]))%N
  = [[ascii_of_N 97]; [ascii_of_N 195; ascii_of_N 169]; [ascii_of_N 98]].
Proof. reflexivity. Qed.
Example split_whitespace_ex : split_whitespace "  a  bc d " = ["a"; "bc"; "d"].
Proof. reflexivity. Qed.
Example split_chars_ex : split_chars (λ c, bool_decide (c = ["-"%char])) "-a--b" = [""; "a"; ""; "b"].
Proof. reflexivity. Qed.
Example trim_matches_ex : trim_matches ["/"%char] "//a/b/" = "a/b" ∧ split_at ["/"%char; "."%char] "a.b//c" = ["a"; "b"; ""; "c"].
Proof. split; reflexivity. Qed.

(** Lowering ASCII letters does not touch white space. *)
Lemma str_bytes_lowercase s : str_bytes (str_to_ascii_lowercase s) = ascii_lowercase <$> str_bytes s.
Proof. induction s as [|c s IH]; [done|]. simpl. by rewrite IH. Qed.
Lemma chr_lowercase c :
  chr (ascii_lowercase c) = if ((65 <=? chr c) && (chr c <=? 90))%N then (chr c + 32)%N else chr c.
Proof. destruct c as [[] [] [] [] [] [] [] []]; reflexivity. Qed.
Lemma lowercase_eqb c n : (122 < n)%N → (chr (ascii_lowercase c) =? n)%N = (chr c =? n)%N.
Proof. intros. rewrite chr_lowercase. case_match eqn:E; [|done]. apply andb_prop in E as [?%N.leb_le ?%N.leb_le]. apply eq_true_iff_eq. rewrite !N.eqb_eq. lia. Qed.
Lemma lowercase_ge c n : (122 < n)%N → (n <=? chr (ascii_lowercase c))%N = (n <=? chr c)%N.
Proof. intros. rewrite chr_lowercase. case_match eqn:E; [|done]. apply andb_prop in E as [?%N.leb_le ?%N.leb_le]. apply eq_true_iff_eq. rewrite !N.leb_le. lia. Qed.
Lemma lowercase_le c n : (122 < n)%N → (chr (ascii_lowercase c) <=? n)%N = (chr c <=? n)%N.
Proof. intros. rewrite chr_lowercase. case_match eqn:E; [|done]. apply andb_prop in E as [?%N.leb_le ?%N.leb_le]. apply eq_true_iff_eq. rewrite !N.leb_le. lia. Qed.
Lemma ws1_lowercase a : ws1 (chr (ascii_lowercase a)) = ws1 (chr a).
Proof. destruct a as [[] [] [] [] [] [] [] []]; reflexivity. Qed.
Lemma ws2_lowercase a b : ws2 (chr (ascii_lowercase a)) (chr (ascii_lowercase b)) = ws2 (chr a) (chr b).
Proof. unfold ws2. by rewrite !lowercase_eqb. Qed.
Lemma ws3_lowercase a b c :
  ws3 (chr (ascii_lowercase a)) (chr (ascii_lowercase b)) (chr (ascii_lowercase c)) = ws3 (chr a) (chr b) (chr c).
Proof. unfold ws3. by rewrite !lowercase_eqb, lowercase_ge, lowercase_le. Qed.
Lemma ws_front_lowercase l : ws_front (ascii_lowercase <$> l) = ws_front l.
Proof. destruct l as [|a [|b [|c l]]]; simpl; [done|..]; by rewrite ws1_lowercase, ?ws2_lowercase, ?ws3_lowercase. Qed.
Lemma ws_back_lowercase l : ws_back (ascii_lowercase <$> l) = ws_back l.
Proof. destruct l as [|a [|b [|c l]]]; simpl; [done|..]; by rewrite ws1_lowercase, ?ws2_lowercase, ?ws3_lowercase. Qed.
Lemma strip_ws_lowercase ws fuel l :
  (∀ l, ws (ascii_lowercase <$> l) = ws l) →
  strip_ws ws fuel (ascii_lowercase <$> l) = ascii_lowercase <$> strip_ws ws fuel l.
Proof.
  intros H. revert l. induction fuel as [|fuel IH]; intros l; simpl; [done|]. rewrite H.
  destruct (ws l); [done|]. by rewrite <- fmap_drop, IH.
Qed.
Lemma is_blank_lowercase s : is_blank (str_to_ascii_lowercase s) = is_blank s.
Proof.
  unfold is_blank, trim. apply bool_decide_ext. rewrite !str_of_bytes_nil, str_bytes_lowercase.
  unfold trim_start, trim_end. rewrite length_fmap, (strip_ws_lowercase _ _ _ ws_front_lowercase), length_fmap.
  rewrite <- fmap_reverse, (strip_ws_lowercase _ _ _ ws_back_lowercase), <- fmap_reverse.
  split; [apply fmap_nil_inv|by intros ->].
Qed.
