(* ===== verification/Assemble.v ===== *)
(** * Assemble: a bounded context packet out of many packets

    Models [src/crates/contextq-core/src/assemble.rs] and the data of its [lib.rs]:
    references are derived and merged by key, sections are completed, scored
    and admitted greedily under the budgets, references are ranked and
    admitted, and the payload is pruned until its JSON fits.  Serialisation
    ([serde_json]), the Unicode tables and the iteration order of a [HashMap]
    are parameters.  Paths are UTF-8. *)

From S2P Require Export Json Text Ordering.

(** ** Data *)

Inductive DetailMode : Type := Compact | Rich.

Definition DEFAULT_BUDGET_TOKENS : Z := 5000.
Definition DEFAULT_BUDGET_BYTES : Z := 32000.
Definition CONTEXTQ_SCHEMA_VERSION : string := "contextq.assemble.v1".

Record ContextRef : Type := mkContextRef {
  cr_kind : string;
  cr_value : string;
  cr_source : option string;
  cr_relevance : option f64
}.

Record ContextSection : Type := mkContextSection {
  cs_id : option string;
  cs_title : string;
  cs_body : string;
  cs_refs : list ContextRef;
  cs_relevance : option f64;
  cs_source_packet : option string
}.

Record ToolInvocation : Type := mkToolInvocation {
  ti_name : string;
  ti_reducer : option string;
  ti_paths : list string;
  ti_token_usage : option Z;
  ti_runtime_ms : option Z;
  ti_input : Json;
  ti_output : Json
}.

Record ReducerInvocation : Type := mkReducerInvocation {
  ri_name : string;
  ri_token_usage : option Z;
  ri_runtime_ms : option Z;
  ri_output : Json
}.

Record PacketFileRef : Type := mkPacketFileRef {
  pf_path : string;
  pf_relevance : option f64;
  pf_source : option string
}.

Record PacketSymbolRef : Type := mkPacketSymbolRef {
  psr_name : string;
  psr_file : option string;
  psr_kind : option string;
  psr_relevance : option f64;
  psr_source : option string
}.

Record InputPacket : Type := mkInputPacket {
  ip_packet_id : option string;
  ip_summary : option string;
  ip_tool : option string;
  ip_tools : list string;
  ip_reducer : option string;
  ip_reducers : list string;
  ip_paths : list string;
  ip_token_usage : option Z;
  ip_runtime_ms : option Z;
  ip_payload : Json;
  ip_files : list PacketFileRef;
  ip_symbols : list PacketSymbolRef;
  ip_tool_invocations : list ToolInvocation;
  ip_reducer_invocations : list ReducerInvocation;
  ip_text_blobs : list string;
  ip_sections : list ContextSection;
  ip_refs : list ContextRef
}.

Definition default_input_packet : InputPacket :=
  mkInputPacket None None None [] None [] [] None None JNull [] [] [] [] [] [] [].

Record AssemblySummary : Type := mkAssemblySummary {
  as_input_packets : nat;
  as_sections_input : nat;
  as_sections_kept : nat;
  as_sections_dropped : nat;
  as_refs_input : nat;
  as_refs_kept : nat;
  as_refs_dropped : nat;
  as_budget_tokens : Z;
  as_budget_bytes : Z;
  as_estimated_tokens : Z;
  as_estimated_bytes : Z;
  as_truncated : bool
}.

Record AssembledPayload : Type := mkAssembledPayload {
  ap_sources : list string;
  ap_sections : list ContextSection;
  ap_refs : list ContextRef;
  ap_truncated : bool
}.

Record AssembledPacket : Type := mkAssembledPacket {
  ak_schema_version : string;
  ak_packet_id : option string;
  ak_tool : option string;
  ak_tools : list string;
  ak_reducer : option string;
  ak_reducers : list string;
  ak_paths : list string;
  ak_token_usage : option Z;
  ak_runtime_ms : option Z;
  ak_payload : Json;
  ak_tool_invocations : list ToolInvocation;
  ak_reducer_invocations : list ReducerInvocation;
  ak_text_blobs : list string;
  ak_assembly : AssemblySummary
}.

(** The fields of [suite_packet_core::AgentSnapshotPayload] the assembly reads. *)
Record AgentQuestion : Type := mkAgentQuestion { aq_id : string; aq_text : string }.
Record AgentSnapshot : Type := mkAgentSnapshot {
  sn_focus_paths : list string;
  sn_focus_symbols : list string;
  sn_files_read : list string;
  sn_files_edited : list string;
  sn_open_questions : list AgentQuestion
}.

Record AssembleOptions : Type := mkAssembleOptions {
  ao_budget_tokens : Z;
  ao_budget_bytes : Z;
  ao_detail_mode : DetailMode;
  ao_compact_assembly : bool;
  ao_agent_snapshot : option AgentSnapshot
}.

Definition default_assemble_options : AssembleOptions :=
  mkAssembleOptions DEFAULT_BUDGET_TOKENS DEFAULT_BUDGET_BYTES Compact false None.

Definition is_compact (m : DetailMode) : bool := match m with Compact => true | Rich => false end.

(** Field updates. *)
Definition set_refs (s : ContextSection) (refs : list ContextRef) : ContextSection :=
  mkContextSection (cs_id s) (cs_title s) (cs_body s) refs (cs_relevance s) (cs_source_packet s).
Definition set_body (s : ContextSection) (body : string) : ContextSection :=
  mkContextSection (cs_id s) (cs_title s) body (cs_refs s) (cs_relevance s) (cs_source_packet s).
Definition set_relevance (s : ContextSection) (r : option f64) : ContextSection :=
  mkContextSection (cs_id s) (cs_title s) (cs_body s) (cs_refs s) r (cs_source_packet s).
Definition set_title (s : ContextSection) (title : string) : ContextSection :=
  mkContextSection (cs_id s) title (cs_body s) (cs_refs s) (cs_relevance s) (cs_source_packet s).
Definition set_source_packet (s : ContextSection) (p : option string) : ContextSection :=
  mkContextSection (cs_id s) (cs_title s) (cs_body s) (cs_refs s) (cs_relevance s) p.
Definition set_ref_relevance (r : ContextRef) (x : option f64) : ContextRef :=
  mkContextRef (cr_kind r) (cr_value r) (cr_source r) x.
Definition set_packet_refs (p : InputPacket) (refs : list ContextRef) : InputPacket :=
  mkInputPacket (ip_packet_id p) (ip_summary p) (ip_tool p) (ip_tools p) (ip_reducer p) (ip_reducers p) (ip_paths p)
    (ip_token_usage p) (ip_runtime_ms p) (ip_payload p) (ip_files p) (ip_symbols p) (ip_tool_invocations p)
    (ip_reducer_invocations p) (ip_text_blobs p) (ip_sections p) refs.
Definition set_packet_sections (p : InputPacket) (sections : list ContextSection) : InputPacket :=
  mkInputPacket (ip_packet_id p) (ip_summary p) (ip_tool p) (ip_tools p) (ip_reducer p) (ip_reducers p) (ip_paths p)
    (ip_token_usage p) (ip_runtime_ms p) (ip_payload p) (ip_files p) (ip_symbols p) (ip_tool_invocations p)
    (ip_reducer_invocations p) (ip_text_blobs p) sections (ip_refs p).

(** ** The outside: [serde_json] and Unicode *)

Class AssembleEnv : Type := {
  number_as_f64 : string → f64;                      (* [as_f64] of a number's text *)
  is_alphanumeric : list ascii → bool;               (* [char::is_alphanumeric] past ASCII *)
  to_string_pretty : Json → option string;
  section_json : ContextSection → option string;     (* [to_vec] *)
  ref_json : ContextRef → option string;
  payload_json : AssembledPayload → option string;   (* [to_string] *)
  payload_value : AssembledPayload → option Json;    (* [to_value] *)
  value_json : Json → option string
}.

(** ** Small text helpers *)

Definition non_empty (input : option string) : option string :=
  value ← input;
  let trimmed := trim value in
  if bool_decide (trimmed = EmptyString) then None else Some trimmed.

Definition normalize_path (path : string) : string := replace_char "092" "/" path.

Definition truncate_text (input : string) (cap : nat) : string :=
  let normalized := String.concat " " (split_whitespace input) in
  if char_count normalized <=? cap then normalized
  else take_chars (cap - 3) normalized +:+ "...".

Definition contains_any (haystack : string) (needles : list string) : bool :=
  existsb (λ needle, contains needle haystack) needles.

Definition path_matches_any (path : string) (candidates : list string) : bool :=
  let normalized := normalize_path path in
  existsb (λ candidate,
    let candidate := normalize_path candidate in
    bool_decide (normalized = candidate) || starts_with candidate normalized || starts_with normalized candidate)
    candidates.

Definition symbol_matches_any (symbol : string) (candidates : list string) : bool :=
  let normalized := str_to_ascii_lowercase symbol in
  existsb (λ candidate,
    let candidate := str_to_ascii_lowercase candidate in
    bool_decide (normalized = candidate) || contains candidate normalized || contains normalized candidate)
    candidates.

(** ** References and their keys *)

Definition ref_key (r : ContextRef) : string :=
  let kind := if is_blank (cr_kind r) then "file" else str_to_ascii_lowercase (trim (cr_kind r)) in
  let raw_value := trim (cr_value r) in
  let value :=
    if bool_decide (kind ∈ ["file"; "path"]) then str_to_ascii_lowercase (normalize_path raw_value)
    else str_to_ascii_lowercase raw_value in
  kind +:+ "::" +:+ value.

(** [merge_ref]: the first reference with a key stays; it takes the better
    relevance, and a source if it had none. *)
Definition merge_ref (m : gmap string ContextRef) (incoming : ContextRef) : gmap string ContextRef :=
  let incoming :=
    if is_blank (cr_kind incoming)
    then mkContextRef "file" (cr_value incoming) (cr_source incoming) (cr_relevance incoming)
    else incoming in
  let key := ref_key incoming in
  match m !! key with
  | Some existing =>
      let best := f64_max (default f64_zero (cr_relevance existing)) (default f64_zero (cr_relevance incoming)) in
      let source := match cr_source existing with None => cr_source incoming | Some s => Some s end in
      <[key := mkContextRef (cr_kind existing) (cr_value existing) source (Some best)]> m
  | None => <[key := incoming]> m
  end.

Definition ref_name_cmp (a b : ContextRef) : comparison :=
  then_with (str_cmp (cr_kind a) (cr_kind b)) (str_cmp (cr_value a) (cr_value b)).

(** The references of a packet's declared files, symbols and paths. *)
Definition file_ref (label : string) (relevance : f64) (path : string) : ContextRef :=
  mkContextRef "file" (normalize_path path) (Some label) (Some relevance).
Definition symbol_ref (label : string) (relevance : f64) (name : string) : ContextRef :=
  mkContextRef "symbol" name (Some label) (Some relevance).

Definition derive_file_refs (label : string) (file : PacketFileRef) : list ContextRef :=
  match non_empty (Some (pf_path file)) with
  | Some path => [file_ref label (default (f64_lit 8 10) (pf_relevance file)) path]
  | None => []
  end.

Definition derive_symbol_refs (label : string) (symbol : PacketSymbolRef) : list ContextRef :=
  match non_empty (Some (psr_name symbol)) with
  | Some name => [symbol_ref label (default (f64_lit 7 10) (psr_relevance symbol)) name]
  | None => []
  end ++
  match psr_file symbol ≫= λ v, non_empty (Some v) with
  | Some file => [file_ref label (default (f64_lit 65 100) (psr_relevance symbol)) file]
  | None => []
  end.

Definition derive_path_refs (label : string) (path : string) : list ContextRef :=
  match non_empty (Some path) with
  | Some path => [file_ref label (f64_lit 8 10) path]
  | None => []
  end.

(** The strings of the array under [key], each made a reference. *)
Definition string_item_refs (mk : string → ContextRef) (map : list (string * Json)) (key : string) : list ContextRef :=
  match assoc_get key map with
  | Some (JArray items) => mk <$> omap json_as_str items
  | _ => []
  end.

Definition derive_test_refs (label : string) (item : Json) : list ContextRef :=
  match item with
  | JObject test =>
      key ← ["id"; "name"];
      match assoc_get key test with
      | Some (JString symbol) => [symbol_ref label (f64_lit 55 100) symbol]
      | _ => []
      end
  | _ => []
  end.

Definition derive_payload_refs (label : string) (payload : Json) : list ContextRef :=
  match payload with
  | JObject map =>
      (key ← ["paths"; "files"]; string_item_refs (file_ref label (f64_lit 7 10)) map key) ++
      (key ← ["selected_tests"; "smoke_tests"; "missing_mappings"];
       string_item_refs (symbol_ref label (f64_lit 6 10)) map key) ++
      match assoc_get "tests" map with
      | Some (JArray tests) => tests ≫= derive_test_refs label
      | _ => []
      end
  | _ => []
  end.

Definition derive_refs (packet : InputPacket) (payload : Json) (packet_label : string) : list ContextRef :=
  (ip_files packet ≫= derive_file_refs packet_label) ++
  (ip_symbols packet ≫= derive_symbol_refs packet_label) ++
  (ip_paths packet ≫= derive_path_refs packet_label) ++
  derive_payload_refs packet_label payload.

(** ** The body of a packet without sections *)

(** [.get(k).and_then(Value::as_array).map(|items| items.len()).unwrap_or(0)] and the like. *)
Definition array_len (k : string) (map : list (string * Json)) : nat :=
  default 0 (length <$> (assoc_get k map ≫= json_as_array)).
Definition uint_field (k : string) (map : list (string * Json)) : Z :=
  default 0%Z (assoc_get k map ≫= json_as_u64).
Definition contains_key (k : string) (map : list (string * Json)) : bool :=
  match assoc_get k map with Some _ => true | None => false end.

Section Summaries.
Context `{!AssembleEnv}.

Definition json_as_f64 (v : Json) : option f64 :=
  match v with
  | JUint n => Some (f64_of_Z n)
  | JNumber text => Some (number_as_f64 text)
  | _ => None
  end.
Definition number_field (show : f64 → string) (k : string) (map : list (string * Json)) : string :=
  default "n/a" (show <$> (assoc_get k map ≫= json_as_f64)).

Definition summarize_gate (gate : list (string * Json)) : string :=
  let passed := default false (assoc_get "passed" gate ≫= json_as_bool) in
  let pct := λ x, f64_fmt1 x +:+ "%" in
  "gate_result: passed=" +:+ show_bool passed +:+ " total=" +:+ number_field pct "total_coverage_pct" gate
    +:+ " changed=" +:+ number_field pct "changed_coverage_pct" gate.

Definition summarize_impact (result : list (string * Json)) : string :=
  "impact_result: selected=" +:+ show_nat (array_len "selected_tests" result)
    +:+ " smoke=" +:+ show_nat (array_len "smoke_tests" result)
    +:+ " missing=" +:+ show_nat (array_len "missing_mappings" result)
    +:+ " confidence=" +:+ number_field f64_fmt2 "confidence" result.

Definition summarize_repo_map (map : list (string * Json)) : string :=
  "repo_map: files=" +:+ show_nat (array_len "files_ranked" map)
    +:+ " symbols=" +:+ show_nat (array_len "symbols_ranked" map)
    +:+ " edges=" +:+ show_nat (array_len "edges" map).

Definition summarize_counts (what total unique : string) (map : list (string * Json)) : string :=
  what +:+ ": total=" +:+ show_uint (uint_field total map) +:+ " unique=" +:+ show_uint (uint_field unique map)
    +:+ " duplicates_removed=" +:+ show_uint (uint_field "duplicates_removed" map).

Definition summarize_keys (map : list (string * Json)) : string :=
  let keys := take 6 (sort_by_cmp str_cmp map.*1) in
  "object(keys=" +:+ show_nat (length map) +:+ "): " +:+ String.concat ", " keys.

Definition summarize_payload_object (map : list (string * Json)) : string :=
  match assoc_get "gate_result" map with
  | Some (JObject gate) => summarize_gate gate
  | _ =>
      match assoc_get "result" map with
      | Some (JObject result) => summarize_impact result
      | _ =>
          if contains_key "files_ranked" map && contains_key "symbols_ranked" map then summarize_repo_map map
          else if contains_key "total_failures" map && contains_key "unique_failures" map then
            summarize_counts "stack_failures" "total_failures" "unique_failures" map
          else if contains_key "total_diagnostics" map && contains_key "unique_diagnostics" map then
            summarize_counts "build_diagnostics" "total_diagnostics" "unique_diagnostics" map
          else summarize_keys map
      end
  end.

Definition summarize_payload (value : Json) : string :=
  match value with
  | JNull => "null"
  | JBool v => show_bool v
  | JUint v => show_uint v
  | JNumber text => text
  | JString text => truncate_text text 180
  | JArray items => "array(len=" +:+ show_nat (length items) +:+ ")"
  | JObject map => summarize_payload_object map
  end.

Definition default_section_title (packet : InputPacket) (packet_label : string) : string :=
  match non_empty (ip_reducer packet) with
  | Some reducer => reducer +:+ " output"
  | None => match non_empty (ip_tool packet) with
            | Some tool => tool +:+ " output"
            | None => "packet " +:+ packet_label
            end
  end.

Definition default_section_body (packet : InputPacket) (detail_mode : DetailMode) : string :=
  match ip_payload packet, detail_mode with
  | JNull, _ => default "{}" (ip_summary packet)
  | JString text, Rich => text
  | JString text, Compact => default (truncate_text text 180) (ip_summary packet)
  | other, Rich => default "{}" (to_string_pretty other)
  | other, Compact => default (summarize_payload other) (ip_summary packet)
  end.

Definition build_default_section (packet : InputPacket) (packet_label : string) (detail_mode : DetailMode) : ContextSection :=
  mkContextSection None (default_section_title packet packet_label) (default_section_body packet detail_mode)
    (ip_refs packet) None (Some packet_label).

(** ** Relevance, focus and the question *)

Definition f64_of_nat (n : nat) : f64 := f64_of_Z (Z.of_nat n).

Definition infer_relevance (section : ContextSection) : f64 :=
  let corpus := str_to_ascii_lowercase (cs_title section +:+ " " +:+ cs_body section) in
  let score := f64_lit 1 2 in
  let score :=
    if contains_any corpus ["critical"; "fail"; "failed"; "error"; "regression"; "panic"]
    then f64_add score (f64_lit 7 10) else score in
  let score :=
    if contains_any corpus ["warning"; "uncovered"; "missing"; "stale"]
    then f64_add score (f64_lit 3 10) else score in
  let score :=
    if contains_any corpus ["passed"; "ok"; "green"] then f64_add score (f64_lit 1 10) else score in
  f64_add score (f64_mul (f64_of_nat (length (cs_refs section))) (f64_lit 4 100)).

(** A character that separates tokens. *)
Definition is_separator (ch : list ascii) : bool := separates_tokens is_alphanumeric ch.

Definition tokenize_text (input : string) : list string :=
  filter (λ part, 2 ≤ str_len part)
    ((λ part, str_to_ascii_lowercase (trim part)) <$> split_chars is_separator input).

Definition question_tokens (snapshot : AgentSnapshot) : gset string :=
  list_to_set (sn_open_questions snapshot ≫= λ question, tokenize_text (aq_text question)).

Definition is_file_kind (r : ContextRef) : bool := bool_decide (cr_kind r ∈ ["file"; "path"]).
Definition section_file_refs (section : ContextSection) : list string :=
  (λ r, normalize_path (trim (cr_value r))) <$> filter (λ r, is_file_kind r) (cs_refs section).
Definition section_symbol_refs (section : ContextSection) : list string :=
  (λ r, str_to_ascii_lowercase (trim (cr_value r))) <$> filter (λ r, cr_kind r = "symbol") (cs_refs section).

Definition section_corpus (section : ContextSection) : string :=
  foldl (λ corpus r, corpus +:+ " " +:+ str_to_ascii_lowercase (cr_value r))
    (str_to_ascii_lowercase (cs_title section +:+ " " +:+ cs_body section)) (cs_refs section).

Definition section_focus_boost (section : ContextSection) (snapshot : AgentSnapshot) : f64 :=
  let boost := f64_zero in
  let boost :=
    if existsb (λ path, path_matches_any path (sn_focus_paths snapshot)) (section_file_refs section)
    then f64_add boost (f64_lit 35 100) else boost in
  if existsb (λ symbol, symbol_matches_any symbol (sn_focus_symbols snapshot)) (section_symbol_refs section)
  then f64_add boost (f64_lit 25 100) else boost.

(** The share of the question's tokens the text holds, times [cap]. *)
Definition token_boost (haystack : string) (tokens : gset string) (cap : f64) : f64 :=
  if bool_decide (tokens = ∅) then f64_zero
  else
    let matched := size (filter (λ token, contains token haystack) tokens) in
    if matched =? 0 then f64_zero
    else f64_min (f64_mul (f64_div (f64_of_nat matched) (f64_of_nat (size tokens))) cap) cap.

Definition question_match_boost (section : ContextSection) (tokens : gset string) : f64 :=
  token_boost (section_corpus section) tokens (f64_lit 25 100).

Definition ref_focus_boost (r : ContextRef) (snapshot : AgentSnapshot) : f64 :=
  let normalized := normalize_path (trim (cr_value r)) in
  if is_file_kind r then
    if path_matches_any normalized (sn_focus_paths snapshot) then f64_lit 3 10 else f64_zero
  else if bool_decide (cr_kind r = "symbol") then
    if symbol_matches_any (trim (cr_value r)) (sn_focus_symbols snapshot) then f64_lit 2 10 else f64_zero
  else f64_zero.

Definition ref_question_boost (r : ContextRef) (tokens : gset string) : f64 :=
  token_boost (str_to_ascii_lowercase (cr_value r)) tokens (f64_lit 15 100).

Definition should_compress_section (section : ContextSection) (snapshot : AgentSnapshot) (tokens : gset string) : bool :=
  let file_refs := section_file_refs section in
  negb (bool_decide (sn_files_read snapshot = [])) &&
  negb (bool_decide (file_refs = [])) &&
  forallb (λ path, path_matches_any path (sn_files_read snapshot)) file_refs &&
  negb (existsb (λ path, path_matches_any path (sn_files_edited snapshot)) file_refs) &&
  negb (existsb (λ path, path_matches_any path (sn_focus_paths snapshot)) file_refs) &&
  negb (existsb (λ symbol, symbol_matches_any symbol (sn_focus_symbols snapshot)) (section_symbol_refs section)) &&
  negb (f64_lt f64_zero (question_match_boost section tokens)).

Definition compress_section (section : ContextSection) : ContextSection :=
  let files := section_file_refs section in
  let label :=
    match files with
    | [] => default "section" (cs_source_packet section)
    | _ => String.concat ", " (take 2 files)
    end in
  mkContextSection (cs_id section) (cs_title section) ("Reminder: already reviewed " +:+ label) (cs_refs section)
    (Some (f64_mul (default (f64_lit 1 2) (cs_relevance section)) (f64_lit 6 10))) (cs_source_packet section).
End Summaries.

(** ** Estimates and budgets *)

Definition estimate_tokens (text : string) : Z := saturating_add u64_max (Z.of_nat (char_count text)) 3 / 4.

Definition json_bytes (s : option string) : Z := default 0%Z ((λ s, Z.of_nat (str_len s)) <$> s).

Definition estimate_section_tokens (section : ContextSection) : Z :=
  estimate_tokens
    (foldl (λ text r, text +:+ String newline (cr_kind r +:+ ":" +:+ cr_value r))
       (cs_title section +:+ String newline (cs_body section)) (cs_refs section)).

Definition estimate_ref_tokens (r : ContextRef) : Z := estimate_tokens (cr_kind r +:+ ":" +:+ cr_value r).

Definition exceeds_budget (used add cap : Z) : bool := (cap <? saturating_add u64_max used add)%Z.
Definition exceeds_budget_usize (used add cap : Z) : bool := (cap <? saturating_add usize_max used add)%Z.

(** What has been charged so far. *)
Record Usage : Type := mkUsage { us_tokens : Z; us_bytes : Z }.

(** The guard of the two admission loops and the charge that follows it. *)
Definition charge (options : AssembleOptions) (tokens bytes : Z) (u : Usage) : option Usage :=
  if exceeds_budget (us_tokens u) tokens (ao_budget_tokens options)
     || exceeds_budget_usize (us_bytes u) bytes (ao_budget_bytes options)
  then None
  else Some (mkUsage (saturating_add u64_max (us_tokens u) tokens) (saturating_add usize_max (us_bytes u) bytes)).

(** ** Pruning: [enforce_budget] *)

(** [while !is_char_boundary(new_len) { new_len -= 1 }]: 0 is a boundary. *)
Fixpoint boundary_below (s : string) (n : nat) : nat :=
  match n with
  | O => O
  | S m => if is_char_boundary s n then n else boundary_below s m
  end.

Definition cut_body (body : string) : string :=
  let new_len := boundary_below body (Nat.max (str_len body * 3 / 4) 32) in
  str_take new_len body +:+ " ...".

(** One pruning step: the last reference, else part of the last body, else
    the last section; nothing when all are gone. *)
Definition prune_sections (sections : list ContextSection) : option (list ContextSection) :=
  match last sections with
  | None => None
  | Some s =>
      let rest := take (length sections - 1) sections in
      if 64 <? str_len (cs_body s) then Some (rest ++ [set_body s (cut_body (cs_body s))])
      else Some rest
  end.

Definition prune (p : AssembledPayload) : option AssembledPayload :=
  match ap_refs p with
  | _ :: _ => Some (mkAssembledPayload (ap_sources p) (ap_sections p) (take (length (ap_refs p) - 1) (ap_refs p)) true)
  | [] => (λ sections, mkAssembledPayload (ap_sources p) sections [] true) <$> prune_sections (ap_sections p)
  end.

Definition fits_budget (options : AssembleOptions) (text : string) : bool :=
  ((estimate_tokens text <=? ao_budget_tokens options) && (Z.of_nat (str_len text) <=? ao_budget_bytes options))%Z.

Definition set_truncated (p : AssembledPayload) : AssembledPayload :=
  mkAssembledPayload (ap_sources p) (ap_sections p) (ap_refs p) true.

Section Enforce.
Context `{!AssembleEnv}.

Fixpoint enforce_loop (fuel : nat) (options : AssembleOptions) (p : AssembledPayload) : AssembledPayload :=
  match fuel with
  | O => p
  | S fuel =>
      match payload_json p with
      | None => p
      | Some serialized =>
          if fits_budget options serialized then p
          else match prune p with
               | Some p => enforce_loop fuel options p
               | None => set_truncated p
               end
      end
  end.
End Enforce.

(** Every step drops a reference, shortens a body or drops a section. *)
Definition payload_size (p : AssembledPayload) : nat :=
  length (ap_refs p) + sum_list_with (λ s, S (str_len (cs_body s))) (ap_sections p).

Definition enforce_budget `{!AssembleEnv} (p : AssembledPayload) (options : AssembleOptions) : AssembledPayload :=
  enforce_loop (S (payload_size p)) options p.

(** ** The assembly *)

Section Assembly.
Context `{!AssembleEnv}.
(** [HashMap::into_values]: the values in some order. *)
Context (into_values : gmap string ContextRef → list ContextRef).

Definition dedupe_refs (refs : list ContextRef) : list ContextRef :=
  sort_by_cmp ref_name_cmp (into_values (foldl merge_ref ∅ refs)).

Definition packet_label_of (packet_idx : nat) (packet : InputPacket) : string :=
  match ip_packet_id packet with
  | Some id => if is_blank id then "packet-" +:+ show_nat (packet_idx + 1) else id
  | None => "packet-" +:+ show_nat (packet_idx + 1)
  end.

(** The defaults a section is given before it is scored. *)
Definition complete_section (packet_label : string) (packet_refs : list ContextRef) (section_idx : nat)
    (section : ContextSection) : ContextSection :=
  let section := if is_blank (cs_title section) then set_title section ("Section " +:+ show_nat (section_idx + 1)) else section in
  let section := match cs_source_packet section with None => set_source_packet section (Some packet_label) | Some _ => section end in
  let section := match cs_refs section with [] => set_refs section packet_refs | refs => set_refs section (dedupe_refs refs) end in
  match cs_relevance section with None => set_relevance section (Some (infer_relevance section)) | Some _ => section end.

Definition prepare_section (options : AssembleOptions) (tokens : gset string) (packet_label : string)
    (packet_refs : list ContextRef) (section_idx : nat) (section : ContextSection) : ContextSection :=
  let section := complete_section packet_label packet_refs section_idx section in
  match ao_agent_snapshot options with
  | Some snapshot => if should_compress_section section snapshot tokens then compress_section section else section
  | None => section
  end.

Definition section_score (options : AssembleOptions) (tokens : gset string) (section : ContextSection) : f64 :=
  let score := f64_add (default (f64_lit 1 2) (cs_relevance section))
                       (f64_mul (f64_of_nat (length (cs_refs section))) (f64_lit 5 100)) in
  match ao_agent_snapshot options with
  | Some snapshot =>
      f64_add (f64_add score (section_focus_boost section snapshot)) (question_match_boost section tokens)
  | None => score
  end.

(** The loop body over a packet: its references, then its sections. *)
Definition prepare_packet (options : AssembleOptions) (tokens : gset string) (packet_idx : nat)
    (packet : InputPacket) : InputPacket :=
  let packet_label := packet_label_of packet_idx packet in
  let derived_refs := derive_refs packet (ip_payload packet) packet_label in
  let packet := set_packet_refs packet (dedupe_refs (ip_refs packet ++ derived_refs)) in
  let packet :=
    match ip_sections packet with
    | [] => set_packet_sections packet [build_default_section packet packet_label (ao_detail_mode options)]
    | _ => packet
    end in
  set_packet_sections packet (imap (prepare_section options tokens packet_label (ip_refs packet)) (ip_sections packet)).

(** An entry of [all_sections]: score, packet index, section index, section. *)
Record Scored : Type := mkScored { sc_score : f64; sc_packet : nat; sc_index : nat; sc_section : ContextSection }.

Definition scored_cmp (a b : Scored) : comparison :=
  then_with (cmp_reverse (f64_total_cmp (sc_score a) (sc_score b)))
    (then_with (Nat.compare (sc_packet a) (sc_packet b)) (Nat.compare (sc_index a) (sc_index b))).

Definition scored_sections (options : AssembleOptions) (tokens : gset string) (packet_idx : nat) (packet : InputPacket)
    : list Scored :=
  imap (λ section_idx section, mkScored (section_score options tokens section) packet_idx section_idx section)
    (ip_sections packet).

Definition source_summary (packet_idx : nat) (packet : InputPacket) : ToolInvocation :=
  mkToolInvocation (default "input-packet" (ip_tool packet)) (ip_reducer packet) (ip_paths packet)
    (ip_token_usage packet) (ip_runtime_ms packet) JNull
    (JObject [("packet_id", JString (packet_label_of packet_idx packet));
              ("refs", JUint (Z.of_nat (length (ip_refs packet))));
              ("sections", JUint (Z.of_nat (length (ip_sections packet))))]).

(** The names a packet contributes to [tools], [reducers] and [paths]. *)
Definition names_of (single : option string) (many : list string) : gset string :=
  list_to_set (omap (λ s, non_empty s) (single :: (Some <$> many))).
Definition paths_of (packet : InputPacket) : gset string :=
  list_to_set (omap (λ s, normalize_path <$> non_empty (Some s)) (ip_paths packet ++ (pf_path <$> ip_files packet))).

(** The keys of every reference, of the packets and of their sections. *)
Definition packet_ref_keys (packet : InputPacket) : list string :=
  (ref_key <$> ip_refs packet) ++ (section ← ip_sections packet; ref_key <$> cs_refs section).
Definition refs_input_keys (packets : list InputPacket) : gset string :=
  list_to_set (packets ≫= packet_ref_keys).

(** The admission of the sections. *)
Record Admission : Type := mkAdmission {
  ad_usage : Usage;
  ad_seen : gset string;
  ad_sections : list ContextSection
}.

Definition admit_section (options : AssembleOptions) (a : Admission) (section : ContextSection) : Admission :=
  let section := set_refs section (filter (λ r, ref_key r ∉ ad_seen a) (cs_refs section)) in
  let charged := if ao_compact_assembly options then set_refs section [] else section in
  match charge options (estimate_section_tokens charged) (json_bytes (section_json charged)) (ad_usage a) with
  | None => a
  | Some usage =>
      mkAdmission usage (ad_seen a ∪ list_to_set (ref_key <$> cs_refs section)) (ad_sections a ++ [section])
  end.

Definition admit_ref (options : AssembleOptions) (a : Usage * list ContextRef) (r : ContextRef)
    : Usage * list ContextRef :=
  match charge options (estimate_ref_tokens r) (json_bytes (ref_json r)) a.1 with
  | None => a
  | Some usage => (usage, a.2 ++ [r])
  end.

Definition boost_ref (options : AssembleOptions) (tokens : gset string) (r : ContextRef) : ContextRef :=
  match ao_agent_snapshot options with
  | Some snapshot =>
      let base := default f64_zero (cr_relevance r) in
      set_ref_relevance r
        (Some (f64_add (f64_add base (ref_focus_boost r snapshot)) (ref_question_boost r tokens)))
  | None => r
  end.

Definition ref_rank_cmp (a b : ContextRef) : comparison :=
  then_with (f64_total_cmp (default f64_zero (cr_relevance b)) (default f64_zero (cr_relevance a)))
    (ref_name_cmp a b).

Definition options_tokens (options : AssembleOptions) : gset string :=
  match ao_agent_snapshot options with Some snapshot => question_tokens snapshot | None => ∅ end.

Definition prepare_packets (options : AssembleOptions) (packets : list InputPacket) : list InputPacket :=
  imap (prepare_packet options (options_tokens options)) packets.

Definition admitted_sections (options : AssembleOptions) (packets : list InputPacket) : Admission :=
  let all_sections := concat (imap (scored_sections options (options_tokens options)) packets) in
  foldl (admit_section options) (mkAdmission (mkUsage 0 0) ∅ []) (sc_section <$> sort_by_cmp scored_cmp all_sections).

Definition ranked_refs (options : AssembleOptions) (packets : list InputPacket) (sections : list ContextSection)
    : list ContextRef :=
  let refs_by_key := foldl merge_ref ∅ ((sections ≫= cs_refs) ++ (packets ≫= ip_refs)) in
  sort_by_cmp ref_rank_cmp (boost_ref options (options_tokens options) <$> into_values refs_by_key).

(** The payload before pruning. *)
Definition selected_payload (options : AssembleOptions) (sources : list string) (packets : list InputPacket)
    : AssembledPayload :=
  let admission := admitted_sections options packets in
  let refs := (foldl (admit_ref options) (ad_usage admission, []) (ranked_refs options packets (ad_sections admission))).2 in
  let sections := if ao_compact_assembly options then (λ s, set_refs s []) <$> ad_sections admission
                  else ad_sections admission in
  mkAssembledPayload sources sections refs false.

Definition assemble_packets (packets : list InputPacket) (options : AssembleOptions) : AssembledPacket :=
  let sources := imap packet_label_of packets in
  let tools : gset string := ⋃ ((λ p, names_of (ip_tool p) (ip_tools p)) <$> packets) in
  let reducers : gset string := ⋃ ((λ p, names_of (ip_reducer p) (ip_reducers p)) <$> packets) in
  let paths : gset string := ⋃ (paths_of <$> packets) in
  let total_runtime_ms := foldl (λ t p, saturating_add u64_max t (default 0%Z (ip_runtime_ms p))) 0%Z packets in
  let packets := prepare_packets options packets in
  let payload := enforce_budget (selected_payload options sources packets) options in
  let payload_value := default JNull (payload_value payload) in
  let payload_text := default EmptyString (value_json payload_value) in
  let final_tokens := estimate_tokens payload_text in
  let final_bytes := Z.of_nat (str_len payload_text) in
  let sections_input := sum_list_with (λ p, length (ip_sections p)) packets in
  let refs_input_count := size (refs_input_keys packets) in
  let refs_kept := length (ap_refs payload) in
  let refs_dropped := refs_input_count - refs_kept in
  let sections_kept := length (ap_sections payload) in
  let sections_dropped := sections_input - sections_kept in
  let truncated := (0 <? sections_dropped) || (0 <? refs_dropped) || ap_truncated payload in
  let brief := ao_compact_assembly options || is_compact (ao_detail_mode options) in
  {| ak_schema_version := CONTEXTQ_SCHEMA_VERSION;
     ak_packet_id := Some "contextq-assembled-v1";
     ak_tool := Some "contextq";
     ak_tools := btree_strings ({["contextq"]} ∪ tools);
     ak_reducer := Some "assemble";
     ak_reducers := btree_strings ({["assemble"]} ∪ reducers);
     ak_paths := btree_strings paths;
     ak_token_usage := Some final_tokens;
     ak_runtime_ms := Some total_runtime_ms;
     ak_payload := payload_value;
     ak_tool_invocations := if brief then [] else imap source_summary packets;
     ak_reducer_invocations :=
       if brief then []
       else [mkReducerInvocation "contextq.assemble" (Some final_tokens) None
               (JObject [("refs_kept", JUint (Z.of_nat refs_kept));
                         ("sections_kept", JUint (Z.of_nat sections_kept));
                         ("truncated", JBool truncated)])];
     ak_text_blobs := if brief then [] else cs_body <$> ap_sections payload;
     ak_assembly :=
       {| as_input_packets := length packets;
          as_sections_input := sections_input;
          as_sections_kept := sections_kept;
          as_sections_dropped := sections_dropped;
          as_refs_input := refs_input_count;
          as_refs_kept := refs_kept;
          as_refs_dropped := refs_dropped;
          as_budget_tokens := ao_budget_tokens options;
          as_budget_bytes := ao_budget_bytes options;
          as_estimated_tokens := final_tokens;
          as_estimated_bytes := final_bytes;
          as_truncated := truncated |} |}.
End Assembly.

(** ** Packet files *)

Inductive CovyError : Type :=
| Io (path source : string)
| Parse (format detail : string).

Section Files.
Context `{!AssembleEnv}.
Context (into_values : gmap string ContextRef → list ContextRef).
(** [std::fs::read_to_string] and [serde_json::from_str], with the error's
    text, and [serde_json::from_value]. *)
Context (read_to_string : string → result string string).
Context (from_str : string → result string Json).
Context (input_packet_from_value : Json → option InputPacket).

Definition set_packet_id (p : InputPacket) (id : option string) : InputPacket :=
  mkInputPacket id (ip_summary p) (ip_tool p) (ip_tools p) (ip_reducer p) (ip_reducers p) (ip_paths p)
    (ip_token_usage p) (ip_runtime_ms p) (ip_payload p) (ip_files p) (ip_symbols p) (ip_tool_invocations p)
    (ip_reducer_invocations p) (ip_text_blobs p) (ip_sections p) (ip_refs p).
Definition set_payload (p : InputPacket) (payload : Json) : InputPacket :=
  mkInputPacket (ip_packet_id p) (ip_summary p) (ip_tool p) (ip_tools p) (ip_reducer p) (ip_reducers p) (ip_paths p)
    (ip_token_usage p) (ip_runtime_ms p) payload (ip_files p) (ip_symbols p) (ip_tool_invocations p)
    (ip_reducer_invocations p) (ip_text_blobs p) (ip_sections p) (ip_refs p).

Definition from_value (value : Json) (source_label : string) : InputPacket :=
  let parsed := default default_input_packet (input_packet_from_value value) in
  let parsed := match ip_packet_id parsed with None => set_packet_id parsed (Some source_label) | Some _ => parsed end in
  match ip_payload parsed with JNull => set_payload parsed value | _ => parsed end.

Definition read_json_file (path : string) : result CovyError Json :=
  match read_to_string path with
  | Err source => Err (Io path source)
  | Ok content =>
      match from_str content with
      | Ok value => Ok value
      | Err detail => Err (Parse "packet-json" detail)
      end
  end.

Fixpoint read_packets (packet_paths : list string) : result CovyError (list InputPacket) :=
  match packet_paths with
  | [] => Ok []
  | path :: packet_paths =>
      value ← read_json_file path;
      packets ← read_packets packet_paths;
      Ok (from_value value path :: packets)
  end.

Definition assemble_packet_files (packet_paths : list string) (options : AssembleOptions) : result CovyError AssembledPacket :=
  packets ← read_packets packet_paths; Ok (assemble_packets into_values packets options).
End Files.
