(* ===== verification/AssembleSpec.v ===== *)
(** * AssembleSpec: what the assembly promises

    The pruning loop ends and leaves a payload that fits, or the bare
    envelope; the payload of an assembled packet is within the budgets it was
    given; its references have distinct keys taken from the input and its
    summary adds up; and the iteration order of the hash maps does not show. *)

From S2P Require Export Assemble.

(** [serde_json]: a payload always serialises, and its text and the text of
    its value hold the same members in another order. *)
Class AssembleLaws `{!AssembleEnv} : Prop :=
  payload_text : ∀ p, ∃ s v t,
    payload_json p = Some s ∧ payload_value p = Some v ∧ value_json v = Some t ∧
    str_len t = str_len s ∧ char_count t = char_count s.

(** [into_values] lists every value once. *)
Definition lists_values (into_values : gmap string ContextRef → list ContextRef) : Prop :=
  ∀ m, into_values m ≡ₚ (map_to_list m).*2.

(** What pruning may do to the sections: drop a tail, and shorten the body of
    the last one kept, at a character boundary. *)
Inductive SectionsPruned : list ContextSection → list ContextSection → Prop :=
| sections_kept l rest : SectionsPruned (l ++ rest) l
| sections_cut l s n rest :
    n < str_len (cs_body s) → is_char_boundary (cs_body s) n = true →
    SectionsPruned (l ++ s :: rest) (l ++ [set_body s (str_take n (cs_body s) +:+ " ...")]).

Record Pruned (p q : AssembledPayload) : Prop := {
  pruned_sources : ap_sources q = ap_sources p;
  pruned_refs : ap_refs q `prefix_of` ap_refs p;
  pruned_refs_first : ap_refs q ≠ [] → ap_sections q = ap_sections p;
  pruned_sections : SectionsPruned (ap_sections p) (ap_sections q);
  pruned_flag : q = p ∨ ap_truncated q = true
}.

(** The loop is done: serialisation failed, the budget is met, or nothing is left to drop. *)
Definition Settled `{!AssembleEnv} (options : AssembleOptions) (q : AssembledPayload) : Prop :=
  match payload_json q with
  | None => True
  | Some s => fits_budget options s = true
  end ∨ (ap_refs q = [] ∧ ap_sections q = [] ∧ ap_truncated q = true).

(** ** Pruning *)

Ltac apply_snoc_inj :=
  match goal with H : _ ++ [_] = _ ++ [_] |- _ => apply app_inj_tail in H as [<- <-] end.

Section Pruning.
Implicit Types (p q : AssembledPayload) (s : ContextSection) (b : string).

Lemma boundary_below_spec b n : boundary_below b n ≤ n ∧ is_char_boundary b (boundary_below b n) = true.
Proof.
  induction n as [|n IH]; [by rewrite is_char_boundary_0|]. cbn [boundary_below].
  destruct (is_char_boundary b (S n)) eqn:E; [done|]. destruct IH. split; [lia|done].
Qed.

Lemma cut_body_spec b :
  64 < str_len b →
  ∃ n, n ≤ str_len b * 3 / 4 ∧ is_char_boundary b n = true ∧ cut_body b = str_take n b +:+ " ...".
Proof.
  intros Hb. unfold cut_body. destruct (boundary_below_spec b (Nat.max (str_len b * 3 / 4) 32)) as [Hn Hc].
  eexists. split_and!; [|exact Hc|done].
  assert (32 ≤ str_len b * 3 / 4) by (apply Nat.div_le_lower_bound; lia). lia.
Qed.

Lemma three_quarters n : n * 3 / 4 * 4 ≤ n * 3.
Proof. pose proof (Nat.Div0.mul_div_le (n * 3) 4). lia. Qed.

Lemma cut_body_len b : 64 < str_len b → str_len (cut_body b) < str_len b.
Proof.
  intros Hb. destruct (cut_body_spec b Hb) as (n & Hn & _ & ->). pose proof (three_quarters (str_len b)).
  rewrite str_len_app, str_len_take by lia. change (str_len " ...") with 4. lia.
Qed.

Lemma prune_sections_cases l :
  (l = [] ∧ prune_sections l = None) ∨
  ∃ k s, l = k ++ [s] ∧
    prune_sections l = Some (if 64 <? str_len (cs_body s) then k ++ [set_body s (cut_body (cs_body s))] else k).
Proof.
  destruct l as [|s k _] using rev_ind; [by left|right]. exists k, s. split; [done|].
  unfold prune_sections. rewrite last_snoc, length_app. simpl. replace (length k + 1 - 1) with (length k) by lia.
  rewrite take_app_length. by case_match.
Qed.

Lemma sections_pruned_refl l : SectionsPruned l l.
Proof. rewrite <- (app_nil_r l) at 1. constructor. Qed.

Lemma sections_pruned_step l k m : SectionsPruned l k → prune_sections k = Some m → SectionsPruned l m.
Proof.
  intros H Hm. destruct (prune_sections_cases k) as [[-> E]|(k' & s & -> & E)]; [by rewrite E in Hm|].
  rewrite E in Hm. apply Some_inj in Hm. subst m. clear E.
  destruct (64 <? str_len (cs_body s)) eqn:Hl; reflect_bool.
  - destruct (cut_body_spec _ Hl) as (n & Hn & Hc & ->). pose proof (three_quarters (str_len (cs_body s))).
    inversion H as [l' rest|l' s' n' rest Hn' Hc']; subst.
    + rewrite <- app_assoc. simpl. constructor; [lia|done].
    + apply_snoc_inj.
      change (cs_body (set_body s' (str_take n' (cs_body s') +:+ " ..."))) with (str_take n' (cs_body s') +:+ " ...") in *.
      rewrite str_len_app, str_len_take in * by lia. change (str_len " ...") with 4 in *.
      rewrite str_take_app, str_take_take by (rewrite ?str_len_take; lia).
      rewrite is_char_boundary_app, is_char_boundary_take in Hc by (rewrite ?str_len_take; lia).
      refine (sections_cut l' s' n rest _ Hc). lia.
  - inversion H as [l' rest|l' s' n' rest Hn' Hc']; subst.
    + rewrite <- app_assoc. constructor.
    + apply_snoc_inj. constructor.
Qed.

Lemma prune_size p q : prune p = Some q → payload_size q < payload_size p.
Proof.
  unfold prune, payload_size. destruct (ap_refs p) as [|r refs] eqn:E.
  - destruct (prune_sections_cases (ap_sections p)) as [[-> ->]|(k & s & -> & ->)]; [done|]. intros [= <-]. simpl.
    rewrite !sum_list_with_app. simpl. destruct (64 <? str_len (cs_body s)) eqn:Hl; reflect_bool; [|lia].
    rewrite sum_list_with_app. simpl. pose proof (cut_body_len _ Hl). lia.
  - intros [= <-]. cbn [ap_refs ap_sections]. rewrite length_take. simpl. lia.
Qed.

Lemma prune_None p : prune p = None → ap_refs p = [] ∧ ap_sections p = [].
Proof.
  unfold prune. destruct (ap_refs p); [|done].
  destruct (prune_sections_cases (ap_sections p)) as [[-> ->]|(k & s & -> & ->)]; done.
Qed.

Lemma pruned_refl p : Pruned p p.
Proof. split; [done..|apply sections_pruned_refl|by left]. Qed.

Lemma pruned_step p q r : Pruned p q → prune q = Some r → Pruned p r ∧ ap_truncated r = true.
Proof.
  intros [Hsrc Hrefs Hfirst Hsec _]. unfold prune. destruct (ap_refs q) as [|x refs] eqn:E.
  - destruct (prune_sections (ap_sections q)) as [l|] eqn:El; [|done]. intros [= <-]. split; [|done].
    split; simpl; [done|apply prefix_nil|done|by eapply sections_pruned_step|by right].
  - intros [= <-]. split; [|done]. split; simpl; [done| |by intros _; apply Hfirst|done|by right].
    etrans; [|exact Hrefs]. apply prefix_take.
Qed.

Context `{!AssembleEnv}.

Lemma enforce_loop_fuel options fuel fuel' p :
  payload_size p < fuel → payload_size p < fuel' → enforce_loop fuel options p = enforce_loop fuel' options p.
Proof.
  revert fuel' p. induction fuel as [|fuel IH]; intros [|fuel'] p ? ?; [lia..|]. simpl.
  destruct (payload_json p); [|done]. destruct (fits_budget _ _); [done|].
  destruct (prune p) as [q|] eqn:E; [|done]. apply prune_size in E. apply IH; lia.
Qed.

Lemma enforce_loop_spec options fuel p q :
  payload_size q < fuel → Pruned p q → let r := enforce_loop fuel options q in Pruned p r ∧ Settled options r.
Proof.
  revert q. induction fuel as [|fuel IH]; intros q Hf Hq; [lia|]. simpl.
  destruct (payload_json q) as [s|] eqn:Es; [|split; [done|left; by rewrite Es]].
  destruct (fits_budget options s) eqn:Ef; [split; [done|left; by rewrite Es]|].
  destruct (prune q) as [r|] eqn:Er.
  - apply IH; [pose proof (prune_size q r Er); lia|]. by apply (pruned_step p q).
  - apply prune_None in Er as [Hr Hs]. destruct Hq as [Hsrc Hrefs Hfirst Hsec _].
    split; [|by right]. split; simpl; [done..|by right].
Qed.

Lemma enforce_budget_correct (p : AssembledPayload) (options : AssembleOptions) (fuel : nat) :
  payload_size p < fuel →
  let q := enforce_budget p options in
  enforce_loop fuel options p = q ∧ Pruned p q ∧ Settled options q.
Proof.
  intros Hf q. split; [apply enforce_loop_fuel; [done|lia]|].
  apply enforce_loop_spec; [lia|apply pruned_refl].
Qed.
End Pruning.

(** ** Keys of references *)

Section Keys.
Implicit Types (r : ContextRef) (m : gmap string ContextRef).

(** The reference a map holds is filed under its own key. *)
Definition keyed (m : gmap string ContextRef) : Prop := ∀ k r, m !! k = Some r → ref_key r = k.

Lemma ref_key_eq r r' : cr_kind r = cr_kind r' → cr_value r = cr_value r' → ref_key r = ref_key r'.
Proof. unfold ref_key. by intros -> ->. Qed.

(** A blank kind counts as [file]. *)
Lemma ref_key_file r : is_blank (cr_kind r) = true → ref_key (mkContextRef "file" (cr_value r) (cr_source r) (cr_relevance r)) = ref_key r.
Proof. intros H. unfold ref_key. rewrite H. reflexivity. Qed.

(** [merge_ref] files one reference under the key of the incoming one. *)
Lemma merge_ref_insert m r :
  ∃ x, merge_ref m r = <[ref_key r := x]> m ∧ (keyed m → ref_key x = ref_key r).
Proof.
  unfold merge_ref. destruct (is_blank (cr_kind r)) eqn:Hb.
  - rewrite (ref_key_file r Hb). destruct (m !! ref_key r) as [e|] eqn:E; eexists; (split; [done|]); intros Hm.
    + rewrite <- (Hm _ _ E). by apply ref_key_eq.
    + by apply ref_key_file.
  - destruct (m !! ref_key r) as [e|] eqn:E; eexists; (split; [done|]); intros Hm; [|done].
    rewrite <- (Hm _ _ E). by apply ref_key_eq.
Qed.

Lemma merge_refs_spec m refs :
  keyed m →
  keyed (foldl merge_ref m refs) ∧ dom (foldl merge_ref m refs) = dom m ∪ list_to_set (ref_key <$> refs).
Proof.
  revert m. induction refs as [|r refs IH]; intros m Hm; simpl; [split; [done|set_solver]|].
  destruct (merge_ref_insert m r) as (x & -> & Hx). specialize (Hx Hm).
  destruct (IH (<[ref_key r := x]> m)) as [Hk Hd].
  { intros k y. rewrite lookup_insert_Some. intros [[<- <-]|[_ ?]]; [done|by apply Hm]. }
  split; [done|]. rewrite Hd, dom_insert_L. set_solver.
Qed.

Lemma keyed_empty : keyed ∅.
Proof. intros k r. by rewrite lookup_empty. Qed.

(** The map the references of a list are merged into. *)
Definition merged (refs : list ContextRef) : gmap string ContextRef := foldl merge_ref ∅ refs.

Lemma merged_keyed refs : keyed (merged refs).
Proof. apply merge_refs_spec, keyed_empty. Qed.
Lemma merged_dom refs : dom (merged refs) = list_to_set (ref_key <$> refs).
Proof. unfold merged. rewrite (proj2 (merge_refs_spec ∅ refs keyed_empty)). set_solver. Qed.

Context (into_values : gmap string ContextRef → list ContextRef) (Hiv : lists_values into_values).

Lemma values_keys m : keyed m → ref_key <$> into_values m ≡ₚ (map_to_list m).*1.
Proof using Hiv.
  intros Hm. rewrite (Hiv m), <- list_fmap_compose.
  replace (ref_key ∘ snd <$> map_to_list m) with (map_to_list m).*1; [done|]. apply list_fmap_ext.
  intros i [k r] H%list_elem_of_lookup_2%elem_of_map_to_list. symmetry. by apply Hm.
Qed.

Lemma values_NoDup m : keyed m → NoDup (ref_key <$> into_values m).
Proof using Hiv. intros Hm. rewrite values_keys by done. apply NoDup_fst_map_to_list. Qed.

Lemma values_dom m k : keyed m → k ∈ ref_key <$> into_values m ↔ k ∈ dom m.
Proof using Hiv.
  intros Hm. rewrite values_keys by done. rewrite elem_of_dom, list_elem_of_fmap. split.
  - intros ([k' r] & -> & H%elem_of_map_to_list). by eexists.
  - intros [r H]. exists (k, r). by rewrite elem_of_map_to_list.
Qed.

Lemma values_key_inj m r r' : keyed m → r ∈ into_values m → r' ∈ into_values m → ref_key r = ref_key r' → r = r'.
Proof using Hiv.
  intros Hm. rewrite (Hiv m), !list_elem_of_fmap.
  intros ([k x] & -> & Hx%elem_of_map_to_list) ([k' x'] & -> & Hx'%elem_of_map_to_list) E. simpl in *.
  rewrite (Hm _ _ Hx), (Hm _ _ Hx') in E. congruence.
Qed.

(** A deduplicated list has the keys of the list, each once. *)
Lemma dedupe_refs_NoDup refs : NoDup (ref_key <$> dedupe_refs into_values refs).
Proof using Hiv. unfold dedupe_refs. rewrite sort_by_cmp_perm. apply values_NoDup, merged_keyed. Qed.

Lemma dedupe_refs_keys refs k : k ∈ ref_key <$> dedupe_refs into_values refs ↔ k ∈ ref_key <$> refs.
Proof using Hiv.
  unfold dedupe_refs. rewrite sort_by_cmp_perm. fold (merged refs).
  rewrite values_dom by apply merged_keyed. rewrite merged_dom. set_solver.
Qed.
End Keys.

#[export] Instance total_cmp_ref_name : TotalCmp ref_name_cmp.
Proof.
  unfold ref_name_cmp. apply total_cmp_then.
  - apply (total_cmp_on cr_kind str_cmp), _.
  - apply (total_cmp_on cr_value str_cmp), _.
Qed.

#[export] Instance total_cmp_ref_rank : TotalCmp ref_rank_cmp.
Proof.
  unfold ref_rank_cmp. apply total_cmp_then; [|apply _].
  apply (total_cmp_flip (λ a b, f64_total_cmp (default f64_zero (cr_relevance a)) (default f64_zero (cr_relevance b)))).
  apply (total_cmp_on (λ r, default f64_zero (cr_relevance r)) f64_total_cmp), _.
Qed.

#[export] Instance total_cmp_scored : TotalCmp scored_cmp.
Proof.
  unfold scored_cmp. apply total_cmp_then; [|apply total_cmp_then].
  - apply (total_cmp_reverse (λ a b, f64_total_cmp (sc_score a) (sc_score b))). apply (total_cmp_on sc_score f64_total_cmp), _.
  - apply (total_cmp_on sc_packet Nat.compare), _.
  - apply (total_cmp_on sc_index Nat.compare), _.
Qed.

Lemma ref_name_cmp_key r r' : ref_name_cmp r r' = Eq → ref_key r = ref_key r'.
Proof. unfold ref_name_cmp. rewrite then_with_Eq, !str_cmp_Eq. intros [??]. by apply ref_key_eq. Qed.

Lemma boost_ref_key `{!AssembleEnv} options tokens r : ref_key (boost_ref options tokens r) = ref_key r.
Proof. unfold boost_ref. by case_match. Qed.

(** ** Sections: what a kept section keeps *)

(** [b'] is [b], or a prefix of it up to a character boundary and an ellipsis. *)
Definition shortened (b b' : string) : Prop :=
  b' = b ∨ ∃ n, n < str_len b ∧ is_char_boundary b n = true ∧ b' = str_take n b +:+ " ...".

(** [t] stands for the section [s]: the same but for dropped references and a shortened body. *)
Definition section_kept (s t : ContextSection) : Prop :=
  cs_id t = cs_id s ∧ cs_title t = cs_title s ∧ cs_relevance t = cs_relevance s ∧
  cs_source_packet t = cs_source_packet s ∧ cs_refs t `sublist_of` cs_refs s ∧ shortened (cs_body s) (cs_body t).

(** [t] is [s] with some of its references. *)
Definition trimmed (s t : ContextSection) : Prop :=
  ∃ refs, t = set_refs s refs ∧ refs `sublist_of` cs_refs s.

Lemma set_refs_same s : set_refs s (cs_refs s) = s.
Proof. by destruct s. Qed.
Lemma set_body_same s : set_body s (cs_body s) = s.
Proof. by destruct s. Qed.

Lemma trimmed_kept s t b : trimmed s t → shortened (cs_body s) b → section_kept s (set_body t b).
Proof. intros (refs & -> & Hrefs) Hb. by repeat split. Qed.

Lemma trimmed_bodies l m : Forall2 trimmed l m → cs_body <$> m = cs_body <$> l.
Proof. induction 1 as [|s t l m (refs & -> & _) _ IH]; [done|]. rewrite !fmap_cons, IH. done. Qed.

Lemma pruned_sections_kept l m q :
  Forall2 trimmed l m → SectionsPruned m q → ∃ k, k `prefix_of` l ∧ Forall2 section_kept k q.
Proof.
  intros Hl Hp. destruct Hp as [m rest|m s n rest Hn Hc].
  - apply Forall2_app_inv_r in Hl as (l1 & l2 & H1 & _ & ->). exists l1. split; [by apply prefix_app_r|].
    eapply Forall2_impl; [exact H1|]. intros s t Ht. rewrite <- (set_body_same t). apply trimmed_kept; [done|left].
    by destruct Ht as (refs & -> & _).
  - apply Forall2_app_inv_r in Hl as (l1 & l2 & H1 & H2 & ->).
    apply Forall2_cons_inv_r in H2 as (s0 & l3 & Hs & _ & ->).
    exists (l1 ++ [s0]). split; [apply prefix_app, (prefix_app_r [s0] [s0] l3); done|].
    apply Forall2_app.
    + eapply Forall2_impl; [exact H1|]. intros s1 t Ht. rewrite <- (set_body_same t). apply trimmed_kept; [done|left].
      by destruct Ht as (refs & -> & _).
    + apply Forall2_cons; split; [|done]. apply trimmed_kept; [done|right]. destruct Hs as (refs & -> & _). by exists n.
Qed.

(** ** The admission of sections *)

Section Admit.
Context `{!AssembleEnv}.
Implicit Types (a : Admission) (s : ContextSection) (options : AssembleOptions).

Definition section_keys (sections : list ContextSection) : list string := ref_key <$> (sections ≫= cs_refs).

(** The admitted sections share no reference key, and the keys seen are theirs. *)
Definition admission_ok (a : Admission) : Prop :=
  NoDup (section_keys (ad_sections a)) ∧ ∀ k, k ∈ ad_seen a ↔ k ∈ section_keys (ad_sections a).

Lemma section_keys_snoc sections s : section_keys (sections ++ [s]) = section_keys sections ++ (ref_key <$> cs_refs s).
Proof. unfold section_keys. rewrite bind_app, fmap_app. simpl. by rewrite app_nil_r. Qed.

Lemma admit_section_cases options a s :
  admit_section options a s = a ∨
  ∃ usage, let t := set_refs s (filter (λ r, ref_key r ∉ ad_seen a) (cs_refs s)) in
    admit_section options a s = mkAdmission usage (ad_seen a ∪ list_to_set (ref_key <$> cs_refs t)) (ad_sections a ++ [t]).
Proof. unfold admit_section. cbv zeta. destruct (charge _ _ _ _) as [usage|]; [right; by exists usage|by left]. Qed.

Lemma admit_section_ok options a s :
  NoDup (ref_key <$> cs_refs s) → admission_ok a → admission_ok (admit_section options a s).
Proof.
  intros Hs [Hnd Hseen]. destruct (admit_section_cases options a s) as [->|[usage ->]]; [done|]. cbv zeta.
  set (refs := filter _ _). assert (Hrefs : refs `sublist_of` cs_refs s) by apply sublist_filter.
  assert (Hnew : ∀ k, k ∈ ref_key <$> refs → k ∉ ad_seen a).
  { intros k (r & -> & Hr)%list_elem_of_fmap. by apply list_elem_of_filter in Hr as [? _]. }
  split; simpl; rewrite section_keys_snoc; simpl.
  - apply NoDup_app. split_and!; [done| |].
    + intros k Hk Hk'. apply (Hnew k Hk'), Hseen, Hk.
    + eapply sublist_NoDup; [exact Hs|]. by apply fmap_sublist.
  - intros k. rewrite elem_of_union, elem_of_list_to_set, elem_of_app, Hseen. done.
Qed.

Lemma admit_sections_spec options sections a :
  Forall (λ s, NoDup (ref_key <$> cs_refs s)) sections → admission_ok a →
  admission_ok (foldl (admit_section options) a sections) ∧
  ∃ picked new, picked `sublist_of` sections ∧ Forall2 trimmed picked new ∧
    ad_sections (foldl (admit_section options) a sections) = ad_sections a ++ new.
Proof.
  revert a. induction sections as [|s sections IH]; intros a Hs Ha; simpl.
  { split; [done|]. exists [], []. rewrite app_nil_r. done. }
  apply Forall_cons in Hs as [Hs Hss].
  destruct (IH _ Hss (admit_section_ok options a s Hs Ha)) as (Hok & picked & new & Hp & Hn & E).
  split; [done|]. destruct (admit_section_cases options a s) as [Ea|[usage Ea]]; rewrite Ea in E |- *.
  - exists picked, new. split_and!; [by apply sublist_cons|done|done].
  - cbv zeta in *. exists (s :: picked), (set_refs s (filter (λ r, ref_key r ∉ ad_seen a) (cs_refs s)) :: new).
    split_and!; [by apply sublist_skip| |simpl in *; by rewrite E, <- app_assoc].
    constructor; [|done]. eexists. split; [done|]. apply sublist_filter.
Qed.

Lemma admit_refs_sublist options refs (a : Usage * list ContextRef) : ∃ l, l `sublist_of` refs ∧ (foldl (admit_ref options) a refs).2 = a.2 ++ l.
Proof.
  revert a. induction refs as [|r refs IH]; intros a; simpl; [exists []; by rewrite app_nil_r|].
  destruct (IH (admit_ref options a r)) as (l & Hl & ->). unfold admit_ref. destruct (charge _ _ _ _) as [u|].
  - exists (r :: l). split; [by constructor|]. simpl. by rewrite <- app_assoc.
  - exists l. split; [by apply sublist_cons|done].
Qed.
End Admit.

(** ** The prepared input *)

Section Prepared.
Context `{!AssembleEnv}.
Context (into_values : gmap string ContextRef → list ContextRef) (Hiv : lists_values into_values).
Implicit Types (options : AssembleOptions) (packets : list InputPacket).

Lemma complete_section_refs label refs i s :
  cs_refs (complete_section into_values label refs i s) =
    match cs_refs s with [] => refs | l => dedupe_refs into_values l end.
Proof using.
  destruct s as [id title body l rel src]. unfold complete_section. cbn [cs_title].
  destruct (is_blank title), src, l, rel; reflexivity.
Qed.

Lemma prepare_section_refs options tokens label refs i s :
  cs_refs (prepare_section into_values options tokens label refs i s) =
    match cs_refs s with [] => refs | l => dedupe_refs into_values l end.
Proof using.
  rewrite <- complete_section_refs with (label := label) (i := i). unfold prepare_section.
  destruct (ao_agent_snapshot options); [|done]. by destruct (should_compress_section _ _ _).
Qed.

Lemma prepare_section_NoDup options tokens label refs i s :
  NoDup (ref_key <$> refs) → NoDup (ref_key <$> cs_refs (prepare_section into_values options tokens label refs i s)).
Proof using Hiv. intros Hr. rewrite prepare_section_refs. destruct (cs_refs s); [done|]. by apply dedupe_refs_NoDup. Qed.

Lemma prepare_packet_refs_NoDup options tokens i p :
  NoDup (ref_key <$> ip_refs (prepare_packet into_values options tokens i p)) ∧
  Forall (λ s, NoDup (ref_key <$> cs_refs s)) (ip_sections (prepare_packet into_values options tokens i p)).
Proof using Hiv.
  unfold prepare_packet. cbv zeta. split; [simpl; case_match; by apply dedupe_refs_NoDup|].
  simpl. apply Forall_lookup. intros j s. rewrite list_lookup_imap. intros (s0 & _ & ->)%fmap_Some_1.
  apply prepare_section_NoDup. destruct (ip_sections p); by apply dedupe_refs_NoDup.
Qed.

Lemma prepared_NoDup options packets :
  Forall (λ p, Forall (λ s, NoDup (ref_key <$> cs_refs s)) (ip_sections p)) (prepare_packets into_values options packets).
Proof using Hiv.
  apply Forall_lookup. intros i p. unfold prepare_packets. rewrite list_lookup_imap. intros (q & _ & ->)%fmap_Some_1.
  apply prepare_packet_refs_NoDup.
Qed.

(** The prepared sections in the order they are considered. *)
Definition section_order (options : AssembleOptions) (packets : list InputPacket) : list ContextSection :=
  sc_section <$> sort_by_cmp scored_cmp
    (concat (imap (scored_sections options (options_tokens options)) packets)).

Lemma concat_scored (f : nat → InputPacket → list Scored) packets :
  (∀ i p, sc_section <$> f i p = ip_sections p) → sc_section <$> concat (imap f packets) = packets ≫= ip_sections.
Proof using.
  revert f. induction packets as [|p packets IH]; intros f Hf; [done|]. rewrite imap_cons. simpl.
  rewrite fmap_app, Hf. f_equal. apply (IH (f ∘ S)). intros i q. apply Hf.
Qed.

Lemma section_order_perm options packets : section_order options packets ≡ₚ (packets ≫= ip_sections).
Proof using.
  unfold section_order. rewrite sort_by_cmp_perm, concat_scored; [done|]. intros i p. unfold scored_sections.
  rewrite fmap_imap. etrans; [apply (imap_const id)|apply list_fmap_id].
Qed.

Lemma length_bind_sections packets :
  length (packets ≫= ip_sections) = sum_list_with (λ p, length (ip_sections p)) packets.
Proof using. induction packets as [|p packets IH]; [done|]. rewrite bind_cons, length_app, IH. done. Qed.

Lemma section_order_NoDup options packets :
  Forall (λ s, NoDup (ref_key <$> cs_refs s)) (section_order options (prepare_packets into_values options packets)).
Proof using Hiv.
  rewrite section_order_perm. apply Forall_bind. apply prepared_NoDup.
Qed.

(** What is admitted, and in what order. *)
Lemma admitted_spec options packets :
  let prepared := prepare_packets into_values options packets in
  let a := admitted_sections options prepared in
  admission_ok a ∧
  ∃ picked, picked `sublist_of` section_order options prepared ∧ Forall2 trimmed picked (ad_sections a).
Proof using Hiv.
  intros prepared a.
  destruct (admit_sections_spec options (section_order options prepared) (mkAdmission (mkUsage 0 0) ∅ []))
    as (Hok & picked & new & Hp & Hn & E).
  { apply section_order_NoDup. }
  { split; [apply NoDup_nil_2|]. simpl. intros k. unfold section_keys. simpl. set_solver. }
  split; [exact Hok|]. exists picked. split; [done|].
  change (ad_sections a = [] ++ new) in E. by rewrite E.
Qed.

Lemma section_in_packet options packets s :
  s ∈ section_order options packets → ∃ p, p ∈ packets ∧ s ∈ ip_sections p.
Proof using. rewrite section_order_perm. intros (p & Hs & Hp)%list_elem_of_bind. eauto. Qed.

Lemma input_keys_section packets p s k :
  p ∈ packets → s ∈ ip_sections p → k ∈ ref_key <$> cs_refs s → k ∈ refs_input_keys packets.
Proof using.
  intros Hp Hs Hk. unfold refs_input_keys. apply elem_of_list_to_set, list_elem_of_bind. exists p. split; [|done].
  unfold packet_ref_keys. apply elem_of_app. right. apply list_elem_of_bind. eauto.
Qed.

Lemma input_keys_packet packets p k : p ∈ packets → k ∈ ref_key <$> ip_refs p → k ∈ refs_input_keys packets.
Proof using.
  intros Hp Hk. unfold refs_input_keys. apply elem_of_list_to_set, list_elem_of_bind. exists p. split; [|done].
  unfold packet_ref_keys. apply elem_of_app. by left.
Qed.

Lemma section_keys_input options packets k :
  let prepared := prepare_packets into_values options packets in
  k ∈ section_keys (ad_sections (admitted_sections options prepared)) → k ∈ refs_input_keys prepared.
Proof using Hiv.
  intros prepared. destruct (admitted_spec options packets) as (_ & picked & Hp & Htr). fold prepared in Hp, Htr.
  unfold section_keys. intros (r & -> & (t & Hr & Ht)%list_elem_of_bind)%list_elem_of_fmap.
  apply list_elem_of_lookup in Ht as [i Ht]. destruct (Forall2_lookup_r _ _ _ _ _ Htr Ht) as (s & Hs & refs & -> & Hrefs).
  destruct (section_in_packet options prepared s) as (p & Hpp & Hps).
  { eapply elem_of_sublist; [by eapply list_elem_of_lookup_2|done]. }
  eapply input_keys_section; [exact Hpp|exact Hps|]. apply list_elem_of_fmap. exists r. split; [done|].
  by eapply elem_of_sublist.
Qed.

(** The ranked references have distinct keys, all of the input. *)
Lemma ranked_refs_spec options packets sections :
  NoDup (ref_key <$> ranked_refs into_values options packets sections) ∧
  StronglySorted (λ a b, cmp_leb ref_rank_cmp a b = true) (ranked_refs into_values options packets sections) ∧
  ∀ k, k ∈ ref_key <$> ranked_refs into_values options packets sections ↔
       k ∈ section_keys sections ∨ k ∈ ref_key <$> (packets ≫= ip_refs).
Proof using Hiv.
  unfold ranked_refs. fold (merged ((sections ≫= cs_refs) ++ (packets ≫= ip_refs))). set (m := merged _).
  assert (Hm : keyed m) by apply merged_keyed.
  assert (E : ref_key <$> (boost_ref options (options_tokens options) <$> into_values m) = ref_key <$> into_values m).
  { rewrite <- list_fmap_compose. apply list_fmap_ext. intros i r _. apply boost_ref_key. }
  split_and!.
  - rewrite sort_by_cmp_perm, E. by apply values_NoDup.
  - apply sort_by_cmp_sorted, _.
  - intros k. rewrite sort_by_cmp_perm, E, values_dom by done. unfold m. rewrite merged_dom, elem_of_list_to_set.
    rewrite fmap_app, elem_of_app. done.
Qed.
End Prepared.

(** ** The assembled packet *)

Section Assembled.
Context `{!AssembleEnv}.
Context (into_values : gmap string ContextRef → list ContextRef).
Implicit Types (options : AssembleOptions) (packets : list InputPacket).

(** The payload of the assembled packet, before and after pruning. *)
Definition chosen_payload packets options : AssembledPayload :=
  selected_payload into_values options (imap packet_label_of packets) (prepare_packets into_values options packets).
Definition assembled_payload packets options : AssembledPayload :=
  enforce_budget (chosen_payload packets options) options.

Lemma assembled_settled packets options :
  Pruned (chosen_payload packets options) (assembled_payload packets options) ∧
  Settled options (assembled_payload packets options).
Proof. apply (enforce_budget_correct _ _ (S (payload_size (chosen_payload packets options)))). lia. Qed.

Lemma chosen_not_truncated packets options : ap_truncated (chosen_payload packets options) = false.
Proof. done. Qed.

Lemma truncated_eq packets options :
  let summary := ak_assembly (assemble_packets into_values packets options) in
  as_truncated summary =
    (0 <? as_sections_dropped summary) || (0 <? as_refs_dropped summary) || ap_truncated (assembled_payload packets options).
Proof. done. Qed.

Context (Hiv : lists_values into_values).

(** What the payload keeps before it is pruned. *)
Lemma chosen_sections_trimmed packets options :
  let prepared := prepare_packets into_values options packets in
  ∃ picked, picked `sublist_of` section_order options prepared ∧
    Forall2 trimmed picked (ap_sections (chosen_payload packets options)) ∧
    NoDup (section_keys (ap_sections (chosen_payload packets options))).
Proof using Hiv.
  intros prepared. destruct (admitted_spec into_values Hiv options packets) as ([Hnd _] & picked & Hp & Htr).
  exists picked. split; [exact Hp|]. change (ap_sections (chosen_payload packets options)) with
    (if ao_compact_assembly options then (λ s, set_refs s []) <$> ad_sections (admitted_sections options prepared)
     else ad_sections (admitted_sections options prepared)).
  destruct (ao_compact_assembly options); [|done]. split.
  - apply Forall2_fmap_r. eapply Forall2_impl; [exact Htr|]. intros s t (refs & -> & _).
    exists []. split; [done|apply sublist_nil_l].
  - unfold section_keys. generalize (ad_sections (admitted_sections options prepared)). intros l.
    replace (((λ s, set_refs s []) <$> l) ≫= cs_refs) with (@nil ContextRef); [apply NoDup_nil_2|].
    induction l as [|s l IH]; [done|]. rewrite fmap_cons, bind_cons, <- IH. done.
Qed.

Lemma pruned_section_keys l q : SectionsPruned l q → NoDup (section_keys l) → NoDup (section_keys q).
Proof using.
  intros Hp Hnd. eapply sublist_NoDup; [exact Hnd|]. apply fmap_sublist.
  destruct Hp as [l rest|l s n rest ? ?]; rewrite ?bind_app; [by apply sublist_inserts_r|].
  apply sublist_app; [done|]. rewrite !bind_cons. by apply sublist_app, sublist_nil_l.
Qed.

End Assembled.

(** ** The order of a hash map's values *)

Section Order.
Context `{!AssembleEnv}.
Context (iv iv' : gmap string ContextRef → list ContextRef) (Hiv : lists_values iv) (Hiv' : lists_values iv').
Implicit Types (options : AssembleOptions) (packets : list InputPacket).

Lemma values_perm m : iv m ≡ₚ iv' m.
Proof using Hiv Hiv'. by rewrite (Hiv m), (Hiv' m). Qed.

Lemma dedupe_refs_order refs : dedupe_refs iv refs = dedupe_refs iv' refs.
Proof using Hiv Hiv'.
  unfold dedupe_refs. apply sort_by_cmp_perm_eq; [apply _| |apply values_perm].
  intros x y Hx Hy E%ref_name_cmp_key. by apply (values_key_inj iv Hiv _ x y (merged_keyed refs)).
Qed.

Lemma prepare_section_order options tokens label refs i s :
  prepare_section iv options tokens label refs i s = prepare_section iv' options tokens label refs i s.
Proof using Hiv Hiv'.
  unfold prepare_section, complete_section. cbv zeta.
  destruct s as [id title body [|r l] rel src]; cbn [cs_title]; destruct (is_blank title), src; simpl; by rewrite ?dedupe_refs_order.
Qed.

Lemma prepare_packets_order options packets : prepare_packets iv options packets = prepare_packets iv' options packets.
Proof using Hiv Hiv'.
  unfold prepare_packets. apply imap_ext. intros i p _. unfold prepare_packet. cbv zeta. rewrite dedupe_refs_order.
  f_equal. apply imap_ext. intros j s _. apply prepare_section_order.
Qed.

Lemma ranked_refs_order options packets sections : ranked_refs iv options packets sections = ranked_refs iv' options packets sections.
Proof using Hiv Hiv'.
  unfold ranked_refs. cbv zeta. apply sort_by_cmp_perm_eq; [apply _| |by rewrite values_perm].
  intros x y (x0 & -> & Hx)%list_elem_of_fmap (y0 & -> & Hy)%list_elem_of_fmap E. f_equal.
  unfold ref_rank_cmp in E. apply then_with_Eq in E as [_ E%ref_name_cmp_key]. rewrite !boost_ref_key in E.
  eapply (values_key_inj iv Hiv _ x0 y0); [|exact Hx|exact Hy|exact E]. apply merged_keyed.
Qed.

End Order.

(** ** A small environment for the witnesses: a text that lists what the
    payload holds, and a value that is that text. *)

Definition demo_text (p : AssembledPayload) : string :=
  String.concat ";" (ap_sources p) +:+ "|" +:+ String.concat ";" ((λ s, cs_title s +:+ ":" +:+ cs_body s) <$> ap_sections p)
    +:+ "|" +:+ String.concat ";" (cr_value <$> ap_refs p) +:+ "|" +:+ show_bool (ap_truncated p).

#[local] Instance demo_env : AssembleEnv := {
  number_as_f64 := λ _, f64_zero;
  is_alphanumeric := λ _, true;
  to_string_pretty := λ _, None;
  section_json := λ s, Some (cs_title s +:+ cs_body s);
  ref_json := λ r, Some (cr_value r);
  payload_json := λ p, Some (demo_text p);
  payload_value := λ p, Some (JString (demo_text p));
  value_json := json_as_str
}.

#[local] Instance demo_laws : AssembleLaws.
Proof. intros p. exists (demo_text p), (JString (demo_text p)), (demo_text p). done. Qed.

Definition demo_values (m : gmap string ContextRef) : list ContextRef := (map_to_list m).*2.
Definition demo_values_back (m : gmap string ContextRef) : list ContextRef := reverse (map_to_list m).*2.

Lemma demo_values_lists : lists_values demo_values.
Proof. by intros m. Qed.
Lemma demo_values_back_lists : lists_values demo_values_back.
Proof. intros m. apply reverse_Permutation. Qed.

Definition demo_packet (id body : string) (paths : list string) : InputPacket :=
  mkInputPacket (Some id) None None [] None [] paths None None JNull [] [] [] [] []
    [mkContextSection None "T" body [] None None] [].
Definition demo_packets : list InputPacket :=
  [demo_packet "a" "0123456789012345678901234567890123456789012345678901234567890123456789" ["src/a.rs"; "src/b.rs"];
   demo_packet "b" "error" ["SRC\A.rs"; "src/c.rs"]].
Definition demo_options (tokens bytes : Z) : AssembleOptions := mkAssembleOptions tokens bytes Compact false None.

(** The failing section comes first, and the references are merged by key. *)
Example demo_assembled :
  ak_payload (assemble_packets demo_values demo_packets (demo_options 5000 32000))
  = JString "a;b|T:error;T:0123456789012345678901234567890123456789012345678901234567890123456789|SRC/A.rs;src/b.rs;src/c.rs|false".
Proof. vm_compute. reflexivity. Qed.

(** ** Theorems *)

(** C25: an assembled packet reports the size of the JSON it carries, and that size is
    within the token and byte budgets, or nothing is left in it but the source labels
    and it is marked truncated. The pruning loop ends: any fuel above the size of the
    payload it starts from gives the same payload. The JSON text of a payload and that
    of its value have the same length. *)
Theorem assembled_packet_bounded `{!AssembleEnv} `{!AssembleLaws} (into_values : gmap string ContextRef → list ContextRef)
    (packets : list InputPacket) (options : AssembleOptions) (fuel : nat) :
  payload_size (chosen_payload into_values packets options) < fuel →
  let payload := assembled_payload into_values packets options in
  let r := assemble_packets into_values packets options in
  let summary := ak_assembly r in
  enforce_loop fuel options (chosen_payload into_values packets options) = payload ∧
  ap_sources payload = imap packet_label_of packets ∧
  payload_value payload = Some (ak_payload r) ∧
  (∃ text, value_json (ak_payload r) = Some text ∧
     as_estimated_tokens summary = estimate_tokens text ∧ as_estimated_bytes summary = Z.of_nat (str_len text)) ∧
  ((as_estimated_tokens summary <= ao_budget_tokens options)%Z ∧ (as_estimated_bytes summary <= ao_budget_bytes options)%Z
   ∨ ap_sections payload = [] ∧ ap_refs payload = [] ∧ as_truncated summary = true).
Proof.
  intros Hf payload r summary.
  destruct (enforce_budget_correct _ options fuel Hf) as (Hfuel & [Hsrc _ _ _ _] & Hset).
  change (enforce_budget (chosen_payload into_values packets options) options) with payload in *. split; [exact Hfuel|]. split; [exact Hsrc|].
  destruct (payload_text payload) as (s & v & t & Hs & Hv & Ht & Hlen & Hcount).
  assert (Hr : ak_payload r = v) by (change (default JNull (payload_value payload) = v); by rewrite Hv).
  assert (Htext : default EmptyString (value_json (ak_payload r)) = t) by (by rewrite Hr, Ht).
  assert (Htok : as_estimated_tokens summary = estimate_tokens t) by (rewrite <- Htext; reflexivity).
  assert (Hbytes : as_estimated_bytes summary = Z.of_nat (str_len t)) by (rewrite <- Htext; reflexivity).
  rewrite Hr. split; [done|]. split; [by exists t|]. rewrite Htok, Hbytes, Hlen. unfold estimate_tokens. rewrite Hcount.
  destruct Hset as [Hset|(Hrefs & Hsec & Htr)].
  - rewrite Hs in Hset. unfold fits_budget, estimate_tokens in Hset. left. by reflect_bool.
  - right. split_and!; [done|done|]. unfold summary, r. rewrite truncated_eq. fold payload. rewrite Htr. by rewrite orb_true_r.
Qed.

Lemma assembled_packet_bounded_witness :
  payload_size (chosen_payload demo_values demo_packets (demo_options 5000 60)) < 200 ∧
  let r := assemble_packets demo_values demo_packets (demo_options 5000 60) in
  (as_estimated_bytes (ak_assembly r) <= 60)%Z ∧ as_truncated (ak_assembly r) = true.
Proof.
  split; [vm_compute; lia|]. intros r.
  destruct (assembled_packet_bounded demo_values demo_packets (demo_options 5000 60) 200) as (_ & _ & _ & _ & [[_ H]|(H & _)]).
  - vm_compute. lia.
  - split; [exact H|]. vm_compute. reflexivity.
  - vm_compute in H. discriminate.
Defined.

(** The references of an assembled packet have pairwise different keys, each the
    key of a reference of the input, and stand in rank order; kept and dropped
    references add up to the distinct keys of the input, and a packet that is not marked
    truncated holds a reference for every one of them. *)
Theorem assembled_refs_correct `{!AssembleEnv} (into_values : gmap string ContextRef → list ContextRef)
    (packets : list InputPacket) (options : AssembleOptions) :
  lists_values into_values →
  let inputs := refs_input_keys (prepare_packets into_values options packets) in
  let refs := ap_refs (assembled_payload into_values packets options) in
  let summary := ak_assembly (assemble_packets into_values packets options) in
  NoDup (ref_key <$> refs) ∧ list_to_set (ref_key <$> refs) ⊆ inputs ∧
  StronglySorted (λ a b, cmp_leb ref_rank_cmp a b = true) refs ∧
  as_refs_input summary = size inputs ∧ as_refs_kept summary = length refs ∧
  as_refs_kept summary + as_refs_dropped summary = as_refs_input summary ∧
  (as_truncated summary = false → list_to_set (ref_key <$> refs) = inputs).
Proof.
  intros Hiv inputs refs summary. set (prepared := prepare_packets into_values options packets) in *.
  set (sections := ad_sections (admitted_sections options prepared)).
  destruct (ranked_refs_spec into_values Hiv options prepared sections) as (Hnd & Hsort & Hkeys).
  assert (Hsub : refs `sublist_of` ranked_refs into_values options prepared sections).
  { destruct (assembled_settled into_values packets options) as [[_ Hp _ _ _] _].
    destruct (admit_refs_sublist options (ranked_refs into_values options prepared sections)
                (ad_usage (admitted_sections options prepared), [])) as (l & Hl & E).
    etrans; [by apply prefix_sublist|]. change (ap_refs (chosen_payload into_values packets options)) with
      (foldl (admit_ref options) (ad_usage (admitted_sections options prepared), [])
         (ranked_refs into_values options prepared sections)).2. by rewrite E. }
  assert (Hrefs : NoDup (ref_key <$> refs)) by (eapply sublist_NoDup; [exact Hnd|by apply fmap_sublist]).
  assert (Hin : list_to_set (ref_key <$> refs) ⊆ inputs).
  { intros k Hk%elem_of_list_to_set. assert (Hk' : k ∈ ref_key <$> ranked_refs into_values options prepared sections)
      by (eapply elem_of_sublist; [exact Hk|by apply fmap_sublist]). apply Hkeys in Hk' as [Hk'|Hk'].
    - by eapply (section_keys_input into_values Hiv).
    - apply list_elem_of_fmap in Hk' as (r & -> & (p & Hr & Hp)%list_elem_of_bind).
      eapply input_keys_packet; [exact Hp|]. apply list_elem_of_fmap. eauto. }
  assert (Hle : length refs ≤ size inputs).
  { rewrite <- (length_fmap ref_key refs), <- (size_list_to_set (C := gset string)) by done. by apply subseteq_size. }
  split_and!; [done|done|by eapply StronglySorted_sublist|done|done| |].
  - change (length refs + (size inputs - length refs) = size inputs). lia.
  - intros Htr. apply set_subseteq_size_eq; [done|].
    rewrite size_list_to_set, length_fmap by done.
    unfold summary in Htr. rewrite truncated_eq, !orb_false_iff in Htr. destruct Htr as [[_ Hd] _].
    change ((0 <? size inputs - length refs) = false) in Hd. reflect_bool. lia.
Qed.

Lemma assembled_refs_correct_witness :
  let refs := ap_refs (assembled_payload demo_values demo_packets (demo_options 5000 32000)) in
  let inputs := refs_input_keys (prepare_packets demo_values (demo_options 5000 32000) demo_packets) in
  NoDup (ref_key <$> refs) ∧ list_to_set (ref_key <$> refs) = inputs.
Proof.
  intros refs inputs.
  destruct (assembled_refs_correct demo_values demo_packets (demo_options 5000 32000) demo_values_lists)
    as (Hnd & _ & _ & _ & _ & _ & Hall).
  split; [exact Hnd|]. apply Hall. vm_compute. reflexivity.
Defined.

(** C26: the sections of an assembled packet are, in order of score, some of the
    prepared sections of the input: title, source and relevance are unchanged,
    references may be missing and the last body may be cut at a character boundary. No
    reference is listed twice; kept and dropped sections add up to the sections of the
    input, and a packet that is not marked truncated holds all of them with their bodies
    whole. *)
Theorem assembled_sections_correct `{!AssembleEnv} (into_values : gmap string ContextRef → list ContextRef)
    (packets : list InputPacket) (options : AssembleOptions) :
  lists_values into_values →
  let considered := section_order options (prepare_packets into_values options packets) in
  let sections := ap_sections (assembled_payload into_values packets options) in
  let summary := ak_assembly (assemble_packets into_values packets options) in
  (∃ picked, picked `sublist_of` considered ∧ Forall2 section_kept picked sections ∧
     (as_truncated summary = false → picked = considered ∧ cs_body <$> sections = cs_body <$> considered)) ∧
  NoDup (ref_key <$> (sections ≫= cs_refs)) ∧
  as_sections_input summary = length considered ∧ as_sections_kept summary = length sections ∧
  as_sections_kept summary + as_sections_dropped summary = as_sections_input summary.
Proof.
  intros Hiv considered sections summary.
  destruct (chosen_sections_trimmed into_values Hiv packets options) as (picked & Hp & Htr & Hnd). fold considered in Hp.
  destruct (assembled_settled into_values packets options) as [[_ _ _ Hsec Hflag] _].
  destruct (pruned_sections_kept _ _ _ Htr Hsec) as (kept & Hk & Hkept).
  assert (Hsub : kept `sublist_of` considered) by (etrans; [by apply prefix_sublist|done]).
  assert (Hin : as_sections_input summary = length considered).
  { unfold considered. rewrite section_order_perm, length_bind_sections. done. }
  assert (Hle : length sections ≤ length considered).
  { apply sublist_length in Hsub. apply Forall2_length in Hkept. fold sections in Hkept. lia. }
  split_and!; [|exact (pruned_section_keys _ _ Hsec Hnd)|done|done|].
  - exists kept. split_and!; [done|done|]. intros Hf. unfold summary in Hf. rewrite truncated_eq, !orb_false_iff in Hf.
    destruct Hf as [[Hd _] Ht].
    assert (E : kept = considered).
    { apply sublist_length_eq; [done|]. apply Forall2_length in Hkept. fold sections in Hkept.
      change ((0 <? as_sections_input summary - length sections) = false) in Hd. reflect_bool. lia. }
    split; [done|]. destruct Hflag as [Hflag|Hflag]; [|congruence].
    unfold sections. rewrite Hflag, <- E. apply prefix_length_eq in Hk as ->; [by apply trimmed_bodies|].
    rewrite E. by apply sublist_length.
  - change (length sections + (as_sections_input summary - length sections) = as_sections_input summary). lia.
Qed.

Lemma assembled_sections_correct_witness :
  let sections := ap_sections (assembled_payload demo_values demo_packets (demo_options 5000 32000)) in
  let considered := section_order (demo_options 5000 32000)
                      (prepare_packets demo_values (demo_options 5000 32000) demo_packets) in
  cs_body <$> sections = cs_body <$> considered ∧ length considered = 2.
Proof.
  intros sections considered.
  destruct (assembled_sections_correct demo_values demo_packets (demo_options 5000 32000) demo_values_lists)
    as ((picked & _ & _ & Hall) & _). split; [|vm_compute; reflexivity].
  apply Hall. vm_compute. reflexivity.
Defined.

(** The assembled packet does not depend on the order in which the hash maps of
    references are enumerated. *)
Theorem assemble_order_independent `{!AssembleEnv} (iv iv' : gmap string ContextRef → list ContextRef)
    (packets : list InputPacket) (options : AssembleOptions) :
  lists_values iv → lists_values iv' →
  assemble_packets iv packets options = assemble_packets iv' packets options.
Proof.
  intros Hiv Hiv'. unfold assemble_packets, selected_payload. cbv zeta. by rewrite (prepare_packets_order iv iv' Hiv Hiv'), (ranked_refs_order iv iv' Hiv Hiv').
Qed.

Lemma assemble_order_independent_witness :
  assemble_packets demo_values demo_packets (demo_options 5000 32000)
  = assemble_packets demo_values_back demo_packets (demo_options 5000 32000).
Proof. apply assemble_order_independent; [exact demo_values_lists|exact demo_values_back_lists].
Defined.
