(* ===== verification/MemoryDoc.v ===== *)
(** * MemoryDoc: cached packets and their recall documents

    Models the records of [src/crates/suite-packet-core/src/memory.rs], the
    path and token normalisation of
    [src/crates/context-memory-core/src/normalize.rs] and the recall document
    of an entry ([recall_document.rs]).  Paths are UTF-8 and those of Unix.
    The Unicode tables and the decoding of the two tag enums are parameters. *)

From S2P Require Export Json Text F64.

(** ** Entries *)

Inductive MemorySourceTier : Type := CuratedMemory | Telemetry | Standard.
Inductive MemoryKind : Type :=
| Brief | Handoff | RecommendedAction | Evidence | ToolTrace | FocusInference | StateWrite | Other.

Record CachePacket : Type := mkCachePacket {
  cp_packet_id : option string;
  cp_body : Json;
  cp_token_usage : option Z;
  cp_runtime_ms : option Z;
  cp_metadata : Json
}.

Record DeltaReuse : Type := mkDeltaReuse {
  reused_from : option string;
  delta_ratio : option f64
}.

Record PacketCacheEntry : Type := mkEntry {
  pe_cache_key : string;
  pe_target : string;
  pe_input_hash : string;
  pe_created_at_unix : Z;
  pe_packets : list CachePacket;
  pe_metadata : Json;
  pe_delta_reuse : DeltaReuse
}.

Record RecallBudgetEstimate : Type := mkBudgetEstimate {
  est_tokens : Z;
  est_bytes : Z;
  est_runtime_ms : Z
}.

Record RecallDocument : Type := mkRecallDocument {
  rd_cache_key : string;
  rd_target : string;
  rd_created_at_unix : Z;
  rd_summary : option string;
  rd_snippet : string;
  rd_task_ids : list string;
  rd_packet_types : list string;
  rd_paths : list string;
  rd_path_basenames : list string;
  rd_symbols : list string;
  rd_tests : list string;
  rd_terms : gmap string Z;
  rd_doc_length : Z;
  rd_budget_estimate : RecallBudgetEstimate;
  rd_source_tier : MemorySourceTier;
  rd_memory_kind : MemoryKind;
  rd_superseded : bool;
  rd_dedupe_key : option string
}.

Class RecallEnv : Type := {
  recall_alphanumeric : list ascii → bool;                 (* [char::is_alphanumeric] past ASCII *)
  parse_source_tier : Json → option MemorySourceTier;      (* [serde_json::from_value] *)
  parse_memory_kind : Json → option MemoryKind
}.

(** ** Tokens *)

(** [push_token_term]: a token of two bytes or more, once. *)
Definition push_token_term (tokens : list string) (raw : string) : list string :=
  let normalized := str_to_ascii_lowercase (trim raw) in
  if (2 <=? str_len normalized) && negb (bool_decide (normalized ∈ tokens)) then tokens ++ [normalized] else tokens.

(** The single byte of an ASCII character. *)
Definition ascii_is (p : ascii → bool) (ch : list ascii) : bool :=
  match ch with [c] => p c | _ => false end.

Definition fragment_boundary (prev ch : list ascii) (next : option (list ascii)) : bool :=
  ascii_is ascii_upper ch && ascii_is ascii_lower prev
  || ascii_is ascii_digit ch && negb (ascii_is ascii_digit prev)
  || negb (ascii_is ascii_digit ch) && ascii_is ascii_digit prev
  || ascii_is ascii_upper prev && ascii_is ascii_upper ch
     && match next with Some next => ascii_is ascii_lower next | None => false end.

(** The loop over the characters: the fragments so far, the current one, the
    character before. *)
Fixpoint split_fragments (current : list ascii) (prev : option (list ascii)) (l : list (list ascii))
    : list (list ascii) :=
  match l with
  | [] => match current with [] => [] | _ => [current] end
  | ch :: l =>
      let boundary :=
        negb (bool_decide (current = [])) &&
        match prev with Some prev => fragment_boundary prev ch (head l) | None => false end in
      if boundary then current :: split_fragments ch (Some ch) l
      else split_fragments (current ++ ch) (Some ch) l
  end.
Definition split_identifier_fragments (raw : string) : list string :=
  str_of_bytes <$> split_fragments [] None (chars raw).

Definition push_segment (tokens : list string) (segment : string) : list string :=
  let segment := trim segment in
  if bool_decide (segment = EmptyString) then tokens
  else foldl push_token_term (push_token_term tokens segment) (split_identifier_fragments segment).

Definition push_part (tokens : list string) (part : string) : list string :=
  let part := trim part in
  if bool_decide (part = EmptyString) then tokens
  else foldl push_segment (push_token_term tokens part) (split_at ["/"; ":"; "."; "_"; "-"]%char part).

Definition tokenize `{!RecallEnv} (input : string) : list string :=
  foldl push_part [] (split_chars (separates_tokens recall_alphanumeric) input).

(** ** Paths *)

Record NormalizedPathRef : Type := mkPathRef {
  pr_canonical : string;
  pr_basename : option string
}.

Definition backslash_to_slash (s : string) : string := replace_char "092" "/" s.

(** One component of [Path::components]; [.] and repeated separators are not
    components that matter here. *)
Definition push_component (is_absolute : bool) (parts : list string) (component : string) : list string :=
  if bool_decide (component = EmptyString) || bool_decide (component = ".") then parts
  else if bool_decide (component = "..") then
    match last parts with
    | Some part => if bool_decide (part = "..") then (if is_absolute then parts else parts ++ [".."])
                   else take (length parts - 1) parts
    | None => if is_absolute then parts else parts ++ [".."]
    end
  else parts ++ [backslash_to_slash component].

Definition normalize_path_string (raw : string) : string :=
  let is_absolute := starts_with "/" raw in
  let parts := foldl (push_component is_absolute) [] (split_at ["/"%char] raw) in
  let joined := String.concat "/" parts in
  if is_absolute && negb (bool_decide (joined = EmptyString)) then "/" +:+ joined else joined.

(** The path made relative to the workspace. *)
Definition relative_to_root (root normalized : string) : string :=
  let root := trim_matches ["/"%char] (normalize_path_string (backslash_to_slash root)) in
  let absolute := normalize_path_string normalized in
  let absolute_trimmed := trim_matches ["/"%char] absolute in
  if negb (bool_decide (root = EmptyString)) && bool_decide (absolute_trimmed = root) then "."
  else if negb (bool_decide (root = EmptyString)) && starts_with (root +:+ "/") absolute_trimmed
  then str_of_bytes (drop (str_len root + 1) (str_bytes absolute_trimmed))
  else absolute.

Definition normalize_context_path (raw : string) (workspace_root : option string) : option NormalizedPathRef :=
  let trimmed := trim raw in
  if bool_decide (trimmed = EmptyString) then None
  else
    let normalized := backslash_to_slash trimmed in
    let normalized :=
      match workspace_root with
      | Some root => relative_to_root root normalized
      | None => normalize_path_string normalized
      end in
    let canonical := str_to_ascii_lowercase (trim_matches ["/"%char] normalized) in
    if bool_decide (canonical = EmptyString) || bool_decide (canonical = ".") then None
    else
      let basename := trim <$> last (split_at ["/"%char] canonical) in
      Some (mkPathRef canonical (basename ≫= λ b, if bool_decide (b = EmptyString) then None else Some b)).

Definition basename_alias (raw : string) : option string :=
  normalize_context_path raw None ≫= pr_basename.

(** [push_unique_text]; [None] is [usize::MAX]. *)
Definition at_capacity (out : list string) (max_items : option nat) : bool :=
  match max_items with Some m => m <=? length out | None => false end.

Definition push_unique_text (out : list string) (text : string) (max_items : option nat) : list string :=
  if at_capacity out max_items then out
  else
    let trimmed := trim text in
    if bool_decide (trimmed = EmptyString) || bool_decide (trimmed ∈ out) then out else out ++ [trimmed].

Definition push_normalized_path (workspace_root : option string) (acc : list string * list string) (raw : string)
    : list string * list string :=
  match normalize_context_path raw workspace_root with
  | None => acc
  | Some path_ref =>
      (push_unique_text acc.1 (pr_canonical path_ref) None,
       match pr_basename path_ref with
       | Some basename => push_unique_text acc.2 basename None
       | None => acc.2
       end)
  end.

(** [rsplit_once('.')]. *)
Definition rsplit_dot (s : string) : option (string * string) :=
  match reverse (split_at ["."%char] s) with
  | ext :: stem :: rest => Some (String.concat "." (reverse (stem :: rest)), ext)
  | _ => None
  end.

Definition looks_like_path (text : string) : bool :=
  let trimmed := trim text in
  if bool_decide (trimmed = EmptyString) then false
  else if contains "/" trimmed || contains "\" trimmed then true
  else match rsplit_dot trimmed with
       | None => false
       | Some (stem, ext) =>
           negb (bool_decide (stem = EmptyString)) && negb (bool_decide (ext = EmptyString)) &&
           (str_len ext <=? 4) && forallb (ascii_is is_ascii_alphanumeric) (chars ext) &&
           existsb (ascii_is (λ c, ascii_upper c || ascii_lower c)) (chars ext)
       end.

Example split_identifier_fragments_ex : split_identifier_fragments "fooBar2HTTPServer" = ["foo"; "Bar"; "2"; "HTTP"; "Server"].
Proof. reflexivity. Qed.
Example normalize_context_path_ex :
  pr_canonical <$> normalize_context_path "/w/repo/./src/../Lib//A.rs" (Some "/w/repo/") = Some "lib/a.rs" ∧
  pr_basename <$> normalize_context_path "..\x/B.rs" None = Some (Some "b.rs") ∧
  normalize_context_path "/w/repo" (Some "/w/repo") = None.
Proof. vm_compute. done. Qed.

(** ** Collecting text from a JSON value *)

(** [collect_summary_texts]. *)
Definition own_summary_texts (max_items : nat) (map : list (string * Json)) (out : list string) : list string :=
  let out :=
    match assoc_get "summary" map ≫= json_as_str with
    | Some summary => push_unique_text out summary (Some max_items)
    | None => out
    end in
  let is_some k := match assoc_get k map with Some _ => true | None => false end in
  match assoc_get "body" map ≫= json_as_str with
  | Some body =>
      if (is_some "title" || is_some "source_packet") && negb (is_blank body)
      then push_unique_text out body (Some max_items) else out
  | None => out
  end.

Fixpoint collect_summary_texts (max_items : nat) (value : Json) (out : list string) : list string :=
  if max_items <=? length out then out
  else match value with
  | JObject map =>
      (fix children l out :=
         match l with
         | [] => out
         | (_, child) :: l =>
             let out := collect_summary_texts max_items child out in
             if max_items <=? length out then out else children l out
         end) map (own_summary_texts max_items map out)
  | JArray items =>
      (fix children l out :=
         match l with
         | [] => out
         | child :: l =>
             let out := collect_summary_texts max_items child out in
             if max_items <=? length out then out else children l out
         end) items out
  | _ => out
  end.

(** [collect_texts_from_value]. *)
Fixpoint collect_texts_from_value (max_items : nat) (value : Json) (out : list string) : list string :=
  if max_items <=? length out then out
  else match value with
  | JString text =>
      let trimmed := trim text in if bool_decide (trimmed = EmptyString) then out else out ++ [trimmed]
  | JArray items =>
      (fix children l out :=
         match l with
         | [] => out
         | child :: l =>
             let out := collect_texts_from_value max_items child out in
             if max_items <=? length out then out else children l out
         end) items out
  | JObject map =>
      (fix children l out :=
         match l with
         | [] => out
         | (_, child) :: l =>
             let out := collect_texts_from_value max_items child out in
             if max_items <=? length out then out else children l out
         end) map out
  | _ => out
  end.

(** [collect_task_ids]. *)
Fixpoint collect_task_ids (value : Json) (out : gset string) : gset string :=
  match value with
  | JObject map =>
      let out :=
        match assoc_get "task_id" map ≫= json_as_str with
        | Some task_id => if is_blank task_id then out else {[trim task_id]} ∪ out
        | None => out
        end in
      (fix children l out := match l with [] => out | (_, child) :: l => children l (collect_task_ids child out) end) map out
  | JArray items =>
      (fix children l out := match l with [] => out | child :: l => children l (collect_task_ids child out) end) items out
  | _ => out
  end.

(** The accumulators of [collect_ref_terms]. *)
Record RefTerms : Type := mkRefTerms {
  rt_paths : list string;
  rt_basenames : list string;
  rt_symbols : list string;
  rt_tests : list string
}.

Definition add_path (workspace_root : option string) (r : RefTerms) (raw : string) : RefTerms :=
  let '(paths, basenames) := push_normalized_path workspace_root (rt_paths r, rt_basenames r) raw in
  mkRefTerms paths basenames (rt_symbols r) (rt_tests r).
Definition add_symbol (r : RefTerms) (raw : string) : RefTerms :=
  mkRefTerms (rt_paths r) (rt_basenames r) (push_unique_text (rt_symbols r) (str_to_ascii_lowercase raw) None) (rt_tests r).
Definition add_test (r : RefTerms) (raw : string) : RefTerms :=
  mkRefTerms (rt_paths r) (rt_basenames r) (rt_symbols r) (push_unique_text (rt_tests r) (str_to_ascii_lowercase raw) None).

(** [if let Some(text) = map.get(key).and_then(Value::as_str) { f(text) }]. *)
Definition with_str (map : list (string * Json)) (key : string) (f : RefTerms → string → RefTerms) (r : RefTerms) : RefTerms :=
  match assoc_get key map ≫= json_as_str with Some text => f r text | None => r end.

Definition kind_is (map : list (string * Json)) (kind : string) : bool :=
  match assoc_get "kind" map ≫= json_as_str with
  | Some k => bool_decide (str_to_ascii_lowercase k = kind)
  | None => false
  end.

Definition own_ref_terms (workspace_root : option string) (map : list (string * Json)) (r : RefTerms) : RefTerms :=
  let r := with_str map "path" (add_path workspace_root) r in
  let r := with_str map "file" (add_path workspace_root) r in
  let r := with_str map "name" add_symbol r in
  let r := with_str map "test_id" add_test r in
  let r := if kind_is map "file" then with_str map "value" (add_path workspace_root) r else r in
  let r := if kind_is map "symbol" then with_str map "value" add_symbol r else r in
  match assoc_get "selected_tests" map ≫= json_as_array with
  | Some selected_tests => foldl add_test r (omap json_as_str selected_tests)
  | None => r
  end.

Fixpoint collect_ref_terms (workspace_root : option string) (value : Json) (r : RefTerms) : RefTerms :=
  match value with
  | JObject map =>
      (fix children l r :=
         match l with [] => r | (_, child) :: l => children l (collect_ref_terms workspace_root child r) end)
        map (own_ref_terms workspace_root map r)
  | JArray items =>
      (fix children l r :=
         match l with [] => r | child :: l => children l (collect_ref_terms workspace_root child r) end) items r
  | JString text =>
      if looks_like_path text then add_path workspace_root r text
      else if contains "::" text then add_symbol r text else r
  | _ => r
  end.

(** ** Summaries *)

Definition field_len (map : Json) (key : string) : nat :=
  default 0 (length <$> (json_get key map ≫= json_as_array)).
Definition field_u64 (map : Json) (key : string) : Z := default 0%Z (json_get key map ≫= json_as_u64).

Definition extract_packet_summary (body : Json) : option string :=
  let tool := default EmptyString (json_get "tool" body ≫= json_as_str) in
  let kind := default EmptyString (json_get "kind" body ≫= json_as_str) in
  let payload := default body (json_get "payload" body) in
  let tagged t k := bool_decide (tool = t) && bool_decide (kind = k) in
  if tagged "stacky" "stack_slice" then
    Some ("stack failures=" +:+ show_uint (field_u64 payload "total_failures")
          +:+ " unique=" +:+ show_uint (field_u64 payload "unique_failures"))
  else if tagged "mapy" "repo_map" then
    Some ("repo map files=" +:+ show_nat (field_len payload "files_ranked")
          +:+ " symbols=" +:+ show_nat (field_len payload "symbols_ranked"))
  else if tagged "mapy" "repo_query" then
    Some ("repo query matches=" +:+ show_nat (field_len payload "matches")
          +:+ " query=" +:+ default EmptyString (json_get "query" payload ≫= json_as_str))
  else if tagged "diffy" "diff_analyze" then
    Some ("diff touched files=" +:+ show_nat (field_len payload "diffs"))
  else if tagged "testy" "test_impact" then
    Some ("test impact selected_tests=" +:+ show_nat (default 0 ((λ v, field_len v "selected_tests") <$> json_get "result" payload)))
  else if tagged "buildy" "build_reduce" then
    Some ("build diagnostics unique=" +:+ show_uint (field_u64 payload "unique_diagnostics"))
  else if tagged "contextq" "context_correlate" then
    Some ("correlation findings=" +:+ show_uint (field_u64 payload "finding_count"))
  else if tagged "agenty" "agent_snapshot" then
    Some ("agent snapshot events=" +:+ show_uint (field_u64 payload "event_count")
          +:+ " questions=" +:+ show_nat (field_len payload "open_questions"))
  else if tagged "contextq" "context_assemble" then
    Some ("assembled context sections=" +:+ show_nat (field_len payload "sections")
          +:+ " refs=" +:+ show_nat (field_len payload "refs")
          +:+ " truncated=" +:+ show_bool (default false (json_get "truncated" payload ≫= json_as_bool)))
  else None.

Definition i32_min : Z := (-2147483648)%Z.

Definition recall_summary_priority (text : string) : Z :=
  let trimmed := trim text in
  if bool_decide (trimmed = EmptyString) then i32_min
  else
    let score := (if looks_like_path trimmed then -40 else 40)%Z in
    let word_count := Z.of_nat (length (split_whitespace trimmed)) in
    let score := (score + Z.min word_count 12 * 2 + Z.min (Z.of_nat (str_len trimmed)) 180 / 12)%Z in
    let lower := str_to_ascii_lowercase trimmed in
    let score :=
      if starts_with "context assemble " lower || starts_with "assembled context " lower then (score - 60)%Z else score in
    let score :=
      if existsb (λ p, starts_with p lower)
           ["repo map files="; "diff touched files="; "test impact selected_tests=";
            "build diagnostics unique="; "correlation findings="; "agent snapshot events="]
      then (score - 24)%Z else score in
    if contains "truncated=" lower && contains "sections=" lower && contains "refs=" lower then (score - 24)%Z else score.

(** [Iterator::max_by_key]: the last of the greatest. *)
Definition max_by_key {A} (f : A → Z) (l : list A) : option A :=
  foldl (λ best x, match best with
                   | None => Some x
                   | Some y => if (f y <=? f x)%Z then Some x else Some y
                   end) None l.

Definition select_recall_summary (candidates : list string) : option string :=
  max_by_key recall_summary_priority (filter (λ item, is_blank item = false) candidates).

Definition truncate_recall_text (text : string) (max_len : nat) : string :=
  if max_len <? char_count text then take_chars max_len text else text.

Definition extract_budget_estimate (body : Json) (token_usage runtime_ms : option Z) : RecallBudgetEstimate :=
  let field key := json_get "budget_cost" body ≫= λ budget, json_get key budget ≫= json_as_u64 in
  let or_else (a b : option Z) := match a with Some x => Some x | None => b end in
  mkBudgetEstimate (default 0%Z (or_else (field "est_tokens") token_usage)) (default 0%Z (field "est_bytes"))
    (default 0%Z (or_else (field "runtime_ms") runtime_ms)).

Definition add_budget (a b : RecallBudgetEstimate) : RecallBudgetEstimate :=
  mkBudgetEstimate (saturating_add u64_max (est_tokens a) (est_tokens b))
    (saturating_add u64_max (est_bytes a) (est_bytes b)) (saturating_add u64_max (est_runtime_ms a) (est_runtime_ms b)).

(** ** Classification *)

Section Document.
Context `{!RecallEnv}.

(** [Option::or_else], and the first packet that yields a value. *)
Definition or_else {A} (a b : option A) : option A := match a with Some x => Some x | None => b end.
Fixpoint find_packet {A} (f : CachePacket → option A) (l : list CachePacket) : option A :=
  match l with [] => None | p :: l => or_else (f p) (find_packet f l) end.

(** A tag in the metadata, the body or the payload of a packet. *)
Definition packet_tag {A} (key : string) (parse : Json → option A) (p : CachePacket) : option A :=
  or_else (json_get key (cp_metadata p) ≫= parse)
    (or_else (json_get key (cp_body p) ≫= parse)
       (json_get "payload" (cp_body p) ≫= λ payload, json_get key payload ≫= parse)).

Definition source_tier_from_entry (entry : PacketCacheEntry) : option MemorySourceTier :=
  or_else (json_get "source_tier" (pe_metadata entry) ≫= parse_source_tier)
    (find_packet (packet_tag "source_tier" parse_source_tier) (pe_packets entry)).

Definition curated_packet (p : CachePacket) : bool :=
  match json_get "packet_type" (cp_body p) ≫= json_as_str with
  | Some packet_type =>
      let packet_type := str_to_ascii_lowercase packet_type in
      existsb (λ needle, contains needle packet_type)
        ["context.manage"; "context.correlate"; "context.assemble"; "broker_memory"]
  | None => false
  end.

Definition classify_recall_source_tier (entry : PacketCacheEntry) : MemorySourceTier :=
  match source_tier_from_entry entry with
  | Some tier => tier
  | None =>
      let target := str_to_ascii_lowercase (pe_target entry) in
      if starts_with "agenty.state." target then Telemetry
      else if existsb (λ p, starts_with p target) ["contextq."; "packet28.broker_memory."; "packet28.broker.memory."]
      then CuratedMemory
      else if existsb curated_packet (pe_packets entry) then CuratedMemory
      else Standard
  end.

Definition kind_of_op (op : string) : option MemoryKind :=
  let op := str_to_ascii_lowercase op in
  if bool_decide (op = "focus_inferred") then Some FocusInference
  else if bool_decide (op = "evidence_captured") then Some Evidence
  else if bool_decide (op ∈ ["tool_invocation_started"; "tool_invocation_completed"; "tool_invocation_failed"; "tool_result"])
  then Some ToolTrace
  else if bool_decide (op ∈ ["file_read"; "file_edit"; "intention"; "checkpoint_save"]) then Some StateWrite
  else None.

Definition packet_kind (p : CachePacket) : option MemoryKind :=
  or_else (packet_tag "memory_kind" parse_memory_kind p)
    (or_else (json_get "payload" (cp_body p) ≫= λ payload, json_get "op" payload ≫= json_as_str)
       (json_get "op" (cp_body p) ≫= json_as_str) ≫= kind_of_op).

Definition classify_memory_kind (entry : PacketCacheEntry) : MemoryKind :=
  match or_else (json_get "memory_kind" (pe_metadata entry) ≫= parse_memory_kind)
          (find_packet packet_kind (pe_packets entry)) with
  | Some kind => kind
  | None =>
      let target := str_to_ascii_lowercase (pe_target entry) in
      if starts_with "packet28.broker_memory." target || starts_with "packet28.broker.memory." target then Brief
      else if starts_with "agenty.state." target then StateWrite
      else Other
  end.

Definition is_superseded_entry (entry : PacketCacheEntry) : bool :=
  default false
    (or_else (json_get "superseded" (pe_metadata entry) ≫= json_as_bool)
       (find_packet (packet_tag "superseded" json_as_bool) (pe_packets entry))).

Definition entry_dedupe_key (entry : PacketCacheEntry) : option string :=
  or_else (json_get "dedupe_key" (pe_metadata entry) ≫= json_as_str)
    (find_packet (λ p, or_else (json_get "dedupe_key" (cp_metadata p) ≫= json_as_str)
                         (json_get "payload" (cp_body p) ≫= λ payload, json_get "dedupe_key" payload ≫= json_as_str))
       (pe_packets entry)).

(** ** The document of an entry *)

(** What the loop over the packets accumulates. *)
Record Gathered : Type := mkGathered {
  g_corpus : list string;
  g_summaries : list string;
  g_refs : RefTerms;
  g_packet_types : gset string;
  g_task_ids : gset string;
  g_budget : RecallBudgetEstimate
}.

Definition gather_packet (workspace_root : option string) (g : Gathered) (p : CachePacket) : Gathered :=
  let body := cp_body p in
  let metadata := cp_metadata p in
  let summaries := collect_summary_texts 24 metadata (collect_summary_texts 24 body (g_summaries g)) in
  let summaries :=
    match extract_packet_summary body with
    | Some summary => push_unique_text summaries summary (Some 24)
    | None => summaries
    end in
  let corpus := collect_texts_from_value 96 metadata (collect_texts_from_value 160 body (g_corpus g)) in
  let refs := collect_ref_terms workspace_root metadata (collect_ref_terms workspace_root body (g_refs g)) in
  let task_ids := collect_task_ids metadata (collect_task_ids body (g_task_ids g)) in
  let packet_types :=
    match or_else (json_get "packet_type" body ≫= json_as_str) (json_get "kind" body ≫= json_as_str) with
    | Some packet_type => {[str_to_ascii_lowercase packet_type]} ∪ g_packet_types g
    | None => g_packet_types g
    end in
  mkGathered corpus summaries refs packet_types task_ids
    (add_budget (g_budget g) (extract_budget_estimate body (cp_token_usage p) (cp_runtime_ms p))).

Definition gather (entry : PacketCacheEntry) (workspace_root : option string) : Gathered :=
  let g := foldl (gather_packet workspace_root)
             (mkGathered [] [] (mkRefTerms [] [] [] []) ∅ ∅ (mkBudgetEstimate 0 0 0)) (pe_packets entry) in
  let summaries := collect_summary_texts 24 (pe_metadata entry) (g_summaries g) in
  let corpus := collect_texts_from_value 96 (pe_metadata entry) (g_corpus g) in
  let task_ids := collect_task_ids (pe_metadata entry) (g_task_ids g) in
  let corpus := corpus ++ summaries ++ [pe_target entry; pe_cache_key entry; pe_input_hash entry]
                  ++ rt_paths (g_refs g) ++ rt_basenames (g_refs g) ++ rt_symbols (g_refs g) ++ rt_tests (g_refs g) in
  mkGathered corpus summaries (g_refs g) (g_packet_types g) task_ids (g_budget g).

(** [*terms.entry(term).or_insert(0) += 1; doc_length.saturating_add(1)]. *)
Definition count_term (acc : gmap string Z * Z) (term : string) : gmap string Z * Z :=
  (<[term := (default 0 (acc.1 !! term) + 1)%Z]> acc.1, saturating_add usize_max acc.2 1).

Definition sorted_strings (s : gset string) : list string := sort_by str_leb (elements s).

Definition build_recall_document (entry : PacketCacheEntry) (workspace_root : option string) : RecallDocument :=
  let g := gather entry workspace_root in
  let nonblank := filter (λ item, is_blank item = false) (g_corpus g) in
  let summary :=
    (λ item, truncate_recall_text item 200) <$>
      or_else (select_recall_summary (g_summaries g)) (max_by_key recall_summary_priority nonblank) in
  let snippet :=
    default "{}" ((λ item, truncate_recall_text item 200) <$> or_else summary (head nonblank)) in
  let '(terms, doc_length) := foldl count_term (∅, 0%Z) (g_corpus g ≫= tokenize) in
  {| rd_cache_key := pe_cache_key entry;
     rd_target := pe_target entry;
     rd_created_at_unix := pe_created_at_unix entry;
     rd_summary := summary;
     rd_snippet := snippet;
     rd_task_ids := str_to_ascii_lowercase <$> sorted_strings (g_task_ids g);
     rd_packet_types := sorted_strings (g_packet_types g);
     rd_paths := rt_paths (g_refs g);
     rd_path_basenames := rt_basenames (g_refs g);
     rd_symbols := rt_symbols (g_refs g);
     rd_tests := rt_tests (g_refs g);
     rd_terms := terms;
     rd_doc_length := doc_length;
     rd_budget_estimate := g_budget g;
     rd_source_tier := classify_recall_source_tier entry;
     rd_memory_kind := classify_memory_kind entry;
     rd_superseded := is_superseded_entry entry;
     rd_dedupe_key := entry_dedupe_key entry |}.
End Document.
