(* ===== verification/MemoryCache.v ===== *)
(** * MemoryCache: the packet cache and its recall indexes

    Models [src/crates/context-memory-core/src/cache.rs] with the counters of
    [types.rs]: lookups, insertion, expiry and pruning, and the indexes that
    are kept up to date beside the entries.  The hashes are a parameter; the
    time is an argument, as in the [_at] variants of the source. *)

From S2P Require Export MemoryDoc Ordering.

(** ** Counters and reports *)

Inductive EvictionReason : Type := ExpiredTtl | ManualPrune | VersionMismatch | CorruptLoadRecovery.

Record EvictionCounters : Type := mkCounters {
  ec_expired_ttl : Z;
  ec_manual_prune : Z;
  ec_version_mismatch : Z;
  ec_corrupt_load_recovery : Z
}.
Definition no_evictions : EvictionCounters := mkCounters 0 0 0 0.

Definition add_evictions (c : EvictionCounters) (reason : EvictionReason) (count : Z) : EvictionCounters :=
  match reason with
  | ExpiredTtl => mkCounters (saturating_add usize_max (ec_expired_ttl c) count) (ec_manual_prune c)
                    (ec_version_mismatch c) (ec_corrupt_load_recovery c)
  | ManualPrune => mkCounters (ec_expired_ttl c) (saturating_add usize_max (ec_manual_prune c) count)
                     (ec_version_mismatch c) (ec_corrupt_load_recovery c)
  | VersionMismatch => mkCounters (ec_expired_ttl c) (ec_manual_prune c)
                         (saturating_add usize_max (ec_version_mismatch c) count) (ec_corrupt_load_recovery c)
  | CorruptLoadRecovery => mkCounters (ec_expired_ttl c) (ec_manual_prune c) (ec_version_mismatch c)
                             (saturating_add usize_max (ec_corrupt_load_recovery c) count)
  end.

Definition DEFAULT_PERSIST_TTL_SECS : Z := 86400.

Record ContextStorePruneRequest : Type := mkPruneRequest {
  pq_all : bool;
  pq_ttl_secs : option Z
}.

Record ContextStorePruneReport : Type := mkPruneReport {
  prr_removed : Z;
  prr_remaining : Z;
  prr_reasons : EvictionCounters
}.

Record ContextStoreStats : Type := mkStats {
  st_entries : Z;
  st_oldest_created_at_unix : option Z;
  st_newest_created_at_unix : option Z;
  st_evictions : EvictionCounters
}.

Record ContextStoreListFilter : Type := mkListFilter {
  lf_target : option string;
  lf_contains_query : option string;
  lf_created_after_unix : option Z;
  lf_created_before_unix : option Z
}.
Record ContextStorePaging : Type := mkPaging { pg_offset : nat; pg_limit : nat }.
Record ContextStoreEntrySummary : Type := mkEntrySummary {
  es_cache_key : string;
  es_target : string;
  es_input_hash : string;
  es_created_at_unix : Z;
  es_age_secs : Z;
  es_packet_count : nat
}.

(** ** The cache *)

Notation RefIndex := (gmap string (gset string)).

Record PacketCache : Type := mkCache {
  entries_by_hash : gmap string PacketCacheEntry;
  latest_request_index : gmap string string;
  eviction_counters : EvictionCounters;
  workspace_root : option string;
  recall_docs : gmap string RecallDocument;
  recall_postings : gmap string (list (string * Z));
  recall_avg_doc_length : f64;
  recall_total_doc_length : Z;
  file_ref_index : RefIndex;
  basename_alias_index : RefIndex;
  symbol_index : RefIndex;
  test_index : RefIndex;
  task_index : RefIndex;
  persisted_sequence : Z;
  has_v3_checkpoint_baseline : bool;
  has_legacy_checkpoint_baseline : bool
}.

Definition new_cache (root : option string) : PacketCache :=
  mkCache ∅ ∅ no_evictions root ∅ ∅ f64_zero 0 ∅ ∅ ∅ ∅ ∅ 0 false false.

Definition set_entries (c : PacketCache) (entries : gmap string PacketCacheEntry) : PacketCache :=
  mkCache entries (latest_request_index c) (eviction_counters c) (workspace_root c) (recall_docs c) (recall_postings c)
    (recall_avg_doc_length c) (recall_total_doc_length c) (file_ref_index c) (basename_alias_index c) (symbol_index c)
    (test_index c) (task_index c) (persisted_sequence c) (has_v3_checkpoint_baseline c) (has_legacy_checkpoint_baseline c).
Definition set_latest (c : PacketCache) (latest : gmap string string) : PacketCache :=
  mkCache (entries_by_hash c) latest (eviction_counters c) (workspace_root c) (recall_docs c) (recall_postings c)
    (recall_avg_doc_length c) (recall_total_doc_length c) (file_ref_index c) (basename_alias_index c) (symbol_index c)
    (test_index c) (task_index c) (persisted_sequence c) (has_v3_checkpoint_baseline c) (has_legacy_checkpoint_baseline c).
Definition set_counters (c : PacketCache) (counters : EvictionCounters) : PacketCache :=
  mkCache (entries_by_hash c) (latest_request_index c) counters (workspace_root c) (recall_docs c) (recall_postings c)
    (recall_avg_doc_length c) (recall_total_doc_length c) (file_ref_index c) (basename_alias_index c) (symbol_index c)
    (test_index c) (task_index c) (persisted_sequence c) (has_v3_checkpoint_baseline c) (has_legacy_checkpoint_baseline c).
Definition set_sequence (c : PacketCache) (sequence : Z) : PacketCache :=
  mkCache (entries_by_hash c) (latest_request_index c) (eviction_counters c) (workspace_root c) (recall_docs c)
    (recall_postings c) (recall_avg_doc_length c) (recall_total_doc_length c) (file_ref_index c) (basename_alias_index c)
    (symbol_index c) (test_index c) (task_index c) sequence (has_v3_checkpoint_baseline c) (has_legacy_checkpoint_baseline c).
Definition set_baselines (c : PacketCache) (v3 legacy : bool) : PacketCache :=
  mkCache (entries_by_hash c) (latest_request_index c) (eviction_counters c) (workspace_root c) (recall_docs c)
    (recall_postings c) (recall_avg_doc_length c) (recall_total_doc_length c) (file_ref_index c) (basename_alias_index c)
    (symbol_index c) (test_index c) (task_index c) (persisted_sequence c) v3 legacy.

Definition cache_len (c : PacketCache) : Z := Z.of_nat (size (entries_by_hash c)).

(** ** Keys of an index *)

(** [.entry(value).or_default().insert(key)]. *)
Definition index_insert (key : string) (index : RefIndex) (value : string) : RefIndex :=
  <[value := {[key]} ∪ default ∅ (index !! value)]> index.

(** [remove_key_from_ref_index]: the key leaves the sets of the values, and
    an empty set leaves the index. *)
Definition index_remove (key : string) (index : RefIndex) (value : string) : RefIndex :=
  match index !! value with
  | Some keys => let keys := keys ∖ {[key]} in if bool_decide (keys = ∅) then delete value index else <[value := keys]> index
  | None => index
  end.
Definition remove_key_from_ref_index (index : RefIndex) (values : list string) (cache_key : string) : RefIndex :=
  foldl (index_remove cache_key) index values.

Definition is_expired (created_at_unix ttl_secs now_unix : Z) : bool :=
  if (ttl_secs =? 0)%Z then false else (ttl_secs <? saturating_sub now_unix created_at_unix)%Z.

(** [total as f64 / count as f64]. *)
Definition average_length (total count : Z) : f64 := f64_div (f64_of_Z total) (f64_of_Z count).

(** The documents of the cache and every index over them. *)
Definition clear_indexes (c : PacketCache) : PacketCache :=
  mkCache (entries_by_hash c) (latest_request_index c) (eviction_counters c) (workspace_root c) ∅ ∅ f64_zero 0 ∅ ∅ ∅ ∅ ∅
    (persisted_sequence c) (has_v3_checkpoint_baseline c) (has_legacy_checkpoint_baseline c).

(** [.entry(term).or_default().push((key, tf))] for every term of a document. *)
Definition push_posting (key : string) (postings : gmap string (list (string * Z))) (t : string * Z)
    : gmap string (list (string * Z)) :=
  <[t.1 := default [] (postings !! t.1) ++ [(key, t.2)]]> postings.

Definition alias_insert (index : RefIndex) (path : string) : RefIndex :=
  match basename_alias path with Some basename => index_insert path index basename | None => index end.

Definition index_document (c : PacketCache) (doc : RecallDocument) : PacketCache :=
  let key := rd_cache_key doc in
  let total := saturating_add usize_max (recall_total_doc_length c) (rd_doc_length doc) in
  let avg := if bool_decide (entries_by_hash c = ∅) then f64_zero else average_length total (cache_len c) in
  mkCache (entries_by_hash c) (latest_request_index c) (eviction_counters c) (workspace_root c)
    (<[key := doc]> (recall_docs c))
    (foldl (push_posting key) (recall_postings c) (map_to_list (rd_terms doc)))
    avg total
    (foldl (index_insert key) (file_ref_index c) (rd_paths doc))
    (foldl alias_insert (basename_alias_index c) (rd_paths doc))
    (foldl (index_insert key) (symbol_index c) (rd_symbols doc))
    (foldl (index_insert key) (test_index c) (rd_tests doc))
    (foldl (index_insert key) (task_index c) (rd_task_ids doc))
    (persisted_sequence c) (has_v3_checkpoint_baseline c) (has_legacy_checkpoint_baseline c).

(** [postings.retain(|(key, _)| key != cache_key)], dropping an empty list. *)
Definition remove_posting (key : string) (postings : gmap string (list (string * Z))) (term : string)
    : gmap string (list (string * Z)) :=
  match postings !! term with
  | Some l =>
      let l := filter (λ p : string * Z, p.1 ≠ key) l in
      match l with [] => delete term postings | _ => <[term := l]> postings end
  | None => postings
  end.

Definition alias_remove (index : RefIndex) (path : string) : RefIndex :=
  match basename_alias path with Some basename => index_remove path index basename | None => index end.

Definition remove_index_for (c : PacketCache) (cache_key : string) : PacketCache :=
  match recall_docs c !! cache_key with
  | None => c
  | Some doc =>
      let docs := delete cache_key (recall_docs c) in
      let total := saturating_sub (recall_total_doc_length c) (rd_doc_length doc) in
      let file_refs := remove_key_from_ref_index (file_ref_index c) (rd_paths doc) cache_key in
      let orphaned_paths := filter (λ path, file_refs !! path = None) (rd_paths doc) in
      mkCache (entries_by_hash c) (latest_request_index c) (eviction_counters c) (workspace_root c)
        docs
        (foldl (remove_posting cache_key) (recall_postings c) (map_to_list (rd_terms doc)).*1)
        (if bool_decide (docs = ∅) then f64_zero else average_length total (Z.of_nat (size docs)))
        total file_refs
        (foldl alias_remove (basename_alias_index c) orphaned_paths)
        (remove_key_from_ref_index (symbol_index c) (rd_symbols doc) cache_key)
        (remove_key_from_ref_index (test_index c) (rd_tests doc) cache_key)
        (remove_key_from_ref_index (task_index c) (rd_task_ids doc) cache_key)
        (persisted_sequence c) (has_v3_checkpoint_baseline c) (has_legacy_checkpoint_baseline c)
  end.

Definition evict_reason (c : PacketCache) (reason : EvictionReason) (count : Z) : PacketCache :=
  set_counters c (add_evictions (eviction_counters c) reason count).

(** ** Operations *)

Class CacheEnv : Type := {
  cache_recall :: RecallEnv;
  hash_hex : string → string;            (* [blake3::hash(..).to_hex()] of text *)
  json_bytes_of : Json → string          (* [serde_json::to_vec(..).unwrap_or_default()] *)
}.

Record CacheLookup : Type := mkLookup {
  lk_cache_key : string;
  lk_input_hash : string;
  lk_entry : option PacketCacheEntry;
  lk_suggested_reuse_base : option string
}.

Section Operations.
Context `{!CacheEnv}.

Definition hash_value (value : Json) : string := hash_hex (json_bytes_of value).

Definition compute_input_hash (target : string) (reducer_input : Json) : string :=
  hash_value (JObject [("reducer_input", reducer_input); ("target", JString target)]).

Definition compute_request_hash (target input_hash : string) : string :=
  hash_hex (trim target +:+ "::" +:+ input_hash).

Definition request_hash_of (entry : PacketCacheEntry) : string :=
  compute_request_hash (pe_target entry) (pe_input_hash entry).

Definition get (c : PacketCache) (cache_key : string) : option PacketCacheEntry := entries_by_hash c !! cache_key.

Definition get_by_request (c : PacketCache) (target input_hash : string) : option PacketCacheEntry :=
  latest_request_index c !! compute_request_hash target input_hash ≫= get c.

(** [lookup_with_hooks]; [select_reuse_base] is the hook's answer to a miss. *)
Definition lookup_with_hooks (select_reuse_base : string → string → PacketCache → option string) (c : PacketCache)
    (target : string) (reducer_input : Json) : CacheLookup :=
  let input_hash := compute_input_hash target reducer_input in
  let entry := get_by_request c target input_hash in
  mkLookup (compute_request_hash target input_hash) input_hash entry
    (match entry with None => select_reuse_base target input_hash c | Some _ => None end).

Definition prepare_entry_at (target : string) (lookup : CacheLookup) (packets : list CachePacket) (metadata : Json)
    (created_at_unix : Z) : PacketCacheEntry :=
  mkEntry (lk_cache_key lookup) target (lk_input_hash lookup) created_at_unix packets metadata
    (mkDeltaReuse (lk_suggested_reuse_base lookup) None).

(** [into_entry_at]: the time of acceptance. *)
Definition set_created_at (e : PacketCacheEntry) (t : Z) : PacketCacheEntry :=
  mkEntry (pe_cache_key e) (pe_target e) (pe_input_hash e) t (pe_packets e) (pe_metadata e) (pe_delta_reuse e).

Definition index_entry (c : PacketCache) (entry : PacketCacheEntry) : PacketCache :=
  index_document c (build_recall_document entry (workspace_root c)).

(** The index of a replaced entry is removed first. *)
Definition forget_index (c : PacketCache) (cache_key : string) : PacketCache :=
  match entries_by_hash c !! cache_key with Some _ => remove_index_for c cache_key | None => c end.

Definition insert_entry (c : PacketCache) (entry : PacketCacheEntry) : PacketCache :=
  let c := forget_index c (pe_cache_key entry) in
  let c := set_entries c (<[pe_cache_key entry := entry]> (entries_by_hash c)) in
  let c := set_latest c (<[request_hash_of entry := pe_cache_key entry]> (latest_request_index c)) in
  index_entry c entry.

(** [insert_owned] returns the entry it replaces. *)
Definition insert_owned (c : PacketCache) (entry : PacketCacheEntry) : PacketCache * option PacketCacheEntry :=
  let retired := entries_by_hash c !! pe_cache_key entry in
  let c := forget_index c (pe_cache_key entry) in
  let document := build_recall_document entry (workspace_root c) in
  let c := set_latest c (<[request_hash_of entry := pe_cache_key entry]> (latest_request_index c)) in
  let c := set_entries c (<[pe_cache_key entry := entry]> (entries_by_hash c)) in
  (index_document c document, retired).

Definition put_at (c : PacketCache) (target : string) (lookup : CacheLookup) (packets : list CachePacket)
    (metadata : Json) (created_at_unix : Z) : PacketCache * PacketCacheEntry :=
  let entry := set_created_at (prepare_entry_at target lookup packets metadata 0) created_at_unix in
  (insert_entry c entry, entry).

(** [rebuild_latest_request_index]: the newest entry of a request, and the
    later one of the iteration among equals. *)
Definition latest_step (latest : gmap string (Z * string)) (e : string * PacketCacheEntry) : gmap string (Z * string) :=
  let request_hash := request_hash_of e.2 in
  let keep_newer :=
    match latest !! request_hash with Some (created, _) => (created <=? pe_created_at_unix e.2)%Z | None => true end in
  if keep_newer then <[request_hash := (pe_created_at_unix e.2, e.1)]> latest else latest.

Definition rebuild_latest_request_index (c : PacketCache) : PacketCache :=
  set_latest c (snd <$> foldl latest_step ∅ (map_to_list (entries_by_hash c))).

Definition entry_key_cmp (a b : PacketCacheEntry) : comparison := str_cmp (pe_cache_key a) (pe_cache_key b).

Definition rebuild_indexes (c : PacketCache) : PacketCache :=
  foldl index_entry (clear_indexes c) (sort_by_cmp entry_key_cmp (map_to_list (entries_by_hash c)).*2).

(** The keys of the entries that satisfy [predicate], sorted. *)
Definition keys_where (predicate : PacketCacheEntry → bool) (c : PacketCache) : list string :=
  sort_by_cmp str_cmp (map_to_list (filter (λ e : string * PacketCacheEntry, predicate e.2) (entries_by_hash c))).*1.

Definition remove_entry (c : PacketCache) (cache_key : string) : PacketCache :=
  remove_index_for (set_entries c (delete cache_key (entries_by_hash c))) cache_key.

Definition remove_where (predicate : PacketCacheEntry → bool) (reason : EvictionReason) (c : PacketCache)
    : PacketCache * list string :=
  let to_remove := keys_where predicate c in
  let c := foldl remove_entry c to_remove in
  match to_remove with
  | [] => (c, [])
  | _ => (evict_reason (rebuild_latest_request_index c) reason (Z.of_nat (length to_remove)), to_remove)
  end.

Definition expired_at (ttl_secs now_unix : Z) (e : PacketCacheEntry) : bool :=
  is_expired (pe_created_at_unix e) ttl_secs now_unix.

Definition evict_expired_entries_at (ttl_secs now_unix : Z) (c : PacketCache) : PacketCache * list string :=
  if (ttl_secs =? 0)%Z then (c, []) else remove_where (expired_at ttl_secs now_unix) ExpiredTtl c.

Definition expired_entry_keys_at (ttl_secs now_unix : Z) (c : PacketCache) : list string :=
  if (ttl_secs =? 0)%Z then [] else keys_where (expired_at ttl_secs now_unix) c.

Definition prune_at (request : ContextStorePruneRequest) (now_unix : Z) (c : PacketCache)
    : PacketCache * ContextStorePruneReport :=
  let '(c, removed) :=
    if pq_all request then
      let removed := cache_len c in
      let c := clear_indexes (set_latest (set_entries c ∅) ∅) in
      (if (0 <? removed)%Z then evict_reason c ManualPrune removed else c, removed)
    else
      let ttl_secs := default DEFAULT_PERSIST_TTL_SECS (pq_ttl_secs request) in
      let '(c, keys) := remove_where (expired_at ttl_secs now_unix) ManualPrune c in
      (c, Z.of_nat (length keys)) in
  (c, mkPruneReport removed (cache_len c) (eviction_counters c)).

Definition prune_candidate_keys_at (request : ContextStorePruneRequest) (now_unix : Z) (c : PacketCache) : list string :=
  if pq_all request then keys_where (λ _, true) c
  else expired_entry_keys_at (default DEFAULT_PERSIST_TTL_SECS (pq_ttl_secs request)) now_unix c.

(** ** Queries *)

Definition entries_of (c : PacketCache) : list PacketCacheEntry := (map_to_list (entries_by_hash c)).*2.

Definition stats (c : PacketCache) : ContextStoreStats :=
  let times := pe_created_at_unix <$> entries_of c in
  mkStats (cache_len c) (min_by Z.leb times) (min_by (λ a b, b <=? a)%Z times) (eviction_counters c).

Definition entry_time_cmp (a b : PacketCacheEntry) : comparison :=
  then_with (Z.compare (pe_created_at_unix a) (pe_created_at_unix b)) (entry_key_cmp a b).
Definition entries (c : PacketCache) : list PacketCacheEntry := sort_by_cmp entry_time_cmp (entries_of c).

Definition list_matches (f : ContextStoreListFilter) (e : PacketCacheEntry) : bool :=
  match lf_target f with
  | Some target => contains (str_to_ascii_lowercase target) (str_to_ascii_lowercase (pe_target e)) | None => true end &&
  match lf_contains_query f with
  | Some query =>
      contains (str_to_ascii_lowercase query)
        (str_to_ascii_lowercase (pe_cache_key e) +:+ " " +:+ str_to_ascii_lowercase (pe_target e)
           +:+ " " +:+ str_to_ascii_lowercase (pe_input_hash e))
  | None => true end &&
  match lf_created_after_unix f with Some after => (after <=? pe_created_at_unix e)%Z | None => true end &&
  match lf_created_before_unix f with Some before => (pe_created_at_unix e <=? before)%Z | None => true end.

Definition summary_cmp (a b : ContextStoreEntrySummary) : comparison :=
  then_with (Z.compare (es_created_at_unix b) (es_created_at_unix a)) (str_cmp (es_cache_key a) (es_cache_key b)).

Definition list_entries (f : ContextStoreListFilter) (paging : ContextStorePaging) (now_unix : Z) (c : PacketCache)
    : list ContextStoreEntrySummary :=
  let items :=
    (λ e, mkEntrySummary (pe_cache_key e) (pe_target e) (pe_input_hash e) (pe_created_at_unix e)
            (saturating_sub now_unix (pe_created_at_unix e)) (length (pe_packets e)))
      <$> filter (λ e, list_matches f e) (entries_of c) in
  take (Nat.max (pg_limit paging) 1) (drop (pg_offset paging) (sort_by_cmp summary_cmp items)).
End Operations.
