(* ===== verification/MemoryPersist.v ===== *)
(** * MemoryPersist: the checkpoint and the write-ahead log of the packet cache

    Models the bytes and the pure code of
    [src/crates/context-memory-core/src/persist.rs]: persisted entries, the
    checkpoint frame and the validation of its envelope, the projection of a
    cache onto its live entries, the frames of the log and their replay.
    blake3, the binary codec of the envelopes and the JSON of values and
    deltas are parameters.  The files are in MemoryDisk. *)

From S2P Require Export MemoryCache MachineInt.

Definition PERSIST_CACHE_VERSION : Z := 3.
Definition PERSIST_WAL_VERSION : Z := 1.
Definition PERSIST_WAL_MAGIC : list Z := [80; 50; 56; 67; 87; 65; 76; 49]%Z.
Definition PERSIST_WAL_HEADER_LEN : nat := 48.
Definition MAX_PERSIST_WAL_RECORD_BYTES : Z := (64 * 1024 * 1024)%Z.
Definition MAX_PERSIST_WAL_BYTES : Z := (512 * 1024 * 1024)%Z.
Definition PERSIST_CHECKPOINT_MAGIC : list Z := [80; 50; 56; 67; 67; 80; 51; 49]%Z.
Definition PERSIST_CHECKPOINT_HEADER_LEN : nat := 48.
Definition MAX_PERSIST_CHECKPOINT_BYTES : Z := (512 * 1024 * 1024)%Z.

(** [io::Error], by its message. *)
Definition IoError : Type := string.

(** ** Data *)

Record PersistCachePacket : Type := mkPersistPacket {
  pp_packet_id : option string;
  pp_body_json : string;
  pp_token_usage : option Z;
  pp_runtime_ms : option Z;
  pp_metadata_json : string
}.

Record PersistPacketCacheEntry : Type := mkPersistEntry {
  ppe_cache_key : string;
  ppe_target : string;
  ppe_input_hash : string;
  ppe_created_at_unix : Z;
  ppe_packets : list PersistCachePacket;
  ppe_metadata_json : string;
  ppe_delta_reuse : DeltaReuse
}.

Record PersistEnvelopeV1 : Type := mkEnvelopeV1 {
  v1_version : Z;
  v1_entries : list PersistPacketCacheEntry
}.

(** What the envelopes of versions 2 and 3 share. *)
Record EnvelopeState : Type := mkEnvelopeState {
  env_entries : list PersistPacketCacheEntry;
  env_recall_docs : list RecallDocument;
  env_recall_postings : gmap string (list (string * Z));
  env_recall_avg_doc_length : f64;
  env_file_ref_index : RefIndex;
  env_basename_alias_index : RefIndex;
  env_symbol_index : RefIndex;
  env_test_index : RefIndex;
  env_task_index : RefIndex
}.
Record PersistEnvelopeV2 : Type := mkEnvelopeV2 {
  v2_version : Z;
  v2_state : EnvelopeState
}.
Record PersistEnvelopeV3 : Type := mkEnvelopeV3 {
  v3_version : Z;
  v3_applied_wal_sequence : Z;
  v3_state : EnvelopeState
}.

Inductive PersistDelta : Type :=
| Upsert (entry : PersistPacketCacheEntry)
| Remove (cache_key : string).

Definition delta_cache_key (d : PersistDelta) : string :=
  match d with Upsert entry => ppe_cache_key entry | Remove cache_key => cache_key end.

Definition set_upsert_created_at_unix (d : PersistDelta) (t : Z) : PersistDelta :=
  match d with
  | Upsert e => Upsert (mkPersistEntry (ppe_cache_key e) (ppe_target e) (ppe_input_hash e) t (ppe_packets e)
                          (ppe_metadata_json e) (ppe_delta_reuse e))
  | Remove _ => d
  end.

Record PersistWalRecord : Type := mkWalRecord {
  wr_version : Z;
  wr_sequence : Z;
  wr_deltas : list PersistDelta
}.

Record WalReplay : Type := mkWalReplay {
  highest_sequence : Z;
  valid_bytes : nat;
  recovered_corruption : bool;
  baseline_mismatch : bool
}.

Class PersistEnv : Type := {
  persist_cache :: CacheEnv;
  json_text : Json → string;                                  (* [serde_json::to_string] of a value *)
  json_parse : string → option Json;                          (* [serde_json::from_str] *)
  checksum : list Z → list Z;                                 (* [blake3::hash], 32 bytes *)
  envelope_bytes : PersistEnvelopeV3 → option (list Z);       (* [wincode::serialize] *)
  envelope_read : list Z → option PersistEnvelopeV3;          (* [wincode::deserialize] *)
  envelope_read_v2 : list Z → option PersistEnvelopeV2;
  envelope_read_v1 : list Z → option PersistEnvelopeV1;
  delta_text : PersistDelta → list Z;                         (* [serde_json::to_writer] of a delta *)
  record_read : list Z → option PersistWalRecord              (* [serde_json::from_slice] *)
}.

Section Persist.
Context {ENV : PersistEnv}.

(** ** Persisted entries *)

Definition encode_json_value (v : Json) : string := json_text v.
Definition decode_json_value (raw : string) : Json := default JNull (json_parse raw).

Definition from_cache_packet (p : CachePacket) : PersistCachePacket :=
  mkPersistPacket (cp_packet_id p) (encode_json_value (cp_body p)) (cp_token_usage p) (cp_runtime_ms p)
    (encode_json_value (cp_metadata p)).
Definition into_cache_packet (p : PersistCachePacket) : CachePacket :=
  mkCachePacket (pp_packet_id p) (decode_json_value (pp_body_json p)) (pp_token_usage p) (pp_runtime_ms p)
    (decode_json_value (pp_metadata_json p)).

Definition from_entry (e : PacketCacheEntry) : PersistPacketCacheEntry :=
  mkPersistEntry (pe_cache_key e) (pe_target e) (pe_input_hash e) (pe_created_at_unix e)
    (from_cache_packet <$> pe_packets e) (encode_json_value (pe_metadata e)) (pe_delta_reuse e).
Definition into_entry (e : PersistPacketCacheEntry) : PacketCacheEntry :=
  mkEntry (ppe_cache_key e) (ppe_target e) (ppe_input_hash e) (ppe_created_at_unix e)
    (into_cache_packet <$> ppe_packets e) (decode_json_value (ppe_metadata_json e)) (ppe_delta_reuse e).

(** ** The checkpoint frame *)

Definition encode_checkpoint_frame (payload : list Z) : result IoError (list Z) :=
  if (MAX_PERSIST_CHECKPOINT_BYTES <? Z.of_nat (length payload))%Z then Err "cache checkpoint is too large"
  else Ok (PERSIST_CHECKPOINT_MAGIC ++ to_le_bytes 8 (Z.of_nat (length payload)) ++ checksum payload ++ payload).

Inductive CheckpointLoadError : Type := LoadVersionMismatch | LoadCorrupt.

Definition decode_checkpoint_payload (raw : list Z) : result CheckpointLoadError (list Z) :=
  ensure (bool_decide (take 8 raw = PERSIST_CHECKPOINT_MAGIC)) LoadCorrupt ;;
  ensure (PERSIST_CHECKPOINT_HEADER_LEN <=? length raw) LoadCorrupt ;;
  let payload_len := from_le_bytes (slice 8 16 raw) in
  ensure (payload_len <=? MAX_PERSIST_CHECKPOINT_BYTES)%Z LoadCorrupt ;;
  ensure (Z.of_nat (length raw) =? Z.of_nat PERSIST_CHECKPOINT_HEADER_LEN + payload_len)%Z LoadCorrupt ;;
  let payload := drop PERSIST_CHECKPOINT_HEADER_LEN raw in
  ensure (bool_decide (checksum payload = slice 16 48 raw)) LoadCorrupt ;;
  Ok payload.

(** ** Validation of an envelope *)

Definition validate_json (e : PersistPacketCacheEntry) (what : string) (raw : string) : result IoError () :=
  match json_parse raw with
  | Some _ => Ok ()
  | None => Err ("cache checkpoint entry " +:+ ppe_cache_key e +:+ " has invalid " +:+ what +:+ " JSON")
  end.

Definition validate_entry (entries : gmap string PersistPacketCacheEntry) (e : PersistPacketCacheEntry)
    : result IoError (gmap string PersistPacketCacheEntry) :=
  ensure (negb (is_blank (ppe_cache_key e))) "cache checkpoint contains an empty key" ;;
  ensure (bool_decide (entries !! ppe_cache_key e = None)) ("cache checkpoint contains duplicate key " +:+ ppe_cache_key e) ;;
  validate_json e "metadata" (ppe_metadata_json e) ;;
  for_each (λ p, validate_json e "packet body" (pp_body_json p) ;; validate_json e "packet metadata" (pp_metadata_json p))
    (ppe_packets e) ;;
  Ok (<[ppe_cache_key e := e]> entries).

(** [doc.terms.values().try_fold(0usize, ..)]; the order does not matter. *)
Definition computed_length (terms : gmap string Z) : option Z :=
  foldr (λ count total, t ← total; if (count =? 0)%Z then None else checked_add usize_max t count) (Some 0%Z)
    (map_to_list terms).*2.

Definition validate_doc (entries : gmap string PersistPacketCacheEntry) (docs : gmap string RecallDocument) (d : RecallDocument)
    : result IoError (gmap string RecallDocument) :=
  entry ← ok_or (entries !! rd_cache_key d) ("recall document " +:+ rd_cache_key d +:+ " does not reference a live entry");
  ensure (bool_decide (docs !! rd_cache_key d = None)) ("cache checkpoint contains duplicate recall document " +:+ rd_cache_key d) ;;
  ensure (bool_decide (rd_target d = ppe_target entry) && (rd_created_at_unix d =? ppe_created_at_unix entry)%Z)
    ("recall document " +:+ rd_cache_key d +:+ " disagrees with its cache entry") ;;
  ensure (bool_decide (computed_length (rd_terms d) = Some (rd_doc_length d))
          && forallb (λ term, negb (is_blank term)) (map_to_list (rd_terms d)).*1)
    ("recall document " +:+ rd_cache_key d +:+ " has invalid term frequencies") ;;
  Ok (<[rd_cache_key d := d]> docs).

(** The postings that the documents imply. *)
Definition expect_posting (key : string) (expected : gmap string (gset (string * Z))) (t : string * Z)
    : gmap string (gset (string * Z)) :=
  <[t.1 := {[(key, t.2)]} ∪ default ∅ (expected !! t.1)]> expected.
Definition expected_postings (docs : gmap string RecallDocument) : gmap string (gset (string * Z)) :=
  foldl (λ expected d, foldl (expect_posting (rd_cache_key d)) expected (map_to_list (rd_terms d))) ∅ (map_to_list docs).*2.

Definition validate_posting (docs : gmap string RecallDocument) (term : string) (values : gset (string * Z)) (p : string * Z)
    : result IoError (gset (string * Z)) :=
  ensure (negb (p.2 =? 0)%Z && bool_decide (is_Some (docs !! p.1)) && negb (bool_decide (p ∈ values)))
    ("cache checkpoint has an invalid recall posting for " +:+ term) ;;
  Ok ({[p]} ∪ values).

Definition validate_term (docs : gmap string RecallDocument) (normalized : gmap string (gset (string * Z)))
    (tp : string * list (string * Z)) : result IoError (gmap string (gset (string * Z))) :=
  ensure (negb (is_blank tp.1) && negb (bool_decide (tp.2 = []))) "cache checkpoint has an empty recall posting" ;;
  values ← fold_result (validate_posting docs tp.1) ∅ tp.2;
  Ok (<[tp.1 := values]> normalized).

Definition validate_recall_postings (actual : gmap string (list (string * Z))) (docs : gmap string RecallDocument)
    : result IoError () :=
  normalized ← fold_result (validate_term docs) ∅ (map_to_list actual);
  ensure (bool_decide (normalized = expected_postings docs)) "cache checkpoint recall postings disagree with recall documents".

Definition validate_ref_index (actual : RefIndex) (docs : gmap string RecallDocument) (values : RecallDocument → list string)
    : result IoError () :=
  let expected := foldl (λ expected d, foldl (index_insert (rd_cache_key d)) expected (values d)) ∅ (map_to_list docs).*2 in
  ensure (bool_decide (actual = expected)) "cache checkpoint reference index disagrees with recall documents".

Definition validate_basename_alias_index (actual file_refs : RefIndex) : result IoError () :=
  let expected := foldl alias_insert ∅ (map_to_list file_refs).*1 in
  ensure (bool_decide (actual = expected)) "cache checkpoint basename aliases disagree with file references".

Definition average_recall_doc_length (docs : list RecallDocument) : f64 :=
  match docs with
  | [] => f64_zero
  | _ => average_length (wrapping_sum usize_max (rd_doc_length <$> docs)) (Z.of_nat (length docs))
  end.

Definition indexes_are_empty (s : EnvelopeState) : bool :=
  bool_decide (env_recall_docs s = []) && bool_decide (env_recall_postings s = ∅) && bool_decide (env_file_ref_index s = ∅)
  && bool_decide (env_basename_alias_index s = ∅) && bool_decide (env_symbol_index s = ∅)
  && bool_decide (env_test_index s = ∅) && bool_decide (env_task_index s = ∅).

Definition validate_average (s : EnvelopeState) : result IoError () :=
  let average := env_recall_avg_doc_length s in
  ensure (f64_is_finite average && negb (f64_is_sign_negative average)) "cache checkpoint has an invalid average document length" ;;
  ensure (negb (f64_lt f64_epsilon (f64_abs (f64_sub average (average_recall_doc_length (env_recall_docs s))))))
    "cache checkpoint average document length does not match recall documents".

Definition validate_v3_envelope (envelope : PersistEnvelopeV3) : result IoError () :=
  let s := v3_state envelope in
  entries ← fold_result validate_entry ∅ (env_entries s);
  if indexes_are_empty s then
    ensure (bool_decide (entries = ∅)) "cache checkpoint with live entries is missing recall indexes" ;;
    ensure (f64_eq (env_recall_avg_doc_length s) f64_zero)
      "cache checkpoint has an average document length without recall indexes"
  else
    docs ← fold_result (validate_doc entries) ∅ (env_recall_docs s);
    ensure (size docs =? size entries)%nat "cache checkpoint recall documents do not cover all live entries" ;;
    validate_recall_postings (env_recall_postings s) docs ;;
    validate_ref_index (env_file_ref_index s) docs rd_paths ;;
    validate_ref_index (env_symbol_index s) docs rd_symbols ;;
    validate_ref_index (env_test_index s) docs rd_tests ;;
    validate_ref_index (env_task_index s) docs rd_task_ids ;;
    validate_basename_alias_index (env_basename_alias_index s) (env_file_ref_index s) ;;
    validate_average s.

Definition decode_checkpoint_envelope_v3 (raw : list Z) : result IoError PersistEnvelopeV3 :=
  match decode_checkpoint_payload raw with
  | Err _ => Err "cache checkpoint frame is corrupt"
  | Ok payload =>
      envelope ← ok_or (envelope_read payload) "cache checkpoint is corrupt";
      validate_v3_envelope envelope ;; Ok envelope
  end.

(** ** The live entries of a cache *)

Definition live_at (ttl_secs now_unix : Z) (e : PacketCacheEntry) : bool :=
  negb (is_expired (pe_created_at_unix e) ttl_secs now_unix).

Definition collect_live_entries_at (c : PacketCache) (ttl_secs now_unix : Z) : list PersistPacketCacheEntry :=
  from_entry <$> filter (λ e, live_at ttl_secs now_unix e) (entries_of c).

Definition filter_postings_for_live_keys (postings : gmap string (list (string * Z))) (live_keys : gset string)
    : gmap string (list (string * Z)) :=
  omap (λ l, match filter (λ p : string * Z, p.1 ∈ live_keys) l with [] => None | l => Some l end) postings.

Definition filter_ref_index_for_live_keys (index : RefIndex) (live_keys : gset string) : RefIndex :=
  omap (λ keys, let keys := filter (λ k, k ∈ live_keys) keys in if bool_decide (keys = ∅) then None else Some keys) index.

Definition file_is_live (file_refs : RefIndex) (live_keys : gset string) (canonical : string) : bool :=
  match file_refs !! canonical with
  | Some keys => negb (bool_decide (filter (λ k, k ∈ live_keys) keys = ∅))
  | None => false
  end.
Definition filter_basename_alias_index_for_live_keys (index : RefIndex) (live_keys : gset string) (file_refs : RefIndex) : RefIndex :=
  omap (λ canonicals, let live := filter (λ p, file_is_live file_refs live_keys p) canonicals in
                      if bool_decide (live = ∅) then None else Some live) index.

(** The envelope of [write_checkpoint_inner]. *)
Definition envelope_of (c : PacketCache) (ttl_secs now_unix : Z) : PersistEnvelopeV3 :=
  let live_entries := collect_live_entries_at c ttl_secs now_unix in
  let live_keys := list_to_set (ppe_cache_key <$> live_entries) in
  let docs := (map_to_list (filter (λ kd : string * RecallDocument, kd.1 ∈ live_keys) (recall_docs c))).*2 in
  mkEnvelopeV3 PERSIST_CACHE_VERSION (persisted_sequence c)
    (mkEnvelopeState live_entries docs (filter_postings_for_live_keys (recall_postings c) live_keys)
       (average_recall_doc_length docs)
       (filter_ref_index_for_live_keys (file_ref_index c) live_keys)
       (filter_basename_alias_index_for_live_keys (basename_alias_index c) live_keys (file_ref_index c))
       (filter_ref_index_for_live_keys (symbol_index c) live_keys)
       (filter_ref_index_for_live_keys (test_index c) live_keys)
       (filter_ref_index_for_live_keys (task_index c) live_keys)).

(** The bytes of a checkpoint. *)
Definition encode_checkpoint (c : PacketCache) (ttl_secs now_unix : Z) : result IoError (list Z) :=
  let envelope := envelope_of c ttl_secs now_unix in
  validate_v3_envelope envelope ;;
  payload ← ok_or (envelope_bytes envelope) "failed to serialize cache envelope";
  encode_checkpoint_frame payload.

(** ** Loading an envelope *)

Definition insert_loaded (entries : gmap string PacketCacheEntry) (e : PersistPacketCacheEntry) : gmap string PacketCacheEntry :=
  let entry := into_entry e in
  if is_blank (pe_cache_key entry) then entries else <[pe_cache_key entry := entry]> entries.
Definition loaded_entries (l : list PersistPacketCacheEntry) : gmap string PacketCacheEntry := foldl insert_loaded ∅ l.

Definition load_envelope_state (c : PacketCache) (s : EnvelopeState) : PacketCache :=
  let docs := foldl (λ docs d, <[rd_cache_key d := d]> docs) ∅ (env_recall_docs s) in
  mkCache (loaded_entries (env_entries s)) (latest_request_index c) (eviction_counters c) (workspace_root c) docs
    (env_recall_postings s) (env_recall_avg_doc_length s)
    (wrapping_sum usize_max (rd_doc_length <$> (map_to_list docs).*2))
    (env_file_ref_index s) (env_basename_alias_index s) (env_symbol_index s) (env_test_index s) (env_task_index s)
    (persisted_sequence c) (has_v3_checkpoint_baseline c) (has_legacy_checkpoint_baseline c).

Definition load_v3_envelope (c : PacketCache) (envelope : PersistEnvelopeV3) : PacketCache :=
  set_sequence (load_envelope_state c (v3_state envelope)) (v3_applied_wal_sequence envelope).

Definition merge_eviction_counters (target source : EvictionCounters) : EvictionCounters :=
  mkCounters (saturating_add usize_max (ec_expired_ttl target) (ec_expired_ttl source))
    (saturating_add usize_max (ec_manual_prune target) (ec_manual_prune source))
    (saturating_add usize_max (ec_version_mismatch target) (ec_version_mismatch source))
    (saturating_add usize_max (ec_corrupt_load_recovery target) (ec_corrupt_load_recovery source)).

(** ** The log *)

Definition quoted (s : string) : string := String "034" (s +:+ String "034" EmptyString).

Fixpoint join_bytes (sep : list Z) (l : list (list Z)) : list Z :=
  match l with
  | [] => []
  | [x] => x
  | x :: l => x ++ sep ++ join_bytes sep l
  end.

(** [serde_json::to_vec] of a record: its fields in order. *)
Definition record_bytes (r : PersistWalRecord) : list Z :=
  text_bytes ("{" +:+ quoted "version" +:+ ":" +:+ show_uint (wr_version r)
              +:+ "," +:+ quoted "sequence" +:+ ":" +:+ show_uint (wr_sequence r)
              +:+ "," +:+ quoted "deltas" +:+ ":[")
  ++ join_bytes (text_bytes ",") (delta_text <$> wr_deltas r) ++ text_bytes "]}".

Definition persist_delta_encoded_len (d : PersistDelta) : Z := Z.of_nat (length (delta_text d)).

Definition empty_record_len : Z :=
  Z.of_nat (length (record_bytes (mkWalRecord PERSIST_WAL_VERSION u64_max []))).

(** [None] is the overflow error. *)
Definition persist_wal_record_payload_len (lengths : list Z) : option Z :=
  total ← foldl (λ total n, t ← total; checked_add usize_max t n) (Some empty_record_len) lengths;
  checked_add usize_max total (Z.of_nat (length lengths - 1)).

Definition wal_frame (payload : list Z) : list Z :=
  PERSIST_WAL_MAGIC ++ to_le_bytes 8 (Z.of_nat (length payload)) ++ checksum payload ++ payload.

(** The frame of [append_wal_record]. *)
Definition encode_wal_record (sequence : Z) (deltas : list PersistDelta) : result IoError (list Z) :=
  let payload := record_bytes (mkWalRecord PERSIST_WAL_VERSION sequence deltas) in
  if (MAX_PERSIST_WAL_RECORD_BYTES <? Z.of_nat (length payload))%Z then Err "cache WAL record is too large"
  else Ok (wal_frame payload).

Definition apply_delta (c : PacketCache) (d : PersistDelta) : PacketCache :=
  match d with
  | Upsert e =>
      let entry := into_entry e in
      if is_blank (pe_cache_key entry) then c
      else
        let c := forget_index c (pe_cache_key entry) in
        let c := set_entries c (<[pe_cache_key entry := entry]> (entries_by_hash c)) in
        index_entry c entry
  | Remove cache_key => remove_entry c cache_key
  end.

Definition apply_persist_deltas (c : PacketCache) (sequence : Z) (deltas : list PersistDelta) : PacketCache :=
  rebuild_latest_request_index (set_sequence (foldl apply_delta c deltas) sequence).

(** A frame at the start of the bytes: its record and what follows. *)
Definition decode_frame (raw : list Z) : option (PersistWalRecord * list Z) :=
  if (length raw <? PERSIST_WAL_HEADER_LEN)%nat then None
  else if negb (bool_decide (take 8 raw = PERSIST_WAL_MAGIC)) then None
  else
    let payload_len := from_le_bytes (slice 8 16 raw) in
    if (MAX_PERSIST_WAL_RECORD_BYTES <? payload_len)%Z then None
    else if (Z.of_nat (length raw) <? Z.of_nat PERSIST_WAL_HEADER_LEN + payload_len)%Z then None
    else
      let frame_end := PERSIST_WAL_HEADER_LEN + Z.to_nat payload_len in
      let payload := slice PERSIST_WAL_HEADER_LEN frame_end raw in
      if negb (bool_decide (checksum payload = slice 16 48 raw)) then None
      else match record_read payload with
           | Some r => if (wr_version r =? PERSIST_WAL_VERSION)%Z then Some (r, drop frame_end raw) else None
           | None => None
           end.

(** The loop of [replay_open_wal] over the bytes from [offset] on. *)
Fixpoint replay_loop (fuel : nat) (offset : nat) (raw : list Z) (c : PacketCache) (highest : Z) : PacketCache * WalReplay :=
  match fuel, raw with
  | S fuel, _ :: _ =>
      match decode_frame raw with
      | None => (c, mkWalReplay highest offset true false)
      | Some (r, rest) =>
          let next := offset + (length raw - length rest) in
          if (highest <? wr_sequence r)%Z then
            if (wr_sequence r =? saturating_add u64_max highest 1)%Z
            then replay_loop fuel next rest (apply_persist_deltas c (wr_sequence r) (wr_deltas r)) (wr_sequence r)
            else (c, mkWalReplay highest offset false true)
          else replay_loop fuel next rest c highest
      end
  | _, _ => (c, mkWalReplay highest offset false false)
  end.

(** [replay_open_wal] on the bytes of the log. *)
Definition replay_bytes (c : PacketCache) (raw : list Z) : PacketCache * WalReplay :=
  replay_loop (length raw) 0 raw c (persisted_sequence c).

Definition empty_wal_replay (c : PacketCache) : WalReplay := mkWalReplay (persisted_sequence c) 0 false false.
End Persist.
