(* ===== verification/MemoryExample.v ===== *)
(** * MemoryExample: concrete parameters of the packet cache

    An instance of the parameters of MemoryCache and MemoryPersist for which
    the laws of the theorems hold: hashes that keep their text, a codec by
    stdpp's [Countable], records whose deltas are one number each.  The
    witnesses use it. *)

From S2P Require Export MemoryPersist.

(** ** Encodings *)

#[export] Instance f64_eq_dec : EqDecision f64.
Proof. unfold f64. solve_decision. Defined.
#[export] Instance delta_reuse_eq_dec : EqDecision DeltaReuse.
Proof. solve_decision. Defined.
#[export] Instance persist_packet_eq_dec : EqDecision PersistCachePacket.
Proof. solve_decision. Defined.
#[export] Instance persist_entry_eq_dec : EqDecision PersistPacketCacheEntry.
Proof. solve_decision. Defined.
#[export] Instance source_tier_eq_dec : EqDecision MemorySourceTier.
Proof. solve_decision. Defined.
#[export] Instance memory_kind_eq_dec : EqDecision MemoryKind.
Proof. solve_decision. Defined.
#[export] Instance budget_estimate_eq_dec : EqDecision RecallBudgetEstimate.
Proof. solve_decision. Defined.
#[export] Instance recall_document_eq_dec : EqDecision RecallDocument.
Proof. solve_decision. Defined.
#[export] Instance envelope_state_eq_dec : EqDecision EnvelopeState.
Proof. solve_decision. Defined.
#[export] Instance envelope_eq_dec : EqDecision PersistEnvelopeV3.
Proof. solve_decision. Defined.
#[export] Instance delta_eq_dec : EqDecision PersistDelta.
Proof. solve_decision. Defined.

Definition f64_parts (x : f64) : Z * bool * positive * Z :=
  match x with
  | S754_zero s => (0, s, 1%positive, 0)%Z
  | S754_infinity s => (1, s, 1%positive, 0)%Z
  | S754_nan => (2, false, 1%positive, 0)%Z
  | S754_finite s m e => (3, s, m, e)%Z
  end.
Definition f64_of_parts (p : Z * bool * positive * Z) : f64 :=
  let '(k, s, m, e) := p in
  if (k =? 0)%Z then S754_zero s else if (k =? 1)%Z then S754_infinity s else if (k =? 2)%Z then S754_nan else S754_finite s m e.
#[export] Instance f64_countable : Countable f64.
Proof. apply (inj_countable' f64_parts f64_of_parts). by intros []. Defined.

#[export] Instance delta_reuse_countable : Countable DeltaReuse.
Proof. apply (inj_countable' (λ d, (reused_from d, delta_ratio d)) (λ '(a, b), mkDeltaReuse a b)). by intros []. Defined.
#[export] Instance persist_packet_countable : Countable PersistCachePacket.
Proof.
  apply (inj_countable' (λ p, (pp_packet_id p, pp_body_json p, pp_token_usage p, pp_runtime_ms p, pp_metadata_json p))
    (λ '(a, b, c, d, e), mkPersistPacket a b c d e)). by intros [].
Defined.
#[export] Instance persist_entry_countable : Countable PersistPacketCacheEntry.
Proof.
  apply (inj_countable' (λ e, (ppe_cache_key e, ppe_target e, ppe_input_hash e, ppe_created_at_unix e, ppe_packets e,
    ppe_metadata_json e, ppe_delta_reuse e)) (λ '(a, b, c, d, e, f, g), mkPersistEntry a b c d e f g)). by intros [].
Defined.
#[export] Instance source_tier_countable : Countable MemorySourceTier.
Proof.
  apply (inj_countable' (λ t, match t with CuratedMemory => 0 | Telemetry => 1 | Standard => 2 end)
    (λ n, match n with 0 => CuratedMemory | 1 => Telemetry | _ => Standard end)). by intros [].
Defined.
#[export] Instance memory_kind_countable : Countable MemoryKind.
Proof.
  apply (inj_countable' (λ k, match k with
    | Brief => 0 | Handoff => 1 | RecommendedAction => 2 | Evidence => 3 | ToolTrace => 4 | FocusInference => 5 | StateWrite => 6
    | Other => 7 end)
    (λ n, match n with
    | 0 => Brief | 1 => Handoff | 2 => RecommendedAction | 3 => Evidence | 4 => ToolTrace | 5 => FocusInference | 6 => StateWrite
    | _ => Other end)). by intros [].
Defined.
#[export] Instance budget_estimate_countable : Countable RecallBudgetEstimate.
Proof. apply (inj_countable' (λ e, (est_tokens e, est_bytes e, est_runtime_ms e)) (λ '(a, b, c), mkBudgetEstimate a b c)). by intros []. Defined.
#[export] Instance recall_document_countable : Countable RecallDocument.
Proof.
  apply (inj_countable' (λ d,
    ((rd_cache_key d, rd_target d, rd_created_at_unix d, rd_summary d, rd_snippet d, rd_task_ids d, rd_packet_types d, rd_paths d,
      rd_path_basenames d),
     (rd_symbols d, rd_tests d, rd_terms d, rd_doc_length d, rd_budget_estimate d, rd_source_tier d, rd_memory_kind d, rd_superseded d,
      rd_dedupe_key d)))
    (λ '((a, b, c, d, e, f, g, h, i), (j, k, l, m, n, o, p, q, r)), mkRecallDocument a b c d e f g h i j k l m n o p q r)). by intros [].
Defined.
#[export] Instance envelope_state_countable : Countable EnvelopeState.
Proof.
  apply (inj_countable' (λ s, (env_entries s, env_recall_docs s, env_recall_postings s, env_recall_avg_doc_length s,
    env_file_ref_index s, env_basename_alias_index s, env_symbol_index s, env_test_index s, env_task_index s))
    (λ '(a, b, c, d, e, f, g, h, i), mkEnvelopeState a b c d e f g h i)). by intros [].
Defined.
#[export] Instance envelope_countable : Countable PersistEnvelopeV3.
Proof.
  apply (inj_countable' (λ e, (v3_version e, v3_applied_wal_sequence e, v3_state e)) (λ '(a, b, c), mkEnvelopeV3 a b c)). by intros [].
Defined.
#[export] Instance delta_countable : Countable PersistDelta.
Proof.
  apply (inj_countable' (λ d, match d with Upsert e => inl e | Remove k => inr k end)
    (λ d, match d with inl e => Upsert e | inr k => Remove k end)). by intros [].
Defined.

(** ** The parameters *)

Definition example_recall : RecallEnv := {|
  recall_alphanumeric := λ _, false;
  parse_source_tier := λ _, None;
  parse_memory_kind := λ _, None
|}.
Definition example_cache : CacheEnv := {|
  cache_recall := example_recall;
  hash_hex := λ s, s;
  json_bytes_of := λ v, match json_get "reducer_input" v with Some (JString s) => s | _ => "null" end
|}.

Definition digit_byte (z : Z) : bool := (48 <=? z)%Z && (z <=? 57)%Z.
Fixpoint leading_digits (l : list Z) : list Z :=
  match l with z :: l => if digit_byte z then z :: leading_digits l else [] | [] => [] end.

Definition example_delta_text (d : PersistDelta) : list Z := [Z.neg (encode d)].
Definition example_delta_read (z : Z) : option PersistDelta := match z with Z.neg p => decode p | _ => None end.

(** The bytes of [{"version":1,"sequence":]. *)
Definition record_prefix_len : nat := 24.
Definition example_record_read (bytes : list Z) : option PersistWalRecord :=
  q ← parse_uint u64_max (bytes_text (leading_digits (drop record_prefix_len bytes)));
  Some (mkWalRecord PERSIST_WAL_VERSION q (omap example_delta_read bytes)).

Definition example_envelope_read (bytes : list Z) : option PersistEnvelopeV3 :=
  match bytes with [Z.pos p] => decode p | _ => None end.

Definition example_persist : PersistEnv := {|
  persist_cache := example_cache;
  json_text := λ _, "null";
  json_parse := λ _, Some JNull;
  checksum := λ _, replicate 32 0%Z;
  envelope_bytes := λ e, Some [Z.pos (encode e)];
  envelope_read := example_envelope_read;
  envelope_read_v2 := λ _, None;
  envelope_read_v1 := λ _, None;
  delta_text := example_delta_text;
  record_read := example_record_read
|}.

Section Example.
#[local] Existing Instance example_persist.

(** An entry of the task, committed at a time. *)
Definition example_entry (target : string) (at_unix : Z) : PacketCacheEntry :=
  mkEntry (compute_request_hash target "input") target "input" at_unix [] JNull (mkDeltaReuse None None).

(** ** Their laws *)

Lemma example_checksum l : length (checksum l) = 32.
Proof. done. Qed.
Lemma example_envelope e b : envelope_bytes e = Some b → envelope_read b = Some e.
Proof. intros [= <-]. cbn [envelope_read example_persist example_envelope_read]. apply decode_encode. Qed.

Lemma digits_of_text s rest : Forall (λ c, is_digit c = true) (str_bytes s) →
  leading_digits (text_bytes s ++ 44%Z :: rest) = text_bytes s.
Proof.
  unfold text_bytes. induction (str_bytes s) as [|c l IH]; intros Hl; [done|]. apply Forall_cons in Hl as [Hc Hl].
  cbn [fmap list_fmap app leading_digits]. assert (digit_byte (Z.of_N (chr c)) = true) as ->; [|f_equal; by apply IH].
  unfold is_digit, digit_value in Hc. apply bool_decide_eq_true in Hc as [d Hd]. unfold digit_byte.
  destruct c as [[] [] [] [] [] [] [] []]; vm_compute in Hd |- *; done.
Qed.
Lemma deltas_cons z l :
  omap example_delta_read (z :: l) = match example_delta_read z with Some d => d :: omap example_delta_read l | None => omap example_delta_read l end.
Proof. done. Qed.
Lemma deltas_of_text s : omap example_delta_read (text_bytes s) = [].
Proof.
  induction s as [|c s IH]; [done|]. change (text_bytes (String c s)) with (Z.of_N (chr c) :: text_bytes s).
  rewrite deltas_cons, IH. by destruct (chr c).
Qed.
Lemma deltas_of_join l : omap example_delta_read (join_bytes (text_bytes ",") (example_delta_text <$> l)) = l.
Proof.
  induction l as [|d l IH]; [done|]. assert (Hd : example_delta_read (Z.neg (encode d)) = Some d) by apply decode_encode.
  destruct l as [|d' l]; [cbn [fmap list_fmap join_bytes]; unfold example_delta_text; by rewrite deltas_cons, Hd|].
  rewrite fmap_cons. set (rest := d' :: l) in *.
  change (join_bytes (text_bytes ",") (example_delta_text d :: (example_delta_text <$> rest)))
    with ([Z.neg (encode d)] ++ text_bytes "," ++ join_bytes (text_bytes ",") (example_delta_text <$> rest)).
  rewrite !omap_app, deltas_of_text, IH, deltas_cons, Hd. done.
Qed.

Lemma example_record s l : fits u64_max s →
  record_read (record_bytes (mkWalRecord PERSIST_WAL_VERSION s l)) = Some (mkWalRecord PERSIST_WAL_VERSION s l).
Proof.
  intros Hs. cbn [record_read example_persist]. unfold example_record_read, record_bytes. cbn [wr_version wr_sequence wr_deltas delta_text].
  set (head := "{" +:+ _). set (fixed := "{" +:+ quoted "version" +:+ ":" +:+ show_uint PERSIST_WAL_VERSION +:+ "," +:+ quoted "sequence" +:+ ":").
  assert (Hhead : text_bytes head = text_bytes fixed ++ text_bytes (show_uint s) ++ text_bytes ("," +:+ quoted "deltas" +:+ ":[")).
  { unfold head, fixed, text_bytes. rewrite !str_bytes_app, !fmap_app, <- !app_assoc. done. }
  assert (Hdrop : ∀ rest, drop record_prefix_len (text_bytes fixed ++ rest) = rest) by done.
  rewrite Hhead, <- !app_assoc, Hdrop, !omap_app, !deltas_of_text, deltas_of_join, app_nil_r.
  change (text_bytes ("," +:+ quoted "deltas" +:+ ":[")) with (44%Z :: text_bytes (quoted "deltas" +:+ ":[")). cbn [app].
  rewrite digits_of_text by apply show_uint_digits. rewrite chr_bytes_text, parse_show_uint by done. done.
Qed.
End Example.
