(* ===== verification/MemoryIndex.v ===== *)
(** * MemoryIndex: what the recall indexes hold

    Each index of the packet cache as a function of its documents, and how
    adding or removing one document changes it.  A document of an entry has
    the frequencies of its terms and their sum. *)

From S2P Require Export MemoryCache.

(** ** Indexes of sets *)

(** An index holds no empty set. *)
Definition nonempty (s : gset string) : option (gset string) := if bool_decide (s = ∅) then None else Some s.

Section RefIndex.
Implicit Types (idx : RefIndex) (s : gset string).

Lemma index_insert_fold key idx values v :
  foldl (index_insert key) idx values !! v =
    if bool_decide (v ∈ values) then Some ({[key]} ∪ default ∅ (idx !! v)) else idx !! v.
Proof.
  revert idx. induction values as [|w values IH]; intros idx; [by rewrite bool_decide_eq_false_2 by set_solver|].
  simpl. rewrite IH. unfold index_insert. destruct (decide (w = v)) as [->|Hw].
  - rewrite lookup_insert_eq, (bool_decide_eq_true_2 (v ∈ v :: values)) by set_solver. simpl.
    case_bool_decide; [|done]. f_equal. set_solver.
  - rewrite lookup_insert_ne by done. by rewrite (bool_decide_ext (v ∈ w :: values) (v ∈ values)) by set_solver.
Qed.

Lemma index_remove_lookup key idx w v :
  index_remove key idx w !! v = if decide (w = v) then idx !! v ≫= λ s, nonempty (s ∖ {[key]}) else idx !! v.
Proof.
  unfold index_remove, nonempty. destruct (decide (w = v)) as [->|Hw].
  - destruct (idx !! v) as [s|] eqn:E; simpl; [|done]. case_bool_decide; [apply lookup_delete_eq|apply lookup_insert_eq].
  - destruct (idx !! w); [|done]. case_bool_decide; [by apply lookup_delete_ne|by apply lookup_insert_ne].
Qed.

Lemma index_remove_fold key idx values v :
  foldl (index_remove key) idx values !! v =
    if bool_decide (v ∈ values) then idx !! v ≫= λ s, nonempty (s ∖ {[key]}) else idx !! v.
Proof.
  revert idx. induction values as [|w values IH]; intros idx; [by rewrite bool_decide_eq_false_2 by set_solver|].
  simpl. rewrite IH, index_remove_lookup. destruct (decide (w = v)) as [->|Hw].
  - rewrite (bool_decide_eq_true_2 (v ∈ v :: values)) by set_solver. case_bool_decide; [|done].
    destruct (idx !! v) as [s|]; [|done]. simpl. unfold nonempty. case_bool_decide as Hs; [done|]. simpl.
    replace (s ∖ {[key]} ∖ {[key]}) with (s ∖ {[key]}) by set_solver. by rewrite bool_decide_eq_false_2.
  - by rewrite (bool_decide_ext (v ∈ w :: values) (v ∈ values)) by set_solver.
Qed.

Lemma nonempty_default s : default ∅ (nonempty s) = s.
Proof. unfold nonempty. by case_bool_decide. Qed.
Lemma nonempty_Some s : s ≠ ∅ → nonempty s = Some s.
Proof. unfold nonempty. by case_bool_decide. Qed.
Lemma nonempty_minus s t : nonempty s ≫= (λ s, nonempty (s ∖ t)) = nonempty (s ∖ t).
Proof.
  unfold nonempty. case_bool_decide as H; simpl; [|done]. subst s. rewrite bool_decide_eq_true_2 by set_solver. done.
Qed.
End RefIndex.

(** ** Indexes of documents *)

Section Indexes.
Implicit Types (docs : gmap string RecallDocument) (d : RecallDocument).

(** The documents that list [v], by key. *)
Definition holders docs (f : RecallDocument → list string) (v : string) : gset string :=
  dom (filter (λ kd : string * RecallDocument, v ∈ f kd.2) docs).

Definition ref_index_ok docs (f : RecallDocument → list string) (idx : RefIndex) : Prop :=
  ∀ v, idx !! v = nonempty (holders docs f v).

Lemma elem_of_holders docs f v k : k ∈ holders docs f v ↔ ∃ d, docs !! k = Some d ∧ v ∈ f d.
Proof.
  unfold holders. rewrite elem_of_dom. split.
  - intros [d Hd%map_lookup_filter_Some]. eauto.
  - intros (d & Hd & Hv). exists d. by apply map_lookup_filter_Some.
Qed.

Lemma ref_index_insert docs f idx k d :
  docs !! k = None → ref_index_ok docs f idx → ref_index_ok (<[k := d]> docs) f (foldl (index_insert k) idx (f d)).
Proof.
  intros Hk Hok v. rewrite index_insert_fold, (Hok v), nonempty_default.
  assert (E : holders (<[k:=d]> docs) f v = if bool_decide (v ∈ f d) then {[k]} ∪ holders docs f v else holders docs f v).
  { apply set_eq. intros k'. rewrite elem_of_holders. setoid_rewrite lookup_insert_Some.
    case_bool_decide as Hv; [rewrite elem_of_union, elem_of_singleton|]; rewrite elem_of_holders; split.
    - intros (d' & [[-> ->]|[Hn Hd]] & Hv'); eauto.
    - intros [->|(d' & Hd & Hv')]; [by eauto 6|]. exists d'. split; [|done]. right. split; [|done]. congruence.
    - intros (d' & [[-> ->]|[Hn Hd]] & Hv'); [done|eauto].
    - intros (d' & Hd & Hv'). exists d'. split; [|done]. right. split; [|done]. congruence. }
  rewrite E. case_bool_decide; [|done]. rewrite nonempty_Some; [done|set_solver].
Qed.

Lemma ref_index_remove docs f idx k d :
  docs !! k = Some d → ref_index_ok docs f idx →
  ref_index_ok (delete k docs) f (remove_key_from_ref_index idx (f d) k).
Proof.
  intros Hk Hok v. unfold remove_key_from_ref_index. rewrite index_remove_fold, (Hok v), nonempty_minus.
  assert (E : holders (delete k docs) f v = holders docs f v ∖ {[k]}).
  { apply set_eq. intros k'. rewrite elem_of_difference, elem_of_singleton, !elem_of_holders.
    setoid_rewrite lookup_delete_Some. naive_solver. }
  rewrite E. case_bool_decide as Hv; [done|]. f_equal. apply set_eq. intros k'.
  rewrite elem_of_difference, elem_of_singleton. split; [|tauto]. intros H. split; [done|]. intros ->.
  apply elem_of_holders in H as (d' & Hd & Hv'). congruence.
Qed.

(** ** Postings *)

Definition postings_ok docs (p : gmap string (list (string * Z))) : Prop :=
  ∀ term,
    (∀ l, p !! term = Some l → l ≠ []) ∧ NoDup (default [] (p !! term)).*1 ∧
    ∀ k n, (k, n) ∈ default [] (p !! term) ↔ ∃ d, docs !! k = Some d ∧ rd_terms d !! term = Some n.

Lemma push_posting_fold key p (terms : list (string * Z)) term :
  NoDup terms.*1 →
  (∀ n, (term, n) ∈ terms → foldl (push_posting key) p terms !! term = Some (default [] (p !! term) ++ [(key, n)])) ∧
  (term ∉ terms.*1 → foldl (push_posting key) p terms !! term = p !! term).
Proof.
  revert p. induction terms as [|[t m] terms IH]; intros p Hnd; simpl; [split; [set_solver|done]|].
  apply NoDup_cons in Hnd as [Ht Hnd]. destruct (IH (push_posting key p (t, m)) Hnd) as [IH1 IH2]. split.
  - intros n [[= -> ->]|Hn]%elem_of_cons; [rewrite (IH2 Ht); apply lookup_insert_eq|].
    rewrite (IH1 n Hn). unfold push_posting. simpl. rewrite lookup_insert_ne; [done|].
    intros ->. apply Ht, list_elem_of_fmap. by exists (term, n).
  - intros [Hne Hnot]%not_elem_of_cons. rewrite (IH2 Hnot). by apply lookup_insert_ne.
Qed.

Lemma postings_insert docs p k d :
  docs !! k = None → postings_ok docs p →
  postings_ok (<[k := d]> docs) (foldl (push_posting k) p (map_to_list (rd_terms d))).
Proof.
  intros Hk Hok term. destruct (Hok term) as (Hne & Hnd & Hin).
  destruct (push_posting_fold k p (map_to_list (rd_terms d)) term (NoDup_fst_map_to_list _)) as [F1 F2].
  assert (Hlk : ∀ k' n, (∃ d', <[k:=d]> docs !! k' = Some d' ∧ rd_terms d' !! term = Some n) ↔
      (k' = k ∧ rd_terms d !! term = Some n) ∨ (k', n) ∈ default [] (p !! term)).
  { intros k' n. rewrite Hin. setoid_rewrite lookup_insert_Some. split; [naive_solver|].
    intros [[-> ?]|(d' & Hd & Ht)]; [eauto|]. exists d'. split; [|done]. right. split; [|done]. congruence. }
  destruct (rd_terms d !! term) as [n|] eqn:E.
  - rewrite (F1 n) by (by apply elem_of_map_to_list). simpl. split_and!.
    + intros l [= <-]. by destruct (default [] (p !! term)).
    + rewrite fmap_app. simpl. apply NoDup_app. split_and!; [done| |apply NoDup_singleton].
      intros k' ([k'' m] & -> & Hm)%list_elem_of_fmap. simpl. apply Hin in Hm as (d' & Hd & _).
      rewrite list_elem_of_singleton. congruence.
    + intros k' m. rewrite Hlk, elem_of_app, list_elem_of_singleton. naive_solver.
  - rewrite F2; [|intros ([t m] & -> & Hm%elem_of_map_to_list)%list_elem_of_fmap; simpl in *; congruence].
    split_and!; [done..|]. intros k' m. rewrite Hlk. naive_solver.
Qed.

Lemma remove_posting_lookup key p w term :
  remove_posting key p w !! term =
    if decide (w = term) then p !! term ≫= λ l, match filter (λ q : string * Z, q.1 ≠ key) l with [] => None | l => Some l end
    else p !! term.
Proof.
  unfold remove_posting. destruct (decide (w = term)) as [->|Hw].
  - destruct (p !! term) as [l|] eqn:E; simpl; [|done].
    destruct (filter _ l); [apply lookup_delete_eq|apply lookup_insert_eq].
  - destruct (p !! w) as [l|]; [|done]. destruct (filter _ l); [by apply lookup_delete_ne|by apply lookup_insert_ne].
Qed.

Lemma remove_posting_fold key p terms term :
  NoDup terms →
  foldl (remove_posting key) p terms !! term =
    if bool_decide (term ∈ terms)
    then p !! term ≫= λ l, match filter (λ q : string * Z, q.1 ≠ key) l with [] => None | l => Some l end
    else p !! term.
Proof.
  revert p. induction terms as [|w terms IH]; intros p; [by rewrite bool_decide_eq_false_2 by set_solver|].
  intros [Hw Hnd]%NoDup_cons. simpl. rewrite IH, remove_posting_lookup by done. destruct (decide (w = term)) as [->|Hne].
  - by rewrite (bool_decide_eq_false_2 (term ∈ terms)), (bool_decide_eq_true_2 (term ∈ term :: terms)) by set_solver.
  - by rewrite (bool_decide_ext (term ∈ w :: terms) (term ∈ terms)) by set_solver.
Qed.

Lemma postings_remove docs p k d :
  docs !! k = Some d → postings_ok docs p →
  postings_ok (delete k docs) (foldl (remove_posting k) p (map_to_list (rd_terms d)).*1).
Proof.
  intros Hk Hok term. destruct (Hok term) as (Hne & Hnd & Hin).
  rewrite remove_posting_fold by apply NoDup_fst_map_to_list.
  assert (Hdom : term ∈ (map_to_list (rd_terms d)).*1 ↔ is_Some (rd_terms d !! term)).
  { rewrite list_elem_of_fmap. split.
    - intros ([t n] & -> & H%elem_of_map_to_list). by exists n.
    - intros [n H]. exists (term, n). by rewrite elem_of_map_to_list. }
  set (l := default [] (p !! term)) in *.
  assert (Hfil : ∀ k' n, (k', n) ∈ filter (λ q : string * Z, q.1 ≠ k) l ↔
      ∃ d', delete k docs !! k' = Some d' ∧ rd_terms d' !! term = Some n).
  { intros k' n. rewrite list_elem_of_filter, Hin. simpl. setoid_rewrite lookup_delete_Some. naive_solver. }
  assert (Hnd' : NoDup (filter (λ q : string * Z, q.1 ≠ k) l).*1).
  { eapply sublist_NoDup; [exact Hnd|]. apply fmap_sublist, sublist_filter. }
  case_bool_decide as Hterm.
  - replace (default [] (p !! term ≫= _)) with (filter (λ q : string * Z, q.1 ≠ k) l).
    2:{ unfold l. destruct (p !! term); simpl; [|done]. by destruct (filter _ _). }
    split_and!; [|done|done]. intros l'. destruct (p !! term); simpl; [|done]. by destruct (filter _ _); intros [= <-].
  - rewrite Hdom in Hterm. fold l. split_and!; [done|done|]. intros k' n. rewrite Hin. setoid_rewrite lookup_delete_Some.
    split; [|naive_solver]. intros (d' & Hd & Ht). exists d'. split; [|done]. split; [|done]. intros ->.
    apply Hterm. exists n. congruence.
Qed.


(** ** Basename aliases *)

Section Aliases.
Implicit Types (S : gset string) (A : RefIndex).

(** The paths of [S] whose alias is [b]. *)
Definition alias_set S (b : string) : gset string := filter (λ p, basename_alias p = Some b) S.
Definition alias_ok S A : Prop := ∀ b, A !! b = nonempty (alias_set S b).

Lemma alias_insert_ok S A p : alias_ok S A → alias_ok ({[p]} ∪ S) (alias_insert A p).
Proof.
  intros Hok b. unfold alias_insert, index_insert. destruct (basename_alias p) as [b'|] eqn:E.
  - destruct (decide (b' = b)) as [->|Hb].
    + rewrite lookup_insert_eq, (Hok b), nonempty_default, nonempty_Some; unfold alias_set; [f_equal|]; set_solver.
    + rewrite lookup_insert_ne, (Hok b) by done. f_equal. unfold alias_set. apply set_eq. intros q.
      rewrite !elem_of_filter, elem_of_union, elem_of_singleton. naive_solver congruence.
  - rewrite (Hok b). f_equal. unfold alias_set. apply set_eq. intros q.
    rewrite !elem_of_filter, elem_of_union, elem_of_singleton. naive_solver congruence.
Qed.
Lemma alias_insert_fold S A l : alias_ok S A → alias_ok (list_to_set l ∪ S) (foldl alias_insert A l).
Proof.
  revert S A. induction l as [|p l IH]; intros S A Hok; simpl; [by rewrite union_empty_l_L|].
  replace ({[p]} ∪ list_to_set l ∪ S) with (list_to_set l ∪ ({[p]} ∪ S)) by set_solver. by apply IH, alias_insert_ok.
Qed.

Lemma alias_remove_ok S A p : alias_ok S A → alias_ok (S ∖ {[p]}) (alias_remove A p).
Proof.
  intros Hok b. unfold alias_remove. destruct (basename_alias p) as [b'|] eqn:E.
  - rewrite index_remove_lookup, (Hok b). case_decide as Hb.
    + rewrite nonempty_minus. f_equal. unfold alias_set. apply set_eq. intros q.
      rewrite elem_of_difference, !elem_of_filter, elem_of_difference. tauto.
    + f_equal. unfold alias_set. apply set_eq. intros q.
      rewrite !elem_of_filter, elem_of_difference, elem_of_singleton. naive_solver congruence.
  - rewrite (Hok b). f_equal. unfold alias_set. apply set_eq. intros q.
    rewrite !elem_of_filter, elem_of_difference, elem_of_singleton. naive_solver congruence.
Qed.
Lemma alias_remove_fold S A l : alias_ok S A → alias_ok (S ∖ list_to_set l) (foldl alias_remove A l).
Proof.
  revert S A. induction l as [|p l IH]; intros S A Hok; simpl; [by rewrite difference_empty_L|].
  replace (S ∖ ({[p]} ∪ list_to_set l)) with (S ∖ {[p]} ∖ list_to_set l) by set_solver. by apply IH, alias_remove_ok.
Qed.
End Aliases.

Lemma elem_of_dom_ref_index docs f idx v :
  ref_index_ok docs f idx → v ∈ dom idx ↔ ∃ k d, docs !! k = Some d ∧ v ∈ f d.
Proof.
  intros Hok. rewrite elem_of_dom, (Hok v). unfold nonempty. setoid_rewrite <- elem_of_holders.
  case_bool_decide as H; split; [by intros [? ?]|intros [k Hk]; rewrite H in Hk; set_solver| |eauto].
  intros _. by apply set_choose_L.
Qed.

Lemma dom_file_insert docs f idx k d :
  docs !! k = None → ref_index_ok docs f idx →
  dom (foldl (index_insert k) idx (f d)) = list_to_set (f d) ∪ dom idx.
Proof.
  intros Hk Hok. apply set_eq. intros v.
  rewrite elem_of_union, elem_of_list_to_set, (elem_of_dom_ref_index _ _ _ v Hok),
    (elem_of_dom_ref_index _ _ _ v (ref_index_insert docs f idx k d Hk Hok)).
  setoid_rewrite lookup_insert_Some. split; [naive_solver|]. intros [Hv|(k' & d' & Hd & Hv)]; [by eauto 8|].
  exists k', d'. split; [|done]. right. split; [|done]. congruence.
Qed.

Lemma dom_file_remove docs f idx k d :
  docs !! k = Some d → ref_index_ok docs f idx →
  let idx' := remove_key_from_ref_index idx (f d) k in
  dom idx' = dom idx ∖ list_to_set (filter (λ path, idx' !! path = None) (f d)).
Proof.
  intros Hk Hok idx'. pose proof (ref_index_remove docs f idx k d Hk Hok) as Hok'. fold idx' in Hok'.
  apply set_eq. intros v. rewrite elem_of_difference, elem_of_list_to_set, list_elem_of_filter, (elem_of_dom_ref_index _ _ _ v Hok).
  split.
  - intros Hv. split; [|rewrite elem_of_dom in Hv; intros [Hn _]; rewrite Hn in Hv; by destruct Hv].
    apply (elem_of_dom_ref_index _ _ _ v Hok') in Hv as (k' & d' & [_ Hd]%lookup_delete_Some & Hv). eauto.
  - intros [(k' & d' & Hd & Hv) Hn]. destruct (idx' !! v) eqn:E; [apply elem_of_dom; eauto|].
    apply (elem_of_dom_ref_index _ _ _ v Hok'). exists k', d'. split; [|done]. apply lookup_delete_Some. split; [|done].
    intros <-. apply Hn. split; [done|]. congruence.
Qed.

End Indexes.

(** ** Sums over maps *)

Section MapSum.
Context {A : Type} (f : A → Z).
Definition map_sum (m : gmap string A) : Z := sumZ (f <$> (map_to_list m).*2).
Lemma map_sum_empty : map_sum ∅ = 0%Z.
Proof. unfold map_sum. by rewrite map_to_list_empty. Qed.
Lemma map_sum_insert m k x : m !! k = None → map_sum (<[k := x]> m) = (f x + map_sum m)%Z.
Proof.
  intros Hk. unfold map_sum.
  rewrite (sumZ_perm _ (f <$> ((k, x) :: map_to_list m).*2)); [done|]. by rewrite map_to_list_insert.
Qed.
Lemma map_sum_delete m k x : m !! k = Some x → map_sum (delete k m) = (map_sum m - f x)%Z.
Proof.
  intros Hk. rewrite <- (insert_delete_id m k x Hk) at 2. rewrite map_sum_insert by apply lookup_delete_eq. lia.
Qed.
Lemma map_sum_filter_le (P : string * A → Prop) `{!∀ x, Decision (P x)} m :
  map_Forall (λ _ x, 0 <= f x)%Z m → (map_sum (filter P m) <= map_sum m)%Z.
Proof.
  intros Hf. induction m as [|k x m Hk IH] using map_ind; [by rewrite map_filter_empty|].
  rewrite (map_sum_insert m) by done. apply map_Forall_insert in Hf as [Hx Hf]; [|done]. specialize (IH Hf).
  destruct (decide (P (k, x))) as [HP|HP].
  - rewrite map_filter_insert_True by done. rewrite map_sum_insert; [lia|]. apply map_lookup_filter_None. by left.
  - rewrite map_filter_insert_False by done. rewrite delete_id by done. lia.
Qed.
Lemma map_sum_insert_le m k x : (∀ x, 0 <= f x)%Z → (map_sum (<[k := x]> m) <= map_sum m + f x)%Z.
Proof.
  intros Hf. destruct (m !! k) as [y|] eqn:E; [|rewrite map_sum_insert by done; lia].
  rewrite <- insert_delete_eq, map_sum_insert by apply lookup_delete_eq. rewrite (map_sum_delete m k y E).
  specialize (Hf y). lia.
Qed.
Lemma map_sum_nonneg m : map_Forall (λ _ x, 0 <= f x)%Z m → (0 <= map_sum m)%Z.
Proof.
  intros H. apply sumZ_nonneg, Forall_fmap, Forall_fmap, Forall_forall. intros [k x] Hx%elem_of_map_to_list. by apply (H k).
Qed.
End MapSum.

(** ** Documents *)

(** Positive frequencies of terms that are not blank, and their sum. *)
Definition doc_ok (d : RecallDocument) : Prop :=
  rd_doc_length d = map_sum id (rd_terms d) ∧ map_Forall (λ t n, is_blank t = false ∧ 0 < n)%Z (rd_terms d).

Lemma doc_ok_length d : doc_ok d → (0 <= rd_doc_length d)%Z.
Proof. intros [-> H]. apply map_sum_nonneg. intros k n Hn. specialize (H k n Hn). simpl in *. lia. Qed.

Lemma count_term_fold tokens terms n :
  (0 <= n)%Z → (n + Z.of_nat (length tokens) <= usize_max)%Z →
  n = map_sum id terms → map_Forall (λ t n, is_blank t = false ∧ 0 < n)%Z terms →
  Forall (λ t, is_blank t = false) tokens →
  let '(terms', n') := foldl count_term (terms, n) tokens in
  n' = (n + Z.of_nat (length tokens))%Z ∧ n' = map_sum id terms' ∧ map_Forall (λ t n, is_blank t = false ∧ 0 < n)%Z terms'.
Proof.
  revert terms n. induction tokens as [|t tokens IH]; intros terms n Hn Hle Hs Hall Htok; simpl; [split_and!; [lia|done..]|].
  apply Forall_cons in Htok as [Ht Htok]. simpl in Hle.
  assert (Hpos : (0 <= default 0%Z (terms !! t))%Z).
  { destruct (terms !! t) as [m|] eqn:E; simpl; [|lia]. specialize (Hall t m E). simpl in Hall. lia. }
  replace (count_term (terms, n) t) with (<[t := (default 0 (terms !! t) + 1)%Z]> terms, (n + 1)%Z)
    by (unfold count_term, saturating_add; cbn [fst snd]; f_equal; lia).
  specialize (IH (<[t := (default 0 (terms !! t) + 1)%Z]> terms) (n + 1)%Z).
  destruct (foldl _ _ tokens) as [terms' n'].
  assert (H : n' = (n + 1 + Z.of_nat (length tokens))%Z ∧ n' = map_sum id terms' ∧ map_Forall (λ t n, is_blank t = false ∧ 0 < n)%Z terms').
  { apply IH; [lia|lia| |by apply map_Forall_insert_2; [split; [done|lia]|]|done].
    destruct (terms !! t) as [m|] eqn:E; simpl.
    - rewrite <- (insert_delete_eq terms), map_sum_insert by apply lookup_delete_eq.
      rewrite (map_sum_delete _ _ _ m) by done. rewrite Hs. simpl. cbv [id]. lia.
    - rewrite map_sum_insert by done. rewrite Hs. cbv [id]. lia. }
  destruct H as (Hn' & H1 & H2). split_and!; [lia|done..].
Qed.

Section Built.
Context {ENV : RecallEnv}.

Lemma push_token_term_ok tokens raw :
  Forall (λ t, is_blank t = false) tokens → Forall (λ t, is_blank t = false) (push_token_term tokens raw).
Proof.
  intros Htok. unfold push_token_term. case_match eqn:E; [|done]. apply Forall_app. split; [done|]. apply Forall_singleton.
  apply andb_prop in E as [E _]. apply Nat.leb_le in E. rewrite is_blank_lowercase, is_blank_trim. unfold is_blank.
  apply bool_decide_eq_false_2. intros Hb. rewrite Hb in E. simpl in E. cbn in E. lia.
Qed.

Lemma foldl_Forall {X Y} (P : X → Prop) (f : X → Y → X) (l : list Y) x :
  (∀ x y, P x → P (f x y)) → P x → P (foldl f x l).
Proof. intros Hf. revert x. induction l; intros x Hx; simpl; auto. Qed.

Lemma tokenize_ok s : Forall (λ t, is_blank t = false) (tokenize s).
Proof.
  unfold tokenize. apply foldl_Forall; [|done]. intros tokens part Ht. unfold push_part. case_match; [done|].
  apply foldl_Forall; [|by apply push_token_term_ok]. intros tokens' seg Ht'. unfold push_segment. case_match; [done|].
  apply foldl_Forall; [|by apply push_token_term_ok]. intros. by apply push_token_term_ok.
Qed.

(** The tokens of the corpus of an entry. *)
Definition entry_tokens (e : PacketCacheEntry) (root : option string) : list string := g_corpus (gather e root) ≫= tokenize.
Definition token_count (e : PacketCacheEntry) (root : option string) : Z := Z.of_nat (length (entry_tokens e root)).

Lemma build_recall_document_ok e root :
  (token_count e root <= usize_max)%Z →
  doc_ok (build_recall_document e root) ∧ rd_doc_length (build_recall_document e root) = token_count e root.
Proof.
  intros Hle. unfold token_count in *.
  pose proof (count_term_fold (entry_tokens e root) ∅ 0%Z ltac:(lia) Hle) as Hf. rewrite map_sum_empty in Hf.
  specialize (Hf eq_refl (map_Forall_empty _)). unfold build_recall_document, doc_ok. fold (entry_tokens e root) in *.
  destruct (foldl count_term _ _) as [terms n]. destruct Hf as (Hn & Hs & Hall).
  - unfold entry_tokens. apply Forall_bind, Forall_forall. intros. apply tokenize_ok.
  - simpl. split_and!; [done|done|lia].
Qed.

Lemma build_key e root : rd_cache_key (build_recall_document e root) = pe_cache_key e.
Proof. unfold build_recall_document. by destruct (foldl count_term _ _). Qed.
Lemma build_target e root : rd_target (build_recall_document e root) = pe_target e.
Proof. unfold build_recall_document. by destruct (foldl count_term _ _). Qed.
Lemma build_created e root : rd_created_at_unix (build_recall_document e root) = pe_created_at_unix e.
Proof. unfold build_recall_document. by destruct (foldl count_term _ _). Qed.
End Built.
