(* ===== verification/MemoryCacheSpec.v ===== *)
(** * MemoryCacheSpec: the packet cache is a map whose indexes stay coherent

    A cache is [coherent] when it holds the document of each of its entries
    and every index agrees with those documents.  Every operation keeps that,
    and with canonical keys the cache is a map from request hashes to
    entries. *)

From S2P Require Export MemoryIndex.
From S2P Require MemoryExample.

(** ** The state of the indexes *)

(** Every index is the one of the documents. *)
Definition indexed (c : PacketCache) : Prop :=
  postings_ok (recall_docs c) (recall_postings c) ∧
  ref_index_ok (recall_docs c) rd_paths (file_ref_index c) ∧
  alias_ok (dom (file_ref_index c)) (basename_alias_index c) ∧
  ref_index_ok (recall_docs c) rd_symbols (symbol_index c) ∧
  ref_index_ok (recall_docs c) rd_tests (test_index c) ∧
  ref_index_ok (recall_docs c) rd_task_ids (task_index c) ∧
  recall_total_doc_length c = map_sum rd_doc_length (recall_docs c) ∧
  map_Forall (λ _ d, doc_ok d) (recall_docs c).

(** What an operation that only reindexes leaves alone. *)
Definition same_store (c c' : PacketCache) : Prop :=
  entries_by_hash c' = entries_by_hash c ∧ latest_request_index c' = latest_request_index c ∧
  eviction_counters c' = eviction_counters c ∧ workspace_root c' = workspace_root c ∧
  persisted_sequence c' = persisted_sequence c ∧ has_v3_checkpoint_baseline c' = has_v3_checkpoint_baseline c ∧
  has_legacy_checkpoint_baseline c' = has_legacy_checkpoint_baseline c.

#[export] Instance same_store_pre : PreOrder same_store.
Proof. split; [by unfold same_store|]. unfold same_store. intros a b c H1 H2. intuition congruence. Qed.

Definition average_of (c : PacketCache) : f64 :=
  if bool_decide (recall_docs c = ∅) then f64_zero
  else average_length (recall_total_doc_length c) (Z.of_nat (size (recall_docs c))).

Lemma ref_index_empty f : ref_index_ok ∅ f ∅.
Proof.
  intros v. rewrite lookup_empty. unfold holders. rewrite map_filter_empty, dom_empty_L. unfold nonempty.
  by rewrite bool_decide_eq_true_2.
Qed.

Lemma indexed_clear c : indexed (clear_indexes c).
Proof.
  split_and!; try apply ref_index_empty; simpl.
  - intros term. rewrite lookup_empty. simpl. split_and!; [done|constructor|]. intros k n.
    setoid_rewrite lookup_empty. set_solver.
  - intros b. rewrite lookup_empty. unfold alias_set, nonempty. rewrite dom_empty_L.
    rewrite bool_decide_eq_true_2; [done|]. set_solver.
  - by rewrite map_sum_empty.
  - apply map_Forall_empty.
Qed.

Lemma total_nonneg docs : map_Forall (λ _ d, doc_ok d) docs → (0 <= map_sum rd_doc_length docs)%Z.
Proof. intros H. apply map_sum_nonneg. intros k d Hd. apply doc_ok_length. exact (H k d Hd). Qed.

Lemma index_document_indexed c d :
  indexed c → recall_docs c !! rd_cache_key d = None → doc_ok d →
  (recall_total_doc_length c + rd_doc_length d <= usize_max)%Z →
  indexed (index_document c d).
Proof.
  intros (Hp & Hf & Ha & Hs & Ht & Hk & Htot & Hd) Hnone Hok Hfit. unfold index_document. split_and!; simpl.
  - by apply postings_insert.
  - by apply ref_index_insert.
  - rewrite (dom_file_insert (recall_docs c)) by done. by apply alias_insert_fold.
  - by apply ref_index_insert.
  - by apply ref_index_insert.
  - by apply ref_index_insert.
  - unfold saturating_add. rewrite map_sum_insert by done. pose proof (doc_ok_length d Hok). pose proof (total_nonneg _ Hd). lia.
  - by apply map_Forall_insert_2.
Qed.

Lemma remove_index_indexed c k : indexed c → indexed (remove_index_for c k).
Proof.
  intros (Hp & Hf & Ha & Hs & Ht & Hk & Htot & Hd). unfold remove_index_for.
  destruct (recall_docs c !! k) as [d|] eqn:E; [|done]. split_and!; simpl.
  - by apply postings_remove.
  - by apply ref_index_remove.
  - rewrite (dom_file_remove (recall_docs c)) by done. by apply alias_remove_fold.
  - by apply ref_index_remove.
  - by apply ref_index_remove.
  - by apply ref_index_remove.
  - rewrite (map_sum_delete _ _ _ d) by done. unfold saturating_sub.
    assert (0 <= map_sum rd_doc_length (recall_docs c) - rd_doc_length d)%Z; [|lia].
    rewrite <- (map_sum_delete rd_doc_length _ k d E). apply total_nonneg. by apply map_Forall_delete.
  - by apply map_Forall_delete.
Qed.

Lemma remove_index_docs c k : recall_docs (remove_index_for c k) = delete k (recall_docs c).
Proof. unfold remove_index_for. destruct (recall_docs c !! k) eqn:E; [done|]. by rewrite delete_id. Qed.
Lemma remove_index_store c k : same_store c (remove_index_for c k).
Proof. unfold remove_index_for. by destruct (recall_docs c !! k). Qed.
Lemma remove_index_total c k : indexed c → (recall_total_doc_length (remove_index_for c k) <= recall_total_doc_length c)%Z.
Proof.
  intros (_ & _ & _ & _ & _ & _ & Htot & Hd). unfold remove_index_for. destruct (recall_docs c !! k) as [d|] eqn:Ed; simpl; [|done].
  pose proof (doc_ok_length d (Hd k d Ed)). pose proof (total_nonneg _ Hd). rewrite <- Htot in *. unfold saturating_sub. lia.
Qed.
Lemma remove_index_average c k :
  recall_avg_doc_length c = average_of c → recall_avg_doc_length (remove_index_for c k) = average_of (remove_index_for c k).
Proof. intros H. unfold remove_index_for. by destruct (recall_docs c !! k). Qed.

(** ** Coherent caches *)

Section Coherent.
Context {ENV : CacheEnv}.
Implicit Types (c : PacketCache) (e : PacketCacheEntry).

(** The tokens of the corpora of the entries. *)
Definition weight (root : option string) (m : gmap string PacketCacheEntry) : Z := map_sum (λ e, token_count e root) m.

Lemma token_count_nonneg e root : (0 <= token_count e root)%Z.
Proof. unfold token_count. lia. Qed.
Lemma weight_insert root m k e : weight root (<[k := e]> m) = (token_count e root + weight root (delete k m))%Z.
Proof. unfold weight. by rewrite <- insert_delete_eq, map_sum_insert by apply lookup_delete_eq. Qed.
Lemma weight_filter root (P : string * PacketCacheEntry → Prop) `{!∀ x, Decision (P x)} m : (weight root (filter P m) <= weight root m)%Z.
Proof. apply map_sum_filter_le. intros k e _. apply token_count_nonneg. Qed.
Lemma weight_delete root m k : (weight root (delete k m) <= weight root m)%Z.
Proof.
  destruct (m !! k) as [e|] eqn:E; [|by rewrite delete_id]. unfold weight. rewrite (map_sum_delete _ _ _ e E).
  pose proof (token_count_nonneg e root). lia.
Qed.
Lemma weight_nonneg root m : (0 <= weight root m)%Z.
Proof. apply map_sum_nonneg. intros k e _. apply token_count_nonneg. Qed.
Lemma weight_elem root m k e : m !! k = Some e → (token_count e root <= weight root m)%Z.
Proof.
  intros He. rewrite <- (insert_delete_id m k e He), weight_insert.
  pose proof (weight_nonneg root (delete k (delete k m))). lia.
Qed.

(** The frequencies of the documents add up to the weight. *)
Lemma weight_documents root m : (weight root m <= usize_max)%Z →
  map_sum rd_doc_length ((λ e, build_recall_document e root) <$> m) = weight root m.
Proof.
  intros Hw. unfold weight, map_sum. rewrite map_to_list_fmap, <- !list_fmap_compose. apply sumZ_fmap_ext.
  intros [k e] He%elem_of_map_to_list. simpl. apply build_recall_document_ok. etrans; [by eapply weight_elem|done].
Qed.

Record coherent (c : PacketCache) : Prop := {
  co_docs : recall_docs c = (λ e, build_recall_document e (workspace_root c)) <$> entries_by_hash c;
  co_keys : map_Forall (λ k e, pe_cache_key e = k) (entries_by_hash c);
  co_index : indexed c;
  co_average : recall_avg_doc_length c = average_of c;
  co_fits : (weight (workspace_root c) (entries_by_hash c) <= usize_max)%Z
}.

Lemma coherent_total c : coherent c → recall_total_doc_length c = weight (workspace_root c) (entries_by_hash c).
Proof.
  intros Hc. destruct (co_index c Hc) as (_ & _ & _ & _ & _ & _ & -> & _). rewrite (co_docs c Hc).
  apply weight_documents, co_fits, Hc.
Qed.

Lemma coherent_ext c c' :
  coherent c → entries_by_hash c' = entries_by_hash c → workspace_root c' = workspace_root c →
  recall_docs c' = recall_docs c → (indexed c → indexed c') → recall_avg_doc_length c' = recall_avg_doc_length c →
  recall_total_doc_length c' = recall_total_doc_length c → coherent c'.
Proof.
  intros [Hd Hk Hi Ha Hfit] He Hw Hr Hi' Hav Ht. split; [by rewrite Hr, Hd, Hw, He|by rewrite He|by apply Hi'| |by rewrite He, Hw].
  rewrite Hav, Ha. unfold average_of. by rewrite Hr, Ht.
Qed.
Lemma coherent_latest c l : coherent c → coherent (set_latest c l).
Proof. intros H. by apply (coherent_ext c). Qed.
Lemma coherent_counters c l : coherent c → coherent (set_counters c l).
Proof. intros H. by apply (coherent_ext c). Qed.
Lemma coherent_sequence c l : coherent c → coherent (set_sequence c l).
Proof. intros H. by apply (coherent_ext c). Qed.

Lemma coherent_empty c : entries_by_hash c = ∅ → coherent (clear_indexes c).
Proof.
  intros He. split; simpl; [by rewrite He, fmap_empty|by rewrite He; apply map_Forall_empty|apply indexed_clear| |].
  - unfold average_of. simpl. by rewrite bool_decide_eq_true_2.
  - rewrite He. unfold weight. by rewrite map_sum_empty.
Qed.

Lemma coherent_new root : coherent (new_cache root).
Proof. apply (coherent_empty (new_cache root)). done. Qed.

Lemma coherent_doc_key c k : coherent c → recall_docs c !! k = (λ e, build_recall_document e (workspace_root c)) <$> (entries_by_hash c !! k).
Proof. intros H. by rewrite (co_docs c H), lookup_fmap. Qed.

(** The index of a key that is not stored any more. *)
Lemma remove_entry_coherent c k : coherent c → coherent (remove_entry c k).
Proof.
  intros [Hd Hk Hi Ha Hfit]. unfold remove_entry.
  set (c1 := set_entries c (delete k (entries_by_hash c))).
  destruct (remove_index_store c1 k) as (He & _ & _ & Hw & _). split.
  - rewrite remove_index_docs, He, Hw. simpl. by rewrite Hd, fmap_delete.
  - rewrite He. by apply map_Forall_delete.
  - by apply remove_index_indexed.
  - by apply remove_index_average.
  - rewrite He, Hw. etrans; [apply weight_delete|done].
Qed.
Lemma remove_entry_store c k :
  entries_by_hash (remove_entry c k) = delete k (entries_by_hash c) ∧
  workspace_root (remove_entry c k) = workspace_root c ∧ eviction_counters (remove_entry c k) = eviction_counters c ∧
  persisted_sequence (remove_entry c k) = persisted_sequence c.
Proof. unfold remove_entry. destruct (remove_index_store (set_entries c (delete k (entries_by_hash c))) k) as (? & ? & ? & ? & ? & _). done. Qed.

Lemma forget_index_spec c k :
  coherent c →
  let c1 := forget_index c k in
  same_store c c1 ∧ indexed c1 ∧ recall_docs c1 = delete k (recall_docs c) ∧
  recall_total_doc_length c1 = weight (workspace_root c) (delete k (entries_by_hash c)).
Proof.
  intros Hc. pose proof (co_index c Hc) as Hi. unfold forget_index. destruct (entries_by_hash c !! k) as [e|] eqn:E.
  - pose proof (remove_index_indexed c k Hi) as Hi'. split_and!; [apply remove_index_store|done|apply remove_index_docs|].
    destruct Hi' as (_ & _ & _ & _ & _ & _ & -> & _). rewrite remove_index_docs, (co_docs c Hc), <- fmap_delete.
    apply weight_documents. etrans; [apply weight_delete|apply co_fits, Hc].
  - split_and!; [done|done| |].
    + rewrite delete_id; [done|]. by rewrite coherent_doc_key, E.
    + rewrite delete_id by done. by apply coherent_total.
Qed.

(** Insertion stores the entry and its document. *)
Lemma insert_entry_spec c e :
  coherent c → (weight (workspace_root c) (<[pe_cache_key e := e]> (entries_by_hash c)) <= usize_max)%Z →
  let c' := insert_entry c e in
  coherent c' ∧ entries_by_hash c' = <[pe_cache_key e := e]> (entries_by_hash c) ∧
  latest_request_index c' = <[request_hash_of e := pe_cache_key e]> (latest_request_index c) ∧
  workspace_root c' = workspace_root c ∧ eviction_counters c' = eviction_counters c ∧
  persisted_sequence c' = persisted_sequence c.
Proof.
  intros Hc Hfit c'. destruct (forget_index_spec c (pe_cache_key e) Hc) as ((He & Hl & Hv & Hw & Hq & _) & Hi & Hd & Htot).
  pose proof Hfit as Hfit'. rewrite weight_insert in Hfit'.
  unfold c', insert_entry, index_entry in *. set (c1 := forget_index c (pe_cache_key e)) in *.
  set (c2 := set_latest _ _). change (workspace_root c2) with (workspace_root c1). rewrite Hw.
  set (d := build_recall_document e (workspace_root c)).
  assert (0 <= recall_total_doc_length c1)%Z as Hnn.
  { destruct Hi as (_ & _ & _ & _ & _ & _ & -> & Hdok). by apply total_nonneg. }
  destruct (build_recall_document_ok e (workspace_root c)) as [Hok Hlen]; [lia|]. fold d in Hok, Hlen.
  assert (Hkey : rd_cache_key d = pe_cache_key e) by apply build_key.
  assert (Hent : entries_by_hash c2 = <[pe_cache_key e := e]> (entries_by_hash c)) by (unfold c2; simpl; by rewrite He).
  assert (Hdocs : recall_docs (index_document c2 d) = (λ e, build_recall_document e (workspace_root c)) <$> entries_by_hash c2).
  { rewrite Hent, fmap_insert. simpl. change (recall_docs c2) with (recall_docs c1). rewrite Hkey, Hd, insert_delete_eq.
    by rewrite (co_docs c Hc). }
  assert (Hix : indexed (index_document c2 d)).
  { apply index_document_indexed; [done| |done|].
    - change (recall_docs c2) with (recall_docs c1). rewrite Hd, Hkey. apply lookup_delete_eq.
    - change (recall_total_doc_length c2) with (recall_total_doc_length c1). lia. }
  split_and!; [|done| |by rewrite <- Hw|done|done].
  - split; [| |done| |].
    + rewrite Hdocs. simpl. change (workspace_root c2) with (workspace_root c1). by rewrite Hw.
    + change (entries_by_hash (index_document c2 d)) with (entries_by_hash c2). rewrite Hent.
      apply map_Forall_insert_2; [done|]. apply (co_keys c Hc).
    + unfold average_of. rewrite Hdocs. change (recall_total_doc_length (index_document c2 d))
        with (saturating_add usize_max (recall_total_doc_length c2) (rd_doc_length d)). simpl. rewrite map_size_fmap.
      unfold cache_len. rewrite (bool_decide_eq_false_2 (<[_:=_]> _ = ∅)) by apply insert_non_empty.
      rewrite bool_decide_eq_false_2; [done|]. intros Hf. apply fmap_empty_inv in Hf. by apply insert_non_empty in Hf.
    + change (weight (workspace_root c1) (entries_by_hash c2) <= usize_max)%Z. by rewrite Hent, Hw.
  - unfold c2. simpl. by rewrite Hl.
Qed.

(** ** Removal *)

Lemma remove_entries_spec ks c :
  coherent c →
  let c' := foldl remove_entry c ks in
  coherent c' ∧ entries_by_hash c' = filter (λ kv : string * PacketCacheEntry, kv.1 ∉ ks) (entries_by_hash c) ∧
  workspace_root c' = workspace_root c ∧ eviction_counters c' = eviction_counters c ∧
  persisted_sequence c' = persisted_sequence c.
Proof.
  revert c. induction ks as [|k ks IH]; intros c Hc; simpl.
  - split_and!; [done| |done..]. symmetry. apply map_filter_id. intros k e _. simpl. set_solver.
  - destruct (IH (remove_entry c k) (remove_entry_coherent c k Hc)) as (Hc' & He & Hw & Hv & Ht).
    destruct (remove_entry_store c k) as (He' & Hw' & Hv' & Ht'). split_and!; [done| |congruence..].
    + rewrite He, He'. apply map_eq. intros k'. apply option_eq. intros e.
      rewrite !map_lookup_filter_Some, lookup_delete_Some. simpl. rewrite not_elem_of_cons. naive_solver.
Qed.

Lemma elem_of_keys_where p c k : k ∈ keys_where p c ↔ ∃ e, entries_by_hash c !! k = Some e ∧ p e = true.
Proof.
  unfold keys_where. rewrite elem_of_sort_by_cmp, list_elem_of_fmap. split.
  - intros ([k' e] & -> & He%elem_of_map_to_list). apply map_lookup_filter_Some in He as [He Hp]. simpl in *.
    exists e. split; [done|]. by apply Is_true_true.
  - intros (e & He & Hp). exists (k, e). split; [done|]. apply elem_of_map_to_list, map_lookup_filter_Some.
    split; [done|]. simpl. by rewrite Hp.
Qed.

Definition kept (p : PacketCacheEntry → bool) (m : gmap string PacketCacheEntry) : gmap string PacketCacheEntry :=
  filter (λ kv : string * PacketCacheEntry, p kv.2 = false) m.

Lemma filter_keys_where p c :
  filter (λ kv : string * PacketCacheEntry, kv.1 ∉ keys_where p c) (entries_by_hash c) = kept p (entries_by_hash c).
Proof.
  apply map_filter_ext. intros k e He. simpl. rewrite elem_of_keys_where. split.
  - intros Hn. apply not_true_iff_false. intros Hp. apply Hn. eauto.
  - intros Hp (e' & He' & Hp'). congruence.
Qed.

(** The requests that are indexed are those of the entries. *)
Definition canonical c : Prop := map_Forall (λ k e, request_hash_of e = k) (entries_by_hash c).
Definition latest_ok c : Prop := latest_request_index c = pe_cache_key <$> entries_by_hash c.

Lemma latest_fold (l : list (string * PacketCacheEntry)) latest h :
  NoDup l.*1 → Forall (λ ke, request_hash_of ke.2 = ke.1) l → Forall (λ ke, latest !! ke.1 = None) l →
  snd <$> foldl latest_step latest l !! h = if bool_decide (h ∈ l.*1) then Some h else snd <$> latest !! h.
Proof.
  revert latest. induction l as [|[k e] l IH]; intros latest Hnd Hreq Hnone; [done|].
  rewrite fmap_cons in *. cbn [foldl fst].
  apply NoDup_cons in Hnd as [Hk Hnd]. apply Forall_cons in Hreq as [He Hreq], Hnone as [Hn Hnone]. simpl in *.
  unfold latest_step at 2. cbn [fst snd]. rewrite He, Hn. rewrite IH; [|done|done|].
  - destruct (decide (h = k)) as [->|Hh].
    + rewrite (bool_decide_eq_false_2 (k ∈ l.*1)), (bool_decide_eq_true_2 (k ∈ k :: l.*1)) by set_solver.
      by rewrite lookup_insert_eq.
    + rewrite lookup_insert_ne by done. by rewrite (bool_decide_ext (h ∈ k :: l.*1) (h ∈ l.*1)) by set_solver.
  - rewrite Forall_forall in *. intros ke Hke. rewrite lookup_insert_ne; [by apply Hnone|]. intros ->. apply Hk.
    apply list_elem_of_fmap. eauto.
Qed.

Lemma rebuild_latest_ok c :
  map_Forall (λ k e, pe_cache_key e = k) (entries_by_hash c) → canonical c → latest_ok (rebuild_latest_request_index c).
Proof.
  intros Hk Hreq. unfold latest_ok, rebuild_latest_request_index. simpl. apply map_eq. intros h.
  rewrite lookup_fmap, latest_fold, lookup_fmap; [|apply NoDup_fst_map_to_list|..].
  - simpl. rewrite lookup_empty. destruct (entries_by_hash c !! h) as [e|] eqn:E; simpl.
    + rewrite bool_decide_eq_true_2; [by rewrite (Hk h e E)|]. apply list_elem_of_fmap. exists (h, e).
      by rewrite elem_of_map_to_list.
    + rewrite bool_decide_eq_false_2; [done|]. intros ([k e] & -> & H%elem_of_map_to_list)%list_elem_of_fmap. simpl in *. congruence.
  - apply Forall_forall. intros [k e] H%elem_of_map_to_list. by apply (Hreq k e).
  - apply Forall_forall. intros [k e] _. apply lookup_empty.
Qed.

Lemma remove_where_spec p reason c :
  coherent c →
  let c' := (remove_where p reason c).1 in
  coherent c' ∧ entries_by_hash c' = kept p (entries_by_hash c) ∧ (remove_where p reason c).2 = keys_where p c ∧
  workspace_root c' = workspace_root c ∧
  eviction_counters c' =
    match keys_where p c with [] => eviction_counters c
    | ks => add_evictions (eviction_counters c) reason (Z.of_nat (length ks)) end ∧
  persisted_sequence c' = persisted_sequence c ∧
  (canonical c → latest_ok c → latest_ok c').
Proof.
  intros Hc. destruct (remove_entries_spec (keys_where p c) c Hc) as (Hc' & He & Hw & Hv & Ht).
  rewrite filter_keys_where in He. unfold remove_where. destruct (keys_where p c) as [|k ks] eqn:E; cbn [fst snd]; [by split_and!|].
  set (c1 := foldl remove_entry c (k :: ks)) in *. unfold evict_reason.
  split_and!; [by apply coherent_counters, coherent_latest|done|done|done|by rewrite <- Hv|done|].
  intros Hcan _. apply (rebuild_latest_ok c1).
  - apply (co_keys c1 Hc').
  - unfold canonical. rewrite He. intros k' e' [He' _]%map_lookup_filter_Some. by apply Hcan.
Qed.
End Coherent.

(** ** The cache as a map *)

Section Refinement.
Context {ENV : CacheEnv}.

(** The operations of a client; [reuse] is what the reuse hook answers. *)
Inductive CacheOp : Type :=
| OpPut (target : string) (reducer_input : Json) (reuse : option string) (packets : list CachePacket) (metadata : Json) (at_unix : Z)
| OpEvict (ttl_secs now_unix : Z)
| OpPrune (request : ContextStorePruneRequest) (now_unix : Z).

Inductive CacheOut : Type :=
| OutStored (entry : PacketCacheEntry)
| OutEvicted (keys : list string)
| OutPruned (report : ContextStorePruneReport).

Definition run_op (c : PacketCache) (op : CacheOp) : PacketCache * CacheOut :=
  match op with
  | OpPut target input reuse packets metadata at_unix =>
      let '(c, e) := put_at c target (lookup_with_hooks (λ _ _ _, reuse) c target input) packets metadata at_unix in
      (c, OutStored e)
  | OpEvict ttl now => let '(c, keys) := evict_expired_entries_at ttl now c in (c, OutEvicted keys)
  | OpPrune request now => let '(c, report) := prune_at request now c in (c, OutPruned report)
  end.

(** The specification: the entries by request hash, and the counters. *)
Definition Store : Type := gmap string PacketCacheEntry * EvictionCounters.

Definition request_of (target : string) (input : Json) : string :=
  compute_request_hash target (compute_input_hash target input).

Definition spec_entry (m : gmap string PacketCacheEntry) target input reuse packets metadata at_unix : PacketCacheEntry :=
  mkEntry (request_of target input) target (compute_input_hash target input) at_unix packets metadata
    (mkDeltaReuse (match m !! request_of target input with None => reuse | Some _ => None end) None).

Definition removed_keys (p : PacketCacheEntry → bool) (m : gmap string PacketCacheEntry) : list string :=
  sort_by_cmp str_cmp (map_to_list (filter (λ e : string * PacketCacheEntry, p e.2) m)).*1.

Definition spec_remove (p : PacketCacheEntry → bool) (reason : EvictionReason) (s : Store) : Store * list string :=
  let keys := removed_keys p s.1 in
  ((kept p s.1, match keys with [] => s.2 | _ => add_evictions s.2 reason (Z.of_nat (length keys)) end), keys).

Definition spec_op (s : Store) (op : CacheOp) : Store * CacheOut :=
  match op with
  | OpPut target input reuse packets metadata at_unix =>
      let e := spec_entry s.1 target input reuse packets metadata at_unix in
      ((<[request_of target input := e]> s.1, s.2), OutStored e)
  | OpEvict ttl now => let '(s, keys) := spec_remove (expired_at ttl now) ExpiredTtl s in (s, OutEvicted keys)
  | OpPrune request now =>
      let '(s, keys) :=
        spec_remove (if pq_all request then λ _, true
                     else expired_at (default DEFAULT_PERSIST_TTL_SECS (pq_ttl_secs request)) now) ManualPrune s in
      (s, OutPruned (mkPruneReport (Z.of_nat (length keys)) (Z.of_nat (size s.1)) s.2))
  end.

Fixpoint run {S} (step : S → CacheOp → S * CacheOut) (s : S) (ops : list CacheOp) : S * list CacheOut :=
  match ops with
  | [] => (s, [])
  | op :: ops => let '(s, out) := step s op in let '(s, outs) := run step s ops in (s, out :: outs)
  end.

(** The tokens an operation adds to the corpus. *)
Definition op_tokens (root : option string) (op : CacheOp) : Z :=
  match op with
  | OpPut target input _ packets metadata _ =>
      token_count (mkEntry (request_of target input) target (compute_input_hash target input) 0 packets metadata
                     (mkDeltaReuse None None)) root
  | _ => 0
  end.

Record represents (root : option string) (c : PacketCache) (s : Store) : Prop := {
  rp_coherent : coherent c;
  rp_canonical : canonical c;
  rp_latest : latest_ok c;
  rp_root : workspace_root c = root;
  rp_entries : entries_by_hash c = s.1;
  rp_counters : eviction_counters c = s.2
}.

Lemma represents_get root c s target input : represents root c s →
  get_by_request c target (compute_input_hash target input) = s.1 !! request_of target input.
Proof.
  intros [Hc _ Hl _ He _]. unfold get_by_request, get. rewrite Hl, lookup_fmap. rewrite <- He. unfold request_of.
  destruct (entries_by_hash c !! _) as [e|] eqn:E; [|done]. simpl. by rewrite (co_keys c Hc _ _ E).
Qed.

Lemma remove_where_represents root c s p reason : represents root c s →
  let '(c', keys) := remove_where p reason c in
  let '(s', keys') := spec_remove p reason s in
  keys = keys' ∧ represents root c' s'.
Proof.
  intros [Hc Hcan Hl Hw He Hv]. destruct (remove_where_spec p reason c Hc) as (Hc' & He' & Hk & Hw' & Hv' & Ht & Hl').
  destruct (remove_where p reason c) as [c' keys]. cbn [fst snd] in *. unfold spec_remove.
  assert (Heq : keys_where p c = removed_keys p s.1) by (unfold keys_where, removed_keys; by rewrite He).
  rewrite <- Heq, Hk. split; [done|]. split; cbn [fst snd].
  - done.
  - unfold canonical. rewrite He'. intros k' e' [He'' _]%map_lookup_filter_Some. by apply Hcan.
  - by apply Hl'.
  - congruence.
  - by rewrite He', He.
  - rewrite Hv', Hv. by destruct (keys_where p c).
Qed.

Lemma keys_where_none p c : (∀ e, p e = false) → keys_where p c = [].
Proof. intros Hp. apply elem_of_nil_inv. intros k. rewrite elem_of_keys_where. intros (e & _ & He). by rewrite Hp in He. Qed.

Lemma evict_is_remove ttl now c : evict_expired_entries_at ttl now c = remove_where (expired_at ttl now) ExpiredTtl c.
Proof.
  unfold evict_expired_entries_at. destruct (ttl =? 0)%Z eqn:E; [|done]. unfold remove_where.
  rewrite keys_where_none; [done|]. intros e. unfold expired_at, is_expired. by rewrite E.
Qed.

Lemma prune_all_represents root c s request now : represents root c s → pq_all request = true →
  let '(c', report) := prune_at request now c in
  let '(s', keys) := spec_remove (λ _, true) ManualPrune s in
  report = mkPruneReport (Z.of_nat (length keys)) (Z.of_nat (size s'.1)) s'.2 ∧ represents root c' s'.
Proof.
  intros [Hc Hcan Hl Hw He Hv] Hall. unfold prune_at, spec_remove. rewrite Hall.
  assert (Hkept : kept (λ _, true) s.1 = ∅).
  { apply map_empty. intros k. apply map_lookup_filter_None. right. intros e _. done. }
  assert (Hlen : length (removed_keys (λ _, true) s.1) = size s.1).
  { unfold removed_keys. rewrite length_sort_by_cmp, length_fmap, length_map_to_list. f_equal. by apply map_filter_id. }
  rewrite Hkept, Hlen. assert (Hn : cache_len c = Z.of_nat (size s.1)) by (unfold cache_len; by rewrite He). rewrite Hn.
  set (c1 := clear_indexes _).
  assert (Hc1 : coherent c1) by (by apply coherent_empty).
  destruct (removed_keys (λ _, true) s.1) as [|k ks]; cbn [length] in Hlen.
  - rewrite <- Hlen. change (0 <? Z.of_nat 0)%Z with false. cbn -[size]. split; [by rewrite Hv, map_size_empty|].
    split; [done|apply map_Forall_empty|unfold latest_ok; cbn; by rewrite fmap_empty|done..].
  - rewrite <- Hlen. replace (0 <? Z.of_nat (S (length ks)))%Z with true by (symmetry; apply Z.ltb_lt; lia). cbn -[size Z.of_nat].
    split; [unfold cache_len; cbn -[size Z.of_nat]; by rewrite Hv, map_size_empty|].
    split; [by apply coherent_counters|apply map_Forall_empty|unfold latest_ok; cbn; by rewrite fmap_empty|done..|].
    cbn. by rewrite Hv.
Qed.

Lemma run_op_represents root c s op :
  represents root c s → (weight root s.1 + op_tokens root op <= usize_max)%Z →
  let '(c', out) := run_op c op in
  let '(s', out') := spec_op s op in
  out = out' ∧ represents root c' s'.
Proof.
  intros Hr Hfit. destruct op as [target input reuse packets metadata at_unix|ttl now|request now]; cbn [run_op spec_op].
  - pose proof (represents_get root c s target input Hr) as Hget. destruct Hr as [Hc Hcan Hl Hw He Hv].
    unfold put_at. set (e := set_created_at _ _).
    assert (Hes : e = spec_entry s.1 target input reuse packets metadata at_unix).
    { unfold e, set_created_at, prepare_entry_at, lookup_with_hooks, spec_entry. cbn. rewrite Hget. by destruct (s.1 !! _). }
    assert (Htc : token_count e (workspace_root c) = op_tokens root (OpPut target input reuse packets metadata at_unix)).
    { rewrite Hw, Hes. done. }
    destruct (insert_entry_spec c e Hc) as (Hc' & He' & Hl' & Hw' & Hv' & _).
    { rewrite weight_insert, Htc, He, Hw. pose proof (weight_delete root s.1 (pe_cache_key e)). lia. }
    rewrite <- Hes. split; [done|].
    assert (Hkey : pe_cache_key e = request_of target input) by (by rewrite Hes).
    assert (Hreq : request_hash_of e = request_of target input) by (by rewrite Hes).
    split; cbn [fst snd]; [done| | |congruence| |congruence].
    + unfold canonical. rewrite He'. apply map_Forall_insert_2; [by rewrite Hkey|done].
    + unfold latest_ok. rewrite Hl', He', Hl, fmap_insert. by rewrite Hreq, <- Hkey.
    + by rewrite He', Hkey, He.
  - rewrite evict_is_remove. pose proof (remove_where_represents root c s (expired_at ttl now) ExpiredTtl Hr) as H.
    destruct (remove_where _ _ c), (spec_remove _ _ s). by destruct H as [-> ?].
  - destruct (pq_all request) eqn:Eall.
    + pose proof (prune_all_represents root c s request now Hr Eall) as H.
      destruct (prune_at request now c), (spec_remove _ _ s). by destruct H as [-> ?].
    + unfold prune_at. rewrite Eall. set (p := expired_at _ now).
      pose proof (remove_where_represents root c s p ManualPrune Hr) as H.
      destruct (remove_where _ _ c) as [c' keys], (spec_remove _ _ s) as [s' keys']. destruct H as (-> & H).
      split; [|done]. unfold cache_len. by rewrite (rp_entries _ _ _ H), (rp_counters _ _ _ H).
Qed.

(** An operation adds at most its tokens. *)
Lemma spec_op_weight root (s : Store) op : (weight root (spec_op s op).1.1 <= weight root s.1 + op_tokens root op)%Z.
Proof.
  destruct op; unfold spec_op, spec_remove; cbn [fst snd].
  - rewrite weight_insert. pose proof (weight_delete root s.1 (request_of target reducer_input)).
    change (token_count _ root) with (op_tokens root (OpPut target reducer_input reuse packets metadata at_unix)). lia.
  - etrans; [apply weight_filter|]. simpl. lia.
  - etrans; [apply weight_filter|]. simpl. lia.
Qed.

(** Running the cache is running the map. *)
Lemma run_represents root c s ops :
  represents root c s → (weight root s.1 + sumZ (op_tokens root <$> ops) <= usize_max)%Z →
  let '(c', outs) := run run_op c ops in
  let '(s', outs') := run spec_op s ops in
  outs = outs' ∧ represents root c' s'.
Proof.
  revert c s. induction ops as [|op ops IH]; intros c s Hr Hfit; [done|]. rewrite fmap_cons, sumZ_cons in Hfit.
  cbn [run]. assert (Hpos : (0 <= sumZ (op_tokens root <$> ops))%Z).
  { apply sumZ_nonneg, Forall_fmap, Forall_true. intros []; simpl; unfold token_count; lia. }
  pose proof (run_op_represents root c s op Hr ltac:(lia)) as H. pose proof (spec_op_weight root s op) as Hw.
  destruct (run_op c op) as [c1 out], (spec_op s op) as [s1 out']. destruct H as (-> & Hr1). cbn [fst] in Hw.
  specialize (IH c1 s1 Hr1 ltac:(lia)). destruct (run run_op c1 ops), (run spec_op s1 ops). by destruct IH as [-> ?].
Qed.

Lemma represents_new root : represents root (new_cache root) (∅, no_evictions).
Proof. split; [apply coherent_new|apply map_Forall_empty|unfold latest_ok; simpl; by rewrite fmap_empty|done..]. Qed.
End Refinement.

(** ** Rebuilding *)

(** Two caches that differ in the order of postings only. *)
#[export] Instance cache_equiv : Equiv PacketCache := λ c c',
  same_store c c' ∧ recall_docs c' = recall_docs c ∧
  (∀ term, default [] (recall_postings c' !! term) ≡ₚ default [] (recall_postings c !! term)) ∧
  dom (recall_postings c') = dom (recall_postings c) ∧
  recall_avg_doc_length c' = recall_avg_doc_length c ∧ recall_total_doc_length c' = recall_total_doc_length c ∧
  file_ref_index c' = file_ref_index c ∧ basename_alias_index c' = basename_alias_index c ∧
  symbol_index c' = symbol_index c ∧ test_index c' = test_index c ∧ task_index c' = task_index c.

#[export] Instance cache_equivalence : Equivalence (≡@{PacketCache}).
Proof.
  split.
  - intros c. split_and!; done.
  - intros c c' (Hs & Hd & Hp & Hrest). split; [unfold same_store in *; intuition congruence|].
    split; [done|]. split; [intros term; symmetry; apply Hp|]. intuition congruence.
  - intros a b c (H1 & Hd1 & Hp1 & Hr1) (H2 & Hd2 & Hp2 & Hr2). split; [by etrans|].
    split; [congruence|]. split; [intros term; by rewrite Hp2|]. intuition congruence.
Qed.

Lemma postings_ok_perm docs p p' : postings_ok docs p → postings_ok docs p' →
  (∀ term, default [] (p' !! term) ≡ₚ default [] (p !! term)) ∧ dom p' = dom p.
Proof.
  intros Hp Hp'. assert (Hperm : ∀ term, default [] (p' !! term) ≡ₚ default [] (p !! term)).
  { intros term. destruct (Hp term) as (_ & Hnd & Hin), (Hp' term) as (_ & Hnd' & Hin').
    apply NoDup_Permutation; [by eapply NoDup_fmap_1|by eapply NoDup_fmap_1|]. intros [k n]. by rewrite Hin, Hin'. }
  split; [done|]. apply set_eq. intros term. rewrite !elem_of_dom. specialize (Hperm term).
  destruct (Hp term) as (Hne & _), (Hp' term) as (Hne' & _).
  destruct (p' !! term) as [l'|], (p !! term) as [l|]; simpl in Hperm; split; try done; intros _.
  - apply Permutation_nil_r in Hperm. by apply Hne' in Hperm.
  - apply Permutation_nil_l in Hperm. symmetry in Hperm. by apply Hne in Hperm.
Qed.

Lemma ref_index_ok_eq docs f idx idx' : ref_index_ok docs f idx → ref_index_ok docs f idx' → idx' = idx.
Proof. intros H H'. apply map_eq. intros v. by rewrite H, H'. Qed.

(** The documents determine the indexes. *)
Lemma indexed_unique c c' :
  indexed c → indexed c' → same_store c c' → recall_docs c' = recall_docs c →
  recall_avg_doc_length c' = recall_avg_doc_length c → c ≡ c'.
Proof.
  intros (Hp & Hf & Ha & Hs & Ht & Hk & Htot & _) (Hp' & Hf' & Ha' & Hs' & Ht' & Hk' & Htot' & _) Hst Hd Hav.
  rewrite Hd in *. destruct (postings_ok_perm _ _ _ Hp Hp') as [Hperm Hdom].
  pose proof (ref_index_ok_eq _ _ _ _ Hf Hf') as Ef. split_and!; try done; try by eapply ref_index_ok_eq.
  - congruence.
  - rewrite Ef in Ha'. apply map_eq. intros b. by rewrite Ha, Ha'.
Qed.

Section Rebuild.
Context {ENV : CacheEnv}.

Lemma index_entries_spec (l : list PacketCacheEntry) c :
  indexed c → NoDup (pe_cache_key <$> l) → (∀ e, e ∈ l → recall_docs c !! pe_cache_key e = None) →
  (recall_total_doc_length c + sumZ ((λ e, token_count e (workspace_root c)) <$> l) <= usize_max)%Z →
  let c' := foldl index_entry c l in
  indexed c' ∧ same_store c c' ∧
  (∀ k d, recall_docs c' !! k = Some d ↔
     recall_docs c !! k = Some d ∨ ∃ e, e ∈ l ∧ pe_cache_key e = k ∧ d = build_recall_document e (workspace_root c)) ∧
  (entries_by_hash c ≠ ∅ →
   recall_avg_doc_length c' =
     match l with [] => recall_avg_doc_length c | _ => average_length (recall_total_doc_length c') (cache_len c) end).
Proof.
  revert c. induction l as [|e l IH]; intros c Hi Hnd Hfresh Hfit c'.
  - split_and!; [done|done| |done]. intros k d. split; [by left|]. intros [?|(e & He & _)]; [done|]. by apply elem_of_nil in He.
  - rewrite fmap_cons in Hnd. rewrite fmap_cons in Hfit. apply NoDup_cons in Hnd as [He Hnd]. rewrite sumZ_cons in Hfit.
    set (root := workspace_root c) in *. set (d := build_recall_document e root).
    assert (Hsum : (0 <= sumZ ((λ e, token_count e root) <$> l))%Z).
    { apply sumZ_nonneg, Forall_fmap, Forall_true. intros x. simpl. unfold token_count. lia. }
    assert (Hnn : (0 <= recall_total_doc_length c)%Z).
    { destruct Hi as (_ & _ & _ & _ & _ & _ & -> & Hd). by apply total_nonneg. }
    destruct (build_recall_document_ok e root) as [Hok Hlen]; [lia|]. fold d in Hok, Hlen.
    assert (Hkey : rd_cache_key d = pe_cache_key e) by apply build_key.
    set (c1 := index_document c d).
    assert (Hd1 : recall_docs c1 = <[pe_cache_key e := d]> (recall_docs c)) by (unfold c1; simpl; by rewrite Hkey).
    assert (Ht1 : recall_total_doc_length c1 = (recall_total_doc_length c + token_count e root)%Z).
    { unfold c1. simpl. unfold saturating_add. lia. }
    destruct (IH c1) as (Hi' & Hst & Hdocs & Havg).
    + apply index_document_indexed; [done| |done|lia]. rewrite Hkey. apply Hfresh. by left.
    + done.
    + intros e' He'. rewrite Hd1, lookup_insert_ne; [apply Hfresh; by right|]. intros E. apply He. rewrite E.
      by apply list_elem_of_fmap_2.
    + rewrite Ht1. change (workspace_root c1) with root. lia.
    + change c' with (foldl index_entry c1 l). split_and!; [done|done| |].
      * intros k d'. rewrite Hdocs, Hd1, lookup_insert_Some. change (workspace_root c1) with root.
        assert (Hn : recall_docs c !! pe_cache_key e = None) by (apply Hfresh; by left).
        clear -Hn. split.
        -- intros [[(<- & <-)|(_ & Hd)]|(e' & He' & Hk & Hd)]; [|by left|]; right; [exists e|exists e']; split_and!; try done;
             [by left|by right].
        -- intros [Hd|(e' & [->|He']%elem_of_cons & Hk & ->)]; [left; right; split; [congruence|done]|left; left; done|].
           right. by exists e'.
      * intros Hne. rewrite (Havg Hne). destruct l; [|done]. change (foldl index_entry c1 []) with c1.
        unfold c1. simpl. by rewrite (bool_decide_eq_false_2 (entries_by_hash c = ∅)).
Qed.

(** Rebuilding the indexes of a coherent cache changes nothing but the order
    of postings. *)
Lemma rebuild_coherent c :
  coherent c → c ≡ rebuild_indexes c.
Proof.
  intros Hc. pose proof (co_fits c Hc) as Hfit. unfold rebuild_indexes. set (l := sort_by_cmp entry_key_cmp _).
  assert (Hperm : l ≡ₚ (map_to_list (entries_by_hash c)).*2) by apply sort_by_cmp_perm.
  assert (Hl : ∀ e, e ∈ l ↔ entries_by_hash c !! pe_cache_key e = Some e).
  { intros e. rewrite Hperm, list_elem_of_fmap. split.
    - intros ([k e'] & -> & He%elem_of_map_to_list). simpl. by rewrite (co_keys c Hc k e' He).
    - intros He. exists (pe_cache_key e, e). by rewrite elem_of_map_to_list. }
  destruct (index_entries_spec l (clear_indexes c)) as (Hi & Hst & Hd & Hav).
  - apply indexed_clear.
  - rewrite Hperm, <- list_fmap_compose. rewrite (list_fmap_ext _ fst); [apply NoDup_fst_map_to_list|].
    intros i [k e] He. apply list_elem_of_lookup_2, elem_of_map_to_list in He. simpl. by apply (co_keys c Hc k e).
  - intros e _. apply lookup_empty.
  - simpl. rewrite (sumZ_perm _ ((λ e, token_count e (workspace_root c)) <$> (map_to_list (entries_by_hash c)).*2)); [done|].
    by rewrite Hperm.
  - set (c' := foldl index_entry (clear_indexes c) l) in *.
    assert (Hdocs : recall_docs c' = recall_docs c).
    { apply map_eq. intros k. apply option_eq. intros d. rewrite Hd, (co_docs c Hc), lookup_fmap. simpl.
      rewrite lookup_empty. setoid_rewrite Hl. split.
      - intros [?|(e & He & <- & ->)]; [done|]. by rewrite He.
      - intros (e & He & ->)%fmap_Some. right. exists e. by rewrite (co_keys c Hc k e He). }
    apply indexed_unique; [apply co_index, Hc|done|done|done|].
    destruct (decide (entries_by_hash c = ∅)) as [E|E].
    + assert (l = []) as El by (apply Permutation_nil_r; by rewrite Hperm, E, map_to_list_empty).
      rewrite (co_average c Hc). unfold average_of. rewrite (co_docs c Hc), E, fmap_empty. unfold c'. by rewrite El.
    + rewrite (Hav E), (co_average c Hc). unfold average_of. rewrite (co_docs c Hc).
      rewrite bool_decide_eq_false_2 by (intros Hf; by apply E, (fmap_empty_inv _ _ Hf)).
      rewrite map_size_fmap.
      destruct l as [|e l'] eqn:El; [apply Permutation_nil_l in Hperm; symmetry in Hperm; by apply fmap_nil_inv, map_to_list_empty_iff in Hperm|].
      f_equal. destruct Hi as (_ & _ & _ & _ & _ & _ & -> & _), (co_index c Hc) as (_ & _ & _ & _ & _ & _ & -> & _).
      by rewrite Hdocs.
Qed.
End Rebuild.

(** ** Theorems *)

(** C10: a run of a new cache answers as the map from request hashes to entries does:
    every output (entries, sorted keys, reports) is the specification's, and the final
    lookups are those of the map. *)
Theorem cache_refines_map {ENV : CacheEnv} (root : option string) (ops : list CacheOp) :
  (sumZ (op_tokens root <$> ops) <= usize_max)%Z →
  let '(c, outs) := run run_op (new_cache root) ops in
  let '(s, outs') := run spec_op (∅, no_evictions) ops in
  outs = outs' ∧ entries_by_hash c = s.1 ∧ eviction_counters c = s.2 ∧
  ∀ target input, get_by_request c target (compute_input_hash target input) = s.1 !! request_of target input.
Proof.
  intros Hfit. pose proof (run_represents root _ _ ops (represents_new root) Hfit) as H.
  destruct (run run_op _ ops) as [c outs], (run spec_op _ ops) as [s outs']. destruct H as [-> Hr].
  split_and!; [done|apply Hr|apply Hr|]. intros target input. by apply (represents_get root).
Qed.

Lemma cache_refines_map_witness :
  let ops := [OpPut "agent" (JString "a") None [] JNull 5; OpPut "agent" (JString "b") (Some "h") [] JNull 8; OpEvict 4 10;
              OpPut "covy" (JString "a") None [] JNull 11; OpPrune (mkPruneRequest true None) 12] in
  (run (@run_op MemoryExample.example_cache) (new_cache None) ops).2 = (run (@spec_op MemoryExample.example_cache) (∅, no_evictions) ops).2.
Proof.
  intros ops. pose proof (@cache_refines_map MemoryExample.example_cache None ops ltac:(vm_compute; discriminate)) as H.
  destruct (run (@run_op MemoryExample.example_cache) _ ops), (run (@spec_op MemoryExample.example_cache) _ ops). exact (proj1 H).
Defined.

(** C15: after any run the cache holds the document of each of its entries, every index
    lists exactly the documents with a value, and rebuilding all indexes from the
    entries gives the same cache up to the order of postings. *)
Theorem cache_indexes_coherent {ENV : CacheEnv} (root : option string) (ops : list CacheOp) :
  (sumZ (op_tokens root <$> ops) <= usize_max)%Z →
  let c := (run run_op (new_cache root) ops).1 in coherent c ∧ c ≡ rebuild_indexes c.
Proof.
  intros Hfit c. pose proof (run_represents root _ _ ops (represents_new root) Hfit) as H. unfold c.
  destruct (run run_op _ ops) as [c' outs], (run spec_op _ ops) as [s outs']. destruct H as [-> Hr].
  split; [apply Hr|]. apply rebuild_coherent, Hr.
Qed.

Lemma cache_indexes_coherent_witness :
  let c := (run (@run_op MemoryExample.example_cache) (new_cache None) [OpPut "agent" (JString "a") None [] JNull 5; OpEvict 4 10]).1 in
  @coherent MemoryExample.example_cache c ∧ c ≡ @rebuild_indexes MemoryExample.example_cache c.
Proof. apply (@cache_indexes_coherent MemoryExample.example_cache). vm_compute. discriminate.
Defined.

