(* ===== verification/MemoryDisk.v ===== *)
(** * MemoryDisk: the files of the packet cache

    Models the parts of
    [src/crates/context-memory-core/src/persist.rs] that read and write files:
    loading a cache, writing a checkpoint with its backup, appending to the
    log and truncating it.  A file is missing, cannot be read, or holds
    bytes.  A write takes its outcome from a list of faults: a failing
    replacement may or may not have happened, a failing append may have
    written a part.  A crash is a fault after which nothing more is done. *)

From S2P Require Export MemoryPersist.

(** ** Files *)

Inductive FileState : Type := Missing | Unreadable | Present (bytes : list Z).

Record Disk : Type := mkDisk {
  dk_v1 : FileState;
  dk_v2 : FileState;
  dk_v3 : FileState;
  dk_backup : FileState;
  dk_wal : FileState;
  dk_state : FileState
}.
Definition set_v3 (d : Disk) (f : FileState) : Disk := mkDisk (dk_v1 d) (dk_v2 d) f (dk_backup d) (dk_wal d) (dk_state d).
Definition set_backup (d : Disk) (f : FileState) : Disk := mkDisk (dk_v1 d) (dk_v2 d) (dk_v3 d) f (dk_wal d) (dk_state d).
Definition set_wal (d : Disk) (f : FileState) : Disk := mkDisk (dk_v1 d) (dk_v2 d) (dk_v3 d) (dk_backup d) f (dk_state d).
Definition set_state (d : Disk) (f : FileState) : Disk := mkDisk (dk_v1 d) (dk_v2 d) (dk_v3 d) (dk_backup d) (dk_wal d) f.

Definition file_bytes (f : FileState) : list Z := match f with Present raw => raw | _ => [] end.

(** [read_regular_file_bounded]. *)
Definition read_file_bounded (f : FileState) (max : Z) : result IoError (option (list Z)) :=
  match f with
  | Missing => Ok None
  | Unreadable => Err "cannot read"
  | Present bytes => if (max <? Z.of_nat (length bytes))%Z then Err "oversized" else Ok (Some bytes)
  end.

(** [regular_file_len(..)], with an error counted as content. *)
Definition is_nonempty (f : FileState) : bool :=
  match f with Missing => false | Unreadable => true | Present bytes => (0 <? length bytes)%nat end.

(** ** Input and output *)

(** The outcome of the next writes: [Fault n] fails after the first [n] bytes
    (of a replacement: after it took place, unless [n] is 0). *)
Inductive Fault : Type := NoFault | FaultAfter (n : nat).

Record World : Type := mkWorld {
  w_disk : Disk;
  w_faults : list Fault
}.

Definition Io (E A : Type) : Type := World → result E A * World.
#[export] Instance io_ret {E} : MRet (Io E) := λ A a w, (Ok a, w).
#[export] Instance io_bind {E} : MBind (Io E) := λ A B f m w,
  match m w with (Ok a, w) => f a w | (Err e, w) => (Err e, w) end.

Definition lift {E A} (r : result E A) : Io E A := λ w, (r, w).
Definition get_disk {E} : Io E Disk := λ w, (Ok (w_disk w), w).
Definition map_err {E F A} (f : E → F) (m : Io E A) : Io F A :=
  λ w, match m w with (Ok a, w) => (Ok a, w) | (Err e, w) => (Err (f e), w) end.

(** One write: [apply n d] is the disk after the first [n] bytes of it,
    [total] all of them. *)
Definition io_write (apply : nat → Disk → Disk) (total : nat) : Io IoError () := λ w,
  match w_faults w with
  | FaultAfter n :: faults => (Err "write failed", mkWorld (apply (Nat.min n total) (w_disk w)) faults)
  | NoFault :: faults => (Ok (), mkWorld (apply total (w_disk w)) faults)
  | [] => (Ok (), mkWorld (apply total (w_disk w)) [])
  end.

(** [write_atomically]: the new content or the old. *)
Definition write_atomically (set : Disk → FileState → Disk) (bytes : list Z) : Io IoError () :=
  io_write (λ n d, if (n =? 0)%nat then d else set d (Present bytes)) 1.

(** [OpenWal::append] opens or creates the log and adds the bytes at its
    end. *)
Definition append_wal (frame : list Z) : Io IoError () := λ w,
  match dk_wal (w_disk w) with
  | Unreadable => (Err "cannot open", w)
  | Missing => io_write (λ n d, set_wal d (Present (take n frame))) (length frame) w
  | Present raw => io_write (λ n d, set_wal d (Present (raw ++ take n frame))) (length frame) w
  end.

(** [File::set_len]. *)
Definition resize_bytes (length' : nat) (raw : list Z) : list Z := take length' raw ++ replicate (length' - length raw) 0%Z.

(** [OpenWal::truncate] after [open_for_truncate]. *)
Definition truncate_wal_to (length' : nat) : Io IoError () := λ w,
  match dk_wal (w_disk w) with
  | Unreadable => (Err "cannot open", w)
  | Missing => io_write (λ n d, set_wal d (Present (if (n =? 0)%nat then [] else resize_bytes length' []))) 1 w
  | Present raw => io_write (λ n d, set_wal d (Present (if (n =? 0)%nat then raw else resize_bytes length' raw))) 1 w
  end.
Definition reset_wal : Io IoError () := truncate_wal_to 0.

Section Store.
Context {ENV : PersistEnv}.

(** ** Loading *)

Definition read_v3_envelope (f : FileState) : result CheckpointLoadError (option PersistEnvelopeV3) :=
  match read_file_bounded f (Z.of_nat PERSIST_CHECKPOINT_HEADER_LEN + MAX_PERSIST_CHECKPOINT_BYTES) with
  | Err _ => Err LoadCorrupt
  | Ok None => Ok None
  | Ok (Some raw) =>
      match decode_checkpoint_envelope_v3 raw with
      | Err _ => Err LoadCorrupt
      | Ok envelope =>
          if (v3_version envelope =? PERSIST_CACHE_VERSION)%Z then Ok (Some envelope) else Err LoadVersionMismatch
      end
  end.

(** One file of [try_load_v3]: the cache, and whether it was loaded. *)
Definition try_load_v3_file (c : PacketCache) (f : FileState) : PacketCache * bool :=
  match read_v3_envelope f with
  | Ok (Some envelope) => (set_baselines (load_v3_envelope c envelope) true (has_legacy_checkpoint_baseline c), true)
  | Ok None => (c, false)
  | Err LoadVersionMismatch => (evict_reason c VersionMismatch 1, false)
  | Err LoadCorrupt => (evict_reason c CorruptLoadRecovery 1, false)
  end.
Definition try_load_v3 (c : PacketCache) (d : Disk) : PacketCache * bool :=
  let '(c, loaded) := try_load_v3_file c (dk_v3 d) in
  if loaded then (c, true) else try_load_v3_file c (dk_backup d).

Definition read_optional (f : FileState) : option (list Z) :=
  match read_file_bounded f MAX_PERSIST_CHECKPOINT_BYTES with Ok (Some raw) => Some raw | _ => None end.

Definition try_load_v2 (c : PacketCache) (d : Disk) : PacketCache * bool :=
  match read_optional (dk_v2 d) with
  | None => (c, false)
  | Some raw =>
      match envelope_read_v2 raw with
      | None => (evict_reason c CorruptLoadRecovery 1, false)
      | Some envelope =>
          if (v2_version envelope =? 2)%Z
          then (set_baselines (load_envelope_state c (v2_state envelope)) (has_v3_checkpoint_baseline c) true, true)
          else (evict_reason c VersionMismatch 1, false)
      end
  end.

Definition try_load_v1 (c : PacketCache) (d : Disk) : PacketCache * bool :=
  match read_optional (dk_v1 d) with
  | None => (c, false)
  | Some raw =>
      match envelope_read_v1 raw with
      | None => (evict_reason c CorruptLoadRecovery 1, false)
      | Some envelope =>
          if (v1_version envelope =? 1)%Z
          then (set_baselines (rebuild_indexes (set_entries c (loaded_entries (v1_entries envelope))))
                  (has_v3_checkpoint_baseline c) true, true)
          else (evict_reason c VersionMismatch 1, false)
      end
  end.

(** [OpenWal::read_all] after [open_for_read]. *)
Definition read_wal (f : FileState) : result IoError (option (list Z)) := read_file_bounded f MAX_PERSIST_WAL_BYTES.

(** [replay_wal]: an error leaves the cache alone. *)
Definition replay_wal (c : PacketCache) (d : Disk) : result IoError (PacketCache * WalReplay) :=
  match read_wal (dk_wal d) with
  | Err e => Err e
  | Ok None => Ok (c, empty_wal_replay c)
  | Ok (Some raw) => Ok (replay_bytes c raw)
  end.

Definition with_counters (c : PacketCache) (l : list EvictionCounters) : PacketCache :=
  set_counters c (foldl merge_eviction_counters (eviction_counters c) l).

(** The part of [PacketCache::load_from_disk] that loads a checkpoint: the
    latest version, and an older one only without a log. *)
Definition load_checkpoint (root : string) (d : Disk) : PacketCache :=
  let fresh := new_cache (Some root) in
  let '(v3_cache, loaded_v3) := try_load_v3 fresh d in
  let wal_is_nonempty := is_nonempty (dk_wal d) in
  if loaded_v3 then v3_cache
  else if wal_is_nonempty then with_counters fresh [eviction_counters v3_cache]
  else
    let '(v2_cache, loaded_v2) := try_load_v2 fresh d in
    if loaded_v2 then with_counters v2_cache [eviction_counters v3_cache]
    else (try_load_v1 (with_counters fresh [eviction_counters v3_cache; eviction_counters v2_cache]) d).1.

(** [PacketCache::load_from_disk] for the root and the time to live of its
    configuration, at the time of [evict_expired]. *)
Definition load_from_disk (root : string) (ttl_secs now_unix : Z) (d : Disk) : PacketCache :=
  let cache := load_checkpoint root d in
  let cache :=
    match replay_wal cache d with
    | Ok (cache, replay) =>
        let cache := set_sequence cache (highest_sequence replay) in
        if recovered_corruption replay || baseline_mismatch replay then evict_reason cache CorruptLoadRecovery 1 else cache
    | Err _ => evict_reason cache CorruptLoadRecovery 1
    end in
  let cache := rebuild_latest_request_index cache in
  let cache := (evict_expired_entries_at ttl_secs now_unix cache).1 in
  if bool_decide (recall_docs cache = ∅) && negb (bool_decide (entries_by_hash cache = ∅)) then rebuild_indexes cache else cache.

(** ** Writing *)

(** [write_checkpoint_inner]: the backup first, then the primary. *)
Definition write_checkpoint (c : PacketCache) (ttl_secs now_unix : Z) : Io IoError Z :=
  encoded ← lift (encode_checkpoint c ttl_secs now_unix);
  write_atomically set_backup encoded ;;
  write_atomically set_v3 encoded ;;
  mret (Z.of_nat (length encoded)).

Definition save_to_disk (c : PacketCache) (ttl_secs now_unix : Z) : Io IoError () :=
  write_checkpoint c ttl_secs now_unix ;; reset_wal.

Definition append_wal_record (sequence : Z) (deltas : list PersistDelta) : Io IoError Z :=
  frame ← lift (encode_wal_record sequence deltas);
  append_wal frame ;;
  mret (Z.of_nat (length frame)).
End Store.
