(* ===== verification/MemoryPersistSpec.v ===== *)
(** * MemoryPersistSpec: what a checkpoint accepts and what it restores

    The checkpoint frame is exact, the validation of an envelope accepts the
    envelopes whose indexes are those of their documents and nothing else, and
    the checkpoint of a coherent cache restores its live entries. *)

From S2P Require Export MemoryPersist MemoryCacheSpec F64Spec.
From S2P Require MemoryExample.

(** ** Maps built from lists *)

(** The last element with each key. *)
Definition keyed {A} (key : A → string) (l : list A) : gmap string A := foldl (λ m x, <[key x := x]> m) ∅ l.

Section Keyed.
Context {A : Type} (key : A → string).
Implicit Types (l : list A).

Lemma keyed_snoc l x : keyed key (l ++ [x]) = <[key x := x]> (keyed key l).
Proof. unfold keyed. by rewrite foldl_app. Qed.
Lemma keyed_None l k : keyed key l !! k = None ↔ k ∉ key <$> l.
Proof.
  induction l as [|x l IH] using rev_ind; [set_solver|]. rewrite keyed_snoc, lookup_insert_None, IH, fmap_app.
  rewrite not_elem_of_app. simpl. rewrite list_elem_of_singleton. naive_solver.
Qed.
Lemma keyed_Some l k x : NoDup (key <$> l) → keyed key l !! k = Some x ↔ x ∈ l ∧ key x = k.
Proof.
  induction l as [|y l IH] using rev_ind; [intros _; unfold keyed; simpl; rewrite lookup_empty; set_solver|].
  rewrite fmap_app, keyed_snoc. intros (Hnd & Hy & _)%NoDup_app. specialize (IH Hnd).
  rewrite lookup_insert_Some, IH, elem_of_app, list_elem_of_singleton. split; [naive_solver|].
  intros [[Hx| ->] <-]; [right; split; [|done]|by left]. intros Hk. apply (Hy (key x)); [by apply list_elem_of_fmap_2|].
  simpl. apply list_elem_of_singleton. done.
Qed.
Lemma size_keyed l : NoDup (key <$> l) → size (keyed key l) = length l.
Proof.
  induction l as [|y l IH] using rev_ind; [done|]. rewrite fmap_app, keyed_snoc. intros (Hnd & Hy & _)%NoDup_app.
  rewrite map_size_insert_None, IH, length_app; [simpl; lia|done|]. apply keyed_None. intros Hin.
  apply (Hy _ Hin). simpl. by apply list_elem_of_singleton.
Qed.
Lemma keyed_perm l : NoDup (key <$> l) → (map_to_list (keyed key l)).*2 ≡ₚ l.
Proof.
  induction l as [|y l IH] using rev_ind; [unfold keyed; simpl; by rewrite map_to_list_empty|]. rewrite fmap_app, keyed_snoc.
  intros (Hnd & Hy & _)%NoDup_app. rewrite map_to_list_insert.
  - simpl. rewrite IH by done. by rewrite Permutation_app_comm.
  - apply keyed_None. intros Hin. apply (Hy _ Hin). simpl. by apply list_elem_of_singleton.
Qed.

(** A loop that collects elements with fresh keys. *)
Lemma fold_keyed {E} (f : gmap string A → A → result E (gmap string A)) (P : A → Prop) :
  (∀ acc x acc', f acc x = Ok acc' ↔ P x ∧ acc !! key x = None ∧ acc' = <[key x := x]> acc) →
  ∀ l m, fold_result f ∅ l = Ok m ↔ Forall P l ∧ NoDup (key <$> l) ∧ m = keyed key l.
Proof.
  intros Hf l. induction l as [|x l IH] using rev_ind; intros m.
  - simpl. split; [intros [= <-]; split_and!; [done|constructor|done]|by intros (_ & _ & ->)].
  - rewrite fold_result_snoc, bind_Ok_inv, fmap_app, Forall_app, Forall_singleton, NoDup_app, keyed_snoc. split.
    + intros (acc & (HP & Hnd & ->)%IH & (Hx & Hn & ->)%Hf). apply keyed_None in Hn. split_and!; [done|done|done| |apply NoDup_singleton|done].
      intros k Hk. simpl. rewrite list_elem_of_singleton. by intros ->.
    + intros ((HP & Hx) & (Hnd & Hy & _) & ->). exists (keyed key l). split; [by apply IH|]. apply Hf. split_and!; [done| |done].
      apply keyed_None. intros Hk. apply (Hy _ Hk). simpl. by apply list_elem_of_singleton.
Qed.
End Keyed.

(** The values with each key. *)
Definition add_pair {A} `{Countable A} (m : gmap string (gset A)) (vx : string * A) : gmap string (gset A) :=
  <[vx.1 := {[vx.2]} ∪ default ∅ (m !! vx.1)]> m.
Definition multimap {A} `{Countable A} (l : list (string * A)) : gmap string (gset A) := foldl add_pair ∅ l.

Section Multimap.
Context {A : Type} `{Countable A}.
Implicit Types (l : list (string * A)) (m : gmap string (gset A)).

Lemma multimap_elem l v x : x ∈ default ∅ (multimap l !! v) ↔ (v, x) ∈ l.
Proof.
  induction l as [|[w y] l IH] using rev_ind; [unfold multimap; simpl; rewrite lookup_empty; simpl; set_solver|].
  unfold multimap. rewrite foldl_app. fold (multimap l). simpl. unfold add_pair. simpl.
  rewrite elem_of_app, list_elem_of_singleton, <- IH. destruct (decide (w = v)) as [->|Hw].
  - rewrite lookup_insert_eq. simpl. rewrite elem_of_union, elem_of_singleton. naive_solver.
  - rewrite lookup_insert_ne by done. naive_solver.
Qed.
Lemma multimap_ne l v : multimap l !! v ≠ Some ∅.
Proof.
  induction l as [|[w y] l IH] using rev_ind; [done|].
  unfold multimap. rewrite foldl_app. fold (multimap l). simpl. unfold add_pair. simpl.
  destruct (decide (w = v)) as [->|Hw]; [|by rewrite lookup_insert_ne]. rewrite lookup_insert_eq. intros [= E]. set_solver.
Qed.
Lemma multimap_iff l m :
  m = multimap l ↔ ∀ v, m !! v ≠ Some ∅ ∧ ∀ x, x ∈ default ∅ (m !! v) ↔ (v, x) ∈ l.
Proof.
  split; [intros -> v; split; [apply multimap_ne|intros x; apply multimap_elem]|].
  intros Hm. apply map_eq. intros v. destruct (Hm v) as [Hne Hin].
  assert (E : default ∅ (m !! v) = default ∅ (multimap l !! v)) by (apply set_eq; intros x; by rewrite Hin, multimap_elem).
  pose proof (multimap_ne l v). destruct (m !! v), (multimap l !! v); simpl in E; congruence.
Qed.
End Multimap.

Lemma foldl_ext_eq {A B} (f g : B → A → B) (l : list A) acc : (∀ acc x, f acc x = g acc x) → foldl f acc l = foldl g acc l.
Proof. intros Hfg. revert acc. induction l as [|x l IH]; intros acc; simpl; [done|]. by rewrite Hfg, IH. Qed.
Lemma foldl_ext_elem {A B} (f g : B → A → B) (l : list A) acc :
  (∀ acc x, x ∈ l → f acc x = g acc x) → foldl f acc l = foldl g acc l.
Proof.
  revert acc. induction l as [|x l IH]; intros acc Hfg; simpl; [done|]. rewrite Hfg by left. apply IH.
  intros. apply Hfg. by right.
Qed.
Lemma foldl_bind {A B C} (f : C → B → C) (g : A → list B) (l : list A) acc :
  foldl (λ acc x, foldl f acc (g x)) acc l = foldl f acc (l ≫= g).
Proof. revert acc. induction l as [|x l IH]; intros acc; simpl; [done|]. by rewrite IH, foldl_app. Qed.
Lemma foldl_omap {A B C} (f : C → B → C) (g : A → option B) (l : list A) acc :
  foldl (λ acc x, match g x with Some y => f acc y | None => acc end) acc l = foldl f acc (omap g l).
Proof. revert acc. induction l as [|x l IH]; intros; simpl; [done|]. destruct (g x); simpl; apply IH. Qed.

Lemma option_eq_nonempty (o : option (gset string)) s : o ≠ Some ∅ → default ∅ o = s → o = nonempty s.
Proof. intros Ho <-. unfold nonempty. destruct o as [t|]; simpl; [|by rewrite bool_decide_eq_true_2]. case_bool_decide; congruence. Qed.

(** The documents keyed by their own key. *)
Definition keys_ok (docs : gmap string RecallDocument) : Prop := map_Forall (λ k d, rd_cache_key d = k) docs.

Lemma elem_of_docs (docs : gmap string RecallDocument) d :
  keys_ok docs → d ∈ (map_to_list docs).*2 ↔ docs !! rd_cache_key d = Some d.
Proof.
  intros Hk. rewrite list_elem_of_fmap. split.
  - intros ([k d'] & -> & Hd%elem_of_map_to_list). simpl. by rewrite (Hk k d' Hd).
  - intros Hd. exists (rd_cache_key d, d). by rewrite elem_of_map_to_list.
Qed.

(** ** Validation of the indexes *)

Lemma validate_ref_index_exact actual docs values :
  keys_ok docs → validate_ref_index actual docs values = Ok () ↔ ref_index_ok docs values actual.
Proof.
  intros Hk. unfold validate_ref_index. rewrite ensure_Ok_inv, bool_decide_eq_true.
  assert (E : foldl (λ expected d, foldl (index_insert (rd_cache_key d)) expected (values d)) ∅ (map_to_list docs).*2
    = multimap ((map_to_list docs).*2 ≫= λ d, (λ v, (v, rd_cache_key d)) <$> values d)).
  { unfold multimap. rewrite <- foldl_bind. apply foldl_ext_eq. intros acc d. by rewrite foldl_fmap. }
  rewrite E, multimap_iff. unfold ref_index_ok.
  assert (Hin : ∀ v k, (v, k) ∈ ((map_to_list docs).*2 ≫= λ d, (λ v, (v, rd_cache_key d)) <$> values d) ↔ k ∈ holders docs values v).
  { intros v k. rewrite elem_of_holders, list_elem_of_bind. split.
    - intros (d & (w & [= -> ->] & Hw)%list_elem_of_fmap & Hd). apply elem_of_docs in Hd; [|done]. eauto.
    - intros (d & Hd & Hv). exists d. rewrite elem_of_docs by done. rewrite (Hk k d Hd). split; [|done].
      apply list_elem_of_fmap. eauto. }
  split.
  - intros H v. destruct (H v) as [Hne Hx]. apply option_eq_nonempty; [done|].
    apply set_eq. intros k. by rewrite Hx, Hin.
  - intros H v. rewrite (H v). split.
    + unfold nonempty. case_bool_decide; [done|]. intros [= ?]. done.
    + intros k. by rewrite nonempty_default, Hin.
Qed.

Lemma validate_alias_exact actual (file_refs : RefIndex) :
  validate_basename_alias_index actual file_refs = Ok () ↔ alias_ok (dom file_refs) actual.
Proof.
  unfold validate_basename_alias_index. rewrite ensure_Ok_inv, bool_decide_eq_true.
  set (pairs := omap (λ p, (λ b, (b, p)) <$> basename_alias p) (map_to_list file_refs).*1).
  assert (E : foldl alias_insert ∅ (map_to_list file_refs).*1 = multimap pairs).
  { unfold multimap, pairs. rewrite <- foldl_omap. apply foldl_ext_eq. intros acc p. unfold alias_insert.
    by destruct (basename_alias p). }
  assert (Hin : ∀ b p, (b, p) ∈ pairs ↔ p ∈ alias_set (dom file_refs) b).
  { intros b p. unfold pairs, alias_set. rewrite list_elem_of_omap, elem_of_filter, elem_of_dom. setoid_rewrite list_elem_of_fmap.
    setoid_rewrite fmap_Some. split.
    - intros (q & ([q' ks] & -> & Hq%elem_of_map_to_list) & (b' & Hb & [= -> ->])). simpl in *. eauto.
    - intros [Hb [ks Hks]]. exists p. split; [exists (p, ks); by rewrite elem_of_map_to_list|]. eauto. }
  rewrite E, multimap_iff. unfold alias_ok. split.
  - intros Hm b. destruct (Hm b) as [Hne Hx]. apply option_eq_nonempty; [done|]. apply set_eq. intros p. by rewrite Hx, Hin.
  - intros Hm b. rewrite (Hm b). split; [unfold nonempty; case_bool_decide; congruence|].
    intros p. by rewrite nonempty_default, Hin.
Qed.

(** ** Postings *)

Lemma validate_posting_list docs term l s :
  fold_result (validate_posting docs term) ∅ l = Ok s ↔
    Forall (λ p, p.2 ≠ 0%Z ∧ is_Some (docs !! p.1)) l ∧ NoDup l ∧ s = list_to_set l.
Proof.
  revert s. induction l as [|p l IH] using rev_ind; intros s.
  - simpl. split; [intros [= <-]; split_and!; [done|constructor|done]|by intros (_ & _ & ->)].
  - rewrite fold_result_snoc, bind_Ok_inv, Forall_app, Forall_singleton. split.
    + intros (acc & (HP & Hnd & ->)%IH & Hp). unfold validate_posting in Hp. inv_result. reflect_bool.
      subst s. split_and!; [done..| |set_solver]. apply NoDup_app. split_and!; [done| |apply NoDup_singleton].
      intros q Hq. rewrite list_elem_of_singleton. intros ->. rewrite elem_of_list_to_set in *. done.
    + intros ((HP & Hne & Hd) & (Hnd & Hp & _)%NoDup_app & ->). exists (list_to_set l). split; [by apply IH|].
      unfold validate_posting. rewrite (proj2 (Z.eqb_neq _ _) Hne), (bool_decide_eq_true_2 (is_Some _)) by done.
      rewrite bool_decide_eq_false_2; [simpl; f_equal; set_solver|]. rewrite elem_of_list_to_set. intros Hq.
      apply (Hp _ Hq). by apply list_elem_of_singleton.
Qed.

Definition posting_list_ok (docs : gmap string RecallDocument) (tp : string * list (string * Z)) : Prop :=
  is_blank tp.1 = false ∧ tp.2 ≠ [] ∧ Forall (λ p, p.2 ≠ 0%Z ∧ is_Some (docs !! p.1)) tp.2 ∧ NoDup tp.2.

Lemma validate_terms docs l N : NoDup l.*1 →
  fold_result (validate_term docs) ∅ l = Ok N ↔
    Forall (posting_list_ok docs) l ∧ N = (λ ps, list_to_set ps : gset (string * Z)) <$> (list_to_map l : gmap string _).
Proof.
  revert N. induction l as [|[t ps] l IH] using rev_ind; intros N.
  - intros _. simpl. rewrite fmap_empty. split; [intros [= <-]; split; done|by intros (_ & ->)].
  - rewrite fmap_app. intros (Hnd & Ht & _)%NoDup_app. rewrite fold_result_snoc, bind_Ok_inv, Forall_app, Forall_singleton.
    assert (Hnt : t ∉ l.*1) by (intros Hin; apply (Ht _ Hin); simpl; by apply list_elem_of_singleton).
    rewrite list_to_map_snoc, fmap_insert by done. unfold posting_list_ok at 2. split.
    + intros (acc & (HP & ->)%IH & Hp); [|done]. unfold validate_term in Hp. inv_result. reflect_bool.
      apply validate_posting_list in Ha0 as (HF & HN & ->). by subst N.
    + intros ((HP & Hb & Hne & HF & HN) & ->). eexists. split; [by apply IH|]. unfold validate_term. cbn [fst snd] in *.
      rewrite Hb, (bool_decide_eq_false_2 (ps = [])) by done. cbn [negb andb ensure].
      assert (Hps : fold_result (validate_posting docs t) ∅ ps = Ok (list_to_set ps)) by (by apply validate_posting_list).
      by rewrite result_bind_ok, Hps.
Qed.

Definition posting_pairs (docs : gmap string RecallDocument) : list (string * (string * Z)) :=
  (map_to_list docs).*2 ≫= λ d, (λ t, (t.1, (rd_cache_key d, t.2))) <$> map_to_list (rd_terms d).
Lemma expected_postings_multimap docs : expected_postings docs = multimap (posting_pairs docs).
Proof.
  unfold expected_postings, multimap, posting_pairs. rewrite <- foldl_bind. apply foldl_ext_eq. intros acc d.
  by rewrite foldl_fmap.
Qed.

Lemma expected_postings_elem docs term k n :
  keys_ok docs → (k, n) ∈ default ∅ (expected_postings docs !! term) ↔ ∃ d, docs !! k = Some d ∧ rd_terms d !! term = Some n.
Proof.
  intros Hk. rewrite expected_postings_multimap, multimap_elem. unfold posting_pairs. rewrite list_elem_of_bind. split.
  - intros (d & ([t m] & [= -> -> ->] & Ht%elem_of_map_to_list)%list_elem_of_fmap & Hd). apply elem_of_docs in Hd; eauto.
  - intros (d & Hd & Ht). exists d. rewrite elem_of_docs, (Hk k d Hd) by done. split; [|done].
    apply list_elem_of_fmap. exists (term, n). by rewrite elem_of_map_to_list.
Qed.
Lemma expected_postings_ne docs term : expected_postings docs !! term ≠ Some ∅.
Proof. rewrite expected_postings_multimap. apply multimap_ne. Qed.

Lemma validate_postings_exact actual docs :
  keys_ok docs → map_Forall (λ _ d, doc_ok d) docs →
  validate_recall_postings actual docs = Ok () ↔ postings_ok docs actual.
Proof.
  intros Hk Hd. unfold validate_recall_postings. rewrite bind_Ok_inv.
  setoid_rewrite validate_terms; [|apply NoDup_fst_map_to_list].
  setoid_rewrite ensure_Ok_inv. setoid_rewrite bool_decide_eq_true. rewrite list_to_map_to_list. split.
  - intros (N & (HF & ->) & HN) term. pose proof (expected_postings_elem docs term) as Hel.
    rewrite <- HN, lookup_fmap in Hel. rewrite Forall_forall in HF.
    assert (Hin : ∀ k n, (k, n) ∈ default [] (actual !! term) ↔ ∃ d, docs !! k = Some d ∧ rd_terms d !! term = Some n).
    { intros k n. rewrite <- Hel by done. destruct (actual !! term); simpl; [|set_solver]. by rewrite elem_of_list_to_set. }
    split_and!; [| |done].
    + intros l Hl. by destruct (HF (term, l)) as (_ & ? & _); [apply elem_of_map_to_list|].
    + destruct (actual !! term) as [l|] eqn:El; [|constructor]. simpl in *.
      destruct (HF (term, l)) as (_ & _ & _ & Hnd); [by apply elem_of_map_to_list|]. simpl in Hnd.
      apply NoDup_fmap_2_strong; [|done]. intros [k n] [k' n'] H1 H2 Heq. simpl in Heq. subst k'.
      apply Hin in H1 as (d1 & Hd1 & Ht1), H2 as (d2 & Hd2 & Ht2). congruence.
  - intros Hok. exists ((λ ps, list_to_set ps : gset (string * Z)) <$> actual). split.
    + split; [|done]. apply Forall_forall. intros [term l] Hl%elem_of_map_to_list.
      destruct (Hok term) as (Hne & Hnd & Hin). rewrite Hl in Hne, Hnd, Hin. simpl in *.
      assert (Hl' : ∀ k n, (k, n) ∈ l → is_blank term = false ∧ n ≠ 0%Z ∧ is_Some (docs !! k)).
      { intros k n (d & Hdk & Ht)%Hin. destruct (Hd k d Hdk) as [_ Hall]. specialize (Hall term n Ht). simpl in Hall.
        split_and!; [apply Hall|lia|by eexists]. }
      split_and!; simpl.
      * specialize (Hne l eq_refl). destruct l as [|[k n] l]; [done|]. by apply (Hl' k n); left.
      * by apply Hne.
      * apply Forall_forall. intros [k n] Hkn. split; by eapply Hl'.
      * by eapply NoDup_fmap_1.
    + apply map_eq. intros term. rewrite lookup_fmap. destruct (Hok term) as (Hne & Hnd & Hin).
      pose proof (expected_postings_elem docs term) as Hel. pose proof (expected_postings_ne docs term) as Hne'.
      assert (E : list_to_set (default [] (actual !! term)) = default ∅ (expected_postings docs !! term)).
      { apply set_eq. intros [k n]. rewrite elem_of_list_to_set, Hin. by rewrite Hel. }
      destruct (actual !! term) as [l|], (expected_postings docs !! term) as [s|]; simpl in *; [by rewrite E| | |done].
      * exfalso. apply (Hne l eq_refl). destruct l as [|p l]; [done|]. simpl in E. set_solver.
      * exfalso. apply Hne'. by rewrite <- E.
Qed.

(** ** Documents *)

Lemma computed_length_list l n :
  Forall (λ x, 0 <= x)%Z l →
  foldr (λ count total, t ← total; if (count =? 0)%Z then None else checked_add usize_max t count) (Some 0%Z) l = Some n ↔
    Forall (λ x, 0 < x)%Z l ∧ (sumZ l <= usize_max)%Z ∧ n = sumZ l.
Proof.
  intros Hl. revert n. induction Hl as [|x l Hx Hl IH]; intros n; cbn [foldr].
  - rewrite sumZ_nil. split; [intros [= <-]; split_and!; [done|by vm_compute|done]|by intros (_ & _ & ->)].
  - rewrite Forall_cons, sumZ_cons, bind_Some. split.
    + intros (t & (HF & Hle & ->)%IH & H). destruct (x =? 0)%Z eqn:E; [done|]. reflect_bool.
      unfold checked_add in H. case_match eqn:Ef; [|done]. injection H as <-. reflect_bool. split_and!; [lia|done|lia|lia].
    + intros ((Hpos & HF) & Hle & ->). exists (sumZ l). split; [apply IH; split_and!; [done|lia|done]|].
      rewrite (proj2 (Z.eqb_neq x 0)) by lia. unfold checked_add. case_match eqn:Ef; [f_equal; lia|].
      reflect_bool. lia.
Qed.

(** A document whose frequencies fit a [usize]. *)
Definition doc_typed (d : RecallDocument) : Prop := map_Forall (λ _ n, 0 <= n)%Z (rd_terms d).
Definition doc_fits (d : RecallDocument) : Prop := doc_ok d ∧ (rd_doc_length d <= usize_max)%Z.

Lemma computed_length_exact d : doc_typed d →
  computed_length (rd_terms d) = Some (rd_doc_length d) ∧ forallb (λ term, negb (is_blank term)) (map_to_list (rd_terms d)).*1 = true
    ↔ doc_fits d.
Proof.
  intros Ht. unfold computed_length. rewrite computed_length_list.
  2:{ apply Forall_fmap, Forall_forall. intros [t n] Hn%elem_of_map_to_list. exact (Ht t n Hn). }
  unfold doc_fits, doc_ok, map_sum. rewrite list_fmap_id, forallb_forall. split.
  - intros ((HF & Hle & Hs) & Hb). split_and!; [done| |lia]. intros t n Hn. split.
    + apply negb_true_iff, Hb, list_elem_of_In, list_elem_of_fmap. exists (t, n). by rewrite elem_of_map_to_list.
    + rewrite Forall_fmap, Forall_forall in HF. apply (HF (t, n)). by apply elem_of_map_to_list.
  - intros ((Hs & HF) & Hle). rewrite <- Hs. split_and!; [|done|done|].
    + apply Forall_fmap, Forall_forall. intros [t n] Hn%elem_of_map_to_list. by apply (HF t n).
    + intros t ([t' n] & -> & Hn%elem_of_map_to_list)%list_elem_of_In%list_elem_of_fmap. apply negb_true_iff.
      by apply (HF t' n).
Qed.

(** ** Envelopes *)

Lemma postings_ok_empty p : postings_ok ∅ p ↔ p = ∅.
Proof.
  split; [|intros ->; apply (indexed_clear (new_cache None))]. intros Hok. apply map_empty. intros term.
  destruct (Hok term) as (Hne & _ & Hin). destruct (p !! term) as [[|[k n] l]|]; [by destruct (Hne _ eq_refl)| |done].
  destruct (proj1 (Hin k n)) as (d & Hd & _); [by left|]. by rewrite lookup_empty in Hd.
Qed.
Lemma ref_index_ok_empty f idx : ref_index_ok ∅ f idx ↔ idx = ∅.
Proof. split; [intros H; by eapply ref_index_ok_eq, H; apply ref_index_empty|intros ->; apply ref_index_empty]. Qed.
Lemma alias_ok_empty A : alias_ok ∅ A ↔ A = ∅.
Proof.
  assert (E : ∀ b, nonempty (alias_set ∅ b) = None).
  { intros b. unfold nonempty, alias_set. by rewrite bool_decide_eq_true_2 by set_solver. }
  split; [intros H; apply map_empty; intros b; by rewrite H, E|intros -> b; by rewrite lookup_empty, E].
Qed.

Section Envelope.
Context {ENV : PersistEnv}.

Definition packet_ok (p : PersistCachePacket) : Prop :=
  is_Some (json_parse (pp_body_json p)) ∧ is_Some (json_parse (pp_metadata_json p)).
Definition entry_ok (e : PersistPacketCacheEntry) : Prop :=
  is_blank (ppe_cache_key e) = false ∧ is_Some (json_parse (ppe_metadata_json e)) ∧ Forall packet_ok (ppe_packets e).

Definition doc_agrees (entries : gmap string PersistPacketCacheEntry) (d : RecallDocument) : Prop :=
  ∃ e, entries !! rd_cache_key d = Some e ∧ rd_target d = ppe_target e ∧ rd_created_at_unix d = ppe_created_at_unix e.

(** The average of the documents, or zero when there are none. *)
Definition average_ok (s : EnvelopeState) : Prop :=
  match env_recall_docs s with
  | [] => f64_eq (env_recall_avg_doc_length s) f64_zero = true
  | docs => finite_nonneg (env_recall_avg_doc_length s) ∧
      f64_lt f64_epsilon (f64_abs (f64_sub (env_recall_avg_doc_length s) (average_recall_doc_length docs))) = false
  end.

Definition env_docs (s : EnvelopeState) : gmap string RecallDocument := keyed rd_cache_key (env_recall_docs s).

(** Entries with distinct keys, one agreeing document each, and exactly the
    indexes of those documents. *)
Record envelope_valid (s : EnvelopeState) : Prop := {
  ev_entries : Forall entry_ok (env_entries s);
  ev_keys : NoDup (ppe_cache_key <$> env_entries s);
  ev_docs : Forall (λ d, doc_agrees (keyed ppe_cache_key (env_entries s)) d ∧ doc_fits d) (env_recall_docs s);
  ev_doc_keys : NoDup (rd_cache_key <$> env_recall_docs s);
  ev_cover : length (env_recall_docs s) = length (env_entries s);
  ev_postings : postings_ok (env_docs s) (env_recall_postings s);
  ev_files : ref_index_ok (env_docs s) rd_paths (env_file_ref_index s);
  ev_symbols : ref_index_ok (env_docs s) rd_symbols (env_symbol_index s);
  ev_tests : ref_index_ok (env_docs s) rd_tests (env_test_index s);
  ev_tasks : ref_index_ok (env_docs s) rd_task_ids (env_task_index s);
  ev_aliases : alias_ok (dom (env_file_ref_index s)) (env_basename_alias_index s);
  ev_average : average_ok s
}.

Lemma validate_json_Ok e what raw u : validate_json e what raw = Ok u ↔ is_Some (json_parse raw).
Proof. unfold validate_json. destruct (json_parse raw), u; split; try done; by intros [? ?]. Qed.

Lemma validate_entry_exact acc e acc' :
  validate_entry acc e = Ok acc' ↔ entry_ok e ∧ acc !! ppe_cache_key e = None ∧ acc' = <[ppe_cache_key e := e]> acc.
Proof.
  assert (Hp : ∀ p, (validate_json e "packet body" (pp_body_json p);; validate_json e "packet metadata" (pp_metadata_json p)) = Ok () ↔ packet_ok p).
  { intros p. rewrite bind_Ok_inv. unfold packet_ok. split.
    - intros ([] & ?%validate_json_Ok & ?%validate_json_Ok). done.
    - intros [? ?]. exists (). by split; apply validate_json_Ok. }
  unfold entry_ok. split.
  - intros H. unfold validate_entry in H. inv_result. reflect_bool. apply validate_json_Ok in Ha1. apply for_each_Ok in Ha2.
    split_and!; [done|done| |done|done]. eapply Forall_impl; [exact Ha2|]. intros p. apply Hp.
  - intros ((Hb & Hm & HF) & Hn & ->). unfold validate_entry. rewrite Hb, bool_decide_eq_true_2 by done.
    assert (validate_json e "metadata" (ppe_metadata_json e) = Ok ()) as -> by (by apply validate_json_Ok).
    assert (for_each (λ p, validate_json e "packet body" (pp_body_json p);; validate_json e "packet metadata" (pp_metadata_json p))
              (ppe_packets e) = Ok ()) as ->; [|done].
    apply for_each_Ok. eapply Forall_impl; [exact HF|]. intros p. apply Hp.
Qed.

Lemma validate_doc_exact entries acc d acc' :
  validate_doc entries acc d = Ok acc' ↔
    (doc_agrees entries d ∧ computed_length (rd_terms d) = Some (rd_doc_length d) ∧
     forallb (λ term, negb (is_blank term)) (map_to_list (rd_terms d)).*1 = true) ∧
    acc !! rd_cache_key d = None ∧ acc' = <[rd_cache_key d := d]> acc.
Proof.
  unfold validate_doc, doc_agrees. split.
  - intros H. inv_result. subst acc'. reflect_bool. split_and!; eauto.
  - intros (((e & He & Ht & Hc) & Hl & Hb) & Hn & ->). rewrite He. cbn [ok_or]. rewrite result_bind_ok, Hn, Ht, Hc, Hl, Hb.
    rewrite !bool_decide_eq_true_2, Z.eqb_refl by done. done.
Qed.

Lemma docs_exact entries docs m : Forall doc_typed docs →
  fold_result (validate_doc entries) ∅ docs = Ok m ↔
    Forall (λ d, doc_agrees entries d ∧ doc_fits d) docs ∧ NoDup (rd_cache_key <$> docs) ∧ m = keyed rd_cache_key docs.
Proof.
  intros Ht. rewrite (fold_keyed rd_cache_key _ _ (validate_doc_exact entries)).
  assert (Forall (λ d, doc_agrees entries d ∧ computed_length (rd_terms d) = Some (rd_doc_length d) ∧
     forallb (λ term, negb (is_blank term)) (map_to_list (rd_terms d)).*1 = true) docs ↔
     Forall (λ d, doc_agrees entries d ∧ doc_fits d) docs) as ->; [|done].
  rewrite !Forall_forall. rewrite Forall_forall in Ht.
  split; intros H d Hd; destruct (H d Hd) as [Ha Hf]; (split; [done|]); by apply computed_length_exact; [apply Ht|].
Qed.

Lemma indexes_are_empty_true s : indexes_are_empty s = true ↔
  env_recall_docs s = [] ∧ env_recall_postings s = ∅ ∧ env_file_ref_index s = ∅ ∧ env_basename_alias_index s = ∅ ∧
  env_symbol_index s = ∅ ∧ env_test_index s = ∅ ∧ env_task_index s = ∅.
Proof. unfold indexes_are_empty. rewrite !andb_true_iff, !bool_decide_eq_true. tauto. Qed.

Lemma keyed_docs_ok s : NoDup (rd_cache_key <$> env_recall_docs s) →
  Forall (λ d, doc_agrees (keyed ppe_cache_key (env_entries s)) d ∧ doc_fits d) (env_recall_docs s) →
  keys_ok (env_docs s) ∧ map_Forall (λ _ d, doc_ok d) (env_docs s).
Proof.
  intros Hnd HF. rewrite Forall_forall in HF. split; intros k d Hd; apply (keyed_Some _ _ _ _ Hnd) in Hd as [Hin Hk]; [done|].
  by apply HF.
Qed.

Lemma envelope_valid_empty s : env_recall_docs s = [] → envelope_valid s → indexes_are_empty s = true ∧ env_entries s = [].
Proof.
  intros Hd [_ _ _ _ Hc Hp Hf Hs Ht Hk Ha _]. unfold env_docs in *. rewrite Hd in *. unfold keyed in *. simpl in *.
  rewrite postings_ok_empty in Hp. rewrite ref_index_ok_empty in Hf, Hs, Ht, Hk. rewrite Hf, dom_empty_L, alias_ok_empty in Ha.
  split; [by apply indexes_are_empty_true|]. by apply nil_length_inv.
Qed.

Lemma validated_is_valid envelope : Forall doc_typed (env_recall_docs (v3_state envelope)) →
  validate_v3_envelope envelope = Ok () → envelope_valid (v3_state envelope).
Proof.
  intros Htyped. unfold validate_v3_envelope. set (s := v3_state envelope) in *. rewrite bind_Ok_inv.
  setoid_rewrite (fold_keyed ppe_cache_key _ _ validate_entry_exact).
  intros (m & (HF & Hnd & ->) & H). destruct (indexes_are_empty s) eqn:Eidx.
  + apply indexes_are_empty_true in Eidx as (Ed & Ep & Ef & Eb & Es & Et & Ek). inv_result. reflect_bool.
    assert (Hlen : env_entries s = []).
    { apply nil_length_inv. rewrite <- (size_keyed ppe_cache_key) by done. by rewrite Ha. }
    assert (ED : env_docs s = ∅) by (unfold env_docs; by rewrite Ed).
    split; [done|done|rewrite Ed; constructor|rewrite Ed; constructor|by rewrite Ed, Hlen|rewrite ED; by apply postings_ok_empty
      |rewrite ED; by apply ref_index_ok_empty..| |unfold average_ok; by rewrite Ed].
    rewrite Ef, dom_empty_L. by apply alias_ok_empty.
  + inv_result. repeat match goal with x : () |- _ => destruct x end. reflect_bool.
    apply docs_exact in Ha as (HFd & Hndd & ->); [|done]. rewrite !size_keyed in * by done.
    destruct (keyed_docs_ok s) as [Hk Hok]; [done|done|]. fold (env_docs s) in *.
    rewrite validate_postings_exact in Ha1 by done. rewrite validate_ref_index_exact in Ha2, Ha3, Ha4, Ha5 by done.
    apply validate_alias_exact in Ha6. destruct (decide (env_recall_docs s = [])) as [Ed|Ed].
    { exfalso. rewrite Ed in Ha0. symmetry in Ha0. apply nil_length_inv in Ha0.
      assert (ED : env_docs s = ∅) by (unfold env_docs; by rewrite Ed). rewrite ED in Ha1, Ha2, Ha3, Ha4, Ha5.
      apply postings_ok_empty in Ha1. apply ref_index_ok_empty in Ha2, Ha3, Ha4, Ha5.
      rewrite Ha2, dom_empty_L in Ha6. apply alias_ok_empty in Ha6.
      apply not_true_iff_false in Eidx. by apply Eidx, indexes_are_empty_true. }
    split; try done. unfold average_ok, validate_average in *. inv_result. reflect_bool.
    by destruct (env_recall_docs s).
Qed.

Lemma valid_is_validated envelope : Forall doc_typed (env_recall_docs (v3_state envelope)) →
  envelope_valid (v3_state envelope) → validate_v3_envelope envelope = Ok ().
Proof.
  intros Htyped. unfold validate_v3_envelope. set (s := v3_state envelope) in *. rewrite bind_Ok_inv.
  setoid_rewrite (fold_keyed ppe_cache_key _ _ validate_entry_exact).
  intros Hv. pose proof Hv as [HF Hnd HFd Hndd Hc Hp Hf Hs Ht Hk Ha Hav].
  eexists. split; [by split_and!|]. destruct (indexes_are_empty s) eqn:Eidx.
  + apply indexes_are_empty_true in Eidx as (Ed & _). unfold average_ok in Hav. rewrite Ed in *. simpl in Hc.
    symmetry in Hc. apply nil_length_inv in Hc. rewrite Hc, Hav. unfold keyed. simpl. by rewrite bool_decide_eq_true_2.
  + destruct (env_recall_docs s) as [|d docs] eqn:Ed.
    { destruct (envelope_valid_empty s Ed Hv) as [? _]. congruence. }
    rewrite <- Ed in *. assert (Hne : env_recall_docs s ≠ []) by congruence.
    destruct (keyed_docs_ok s) as [Hkeys Hok]; [done|done|].
    assert (fold_result (validate_doc (keyed ppe_cache_key (env_entries s))) ∅ (env_recall_docs s) = Ok (env_docs s)) as ->
      by (by apply docs_exact).
    rewrite result_bind_ok.
    replace (size (env_docs s)) with (length (env_recall_docs s)) by (symmetry; by apply size_keyed).
    rewrite (size_keyed ppe_cache_key) by done. rewrite Hc, Nat.eqb_refl.
    rewrite <- validate_postings_exact in Hp by done. rewrite <- validate_ref_index_exact in Hf, Hs, Ht, Hk by done.
    apply validate_alias_exact in Ha. rewrite Hp, Hf, Hs, Ht, Hk, Ha. simpl.
    unfold validate_average. unfold average_ok in Hav. destruct (env_recall_docs s) eqn:Ed'; [done|].
    destruct Hav as [[Hfin Hsg] Heps]. by rewrite Hfin, Hsg, Heps.
Qed.
End Envelope.

(** C12: the validation of a checkpoint accepts exactly the envelopes whose entries have
    distinct keys and readable JSON, whose documents are those entries' and whose
    indexes are exactly those of the documents; what the codec decodes has no negative
    term count. *)
Theorem checkpoint_validation_exact {ENV : PersistEnv} (envelope : PersistEnvelopeV3) :
  Forall doc_typed (env_recall_docs (v3_state envelope)) →
  validate_v3_envelope envelope = Ok () ↔ envelope_valid (v3_state envelope).
Proof. intros Htyped. split; [by apply validated_is_valid|by apply valid_is_validated]. Qed.

Lemma checkpoint_validation_exact_witness :
  let c := (run (@run_op MemoryExample.example_cache) (new_cache None) [OpPut "agent" (JString "a") None [] JNull 5]).1 in
  let envelope := @envelope_of MemoryExample.example_persist c 3600 10 in
  @validate_v3_envelope MemoryExample.example_persist envelope = Ok () ∧ @envelope_valid MemoryExample.example_persist (v3_state envelope).
Proof.
  intros c envelope. assert (Hv : @validate_v3_envelope MemoryExample.example_persist envelope = Ok ()) by (vm_compute; reflexivity).
  split; [exact Hv|]. apply (@checkpoint_validation_exact MemoryExample.example_persist envelope); [|exact Hv].
  apply (bool_decide_eq_true_1 _). vm_compute. reflexivity.
Defined.

