(* ===== verification/MemoryRestore.v ===== *)
(** * MemoryRestore: the checkpoint of a coherent cache restores it

    The projection of a cache onto its live entries keeps the indexes exact,
    so its envelope passes the validation and loading it gives a coherent
    cache with the live entries. *)

From S2P Require Export MemoryPersistSpec.

Lemma fmap_ext_elem {A B} (f g : A → B) (l : list A) : (∀ x, x ∈ l → f x = g x) → f <$> l = g <$> l.
Proof. intros H. apply list_fmap_ext. intros i x Hx. by apply H, list_elem_of_lookup_2 with i. Qed.

(** ** Projection of the indexes *)

Definition restrict {A} (m : gmap string A) (live : gset string) : gmap string A := filter (λ kd : string * A, kd.1 ∈ live) m.

Lemma restrict_Some {A} (m : gmap string A) live k x : restrict m live !! k = Some x ↔ m !! k = Some x ∧ k ∈ live.
Proof. unfold restrict. by rewrite map_lookup_filter_Some. Qed.

Section Project.
Implicit Types (docs : gmap string RecallDocument) (live : gset string).

Lemma holders_restrict docs live f v : holders (restrict docs live) f v = filter (λ k, k ∈ live) (holders docs f v).
Proof.
  apply set_eq. intros k. rewrite elem_of_filter, !elem_of_holders. setoid_rewrite restrict_Some. naive_solver.
Qed.

Lemma filter_ref_index_ok docs f idx live :
  ref_index_ok docs f idx → ref_index_ok (restrict docs live) f (filter_ref_index_for_live_keys idx live).
Proof.
  intros Hok v. unfold filter_ref_index_for_live_keys. rewrite lookup_omap, (Hok v), holders_restrict.
  unfold nonempty at 1. case_bool_decide as E; simpl; [|done]. rewrite E. unfold nonempty.
  by rewrite bool_decide_eq_true_2 by set_solver.
Qed.

Lemma filter_postings_ok docs p live :
  postings_ok docs p → postings_ok (restrict docs live) (filter_postings_for_live_keys p live).
Proof.
  intros Hok term. destruct (Hok term) as (Hne & Hnd & Hin). unfold filter_postings_for_live_keys. rewrite lookup_omap.
  set (l' := filter (λ p : string * Z, p.1 ∈ live) (default [] (p !! term))).
  assert (E : default [] (p !! term ≫= λ l, match filter (λ p : string * Z, p.1 ∈ live) l with [] => None | l => Some l end) = l').
  { unfold l'. destruct (p !! term) as [l|]; simpl; [|done]. by destruct (filter _ l). }
  rewrite E. split_and!.
  - intros l. destruct (p !! term) as [l0|]; simpl; [|done]. by destruct (filter _ l0); intros [= <-].
  - eapply sublist_NoDup; [exact Hnd|]. apply fmap_sublist, sublist_filter.
  - intros k n. unfold l'. rewrite list_elem_of_filter, Hin. simpl. setoid_rewrite restrict_Some. naive_solver.
Qed.

Lemma filter_alias_ok docs f idx A live :
  ref_index_ok docs f idx → alias_ok (dom idx) A →
  alias_ok (dom (filter_ref_index_for_live_keys idx live)) (filter_basename_alias_index_for_live_keys A live idx).
Proof.
  intros Hf Ha b. unfold filter_basename_alias_index_for_live_keys. rewrite lookup_omap, (Ha b).
  assert (E : alias_set (dom (filter_ref_index_for_live_keys idx live)) b = filter (λ p, file_is_live idx live p) (alias_set (dom idx) b)).
  { apply set_eq. intros p. unfold alias_set. rewrite !elem_of_filter, !elem_of_dom. unfold filter_ref_index_for_live_keys.
    rewrite lookup_omap. unfold file_is_live. destruct (idx !! p) as [ks|]; simpl; [|split; [by intros [_ [? ?]]|by intros []]].
    case_bool_decide as Hs; simpl; (split; [intros [Hb Hi]|intros (Hl & Hb & Hi)]); try done. }
  rewrite E. unfold nonempty at 1. case_bool_decide as Hs; simpl; [|done]. rewrite Hs. unfold nonempty.
  by rewrite bool_decide_eq_true_2 by set_solver.
Qed.
End Project.

(** ** The envelope of a coherent cache *)

Section Restore.
Context {ENV : PersistEnv}.
Implicit Types (c : PacketCache).

(** A value that its text parses back to. *)
Definition json_stable (v : Json) : Prop := json_parse (json_text v) = Some v.
Definition packet_stable (p : CachePacket) : Prop := json_stable (cp_body p) ∧ json_stable (cp_metadata p).
Definition entry_stable (e : PacketCacheEntry) : Prop := json_stable (pe_metadata e) ∧ Forall packet_stable (pe_packets e).

Lemma into_from_entry e : entry_stable e → into_entry (from_entry e) = e.
Proof.
  intros [Hm Hp]. destruct e as [k t h at_ ps m dr]. unfold into_entry, from_entry. simpl in *. unfold decode_json_value, encode_json_value.
  rewrite Hm. f_equal. rewrite <- list_fmap_compose. rewrite (fmap_ext_elem _ id), list_fmap_id; [done|].
  intros p Hin. rewrite Forall_forall in Hp. destruct (Hp p Hin) as [Hb Hmd]. destruct p. simpl in *. unfold into_cache_packet. simpl.
  unfold decode_json_value, encode_json_value. by rewrite Hb, Hmd.
Qed.
Lemma from_entry_ok e : is_blank (pe_cache_key e) = false → entry_stable e → entry_ok (from_entry e).
Proof.
  intros Hb [Hm Hp]. split_and!; [done|by eexists|]. simpl. apply Forall_fmap. eapply Forall_impl; [exact Hp|].
  intros p [Hb' Hmd]. split; by eexists.
Qed.

(** What a checkpoint needs of a cache beyond its indexes. *)
Record storable c : Prop := {
  so_coherent : coherent c;
  so_keys : map_Forall (λ k e, is_blank k = false ∧ entry_stable e) (entries_by_hash c);
  so_count : (Z.of_nat (size (entries_by_hash c)) <= usize_max)%Z
}.

Definition live_entries (ttl_secs now_unix : Z) (m : gmap string PacketCacheEntry) : gmap string PacketCacheEntry :=
  kept (expired_at ttl_secs now_unix) m.

Definition live_keys_of c ttl now : gset string := list_to_set (ppe_cache_key <$> collect_live_entries_at c ttl now).

Lemma live_entries_Some ttl now m k e : live_entries ttl now m !! k = Some e ↔ m !! k = Some e ∧ expired_at ttl now e = false.
Proof. unfold live_entries, kept. by rewrite map_lookup_filter_Some. Qed.

Lemma live_size ttl now m : (size (live_entries ttl now m) <= size m)%nat.
Proof.
  rewrite <- !size_dom. apply subseteq_size. intros k [e [He _]%live_entries_Some]%elem_of_dom. by apply elem_of_dom.
Qed.

Lemma collect_live_elem c ttl now e : coherent c →
  e ∈ filter (λ e, live_at ttl now e) (entries_of c) ↔ live_entries ttl now (entries_by_hash c) !! pe_cache_key e = Some e.
Proof.
  intros Hc. rewrite list_elem_of_filter, live_entries_Some. unfold entries_of. rewrite list_elem_of_fmap. unfold live_at.
  change (is_expired (pe_created_at_unix e) ttl now) with (expired_at ttl now e). rewrite negb_True. split.
  - intros [Hl ([k e'] & -> & He%elem_of_map_to_list)]. simpl in *. rewrite (co_keys c Hc k e' He). split; [done|].
    by apply not_true_iff_false; intros Ht; rewrite Ht in Hl.
  - intros [He Hl]. rewrite Hl. split; [by intros ?|]. exists (pe_cache_key e, e). by rewrite elem_of_map_to_list.
Qed.

Lemma live_keys_elem c ttl now k : coherent c → k ∈ live_keys_of c ttl now ↔ k ∈ dom (live_entries ttl now (entries_by_hash c)).
Proof.
  intros Hc. unfold live_keys_of, collect_live_entries_at. rewrite elem_of_list_to_set, elem_of_dom, <- list_fmap_compose, list_elem_of_fmap.
  split.
  - intros (e & -> & He%collect_live_elem); [|done]. by exists e.
  - intros [e He]. pose proof He as [He' _]%live_entries_Some. pose proof (co_keys c Hc k e He') as <-. exists e.
    split; [done|]. by apply collect_live_elem.
Qed.

Lemma live_keys_NoDup c ttl now : coherent c → NoDup (ppe_cache_key <$> collect_live_entries_at c ttl now).
Proof.
  intros Hc. unfold collect_live_entries_at. rewrite <- list_fmap_compose.
  eapply sublist_NoDup; [|apply fmap_sublist, sublist_filter]. unfold entries_of. rewrite <- list_fmap_compose.
  rewrite (fmap_ext_elem _ fst); [apply NoDup_fst_map_to_list|]. intros [k e] He%elem_of_map_to_list. simpl. by apply (co_keys c Hc).
Qed.

Lemma restricted_docs c ttl now : coherent c →
  restrict (recall_docs c) (live_keys_of c ttl now) =
    (λ e, build_recall_document e (workspace_root c)) <$> live_entries ttl now (entries_by_hash c).
Proof.
  intros Hc. apply map_eq. intros k. apply option_eq. intros d.
  rewrite restrict_Some, live_keys_elem, elem_of_dom, coherent_doc_key, lookup_fmap by done. rewrite !fmap_Some.
  split.
  - intros [(e & He & ->) [e' [He' Hl]%live_entries_Some]]. exists e. split; [|done]. apply live_entries_Some. split; [done|]. congruence.
  - intros (e & [He Hl]%live_entries_Some & ->). split; [by eauto|]. exists e. by apply live_entries_Some.
Qed.

Lemma keyed_values (docs : gmap string RecallDocument) : keys_ok docs →
  keyed rd_cache_key (map_to_list docs).*2 = docs ∧ NoDup (rd_cache_key <$> (map_to_list docs).*2).
Proof.
  intros Hk. assert (Hnd : NoDup (rd_cache_key <$> (map_to_list docs).*2)).
  { rewrite <- list_fmap_compose. rewrite (fmap_ext_elem _ fst); [apply NoDup_fst_map_to_list|].
    intros [k d] Hd%elem_of_map_to_list. simpl. by apply (Hk k). }
  split; [|done]. apply map_eq. intros k. apply option_eq. intros d. rewrite keyed_Some, elem_of_docs by done.
  split; [by intros [? <-]|]. intros Hd. by rewrite (Hk k d Hd).
Qed.

(** The documents of the envelope. *)
Definition envelope_docs c ttl now : gmap string RecallDocument := restrict (recall_docs c) (live_keys_of c ttl now).

Lemma envelope_docs_spec c ttl now : storable c →
  let docs := envelope_docs c ttl now in
  keys_ok docs ∧ map_Forall (λ _ d, doc_ok d) docs ∧ size docs = size (live_entries ttl now (entries_by_hash c)) ∧
  (0 <= map_sum rd_doc_length docs <= usize_max)%Z ∧ map_Forall (λ _ d, doc_fits d) docs.
Proof.
  intros [Hc Hk Hn] docs. pose proof (co_fits c Hc) as Htot. rewrite <- coherent_total in Htot by done. destruct (co_index c Hc) as (_ & _ & _ & _ & _ & _ & Hsum & Hok).
  assert (Hdocs : docs = (λ e, build_recall_document e (workspace_root c)) <$> live_entries ttl now (entries_by_hash c))
    by (by apply restricted_docs).
  assert (Hokd : map_Forall (λ _ d, doc_ok d) docs) by (intros k d [Hd _]%restrict_Some; exact (Hok k d Hd)).
  assert (Hlen : (map_sum rd_doc_length docs <= usize_max)%Z).
  { etrans; [apply map_sum_filter_le|by rewrite <- Hsum]. intros k d Hd. apply doc_ok_length. exact (Hok k d Hd). }
  split_and!; [|done|by rewrite Hdocs, map_size_fmap|by apply total_nonneg|done|].
  - intros k d Hd. rewrite Hdocs, lookup_fmap in Hd. apply fmap_Some in Hd as (e & [He _]%live_entries_Some & ->).
    rewrite build_key. by apply (co_keys c Hc).
  - intros k d Hd. split; [exact (Hokd k d Hd)|]. etrans; [|exact Hlen].
    apply sumZ_elem_le; [apply Forall_fmap, Forall_fmap, Forall_forall|].
    + intros [k' d'] Hd'%elem_of_map_to_list. apply doc_ok_length. exact (Hokd k' d' Hd').
    + apply list_elem_of_fmap. exists d. split; [done|]. apply list_elem_of_fmap. exists (k, d). by rewrite elem_of_map_to_list.
Qed.

Lemma length_live c ttl now : coherent c →
  length (collect_live_entries_at c ttl now) = size (live_entries ttl now (entries_by_hash c)).
Proof.
  intros Hc. rewrite <- (length_fmap ppe_cache_key), <- (size_list_to_set (C := gset string)) by (by apply live_keys_NoDup).
  rewrite <- size_dom. f_equal. apply set_eq. intros k. by apply live_keys_elem.
Qed.

Lemma average_finite total n : (0 <= total <= usize_max)%Z → (0 < n <= usize_max)%Z → finite_nonneg (average_length total n).
Proof. intros Ht Hn. apply f64_div_finite; unfold usize_max, u64_max in *; lia. Qed.

Lemma envelope_average docs : (0 <= map_sum rd_doc_length docs <= usize_max)%Z → map_Forall (λ _ d, doc_ok d) docs →
  wrapping_sum usize_max (rd_doc_length <$> (map_to_list docs).*2) = map_sum rd_doc_length docs.
Proof.
  intros Hsum Hok. apply wrapping_sum_exact; [|apply Hsum]. apply Forall_fmap, Forall_fmap, Forall_forall.
  intros [k d] Hd%elem_of_map_to_list. apply doc_ok_length. exact (Hok k d Hd).
Qed.

Lemma envelope_of_valid c ttl now : storable c → envelope_valid (v3_state (envelope_of c ttl now)).
Proof.
  intros Hs. pose proof Hs as [Hc Hk Hn]. destruct (envelope_docs_spec c ttl now Hs) as (Hkeys & Hok & Hsize & Hsum & Hfits).
  set (docs := envelope_docs c ttl now) in *. destruct (keyed_values docs Hkeys) as [Hkd Hndd].
  destruct (co_index c Hc) as (Hp & Hf & Ha & Hsy & Ht & Hta & _ & _).
  assert (ED : env_docs (v3_state (envelope_of c ttl now)) = docs) by (exact Hkd).
  split.
  - apply Forall_fmap, Forall_forall. intros e He%collect_live_elem; [|done]. apply live_entries_Some in He as [He _].
    destruct (Hk _ _ He). by apply from_entry_ok.
  - by apply live_keys_NoDup.
  - apply Forall_forall. intros d Hd. change (d ∈ (map_to_list docs).*2) in Hd. apply elem_of_docs in Hd; [|done].
    split; [|exact (Hfits _ _ Hd)]. pose proof Hd as Hd'. unfold docs, envelope_docs in Hd'.
    rewrite restricted_docs, lookup_fmap in Hd' by done. apply fmap_Some in Hd' as (e & He & Ed).
    exists (from_entry e). split; [|by rewrite Ed, build_target, build_created].
    apply (keyed_Some _ _ _ _ (live_keys_NoDup c ttl now Hc)). pose proof He as [He' _]%live_entries_Some.
    pose proof (co_keys c Hc _ _ He') as Hke. split; [|done]. apply list_elem_of_fmap. exists e. split; [done|].
    apply collect_live_elem; [done|]. by rewrite Hke.
  - done.
  - change (length (map_to_list docs).*2 = length (collect_live_entries_at c ttl now)).
    by rewrite length_fmap, length_map_to_list, length_live.
  - rewrite ED. by apply filter_postings_ok.
  - rewrite ED. by apply filter_ref_index_ok.
  - rewrite ED. by apply filter_ref_index_ok.
  - rewrite ED. by apply filter_ref_index_ok.
  - rewrite ED. by apply filter_ref_index_ok.
  - by apply (filter_alias_ok (recall_docs c)  rd_paths).
  - unfold average_ok. change (env_recall_docs (v3_state (envelope_of c ttl now))) with (map_to_list docs).*2.
    change (env_recall_avg_doc_length (v3_state (envelope_of c ttl now))) with (average_recall_doc_length (map_to_list docs).*2).
    destruct (map_to_list docs).*2 as [|d l] eqn:El; [done|].
    assert (Hfin : finite_nonneg (average_recall_doc_length (d :: l))).
    { unfold average_recall_doc_length. rewrite <- El, envelope_average by done. apply average_finite; [lia|].
      rewrite length_fmap, length_map_to_list. apply (f_equal length) in El. rewrite length_fmap, length_map_to_list in El.
      assert (size docs <= size (entries_by_hash c))%nat; [rewrite Hsize; apply live_size|]. simpl in El. lia. }
    split; [done|]. rewrite f64_sub_diag by apply Hfin. by vm_compute.
Qed.

Lemma insert_loaded_fold l m :
  foldl insert_loaded m l = foldl (λ m e, <[pe_cache_key e := e]> m) m (filter (λ e, is_blank (pe_cache_key e) = false) (into_entry <$> l)).
Proof.
  revert m. induction l as [|e l IH]; intros m; [done|]. rewrite fmap_cons, filter_cons. cbn [foldl]. unfold insert_loaded at 2.
  destruct (is_blank (pe_cache_key (into_entry e))) eqn:E; rewrite IH; [rewrite decide_False by congruence|rewrite decide_True by done]; done.
Qed.

Lemma loaded_entries_spec c ttl now : storable c →
  loaded_entries (collect_live_entries_at c ttl now) = live_entries ttl now (entries_by_hash c).
Proof.
  intros [Hc Hk _]. unfold loaded_entries. rewrite insert_loaded_fold. unfold collect_live_entries_at. rewrite <- list_fmap_compose.
  set (l := filter (λ e, live_at ttl now e) (entries_of c)).
  assert (Hl : ∀ e, e ∈ l ↔ live_entries ttl now (entries_by_hash c) !! pe_cache_key e = Some e) by (intros e; by apply collect_live_elem).
  assert (E : into_entry ∘ from_entry <$> l = l).
  { rewrite (fmap_ext_elem _ id), list_fmap_id; [done|]. intros e [He _]%Hl%live_entries_Some. simpl. apply into_from_entry.
    by apply (Hk _ _ He). }
  rewrite E. assert (filter (λ e, is_blank (pe_cache_key e) = false) l = l) as ->.
  { apply filter_all, Forall_forall. intros e [He _]%Hl%live_entries_Some. by apply (Hk _ _ He). }
  change (keyed pe_cache_key l = live_entries ttl now (entries_by_hash c)).
  assert (Hnd : NoDup (pe_cache_key <$> l)).
  { pose proof (live_keys_NoDup c ttl now Hc) as H. unfold collect_live_entries_at in H. by rewrite <- list_fmap_compose in H. }
  apply map_eq. intros k. apply option_eq. intros e. rewrite keyed_Some, Hl by done. split; [by intros [? <-]|].
  intros He. pose proof He as [He' _]%live_entries_Some. by rewrite (co_keys c Hc _ _ He').
Qed.

(** Loading the checkpoint gives the live entries and their indexes. *)
Lemma load_envelope_of c c0 ttl now : storable c → workspace_root c0 = workspace_root c →
  let c' := load_v3_envelope c0 (envelope_of c ttl now) in
  coherent c' ∧ entries_by_hash c' = live_entries ttl now (entries_by_hash c) ∧ persisted_sequence c' = persisted_sequence c ∧
  workspace_root c' = workspace_root c0 ∧ eviction_counters c' = eviction_counters c0.
Proof.
  intros Hs Hw c'. pose proof Hs as [Hc Hk Hn]. destruct (envelope_docs_spec c ttl now Hs) as (Hkeys & Hok & Hsize & Hsum & Hfits).
  set (docs := envelope_docs c ttl now) in *. destruct (keyed_values docs Hkeys) as [Hkd Hndd].
  destruct (envelope_of_valid c ttl now Hs) as [_ _ _ _ _ Hp Hf Hsy Ht Hta Ha _].
  assert (ED : env_docs (v3_state (envelope_of c ttl now)) = docs) by (exact Hkd). rewrite ED in *.
  assert (Hdocs : recall_docs c' = docs) by exact Hkd.
  assert (Hent : entries_by_hash c' = live_entries ttl now (entries_by_hash c)) by (by apply loaded_entries_spec).
  assert (Htotal : recall_total_doc_length c' = map_sum rd_doc_length docs).
  { change (recall_total_doc_length c') with (wrapping_sum usize_max (rd_doc_length <$> (map_to_list (recall_docs c')).*2)).
    rewrite Hdocs. by apply envelope_average. }
  split_and!; [|done..].
  split.
    + rewrite Hdocs, Hent. unfold docs, envelope_docs. rewrite restricted_docs by done. by rewrite <- Hw.
    + rewrite Hent. intros k e [He _]%live_entries_Some. by apply (co_keys c Hc).
    + unfold indexed. rewrite Hdocs. split_and!; done.
    + unfold average_of. rewrite Hdocs, Htotal.
      change (recall_avg_doc_length c') with (average_recall_doc_length (map_to_list docs).*2).
      destruct (decide (docs = ∅)) as [Ed|Ed]; [rewrite Ed, map_to_list_empty, bool_decide_eq_true_2; done|].
      rewrite bool_decide_eq_false_2 by done. rewrite <- map_to_list_empty_iff in Ed.
      destruct (map_to_list docs).*2 as [|d l] eqn:El; [by apply fmap_nil_inv in El|]. unfold average_recall_doc_length.
      rewrite <- El, envelope_average by done. by rewrite length_fmap, length_map_to_list.
    + change (workspace_root c') with (workspace_root c0). rewrite Hent, Hw. etrans; [apply weight_filter|apply co_fits, Hc].
Qed.
End Restore.
