(* ===== verification/MemoryWalSpec.v ===== *)
(** * MemoryWalSpec: replaying the log of the packet cache

    A log is the frames of records with consecutive sequences followed by a
    part of a frame.  Replaying it applies exactly the whole records above
    the sequence of the checkpoint and reports where they end; on the
    entries, applying a delta is an update of the map. *)

From S2P Require Export MemoryRestore.
From S2P Require MemoryExample.

(** ** Deltas on the entries *)

Section Deltas.
Context {ENV : PersistEnv}.
Implicit Types (c : PacketCache) (m : gmap string PacketCacheEntry) (d : PersistDelta).

Definition apply_spec m d : gmap string PacketCacheEntry :=
  match d with
  | Upsert e => if is_blank (ppe_cache_key e) then m else <[ppe_cache_key e := into_entry e]> m
  | Remove k => delete k m
  end.

(** The maps that the deltas go through fit the corpus counters. *)
Fixpoint fits_through (root : option string) m (l : list PersistDelta) : Prop :=
  match l with
  | [] => True
  | d :: l => (weight root (apply_spec m d) <= usize_max)%Z ∧ fits_through root (apply_spec m d) l
  end.

Lemma apply_upsert_insert c e :
  is_blank (ppe_cache_key e) = false →
  apply_delta c (Upsert e) = set_latest (insert_entry c (into_entry e)) (latest_request_index c).
Proof.
  intros Hb. unfold apply_delta. change (pe_cache_key (into_entry e)) with (ppe_cache_key e). rewrite Hb.
  unfold insert_entry, index_entry. change (pe_cache_key (into_entry e)) with (ppe_cache_key e).
  assert (Hl : latest_request_index (forget_index c (ppe_cache_key e)) = latest_request_index c).
  { unfold forget_index. destruct (entries_by_hash c !! _); [|done]. apply remove_index_store. }
  rewrite <- Hl. set (c1 := forget_index c (ppe_cache_key e)). by destruct c1.
Qed.

Lemma set_latest_spec c l c0 m : coherent c →
  entries_by_hash c = m → workspace_root c = workspace_root c0 → eviction_counters c = eviction_counters c0 →
  coherent (set_latest c l) ∧ entries_by_hash (set_latest c l) = m ∧ workspace_root (set_latest c l) = workspace_root c0 ∧
  eviction_counters (set_latest c l) = eviction_counters c0.
Proof. intros Hc He Hw Hv. split_and!; [by apply coherent_latest|exact He|exact Hw|exact Hv]. Qed.

Lemma apply_delta_spec c d : coherent c → (weight (workspace_root c) (apply_spec (entries_by_hash c) d) <= usize_max)%Z →
  let c' := apply_delta c d in
  coherent c' ∧ entries_by_hash c' = apply_spec (entries_by_hash c) d ∧ workspace_root c' = workspace_root c ∧
  eviction_counters c' = eviction_counters c.
Proof.
  intros Hc Hfit c'. unfold c'. destruct d as [e|k].
  - destruct (is_blank (ppe_cache_key e)) eqn:E; unfold apply_spec in *; rewrite E in *.
    + unfold apply_delta. change (pe_cache_key (into_entry e)) with (ppe_cache_key e). by rewrite E.
    + rewrite apply_upsert_insert by done.
      destruct (insert_entry_spec c (into_entry e) Hc Hfit) as (Hc' & He & _ & Hw & Hv & _). by apply set_latest_spec.
  - destruct (remove_entry_store c k) as (He & Hw & Hv & _). unfold apply_delta.
    split; [by apply remove_entry_coherent|]. by split_and!.
Qed.

Lemma apply_deltas_spec c l : coherent c → fits_through (workspace_root c) (entries_by_hash c) l →
  let c' := foldl apply_delta c l in
  coherent c' ∧ entries_by_hash c' = foldl apply_spec (entries_by_hash c) l ∧ workspace_root c' = workspace_root c ∧
  eviction_counters c' = eviction_counters c.
Proof.
  revert c. induction l as [|d l IH]; intros c Hc Hfit; [done|]. destruct Hfit as [Hd Hfit]. cbn [foldl].
  destruct (apply_delta_spec c d Hc Hd) as (Hc' & He & Hw & Hv). rewrite <- He, <- Hw in Hfit.
  destruct (IH (apply_delta c d) Hc' Hfit) as (Hc'' & He' & Hw' & Hv'). rewrite He in He'. split_and!; [done|done|congruence..].
Qed.

Lemma apply_persist_deltas_spec c s l : coherent c → fits_through (workspace_root c) (entries_by_hash c) l →
  let c' := apply_persist_deltas c s l in
  coherent c' ∧ entries_by_hash c' = foldl apply_spec (entries_by_hash c) l ∧ workspace_root c' = workspace_root c ∧
  eviction_counters c' = eviction_counters c ∧ persisted_sequence c' = s ∧ (canonical c' → latest_ok c').
Proof.
  intros Hc Hfit. destruct (apply_deltas_spec c l Hc Hfit) as (Hc' & He & Hw & Hv). unfold apply_persist_deltas.
  split_and!; [by apply coherent_latest, coherent_sequence|done..|].
  intros Hcan. apply rebuild_latest_ok; [apply (co_keys _ Hc')|done].
Qed.
End Deltas.

(** ** Frames *)

Section Frames.
Context {ENV : PersistEnv}.
Hypothesis checksum_length : ∀ l, length (checksum l) = 32.

(** A record the log can hold. *)
Definition record_ok (r : PersistWalRecord) : Prop :=
  wr_version r = PERSIST_WAL_VERSION ∧ record_read (record_bytes r) = Some r ∧
  (Z.of_nat (length (record_bytes r)) <= MAX_PERSIST_WAL_RECORD_BYTES)%Z.

Definition record_frame (r : PersistWalRecord) : list Z := wal_frame (record_bytes r).
Definition frames (rs : list PersistWalRecord) : list Z := rs ≫= record_frame.

Lemma length_wal_frame p : length (wal_frame p) = 48 + length p.
Proof using checksum_length. unfold wal_frame. rewrite !length_app, length_to_le_bytes, checksum_length. simpl. lia. Qed.

(** The fields of a frame behind its magic. *)
Lemma frame_fields magic p rest : length magic = 8 → (Z.of_nat (length p) <= u64_max)%Z →
  let raw := (magic ++ to_le_bytes 8 (Z.of_nat (length p)) ++ checksum p ++ p) ++ rest in
  take 8 raw = magic ∧ from_le_bytes (slice 8 16 raw) = Z.of_nat (length p) ∧ slice 16 48 raw = checksum p ∧
  slice 48 (48 + length p) raw = p ∧ drop (48 + length p) raw = rest.
Proof using checksum_length.
  intros Hm Hlen raw. unfold raw, slice. rewrite <- !app_assoc.
  set (len := to_le_bytes 8 (Z.of_nat (length p))). assert (Hl : length len = 8) by apply length_to_le_bytes.
  assert (E8 : drop 8 (magic ++ len ++ checksum p ++ p ++ rest) = len ++ checksum p ++ p ++ rest) by (by apply drop_app_length').
  assert (E16 : drop 16 (magic ++ len ++ checksum p ++ p ++ rest) = checksum p ++ p ++ rest).
  { change 16 with (8 + 8). rewrite <- drop_drop, E8. by apply drop_app_length'. }
  assert (E48 : drop 48 (magic ++ len ++ checksum p ++ p ++ rest) = p ++ rest).
  { change 48 with (16 + 32). rewrite <- drop_drop, E16. apply drop_app_length'. by rewrite checksum_length. }
  split_and!.
  - by apply take_app_length'.
  - rewrite E8. change (16 - 8) with 8. rewrite take_app_length' by done. apply from_to_le_bytes.
    unfold u64_max in Hlen. simpl. lia.
  - rewrite E16. change (48 - 16) with 32. by rewrite take_app_length' by (by rewrite checksum_length).
  - rewrite E48. replace (48 + length p - 48) with (length p) by lia. by apply take_app_length'.
  - rewrite <- drop_drop, E48. by apply drop_app_length'.
Qed.
Lemma record_fits (p : list Z) : (Z.of_nat (length p) <= MAX_PERSIST_WAL_RECORD_BYTES)%Z → (Z.of_nat (length p) <= u64_max)%Z.
Proof using . unfold MAX_PERSIST_WAL_RECORD_BYTES, u64_max. lia. Qed.

Lemma decode_whole_frame r rest : record_ok r → decode_frame (record_frame r ++ rest) = Some (r, rest).
Proof using checksum_length.
  intros (Hv & Hr & Hlen). unfold record_frame. destruct (frame_fields PERSIST_WAL_MAGIC (record_bytes r) rest eq_refl (record_fits _ Hlen)) as (E1 & E2 & E3 & E4 & E5).
  unfold decode_frame, PERSIST_WAL_HEADER_LEN, wal_frame. rewrite E1, E2, E3, Nat2Z.id, E4, E5.
  fold (wal_frame (record_bytes r)).
  rewrite !bool_decide_eq_true_2 by done. rewrite length_app, length_wal_frame.
  rewrite (proj2 (Nat.ltb_ge _ _)) by lia. rewrite (proj2 (Z.ltb_ge _ _)) by lia. rewrite (proj2 (Z.ltb_ge _ _)) by lia.
  cbn [negb]. by rewrite Hr, Hv.
Qed.

(** A cut frame is not decoded: its length says so. *)
Lemma decode_cut_frame r n : record_ok r → n < length (record_frame r) → decode_frame (take n (record_frame r)) = None.
Proof using checksum_length.
  intros (Hv & Hr & Hlen) Hn. unfold record_frame in *. rewrite length_wal_frame in Hn.
  assert (Hl : length (take n (wal_frame (record_bytes r))) = n) by (rewrite length_take, length_wal_frame; lia).
  unfold decode_frame, PERSIST_WAL_HEADER_LEN. rewrite Hl. destruct (n <? 48)%nat eqn:E; [done|]. apply Nat.ltb_ge in E.
  destruct (frame_fields PERSIST_WAL_MAGIC (record_bytes r) [] eq_refl (record_fits _ Hlen)) as (E1 & E2 & _). rewrite app_nil_r in E1, E2. fold (wal_frame (record_bytes r)) in E1, E2.
  assert (E8 : take 8 (take n (wal_frame (record_bytes r))) = PERSIST_WAL_MAGIC) by (by rewrite take_take, Nat.min_l by lia).
  assert (Ele : slice 8 16 (take n (wal_frame (record_bytes r))) = slice 8 16 (wal_frame (record_bytes r))).
  { unfold slice. rewrite !take_drop_commute, take_take, Nat.min_l by lia. done. }
  rewrite E8, bool_decide_eq_true_2, Ele by done. rewrite E2. cbn [negb]. rewrite (proj2 (Z.ltb_ge _ _)) by lia.
  by rewrite (proj2 (Z.ltb_lt _ _)) by lia.
Qed.

(** A decoded frame is at least a header long. *)
Lemma decode_frame_rest raw r rest : decode_frame raw = Some (r, rest) → length rest + 48 <= length raw ∧ rest = drop (length raw - length rest) raw.
Proof using .
  unfold decode_frame, PERSIST_WAL_HEADER_LEN. intros H. repeat case_match; try done. injection H as -> <-. reflect_bool.
  rewrite length_drop. split; [|f_equal]; lia.
Qed.

(** ** Replay *)

(** Records with the sequences [s + 1], [s + 2], and so on. *)
Fixpoint wal_chain (s : Z) (rs : list PersistWalRecord) : Prop :=
  match rs with [] => True | r :: rs => wr_sequence r = (s + 1)%Z ∧ wal_chain (s + 1)%Z rs end.

(** The effect of the records above [h]. *)
Definition replay_record (h : Z) (c : PacketCache) (r : PersistWalRecord) : PacketCache :=
  if (h <? wr_sequence r)%Z then apply_persist_deltas c (wr_sequence r) (wr_deltas r) else c.

Lemma wal_chain_app s rs1 rs2 : wal_chain s (rs1 ++ rs2) ↔ wal_chain s rs1 ∧ wal_chain (s + Z.of_nat (length rs1)) rs2.
Proof using .
  revert s. induction rs1 as [|r rs1 IH]; intros s; simpl; [rewrite Z.add_0_r; tauto|]. rewrite IH.
  replace (s + 1 + Z.of_nat (length rs1))%Z with (s + Z.pos (Pos.of_succ_nat (length rs1)))%Z by lia. tauto.
Qed.
Lemma wal_chain_bound s rs r : wal_chain s rs → r ∈ rs → (s < wr_sequence r <= s + Z.of_nat (length rs))%Z.
Proof using .
  revert s. induction rs as [|r' rs IH]; intros s; simpl; [by intros _ ?%elem_of_nil|].
  intros [Hr Hc] [->|Hin]%elem_of_cons; [lia|]. specialize (IH _ Hc Hin). lia.
Qed.

Lemma replay_fuel fuel fuel' off raw c h : length raw <= fuel → length raw <= fuel' →
  replay_loop fuel off raw c h = replay_loop fuel' off raw c h.
Proof using .
  revert fuel' off raw c h. induction fuel as [|fuel IH]; intros fuel' off raw c h Hf Hf'.
  - destruct raw; [|simpl in Hf; lia]. by destruct fuel'.
  - destruct raw as [|b raw]; [by destruct fuel'|]. destruct fuel' as [|fuel']; [simpl in Hf'; lia|]. cbn [replay_loop].
    destruct (decode_frame (b :: raw)) as [[r rest]|] eqn:E; [|done]. apply decode_frame_rest in E as [Hlen _].
    simpl in *. repeat case_match; try done; apply IH; lia.
Qed.

(** The torn end of a log: nothing, or bytes that are not a frame. *)
Definition torn (tail : list Z) : Prop := tail = [] ∨ decode_frame tail = None.

Lemma replay_frames rs tail fuel off c h s :
  Forall record_ok rs → wal_chain s rs → (s <= h)%Z → (s + Z.of_nat (length rs) <= u64_max)%Z → torn tail →
  length (frames rs ++ tail) <= fuel →
  replay_loop fuel off (frames rs ++ tail) c h =
    (foldl (replay_record h) c rs,
     mkWalReplay (Z.max h (s + Z.of_nat (length rs))) (off + length (frames rs)) (negb (bool_decide (tail = []))) false).
Proof using checksum_length.
  revert fuel off c h s. induction rs as [|r rs IH]; intros fuel off c h s Hok Hch Hsh Hmax Htorn Hfuel.
  - simpl in *. rewrite Nat.add_0_r, Z.add_0_r, Z.max_l by lia. destruct tail as [|b tail]; [by destruct fuel|].
    destruct fuel as [|fuel]; [simpl in Hfuel; lia|]. cbn [replay_loop]. by destruct Htorn as [?| ->].
  - apply Forall_cons in Hok as [Hr Hok]. destruct Hch as [Hseq Hch]. unfold frames in *. rewrite bind_cons in *. fold (frames rs) in *.
    rewrite <- app_assoc in *. assert (Hlen : 48 <= length (record_frame r)) by (unfold record_frame; rewrite length_wal_frame; lia).
    rewrite length_app in Hfuel. destruct fuel as [|fuel]; [lia|].
    destruct (record_frame r ++ frames rs ++ tail) as [|b raw] eqn:Eraw;
      [apply (f_equal length) in Eraw; rewrite length_app in Eraw; simpl in Eraw; lia|].
    cbn [replay_loop]. rewrite <- Eraw, decode_whole_frame by done. cbn [foldl]. unfold replay_record at 2.
    replace (off + (length (record_frame r ++ frames rs ++ tail) - length (frames rs ++ tail))) with (off + length (record_frame r))
      by (rewrite !length_app; lia).
    cbn [length] in Hmax. destruct (h <? wr_sequence r)%Z eqn:E; reflect_bool.
    + assert (h = s) as -> by lia. unfold saturating_add. rewrite Z.min_r, (proj2 (Z.eqb_eq _ _)) by lia.
      rewrite (IH fuel _ _ (wr_sequence r) (s + 1)%Z); [|done|done|lia|lia|done|lia].
      f_equal; [|f_equal; [cbn [length]; lia|rewrite length_app; lia]]. apply foldl_ext_elem. intros c' r' Hr'. unfold replay_record.
      pose proof (wal_chain_bound _ _ _ Hch Hr'). rewrite !(proj2 (Z.ltb_lt _ _)) by lia. done.
    + rewrite (IH fuel _ _ h (s + 1)%Z); [|done|done|lia|lia|done|lia].
      f_equal. f_equal; [cbn [length]; lia|rewrite length_app; lia].
Qed.

(** A cut log is whole frames and a part of the next. *)
Lemma frames_cut rs n : n ≤ length (frames rs) → ∃ k, k ≤ length rs ∧ length (frames (take k rs)) ≤ n ∧
  (n = length (frames (take k rs)) ∨ ∃ r, rs !! k = Some r ∧ n < length (frames (take k rs)) + length (record_frame r) ∧
    take n (frames rs) = frames (take k rs) ++ take (n - length (frames (take k rs))) (record_frame r)).
Proof using .
  revert n. induction rs as [|r rs IH]; intros n Hn; [exists 0; simpl in *; split_and!; [done|lia|left; lia]|].
  unfold frames in Hn. rewrite bind_cons, length_app in Hn. fold (frames rs) in Hn.
  destruct (decide (length (record_frame r) ≤ n)) as [Hle|Hlt].
  - destruct (IH (n - length (record_frame r)) ltac:(lia)) as (k & Hk & Hlen & Hcut). exists (S k). cbn [take length]. unfold frames.
    rewrite !bind_cons, !length_app. fold (frames rs) (frames (take k rs)). split; [lia|]. split; [lia|]. destruct Hcut as [Hcut|(r' & Hr' & Hlt & Hcut)]; [left; lia|right].
    exists r'. split; [done|]. split; [lia|]. rewrite take_app, firstn_all2, Hcut by lia. rewrite <- app_assoc. do 3 f_equal. lia.
  - exists 0. cbn [take]. split; [lia|]. split; [simpl; lia|]. right. exists r. split; [done|]. change (length (frames [])) with 0. split; [lia|].
    unfold frames at 1. rewrite bind_cons. change (frames []) with (@nil Z). cbn [app length]. rewrite Nat.sub_0_r. by rewrite take_app_le by lia.
Qed.
End Frames.

(** a crash at any byte of the log loses nothing but the record it cuts. The replay
    of a cut log applies exactly the whole records, those above the sequence of the
    checkpoint, reports where they end, and reports corruption exactly when a record is
    cut. *)
Theorem cut_log_replays {ENV : PersistEnv} (c : PacketCache) (rs : list PersistWalRecord) (s : Z) (n : nat) :
  (∀ l, length (checksum l) = 32) → Forall record_ok rs → wal_chain s rs → (s <= persisted_sequence c)%Z →
  (s + Z.of_nat (length rs) <= u64_max)%Z → n ≤ length (frames rs) →
  ∃ k, k ≤ length rs ∧ length (frames (take k rs)) ≤ n ∧
    (∀ r, rs !! k = Some r → n < length (frames (take k rs)) + length (record_frame r)) ∧
    replay_bytes c (take n (frames rs)) =
      (foldl (replay_record (persisted_sequence c)) c (take k rs),
       mkWalReplay (Z.max (persisted_sequence c) (s + Z.of_nat k)) (length (frames (take k rs)))
         (negb (n =? length (frames (take k rs)))) false).
Proof.
  intros Hck Hok Hch Hs Hmax Hn. destruct (frames_cut rs n Hn) as (k & Hk & Hle & Hcut). exists k. split; [done|]. split; [done|].
  assert (Hch' : wal_chain s (take k rs)) by (rewrite <- (take_drop k rs) in Hch; by apply wal_chain_app in Hch as [? _]).
  assert (Hlk : length (take k rs) = k) by (rewrite length_take; lia).
  assert (Hfr : ∀ r, 0 < length (record_frame r)) by (intros r; unfold record_frame; rewrite (length_wal_frame Hck); lia).
  assert (Hokk : Forall record_ok (take k rs)) by (by apply Forall_take). unfold replay_bytes.
  destruct Hcut as [Hcut|(r & Hr & Hlt & Hcut)].
  - assert (E : take n (frames rs) = frames (take k rs) ++ []).
    { rewrite app_nil_r, Hcut. rewrite <- (take_drop k rs) at 2. unfold frames. rewrite bind_app. by rewrite take_app_length. }
    split; [intros r _; specialize (Hfr r); lia|]. rewrite E.
    rewrite (replay_frames Hck (take k rs) [] _ 0 c _ s Hokk Hch' Hs) by (rewrite ?Hlk; try lia; by left).
    rewrite Hlk, Hcut, Nat.eqb_refl. done.
  - split; [intros r' Hr'; rewrite Hr in Hr'; injection Hr' as <-; lia|]. rewrite Hcut. set (tail := take _ (record_frame r)).
    assert (Hrok : record_ok r) by (rewrite Forall_forall in Hok; apply Hok; by eapply list_elem_of_lookup_2).
    assert (Htail : torn tail) by (right; apply (decode_cut_frame Hck); [done|lia]).
    rewrite (replay_frames Hck (take k rs) tail _ 0 c _ s Hokk Hch' Hs) by (rewrite ?Hlk; try lia; done).
    rewrite Hlk. do 3 f_equal. apply eq_iff_eq_true. rewrite bool_decide_eq_true, Nat.eqb_eq. unfold tail. split.
    + intros Hnil. apply (f_equal length) in Hnil. rewrite length_take in Hnil. simpl in Hnil. specialize (Hfr r). lia.
    + intros ->. by rewrite Nat.sub_diag.
Qed.

Lemma cut_log_replays_witness :
  let records := [mkWalRecord PERSIST_WAL_VERSION 1 [Remove "a"]; mkWalRecord PERSIST_WAL_VERSION 2 [Remove "b"]] in
  let raw := @frames MemoryExample.example_persist records in
  let replay := (@replay_bytes MemoryExample.example_persist (new_cache None) (take (length raw - 1) raw)).2 in
  highest_sequence replay = 1%Z ∧ recovered_corruption replay = true.
Proof.
  intros records raw replay.
  destruct (@cut_log_replays MemoryExample.example_persist (new_cache None) records 0 (length raw - 1)) as (k & Hk & Hle & Hcut & Hr).
  - reflexivity.
  - repeat constructor; vm_compute; discriminate || reflexivity.
  - repeat constructor.
  - reflexivity.
  - vm_compute. discriminate.
  - fold raw. lia.
  - fold raw in Hle, Hcut, Hr. unfold replay. rewrite Hr.
    destruct k as [|[|[|k]]].
    + specialize (Hcut _ eq_refl). vm_compute in Hcut. lia.
    + split; vm_compute; reflexivity.
    + vm_compute in Hle. lia.
    + simpl in Hk. lia.
Defined.

