(* ===== verification/MemoryDiskSpec.v ===== *)
(** * MemoryDiskSpec: what the files of the packet cache hold

    A disk [holds] a map of entries when its checkpoint and its log add up to
    it; loading it gives the entries that are not expired.  Each write keeps
    the old contents or gives the new, whatever part of it a failure leaves
    behind. *)

From S2P Require Export MemoryDisk MemoryWalSpec.

(** ** Live entries *)

Section Live.
Implicit Types (m : gmap string PacketCacheEntry).

Lemma expired_mono ttl now now' e : (now <= now')%Z → expired_at ttl now e = true → expired_at ttl now' e = true.
Proof.
  unfold expired_at, is_expired, saturating_sub. destruct (ttl =? 0)%Z; [done|]. intros H Hl. reflect_bool.
  apply Z.ltb_lt. lia.
Qed.
Lemma live_live ttl now now' m : (now <= now')%Z → live_entries ttl now' (live_entries ttl now m) = live_entries ttl now' m.
Proof.
  intros H. apply map_eq. intros k. apply option_eq. intros e. rewrite !live_entries_Some. split; [tauto|]. intros [He Hl].
  split; [split; [done|]|done]. destruct (expired_at ttl now e) eqn:E; [|done]. by rewrite (expired_mono _ _ _ _ H E) in Hl.
Qed.
Lemma live_ext ttl now now' m m' : (now <= now')%Z → live_entries ttl now m = live_entries ttl now m' → live_entries ttl now' m = live_entries ttl now' m'.
Proof. intros H E. by rewrite <- (live_live ttl now now' m), E, live_live. Qed.
End Live.

(** ** The entries of a run *)

Section Universe.
Context {ENV : PersistEnv}.
Implicit Types (m : gmap string PacketCacheEntry) (e : PacketCacheEntry).

(** The entries that may be committed below [root]: with canonical keys,
    values that survive their text, and corpora that fit the counters. *)
Record universe (root : string) (U : list PacketCacheEntry) : Prop := {
  un_canonical : Forall (λ e, request_hash_of e = pe_cache_key e ∧ is_blank (pe_cache_key e) = false) U;
  un_stable : Forall entry_stable U;
  un_fits : (sumZ ((λ e, token_count e (Some root)) <$> U) <= usize_max)%Z;
  un_count : (Z.of_nat (length U) < usize_max)%Z
}.

Context (root : string) (U : list PacketCacheEntry) (HU : universe root U).

Definition from_universe m : Prop := ∀ k e, m !! k = Some e → e ∈ U ∧ pe_cache_key e = k.

Lemma from_universe_empty : from_universe ∅.
Proof using. intros k e. by rewrite lookup_empty. Qed.
Lemma from_universe_filter (P : string * PacketCacheEntry → Prop) `{!∀ x, Decision (P x)} m : from_universe m → from_universe (filter P m).
Proof using. intros Hu k e [He _]%map_lookup_filter_Some. by apply Hu. Qed.

Lemma universe_values m : from_universe m → NoDup (map_to_list m).*2 ∧ ∀ e, e ∈ (map_to_list m).*2 → e ∈ U.
Proof using.
  intros H. split.
  - apply NoDup_fmap_2_strong; [|apply NoDup_map_to_list]. intros [k e] [k' e'] He%elem_of_map_to_list He'%elem_of_map_to_list Heq.
    simpl in Heq. subst e'. destruct (H _ _ He) as [_ <-], (H _ _ He') as [_ <-]. done.
  - intros e ([k e'] & -> & He%elem_of_map_to_list)%list_elem_of_fmap. by apply (H k).
Qed.

Lemma sumZ_submseteq {A} (f : A → Z) (l k : list A) : (∀ x, 0 <= f x)%Z → l ⊆+ k → (sumZ (f <$> l) <= sumZ (f <$> k))%Z.
Proof using.
  intros Hf [x Hx]%submseteq_Permutation. rewrite (sumZ_perm _ _ (fmap_Permutation f _ _ Hx)), fmap_app, sumZ_app.
  assert (0 <= sumZ (f <$> x))%Z; [|lia]. apply sumZ_nonneg, Forall_fmap, Forall_true. intros. simpl. apply Hf.
Qed.

Lemma universe_weight m : from_universe m → (weight (Some root) m <= usize_max)%Z.
Proof using HU.
  intros H. destruct (universe_values m H) as [Hnd Hin]. etrans; [|apply (un_fits _ _ HU)]. unfold weight, map_sum.
  apply sumZ_submseteq; [intros; apply token_count_nonneg|]. by apply NoDup_submseteq.
Qed.
Lemma universe_size m : from_universe m → (Z.of_nat (size m) < usize_max)%Z.
Proof using HU.
  intros H. destruct (universe_values m H) as [Hnd Hin]. eapply Z.le_lt_trans; [|apply (un_count _ _ HU)].
  rewrite <- length_map_to_list, <- (length_fmap snd). apply inj_le, submseteq_length. by apply NoDup_submseteq.
Qed.

Lemma universe_storable c : coherent c → from_universe (entries_by_hash c) → storable c ∧ canonical c.
Proof using HU.
  intros Hc H. pose proof (un_canonical _ _ HU) as Hcan. pose proof (un_stable _ _ HU) as Hst. rewrite Forall_forall in Hcan, Hst.
  split; [split; [done| |by apply Z.lt_le_incl, universe_size]|]; intros k e He; destruct (H k e He) as [Hin <-].
  - split; [by apply Hcan|by apply Hst].
  - by apply Hcan.
Qed.

(** The deltas of the universe. *)
Definition delta_known (d : PersistDelta) : Prop :=
  match d with Upsert pe => ∃ e, e ∈ U ∧ pe = from_entry e | Remove _ => True end.
Definition delta_value (d : PersistDelta) : option PacketCacheEntry :=
  match d with Upsert pe => Some (into_entry pe) | Remove _ => None end.

Lemma known_upsert e : e ∈ U → into_entry (from_entry e) = e.
Proof using HU. intros He. apply into_from_entry. pose proof (un_stable _ _ HU) as H. rewrite Forall_forall in H. by apply H. Qed.

Lemma apply_spec_lookup m d k : delta_known d →
  apply_spec m d !! k = if decide (k = delta_cache_key d) then delta_value d else m !! k.
Proof using HU.
  destruct d as [pe|k']; intros Hd; simpl.
  - destruct Hd as (e & He & ->). change (ppe_cache_key (from_entry e)) with (pe_cache_key e).
    pose proof (un_canonical _ _ HU) as Hcan. rewrite Forall_forall in Hcan. destruct (Hcan e He) as [_ ->].
    case_decide as Hk; [by rewrite Hk, lookup_insert_eq|by rewrite lookup_insert_ne].
  - case_decide as Hk; [by rewrite Hk, lookup_delete_eq|by rewrite lookup_delete_ne].
Qed.

Lemma from_universe_apply m d : from_universe m → delta_known d → from_universe (apply_spec m d).
Proof using HU.
  intros H Hd k e. rewrite apply_spec_lookup by done. case_decide as Hk; [|apply H].
  destruct d as [pe|k']; simpl; [|done]. destruct Hd as (e' & He' & ->). rewrite known_upsert by done. intros [= <-].
  split; [done|]. by rewrite Hk.
Qed.
Lemma from_universe_foldl m l : from_universe m → Forall delta_known l → from_universe (foldl apply_spec m l).
Proof using HU.
  revert m. induction l as [|d l IH]; intros m H Hl; [done|]. apply Forall_cons in Hl as [Hd Hl].
  apply IH; [by apply from_universe_apply|done].
Qed.
Lemma universe_fits m l : from_universe m → Forall delta_known l → fits_through (Some root) m l.
Proof using HU.
  revert m. induction l as [|d l IH]; intros m H Hl; [done|]. apply Forall_cons in Hl as [Hd Hl].
  split; [by apply universe_weight, from_universe_apply|]. apply IH; [by apply from_universe_apply|done].
Qed.
End Universe.

(** ** Laws of the parameters *)

(** The checksum has 32 bytes; the binary codec and the JSON of the records
    round trip. *)
Record persist_laws {ENV : PersistEnv} (U : list PacketCacheEntry) : Prop := {
  pl_checksum : ∀ l, length (checksum l) = 32;
  pl_envelope : ∀ e b, envelope_bytes e = Some b → envelope_read b = Some e;
  pl_record : ∀ s l, fits u64_max s → Forall (delta_known U) l →
    record_read (record_bytes (mkWalRecord PERSIST_WAL_VERSION s l)) = Some (mkWalRecord PERSIST_WAL_VERSION s l)
}.

Section Disk.
Context {ENV : PersistEnv}.
Context (root : string) (U : list PacketCacheEntry) (HU : universe root U) (HL : persist_laws U) (ttl : Z).
Implicit Types (m : gmap string PacketCacheEntry) (d : Disk) (f : FileState) (c : PacketCache).

(** ** The checkpoint file *)

Lemma checkpoint_frame_roundtrip payload raw : encode_checkpoint_frame payload = Ok raw →
  decode_checkpoint_payload raw = Ok payload ∧
  (Z.of_nat (length raw) <= Z.of_nat PERSIST_CHECKPOINT_HEADER_LEN + MAX_PERSIST_CHECKPOINT_BYTES)%Z.
Proof using HL.
  unfold encode_checkpoint_frame. destruct (_ <? _)%Z eqn:E; [done|]. apply Z.ltb_ge in E.
  assert (Hfit : (Z.of_nat (length payload) <= u64_max)%Z) by (unfold MAX_PERSIST_CHECKPOINT_BYTES, u64_max in *; lia).
  destruct (frame_fields (pl_checksum U HL) PERSIST_CHECKPOINT_MAGIC payload [] eq_refl Hfit) as (E1 & E2 & E3 & E4 & E5).
  rewrite app_nil_r in E1, E2, E3, E4, E5. set (frame := PERSIST_CHECKPOINT_MAGIC ++ _) in *. intros Hraw.
  assert (raw = frame) as -> by congruence. clear Hraw.
  assert (Hlen : length frame = 48 + length payload).
  { unfold frame. rewrite !length_app, length_to_le_bytes, (pl_checksum U HL). simpl. lia. }
  assert (E6 : drop 48 frame = payload).
  { etrans; [|exact E4]. unfold slice. rewrite take_ge; [done|]. rewrite length_drop. lia. }
  unfold decode_checkpoint_payload, PERSIST_CHECKPOINT_HEADER_LEN. rewrite E1, E2, E3, E6, Hlen.
  rewrite !bool_decide_eq_true_2 by done. rewrite (proj2 (Nat.leb_le _ _)) by lia.
  rewrite (proj2 (Z.leb_le _ _)) by lia. rewrite (proj2 (Z.eqb_eq _ _)) by lia. split; [done|lia].
Qed.

Lemma read_encoded c now raw : encode_checkpoint c ttl now = Ok raw →
  read_v3_envelope (Present raw) = Ok (Some (envelope_of c ttl now)).
Proof using HL.
  unfold encode_checkpoint. intros E. inv_result.
  rename Ha0 into Hb. apply (pl_envelope U HL) in Hb.
  destruct (checkpoint_frame_roundtrip _ _ E) as [Hd Hlen].
  unfold read_v3_envelope, read_file_bounded. rewrite (proj2 (Z.ltb_ge _ _)) by lia.
  unfold decode_checkpoint_envelope_v3. rewrite Hd, Hb. cbn [ok_or]. rewrite result_bind_ok.
  replace (validate_v3_envelope (envelope_of c ttl now)) with (Ok (E := IoError) ()) by (destruct a; congruence). done.
Qed.

(** The file is a checkpoint of [m] at the sequence [h]. *)
Definition snapshot f m (h : Z) : Prop := ∃ raw c now,
  f = Present raw ∧ encode_checkpoint c ttl now = Ok raw ∧ coherent c ∧ from_universe U (entries_by_hash c) ∧
  workspace_root c = Some root ∧ m = live_entries ttl now (entries_by_hash c) ∧ h = persisted_sequence c ∧ fits u64_max h.

Lemma snapshot_universe f m h : snapshot f m h → from_universe U m.
Proof using . intros (raw & c & now & _ & _ & _ & Hf & _ & -> & _). by apply from_universe_filter. Qed.

Lemma try_load_snapshot c f m h : snapshot f m h → workspace_root c = Some root →
  ∃ c', try_load_v3_file c f = (c', true) ∧ coherent c' ∧ entries_by_hash c' = m ∧ persisted_sequence c' = h ∧
    workspace_root c' = Some root ∧ has_v3_checkpoint_baseline c' = true ∧
    has_legacy_checkpoint_baseline c' = has_legacy_checkpoint_baseline c.
Proof using HL HU.
  intros (raw & c0 & now & -> & Henc & Hc0 & Hu & Hw0 & -> & -> & _) Hw. unfold try_load_v3_file. rewrite (read_encoded _ _ _ Henc).
  eexists. split; [done|]. destruct (universe_storable root U HU c0 Hc0 Hu) as [Hst _].
  destruct (load_envelope_of c0 c ttl now Hst) as (Hc & He & Hs & Hw' & _); [congruence|].
  split_and!; [by apply (coherent_ext (load_v3_envelope c (envelope_of c0 ttl now)))|exact He|exact Hs|by rewrite <- Hw|done..].
Qed.
(** ** What a disk holds *)

(** The checkpoint that is loaded: the primary, or the backup when there is
    no primary, or none. *)
Inductive baseline d : gmap string PacketCacheEntry → Z → bool → Prop :=
| on_checkpoint f m h : snapshot f m h → dk_v3 d = f ∨ dk_v3 d = Missing ∧ dk_backup d = f → baseline d m h true
| pristine : dk_v1 d = Missing → dk_v2 d = Missing → dk_v3 d = Missing → dk_backup d = Missing → file_bytes (dk_wal d) = [] →
    baseline d ∅ 0 false.

Definition record_known (r : PersistWalRecord) : Prop :=
  wr_version r = PERSIST_WAL_VERSION ∧ Forall (delta_known U) (wr_deltas r) ∧
  (Z.of_nat (length (record_bytes r)) <= MAX_PERSIST_WAL_RECORD_BYTES)%Z.

(** The deltas of the records above [h]. *)
Definition deltas_above (h : Z) (rs : list PersistWalRecord) : list PersistDelta :=
  filter (λ r, (h <? wr_sequence r)%Z) rs ≫= wr_deltas.

(** The disk holds [m] at the sequence [s]: a checkpoint at [h] and the
    records from [b + 1] on, with the bytes [tail] of a torn one. *)
Definition holds d m (s : Z) (tail : list Z) (based : bool) : Prop := ∃ m0 h b rs,
  baseline d m0 h based ∧ dk_wal d ≠ Unreadable ∧ file_bytes (dk_wal d) = frames rs ++ tail ∧ Forall record_known rs ∧
  wal_chain b rs ∧ (0 <= b <= h)%Z ∧ (h <= s)%Z ∧ (s <= u64_max)%Z ∧ torn tail ∧
  s = (b + Z.of_nat (length rs))%Z ∧ m = foldl apply_spec m0 (deltas_above h rs).

Definition log_fits d : Prop := (Z.of_nat (length (file_bytes (dk_wal d))) <= MAX_PERSIST_WAL_BYTES)%Z.

Lemma baseline_universe d m h based : baseline d m h based → from_universe U m ∧ fits u64_max h.
Proof using .
  destruct 1 as [f m h Hs _|]; [split; [by eapply snapshot_universe|by destruct Hs as (? & ? & ? & ? & ? & ? & ? & ? & ? & ? & ?)]|].
  split; [apply from_universe_empty|unfold fits, u64_max; lia].
Qed.

Lemma deltas_above_known h rs : Forall record_known rs → Forall (delta_known U) (deltas_above h rs).
Proof using .
  intros Hrs. apply Forall_bind, Forall_forall. intros r [_ Hr]%list_elem_of_filter. rewrite Forall_forall in Hrs.
  by apply (Hrs r).
Qed.

Lemma holds_universe d m s tail based : holds d m s tail based → from_universe U m ∧ fits u64_max s.
Proof using HU.
  intros (m0 & h & b & rs & Hb & _ & _ & Hrs & _ & Hbh & Hhs & Hmax & _ & -> & ->). destruct (baseline_universe _ _ _ _ Hb) as [Hu Hh].
  split; [by apply (from_universe_foldl root U HU), deltas_above_known|]. unfold fits in *. lia.
Qed.

Lemma known_records_ok s rs : Forall record_known rs → wal_chain s rs → (0 <= s)%Z → (s + Z.of_nat (length rs) <= u64_max)%Z →
  Forall record_ok rs.
Proof using HL.
  intros Hrs Hch H0 Hmax. rewrite Forall_forall in *. intros r Hr. destruct (Hrs r Hr) as (Hv & Hk & Hlen). split_and!; [done| |done].
  pose proof (wal_chain_bound _ _ _ Hch Hr). destruct r as [v q l]. simpl in *. rewrite Hv. apply (pl_record U HL); [unfold fits; lia|done].
Qed.

(** Whether a baseline was loaded does not change with the entries. *)
Definition baselines c : bool * bool := (has_v3_checkpoint_baseline c, has_legacy_checkpoint_baseline c).

Lemma remove_index_baselines c k : baselines (remove_index_for c k) = baselines c.
Proof using . unfold remove_index_for. by destruct (recall_docs c !! k). Qed.
Lemma apply_delta_baselines c dl : baselines (apply_delta c dl) = baselines c.
Proof using .
  destruct dl as [e|k]; [|exact (remove_index_baselines (set_entries c (delete k (entries_by_hash c))) k)]. unfold apply_delta.
  destruct (is_blank _); [done|]. trans (baselines (forget_index c (pe_cache_key (into_entry e)))); [done|]. unfold forget_index.
  destruct (entries_by_hash c !! _); [apply remove_index_baselines|done].
Qed.
Lemma apply_persist_deltas_baselines c s l : baselines (apply_persist_deltas c s l) = baselines c.
Proof using .
  trans (baselines (foldl apply_delta c l)); [done|]. revert c. induction l as [|dl l IH]; intros c; [done|]. cbn [foldl].
  rewrite IH. apply apply_delta_baselines.
Qed.
Lemma remove_where_baselines p reason c : baselines (remove_where p reason c).1 = baselines c.
Proof using .
  unfold remove_where. trans (baselines (foldl remove_entry c (keys_where p c))); [by destruct (keys_where p c)|].
  generalize (keys_where p c) as ks. intros ks. revert c. induction ks as [|k ks IH]; intros c; [done|]. cbn [foldl].
  rewrite IH. exact (remove_index_baselines (set_entries c (delete k (entries_by_hash c))) k).
Qed.

(** The cache holds [m] and nothing else of it matters to a reader. *)
Record shows c m : Prop := {
  sh_coherent : coherent c;
  sh_universe : from_universe U m;
  sh_entries : entries_by_hash c = m;
  sh_root : workspace_root c = Some root
}.

Lemma apply_record_shows c m s l : shows c m → Forall (delta_known U) l → shows (apply_persist_deltas c s l) (foldl apply_spec m l).
Proof using HU.
  intros [Hc Hu He Hw] Hl.
  assert (Hfit : fits_through (workspace_root c) (entries_by_hash c) l) by (rewrite Hw, He; by apply (universe_fits root U HU)).
  destruct (apply_persist_deltas_spec c s l Hc Hfit) as (Hc' & He' & Hw' & _). rewrite He in He'.
  split; [done|by apply (from_universe_foldl root U HU)|done|congruence].
Qed.

Lemma replay_records_spec h rs c m : shows c m → Forall record_known rs →
  shows (foldl (replay_record h) c rs) (foldl apply_spec m (deltas_above h rs)) ∧
  baselines (foldl (replay_record h) c rs) = baselines c.
Proof using HU.
  revert c m. induction rs as [|r rs IH]; intros c m Hs Hrs; [done|]. apply Forall_cons in Hrs as [Hr Hrs]. cbn [foldl].
  unfold deltas_above. rewrite filter_cons. unfold replay_record at 2 4.
  destruct (h <? wr_sequence r)%Z eqn:E; [rewrite decide_True by done|rewrite decide_False by (by intros ?); by apply IH].
  destruct Hr as (_ & Hk & _). rewrite bind_cons, foldl_app.
  destruct (IH (apply_persist_deltas c (wr_sequence r) (wr_deltas r)) (foldl apply_spec m (wr_deltas r))) as [IH1 IH2];
    [by apply apply_record_shows|done|]. split; [exact IH1|]. by rewrite IH2, apply_persist_deltas_baselines.
Qed.

Lemma shows_counters c m l : shows c m → shows (set_counters c l) m.
Proof using . intros [Hc Hu He Hw]. split; [by apply coherent_counters|done..]. Qed.
Lemma shows_sequence c m s : shows c m → shows (set_sequence c s) m.
Proof using . intros [Hc Hu He Hw]. split; [by apply coherent_sequence|done..]. Qed.
Lemma shows_latest c m l : shows c m → shows (set_latest c l) m.
Proof using . intros [Hc Hu He Hw]. split; [by apply coherent_latest|done..]. Qed.
Lemma shows_canonical c m : shows c m → canonical c.
Proof using HU. intros [Hc Hu He Hw]. apply (universe_storable root U HU c Hc). by rewrite He. Qed.

Lemma load_checkpoint_spec d m h based : baseline d m h based → dk_wal d ≠ Unreadable →
  let c := load_checkpoint root d in shows c m ∧ persisted_sequence c = h ∧ baselines c = (based, false).
Proof using HL HU.
  intros Hb Hwal. destruct Hb as [f m h Hs Hf|H1 H2 H3 Hbk Hlog].
  - destruct (try_load_snapshot (new_cache (Some root)) f m h Hs eq_refl) as (c & Hload & Hc & He & Hseq & Hw & Hv3 & Hleg).
    assert (Htry : try_load_v3 (new_cache (Some root)) d = (c, true)).
    { unfold try_load_v3. destruct Hf as [->|[-> ->]]; [by rewrite Hload|exact Hload]. }
    unfold load_checkpoint. rewrite Htry. split_and!; [|done|by unfold baselines; rewrite Hv3, Hleg].
    split; [done|by eapply snapshot_universe|done..].
  - assert (Hne : is_nonempty (dk_wal d) = false) by (destruct (dk_wal d) as [| |raw]; [done|done|]; simpl in *; by rewrite Hlog).
    unfold load_checkpoint, try_load_v3, try_load_v2, try_load_v1. rewrite H1, H2, H3, Hbk, Hne. simpl.
    split_and!; [|done..]. apply shows_counters. split; [apply coherent_new|apply from_universe_empty|done..].
Qed.

(** The log of a disk is replayed up to its torn tail. *)
Lemma replay_wal_spec c m h b rs tail d : shows c m → persisted_sequence c = h →
  dk_wal d ≠ Unreadable → file_bytes (dk_wal d) = frames rs ++ tail → log_fits d → Forall record_known rs →
  wal_chain b rs → (0 <= b <= h)%Z → (b + Z.of_nat (length rs) <= u64_max)%Z → torn tail →
  replay_wal c d = Ok (foldl (replay_record h) c rs,
    mkWalReplay (Z.max h (b + Z.of_nat (length rs))) (length (frames rs)) (negb (bool_decide (tail = []))) false).
Proof using HL.
  intros Hs Hseq Hwal Hlog Hfit Hrs Hch Hb Hmax Htorn. unfold log_fits in Hfit.
  pose proof (known_records_ok b rs Hrs Hch ltac:(lia) Hmax) as Hok.
  pose proof (replay_frames (pl_checksum U HL) rs tail (length (frames rs ++ tail)) 0 c h b Hok Hch ltac:(lia) Hmax Htorn ltac:(lia)) as Hrep.
  unfold replay_wal, read_wal, read_file_bounded, replay_bytes. rewrite Hseq. destruct (dk_wal d) as [| |raw]; [|done|]; cbn [file_bytes] in *.
  - destruct rs as [|r rs]; [|unfold frames in Hlog; rewrite bind_cons in Hlog; by apply symmetry, app_nil in Hlog as [[Hlog _]%app_nil _]].
    simpl in Hlog. subst tail. simpl. unfold empty_wal_replay. rewrite Hseq, Z.add_0_r, Z.max_l by lia. done.
  - rewrite Hlog in Hfit. rewrite Hlog, (proj2 (Z.ltb_ge _ _)) by lia. by rewrite Hrep.
Qed.

Lemma evict_shows c m now : shows c m → latest_ok c →
  let c' := (evict_expired_entries_at ttl now c).1 in
  shows c' (live_entries ttl now m) ∧ latest_ok c' ∧ persisted_sequence c' = persisted_sequence c ∧ baselines c' = baselines c.
Proof using HU.
  intros Hs Hl. pose proof (shows_canonical c m Hs) as Hcan. destruct Hs as [Hc Hu He Hw]. rewrite evict_is_remove. simpl.
  destruct (remove_where_spec (expired_at ttl now) ExpiredTtl c Hc) as (Hc' & He' & _ & Hw' & _ & Hs' & Hl').
  rewrite He in He'. split_and!; [|by apply Hl'|done|apply remove_where_baselines].
  split; [done|by apply from_universe_filter|done|congruence].
Qed.

Lemma shows_indexed c m : shows c m →
  (if bool_decide (recall_docs c = ∅) && negb (bool_decide (entries_by_hash c = ∅)) then rebuild_indexes c else c) = c.
Proof using .
  intros [Hc _ _ _]. rewrite (co_docs c Hc). case_bool_decide as E; [|done]. apply fmap_empty_inv in E. by rewrite E, bool_decide_eq_true_2.
Qed.

(** Loading gives the live entries of what the disk holds, and the replay of
    [repair_torn_wal_tail] finds the torn tail. *)
Lemma load_holds d m s tail based now : holds d m s tail based → log_fits d →
  let c := load_from_disk root ttl now d in
  (shows c (live_entries ttl now m) ∧ persisted_sequence c = s ∧ latest_ok c ∧ baselines c = (based, false)) ∧
  ∃ c2, replay_wal c d = Ok (c2, mkWalReplay s (length (file_bytes (dk_wal d)) - length tail) (negb (bool_decide (tail = []))) false).
Proof using HL HU.
  intros (m0 & h & b & rs & Hb & Hwal & Hlog & Hrs & Hch & Hbh & Hhs & Hmax & Htorn & Hs & ->) Hfit.
  destruct (load_checkpoint_spec d m0 h based Hb Hwal) as (Hs0 & Hseq0 & Hbase0).
  pose proof (replay_wal_spec _ m0 h b rs tail d Hs0 Hseq0 Hwal Hlog Hfit Hrs Hch Hbh ltac:(lia) Htorn) as Hrep.
  rewrite Z.max_r, <- Hs in Hrep by lia.
  destruct (replay_records_spec h rs _ m0 Hs0 Hrs) as [Hs1 Hbase1]. intros c.
  assert (Hmain : shows c (live_entries ttl now (foldl apply_spec m0 (deltas_above h rs))) ∧ persisted_sequence c = s ∧ latest_ok c ∧
      baselines c = (based, false)).
  { unfold c, load_from_disk. rewrite Hrep. cbn [highest_sequence recovered_corruption baseline_mismatch].
    set (c1 := foldl (replay_record h) (load_checkpoint root d) rs) in *.
    set (c2 := if negb _ || false then _ else _).
    assert (Hc2 : shows c2 (foldl apply_spec m0 (deltas_above h rs)) ∧ persisted_sequence c2 = s ∧ baselines c2 = (based, false)).
    { unfold c2. destruct (_ || _); (split_and!; [|done|by rewrite <- Hbase0, <- Hbase1]);
        [by apply shows_counters, shows_sequence|by apply shows_sequence]. }
    destruct Hc2 as (Hs2 & Hseq2 & Hbase2). set (c3 := rebuild_latest_request_index c2).
    assert (Hs3 : shows c3 (foldl apply_spec m0 (deltas_above h rs))) by (by apply shows_latest).
    assert (Hl3 : latest_ok c3).
    { apply rebuild_latest_ok; [apply (co_keys c2), Hs2|by apply (shows_canonical c2 _ Hs2)]. }
    destruct (evict_shows c3 _ now Hs3 Hl3) as (Hs4 & Hl4 & Hseq4 & Hbase4). rewrite (shows_indexed _ _ Hs4).
    split_and!; [done|by rewrite Hseq4|done|by rewrite Hbase4]. }
  split; [done|]. destruct Hmain as (Hsh & Hseq & _ & _). eexists.
  rewrite (replay_wal_spec c _ s b rs tail d Hsh Hseq Hwal Hlog Hfit Hrs Hch ltac:(lia) ltac:(lia) Htorn).
  rewrite Z.max_l by lia. do 3 f_equal. rewrite Hlog, length_app. lia.
Qed.
(** A log beyond the limit is not read: loading gives the live entries of the
    checkpoint alone. *)
Lemma load_oversized d m s tail based now : holds d m s tail based → ¬ log_fits d →
  entries_by_hash (load_from_disk root ttl now d) = live_entries ttl now (entries_by_hash (load_checkpoint root d)).
Proof using HL HU.
  intros (m0 & h & b & rs & Hb & Hwal & _) Hfit. destruct (load_checkpoint_spec d m0 h based Hb Hwal) as (Hs0 & _).
  assert (Hrep : ∃ e, replay_wal (load_checkpoint root d) d = Err e).
  { unfold log_fits in Hfit. unfold replay_wal, read_wal, read_file_bounded. destruct (dk_wal d) as [| |raw]; [by exfalso; apply Hfit|done|].
    cbn [file_bytes] in Hfit. rewrite (proj2 (Z.ltb_lt _ _)) by lia. by eexists. }
  destruct Hrep as [e Hrep]. unfold load_from_disk. rewrite Hrep.
  set (c := rebuild_latest_request_index _). assert (Hs : shows c m0) by (by apply shows_latest, shows_counters).
  assert (Hl : latest_ok c).
  { apply rebuild_latest_ok; [apply (co_keys (load_checkpoint root d)), Hs0|by apply (shows_canonical (load_checkpoint root d) _ Hs0)]. }
  destruct (evict_shows c m0 now Hs Hl) as (Hs' & _). rewrite (shows_indexed _ _ Hs').
  by rewrite (sh_entries _ _ Hs'), (sh_entries _ _ Hs0).
Qed.
End Disk.
