(* ===== verification/MemoryOwner.v ===== *)
(** * MemoryOwner: the owner of a persistent packet cache

    Models [src/crates/context-memory-core/src/persistence_owner.rs]: the
    dirty map with its admission and rollback, committing and pruning, the
    worker that appends the dirty deltas to the log and folds the log into
    checkpoints, the generation that coordinates processes, and the recovery
    when a root is opened.  The worker takes the dirty map in one step and
    persists what it took in another, so that commits may come between.
    Threads, timeouts, metrics and the registry of roots are not modelled. *)

From S2P Require Export MemoryDisk.

Definition CHECKPOINT_DELTA_THRESHOLD : Z := 256.
Definition CHECKPOINT_WAL_BYTES_THRESHOLD : Z := (4 * 1024 * 1024)%Z.
Definition LEGACY_COORDINATION_STATE_LEN : nat := 8.
Definition COORDINATION_STATE_LEN : nat := 16.
Definition MAX_DIRTY_DELTAS : Z := 4096.

(** The constructors of [CachePersistenceError] that the modelled code
    returns. *)
Inductive CachePersistenceError : Type :=
| ConfigurationConflict (existing_ttl_secs requested_ttl_secs : Z)
| Backpressure (capacity pending requested_new_keys : Z)
| InvalidCacheKey
| MutationTooLarge (encoded_bytes max_bytes : Z)
| WorkerUnavailable
| IoFailure (operation detail : string).

Definition io_error (operation : string) (source : IoError) : CachePersistenceError := IoFailure operation source.

Record PersistenceCoordinationState : Type := mkCoordination {
  cs_generation : Z;
  cs_ttl_secs : option Z
}.

Record PersistConfig : Type := mkConfig {
  cf_root_dir : string;
  cf_ttl_secs : Z
}.

Record PendingDelta : Type := mkPending {
  pd_revision : Z;
  pd_delta : PersistDelta
}.
Definition pending_key (p : PendingDelta) : string := delta_cache_key (pd_delta p).

Record PersistenceWorker : Type := mkWorker {
  wk_cache : PacketCache;
  wk_observed_generation : Z;
  wk_persisted_revisions : gmap string Z;
  wk_persisted_since_checkpoint : Z;
  wk_wal_bytes_since_checkpoint : Z
}.

(** The state the owner shares with its worker.  [ow_available]: the worker
    runs and no shutdown was requested; [ow_connected]: its queue accepts. *)
Record Owner : Type := mkOwner {
  ow_memory : PacketCache;
  ow_dirty : gmap string PendingDelta;
  ow_pending_slots : Z;
  ow_next_revision : Z;
  ow_available : bool;
  ow_connected : bool
}.
Definition set_dirty (o : Owner) (dirty : gmap string PendingDelta) (slots : Z) : Owner :=
  mkOwner (ow_memory o) dirty slots (ow_next_revision o) (ow_available o) (ow_connected o).
Definition set_memory (o : Owner) (c : PacketCache) : Owner :=
  mkOwner c (ow_dirty o) (ow_pending_slots o) (ow_next_revision o) (ow_available o) (ow_connected o).

(** The values of a [BTreeMap], in the order of the keys. *)
Definition btree_values {A} (m : gmap string A) : list A :=
  snd <$> sort_by_cmp (λ a b : string * A, str_cmp a.1 b.1) (map_to_list m).

(** ** The coordination file *)

Definition read_state (d : Disk) : result CachePersistenceError PersistenceCoordinationState :=
  match dk_state d with
  | Unreadable => Err (IoFailure "coordination lock open" "cannot open")
  | Missing => Ok (mkCoordination 0 None)
  | Present raw =>
      if (length raw =? 0)%nat then Ok (mkCoordination 0 None)
      else if (length raw =? LEGACY_COORDINATION_STATE_LEN)%nat then Ok (mkCoordination (from_le_bytes raw) None)
      else if (length raw =? COORDINATION_STATE_LEN)%nat
      then Ok (mkCoordination (from_le_bytes (take 8 raw)) (Some (from_le_bytes (drop 8 raw))))
      else Err (IoFailure "coordination generation read" "expected an 8-byte legacy or 16-byte policy marker")
  end.

(** [write_state]: two writes of eight bytes over the old ones, each taken
    as whole, then the file is cut to them. *)
Definition write_state (generation ttl_secs : Z) : Io CachePersistenceError () :=
  let encoded := to_le_bytes 8 generation ++ to_le_bytes 8 ttl_secs in
  map_err (io_error "coordination state write")
    (io_write (λ n d,
       if (n =? 0)%nat then d
       else if (n =? 1)%nat then set_state d (Present (take 8 encoded ++ drop 8 (file_bytes (dk_state d))))
       else set_state d (Present encoded)) 2).

(** [lock_exclusive] may fail. *)
Definition lock_root : Io CachePersistenceError () :=
  map_err (io_error "coordination lock acquire") (io_write (λ _ d, d) 1).

Definition read_coordination : Io CachePersistenceError PersistenceCoordinationState :=
  disk ← get_disk; lift (read_state disk).

Definition bind_ttl (requested_ttl_secs : Z) : Io CachePersistenceError Z :=
  state ← read_coordination;
  match cs_ttl_secs state with
  | Some existing =>
      if (existing =? requested_ttl_secs)%Z then mret (cs_generation state)
      else lift (Err (ConfigurationConflict existing requested_ttl_secs))
  | None => write_state (cs_generation state) requested_ttl_secs ;; mret (cs_generation state)
  end.

Definition advance_generation (current : Z) : Io CachePersistenceError Z :=
  next ← lift (ok_or (checked_add u64_max current 1) (IoFailure "coordination generation write" "generation counter exhausted"));
  state ← read_coordination;
  ttl_secs ← lift (ok_or (cs_ttl_secs state) (IoFailure "coordination generation write" "root TTL policy is not bound"));
  write_state next ttl_secs ;;
  mret next.

Section Owner.
Context {ENV : PersistEnv}.

(** ** Recovery *)

Definition checkpoint_artifacts_exist (d : Disk) : bool :=
  existsb (λ f, match f with Missing => false | _ => true end) [dk_v1 d; dk_v2 d; dk_v3 d; dk_backup d].

(** The result says whether the log was cut. *)
Definition repair_torn_wal_tail (c : PacketCache) : Io CachePersistenceError bool :=
  disk ← get_disk;
  match replay_wal c disk with
  | Err source => lift (Err (io_error "WAL recovery" source))
  | Ok (_, replay) =>
      if baseline_mismatch replay
      then lift (Err (IoFailure "WAL recovery" "WAL sequence does not continue the checkpoint; refusing destructive repair"))
      else if recovered_corruption replay then
        if negb (has_v3_checkpoint_baseline c) && checkpoint_artifacts_exist disk
        then lift (Err (IoFailure "WAL recovery" "refusing destructive repair without a trusted V3 baseline"))
        else map_err (io_error "WAL recovery") (truncate_wal_to (valid_bytes replay)) ;; mret true
      else mret false
  end.

Definition promote_legacy_checkpoint (cf : PersistConfig) (now_unix : Z) (c : PacketCache)
    : Io CachePersistenceError (PacketCache * bool) :=
  if negb (has_legacy_checkpoint_baseline c) then mret (c, false)
  else
    map_err (io_error "legacy checkpoint promotion") (write_checkpoint c (cf_ttl_secs cf) now_unix) ;;
    mret (set_baselines c true false, true).

Definition bootstrap_pristine_checkpoint (cf : PersistConfig) (now_unix : Z) (c : PacketCache)
    : Io CachePersistenceError (PacketCache * bool) :=
  disk ← get_disk;
  if has_v3_checkpoint_baseline c || has_legacy_checkpoint_baseline c || checkpoint_artifacts_exist disk then mret (c, false)
  else
    map_err (io_error "pristine checkpoint bootstrap") (write_checkpoint c (cf_ttl_secs cf) now_unix) ;;
    map_err (io_error "pristine WAL reset") reset_wal ;;
    mret (set_baselines c true (has_legacy_checkpoint_baseline c), true).

(** The part of [CachePersistence::open] under the root lock. *)
Definition open_root (cf : PersistConfig) (now_unix : Z) : Io CachePersistenceError (PacketCache * Z) :=
  lock_root ;;
  current ← bind_ttl (cf_ttl_secs cf);
  disk ← get_disk;
  let cache := load_from_disk (cf_root_dir cf) (cf_ttl_secs cf) now_unix disk in
  repaired_wal ← repair_torn_wal_tail cache;
  '(cache, promoted_legacy) ← promote_legacy_checkpoint cf now_unix cache;
  '(cache, bootstrapped_pristine) ← bootstrap_pristine_checkpoint cf now_unix cache;
  observed_generation ←
    (if repaired_wal || promoted_legacy || bootstrapped_pristine then advance_generation current else mret current);
  mret (cache, observed_generation).

Definition new_worker (cache : PacketCache) (observed_generation : Z) : PersistenceWorker :=
  mkWorker cache observed_generation ∅ 0 0.
Definition new_owner (cache : PacketCache) : Owner := mkOwner cache ∅ 0 0 true true.

(** ** Admission *)

(** [reserve_mutation]: the revision; the reserved slots are those asked for. *)
Definition reserve_mutation (o : Owner) (unique_key_count : Z) : result CachePersistenceError Z * Owner :=
  if negb (ow_available o) then (Err WorkerUnavailable, o)
  else
    let revision := saturating_add u64_max (ow_next_revision o) 1 in
    let o := mkOwner (ow_memory o) (ow_dirty o) (ow_pending_slots o) (wrapping_add u64_max (ow_next_revision o) 1)
               (ow_available o) (ow_connected o) in
    if (unique_key_count =? 0)%Z then (Ok revision, o)
    else
      let next := (ow_pending_slots o + unique_key_count)%Z in
      if (next <=? MAX_DIRTY_DELTAS)%Z then (Ok revision, set_dirty o (ow_dirty o) next)
      else (Err (Backpressure MAX_DIRTY_DELTAS (ow_pending_slots o) unique_key_count), o).

Inductive BatchChange : Type :=
| Inserted (cache_key : string)
| Replaced (cache_key : string) (previous : PendingDelta)
| Superseded (cache_key : string) (incoming : PendingDelta).

(** One delta of the batch, in the order of the keys. *)
Definition record_delta (revision : Z) (acc : gmap string PendingDelta * list BatchChange) (d : PersistDelta)
    : gmap string PendingDelta * list BatchChange :=
  let '(dirty, changes) := acc in
  let cache_key := delta_cache_key d in
  let incoming := mkPending revision d in
  match dirty !! cache_key with
  | None => (<[cache_key := incoming]> dirty, changes ++ [Inserted cache_key])
  | Some previous =>
      if (pd_revision previous <=? revision)%Z then (<[cache_key := incoming]> dirty, changes ++ [Replaced cache_key previous])
      else (dirty, changes ++ [Superseded cache_key incoming])
  end.

(** The rollback of one change. *)
Definition undo_change (dirty : gmap string PendingDelta) (change : BatchChange) : gmap string PendingDelta :=
  match change with
  | Inserted cache_key => delete cache_key dirty
  | Replaced cache_key previous => <[cache_key := previous]> dirty
  | Superseded _ _ => dirty
  end.

Definition is_inserted (change : BatchChange) : bool := match change with Inserted _ => true | _ => false end.

(** [record_reserved_batch], with the release of the slots that the
    reservation gives back when it ends. *)
Definition record_reserved_batch (o : Owner) (batch : gmap string PersistDelta) (revision reserved_slots : Z)
    : result CachePersistenceError () * Owner :=
  let deltas := btree_values batch in
  let released (n : Z) := (ow_pending_slots o - n)%Z in
  if bool_decide (batch = ∅) then (Ok (), set_dirty o (ow_dirty o) (released reserved_slots))
  else if (reserved_slots <? Z.of_nat (length deltas))%Z
  then (Err (Backpressure reserved_slots (ow_pending_slots o) (Z.of_nat (length deltas))),
        set_dirty o (ow_dirty o) (released reserved_slots))
  else
    let '(dirty, changes) := foldl (record_delta revision) (ow_dirty o, []) deltas in
    if negb (ow_connected o)
    then (Err WorkerUnavailable, set_dirty o (foldl undo_change dirty (reverse changes)) (released reserved_slots))
    else
      let retained_slots := Z.of_nat (length (filter (λ ch, is_inserted ch) changes)) in
      (Ok (), set_dirty o dirty (released (reserved_slots - retained_slots)%Z)).

(** ** Mutations *)

Record PreparedMutation : Type := mkPrepared {
  pm_entry : PacketCacheEntry;                   (* created at 0 *)
  pm_delta : PersistDelta;
  pm_wal_record_payload_bytes : Z
}.

Definition prepare_update (entry : PacketCacheEntry) : PreparedMutation :=
  let delta := Upsert (from_entry entry) in
  mkPrepared entry (set_upsert_created_at_unix delta 0)
    (default usize_max (persist_wal_record_payload_len [persist_delta_encoded_len (set_upsert_created_at_unix delta u64_max)])).

Record CacheCommitOutcome : Type := mkCommitOutcome {
  co_cache_key : string;
  co_stats : ContextStoreStats
}.

Definition remove_batch (keys : list string) (batch : gmap string PersistDelta) : gmap string PersistDelta :=
  foldl (λ batch k, <[k := Remove k]> batch) batch keys.

(** [commit_prepared_update_at]. *)
Definition commit_prepared_update_at (cf : PersistConfig) (o : Owner) (p : PreparedMutation) (created_at_unix : Z)
    : result CachePersistenceError CacheCommitOutcome * Owner :=
  let cache_key := pe_cache_key (pm_entry p) in
  if negb (bool_decide (cache_key = request_hash_of (pm_entry p))) then (Err InvalidCacheKey, o)
  else if (MAX_PERSIST_WAL_RECORD_BYTES <? pm_wal_record_payload_bytes p)%Z
  then (Err (MutationTooLarge (pm_wal_record_payload_bytes p) MAX_PERSIST_WAL_RECORD_BYTES), o)
  else
    let removed := filter (λ k, k ≠ cache_key) (expired_entry_keys_at (cf_ttl_secs cf) created_at_unix (ow_memory o)) in
    let slots := saturating_add usize_max (Z.of_nat (length removed)) 1 in
    match reserve_mutation o slots with
    | (Err e, o) => (Err e, o)
    | (Ok revision, o) =>
        let delta := set_upsert_created_at_unix (pm_delta p) created_at_unix in
        let batch := remove_batch removed {[cache_key := delta]} in
        match record_reserved_batch o batch revision slots with
        | (Err e, o) => (Err e, o)
        | (Ok _, o) =>
            let entry := set_created_at (pm_entry p) created_at_unix in
            let '(memory, _) := insert_owned (ow_memory o) entry in
            let '(memory, _) := evict_expired_entries_at (cf_ttl_secs cf) created_at_unix memory in
            (Ok (mkCommitOutcome (pe_cache_key entry) (stats memory)), set_memory o memory)
        end
    end.

(** [prune_at] up to its flush. *)
Definition prune_owner_at (o : Owner) (request : ContextStorePruneRequest) (now_unix : Z)
    : result CachePersistenceError ContextStorePruneReport * Owner :=
  let removed := prune_candidate_keys_at request now_unix (ow_memory o) in
  let slots := Z.of_nat (length removed) in
  match reserve_mutation o slots with
  | (Err e, o) => (Err e, o)
  | (Ok revision, o) =>
      match record_reserved_batch o (remove_batch removed ∅) revision slots with
      | (Err e, o) => (Err e, o)
      | (Ok _, o) =>
          let '(memory, report) := prune_at request now_unix (ow_memory o) in
          (Ok report, set_memory o memory)
      end
  end.

(** ** The worker *)

(** [merge_restored_pending_deltas]: what came since wins when it is newer. *)
Definition restore_one (acc : gmap string PendingDelta * list PendingDelta) (pending : PendingDelta)
    : gmap string PendingDelta * list PendingDelta :=
  let '(dirty, retired) := acc in
  match dirty !! pending_key pending with
  | None => (<[pending_key pending := pending]> dirty, retired)
  | Some current =>
      if (pd_revision current <=? pd_revision pending)%Z
      then (<[pending_key pending := pending]> dirty, retired ++ [current])
      else (dirty, retired ++ [pending])
  end.
Definition merge_restored_pending_deltas (dirty : gmap string PendingDelta) (pending : list PendingDelta)
    : gmap string PendingDelta * list PendingDelta := foldl restore_one (dirty, []) pending.

Definition restore_pending_deltas (o : Owner) (pending : list PendingDelta) : Owner :=
  let '(dirty, retired) := merge_restored_pending_deltas (ow_dirty o) pending in
  set_dirty o dirty (ow_pending_slots o - Z.of_nat (length retired))%Z.

(** [chunk_persist_deltas]: the chunks so far, the current one and its size. *)
Definition ChunkState : Type := list (list PersistDelta) * list PersistDelta * Z.

Definition chunk_step (max_record_bytes : Z) (acc : ChunkState) (pending : PendingDelta) : result CachePersistenceError ChunkState :=
  let '(chunks, current, current_bytes) := acc in
  let encoded_bytes := persist_delta_encoded_len (pd_delta pending) in
  let separator_bytes := match current with [] => 0 | _ => 1 end%Z in
  let candidate_bytes :=
    default usize_max (bytes ← checked_add usize_max current_bytes separator_bytes; checked_add usize_max bytes encoded_bytes) in
  if (max_record_bytes <? candidate_bytes)%Z then
    ensure (negb (bool_decide (length current = 0))) (MutationTooLarge candidate_bytes max_record_bytes) ;;
    let current_bytes := saturating_add usize_max empty_record_len encoded_bytes in
    ensure (current_bytes <=? max_record_bytes)%Z (MutationTooLarge current_bytes max_record_bytes) ;;
    Ok (chunks ++ [current], [pd_delta pending], current_bytes)
  else Ok (chunks, current ++ [pd_delta pending], candidate_bytes).

Definition chunk_persist_deltas (pending : list PendingDelta) (max_record_bytes : Z)
    : result CachePersistenceError (list (list PersistDelta)) :=
  '(chunks, current, _) ← fold_result (chunk_step max_record_bytes) ([], [], empty_record_len) pending;
  Ok (match current with [] => chunks | _ => chunks ++ [current] end).

(** The first step of [flush_dirty]: the dirty map is taken, and what was
    persisted with its revision or a later one is dropped. *)
Definition still_pending (w : PersistenceWorker) (p : PendingDelta) : bool :=
  match wk_persisted_revisions w !! pending_key p with Some persisted => (persisted <? pd_revision p)%Z | None => true end.

Definition flush_take (w : PersistenceWorker) (o : Owner) : Owner * list PendingDelta :=
  let taken := btree_values (ow_dirty o) in
  let pending := filter (λ p, still_pending w p) taken in
  let superseded := filter (λ p, negb (still_pending w p)) taken in
  (set_dirty o ∅ (ow_pending_slots o - Z.of_nat (length superseded))%Z, pending).

Definition set_cache (w : PersistenceWorker) (c : PacketCache) : PersistenceWorker :=
  mkWorker c (wk_observed_generation w) (wk_persisted_revisions w) (wk_persisted_since_checkpoint w) (wk_wal_bytes_since_checkpoint w).

(** Another process changed the files: the cache is loaded again and a torn
    log repaired. *)
Definition refresh (cf : PersistConfig) (now_unix : Z) (w : PersistenceWorker) : Io CachePersistenceError (PersistenceWorker * Z) :=
  lock_root ;;
  state ← read_coordination;
  if (cs_generation state =? wk_observed_generation w)%Z then mret (w, cs_generation state)
  else
    disk ← get_disk;
    let latest := load_from_disk (cf_root_dir cf) (cf_ttl_secs cf) now_unix disk in
    repair_torn_wal_tail latest ;;
    mret (set_cache w latest, cs_generation state).

(** The records of the chunks, with consecutive sequences; their bytes. *)
Fixpoint append_chunks (sequence wal_bytes : Z) (chunks : list (list PersistDelta)) : Io CachePersistenceError Z :=
  match chunks with
  | [] => mret wal_bytes
  | deltas :: chunks =>
      bytes ← map_err (io_error "WAL append") (append_wal_record sequence deltas);
      let wal_bytes := saturating_add u64_max wal_bytes bytes in
      match chunks with
      | [] => mret wal_bytes
      | _ =>
          sequence ← lift (ok_or (checked_add u64_max sequence 1) (IoFailure "WAL append" "cache WAL sequence exhausted"));
          append_chunks sequence wal_bytes chunks
      end
  end.

(** The closure of [flush_dirty] after the reload: the next generation, the
    first sequence and the bytes written. *)
Definition append_pending (w : PersistenceWorker) (durable_generation : Z) (chunks : list (list PersistDelta))
    : Io CachePersistenceError (Z * Z * Z) :=
  next_generation ← advance_generation durable_generation;
  first_sequence ← lift (ok_or (checked_add u64_max (persisted_sequence (wk_cache w)) 1)
                           (IoFailure "WAL append" "cache WAL sequence exhausted"));
  wal_bytes ← append_chunks first_sequence 0 chunks;
  mret (next_generation, first_sequence, wal_bytes).

(** The cache of the worker is replaced even when a later step fails. *)
Definition persist_chunks (cf : PersistConfig) (now_unix : Z) (w : PersistenceWorker) (chunks : list (list PersistDelta)) (wd : World)
    : result CachePersistenceError (Z * Z * Z) * PersistenceWorker * World :=
  match refresh cf now_unix w wd with
  | (Err e, wd) => (Err e, w, wd)
  | (Ok (w, durable_generation), wd) =>
      let '(r, wd) := append_pending w durable_generation chunks wd in (r, w, wd)
  end.

Definition max_revision (m : gmap string Z) (p : PendingDelta) : gmap string Z :=
  <[pending_key p := match m !! pending_key p with Some r => Z.max r (pd_revision p) | None => pd_revision p end]> m.

Fixpoint apply_chunks (c : PacketCache) (first_sequence : Z) (index : Z) (chunks : list (list PersistDelta)) : PacketCache :=
  match chunks with
  | [] => c
  | deltas :: chunks =>
      apply_chunks (apply_persist_deltas c (saturating_add u64_max first_sequence index) deltas) first_sequence (index + 1)%Z chunks
  end.

Definition checkpoint (cf : PersistConfig) (now_unix : Z) (w : PersistenceWorker) (wd : World)
    : result CachePersistenceError () * PersistenceWorker * World :=
  match refresh cf now_unix w wd with
  | (Err e, wd) => (Err e, w, wd)
  | (Ok (w, durable_generation), wd) =>
      let body : Io CachePersistenceError Z :=
        next_generation ← advance_generation durable_generation;
        map_err (io_error "checkpoint write") (write_checkpoint (wk_cache w) (cf_ttl_secs cf) now_unix) ;;
        map_err (io_error "WAL reset") reset_wal ;;
        mret next_generation in
      match body wd with
      | (Err e, wd) => (Err e, w, wd)
      | (Ok next_generation, wd) => (Ok (), mkWorker (wk_cache w) next_generation (wk_persisted_revisions w) 0 0, wd)
      end
  end.

(** The second step of [flush_dirty]: the deltas go to the log.  The root lock is
    released before the third. *)
Definition flush_append (cf : PersistConfig) (now_unix : Z) (o : Owner) (w : PersistenceWorker) (pending : list PendingDelta) (wd : World)
    : result CachePersistenceError () * Owner * PersistenceWorker * World :=
  match chunk_persist_deltas pending MAX_PERSIST_WAL_RECORD_BYTES with
  | Err e => (Err e, restore_pending_deltas o pending, w, wd)
  | Ok chunks =>
      match persist_chunks cf now_unix w chunks wd with
      | (Err e, w, wd) => (Err e, restore_pending_deltas o pending, w, wd)
      | (Ok (next_generation, first_sequence, wal_bytes), w, wd) =>
          (Ok (), set_dirty o (ow_dirty o) (ow_pending_slots o - Z.of_nat (length pending))%Z,
           mkWorker (apply_chunks (wk_cache w) first_sequence 0 chunks) next_generation
             (foldl max_revision (wk_persisted_revisions w) pending)
             (saturating_add u64_max (wk_persisted_since_checkpoint w) (Z.of_nat (length pending)))
             (saturating_add u64_max (wk_wal_bytes_since_checkpoint w) wal_bytes), wd)
      end
  end.

(** Whether the third step is a checkpoint, which locks the root again. *)
Definition checkpoint_due (w : PersistenceWorker) : bool :=
  (CHECKPOINT_DELTA_THRESHOLD <=? wk_persisted_since_checkpoint w)%Z
  || (CHECKPOINT_WAL_BYTES_THRESHOLD <=? wk_wal_bytes_since_checkpoint w)%Z.

(** The steps without another process in between. *)
Definition flush_dirty (cf : PersistConfig) (now_unix : Z) (o : Owner) (w : PersistenceWorker) (wd : World)
    : result CachePersistenceError () * Owner * PersistenceWorker * World :=
  let '(o, pending) := flush_take w o in
  match pending with
  | [] => (Ok (), o, w, wd)
  | _ =>
      match flush_append cf now_unix o w pending wd with
      | (Err e, o, w, wd) => (Err e, o, w, wd)
      | (Ok _, o, w, wd) =>
          if checkpoint_due w then let '(r, w, wd) := checkpoint cf now_unix w wd in (r, o, w, wd)
          else (Ok (), o, w, wd)
      end
  end.

Definition flush_and_checkpoint (cf : PersistConfig) (now_unix : Z) (o : Owner) (w : PersistenceWorker) (wd : World)
    : result CachePersistenceError () * Owner * PersistenceWorker * World :=
  match flush_dirty cf now_unix o w wd with
  | (Err e, o, w, wd) => (Err e, o, w, wd)
  | (Ok _, o, w, wd) =>
      if (wk_persisted_since_checkpoint w =? 0)%Z && (wk_wal_bytes_since_checkpoint w =? 0)%Z then (Ok (), o, w, wd)
      else let '(r, w, wd) := checkpoint cf now_unix w wd in (r, o, w, wd)
  end.
End Owner.
