(* ===== verification/MemorySystem.v ===== *)
(** * MemorySystem: processes that share the root of a packet cache

    The processes that have a root open, its files and the time, with the
    actions of the interleaved model: a commit, a prune, the three steps of a
    flush, a checkpoint, an opening, a crash, and time that passes.  The steps
    of a flush are the taking of the dirty map, the append to the log and, when
    the append reached a threshold, a checkpoint; the root lock is free between
    them.  An action that writes takes the faults its writes meet. *)

From S2P Require Export MemoryOwner.

(** Where the worker of a process is in [flush_dirty]: nowhere, before the
    append of what it has taken, or before the checkpoint at the end. *)
Inductive FlushPhase : Type :=
| Idle
| Taken (pending : list PendingDelta)
| CheckpointDue.

Record Process : Type := mkProcess {
  ps_owner : Owner;
  ps_worker : PersistenceWorker;
  ps_flush : FlushPhase
}.

Definition taken (phase : FlushPhase) : list PendingDelta := match phase with Taken pending => pending | _ => [] end.
Definition ps_inflight (p : Process) : list PendingDelta := taken (ps_flush p).

(** A flush that takes nothing returns. *)
Definition after_take (pending : list PendingDelta) : FlushPhase := match pending with [] => Idle | _ => Taken pending end.

(** A flush that has appended returns, or goes on to a checkpoint. *)
Definition after_append (due : bool) : FlushPhase := if due then CheckpointDue else Idle.

Record System : Type := mkSystem {
  sy_processes : list Process;
  sy_disk : Disk;
  sy_now : Z
}.

Inductive Action : Type :=
| Commit (i : nat) (entry : PacketCacheEntry)
| Prune (i : nat) (request : ContextStorePruneRequest)
| Take (i : nat)
| Append (i : nat) (faults : list Fault)
| Finish (i : nat) (faults : list Fault)
| Checkpoint (i : nat) (faults : list Fault)
| Open (faults : list Fault)
| Crash (i : nat)
| Pass (seconds : N).

Definition empty_disk : Disk := mkDisk Missing Missing Missing Missing Missing Missing.
Definition empty_system : System := mkSystem [] empty_disk 0.

Definition set_processes (s : System) (l : list Process) : System := mkSystem l (sy_disk s) (sy_now s).
Definition set_process (s : System) (i : nat) (p : Process) : System := set_processes s (<[i := p]> (sy_processes s)).

Section System.
Context {ENV : PersistEnv}.
Context (cf : PersistConfig).

Definition commit_process (now_unix : Z) (entry : PacketCacheEntry) (p : Process) : Process :=
  mkProcess (commit_prepared_update_at cf (ps_owner p) (prepare_update entry) now_unix).2 (ps_worker p) (ps_flush p).
Definition prune_process (now_unix : Z) (request : ContextStorePruneRequest) (p : Process) : Process :=
  mkProcess (prune_owner_at (ps_owner p) request now_unix).2 (ps_worker p) (ps_flush p).
(** A worker takes the dirty map when its last flush has ended. *)
Definition take_process (p : Process) : Process :=
  match ps_flush p with
  | Idle =>
      let '(o, pending) := flush_take (ps_worker p) (ps_owner p) in
      mkProcess o (ps_worker p) (after_take pending)
  | _ => p
  end.

Definition checkpoint_process (s : System) (i : nat) (p : Process) (faults : list Fault) : System :=
  let '(_, w, wd) := checkpoint cf (sy_now s) (ps_worker p) (mkWorld (sy_disk s) faults) in
  mkSystem (<[i := mkProcess (ps_owner p) w Idle]> (sy_processes s)) (w_disk wd) (sy_now s).

Definition act (s : System) (a : Action) : System :=
  match a with
  | Commit i entry => set_processes s (alter (commit_process (sy_now s) entry) i (sy_processes s))
  | Prune i request => set_processes s (alter (prune_process (sy_now s) request) i (sy_processes s))
  | Take i => set_processes s (alter take_process i (sy_processes s))
  | Append i faults =>
      match sy_processes s !! i with
      | Some p =>
          match ps_inflight p with
          | [] => s
          | pending =>
              let '(r, o, w, wd) := flush_append cf (sy_now s) (ps_owner p) (ps_worker p) pending (mkWorld (sy_disk s) faults) in
              mkSystem (<[i := mkProcess o w (after_append (is_ok r && checkpoint_due w))]> (sy_processes s)) (w_disk wd) (sy_now s)
          end
      | None => s
      end
  | Finish i faults =>
      match sy_processes s !! i with
      | Some p => match ps_flush p with CheckpointDue => checkpoint_process s i p faults | _ => s end
      | None => s
      end
  | Checkpoint i faults =>
      match sy_processes s !! i with
      | Some p =>
          match ps_flush p with Idle => checkpoint_process s i p faults | _ => s end
      | None => s
      end
  | Open faults =>
      match open_root cf (sy_now s) (mkWorld (sy_disk s) faults) with
      | (Ok (cache, generation), wd) =>
          mkSystem (sy_processes s ++ [mkProcess (new_owner cache) (new_worker cache generation) Idle]) (w_disk wd) (sy_now s)
      | (Err _, wd) => mkSystem (sy_processes s) (w_disk wd) (sy_now s)
      end
  | Crash i => set_processes s (delete i (sy_processes s))
  | Pass seconds => mkSystem (sy_processes s) (sy_disk s) (sy_now s + Z.of_N seconds)
  end.

Definition run_actions (s : System) (l : list Action) : System := foldl act s l.
End System.
