(* ===== verification/MemoryChunkSpec.v ===== *)
(** * MemoryChunkSpec: the records that a flush writes

    The dirty deltas are cut into chunks in their order, each of which fits a
    record at every sequence; the admission of a delta is enough for this. *)

From S2P Require Export MemoryOwner MemoryDiskSpec.

Section Chunks.
Context {ENV : PersistEnv}.
Implicit Types (l : list PersistDelta).

(** The bytes of a record, at the longest sequence. *)
Definition record_size l : Z :=
  (empty_record_len + sumZ (persist_delta_encoded_len <$> l) + Z.of_nat (length l - 1))%Z.

Lemma length_join l : Z.of_nat (length (join_bytes (text_bytes ",") (delta_text <$> l))) =
  (sumZ (persist_delta_encoded_len <$> l) + Z.of_nat (length l - 1))%Z.
Proof.
  induction l as [|d l IH]; [done|]. destruct l as [|d' l]; [simpl; unfold persist_delta_encoded_len; lia|].
  rewrite fmap_cons. set (rest := d' :: l) in *. change (join_bytes (text_bytes ",") (delta_text d :: (delta_text <$> rest)))
    with (delta_text d ++ text_bytes "," ++ join_bytes (text_bytes ",") (delta_text <$> rest)).
  rewrite !length_app, !Nat2Z.inj_add, IH, fmap_cons, sumZ_cons. unfold persist_delta_encoded_len at 2. unfold rest. simpl. lia.
Qed.

Lemma record_size_bound q l : fits u64_max q →
  (Z.of_nat (length (record_bytes (mkWalRecord PERSIST_WAL_VERSION q l))) <= record_size l)%Z.
Proof.
  intros [H0 Hq]. pose proof (show_uint_length q u64_max (conj H0 Hq)) as Hlen. unfold record_size, empty_record_len, record_bytes.
  cbn [wr_version wr_sequence wr_deltas]. rewrite !length_app, !length_text_bytes, !str_bytes_app, !length_app, !Nat2Z.inj_add, length_join.
  cbn [join_bytes fmap list_fmap length]. lia.
Qed.

Lemma record_size_nonneg l : (empty_record_len <= record_size l)%Z ∧ (0 <= empty_record_len)%Z.
Proof.
  split; [|unfold empty_record_len; lia]. unfold record_size. assert (0 <= sumZ (persist_delta_encoded_len <$> l))%Z; [|lia].
  apply sumZ_nonneg, Forall_fmap, Forall_true. intros d. unfold compose, persist_delta_encoded_len. lia.
Qed.

Lemma record_size_snoc l d : record_size (l ++ [d]) =
  (record_size l + match l with [] => 0 | _ => 1 end + persist_delta_encoded_len d)%Z.
Proof.
  unfold record_size. rewrite fmap_app, sumZ_app, length_app, fmap_cons, sumZ_cons. simpl. destruct l; simpl; lia.
Qed.

(** ** Chunks *)

Context (max_record_bytes : Z) (Hmax : (max_record_bytes < usize_max)%Z).

Definition fits_alone (p : PendingDelta) : Prop := (record_size [pd_delta p] <= max_record_bytes)%Z.

(** The state of the loop after the deltas [l]. *)
Definition chunking (l : list PersistDelta) (st : ChunkState) : Prop :=
  let '(chunks, current, bytes) := st in
  concat chunks ++ current = l ∧ bytes = record_size current ∧ Forall (λ ch, ch ≠ [] ∧ (record_size ch <= max_record_bytes)%Z) chunks ∧
  (current = [] → chunks = []) ∧ (current ≠ [] → (record_size current <= max_record_bytes)%Z).

Lemma chunk_step_ok l st p : chunking l st → fits_alone p →
  ∃ st', chunk_step max_record_bytes st p = Ok st' ∧ chunking (l ++ [pd_delta p]) st'.
Proof using Hmax.
  destruct st as [[chunks current] bytes]. intros (Hl & -> & Hch & Hnil & Hfit) Hp. unfold fits_alone in Hp. unfold chunk_step.
  set (sep := match current with [] => 0%Z | _ => 1%Z end). set (n := persist_delta_encoded_len (pd_delta p)).
  set (candidate := default usize_max _).
  assert (Hsnoc : record_size (current ++ [pd_delta p]) = (record_size current + sep + n)%Z) by apply record_size_snoc.
  destruct (record_size_nonneg current) as [H1 H0]. destruct (record_size_nonneg [pd_delta p]) as [H2 _].
  assert (Hn : (0 <= n)%Z) by (unfold n, persist_delta_encoded_len; lia).
  assert (Hsep : (0 <= sep)%Z) by (unfold sep; destruct current; lia).
  assert (Hone : record_size [pd_delta p] = (empty_record_len + n)%Z) by (unfold record_size; simpl; fold n; lia).
  assert (Hcand : (max_record_bytes <? candidate)%Z = (max_record_bytes <? record_size (current ++ [pd_delta p]))%Z ∧
    ((record_size (current ++ [pd_delta p]) <= max_record_bytes)%Z → candidate = record_size (current ++ [pd_delta p]))).
  { unfold candidate. rewrite Hsnoc. destruct (checked_add usize_max (record_size current) sep) as [b|] eqn:E1; simpl.
    - apply checked_add_Some in E1 as [-> E1]. destruct (checked_add usize_max _ n) as [b|] eqn:E2; simpl.
      + by apply checked_add_Some in E2 as [-> E2].
      + apply checked_add_None in E2. rewrite !(proj2 (Z.ltb_lt _ _)) by lia. split; [done|lia].
    - apply checked_add_None in E1. rewrite !(proj2 (Z.ltb_lt _ _)) by lia. split; [done|lia]. }
  destruct Hcand as [Hc1 Hc2]. rewrite Hc1. clear Hc1.
  destruct (max_record_bytes <? record_size (current ++ [pd_delta p]))%Z eqn:E; reflect_bool.
  - destruct current as [|d0 current].
    { exfalso. change ([] ++ [pd_delta p]) with [pd_delta p] in E. lia. }
    rewrite (bool_decide_eq_false_2 (length (d0 :: current) = 0)) by done. cbn [negb ensure].
    unfold saturating_add. rewrite Z.min_r by lia. rewrite (proj2 (Z.leb_le _ _)) by lia. cbn [ensure].
    eexists. split; [done|]. split_and!; [|by rewrite Hone| |done|done].
    + rewrite concat_app. simpl. rewrite app_nil_r. by rewrite Hl.
    + apply Forall_app. split; [done|]. apply Forall_singleton. split; [done|by apply Hfit].
  - eexists. split; [done|]. rewrite Hc2 by lia. split_and!; [by rewrite app_assoc, Hl|done|done| |lia].
    intros Hnil'. by apply app_nil in Hnil' as [_ ?].
Qed.

Lemma chunk_fold_ok (pending : list PendingDelta) : Forall fits_alone pending →
  ∃ st, fold_result (chunk_step max_record_bytes) ([], [], empty_record_len) pending = Ok st ∧ chunking (pd_delta <$> pending) st.
Proof using Hmax.
  induction pending as [|p pending IH] using rev_ind; intros Hp.
  - eexists. split; [done|]. split_and!; [done| |done..]. unfold record_size. simpl. lia.
  - apply Forall_app in Hp as [Hp [Hp1 _]%Forall_cons]. destruct (IH Hp) as (st & Hst & Hch).
    destruct (chunk_step_ok _ _ _ Hch Hp1) as (st' & Hst' & Hch'). exists st'. rewrite fold_result_snoc, Hst, fmap_app. done.
Qed.

Lemma chunks_ok (pending : list PendingDelta) : Forall fits_alone pending →
  ∃ chunks, chunk_persist_deltas pending max_record_bytes = Ok chunks ∧ concat chunks = pd_delta <$> pending ∧
    Forall (λ ch, ch ≠ [] ∧ (record_size ch <= max_record_bytes)%Z) chunks.
Proof using Hmax.
  intros Hp. destruct (chunk_fold_ok pending Hp) as ([[chunks current] bytes] & Hf & Hl & _ & Hch & Hnil & Hfit).
  unfold chunk_persist_deltas. rewrite Hf, result_bind_ok. destruct current as [|d current].
  - rewrite Hnil in * by done. by exists [].
  - eexists. split; [done|]. rewrite concat_app. simpl in *. rewrite app_nil_r. split; [done|]. apply Forall_app. split; [done|].
    apply Forall_singleton. split; [done|by apply Hfit].
Qed.
End Chunks.

(** A delta that a flush can write. *)
Definition pending_ok {ENV : PersistEnv} (U : list PacketCacheEntry) (p : PendingDelta) : Prop :=
  delta_known U (pd_delta p) ∧ fits_alone MAX_PERSIST_WAL_RECORD_BYTES p.
