(* ===== verification/MemoryDirtySpec.v ===== *)
(** * MemoryDirtySpec: the dirty map of a packet cache

    A batch is recorded over the dirty map, or every change of it is undone;
    restoring what a failed flush had taken keeps what came since; the slots
    count what is dirty or in flight.  What the owner will have written is the
    overlay of the dirty map on what is in flight and on the disk. *)

From S2P Require Export MemorySystem MemoryChunkSpec.

(** ** Maps as lists *)

Lemma btree_values_perm {A} (m : gmap string A) : btree_values m ≡ₚ (map_to_list m).*2.
Proof. unfold btree_values. apply fmap_Permutation, sort_by_cmp_perm. Qed.
Lemma elem_of_btree_values {A} (m : gmap string A) x : x ∈ btree_values m ↔ ∃ k, m !! k = Some x.
Proof.
  rewrite btree_values_perm, list_elem_of_fmap. split.
  - intros ([k y] & -> & Hy%elem_of_map_to_list). by exists k.
  - intros [k Hk]. exists (k, x). by rewrite elem_of_map_to_list.
Qed.
Lemma length_btree_values {A} (m : gmap string A) : length (btree_values m) = size m.
Proof. by rewrite btree_values_perm, length_fmap, length_map_to_list. Qed.
Lemma NoDup_btree_keys {A} (key : A → string) (m : gmap string A) : map_Forall (λ k x, key x = k) m → NoDup (key <$> btree_values m).
Proof.
  intros Hk. rewrite btree_values_perm, <- list_fmap_compose.
  rewrite (fmap_ext_elem _ fst); [apply NoDup_fst_map_to_list|]. intros [k x] Hx%elem_of_map_to_list. by apply Hk.
Qed.

(** ** Recording a batch *)

Section Record.
Implicit Types (D : gmap string PendingDelta) (l : list PersistDelta) (changes : list BatchChange).

Definition dirty_keys D : Prop := map_Forall (λ k p, pending_key p = k) D.

Lemma undo_record revision D changes d :
  let '(D', changes') := record_delta revision (D, changes) d in
  ∃ change, changes' = changes ++ [change] ∧ undo_change D' change = D.
Proof.
  unfold record_delta. destruct (D !! delta_cache_key d) as [previous|] eqn:E.
  - destruct (_ <=? _)%Z; eexists; (split; [done|]); simpl; [|done]. by rewrite insert_insert_eq, insert_id.
  - eexists. split; [done|]. simpl. by rewrite delete_insert_id.
Qed.

(** The rollback undoes the whole batch. *)
Lemma undo_batch revision l D changes :
  let '(D', changes') := foldl (record_delta revision) (D, changes) l in
  ∃ added, changes' = changes ++ added ∧ foldl undo_change D' (reverse added) = D.
Proof.
  revert D changes. induction l as [|d l IH]; intros D changes; [exists []; by rewrite app_nil_r|]. cbn [foldl].
  pose proof (undo_record revision D changes d) as H1. destruct (record_delta revision (D, changes) d) as [D1 changes1].
  destruct H1 as (change & -> & Hundo). specialize (IH D1 (changes ++ [change])).
  destruct (foldl (record_delta revision) (D1, changes ++ [change]) l) as [D' changes']. destruct IH as (added & -> & Hadded).
  exists (change :: added). rewrite <- app_assoc. split; [done|]. by rewrite reverse_cons, foldl_app, Hadded.
Qed.

Definition inserted changes : nat := length (filter (λ ch, is_inserted ch) changes).

Lemma inserted_app c1 c2 : inserted (c1 ++ c2) = inserted c1 + inserted c2.
Proof. unfold inserted. by rewrite filter_app, length_app. Qed.

(** A batch with the newest revision is laid over the dirty map. *)
Lemma record_batch revision l D changes :
  NoDup (delta_cache_key <$> l) → map_Forall (λ _ p, pd_revision p <= revision)%Z D →
  let '(D', changes') := foldl (record_delta revision) (D, changes) l in
  (∀ k, D' !! k = match list_find (λ d, delta_cache_key d = k) l with Some (_, d) => Some (mkPending revision d) | None => D !! k end) ∧
  size D' + inserted changes = size D + inserted changes'.
Proof.
  revert D changes. induction l as [|d l IH]; intros D changes Hnd Hrev; [done|]. rewrite fmap_cons in Hnd. apply NoDup_cons in Hnd as [Hd Hnd].
  cbn [foldl]. set (D1 := <[delta_cache_key d := mkPending revision d]> D).
  assert (Hrec : ∃ changes1, record_delta revision (D, changes) d = (D1, changes1) ∧ size D1 + inserted changes = size D + inserted changes1).
  { unfold record_delta. destruct (D !! delta_cache_key d) as [previous|] eqn:E.
    - rewrite (proj2 (Z.leb_le _ _)) by (by apply (Hrev (delta_cache_key d))). eexists. split; [done|].
      unfold D1. rewrite map_size_insert_Some by done. rewrite inserted_app. unfold inserted at 3. simpl. lia.
    - eexists. split; [done|]. unfold D1. rewrite map_size_insert_None by done. rewrite inserted_app. unfold inserted at 3. simpl. lia. }
  destruct Hrec as (changes1 & -> & Hsize).
  assert (Hrev1 : map_Forall (λ _ p, pd_revision p <= revision)%Z D1) by (apply map_Forall_insert_2; [simpl; lia|done]).
  specialize (IH D1 changes1 Hnd Hrev1). destruct (foldl (record_delta revision) (D1, changes1) l) as [D' changes'].
  destruct IH as [IH1 IH2]. split; [|lia]. intros k. rewrite IH1. cbn [list_find]. case_decide as Hk.
  - subst k. assert (list_find (λ d0, delta_cache_key d0 = delta_cache_key d) l = None) as ->.
    { apply list_find_None, Forall_forall. intros d' Hd' Heq. apply Hd, list_elem_of_fmap. by exists d'. }
    unfold D1. by rewrite lookup_insert_eq.
  - destruct (list_find _ l) as [[i d']|]; simpl; [done|]. unfold D1. by rewrite lookup_insert_ne.
Qed.

Definition batch_keys (batch : gmap string PersistDelta) : Prop := map_Forall (λ k d, delta_cache_key d = k) batch.

(** The dirty map with a batch over it. *)
Definition over (revision : Z) (batch : gmap string PersistDelta) D : gmap string PendingDelta := (mkPending revision <$> batch) ∪ D.

Lemma over_lookup revision batch D k :
  over revision batch D !! k = match batch !! k with Some d => Some (mkPending revision d) | None => D !! k end.
Proof. unfold over. rewrite lookup_union, lookup_fmap. by destruct (batch !! k), (D !! k). Qed.

Lemma btree_find batch k : batch_keys batch → match list_find (λ d, delta_cache_key d = k) (btree_values batch) with Some (_, d) => Some d | None => None end = batch !! k.
Proof.
  intros Hk. destruct (list_find _ _) as [[i d]|] eqn:E.
  - apply list_find_Some in E as (Hi & Hd & _). apply list_elem_of_lookup_2, elem_of_btree_values in Hi as [k' Hk'].
    by rewrite <- Hd, (Hk k' d Hk').
  - apply list_find_None in E. rewrite Forall_forall in E. destruct (batch !! k) as [d|] eqn:Ek; [|done].
    exfalso. apply (E d); [apply elem_of_btree_values; by exists k|by apply (Hk k d)].
Qed.

Lemma record_batch_over revision batch D : batch_keys batch → map_Forall (λ _ p, pd_revision p <= revision)%Z D →
  let '(D', changes) := foldl (record_delta revision) (D, []) (btree_values batch) in
  D' = over revision batch D ∧ size D' = size D + inserted changes ∧ foldl undo_change D' (reverse changes) = D.
Proof.
  intros Hk Hrev. pose proof (record_batch revision (btree_values batch) D [] (NoDup_btree_keys delta_cache_key batch Hk) Hrev) as Hrec.
  pose proof (undo_batch revision (btree_values batch) D []) as Hundo.
  destruct (foldl (record_delta revision) (D, []) (btree_values batch)) as [D' changes]. destruct Hrec as [Hl Hs], Hundo as (added & -> & Hu).
  simpl in Hu. split; [|split; [unfold inserted in *; simpl in *; lia|done]]. apply map_eq. intros k. rewrite Hl, over_lookup.
  pose proof (btree_find batch k Hk) as Hf. by destruct (list_find _ _) as [[i d]|]; rewrite <- Hf.
Qed.
End Record.

Section Owner.
Context {ENV : PersistEnv}.
Implicit Types (o : Owner) (D : gmap string PendingDelta).

(** [record_reserved_batch] records the batch, or nothing of it. *)
Lemma record_reserved_spec o batch revision : batch_keys batch → map_Forall (λ _ p, pd_revision p <= revision)%Z (ow_dirty o) →
  record_reserved_batch o batch revision (Z.of_nat (size batch)) =
    if ow_connected o || bool_decide (batch = ∅)
    then (Ok (), set_dirty o (over revision batch (ow_dirty o))
            (ow_pending_slots o - Z.of_nat (size batch) + Z.of_nat (size (over revision batch (ow_dirty o)) - size (ow_dirty o))))
    else (Err WorkerUnavailable, set_dirty o (ow_dirty o) (ow_pending_slots o - Z.of_nat (size batch))).
Proof using .
  intros Hk Hrev. unfold record_reserved_batch. case_bool_decide as Hb.
  - subst batch. rewrite orb_true_r. unfold over. rewrite fmap_empty, (left_id_L ∅ (∪)), map_size_empty. f_equal. unfold set_dirty. f_equal. lia.
  - rewrite orb_false_r, length_btree_values, Z.ltb_irrefl.
    pose proof (record_batch_over revision batch (ow_dirty o) Hk Hrev) as Hrec.
    destruct (foldl (record_delta revision) (ow_dirty o, []) (btree_values batch)) as [D' changes]. destruct Hrec as (-> & Hs & Hu).
    rewrite Hu. destruct (ow_connected o); cbn [negb]; [|done]. do 2 f_equal. unfold inserted in Hs. lia.
Qed.
End Owner.

(** ** Views *)

Section View.
Context {ENV : PersistEnv}.
Context (root : string) (U : list PacketCacheEntry) (HU : universe root U) (ttl : Z).
Implicit Types (m v : gmap string PacketCacheEntry) (D : gmap string PendingDelta) (I : list PendingDelta).

(** A dirty map laid over some entries. *)
Definition overlay D m : gmap string PacketCacheEntry :=
  omap (λ p, delta_value (pd_delta p)) D ∪ filter (λ ke : string * PacketCacheEntry, D !! ke.1 = None) m.

Lemma overlay_lookup D m k : overlay D m !! k = match D !! k with Some p => delta_value (pd_delta p) | None => m !! k end.
Proof using .
  unfold overlay. rewrite lookup_union, lookup_omap. set (F := filter _ m).
  assert (HF : F !! k = if D !! k is None then m !! k else None).
  { apply option_eq. intros e. unfold F. rewrite map_lookup_filter_Some. simpl. destruct (D !! k); [|tauto]. split; [by intros []|done]. }
  rewrite HF. destruct (D !! k) as [p|]; simpl; [by destruct (delta_value (pd_delta p))|by destruct (m !! k)].
Qed.

Definition view v I D : gmap string PacketCacheEntry := overlay D (foldl apply_spec v (pd_delta <$> I)).

(** The value that a list of deltas with distinct keys gives to a key. *)
Lemma apply_list_lookup v (l : list PendingDelta) k : NoDup (pending_key <$> l) → Forall (λ p, delta_known U (pd_delta p)) l →
  (∀ p, p ∈ l → pending_key p = k → foldl apply_spec v (pd_delta <$> l) !! k = delta_value (pd_delta p)) ∧
  (k ∉ pending_key <$> l → foldl apply_spec v (pd_delta <$> l) !! k = v !! k).
Proof using HU.
  induction l as [|p l IH] using rev_ind; intros Hnd Hk; [by split; [intros p Hp%elem_of_nil|]|].
  rewrite fmap_app in Hnd. apply NoDup_app in Hnd as (Hnd & Hdis & _). apply Forall_app in Hk as [Hk [Hp _]%Forall_cons].
  destruct (IH Hnd Hk) as [IH1 IH2]. rewrite fmap_app, foldl_app. cbn [foldl fmap list_fmap].
  rewrite (apply_spec_lookup root U HU) by done. split.
  - intros q [Hq| ->%list_elem_of_singleton]%elem_of_app Hqk; [|by rewrite decide_True].
    rewrite decide_False; [by apply IH1|]. intros ->. apply (Hdis (pending_key q)); [apply list_elem_of_fmap; by exists q|].
    rewrite Hqk. simpl. by left.
  - rewrite fmap_app. intros Hn. rewrite decide_False by (intros ->; apply Hn; apply elem_of_app; right; simpl; by left).
    apply IH2. intros Hin. apply Hn, elem_of_app. by left.
Qed.

Lemma live_lookup now m k : live_entries ttl now m !! k = e ← m !! k; if expired_at ttl now e then None else Some e.
Proof using .
  apply option_eq. intros e. rewrite live_entries_Some. destruct (m !! k) as [e'|]; simpl; [|split; [by intros []|done]].
  split; [by intros [[= ->] ->]|]. destruct (expired_at ttl now e') eqn:E; [done|]. by intros [= ->].
Qed.
Lemma live_eq now m m' : live_entries ttl now m = live_entries ttl now m' ↔
  ∀ k, (e ← m !! k; if expired_at ttl now e then None else Some e) = (e ← m' !! k; if expired_at ttl now e then None else Some e).
Proof using .
  split; [intros H k; by rewrite <- !live_lookup, H|]. intros H. apply map_eq. intros k. by rewrite !live_lookup.
Qed.

Lemma live_overlay now D m m' : live_entries ttl now m = live_entries ttl now m' → live_entries ttl now (overlay D m) = live_entries ttl now (overlay D m').
Proof using . rewrite !live_eq. intros H k. rewrite !overlay_lookup. destruct (D !! k); [done|apply H]. Qed.

(** Taking the dirty map moves it below. *)
Lemma view_take v D : dirty_keys D → map_Forall (λ _ p, delta_known U (pd_delta p)) D → view v (btree_values D) ∅ = view v [] D.
Proof using HU.
  intros Hkeys Hk. apply map_eq. intros k. unfold view. rewrite !overlay_lookup, lookup_empty. cbn [fmap list_fmap foldl].
  assert (Hknown : Forall (λ p, delta_known U (pd_delta p)) (btree_values D)).
  { apply Forall_forall. intros p [k' Hp]%elem_of_btree_values. by apply (Hk k'). }
  destruct (apply_list_lookup v (btree_values D) k (NoDup_btree_keys _ D Hkeys) Hknown) as [H1 H2].
  destruct (D !! k) as [p|] eqn:E; [apply H1; [apply elem_of_btree_values; by exists k|by apply (Hkeys k)]|].
  apply H2. intros (p & -> & [k' Hp]%elem_of_btree_values)%list_elem_of_fmap. rewrite (Hkeys k' p Hp) in E. congruence.
Qed.

(** What a failed flush had taken goes back under what came since. *)
Lemma merge_restored I D retired : NoDup (pending_key <$> I) →
  (∀ p q, p ∈ I → D !! pending_key p = Some q → (pd_revision p < pd_revision q)%Z) →
  let '(D', retired') := foldl restore_one (D, retired) I in
  (∀ k, D' !! k = match D !! k with Some q => Some q | None => snd <$> list_find (λ p, pending_key p = k) I end) ∧
  size D' + length retired' = size D + length retired + length I.
Proof using .
  revert D retired. induction I as [|p I IH]; intros D retired Hnd Hnew.
  - split; [|simpl; lia]. intros k. simpl. by destruct (D !! k).
  - rewrite fmap_cons in Hnd. apply NoDup_cons in Hnd as [Hp Hnd]. cbn [foldl]. unfold restore_one at 2.
    destruct (D !! pending_key p) as [q|] eqn:E.
    + pose proof (Hnew p q ltac:(by left) E) as Hlt. rewrite (proj2 (Z.leb_gt _ _)) by lia.
      specialize (IH D (retired ++ [p]) Hnd). destruct (foldl restore_one (D, retired ++ [p]) I) as [D' retired'].
      destruct IH as [IH1 IH2]; [intros p' q' Hp'; apply Hnew; by right|]. split; [|rewrite length_app in IH2; simpl in *; lia].
      intros k. rewrite IH1. cbn [list_find]. case_decide as Hk; [subst k; by rewrite E|]. destruct (D !! k); [done|].
      by destruct (list_find _ I) as [[]|].
    + specialize (IH (<[pending_key p := p]> D) retired Hnd). destruct (foldl restore_one (<[pending_key p := p]> D, retired) I) as [D' retired'].
      destruct IH as [IH1 IH2].
      { intros p' q' Hp'. rewrite lookup_insert_ne; [apply Hnew; by right|]. intros Heq. apply Hp, list_elem_of_fmap. by exists p'. }
      rewrite map_size_insert_None in IH2 by done. split; [|simpl in *; lia].
      intros k. rewrite IH1. cbn [list_find]. case_decide as Hk; [subst k; by rewrite lookup_insert_eq, E|]. rewrite lookup_insert_ne by done.
      destruct (D !! k); [done|]. by destruct (list_find _ I) as [[]|].
Qed.

(** The flush of everything, and of a part of it. *)
Lemma view_all now v I D : Forall (λ p, delta_known U (pd_delta p)) I →
  live_entries ttl now (view (live_entries ttl now (foldl apply_spec v (pd_delta <$> I))) [] D) = live_entries ttl now (view v I D).
Proof using . intros Hk. apply live_overlay. cbn [fmap list_fmap foldl]. by rewrite live_live. Qed.

Lemma view_some now v I D D' j : NoDup (pending_key <$> I) → Forall (λ p, delta_known U (pd_delta p)) I →
  (∀ k, D' !! k = match D !! k with Some q => Some q | None => snd <$> list_find (λ p, pending_key p = k) I end) →
  live_entries ttl now (view (live_entries ttl now (foldl apply_spec v (take j (pd_delta <$> I)))) [] D') = live_entries ttl now (view v I D).
Proof using HU.
  intros Hnd Hk HD. trans (live_entries ttl now (overlay D' (foldl apply_spec v (take j (pd_delta <$> I))))).
  { apply live_overlay. cbn [fmap list_fmap foldl]. by rewrite live_live. }
  f_equal. apply map_eq. intros k. unfold view. rewrite !overlay_lookup, HD. destruct (D !! k) as [q|] eqn:E; [done|].
  destruct (apply_list_lookup v I k Hnd Hk) as [H1 H2]. destruct (list_find _ I) as [[i p]|] eqn:Ef; simpl.
  - apply list_find_Some in Ef as (Hi & Hp & _). symmetry. apply H1; [by apply list_elem_of_lookup_2 in Hi|done].
  - apply list_find_None in Ef. rewrite Forall_forall in Ef.
    assert (Hn : k ∉ pending_key <$> I) by (intros (p & -> & Hp)%list_elem_of_fmap; by apply (Ef p)).
    rewrite H2 by done. rewrite <- fmap_take.
    assert (Hnd' : NoDup (pending_key <$> take j I)) by (rewrite fmap_take; eapply sublist_NoDup; [exact Hnd|apply sublist_take]).
    apply (apply_list_lookup v (take j I) k Hnd' (Forall_take _ _ _ Hk)). rewrite fmap_take. intros Hin. apply Hn.
    apply elem_of_take in Hin as (i & Hi & _). by eapply list_elem_of_lookup_2.
Qed.
End View.
