(* ===== verification/MemoryCommitSpec.v ===== *)
(** * MemoryCommitSpec: what the owner of a packet cache keeps true

    The slots count the dirty and the in-flight deltas and stay within the
    capacity; revisions grow; every pending delta fits a record; and the
    memory is what is on the disk with the in-flight and the dirty deltas over
    it, up to what has expired. *)

From S2P Require Export MemoryDirtySpec.

(** ** Batches *)

Lemma size_over revision (batch : gmap string PersistDelta) (D : gmap string PendingDelta) : size D ≤ size (over revision batch D) ≤ size D + size batch.
Proof.
  unfold over. rewrite <- !size_dom, dom_union_L, <- (dom_fmap_L (mkPending revision) batch). split; [apply subseteq_size; set_solver|].
  rewrite size_union_alt. assert (size (dom D ∖ dom (mkPending revision <$> batch)) ≤ size (dom D)); [apply subseteq_size; set_solver|lia].
Qed.

Lemma remove_batch_lookup keys batch k :
  remove_batch keys batch !! k = if bool_decide (k ∈ keys) then Some (Remove k) else batch !! k.
Proof.
  unfold remove_batch. revert batch. induction keys as [|k' keys IH]; intros batch; [done|]. cbn [foldl]. rewrite IH.
  destruct (decide (k ∈ keys)); [rewrite !bool_decide_eq_true_2; [done|by right|done]|]. rewrite (bool_decide_eq_false_2 (k ∈ keys)) by done.
  destruct (decide (k = k')) as [->|Hk]; [rewrite lookup_insert_eq, bool_decide_eq_true_2; [done|by left]|].
  rewrite lookup_insert_ne, bool_decide_eq_false_2; [done|set_solver|done].
Qed.

Lemma remove_batch_size keys batch : NoDup keys → (∀ k, k ∈ keys → batch !! k = None) → size (remove_batch keys batch) = length keys + size batch.
Proof.
  unfold remove_batch. revert batch. induction keys as [|k keys IH]; intros batch Hnd Hb; [done|]. apply NoDup_cons in Hnd as [Hk Hnd]. cbn [foldl].
  rewrite IH; [|done|].
  - rewrite map_size_insert_None by (apply Hb; by left). simpl. lia.
  - intros k' Hk'. rewrite lookup_insert_ne; [apply Hb; by right|]. by intros ->.
Qed.

(** An entry whose removal fits a record; the time of a delta can only make
    its text longer up to the greatest time. *)
Record admission_laws {ENV : PersistEnv} (U : list PacketCacheEntry) : Prop := {
  al_created : ∀ d t, fits u64_max t →
    (persist_delta_encoded_len (set_upsert_created_at_unix d t) <= persist_delta_encoded_len (set_upsert_created_at_unix d u64_max))%Z;
  al_remove : ∀ e, e ∈ U → (record_size [Remove (pe_cache_key e)] <= MAX_PERSIST_WAL_RECORD_BYTES)%Z
}.

Section Commit.
Context {ENV : PersistEnv}.
Context (cf : PersistConfig) (U : list PacketCacheEntry).
Context (HU : universe (cf_root_dir cf) U) (HA : admission_laws U).
Implicit Types (o : Owner) (D : gmap string PendingDelta) (I : list PendingDelta).

Notation shows := (shows (cf_root_dir cf) U).
Notation live := (live_entries (cf_ttl_secs cf)).
Notation pending_ok := (pending_ok U).

Record owner_ok o I : Prop := {
  oo_slots : ow_pending_slots o = (Z.of_nat (size (ow_dirty o)) + Z.of_nat (length I))%Z;
  oo_capacity : (ow_pending_slots o <= MAX_DIRTY_DELTAS)%Z;
  oo_keys : dirty_keys (ow_dirty o);
  oo_distinct : NoDup (pending_key <$> I);
  oo_dirty : map_Forall (λ _ p, pending_ok p ∧ (pd_revision p <= ow_next_revision o)%Z) (ow_dirty o);
  oo_inflight : Forall (λ p, pending_ok p ∧ (pd_revision p <= ow_next_revision o)%Z) I;
  oo_newer : ∀ p q, p ∈ I → ow_dirty o !! pending_key p = Some q → (pd_revision p < pd_revision q)%Z;
  oo_revision : fits u64_max (ow_next_revision o);
  oo_memory : ∃ m, shows (ow_memory o) m ∧ latest_ok (ow_memory o)
}.

(** What was persisted is older than what is pending. *)
Record persisted_ok (persisted : gmap string Z) o I : Prop := {
  po_old : map_Forall (λ _ r, (r <= ow_next_revision o)%Z) persisted;
  po_dirty : ∀ k r q, persisted !! k = Some r → ow_dirty o !! k = Some q → (r < pd_revision q)%Z;
  po_inflight : ∀ p r, p ∈ I → persisted !! pending_key p = Some r → (r < pd_revision p)%Z
}.

Lemma oo_known o I : owner_ok o I →
  map_Forall (λ _ p, delta_known U (pd_delta p)) (ow_dirty o) ∧ Forall (λ p, delta_known U (pd_delta p)) I.
Proof using .
  intros Ho. split; [intros k p Hp; by apply (oo_dirty _ _ Ho k p)|]. eapply Forall_impl; [apply (oo_inflight _ _ Ho)|]. by intros p [[? _] _].
Qed.

(** The memory agrees with the view of the owner. *)
Definition agrees (now : Z) v o I : Prop := live now (entries_by_hash (ow_memory o)) = live now (view v I (ow_dirty o)).

(** ** Recording *)

Definition batch_ok (batch : gmap string PersistDelta) : Prop :=
  batch_keys batch ∧ map_Forall (λ _ d, delta_known U d ∧ (record_size [d] <= MAX_PERSIST_WAL_RECORD_BYTES)%Z) batch.

(** The reservation and the recording of a batch: it is laid over the dirty
    map, or the owner keeps all but a revision. *)
Definition recorded o I (batch : gmap string PersistDelta) (ok : bool) o' : Prop :=
  owner_ok o' I ∧ ow_memory o' = ow_memory o ∧
  ow_dirty o' = (if ok then over (ow_next_revision o + 1) batch (ow_dirty o) else ow_dirty o) ∧
  (ow_next_revision o <= ow_next_revision o' <= ow_next_revision o + 1)%Z ∧
  ∀ persisted, persisted_ok persisted o I → persisted_ok persisted o' I.

Lemma revise_owner o I dirty slots r' memory :
  owner_ok o I → (ow_next_revision o <= r')%Z → (r' <= u64_max)%Z → dirty = ow_dirty o → slots = ow_pending_slots o → memory = ow_memory o →
  ∀ available connected, let o' := mkOwner memory dirty slots r' available connected in
  owner_ok o' I ∧ ∀ persisted, persisted_ok persisted o I → persisted_ok persisted o' I.
Proof using .
  intros [] Hr Hmax -> -> -> available connected o'. split.
  - split; simpl; try done.
    + intros k p Hp. split; [by apply (oo_dirty0 k p)|]. etrans; [by apply (oo_dirty0 k p)|lia].
    + eapply Forall_impl; [exact oo_inflight0|]. intros p [? ?]. split; [done|lia].
    + unfold fits in *. lia.
  - intros persisted []. split; simpl; [|done|done]. intros k r Hk. etrans; [by apply (po_old0 k r)|done].
Qed.

Lemma recorded_none o I batch dirty slots r' memory available connected : owner_ok o I →
  (ow_next_revision o <= r' <= ow_next_revision o + 1)%Z → (r' <= u64_max)%Z → dirty = ow_dirty o → slots = ow_pending_slots o →
  memory = ow_memory o → recorded o I batch false (mkOwner memory dirty slots r' available connected).
Proof using .
  intros Ho [Hr1 Hr2] Hmax -> -> ->.
  destruct (revise_owner o I _ _ r' _ Ho Hr1 Hmax eq_refl eq_refl eq_refl available connected) as [Ho' Hp].
  split; [done|]. split; [done|]. split; [done|]. split; [done|]. exact Hp.
Qed.

Lemma recorded_some o I batch available connected slots : owner_ok o I → (ow_next_revision o < u64_max)%Z → batch_ok batch →
  slots = (ow_pending_slots o + Z.of_nat (size (over (ow_next_revision o + 1) batch (ow_dirty o)) - size (ow_dirty o)))%Z →
  (slots <= MAX_DIRTY_DELTAS)%Z →
  recorded o I batch true
    (mkOwner (ow_memory o) (over (ow_next_revision o + 1) batch (ow_dirty o)) slots (ow_next_revision o + 1) available connected).
Proof using .
  intros Ho Hmax [Hbk Hbo] -> Hcap. set (D' := over _ _ _) in *. pose proof (size_over (ow_next_revision o + 1) batch (ow_dirty o)) as Hsz. fold D' in Hsz.
  assert (Hl : ∀ k q, D' !! k = Some q → (∃ d, batch !! k = Some d ∧ q = mkPending (ow_next_revision o + 1) d) ∨ ow_dirty o !! k = Some q).
  { intros k q. unfold D'. rewrite over_lookup. destruct (batch !! k) as [d|]; [intros [= <-]; left; by exists d|by right]. }
  split; [|split; [done|split; [done|split; [simpl; lia|]]]].
  - pose proof Ho as []. split; simpl.
    + lia.
    + exact Hcap.
    + intros k p [(d & Hd & ->)|Hp]%Hl; [by apply (Hbk k d)|by apply (oo_keys0 k p)].
    + done.
    + intros k p [(d & Hd & ->)|Hp]%Hl; [split; [exact (Hbo k d Hd)|simpl; lia]|]. destruct (oo_dirty0 k p Hp). split; [done|lia].
    + eapply Forall_impl; [exact oo_inflight0|]. intros p [? ?]. split; [done|lia].
    + intros p q Hp [(d & Hd & ->)|Hq]%Hl; [|by apply oo_newer0]. rewrite Forall_forall in oo_inflight0.
      destruct (oo_inflight0 p Hp) as [_ Hle]. simpl. lia.
    + unfold fits in *. lia.
    + done.
  - intros persisted []. split; simpl.
    + intros k r Hk. etrans; [by apply (po_old0 k r)|lia].
    + intros k r q Hk [(d & Hd & ->)|Hq]%Hl; [|by eapply po_dirty0]. pose proof (po_old0 k r Hk). simpl in *. lia.
    + done.
Qed.

Lemma reserve_record_spec o I batch : owner_ok o I → (ow_next_revision o < u64_max)%Z → batch_ok batch →
  let '(r, o1) := reserve_mutation o (Z.of_nat (size batch)) in
  match r with
  | Err _ => recorded o I batch false o1
  | Ok revision => let '(r2, o2) := record_reserved_batch o1 batch revision (Z.of_nat (size batch)) in recorded o I batch (is_ok r2) o2
  end.
Proof using .
  intros Ho Hmax Hb. pose proof Ho as []. unfold reserve_mutation. destruct (ow_available o) eqn:Eav; cbn [negb].
  2: { destruct o. cbn in *. apply recorded_none; [done|simpl; lia|unfold fits in *; lia|done..]. }
  assert (Hrev : saturating_add u64_max (ow_next_revision o) 1 = (ow_next_revision o + 1)%Z) by (apply saturating_add_exact; lia).
  assert (Hwrap : wrapping_add u64_max (ow_next_revision o) 1 = (ow_next_revision o + 1)%Z) by (apply wrapping_add_exact; unfold fits in *; lia).
  rewrite Hrev, Hwrap. cbn [ow_memory ow_dirty ow_pending_slots ow_available ow_connected].
  assert (Holder : map_Forall (λ _ p, pd_revision p <= ow_next_revision o + 1)%Z (ow_dirty o)).
  { intros k p Hp. destruct (oo_dirty0 k p Hp) as [_ ?]. simpl. lia. }
  destruct (Z.of_nat (size batch) =? 0)%Z eqn:E0.
  - apply Z.eqb_eq in E0. set (o1 := mkOwner _ _ _ _ _ _).
    assert (batch = ∅) as -> by (apply map_size_empty_inv; lia).
    pose proof (record_reserved_spec o1 ∅ (ow_next_revision o + 1) (proj1 Hb) Holder) as Hrec.
    rewrite E0 in *. cbn [ow_connected ow_dirty ow_pending_slots o1] in Hrec. rewrite bool_decide_eq_true_2, orb_true_r in Hrec by done. rewrite Hrec.
    cbn [is_ok]. unfold o1, set_dirty. cbn [ow_memory ow_available ow_connected ow_next_revision]. apply recorded_some; [done|done|done|lia|].
    pose proof (size_over (ow_next_revision o + 1) ∅ (ow_dirty o)) as Hsz. rewrite map_size_empty in Hsz. lia.
  - destruct (_ <=? _)%Z eqn:Ecap; [|apply recorded_none; [done|lia|unfold fits in *; lia|done..]]. apply Z.leb_le in Ecap.
    set (o1 := set_dirty _ _ _). pose proof (record_reserved_spec o1 batch (ow_next_revision o + 1) (proj1 Hb) Holder) as Hrec.
    cbn [ow_connected ow_dirty ow_pending_slots o1 set_dirty] in Hrec. rewrite Hrec.
    unfold o1, set_dirty. cbn [ow_memory ow_available ow_connected ow_next_revision]. destruct (_ || _); cbn [is_ok].
    + pose proof (size_over (ow_next_revision o + 1) batch (ow_dirty o)) as Hsz. apply recorded_some; [done|done|done|lia|lia].
    + apply recorded_none; [done|lia|unfold fits in *; lia|done|lia|done].
Qed.

(** ** The memory *)

Lemma expired_keys_where ttl now c : expired_entry_keys_at ttl now c = keys_where (expired_at ttl now) c.
Proof using .
  unfold expired_entry_keys_at. destruct (ttl =? 0)%Z eqn:E; [|done]. symmetry. apply keys_where_none. intros e.
  unfold expired_at, is_expired. by rewrite E.
Qed.

Lemma keys_where_NoDup p c : NoDup (keys_where p c).
Proof using . unfold keys_where. rewrite sort_by_cmp_perm. apply NoDup_fst_map_to_list. Qed.

Lemma keys_where_size p c : length (keys_where p c) ≤ size (entries_by_hash c).
Proof using .
  rewrite <- (size_list_to_set (C := gset string)) by apply keys_where_NoDup. rewrite <- size_dom. apply subseteq_size.
  intros k [e [He _]]%elem_of_list_to_set%elem_of_keys_where. apply elem_of_dom. by exists e.
Qed.

Lemma insert_shows c m e : shows c m → latest_ok c → e ∈ U →
  shows (insert_owned c e).1 (<[pe_cache_key e := e]> m) ∧ latest_ok (insert_owned c e).1.
Proof using HU.
  intros [Hc Hu He Hw] Hl Hin.
  assert (Hu' : from_universe U (<[pe_cache_key e := e]> m)).
  { intros k e' [[<- <-]|[_ Hk]]%lookup_insert_Some; [done|by apply Hu]. }
  change ((insert_owned c e).1) with (insert_entry c e).
  destruct (insert_entry_spec c e Hc) as (Hc' & He' & Hl' & Hw' & _).
  { rewrite He, Hw. by apply (universe_weight _ U HU). }
  rewrite He in He'. split; [split; [done|done|done|congruence]|]. unfold latest_ok. rewrite Hl', He', Hl, fmap_insert, He. f_equal.
  pose proof (un_canonical _ _ HU) as Hcan. rewrite Forall_forall in Hcan. by destruct (Hcan e Hin).
Qed.

Lemma remove_shows p reason c m : shows c m → latest_ok c →
  shows (remove_where p reason c).1 (kept p m) ∧ latest_ok (remove_where p reason c).1.
Proof using HU.
  intros Hs Hl. pose proof (shows_canonical _ U HU c m Hs) as Hcan. destruct Hs as [Hc Hu He Hw].
  destruct (remove_where_spec p reason c Hc) as (Hc' & He' & _ & Hw' & _ & _ & Hl'). rewrite He in He'.
  split; [split; [done|by apply from_universe_filter|done|congruence]|by apply Hl'].
Qed.

(** What a prune removes. *)
Definition prune_predicate (request : ContextStorePruneRequest) (now : Z) (e : PacketCacheEntry) : bool :=
  if pq_all request then true else expired_at (default DEFAULT_PERSIST_TTL_SECS (pq_ttl_secs request)) now e.

Lemma prune_keys request now c : prune_candidate_keys_at request now c = keys_where (prune_predicate request now) c.
Proof using .
  unfold prune_candidate_keys_at, prune_predicate. destruct (pq_all request); [done|]. by rewrite expired_keys_where.
Qed.

Lemma prune_shows request now c m : shows c m → latest_ok c →
  shows (prune_at request now c).1 (kept (prune_predicate request now) m) ∧ latest_ok (prune_at request now c).1.
Proof using HU.
  intros Hs Hl. unfold prune_at, prune_predicate. destruct (pq_all request) eqn:Eall.
  - set (c1 := clear_indexes (set_latest (set_entries c ∅) ∅)).
    assert (Hnone : kept (λ _, true) m = ∅).
    { apply map_empty. intros k. apply eq_None_not_Some. intros [e [_ ?]%map_lookup_filter_Some]. done. }
    assert (H1 : shows c1 ∅ ∧ latest_ok c1).
    { split; [split; [by apply coherent_empty|apply from_universe_empty|done|apply Hs]|]. unfold latest_ok. simpl. by rewrite fmap_empty. }
    cbn [fst]. rewrite Hnone. destruct (0 <? cache_len c)%Z; [|done]. destruct H1 as [Hs1 Hl1]. split; [by apply shows_counters|done].
  - set (p := expired_at _ now). pose proof (remove_shows p ManualPrune c m Hs Hl) as Hr. by destruct (remove_where p ManualPrune c).
Qed.

Lemma remove_batch_ok keys batch c m : shows c m → (∀ k, k ∈ keys → is_Some (m !! k)) → batch_ok batch → batch_ok (remove_batch keys batch).
Proof using HA.
  intros [_ Hu _ _] Hk [Hb1 Hb2].
  assert (Hr : ∀ k d, remove_batch keys batch !! k = Some d → k ∈ keys ∧ d = Remove k ∨ batch !! k = Some d).
  { intros k d. rewrite remove_batch_lookup. case_bool_decide; [intros [= <-]; by left|by right]. }
  split; intros k d [[Hin ->]|Hd]%Hr; [done|by apply (Hb1 k d)| |by apply (Hb2 k d)]. split; [done|].
  destruct (Hk k Hin) as [e He]. destruct (Hu k e He) as [HeU <-]. by apply (al_remove U HA).
Qed.

Lemma view_over v I revision batch D k :
  view v I (over revision batch D) !! k = match batch !! k with Some d => delta_value d | None => view v I D !! k end.
Proof using . unfold view. rewrite !overlay_lookup, over_lookup. by destruct (batch !! k). Qed.

(** Both sides change alike. *)
Lemma agrees_batch now v I revision batch D m m' :
  live now m = live now (view v I D) →
  (∀ k, match batch !! k with
        | Some d => live now m' !! k = e ← delta_value d; if expired_at (cf_ttl_secs cf) now e then None else Some e
        | None => live now m' !! k = live now m !! k end) →
  live now m' = live now (view v I (over revision batch D)).
Proof using .
  intros Hv Hb. apply map_eq. intros k. specialize (Hb k). rewrite (live_lookup _ _ (view _ _ _)), view_over.
  destruct (batch !! k) as [d|]; rewrite Hb; [done|]. by rewrite Hv, live_lookup.
Qed.

(** Committing keeps the owner in order, and the memory in agreement. *)
Definition commits o I o' (now : Z) : Prop :=
  owner_ok o' I ∧ (∀ persisted, persisted_ok persisted o I → persisted_ok persisted o' I) ∧
  (ow_next_revision o <= ow_next_revision o' <= ow_next_revision o + 1)%Z ∧ (∀ v, agrees now v o I → agrees now v o' I).

Lemma commits_refl o I now : owner_ok o I → commits o I o now.
Proof using . intros Ho. split; [done|]. split; [done|]. split; [lia|done]. Qed.

Lemma recorded_none_commits o I batch o' now : recorded o I batch false o' → commits o I o' now.
Proof using .
  intros (Ho & Hm & Hd & Hn & Hp). split; [done|]. split; [done|]. split; [done|]. intros v Hv. unfold agrees. by rewrite Hm, Hd.
Qed.

(** The batch was recorded and the memory follows. *)
Lemma recorded_some_commits o I batch o' memory m m' now : recorded o I batch true o' →
  shows (ow_memory o) m → shows memory m' → latest_ok memory →
  (∀ k, match batch !! k with
        | Some d => live now m' !! k = e ← delta_value d; if expired_at (cf_ttl_secs cf) now e then None else Some e
        | None => live now m' !! k = live now m !! k end) →
  commits o I (set_memory o' memory) now.
Proof using .
  intros ([] & Hmem & Hd & Hn & Hp) Hs Hs' Hl' Hb. split; [|split; [|split; [done|]]].
  - split; try done. by exists m'.
  - intros persisted Hper. destruct (Hp persisted Hper). by split.
  - intros v Hv. unfold agrees in *. simpl. rewrite (sh_entries _ _ _ _ Hs), Hd in *. rewrite (sh_entries _ _ _ _ Hs').
    by eapply agrees_batch.
Qed.

Lemma removed_live p now m k e : m !! k = Some e → p e = true → live now (kept p m) !! k = None.
Proof using .
  intros He Hp. rewrite live_lookup. assert (kept p m !! k = None) as ->; [|done].
  apply map_lookup_filter_None. right. intros e' He' Hp'. simplify_eq. simpl in Hp'. congruence.
Qed.
Lemma kept_live p now m k : (∀ e, m !! k = Some e → p e = false) → live now (kept p m) !! k = live now m !! k.
Proof using .
  intros Hp. rewrite !live_lookup. assert (kept p m !! k = m !! k) as ->; [|done]. apply option_eq. intros e.
  unfold kept. rewrite map_lookup_filter_Some. split; [by intros []|]. intros He. split; [done|]. by apply Hp.
Qed.

Lemma prune_spec o I request now : owner_ok o I → (ow_next_revision o < u64_max)%Z → commits o I (prune_owner_at o request now).2 now.
Proof using HA HU.
  intros Ho Hmax. destruct (oo_memory _ _ Ho) as (m & Hs & Hl). pose proof (sh_entries _ _ _ _ Hs) as He. unfold prune_owner_at.
  rewrite prune_keys. set (p := prune_predicate request now). set (keys := keys_where p (ow_memory o)).
  assert (Hkeys : ∀ k, k ∈ keys ↔ ∃ e, m !! k = Some e ∧ p e = true) by (intros k; unfold keys; by rewrite elem_of_keys_where, He).
  assert (Hb : batch_ok (remove_batch keys ∅)).
  { eapply remove_batch_ok; [exact Hs|intros k (e & Hk & _)%Hkeys; by exists e|]. split; [by intros ? ? ?|by intros ? ? ?]. }
  assert (Hsize : length keys = size (remove_batch keys ∅)).
  { rewrite remove_batch_size, map_size_empty; [lia|apply keys_where_NoDup|intros; apply lookup_empty]. }
  rewrite Hsize. pose proof (reserve_record_spec o I _ Ho Hmax Hb) as Hrec.
  destruct (reserve_mutation o _) as [[revision|e] o1]; [|by eapply recorded_none_commits].
  destruct (record_reserved_batch o1 _ revision _) as [[u|e] o2]; [|by eapply recorded_none_commits].
  destruct (prune_shows request now (ow_memory o) m Hs Hl) as [Hs' Hl']. fold p in Hs'.
  assert (Hm2 : ow_memory o2 = ow_memory o) by apply Hrec. rewrite Hm2.
  destruct (prune_at request now (ow_memory o)) as [memory report]. cbn [fst snd] in *.
  apply (recorded_some_commits o I (remove_batch keys ∅) o2 memory m (kept p m) now); [done..|].
  intros k. rewrite remove_batch_lookup, lookup_empty. case_bool_decide as Hk.
  - apply Hkeys in Hk as (e & Hk & Hp). by apply (removed_live p now m k e).
  - apply kept_live. intros e Hke. apply not_true_iff_false. intros Hp. apply Hk, Hkeys. by exists e.
Qed.

Lemma payload_bound n : (default usize_max (persist_wal_record_payload_len [n]) <= MAX_PERSIST_WAL_RECORD_BYTES)%Z →
  (empty_record_len + n <= MAX_PERSIST_WAL_RECORD_BYTES)%Z.
Proof using .
  unfold persist_wal_record_payload_len. cbn [foldl length Nat.sub Z.of_nat mbind option_bind].
  assert (Hbig : (MAX_PERSIST_WAL_RECORD_BYTES < usize_max)%Z) by (unfold MAX_PERSIST_WAL_RECORD_BYTES, usize_max, u64_max; lia).
  destruct (checked_add usize_max empty_record_len n) as [t|] eqn:E1; [|simpl; lia]. apply checked_add_Some in E1 as [-> E1].
  unfold mbind, option_bind. rewrite checked_add_ok by lia. simpl. lia.
Qed.

Lemma commit_spec o I e now : owner_ok o I → (ow_next_revision o < u64_max)%Z → fits u64_max now → set_created_at e now ∈ U →
  commits o I (commit_prepared_update_at cf o (prepare_update e) now).2 now.
Proof using HA HU.
  intros Ho Hmax Hnow HeU. destruct (oo_memory _ _ Ho) as (m & Hs & Hl). pose proof (sh_entries _ _ _ _ Hs) as He.
  unfold commit_prepared_update_at. cbn [pm_entry prepare_update pm_delta pm_wal_record_payload_bytes].
  destruct (negb _); [by apply commits_refl|]. destruct (_ <? _)%Z eqn:Esize; [by apply commits_refl|]. apply Z.ltb_ge in Esize.
  set (e' := set_created_at e now) in *. set (key := pe_cache_key e).
  set (delta := set_upsert_created_at_unix _ now). assert (Hdelta : delta = Upsert (from_entry e')) by done.
  rewrite expired_keys_where. set (p := expired_at (cf_ttl_secs cf) now).
  set (removed := filter (λ k, k ≠ key) (keys_where p (ow_memory o))).
  assert (Hremoved : ∀ k, k ∈ removed ↔ k ≠ key ∧ ∃ x, m !! k = Some x ∧ p x = true).
  { intros k. unfold removed. by rewrite list_elem_of_filter, elem_of_keys_where, He. }
  assert (Hone : batch_ok {[key := delta]}).
  { split; intros k d [<- <-]%lookup_singleton_Some; [done|]. rewrite Hdelta. split; [by exists e'|].
    pose proof (al_created U HA (Upsert (from_entry e)) now Hnow) as Hlen.
    change (set_upsert_created_at_unix (set_upsert_created_at_unix (Upsert (from_entry e)) 0) u64_max)
      with (set_upsert_created_at_unix (Upsert (from_entry e)) u64_max) in Esize. apply payload_bound in Esize.
    change (Upsert (from_entry e')) with (set_upsert_created_at_unix (Upsert (from_entry e)) now).
    unfold record_size. cbn [fmap list_fmap length]. rewrite sumZ_cons, sumZ_nil. cbn [Nat.sub Z.of_nat]. lia. }
  assert (Hb : batch_ok (remove_batch removed {[key := delta]})).
  { eapply remove_batch_ok; [exact Hs|intros k (_ & x & Hx & _)%Hremoved; by exists x|done]. }
  assert (Hsize : size (remove_batch removed {[key := delta]}) = length removed + 1).
  { rewrite remove_batch_size, map_size_singleton; [done|apply NoDup_filter, keys_where_NoDup|].
    intros k [Hk _]%Hremoved. by rewrite lookup_singleton_ne. }
  assert (Hslots : saturating_add usize_max (Z.of_nat (length removed)) 1 = Z.of_nat (size (remove_batch removed {[key := delta]}))).
  { rewrite Hsize. pose proof (keys_where_size p (ow_memory o)) as Hks. rewrite He in Hks.
    pose proof (universe_size _ U HU m (sh_universe _ _ _ _ Hs)). 
    assert (Hlf : length removed ≤ length (keys_where p (ow_memory o))) by apply length_filter. rewrite saturating_add_exact by lia. lia. }
  rewrite Hslots. pose proof (reserve_record_spec o I _ Ho Hmax Hb) as Hrec.
  destruct (reserve_mutation o _) as [[revision|err] o1]; [|by eapply recorded_none_commits].
  destruct (record_reserved_batch o1 _ revision _) as [[u|err] o2]; [|by eapply recorded_none_commits].
  destruct (insert_shows (ow_memory o) m e' Hs Hl HeU) as [Hs1 Hl1].
  assert (Hm2 : ow_memory o2 = ow_memory o) by apply Hrec. rewrite Hm2.
  destruct (insert_owned (ow_memory o) e') as [memory1 retired]. cbn [fst] in Hs1, Hl1.
  destruct (remove_shows p ExpiredTtl memory1 _ Hs1 Hl1) as [Hs2 Hl2]. unfold p in Hs2, Hl2. rewrite <- evict_is_remove in Hs2, Hl2.
  destruct (evict_expired_entries_at (cf_ttl_secs cf) now memory1) as [memory2 evicted]. cbn [fst snd] in *.
  eapply (recorded_some_commits o I _ o2 memory2 m); [exact Hrec|exact Hs|exact Hs2|exact Hl2|].
  intros k. change (pe_cache_key e') with key. fold (live now (<[key := e']> m)). rewrite live_live by lia.
  rewrite remove_batch_lookup. case_bool_decide as Hk.
  - apply Hremoved in Hk as (Hne & x & Hx & Hp). rewrite live_lookup, lookup_insert_ne, Hx by done. simpl.
    unfold p in Hp. by rewrite Hp.
  - destruct (decide (k = key)) as [->|Hne].
    + rewrite lookup_singleton_eq, live_lookup, lookup_insert_eq, Hdelta. cbn [delta_value]. by rewrite (known_upsert _ U HU e' HeU).
    + rewrite lookup_singleton_ne by done. by rewrite !live_lookup, lookup_insert_ne.
Qed.

(** ** The two steps of a flush *)

Lemma flush_take_spec w o : owner_ok o [] → persisted_ok (wk_persisted_revisions w) o [] →
  let o' := set_dirty o ∅ (ow_pending_slots o) in
  flush_take w o = (o', btree_values (ow_dirty o)) ∧ owner_ok o' (btree_values (ow_dirty o)) ∧
  persisted_ok (wk_persisted_revisions w) o' (btree_values (ow_dirty o)) ∧
  ∀ v, view v (btree_values (ow_dirty o)) ∅ = view v [] (ow_dirty o).
Proof using HU.
  intros Ho Hp. pose proof Ho as []. destruct Hp as [Hold Hdirty _]. simpl.
  assert (Hall : Forall (λ p, still_pending w p = true) (btree_values (ow_dirty o))).
  { apply Forall_forall. intros p [k Hk]%elem_of_btree_values. unfold still_pending. rewrite (oo_keys0 k p Hk).
    destruct (wk_persisted_revisions w !! k) as [r|] eqn:E; [|done]. apply Z.ltb_lt. by apply (Hdirty k). }
  split_and!.
  - unfold flush_take. assert (E1 : filter (λ p, still_pending w p) (btree_values (ow_dirty o)) = btree_values (ow_dirty o)).
    { apply filter_all. eapply Forall_impl; [exact Hall|]. intros p Hpend. by rewrite Hpend. }
    assert (E2 : filter (λ p, negb (still_pending w p)) (btree_values (ow_dirty o)) = []).
    { apply elem_of_nil_inv. intros p [Hn Hin]%list_elem_of_filter. rewrite Forall_forall in Hall. by rewrite (Hall p Hin) in Hn. }
    rewrite E1, E2. do 2 f_equal. simpl. lia.
  - split; simpl; try done.
    + rewrite length_btree_values, map_size_empty. simpl in *. lia.
    + by apply NoDup_btree_keys.
    + apply Forall_forall. intros p [k Hk]%elem_of_btree_values. by apply (oo_dirty0 k p).
  - split; simpl; [done|done|]. intros p r [k Hk]%elem_of_btree_values Hr. rewrite (oo_keys0 k p Hk) in Hr. by apply (Hdirty k).
  - intros v. destruct (oo_known o [] Ho) as [Hk _]. by apply (view_take (cf_root_dir cf) U HU).
Qed.

Lemma max_revision_lookup (l : list PendingDelta) (m : gmap string Z) k r : foldl max_revision m l !! k = Some r →
  (∃ p, p ∈ l ∧ pending_key p = k ∧ r = pd_revision p) ∨ m !! k = Some r.
Proof using .
  revert m. induction l as [|p l IH]; intros m; [by right|]. cbn [foldl]. intros [(q & Hq & ? & ?)|Hm]%IH; [left; exists q; split; [by right|done]|].
  unfold max_revision in Hm. destruct (decide (k = pending_key p)) as [->|Hk]; [|rewrite lookup_insert_ne in Hm by done; by right].
  rewrite lookup_insert_eq in Hm. injection Hm as <-. destruct (m !! pending_key p) as [r0|] eqn:E; [|left; exists p; split; [by left|done]].
  destruct (Z.max_spec r0 (pd_revision p)) as [[_ ->]|[_ ->]]; [left; exists p; split; [by left|done]|by right].
Qed.

Lemma finish_all_spec persisted o I : owner_ok o I → persisted_ok persisted o I →
  let o' := set_dirty o (ow_dirty o) (ow_pending_slots o - Z.of_nat (length I)) in
  owner_ok o' [] ∧ persisted_ok (foldl max_revision persisted I) o' [].
Proof using .
  intros Ho Hp. pose proof Ho as []. destruct Hp as [Hold Hdirty Hin]. simpl. split.
  - split; simpl; try done; [lia|lia|constructor|intros p q Hp%elem_of_nil; done].
  - pose proof (proj1 (Forall_forall _ _) oo_inflight0) as Hfl. split; simpl.
    + intros k r [(p & Hp & <- & ->)|Hk]%max_revision_lookup; [by apply Hfl|by apply (Hold k)].
    + intros k r q [(p & Hp & <- & ->)|Hk]%max_revision_lookup Hq; [by apply oo_newer0|by eapply Hdirty].
    + intros p r Hp%elem_of_nil. done.
Qed.

Lemma finish_some_spec persisted o I : owner_ok o I → persisted_ok persisted o I →
  let o' := restore_pending_deltas o I in
  owner_ok o' [] ∧ persisted_ok persisted o' [] ∧ ow_memory o' = ow_memory o ∧ ow_next_revision o' = ow_next_revision o ∧
  ∀ k, ow_dirty o' !! k = match ow_dirty o !! k with Some q => Some q | None => snd <$> list_find (λ p, pending_key p = k) I end.
Proof using .
  intros Ho Hp. pose proof Ho as []. destruct Hp as [Hold Hdirty Hin]. simpl. unfold restore_pending_deltas, merge_restored_pending_deltas.
  pose proof (merge_restored I (ow_dirty o) [] oo_distinct0 oo_newer0) as Hm.
  destruct (foldl restore_one (ow_dirty o, []) I) as [D' retired]. destruct Hm as [HD Hsize].
  pose proof (proj1 (Forall_forall _ _) oo_inflight0) as Hfl.
  assert (Hl : ∀ k q, D' !! k = Some q → ow_dirty o !! k = Some q ∨ q ∈ I ∧ pending_key q = k).
  { intros k q. rewrite HD. destruct (ow_dirty o !! k); [by left|]. destruct (list_find _ I) as [[i p]|] eqn:E; [|done].
    intros [= <-]. right. apply list_find_Some in E as (Hi & Hk & _). split; [by eapply list_elem_of_lookup_2|done]. }
  split_and!; [| |done|done|done].
  - split; simpl; try done.
    + simpl in Hsize. lia.
    + simpl in Hsize. lia.
    + intros k p [Hk|[_ Hk]]%Hl; [by apply (oo_keys0 k p)|done].
    + constructor.
    + intros k p [Hk|[Hk _]]%Hl; [by apply (oo_dirty0 k p)|by apply Hfl].
    + intros p q Hp%elem_of_nil. done.
  - split; simpl; [done| |intros p r Hp%elem_of_nil; done].
    intros k r q Hr [Hk|[Hq <-]]%Hl; [by eapply Hdirty|by apply Hin].
Qed.
End Commit.
