(* ===== verification/MemoryWriteSpec.v ===== *)
(** * MemoryWriteSpec: what the writes of the packet cache leave behind

    A small program logic for the code that writes: a triple says what the
    disk is after a success, what it is after a failure, and that a failure
    takes a fault unless a stated condition holds.  Its rules give: a failed
    append leaves the log torn and nothing else, a checkpoint changes nothing
    of what the disk holds, a repair removes the torn end. *)

From S2P Require Export MemoryDiskSpec MemoryOwner.

(** ** Triples *)

Definition is_fault (f : Fault) : bool := match f with NoFault => false | FaultAfter _ => true end.
Definition faults_left (w : World) : nat := length (filter (λ f, is_fault f) (w_faults w)).

Definition triple {E A} (X : Prop) (P : Disk → Prop) (m : Io E A) (Q : A → Disk → Prop) (R : Disk → Prop) : Prop := ∀ w,
  P (w_disk w) →
  match m w with
  | (Ok a, w') => Q a (w_disk w') ∧ faults_left w' ≤ faults_left w
  | (Err _, w') => R (w_disk w') ∧ faults_left w' ≤ faults_left w ∧ (X ∨ faults_left w' < faults_left w)
  end.

Section Rules.
Context {E A B : Type}.
Implicit Types (X : Prop) (P R : Disk → Prop).

Lemma triple_ret X P (a : A) (Q : A → Disk → Prop) R : (∀ d, P d → Q a d) → triple (E := E) X P (mret a) Q R.
Proof. intros Hq w Hp. split; [by apply Hq|done]. Qed.

Lemma triple_bind X P (m : Io E A) (f : A → Io E B) (Q1 : A → Disk → Prop) (Q : B → Disk → Prop) R :
  triple X P m Q1 R → (∀ a, triple X (Q1 a) (f a) Q R) → triple X P (m ≫= f) Q R.
Proof.
  intros Hm Hf w Hp. specialize (Hm w Hp). unfold mbind, io_bind. destruct (m w) as [[a|e] w'].
  - destruct Hm as [Hq Hle]. specialize (Hf a w' Hq). destruct (f a w') as [[b|e] w'']; [split; [by apply Hf|]; destruct Hf; lia|].
    destruct Hf as (Hr & Hle' & Hx). split_and!; [done|lia|]. destruct Hx; [by left|right; lia].
  - done.
Qed.

Lemma triple_lift X P (r : result E A) (Q : A → Disk → Prop) R :
  (∀ d, P d → match r with Ok a => Q a d | Err _ => R d ∧ X end) → triple X P (lift r) Q R.
Proof. intros Hr w Hp. specialize (Hr _ Hp). unfold lift. destruct r; [done|]. split_and!; [by destruct Hr|done|left; by destruct Hr]. Qed.

Lemma triple_get_disk X P (Q : Disk → Disk → Prop) R : (∀ d, P d → Q d d) → triple (E := E) X P get_disk Q R.
Proof. intros Hq w Hp. split; [by apply Hq|done]. Qed.

Lemma triple_map_err {F} X P (m : Io E A) (f : E → F) (Q : A → Disk → Prop) R : triple X P m Q R → triple X P (map_err f m) Q R.
Proof. intros Hm w Hp. specialize (Hm w Hp). unfold map_err. by destruct (m w) as [[a|e] w']. Qed.

Lemma triple_weaken X X' P P' (m : Io E A) (Q Q' : A → Disk → Prop) R R' :
  triple X P m Q R → (X → X') → (∀ d, P' d → P d) → (∀ a d, Q a d → Q' a d) → (∀ d, R d → R' d) → triple X' P' m Q' R'.
Proof.
  intros Hm Hx Hp Hq Hr w Hw. specialize (Hm w (Hp _ Hw)). destruct (m w) as [[a|e] w'].
  - destruct Hm. split; [by apply Hq|done].
  - destruct Hm as (? & ? & ?). split_and!; [by apply Hr|done|tauto].
Qed.

(** What holds of the disk before may be assumed of the arguments. *)
Lemma triple_pure X P (m : Io E A) (Q : A → Disk → Prop) R :
  (∀ d, P d → triple X (λ d', d' = d) m Q R) → triple X P m Q R.
Proof. intros Hm w Hp. by apply (Hm (w_disk w) Hp w). Qed.
End Rules.

Lemma triple_write X (P : Disk → Prop) apply total (Q : () → Disk → Prop) (R : Disk → Prop) :
  (∀ d, P d → Q () (apply total d)) → (∀ d n, P d → n ≤ total → R (apply n d)) → triple X P (io_write apply total) Q R.
Proof.
  intros Hq Hr w Hp. unfold io_write. destruct w as [d faults]. simpl in *. destruct faults as [|[|n] faults]; simpl.
  - split; [by apply Hq|done].
  - split; [by apply Hq|done].
  - split_and!; [by apply Hr; [|lia]|unfold faults_left; simpl; lia|right; unfold faults_left; simpl; lia].
Qed.

Lemma triple_atomic X (P : Disk → Prop) set bytes (Q : () → Disk → Prop) (R : Disk → Prop) :
  (∀ d, P d → Q () (set d (Present bytes))) → (∀ d, P d → R d) → (∀ d, P d → R (set d (Present bytes))) →
  triple X P (write_atomically set bytes) Q R.
Proof.
  intros Hq H0 H1. apply triple_write; [done|]. intros d n Hp _. destruct (n =? 0)%nat; [by apply H0|by apply H1].
Qed.

Lemma triple_truncate X d n (Q : () → Disk → Prop) (R : Disk → Prop) :
  let d' := set_wal d (Present (resize_bytes n (file_bytes (dk_wal d)))) in
  dk_wal d ≠ Unreadable → Q () d' → R d' → R d → R (set_wal d (Present (file_bytes (dk_wal d)))) →
  triple X (λ d', d' = d) (truncate_wal_to n) Q R.
Proof.
  intros d' Hw Hq Hr H0 H1 w Hd. unfold truncate_wal_to. rewrite Hd. unfold d' in *.
  destruct (dk_wal d) as [| |raw] eqn:E; [|done|];
    refine (triple_write X (λ x, x = d) _ 1 Q R _ _ w Hd); intros x; [by intros ->| |by intros ->|];
    intros k -> Hk; destruct k as [|[|k]]; [exact H1|exact Hr|lia|exact H1|exact Hr|lia].
Qed.

Lemma triple_append X d frame (Q : () → Disk → Prop) (R : Disk → Prop) :
  let d' n := set_wal d (Present (file_bytes (dk_wal d) ++ take n frame)) in
  dk_wal d ≠ Unreadable → Q () (d' (length frame)) → (∀ n, n ≤ length frame → R (d' n)) →
  triple X (λ d', d' = d) (append_wal frame) Q R.
Proof.
  intros d' Hw Hq Hr w Hd. unfold append_wal. rewrite Hd. unfold d' in *.
  destruct (dk_wal d) as [| |raw] eqn:E; [|done|];
    refine (triple_write X (λ x, x = d) _ _ Q R _ _ w Hd); intros x; [by intros ->| |by intros ->|];
    intros k -> Hk; by apply (Hr k).
Qed.

Section Writes.
Context {ENV : PersistEnv}.
Context (root : string) (U : list PacketCacheEntry) (HU : universe root U) (HL : persist_laws U) (ttl now : Z).
Implicit Types (m v : gmap string PacketCacheEntry) (d : Disk) (f : FileState) (c : PacketCache).

Notation holds := (holds root U ttl).
Notation snapshot := (snapshot root U ttl).
Notation baseline := (baseline root U ttl).
Notation shows := (shows root U).

(** The disk holds the live entries [v]. *)
Definition stores d v (s : Z) (tail : list Z) (based : bool) : Prop := ∃ m, holds d m s tail based ∧ live_entries ttl now m = v.
Definition stores_some v s (based : bool) d : Prop := ∃ tail based', (based = true → based' = true) ∧ stores d v s tail based'.

(** A cache in step with them. *)
Definition in_step c v (s : Z) : Prop := ∃ m, shows c m ∧ live_entries ttl now m = v ∧ persisted_sequence c = s.

Lemma stores_weaken d v s tail based : stores d v s tail based → stores_some v s based d.
Proof using . by exists tail, based. Qed.
Lemma stores_log d v s tail based : stores d v s tail based → dk_wal d ≠ Unreadable.
Proof using . by intros (m & (m0 & h & b & rs & _ & Hw & _) & _). Qed.
Lemma stores_sequence d v s tail based : stores d v s tail based → fits u64_max s.
Proof using HU. intros (m & Hm & _). by eapply holds_universe. Qed.

(** ** Checkpoints *)

(** A new checkpoint of the same entries, in the primary file or in the
    backup without a primary. *)
Lemma holds_rebase d d' m s tail based f m' : holds d m s tail based → snapshot f m' s →
  dk_v3 d' = f ∨ dk_v3 d' = Missing ∧ dk_backup d' = f → dk_wal d' = dk_wal d → holds d' m' s tail true.
Proof using HU.
  intros (m0 & h & b & rs & Hb & Hw & Hlog & Hrs & Hch & Hbh & Hhs & Hmax & Htorn & Hs & Hm) Hsnap Hf Hwal.
  exists m', s, b, rs. rewrite Hwal. split_and!; [by eapply on_checkpoint|done..|lia|lia|lia|done|done|done|].
  assert (Hnone : filter (λ r, (s <? wr_sequence r)%Z) rs = []).
  { apply elem_of_nil_inv. intros r [Hlt Hr]%list_elem_of_filter. apply Is_true_true, Z.ltb_lt in Hlt.
    pose proof (wal_chain_bound _ _ _ Hch Hr). lia. }
  unfold deltas_above. by rewrite Hnone.
Qed.

(** What does not touch the checkpoints or the log. *)
Lemma baseline_ext d d' m h based : dk_v1 d' = dk_v1 d → dk_v2 d' = dk_v2 d → dk_v3 d' = dk_v3 d → dk_backup d' = dk_backup d →
  file_bytes (dk_wal d') = file_bytes (dk_wal d) → baseline d m h based → baseline d' m h based.
Proof using .
  intros E1 E2 E3 E4 E5 [f m' h' Hs Hf|]; [eapply on_checkpoint; [done|by rewrite E3, E4]|apply pristine; congruence].
Qed.
Lemma holds_ext d d' m s tail based : dk_v1 d' = dk_v1 d → dk_v2 d' = dk_v2 d → dk_v3 d' = dk_v3 d → dk_backup d' = dk_backup d →
  dk_wal d' = dk_wal d → holds d m s tail based → holds d' m s tail based.
Proof using .
  intros E1 E2 E3 E4 E5 (m0 & h & b & rs & Hb & Hrest). exists m0, h, b, rs. rewrite E5. split; [|done].
  eapply baseline_ext; [..|exact Hb]; congruence.
Qed.

(** A new backup beside a primary changes nothing. *)
Lemma holds_backup d m s tail based f m' : holds d m s tail based → snapshot f m' s → live_entries ttl now m' = live_entries ttl now m →
  stores_some (live_entries ttl now m) s true (set_backup d f).
Proof using HU.
  intros Hh Hsnap Hlive. exists tail, true. split; [done|]. pose proof Hh as (m0 & h & b & rs & Hb & Hrest).
  destruct Hb as [f0 m0 h Hs0 [Hf|[Hmiss Hf]]|H1 H2 H3 H4 Hlog].
  - exists m. split; [|done]. exists m0, h, b, rs. split; [|done]. eapply on_checkpoint; [exact Hs0|by left].
  - exists m'. split; [|done]. eapply holds_rebase; [exact Hh|exact Hsnap|by right|done].
  - exists m'. split; [|done]. eapply holds_rebase; [exact Hh|exact Hsnap|by right|done].
Qed.

(** The primary is a checkpoint at [s]; the log adds nothing to it. *)
Definition folded v s d : Prop := ∃ m tail, snapshot (dk_v3 d) m s ∧ holds d m s tail true ∧ live_entries ttl now m = v.

Lemma folded_stores v s d based : folded v s d → stores_some v s based d.
Proof using . intros (m & tail & _ & Hh & Hl). exists tail, true. split; [done|]. by exists m. Qed.

Lemma in_step_snapshot c v s raw : in_step c v s → fits u64_max s → encode_checkpoint c ttl now = Ok raw →
  ∃ m, snapshot (Present raw) m s ∧ live_entries ttl now m = v.
Proof using .
  intros (m & [Hc Hu He Hw] & Hl & Hs) Hfit Henc. exists (live_entries ttl now m). split; [|by rewrite live_live].
  exists raw, c, now. split_and!; [done|done|done|by rewrite He|done|by rewrite He|done|done].
Qed.

Section Framed.
Context (S : FileState).

Lemma write_checkpoint_triple c v s based : in_step c v s →
  triple (∃ e, encode_checkpoint c ttl now = Err e) (λ d, dk_state d = S ∧ stores_some v s based d)
    (write_checkpoint c ttl now) (λ _ d, dk_state d = S ∧ folded v s d) (λ d, dk_state d = S ∧ stores_some v s based d).
Proof using HU.
  intros Hstep. apply triple_pure. intros d0 (Hst0 & tail & based' & Hbased & m & Hh & Hlive).
  destruct (holds_universe root U HU _ _ _ _ _ _ Hh) as [_ Hfit]. unfold write_checkpoint.
  destruct (encode_checkpoint c ttl now) as [raw|e] eqn:Henc.
  2: { apply (triple_bind _ _ _ _ (λ _ _, False)); [|by intros a w ?]. apply triple_lift. intros d ->. split; [|by exists e].
       split; [done|]. exists tail, based'. split; [done|]. by exists m. }
  destruct (in_step_snapshot c v s raw Hstep Hfit Henc) as (m' & Hsnap & Hlive').
  apply (triple_bind _ _ _ _ (λ a d, a = raw ∧ d = d0)); [by apply triple_lift|]. intros a.
  assert (Hkeep : stores_some v s based d0) by (exists tail, based'; split; [done|]; by exists m).
  assert (Hback : stores_some v s true (set_backup d0 (Present raw)))
    by (rewrite <- Hlive; eapply holds_backup; [exact Hh|exact Hsnap|congruence]).
  assert (Hweak : ∀ d, stores_some v s true d → stores_some v s based d)
    by (intros d (t & b & Hb & Hd); exists t, b; split; [by intros _; apply Hb|done]).
  apply (triple_bind _ _ _ _ (λ _ d, a = raw ∧ d = set_backup d0 (Present raw))).
  - apply triple_atomic; [by intros d [-> ->]|by intros d [-> ->]|intros d [-> ->]; split; [done|by apply Hweak]].
  - intros u. assert (Hfold : folded v s (set_v3 (set_backup d0 (Present raw)) (Present raw))).
    { exists m', tail. split_and!; [done| |done]. eapply holds_rebase; [exact Hh|exact Hsnap|by left|done]. }
    apply (triple_bind _ _ _ _ (λ _ d, dk_state d = S ∧ folded v s d)); [|intros u'; by apply triple_ret].
    apply triple_atomic; intros d [-> ->]; (split; [done|]); [done|by apply Hweak|by apply folded_stores].
Qed.

(** The log is cut to whole records behind a checkpoint. *)
Lemma folded_reset v s d : folded v s d → folded v s (set_wal d (Present [])) ∧ stores (set_wal d (Present [])) v s [] true.
Proof using HU.
  intros (m & tail & Hsnap & Hh & Hlive). destruct (holds_universe root U HU _ _ _ _ _ _ Hh) as [_ Hfit].
  assert (Hh' : holds (set_wal d (Present [])) m s [] true).
  { exists m, s, s, []. unfold fits in Hfit. simpl. split_and!; try done; try lia; [eapply on_checkpoint; [exact Hsnap|by left]|by left]. }
  split; [by exists m, []|by exists m].
Qed.

Lemma reset_wal_triple X v s :
  triple X (λ d, dk_state d = S ∧ folded v s d) reset_wal (λ _ d, dk_state d = S ∧ stores d v s [] true)
    (λ d, dk_state d = S ∧ folded v s d).
Proof using HU.
  apply triple_pure. intros d0 [HS Hf]. pose proof (folded_reset v s d0 Hf) as [Hf' Hs'].
  assert (Hw : dk_wal d0 ≠ Unreadable) by (destruct Hf as (m & tail & _ & Hh & ?); apply (stores_log d0 v s tail true); by exists m).
  apply triple_truncate; [done|exact (conj HS Hs')|exact (conj HS Hf')|exact (conj HS Hf)|].
  split; [done|]. destruct Hf as (m & tail & Hsnap & Hh & Hl). exists m, tail. split_and!; [done| |done].
  destruct Hh as (m0 & h & b & rs & Hb & Hrest). exists m0, h, b, rs. split; [by eapply baseline_ext; [..|exact Hb]|].
  by split; [|apply Hrest].
Qed.
End Framed.

(** ** The log *)

(** The log of a disk that holds something is replaced by the same records
    with another torn end. *)
Lemma holds_retail d m s tail based tail' : holds d m s tail based → torn tail' → (based = false → tail' = []) →
  holds (set_wal d (Present (take (length (file_bytes (dk_wal d)) - length tail) (file_bytes (dk_wal d)) ++ tail'))) m s tail' based.
Proof using .
  intros (m0 & h & b & rs & Hb & Hw & Hlog & Hrest) Htorn Hbt. destruct Hrest as (Hrs & Hch & Hbh & Hhs & Hmax & _ & Hs & Hm).
  assert (Htake : take (length (file_bytes (dk_wal d)) - length tail) (file_bytes (dk_wal d)) = frames rs).
  { rewrite Hlog, length_app. replace (_ - _) with (length (frames rs)) by lia. by rewrite take_app_length. }
  exists m0, h, b, rs. rewrite Htake. split_and!; try done; try apply Hbh. destruct Hb as [f m0 h Hsnap Hf|H1 H2 H3 H4 Hnil].
  - by eapply on_checkpoint.
  - apply pristine; try done. simpl. rewrite Hnil in Hlog. symmetry in Hlog. apply app_nil in Hlog as [-> _]. by rewrite Hbt.
Qed.

Lemma holds_append d m s q l : holds d m s [] true → q = (s + 1)%Z → (q <= u64_max)%Z → Forall (delta_known U) l →
  let r := mkWalRecord PERSIST_WAL_VERSION q l in
  (Z.of_nat (length (record_bytes r)) <= MAX_PERSIST_WAL_RECORD_BYTES)%Z →
  holds (set_wal d (Present (file_bytes (dk_wal d) ++ record_frame r))) (foldl apply_spec m l) q [] true ∧
  ∀ n, n < length (record_frame r) →
    holds (set_wal d (Present (file_bytes (dk_wal d) ++ take n (record_frame r)))) m s (take n (record_frame r)) true.
Proof using HL HU.
  intros Hh -> Hmax Hl r Hlen. pose proof (holds_universe root U HU _ _ _ _ _ _ Hh) as [_ Hs0].
  assert (Hr : record_known U r) by (by split_and!).
  assert (Hok : record_ok r).
  { split_and!; [done|apply (pl_record U HL)|done]; [unfold fits in *; lia|done]. }
  split.
  - destruct Hh as (m0 & h & b & rs & Hb & Hw & Hlog & Hrs & Hch & Hbh & Hhs & _ & _ & Hs & Hm).
    exists m0, h, b, (rs ++ [r]). inversion Hb as [f m1 h1 Hsnap Hf|]; subst m1 h1. cbn [dk_wal set_wal file_bytes]. rewrite Hlog.
    split_and!.
    + by eapply on_checkpoint.
    + done.
    + unfold frames. rewrite bind_app, bind_cons. simpl. rewrite !app_nil_r. done.
    + apply Forall_app. by split; [|apply Forall_singleton].
    + apply wal_chain_app. split; [done|]. simpl. split; [lia|done].
    + lia.
    + lia.
    + lia.
    + done.
    + by left.
    + rewrite length_app. simpl. lia.
    + rewrite Hm. unfold deltas_above. rewrite filter_app, bind_app, foldl_app.
      rewrite filter_cons_True, filter_nil by (apply Is_true_true, Z.ltb_lt; simpl; lia). rewrite bind_cons. simpl. by rewrite app_nil_r.
  - intros n Hn. pose proof (holds_retail d m s [] true (take n (record_frame r)) Hh) as Hr'. rewrite Nat.sub_0_r, firstn_all in Hr'.
    apply Hr'; [|done]. right. by apply (decode_cut_frame (pl_checksum U HL)).
Qed.

Lemma live_foldl m v l : live_entries ttl now m = v → Forall (delta_known U) l →
  live_entries ttl now (foldl apply_spec m l) = live_entries ttl now (foldl apply_spec v l).
Proof using HU.
  intros Hl Hk. cut (∀ k e, live_entries ttl now (foldl apply_spec m l) !! k = Some e ↔ live_entries ttl now (foldl apply_spec v l) !! k = Some e).
  { intros Hc. apply map_eq. intros k. apply option_eq. apply Hc. }
  rewrite <- Hl. clear Hl v. revert m. induction l as [|dl l IH] using rev_ind; intros m k e.
  { cbn [foldl]. by rewrite live_live. }
  apply Forall_app in Hk as [Hk [Hd _]%Forall_cons]. rewrite !foldl_app. cbn [foldl]. rewrite !live_entries_Some.
  rewrite !(apply_spec_lookup root U HU) by done. case_decide; [done|]. specialize (IH Hk m k e). by rewrite !live_entries_Some in IH.
Qed.

(** The log is repaired after it was loaded. *)
Lemma repair_triple X d m s tail based : holds d m s tail based → log_fits d →
  triple X (λ d', d' = d) (repair_torn_wal_tail (load_from_disk root ttl now d))
    (λ _ d', dk_state d' = dk_state d ∧ holds d' m s [] based ∧ (based = false → d' = d))
    (λ d', dk_state d' = dk_state d ∧ (∃ tail', holds d' m s tail' based) ∧ (based = false → d' = d) ∧ tail ≠ []).
Proof using HL HU.
  intros Hh Hfit. destruct (load_holds root U HU HL ttl d m s tail based now Hh Hfit) as [(_ & _ & _ & Hbase) (c2 & Hrep)].
  unfold repair_torn_wal_tail. apply (triple_bind _ _ _ _ (λ a d', a = d ∧ d' = d)); [by apply triple_get_disk|].
  intros a. apply triple_pure. intros d' [-> ->]. rewrite Hrep. cbn [baseline_mismatch recovered_corruption valid_bytes].
  case_bool_decide as Htail; cbn [negb].
  - apply triple_ret. intros d' ->. subst tail. done.
  - assert (based = true) as ->.
    { pose proof Hh as (m0 & h & b & rs & Hb & _ & Hlog & _). destruct Hb as [|H1 H2 H3 H4 Hnil]; [done|]. rewrite Hnil in Hlog. symmetry in Hlog.
      by apply app_nil in Hlog as [_ ->]. }
    replace (has_v3_checkpoint_baseline _) with true by (unfold baselines in Hbase; congruence). cbn [negb andb].
    pose proof (holds_retail d m s tail true [] Hh (or_introl eq_refl) ltac:(done)) as Hcut. rewrite app_nil_r in Hcut.
    pose proof (holds_retail d m s tail true tail Hh) as Hsame.
    assert (Hall : take (length (file_bytes (dk_wal d)) - length tail) (file_bytes (dk_wal d)) ++ tail = file_bytes (dk_wal d)).
    { destruct Hh as (m0 & h & b & rs & _ & _ & Hlog & _). rewrite Hlog, length_app.
      replace (_ - _) with (length (frames rs)) by lia. by rewrite take_app_length. }
    rewrite Hall in Hsame.
    assert (Htorn : torn tail) by (destruct Hh as (? & ? & ? & ? & ? & ? & ? & ? & ? & ? & ? & ? & ? & ?); done).
    set (d1 := set_wal d (Present (take _ _))) in Hcut.
    assert (Hres : set_wal d (Present (resize_bytes (length (file_bytes (dk_wal d)) - length tail) (file_bytes (dk_wal d)))) = d1).
    { unfold d1, resize_bytes. replace (_ - length (file_bytes (dk_wal d))) with 0 by lia. by rewrite app_nil_r. }
    assert (Hw : dk_wal d ≠ Unreadable) by (by destruct Hh as (? & ? & ? & ? & ? & ? & _)).
    apply (triple_bind _ _ _ _ (λ _ d', d' = d1)); [|intros u; apply triple_ret; by intros d' ->].
    apply triple_map_err, triple_truncate; [done|done|..].
    + rewrite Hres. by split_and!; [|exists []|..].
    + by split_and!; [|exists tail|..].
    + by split_and!; [|exists tail; apply Hsame|..].
Qed.

Section Appends.
Context (S : FileState).

(** The live entries after some deltas. *)
Definition after v (l : list PersistDelta) : gmap string PacketCacheEntry := live_entries ttl now (foldl apply_spec v l).

Definition chunk_ok (l : list PersistDelta) : Prop := Forall (delta_known U) l ∧ ∀ q, fits u64_max q →
  (Z.of_nat (length (record_bytes (mkWalRecord PERSIST_WAL_VERSION q l))) <= MAX_PERSIST_WAL_RECORD_BYTES)%Z.

Lemma append_record_triple X v s l : chunk_ok l → (s + 1 <= u64_max)%Z →
  triple X (λ d, dk_state d = S ∧ stores d v s [] true) (append_wal_record (s + 1) l)
    (λ _ d, dk_state d = S ∧ stores d (after v l) (s + 1) [] true)
    (λ d, dk_state d = S ∧ (stores_some v s true d ∨ stores_some (after v l) (s + 1) true d)).
Proof using HL HU.
  intros [Hk Hlen] Hmax. apply triple_pure. intros d (HS & m & Hh & Hlive).
  destruct (holds_universe root U HU _ _ _ _ _ _ Hh) as [_ Hs]. unfold fits in *. specialize (Hlen (s + 1)%Z ltac:(lia)).
  destruct (holds_append d m s (s + 1) l Hh eq_refl Hmax Hk Hlen) as [Hdone Hcut].
  unfold append_wal_record, encode_wal_record. rewrite (proj2 (Z.ltb_ge _ _)) by lia.
  fold (record_frame (mkWalRecord PERSIST_WAL_VERSION (s + 1) l)). set (frame := record_frame _) in *.
  apply (triple_bind _ _ _ _ (λ a d', a = frame ∧ d' = d)); [by apply triple_lift|]. intros a. apply triple_pure. intros d' [-> ->].
  assert (Hafter : live_entries ttl now (foldl apply_spec m l) = after v l) by (by apply live_foldl).
  apply (triple_bind _ _ _ _ (λ _ d, dk_state d = S ∧ stores d (after v l) (s + 1) [] true)); [|intros u; by apply triple_ret].
  apply triple_append; [by destruct Hh as (? & ? & ? & ? & ? & ? & _)|..].
  - rewrite firstn_all. split; [done|]. by eexists.
  - intros n Hn. split; [done|]. destruct (decide (n = length frame)) as [->|Hne].
    + right. rewrite firstn_all. apply (stores_weaken _ _ _ [] true). by eexists.
    + left. apply (stores_weaken _ _ _ (take n frame) true). eexists. split; [by apply Hcut; lia|done].
Qed.

(** A failure leaves the first chunks, and a part of the next one. *)
Lemma append_chunks_triple chunks v s bytes : Forall chunk_ok chunks → chunks ≠ [] → (s + 1 <= u64_max)%Z →
  triple (u64_max < s + Z.of_nat (length chunks))%Z (λ d, dk_state d = S ∧ stores d v s [] true)
    (append_chunks (s + 1) bytes chunks)
    (λ _ d, dk_state d = S ∧ stores d (after v (concat chunks)) (s + Z.of_nat (length chunks)) [] true)
    (λ d, dk_state d = S ∧ ∃ k, k ≤ length chunks ∧ stores_some (after v (concat (take k chunks))) (s + Z.of_nat k) true d).
Proof using HL HU.
  revert v s bytes. induction chunks as [|l chunks IH]; [done|]. intros v s bytes Hok _ Hmax. apply Forall_cons in Hok as [Hl Hok].
  cbn [append_chunks].
  assert (Hzero : ∀ d, stores_some v s true d → stores_some (after v (concat (take 0 (l :: chunks)))) (s + 0) true d).
  { intros d (t & b & Hb & m & Hm & Hv). exists t, b. split; [done|]. rewrite Z.add_0_r. exists m. split; [done|].
    unfold after. simpl. by rewrite <- Hv, live_live. }
  apply (triple_bind _ _ _ _ (λ _ d, dk_state d = S ∧ stores d (after v l) (s + 1) [] true)).
  { apply triple_map_err. eapply triple_weaken; [apply (append_record_triple False v s l Hl Hmax)|done|done|done|].
    intros d [HS [Hd|Hd]]; (split; [done|]); [exists 0; split; [lia|by apply Hzero]|exists 1; split; [simpl; lia|]].
    simpl. by rewrite app_nil_r. }
  intros n. destruct chunks as [|l2 chunks].
  { apply triple_ret. intros d Hd. simpl. by rewrite app_nil_r. }
  set (rest := l2 :: chunks) in *.
  apply (triple_bind _ _ _ _ (λ q d, q = (s + 1 + 1)%Z ∧ (q <= u64_max)%Z ∧ dk_state d = S ∧ stores d (after v l) (s + 1) [] true)).
  { apply triple_lift. intros d [HS Hd]. destruct (checked_add u64_max (s + 1) 1) as [q|] eqn:E; cbn [ok_or].
    { apply checked_add_Some in E as [-> E]. exact (conj eq_refl (conj E (conj HS Hd))). }
    apply checked_add_None in E. split; [|simpl; lia]. split; [done|]. exists 1. split; [simpl; lia|]. simpl. rewrite app_nil_r. by eapply stores_weaken. }
  intros q. apply triple_pure. intros d (-> & Hq & HS & Hd).
  assert (Happ : ∀ l', Forall (delta_known U) l' → after (after v l) l' = after v (l ++ l')).
  { intros l' Hl'. unfold after. rewrite foldl_app. symmetry. by apply live_foldl. }
  assert (Hconcat : ∀ k, Forall (delta_known U) (concat (take k rest))).
  { intros k. apply Forall_concat, Forall_take. eapply Forall_impl; [exact Hok|]. by intros ? [? _]. }
  eapply triple_weaken; [apply (IH (after v l) (s + 1)%Z (saturating_add u64_max bytes n) Hok); [done|lia]|cbn [length]; lia|..].
  - intros d' ->. exact (conj HS Hd).
  - intros b d' [HS' Hd']. split; [done|]. rewrite Happ in Hd' by (pose proof (Hconcat (length rest)) as Hc; by rewrite firstn_all in Hc). cbn [length concat].
    by replace (s + Z.of_nat (Datatypes.S (length rest)))%Z with (s + 1 + Z.of_nat (length rest))%Z by lia.
  - intros d' (HS' & k & Hk & Hd'). split; [done|]. rewrite Happ in Hd' by apply Hconcat. exists (Datatypes.S k).
    cbn [length take concat]. split; [lia|]. by replace (s + Z.of_nat (Datatypes.S k))%Z with (s + 1 + Z.of_nat k)%Z by lia.
Qed.
End Appends.

(** ** The coordination file *)

Definition state_bytes (g : Z) : FileState := Present (to_le_bytes 8 g ++ to_le_bytes 8 ttl).
Definition bound (g : Z) d : Prop := dk_state d = state_bytes g.

Lemma read_bound g d : fits u64_max g → fits u64_max ttl → bound g d → read_state d = Ok (mkCoordination g (Some ttl)).
Proof using .
  intros Hg Ht Hd. unfold read_state. rewrite Hd. unfold state_bytes. rewrite length_app, !length_to_le_bytes.
  unfold LEGACY_COORDINATION_STATE_LEN, COORDINATION_STATE_LEN. cbn [Nat.eqb Nat.add].
  rewrite take_app_length', drop_app_length' by (by rewrite length_to_le_bytes).
  unfold fits, u64_max in *. rewrite !from_to_le_bytes by (simpl; lia). done.
Qed.

(** What does not depend on the coordination file. *)
Definition stateless (F : Disk → Prop) : Prop := ∀ d f, F d → F (set_state d f).
Lemma holds_stateless m s tail based : stateless (λ d, holds d m s tail based).
Proof using . intros d f. by apply holds_ext. Qed.
Lemma stores_stateless v s tail based : stateless (λ d, stores d v s tail based).
Proof using . intros d f (m & Hm & Hl). exists m. split; [by apply holds_stateless|done]. Qed.
Lemma stores_some_stateless v s based : stateless (stores_some v s based).
Proof using . intros d f (t & b & Hb & Hd). exists t, b. split; [done|by apply stores_stateless]. Qed.

Lemma lock_triple X (F : Disk → Prop) : triple X F lock_root (λ _, F) F.
Proof using . apply triple_map_err, triple_write; [done|]. by intros d n Hd _. Qed.

Lemma advance_triple g (F : Disk → Prop) : stateless F → fits u64_max g → fits u64_max ttl →
  triple (g = u64_max) (λ d, bound g d ∧ F d) (advance_generation g)
    (λ g' d, g' = (g + 1)%Z ∧ fits u64_max g' ∧ bound g' d ∧ F d)
    (λ d, ∃ g', fits u64_max g' ∧ (g <= g')%Z ∧ bound g' d ∧ F d).
Proof using .
  intros HF Hg Ht. unfold advance_generation.
  apply (triple_bind _ _ _ _ (λ n d, n = (g + 1)%Z ∧ fits u64_max n ∧ bound g d ∧ F d)).
  { apply triple_lift. intros d Hd. destruct (checked_add u64_max g 1) as [n|] eqn:E; cbn [ok_or].
    - apply checked_add_Some in E as [-> E]. split; [done|]. split; [unfold fits in *; lia|done].
    - apply checked_add_None in E. split; [exists g; split; [done|split; [lia|done]]|unfold fits in *; lia]. }
  intros n. apply triple_pure. intros d0 (-> & Hn & Hb & Hd0). unfold read_coordination.
  apply (triple_bind _ _ _ _ (λ st d, st = mkCoordination g (Some ttl) ∧ d = d0)).
  { apply (triple_bind _ _ _ _ (λ d' d, d' = d0 ∧ d = d0)); [by apply triple_get_disk|]. intros a. apply triple_lift. intros d [-> ->].
    by rewrite (read_bound g d0 Hg Ht Hb). }
  intros st. apply triple_pure. intros d [-> ->].
  apply (triple_bind _ _ _ _ (λ t d, t = ttl ∧ d = d0)); [by apply triple_lift|]. intros t. apply triple_pure. intros d [-> ->].
  assert (Hw : write_state (g + 1) ttl = map_err (io_error "coordination state write") (io_write (λ n d,
      if (n =? 0)%nat then d
      else if (n =? 1)%nat then set_state d (Present (take 8 (to_le_bytes 8 (g + 1) ++ to_le_bytes 8 ttl) ++ drop 8 (file_bytes (dk_state d))))
      else set_state d (state_bytes (g + 1))) 2)) by done.
  apply (triple_bind _ _ _ _ (λ _ d, bound (g + 1) d ∧ F d)); [|intros u; apply triple_ret; intros d [? ?]; split_and!; done].
  rewrite Hw. apply triple_map_err, triple_write; [intros d ->; split; [done|by apply HF]|].
  intros d n -> Hn2. destruct n as [|[|[|n]]]; [..|lia]; cbn [Nat.eqb].
  - exists g. split; [done|]. split; [lia|done].
  - exists (g + 1)%Z. split; [done|]. split; [lia|]. split; [|by apply HF]. unfold bound. cbn [dk_state set_state]. rewrite Hb. cbn [file_bytes state_bytes].
    done.
  - exists (g + 1)%Z. split; [done|]. split; [lia|]. split; [done|by apply HF].
Qed.
End Writes.
