(* ===== verification/MemoryOwnerSpec.v ===== *)
(** * MemoryOwnerSpec: the worker of a packet cache

    A worker that has seen the generation of the disk holds its entries and
    its sequence; any other reloads before it writes.  Flushing applies a
    prefix of the chunks and all of them when it succeeds; a checkpoint
    changes nothing. *)

From S2P Require Export MemoryWriteSpec MemoryChunkSpec.

Section Worker.
Context {ENV : PersistEnv}.
Context (cf : PersistConfig) (U : list PacketCacheEntry).
Context (HU : universe (cf_root_dir cf) U) (HL : persist_laws U) (HT : fits u64_max (cf_ttl_secs cf)) (now : Z).
Implicit Types (v : gmap string PacketCacheEntry) (d : Disk) (w : PersistenceWorker).

Notation stores := (stores (cf_root_dir cf) U (cf_ttl_secs cf) now).
Notation stores_some := (stores_some (cf_root_dir cf) U (cf_ttl_secs cf) now).
Notation in_step := (in_step (cf_root_dir cf) U (cf_ttl_secs cf) now).
Notation bound := (bound (cf_ttl_secs cf)).
Notation after := (after (cf_ttl_secs cf) now).

(** The disk is at the generation [g] with the entries [v] at [s]. *)
Definition at_generation (g : Z) v (s : Z) d : Prop := fits u64_max g ∧ bound g d ∧ stores_some v s true d.

(** A worker has seen the generation, and then it is in step, or an earlier
    one. *)
Definition tracks w (g : Z) v (s : Z) d : Prop :=
  (wk_observed_generation w <= g)%Z ∧ (wk_observed_generation w = g → in_step (wk_cache w) v s ∧ stores d v s [] true).

(** What a write of one worker may do to the others: nothing, or it moves
    the generation. *)
Definition moved (g : Z) v (s : Z) d (g' : Z) v' (s' : Z) d' : Prop :=
  (g < g')%Z ∨ g' = g ∧ v' = v ∧ s' = s ∧ (stores d v s [] true → stores d' v s [] true).

Lemma tracks_moved w g v s d g' v' s' d' : tracks w g v s d → moved g v s d g' v' s' d' → tracks w g' v' s' d'.
Proof using .
  intros [Hle Heq] [Hlt|(-> & -> & -> & Hst)]; split; [lia|lia|done|]. intros H. destruct (Heq H) as [Hs Hd]. split; [done|by apply Hst].
Qed.

Lemma stores_some_full v s d : stores_some v s true d ↔ ∃ tail, stores d v s tail true.
Proof using . split; [intros (t & b & Hb & Hd); rewrite Hb in Hd by done; by exists t|intros (t & Hd); by exists t, true]. Qed.

(** The cache of a load. *)
Lemma load_in_step d v s tail based : stores d v s tail based → log_fits d →
  in_step (load_from_disk (cf_root_dir cf) (cf_ttl_secs cf) now d) v s ∧
  shows (cf_root_dir cf) U (load_from_disk (cf_root_dir cf) (cf_ttl_secs cf) now d) v ∧
  latest_ok (load_from_disk (cf_root_dir cf) (cf_ttl_secs cf) now d) ∧
  baselines (load_from_disk (cf_root_dir cf) (cf_ttl_secs cf) now d) = (based, false).
Proof using HL HU.
  intros (m & Hh & Hv) Hfit. destruct (load_holds _ U HU HL _ d m s tail based now Hh Hfit) as [(Hs & Hseq & Hl & Hb) _]. subst v.
  split; [|by split_and!]. exists (live_entries (cf_ttl_secs cf) now m). split; [done|]. split; [by apply live_live|done].
Qed.

(** A log is torn or it is not. *)
Lemma stores_whole d v s m tail : holds (cf_root_dir cf) U (cf_ttl_secs cf) d m s tail true → log_fits d → stores d v s [] true → tail = [].
Proof using HL HU.
  intros Hh Hfit (m' & Hh' & _). destruct (load_holds _ U HU HL _ d m s tail true now Hh Hfit) as [_ [c Hr]].
  destruct (load_holds _ U HU HL _ d m' s [] true now Hh' Hfit) as [_ [c' Hr']]. rewrite Hr in Hr'. injection Hr' as _ _ Htail.
  by case_bool_decide.
Qed.

Definition same_worker w w' : Prop :=
  wk_observed_generation w' = wk_observed_generation w ∧ wk_persisted_revisions w' = wk_persisted_revisions w ∧
  wk_persisted_since_checkpoint w' = wk_persisted_since_checkpoint w ∧
  wk_wal_bytes_since_checkpoint w' = wk_wal_bytes_since_checkpoint w.

Lemma refresh_triple w g v s d : at_generation g v s d → tracks w g v s d → (wk_observed_generation w ≠ g → log_fits d) →
  triple False (λ d', d' = d) (refresh cf now w)
    (λ r d', r.2 = g ∧ same_worker w r.1 ∧ in_step (wk_cache r.1) v s ∧ bound g d' ∧ stores d' v s [] true)
    (λ d', bound g d' ∧ stores_some v s true d' ∧ (stores d v s [] true → stores d' v s [] true)).
Proof using HL HU HT.
  intros (Hg & Hb & Hst) [_ Hstep] Hfit. pose proof Hst as [tail (m & Hh & Hv)]%stores_some_full. unfold refresh.
  apply (triple_bind _ _ _ _ (λ _ d', d' = d)).
  { apply (triple_weaken False False (λ d', d' = d) (λ d', d' = d) _ (λ _ d', d' = d) _ (λ d', d' = d)); [apply lock_triple|done..|].
    by intros d' ->. }
  intros u. apply (triple_bind _ _ _ _ (λ st d', st = mkCoordination g (Some (cf_ttl_secs cf)) ∧ d' = d)).
  { unfold read_coordination. apply (triple_bind _ _ _ _ (λ d1 d', d1 = d ∧ d' = d)); [by apply triple_get_disk|].
    intros d1. apply triple_lift. intros d' [-> ->]. by rewrite (read_bound _ g d Hg HT Hb). }
  intros st. apply triple_pure. intros d' [-> ->]. cbn [cs_generation]. destruct (g =? wk_observed_generation w)%Z eqn:E.
  - apply Z.eqb_eq in E. destruct (Hstep (eq_sym E)) as [Hin Hd]. apply triple_ret. intros d' ->. split_and!; done.
  - apply Z.eqb_neq in E. specialize (Hfit (not_eq_sym E)).
    apply (triple_bind _ _ _ _ (λ d1 d', d1 = d ∧ d' = d)); [by apply triple_get_disk|]. intros d1. apply triple_pure. intros d' [-> ->].
    destruct (load_in_step d v s tail true ltac:(by exists m) Hfit) as [Hin _].
    apply (triple_bind _ _ _ _ (λ _ d', bound g d' ∧ stores d' v s [] true)).
    + eapply triple_weaken; [exact (repair_triple (cf_root_dir cf) U HU HL (cf_ttl_secs cf) now False d m s tail true Hh Hfit)|done|done|..].
      * intros b d' (HS & Hh' & _). split; [by unfold MemoryWriteSpec.bound; rewrite HS|by exists m].
      * intros d' (HS & [tail' Hh'] & _ & Htail). split; [by unfold MemoryWriteSpec.bound; rewrite HS|].
        split; [apply stores_some_full; exists tail'; by exists m|]. intros Hd. by destruct Htail, (stores_whole d v s m tail).
    + intros b. apply triple_ret. intros d' [Hb' Hd']. by split_and!.
Qed.

Notation chunk_ok := (chunk_ok U).

Lemma after_nil v s tail d : stores d v s tail true → after v [] = v.
Proof using . intros (m & _ & Hv). unfold MemoryWriteSpec.after. cbn [foldl]. by rewrite <- Hv, live_live. Qed.

(** The disk after [k] of the chunks. *)
Definition after_chunks v (s : Z) (chunks : list (list PersistDelta)) (k : nat) d : Prop :=
  k ≤ length chunks ∧ stores_some (after v (concat (take k chunks))) (s + Z.of_nat k) true d.

Lemma after_none v s chunks d : stores_some v s true d → after_chunks v s chunks 0 d.
Proof using .
  intros Hd. split; [lia|]. pose proof Hd as [tail Ht]%stores_some_full. simpl. rewrite Z.add_0_r. by rewrite (after_nil _ _ _ _ Ht).
Qed.

Definition exhausted (g s : Z) (chunks : list (list PersistDelta)) : Prop := (u64_max <= g ∨ u64_max < s + Z.of_nat (length chunks))%Z.

Lemma append_pending_triple w g v s chunks : fits u64_max g → in_step (wk_cache w) v s → Forall chunk_ok chunks → chunks ≠ [] →
  triple (exhausted g s chunks) (λ d, bound g d ∧ stores d v s [] true) (append_pending w g chunks)
    (λ r d, r.1 = ((g + 1)%Z, (s + 1)%Z) ∧ fits u64_max (g + 1) ∧ bound (g + 1) d ∧ (s + 1 <= u64_max)%Z ∧
      stores d (after v (concat chunks)) (s + Z.of_nat (length chunks)) [] true)
    (λ d, ∃ g' k, fits u64_max g' ∧ (g <= g')%Z ∧ bound g' d ∧ after_chunks v s chunks k d ∧ (g' = g → k = 0 ∧ stores d v s [] true)).
Proof using HL HU HT.
  intros Hg (m & Hsh & Hlive & Hseq) Hok Hne. unfold append_pending, exhausted.
  apply (triple_bind _ _ _ _ (λ n d, n = (g + 1)%Z ∧ fits u64_max n ∧ bound n d ∧ stores d v s [] true)).
  { eapply triple_weaken; [apply (advance_triple (cf_ttl_secs cf) g (λ d, stores d v s [] true)); [by apply stores_stateless|done|done]|lia|done|done|].
    intros d (g' & Hg' & Hle & Hb & Hd). exists g', 0. split; [exact Hg'|]. split; [done|]. split; [done|].
    split; [apply after_none; by eapply stores_weaken|done]. }
  intros n. apply triple_pure. intros d (-> & Hn & Hb & Hd). rewrite Hseq.
  assert (Hkeep : ∀ d, bound (g + 1) d → stores d v s [] true →
    ∃ g' k, fits u64_max g' ∧ (g <= g')%Z ∧ bound g' d ∧ after_chunks v s chunks k d ∧ (g' = g → k = 0 ∧ stores d v s [] true)).
  { intros d' Hb' Hd'. exists (g + 1)%Z, 0. split; [exact Hn|]. split; [lia|]. split; [done|].
    split; [apply after_none; by eapply stores_weaken|done]. }
  apply (triple_bind _ _ _ _ (λ q d', q = (s + 1)%Z ∧ (q <= u64_max)%Z ∧ d' = d)).
  { apply triple_lift. intros d' ->. destruct (checked_add u64_max s 1) as [q|] eqn:E; cbn [ok_or].
    - apply checked_add_Some in E as [-> E]. exact (conj eq_refl (conj E eq_refl)).
    - apply checked_add_None in E. split; [by apply Hkeep|]. right. destruct chunks; [done|]. cbn [length]. lia. }
  intros q. apply triple_pure. intros d' (-> & Hq & ->).
  pose proof (append_chunks_triple (cf_root_dir cf) U HU HL (cf_ttl_secs cf) now (state_bytes (cf_ttl_secs cf) (g + 1)) chunks v s 0 Hok Hne Hq) as Happ.
  apply (triple_bind _ _ _ _ (λ _ d, bound (g + 1) d ∧ stores d (after v (concat chunks)) (s + Z.of_nat (length chunks)) [] true)).
  - eapply triple_weaken; [exact Happ|lia|by intros d' ->|done|]. intros d' (Hb' & k & Hk & Hs').
    exists (g + 1)%Z, k. split; [done|]. split; [lia|]. split; [done|]. split; [done|lia].
  - intros b. apply triple_ret. intros d' [Hb' Hd']. split; [done|]. split; [done|]. split; [done|]. split; [exact Hq|done].
Qed.

(** What a worker leaves: the disk at some generation, itself on track. *)
Definition left_behind w (g : Z) v (s : Z) d w' (g' : Z) v' (s' : Z) d' : Prop :=
  at_generation g' v' s' d' ∧ tracks w' g' v' s' d' ∧ moved g v s d g' v' s' d'.

Lemma tracks_same w w' g v s d : same_worker w w' → wk_cache w' = wk_cache w → tracks w g v s d → tracks w' g v s d.
Proof using . intros (Ho & _) Hc [Hle Heq]. unfold tracks. by rewrite Ho, Hc. Qed.

Lemma refresh_spec w g v s wd : at_generation g v s (w_disk wd) → tracks w g v s (w_disk wd) →
  (wk_observed_generation w ≠ g → log_fits (w_disk wd)) →
  match refresh cf now w wd with
  | (Ok (w', g'), wd') =>
      g' = g ∧ same_worker w w' ∧ in_step (wk_cache w') v s ∧ bound g (w_disk wd') ∧ stores (w_disk wd') v s [] true ∧
      faults_left wd' ≤ faults_left wd
  | (Err _, wd') => left_behind w g v s (w_disk wd) w g v s (w_disk wd') ∧ faults_left wd' < faults_left wd
  end.
Proof using HL HU HT.
  intros Hat Htr Hfit. pose proof (refresh_triple w g v s (w_disk wd) Hat Htr Hfit wd eq_refl) as Href.
  destruct (refresh cf now w wd) as [[[w' g']|e] wd']; cbn [fst snd] in Href; [tauto|].
  destruct Href as ((Hb & Hst & Hsame) & _ & [[]|Hf]). split; [|done].
  assert (Hm : moved g v s (w_disk wd) g v s (w_disk wd')) by (by right). destruct Hat as (Hg & _).
  split; [by split|]. split; [by apply (tracks_moved w g v s (w_disk wd))|done].
Qed.

Lemma persist_chunks_spec w g v s chunks wd :
  at_generation g v s (w_disk wd) → tracks w g v s (w_disk wd) → log_fits (w_disk wd) → Forall chunk_ok chunks → chunks ≠ [] →
  let '(r, w', wd') := persist_chunks cf now w chunks wd in
  same_worker w w' ∧ faults_left wd' ≤ faults_left wd ∧
  match r with
  | Ok (g', q, bytes) =>
      g' = (g + 1)%Z ∧ fits u64_max g' ∧ q = (s + 1)%Z ∧ (q <= u64_max)%Z ∧ in_step (wk_cache w') v s ∧ bound g' (w_disk wd') ∧
      stores (w_disk wd') (after v (concat chunks)) (s + Z.of_nat (length chunks)) [] true
  | Err _ =>
      (∃ g' k, k ≤ length chunks ∧
        left_behind w g v s (w_disk wd) w' g' (after v (concat (take k chunks))) (s + Z.of_nat k) (w_disk wd')) ∧
      (exhausted g s chunks ∨ faults_left wd' < faults_left wd)
  end.
Proof using HL HU HT.
  intros Hat Htr Hfit Hok Hne. pose proof (refresh_spec w g v s wd Hat Htr (λ _, Hfit)) as Href. unfold persist_chunks.
  assert (Hzero : after v (concat (take 0 chunks)) = v ∧ (s + Z.of_nat 0 = s)%Z).
  { destruct Hat as (_ & _ & [tail Ht]%stores_some_full). split; [by apply (after_nil v s tail (w_disk wd))|lia]. }
  destruct Hzero as [Hz1 Hz2].
  destruct (refresh cf now w wd) as [[[w' g']|e] wd1].
  - destruct Href as (-> & Hsame & Hin & Hb & Hd & Hf1). destruct Hat as (Hg & _).
    pose proof (append_pending_triple w' g v s chunks Hg Hin Hok Hne wd1 (conj Hb Hd)) as Happ.
    destruct (append_pending w' g chunks wd1) as [[[[g1 q] bytes]|e] wd2]; cbn [fst snd] in Happ.
    + destruct Happ as (([= -> ->] & Hg1 & Hb1 & Hq & Hd1) & Hf2). split; [done|]. split; [lia|]. split; [done|]. split; [done|].
      split; [done|]. split; [done|]. by split.
    + destruct Happ as ((g' & k & Hg' & Hle & Hb' & [Hk Hd'] & Hsame') & Hf2 & Hx). split; [done|]. split; [lia|]. split; [|destruct Hx; [by left|right; lia]].
      exists g', k. split; [done|]. split; [done|]. destruct Hsame as (Ho & _). destruct Htr as [Hle' _].
      destruct (decide (g' = g)) as [->|Hgg].
      * destruct (Hsame' eq_refl) as [-> Hd0]. rewrite Hz1, Hz2. split; [by split; [rewrite Ho|]|]. by right.
      * split; [split; [lia|intros; lia]|left; lia].
  - destruct Href as [Hleft Hf]. split; [done|]. split; [lia|]. split; [|by right]. exists g, 0. split; [lia|]. by rewrite Hz1, Hz2.
Qed.

Lemma checkpoint_spec w g v s wd : at_generation g v s (w_disk wd) → tracks w g v s (w_disk wd) →
  (wk_observed_generation w ≠ g → log_fits (w_disk wd)) →
  let '(r, w', wd') := checkpoint cf now w wd in
  (∃ g', left_behind w g v s (w_disk wd) w' g' v s (w_disk wd')) ∧ wk_persisted_revisions w' = wk_persisted_revisions w ∧
  faults_left wd' ≤ faults_left wd.
Proof using HL HU HT.
  intros Hat Htr Hfit. pose proof (refresh_spec w g v s wd Hat Htr Hfit) as Href. unfold checkpoint.
  destruct (refresh cf now w wd) as [[[w' g']|e] wd1].
  2: { destruct Href as [Hleft Hf]. split_and!; [by exists g|done|lia]. }
  destruct Href as (-> & (Ho & Hp & _) & Hin & Hb & Hd & Hf1). destruct Hat as (Hg & _).
  set (body := (next_generation ← advance_generation g; _)).
  assert (Hbody : triple True (λ d, bound g d ∧ stores d v s [] true) body
      (λ n d, n = (g + 1)%Z ∧ fits u64_max n ∧ bound n d ∧ stores d v s [] true)
      (λ d, ∃ g', fits u64_max g' ∧ (g <= g')%Z ∧ bound g' d ∧ stores_some v s true d ∧ (g' = g → stores d v s [] true))).
  { apply (triple_bind _ _ _ _ (λ n d, n = (g + 1)%Z ∧ fits u64_max n ∧ bound n d ∧ stores d v s [] true)).
    { eapply triple_weaken; [apply (advance_triple (cf_ttl_secs cf) g (λ d, stores d v s [] true)); [by apply stores_stateless|done|done]|done..|].
      intros d (g' & Hg' & Hle & Hb' & Hd'). exists g'. split; [done|]. split; [done|]. split; [done|]. split; [by eapply stores_weaken|done]. }
    intros n. apply triple_pure. intros d (-> & Hn & Hb' & Hd').
    assert (Hafter : ∀ d, dk_state d = state_bytes (cf_ttl_secs cf) (g + 1) ∧ stores_some v s true d →
      ∃ g', fits u64_max g' ∧ (g <= g')%Z ∧ bound g' d ∧ stores_some v s true d ∧ (g' = g → stores d v s [] true)).
    { intros d1 [HS Hs1]. exists (g + 1)%Z. split; [exact Hn|]. split; [lia|]. split; [done|]. split; [done|lia]. }
    apply (triple_bind _ _ _ _ (λ _ d, dk_state d = state_bytes (cf_ttl_secs cf) (g + 1) ∧ folded (cf_root_dir cf) U (cf_ttl_secs cf) now v s d)).
    { apply triple_map_err. eapply triple_weaken;
        [apply (write_checkpoint_triple (cf_root_dir cf) U HU (cf_ttl_secs cf) now (state_bytes (cf_ttl_secs cf) (g + 1)) (wk_cache w') v s true Hin)|done|..].
      - intros d' ->. split; [done|by eapply stores_weaken].
      - done.
      - exact Hafter. }
    intros b. apply (triple_bind _ _ _ _ (λ _ d, dk_state d = state_bytes (cf_ttl_secs cf) (g + 1) ∧ stores d v s [] true)).
    { apply triple_map_err. eapply triple_weaken;
        [apply (reset_wal_triple (cf_root_dir cf) U HU (cf_ttl_secs cf) now (state_bytes (cf_ttl_secs cf) (g + 1)) True v s)|done|done|done|].
      intros d' [HS Hfold]. apply Hafter. split; [done|by apply folded_stores]. }
    intros u. apply triple_ret. intros d' [HS Hs']. done. }
  specialize (Hbody wd1 (conj Hb Hd)). destruct (body wd1) as [[n|e] wd2].
  - destruct Hbody as ((-> & Hn & Hb2 & Hd2) & Hf2). split_and!; [|done|lia]. exists (g + 1)%Z.
    split; [split; [done|]; split; [done|by eapply stores_weaken]|]. split; [|left; lia]. split; [simpl; lia|]. done.
  - destruct Hbody as ((g' & Hg' & Hle & Hb2 & Hs2 & Hsame) & Hf2 & _). split_and!; [|done|lia]. exists g'.
    split; [done|]. destruct Htr as [Hle' _]. destruct (decide (g' = g)) as [->|Hgg].
    + specialize (Hsame eq_refl). split; [by split; [rewrite Ho|]|by right].
    + split; [split; [lia|intros; lia]|left; lia].
Qed.

(** ** Flushing *)

Lemma in_step_apply c v s chunks : in_step c v s → Forall chunk_ok chunks → fits u64_max s → (s + Z.of_nat (length chunks) <= u64_max)%Z →
  in_step (apply_chunks c (s + 1) 0 chunks) (after v (concat chunks)) (s + Z.of_nat (length chunks)).
Proof using HU.
  intros Hin Hok [Hs0 _].
  assert (Hgen : ∀ chunks c v i, in_step c v (s + i) → Forall chunk_ok chunks → (0 <= i)%Z → (s + i + Z.of_nat (length chunks) <= u64_max)%Z →
    in_step (apply_chunks c (s + 1) i chunks) (after v (concat chunks)) (s + i + Z.of_nat (length chunks))).
  { clear c v Hin chunks Hok. induction chunks as [|l chunks IH]; intros c v i (m & Hsh & Hlive & Hseq) Hok Hi Hmax.
    - simpl. rewrite Z.add_0_r. exists m. split_and!; [done| |done]. unfold MemoryWriteSpec.after. cbn [foldl]. by rewrite <- Hlive, live_live.
    - apply Forall_cons in Hok as [[Hk _] Hok]. cbn [apply_chunks concat length] in *.
      assert (Happ : after v (l ++ concat chunks) = after (after v l) (concat chunks)).
      { unfold MemoryWriteSpec.after. rewrite foldl_app. apply (live_foldl (cf_root_dir cf) U HU); [done|]. apply Forall_concat.
        eapply Forall_impl; [exact Hok|]. by intros ? [? _]. }
      rewrite Happ. replace (s + i + Z.of_nat (Datatypes.S (length chunks)))%Z with (s + (i + 1) + Z.of_nat (length chunks))%Z by lia.
      apply IH; [|done|lia|lia]. exists (foldl apply_spec m l). unfold saturating_add. rewrite Z.min_r by lia.
      split_and!; [by apply apply_record_shows|by apply (live_foldl (cf_root_dir cf) U HU)|].
      change (persisted_sequence (apply_persist_deltas c (s + 1 + i) l)) with (s + 1 + i)%Z. lia. }
  intros Hmax. specialize (Hgen chunks c v 0%Z). rewrite Z.add_0_r in Hgen. apply Hgen; [done|done|lia|lia].
Qed.

Notation pending_ok := (pending_ok U).

(** What a worker and the disk need for the writes of a flush to be tried. *)
Definition headroom (g s : Z) (pending : list PendingDelta) : Prop := (g < u64_max ∧ s + Z.of_nat (length pending) <= u64_max)%Z.

Lemma chunk_count {A} (chunks : list (list A)) : Forall (λ ch, ch ≠ []) chunks → length chunks ≤ length (concat chunks).
Proof using .
  induction 1 as [|ch chunks Hch _ IH]; [done|]. simpl. rewrite length_app. destruct ch; [done|]. simpl. lia.
Qed.
Lemma concat_take {A} (chunks : list (list A)) k : ∃ j, j ≤ length (concat chunks) ∧ concat (take k chunks) = take j (concat chunks).
Proof using .
  exists (length (concat (take k chunks))).
  assert (E : concat chunks = concat (take k chunks) ++ concat (drop k chunks)) by (by rewrite <- concat_app, take_drop).
  rewrite E, length_app, take_app_length. split; [lia|done].
Qed.

(** The outcome of [flush_append]: all of the pending deltas are on the disk,
    or the first of them are and all are dirty again. *)
Inductive flushed (o : Owner) w v (pending : list PendingDelta) : result CachePersistenceError () → Owner → PersistenceWorker → gmap string PacketCacheEntry → Prop :=
| flushed_all w' :
    wk_persisted_revisions w' = foldl max_revision (wk_persisted_revisions w) pending →
    flushed o w v pending (Ok ()) (set_dirty o (ow_dirty o) (ow_pending_slots o - Z.of_nat (length pending))) w' (after v (pd_delta <$> pending))
| flushed_some e w' j :
    j ≤ length pending → wk_persisted_revisions w' = wk_persisted_revisions w →
    flushed o w v pending (Err e) (restore_pending_deltas o pending) w' (after v (take j (pd_delta <$> pending))).

Lemma flush_append_spec o w g v s pending wd :
  at_generation g v s (w_disk wd) → tracks w g v s (w_disk wd) → log_fits (w_disk wd) → Forall pending_ok pending → pending ≠ [] →
  let '(r, o', w', wd') := flush_append cf now o w pending wd in
  ∃ g' v' s', left_behind w g v s (w_disk wd) w' g' v' s' (w_disk wd') ∧ flushed o w v pending r o' w' v' ∧ faults_left wd' ≤ faults_left wd ∧
    (r = Ok () → wk_observed_generation w' = g') ∧
    (headroom g s pending → v' = after v (pd_delta <$> pending) ∧ ow_dirty o' = ow_dirty o ∨ faults_left wd' < faults_left wd).
Proof using HL HU HT.
  intros Hat Htr Hfit Hok Hne. unfold flush_append.
  destruct (chunks_ok MAX_PERSIST_WAL_RECORD_BYTES ltac:(unfold MAX_PERSIST_WAL_RECORD_BYTES, usize_max, u64_max; lia) pending)
    as (chunks & -> & Hcat & Hch).
  { eapply Forall_impl; [exact Hok|]. by intros p [_ ?]. }
  assert (Hchunks : Forall chunk_ok chunks).
  { pose proof (proj1 (Forall_forall _ _) Hok) as Hok'. rewrite Forall_forall in Hch. apply Forall_forall. intros ch Hin. destruct (Hch ch Hin) as [_ Hsize]. split.
    - apply Forall_forall. intros d Hd. assert (d ∈ pd_delta <$> pending) as (p & -> & Hp)%list_elem_of_fmap.
      { rewrite <- Hcat. apply list_elem_of_In, in_concat. exists ch. by rewrite <- !list_elem_of_In. }
      by apply Hok'.
    - intros q Hq. etrans; [by apply record_size_bound|exact Hsize]. }
  assert (Hlen : length chunks ≤ length pending).
  { rewrite <- (length_fmap pd_delta pending), <- Hcat. apply chunk_count. eapply Forall_impl; [exact Hch|]. by intros ? [? _]. }
  assert (Hcn : chunks ≠ []) by (intros ->; by apply symmetry, fmap_nil_inv in Hcat).
  pose proof (persist_chunks_spec w g v s chunks wd Hat Htr Hfit Hchunks Hcn) as Hp.
  destruct (persist_chunks cf now w chunks wd) as [[r w1] wd1].
  destruct Hp as ((Ho & Hrev & Hsince & Hbytes) & Hf1 & Hr). destruct r as [[[g1 q] bytes]|e].
  - destruct Hr as (-> & Hg1 & -> & _ & Hin & Hb1 & Hd1). rewrite Hcat in Hd1.
    pose proof (stores_sequence _ U HU _ _ _ _ _ _ _ Hd1) as [_ Hmax].
    destruct Hat as (Hg & _ & (tail & m0 & Hh0 & _)%stores_some_full).
    assert (Hfits : fits u64_max s) by (by eapply holds_universe).
    pose proof (in_step_apply _ v s chunks Hin Hchunks Hfits Hmax) as Hstep.
    rewrite Hcat in Hstep. set (w2 := mkWorker _ _ _ _ _). set (o2 := set_dirty o _ _).
    assert (Hat2 : at_generation (g + 1) (after v (pd_delta <$> pending)) (s + Z.of_nat (length chunks)) (w_disk wd1)).
    { split; [done|]. split; [done|by eapply stores_weaken]. }
    assert (Htr2 : tracks w2 (g + 1) (after v (pd_delta <$> pending)) (s + Z.of_nat (length chunks)) (w_disk wd1)) by (split; [simpl; lia|done]).
    assert (Hrev2 : wk_persisted_revisions w2 = foldl max_revision (wk_persisted_revisions w) pending) by (simpl; by rewrite Hrev).
    eexists _, _, _. split_and!; [split; [exact Hat2|split; [exact Htr2|left; lia]]|by apply flushed_all|done|done|]. intros _. by left.
  - destruct Hr as ((g' & k & Hk & Hleft) & Hx). destruct (concat_take chunks k) as (j & Hj & Hjk). rewrite Hjk, Hcat in Hleft.
    exists g', (after v (take j (pd_delta <$> pending))), (s + Z.of_nat k)%Z. split_and!; [done| |done|done|].
    + apply flushed_some; [|done]. by rewrite Hcat, length_fmap in Hj.
    + intros [Hg Hs]. right. destruct Hx as [[?|?]|?]; [lia|lia|done].
Qed.
End Worker.
