(* ===== verification/MemoryOpenSpec.v ===== *)
(** * MemoryOpenSpec: opening the root of a packet cache

    Opening binds the time to live, loads what the disk holds, repairs a torn
    log, and gives a new root its first checkpoint; a failure in between
    leaves what the disk held. *)

From S2P Require Export MemoryOwnerSpec.

Section Open.
Context {ENV : PersistEnv}.
Context (cf : PersistConfig) (U : list PacketCacheEntry).
Context (HU : universe (cf_root_dir cf) U) (HL : persist_laws U) (HT : fits u64_max (cf_ttl_secs cf)) (now : Z).
Implicit Types (v : gmap string PacketCacheEntry) (d : Disk).

Notation holds := (holds (cf_root_dir cf) U (cf_ttl_secs cf)).
Notation stores := (stores (cf_root_dir cf) U (cf_ttl_secs cf) now).
Notation stores_some := (stores_some (cf_root_dir cf) U (cf_ttl_secs cf) now).
Notation bound := (bound (cf_ttl_secs cf)).
Notation moved := (moved cf U now).

(** A state file before the time to live is bound. *)
Definition unbound (g : Z) d : Prop := dk_state d = Missing ∧ g = 0%Z ∨ dk_state d = Present (to_le_bytes 8 g).
Definition coordinated (g : Z) d : Prop := fits u64_max g ∧ (bound g d ∨ unbound g d).

Lemma read_unbound g d : fits u64_max g → unbound g d → read_state d = Ok (mkCoordination g None).
Proof using .
  intros Hg [[Hd ->]|Hd]; unfold read_state; rewrite Hd; [done|]. rewrite length_to_le_bytes.
  unfold LEGACY_COORDINATION_STATE_LEN. cbn [Nat.eqb]. unfold fits, u64_max in Hg. by rewrite from_to_le_bytes by (simpl; lia).
Qed.

(** The same files with another state. *)
Definition same_files d d' : Prop := ∃ f, d' = set_state d f.
Lemma same_files_stateless d : stateless (same_files d).
Proof using . intros d' f' [f ->]. by exists f'. Qed.
Lemma same_files_refl d : same_files d d.
Proof using . exists (dk_state d). by destruct d. Qed.
Lemma same_files_holds d d' m s tail based : same_files d d' → holds d m s tail based → holds d' m s tail based.
Proof using . intros [f ->] Hh. by apply holds_stateless. Qed.

Lemma bind_triple g d : coordinated g d →
  triple False (λ d', d' = d) (bind_ttl (cf_ttl_secs cf)) (λ a d', a = g ∧ bound g d' ∧ same_files d d')
    (λ d', coordinated g d' ∧ same_files d d' ∧ (bound g d → d' = d)).
Proof using HT.
  intros [Hg Hd]. unfold bind_ttl, read_coordination.
  assert (Hread : ∃ t, read_state d = Ok (mkCoordination g t) ∧ (t = Some (cf_ttl_secs cf) ∧ bound g d ∨ t = None ∧ unbound g d ∧ ¬ bound g d)).
  { destruct Hd as [Hb|Hu]; [eexists; split; [by apply (read_bound (cf_ttl_secs cf))|by left]|].
    exists None. split; [by apply read_unbound|]. right. split; [done|]. split; [done|]. intros Hb.
    pose proof (read_bound (cf_ttl_secs cf) g d Hg HT Hb) as H1. rewrite (read_unbound g d Hg Hu) in H1. congruence. }
  destruct Hread as (t & Hread & Ht).
  apply (triple_bind _ _ _ _ (λ st d', st = mkCoordination g t ∧ d' = d)).
  { apply (triple_bind _ _ _ _ (λ d1 d', d1 = d ∧ d' = d)); [by apply triple_get_disk|]. intros d1. apply triple_lift. intros d' [-> ->].
    by rewrite Hread. }
  intros st. apply triple_pure. intros d' [-> ->]. destruct Ht as [[-> Hb]|(-> & Hu & Hnb)]; cbn [cs_ttl_secs cs_generation].
  - rewrite Z.eqb_refl. apply triple_ret. intros d' ->. split; [done|]. split; [done|apply same_files_refl].
  - apply (triple_bind _ _ _ _ (λ _ d', bound g d' ∧ same_files d d')); [|intros u; apply triple_ret; by intros d' ?].
    assert (Hw : write_state g (cf_ttl_secs cf) = map_err (io_error "coordination state write") (io_write (λ n d,
        if (n =? 0)%nat then d
        else if (n =? 1)%nat then set_state d (Present (take 8 (to_le_bytes 8 g ++ to_le_bytes 8 (cf_ttl_secs cf)) ++ drop 8 (file_bytes (dk_state d))))
        else set_state d (state_bytes (cf_ttl_secs cf) g)) 2)) by done.
    rewrite Hw. apply triple_map_err, triple_write; [intros d' ->; split; [done|by eexists]|].
    intros d' n -> Hn. destruct n as [|[|[|n]]]; [..|lia]; cbn [Nat.eqb].
    + split; [split; [done|by right]|]. split; [apply same_files_refl|done].
    + split; [|split; [by eexists|done]]. split; [done|]. right. right. cbn [dk_state set_state].
      rewrite take_app_length' by (by rewrite length_to_le_bytes).
      assert (Hdrop : drop 8 (file_bytes (dk_state d)) = []).
      { destruct Hu as [[-> _]| ->]; [done|]. cbn [file_bytes]. apply drop_ge. by rewrite length_to_le_bytes. }
      by rewrite Hdrop, app_nil_r.
    + split; [|split; [by eexists|done]]. split; [done|by left].
Qed.

(** A disk has a checkpoint or it has none. *)
Lemma stores_based d v s m tail based : holds d m s tail based → log_fits d → stores d v s [] true → tail = [] ∧ based = true.
Proof using HL HU.
  intros Hh Hfit (m' & Hh' & _). destruct (load_holds _ U HU HL _ d m s tail based now Hh Hfit) as [(_ & _ & _ & Hb) [c Hr]].
  destruct (load_holds _ U HU HL _ d m' s [] true now Hh' Hfit) as [(_ & _ & _ & Hb') [c' Hr']]. rewrite Hr in Hr'. injection Hr' as _ _ Htail.
  split; [by case_bool_decide|congruence].
Qed.

(** What a failed opening leaves. *)
Definition open_failed g v s (based : bool) d d' : Prop := ∃ g',
  coordinated g' d' ∧ (g <= g')%Z ∧ stores_some v s based d' ∧ (bound g d → bound g' d' ∧ moved g v s d g' v s d').

(** After the time to live is bound. *)
Definition reopened g v s (based : bool) d d' : Prop := ∃ g',
  fits u64_max g' ∧ (g <= g')%Z ∧ bound g' d' ∧ stores_some v s based d' ∧ (g' = g → stores d v s [] true → stores d' v s [] true).

Lemma reopened_failed g v s based based' d d' : (based = true → based' = true) → reopened g v s based' d d' → open_failed g v s based d d'.
Proof using .
  intros Hbb (g' & Hg' & Hle & Hb & (t & b & Hbt & Hd) & Hsame). exists g'. split; [split; [done|by left]|]. split; [done|].
  split; [exists t, b; split; [tauto|done]|]. intros _. split; [done|]. destruct (decide (g' = g)) as [->|]; [right; by split_and!; [..|apply Hsame]|left; lia].
Qed.

Notation in_step := (in_step (cf_root_dir cf) U (cf_ttl_secs cf) now).
Notation shows := (shows (cf_root_dir cf) U).

Lemma pristine_artifacts d m s tail : holds d m s tail false → checkpoint_artifacts_exist d = false.
Proof using .
  intros (m0 & h & b & rs & Hb & _). inversion Hb as [|H1 H2 H3 H4 _]. unfold checkpoint_artifacts_exist. by rewrite H1, H2, H3, H4.
Qed.

Lemma bootstrap_triple c v s S based : in_step c v s → baselines c = (based, false) →
  triple True (λ d, dk_state d = S ∧ stores d v s [] based) (bootstrap_pristine_checkpoint cf now c)
    (λ r d, r.1 = set_baselines c true false ∧ dk_state d = S ∧ stores d v s [] true)
    (λ d, based = false ∧ dk_state d = S ∧ stores_some v s false d).
Proof using HU.
  intros Hin [= Hv3 Hleg]. apply triple_pure. intros d (HS & m & Hh & Hlive). unfold bootstrap_pristine_checkpoint.
  apply (triple_bind _ _ _ _ (λ d1 d', d1 = d ∧ d' = d)); [by apply triple_get_disk|]. intros d1. apply triple_pure. intros d' [-> ->].
  rewrite Hv3, Hleg. destruct based; cbn [orb].
  - apply triple_ret. intros d' ->. split; [destruct c; unfold set_baselines; cbn in *; by subst|]. split; [done|by exists m].
  - rewrite (pristine_artifacts d m s [] Hh).
    apply (triple_bind _ _ _ _ (λ _ d, dk_state d = S ∧ folded (cf_root_dir cf) U (cf_ttl_secs cf) now v s d)).
    { apply triple_map_err. eapply triple_weaken;
        [apply (write_checkpoint_triple (cf_root_dir cf) U HU (cf_ttl_secs cf) now S c v s false Hin)|done|..].
      - intros d' ->. split; [done|]. apply (stores_weaken _ _ _ _ _ _ _ [] false). by exists m.
      - done.
      - done. }
    intros b. apply (triple_bind _ _ _ _ (λ _ d, dk_state d = S ∧ stores d v s [] true)); [|intros u; by apply triple_ret].
    apply triple_map_err. eapply triple_weaken;
      [apply (reset_wal_triple (cf_root_dir cf) U HU (cf_ttl_secs cf) now S True v s)|done|done|done|].
    intros d' [HS' Hf]. split; [done|]. split; [done|by apply folded_stores].
Qed.

Lemma open_triple g v s based d : coordinated g d → stores_some v s based d → log_fits d →
  triple True (λ d', d' = d) (open_root cf now)
    (λ r d', fits u64_max r.2 ∧ bound r.2 d' ∧ stores d' v s [] true ∧ in_step r.1 v s ∧ shows r.1 v ∧ latest_ok r.1 ∧ (g <= r.2)%Z)
    (open_failed g v s based d).
Proof using HL HU HT.
  intros Hco Hst Hfit. pose proof Hst as (tail & based' & Hbb & m & Hh & Hlive). pose proof Hco as [Hg _]. unfold open_root.
  apply (triple_bind _ _ _ _ (λ _ d', d' = d)).
  { eapply triple_weaken; [exact (lock_triple False (λ d', d' = d))|done|done|done|]. intros d' ->. exists g.
    split; [done|]. split; [lia|]. split; [done|]. intros Hb. split; [done|by right]. }
  intros u. apply (triple_bind _ _ _ _ (λ a d', a = g ∧ bound g d' ∧ same_files d d')).
  { eapply triple_weaken; [exact (bind_triple g d Hco)|done|done|done|]. intros d' (Hco' & Hsf & Hsame). exists g.
    split; [done|]. split; [lia|]. split; [exists tail, based'; split; [done|]; exists m; split; [by eapply same_files_holds|done]|].
    intros Hb. rewrite (Hsame Hb). split; [done|by right]. }
  intros a. apply triple_pure. intros d1 (-> & Hb1 & Hsf).
  assert (Hh1 : holds d1 m s tail based') by (by eapply same_files_holds).
  assert (Hfit1 : log_fits d1) by (destruct Hsf as [f ->]; exact Hfit).
  destruct (load_in_step cf U HU HL now d1 v s tail based' ltac:(by exists m) Hfit1) as (Hin & Hsh & Hlat & Hbase).
  apply (triple_weaken True True (λ d', d' = d1) (λ d', d' = d1) _
    (λ r d', fits u64_max r.2 ∧ bound r.2 d' ∧ stores d' v s [] true ∧ in_step r.1 v s ∧ shows r.1 v ∧ latest_ok r.1 ∧ (g <= r.2)%Z) _
    (reopened g v s based' d)); [|done|done|done|intros d'; by apply reopened_failed].
  apply (triple_bind _ _ _ _ (λ d2 d', d2 = d1 ∧ d' = d1)); [by apply triple_get_disk|]. intros d2. apply triple_pure. intros d' [-> ->].
  set (c := load_from_disk (cf_root_dir cf) (cf_ttl_secs cf) now d1) in *.
  set (S := state_bytes (cf_ttl_secs cf) g).
  apply (triple_bind _ _ _ _ (λ _ d', dk_state d' = S ∧ stores d' v s [] based')).
  { eapply triple_weaken; [exact (repair_triple (cf_root_dir cf) U HU HL (cf_ttl_secs cf) now False d1 m s tail based' Hh1 Hfit1)|done|done|..].
    - intros b d' (HS & Hh' & _). split; [by rewrite HS|by exists m].
    - intros d' (HS & [tail' Hh'] & _ & Htail). exists g. split; [done|]. split; [lia|].
      split; [by unfold MemoryWriteSpec.bound; rewrite HS|]. split; [apply (stores_weaken _ _ _ _ _ _ _ tail' based'); by exists m|].
      intros _ Hd. destruct Htail. by apply (stores_based d v s m tail based' Hh Hfit). }
  intros repaired. unfold promote_legacy_checkpoint. pose proof Hbase as [= Hv3 Hleg]. fold c in Hv3, Hleg. rewrite Hleg. cbn [negb].
  apply (triple_bind _ _ _ _ (λ r d', r = (c, false) ∧ dk_state d' = S ∧ stores d' v s [] based')); [apply triple_ret; by intros d' ?|].
  intros r. apply triple_pure. intros d2 (-> & HS2 & Hd2).
  apply (triple_bind _ _ _ _ (λ r d', r.1 = set_baselines c true false ∧ dk_state d' = S ∧ stores d' v s [] true)).
  { eapply triple_weaken; [exact (bootstrap_triple c v s S based' Hin Hbase)|done|by intros d' ->|done|].
    intros d' (-> & HS' & Hs'). exists g. split; [done|]. split; [lia|]. split; [done|]. split; [done|].
    intros _ Hd. by destruct (stores_based d v s m tail false Hh Hfit Hd). }
  intros [c' bootstrapped]. apply triple_pure. intros d3 (Hc' & HS3 & Hd3). cbn [fst] in Hc'. subst c'.
  assert (Hshb : shows (set_baselines c true false) v ∧ latest_ok (set_baselines c true false) ∧ in_step (set_baselines c true false) v s).
  { assert (Hs' : ∀ m', shows c m' → shows (set_baselines c true false) m') by (intros m' [Hc1 ? ? ?]; split; [by apply (coherent_ext c)|done..]).
    split; [by apply Hs'|]. split; [exact Hlat|]. destruct Hin as (m' & Hm' & ?). exists m'. split; [by apply Hs'|done]. }
  destruct Hshb as (Hsh' & Hlat' & Hin').
  apply (triple_bind _ _ _ _ (λ n d', fits u64_max n ∧ (g <= n)%Z ∧ bound n d' ∧ stores d' v s [] true)).
  - destruct (_ || _ || _).
    + eapply triple_weaken; [apply (advance_triple (cf_ttl_secs cf) g (λ d, stores d v s [] true)); [by apply stores_stateless|done|done]|done|by intros d' ->|..].
      * intros n d' (-> & Hn & Hb' & Hd'). split; [done|]. split; [lia|done].
      * intros d' (g' & Hg' & Hle & Hb' & Hd'). exists g'. split; [done|]. split; [done|]. split; [done|].
        split; [apply (stores_weaken _ _ _ _ _ _ _ [] true) in Hd'; destruct Hd' as (t & b & Hbt & Hd'); exists t, b; by rewrite Hbt in *|done].
    + apply triple_ret. intros d' ->. split; [done|]. split; [lia|done].
  - intros n. apply triple_ret. intros d' (Hn & Hle & Hb' & Hd'). cbn [fst snd]. split; [done|]. by split_and!.
Qed.
End Open.
