(* ===== verification/MemorySystemSpec.v ===== *)
(** * MemorySystemSpec: the processes of a packet cache refine a shared map

    Abstractly the root is one map that openings read and flushes update: the
    append of a flush applies all that a process had taken, or a first part of
    it and makes all of it dirty again; a checkpoint changes nothing.  The
    files with their faults, generations and torn logs implement it, while the
    log is not longer than what reading it accepts; a process that is alone
    has in memory what is on the disk under what it still has to write, and it
    can always write it. *)

From S2P Require Export MemoryCommitSpec MemoryOpenSpec.

(** ** Runs *)

Section Runs.
Context {ENV : PersistEnv}.
Context (cf : PersistConfig) (U : list PacketCacheEntry).

(** What holds of every state of a run. *)
Fixpoint along (P : System → Prop) (s : System) (l : list Action) : Prop :=
  P s ∧ match l with [] => True | a :: l => along P (act cf s a) l end.

(** The entries that are committed are those of [U]. *)
Fixpoint admitted (s : System) (l : list Action) : Prop :=
  match l with
  | [] => True
  | a :: l => match a with Commit i e => set_created_at e (sy_now s) ∈ U | _ => True end ∧ admitted (act cf s a) l
  end.

(** The log is within the 512 MiB that reading it accepts, the revisions and the
    clock within 64 bits.  Appending does not check the first: a longer log is
    acknowledged and then ignored by loading ([load_oversized]), so the
    theorems are about the runs in which it does not happen. *)
Definition within_limits (s : System) : Prop :=
  log_fits (sy_disk s) ∧ Forall (λ p, ow_next_revision (ps_owner p) < u64_max)%Z (sy_processes s) ∧ fits u64_max (sy_now s).

Definition proper_run (s : System) (l : list Action) : Prop := along within_limits s l ∧ admitted s l.

Definition alone (s : System) : Prop := length (sy_processes s) ≤ 1.

Lemma along_head P s l : along P s l → P s.
Proof. destruct l; by intros []. Qed.
Lemma along_app P s l1 l2 : along P s (l1 ++ l2) ↔ along P s l1 ∧ along P (run_actions cf s l1) l2.
Proof.
  revert s. induction l1 as [|a l1 IH]; intros s; simpl.
  - split; [intros H; split; [split; [by eapply along_head|done]|done]|by intros [_ ?]].
  - rewrite IH. tauto.
Qed.
Lemma admitted_app s l1 l2 : admitted s (l1 ++ l2) ↔ admitted s l1 ∧ admitted (run_actions cf s l1) l2.
Proof. revert s. induction l1 as [|a l1 IH]; intros s; simpl; [tauto|]. rewrite IH. tauto. Qed.
End Runs.

(** ** The abstract root *)

Record Spec : Type := mkSpec {
  sp_processes : list (Owner * FlushPhase);
  sp_durable : gmap string PacketCacheEntry;
  sp_now : Z
}.
Definition empty_spec : Spec := mkSpec [] ∅ 0.

Section Abstract.
Context {ENV : PersistEnv}.
Context (cf : PersistConfig).

Definition spec_alter (i : nat) (f : Owner * FlushPhase → Owner * FlushPhase) (sp : Spec) : Spec :=
  mkSpec (alter f i (sp_processes sp)) (sp_durable sp) (sp_now sp).

(** What a process takes, when its last flush has ended. *)
Definition spec_take (oi : Owner * FlushPhase) : Owner * FlushPhase :=
  match oi.2 with
  | Idle => (set_dirty oi.1 ∅ (ow_pending_slots oi.1), after_take (btree_values (ow_dirty oi.1)))
  | _ => oi
  end.

(** The end of a flush. *)
Definition spec_finish (oi : Owner * FlushPhase) : Owner * FlushPhase :=
  match oi.2 with CheckpointDue => (oi.1, Idle) | _ => oi end.

Inductive spec_step : Spec → Action → Spec → Prop :=
| spec_commit sp i e :
    spec_step sp (Commit i e)
      (spec_alter i (λ oi, ((commit_prepared_update_at cf oi.1 (prepare_update e) (sp_now sp)).2, oi.2)) sp)
| spec_prune sp i request :
    spec_step sp (Prune i request) (spec_alter i (λ oi, ((prune_owner_at oi.1 request (sp_now sp)).2, oi.2)) sp)
| spec_taken sp i : spec_step sp (Take i) (spec_alter i spec_take sp)
| spec_flushed sp i faults o l due :
    sp_processes sp !! i = Some (o, Taken l) →
    spec_step sp (Append i faults)
      (mkSpec (<[i := (set_dirty o (ow_dirty o) (ow_pending_slots o - Z.of_nat (length l)), after_append due)]> (sp_processes sp))
         (after (cf_ttl_secs cf) (sp_now sp) (sp_durable sp) (pd_delta <$> l)) (sp_now sp))
| spec_torn sp i faults o l j :
    sp_processes sp !! i = Some (o, Taken l) → j ≤ length l →
    spec_step sp (Append i faults)
      (mkSpec (<[i := (restore_pending_deltas o l, Idle)]> (sp_processes sp))
         (after (cf_ttl_secs cf) (sp_now sp) (sp_durable sp) (take j (pd_delta <$> l))) (sp_now sp))
| spec_nothing sp i faults : (∀ o l, sp_processes sp !! i = Some (o, Taken l) → l = []) → spec_step sp (Append i faults) sp
| spec_finished sp i faults : spec_step sp (Finish i faults) (spec_alter i spec_finish sp)
| spec_checkpointed sp i faults : spec_step sp (Checkpoint i faults) sp
| spec_opened sp faults cache :
    entries_by_hash cache = sp_durable sp → coherent cache → latest_ok cache →
    spec_step sp (Open faults) (mkSpec (sp_processes sp ++ [(new_owner cache, Idle)]) (sp_durable sp) (sp_now sp))
| spec_not_opened sp faults : spec_step sp (Open faults) sp
| spec_crashed sp i : spec_step sp (Crash i) (mkSpec (delete i (sp_processes sp)) (sp_durable sp) (sp_now sp))
| spec_passed sp seconds :
    spec_step sp (Pass seconds)
      (mkSpec (sp_processes sp) (live_entries (cf_ttl_secs cf) (sp_now sp + Z.of_N seconds) (sp_durable sp)) (sp_now sp + Z.of_N seconds)).

Inductive spec_run : Spec → list Action → Spec → Prop :=
| spec_run_nil sp : spec_run sp [] sp
| spec_run_cons sp a sp' l sp'' : spec_step sp a sp' → spec_run sp' l sp'' → spec_run sp (a :: l) sp''.

Lemma spec_run_app sp l1 sp' l2 sp'' : spec_run sp l1 sp' → spec_run sp' l2 sp'' → spec_run sp (l1 ++ l2) sp''.
Proof. induction 1; [done|]. intros. econstructor; [done|]. by apply IHspec_run. Qed.
End Abstract.

(** ** The implementation *)

Section Simulation.
Context {ENV : PersistEnv}.
Context (cf : PersistConfig) (U : list PacketCacheEntry).
Context (HU : universe (cf_root_dir cf) U) (HL : persist_laws U) (HA : admission_laws U) (HT : fits u64_max (cf_ttl_secs cf)).
Implicit Types (v : gmap string PacketCacheEntry) (d : Disk) (p : Process).

Notation stores := (stores (cf_root_dir cf) U (cf_ttl_secs cf)).
Notation stores_some := (stores_some (cf_root_dir cf) U (cf_ttl_secs cf)).
Notation bound := (bound (cf_ttl_secs cf)).
Notation tracks := (tracks cf U).
Notation owner_ok := (owner_ok cf U).

Definition process_ok (now g : Z) v (q : Z) d p : Prop :=
  tracks now (ps_worker p) g v q d ∧ owner_ok (ps_owner p) (ps_inflight p) ∧
  persisted_ok (wk_persisted_revisions (ps_worker p)) (ps_owner p) (ps_inflight p).

(** The disk at a generation and a sequence. *)
Definition disk_ok (now g : Z) v (q : Z) (used : bool) d : Prop :=
  coordinated cf g d ∧ stores_some now v q used d ∧ (used = true → bound g d).

Definition in_use (s : System) : bool := negb (bool_decide (sy_processes s = [])).

Definition implements (s : System) (sp : Spec) (g q : Z) : Prop :=
  sp_processes sp = (λ p, (ps_owner p, ps_flush p)) <$> sy_processes s ∧ sp_now sp = sy_now s ∧
  disk_ok (sy_now s) g (sp_durable sp) q (in_use s) (sy_disk s) ∧
  Forall (process_ok (sy_now s) g (sp_durable sp) q (sy_disk s)) (sy_processes s).

(** A process that is alone agrees with what it will have written. *)
Definition agreement (s : System) v : Prop :=
  Forall (λ p, agrees cf (sy_now s) v (ps_owner p) (ps_inflight p)) (sy_processes s).

Lemma stores_live now now' d v q tail based : (now <= now')%Z → stores now d v q tail based →
  stores now' d (live_entries (cf_ttl_secs cf) now' v) q tail based.
Proof using . intros Hn (m & Hm & <-). exists m. split; [done|]. by rewrite live_live. Qed.
Lemma stores_normal now d v q based : stores_some now v q based d → live_entries (cf_ttl_secs cf) now v = v.
Proof using . intros (t & b & _ & m & _ & <-). by apply live_live. Qed.

Lemma disk_ok_pass now now' g v q used d : (now <= now')%Z → disk_ok now g v q used d →
  disk_ok now' g (live_entries (cf_ttl_secs cf) now' v) q used d.
Proof using .
  intros Hn (Hc & (t & b & Hb & Hd) & Hu). split; [done|]. split; [exists t, b; split; [done|by eapply stores_live]|done].
Qed.
Lemma process_ok_pass now now' g v q d p : (now <= now')%Z → process_ok now g v q d p →
  process_ok now' g (live_entries (cf_ttl_secs cf) now' v) q d p.
Proof using .
  intros Hn ([Hle Heq] & Ho). split; [|done]. split; [done|]. intros H. destruct (Heq H) as [(m & Hm & <- & Hq) Hd]. split; [|by eapply stores_live].
  exists m. split; [done|]. split; [by rewrite live_live|done].
Qed.

(** The process that acts, beside the others. *)
Lemma process_ok_moved now g v q d g' v' q' d' p : process_ok now g v q d p → moved cf U now g v q d g' v' q' d' →
  process_ok now g' v' q' d' p.
Proof using . intros (Ht & Ho) Hm. split; [by eapply tracks_moved|done]. Qed.

Lemma Forall_insert_except {A} (P Q : A → Prop) (l : list A) i x : Forall P l → (∀ y, P y → Q y) → Q x → Forall Q (<[i := x]> l).
Proof using .
  intros Hl HPQ Hx. apply Forall_insert; [|done]. eapply Forall_impl; [exact Hl|done].
Qed.

Lemma alter_fmap_at {A B} (F : A → B) (f : A → A) (h : B → B) (l : list A) i :
  (∀ x, l !! i = Some x → F (f x) = h (F x)) → alter h i (F <$> l) = F <$> alter f i l.
Proof using .
  intros Hx. apply list_eq. intros j. rewrite list_lookup_fmap. destruct (decide (i = j)) as [<-|Hne].
  - rewrite !list_lookup_alter_eq, list_lookup_fmap. destruct (l !! i) as [x|] eqn:E; [|done]. simpl. by rewrite Hx.
  - by rewrite !list_lookup_alter_ne, list_lookup_fmap.
Qed.

Lemma in_use_some s i p : sy_processes s !! i = Some p → in_use s = true.
Proof using . unfold in_use. intros Hp. by destruct (sy_processes s). Qed.

(** An action of one process on its owner alone. *)
Lemma implements_alter s sp g q i (f : Process → Process) (h : Owner * FlushPhase → Owner * FlushPhase) :
  implements s sp g q →
  (∀ p, process_ok (sy_now s) g (sp_durable sp) q (sy_disk s) p → sy_processes s !! i = Some p →
    ps_worker (f p) = ps_worker p ∧ (ps_owner (f p), ps_flush (f p)) = h (ps_owner p, ps_flush p) ∧
    owner_ok (ps_owner (f p)) (ps_inflight (f p)) ∧
    persisted_ok (wk_persisted_revisions (ps_worker p)) (ps_owner (f p)) (ps_inflight (f p)) ∧
    (agrees cf (sy_now s) (sp_durable sp) (ps_owner p) (ps_inflight p) →
     agrees cf (sy_now s) (sp_durable sp) (ps_owner (f p)) (ps_inflight (f p)))) →
  let s' := set_processes s (alter f i (sy_processes s)) in
  implements s' (spec_alter i h sp) g q ∧ (agreement s (sp_durable sp) → agreement s' (sp_durable sp)).
Proof using .
  intros (Hp & Hn & Hd & Hall) Hf. pose proof (proj1 (Forall_forall _ _) Hall) as Hall'.
  assert (Huse : in_use (set_processes s (alter f i (sy_processes s))) = in_use s).
  { unfold in_use. simpl. f_equal. apply bool_decide_ext. rewrite <- !length_zero_iff_nil, length_alter. done. }
  split; [split; [|split; [done|split]]|].
  - simpl. rewrite Hp. apply alter_fmap_at. intros p Hin. apply Hf; [apply Hall'; by eapply list_elem_of_lookup_2|done].
  - rewrite Huse. exact Hd.
  - simpl. apply Forall_alter; [done|]. intros p Hin Hpk.
    destruct (Hf p Hpk Hin) as (Hw & _ & Ho & Hper & _). destruct Hpk as (Ht & _). split; [by rewrite Hw|]. by rewrite Hw.
  - intros Hag. unfold agreement. simpl. apply Forall_alter; [done|]. intros p Hin Hpa.
    apply (Hf p); [apply Hall'; by eapply list_elem_of_lookup_2|done..].
Qed.

(** An action of one process on the disk. *)
Lemma implements_moved s sp g q i p o w ph l d' g' v' q' : ps_inflight (mkProcess o w ph) = l → implements s sp g q → sy_processes s !! i = Some p →
  left_behind cf U (sy_now s) (ps_worker p) g (sp_durable sp) q (sy_disk s) w g' v' q' d' → owner_ok o l →
  persisted_ok (wk_persisted_revisions w) o l →
  implements (mkSystem (<[i := mkProcess o w ph]> (sy_processes s)) d' (sy_now s))
    (mkSpec (<[i := (o, ph)]> (sp_processes sp)) v' (sp_now sp)) g' q'.
Proof using .
  intros <- (Hp & Hn & Hd & Hall) Hi ((Hg & Hb & Hst) & Htr & Hm) Ho Hper. split; [|split; [done|split]].
  - simpl. by rewrite Hp, list_fmap_insert.
  - assert (Huse : in_use (mkSystem (<[i := mkProcess o w ph]> (sy_processes s)) d' (sy_now s)) = true).
    { unfold in_use. simpl. rewrite bool_decide_eq_false_2; [done|]. rewrite <- length_zero_iff_nil, length_insert.
      apply lookup_lt_Some in Hi. lia. }
    rewrite Huse. split; [split; [done|by left]|]. done.
  - simpl. eapply Forall_insert_except; [exact Hall|intros p' Hp'; by eapply process_ok_moved|]. done.
Qed.

Lemma lookup_spec s sp g q i : implements s sp g q → sp_processes sp !! i = (λ p, (ps_owner p, ps_flush p)) <$> (sy_processes s !! i).
Proof using . intros (Hp & _). by rewrite Hp, list_lookup_fmap. Qed.

Lemma implements_process s sp g q i p : implements s sp g q → sy_processes s !! i = Some p →
  process_ok (sy_now s) g (sp_durable sp) q (sy_disk s) p ∧ at_generation cf U (sy_now s) g (sp_durable sp) q (sy_disk s).
Proof using .
  intros (Hp & Hn & (Hc & Hs & Hb) & Hall) Hi. rewrite (in_use_some s i p Hi) in *. rewrite Forall_forall in Hall. split.
  - apply Hall. by eapply list_elem_of_lookup_2.
  - split; [apply Hc|]. split; [by apply Hb|done].
Qed.

Notation after := (after (cf_ttl_secs cf)).

(** The two outcomes of the append of a flush. *)
Lemma flushed_owner now o w v l r o' w' v' : owner_ok o l → persisted_ok (wk_persisted_revisions w) o l →
  flushed cf now o w v l r o' w' v' →
  owner_ok o' [] ∧ persisted_ok (wk_persisted_revisions w') o' [] ∧ ow_memory o' = ow_memory o ∧
  (agrees cf now v o l → agrees cf now v' o' []) ∧
  (r = Ok () ∧ o' = set_dirty o (ow_dirty o) (ow_pending_slots o - Z.of_nat (length l)) ∧ v' = after now v (pd_delta <$> l) ∨
   ∃ j e, r = Err e ∧ j ≤ length l ∧ o' = restore_pending_deltas o l ∧ v' = after now v (take j (pd_delta <$> l))).
Proof using HU.
  intros Ho Hper Hf. destruct (oo_known cf U o l Ho) as [_ Hk]. destruct Hf as [w' Hrev|e w' j Hj Hrev]; rewrite Hrev.
  - destruct (finish_all_spec cf U _ o l Ho Hper) as [Ho' Hper']. split; [done|]. split; [done|]. split; [done|]. split; [|by left].
    intros Hag. unfold agrees in *. simpl. rewrite Hag. symmetry. by apply (view_all U (cf_ttl_secs cf)).
  - destruct (finish_some_spec cf U _ o l Ho Hper) as (Ho' & Hper' & Hm & _ & HD). split; [done|]. split; [done|]. split; [done|].
    split; [|right; by exists j, e]. intros Hag. unfold agrees in *. rewrite Hm, Hag. symmetry.
    apply (view_some (cf_root_dir cf) U HU (cf_ttl_secs cf)); [apply (oo_distinct _ _ _ _ Ho)|done|done].
Qed.

(** The append of a flush of a process. *)
Lemma append_step s sp g q i p faults : implements s sp g q → log_fits (sy_disk s) → sy_processes s !! i = Some p → ps_inflight p ≠ [] →
  let s' := act cf s (Append i faults) in
  let '(r, o', w', wd') := flush_append cf (sy_now s) (ps_owner p) (ps_worker p) (ps_inflight p) (mkWorld (sy_disk s) faults) in
  s' = mkSystem (<[i := mkProcess o' w' (after_append (is_ok r && checkpoint_due w'))]> (sy_processes s)) (w_disk wd') (sy_now s) ∧
  ∃ sp' g' q', spec_step cf sp (Append i faults) sp' ∧ implements s' sp' g' q' ∧ ow_memory o' = ow_memory (ps_owner p) ∧
    (agrees cf (sy_now s) (sp_durable sp) (ps_owner p) (ps_inflight p) → agrees cf (sy_now s) (sp_durable sp') o' []) ∧
    (r = Ok () → sp_durable sp' = after (sy_now s) (sp_durable sp) (pd_delta <$> ps_inflight p) ∧ wk_observed_generation w' = g') ∧
    (headroom g q (ps_inflight p) → Forall (λ f, is_fault f = false) faults → ow_dirty o' = ow_dirty (ps_owner p)).
Proof using HL HU HT.
  intros Him Hfit Hi El s'. destruct (implements_process s sp g q i p Him Hi) as [(Htr & Ho & Hper) Hat].
  pose proof (lookup_spec s sp g q i Him) as Hsp. rewrite Hi in Hsp. cbn [fmap option_fmap option_map] in Hsp.
  assert (Hpend : Forall (pending_ok U) (ps_inflight p)).
  { eapply Forall_impl; [apply (oo_inflight _ _ _ _ Ho)|]. by intros ? [? _]. }
  pose proof (flush_append_spec cf U HU HL HT (sy_now s) (ps_owner p) (ps_worker p) g (sp_durable sp) q (ps_inflight p)
    (mkWorld (sy_disk s) faults) Hat Htr Hfit Hpend El) as Hff.
  assert (Hs' : s' = let '(r, o, w, wd) := flush_append cf (sy_now s) (ps_owner p) (ps_worker p) (ps_inflight p) (mkWorld (sy_disk s) faults) in
    mkSystem (<[i := mkProcess o w (after_append (is_ok r && checkpoint_due w))]> (sy_processes s)) (w_disk wd) (sy_now s)).
  { unfold s', act. rewrite Hi. by destruct (ps_inflight p). }
  clearbody s'. destruct (flush_append _ _ _ _ _ _) as [[[r o'] w'] wd'] eqn:Ef. split; [done|]. rewrite Hs'.
  destruct Hff as (g' & v' & q' & Hleft & Hfl & Hfaults & Hgen & Hroom).
  destruct (flushed_owner _ _ _ _ _ _ _ _ _ Ho Hper Hfl) as (Ho' & Hper' & Hm & Hag & Hcase).
  assert (Hn : sp_now sp = sy_now s) by apply Him.
  exists (mkSpec (<[i := (o', after_append (is_ok r && checkpoint_due w'))]> (sp_processes sp)) v' (sp_now sp)), g', q'.
  split; [|split; [eapply implements_moved; [by destruct (is_ok r && checkpoint_due w')|done..]|split; [done|split; [done|split]]]].
  - assert (Ht : ps_flush p = Taken (ps_inflight p)) by (unfold ps_inflight in *; by destruct (ps_flush p)). rewrite Ht in Hsp.
    destruct Hcase as [(_ & -> & ->)|(j & e & -> & Hj & -> & ->)]; rewrite <- Hn; [by apply spec_flushed|by apply spec_torn].
  - intros Hr. split; [|by apply Hgen]. destruct Hcase as [(_ & _ & ?)|(j & e & ? & _)]; [done|congruence].
  - intros Hh Hnf. destruct (Hroom Hh) as [[_ ?]|Hlt]; [done|]. exfalso.
    assert (faults_left (mkWorld (sy_disk s) faults) = 0); [|lia]. unfold faults_left. simpl.
    assert (Hnil : filter (λ f, is_fault f) faults = []); [|by rewrite Hnil]. apply elem_of_nil_inv.
    intros f [Hf Hin]%list_elem_of_filter. rewrite Forall_forall in Hnf. by rewrite (Hnf f Hin) in Hf.
Qed.

(** A checkpoint of a process that has nothing in flight; its flush has ended. *)
Lemma checkpoint_step s sp g q i p faults : implements s sp g q → sy_processes s !! i = Some p → ps_inflight p = [] →
  (wk_observed_generation (ps_worker p) ≠ g → log_fits (sy_disk s)) →
  ∃ g' w d, checkpoint_process cf s i p faults = mkSystem (<[i := mkProcess (ps_owner p) w Idle]> (sy_processes s)) d (sy_now s) ∧
    implements (checkpoint_process cf s i p faults) (mkSpec (<[i := (ps_owner p, Idle)]> (sp_processes sp)) (sp_durable sp) (sp_now sp)) g' q.
Proof using HL HU HT.
  intros Him Hi El Hfit. destruct (implements_process s sp g q i p Him Hi) as [(Htr & Ho & Hper) Hat]. unfold checkpoint_process.
  pose proof (checkpoint_spec cf U HU HL HT (sy_now s) (ps_worker p) g (sp_durable sp) q (mkWorld (sy_disk s) faults) Hat Htr Hfit) as Hck.
  destruct (checkpoint cf (sy_now s) (ps_worker p) (mkWorld (sy_disk s) faults)) as [[r w'] wd']. destruct Hck as ((g' & Hleft) & Hrev & _).
  exists g', w', (w_disk wd'). split; [done|].
  pose proof (implements_moved s sp g q i p (ps_owner p) w' Idle [] _ g' _ q eq_refl Him Hi Hleft) as Hm. rewrite El, Hrev in *.
  by apply Hm.
Qed.

Definition admissible (s : System) (a : Action) : Prop :=
  match a with Commit i e => set_created_at e (sy_now s) ∈ U | _ => True end.

(** The simulation of one action. *)
Definition simulated (s : System) (sp : Spec) (a : Action) : Prop := ∃ sp' g' q',
  spec_step cf sp a sp' ∧ implements (act cf s a) sp' g' q' ∧
  (alone s → alone (act cf s a) → agreement s (sp_durable sp) → agreement (act cf s a) (sp_durable sp')).

Lemma next_revision_limit s p : within_limits s → p ∈ sy_processes s → (ow_next_revision (ps_owner p) < u64_max)%Z.
Proof using . intros (_ & Hl & _) Hp. rewrite Forall_forall in Hl. by apply Hl. Qed.

Lemma simulate_commit s sp g q i e : implements s sp g q → within_limits s → set_created_at e (sy_now s) ∈ U → simulated s sp (Commit i e).
Proof using HA HU.
  intros Him Hlim He. assert (Hn : sp_now sp = sy_now s) by apply Him.
  destruct (implements_alter s sp g q i (commit_process cf (sy_now s) e)
    (λ oi, ((commit_prepared_update_at cf oi.1 (prepare_update e) (sp_now sp)).2, oi.2)) Him) as [H1 H2].
  - intros p Hpk Hin. destruct Hpk as (Ht & Ho & Hper). apply list_elem_of_lookup_2 in Hin. pose proof (next_revision_limit s p Hlim Hin) as Hmax.
    destruct (commit_spec cf U HU HA (ps_owner p) (ps_inflight p) e (sy_now s) Ho Hmax ltac:(apply Hlim) He) as (Ho' & Hp' & _ & Hag).
    split; [done|]. split; [by rewrite Hn|]. split; [done|]. split; [by apply Hp'|apply Hag].
  - eexists _, g, q. split; [apply spec_commit|]. split; [exact H1|]. intros _ _. exact H2.
Qed.

Lemma simulate_prune s sp g q i request : implements s sp g q → within_limits s → simulated s sp (Prune i request).
Proof using HA HU.
  intros Him Hlim. assert (Hn : sp_now sp = sy_now s) by apply Him.
  destruct (implements_alter s sp g q i (prune_process (sy_now s) request)
    (λ oi, ((prune_owner_at oi.1 request (sp_now sp)).2, oi.2)) Him) as [H1 H2].
  - intros p Hpk Hin. destruct Hpk as (Ht & Ho & Hper). apply list_elem_of_lookup_2 in Hin. pose proof (next_revision_limit s p Hlim Hin) as Hmax.
    destruct (prune_spec cf U HU HA (ps_owner p) (ps_inflight p) request (sy_now s) Ho Hmax) as (Ho' & Hp' & _ & Hag).
    split; [done|]. split; [by rewrite Hn|]. split; [done|]. split; [by apply Hp'|apply Hag].
  - eexists _, g, q. split; [apply spec_prune|]. split; [exact H1|]. intros _ _. exact H2.
Qed.

(** A worker takes, when its last flush has ended. *)
Lemma take_process_spec now g v q d p : process_ok now g v q d p → ps_flush p = Idle →
  ps_worker (take_process p) = ps_worker p ∧ (ps_owner (take_process p), ps_flush (take_process p)) = spec_take (ps_owner p, ps_flush p) ∧
  owner_ok (ps_owner (take_process p)) (ps_inflight (take_process p)) ∧
  persisted_ok (wk_persisted_revisions (ps_worker p)) (ps_owner (take_process p)) (ps_inflight (take_process p)) ∧
  ∀ v, agrees cf now v (ps_owner p) (ps_inflight p) → agrees cf now v (ps_owner (take_process p)) (ps_inflight (take_process p)).
Proof using HU.
  intros (Ht & Ho & Hper) Hidle. unfold take_process, spec_take, ps_inflight in *. rewrite Hidle in *. cbn [fst snd].
  destruct (flush_take_spec cf U HU (ps_worker p) (ps_owner p) Ho Hper) as (Hf & Ho' & Hper' & Hv). rewrite Hf. cbn [ps_worker ps_owner ps_flush].
  assert (taken (after_take (btree_values (ow_dirty (ps_owner p)))) = btree_values (ow_dirty (ps_owner p))) as -> by by destruct (btree_values _).
  split; [done|]. split; [done|]. split; [done|]. split; [done|]. intros v'. unfold agrees. cbn [ow_memory ow_dirty set_dirty]. by rewrite Hv.
Qed.

Lemma simulate_take s sp g q i : implements s sp g q → simulated s sp (Take i).
Proof using HU.
  intros Him. destruct (implements_alter s sp g q i take_process spec_take Him) as [H1 H2].
  - intros p Hpk _. destruct (ps_flush p) eqn:Hidle.
    2, 3: assert (Hsame : take_process p = p) by (unfold take_process; by rewrite Hidle);
      rewrite Hsame, Hidle; by destruct Hpk as (_ & Ho & Hper); split_and!.
    destruct (take_process_spec _ _ _ _ _ _ Hpk Hidle) as (Hw & Hsp & Ho & Hper & Hag). rewrite Hidle in Hsp.
    split; [done|]. split; [done|]. split; [done|]. split; [done|apply Hag].
  - eexists _, g, q. split; [apply spec_taken|]. split; [exact H1|]. intros _ _. exact H2.
Qed.

Lemma alone_lookup {A} (l : list A) i x : length l ≤ 1 → l !! i = Some x → l = [x] ∧ i = 0.
Proof using . destruct l as [|y [|z l]]; [done| |simpl; lia]. intros _. destruct i; [by intros [= ->]|done]. Qed.

(** An action that puts a process at its place keeps the agreement of a process that is alone. *)
Lemma agreement_alone s i p p' d v v' : alone s → sy_processes s !! i = Some p →
  (agrees cf (sy_now s) v (ps_owner p) (ps_inflight p) → agrees cf (sy_now s) v' (ps_owner p') (ps_inflight p')) →
  agreement s v → agreement (mkSystem (<[i := p']> (sy_processes s)) d (sy_now s)) v'.
Proof using .
  intros Hal Hi Hag Hagree. destruct (alone_lookup _ _ _ Hal Hi) as [Hl ->]. unfold agreement in *. simpl. rewrite Hl in *.
  apply Forall_singleton. rewrite Forall_singleton in Hagree. by apply Hag.
Qed.

Lemma simulate_append s sp g q i faults : implements s sp g q → within_limits s → simulated s sp (Append i faults).
Proof using HL HU HT.
  intros Him Hlim. unfold simulated. pose proof (lookup_spec s sp g q i Him) as Hsp.
  assert (Hnothing : act cf s (Append i faults) = s → (∀ o l, sp_processes sp !! i = Some (o, Taken l) → l = []) →
    ∃ sp' g' q', spec_step cf sp (Append i faults) sp' ∧ implements (act cf s (Append i faults)) sp' g' q' ∧
    (alone s → alone (act cf s (Append i faults)) → agreement s (sp_durable sp) → agreement (act cf s (Append i faults)) (sp_durable sp'))).
  { intros -> Hl. exists sp, g, q. by split; [apply spec_nothing|]. }
  destruct (sy_processes s !! i) as [p|] eqn:Hi.
  - destruct (decide (ps_inflight p = [])) as [El|El].
    + apply Hnothing; [unfold act; by rewrite Hi, El|]. rewrite Hsp. intros o l [= _ Ht]. unfold ps_inflight in El. by rewrite Ht in El.
    + clear Hnothing. pose proof (append_step s sp g q i p faults Him (proj1 Hlim) Hi El) as Hf. set (s' := act cf s (Append i faults)) in *.
      destruct (flush_append _ _ _ _ _ _) as [[[r o'] w'] wd']. destruct Hf as (Hs' & sp' & g' & q' & Hstep & Him' & _ & Hag & _).
      exists sp', g', q'. split; [done|]. split; [done|]. intros Hal _. rewrite Hs'.
      apply (agreement_alone s i p); [done|done|]. by destruct (is_ok r && checkpoint_due w').
  - apply Hnothing; [unfold act; by rewrite Hi|]. by rewrite Hsp.
Qed.

Lemma simulate_checkpoint_process s sp g q i p faults a : implements s sp g q → within_limits s → sy_processes s !! i = Some p →
  ps_inflight p = [] → act cf s a = checkpoint_process cf s i p faults →
  spec_step cf sp a (mkSpec (<[i := (ps_owner p, Idle)]> (sp_processes sp)) (sp_durable sp) (sp_now sp)) → simulated s sp a.
Proof using HL HU HT.
  intros Him Hlim Hi El Hact Hstep. unfold simulated. rewrite Hact.
  destruct (checkpoint_step s sp g q i p faults Him Hi El (λ _, proj1 Hlim)) as (g' & w & d & Hs & Him').
  eexists _, g', q. split; [exact Hstep|]. split; [done|]. intros Hal _. rewrite Hs. apply (agreement_alone s i p); [done|done|]. by rewrite El.
Qed.

(** The processes of the abstract root after a change of one. *)
Lemma spec_alter_lookup (h : Owner * FlushPhase → Owner * FlushPhase) sp i x : sp_processes sp !! i = Some x →
  spec_alter i h sp = mkSpec (<[i := h x]> (sp_processes sp)) (sp_durable sp) (sp_now sp).
Proof using .
  intros Hx. unfold spec_alter. f_equal. apply list_eq. intros j. destruct (decide (i = j)) as [<-|Hne].
  - by rewrite list_lookup_alter_eq, Hx, list_lookup_insert_eq by (by eapply lookup_lt_Some).
  - by rewrite list_lookup_alter_ne, list_lookup_insert_ne.
Qed.

Lemma spec_alter_same (h : Owner * FlushPhase → Owner * FlushPhase) sp i : (∀ x, sp_processes sp !! i = Some x → h x = x) → spec_alter i h sp = sp.
Proof using .
  intros Hx. destruct sp as [l v n]. unfold spec_alter. simpl in *. f_equal. apply list_eq. intros j. destruct (decide (i = j)) as [<-|Hne].
  - rewrite list_lookup_alter_eq. destruct (l !! i) as [x|] eqn:E; [|done]. simpl. by rewrite Hx.
  - by rewrite list_lookup_alter_ne.
Qed.

Lemma simulate_finish s sp g q i faults : implements s sp g q → within_limits s → simulated s sp (Finish i faults).
Proof using HL HU HT.
  intros Him Hlim. pose proof (spec_finished cf sp i faults) as Hstep. pose proof (lookup_spec s sp g q i Him) as Hsp.
  destruct (sy_processes s !! i) as [p|] eqn:Hi; simpl in Hsp.
  - destruct (ps_flush p) eqn:Ed.
    3: { eapply (simulate_checkpoint_process s sp g q i p); [done|done|done|unfold ps_inflight; by rewrite Ed|unfold act; by rewrite Hi, Ed|].
         by rewrite (spec_alter_lookup _ _ _ _ Hsp) in Hstep. }
    all: rewrite spec_alter_same in Hstep by (intros x; rewrite Hsp; by intros [= <-]).
    all: unfold simulated, act; rewrite Hi, Ed; by exists sp, g, q.
  - rewrite spec_alter_same in Hstep by (intros x; by rewrite Hsp). unfold simulated, act. rewrite Hi. by exists sp, g, q.
Qed.

Lemma simulate_checkpoint s sp g q i faults : implements s sp g q → within_limits s → simulated s sp (Checkpoint i faults).
Proof using HL HU HT.
  intros Him Hlim. pose proof (spec_checkpointed cf sp i faults) as Hstep. pose proof (lookup_spec s sp g q i Him) as Hsp.
  destruct (sy_processes s !! i) as [p|] eqn:Hi; simpl in Hsp; [|unfold simulated, act; rewrite Hi; by exists sp, g, q].
  destruct (ps_flush p) eqn:Ed; [|unfold simulated, act; rewrite Hi, Ed; by exists sp, g, q..].
  eapply (simulate_checkpoint_process s sp g q i p); [done|done|done|unfold ps_inflight; by rewrite Ed|unfold act; by rewrite Hi, Ed|].
  rewrite list_insert_id by done. by destruct sp.
Qed.

(** A new owner of a cache. *)
Lemma new_process_ok now g v q d cache : in_step (cf_root_dir cf) U (cf_ttl_secs cf) now cache v q → shows (cf_root_dir cf) U cache v →
  latest_ok cache → stores now d v q [] true →
  process_ok now g v q d (mkProcess (new_owner cache) (new_worker cache g) Idle) ∧ agrees cf now v (new_owner cache) [].
Proof using .
  intros Hin Hs Hl Hd. split; [split; [by split|split]|].
  - split; simpl; try done; [constructor|by exists v].
  - split; simpl; [done|done|]. intros p r Hp%elem_of_nil. done.
  - unfold agrees. simpl. rewrite (sh_entries _ _ _ _ Hs). f_equal. apply map_eq. intros k. unfold view. by rewrite overlay_lookup.
Qed.

Lemma simulate_open s sp g q faults : implements s sp g q → within_limits s → simulated s sp (Open faults).
Proof using HL HU HT.
  intros (Hp & Hn & (Hco & Hst & Hb) & Hall) Hlim. unfold simulated, act.
  pose proof (open_triple cf U HU HL HT (sy_now s) g (sp_durable sp) q (in_use s) (sy_disk s) Hco Hst ltac:(apply Hlim)
    (mkWorld (sy_disk s) faults) eq_refl) as Ht.
  destruct (open_root cf (sy_now s) (mkWorld (sy_disk s) faults)) as [[[cache g']|e] wd']; cbn [fst snd] in Ht.
  - destruct Ht as ((Hg' & Hb' & Hd' & Hin & Hsh & Hlat & Hle) & _).
    destruct (new_process_ok (sy_now s) g' (sp_durable sp) q (w_disk wd') cache Hin Hsh Hlat Hd') as [Hnew Hag].
    eexists _, g', q. split; [apply (spec_opened cf sp faults cache); [by rewrite (sh_entries _ _ _ _ Hsh)|apply Hsh|done]|]. split.
    + split; [|split; [done|split]].
      * simpl. by rewrite Hp, fmap_app.
      * assert (Huse : in_use (mkSystem (sy_processes s ++ [mkProcess (new_owner cache) (new_worker cache g') Idle]) (w_disk wd') (sy_now s)) = true).
        { unfold in_use. simpl. rewrite bool_decide_eq_false_2; [done|]. by intros [_ ?]%app_nil. }
        rewrite Huse. split; [split; [done|by left]|]. split; [by apply (stores_weaken _ _ _ _ _ _ _ [] true) in Hd'|done].
      * simpl. apply Forall_app. split; [|by apply Forall_singleton]. eapply Forall_impl; [exact Hall|]. intros p Hpk.
        eapply process_ok_moved; [exact Hpk|]. destruct (decide (g = g')) as [->|]; [by right|left; lia].
    + intros _ Hal _. unfold alone in Hal. simpl in Hal. rewrite length_app in Hal. simpl in Hal.
      destruct (sy_processes s) as [|]; [|simpl in Hal; lia]. by apply Forall_singleton.
  - destruct Ht as ((g' & Hco' & Hle & Hst' & Hbound) & _). exists sp, g', q. split; [apply spec_not_opened|]. split; [|done].
    split; [done|]. split; [done|]. split.
    + split; [done|]. split; [done|]. intros Hu. apply Hbound, Hb, Hu.
    + simpl. destruct (in_use s) eqn:Hu.
      * eapply Forall_impl; [exact Hall|]. intros p Hpk. eapply process_ok_moved; [exact Hpk|]. by apply Hbound, Hb.
      * unfold in_use in Hu. apply negb_false_iff, bool_decide_eq_true in Hu. by rewrite Hu.
Qed.

Lemma simulate_crash s sp g q i : implements s sp g q → simulated s sp (Crash i).
Proof using .
  intros (Hp & Hn & (Hco & Hst & Hb) & Hall). eexists _, g, q. split; [apply spec_crashed|]. split.
  - split; [|split; [done|split]].
    + simpl. rewrite Hp. clear. revert i. induction (sy_processes s) as [|p l IH]; intros [|i]; simpl; [done..|]. f_equal. apply IH.
    + assert (Huse : in_use (act cf s (Crash i)) = true → in_use s = true).
      { unfold in_use, act. simpl. by destruct (sy_processes s). }
      split; [done|]. split; [|intros Hu; by apply Hb, Huse].
      destruct Hst as (t & b & Hbt & Hd). exists t, b. split; [intros Hu; by apply Hbt, Huse|done].
    + simpl. by apply Forall_delete.
  - intros _ _ Hag. unfold agreement in *. simpl. by apply Forall_delete.
Qed.

Lemma simulate_pass s sp g q seconds : implements s sp g q → simulated s sp (Pass seconds).
Proof using HU.
  intros (Hp & Hn & Hd & Hall). assert (Hle : (sy_now s <= sy_now s + Z.of_N seconds)%Z) by lia.
  eexists _, g, q. split; [apply spec_passed|]. rewrite Hn. split.
  - split; [done|]. split; [done|]. split; [by eapply disk_ok_pass|]. simpl. eapply Forall_impl; [exact Hall|]. intros p Hpk. by eapply process_ok_pass.
  - intros _ _ Hag. unfold agreement in *. simpl. rewrite Forall_forall in Hag, Hall. apply Forall_forall. intros p Hin.
    specialize (Hag p Hin). destruct (Hall p Hin) as (_ & Ho & _). destruct (oo_known _ _ _ _ Ho) as [_ Hk]. unfold agrees in *.
    apply (live_ext _ _ _ _ _ Hle) in Hag. rewrite Hag. apply live_overlay.
    apply (live_foldl (cf_root_dir cf) U HU); [done|]. by apply Forall_fmap.
Qed.

Lemma simulate s sp g q a : implements s sp g q → within_limits s → admissible s a → simulated s sp a.
Proof using HL HU HA HT.
  intros Him Hlim Ha. destruct a; [by eapply simulate_commit|by eapply simulate_prune|by eapply simulate_take|by eapply simulate_append|by eapply simulate_finish|
    by eapply simulate_checkpoint|by eapply simulate_open|by eapply simulate_crash|by eapply simulate_pass].
Qed.

Lemma simulate_run s sp g q l : implements s sp g q → proper_run cf U s l →
  ∃ sp' g' q', spec_run cf sp l sp' ∧ implements (run_actions cf s l) sp' g' q' ∧
    (along cf alone s l → agreement s (sp_durable sp) → agreement (run_actions cf s l) (sp_durable sp')).
Proof using HL HU HA HT.
  revert s sp g q. induction l as [|a l IH]; intros s sp g q Him [Hal Had].
  - exists sp, g, q. split; [constructor|done].
  - destruct Hal as [Hlim Hal], Had as [Ha Had]. destruct (simulate s sp g q a Him Hlim Ha) as (sp1 & g1 & q1 & Hstep & Him1 & Hag1).
    destruct (IH _ _ _ _ Him1 (conj Hal Had)) as (sp' & g' & q' & Hrun & Him' & Hag'). exists sp', g', q'. split; [by econstructor|].
    split; [done|]. intros [Halone Hrest] Hagree. apply Hag'; [done|]. apply Hag1; [done|by eapply along_head|done].
Qed.

Lemma implements_empty : implements empty_system empty_spec 0 0 ∧ agreement empty_system ∅.
Proof using .
  split; [|by constructor]. split; [done|]. split; [done|]. split; [|by constructor]. split; [split; [unfold fits, u64_max; lia|right; by left]|].
  split; [|done]. exists [], false. split; [done|]. exists ∅. split.
  - exists ∅, 0%Z, 0%Z, []. split_and!; try done; [by apply pristine|by left].
  - apply map_eq. intros k. rewrite live_lookup. done.
Qed.

(** The disk of a state that implements the abstract root gives it back. *)
Lemma implements_load s sp g q : implements s sp g q → log_fits (sy_disk s) →
  let c := load_from_disk (cf_root_dir cf) (cf_ttl_secs cf) (sy_now s) (sy_disk s) in
  entries_by_hash c = sp_durable sp ∧ coherent c ∧ latest_ok c ∧ persisted_sequence c = q.
Proof using HL HU.
  intros (_ & _ & (_ & (t & b & _ & Hd) & _) & _) Hfit c.
  destruct (load_in_step cf U HU HL (sy_now s) (sy_disk s) _ _ _ _ Hd Hfit) as ((m & _ & _ & Hq) & Hs & Hl & _).
  split; [apply Hs|]. split; [apply Hs|]. split; [done|exact Hq].
Qed.

(** A log beyond the limit is not read. *)
Lemma implements_oversized s sp g q : implements s sp g q → ¬ log_fits (sy_disk s) →
  entries_by_hash (load_from_disk (cf_root_dir cf) (cf_ttl_secs cf) (sy_now s) (sy_disk s)) =
  live_entries (cf_ttl_secs cf) (sy_now s) (entries_by_hash (load_checkpoint (cf_root_dir cf) (sy_disk s))).
Proof using HL HU. intros (_ & _ & (_ & (t & b & _ & m & Hd & _) & _) & _) Hfit. by eapply load_oversized. Qed.

(** ** Attempts to flush *)

(** An attempt is a whole flush, with the faults of its append and those of its
    checkpoint. *)
Definition flush_attempts (i : nat) (fl : list (list Fault * list Fault)) : list Action :=
  fl ≫= λ '(faults, faults'), [Take i; Append i faults; Finish i faults'].

(** The generation and the sequence have room for a flush. *)
Definition headroom_left (s : System) : Prop :=
  match read_state (sy_disk s) with Ok st => (cs_generation st < u64_max)%Z | Err _ => False end ∧
  (persisted_sequence (load_from_disk (cf_root_dir cf) (cf_ttl_secs cf) (sy_now s) (sy_disk s)) + MAX_DIRTY_DELTAS <= u64_max)%Z.

(** The append of the attempt meets a fault. *)
Definition faulty (attempt : list Fault * list Fault) : bool := existsb is_fault attempt.1.

Lemma headroom_holds s sp g q i p : implements s sp g q → within_limits s → headroom_left s → sy_processes s !! i = Some p →
  headroom g q (ps_inflight p).
Proof using HL HU HT.
  intros Him Hlim [Hgen Hseq] Hi. destruct (implements_process s sp g q i p Him Hi) as [(_ & Ho & _) (Hg & Hb & _)].
  rewrite (read_bound (cf_ttl_secs cf) g _ Hg HT Hb) in Hgen. simpl in Hgen. destruct (implements_load s sp g q Him (proj1 Hlim)) as (_ & _ & _ & Hq).
  rewrite Hq in Hseq. pose proof (oo_slots _ _ _ _ Ho). pose proof (oo_capacity _ _ _ _ Ho). split; [done|lia].
Qed.

(** The end of a flush leaves the owner. *)
Lemma finish_ends s sp g q i p faults : implements s sp g q → log_fits (sy_disk s) → sy_processes s !! i = Some p → (∀ l, ps_flush p ≠ Taken l) →
  ∃ sp' g' q' w, sp_durable sp' = sp_durable sp ∧ implements (act cf s (Finish i faults)) sp' g' q' ∧
    sy_processes (act cf s (Finish i faults)) !! i = Some (mkProcess (ps_owner p) w Idle) ∧ sy_now (act cf s (Finish i faults)) = sy_now s.
Proof using HL HU HT.
  intros Him Hlim Hi Hflush. destruct (ps_flush p) as [|l|] eqn:Ed; [|by destruct (Hflush l)|].
  - assert (Hs : act cf s (Finish i faults) = s) by (unfold act; by rewrite Hi, Ed). rewrite Hs.
    exists sp, g, q, (ps_worker p). split; [done|]. split; [done|]. split; [|done]. rewrite Hi. destruct p. by simpl in Ed; subst.
  - assert (Hs : act cf s (Finish i faults) = checkpoint_process cf s i p faults) by (unfold act; by rewrite Hi, Ed). rewrite Hs.
    destruct (checkpoint_step s sp g q i p faults Him Hi ltac:(unfold ps_inflight; by rewrite Ed) (λ _, Hlim)) as (g' & w & d & Hs' & Him').
    eexists _, g', q, w. split; [|split; [exact Him'|]]; [done|]. rewrite Hs'. split; [|done]. simpl. apply list_lookup_insert_eq. by eapply lookup_lt_Some.
Qed.

Lemma attempt_step s sp g q i p faults faults' : implements s sp g q → sy_processes s !! i = Some p → ps_flush p = Idle →
  let s1 := act cf s (Take i) in let s2 := act cf s1 (Append i faults) in let s3 := act cf s2 (Finish i faults') in
  within_limits s1 → within_limits s2 → headroom_left s1 →
  ∃ sp' g' q' p', implements s3 sp' g' q' ∧ sy_processes s3 !! i = Some p' ∧ ps_flush p' = Idle ∧ sy_now s3 = sy_now s ∧
    ow_memory (ps_owner p') = ow_memory (ps_owner p) ∧
    (faulty (faults, faults') = false ∨ ow_dirty (ps_owner p) = ∅ → ow_dirty (ps_owner p') = ∅).
Proof using HL HU HT.
  intros Him Hi Hidle s1 s2 s3 Hlim Hlim2 Hroom. destruct (simulate_take s sp g q i Him) as (sp1 & g1 & q1 & _ & Him1 & _). fold s1 in Him1.
  destruct (implements_process s sp g q i p Him Hi) as [(Htr & Ho & Hper) _]. unfold ps_inflight in Ho, Hper. rewrite Hidle in Ho, Hper.
  destruct (flush_take_spec cf U HU (ps_worker p) (ps_owner p) Ho Hper) as (Hf & _).
  set (l := btree_values (ow_dirty (ps_owner p))) in *.
  assert (Hi1 : sy_processes s1 !! i = Some (mkProcess (set_dirty (ps_owner p) ∅ (ow_pending_slots (ps_owner p))) (ps_worker p) (after_take l))).
  { unfold s1, act. cbn [sy_processes set_processes]. rewrite list_lookup_alter_eq, Hi. simpl. unfold take_process. by rewrite Hidle, Hf. }
  set (p1 := mkProcess _ _ _) in Hi1. assert (Hl1 : ps_inflight p1 = l) by (unfold ps_inflight; simpl; by destruct l).
  assert (Hend : ∀ sp2 g2 q2 p2, implements s2 sp2 g2 q2 → sy_processes s2 !! i = Some p2 → (∀ l, ps_flush p2 ≠ Taken l) → sy_now s2 = sy_now s →
    ow_memory (ps_owner p2) = ow_memory (ps_owner p) →
    (faulty (faults, faults') = false ∨ ow_dirty (ps_owner p) = ∅ → ow_dirty (ps_owner p2) = ∅) →
    ∃ sp' g' q' p', implements s3 sp' g' q' ∧ sy_processes s3 !! i = Some p' ∧ ps_flush p' = Idle ∧ sy_now s3 = sy_now s ∧
    ow_memory (ps_owner p') = ow_memory (ps_owner p) ∧
    (faulty (faults, faults') = false ∨ ow_dirty (ps_owner p) = ∅ → ow_dirty (ps_owner p') = ∅)).
  { intros sp2 g2 q2 p2 Him2 Hi2 Hfl Hn Hm Hd. destruct (finish_ends s2 sp2 g2 q2 i p2 faults' Him2 (proj1 Hlim2) Hi2 Hfl) as (sp' & g' & q' & w & _ & Him3 & Hi3 & Hn3).
    eexists sp', g', q', _. split; [exact Him3|]. split; [exact Hi3|]. split; [done|]. split; [unfold s3; by rewrite Hn3|]. by split. }
  destruct (decide (l = [])) as [El|El].
  - assert (Hs2 : s2 = s1) by (unfold s2, act; by rewrite Hi1, Hl1, El). rewrite Hs2 in *.
    apply (Hend sp1 g1 q1 p1); [done|done| |done|done|done]. intros l' Hl'. simpl in Hl'. rewrite El in Hl'. done.
  - pose proof (headroom_holds s1 sp1 g1 q1 i p1 Him1 Hlim Hroom Hi1) as Hh. rewrite <- Hl1 in El.
    pose proof (append_step s1 sp1 g1 q1 i p1 faults Him1 (proj1 Hlim) Hi1 El) as Hfin. fold s2 in Hfin.
    destruct (flush_append _ _ _ _ _ _) as [[[r o'] w'] wd']. destruct Hfin as (Hs2 & sp' & g' & q' & _ & Him' & Hm & _ & _ & Hok).
    apply (Hend sp' g' q' (mkProcess o' w' (after_append (is_ok r && checkpoint_due w')))); [done| | |by rewrite Hs2|exact Hm|].
    + rewrite Hs2. simpl. apply list_lookup_insert_eq. by eapply lookup_lt_Some.
    + intros l'. simpl. by destruct (is_ok r && checkpoint_due w').
    + simpl. intros [Hnf|Hd].
      * apply Hok; [done|]. apply Forall_forall. intros f Hin. unfold faulty in Hnf. apply not_true_iff_false. intros Ht.
        apply not_true_iff_false in Hnf. apply Hnf, existsb_exists. exists f. split; [by apply list_elem_of_In|done].
      * exfalso. apply El. rewrite Hl1. unfold l. rewrite Hd. done.
Qed.

Lemma attempts_run fl s sp g q i p : implements s sp g q → sy_processes s !! i = Some p → ps_flush p = Idle →
  along cf within_limits s (flush_attempts i fl) → along cf headroom_left s (flush_attempts i fl) →
  let s' := run_actions cf s (flush_attempts i fl) in
  ∃ p', sy_processes s' !! i = Some p' ∧ ps_flush p' = Idle ∧ ow_memory (ps_owner p') = ow_memory (ps_owner p) ∧ sy_now s' = sy_now s ∧
    (Exists (λ f, faulty f = false) fl ∨ ow_dirty (ps_owner p) = ∅ → ow_dirty (ps_owner p') = ∅).
Proof using HL HU HT.
  revert s sp g q p. induction fl as [|[f f'] fl IH]; intros s sp g q p Him Hi El Hlim Hroom.
  - exists p. split_and!; [done..|]. intros [Hex|?]; [by inversion Hex|done].
  - change (flush_attempts i ((f, f') :: fl)) with ([Take i; Append i f; Finish i f'] ++ flush_attempts i fl) in *.
    apply along_app in Hlim as [(_ & Hlim1 & Hlim2 & _) Hlim], Hroom as [(_ & Hroom1 & _) Hroom]. unfold run_actions. rewrite foldl_app.
    fold (run_actions cf s [Take i; Append i f; Finish i f']).
    destruct (attempt_step s sp g q i p f f' Him Hi El Hlim1 Hlim2 Hroom1) as (sp' & g' & q' & p1 & Him1 & Hi1 & El1 & Hn1 & Hm1 & Hd1).
    destruct (IH _ _ _ _ _ Him1 Hi1 El1 Hlim Hroom) as (p' & Hi' & El' & Hm' & Hn' & Hd').
    exists p'. split; [done|]. split; [done|]. split; [congruence|]. split; [by etrans|]. intros Hcase. apply Hd'.
    destruct Hcase as [[Hf|Hex]%Exists_cons|Hd]; [right; apply Hd1; by left|by left|right; apply Hd1; by right].
Qed.

Lemma fewer_faulty (fl : list (list Fault * list Fault)) : length (filter (λ f, faulty f) fl) < length fl → Exists (λ f, faulty f = false) fl.
Proof using .
  induction fl as [|f fl IH]; simpl; [lia|]. intros Hlt. destruct (faulty f) eqn:E; [|by left]. right. apply IH.
  rewrite filter_cons_True in Hlt by (by rewrite E). simpl in Hlt. lia.
Qed.
End Simulation.

(** The laws of a root: its configuration, the entries of a run, and the
    parameters. *)
Record root_laws {ENV : PersistEnv} (cf : PersistConfig) (U : list PacketCacheEntry) : Prop := {
  rl_universe : universe (cf_root_dir cf) U;
  rl_persist : persist_laws U;
  rl_admission : admission_laws U;
  rl_ttl : fits u64_max (cf_ttl_secs cf)
}.

(** What a process would load from the disk. *)
Definition durable {ENV : PersistEnv} (cf : PersistConfig) (s : System) : PacketCache :=
  load_from_disk (cf_root_dir cf) (cf_ttl_secs cf) (sy_now s) (sy_disk s).

(** The state of a run, its abstract state and their limits. *)
Lemma run_implements {ENV : PersistEnv} cf U acts : root_laws cf U → proper_run cf U empty_system acts →
  let s := run_actions cf empty_system acts in
  ∃ sp g q, spec_run cf empty_spec acts sp ∧ implements cf U s sp g q ∧ within_limits s ∧
    (along cf alone empty_system acts → agreement cf s (sp_durable sp)).
Proof.
  intros [HU HL HA HT] Hrun s. destruct (implements_empty cf U) as [Him0 Hag0].
  destruct (simulate_run cf U HU HL HA HT _ _ _ _ acts Him0 Hrun) as (sp & g & q & Hspec & Him & Hag). exists sp, g, q.
  split; [done|]. split; [done|]. split; [|intros Hal; by apply Hag].
  destruct Hrun as [Hal _]. rewrite <- (app_nil_r acts) in Hal. apply along_app in Hal as [_ Hal]. by apply along_head in Hal.
Qed.
