(* ===== verification/MemoryRootSpec.v ===== *)
(** * MemoryRootSpec: what the root of a packet cache promises

    The theorems about runs of the processes of MemorySystem from an empty
    directory, with an example run that meets their hypotheses: a process
    opens the root, commits an entry, and its first flush is cut inside the
    append. *)

From S2P Require Export MemorySystemSpec.
From S2P Require Import MemoryExample.

(** ** An example run *)

(** The bounds of a concrete run are decided by computation. *)
#[export] Instance within_limits_dec s : Decision (within_limits s).
Proof. unfold within_limits, log_fits, fits. apply _. Defined.
#[export] Instance alone_dec s : Decision (alone s).
Proof. unfold alone. apply _. Defined.
#[export] Instance headroom_left_dec {ENV : PersistEnv} cf s : Decision (headroom_left cf s).
Proof. unfold headroom_left. destruct (read_state (sy_disk s)); apply _. Defined.
#[export] Instance along_dec {ENV : PersistEnv} cf P `{∀ s, Decision (P s)} s l : Decision (along cf P s l).
Proof. revert s. induction l as [|a l IH]; intros s; simpl; apply _. Defined.

Section Example.
#[local] Existing Instance example_persist.

Definition example_cf : PersistConfig := mkConfig "/repo" 3600.
Definition example_universe : list PacketCacheEntry := [example_entry "agent" 5].
Definition example_commit : list Action := [Open []; Pass 5; Commit 0 (example_entry "agent" 0)].
Definition example_attempts : list (list Fault * list Fault) := [([NoFault; NoFault; FaultAfter 20], []); ([], [])].
Definition example_run : list Action := example_commit ++ flush_attempts 0 example_attempts.

(** The run up to the append of its last flush. *)
Definition example_before_append : list Action :=
  example_commit ++ [Take 0; Append 0 [NoFault; NoFault; FaultAfter 20]; Finish 0 []; Take 0].

Definition no_process : Process := mkProcess (new_owner (new_cache None)) (new_worker (new_cache None) 0) Idle.
Definition process_of (s : System) : Process := List.hd no_process (sy_processes s).

Lemma process_of_lookup s : length (sy_processes s) = 1 → sy_processes s !! 0 = Some (process_of s).
Proof. unfold process_of. by destruct (sy_processes s). Qed.
Lemma process_of_in s : length (sy_processes s) = 1 → process_of s ∈ sy_processes s.
Proof. intros Hl. eapply list_elem_of_lookup_2. by apply process_of_lookup. Qed.

Lemma example_laws : root_laws example_cf example_universe.
Proof.
  split.
  - split; [by repeat constructor|by repeat constructor|vm_compute; discriminate|vm_compute; done].
  - split; [apply example_checksum|apply example_envelope|intros s l Hs _; by apply example_record].
  - split; [by intros [] t _|]. intros e _. vm_compute. discriminate.
  - split; vm_compute; discriminate.
Qed.

Ltac check_run := apply (bool_decide_eq_true_1 _); vm_compute; reflexivity.

Lemma example_run_proper : proper_run example_cf example_universe empty_system example_run.
Proof.
  split; [check_run|]. assert (Hnow : sy_now (run_actions example_cf empty_system [Open []; Pass 5]) = 5%Z) by (vm_compute; reflexivity).
  refine (conj I (conj I (conj _ (conj I (conj I (conj I (conj I (conj I (conj I I))))))))).
  change (set_created_at (example_entry "agent" 0) (sy_now (run_actions example_cf empty_system [Open []; Pass 5])) ∈ example_universe).
  rewrite Hnow. by left.
Qed.
Lemma example_run_alone : along example_cf alone empty_system example_run.
Proof. check_run. Qed.
Lemma example_run_headroom :
  along example_cf (headroom_left example_cf) (run_actions example_cf empty_system example_commit) (flush_attempts 0 example_attempts).
Proof. check_run. Qed.
Lemma example_commit_proper : proper_run example_cf example_universe empty_system example_commit.
Proof. destruct example_run_proper as [Hl Ha]. apply along_app in Hl as [Hl _]. by apply admitted_app in Ha as [Ha _]. Qed.
Lemma example_before_append_proper : proper_run example_cf example_universe empty_system example_before_append.
Proof.
  destruct example_run_proper as [Hl Ha]. change example_run with (example_before_append ++ [Append 0 []; Finish 0 []]) in Hl, Ha.
  apply along_app in Hl as [Hl _]. by apply admitted_app in Ha as [Ha _].
Qed.
Lemma example_commit_alone : along example_cf alone empty_system example_commit.
Proof. check_run. Qed.

Definition example_memory : PacketCache := ow_memory (ps_owner (process_of (run_actions example_cf empty_system example_commit))).
Lemma example_memory_shows : ∃ m, shows "/repo" example_universe example_memory m.
Proof.
  destruct (run_implements example_cf _ _ example_laws example_commit_proper) as (sp & g & q & _ & (_ & _ & _ & Hall) & _).
  rewrite Forall_forall in Hall. destruct (Hall (process_of (run_actions example_cf empty_system example_commit))) as (_ & Ho & _);
    [apply process_of_in; vm_compute; reflexivity|].
  destruct (oo_memory _ _ _ _ Ho) as (m & Hs & _). by exists m.
Qed.

End Example.

(** ** Theorems *)

(** C2: in every run in which the log stays within the 512 MiB that reading it accepts
    (appending does not check it, and a longer log is ignored when it is loaded), the
    revisions and the clock stay within 64 bits, and what is committed are entries of a
    fixed list whose values survive their encodings and whose token counts fit the
    counters: whatever the interleaving of the processes that share a root, down to the
    taking, the append and the checkpoint of each flush, the faults of their writes and
    the crashes, the root behaves as one map. Openings read it, the append of a flush
    applies all that its process had taken or a first part of it, and nothing else but
    expiry changes it. Loading the files at any moment gives the map, with coherent
    indexes. *)
Theorem root_refines_map {ENV : PersistEnv} (cf : PersistConfig) (U : list PacketCacheEntry) (acts : list Action) :
  root_laws cf U → proper_run cf U empty_system acts →
  let s := run_actions cf empty_system acts in
  ∃ sp, spec_run cf empty_spec acts sp ∧ sp_processes sp = (λ p, (ps_owner p, ps_flush p)) <$> sy_processes s ∧
    entries_by_hash (durable cf s) = sp_durable sp ∧ coherent (durable cf s) ∧ latest_ok (durable cf s).
Proof.
  intros Hlaws Hrun s. destruct (run_implements cf U acts Hlaws Hrun) as (sp & g & q & Hspec & Him & Hlim & _). destruct Hlaws as [HU HL _ _].
  destruct (implements_load cf U HU HL s sp g q Him (proj1 Hlim)) as (He & Hc & Hl & _). exists sp. split; [done|]. split; [apply Him|done].
Qed.

Lemma root_refines_map_witness :
  ∃ sp, @spec_run example_persist example_cf empty_spec example_run sp ∧
    entries_by_hash (@durable example_persist example_cf (@run_actions example_persist example_cf empty_system example_run)) = sp_durable sp.
Proof.
  destruct (@root_refines_map example_persist example_cf example_universe example_run example_laws example_run_proper) as (sp & H & _ & He & _).
  exists sp. split; [exact H|exact He].
Defined.

(** C14: at every moment the slots of each owner count its dirty and its in-flight
    deltas, at most the capacity; a key is in flight once and what is dirty of it is
    newer; the memory keeps exact indexes. *)
Theorem owner_slots_exact {ENV : PersistEnv} (cf : PersistConfig) (U : list PacketCacheEntry) (acts : list Action) (p : Process) :
  root_laws cf U → proper_run cf U empty_system acts → p ∈ sy_processes (run_actions cf empty_system acts) →
  let o := ps_owner p in
  ow_pending_slots o = (Z.of_nat (size (ow_dirty o)) + Z.of_nat (length (ps_inflight p)))%Z ∧
  (ow_pending_slots o <= MAX_DIRTY_DELTAS)%Z ∧ NoDup (pending_key <$> ps_inflight p) ∧
  (∀ x y, x ∈ ps_inflight p → ow_dirty o !! pending_key x = Some y → (pd_revision x < pd_revision y)%Z) ∧
  coherent (ow_memory o) ∧ latest_ok (ow_memory o).
Proof.
  intros Hlaws Hrun Hp. destruct (run_implements cf U acts Hlaws Hrun) as (sp & g & q & _ & (_ & _ & _ & Hall) & _).
  rewrite Forall_forall in Hall. destruct (Hall p Hp) as (_ & Ho & _).
  destruct (oo_memory _ _ _ _ Ho) as (m & Hs & Hl). split; [apply Ho|]. split; [apply Ho|]. split; [apply Ho|]. split; [apply Ho|].
  split; [apply Hs|done].
Qed.

Lemma owner_slots_exact_witness :
  let o := ps_owner (process_of (@run_actions example_persist example_cf empty_system example_commit)) in
  ow_pending_slots o = 1%Z ∧ size (ow_dirty o) = 1 ∧ @coherent example_cache (ow_memory o).
Proof.
  intros o.
  destruct (@owner_slots_exact example_persist example_cf example_universe example_commit
    (process_of (@run_actions example_persist example_cf empty_system example_commit)) example_laws example_commit_proper)
    as (Hs & _ & _ & _ & Hc & _).
  - apply process_of_in. vm_compute. reflexivity.
  - split; [vm_compute; reflexivity|]. split; [vm_compute; reflexivity|exact Hc].
Defined.

(** C11: in every run in which the log stays within the 512 MiB that reading it accepts
    (appending does not check it, and a longer log is ignored when it is loaded), the
    revisions and the clock stay within 64 bits, and what is committed are entries of a
    fixed list whose values survive their encodings, a process that is and was always
    alone has in its memory, up to what has expired, what the disk holds with its in-
    flight deltas and its dirty ones over it, between any two steps of its flushes and
    whatever faults these meet. *)
Theorem memory_is_disk_and_pending {ENV : PersistEnv} (cf : PersistConfig) (U : list PacketCacheEntry) (acts : list Action) (p : Process) :
  root_laws cf U → proper_run cf U empty_system acts → along cf alone empty_system acts →
  p ∈ sy_processes (run_actions cf empty_system acts) →
  let s := run_actions cf empty_system acts in
  live_entries (cf_ttl_secs cf) (sy_now s) (entries_by_hash (ow_memory (ps_owner p))) =
  live_entries (cf_ttl_secs cf) (sy_now s)
    (overlay (ow_dirty (ps_owner p)) (foldl apply_spec (entries_by_hash (durable cf s)) (pd_delta <$> ps_inflight p))).
Proof.
  intros Hlaws Hrun Hal Hp s. destruct (run_implements cf U acts Hlaws Hrun) as (sp & g & q & _ & Him & Hlim & Hag). destruct Hlaws as [HU HL _ _].
  destruct (implements_load cf U HU HL s sp g q Him (proj1 Hlim)) as (He & _). specialize (Hag Hal). unfold agreement in Hag.
  rewrite Forall_forall in Hag. unfold durable. rewrite He. by apply Hag.
Qed.

Lemma memory_is_disk_and_pending_witness :
  let s := @run_actions example_persist example_cf empty_system example_commit in
  live_entries 3600 5 (entries_by_hash (ow_memory (ps_owner (process_of s)))) =
  live_entries 3600 5 (@overlay example_persist (ow_dirty (ps_owner (process_of s))) (entries_by_hash (@durable example_persist example_cf s))).
Proof.
  intros s.
  exact (@memory_is_disk_and_pending example_persist example_cf example_universe example_commit (process_of s)
    example_laws example_commit_proper example_commit_alone (process_of_in s eq_refl)).
Defined.

(** C9: in a run as for the map of the root (the log within the 512 MiB that reading it
    accepts before the append, the revisions and the clock within 64 bits, entries of a
    fixed list whose values survive their encodings), when the append of a flush
    succeeds and the log is still within the 512 MiB, which appending does not check,
    loading the files gives every delta the process had taken over what any process
    wrote before, and so it does after the checkpoint the flush may end with, whatever
    faults that meets. When the log has grown beyond the 512 MiB, loading ignores it,
    although the append succeeded, and gives the live entries of the checkpoint alone.
    *)
Theorem flush_acknowledged {ENV : PersistEnv} (cf : PersistConfig) (U : list PacketCacheEntry) (acts : list Action) (i : nat)
    (faults : list Fault) (p : Process) :
  root_laws cf U → proper_run cf U empty_system acts →
  let s := run_actions cf empty_system acts in
  sy_processes s !! i = Some p → ps_inflight p ≠ [] →
  (flush_append cf (sy_now s) (ps_owner p) (ps_worker p) (ps_inflight p) (mkWorld (sy_disk s) faults)).1.1.1 = Ok () →
  let s' := act cf s (Append i faults) in
  let flushed := live_entries (cf_ttl_secs cf) (sy_now s) (foldl apply_spec (entries_by_hash (durable cf s)) (pd_delta <$> ps_inflight p)) in
  (log_fits (sy_disk s') → entries_by_hash (durable cf s') = flushed ∧
     ∀ faults', let s'' := act cf s' (Finish i faults') in log_fits (sy_disk s'') → entries_by_hash (durable cf s'') = flushed) ∧
  (¬ log_fits (sy_disk s') → entries_by_hash (durable cf s') =
     live_entries (cf_ttl_secs cf) (sy_now s) (entries_by_hash (load_checkpoint (cf_root_dir cf) (sy_disk s')))).
Proof.
  intros Hlaws Hrun s Hi El Hr s' after.
  destruct (run_implements cf U acts Hlaws Hrun) as (sp & g & q & _ & Him & Hlim & _). fold s in Him, Hlim.
  destruct Hlaws as [HU HL HA HT].
  pose proof (append_step cf U HU HL HT s sp g q i p faults Him (proj1 Hlim) Hi El) as Hf. fold s' in Hf.
  destruct (flush_append _ _ _ _ _ _) as [[[r o'] w'] wd']. cbn [fst] in Hr. destruct Hf as (Hs' & sp' & g' & q' & _ & Him' & _ & _ & Hok & _).
  destruct (implements_load cf U HU HL s sp g q Him (proj1 Hlim)) as (He & _). specialize (Hok Hr) as [Hok Hgen].
  assert (Hafter : sp_durable sp' = after) by (unfold after, durable; by rewrite He, Hok).
  assert (Hnow : sy_now s' = sy_now s) by by rewrite Hs'. split.
  - intros Hfit. split; [destruct (implements_load cf U HU HL _ sp' g' q' Him' Hfit) as (He' & _); unfold durable; by rewrite He'|].
    intros faults' s'' Hfit''. rewrite <- Hafter.
    assert (Hi' : sy_processes s' !! i = Some (mkProcess o' w' (after_append (is_ok r && checkpoint_due w')))).
    { rewrite Hs'. simpl. apply list_lookup_insert_eq. by eapply lookup_lt_Some. }
    destruct (finish_ends cf U HU HL HT s' sp' g' q' i _ faults' Him' Hfit Hi') as (sp'' & g'' & q'' & w & Hd & Him'' & _).
    { intros l. simpl. by destruct (is_ok r && checkpoint_due w'). }
    destruct (implements_load cf U HU HL _ sp'' g'' q'' Him'' Hfit'') as (He' & _). trans (sp_durable sp''); [exact He'|exact Hd].
  - intros Hfit. unfold durable. rewrite (implements_oversized cf U HU HL _ sp' g' q' Him' Hfit). by rewrite Hnow.
Qed.

Lemma flush_acknowledged_witness :
  let s := @run_actions example_persist example_cf empty_system example_before_append in
  let s' := @act example_persist example_cf s (Append 0 []) in
  entries_by_hash (@durable example_persist example_cf (@act example_persist example_cf s' (Finish 0 []))) =
  live_entries 3600 5 (foldl (@apply_spec example_persist) (entries_by_hash (@durable example_persist example_cf s)) (pd_delta <$> ps_inflight (process_of s))).
Proof.
  intros s s'.
  destruct (@flush_acknowledged example_persist example_cf example_universe example_before_append 0 [] (process_of s)) as [Hfit _].
  - exact example_laws.
  - exact example_before_append_proper.
  - apply process_of_lookup. vm_compute. reflexivity.
  - vm_compute. discriminate.
  - vm_compute. reflexivity.
  - destruct Hfit as [_ Hfinish]; [vm_compute; discriminate|]. apply Hfinish. vm_compute. discriminate.
Defined.

(** C8: in every run in which the log stays within the 512 MiB that reading it accepts
    (appending does not check it, and a longer log is ignored when it is loaded), also
    after the flushes, the revisions, sequences, generations and the clock stay within
    64 bits, and what is committed are entries of a fixed list whose values survive
    their encodings, a process that is alone and has no flush under way makes everything
    durable: after more attempts to flush than have an append that meets a fault,
    whatever the faults of their checkpoints, nothing is dirty or in flight, its slots
    are free, and loading the files gives the live entries of its memory. *)
Theorem flush_liveness {ENV : PersistEnv} (cf : PersistConfig) (U : list PacketCacheEntry) (acts : list Action) (i : nat)
    (attempts : list (list Fault * list Fault)) (p : Process) :
  root_laws cf U → proper_run cf U empty_system (acts ++ flush_attempts i attempts) →
  along cf alone empty_system (acts ++ flush_attempts i attempts) →
  let s := run_actions cf empty_system acts in
  along cf (headroom_left cf) s (flush_attempts i attempts) →
  sy_processes s !! i = Some p → ps_flush p = Idle →
  length (filter (λ f, faulty f) attempts) < length attempts →
  let s' := run_actions cf s (flush_attempts i attempts) in
  ∃ p', sy_processes s' !! i = Some p' ∧ ow_dirty (ps_owner p') = ∅ ∧ ps_flush p' = Idle ∧ ow_pending_slots (ps_owner p') = 0%Z ∧
    ow_memory (ps_owner p') = ow_memory (ps_owner p) ∧
    entries_by_hash (durable cf s') = live_entries (cf_ttl_secs cf) (sy_now s) (entries_by_hash (ow_memory (ps_owner p))).
Proof.
  intros Hlaws Hrun Hal s Hroom Hi Hidle Hfew s'. pose proof Hrun as [Hlims Hadm].
  apply along_app in Hlims as [Hl1 Hl2]. apply admitted_app in Hadm as [Ha1 _].
  destruct (run_implements cf U acts Hlaws (conj Hl1 Ha1)) as (sp & g & q & _ & Him & _). fold s in Him, Hl2.
  destruct (run_implements cf U _ Hlaws Hrun) as (sp' & g' & q' & _ & Him' & Hlim' & Hag'). specialize (Hag' Hal).
  unfold run_actions in Him', Hlim', Hag'. rewrite foldl_app in Him', Hlim', Hag'. fold (run_actions cf empty_system acts) in Him', Hlim', Hag'.
  fold s in Him', Hlim', Hag'. fold (run_actions cf s (flush_attempts i attempts)) in Him', Hlim', Hag'. fold s' in Him', Hlim', Hag'.
  destruct Hlaws as [HU HL HA HT].
  destruct (attempts_run cf U HU HL HT attempts s sp g q i p Him Hi Hidle Hl2 Hroom) as (p' & Hi' & Hidle' & Hm & Hn & Hd). fold s' in Hi', Hn.
  specialize (Hd (or_introl (fewer_faulty attempts Hfew))). exists p'. split; [done|]. split; [done|]. split; [done|].
  assert (El' : ps_inflight p' = []) by (unfold ps_inflight; by rewrite Hidle').
  destruct (implements_process cf U s' sp' g' q' i p' Him' Hi') as [(_ & Ho & _) (_ & _ & Hst)].
  split; [rewrite (oo_slots _ _ _ _ Ho), Hd, El', map_size_empty; done|]. split; [done|].
  destruct (implements_load cf U HU HL s' sp' g' q' Him' (proj1 Hlim')) as (He & _). unfold durable. rewrite He.
  unfold agreement in Hag'. rewrite Forall_forall in Hag'. specialize (Hag' p' ltac:(by eapply list_elem_of_lookup_2)).
  unfold agrees in Hag'. rewrite Hm, Hn, Hd, El' in Hag'. rewrite Hag'. symmetry.
  trans (live_entries (cf_ttl_secs cf) (sy_now s) (sp_durable sp')); [|rewrite <- Hn; by eapply stores_normal].
  f_equal. apply map_eq. intros k. unfold view. by rewrite overlay_lookup.
Qed.

Lemma flush_liveness_witness :
  let s := @run_actions example_persist example_cf empty_system example_commit in
  let s' := @run_actions example_persist example_cf s (flush_attempts 0 example_attempts) in
  length (filter (λ f, faulty f) example_attempts) = 1 ∧
  entries_by_hash (@durable example_persist example_cf s') =
    live_entries 3600 5 (entries_by_hash (ow_memory (ps_owner (process_of s)))).
Proof.
  intros s s'. split; [reflexivity|].
  destruct (@flush_liveness example_persist example_cf example_universe example_commit 0 example_attempts (process_of s)
    example_laws example_run_proper example_run_alone example_run_headroom) as (p & _ & _ & _ & _ & _ & He).
  - apply process_of_lookup. vm_compute. reflexivity.
  - vm_compute. reflexivity.
  - vm_compute. lia.
  - exact He.
Defined.

(** C16: a checkpoint gives back the cache that was written. The envelope of a coherent
    cache passes the validation; when the codec has bytes for it within the size limit,
    loading the file at a later time gives a coherent cache with the entries that are
    live then, the sequence of the log and the index of the latest requests. *)
Theorem checkpoint_restores {ENV : PersistEnv} (cf : PersistConfig) (U : list PacketCacheEntry) (c : PacketCache) (now now' : Z)
    (payload : list Z) :
  root_laws cf U → coherent c → from_universe U (entries_by_hash c) → workspace_root c = Some (cf_root_dir cf) →
  fits u64_max (persisted_sequence c) → (now <= now')%Z →
  envelope_bytes (envelope_of c (cf_ttl_secs cf) now) = Some payload → (Z.of_nat (length payload) <= MAX_PERSIST_CHECKPOINT_BYTES)%Z →
  ∃ raw, encode_checkpoint c (cf_ttl_secs cf) now = Ok raw ∧
    ∀ d, dk_v3 d = Present raw → dk_wal d = Missing →
      let c' := load_from_disk (cf_root_dir cf) (cf_ttl_secs cf) now' d in
      coherent c' ∧ entries_by_hash c' = live_entries (cf_ttl_secs cf) now' (entries_by_hash c) ∧
      persisted_sequence c' = persisted_sequence c ∧ latest_ok c'.
Proof.
  intros [HU HL _ _] Hc Hu Hw Hq Hnow Hpay Hlen. destruct (universe_storable _ U HU c Hc Hu) as [Hst _].
  pose proof (envelope_of_valid c (cf_ttl_secs cf) now Hst) as Hvalid.
  assert (Htyped : Forall doc_typed (env_recall_docs (v3_state (envelope_of c (cf_ttl_secs cf) now)))).
  { eapply Forall_impl; [apply (ev_docs _ Hvalid)|]. intros d [_ [[_ Hd] _]] k n Hk. destruct (Hd k n Hk). simpl in *. lia. }
  set (raw := PERSIST_CHECKPOINT_MAGIC ++ to_le_bytes 8 (Z.of_nat (length payload)) ++ checksum payload ++ payload).
  assert (Henc : encode_checkpoint c (cf_ttl_secs cf) now = Ok raw).
  { unfold encode_checkpoint. rewrite (valid_is_validated _ Htyped Hvalid), result_bind_ok, Hpay. cbn [ok_or]. rewrite result_bind_ok.
    unfold encode_checkpoint_frame. by rewrite (proj2 (Z.ltb_ge _ _)) by lia. }
  exists raw. split; [done|]. intros d Hv3 Hwal.
  assert (Hh : holds (cf_root_dir cf) U (cf_ttl_secs cf) d (live_entries (cf_ttl_secs cf) now (entries_by_hash c)) (persisted_sequence c) [] true).
  { exists (live_entries (cf_ttl_secs cf) now (entries_by_hash c)), (persisted_sequence c), (persisted_sequence c), [].
    rewrite Hwal. unfold fits in Hq. split_and!; try done; try lia; [|by left|simpl; lia].
    apply on_checkpoint with (f := Present raw); [exists raw, c, now; split_and!; solve [done | lia]|by left]. }
  destruct (load_holds _ U HU HL _ d _ _ _ _ now' Hh) as [(Hs & Hseq & Hl & _) _]; [unfold log_fits; by rewrite Hwal|].
  split; [apply Hs|]. split; [rewrite (sh_entries _ _ _ _ Hs); by apply live_live|]. by split.
Qed.

Lemma checkpoint_restores_witness :
  ∃ raw, @encode_checkpoint example_persist example_memory 3600 5 = Ok raw ∧
    let c := @load_from_disk example_persist "/repo" 3600 9 (mkDisk Missing Missing (Present raw) Missing Missing Missing) in
    entries_by_hash c = live_entries 3600 9 (entries_by_hash example_memory).
Proof.
  destruct example_memory_shows as [m [Hc Hu He Hw]]. rewrite <- He in Hu.
  destruct (@checkpoint_restores example_persist example_cf example_universe example_memory 5 9
    [Z.pos (encode (@envelope_of example_persist example_memory 3600 5))] example_laws Hc Hu Hw) as (raw & Hraw & Hload).
  - vm_compute. split; discriminate.
  - vm_compute. discriminate.
  - reflexivity.
  - change (Z.of_nat 1 <= MAX_PERSIST_CHECKPOINT_BYTES)%Z. vm_compute. discriminate.
  - exists raw. split; [exact Hraw|].
    destruct (Hload (mkDisk Missing Missing (Present raw) Missing Missing Missing) eq_refl eq_refl) as (_ & H & _). exact H.
Defined.

