(* ===== verification/Policy.v ===== *)
(** * Policy: the context policy and its validation

    Models [src/crates/guardy-core/src/types.rs] and [validate.rs], and the
    validation and reducer matching of
    [src/crates/suite-policy-core/src/validate.rs], which keeps its own copy of
    the policy.  Globs and regular expressions are compiled by dependencies:
    whether a pattern compiles, and its error text, are parameters. *)

From S2P Require Export Json Ordering.

(** ** The configuration *)

(** [AllowlistPolicy], [PathPolicy], [BudgetPolicy] and the records of one
    field are inlined. *)
Record PolicyConfig : Type := mkPolicyConfig {
  tools_allowlist : list string;
  reducers_allowlist : list string;
  allowed_tools : list string;
  allowed_reducers : list string;
  paths_include : list string;
  paths_exclude : list string;
  token_budget_cap : option Z;
  runtime_budget_cap_ms : option Z;
  tool_call_budget_cap : option Z;
  budgets_token_cap : option Z;
  budgets_runtime_ms_cap : option Z;
  forbidden_patterns : list string;
  human_review_paths : list string
}.
Record ContextConfig : Type := mkContextConfig {
  config_version : Z;
  policy : PolicyConfig
}.

(** ** Lists of names *)

Definition non_empty (input : option string) : option string :=
  value ← input;
  let trimmed := trim value in
  if bool_decide (trimmed = EmptyString) then None else Some trimmed.
Definition normalize_non_empty_list (items : list string) : list string := omap (λ item, non_empty (Some item)) items.

Definition effective_list (canonical legacy : list string) : list string :=
  let canonical := normalize_non_empty_list canonical in
  if negb (bool_decide (canonical = [])) then canonical else normalize_non_empty_list legacy.
Definition effective_allowed_tools (p : PolicyConfig) : list string := effective_list (tools_allowlist p) (allowed_tools p).
Definition effective_allowed_reducers (p : PolicyConfig) : list string := effective_list (reducers_allowlist p) (allowed_reducers p).

Definition cap_or (canonical legacy : option Z) : option Z := match canonical with Some cap => Some cap | None => legacy end.
Definition effective_token_cap (p : PolicyConfig) : option Z := cap_or (token_budget_cap p) (budgets_token_cap p).
Definition effective_runtime_ms_cap (p : PolicyConfig) : option Z := cap_or (runtime_budget_cap_ms p) (budgets_runtime_ms_cap p).
Definition effective_tool_call_cap (p : PolicyConfig) : option Z := tool_call_budget_cap p.

(** ** Validation *)

Definition conflict_message (canonical_label legacy_label : string) : string :=
  canonical_label +:+ " conflicts with " +:+ legacy_label +:+ "; set only one or keep both identical".

Definition validate_allowlist_conflict (canonical legacy : list string) (canonical_label legacy_label : string) : option string :=
  let canonical : gset string := list_to_set (normalize_non_empty_list canonical) in
  let legacy : gset string := list_to_set (normalize_non_empty_list legacy) in
  if bool_decide (canonical = ∅) || bool_decide (legacy = ∅) || bool_decide (canonical = legacy) then None
  else Some (conflict_message canonical_label legacy_label).

Definition validate_cap_conflict (canonical legacy : option Z) (canonical_label legacy_label : string) : option string :=
  match canonical, legacy with
  | Some canonical, Some legacy =>
      if negb (canonical =? legacy)%Z then Some (conflict_message canonical_label legacy_label) else None
  | _, _ => None
  end.

(** [for (idx, item) in items.iter().enumerate()] with an error for some. *)
Definition enumerate_errors (label : string) (error : string → option string) (items : list string) : list string :=
  omap id (imap (λ idx item, (λ message, label +:+ "[" +:+ show_nat idx +:+ "]" +:+ message) <$> error item) items).
Definition empty_item (item : string) : option string := if is_blank item then Some " cannot be empty"%string else None.
Definition zero_cap (label : string) (cap : option Z) : list string :=
  if bool_decide (cap = Some 0%Z) then [label +:+ " must be greater than 0"] else [].

Section Validate.
(** [Pattern::new], [Regex::new]: the text of the error, if any. *)
Context (glob_error regex_error : string → option string).

Definition invalid_glob (pattern : string) : option string := (λ err, " invalid glob: " +:+ err) <$> glob_error pattern.
Definition invalid_regex (pattern : string) : option string := (λ err, " invalid regex: " +:+ err) <$> regex_error pattern.

Definition validate_version (config : ContextConfig) : list string :=
  if negb (config_version config =? 1)%Z then ["unsupported policy version " +:+ show_uint (config_version config) +:+ " (expected 1)"] else [].
Definition validate_caps (p : PolicyConfig) : list string :=
  zero_cap "policy.token_budget.cap" (token_budget_cap p) ++
  zero_cap "policy.budgets.token_cap" (budgets_token_cap p) ++
  zero_cap "policy.runtime_budget.cap_ms" (runtime_budget_cap_ms p) ++
  zero_cap "policy.budgets.runtime_ms_cap" (budgets_runtime_ms_cap p) ++
  zero_cap "policy.tool_call_budget.cap" (tool_call_budget_cap p).
Definition validate_patterns (p : PolicyConfig) : list string :=
  enumerate_errors "policy.paths.include" invalid_glob (paths_include p) ++
  enumerate_errors "policy.paths.exclude" invalid_glob (paths_exclude p) ++
  enumerate_errors "policy.human_review.paths" invalid_glob (human_review_paths p) ++
  enumerate_errors "policy.redaction.forbidden_patterns" invalid_regex (forbidden_patterns p).
Definition tools_conflict (p : PolicyConfig) : list string :=
  option_list (validate_allowlist_conflict (tools_allowlist p) (allowed_tools p) "policy.tools.allowlist" "policy.allowed_tools").
Definition reducers_conflict (p : PolicyConfig) : list string :=
  option_list (validate_allowlist_conflict (reducers_allowlist p) (allowed_reducers p) "policy.reducers.allowlist" "policy.allowed_reducers").
Definition caps_conflict (p : PolicyConfig) : list string :=
  option_list (validate_cap_conflict (token_budget_cap p) (budgets_token_cap p) "policy.token_budget.cap" "policy.budgets.token_cap") ++
  option_list (validate_cap_conflict (runtime_budget_cap_ms p) (budgets_runtime_ms_cap p) "policy.runtime_budget.cap_ms"
    "policy.budgets.runtime_ms_cap").

(** guardy-core. *)
Definition validate (config : ContextConfig) : list string :=
  let p := policy config in
  validate_version config ++ tools_conflict p ++ reducers_conflict p ++
  enumerate_errors "policy.tools.allowlist" empty_item (tools_allowlist p) ++
  enumerate_errors "policy.allowed_tools" empty_item (allowed_tools p) ++
  enumerate_errors "policy.reducers.allowlist" empty_item (reducers_allowlist p) ++
  enumerate_errors "policy.allowed_reducers" empty_item (allowed_reducers p) ++
  caps_conflict p ++ validate_caps p ++ validate_patterns p.

(** suite-policy-core. *)
Definition suite_validate (config : ContextConfig) : list string :=
  let p := policy config in
  validate_version config ++ tools_conflict p ++ reducers_conflict p ++ caps_conflict p ++
  enumerate_errors "policy.tools.allowlist" empty_item (tools_allowlist p) ++
  enumerate_errors "policy.reducers.allowlist" empty_item (reducers_allowlist p) ++
  enumerate_errors "policy.allowed_tools" empty_item (allowed_tools p) ++
  enumerate_errors "policy.allowed_reducers" empty_item (allowed_reducers p) ++
  validate_caps p ++ validate_patterns p.

Inductive ConfigError : Type :=
| ConfigIo
| InvalidConfig (message : string).

(** [from_str] of the YAML library: the configuration or its error. *)
Context (yaml_from_str : string → result string ContextConfig).

Definition parse_context_strict (raw : string) : result ConfigError ContextConfig :=
  match yaml_from_str raw with
  | Err source => Err (InvalidConfig ("invalid context.yaml: " +:+ source))
  | Ok config =>
      let validation_errors := validate config in
      if negb (bool_decide (validation_errors = [])) then
        Err (InvalidConfig ("invalid context.yaml: " +:+ String.concat "; " validation_errors))
      else Ok config
  end.
Definition validate_config_str (raw : string) : bool * list string :=
  match yaml_from_str raw with
  | Ok config => (bool_decide (validate config = []), validate config)
  | Err source => (false, ["schema parse error: " +:+ source])
  end.

(** [ContextConfig::load]: [read_file] gives the text of a path. *)
Definition load_config (read_file : string → option string) (path : string) : result ConfigError ContextConfig :=
  raw ← ok_or (read_file path) ConfigIo;
  parse_context_strict raw.
End Validate.

(** ** Matching a reducer against an allowlist *)

(** [target.rsplit('.').next()]: what follows the last dot. *)
Fixpoint last_label (s : string) : string :=
  match s with
  | EmptyString => EmptyString
  | String c s' => if bool_decide ("."%char ∈ str_bytes s') then last_label s' else if ascii_dec c "." then s' else s
  end.

Definition candidate_list (target : string) : list string :=
  let leaf := last_label target in
  [target] ++ (if negb (bool_decide (leaf = EmptyString)) && negb (bool_decide (leaf = target)) then [leaf] else []) ++
  (if bool_decide (target = "governed.assemble"%string) then ["contextq.assemble"%string] else []).
(** [sort] and [dedup] of a list give its elements in order. *)
Definition reducer_candidates (target : string) : list string := sort_by_cmp str_cmp (elements (list_to_set (C := gset string) (candidate_list target))).

Definition match_reducer_allowlist (target : string) (allowlist : list string) : option string :=
  let allowset : gset string := list_to_set (normalize_non_empty_list allowlist) in
  list_find (λ candidate, candidate ∈ allowset) (reducer_candidates target) ≫= λ x, Some x.2.
