(* ===== verification/Guard.v ===== *)
(** * Guard: auditing a packet against a policy

    Models [src/crates/guardy-core/src/audit.rs].  The compiled globs and
    regular expressions are parameters; the results of other crates that a
    packet may carry are given by what [serde_json::to_value] makes of them.
    The time of the audit is left out. *)

From S2P Require Export Policy MachineInt.

(** [PacketFileRef], [PacketSymbolRef], without the relevance. *)
Record PacketFileRef : Type := mkGuardFile { gf_path : string; gf_source : option string }.
Record PacketSymbolRef : Type := mkGuardSymbol { gs_name : string; gs_file : option string; gs_source : option string }.
Record ToolInvocation : Type := mkToolInvocation {
  ti_name : string;
  ti_reducer : option string;
  ti_paths : list string;
  ti_token_usage : option Z;
  ti_runtime_ms : option Z;
  ti_input : Json;
  ti_output : Json
}.
Record ReducerInvocation : Type := mkReducerInvocation {
  ri_name : string;
  ri_token_usage : option Z;
  ri_runtime_ms : option Z;
  ri_output : Json
}.
Record GuardProvenance : Type := mkProvenance { pv_inputs : list string; pv_git_base : option string; pv_git_head : option string }.

(** The fields that the audit does not read are left out; [gp_serialized] are
    the quality gate, the impact result, the shard plan and the merge summary
    that serialize, with their names. *)
Record GuardPacket : Type := mkGuardPacket {
  gp_packet_id : option string;
  gp_summary : option string;
  gp_provenance : option GuardProvenance;
  gp_tool : option string;
  gp_tools : list string;
  gp_reducer : option string;
  gp_reducers : list string;
  gp_paths : list string;
  gp_token_usage : option Z;
  gp_runtime_ms : option Z;
  gp_tool_call_count : option Z;
  gp_payload : Json;
  gp_files : list PacketFileRef;
  gp_symbols : list PacketSymbolRef;
  gp_tool_invocations : list ToolInvocation;
  gp_reducer_invocations : list ReducerInvocation;
  gp_text_blobs : list string;
  gp_serialized : list (string * Json)
}.

Record AuditFinding : Type := mkFinding { rule : string; subject : string; message : string }.
Record AuditTotals : Type := mkTotals {
  tools_seen : Z;
  reducers_seen : Z;
  paths_seen : Z;
  at_token_usage : Z;
  at_runtime_ms : Z;
  at_tool_calls : Z
}.
Record AuditResult : Type := mkAuditResult {
  passed : bool;
  policy_version : Z;
  totals : AuditTotals;
  findings : list AuditFinding
}.

(** ** What a packet names *)

Definition normalize_path (path : string) : string := replace_char "092" "/" path.
Definition names (l : list (option string)) : gset string := list_to_set (omap non_empty l).

Definition collect_tools (p : GuardPacket) : gset string :=
  names (gp_tool p :: (Some <$> gp_tools p) ++ (Some ∘ ti_name <$> gp_tool_invocations p)).
Definition collect_reducers (p : GuardPacket) : gset string :=
  names (gp_reducer p :: (Some <$> gp_reducers p) ++ (ti_reducer <$> gp_tool_invocations p) ++ (Some ∘ ri_name <$> gp_reducer_invocations p)).
Definition path_candidates (p : GuardPacket) : list (option string) :=
  (Some <$> gp_paths p) ++ (Some ∘ gf_path <$> gp_files p) ++ (gs_file <$> gp_symbols p) ++
  (call ← gp_tool_invocations p; Some <$> ti_paths call).
Definition collect_paths (p : GuardPacket) : gset string :=
  list_to_set (normalize_path <$> omap non_empty (path_candidates p)).

(** [+] and [sum] wrap around in the release profile. *)
Definition total_of (own : option Z) (tool reducer : list (option Z)) : Z :=
  wrapping_add u64_max (wrapping_add u64_max (default 0%Z own) (wrapping_sum u64_max (default 0%Z <$> tool)))
    (wrapping_sum u64_max (default 0%Z <$> reducer)).
Definition total_token_usage (p : GuardPacket) : Z :=
  total_of (gp_token_usage p) (ti_token_usage <$> gp_tool_invocations p) (ri_token_usage <$> gp_reducer_invocations p).
Definition total_runtime_ms (p : GuardPacket) : Z :=
  total_of (gp_runtime_ms p) (ti_runtime_ms <$> gp_tool_invocations p) (ri_runtime_ms <$> gp_reducer_invocations p).
Definition total_tool_calls (p : GuardPacket) : Z :=
  Z.max (default 0%Z (gp_tool_call_count p)) (Z.of_nat (length (gp_tool_invocations p))).

(** ** The texts of a packet *)

Record TextCandidate : Type := mkCandidate { tc_source : string; tc_value : string }.

Definition push_text_candidate (source value : string) : list TextCandidate :=
  if negb (bool_decide (value = EmptyString)) then [mkCandidate source value] else [].
Definition push_optional (source : string) (value : option string) : list TextCandidate :=
  match value with Some value => push_text_candidate source value | None => [] end.
Definition indexed (source : string) (idx : nat) : string := source +:+ "[" +:+ show_nat idx +:+ "]".

Fixpoint collect_texts_from_value (value : Json) (path : string) : list TextCandidate :=
  match value with
  | JString text => push_text_candidate path text
  | JArray items =>
      (fix go (idx : nat) (items : list Json) : list TextCandidate :=
         match items with [] => [] | item :: items => collect_texts_from_value item (indexed path idx) ++ go (S idx) items end) 0 items
  | JObject fields => concat ((λ '(key, value), collect_texts_from_value value (path +:+ "." +:+ key)) <$> fields)
  | JNull | JBool _ | JUint _ | JNumber _ => []
  end.

Definition push_list (source : string) (values : list string) : list TextCandidate :=
  concat (imap (λ idx value, push_text_candidate (indexed source idx) value) values).
Definition file_texts (idx : nat) (file : PacketFileRef) : list TextCandidate :=
  let at_ := indexed "packet.files" idx in
  push_text_candidate (at_ +:+ ".path") (gf_path file) ++ push_optional (at_ +:+ ".source") (gf_source file).
Definition symbol_texts (idx : nat) (symbol : PacketSymbolRef) : list TextCandidate :=
  let at_ := indexed "packet.symbols" idx in
  push_text_candidate (at_ +:+ ".name") (gs_name symbol) ++ push_optional (at_ +:+ ".file") (gs_file symbol) ++
  push_optional (at_ +:+ ".source") (gs_source symbol).
Definition tool_texts (idx : nat) (call : ToolInvocation) : list TextCandidate :=
  let at_ := indexed "packet.tool_invocations" idx in
  push_text_candidate (at_ +:+ ".name") (ti_name call) ++ push_optional (at_ +:+ ".reducer") (ti_reducer call) ++
  push_list (at_ +:+ ".paths") (ti_paths call) ++ collect_texts_from_value (ti_input call) (at_ +:+ ".input") ++
  collect_texts_from_value (ti_output call) (at_ +:+ ".output").
Definition reducer_texts (idx : nat) (call : ReducerInvocation) : list TextCandidate :=
  let at_ := indexed "packet.reducer_invocations" idx in
  push_text_candidate (at_ +:+ ".name") (ri_name call) ++ collect_texts_from_value (ri_output call) (at_ +:+ ".output").
Definition provenance_texts (provenance : GuardProvenance) : list TextCandidate :=
  push_list "packet.provenance.inputs" (pv_inputs provenance) ++
  push_optional "packet.provenance.git_base" (pv_git_base provenance) ++
  push_optional "packet.provenance.git_head" (pv_git_head provenance).

Definition collect_text_for_redaction_scan (p : GuardPacket) : list TextCandidate :=
  collect_texts_from_value (gp_payload p) "packet.payload" ++
  push_list "packet.paths" (gp_paths p) ++
  concat (imap file_texts (gp_files p)) ++
  concat (imap symbol_texts (gp_symbols p)) ++
  concat (imap tool_texts (gp_tool_invocations p)) ++
  concat (imap reducer_texts (gp_reducer_invocations p)) ++
  push_list "packet.text_blobs" (gp_text_blobs p) ++
  concat ((λ '(name, value), collect_texts_from_value value ("packet." +:+ name)) <$> gp_serialized p) ++
  push_optional "packet.summary" (gp_summary p) ++
  match gp_provenance p with Some provenance => provenance_texts provenance | None => [] end.

(** ** The audit *)

Section Audit.
(** A glob or a regular expression compiles, with its test, or not, with the
    text of the error. *)
Context (glob_new regex_new : string → result string (string → bool)).

(** The compiled patterns, and a finding for each that does not compile. *)
Definition compile (kind : string) (pattern_new : string → result string (string → bool)) (patterns : list string) (rule_name : string)
    : list (string * (string → bool)) * list AuditFinding :=
  (omap (λ pattern, match pattern_new pattern with Ok test => Some (pattern, test) | Err _ => None end) patterns,
   omap (λ pattern, match pattern_new pattern with
                    | Ok _ => None
                    | Err source => Some (mkFinding rule_name pattern ("invalid " +:+ kind +:+ " pattern: " +:+ source))
                    end) patterns).
Definition compile_globs := compile "glob" glob_new.
Definition compile_regexes := compile "regex" regex_new.
Definition matches_any (patterns : list (string * (string → bool))) (value : string) : bool := existsb (λ p, p.2 value) patterns.

(** The names of [seen] that a non-empty allowlist does not have. *)
Definition check_allowed (rule_name noun : string) (allowed : list string) (seen : gset string) : list AuditFinding :=
  let allowed : gset string := list_to_set allowed in
  if negb (bool_decide (allowed = ∅)) then
    (λ name, mkFinding rule_name name (noun +:+ " '" +:+ name +:+ "' is not allowed by policy")) <$>
    filter (λ name, name ∉ allowed) (btree_strings seen)
  else [].

Definition check_path (include exclude : list (string * (string → bool))) (path : string) : list AuditFinding :=
  (if negb (bool_decide (include = [])) && negb (matches_any include path)
   then [mkFinding "path_include" path "path is outside policy.paths.include allowlist"] else []) ++
  (if matches_any exclude path then [mkFinding "path_exclude" path "path matched policy.paths.exclude denylist"] else []).

Definition check_cap (rule_name : string) (text : Z → Z → string) (cap : option Z) (total : Z) : list AuditFinding :=
  match cap with
  | Some cap => if (cap <? total)%Z then [mkFinding rule_name "packet" (text total cap)] else []
  | None => []
  end.
Definition token_text (total cap : Z) : string := "token usage " +:+ show_uint total +:+ " exceeded cap " +:+ show_uint cap.
Definition runtime_text (total cap : Z) : string := "runtime " +:+ show_uint total +:+ "ms exceeded cap " +:+ show_uint cap +:+ "ms".
Definition tool_call_text (total cap : Z) : string := "tool call count " +:+ show_uint total +:+ " exceeded cap " +:+ show_uint cap.

Definition check_review (patterns : list (string * (string → bool))) (path : string) : list AuditFinding :=
  if matches_any patterns path
  then [mkFinding "human_review_required" path "path matched policy.human_review.paths and requires human review"] else [].

(** The first text that a pattern matches. *)
Definition check_redaction (texts : list TextCandidate) (pattern : string * (string → bool)) : list AuditFinding :=
  match list_find (λ candidate, pattern.2 (tc_value candidate) = true) texts with
  | Some (_, candidate) =>
      [mkFinding "redaction" (tc_source candidate) ("forbidden pattern '" +:+ pattern.1 +:+ "' detected in packet content")]
  | None => []
  end.

Definition packet_findings (p : PolicyConfig) (packet : GuardPacket) : list AuditFinding :=
  let paths := btree_strings (collect_paths packet) in
  let '(include_patterns, invalid_include) := compile_globs (paths_include p) "paths.include" in
  let '(exclude_patterns, invalid_exclude) := compile_globs (paths_exclude p) "paths.exclude" in
  let '(review_patterns, invalid_review) := compile_globs (human_review_paths p) "human_review.paths" in
  let '(redaction_patterns, invalid_redaction) := compile_regexes (forbidden_patterns p) "redaction.forbidden_patterns" in
  check_allowed "allowed_tools" "tool" (effective_allowed_tools p) (collect_tools packet) ++
  check_allowed "allowed_reducers" "reducer" (effective_allowed_reducers p) (collect_reducers packet) ++
  invalid_include ++ invalid_exclude ++ (path ← paths; check_path include_patterns exclude_patterns path) ++
  check_cap "token_cap" token_text (effective_token_cap p) (total_token_usage packet) ++
  check_cap "runtime_ms_cap" runtime_text (effective_runtime_ms_cap p) (total_runtime_ms packet) ++
  check_cap "tool_call_cap" tool_call_text (effective_tool_call_cap p) (total_tool_calls packet) ++
  invalid_review ++ (path ← paths; check_review review_patterns path) ++
  invalid_redaction ++ (pattern ← redaction_patterns; check_redaction (collect_text_for_redaction_scan packet) pattern).

Definition check_packet (config : ContextConfig) (packet : GuardPacket) : AuditResult :=
  let findings := packet_findings (policy config) packet in
  mkAuditResult (bool_decide (findings = [])) (config_version config)
    (mkTotals (Z.of_nat (size (collect_tools packet))) (Z.of_nat (size (collect_reducers packet))) (Z.of_nat (size (collect_paths packet)))
       (total_token_usage packet) (total_runtime_ms packet) (total_tool_calls packet))
    findings.
End Audit.
