(* ===== verification/GuardSpec.v ===== *)
(** * GuardSpec: an audit passes the packets that satisfy the policy

    What a policy asks of a packet, stated without the loops of the audit,
    and what a configuration has to be to load: both copies of the validation
    report the same errors, in another order, and none exactly for the
    well-formed policies. *)

From S2P Require Export Guard.

(** ** Lists that are empty *)

Lemma bind_nil {A B} (f : A → list B) l : (l ≫= f) = [] ↔ ∀ x, x ∈ l → f x = [].
Proof.
  induction l as [|x l IH]; [split; [by intros _ ? ?%elem_of_nil|done]|]. rewrite bind_cons, app_nil, IH. setoid_rewrite elem_of_cons. naive_solver.
Qed.
Lemma omap_nil {A B} (f : A → option B) l : omap f l = [] ↔ ∀ x, x ∈ l → f x = None.
Proof.
  induction l as [|x l IH]; [split; [by intros _ ? ?%elem_of_nil|done]|]. simpl. setoid_rewrite elem_of_cons. destruct (f x) eqn:E; simpl.
  - split; [done|]. intros H. specialize (H x (or_introl eq_refl)). congruence.
  - rewrite IH. naive_solver.
Qed.
Lemma fmap_filter_nil {A B} (f : A → B) (P : A → Prop) `{!∀ x, Decision (P x)} l : f <$> filter P l = [] ↔ ∀ x, x ∈ l → ¬ P x.
Proof.
  induction l as [|x l IH]; [split; [by intros _ ? ?%elem_of_nil|done]|]. rewrite filter_cons. setoid_rewrite elem_of_cons.
  case_decide as Hx; simpl; [split; [done|]; intros Hall; by destruct (Hall x (or_introl eq_refl))|]. rewrite IH. naive_solver.
Qed.
Lemma if_nil {A} (b : bool) (l : list A) : l ≠ [] → (if b then l else []) = [] ↔ b = false.
Proof. destruct b; naive_solver. Qed.

(** ** Names *)

Lemma non_empty_Some o s : non_empty o = Some s ↔ ∃ raw, o = Some raw ∧ trim raw = s ∧ s ≠ EmptyString.
Proof. unfold non_empty. destruct o as [raw|]; simpl; [|naive_solver]. case_bool_decide; naive_solver. Qed.
Lemma elem_of_names s l : s ∈ names l ↔ ∃ raw, Some raw ∈ l ∧ trim raw = s ∧ s ≠ EmptyString.
Proof. unfold names. rewrite elem_of_list_to_set, list_elem_of_omap. setoid_rewrite non_empty_Some. naive_solver. Qed.

(** [name] is one of the names given, without white space around it. *)
Definition named (l : list (option string)) (name : string) : Prop := ∃ raw, Some raw ∈ l ∧ trim raw = name ∧ name ≠ EmptyString.

Definition tool_names (p : GuardPacket) : list (option string) :=
  gp_tool p :: (Some <$> gp_tools p) ++ (Some ∘ ti_name <$> gp_tool_invocations p).
Definition reducer_names (p : GuardPacket) : list (option string) :=
  gp_reducer p :: (Some <$> gp_reducers p) ++ (ti_reducer <$> gp_tool_invocations p) ++ (Some ∘ ri_name <$> gp_reducer_invocations p).
Definition touches (p : GuardPacket) (path : string) : Prop := ∃ name, named (path_candidates p) name ∧ path = normalize_path name.

Lemma elem_of_collect_paths p path : path ∈ collect_paths p ↔ touches p path.
Proof.
  unfold collect_paths, touches, named. rewrite elem_of_list_to_set, list_elem_of_fmap. setoid_rewrite list_elem_of_omap.
  setoid_rewrite non_empty_Some. naive_solver.
Qed.

(** ** Texts *)

(** A text inside a JSON value; keys are not texts. *)
Inductive json_text (s : string) : Json → Prop :=
| text_string : json_text s (JString s)
| text_item l v : v ∈ l → json_text s v → json_text s (JArray l)
| text_field fields k v : (k, v) ∈ fields → json_text s v → json_text s (JObject fields).

Definition optional_text (s : string) (o : option string) : Prop := o = Some s.

(** The texts of a packet that the audit reads.  The keys of objects, the
    packet's identifier and its own lists of tools and reducers are not among
    them. *)
Inductive packet_text (p : GuardPacket) (s : string) : Prop :=
| in_payload : json_text s (gp_payload p) → packet_text p s
| in_paths : s ∈ gp_paths p → packet_text p s
| in_file f : f ∈ gp_files p → s = gf_path f ∨ gf_source f = Some s → packet_text p s
| in_symbol y : y ∈ gp_symbols p → s = gs_name y ∨ gs_file y = Some s ∨ gs_source y = Some s → packet_text p s
| in_tool c : c ∈ gp_tool_invocations p →
    s = ti_name c ∨ ti_reducer c = Some s ∨ s ∈ ti_paths c ∨ json_text s (ti_input c) ∨ json_text s (ti_output c) → packet_text p s
| in_reducer c : c ∈ gp_reducer_invocations p → s = ri_name c ∨ json_text s (ri_output c) → packet_text p s
| in_blob : s ∈ gp_text_blobs p → packet_text p s
| in_serialized name v : (name, v) ∈ gp_serialized p → json_text s v → packet_text p s
| in_summary : gp_summary p = Some s → packet_text p s
| in_provenance v : gp_provenance p = Some v → s ∈ pv_inputs v ∨ pv_git_base v = Some s ∨ pv_git_head v = Some s → packet_text p s.

(** A value is collected when some candidate has it. *)
Definition collected (l : list TextCandidate) (s : string) : Prop := ∃ c, c ∈ l ∧ tc_value c = s.

Lemma collected_app l k s : collected (l ++ k) s ↔ collected l s ∨ collected k s.
Proof. unfold collected. setoid_rewrite elem_of_app. naive_solver. Qed.
Lemma collected_nil s : ¬ collected [] s.
Proof. by intros (c & ?%elem_of_nil & _). Qed.
Lemma collected_push source value s : collected (push_text_candidate source value) s ↔ s = value ∧ s ≠ EmptyString.
Proof.
  unfold push_text_candidate, collected. case_bool_decide as H; simpl; setoid_rewrite elem_of_cons || idtac.
  - split; [by intros (c & ?%elem_of_nil & _)|by intros [-> ?]].
  - split; [intros (c & [->|?%elem_of_nil] & <-); done|]. intros [-> ?]. eexists. by split; [left|].
Qed.
Lemma collected_optional source o s : collected (push_optional source o) s ↔ o = Some s ∧ s ≠ EmptyString.
Proof. destruct o as [v|]; simpl; [rewrite collected_push; naive_solver|]. split; [by intros ?%collected_nil|naive_solver]. Qed.
Lemma collected_imap {A} (f : nat → A → list TextCandidate) (P : A → Prop) l s : (∀ idx x, collected (f idx x) s ↔ P x) →
  collected (concat (imap f l)) s ↔ ∃ x, x ∈ l ∧ P x.
Proof.
  revert f. induction l as [|x l IH]; intros f Hf; simpl.
  - split; [by intros ?%collected_nil|by intros (x & ?%elem_of_nil & _)].
  - rewrite collected_app, Hf, (IH (f ∘ S)) by (intros; apply Hf). setoid_rewrite elem_of_cons. naive_solver.
Qed.
Lemma collected_concat {A} (f : A → list TextCandidate) (P : A → Prop) l s : (∀ x, collected (f x) s ↔ P x) →
  collected (concat (f <$> l)) s ↔ ∃ x, x ∈ l ∧ P x.
Proof.
  intros Hf. induction l as [|x l IH]; simpl.
  - split; [by intros ?%collected_nil|by intros (x & ?%elem_of_nil & _)].
  - rewrite collected_app, Hf, IH. setoid_rewrite elem_of_cons. naive_solver.
Qed.
Lemma collected_push_list source values s : collected (push_list source values) s ↔ s ∈ values ∧ s ≠ EmptyString.
Proof.
  unfold push_list. rewrite (collected_imap _ (λ v, s = v ∧ s ≠ EmptyString)) by (intros; apply collected_push). naive_solver.
Qed.

(** ** Induction over JSON values *)

Section JsonInduction.
Context (P : Json → Prop) (Hleaf : ∀ v, match v with JArray _ | JObject _ => True | _ => P v end).
Context (Harray : ∀ l, Forall P l → P (JArray l)) (Hobject : ∀ fields, Forall (λ kv, P kv.2) fields → P (JObject fields)).

Fixpoint json_values_ind (v : Json) : P v :=
  match v with
  | JArray l =>
      Harray l ((fix go l : Forall P l := match l with [] => Forall_nil_2 _ | v :: l => Forall_cons_2 _ _ _ (json_values_ind v) (go l) end) l)
  | JObject fields =>
      Hobject fields ((fix go fields : Forall (λ kv, P kv.2) fields :=
        match fields with [] => Forall_nil_2 _ | kv :: fields => Forall_cons_2 _ _ _ (json_values_ind kv.2) (go fields) end) fields)
  | v => Hleaf v
  end.
End JsonInduction.

Lemma collected_value s v : ∀ path, collected (collect_texts_from_value v path) s ↔ json_text s v ∧ s ≠ EmptyString.
Proof.
  revert v. apply (json_values_ind (λ v, ∀ path, collected (collect_texts_from_value v path) s ↔ json_text s v ∧ s ≠ EmptyString));
    [intros v|intros l IH|intros fields IH].
  - destruct v; try done; intros path; simpl; try (split; [by intros ?%collected_nil|intros [H _]; inversion H]).
    rewrite collected_push. split; [intros [-> ?]; split; [apply text_string|done]|intros [H ?]; inversion H; by subst].
  - intros path. simpl. transitivity ((∃ v, v ∈ l ∧ json_text s v) ∧ s ≠ EmptyString).
    2: { f_equiv. split; [intros (v & ? & ?); by eapply text_item|intros H; inversion H; eauto]. }
    generalize 0. induction IH as [|v l Hv _ IHl]; intros idx; simpl.
    { split; [by intros ?%collected_nil|by intros [(v & ?%elem_of_nil & _) _]]. }
    rewrite collected_app, Hv, IHl. setoid_rewrite elem_of_cons. naive_solver.
  - intros path. simpl. transitivity ((∃ kv, kv ∈ fields ∧ json_text s kv.2) ∧ s ≠ EmptyString).
    2: { f_equiv. split; [intros ([k v] & ? & ?); by eapply text_field|intros H; inversion H; by eexists (_, _)]. }
    induction IH as [|[k v] fields Hv _ IHl]; simpl.
    { split; [by intros ?%collected_nil|by intros [(v & ?%elem_of_nil & _) _]]. }
    rewrite collected_app, Hv, IHl. setoid_rewrite elem_of_cons. naive_solver.
Qed.

Local Ltac solve_collected :=
  first [split; assumption | eexists; split; [eassumption|split; assumption]].

(** The scan collects the texts of the packet that are not empty. *)
Lemma collected_packet p s : collected (collect_text_for_redaction_scan p) s ↔ packet_text p s ∧ s ≠ EmptyString.
Proof.
  unfold collect_text_for_redaction_scan. rewrite !collected_app, collected_value, !collected_push_list, collected_optional.
  rewrite (collected_imap _ (λ f, (s = gf_path f ∨ gf_source f = Some s) ∧ s ≠ EmptyString))
    by (intros; unfold file_texts; rewrite collected_app, collected_push, collected_optional; naive_solver).
  rewrite (collected_imap _ (λ y, (s = gs_name y ∨ gs_file y = Some s ∨ gs_source y = Some s) ∧ s ≠ EmptyString))
    by (intros; unfold symbol_texts; rewrite !collected_app, collected_push, !collected_optional; naive_solver).
  rewrite (collected_imap _ (λ c, (s = ti_name c ∨ ti_reducer c = Some s ∨ s ∈ ti_paths c ∨ json_text s (ti_input c) ∨ json_text s (ti_output c)) ∧
    s ≠ EmptyString))
    by (intros; unfold tool_texts; rewrite !collected_app, collected_push, collected_optional, collected_push_list, !collected_value; naive_solver).
  rewrite (collected_imap _ (λ c, (s = ri_name c ∨ json_text s (ri_output c)) ∧ s ≠ EmptyString))
    by (intros; unfold reducer_texts; rewrite collected_app, collected_push, collected_value; naive_solver).
  rewrite (collected_concat _ (λ nv, json_text s nv.2 ∧ s ≠ EmptyString)) by (intros [name v]; apply collected_value).
  assert (Hprov : collected (match gp_provenance p with Some v => provenance_texts v | None => [] end) s ↔
    ∃ v, gp_provenance p = Some v ∧ (s ∈ pv_inputs v ∨ pv_git_base v = Some s ∨ pv_git_head v = Some s) ∧ s ≠ EmptyString).
  { destruct (gp_provenance p) as [v|]; [|split; [by intros ?%collected_nil|naive_solver]].
    unfold provenance_texts. rewrite !collected_app, collected_push_list, !collected_optional. naive_solver. }
  rewrite Hprov. split.
  - intros H. repeat destruct H as [H|H]; try (destruct H as (x & Hx & H)); try (destruct x as [name v]); destruct_and?;
      (split; [|by destruct_and?]).
    1: by apply in_payload. 1: by apply in_paths. 1: by eapply in_file. 1: by eapply in_symbol. 1: by eapply in_tool.
    1: by eapply in_reducer. 1: by apply in_blob. 1: by eapply in_serialized. 1: by apply in_summary. by eapply in_provenance.
  - intros [H Hs]. destruct H as [H|H|f Hf H|y Hy H|c Hc H|c Hc H|H|name v Hv H|H|v Hv H];
      repeat first [solve [solve_collected] | left; solve [solve_collected] | right].
Qed.

(** ** What a policy asks *)

Section Satisfies.
Context (glob_new regex_new : string → result string (string → bool)).

Definition compiles (pattern_new : string → result string (string → bool)) (patterns : list string) : Prop :=
  ∀ pattern, pattern ∈ patterns → is_ok (pattern_new pattern) = true.
Definition some_matches (pattern_new : string → result string (string → bool)) (patterns : list string) (value : string) : Prop :=
  ∃ pattern test, pattern ∈ patterns ∧ pattern_new pattern = Ok test ∧ test value = true.
Definition within_cap (cap : option Z) (total : Z) : Prop := match cap with Some cap => (total <= cap)%Z | None => True end.

(** The totals without wrapping around. *)
Definition sum_of (own : option Z) (l : list (option Z)) : Z := (default 0 own + sumZ (default 0%Z <$> l))%Z.
Definition token_sum (p : GuardPacket) : Z :=
  sum_of (gp_token_usage p) ((ti_token_usage <$> gp_tool_invocations p) ++ (ri_token_usage <$> gp_reducer_invocations p)).
Definition runtime_sum (p : GuardPacket) : Z :=
  sum_of (gp_runtime_ms p) ((ti_runtime_ms <$> gp_tool_invocations p) ++ (ri_runtime_ms <$> gp_reducer_invocations p)).

Record satisfies (p : PolicyConfig) (packet : GuardPacket) : Prop := {
  sat_tools name : effective_allowed_tools p ≠ [] → named (tool_names packet) name → name ∈ effective_allowed_tools p;
  sat_reducers name : effective_allowed_reducers p ≠ [] → named (reducer_names packet) name → name ∈ effective_allowed_reducers p;
  sat_patterns : compiles glob_new (paths_include p ++ paths_exclude p ++ human_review_paths p) ∧ compiles regex_new (forbidden_patterns p);
  sat_include path : paths_include p ≠ [] → touches packet path → some_matches glob_new (paths_include p) path;
  sat_exclude path : touches packet path → ¬ some_matches glob_new (paths_exclude p) path;
  sat_tokens : within_cap (effective_token_cap p) (token_sum packet);
  sat_runtime : within_cap (effective_runtime_ms_cap p) (runtime_sum packet);
  sat_tool_calls : within_cap (effective_tool_call_cap p) (total_tool_calls packet);
  sat_review path : touches packet path → ¬ some_matches glob_new (human_review_paths p) path;
  sat_texts text : packet_text packet text → text ≠ EmptyString → ¬ some_matches regex_new (forbidden_patterns p) text
}.

(** Usages are unsigned and their sums fit 64 bits. *)
Record usage_fits (packet : GuardPacket) : Prop := {
  uf_tokens : Forall (λ o, 0 <= default 0 o)%Z
    (gp_token_usage packet :: (ti_token_usage <$> gp_tool_invocations packet) ++ (ri_token_usage <$> gp_reducer_invocations packet));
  uf_runtime : Forall (λ o, 0 <= default 0 o)%Z
    (gp_runtime_ms packet :: (ti_runtime_ms <$> gp_tool_invocations packet) ++ (ri_runtime_ms <$> gp_reducer_invocations packet));
  uf_token_sum : (token_sum packet <= u64_max)%Z;
  uf_runtime_sum : (runtime_sum packet <= u64_max)%Z
}.

(** ** Each check *)

Lemma check_allowed_nil rule_name noun allowed seen : check_allowed rule_name noun allowed seen = [] ↔
  (allowed ≠ [] → ∀ name, name ∈ seen → name ∈ allowed).
Proof.
  unfold check_allowed. case_bool_decide as He; simpl.
  - split; [|done]. intros _ Hne. destruct allowed as [|a allowed]; [done|]. exfalso. set_solver.
  - rewrite fmap_filter_nil. split.
    + intros H _ name Hname. apply elem_of_btree_strings in Hname. destruct (decide (name ∈ allowed)) as [|Hn]; [done|]. exfalso.
      apply (H name Hname). by rewrite elem_of_list_to_set.
    + intros H name Hname. rewrite elem_of_btree_strings in Hname. rewrite elem_of_list_to_set.
      intros Hn. apply Hn, H; [|done]. intros ->. by apply He.
Qed.

Lemma compile_invalid_nil kind pattern_new patterns rule_name :
  (compile kind pattern_new patterns rule_name).2 = [] ↔ compiles pattern_new patterns.
Proof.
  simpl. rewrite omap_nil. unfold compiles. split; intros H pattern Hp; specialize (H pattern Hp); by destruct (pattern_new pattern).
Qed.
Lemma elem_of_compiled kind pattern_new patterns rule_name pattern test :
  (pattern, test) ∈ (compile kind pattern_new patterns rule_name).1 ↔ pattern ∈ patterns ∧ pattern_new pattern = Ok test.
Proof.
  simpl. rewrite list_elem_of_omap. split.
  - intros (p & Hp & H). destruct (pattern_new p) eqn:E; naive_solver.
  - intros [Hp E]. exists pattern. by rewrite E.
Qed.
Lemma matches_any_spec kind pattern_new patterns rule_name value :
  matches_any (compile kind pattern_new patterns rule_name).1 value = true ↔ some_matches pattern_new patterns value.
Proof.
  unfold matches_any, some_matches. rewrite existsb_exists. split.
  - intros ([pattern test] & Hin & Ht). apply list_elem_of_In in Hin. apply elem_of_compiled in Hin as [? ?]. eauto.
  - intros (pattern & test & Hp & Hnew & Ht). exists (pattern, test). split; [|done]. apply list_elem_of_In. by apply elem_of_compiled.
Qed.
Lemma compiled_nil kind pattern_new patterns rule_name : compiles pattern_new patterns →
  (compile kind pattern_new patterns rule_name).1 = [] ↔ patterns = [].
Proof.
  intros Hc. split; [|by intros ->]. simpl. rewrite omap_nil. intros H. destruct patterns as [|p patterns]; [done|].
  specialize (H p (list_elem_of_here _ _)). specialize (Hc p (list_elem_of_here _ _)). by destruct (pattern_new p).
Qed.

Lemma check_cap_nil rule_name text cap total : check_cap rule_name text cap total = [] ↔ within_cap cap total.
Proof. destruct cap as [cap|]; simpl; [|done]. rewrite if_nil, Z.ltb_ge; done. Qed.

Lemma check_redaction_nil texts pattern : check_redaction texts pattern = [] ↔ ∀ text, collected texts text → pattern.2 text = false.
Proof.
  unfold check_redaction. destruct (list_find _ texts) as [[i c]|] eqn:E.
  - split; [done|]. intros H. apply list_find_Some in E as (Hc & Ht & _). specialize (H (tc_value c)).
    rewrite H in Ht; [done|]. exists c. split; [by eapply list_elem_of_lookup_2|done].
  - split; [|done]. intros _ text (c & Hc & <-). apply list_find_None in E. rewrite Forall_forall in E.
    specialize (E c Hc). by destruct (pattern.2 (tc_value c)).
Qed.

Lemma total_of_exact own tool reducer : Forall (λ o, 0 <= default 0 o)%Z (own :: tool ++ reducer) →
  (sum_of own (tool ++ reducer) <= u64_max)%Z → total_of own tool reducer = sum_of own (tool ++ reducer).
Proof.
  rewrite Forall_cons, Forall_app. intros (Ho & Ht & Hr) Hsum. simpl in Ho. unfold sum_of, total_of in *. rewrite fmap_app, sumZ_app in *.
  assert (Hpos : ∀ l : list (option Z), Forall (λ o, 0 <= default 0 o)%Z l → Forall (λ x, 0 <= x)%Z (default 0%Z <$> l))
    by (intros l Hl; by apply Forall_fmap).
  pose proof (sumZ_nonneg _ (Hpos _ Ht)). pose proof (sumZ_nonneg _ (Hpos _ Hr)).
  rewrite !wrapping_sum_exact by (auto || lia). rewrite (wrapping_add_exact _ (default 0%Z own)), wrapping_add_exact by (unfold fits; lia). lia.
Qed.

(** ** The audit *)

Lemma check_path_nil include exclude path : compiles glob_new include →
  check_path (compile_globs glob_new include "paths.include").1 (compile_globs glob_new exclude "paths.exclude").1 path = [] ↔
  (include ≠ [] → some_matches glob_new include path) ∧ ¬ some_matches glob_new exclude path.
Proof.
  intros Hc. unfold check_path, compile_globs. rewrite app_nil, !if_nil by done. rewrite <- not_true_iff_false, andb_true_iff, !negb_true_iff.
  rewrite <- (not_true_iff_false (matches_any _ path)), matches_any_spec, bool_decide_eq_false, compiled_nil by done.
  rewrite <- (not_true_iff_false (matches_any _ path)), matches_any_spec. split.
  - intros [H1 H2]. split; [|done]. intros Hne. destruct (matches_any (compile "glob" glob_new include "paths.include").1 path) eqn:E.
    + by apply matches_any_spec in E.
    + exfalso. apply H1. split; [done|]. rewrite <- matches_any_spec. by rewrite E.
  - intros [H1 H2]. split; [|done]. intros [Hne Hn]. by apply Hn, H1.
Qed.

Lemma check_review_nil review path :
  check_review (compile_globs glob_new review "human_review.paths").1 path = [] ↔ ¬ some_matches glob_new review path.
Proof. unfold check_review, compile_globs. by rewrite if_nil, <- not_true_iff_false, matches_any_spec by done. Qed.

Lemma redaction_nil patterns packet :
  (pattern ← (compile_regexes regex_new patterns "redaction.forbidden_patterns").1;
   check_redaction (collect_text_for_redaction_scan packet) pattern) = [] ↔
  ∀ text, packet_text packet text → text ≠ EmptyString → ¬ some_matches regex_new patterns text.
Proof.
  rewrite bind_nil. setoid_rewrite check_redaction_nil. unfold compile_regexes. split.
  - intros H text Ht Hne (pattern & test & Hp & Hnew & Hm). specialize (H (pattern, test)).
    rewrite H in Hm; [done|by apply elem_of_compiled|by apply collected_packet].
  - intros H [pattern test] Hin text Hc. apply elem_of_compiled in Hin as [Hp Hnew]. apply collected_packet in Hc as [Ht Hne].
    apply not_true_iff_false. intros Hm. apply (H text Ht Hne). by exists pattern, test.
Qed.

Lemma packet_findings_nil p packet : usage_fits packet → packet_findings glob_new regex_new p packet = [] ↔ satisfies p packet.
Proof.
  intros [Ht Hr Hts Hrs].
  assert (Htotal : total_token_usage packet = token_sum packet) by by apply total_of_exact.
  assert (Hruntime : total_runtime_ms packet = runtime_sum packet) by by apply total_of_exact.
  unfold packet_findings. rewrite (surjective_pairing (compile_globs glob_new (paths_include p) _)).
  rewrite (surjective_pairing (compile_globs glob_new (paths_exclude p) _)).
  rewrite (surjective_pairing (compile_globs glob_new (human_review_paths p) _)).
  rewrite (surjective_pairing (compile_regexes regex_new (forbidden_patterns p) _)). cbv zeta.
  rewrite !app_nil, !check_allowed_nil, !check_cap_nil, redaction_nil, Htotal, Hruntime, !(bind_nil _ (btree_strings _)).
  unfold compile_globs at 1 2 5, compile_regexes. rewrite !compile_invalid_nil.
  setoid_rewrite elem_of_btree_strings. setoid_rewrite elem_of_collect_paths. unfold collect_tools, collect_reducers.
  setoid_rewrite elem_of_names. setoid_rewrite check_review_nil. split.
  - intros (H1 & H2 & H3 & H4 & H5 & H6 & H7 & H8 & H9 & H10 & H11 & H12). split; auto.
    + split; [|done]. unfold compiles in *. setoid_rewrite elem_of_app. setoid_rewrite elem_of_app. naive_solver.
    + intros path Hne Hpath. specialize (H5 path Hpath). apply check_path_nil in H5; [|done]. by apply H5.
    + intros path Hpath. specialize (H5 path Hpath). apply check_path_nil in H5; [|done]. by apply H5.
  - intros [H1 H2 [H3 H4] H5 H6 H7 H8 H9 H10 H11].
    assert (Hinc : compiles glob_new (paths_include p)) by (intros ? ?; apply H3; set_solver).
    assert (Hexc : compiles glob_new (paths_exclude p)) by (intros ? ?; apply H3; set_solver).
    assert (Hrev : compiles glob_new (human_review_paths p)) by (intros ? ?; apply H3; set_solver).
    split_and!; auto. intros path Hpath. apply check_path_nil; [done|]. split; [|by apply H6]. intros Hne. by apply H5.
Qed.
End Satisfies.

(** ** The configurations that are valid *)

Section Valid.
Context (glob_error regex_error : string → option string).

(** Two spellings of a list do not conflict. *)
Definition agree (canonical legacy : list string) : Prop :=
  normalize_non_empty_list canonical = [] ∨ normalize_non_empty_list legacy = [] ∨
  ∀ name, name ∈ normalize_non_empty_list canonical ↔ name ∈ normalize_non_empty_list legacy.
Definition caps_agree (canonical legacy : option Z) : Prop := canonical = None ∨ legacy = None ∨ canonical = legacy.

Record well_formed (config : ContextConfig) : Prop := {
  wf_version : config_version config = 1%Z;
  wf_tools : agree (tools_allowlist (policy config)) (allowed_tools (policy config));
  wf_reducers : agree (reducers_allowlist (policy config)) (allowed_reducers (policy config));
  wf_names name : name ∈ tools_allowlist (policy config) ++ allowed_tools (policy config) ++
    reducers_allowlist (policy config) ++ allowed_reducers (policy config) → is_blank name = false;
  wf_caps : caps_agree (token_budget_cap (policy config)) (budgets_token_cap (policy config)) ∧
    caps_agree (runtime_budget_cap_ms (policy config)) (budgets_runtime_ms_cap (policy config));
  wf_caps_positive cap : cap ∈ [token_budget_cap (policy config); budgets_token_cap (policy config); runtime_budget_cap_ms (policy config);
    budgets_runtime_ms_cap (policy config); tool_call_budget_cap (policy config)] → cap ≠ Some 0%Z;
  wf_globs pattern : pattern ∈ paths_include (policy config) ++ paths_exclude (policy config) ++ human_review_paths (policy config) →
    glob_error pattern = None;
  wf_regexes pattern : pattern ∈ forbidden_patterns (policy config) → regex_error pattern = None
}.

Lemma enumerate_errors_nil label error items : enumerate_errors label error items = [] ↔ ∀ item, item ∈ items → error item = None.
Proof.
  unfold enumerate_errors. rewrite omap_nil. split.
  - intros H item [i Hi]%list_elem_of_lookup_1. destruct (error item) as [m|] eqn:E; [|done]. exfalso.
    specialize (H (Some (label +:+ "[" +:+ show_nat i +:+ "]" +:+ m))). simpl in H. discriminate H.
    apply elem_of_lookup_imap. exists i, item. by rewrite E.
  - intros H o Ho. apply elem_of_lookup_imap in Ho as (i & item & -> & Hi). by rewrite (H item (list_elem_of_lookup_2 _ _ _ Hi)).
Qed.
Lemma option_list_nil {A} (o : option A) : option_list o = [] ↔ o = None.
Proof. by destruct o. Qed.

Lemma allowlist_conflict_None canonical legacy a b : validate_allowlist_conflict canonical legacy a b = None ↔ agree canonical legacy.
Proof.
  unfold validate_allowlist_conflict, agree.
  set (c := normalize_non_empty_list canonical). set (l := normalize_non_empty_list legacy).
  assert (Hempty : ∀ k : list string, list_to_set (C := gset string) k = ∅ ↔ k = []).
  { intros k. split; [|by intros ->]. destruct k; [done|]. set_solver. }
  assert (Hset : list_to_set (C := gset string) c = list_to_set l ↔ ∀ name, name ∈ c ↔ name ∈ l).
  { rewrite set_eq. setoid_rewrite elem_of_list_to_set. done. }
  rewrite <- !Hempty, <- Hset. repeat case_bool_decide; simpl; tauto || naive_solver.
Qed.
Lemma cap_conflict_None canonical legacy a b : validate_cap_conflict canonical legacy a b = None ↔ caps_agree canonical legacy.
Proof.
  unfold validate_cap_conflict, caps_agree. destruct canonical as [x|], legacy as [y|]; try tauto.
  destruct (Z.eqb_spec x y) as [->|Hne]; simpl; [tauto|]. split; [done|]. naive_solver.
Qed.
Lemma zero_cap_nil label cap : zero_cap label cap = [] ↔ cap ≠ Some 0%Z.
Proof. unfold zero_cap. rewrite if_nil, bool_decide_eq_false; done. Qed.
Lemma empty_item_None item : empty_item item = None ↔ is_blank item = false.
Proof. unfold empty_item. by destruct (is_blank item). Qed.
Lemma fmap_None_iff {A B} (f : A → B) (o : option A) : f <$> o = None ↔ o = None.
Proof. by destruct o. Qed.

Lemma validate_nil config : validate glob_error regex_error config = [] ↔ well_formed config.
Proof.
  unfold validate, validate_version, tools_conflict, reducers_conflict, caps_conflict, validate_caps, validate_patterns.
  rewrite !app_nil, !enumerate_errors_nil, !option_list_nil, !allowlist_conflict_None, !cap_conflict_None, !zero_cap_nil, if_nil by done.
  rewrite negb_false_iff, Z.eqb_eq. unfold invalid_glob, invalid_regex. setoid_rewrite fmap_None_iff. setoid_rewrite empty_item_None. split.
  - intros (H1 & H2 & H3 & H4 & H5 & H6 & H7 & H8 & H9 & H10 & H11 & H12). split; try done.
    + intros name. rewrite !elem_of_app. naive_solver.
    + intros cap. rewrite !elem_of_cons, elem_of_nil. naive_solver.
    + intros pattern. rewrite !elem_of_app. naive_solver.
    + naive_solver.
  - intros [H1 H2 H3 H4 [H5 H6] H7 H8 H9]. setoid_rewrite elem_of_app in H4. setoid_rewrite elem_of_app in H8.
    split_and!; try done; try (apply H7; set_solver); intros x Hx; first [apply H4; set_solver|apply H8; set_solver].
Qed.

Lemma suite_validate_perm config : suite_validate glob_error regex_error config ≡ₚ validate glob_error regex_error config.
Proof. unfold suite_validate, validate. cbv zeta. solve_Permutation. Qed.
End Valid.
