(* ===== verification/Execute.v ===== *)
(** * Execute: one request of the kernel

    Models [Kernel::execute_with_hooks] of
    [src/crates/context-kernel-mechanism/src/kernel_runtime.rs] over the cache
    of [MemoryCache] and over an execution policy, which is an interface
    ([src/crates/context-kernel-mechanism/src/services.rs]).  The kernel is
    the one without persistence; a reducer reads the cache through its
    context and does not change it.  Hit hooks, which only observe, and the
    poisoning of locks are left out. *)

From S2P Require Export Kernel MemoryCache.
From S2P Require Import Guard.
Local Open Scope Z_scope.

Inductive BudgetStage : Type := InputStage | TotalStage.
Inductive BudgetMetric : Type := TokensMetric | BytesMetric | RuntimeMsMetric.

(** [KernelError], without the errors of sequences, locks and packet files. *)
Inductive ExecuteError : Type :=
| EmptyTarget
| UnknownTarget (target : string) (registered : list string)
| InvalidExecution (detail : string)
| BudgetExceeded (target : string) (stage : BudgetStage) (metric : BudgetMetric) (used cap : Z)
| ReducerFailed (target detail : string)
| PolicyViolation (target detail : string).

Record ReducerExecutionAudit : Type := mkReducerAudit { rx_reducer : string; rx_allowed : bool; rx_matched_by : option string }.
Record GovernanceAudit : Type := mkGovernance {
  gv_enabled : bool;
  gv_config_path : option string;
  gv_reducer_execution : option ReducerExecutionAudit;
  gv_input_audits : list AuditResult;
  gv_output_audits : list AuditResult
}.
Definition no_governance : GovernanceAudit := mkGovernance false None None [] [].

(** [ExecutionPolicy] and [ExecutionPolicyRun]: the state of the policy of one
    request. *)
Class ExecutionPolicy (Run : Type) : Type := {
  begin : string → KernelRequest → result ExecuteError Run;
  cache_enabled : Run → bool;
  cache_input : Run → Json;
  audit_output : Run → list KernelPacket → result ExecuteError Run;
  governance_audit : Run → GovernanceAudit
}.

(** ** Requests as JSON *)

Definition json_opt_str (o : option string) : Json := match o with Some s => JString s | None => JNull end.
Definition json_opt_uint (o : option Z) : Json := match o with Some n => JUint n | None => JNull end.

Definition packet_json (packet : KernelPacket) : Json :=
  JObject [("body", kp_body packet); ("format", JString (kp_format packet)); ("metadata", kp_metadata packet);
           ("packet_id", json_opt_str (kp_packet_id packet)); ("runtime_ms", json_opt_uint (kp_runtime_ms packet));
           ("token_usage", json_opt_uint (kp_token_usage packet))].
Definition budget_json (budget : ExecutionBudget) : Json :=
  JObject [("byte_cap", json_opt_uint (eb_byte_cap budget)); ("runtime_ms_cap", json_opt_uint (eb_runtime_ms_cap budget));
           ("token_cap", json_opt_uint (eb_token_cap budget))].

(** ** The default policy *)

Record DefaultExecutionPolicyRun : Type := mkDefaultRun { dr_cache_enabled : bool; dr_cache_input : Json }.

Definition default_cache_input (target : string) (request : KernelRequest) : Json :=
  JObject [("budget", budget_json (kq_budget request)); ("input_packets", JArray (packet_json <$> kq_input_packets request));
           ("policy_context", kq_policy_context request); ("reducer_input", kq_reducer_input request); ("target", JString target)].
#[export] Instance DefaultExecutionPolicy : ExecutionPolicy DefaultExecutionPolicyRun := {|
  begin := λ target request,
    Ok (mkDefaultRun (negb (default false (json_get "disable_cache" (kq_policy_context request) ≫= json_as_bool)))
          (default_cache_input target request));
  cache_enabled := dr_cache_enabled;
  cache_input := dr_cache_input;
  audit_output := λ run _, Ok run;
  governance_audit := λ _, no_governance
|}.

(** ** Budgets *)

Definition check_budget (target : string) (stage : BudgetStage) (metric : BudgetMetric) (cap : option Z) (used : Z) : result ExecuteError () :=
  match cap with
  | Some cap => ensure (used <=? cap) (BudgetExceeded target stage metric used cap)
  | None => Ok ()
  end.
Definition enforce_budget (target : string) (stage : BudgetStage) (budget : ExecutionBudget) (usage : StepEstimate) : result ExecuteError () :=
  check_budget target stage TokensMetric (eb_token_cap budget) (tokens usage) ;;
  check_budget target stage BytesMetric (eb_byte_cap budget) (bytes usage) ;;
  check_budget target stage RuntimeMsMetric (eb_runtime_ms_cap budget) (runtime_ms usage).

(** ** Metadata *)

(** [Map::insert]: the entries are in the order of their keys. *)
Fixpoint map_insert (key : string) (value : Json) (fields : list (string * Json)) : list (string * Json) :=
  match fields with
  | [] => [(key, value)]
  | (k, v) :: rest =>
      if decide (key = k) then (key, value) :: rest
      else if str_ltb key k then (key, value) :: fields
      else (k, v) :: map_insert key value rest
  end.
Definition merge_json (a b : Json) : Json :=
  match a, b with
  | JObject fields, JObject new => JObject (foldl (λ fields kv, map_insert kv.1 kv.2 fields) fields new)
  | value, JNull => value
  | _, value => value
  end.

Definition cache_metadata (hit : bool) (key : string) (age : option Z) (miss_reason : option string) : Json :=
  JObject [("cache", JObject [("entry_age_secs", match age with Some age => JUint age | None => JNull end); ("hit", JBool hit);
                              ("key", JString key); ("miss_reason", match miss_reason with Some r => JString r | None => JNull end)])].
Definition evictions_json (c : EvictionCounters) : Json :=
  JObject [("corrupt_load_recovery", JUint (ec_corrupt_load_recovery c)); ("expired_ttl", JUint (ec_expired_ttl c));
           ("manual_prune", JUint (ec_manual_prune c)); ("version_mismatch", JUint (ec_version_mismatch c))].

(** The evictions of the commit, in the [cache] object of the metadata. *)
Definition with_evictions (evictions : Json) (metadata : Json) : Json :=
  let other := merge_json metadata (JObject [("cache", JObject [("evictions", evictions)])]) in
  match metadata with
  | JObject fields =>
      match assoc_get "cache" fields with
      | Some (JObject cache) => JObject (map_insert "cache" (JObject (map_insert "evictions" evictions cache)) fields)
      | _ => other
      end
  | _ => other
  end.

(** ** Execution *)

Record KernelAudit : Type := mkKernelAudit {
  ka_reducer : string;
  ka_input_packets : Z;
  ka_output_packets : Z;
  ka_budget : ExecutionBudget;
  ka_input_usage : StepEstimate;
  ka_output_usage : StepEstimate;
  ka_total_usage : StepEstimate;
  ka_governance : GovernanceAudit
}.
Record KernelResponse : Type := mkKernelResponse {
  kr_request_id : Z;
  kr_target : string;
  kr_output_packets : list KernelPacket;
  kr_audit : KernelAudit;
  kr_metadata : Json
}.
Record ReducerResult : Type := mkReducerResult { rr_output_packets : list KernelPacket; rr_metadata : Json }.
Record ExecutionContext : Type := mkExecutionContext {
  ec_request_id : Z;
  ec_target : string;
  ec_budget : ExecutionBudget;
  ec_policy_context : Json;
  ec_reducer_input : Json;
  ec_memory : PacketCache
}.

(** A reducer returns its result and what it has put in the shared map. *)
Definition Reducer : Type := ExecutionContext → list KernelPacket → result ExecuteError (ReducerResult * list (string * Json)).

Record KernelState : Type := mkKernelState { km_memory : PacketCache; km_next_request_id : Z }.

(** What the clock says during one execution. *)
Record Clock : Type := mkClock { ck_now_unix : Z; ck_elapsed_ms : Z; ck_commit_unix : Z }.

Definition packet_of_cache (packet : CachePacket) : KernelPacket :=
  mkKernelPacket (cp_packet_id packet) "packet-json" (cp_body packet) (cp_token_usage packet) (cp_runtime_ms packet) (cp_metadata packet).
Definition packet_to_cache (packet : KernelPacket) : CachePacket :=
  mkCachePacket (kp_packet_id packet) (kp_body packet) (kp_token_usage packet) (kp_runtime_ms packet) (kp_metadata packet).

Section Execute.
Context `{!CacheEnv} {Run : Type} `{!ExecutionPolicy Run}.
Context (estimate_json_bytes : Json → Z) (reducers : gmap string Reducer).
Context (select_reuse_base : string → string → PacketCache → option string).
Context (persist_ttl_secs : option Z).

Definition reducer_names : list string := sort_by_cmp str_cmp (map_to_list reducers).*1.

(** The usage of a request, of which the runtime is counted by [runtime]. *)
Definition total_usage (input output : StepEstimate) (runtime : Z) : StepEstimate :=
  {| tokens := saturating_add u64_max (tokens input) (tokens output);
     bytes := saturating_add usize_max (bytes input) (bytes output);
     runtime_ms := runtime |}.

Definition respond (request_id : Z) (target : string) (req : KernelRequest) (output_packets : list KernelPacket)
    (input output total : StepEstimate) (run : Run) (metadata : Json) : KernelResponse :=
  mkKernelResponse request_id target output_packets
    (mkKernelAudit target (Z.of_nat (length (kq_input_packets req))) (Z.of_nat (length output_packets)) (kq_budget req) input output total
       (governance_audit run)) metadata.

(** The answer of a cache hit. *)
Definition answer_hit (request_id : Z) (target : string) (req : KernelRequest) (run : Run) (clock : Clock) (cache_key : string)
    (entry : PacketCacheEntry) : result ExecuteError KernelResponse :=
  let input_usage := usage_for_packets estimate_json_bytes (kq_input_packets req) in
  let output_packets := packet_of_cache <$> pe_packets entry in
  run ← audit_output run output_packets;
  let output_usage := usage_for_packets estimate_json_bytes output_packets in
  let total := total_usage input_usage output_usage (saturating_add u64_max (runtime_ms input_usage) (runtime_ms output_usage)) in
  enforce_budget target TotalStage (kq_budget req) total ;;
  let entry_age_secs := saturating_sub (ck_now_unix clock) (pe_created_at_unix entry) in
  Ok (respond request_id target req output_packets input_usage output_usage total run
        (merge_json (pe_metadata entry) (cache_metadata true cache_key (Some entry_age_secs) None))).

(** [commit_cache_update] of a volatile update. *)
Definition commit_cache_update (target : string) (lookup : CacheLookup) (packets : list CachePacket) (metadata : Json) (now : Z)
    (memory : PacketCache) : PacketCache :=
  let '(memory, _) := put_at memory target lookup packets metadata now in
  match persist_ttl_secs with
  | Some ttl_secs => (evict_expired_entries_at ttl_secs now memory).1
  | None => memory
  end.

(** The answer of a miss, and the cache after it. *)
Definition answer_miss (request_id : Z) (target : string) (req : KernelRequest) (reducer : Reducer) (run : Run) (clock : Clock)
    (cache_lookup : option CacheLookup) (memory : PacketCache) : result ExecuteError (KernelResponse * PacketCache) :=
  let input_usage := usage_for_packets estimate_json_bytes (kq_input_packets req) in
  '(reducer_result, shared) ← reducer (mkExecutionContext request_id target (kq_budget req) (kq_policy_context req) (kq_reducer_input req) memory)
                                (kq_input_packets req);
  run ← audit_output run (rr_output_packets reducer_result);
  let output_usage := usage_for_packets estimate_json_bytes (rr_output_packets reducer_result) in
  let total := total_usage input_usage output_usage (ck_elapsed_ms clock) in
  enforce_budget target TotalStage (kq_budget req) total ;;
  let metadata :=
    merge_json (merge_json (JObject shared) (rr_metadata reducer_result))
      (match cache_lookup with
       | Some lookup => cache_metadata false (lk_cache_key lookup) None (Some "not_found"%string)
       | None => cache_metadata false "" None (Some "disabled"%string)
       end) in
  let response := respond request_id target req (rr_output_packets reducer_result) input_usage output_usage total run in
  Ok (match cache_lookup with
      | Some lookup =>
          let memory := commit_cache_update target lookup (packet_to_cache <$> rr_output_packets reducer_result) metadata (ck_commit_unix clock) memory in
          (response (with_evictions (evictions_json (st_evictions (stats memory))) metadata), memory)
      | None => (response metadata, memory)
      end).

Definition execute_with_hooks (clock : Clock) (req : KernelRequest) (st : KernelState) : result ExecuteError KernelResponse * KernelState :=
  let target := trim (kq_target req) in
  if bool_decide (target = EmptyString) then (Err EmptyTarget, st)
  else
    match reducers !! target with
    | None => (Err (UnknownTarget target reducer_names), st)
    | Some reducer =>
        let request_id := km_next_request_id st in
        let st := mkKernelState (km_memory st) (wrapping_add u64_max request_id 1) in
        match (run ← begin target req;
               enforce_budget target InputStage (kq_budget req) (usage_for_packets estimate_json_bytes (kq_input_packets req)) ;;
               Ok run) with
        | Err e => (Err e, st)
        | Ok run =>
            let cache_lookup :=
              if cache_enabled run then Some (lookup_with_hooks select_reuse_base (km_memory st) target (cache_input run)) else None in
            match (lookup ← cache_lookup; entry ← lk_entry lookup; Some (lookup, entry)) with
            | Some (lookup, entry) => (answer_hit request_id target req run clock (lk_cache_key lookup) entry, st)
            | None =>
                match answer_miss request_id target req reducer run clock cache_lookup (km_memory st) with
                | Err e => (Err e, st)
                | Ok (response, memory) => (Ok response, mkKernelState memory (km_next_request_id st))
                end
            end
        end
    end.
End Execute.
