(* ===== verification/Governance.v ===== *)
(** * Governance: the built-in execution policy

    Models [src/crates/context-kernel-builtins/src/governance_runtime.rs]: a
    request that names a policy file has its reducer matched against the
    allowlist and its input and output packets audited.  Reading a packet as
    a guard packet and the hash of JSON are parameters; so are the two
    functions about instruction requests, which are modelled nowhere. *)

From S2P Require Export Execute Guard.
Local Open Scope Z_scope.

Record PolicyGuard : Type := mkPolicyGuard { pg_config : ContextConfig; pg_config_path : string; pg_policy_hash : string }.

(** The state of [BuiltinExecutionPolicyRun]. *)
Record PolicyRun : Type := mkPolicyRun {
  pr_target : string;
  pr_cache_enabled : bool;
  pr_cache_input : Json;
  pr_policy_guard : option PolicyGuard;
  pr_governance : GovernanceAudit
}.

Class GovernanceEnv : Type := {
  glob_new : string → result string (string → bool);
  regex_new : string → result string (string → bool);
  yaml_from_str : string → result string ContextConfig;
  read_file : string → option string;
  config_value : ContextConfig → Json;             (* [serde_json::to_value] *)
  canonical_hash_json : Json → string;
  from_value : Json → result string GuardPacket;   (* [serde_json::from_value] *)
  instruction_stable_cache_input : Json → option Json;
  instruction_request_cacheable : Json → bool
}.

Section Governance.
Context `{!GovernanceEnv}.

Definition error_of (pattern_new : string → result string (string → bool)) (pattern : string) : option string :=
  match pattern_new pattern with Ok _ => None | Err e => Some e end.

(** ** The policy of a request *)

(** Arrays of texts count as sets. *)
Fixpoint normalize_semantic_set_arrays (value : Json) : Json :=
  match value with
  | JArray items =>
      let items := (λ item, normalize_semantic_set_arrays item) <$> items in
      if forallb (λ item, bool_decide (is_Some (json_as_str item))) items
      then JArray (JString <$> btree_strings (list_to_set (omap (λ item, non_empty (json_as_str item)) items)))
      else JArray items
  | JObject fields => JObject ((λ '(key, item), (key, normalize_semantic_set_arrays item)) <$> fields)
  | value => value
  end.
Definition policy_config_hash (config : ContextConfig) : string := canonical_hash_json (normalize_semantic_set_arrays (config_value config)).

Definition config_error_text (e : ConfigError) : string := match e with ConfigIo => "failed to read" | InvalidConfig message => message end.

Definition load_policy_guard (policy_context : Json) : result ExecuteError (option PolicyGuard) :=
  match non_empty (json_get "config_path" policy_context ≫= json_as_str) with
  | None => Ok None
  | Some config_path =>
      match load_config (error_of glob_new) (error_of regex_new) yaml_from_str read_file config_path with
      | Err source => Err (InvalidExecution ("invalid policy_context.config_path: " +:+ config_error_text source))
      | Ok config => Ok (Some (mkPolicyGuard config config_path (policy_config_hash config)))
      end
  end.

Definition should_enforce_policy_for_target (target : string) : bool := negb (bool_decide (target = "guardy.check"%string)).

Definition enforce_reducer_execution_policy (target : string) (config : ContextConfig) : result ExecuteError ReducerExecutionAudit :=
  let allowlist := effective_allowed_reducers (policy config) in
  if bool_decide (allowlist = []) then Ok (mkReducerAudit target true None)
  else
    match match_reducer_allowlist target allowlist with
    | Some matched_by => Ok (mkReducerAudit target true (Some matched_by))
    | None =>
        Err (PolicyViolation target ("reducer execution '" +:+ target +:+ "' is not allowed by policy; allowed reducers: " +:+
               String.concat ", " allowlist))
    end.

(** ** Packets *)

Definition json_is_object (v : Json) : bool := match v with JObject _ => true | _ => false end.
Definition get_object (value : Json) (key : string) : option Json :=
  candidate ← json_get key value; if json_is_object candidate then Some candidate else None.
Definition extract_guard_candidate (value : Json) : Json :=
  if negb (json_is_object value) then value
  else default value (find_map (get_object value) ["packet"; "envelope_v1"; "final_packet"]%string).

(** [GuardPacket { payload, ..default() }]. *)
Definition payload_packet (payload : Json) : GuardPacket :=
  mkGuardPacket None None None None [] None [] [] None None None payload [] [] [] [] [] [].

Definition tool_calls_of (v : Json) : option Json := json_get "budget_cost" v ≫= json_get "tool_calls".
Definition listed_paths (candidate : Json) : list string :=
  match json_get "paths" candidate ≫= json_as_array with Some paths => omap json_as_str paths | None => [] end.
Definition file_paths (candidate : Json) : list string :=
  match json_get "files" candidate ≫= json_as_array with
  | Some files => omap (λ file, json_get "path" file ≫= json_as_str) files
  | None => []
  end.

(** The fields that the guard packet lacks are taken from the kernel packet. *)
Definition complete_guard_packet (packet : KernelPacket) (candidate : Json) (g : GuardPacket) : GuardPacket :=
  let paths := match gp_paths g with [] => listed_paths candidate | paths => paths end in
  let paths := match paths with [] => file_paths candidate | paths => paths end in
  mkGuardPacket (or_else (gp_packet_id g) (kp_packet_id packet)) (gp_summary g) (gp_provenance g)
    (or_else (gp_tool g) ((or_else (json_get "tool" (kp_body packet)) (json_get "tool" candidate)) ≫= json_as_str)) (gp_tools g)
    (or_else (gp_reducer g) (json_get "reducer" (kp_metadata packet) ≫= json_as_str)) (gp_reducers g) paths
    (or_else (gp_token_usage g) (kp_token_usage packet)) (or_else (gp_runtime_ms g) (kp_runtime_ms packet))
    (or_else (gp_tool_call_count g) ((or_else (tool_calls_of (kp_body packet)) (tool_calls_of candidate)) ≫= json_as_u64))
    (match gp_payload g with JNull => default candidate (json_get "payload" candidate) | payload => payload end)
    (gp_files g) (gp_symbols g) (gp_tool_invocations g) (gp_reducer_invocations g) (gp_text_blobs g) (gp_serialized g).

Definition kernel_packet_to_guard_packet (packet : KernelPacket) : result ExecuteError GuardPacket :=
  let candidate := extract_guard_candidate (kp_body packet) in
  guard_packet ←
    (if json_is_object candidate then
       match from_value candidate with
       | Ok g => Ok g
       | Err source => Err (InvalidExecution ("packet is not guard-compatible JSON: " +:+ source))
       end
     else Ok (payload_packet candidate));
  Ok (complete_guard_packet packet candidate guard_packet).

Fixpoint audit_packets_against_policy (config : ContextConfig) (packets : list KernelPacket) : result ExecuteError (list AuditResult) :=
  match packets with
  | [] => Ok []
  | packet :: packets =>
      guard_packet ← kernel_packet_to_guard_packet packet;
      let audit := check_packet glob_new regex_new config guard_packet in
      audits ← audit_packets_against_policy config packets;
      Ok (audit :: audits)
  end.

Definition finding_text (f : AuditFinding) : string := rule f +:+ ":" +:+ subject f +:+ " (" +:+ message f +:+ ")".
Definition violation_text (idx : nat) (audit : AuditResult) : option string :=
  if passed audit then None
  else Some ("packet#" +:+ show_nat (idx + 1) +:+ " [" +:+ String.concat ", " (finding_text <$> take 3 (findings audit)) +:+ "]").
Definition ensure_policy_audits_pass (target stage : string) (audits : list AuditResult) : result ExecuteError () :=
  let violations := omap id (imap violation_text audits) in
  ensure (bool_decide (violations = []))
    (PolicyViolation target ("policy audit failed during " +:+ stage +:+ ": " +:+ String.concat "; " violations)).

(** ** The identity of a request in the cache *)

Definition cache_policy_context_overrides (policy_context : Json) : Json :=
  match policy_context with
  | JObject fields => JObject (filter (λ kv : string * Json, kv.1 ≠ "config_path"%string) fields)
  | value => value
  end.
Definition cache_input_for_request (req : KernelRequest) (target : string) (policy_guard : option PolicyGuard) : Json :=
  if bool_decide (target = "packet28.instruction.summarize"%string) then
    JObject [("instruction", default (kq_reducer_input req) (instruction_stable_cache_input (kq_reducer_input req))); ("target", JString target)]
  else
    JObject [
      ("budget", budget_json (kq_budget req));
      ("governance", JObject [("context_overrides", cache_policy_context_overrides (kq_policy_context req));
                              ("enabled", JBool (bool_decide (is_Some policy_guard)));
                              ("policy_hash", json_opt_str (pg_policy_hash <$> policy_guard))]);
      ("input_packets", JArray (packet_json <$> kq_input_packets req));
      ("reducer_input", kq_reducer_input req);
      ("target", JString target)].
Definition cache_enabled_for_request (target : string) (policy_context reducer_input : Json) : bool :=
  if default false (json_get "disable_cache" policy_context ≫= json_as_bool) then false
  else if bool_decide (target = "packet28.instruction.summarize"%string) then instruction_request_cacheable reducer_input
  else negb (bool_decide (target = "agenty.state.snapshot"%string)).

(** ** The policy of the kernel *)

Definition builtin_begin (target : string) (request : KernelRequest) : result ExecuteError PolicyRun :=
  policy_guard ← load_policy_guard (kq_policy_context request);
  let enabled := bool_decide (is_Some policy_guard) in
  let config_path := pg_config_path <$> policy_guard in
  governance ←
    match policy_guard with
    | Some guard =>
        if should_enforce_policy_for_target target then
          reducer_execution ← enforce_reducer_execution_policy target (pg_config guard);
          input_audits ← audit_packets_against_policy (pg_config guard) (kq_input_packets request);
          ensure_policy_audits_pass target "input" input_audits ;;
          Ok (mkGovernance enabled config_path (Some reducer_execution) input_audits [])
        else Ok (mkGovernance enabled config_path None [] [])
    | None => Ok (mkGovernance enabled config_path None [] [])
    end;
  Ok (mkPolicyRun target (cache_enabled_for_request target (kq_policy_context request) (kq_reducer_input request))
        (cache_input_for_request request target policy_guard) policy_guard governance).

Definition builtin_audit_output (run : PolicyRun) (packets : list KernelPacket) : result ExecuteError PolicyRun :=
  match pr_policy_guard run with
  | None => Ok run
  | Some guard =>
      if negb (should_enforce_policy_for_target (pr_target run)) then Ok run
      else
        output_audits ← audit_packets_against_policy (pg_config guard) packets;
        ensure_policy_audits_pass (pr_target run) "output" output_audits ;;
        let g := pr_governance run in
        Ok (mkPolicyRun (pr_target run) (pr_cache_enabled run) (pr_cache_input run) (pr_policy_guard run)
              (mkGovernance (gv_enabled g) (gv_config_path g) (gv_reducer_execution g) (gv_input_audits g) output_audits))
  end.

#[export] Instance BuiltinExecutionPolicy : ExecutionPolicy PolicyRun := {|
  begin := builtin_begin;
  cache_enabled := pr_cache_enabled;
  cache_input := pr_cache_input;
  audit_output := builtin_audit_output;
  governance_audit := pr_governance
|}.
End Governance.
