(* ===== verification/ExecuteSpec.v ===== *)
(** * ExecuteSpec: what the cache of the kernel answers

    A request that has been answered once is answered again from the cache,
    after any requests in between, with the packets of its first answer, as
    long as its entry does not expire.  The policy is any implementation of
    [ExecutionPolicy] that does not look at the format of a packet. *)

From S2P Require Import GuardSpec.
From S2P Require Export Execute.
From S2P Require Export MemoryCacheSpec.
Local Open Scope Z_scope.

(** ** The store of the cache *)

Section Store.
Context `{!CacheEnv}.
Implicit Types (c : PacketCache) (e : PacketCacheEntry).

(** The latest request index serves every entry, by its request. *)
Record served c : Prop := {
  sv_keys : map_Forall (λ k e, pe_cache_key e = k) (entries_by_hash c);
  sv_canonical : canonical c;
  sv_latest : latest_ok c
}.

Lemma served_new root : served (new_cache root).
Proof. split; [apply map_Forall_empty|apply map_Forall_empty|]. unfold latest_ok. simpl. by rewrite fmap_empty. Qed.

Lemma served_get c target input : served c →
  get_by_request c target (compute_input_hash target input) = entries_by_hash c !! request_of target input.
Proof.
  intros [Hk _ Hl]. unfold get_by_request, get. rewrite Hl, lookup_fmap. unfold request_of.
  destruct (entries_by_hash c !! _) as [e|] eqn:E; [|done]. simpl. by rewrite (Hk _ _ E).
Qed.

Lemma insert_entry_store c e :
  entries_by_hash (insert_entry c e) = <[pe_cache_key e := e]> (entries_by_hash c) ∧
  latest_request_index (insert_entry c e) = <[request_hash_of e := pe_cache_key e]> (latest_request_index c).
Proof.
  assert (Hf : same_store c (forget_index c (pe_cache_key e))).
  { unfold forget_index. destruct (entries_by_hash c !! _); [apply remove_index_store|done]. }
  destruct Hf as (He & Hl & _). unfold insert_entry, index_entry. cbn. by rewrite He, Hl.
Qed.
Lemma served_insert c e : served c → pe_cache_key e = request_hash_of e → served (insert_entry c e).
Proof.
  intros [Hk Hc Hl] Hkey. destruct (insert_entry_store c e) as [He Hl']. split.
  - rewrite He. by apply map_Forall_insert_2.
  - unfold canonical. rewrite He, Hkey. by apply map_Forall_insert_2.
  - unfold latest_ok. by rewrite Hl', He, fmap_insert, Hl, Hkey.
Qed.

Lemma remove_entries_store ks c :
  entries_by_hash (foldl remove_entry c ks) = filter (λ kv : string * PacketCacheEntry, kv.1 ∉ ks) (entries_by_hash c).
Proof.
  revert c. induction ks as [|k ks IH]; intros c; simpl.
  - symmetry. apply map_filter_id. intros. by apply not_elem_of_nil.
  - rewrite IH. destruct (remove_entry_store c k) as (-> & _). apply map_eq. intros k'. apply option_eq. intros e.
    rewrite !map_lookup_filter_Some, lookup_delete_Some. simpl. set_solver.
Qed.
Lemma evict_store ttl now c : served c →
  served (evict_expired_entries_at ttl now c).1 ∧
  entries_by_hash (evict_expired_entries_at ttl now c).1 = kept (expired_at ttl now) (entries_by_hash c).
Proof.
  intros Hs. pose proof (remove_entries_store (keys_where (expired_at ttl now) c) c) as He. rewrite filter_keys_where in He.
  rewrite evict_is_remove. unfold remove_where. destruct (keys_where _ c) as [|k ks] eqn:E; cbn [fst].
  { simpl in He. by rewrite <- He. }
  set (c1 := foldl remove_entry c (k :: ks)) in *. split; [|exact He]. destruct Hs as [Hk Hc _].
  assert (Hk1 : map_Forall (λ k e, pe_cache_key e = k) (entries_by_hash c1)).
  { rewrite He. intros k' e [Hin _]%map_lookup_filter_Some. by apply Hk. }
  assert (Hc1 : canonical c1) by (unfold canonical; rewrite He; intros k' e [Hin _]%map_lookup_filter_Some; by apply Hc).
  split; [done|done|]. by apply (rebuild_latest_ok c1).
Qed.
End Store.

(** ** Requests *)

(** A packet as it comes back from the cache. *)
Definition as_cached (packet : KernelPacket) : KernelPacket := packet_of_cache (packet_to_cache packet).

(** What a policy promises to the cache: the format of a packet, which the
    cache does not keep, has no part in the audit. *)
Class FormatBlind (Run : Type) `{!ExecutionPolicy Run} : Prop :=
  audit_as_cached (run : Run) (packets : list KernelPacket) : audit_output run (as_cached <$> packets) = audit_output run packets.
#[export] Instance default_blind : FormatBlind DefaultExecutionPolicyRun.
Proof. done. Qed.

Section Execution.
Context `{!CacheEnv} {Run : Type} `{!ExecutionPolicy Run}.
Context (estimate_json_bytes : Json → Z) (reducers : gmap string Reducer).
Context (select_reuse_base : string → string → PacketCache → option string) (persist_ttl_secs : option Z).
Local Abbreviation usage := (usage_for_packets estimate_json_bytes).
Local Abbreviation execute := (execute_with_hooks estimate_json_bytes reducers select_reuse_base persist_ttl_secs).

Lemma check_budget_Ok target stage metric cap used : check_budget target stage metric cap used = Ok () ↔ within_cap cap used.
Proof. unfold check_budget, within_cap. destruct cap; [|done]. by rewrite ensure_Ok_inv, Z.leb_le. Qed.
Lemma enforce_budget_Ok target stage budget u : enforce_budget target stage budget u = Ok () ↔
  within_cap (eb_token_cap budget) (tokens u) ∧ within_cap (eb_byte_cap budget) (bytes u) ∧ within_cap (eb_runtime_ms_cap budget) (runtime_ms u).
Proof.
  unfold enforce_budget. rewrite !bind_Ok_inv. setoid_rewrite bind_Ok_inv. split.
  - intros ([] & Ht & [] & Hb & Hr). by rewrite !check_budget_Ok in *.
  - intros (Ht & Hb & Hr). exists (). rewrite check_budget_Ok. split; [done|]. exists (). by rewrite !check_budget_Ok.
Qed.

Lemma usage_as_cached (packets : list KernelPacket) : usage (as_cached <$> packets) = usage packets.
Proof.
  unfold usage_for_packets. generalize default_estimate. induction packets as [|p packets IH]; intros u; [done|].
  rewrite fmap_cons. cbn [foldl]. by rewrite IH.
Qed.
Lemma as_cached_idemp (packets : list KernelPacket) : as_cached <$> (as_cached <$> packets) = as_cached <$> packets.
Proof. by rewrite <- list_fmap_compose. Qed.

(** What a request that succeeds has passed. *)
Record ready (req : KernelRequest) (reducer : Reducer) (run : Run) : Prop := {
  rd_target : trim (kq_target req) ≠ EmptyString;
  rd_reducer : reducers !! trim (kq_target req) = Some reducer;
  rd_begin : begin (trim (kq_target req)) req = Ok run;
  rd_input : enforce_budget (trim (kq_target req)) InputStage (kq_budget req) (usage (kq_input_packets req)) = Ok ()
}.

Definition request_key (req : KernelRequest) (run : Run) : string := request_of (trim (kq_target req)) (cache_input run).
Definition lookup_of (req : KernelRequest) (run : Run) (c : PacketCache) : CacheLookup :=
  lookup_with_hooks select_reuse_base c (trim (kq_target req)) (cache_input run).
Definition next_request (st : KernelState) : KernelState := mkKernelState (km_memory st) (wrapping_add u64_max (km_next_request_id st) 1).

Lemma lookup_of_entry req run c : served c → lk_entry (lookup_of req run c) = entries_by_hash c !! request_key req run.
Proof. intros Hc. apply (served_get c _ _ Hc). Qed.

Definition miss (clock : Clock) (req : KernelRequest) (reducer : Reducer) (run : Run) (l : option CacheLookup) (st : KernelState)
    : result ExecuteError KernelResponse * KernelState :=
  match answer_miss estimate_json_bytes persist_ttl_secs (km_next_request_id st) (trim (kq_target req)) req reducer run clock l (km_memory st) with
  | Err e => (Err e, next_request st)
  | Ok (response, memory) => (Ok response, mkKernelState memory (km_next_request_id (next_request st)))
  end.
Definition hit (clock : Clock) (req : KernelRequest) (run : Run) (l : CacheLookup) (e : PacketCacheEntry) (st : KernelState)
    : result ExecuteError KernelResponse * KernelState :=
  (answer_hit estimate_json_bytes (km_next_request_id st) (trim (kq_target req)) req run clock (lk_cache_key l) e, next_request st).

Lemma execute_ready_any clock req reducer run st : ready req reducer run →
  execute clock req st =
    if cache_enabled run then
      match lk_entry (lookup_of req run (km_memory st)) with
      | Some e => hit clock req run (lookup_of req run (km_memory st)) e st
      | None => miss clock req reducer run (Some (lookup_of req run (km_memory st))) st
      end
    else miss clock req reducer run None st.
Proof.
  intros [Ht Hr Hb Hi]. unfold execute_with_hooks. rewrite bool_decide_eq_false_2 by done. rewrite Hr, Hb. simpl. rewrite Hi. simpl.
  destruct (cache_enabled run); [|done]. simpl. by destruct (get_by_request _ _ _) as [e|].
Qed.
Lemma execute_ready clock req reducer run st : ready req reducer run → served (km_memory st) →
  execute clock req st =
    if cache_enabled run then
      match entries_by_hash (km_memory st) !! request_key req run with
      | Some e => hit clock req run (lookup_of req run (km_memory st)) e st
      | None => miss clock req reducer run (Some (lookup_of req run (km_memory st))) st
      end
    else miss clock req reducer run None st.
Proof. intros Hr Hs. by rewrite (execute_ready_any clock req reducer run st Hr), (lookup_of_entry req run _ Hs). Qed.
Lemma execute_Ok_ready clock req st response : (execute clock req st).1 = Ok response → ∃ reducer run, ready req reducer run.
Proof.
  unfold execute_with_hooks. case_bool_decide as Ht; [done|]. destruct (reducers !! _) as [reducer|] eqn:Hr; [|done].
  destruct (run ← _; _) as [run|] eqn:Hrun; [|done]. intros _. exists reducer, run.
  apply bind_Ok_inv in Hrun as (run' & Hb & Hrun). apply bind_Ok_inv in Hrun as ([] & Hi & [= ->]). by split.
Qed.

(** ** The store under a request *)

Definition alive (now : Z) (e : PacketCacheEntry) : Prop :=
  match persist_ttl_secs with Some ttl => is_expired (pe_created_at_unix e) ttl now = false | None => True end.

(** What one request may do to the store: nothing that was there and has not
    expired is lost. *)
Definition extends (now : Z) (c c' : PacketCache) : Prop :=
  served c' ∧ ∀ k e, entries_by_hash c !! k = Some e → alive now e → entries_by_hash c' !! k = Some e.

Definition committed_entry (req : KernelRequest) (run : Run) (l : CacheLookup) (packets : list CachePacket) (metadata : Json) (now : Z)
    : PacketCacheEntry :=
  set_created_at (prepare_entry_at (trim (kq_target req)) l packets metadata 0) now.

Lemma commit_extends req run c packets metadata now (Hs : served c) (Hnone : entries_by_hash c !! request_key req run = None) :
  let e := committed_entry req run (lookup_of req run c) packets metadata now in
  let c' := commit_cache_update persist_ttl_secs (trim (kq_target req)) (lookup_of req run c) packets metadata now c in
  extends now c c' ∧ (alive now e → entries_by_hash c' !! request_key req run = Some e).
Proof.
  intros e c'. assert (Hkey : pe_cache_key e = request_key req run) by done.
  assert (Hs1 : served (insert_entry c e)) by (by apply served_insert). destruct (insert_entry_store c e) as [He _]. rewrite Hkey in He.
  assert (Hold : ∀ k e', entries_by_hash c !! k = Some e' → entries_by_hash (insert_entry c e) !! k = Some e').
  { intros k e' H1. rewrite He, lookup_insert_ne; [done|]. intros <-. congruence. }
  assert (Hc' : c' = match persist_ttl_secs with
                     | Some ttl => (evict_expired_entries_at ttl now (insert_entry c e)).1 | None => insert_entry c e end) by done.
  rewrite Hc'. unfold extends, alive. destruct persist_ttl_secs as [ttl|].
  - destruct (evict_store ttl now _ Hs1) as [Hs2 He2]. rewrite He2. split; [split; [done|]|]; [intros k e' H1 H2|intros H2];
      apply map_lookup_filter_Some; (split; [|exact H2]); [by apply Hold|]. by rewrite He, lookup_insert_eq.
  - split; [split; [done|]|]; [intros k e' H1 _; by apply Hold|intros _]. by rewrite He, lookup_insert_eq.
Qed.

Lemma execute_extends clock req st : served (km_memory st) →
  extends (ck_commit_unix clock) (km_memory st) (km_memory (execute clock req st).2).
Proof.
  intros Hs. assert (Hsame : extends (ck_commit_unix clock) (km_memory st) (km_memory st)) by (by split).
  destruct (execute clock req st) as [[response|e] st'] eqn:E.
  - destruct (execute_Ok_ready clock req st response) as (reducer & run & Hr); [by rewrite E|]. rewrite <- E.
    rewrite (execute_ready clock req reducer run st Hr Hs). clear E.
    destruct (cache_enabled run); [destruct (_ !! request_key req run) as [e|] eqn:Hk; [done|]|].
    + unfold miss, answer_miss. destruct (_ ≫= _) as [[r memory]|e] eqn:E; [|done].
      apply bind_Ok_inv in E as ([result shared] & _ & E). apply bind_Ok_inv in E as (run' & _ & E).
      apply bind_Ok_inv in E as ([] & _ & [= <- <-]). by apply commit_extends.
    + unfold miss, answer_miss. destruct (_ ≫= _) as [[r memory]|e] eqn:E; [|done].
      apply bind_Ok_inv in E as ([result shared] & _ & E). apply bind_Ok_inv in E as (run' & _ & E).
      by apply bind_Ok_inv in E as ([] & _ & [= <- <-]).
  - revert E. unfold execute_with_hooks. case_bool_decide; [by intros [= <- <-]|]. destruct (reducers !! _); [|by intros [= <- <-]].
    destruct (run ← _; _) as [run|]; [|by intros [= <- <-]]. destruct (l ← _; _) as [[l e']|]; [by intros [= _ <-]|].
    destruct (answer_miss _ _ _ _ _ _ _ _ _ _) as [[resp0 m]|]; [done|]. by intros [= <- <-].
Qed.

(** Requests one after the other. *)
Definition run_requests (st : KernelState) (l : list (Clock * KernelRequest)) : KernelState := foldl (λ st cr, (execute cr.1 cr.2 st).2) st l.

Lemma run_extends st l k e : served (km_memory st) → entries_by_hash (km_memory st) !! k = Some e →
  Forall (λ cr : Clock * KernelRequest, alive (ck_commit_unix cr.1) e) l →
  served (km_memory (run_requests st l)) ∧ entries_by_hash (km_memory (run_requests st l)) !! k = Some e.
Proof.
  intros Hs He Hl. revert st Hs He. induction Hl as [|[clock req] l Ha _ IH]; intros st Hs He; [done|].
  destruct (execute_extends clock req st Hs) as [Hs' Hk]. apply IH; [done|]. by apply Hk.
Qed.

(** ** The second answer *)

Definition cached_runtime (req : KernelRequest) (packets : list KernelPacket) : Z :=
  saturating_add u64_max (runtime_ms (usage (kq_input_packets req))) (runtime_ms (usage packets)).
Definition total_of_packets (req : KernelRequest) (packets : list KernelPacket) (runtime : Z) : StepEstimate :=
  total_usage (usage (kq_input_packets req)) (usage packets) runtime.

(** An entry that answers a request with given packets. *)
Record answers (req : KernelRequest) (run : Run) (packets : list KernelPacket) (e : PacketCacheEntry) : Prop := {
  an_packets : packet_of_cache <$> pe_packets e = as_cached <$> packets;
  an_audit : is_ok (audit_output run (as_cached <$> packets)) = true;
  an_tokens : within_cap (eb_token_cap (kq_budget req)) (tokens (total_of_packets req packets 0));
  an_bytes : within_cap (eb_byte_cap (kq_budget req)) (bytes (total_of_packets req packets 0))
}.

Lemma total_packets_within req packets runtime stage :
  enforce_budget (trim (kq_target req)) stage (kq_budget req) (total_of_packets req packets runtime) = Ok () →
  within_cap (eb_token_cap (kq_budget req)) (tokens (total_of_packets req packets 0)) ∧
  within_cap (eb_byte_cap (kq_budget req)) (bytes (total_of_packets req packets 0)).
Proof. intros (Ht & Hb & _)%enforce_budget_Ok. done. Qed.

(** Every answer, from the cache or not, has been audited and is within the
    budget. *)
Lemma executed_audited clock req reducer run st response : ready req reducer run → (execute clock req st).1 = Ok response →
  is_ok (audit_output run (kr_output_packets response)) = true ∧
  within_cap (eb_token_cap (kq_budget req)) (tokens (total_of_packets req (kr_output_packets response) 0)) ∧
  within_cap (eb_byte_cap (kq_budget req)) (bytes (total_of_packets req (kr_output_packets response) 0)).
Proof.
  assert (Hmiss : ∀ l, (miss clock req reducer run l st).1 = Ok response → is_ok (audit_output run (kr_output_packets response)) = true ∧
    ∃ runtime, enforce_budget (trim (kq_target req)) TotalStage (kq_budget req)
      (total_of_packets req (kr_output_packets response) runtime) = Ok ()).
  { intros l. unfold miss, answer_miss. destruct (_ ≫= _) as [[r0 memory]|err] eqn:E; [|done]. cbn [fst]. intros [= ->].
    apply bind_Ok_inv in E as ([result shared] & _ & E). apply bind_Ok_inv in E as (run' & Ha & E).
    apply bind_Ok_inv in E as ([] & Hw & [= H1]).
    assert (Hp : kr_output_packets response = rr_output_packets result) by (destruct l; by inversion H1). rewrite Hp, Ha.
    split; [done|by eexists]. }
  assert (Hhit : ∀ l e, (hit clock req run l e st).1 = Ok response → is_ok (audit_output run (kr_output_packets response)) = true ∧
    ∃ runtime, enforce_budget (trim (kq_target req)) TotalStage (kq_budget req)
      (total_of_packets req (kr_output_packets response) runtime) = Ok ()).
  { intros l e. unfold hit, answer_hit. cbn [fst]. intros (run' & Ha & H1)%bind_Ok_inv. apply bind_Ok_inv in H1 as ([] & Hw & [= <-]).
    cbn [kr_output_packets respond]. rewrite Ha. split; [done|by eexists]. }
  intros Hr. rewrite (execute_ready_any clock req reducer run st Hr). intros Hex.
  assert (Hboth : is_ok (audit_output run (kr_output_packets response)) = true ∧
    ∃ runtime, enforce_budget (trim (kq_target req)) TotalStage (kq_budget req)
      (total_of_packets req (kr_output_packets response) runtime) = Ok ()).
  { destruct (cache_enabled run); [destruct (lk_entry _)|]; eauto. }
  destruct Hboth as [Ha (runtime & Hw)]. split; [done|]. by eapply total_packets_within.
Qed.

(** A failure leaves the cache alone. *)
Lemma execute_Err_memory clock req st e : (execute clock req st).1 = Err e → km_memory (execute clock req st).2 = km_memory st.
Proof.
  unfold execute_with_hooks. case_bool_decide; [done|]. destruct (reducers !! _); [|done].
  destruct (run ← _; _) as [run|]; [|done]. destruct (l ← _; _) as [[l e']|]; [done|].
  by destruct (answer_miss _ _ _ _ _ _ _ _ _ _) as [[resp0 m]|].
Qed.

Lemma hit_answers clock req run packets l e st : answers req run packets e →
  (within_cap (eb_runtime_ms_cap (kq_budget req)) (cached_runtime req packets) →
     ∃ response, (hit clock req run l e st).1 = Ok response ∧ kr_output_packets response = as_cached <$> packets) ∧
  (¬ within_cap (eb_runtime_ms_cap (kq_budget req)) (cached_runtime req packets) →
     is_ok (hit clock req run l e st).1 = false).
Proof.
  intros [Hp Ha Ht Hb]. unfold hit, answer_hit. cbn [fst]. rewrite Hp. destruct (audit_output run _) as [run'|]; [|done].
  rewrite result_bind_ok, usage_as_cached. fold (cached_runtime req packets).
  destruct (enforce_budget _ _ _ _) as [[]|err] eqn:E.
  - split; [intros _; by eexists|]. intros Hn. by apply enforce_budget_Ok in E as (_ & _ & ?).
  - split; [|done]. intros Hw. exfalso.
    assert (Hok : enforce_budget (trim (kq_target req)) TotalStage (kq_budget req)
              (total_of_packets req packets (cached_runtime req packets)) = Ok ()) by by apply enforce_budget_Ok.
    unfold total_of_packets in Hok. congruence.
Qed.

Context `{!FormatBlind Run}.
Hypothesis (Httl : match persist_ttl_secs with Some ttl => 0 <= ttl | None => True end).

Lemma committed_alive req run l packets metadata now : alive now (committed_entry req run l packets metadata now).
Proof.
  unfold alive, is_expired. destruct persist_ttl_secs as [ttl|]; [|done]. destruct (ttl =? 0) eqn:E; [done|].
  apply Z.ltb_ge. unfold saturating_sub. cbn. lia.
Qed.

Lemma hit_leaves clock req run l e st response : (hit clock req run l e st).1 = Ok response →
  answers req run (kr_output_packets response) e.
Proof.
  unfold hit, answer_hit. cbn [fst]. intros (run' & Ha & H1)%bind_Ok_inv. apply bind_Ok_inv in H1 as ([] & Hw & [= <-]).
  cbn [kr_output_packets respond]. set (packets := packet_of_cache <$> pe_packets e) in *.
  assert (Hsame : as_cached <$> packets = packets) by (unfold packets; by rewrite <- list_fmap_compose).
  apply (total_packets_within req packets) in Hw as [Ht Hb]. split; [by rewrite Hsame|by rewrite Hsame, Ha|done|done].
Qed.
Lemma miss_leaves clock req reducer run st response : served (km_memory st) → entries_by_hash (km_memory st) !! request_key req run = None →
  (miss clock req reducer run (Some (lookup_of req run (km_memory st))) st).1 = Ok response →
  ∃ e, entries_by_hash (km_memory (miss clock req reducer run (Some (lookup_of req run (km_memory st))) st).2) !! request_key req run = Some e ∧
    answers req run (kr_output_packets response) e.
Proof.
  intros Hs Hnone. unfold miss, answer_miss. destruct (_ ≫= _) as [[r0 memory]|err] eqn:E; [|done]. cbn [fst snd km_memory]. intros [= ->].
  apply bind_Ok_inv in E as ([result shared] & _ & E). apply bind_Ok_inv in E as (run' & Ha & E).
  apply bind_Ok_inv in E as ([] & Hw & [= <- <-]). cbn [kr_output_packets respond].
  apply (total_packets_within req (rr_output_packets result)) in Hw as [Ht Hb].
  edestruct commit_extends as [_ Hnew]; [exact Hs|exact Hnone|]. eexists. split; [by apply Hnew, committed_alive|].
  split; [|by rewrite audit_as_cached, Ha|done|done]. cbn. by rewrite <- list_fmap_compose.
Qed.

Lemma executed_leaves clock req reducer run st response : ready req reducer run → served (km_memory st) → cache_enabled run = true →
  (execute clock req st).1 = Ok response →
  ∃ e, entries_by_hash (km_memory (execute clock req st).2) !! request_key req run = Some e ∧ answers req run (kr_output_packets response) e.
Proof.
  intros Hr Hs Hon. rewrite (execute_ready clock req reducer run st Hr Hs), Hon.
  destruct (_ !! request_key req run) as [e|] eqn:Hk; [|by apply miss_leaves].
  intros Hhit. exists e. split; [done|]. by eapply hit_leaves.
Qed.

Lemma run_served st l : served (km_memory st) → served (km_memory (run_requests st l)).
Proof.
  revert st. induction l as [|[clock req] l IH]; intros st Hs; [done|]. apply IH. by destruct (execute_extends clock req st Hs).
Qed.

Lemma executed_again clock req run st response : served (km_memory st) → begin (trim (kq_target req)) req = Ok run → cache_enabled run = true →
  (execute clock req st).1 = Ok response →
  ∃ e, entries_by_hash (km_memory (execute clock req st).2) !! request_key req run = Some e ∧
    ∀ later clock', Forall (λ cr : Clock * KernelRequest, alive (ck_commit_unix cr.1) e) later →
      let st' := run_requests (execute clock req st).2 later in
      km_memory (execute clock' req st').2 = km_memory st' ∧
      (within_cap (eb_runtime_ms_cap (kq_budget req)) (cached_runtime req (kr_output_packets response)) →
         ∃ response', (execute clock' req st').1 = Ok response' ∧ kr_output_packets response' = as_cached <$> kr_output_packets response) ∧
      (¬ within_cap (eb_runtime_ms_cap (kq_budget req)) (cached_runtime req (kr_output_packets response)) →
         is_ok (execute clock' req st').1 = false).
Proof.
  intros Hs Hb Hon Hok. destruct (execute_Ok_ready clock req st response Hok) as (reducer & run' & Hr).
  assert (run' = run) as -> by (pose proof (rd_begin _ _ _ Hr); congruence).
  destruct (executed_leaves clock req reducer run st response Hr Hs Hon Hok) as (e & He & Hans). exists e. split; [done|].
  intros later clock' Hl st'. destruct (execute_extends clock req st Hs) as [Hs1 _].
  destruct (run_extends _ later _ e Hs1 He Hl) as [Hs2 He2]. fold st' in Hs2, He2.
  rewrite (execute_ready clock' req reducer run st' Hr Hs2), Hon, He2. split; [done|]. by apply hit_answers.
Qed.
End Execution.
