(* ===== verification/GovernSpec.v ===== *)
(** * GovernSpec: what the governance of the kernel guarantees

    The audit passes exactly the packets that satisfy the policy, a policy
    loads exactly when it is well formed, and a governed request is answered,
    by its reducer or from the cache, with packets that satisfy it. *)

From S2P Require Export Governance ExecuteSpec GuardSpec.
From S2P Require Import MemoryExample.
Local Open Scope Z_scope.

(** ** A governed kernel, for the witnesses *)

Definition demo_policy : PolicyConfig := mkPolicyConfig ["cargo"] ["agent.read"] [] [] [] ["secret"] (Some 100) None None None None ["token"] [].
Definition demo_config : ContextConfig := mkContextConfig 1 demo_policy.
Definition demo_pattern (pattern : string) : result string (string → bool) := Ok (String.eqb pattern).
#[local] Instance demo_governance : GovernanceEnv := {|
  glob_new := demo_pattern;
  regex_new := demo_pattern;
  yaml_from_str := λ _, Ok demo_config;
  read_file := λ _, Some EmptyString;
  config_value := λ _, JNull;
  canonical_hash_json := λ _, "hash"%string;
  from_value := λ v, Ok (payload_packet v);
  instruction_stable_cache_input := Some;
  instruction_request_cacheable := λ _, true
|}.
Definition demo_packet : KernelPacket := mkKernelPacket None "text" (JString "hello") (Some 7) (Some 3) JNull.
Definition demo_reducer : Reducer := λ _ _, Ok (mkReducerResult [demo_packet] JNull, []).
Definition demo_reducers : gmap string Reducer := {["agent.read" := demo_reducer]}.
Definition demo_context : Json := JObject [("config_path", JString "policy.yaml")].
Definition demo_request : KernelRequest := mkKernelRequest "agent.read " [demo_packet] (mkExecutionBudget (Some 20) None (Some 50)) demo_context (JString "q").
Definition demo_guard : PolicyGuard := mkPolicyGuard demo_config "policy.yaml" "hash".
Definition demo_clock (now : Z) : Clock := mkClock now 2 now.
Definition demo_kernel : KernelState := mkKernelState (new_cache None) 1.
Definition demo_execute (now : Z) : KernelState → result ExecuteError KernelResponse * KernelState :=
  @execute_with_hooks example_cache PolicyRun BuiltinExecutionPolicy (λ _, 4) demo_reducers (λ _ _ _, None) (Some 10) (demo_clock now) demo_request.
Definition demo_response (now : Z) (st : KernelState) : option KernelResponse := match (demo_execute now st).1 with Ok r => Some r | Err _ => None end.

Lemma audit_passes glob_new regex_new config packet : usage_fits packet →
  passed (check_packet glob_new regex_new config packet) = true ↔ satisfies glob_new regex_new (policy config) packet.
Proof. intros Hfits. unfold check_packet. cbn [passed]. rewrite bool_decide_eq_true. by apply packet_findings_nil. Qed.
Lemma parse_exact glob_error regex_error yaml_from_str raw config :
  parse_context_strict glob_error regex_error yaml_from_str raw = Ok config ↔
  yaml_from_str raw = Ok config ∧ well_formed glob_error regex_error config.
Proof.
  unfold parse_context_strict. destruct (yaml_from_str raw) as [config'|]; [|naive_solver].
  case_bool_decide as Hv; rewrite validate_nil in Hv; simpl; naive_solver.
Qed.

(** C31: the audit passes a packet whose usages fit 64 bits exactly when it satisfies
    the policy, stated without the loops of the audit: its tools and reducers are
    listed, its paths match an include and no exclude or review pattern, its usages
    summed over all invocations are within the caps, every pattern compiles, and no text
    that the audit reads matches a forbidden pattern. Those texts are the strings in the
    values of the payload, of the serialized values and of the inputs and outputs of
    invocations, the paths, the names and sources of files and symbols, the names,
    reducers and paths of invocations, the text blobs, the summary, and the inputs and
    revisions of the provenance; the keys of objects, the packet's identifier and its
    own lists of tools and reducers are not read. *)
Theorem guard_audit_exact (glob_new regex_new : string → result string (string → bool)) (config : ContextConfig) (packet : GuardPacket)
    (Hfits : usage_fits packet) :
  passed (check_packet glob_new regex_new config packet) = true ↔ satisfies glob_new regex_new (policy config) packet.
Proof. by apply audit_passes. Qed.

Lemma guard_audit_exact_witness :
  usage_fits (payload_packet (JArray [JString "hello"])) ∧ satisfies demo_pattern demo_pattern demo_policy (payload_packet (JArray [JString "hello"])) ∧
  ¬ satisfies demo_pattern demo_pattern demo_policy (payload_packet (JArray [JString "token"])).
Proof.
  assert (Hfits : ∀ v, usage_fits (payload_packet v)).
  { intros v. split; [repeat constructor; discriminate..| |]; vm_compute; discriminate. }
  split; [apply Hfits|]. split.
  - apply (guard_audit_exact demo_pattern demo_pattern demo_config _ (Hfits _)). vm_compute. reflexivity.
  - intros H. apply (guard_audit_exact demo_pattern demo_pattern demo_config _ (Hfits _)) in H. vm_compute in H. discriminate H.
Defined.

(** C32: loading a policy gives a configuration exactly when the YAML is one and it is
    well formed: version 1, the two spellings of each list and cap agree, no name is
    blank, no cap is zero and every glob and regular expression compiles. The report on
    a text is positive for exactly the texts that load, and the other crate's copy of
    the validation reports the same errors in another order. *)
Theorem policy_validation_exact (glob_error regex_error : string → option string) (yaml_from_str : string → result string ContextConfig)
    (raw : string) (config : ContextConfig) :
  (parse_context_strict glob_error regex_error yaml_from_str raw = Ok config ↔
     yaml_from_str raw = Ok config ∧ well_formed glob_error regex_error config) ∧
  ((validate_config_str glob_error regex_error yaml_from_str raw).1 = true ↔
     is_ok (parse_context_strict glob_error regex_error yaml_from_str raw) = true) ∧
  suite_validate glob_error regex_error config ≡ₚ validate glob_error regex_error config.
Proof.
  split; [apply parse_exact|split; [|apply suite_validate_perm]]. unfold parse_context_strict, validate_config_str.
  destruct (yaml_from_str raw) as [config'|]; [|done]. by case_bool_decide.
Qed.

(** ** The built-in policy *)

Section Builtin.
Context `{!GovernanceEnv}.

Definition complies (config : ContextConfig) (packet : KernelPacket) : Prop :=
  ∃ g, kernel_packet_to_guard_packet packet = Ok g ∧ (usage_fits g → satisfies glob_new regex_new (policy config) g).

Lemma guard_packet_as_cached packet : kernel_packet_to_guard_packet (as_cached packet) = kernel_packet_to_guard_packet packet.
Proof. done. Qed.
Lemma audit_packets_as_cached config packets :
  audit_packets_against_policy config (as_cached <$> packets) = audit_packets_against_policy config packets.
Proof. induction packets as [|p packets IH]; [done|]. rewrite fmap_cons. cbn [audit_packets_against_policy]. by rewrite IH. Qed.
#[export] Instance builtin_blind : FormatBlind PolicyRun.
Proof.
  intros run packets. cbn. unfold builtin_audit_output. destruct (pr_policy_guard run); [|done]. by rewrite audit_packets_as_cached.
Qed.

Lemma audits_pass target stage audits u : ensure_policy_audits_pass target stage audits = Ok u → Forall (λ a, passed a = true) audits.
Proof.
  unfold ensure_policy_audits_pass. rewrite ensure_Ok_inv, bool_decide_eq_true, omap_nil. intros H1. apply Forall_forall. intros a [i Hi]%list_elem_of_lookup_1.
  destruct (passed a) eqn:Hp; [done|]. specialize (H1 (violation_text i a)). unfold violation_text in H1. rewrite Hp in H1.
  discriminate H1. apply elem_of_lookup_imap. exists i, a. unfold violation_text. by rewrite Hp.
Qed.
Lemma audited_complies config packets audits : audit_packets_against_policy config packets = Ok audits →
  Forall (λ a, passed a = true) audits → Forall (complies config) packets.
Proof.
  revert audits. induction packets as [|packet packets IH]; intros audits; [by constructor|]. cbn [audit_packets_against_policy].
  intros (g & Hg & H1)%bind_Ok_inv Hall. apply bind_Ok_inv in H1 as (audits' & H1 & [= <-]). apply Forall_cons in Hall as [Hp Hall].
  constructor; [|by eapply IH]. exists g. split; [done|]. intros Hfits. by apply audit_passes.
Qed.

Lemma load_guard_well_formed context guard : load_policy_guard context = Ok (Some guard) →
  well_formed (error_of glob_new) (error_of regex_new) (pg_config guard).
Proof.
  unfold load_policy_guard. destruct (non_empty _) as [path|]; [|done]. destruct (load_config _ _ _ _ _) as [config|] eqn:E; [|done].
  intros [= <-]. cbn. unfold load_config in E. apply bind_Ok_inv in E as (raw & _ & E). by apply parse_exact in E as [_ ?].
Qed.

(** A reducer that the allowlist lets through. *)
Definition reducer_allowed (target : string) (config : ContextConfig) : Prop :=
  effective_allowed_reducers (policy config) = [] ∨
  ∃ name, name ∈ candidate_list target ∧ named (Some <$> effective_allowed_reducers (policy config)) name.

Lemma reducer_allowed_exact target config :
  is_ok (enforce_reducer_execution_policy target config) = true ↔ reducer_allowed target config.
Proof.
  unfold enforce_reducer_execution_policy, reducer_allowed. set (allow := effective_allowed_reducers _). case_bool_decide as Hnil; [naive_solver|].
  unfold match_reducer_allowlist. split.
  - destruct (list_find _ _) as [[i name]|] eqn:E; [|done]. intros _. right. apply list_find_Some in E as (Hi & Hin & _). exists name. split.
    + apply list_elem_of_lookup_2 in Hi. unfold reducer_candidates in Hi. rewrite elem_of_sort_by_cmp, elem_of_elements, elem_of_list_to_set in Hi. done.
    + apply elem_of_list_to_set, list_elem_of_omap in Hin as (raw & Hraw & Hn). apply non_empty_Some in Hn as (raw' & [= <-] & ? & ?).
      exists raw. split; [by apply list_elem_of_fmap_2|done].
  - intros [?|(name & Hc & raw & Hraw & Htrim & Hne)]; [done|]. destruct (list_find _ _) as [[i found]|] eqn:E; [done|]. exfalso.
    apply list_find_None in E. rewrite Forall_forall in E. apply (E name).
    + unfold reducer_candidates. by rewrite elem_of_sort_by_cmp, elem_of_elements, elem_of_list_to_set.
    + apply elem_of_list_to_set, list_elem_of_omap. apply list_elem_of_fmap in Hraw as (raw' & [= <-] & Hin). exists raw. split; [done|].
      apply non_empty_Some. by exists raw.
Qed.

Lemma begin_governed target req (run : PolicyRun) guard : begin target req = Ok run → load_policy_guard (kq_policy_context req) = Ok (Some guard) →
  target ≠ "guardy.check"%string →
  pr_policy_guard run = Some guard ∧ pr_target run = target ∧ reducer_allowed target (pg_config guard) ∧
  Forall (complies (pg_config guard)) (kq_input_packets req).
Proof.
  cbn. unfold builtin_begin. intros Hrun Hload Ht. rewrite Hload, result_bind_ok in Hrun.
  unfold should_enforce_policy_for_target in Hrun. rewrite bool_decide_eq_false_2 in Hrun by done. cbn [negb] in Hrun.
  apply bind_Ok_inv in Hrun as (governance & Hg & [= <-]). cbn. split; [done|]. split; [done|].
  apply bind_Ok_inv in Hg as (reducer_execution & Hr & Hg). apply bind_Ok_inv in Hg as (audits & Ha & Hg).
  apply bind_Ok_inv in Hg as (u & Hpass & _). split; [apply reducer_allowed_exact; by rewrite Hr|].
  eapply audited_complies; [exact Ha|]. by eapply audits_pass.
Qed.
Lemma output_governed (run : PolicyRun) packets guard : is_ok (audit_output run packets) = true → pr_policy_guard run = Some guard →
  pr_target run ≠ "guardy.check"%string → Forall (complies (pg_config guard)) packets.
Proof.
  cbn. unfold builtin_audit_output, should_enforce_policy_for_target. intros Hok Hg Ht. rewrite Hg, bool_decide_eq_false_2 in Hok by done.
  cbn [negb] in Hok. destruct (audits ← _; _) as [run'|] eqn:E in Hok; [|done]. apply bind_Ok_inv in E as (audits & Ha & E).
  apply bind_Ok_inv in E as (u & Hpass & _). eapply audited_complies; [exact Ha|]. by eapply audits_pass.
Qed.
End Builtin.

Lemma answer_complies `{!CacheEnv, !GovernanceEnv} estimate_json_bytes reducers select_reuse_base persist_ttl_secs clock req st guard response :
  (execute_with_hooks (Run := PolicyRun) estimate_json_bytes reducers select_reuse_base persist_ttl_secs clock req st).1 = Ok response →
  load_policy_guard (kq_policy_context req) = Ok (Some guard) → trim (kq_target req) ≠ "guardy.check"%string →
  well_formed (error_of glob_new) (error_of regex_new) (pg_config guard) ∧
  reducer_allowed (trim (kq_target req)) (pg_config guard) ∧
  Forall (complies (pg_config guard)) (kq_input_packets req ++ kr_output_packets response) ∧
  let total := total_of_packets estimate_json_bytes req (kr_output_packets response) 0 in
  within_cap (eb_token_cap (kq_budget req)) (tokens total) ∧ within_cap (eb_byte_cap (kq_budget req)) (bytes total).
Proof.
  intros Hok Hload Htarget. destruct (execute_Ok_ready _ _ _ _ _ _ _ _ Hok) as (reducer & run & Hr).
  destruct (begin_governed _ _ _ guard (rd_begin _ _ _ _ _ Hr) Hload Htarget) as (Hg & Ht & Hred & Hin).
  destruct (executed_audited _ _ _ _ _ _ _ _ _ _ Hr Hok) as (Hout & Hbudget).
  split; [by apply (load_guard_well_formed (kq_policy_context req))|]. split; [done|]. split; [|done].
  apply Forall_app. split; [done|]. apply (output_governed run); [done|done|by rewrite Ht].
Qed.

(** C7: for every target but guardy.check, which the code exempts because it reports on
    a policy, governance cannot be bypassed, neither by a reducer nor by the cache. A
    request for another target whose policy file loads is answered only when the policy
    is well formed, its reducer is allowed, every packet it brings and every packet it
    gets back, computed or cached, can be audited and satisfies the policy (when its
    usages fit 64 bits), and the packets' tokens and bytes are within its budget. When
    it is refused, the cache stays as it was. *)
Theorem governed_execution_complies {CACHE : CacheEnv} {GOVERN : GovernanceEnv} (estimate_json_bytes : Json → Z)
    (reducers : gmap string Reducer) (select_reuse_base : string → string → PacketCache → option string) (persist_ttl_secs : option Z)
    (clock : Clock) (req : KernelRequest) (st : KernelState) (guard : PolicyGuard)
    (Hload : load_policy_guard (kq_policy_context req) = Ok (Some guard)) (Htarget : trim (kq_target req) ≠ "guardy.check"%string) :
  let '(answer, st') :=
    execute_with_hooks (Run := PolicyRun) estimate_json_bytes reducers select_reuse_base persist_ttl_secs clock req st in
  match answer with
  | Ok response =>
      well_formed (error_of glob_new) (error_of regex_new) (pg_config guard) ∧
      reducer_allowed (trim (kq_target req)) (pg_config guard) ∧
      Forall (complies (pg_config guard)) (kq_input_packets req ++ kr_output_packets response) ∧
      let total := total_of_packets estimate_json_bytes req (kr_output_packets response) 0 in
      within_cap (eb_token_cap (kq_budget req)) (tokens total) ∧ within_cap (eb_byte_cap (kq_budget req)) (bytes total)
  | Err _ => km_memory st' = km_memory st
  end.
Proof.
  destruct (execute_with_hooks _ _ _ _ _ _ _) as [[response|e] st'] eqn:E.
  - exact (answer_complies _ _ _ _ _ _ _ guard response (f_equal fst E) Hload Htarget).
  - pose proof (execute_Err_memory _ _ _ _ _ _ _ _ (f_equal fst E)) as Hm. by rewrite E in Hm.
Qed.

Lemma governed_execution_complies_witness :
  is_Some (demo_response 5 demo_kernel) ∧ @complies demo_governance demo_config demo_packet.
Proof.
  pose proof (@governed_execution_complies example_cache demo_governance (λ _, 4) demo_reducers (λ _ _ _, None) (Some 10) (demo_clock 5)
    demo_request demo_kernel demo_guard eq_refl ltac:(discriminate)) as H.
  fold (demo_execute 5 demo_kernel) in H. unfold demo_response.
  destruct (demo_execute 5 demo_kernel) as [[response|e] st'] eqn:E; [|vm_compute in E; discriminate E].
  split; [by eexists|]. destruct H as (_ & _ & H & _). by apply Forall_cons in H as [H _].
Defined.

(** C13: a kernel runs a cacheable request once, under any policy that does not look at
    the format of packets. After any history of requests, once a request has been
    answered its entry is in the cache, and after any further requests that do not let
    the entry expire the same request gets the same packets from the cache, in the
    format the cache gives them, and changes nothing, exactly when the runtime those
    packets claim is within its budget; otherwise it fails. *)
Theorem cached_execution_repeats {CACHE : CacheEnv} {Run : Type} {POLICY : ExecutionPolicy Run} {BLIND : FormatBlind Run} (estimate_json_bytes : Json → Z)
    (reducers : gmap string Reducer) (select_reuse_base : string → string → PacketCache → option string) (persist_ttl_secs : option Z)
    (root : option string) (past : list (Clock * KernelRequest)) (clock : Clock) (req : KernelRequest) (run : Run) (response : KernelResponse)
    (Httl : match persist_ttl_secs with Some ttl => 0 <= ttl | None => True end) :
  let execute := execute_with_hooks estimate_json_bytes reducers select_reuse_base persist_ttl_secs in
  let run_requests := run_requests estimate_json_bytes reducers select_reuse_base persist_ttl_secs in
  let st := run_requests (mkKernelState (new_cache root) 1) past in
  begin (trim (kq_target req)) req = Ok run → cache_enabled run = true → (execute clock req st).1 = Ok response →
  ∃ e, entries_by_hash (km_memory (execute clock req st).2) !! request_key req run = Some e ∧
    ∀ later clock', Forall (λ cr : Clock * KernelRequest, alive persist_ttl_secs (ck_commit_unix cr.1) e) later →
      let st' := run_requests (execute clock req st).2 later in
      let runtime := cached_runtime estimate_json_bytes req (kr_output_packets response) in
      km_memory (execute clock' req st').2 = km_memory st' ∧
      (within_cap (eb_runtime_ms_cap (kq_budget req)) runtime →
         ∃ response', (execute clock' req st').1 = Ok response' ∧ kr_output_packets response' = as_cached <$> kr_output_packets response) ∧
      (¬ within_cap (eb_runtime_ms_cap (kq_budget req)) runtime → is_ok (execute clock' req st').1 = false).
Proof.
  intros execute run_requests st Hb Hon Hok. apply executed_again; [done..| |done|done|done].
  apply run_served, served_new.
Qed.

Lemma cached_execution_repeats_witness :
  (kr_output_packets <$> demo_response 9 (demo_execute 5 demo_kernel).2) = Some [as_cached demo_packet].
Proof.
  assert (Hok : ∃ r, (demo_execute 5 demo_kernel).1 = Ok r ∧ kr_output_packets r = [demo_packet]) by (eexists; split; vm_compute; reflexivity).
  assert (Hrun : ∃ run : PolicyRun, begin (trim (kq_target demo_request)) demo_request = Ok run ∧ cache_enabled run = true)
    by (eexists; split; vm_compute; reflexivity).
  destruct Hok as (r & Hr & Hp), Hrun as (run & Hb & Hon).
  destruct (@cached_execution_repeats example_cache PolicyRun BuiltinExecutionPolicy builtin_blind (λ _, 4) demo_reducers (λ _ _ _, None) (Some 10)
    None [] (demo_clock 5) demo_request run r ltac:(vm_compute; discriminate) Hb Hon Hr) as (e & _ & He).
  destruct (He [] (demo_clock 9) (Forall_nil_2 _)) as (_ & H & _). rewrite Hp in H.
  destruct H as (r' & Hr' & Hp'); [vm_compute; discriminate|].
  unfold demo_response. change ((demo_execute 9 (demo_execute 5 demo_kernel).2).1 = Ok r') in Hr'. rewrite Hr'. exact (f_equal Some Hp').
Defined.

