(* ===== verification/Session.v ===== *)
(** * Session: step sequences run by the kernel

    Composes [Kernel] and [Execute]: the environment in which a sequence runs
    ([Kernel::execute_sequence_with_observer] of
    [src/crates/context-kernel-mechanism/src/kernel_runtime.rs]) is the kernel
    itself, whose [execute] every step calls, with the planner and observer of
    the caller.  The failures a sequence reports are those of
    [KernelError::structured] ([kernel_types.rs]). *)

From S2P Require Export Kernel Execute.
Local Open Scope Z_scope.

(** ** Errors as failures *)

Definition stage_text (stage : BudgetStage) : string := match stage with InputStage => "Input" | TotalStage => "Total" end.
Definition metric_text (metric : BudgetMetric) : string :=
  match metric with TokensMetric => "Tokens" | BytesMetric => "Bytes" | RuntimeMsMetric => "RuntimeMs" end.

(** [to_string]. *)
Definition error_text (e : ExecuteError) : string :=
  match e with
  | EmptyTarget => "kernel target cannot be empty"
  | UnknownTarget target _ => "unknown kernel target '" +:+ target +:+ "'"
  | InvalidExecution detail => "invalid request: " +:+ detail
  | BudgetExceeded _ stage metric used cap =>
      "budget exceeded for " +:+ metric_text metric +:+ " at " +:+ stage_text stage +:+ ": used " +:+ show_uint used +:+ " > cap " +:+ show_uint cap
  | ReducerFailed target detail => "reducer '" +:+ target +:+ "' failed: " +:+ detail
  | PolicyViolation target detail => "policy violation for target '" +:+ target +:+ "': " +:+ detail
  end.
Definition structured (e : ExecuteError) : KernelFailure :=
  match e with
  | EmptyTarget => mkKernelFailure "empty_target" (error_text e) None
  | UnknownTarget target _ => mkKernelFailure "unknown_target" (error_text e) (Some target)
  | InvalidExecution _ => mkKernelFailure "invalid_request" (error_text e) None
  | BudgetExceeded target _ _ _ _ => mkKernelFailure "budget_exceeded" (error_text e) (Some target)
  | ReducerFailed target _ => mkKernelFailure "reducer_failed" (error_text e) (Some target)
  | PolicyViolation target _ => mkKernelFailure "policy_violation" (error_text e) (Some target)
  end.

(** ** The services of a sequence *)

(** The planner, which sees the cache, and the observer, over their state
    [S]; [sv_clock] is the clock of the next execution. *)
Record Services (S : Type) : Type := mkServices {
  sv_clock : S → Clock * S;
  sv_plan : PlanRequest → PacketCache → S → result KernelError ReactivePlan;
  sv_should_cancel : S → bool;
  sv_step_started : nat → KernelStepRequest → S → S;
  sv_step_completed : nat → KernelStepRequest → KernelResponse → S → S;
  sv_step_failed : nat → KernelStepRequest → KernelFailure → S → S;
  sv_replan_applied : option string → Z → Replan → S → S
}.
Arguments sv_clock {S}.
Arguments sv_plan {S}.
Arguments sv_should_cancel {S}.
Arguments sv_step_started {S}.
Arguments sv_step_completed {S}.
Arguments sv_step_failed {S}.
Arguments sv_replan_applied {S}.

Section Session.
Context `{!CacheEnv} {Run : Type} `{!ExecutionPolicy Run}.
Context (estimate_json_bytes : Json → Z) (reducers : gmap string Reducer).
Context (select_reuse_base : string → string → PacketCache → option string) (persist_ttl_secs : option Z).
Context {S : Type} (services : Services S).

Definition execute_step (req : KernelRequest) (w : KernelState * S) : result KernelFailure KernelResponse * (KernelState * S) :=
  let '(clock, s) := sv_clock services w.2 in
  match execute_with_hooks estimate_json_bytes reducers select_reuse_base persist_ttl_secs clock req w.1 with
  | (Ok response, st) => (Ok response, (st, s))
  | (Err e, st) => (Err (structured e), (st, s))
  end.

Definition kernel_env : KernelEnv (KernelState * S) KernelResponse := {|
  env_json_bytes := estimate_json_bytes;
  env_execute := execute_step;
  env_plan := λ request w, sv_plan services request (km_memory w.1) w.2;
  env_should_cancel := λ w, sv_should_cancel services w.2;
  env_step_started := λ position step w, (w.1, sv_step_started services position step w.2);
  env_step_completed := λ position step response w, (w.1, sv_step_completed services position step response w.2);
  env_step_failed := λ position step failure w, (w.1, sv_step_failed services position step failure w.2);
  env_replan_applied := λ after count replan w, (w.1, sv_replan_applied services after count replan w.2)
|}.

(** [execute_sequence_with_observer]: the number of the request and its
    response. *)
Definition execute_sequence_with_observer (fuel : nat) (req : KernelSequenceRequest) (st : KernelState) (s : S)
    : option (result KernelError (Z * SequenceResponse KernelResponse)) :=
  let request_id := km_next_request_id st in
  let st := mkKernelState (km_memory st) (wrapping_add u64_max request_id 1) in
  response ← execute_sequence kernel_env fuel req (st, s);
  Some ((λ response, (request_id, response)) <$> (response : result KernelError (SequenceResponse KernelResponse))).
End Session.
