(* ===== verification/SessionSpec.v ===== *)
(** * SessionSpec: what the steps of a sequence may answer

    Whatever the planner does to a plan, an answered step is one of the plan
    or one the planner added, and its answer is an answer of the kernel: what
    the kernel guarantees of one request holds for every step. *)

From S2P Require Export Session GovernSpec.
From S2P Require Import MemoryExample KernelSpec.

(** ** Steps and answers of a sequence *)

(** The step a mutation brings into the plan. *)
Definition added (m : PlanMutation KernelStepRequest) : option KernelStepRequest :=
  match m with Plan.Cancel _ _ => None | Replace step _ | Append step _ => Some step end.

Section Traced.
Context {W R : Type} (env : KernelEnv W R) (b : ExecutionBudget) (rc : ReactiveSequenceConfig).
Context (tid : option string) (orig : list KernelStepRequest).
Context (P : KernelStepRequest → Prop) (HP : ∀ ds step, P step → P (ks_set_depends_on ds step)).
Context (Hplan : ∀ request w plan m step,
  env_plan env request w = Ok plan → m ∈ rp_mutations plan → added m = Some step → P step).
Implicit Types (st : SeqState W R) (l : list KernelStepRequest).

Lemma retain_keeps id step : P step → P (retain_deps id step).
Proof. apply HP. Qed.

Lemma apply_mutation_keeps (ps : PlanState KernelStepRequest) m : map_Forall (λ _, P) (by_id ps) →
  (∀ step, added m = Some step → P step) → map_Forall (λ _, P) (by_id (apply_mutation ps m)).
Proof.
  intros Hps Hm. destruct m as [id reason|step reason|step reason]; cbn [apply_mutation];
    (destruct (by_id ps !! _) as [old|]; [|try done]); cbn [by_id]; try done.
  - intros k step (step' & <- & Hs)%lookup_fmap_Some. apply retain_keeps. apply lookup_delete_Some in Hs as [_ Hs]. by apply (Hps k).
  - apply map_Forall_insert_2; [by apply Hm|done].
  - apply map_Forall_insert_2; [by apply Hm|done].
Qed.
Lemma drain_keeps ids (steps : gmap string KernelStepRequest) : map_Forall (λ _, P) steps → Forall P (drain_order ids steps).
Proof.
  revert steps. induction ids as [|id ids IH]; intros steps Hs; cbn [drain_order]; [constructor|].
  destruct (steps !! id) as [step|] eqn:E; [|by apply IH]. constructor; [by apply (Hs id)|]. apply IH. by apply map_Forall_delete.
Qed.
Lemma apply_mutations_keep l ms : Forall P l → (∀ m step, m ∈ ms → added m = Some step → P step) → Forall P (apply_kernel_mutations l ms).
Proof.
  intros Hl Hms. unfold apply_kernel_mutations, plan_result. apply drain_keeps.
  assert (Hinit : map_Forall (λ _, P) (by_id (initial_plan l))).
  { unfold initial_plan. cbn [by_id]. assert (He : map_Forall (λ _, P) (∅ : gmap string KernelStepRequest)) by apply map_Forall_empty.
    revert He. generalize (∅ : gmap string KernelStepRequest). induction Hl as [|step l Hstep _ IH]; intros acc Hacc; [done|].
    apply IH. by apply map_Forall_insert_2. }
  revert Hinit. generalize (initial_plan l). induction ms as [|m ms IH]; intros ps Hps; [done|]. cbn [foldl]. apply IH.
  - intros m' step Hm'. apply Hms. by right.
  - apply apply_mutation_keeps; [done|]. intros step. apply Hms. by left.
Qed.

(** An answer comes from executing a step. *)
Definition produced (r : StepResponse R) : Prop := ∀ response, kr_response r = Some response →
  ∃ step w, P step ∧ Kernel.kr_id r = ks_id step ∧ Kernel.kr_target r = ks_target step ∧
    (env_execute env (kernel_request b tid step) w).1 = Ok response.
Definition traced st : Prop := Forall P (sq_remaining st) ∧ Forall produced (sq_results st).

Lemma unanswered_produced {A} (f : A → StepResponse R) (l : list A) : (∀ x, kr_response (f x) = None) → Forall produced (f <$> l).
Proof. intros Hf. apply Forall_fmap, Forall_true. intros x response. cbn. by rewrite Hf. Qed.
Lemma traced_last_event st n : traced st → traced (set_last_event n st).
Proof. done. Qed.

Lemma apply_replan_traced st trigger after plan st' : traced st →
  (∀ m step, m ∈ rp_mutations plan → added m = Some step → P step) →
  apply_replan env st trigger after plan = Some (Ok st') → traced st'.
Proof.
  intros [Hr Hres] Hms. unfold apply_replan. destruct (apply_mutations _ _) as [[res|]|]; [|done|done].
  cbn. intros [= <-]. split; cbn.
  - by apply apply_mutations_keep.
  - apply Forall_app. split; [done|]. by apply unanswered_produced.
Qed.
Lemma initial_replan_traced st st' : traced st → initial_replan env rc tid orig st = Some (Ok st') → traced st'.
Proof.
  intros Hst. unfold initial_replan. destruct (rc_enabled rc); [|by intros [= <-]]. destruct tid as [t|]; [|by intros [= <-]].
  destruct (env_plan env _ _) as [plan|] eqn:E; [|done]. case_decide as Hm; [by intros [= <-]|].
  destruct (apply_replan _ _ _ _ _) as [[st1|]|] eqn:E1; [|done|done]. cbn. destruct (ensure_sequence_active _ _ _); [|done]. cbn. intros [= <-].
  eapply apply_replan_traced; [|intros m step; by eapply Hplan|exact E1]. done.
Qed.
Lemma step_replan_traced st after st' : traced st → step_replan env rc tid orig st after = Some (Ok st') → traced st'.
Proof.
  intros Hst. unfold step_replan. destruct (rc_enabled rc); [|by intros [= <-]]. destruct tid as [t|]; [|by intros [= <-]].
  destruct (env_plan env _ _) as [plan|] eqn:E; [|done]. destruct (sq_last_event st <? rp_event_count plan)%Z; [|by intros [= <-]].
  case_decide as Hm; [by intros [= <-]|].
  destruct (apply_replan _ _ _ _ _) as [[st1|]|] eqn:E1; [|done|done]. cbn. intros [= <-]. apply traced_last_event.
  eapply apply_replan_traced; [|intros m step; by eapply Hplan|exact E1]. done.
Qed.

Lemma failed_loop_keeps fuel failed l removed removed' l' : Forall P l → failed_loop fuel failed l removed = Some (removed', l') → Forall P l'.
Proof.
  revert failed l removed. induction fuel as [|fuel IH]; intros failed l removed Hl; destruct failed as [|f failed]; cbn [failed_loop];
    [by intros [= _ <-]|done|by intros [= _ <-]|]. apply IH.
  apply Forall_forall. intros step [_ Hs]%list_elem_of_filter. by eapply Forall_forall.
Qed.
Lemma run_step_traced st step st' : traced st → P step → run_step env b rc tid orig st step = Some (Ok st') → traced st'.
Proof.
  intros [Hr Hres] Hstep. unfold run_step. destruct (ensure_sequence_active _ _ _); [|done].
  destruct (env_execute env _ _) as [[response|failure] w] eqn:E.
  - destruct (ensure_sequence_active _ _ _); [|done]. apply step_replan_traced. split; cbn.
    + apply Forall_fmap. eapply Forall_impl; [exact Hr|]. intros s. apply retain_keeps.
    + apply Forall_app. split; [done|]. constructor; [|constructor]. intros response' [= <-]. exists step. eexists. split; [done|].
      split; [done|]. split; [done|]. by rewrite E.
  - destruct (ensure_sequence_active _ _ _); [|done]. unfold remove_failed_dependents.
    destruct (failed_loop _ _ _ _) as [[dependents kept]|] eqn:E2; [|done]. cbn. intros [= <-]. split; cbn.
    + by eapply failed_loop_keeps.
    + apply Forall_app. split; [done|]. constructor; [by intros response|]. by apply unanswered_produced.
Qed.
Lemma sequence_turn_traced st st' : traced st → sequence_turn env b rc tid orig st = Some (Ok st') → traced st'.
Proof.
  intros [Hr Hres]. unfold sequence_turn. destruct (ensure_sequence_active _ _ _); [|done].
  destruct (schedule _) as [[sched|]|]; [|done|done]. cbn. destruct (ordered_steps sched) as [|next rest].
  - intros [= <-]. split; cbn; [done|]. apply Forall_app. split; [done|]. apply unanswered_produced. intros s. by destruct (budget_exhausted sched).
  - unfold take_scheduled_step. destruct (list_find _ _) as [[i step]|] eqn:E; [|done].
    apply list_find_Some in E as (Hi & _ & _). rewrite Forall_forall in Hr. apply run_step_traced.
    + split; [|done]. cbn. apply Forall_forall. intros s Hs. apply Hr. apply list_elem_of_lookup in Hs as [j Hj].
      apply list_elem_of_lookup. rewrite list_lookup_delete in Hj. case_decide; eauto.
    + apply Hr. by eapply list_elem_of_lookup_2.
Qed.
Lemma sequence_loop_traced fuel st st' : traced st → sequence_loop env b rc tid orig fuel st = Some (Ok st') → traced st'.
Proof.
  revert st. induction fuel as [|fuel IH]; intros st Hst; cbn [sequence_loop]; destruct (sq_remaining st); [by intros [= <-]|done|by intros [= <-]|].
  destruct (sequence_turn _ _ _ _ _ _) as [[st1|]|] eqn:E; [|done|done]. cbn. apply IH. by eapply sequence_turn_traced.
Qed.
Lemma sequence_body_traced fuel w st : Forall P orig → sequence_body env b rc tid orig fuel w = Some (Ok st) → traced st.
Proof.
  intros Horig. unfold sequence_body. destruct (ensure_sequence_active _ _ _); [|done].
  destruct (initial_replan _ _ _ _ _) as [[st1|]|] eqn:E; [|done|done]. cbn. apply sequence_loop_traced.
  eapply initial_replan_traced; [|exact E]. by split.
Qed.
End Traced.

Lemma normalize_ids_keeps (P : KernelStepRequest → Prop) : (∀ id step, P step → P (ks_set_id id step)) →
  ∀ l index ids ids' l', Forall P l → normalize_ids index ids l = Ok (ids', l') → Forall P l'.
Proof.
  intros HP l. induction l as [|step l IH]; intros index ids ids' l' Hl; cbn [normalize_ids]; [by intros [= _ <-]|].
  apply Forall_cons in Hl as [Hs Hl]. destruct (is_blank _); [done|]. case_decide; [done|].
  intros ([ids1 l1] & E & [= _ <-])%bind_Ok_inv. constructor; [by apply HP|]. by eapply IH.
Qed.
Lemma normalize_keeps (P : KernelStepRequest → Prop) req req' : (∀ id step, P step → P (ks_set_id id step)) →
  Forall P (sr_steps req) → normalize_sequence_request req = Ok req' →
  Forall P (sr_steps req') ∧ sr_budget req' = sr_budget req ∧ sr_reactive req' = sr_reactive req.
Proof.
  intros HP Hl. unfold normalize_sequence_request. intros ([ids l] & E & H1)%bind_Ok_inv. apply bind_Ok_inv in H1 as (u & _ & [= <-]).
  split; [|done]. cbn. by eapply normalize_ids_keeps.
Qed.

(** ** The policy of a step *)

Lemma config_path_with_task context tid : json_get "config_path" (policy_context_with_task_id context tid) = json_get "config_path" context.
Proof.
  unfold policy_context_with_task_id. destruct (nonblank tid) as [t|]; [|done]. destruct context as [| | | | | |fields]; try done.
  cbn. unfold entry_or_insert. destruct (assoc_get "task_id" fields); [done|]. rewrite assoc_get_app. by destruct (assoc_get "config_path" fields).
Qed.

Section Governed.
Context `{!GovernanceEnv}.

Lemma load_guard_with_task context tid : load_policy_guard (policy_context_with_task_id context tid) = load_policy_guard context.
Proof. unfold load_policy_guard. by rewrite config_path_with_task. Qed.

(** A step that runs under a policy. *)
Definition governed_by (guard : PolicyGuard) (step : KernelStepRequest) : Prop :=
  load_policy_guard (ks_policy_context step) = Ok (Some guard) ∧ trim (ks_target step) ≠ "guardy.check"%string.

End Governed.

(** A step of the request or one that the planner added, with whatever
    dependencies are left of it. *)
Definition offered {S} (services : Services S) (req : KernelSequenceRequest) (step : KernelStepRequest) : Prop :=
  ∃ origin ds, step = ks_set_depends_on ds origin ∧
    (origin ∈ sr_steps req ∨
     ∃ request cache s plan m, sv_plan services request cache s = Ok plan ∧ m ∈ rp_mutations plan ∧ added m = Some origin).

Lemma offered_deps {S} (services : Services S) req ds step : offered services req step → offered services req (ks_set_depends_on ds step).
Proof. intros (origin & ds' & -> & H). by exists origin, ds. Qed.
Lemma offered_origin {S} (services : Services S) req step :
  step ∈ sr_steps req ∨ (∃ request cache s plan m, sv_plan services request cache s = Ok plan ∧ m ∈ rp_mutations plan ∧ added m = Some step) →
  offered services req step.
Proof. intros H. exists step, (ks_depends_on step). split; [by destruct step|exact H]. Qed.

(** What is promised of the answer of a step: it is the kernel's answer to the
    request made of that step, and the packets of both comply, within the
    budget of the step. *)
Definition governed_answer {CACHE : CacheEnv} {GOVERN : GovernanceEnv} {S : Type} (estimate_json_bytes : Json → Z)
    (reducers : gmap string Reducer) (select_reuse_base : string → string → PacketCache → option string) (persist_ttl_secs : option Z)
    (services : Services S) (guard : PolicyGuard) (req : KernelSequenceRequest) (r : StepResponse KernelResponse) : Prop :=
  ∀ response, kr_response r = Some response → ∃ step,
    offered services req step ∧ governed_by guard step ∧ Kernel.kr_id r = ks_id step ∧ Kernel.kr_target r = ks_target step ∧
    (∃ clock st, (execute_with_hooks (Run := PolicyRun) estimate_json_bytes reducers select_reuse_base persist_ttl_secs clock
       (kernel_request (sr_budget req) (resolve_sequence_task_id req) step) st).1 = Ok response) ∧
    reducer_allowed (trim (ks_target step)) (pg_config guard) ∧
    Forall (complies (pg_config guard)) (ks_input_packets step ++ kr_output_packets response) ∧
    let usage := usage_for_packets estimate_json_bytes in
    let total := total_usage (usage (ks_input_packets step)) (usage (kr_output_packets response)) 0 in
    let cap := if decide (ks_budget step = default_execution_budget) then sr_budget req else ks_budget step in
    within_cap (eb_token_cap cap) (tokens total) ∧ within_cap (eb_byte_cap cap) (bytes total).

(** A sequence for the witness: the second step is answered from the cache. *)
Definition demo_services : Services nat :=
  mkServices nat (λ s, (demo_clock (Z.of_nat s), S s)) (λ _ _ _, Ok (mkReactivePlan 0 [])) (λ _, false) (λ _ _ s, s) (λ _ _ _ s, s) (λ _ _ _ s, s)
    (λ _ _ _ s, s).
Definition demo_step (id : string) (deps : list string) : KernelStepRequest :=
  mkKernelStep id "agent.read" deps [demo_packet] demo_context (JString "q") default_execution_budget.
Definition demo_sequence : KernelSequenceRequest :=
  mkSequenceRequest default_execution_budget [demo_step "b" ["a"]; demo_step "a" []] (mkReactiveConfig false None false Basic).

(** C6: a policy holds for a whole sequence of steps, whatever the planner and the
    observer do. When each step of a sequence names a policy that loads and a target
    other than guardy.check (which reports on a policy instead of running under one),
    and so does every step that replanning adds, then in every response of the sequence
    run, at whatever point it is cut off by budgets, failures or replans, each answer
    belongs to a step of the request, whose identifiers are distinct, or to one that
    replanning added, and is the kernel's answer to the request made of exactly that
    step; the reducer of that step is allowed, the packets it took and returned,
    computed or cached, satisfy the policy, and their tokens and bytes are within the
    step's budget, or the sequence's where the step has none. *)
Theorem governed_sequence_complies {CACHE : CacheEnv} {GOVERN : GovernanceEnv} {S : Type} (estimate_json_bytes : Json → Z)
    (reducers : gmap string Reducer) (select_reuse_base : string → string → PacketCache → option string) (persist_ttl_secs : option Z)
    (services : Services S) (fuel : nat) (req : KernelSequenceRequest) (st : KernelState) (s : S) (guard : PolicyGuard)
    (request_id : Z) (answer : SequenceResponse KernelResponse)
    (Hsteps : Forall (governed_by guard) (sr_steps req))
    (Hplanner : ∀ request cache s plan m step, sv_plan services request cache s = Ok plan → m ∈ rp_mutations plan →
       added m = Some step → governed_by guard step)
    (Hrun : execute_sequence_with_observer (Run := PolicyRun) estimate_json_bytes reducers select_reuse_base persist_ttl_secs services
              fuel req st s = Some (Ok (request_id, answer))) :
  ∃ req', normalize_sequence_request req = Ok req' ∧ NoDup (ks_id <$> sr_steps req') ∧ sr_budget req' = sr_budget req ∧
    Forall (governed_answer estimate_json_bytes reducers select_reuse_base persist_ttl_secs services guard req') (sp_step_results answer).
Proof.
  unfold execute_sequence_with_observer, execute_sequence in Hrun. destruct (normalize_sequence_request req) as [req'|] eqn:Hn; [|done].
  pose proof (normalize_sequence_request_spec _ _ Hn) as (_ & _ & _ & _ & Hnd & _).
  exists req'. split; [done|]. split; [exact Hnd|].
  apply (normalize_keeps (governed_by guard)) in Hn as (Hsteps' & Hb & _); [|done|done]. split; [exact Hb|].
  destruct (sequence_body _ _ _ _ _ _ _) as [[final|]|] eqn:E; [|done|done]. cbn in Hrun. injection Hrun as _ <-.
  apply (sequence_body_traced _ _ _ _ _ (λ step, governed_by guard step ∧ offered services req' step)) in E as [_ Hres].
  - cbn. eapply Forall_impl; [exact Hres|]. intros r Hr response Hresp.
    destruct (Hr response Hresp) as (step & w & [Hg Ho] & Hid & Htarget & Hex). exists step. do 4 (split; [done|]).
    cbn in Hex. unfold execute_step in Hex. destruct (sv_clock services w.2) as [clock s'].
    destruct (execute_with_hooks _ _ _ _ _ _ _) as [[r'|e] st'] eqn:Eex in Hex; [|done]. injection Hex as ->.
    split; [exists clock, w.1; by rewrite Eex|].
    destruct Hg as [Hload Ht]. destruct (answer_complies _ _ _ _ _ _ _ guard response (f_equal fst Eex)) as (_ & Hred & Hall & Hcap).
    + cbn. by rewrite load_guard_with_task.
    + done.
    + split; [done|]. split; [done|]. exact Hcap.
  - intros ds step [Hg Ho]. split; [exact Hg|by apply offered_deps].
  - intros request w plan m step Hp Hm Ha. split; [exact (Hplanner _ _ _ _ _ _ Hp Hm Ha)|]. apply offered_origin. right.
    by exists request, (km_memory w.1), w.2, plan, m.
  - apply Forall_forall. intros step Hs. rewrite Forall_forall in Hsteps'. split; [by apply Hsteps'|]. apply offered_origin. by left.
Qed.

Lemma governed_sequence_complies_witness :
  ∃ answer, @execute_sequence_with_observer example_cache PolicyRun (@BuiltinExecutionPolicy demo_governance) (λ _, 4%Z) demo_reducers (λ _ _ _, None) (Some 10%Z) nat
      demo_services 2 demo_sequence demo_kernel 5 = Some (Ok (1%Z, answer)) ∧ length (sp_scheduled answer) = 2 ∧
    ∃ req', normalize_sequence_request demo_sequence = Ok req' ∧
      Forall (@governed_answer example_cache demo_governance nat (λ _, 4%Z) demo_reducers (λ _ _ _, None) (Some 10%Z) demo_services demo_guard req')
        (sp_step_results answer).
Proof.
  assert (Hplanner : ∀ request cache s plan m step, sv_plan demo_services request cache s = Ok plan → m ∈ rp_mutations plan →
    added m = Some step → @governed_by demo_governance demo_guard step).
  { intros request cache s plan m step Hp Hm. injection Hp as <-. by apply elem_of_nil in Hm. }
  destruct (@execute_sequence_with_observer example_cache PolicyRun (@BuiltinExecutionPolicy demo_governance) (λ _, 4%Z) demo_reducers (λ _ _ _, None) (Some 10%Z) nat
      demo_services 2 demo_sequence demo_kernel 5) as [[[id answer]|e]|] eqn:E; [|vm_compute in E; discriminate E..].
  assert (Hid : id = 1%Z ∧ length (sp_scheduled answer) = 2).
  { vm_compute in E. apply (inj Some) in E. injection E as <- <-. split; reflexivity. }
  destruct Hid as [-> Hlen]. exists answer. split; [reflexivity|]. split; [exact Hlen|].
  assert (Hsteps : Forall (@governed_by demo_governance demo_guard) (sr_steps demo_sequence)).
  { repeat (constructor; [split; [exact eq_refl|discriminate]|]). constructor. }
  destruct (@governed_sequence_complies example_cache demo_governance nat (λ _, 4%Z) demo_reducers (λ _ _ _, None) (Some 10%Z) demo_services 2
    demo_sequence demo_kernel 5 demo_guard 1%Z answer Hsteps Hplanner E) as (req' & Hn & _ & _ & Hall).
  exists req'. split; [exact Hn|exact Hall].
Defined.

