(* ===== verification/Recall.v ===== *)
(** * Recall: scoring a query against the cache

    Models [src/crates/context-memory-core/src/recall.rs] on the cache of
    [MemoryCache]: the candidates of a query from the indexes, their BM25
    scores and boosts, the filters and the order of the hits, and the entries
    related to paths, symbols and tests.  The natural logarithm of the
    platform is a parameter, and so is the order in which a [HashMap] is
    iterated where the result shows it (the lists of a related entry). *)

From S2P Require Export MemoryCache.

(** ** Queries and hits *)

Inductive RecallScope : Type := Global | TaskFirst | TaskOnly.
Inductive RecallMode : Type := AutoMode | ConceptualMode | TelemetryMode.

Record RecallOptions : Type := mkRecallOptions {
  ro_limit : nat;
  ro_since_unix : option Z;
  ro_until_unix : option Z;
  ro_target : option string;
  ro_task_id : option string;
  ro_scope : RecallScope;
  ro_packet_types : list string;
  ro_path_filters : list string;
  ro_symbol_filters : list string;
  ro_mode : RecallMode;
  ro_include_debug : bool
}.

Record RecallHit : Type := mkRecallHit {
  rh_cache_key : string;
  rh_target : string;
  rh_created_at_unix : Z;
  rh_age_secs : Z;
  rh_score : f64;
  rh_summary : option string;
  rh_snippet : string;
  rh_matched_tokens : list string;
  rh_matched_paths : list string;
  rh_matched_symbols : list string;
  rh_match_reasons : list string;
  rh_packet_types : list string;
  rh_task_ids : list string;
  rh_budget_estimate : RecallBudgetEstimate;
  rh_source_tier : MemorySourceTier;
  rh_memory_kind : MemoryKind
}.

Definition extract_query_path_terms (query : string) : list string :=
  filter (λ part, looks_like_path part = true)
    (trim_matches [","; ";"; "034"; "'"; "("; ")"; "["; "]"]%char <$> split_whitespace query).

(** ** Modes and scores *)

Section Recall.
Context `{!RecallEnv} (f64_ln : f64 → f64).

Definition telemetry_words : list string :=
  ["agent"; "state"; "event"; "events"; "tool"; "tools"; "invocation"; "invocations"; "focus"; "telemetry"]%string.
Definition query_explicitly_targets_telemetry (query : string) (options : RecallOptions) : bool :=
  match ro_target options with Some target => contains "agenty.state" (str_to_ascii_lowercase target) | None => false end ||
  existsb (λ packet_type, contains "agent_state" (str_to_ascii_lowercase packet_type)) (ro_packet_types options) ||
  existsb (λ token, bool_decide (token ∈ telemetry_words)) (tokenize query).
Definition resolve_recall_mode (query : string) (options : RecallOptions) : RecallMode :=
  match ro_mode options with
  | AutoMode => if query_explicitly_targets_telemetry query options then TelemetryMode else ConceptualMode
  | mode => mode
  end.

(** [f64 + x] when a condition holds. *)
Definition boost (b : bool) (x score : f64) : f64 := if b then f64_add score x else score.

Definition recall_source_tier_score (source_tier : MemorySourceTier) (mode : RecallMode)
    (has_path_match has_symbol_match task_scoped_match explicit_filter_match : bool) : f64 :=
  match mode with
  | AutoMode | ConceptualMode =>
      match source_tier with
      | CuratedMemory => f64_of_Z 3
      | Telemetry =>
          let score := if explicit_filter_match then f64_lit (-125) 100 else f64_lit (-425) 100 in
          boost task_scoped_match (f64_lit 5 10) (boost (has_path_match || has_symbol_match) (f64_of_Z 1) score)
      | Standard => f64_zero
      end
  | TelemetryMode =>
      match source_tier with
      | CuratedMemory => f64_lit 5 10
      | Telemetry => boost task_scoped_match (f64_lit 5 10) (boost (has_path_match || has_symbol_match) (f64_of_Z 1) (f64_of_Z 3))
      | Standard => f64_zero
      end
  end.

Definition bm25_idf (doc_count posting_count : Z) : f64 :=
  f64_ln (f64_add (f64_div (f64_add (f64_of_Z (saturating_sub doc_count posting_count)) (f64_lit 5 10))
                           (f64_add (f64_of_Z posting_count) (f64_lit 5 10))) (f64_of_Z 1)).
Definition bm25_score (tf doc_length avg_doc_length idf : f64) : f64 :=
  let k1 := f64_lit 15 10 in
  let b := f64_lit 75 100 in
  let norm := f64_add (f64_sub (f64_of_Z 1) b) (f64_mul b (f64_div doc_length (f64_max avg_doc_length (f64_of_Z 1)))) in
  f64_div (f64_mul idf (f64_mul tf (f64_add k1 (f64_of_Z 1)))) (f64_add tf (f64_mul k1 norm)).

Definition text_matches (candidate needle : string) : bool :=
  bool_decide (candidate = needle) || starts_with needle candidate || contains needle candidate.

Definition push_unique (matches : list string) (item : string) : list string :=
  if bool_decide (item ∈ matches) then matches else matches ++ [item].
Definition collect_matches (haystack explicit_filters query_tokens : list string) : list string :=
  let needles := foldl push_unique explicit_filters query_tokens in
  foldl (λ matches item,
    if existsb (text_matches (str_to_ascii_lowercase item)) needles then push_unique matches item else matches) [] haystack.

(** ** The candidates of a query *)

(** The maps that one query fills. *)
Record Gathering : Type := mkGathering {
  ga_scores : gmap string f64;
  ga_canonical : RefIndex;
  ga_basename : RefIndex;
  ga_symbols : RefIndex;
  ga_overlap : gset string;
  ga_explicit_path : gset string;
  ga_explicit_symbol : gset string
}.

(** [entry(key).or_insert(0.0)]. *)
Definition or_insert_zero (key : string) (scores : gmap string f64) : gmap string f64 :=
  match scores !! key with Some _ => scores | None => <[key := f64_zero]> scores end.

Definition score_posting (c : PacketCache) (idf : f64) (scores : gmap string f64) (posting : string * Z) : gmap string f64 :=
  match recall_docs c !! posting.1 with
  | Some doc =>
      let score := bm25_score (f64_of_Z posting.2) (f64_of_Z (rd_doc_length doc)) (f64_max (recall_avg_doc_length c) (f64_of_Z 1)) idf in
      <[posting.1 := f64_add (default f64_zero (scores !! posting.1)) score]> scores
  | None => scores
  end.
Definition score_token (c : PacketCache) (scores : gmap string f64) (token : string) : gmap string f64 :=
  match recall_postings c !! token with
  | Some postings =>
      let idf := bm25_idf (Z.of_nat (size (recall_docs c))) (Z.of_nat (length postings)) in
      foldl (score_posting c idf) scores postings
  | None => scores
  end.
Definition base_scores (c : PacketCache) (query_tokens : list string) : gmap string f64 :=
  if bool_decide (query_tokens = []) then (λ _, f64_zero) <$> recall_docs c
  else foldl (score_token c) ∅ query_tokens.

Inductive PathMatch : Type := CanonicalMatch | BasenameMatch.

(** The entries that list [canonical]. *)
Definition visits (kind : PathMatch) (c : PacketCache) (canonical : string) : list (PathMatch * string * string) :=
  (λ cache_key, (kind, canonical, cache_key)) <$> elements (default ∅ (file_ref_index c !! canonical)).
Definition unique_visits (c : PacketCache) (canonicals : gset string) : list (PathMatch * string * string) :=
  if size canonicals =? 1 then canonical ← elements canonicals; visits BasenameMatch c canonical else [].
Definition path_text_matches (candidate needle : string) : bool := contains needle candidate || starts_with needle candidate.

(** What the loops of one path needle visit, in their order. *)
Definition path_visits (c : PacketCache) (needle : string) : list (PathMatch * string * string) :=
  let normalized_needle := str_to_ascii_lowercase needle in
  match normalize_context_path needle (workspace_root c) with
  | Some path_ref =>
      match file_ref_index c !! pr_canonical path_ref with
      | Some _ => visits CanonicalMatch c (pr_canonical path_ref)
      | None =>
          match pr_basename path_ref ≫= (λ basename, basename_alias_index c !! basename) with
          | Some canonicals => unique_visits c canonicals
          | None => []
          end
      end
  | None => []
  end ++
  (e ← map_to_list (file_ref_index c); if path_text_matches e.1 normalized_needle then visits CanonicalMatch c e.1 else []) ++
  (e ← map_to_list (basename_alias_index c); if path_text_matches e.1 normalized_needle then unique_visits c e.2 else []).

Definition note_path (explicit : bool) (g : Gathering) (v : PathMatch * string * string) : Gathering :=
  let '(kind, canonical, key) := v in
  mkGathering (or_insert_zero key (ga_scores g))
    (match kind with CanonicalMatch => index_insert canonical (ga_canonical g) key | BasenameMatch => ga_canonical g end)
    (match kind with BasenameMatch => index_insert canonical (ga_basename g) key | CanonicalMatch => ga_basename g end)
    (ga_symbols g) ({[key]} ∪ ga_overlap g)
    (if explicit then {[key]} ∪ ga_explicit_path g else ga_explicit_path g) (ga_explicit_symbol g).

Definition symbol_visits (index : RefIndex) (needle : string) : list (string * string) :=
  e ← map_to_list index;
  if text_matches e.1 needle then (λ cache_key, (e.1, cache_key)) <$> elements e.2 else [].
Definition note_symbol (explicit : bool) (g : Gathering) (v : string * string) : Gathering :=
  let '(symbol, key) := v in
  mkGathering (or_insert_zero key (ga_scores g)) (ga_canonical g) (ga_basename g) (index_insert symbol (ga_symbols g) key)
    ({[key]} ∪ ga_overlap g) (ga_explicit_path g) (if explicit then {[key]} ∪ ga_explicit_symbol g else ga_explicit_symbol g).
Definition note_test (g : Gathering) (v : string * string) : Gathering :=
  let key := v.2 in
  mkGathering (or_insert_zero key (ga_scores g)) (ga_canonical g) (ga_basename g) (ga_symbols g)
    ({[key]} ∪ ga_overlap g) (ga_explicit_path g) (ga_explicit_symbol g).

(** The needles, the explicit ones first. *)
Definition path_needles (options : RecallOptions) (query : string) : list (bool * string) :=
  ((λ needle, (true, needle)) <$> ro_path_filters options) ++ ((λ needle, (false, needle)) <$> extract_query_path_terms query).
Definition symbol_needles (symbol_filters query_tokens : list string) : list (bool * string) :=
  ((λ needle, (true, needle)) <$> symbol_filters) ++ ((λ needle, (false, needle)) <$> query_tokens).

Definition gather_candidates (c : PacketCache) (query : string) (options : RecallOptions) (symbol_filters query_tokens : list string)
    : Gathering :=
  let g := mkGathering (base_scores c query_tokens) ∅ ∅ ∅ ∅ ∅ ∅ in
  let g := foldl (λ g needle, foldl (note_path needle.1) g (path_visits c needle.2)) g (path_needles options query) in
  let g := foldl (λ g needle, foldl (note_symbol needle.1) g (symbol_visits (symbol_index c) needle.2)) g
             (symbol_needles symbol_filters query_tokens) in
  foldl (λ g needle, foldl note_test g (symbol_visits (test_index c) needle)) g query_tokens.

(** ** Judging a candidate *)

(** What is computed once for a query. *)
Record RecallQuery : Type := mkRecallQuery {
  rq_options : RecallOptions;
  rq_tokens : list string;
  rq_now : Z;
  rq_target : option string;
  rq_packet_types : list string;
  rq_symbols : list string;
  rq_task : option string;
  rq_effective_mode : RecallMode
}.
Definition recall_query (query : string) (options : RecallOptions) (now : Z) : RecallQuery :=
  mkRecallQuery options (tokenize query) now (str_to_ascii_lowercase <$> ro_target options)
    (str_to_ascii_lowercase <$> ro_packet_types options) (str_to_ascii_lowercase <$> ro_symbol_filters options)
    (str_to_ascii_lowercase <$> ro_task_id options) (resolve_recall_mode query options).

(** The newest curated document of each dedupe key, the greater cache key
    among equals. *)
Definition newest_step (acc : gmap string (Z * string)) (doc : RecallDocument) : gmap string (Z * string) :=
  match rd_source_tier doc, rd_dedupe_key doc with
  | CuratedMemory, Some dedupe_key =>
      let update :=
        match acc !! dedupe_key with
        | Some (seen_created_at, seen_key) =>
            (seen_created_at <? rd_created_at_unix doc)%Z ||
            ((rd_created_at_unix doc =? seen_created_at)%Z && str_ltb seen_key (rd_cache_key doc))
        | None => true
        end in
      if update then <[dedupe_key := (rd_created_at_unix doc, rd_cache_key doc)]> acc else acc
  | _, _ => acc
  end.
Definition newest_curated_by_dedupe (docs : list RecallDocument) : gmap string (Z * string) := foldl newest_step ∅ docs.
Definition dedupe_superseded (newest : gmap string (Z * string)) (doc : RecallDocument) : bool :=
  match rd_dedupe_key doc ≫= (λ dedupe_key, newest !! dedupe_key) with
  | Some (_, newest_key) => negb (bool_decide (newest_key = rd_cache_key doc))
  | None => false
  end.

Definition task_scoped (q : RecallQuery) (doc : RecallDocument) : bool :=
  match rq_task q with Some task_id => bool_decide (task_id ∈ rd_task_ids doc) | None => false end.

(** The filters, a [continue] each. *)
Definition passes_filters (q : RecallQuery) (superseded explicit_path explicit_symbol : bool) (doc : RecallDocument) : bool :=
  (bool_decide (ro_path_filters (rq_options q) = []) || explicit_path) &&
  (bool_decide (rq_symbols q = []) || explicit_symbol) &&
  (negb superseded || ro_include_debug (rq_options q)) &&
  match rq_target q with Some target => contains target (str_to_ascii_lowercase (rd_target doc)) | None => true end &&
  match ro_since_unix (rq_options q) with Some since => (since <=? rd_created_at_unix doc)%Z | None => true end &&
  match ro_until_unix (rq_options q) with Some until => (rd_created_at_unix doc <=? until)%Z | None => true end &&
  forallb (λ needle, existsb (contains needle) (rd_packet_types doc)) (rq_packet_types q) &&
  match ro_scope (rq_options q) with Global | TaskFirst => true | TaskOnly => task_scoped q doc end.

(** What the indexes have found for a document. *)
Record Matches : Type := mkMatches {
  mt_canonical : gset string;
  mt_basename : gset string;
  mt_symbols : gset string;
  mt_overlap : bool;
  mt_explicit_path : bool;
  mt_explicit_symbol : bool
}.
Definition matched_paths (m : Matches) : list string :=
  let canonical := btree_strings (mt_canonical m) in
  canonical ++ filter (λ item, item ∉ canonical) (btree_strings (mt_basename m)).
Definition matched_symbols (q : RecallQuery) (m : Matches) (doc : RecallDocument) : list string :=
  foldl push_unique (btree_strings (mt_symbols m)) (collect_matches (rd_symbols doc) (rq_symbols q) (rq_tokens q)).
Definition matched_tokens (q : RecallQuery) (doc : RecallDocument) : list string :=
  filter (λ token, is_Some (rd_terms doc !! token)) (rq_tokens q).

Definition age_secs (q : RecallQuery) (doc : RecallDocument) : Z := saturating_sub (rq_now q) (rd_created_at_unix doc).
Definition recency (age : Z) : f64 :=
  f64_mul (f64_min (f64_div (f64_of_Z 1) (f64_add (f64_of_Z 1) (f64_div (f64_of_Z age) (f64_of_Z 86400)))) (f64_of_Z 1)) (f64_lit 25 100).
Definition hit_score (q : RecallQuery) (m : Matches) (doc : RecallDocument) (base_score : f64) : f64 :=
  let has_paths := negb (bool_decide (matched_paths m = [])) in
  let has_symbols := negb (bool_decide (matched_symbols q m doc = [])) in
  let explicit := has_paths || has_symbols || negb (bool_decide (rq_packet_types q = [])) || task_scoped q doc in
  let task_boost := match ro_scope (rq_options q) with Global => f64_lit 35 100 | TaskFirst | TaskOnly => f64_of_Z 1 end in
  let score := boost (task_scoped q doc) task_boost (boost has_symbols (f64_lit 15 10) (boost has_paths (f64_of_Z 2) base_score)) in
  let score := f64_add score (recall_source_tier_score (rd_source_tier doc) (rq_effective_mode q) has_paths has_symbols (task_scoped q doc) explicit) in
  f64_add score (recency (age_secs q doc)).

Definition reason (b : bool) (text : string) : list string := if b then [text] else [].
Definition match_reasons (q : RecallQuery) (m : Matches) (superseded : bool) (doc : RecallDocument) : list string :=
  let has_tokens := negb (bool_decide (matched_tokens q doc = [])) in
  reason has_tokens "bm25_text" ++
  reason (negb (bool_decide (matched_paths m = [])))
    (if bool_decide (mt_basename m = ∅) then "canonical_path_match" else "basename_fallback") ++
  reason (negb (bool_decide (matched_symbols q m doc = []))) "symbol_match" ++
  reason (negb (bool_decide (rq_packet_types q = []))) "packet_type_filter" ++
  reason (mt_overlap m && negb has_tokens) "graph_overlap" ++
  reason (task_scoped q doc) "task_scope" ++
  [match rq_effective_mode q with AutoMode => "mode_auto" | ConceptualMode => "mode_conceptual" | TelemetryMode => "mode_telemetry" end%string] ++
  match rd_source_tier doc with CuratedMemory => ["curated_memory"] | Telemetry => ["telemetry"] | Standard => [] end%string ++
  reason superseded "superseded".

Definition judge (q : RecallQuery) (newest : gmap string (Z * string)) (m : Matches) (base_score : f64) (doc : RecallDocument) : option RecallHit :=
  let superseded := rd_superseded doc || dedupe_superseded newest doc in
  if negb (passes_filters q superseded (mt_explicit_path m) (mt_explicit_symbol m) doc) then None
  else
    let score := hit_score q m doc base_score in
    let nothing_matched :=
      bool_decide (rq_tokens q = []) && bool_decide (matched_paths m = []) && bool_decide (matched_symbols q m doc = []) &&
      bool_decide (rq_packet_types q = []) in
    if f64_le score f64_zero || nothing_matched then None
    else
      Some (mkRecallHit (rd_cache_key doc) (rd_target doc) (rd_created_at_unix doc) (age_secs q doc) score (rd_summary doc) (rd_snippet doc)
              (matched_tokens q doc) (matched_paths m) (matched_symbols q m doc) (match_reasons q m superseded doc) (rd_packet_types doc)
              (rd_task_ids doc) (rd_budget_estimate doc) (rd_source_tier doc) (rd_memory_kind doc)).

Definition matches_of (g : Gathering) (cache_key : string) : Matches :=
  mkMatches (default ∅ (ga_canonical g !! cache_key)) (default ∅ (ga_basename g !! cache_key)) (default ∅ (ga_symbols g !! cache_key))
    (bool_decide (cache_key ∈ ga_overlap g)) (bool_decide (cache_key ∈ ga_explicit_path g)) (bool_decide (cache_key ∈ ga_explicit_symbol g)).

(** By score, then the newest, then by key. *)
Definition hit_cmp (a b : RecallHit) : comparison :=
  then_with (f64_total_cmp (rh_score b) (rh_score a))
    (then_with (Z.compare (rh_created_at_unix b) (rh_created_at_unix a)) (str_cmp (rh_cache_key a) (rh_cache_key b))).

Definition best_hits (limit : nat) (hits : list RecallHit) : list RecallHit := take (Nat.max limit 1) (sort_by_cmp hit_cmp hits).

(** Nothing to look for. *)
Definition empty_query (query_tokens : list string) (options : RecallOptions) : bool :=
  bool_decide (query_tokens = []) && bool_decide (ro_packet_types options = []) && bool_decide (ro_path_filters options = []) &&
  bool_decide (ro_symbol_filters options = []).

Definition recall (c : PacketCache) (query : string) (options : RecallOptions) (now : Z) : list RecallHit :=
  let q := recall_query query options now in
  if empty_query (rq_tokens q) options then []
  else
    let g := gather_candidates c query options (rq_symbols q) (rq_tokens q) in
    let newest := newest_curated_by_dedupe (map_to_list (recall_docs c)).*2 in
    best_hits (ro_limit options)
      (omap (λ e : string * f64, recall_docs c !! e.1 ≫= judge q newest (matches_of g e.1) e.2) (map_to_list (ga_scores g))).
End Recall.

(** ** Related entries *)

Record RelatedEntryMatch : Type := mkRelatedEntryMatch {
  rm_entry : PacketCacheEntry;
  rm_canonical_path_matches : list string;
  rm_basename_path_matches : list string;
  rm_symbol_matches : list string;
  rm_test_matches : list string
}.
Inductive RelatedKind : Type := PathRelated (kind : PathMatch) | SymbolRelated | TestRelated.

#[export] Instance PathMatch_eq_dec : EqDecision PathMatch.
Proof. solve_decision. Defined.
#[export] Instance RelatedKind_eq_dec : EqDecision RelatedKind.
Proof. solve_decision. Defined.

Definition task_match_allowed (cache_key : string) (task_keys : option (gset string)) : bool :=
  match task_keys with Some keys => bool_decide (cache_key ∈ keys) | None => true end.

(** [push] unless the list has it. *)
Definition push_related (kind : RelatedKind) (value : string) (m : RelatedEntryMatch) : RelatedEntryMatch :=
  let '(mkRelatedEntryMatch entry canonical basename symbols tests) := m in
  match kind with
  | PathRelated CanonicalMatch => mkRelatedEntryMatch entry (push_unique canonical value) basename symbols tests
  | PathRelated BasenameMatch => mkRelatedEntryMatch entry canonical (push_unique basename value) symbols tests
  | SymbolRelated => mkRelatedEntryMatch entry canonical basename (push_unique symbols value) tests
  | TestRelated => mkRelatedEntryMatch entry canonical basename symbols (push_unique tests value)
  end.

(** What the loops do for a value of an index and one of its keys. *)
Definition note_related (c : PacketCache) (task_keys : option (gset string)) (matches : gmap string RelatedEntryMatch)
    (v : RelatedKind * string * string) : gmap string RelatedEntryMatch :=
  let '(kind, value, cache_key) := v in
  if negb (task_match_allowed cache_key task_keys) then matches
  else
    match entries_by_hash c !! cache_key with
    | Some entry =>
        let item := default (mkRelatedEntryMatch entry [] [] [] []) (matches !! cache_key) in
        <[cache_key := push_related kind value item]> matches
    | None => matches
    end.

Section Related.
(** The order in which a [HashMap] is iterated. *)
Context (iterate : RefIndex → list (string * gset string)).

Definition related_path_visits (c : PacketCache) (path : string) : list (RelatedKind * string * string) :=
  prod_map (prod_map PathRelated id) id <$>
  match file_ref_index c !! path with
  | Some _ => visits CanonicalMatch c path
  | None =>
      match basename_alias path ≫= (λ basename, basename_alias_index c !! basename) with
      | Some canonicals => unique_visits c canonicals
      | None => []
      end
  end.
Definition related_text_visits (kind : RelatedKind) (index : RefIndex) (item : string) : list (RelatedKind * string * string) :=
  let needle := str_to_ascii_lowercase item in
  e ← iterate index;
  if text_matches e.1 needle then (λ cache_key, (kind, e.1, cache_key)) <$> elements e.2 else [].
Definition related_visits (c : PacketCache) (canonical_paths symbols tests : list string) : list (RelatedKind * string * string) :=
  (canonical_paths ≫= related_path_visits c) ++ (symbols ≫= related_text_visits SymbolRelated (symbol_index c)) ++
  (tests ≫= related_text_visits TestRelated (test_index c)).

Definition related_cmp (a b : RelatedEntryMatch) : comparison := str_cmp (pe_cache_key (rm_entry a)) (pe_cache_key (rm_entry b)).
Definition related_entries (c : PacketCache) (task_id : option string) (canonical_paths symbols tests : list string) : list RelatedEntryMatch :=
  let task_filter := str_to_ascii_lowercase <$> task_id in
  match (match task_filter with
         | Some task_id => match task_index c !! task_id with Some keys => Some (Some keys) | None => None end
         | None => Some None
         end) with
  | None => []
  | Some task_keys =>
      let matches := foldl (note_related c task_keys) ∅ (related_visits c canonical_paths symbols tests) in
      sort_by_cmp related_cmp (map_to_list matches).*2
  end.
End Related.
