(* ===== verification/RecallSpec.v ===== *)
(** * RecallSpec: recall is a scan of the documents

    The indexes are an optimisation: a query gives the hits that a scan of all
    documents would, judged by their own terms, paths, symbols and tests. *)

From S2P Require Export Recall MemoryCacheSpec.
From S2P Require Import MemoryExample.

(** ** The reference: a scan *)

Section Reference.
Context `{!RecallEnv} (f64_ln : f64 → f64) (root : option string) (docs : gmap string RecallDocument) (avg : f64).

Definition all_paths : gset string := ⋃ ((λ d, list_to_set (rd_paths d)) <$> (map_to_list docs).*2).

(** The documents that contain a term. *)
Definition doc_frequency (token : string) : Z := Z.of_nat (size (filter (λ kd : string * RecallDocument, is_Some (rd_terms kd.2 !! token)) docs)).

Definition token_score (d : RecallDocument) (token : string) (score : f64) : f64 :=
  match rd_terms d !! token with
  | Some tf =>
      f64_add score (bm25_score (f64_of_Z tf) (f64_of_Z (rd_doc_length d)) (f64_max avg (f64_of_Z 1))
                       (bm25_idf f64_ln (Z.of_nat (size docs)) (doc_frequency token)))
  | None => score
  end.
Definition doc_score (query_tokens : list string) (d : RecallDocument) : f64 := foldl (λ score token, token_score d token score) f64_zero query_tokens.

(** The path is the only one with its last component. *)
Definition sole_alias (path : string) : bool :=
  match basename_alias path with Some b => bool_decide (alias_set all_paths b = {[path]}) | None => false end.

Definition names_canonical (needle path : string) : bool :=
  match normalize_context_path needle root with Some ref => bool_decide (pr_canonical ref = path) | None => false end ||
  path_text_matches path (str_to_ascii_lowercase needle).
Definition names_basename (needle path : string) : bool :=
  sole_alias path &&
  match basename_alias path with
  | Some b =>
      match normalize_context_path needle root with
      | Some ref => negb (bool_decide (pr_canonical ref ∈ all_paths)) && bool_decide (pr_basename ref = Some b)
      | None => false
      end || path_text_matches b (str_to_ascii_lowercase needle)
  | None => false
  end.

(** The items that some needle names. *)
Definition found (names : string → string → bool) (needles items : list string) : gset string :=
  list_to_set (filter (λ item, existsb (λ needle, names needle item) needles = true) items).
Definition symbol_named (needle symbol : string) : bool := text_matches symbol needle.

Definition doc_matches (query : string) (options : RecallOptions) (q : RecallQuery) (d : RecallDocument) : Matches :=
  let paths := (path_needles options query).*2 in
  let symbols := (symbol_needles (rq_symbols q) (rq_tokens q)).*2 in
  let canonical := found names_canonical paths (rd_paths d) in
  let basename := found names_basename paths (rd_paths d) in
  let symbols := found symbol_named symbols (rd_symbols d) in
  let tests := found symbol_named (rq_tokens q) (rd_tests d) in
  mkMatches canonical basename symbols
    (negb (bool_decide (canonical ∪ basename ∪ symbols ∪ tests = ∅)))
    (negb (bool_decide (found (λ needle path, names_canonical needle path || names_basename needle path) (ro_path_filters options) (rd_paths d) = ∅)))
    (negb (bool_decide (found symbol_named (rq_symbols q) (rd_symbols d) = ∅))).

Definition candidate (q : RecallQuery) (m : Matches) (d : RecallDocument) : bool :=
  bool_decide (rq_tokens q = []) || existsb (λ token, bool_decide (is_Some (rd_terms d !! token))) (rq_tokens q) || mt_overlap m.

Definition doc_hit (query : string) (options : RecallOptions) (now : Z) (d : RecallDocument) : option RecallHit :=
  let q := recall_query query options now in
  let m := doc_matches query options q d in
  if candidate q m d
  then judge q (newest_curated_by_dedupe (map_to_list docs).*2) m (doc_score (rq_tokens q) d) d else None.

Definition recall_reference (query : string) (options : RecallOptions) (now : Z) : list RecallHit :=
  if empty_query (tokenize query) options then []
  else best_hits (ro_limit options) (omap (doc_hit query options now) (map_to_list docs).*2).
End Reference.

(** ** Folds that only add *)

Lemma foldl_adds {S A} (step : S → A → S) (O : S → Prop) (E : A → Prop) (l : list A) s :
  (∀ s a, O (step s a) ↔ O s ∨ E a) → O (foldl step s l) ↔ O s ∨ ∃ a, a ∈ l ∧ E a.
Proof.
  intros Hstep. revert s. induction l as [|a l IH]; intros s; cbn [foldl]; [split; [by left|intros [?|(a & ?%elem_of_nil & _)]; done]|].
  rewrite IH, Hstep. setoid_rewrite elem_of_cons. naive_solver.
Qed.
Lemma foldl_same {S A B} (step : S → A → S) (f : S → B) (l : list A) s : (∀ s a, f (step s a) = f s) → f (foldl step s l) = f s.
Proof. intros Hstep. revert s. induction l as [|a l IH]; intros s; cbn [foldl]; [done|]. by rewrite IH. Qed.

Lemma index_insert_elem key m value k v : v ∈ default ∅ (index_insert key m value !! k) ↔ v ∈ default ∅ (m !! k) ∨ v = key ∧ k = value.
Proof.
  unfold index_insert. destruct (decide (k = value)) as [->|Hne]; [rewrite lookup_insert_eq; simpl; set_solver|].
  rewrite lookup_insert_ne by done. naive_solver.
Qed.
Lemma or_insert_dom key scores k : is_Some (or_insert_zero key scores !! k) ↔ is_Some (scores !! k) ∨ k = key.
Proof.
  unfold or_insert_zero. destruct (scores !! key) as [x|] eqn:E.
  - split; [by left|]. intros [?| ->]; [done|by rewrite E].
  - rewrite lookup_insert_is_Some'. naive_solver.
Qed.
Lemma or_insert_default key scores k : default f64_zero (or_insert_zero key scores !! k) = default f64_zero (scores !! k).
Proof.
  unfold or_insert_zero. destruct (scores !! key) as [x|] eqn:E; [done|]. destruct (decide (key = k)) as [<-|]; [|by rewrite lookup_insert_ne].
  by rewrite lookup_insert_eq, E.
Qed.

(** ** What the indexes visit *)

Section Visits.
Context (c : PacketCache) (Hindexed : indexed c).
Local Abbreviation docs := (recall_docs c).

Definition lists (f : RecallDocument → list string) (k v : string) : Prop := ∃ d, docs !! k = Some d ∧ v ∈ f d.

Lemma elem_of_all_paths p : p ∈ all_paths docs ↔ ∃ k, lists rd_paths k p.
Proof.
  unfold all_paths. rewrite elem_of_union_list. setoid_rewrite list_elem_of_fmap. split.
  - intros (X & (d & -> & Hd) & Hp). apply list_elem_of_fmap in Hd as ([k d'] & -> & Hk%elem_of_map_to_list).
    apply elem_of_list_to_set in Hp. exists k, d'. done.
  - intros (k & d & Hk & Hp). eexists. split; [|by apply elem_of_list_to_set, Hp]. exists d. split; [done|].
    apply list_elem_of_fmap. exists (k, d). by rewrite elem_of_map_to_list.
Qed.
Lemma file_index_dom : dom (file_ref_index c) = all_paths docs.
Proof using Hindexed.
  destruct Hindexed as (_ & Hfile & _). apply set_eq. intros p. rewrite elem_of_dom, (Hfile p), elem_of_all_paths.
  unfold lists. setoid_rewrite <- elem_of_holders. unfold nonempty. case_bool_decide as Hempty.
  - rewrite Hempty. split; [by intros []|by intros (k & ?%elem_of_empty)].
  - split; [intros _; by apply set_choose_L|done].
Qed.
Lemma ref_index_elem f idx : ref_index_ok docs f idx → ∀ v k, k ∈ default ∅ (idx !! v) ↔ lists f k v.
Proof. intros Hok v k. by rewrite (Hok v), nonempty_default, elem_of_holders. Qed.

Lemma elem_of_visits kind p k kind' canonical : (kind, p, k) ∈ visits kind' c canonical ↔ kind = kind' ∧ p = canonical ∧ lists rd_paths k canonical.
Proof using Hindexed.
  destruct Hindexed as (_ & Hfile & _). unfold visits. rewrite list_elem_of_fmap. setoid_rewrite elem_of_elements.
  setoid_rewrite (ref_index_elem _ _ Hfile). naive_solver.
Qed.
Lemma elem_of_unique_visits kind p k S : (kind, p, k) ∈ unique_visits c S ↔ kind = BasenameMatch ∧ S = {[p]} ∧ lists rd_paths k p.
Proof using Hindexed.
  unfold unique_visits. destruct (Nat.eqb_spec (size S) 1) as [H1|H1].
  - apply size_1_elem_of in H1 as [x Hx]. apply leibniz_equiv in Hx as ->. rewrite elements_singleton, bind_singleton, elem_of_visits. set_solver.
  - split; [by intros ?%elem_of_nil|]. intros (_ & -> & _). by rewrite size_singleton in H1.
Qed.
Lemma alias_lookup b : basename_alias_index c !! b = nonempty (alias_set (all_paths docs) b).
Proof using Hindexed. rewrite <- file_index_dom. by destruct Hindexed as (_ & _ & Halias & _). Qed.
Lemma file_index_lookup p : is_Some (file_ref_index c !! p) ↔ p ∈ all_paths docs.
Proof using Hindexed. by rewrite <- file_index_dom, elem_of_dom. Qed.

Lemma sole_alias_spec p b : basename_alias p = Some b → sole_alias docs p = true ↔ alias_set (all_paths docs) b = {[p]}.
Proof. unfold sole_alias. intros ->. by rewrite bool_decide_eq_true. Qed.
Lemma alias_singleton b p : alias_set (all_paths docs) b = {[p]} → basename_alias p = Some b.
Proof. intros Hs. assert (Hp : p ∈ alias_set (all_paths docs) b) by set_solver. by apply elem_of_filter in Hp as [? _]. Qed.

Lemma needle_canonical needle p k :
  (CanonicalMatch, p, k) ∈ path_visits c needle ↔ lists rd_paths k p ∧ names_canonical (workspace_root c) needle p = true.
Proof using Hindexed.
  unfold path_visits, names_canonical. rewrite !elem_of_app, orb_true_iff.
  assert (Hscan : (CanonicalMatch, p, k) ∈ (e ← map_to_list (file_ref_index c);
      if path_text_matches e.1 (str_to_ascii_lowercase needle) then visits CanonicalMatch c e.1 else []) ↔
    lists rd_paths k p ∧ path_text_matches p (str_to_ascii_lowercase needle) = true).
  { rewrite list_elem_of_bind. split.
    - intros ([p' s] & H1 & _). simpl in H1. destruct (path_text_matches p' _) eqn:E; [|by apply elem_of_nil in H1].
      by apply elem_of_visits in H1 as (_ & -> & ?).
    - intros [Hl Hm]. assert (Hd : p ∈ all_paths docs) by (apply elem_of_all_paths; by exists k).
      apply file_index_lookup in Hd as [s Hs]. exists (p, s). simpl. rewrite Hm, elem_of_visits. split; [done|]. by apply elem_of_map_to_list. }
  assert (Hno : ∀ S, (CanonicalMatch, p, k) ∉ unique_visits c S) by (intros S (? & _)%elem_of_unique_visits; done).
  assert (Halias : (CanonicalMatch, p, k) ∉ (e ← map_to_list (basename_alias_index c);
      if path_text_matches e.1 (str_to_ascii_lowercase needle) then unique_visits c e.2 else [])).
  { rewrite list_elem_of_bind. intros (e & H1 & _). destruct (path_text_matches e.1 _); [by apply Hno in H1|by apply elem_of_nil in H1]. }
  rewrite Hscan. destruct (normalize_context_path needle _) as [ref|]; [|rewrite elem_of_nil; naive_solver].
  rewrite bool_decide_eq_true. destruct (file_ref_index c !! pr_canonical ref) as [s|] eqn:E.
  - rewrite elem_of_visits. naive_solver.
  - assert (Hnot : pr_canonical ref ∉ all_paths docs) by (rewrite <- file_index_lookup, E; by intros []).
    assert (Hl : lists rd_paths k p → pr_canonical ref ≠ p) by (intros Hl Heq; apply Hnot; rewrite Heq; apply elem_of_all_paths; by exists k).
    assert (Hb : (CanonicalMatch, p, k) ∉ match pr_basename ref ≫= (λ b, basename_alias_index c !! b) with Some cs => unique_visits c cs | None => [] end).
    { destruct (pr_basename ref ≫= _); [apply Hno|apply not_elem_of_nil]. }
    naive_solver.
Qed.

Lemma needle_basename needle p k :
  (BasenameMatch, p, k) ∈ path_visits c needle ↔ lists rd_paths k p ∧ names_basename (workspace_root c) docs needle p = true.
Proof using Hindexed.
  unfold path_visits, names_basename. rewrite !elem_of_app, andb_true_iff.
  assert (Hno : ∀ q, (BasenameMatch, p, k) ∉ visits CanonicalMatch c q) by (intros q (? & _)%elem_of_visits; done).
  assert (Hscan : (BasenameMatch, p, k) ∉ (e ← map_to_list (file_ref_index c);
      if path_text_matches e.1 (str_to_ascii_lowercase needle) then visits CanonicalMatch c e.1 else [])).
  { rewrite list_elem_of_bind. intros (e & H1 & _). destruct (path_text_matches e.1 _); [by apply Hno in H1|by apply elem_of_nil in H1]. }
  assert (Halias : (BasenameMatch, p, k) ∈ (e ← map_to_list (basename_alias_index c);
      if path_text_matches e.1 (str_to_ascii_lowercase needle) then unique_visits c e.2 else []) ↔
    lists rd_paths k p ∧ ∃ b, alias_set (all_paths docs) b = {[p]} ∧ path_text_matches b (str_to_ascii_lowercase needle) = true).
  { rewrite list_elem_of_bind. split.
    - intros ([b cs] & H1 & Hb%elem_of_map_to_list). simpl in H1. destruct (path_text_matches b _) eqn:E; [|by apply elem_of_nil in H1].
      apply elem_of_unique_visits in H1 as (_ & -> & Hl). split; [done|]. exists b. split; [|done].
      rewrite alias_lookup in Hb. unfold nonempty in Hb. case_bool_decide; [done|]. by injection Hb.
    - intros [Hl (b & Hb & Hm)]. exists (b, {[p]}). simpl. rewrite Hm, elem_of_unique_visits. split; [done|].
      apply elem_of_map_to_list. rewrite alias_lookup, Hb. apply nonempty_Some. set_solver. }
  assert (Hname : (BasenameMatch, p, k) ∈ match normalize_context_path needle (workspace_root c) with
      | Some ref => match file_ref_index c !! pr_canonical ref with
                    | Some _ => visits CanonicalMatch c (pr_canonical ref)
                    | None => match pr_basename ref ≫= (λ b, basename_alias_index c !! b) with Some cs => unique_visits c cs | None => [] end
                    end
      | None => [] end ↔
    lists rd_paths k p ∧ ∃ ref b, normalize_context_path needle (workspace_root c) = Some ref ∧ pr_canonical ref ∉ all_paths docs ∧
      pr_basename ref = Some b ∧ alias_set (all_paths docs) b = {[p]}).
  { destruct (normalize_context_path needle _) as [ref|]; [|rewrite elem_of_nil; naive_solver].
    pose proof (file_index_lookup (pr_canonical ref)) as Hfile. destruct (file_ref_index c !! pr_canonical ref) as [s|].
    - split; [by intros ?%Hno|]. intros (_ & ref' & b & [= <-] & Hn & _). exfalso. apply Hn, Hfile. by eexists.
    - assert (Hnot : pr_canonical ref ∉ all_paths docs) by (rewrite <- Hfile; by intros []).
      destruct (pr_basename ref) as [b|] eqn:Eb; simpl; [|rewrite elem_of_nil; naive_solver]. rewrite alias_lookup. unfold nonempty.
      case_bool_decide as Hempty; [rewrite elem_of_nil|rewrite elem_of_unique_visits]; [|naive_solver].
      split; [done|]. intros (_ & ref' & b' & [= <-] & _ & Hb' & Hs). rewrite Eb in Hb'. injection Hb' as <-. set_solver. }
  rewrite Hname, Halias. split.
  - intros [(Hl & ref & b & Hr & Hn & Hb & Hs)|[?|(Hl & b & Hs & Hm)]]; [|done|]; pose proof (alias_singleton b p Hs) as Hp;
      (split; [done|]; split; [by apply (sole_alias_spec p b)|]); rewrite Hp.
    + rewrite Hr, Hb, !bool_decide_eq_false_2, bool_decide_eq_true_2 by done. done.
    + by rewrite Hm, orb_true_r.
  - intros (Hl & Hsole & Hm). destruct (basename_alias p) as [b|] eqn:Hp; [|done]. apply (sole_alias_spec p b Hp) in Hsole.
    apply orb_true_iff in Hm as [Hm|Hm]; [left|by right; right; eauto]. split; [done|].
    destruct (normalize_context_path needle _) as [ref|]; [|done]. apply andb_true_iff in Hm as [Hn Hb]. exists ref, b.
    rewrite negb_true_iff, bool_decide_eq_false in Hn. by rewrite bool_decide_eq_true in Hb.
Qed.

Lemma needle_symbol (f : RecallDocument → list string) idx needle v k : ref_index_ok docs f idx →
  (v, k) ∈ symbol_visits idx needle ↔ lists f k v ∧ symbol_named needle v = true.
Proof.
  intros Hok. unfold symbol_visits, symbol_named. rewrite list_elem_of_bind. split.
  - intros ([v' s] & H1 & He%elem_of_map_to_list). simpl in H1. destruct (text_matches v' needle) eqn:E; [|by apply elem_of_nil in H1].
    apply list_elem_of_fmap in H1 as (k' & [= <- <-] & Hk%elem_of_elements). split; [|done]. apply (ref_index_elem f idx Hok). by rewrite He.
  - intros [Hl Hm]. assert (Hk : k ∈ default ∅ (idx !! v)) by by apply (ref_index_elem f idx Hok).
    destruct (idx !! v) as [s|] eqn:E; [|by apply elem_of_empty in Hk]. exists (v, s). simpl. rewrite Hm. split; [|by apply elem_of_map_to_list].
    apply list_elem_of_fmap. exists k. by rewrite elem_of_elements.
Qed.
End Visits.

Lemma elem_of_found names needles items x : x ∈ found names needles items ↔ x ∈ items ∧ ∃ needle, needle ∈ needles ∧ names needle x = true.
Proof.
  unfold found. rewrite elem_of_list_to_set, list_elem_of_filter, existsb_exists. setoid_rewrite <- list_elem_of_In. naive_solver.
Qed.
Lemma set_empty_bool (X : gset string) (P : Prop) `{!Decision P} : ((∃ x, x ∈ X) ↔ P) → bool_decide P = negb (bool_decide (X = ∅)).
Proof.
  intros HP. destruct (decide (X = ∅)) as [->|Hne].
  - rewrite (bool_decide_eq_true_2 (∅ = ∅)) by done. apply bool_decide_eq_false_2. rewrite <- HP. by intros (x & ?%elem_of_empty).
  - rewrite (bool_decide_eq_false_2 (X = ∅)) by done. apply bool_decide_eq_true_2, HP. by apply set_choose_L.
Qed.

(** ** What is gathered for a document *)

Section Gathered.
Context `{!RecallEnv} (f64_ln : f64 → f64) (c : PacketCache) (Hindexed : indexed c).
Context (query : string) (options : RecallOptions) (q : RecallQuery).
Local Abbreviation docs := (recall_docs c).
Local Abbreviation g := (gather_candidates f64_ln c query options (rq_symbols q) (rq_tokens q)).
Local Abbreviation start := (mkGathering (base_scores f64_ln c (rq_tokens q)) ∅ ∅ ∅ ∅ ∅ ∅).

Definition path_stage (s : Gathering) : Gathering :=
  foldl (λ s needle, foldl (note_path needle.1) s (path_visits c needle.2)) s (path_needles options query).
Definition symbol_stage (s : Gathering) : Gathering :=
  foldl (λ s needle, foldl (note_symbol needle.1) s (symbol_visits (symbol_index c) needle.2)) s (symbol_needles (rq_symbols q) (rq_tokens q)).
Definition test_stage (s : Gathering) : Gathering :=
  foldl (λ s needle, foldl note_test s (symbol_visits (test_index c) needle)) s (rq_tokens q).
Lemma gather_stages : g = test_stage (symbol_stage (path_stage start)).
Proof. done. Qed.

Lemma path_stage_adds (O : Gathering → Prop) (E : bool → PathMatch * string * string → Prop) s :
  (∀ explicit s v, O (note_path explicit s v) ↔ O s ∨ E explicit v) →
  O (path_stage s) ↔ O s ∨ ∃ needle, needle ∈ path_needles options query ∧ ∃ v, v ∈ path_visits c needle.2 ∧ E needle.1 v.
Proof. intros HO. apply (foldl_adds _ _ (λ needle, ∃ v, v ∈ path_visits c needle.2 ∧ E needle.1 v)). intros s' needle. by apply foldl_adds. Qed.
Lemma symbol_stage_adds (O : Gathering → Prop) (E : bool → string * string → Prop) s :
  (∀ explicit s v, O (note_symbol explicit s v) ↔ O s ∨ E explicit v) →
  O (symbol_stage s) ↔ O s ∨ ∃ needle, needle ∈ symbol_needles (rq_symbols q) (rq_tokens q) ∧
    ∃ v, v ∈ symbol_visits (symbol_index c) needle.2 ∧ E needle.1 v.
Proof. intros HO. apply (foldl_adds _ _ (λ needle, ∃ v, v ∈ symbol_visits (symbol_index c) needle.2 ∧ E needle.1 v)). intros s' needle. by apply foldl_adds. Qed.
Lemma test_stage_adds (O : Gathering → Prop) (E : string * string → Prop) s :
  (∀ s v, O (note_test s v) ↔ O s ∨ E v) →
  O (test_stage s) ↔ O s ∨ ∃ needle, needle ∈ rq_tokens q ∧ ∃ v, v ∈ symbol_visits (test_index c) needle ∧ E v.
Proof. intros HO. apply (foldl_adds _ _ (λ needle, ∃ v, v ∈ symbol_visits (test_index c) needle ∧ E v)). intros s' needle. by apply foldl_adds. Qed.
Lemma path_stage_same {B} (f : Gathering → B) s : (∀ explicit s v, f (note_path explicit s v) = f s) → f (path_stage s) = f s.
Proof. intros Hf. apply foldl_same. intros s' needle. by apply foldl_same. Qed.
Lemma symbol_stage_same {B} (f : Gathering → B) s : (∀ explicit s v, f (note_symbol explicit s v) = f s) → f (symbol_stage s) = f s.
Proof. intros Hf. apply foldl_same. intros s' needle. by apply foldl_same. Qed.
Lemma test_stage_same {B} (f : Gathering → B) s : (∀ s v, f (note_test s v) = f s) → f (test_stage s) = f s.
Proof. intros Hf. apply foldl_same. intros s' needle. by apply foldl_same. Qed.

Lemma gathered_canonical k v : v ∈ default ∅ (ga_canonical g !! k) ↔
  ∃ needle, needle ∈ path_needles options query ∧ (CanonicalMatch, v, k) ∈ path_visits c needle.2.
Proof.
  rewrite gather_stages, (test_stage_same ga_canonical), (symbol_stage_same ga_canonical) by (first [by intros ? ? []|by intros ? []]).
  rewrite (path_stage_adds (λ s, v ∈ default ∅ (ga_canonical s !! k)) (λ _ e, e = (CanonicalMatch, v, k))).
  - cbn [ga_canonical]. rewrite lookup_empty. simpl. set_solver.
  - intros explicit s [[[] p] k']; cbn [note_path ga_canonical]; [rewrite index_insert_elem|]; naive_solver.
Qed.
Lemma gathered_basename k v : v ∈ default ∅ (ga_basename g !! k) ↔
  ∃ needle, needle ∈ path_needles options query ∧ (BasenameMatch, v, k) ∈ path_visits c needle.2.
Proof.
  rewrite gather_stages, (test_stage_same ga_basename), (symbol_stage_same ga_basename) by (first [by intros ? ? []|by intros ? []]).
  rewrite (path_stage_adds (λ s, v ∈ default ∅ (ga_basename s !! k)) (λ _ e, e = (BasenameMatch, v, k))).
  - cbn [ga_basename]. rewrite lookup_empty. simpl. set_solver.
  - intros explicit s [[[] p] k']; cbn [note_path ga_basename]; [|rewrite index_insert_elem]; naive_solver.
Qed.
Lemma gathered_symbols k v : v ∈ default ∅ (ga_symbols g !! k) ↔
  ∃ needle, needle ∈ symbol_needles (rq_symbols q) (rq_tokens q) ∧ (v, k) ∈ symbol_visits (symbol_index c) needle.2.
Proof.
  rewrite gather_stages, (test_stage_same ga_symbols) by by intros ? [].
  rewrite (symbol_stage_adds (λ s, v ∈ default ∅ (ga_symbols s !! k)) (λ _ e, e = (v, k))).
  - rewrite (path_stage_same ga_symbols) by (intros ? ? [[] ?]; done). cbn [ga_symbols]. rewrite lookup_empty. simpl. set_solver.
  - intros explicit s [p k']; cbn [note_symbol ga_symbols]. rewrite index_insert_elem. naive_solver.
Qed.

(** Some needle of a kind visits the key. *)
Definition path_visited (explicit : bool → Prop) (k : string) : Prop :=
  ∃ needle, needle ∈ path_needles options query ∧ ∃ v, v ∈ path_visits c needle.2 ∧ explicit needle.1 ∧ v.2 = k.
Definition symbol_visited (explicit : bool → Prop) (k : string) : Prop :=
  ∃ needle, needle ∈ symbol_needles (rq_symbols q) (rq_tokens q) ∧
    ∃ v, v ∈ symbol_visits (symbol_index c) needle.2 ∧ explicit needle.1 ∧ v.2 = k.
Definition test_visited (k : string) : Prop :=
  ∃ needle, needle ∈ rq_tokens q ∧ ∃ v, v ∈ symbol_visits (test_index c) needle ∧ v.2 = k.
Definition visited (k : string) : Prop := path_visited (λ _, True) k ∨ symbol_visited (λ _, True) k ∨ test_visited k.

Lemma gathered_explicit_path k : k ∈ ga_explicit_path g ↔ path_visited (λ explicit, explicit = true) k.
Proof.
  rewrite gather_stages, (test_stage_same ga_explicit_path), (symbol_stage_same ga_explicit_path) by (first [by intros ? ? []|by intros ? []]).
  rewrite (path_stage_adds (λ s, k ∈ ga_explicit_path s) (λ explicit v, explicit = true ∧ v.2 = k)).
  - cbn [ga_explicit_path]. unfold path_visited. set_solver.
  - intros [] s [[[] p] k']; cbn [note_path ga_explicit_path]; set_solver.
Qed.
Lemma gathered_explicit_symbol k : k ∈ ga_explicit_symbol g ↔ symbol_visited (λ explicit, explicit = true) k.
Proof.
  rewrite gather_stages, (test_stage_same ga_explicit_symbol) by by intros ? [].
  rewrite (symbol_stage_adds (λ s, k ∈ ga_explicit_symbol s) (λ explicit v, explicit = true ∧ v.2 = k)).
  - rewrite (path_stage_same ga_explicit_symbol) by (intros ? ? [[] ?]; done). cbn [ga_explicit_symbol]. unfold symbol_visited. set_solver.
  - intros [] s [p k']; cbn [note_symbol ga_explicit_symbol]; set_solver.
Qed.
(** A property that every visit of [k] establishes. *)
Lemma gathered_visited (O : Gathering → Prop) k :
  (∀ explicit s v, O (note_path explicit s v) ↔ O s ∨ v.2 = k) → (∀ explicit s v, O (note_symbol explicit s v) ↔ O s ∨ v.2 = k) →
  (∀ s v, O (note_test s v) ↔ O s ∨ v.2 = k) → O g ↔ O start ∨ visited k.
Proof.
  intros Hp Hs Ht. rewrite gather_stages, (test_stage_adds O (λ v, v.2 = k)) by done.
  rewrite (symbol_stage_adds O (λ _ v, v.2 = k)), (path_stage_adds O (λ _ v, v.2 = k)) by done.
  unfold visited, path_visited, symbol_visited, test_visited. naive_solver.
Qed.
Lemma gathered_overlap k : k ∈ ga_overlap g ↔ visited k.
Proof.
  rewrite (gathered_visited (λ s, k ∈ ga_overlap s) k).
  - cbn [ga_overlap]. set_solver.
  - intros explicit s [[kind p] k']. cbn. set_solver.
  - intros explicit s [p k']. cbn. set_solver.
  - intros s [p k']. cbn. set_solver.
Qed.
Lemma gathered_scored k : is_Some (ga_scores g !! k) ↔ is_Some (base_scores f64_ln c (rq_tokens q) !! k) ∨ visited k.
Proof.
  apply (gathered_visited (λ s, is_Some (ga_scores s !! k)) k).
  - intros explicit s [[kind p] k']. cbn. rewrite or_insert_dom. naive_solver.
  - intros explicit s [p k']. cbn. rewrite or_insert_dom. naive_solver.
  - intros s [p k']. cbn. rewrite or_insert_dom. naive_solver.
Qed.
Lemma gathered_score k : default f64_zero (ga_scores g !! k) = default f64_zero (base_scores f64_ln c (rq_tokens q) !! k).
Proof.
  rewrite gather_stages. rewrite (test_stage_same (λ s, default f64_zero (ga_scores s !! k))) by (intros s [p k']; apply or_insert_default).
  rewrite (symbol_stage_same (λ s, default f64_zero (ga_scores s !! k))) by (intros explicit s [p k']; apply or_insert_default).
  by rewrite (path_stage_same (λ s, default f64_zero (ga_scores s !! k))) by (intros explicit s [[kind p] k']; apply or_insert_default).
Qed.

(** ** Of one document *)

Context (k : string) (d : RecallDocument) (Hd : docs !! k = Some d).
Local Abbreviation m := (doc_matches (workspace_root c) docs query options q d).

Lemma lists_doc f v : lists c f k v ↔ v ∈ f d.
Proof using Hd. unfold lists. rewrite Hd. naive_solver. Qed.

Lemma path_needle_elem explicit needle : (explicit, needle) ∈ path_needles options query ↔
  explicit = true ∧ needle ∈ ro_path_filters options ∨ explicit = false ∧ needle ∈ extract_query_path_terms query.
Proof. unfold path_needles. rewrite elem_of_app, !list_elem_of_fmap. naive_solver. Qed.
Lemma symbol_needle_elem explicit needle symbols tokens : (explicit, needle) ∈ symbol_needles symbols tokens ↔
  explicit = true ∧ needle ∈ symbols ∨ explicit = false ∧ needle ∈ tokens.
Proof. unfold symbol_needles. rewrite elem_of_app, !list_elem_of_fmap. naive_solver. Qed.
Lemma elem_of_snd {A B} (l : list (A * B)) b : b ∈ l.*2 ↔ ∃ a, (a, b) ∈ l.
Proof. rewrite list_elem_of_fmap. split; [intros ([a b'] & -> & ?); by exists a|intros [a Ha]; by exists (a, b)]. Qed.

Lemma doc_canonical : default ∅ (ga_canonical g !! k) = mt_canonical m.
Proof using Hindexed Hd.
  apply set_eq. intros v. rewrite gathered_canonical. cbn [mt_canonical doc_matches]. rewrite elem_of_found. setoid_rewrite needle_canonical; [|done].
  setoid_rewrite lists_doc. setoid_rewrite elem_of_snd. split.
  - intros ([e n] & Hn & Hv & Hm). split; [done|]. exists n. split; [by exists e|done].
  - intros (Hv & n & [e Hn] & Hm). by exists (e, n).
Qed.
Lemma doc_basename : default ∅ (ga_basename g !! k) = mt_basename m.
Proof using Hindexed Hd.
  apply set_eq. intros v. rewrite gathered_basename. cbn [mt_basename doc_matches]. rewrite elem_of_found. setoid_rewrite needle_basename; [|done].
  setoid_rewrite lists_doc. setoid_rewrite elem_of_snd. split.
  - intros ([e n] & Hn & Hv & Hm). split; [done|]. exists n. split; [by exists e|done].
  - intros (Hv & n & [e Hn] & Hm). by exists (e, n).
Qed.
Lemma symbols_ok : ref_index_ok docs rd_symbols (symbol_index c).
Proof using Hindexed. by destruct Hindexed as (_ & _ & _ & ? & _). Qed.
Lemma tests_ok : ref_index_ok docs rd_tests (test_index c).
Proof using Hindexed. by destruct Hindexed as (_ & _ & _ & _ & ? & _). Qed.
Lemma doc_symbols : default ∅ (ga_symbols g !! k) = mt_symbols m.
Proof using Hindexed Hd.
  apply set_eq. intros v. rewrite gathered_symbols. cbn [mt_symbols doc_matches]. rewrite elem_of_found.
  setoid_rewrite (needle_symbol c rd_symbols _ _ _ _ symbols_ok). setoid_rewrite lists_doc. setoid_rewrite elem_of_snd. split.
  - intros ([e n] & Hn & Hv & Hm). split; [done|]. exists n. split; [by exists e|done].
  - intros (Hv & n & [e Hn] & Hm). by exists (e, n).
Qed.

Lemma path_visited_doc (E : bool → Prop) : path_visited E k ↔ ∃ e n p, (e, n) ∈ path_needles options query ∧ E e ∧ p ∈ rd_paths d ∧
  (names_canonical (workspace_root c) n p = true ∨ names_basename (workspace_root c) docs n p = true).
Proof using Hindexed Hd.
  unfold path_visited. split.
  - intros ([e n] & Hn & [[kind p] k'] & Hv & He & Hk'). exists e, n, p. cbn [fst snd] in *. subst k'. split; [done|]. split; [done|].
    destruct kind; [apply needle_canonical in Hv|apply needle_basename in Hv]; try done; rewrite lists_doc in Hv; naive_solver.
  - intros (e & n & p & Hn & He & Hp & Hm). exists (e, n). split; [done|].
    destruct Hm as [Hm|Hm]; [exists (CanonicalMatch, p, k)|exists (BasenameMatch, p, k)]; (split; [|done]);
      [apply needle_canonical|apply needle_basename]; try done; by rewrite lists_doc.
Qed.
Lemma symbol_visited_doc (E : bool → Prop) : symbol_visited E k ↔ ∃ e n v, (e, n) ∈ symbol_needles (rq_symbols q) (rq_tokens q) ∧ E e ∧
  v ∈ rd_symbols d ∧ symbol_named n v = true.
Proof using Hindexed Hd.
  unfold symbol_visited. split.
  - intros ([e n] & Hn & [v k'] & Hv & He & Hk'). exists e, n, v. cbn [fst snd] in *. subst k'. apply (needle_symbol c rd_symbols) in Hv; [|apply symbols_ok].
    rewrite lists_doc in Hv. naive_solver.
  - intros (e & n & v & Hn & He & Hv & Hm). exists (e, n). split; [done|]. exists (v, k). split; [|done].
    apply (needle_symbol c rd_symbols); [apply symbols_ok|]. by rewrite lists_doc.
Qed.
Lemma test_visited_doc : test_visited k ↔ ∃ n v, n ∈ rq_tokens q ∧ v ∈ rd_tests d ∧ symbol_named n v = true.
Proof using Hindexed Hd.
  unfold test_visited. split.
  - intros (n & Hn & [v k'] & Hv & Hk'). exists n, v. cbn [fst snd] in *. subst k'. apply (needle_symbol c rd_tests) in Hv; [|apply tests_ok].
    rewrite lists_doc in Hv. naive_solver.
  - intros (n & v & Hn & Hv & Hm). exists n. split; [done|]. exists (v, k). split; [|done].
    apply (needle_symbol c rd_tests); [apply tests_ok|]. by rewrite lists_doc.
Qed.

Lemma doc_overlap : bool_decide (k ∈ ga_overlap g) = mt_overlap m.
Proof using Hindexed Hd.
  apply set_empty_bool. rewrite gathered_overlap. unfold visited. rewrite path_visited_doc, symbol_visited_doc, test_visited_doc.
  setoid_rewrite elem_of_union. setoid_rewrite elem_of_union. setoid_rewrite elem_of_union. setoid_rewrite elem_of_found.
  setoid_rewrite elem_of_snd. split.
  - intros (x & [[[(Hx & n & [e Hn] & Hm)|(Hx & n & [e Hn] & Hm)]|(Hx & n & [e Hn] & Hm)]|(Hx & n & Hn & Hm)]); naive_solver.
  - intros [(e & n & p & Hn & _ & Hp & Hm)|[(e & n & v & Hn & _ & Hv & Hm)|(n & v & Hn & Hv & Hm)]].
    + exists p. left. left. destruct Hm; [left|right]; (split; [done|]); exists n; eauto.
    + exists v. left. right. split; [done|]. exists n. eauto.
    + exists v. right. eauto.
Qed.
Lemma doc_explicit_path : bool_decide (k ∈ ga_explicit_path g) = mt_explicit_path m.
Proof using Hindexed Hd.
  apply set_empty_bool. rewrite gathered_explicit_path, path_visited_doc. setoid_rewrite elem_of_found. split.
  - intros (p & Hp & n & Hn & Hm%orb_true_iff). exists true, n, p. rewrite path_needle_elem. split; [by left|done].
  - intros (e & n & p & Hn & -> & Hp & Hm). exists p. split; [done|]. exists n. rewrite path_needle_elem in Hn.
    destruct Hn as [[_ Hn]|[? _]]; [|done]. split; [done|]. by apply orb_true_iff.
Qed.
Lemma doc_explicit_symbol : bool_decide (k ∈ ga_explicit_symbol g) = mt_explicit_symbol m.
Proof using Hindexed Hd.
  apply set_empty_bool. rewrite gathered_explicit_symbol, symbol_visited_doc. setoid_rewrite elem_of_found. split.
  - intros (v & Hv & n & Hn & Hm). exists true, n, v. rewrite symbol_needle_elem. split; [by left|done].
  - intros (e & n & v & Hn & -> & Hv & Hm). exists v. split; [done|]. exists n. rewrite symbol_needle_elem in Hn. destruct Hn as [[_ Hn]|[? _]]; done.
Qed.

Lemma matches_of_doc : matches_of g k = m.
Proof using Hindexed Hd.
  unfold matches_of. rewrite doc_canonical, doc_basename, doc_symbols, doc_overlap, doc_explicit_path, doc_explicit_symbol. done.
Qed.
End Gathered.

(** ** Scores *)

Section Scores.
Context (f64_ln : f64 → f64) (c : PacketCache) (Hpostings : postings_ok (recall_docs c) (recall_postings c)).
Local Abbreviation docs := (recall_docs c).

Lemma score_postings_dom idf l scores k :
  is_Some (foldl (score_posting c idf) scores l !! k) ↔ is_Some (scores !! k) ∨ ∃ posting, posting ∈ l ∧ posting.1 = k ∧ is_Some (docs !! k).
Proof.
  apply (foldl_adds _ (λ scores, is_Some (scores !! k)) (λ posting, posting.1 = k ∧ is_Some (docs !! k))).
  intros s [k' n]. unfold score_posting. cbn [fst snd]. destruct (docs !! k') as [d|] eqn:E.
  - rewrite lookup_insert_is_Some'. split; [intros [<-|?]; [right; by rewrite E|by left]|intros [?|[-> _]]; [by right|by left]].
  - split; [by left|]. intros [?|[-> [d Hd]]]; [done|congruence].
Qed.
Lemma score_postings_other idf l scores k : k ∉ l.*1 → foldl (score_posting c idf) scores l !! k = scores !! k.
Proof.
  revert scores. induction l as [|[k' n] l IH]; intros scores Hk; [done|]. apply not_elem_of_cons in Hk as [Hne Hk]. cbn [foldl].
  rewrite (IH _ Hk). unfold score_posting. cbn [fst snd]. destruct (docs !! k'); [|done]. by rewrite lookup_insert_ne.
Qed.
Lemma score_postings_own idf l scores k d n : NoDup l.*1 → (k, n) ∈ l → docs !! k = Some d →
  foldl (score_posting c idf) scores l !! k =
    Some (f64_add (default f64_zero (scores !! k))
            (bm25_score (f64_of_Z n) (f64_of_Z (rd_doc_length d)) (f64_max (recall_avg_doc_length c) (f64_of_Z 1)) idf)).
Proof.
  intros Hnd Hin Hd. revert scores. induction l as [|[k' n'] l IH]; intros scores; [by apply elem_of_nil in Hin|].
  apply NoDup_cons in Hnd as [Hk Hnd]. cbn [foldl]. apply elem_of_cons in Hin as [[= <- <-]|Hin].
  - rewrite (score_postings_other _ _ _ _ Hk). unfold score_posting. cbn [fst snd]. rewrite Hd. by rewrite lookup_insert_eq.
  - rewrite (IH Hnd Hin). unfold score_posting. cbn [fst snd]. destruct (docs !! k'); [|done]. rewrite lookup_insert_ne; [done|].
    intros ->. apply Hk, list_elem_of_fmap. by exists (k, n).
Qed.

Lemma posting_frequency token l : recall_postings c !! token = Some l → Z.of_nat (length l) = doc_frequency docs token.
Proof using Hpostings.
  intros Hl. destruct (Hpostings token) as (_ & Hnd & Hin). rewrite Hl in Hnd, Hin. simpl in Hnd, Hin. unfold doc_frequency. f_equal.
  rewrite <- size_dom, <- (length_fmap fst l), <- (size_list_to_set (C := gset string)) by done. f_equal. apply set_eq. intros k.
  rewrite elem_of_list_to_set, elem_of_dom, list_elem_of_fmap. split.
  - intros ([k' n] & -> & H1). apply Hin in H1 as (d & Hd & Hn). exists d. apply map_lookup_filter_Some. split; [done|]. simpl. by rewrite Hn.
  - intros [d Hd]. apply map_lookup_filter_Some in Hd as [Hd [n Hn]]. exists (k, n). split; [done|]. apply Hin. by exists d.
Qed.
Lemma no_postings token k d : recall_postings c !! token = None → docs !! k = Some d → rd_terms d !! token = None.
Proof using Hpostings.
  intros Hnone Hd. destruct (Hpostings token) as (_ & _ & Hin). rewrite Hnone in Hin. simpl in Hin.
  destruct (rd_terms d !! token) as [n|] eqn:E; [|done]. exfalso. apply (not_elem_of_nil (k, n)), Hin. by exists d.
Qed.

Lemma token_score_spec scores token k d : docs !! k = Some d →
  default f64_zero (score_token f64_ln c scores token !! k) =
  token_score f64_ln docs (recall_avg_doc_length c) d token (default f64_zero (scores !! k)).
Proof using Hpostings.
  intros Hd. unfold score_token, token_score. destruct (recall_postings c !! token) as [l|] eqn:Hl.
  - destruct (Hpostings token) as (_ & Hnd & Hin). rewrite Hl in Hnd, Hin. simpl in Hnd, Hin.
    destruct (rd_terms d !! token) as [n|] eqn:Hn.
    + rewrite (score_postings_own _ _ _ _ d n Hnd); [|apply Hin; by exists d|done]. simpl. by rewrite (posting_frequency _ _ Hl).
    + rewrite score_postings_other; [done|]. intros ([k' n] & Hk & H1)%list_elem_of_fmap. cbn in Hk. subst k'.
      apply Hin in H1 as (d' & Hd' & Hn'). congruence.
  - by rewrite (no_postings token k d).
Qed.
Lemma token_score_dom scores token k d : docs !! k = Some d →
  is_Some (score_token f64_ln c scores token !! k) ↔ is_Some (scores !! k) ∨ is_Some (rd_terms d !! token).
Proof using Hpostings.
  intros Hd. unfold score_token. destruct (recall_postings c !! token) as [l|] eqn:Hl.
  - destruct (Hpostings token) as (_ & Hnd & Hin). rewrite Hl in Hnd, Hin. simpl in Hnd, Hin. rewrite score_postings_dom. split.
    + intros [?|([k' n] & H1 & Hk & _)]; [by left|right]. cbn in Hk. subst k'. apply Hin in H1 as (d' & Hd' & Hn). simplify_eq. by rewrite Hn.
    + intros [?|[n Hn]]; [by left|right]. exists (k, n). split; [apply Hin; by exists d|]. by rewrite Hd.
  - rewrite (no_postings token k d) by done. split; [by left|]. intros [?|[x ?]]; [done|discriminate].
Qed.

Lemma base_scores_spec tokens k d : docs !! k = Some d →
  default f64_zero (base_scores f64_ln c tokens !! k) = doc_score f64_ln docs (recall_avg_doc_length c) tokens d ∧
  (is_Some (base_scores f64_ln c tokens !! k) ↔ tokens = [] ∨ ∃ token, token ∈ tokens ∧ is_Some (rd_terms d !! token)).
Proof using Hpostings.
  intros Hd. unfold base_scores, doc_score. case_bool_decide as Ht.
  { subst tokens. rewrite lookup_fmap, Hd. simpl. split; [done|]. split; [by left|by eexists]. }
  assert (Hfold : ∀ scores x, default f64_zero (scores !! k) = x →
    default f64_zero (foldl (score_token f64_ln c) scores tokens !! k) =
    foldl (λ score token, token_score f64_ln docs (recall_avg_doc_length c) d token score) x tokens).
  { clear Ht. induction tokens as [|token tokens IH]; intros scores x Hx; [done|]. cbn [foldl]. apply IH. by rewrite (token_score_spec _ _ _ d), Hx. }
  split; [by apply Hfold; rewrite lookup_empty|].
  rewrite (foldl_adds _ (λ scores, is_Some (scores !! k)) (λ token, is_Some (rd_terms d !! token)))
    by (intros scores token; by apply token_score_dom).
  rewrite lookup_empty. split; [intros [[x ?]|?]; [discriminate|by right]|intros [?|?]; [done|by right]].
Qed.
Lemma base_scores_docs tokens k : is_Some (base_scores f64_ln c tokens !! k) → is_Some (docs !! k).
Proof.
  unfold base_scores. case_bool_decide; [by rewrite lookup_fmap, fmap_is_Some|].
  assert (Hfold : ∀ scores, (is_Some (scores !! k) → is_Some (docs !! k)) →
    is_Some (foldl (score_token f64_ln c) scores tokens !! k) → is_Some (docs !! k)).
  { clear. induction tokens as [|token tokens IH]; intros scores Hs; [done|]. cbn [foldl]. apply IH. unfold score_token.
    destruct (recall_postings c !! token); [|done]. rewrite score_postings_dom. intros [?|(? & _ & _ & ?)]; auto. }
  apply Hfold. rewrite lookup_empty. by intros [].
Qed.
End Scores.

(** ** The order of hits *)

#[export] Instance hit_cmp_total : TotalCmp hit_cmp.
Proof.
  unfold hit_cmp. apply total_cmp_then; [|apply total_cmp_then].
  - apply (total_cmp_on rh_score (λ a b, f64_total_cmp b a)), _.
  - apply (total_cmp_on rh_created_at_unix (λ a b, Z.compare b a)), _.
  - apply (total_cmp_on rh_cache_key str_cmp), _.
Qed.

Lemma fmap_key_inj {A K} (key : A → K) l x y : NoDup (key <$> l) → x ∈ l → y ∈ l → key x = key y → x = y.
Proof.
  intros Hnd (i & Hx)%list_elem_of_lookup (j & Hy)%list_elem_of_lookup Hk.
  assert (i = j) as ->; [|congruence]. apply (NoDup_lookup _ _ _ (key x) Hnd); rewrite list_lookup_fmap; [by rewrite Hx|by rewrite Hy, Hk].
Qed.
Lemma hit_cmp_key a b : hit_cmp a b = Eq → rh_cache_key a = rh_cache_key b.
Proof. unfold hit_cmp. rewrite !then_with_Eq. intros (_ & _ & H1). by apply str_cmp_Eq in H1. Qed.
Lemma best_hits_perm limit l k : NoDup (rh_cache_key <$> l) → l ≡ₚ k → best_hits limit l = best_hits limit k.
Proof.
  intros Hnd Hp. unfold best_hits. rewrite (sort_by_cmp_perm_eq hit_cmp l k); [done| |done]. intros x y Hx Hy Hxy%hit_cmp_key.
  by apply (fmap_key_inj rh_cache_key l).
Qed.

(** Results that keep the key of what they are computed from. *)
Lemma NoDup_omap_key {A B K} (f : A → option B) (kb : B → K) (ka : A → K) l :
  (∀ x y, x ∈ l → f x = Some y → kb y = ka x) → NoDup (ka <$> l) → NoDup (kb <$> omap f l).
Proof.
  intros Hk. induction l as [|x l IH]; [done|]. rewrite fmap_cons. intros [Hx Hnd]%NoDup_cons. simpl.
  assert (IHl : NoDup (kb <$> omap f l)) by (apply IH; [intros y z Hy; apply Hk; by right|done]).
  destruct (f x) as [y|] eqn:E; [|done]. simpl. constructor; [|done]. rewrite (Hk x y); [|by left|done].
  intros (z & Hz & (x' & Hx' & Hfx)%list_elem_of_omap)%list_elem_of_fmap. apply Hx, list_elem_of_fmap. exists x'. split; [|done].
  rewrite Hz. apply Hk; [by right|done].
Qed.
Lemma judge_key q newest m base d h : judge q newest m base d = Some h → rh_cache_key h = rd_cache_key d.
Proof. unfold judge. destruct (passes_filters _ _ _ _ _); [|done]. cbn [negb]. destruct (_ || _); [done|]. by intros [= <-]. Qed.

Section Exact.
Context {ENV : CacheEnv} (f64_ln : f64 → f64) (c : PacketCache) (Hc : coherent c).
Local Abbreviation docs := (recall_docs c).
Context (query : string) (options : RecallOptions) (now : Z).
Local Abbreviation q := (recall_query query options now).
Local Abbreviation g := (gather_candidates f64_ln c query options (rq_symbols q) (rq_tokens q)).

Lemma doc_key k d : docs !! k = Some d → rd_cache_key d = k.
Proof using Hc.
  rewrite (coherent_doc_key c k Hc). intros (e & He & ->)%fmap_Some. rewrite build_key. by apply (co_keys c Hc).
Qed.
Lemma visited_docs k : visited c query options q k → is_Some (docs !! k).
Proof using Hc.
  pose proof (co_index c Hc) as Hi.
  intros [(n & _ & [[kind p] k'] & Hv & _ & Hk)|[(n & _ & [v k'] & Hv & _ & Hk)|(n & _ & [v k'] & Hv & Hk)]]; cbn in Hk; subst k'.
  - destruct kind; [apply (needle_canonical c Hi) in Hv|apply (needle_basename c Hi) in Hv]; destruct Hv as [(d & Hd & _) _]; by rewrite Hd.
  - apply (needle_symbol c rd_symbols _ _ _ _ (symbols_ok c Hi)) in Hv as [(d & Hd & _) _]. by rewrite Hd.
  - apply (needle_symbol c rd_tests _ _ _ _ (tests_ok c Hi)) in Hv as [(d & Hd & _) _]. by rewrite Hd.
Qed.

Lemma scored_candidate k d : docs !! k = Some d →
  is_Some (ga_scores g !! k) ↔ candidate q (doc_matches (workspace_root c) docs query options q d) d = true.
Proof using Hc.
  intros Hd. pose proof (co_index c Hc) as Hi. rewrite gathered_scored. unfold candidate.
  rewrite <- (gathered_overlap f64_ln c Hi query options q k), <- (doc_overlap f64_ln c Hi query options q k d Hd).
  destruct (base_scores_spec f64_ln c (proj1 Hi) (rq_tokens q) k d Hd) as [_ ->].
  rewrite orb_true_iff, orb_true_iff, bool_decide_eq_true, bool_decide_eq_true, existsb_exists.
  setoid_rewrite bool_decide_eq_true. setoid_rewrite <- list_elem_of_In. done.
Qed.
Lemma scored_value k d s : docs !! k = Some d → ga_scores g !! k = Some s → s = doc_score f64_ln docs (recall_avg_doc_length c) (rq_tokens q) d.
Proof using Hc.
  intros Hd Hs. pose proof (gathered_score f64_ln c query options q k) as Hg. rewrite Hs in Hg. simpl in Hg. rewrite Hg.
  by apply (base_scores_spec f64_ln c (proj1 (co_index c Hc))).
Qed.

Lemma recall_scan : recall f64_ln c query options now =
  recall_reference f64_ln (workspace_root c) docs (recall_avg_doc_length c) query options now.
Proof using Hc.
  unfold recall, recall_reference. change (tokenize query) with (rq_tokens q). cbv zeta. destruct (empty_query _ _); [done|].
  set (newest := newest_curated_by_dedupe _). set (f := λ e : string * f64, docs !! e.1 ≫= judge q newest (matches_of g e.1) e.2).
  assert (Hkey : ∀ e h, f e = Some h → rh_cache_key h = e.1).
  { intros e h (d & Hd & H1)%bind_Some. rewrite (judge_key _ _ _ _ _ _ H1). by apply doc_key. }
  assert (Hnd1 : NoDup (rh_cache_key <$> omap f (map_to_list (ga_scores g)))).
  { apply (NoDup_omap_key f rh_cache_key fst); [intros e h _; apply Hkey|apply NoDup_fst_map_to_list]. }
  assert (Hnd2 : NoDup (rh_cache_key <$> omap (doc_hit f64_ln (workspace_root c) docs (recall_avg_doc_length c) query options now) (map_to_list docs).*2)).
  { apply (NoDup_omap_key _ rh_cache_key rd_cache_key).
    - intros d h _. unfold doc_hit. destruct (candidate _ _ _); [|done]. apply judge_key.
    - rewrite <- list_fmap_compose. assert (Heq : (rd_cache_key ∘ snd) <$> map_to_list docs = (map_to_list docs).*1).
      { apply list_fmap_ext. intros i [k d] Hi. cbn. apply doc_key, elem_of_map_to_list. by eapply list_elem_of_lookup_2. }
      rewrite Heq. apply NoDup_fst_map_to_list. }
  apply best_hits_perm; [done|]. apply NoDup_Permutation; [by eapply NoDup_fmap_1|by eapply NoDup_fmap_1|].
  intros h. rewrite !list_elem_of_omap. split.
  - intros ([k s] & Hs%elem_of_map_to_list & (d & Hd & H1)%bind_Some). cbn [fst snd] in *. exists d. split.
    + apply list_elem_of_fmap. exists (k, d). by rewrite elem_of_map_to_list.
    + unfold doc_hit. rewrite (proj1 (scored_candidate k d Hd)) by (by eexists).
      rewrite (matches_of_doc f64_ln c (co_index c Hc) query options q k d Hd), (scored_value k d s Hd Hs) in H1. exact H1.
  - intros (d & ([k d'] & -> & Hd%elem_of_map_to_list)%list_elem_of_fmap & H1). cbn [snd] in *. unfold doc_hit in H1.
    destruct (candidate _ _ _) eqn:Hcand; [|done]. apply (scored_candidate k d' Hd) in Hcand as [s Hs]. exists (k, s).
    rewrite elem_of_map_to_list. split; [done|]. unfold f. cbn [fst snd].
    rewrite Hd, (matches_of_doc f64_ln c (co_index c Hc) query options q k d' Hd), (scored_value k d' s Hd Hs). exact H1.
Qed.
End Exact.

(** ** The newest document of a dedupe key *)

(** The stamp of a curated document under its dedupe key. *)
Definition curated_stamp (dedupe_key : string) (d : RecallDocument) : option (Z * string) :=
  match rd_source_tier d with
  | CuratedMemory => if bool_decide (rd_dedupe_key d = Some dedupe_key) then Some (rd_created_at_unix d, rd_cache_key d) else None
  | _ => None
  end.
Definition stamp_leb (a b : Z * string) : bool := (a.1 <? b.1)%Z || ((a.1 =? b.1)%Z && str_leb a.2 b.2).

Lemma stamp_leb_total a b : stamp_leb a b = false → stamp_leb b a = true.
Proof.
  unfold stamp_leb. intros [H1 H2]%orb_false_iff. apply orb_true_iff. destruct (Z.eqb_spec a.1 b.1) as [He|]; [|left; lia].
  right. apply andb_true_iff. split; [lia|]. by apply str_leb_total.
Qed.
Lemma stamp_leb_refl a : stamp_leb a a = true.
Proof. unfold stamp_leb. by rewrite Z.eqb_refl, str_leb_refl, orb_true_r. Qed.
Lemma stamp_leb_trans a b c : stamp_leb a b = true → stamp_leb b c = true → stamp_leb a c = true.
Proof.
  unfold stamp_leb. rewrite !orb_true_iff, !andb_true_iff.
  intros [H1|[H1 H2]] [H3|[H3 H4]]; [left; lia..|right]. split; [lia|by eapply str_leb_trans].
Qed.

Lemma newest_step_lookup acc d k : newest_step acc d !! k =
  match curated_stamp k d with
  | Some stamp => match acc !! k with Some seen => if stamp_leb stamp seen then Some seen else Some stamp | None => Some stamp end
  | None => acc !! k
  end.
Proof.
  unfold newest_step, curated_stamp. destruct (rd_source_tier d); try done. destruct (rd_dedupe_key d) as [dk|]; [|done].
  case_bool_decide as Hk.
  - injection Hk as ->. destruct (acc !! k) as [[t key]|] eqn:E; [|by rewrite lookup_insert_eq].
    assert (Hu : (t <? rd_created_at_unix d)%Z || ((rd_created_at_unix d =? t)%Z && str_ltb key (rd_cache_key d)) =
                 negb (stamp_leb (rd_created_at_unix d, rd_cache_key d) (t, key))).
    { unfold stamp_leb, str_ltb. cbn [fst snd]. destruct (Z.ltb_spec t (rd_created_at_unix d)), (Z.ltb_spec (rd_created_at_unix d) t),
        (Z.eqb_spec (rd_created_at_unix d) t); try lia; by destruct (str_leb _ _). }
    rewrite Hu. destruct (stamp_leb _ _); cbn [negb]; [done|by rewrite lookup_insert_eq].
  - assert (dk ≠ k) by congruence. repeat case_match; try done; by rewrite lookup_insert_ne.
Qed.

Lemma newest_spec docs k :
  match newest_curated_by_dedupe docs !! k with
  | Some stamp => stamp ∈ omap (curated_stamp k) docs ∧ ∀ stamp', stamp' ∈ omap (curated_stamp k) docs → stamp_leb stamp' stamp = true
  | None => omap (curated_stamp k) docs = []
  end.
Proof.
  unfold newest_curated_by_dedupe. induction docs as [|d docs IH] using rev_ind; [done|].
  rewrite foldl_app. cbn [foldl]. rewrite newest_step_lookup, omap_app. simpl. destruct (foldl newest_step ∅ docs !! k) as [seen|].
  - destruct IH as [Hin Hmax]. destruct (curated_stamp k d) as [stamp|] eqn:E; [|by rewrite app_nil_r].
    destruct (stamp_leb stamp seen) eqn:El; (split; [set_solver|]); intros s [Hs| ->%list_elem_of_singleton]%elem_of_app;
      auto using stamp_leb_refl. apply stamp_leb_total in El. by eapply stamp_leb_trans; [apply Hmax|].
  - rewrite IH. destruct (curated_stamp k d) as [stamp|]; [|done]. split; [by apply list_elem_of_singleton|].
    by intros s ->%list_elem_of_singleton; apply stamp_leb_refl.
Qed.

(** ** What a hit satisfies *)

(** Every filter of the options; and unless superseded entries are asked for,
    the document is not marked superseded and is the newest of the curated
    documents with its dedupe key, if there are any. *)
Record admissible `{!RecallEnv} (root : option string) (docs : gmap string RecallDocument) (options : RecallOptions) (d : RecallDocument) : Prop := {
  ad_path : ro_path_filters options = [] ∨
    ∃ needle p, needle ∈ ro_path_filters options ∧ p ∈ rd_paths d ∧ names_canonical root needle p || names_basename root docs needle p = true;
  ad_symbol : ro_symbol_filters options = [] ∨
    ∃ needle s, needle ∈ ro_symbol_filters options ∧ s ∈ rd_symbols d ∧ symbol_named (str_to_ascii_lowercase needle) s = true;
  ad_target : ∀ target, ro_target options = Some target → contains (str_to_ascii_lowercase target) (str_to_ascii_lowercase (rd_target d)) = true;
  ad_since : ∀ t, ro_since_unix options = Some t → (t <= rd_created_at_unix d)%Z;
  ad_until : ∀ t, ro_until_unix options = Some t → (rd_created_at_unix d <= t)%Z;
  ad_types : ∀ t, t ∈ ro_packet_types options → ∃ t', t' ∈ rd_packet_types d ∧ contains (str_to_ascii_lowercase t) t' = true;
  ad_task : ro_scope options = TaskOnly → ∃ t, ro_task_id options = Some t ∧ str_to_ascii_lowercase t ∈ rd_task_ids d;
  ad_current : ro_include_debug options = false → rd_superseded d = false ∧
    ∀ k d' dedupe, docs !! k = Some d' → rd_source_tier d' = CuratedMemory → rd_dedupe_key d' = Some dedupe → rd_dedupe_key d = Some dedupe →
      rd_source_tier d = CuratedMemory ∧ stamp_leb (rd_created_at_unix d', rd_cache_key d') (rd_created_at_unix d, rd_cache_key d) = true
}.

Section Hits.
Context `{!RecallEnv} (root : option string) (docs : gmap string RecallDocument) (options : RecallOptions) (query : string) (now : Z).
Hypothesis keys : map_Forall (λ k d, rd_cache_key d = k) docs.
Local Abbreviation newest := (newest_curated_by_dedupe (map_to_list docs).*2).

Lemma elem_of_doc_list d : d ∈ (map_to_list docs).*2 ↔ ∃ k, docs !! k = Some d.
Proof.
  rewrite list_elem_of_fmap. split; [intros ([k d'] & -> & Hd%elem_of_map_to_list); by exists k|].
  intros [k Hd]. exists (k, d). by rewrite elem_of_map_to_list.
Qed.
Lemma curated_stamp_Some dedupe d stamp : curated_stamp dedupe d = Some stamp ↔
  rd_source_tier d = CuratedMemory ∧ rd_dedupe_key d = Some dedupe ∧ stamp = (rd_created_at_unix d, rd_cache_key d).
Proof. unfold curated_stamp. destruct (rd_source_tier d); try naive_solver. case_bool_decide; naive_solver. Qed.

Lemma not_superseded_newest k d : docs !! k = Some d → dedupe_superseded newest d = false →
  ∀ k' d' dedupe, docs !! k' = Some d' → rd_source_tier d' = CuratedMemory → rd_dedupe_key d' = Some dedupe → rd_dedupe_key d = Some dedupe →
    rd_source_tier d = CuratedMemory ∧ stamp_leb (rd_created_at_unix d', rd_cache_key d') (rd_created_at_unix d, rd_cache_key d) = true.
Proof using keys.
  intros Hd Hs k' d' dedupe Hd' Htier Hdk' Hdk. pose proof (newest_spec (map_to_list docs).*2 dedupe) as Hn.
  assert (Hin : (rd_created_at_unix d', rd_cache_key d') ∈ omap (curated_stamp dedupe) (map_to_list docs).*2).
  { apply list_elem_of_omap. exists d'. rewrite elem_of_doc_list, curated_stamp_Some. eauto. }
  unfold dedupe_superseded in Hs. rewrite Hdk in Hs. simpl in Hs. destruct (newest !! dedupe) as [[t key]|].
  - destruct Hn as [(d2 & Hd2 & H2)%list_elem_of_omap Hmax]. apply negb_false_iff, bool_decide_eq_true in Hs. subst key.
    apply elem_of_doc_list in Hd2 as [k2 Hd2]. apply curated_stamp_Some in H2 as (Hcurated & _ & [= -> Hkey]).
    assert (d2 = d) as ->; [|split; [done|by apply Hmax]]. apply keys in Hd as Hk. apply keys in Hd2 as Hk2. congruence.
  - rewrite Hn in Hin. by apply elem_of_nil in Hin.
Qed.

Lemma lower_filter_nil (l : list string) : (str_to_ascii_lowercase <$> l = []) → l = [].
Proof. by destruct l. Qed.
Lemma found_some names needles items : negb (bool_decide (found names needles items = ∅)) = true →
  ∃ needle x, needle ∈ needles ∧ x ∈ items ∧ names needle x = true.
Proof.
  intros H1%negb_true_iff%bool_decide_eq_false. apply set_choose_L in H1 as [x (Hx & needle & Hn & Hm)%elem_of_found]. by exists needle, x.
Qed.

Lemma passes_admissible k d : docs !! k = Some d →
  let q := recall_query query options now in
  let m := doc_matches root docs query options q d in
  passes_filters q (rd_superseded d || dedupe_superseded newest d) (mt_explicit_path m) (mt_explicit_symbol m) d = true →
  admissible root docs options d.
Proof using keys.
  intros Hd q m. unfold passes_filters. cbn [q recall_query rq_options rq_symbols rq_target rq_packet_types].
  rewrite !andb_true_iff. intros [[[[[[[Hp Hs] Hsup] Ht] Hsince] Huntil] Htypes] Hscope]. split.
  - apply orb_true_iff in Hp as [Hp%bool_decide_eq_true|Hp]; [by left|right]. by apply found_some in Hp.
  - apply orb_true_iff in Hs as [Hs%bool_decide_eq_true%lower_filter_nil|Hs]; [by left|right].
    apply found_some in Hs as (n & s & (n' & -> & Hn)%list_elem_of_fmap & Hin & Hm). by exists n', s.
  - intros target Heq. rewrite Heq in Ht. exact Ht.
  - intros t Heq. rewrite Heq in Hsince. lia.
  - intros t Heq. rewrite Heq in Huntil. lia.
  - intros t Hin. rewrite forallb_forall in Htypes. setoid_rewrite <- list_elem_of_In in Htypes.
    assert (Ht2 := Htypes (str_to_ascii_lowercase t) ltac:(by apply list_elem_of_fmap_2)).
    apply existsb_exists in Ht2 as (t' & H1%list_elem_of_In & H2). by exists t'.
  - intros Heq. rewrite Heq in Hscope. unfold task_scoped in Hscope. cbn in Hscope. destruct (ro_task_id options) as [t|]; [|done].
    exists t. split; [done|]. by apply bool_decide_eq_true in Hscope.
  - intros Hdbg. rewrite Hdbg, orb_false_r in Hsup. apply negb_true_iff, orb_false_iff in Hsup as [Hsup Hnew]. split; [done|].
    by eapply not_superseded_newest.
Qed.

Lemma reference_hits f64_ln avg h : h ∈ recall_reference f64_ln root docs avg query options now →
  ∃ d, docs !! rh_cache_key h = Some d ∧ admissible root docs options d.
Proof using keys.
  unfold recall_reference. destruct (empty_query _ _); [by intros ?%elem_of_nil|]. unfold best_hits.
  intros Hh%elem_of_take. destruct Hh as (i & Hh & _). apply list_elem_of_lookup_2, elem_of_sort_by_cmp, list_elem_of_omap in Hh as (d & Hd & Hh).
  apply elem_of_doc_list in Hd as [k Hd]. unfold doc_hit in Hh. destruct (candidate _ _ _); [|done].
  exists d. rewrite (judge_key _ _ _ _ _ _ Hh), (keys k d Hd). split; [done|]. apply (passes_admissible k d Hd).
  unfold judge in Hh. by destruct (passes_filters _ _ _ _ _).
Qed.
Lemma reference_bounds f64_ln avg : length (recall_reference f64_ln root docs avg query options now) ≤ Nat.max (ro_limit options) 1.
Proof. unfold recall_reference. destruct (empty_query _ _); [simpl; lia|]. unfold best_hits. rewrite length_take. lia. Qed.
End Hits.

(** ** The statement *)

(** Two packets that name a file each. *)
Definition path_packet (path : string) : CachePacket :=
  mkCachePacket None (JObject [("files", JArray [JObject [("path", JString path)]])]%string) None None JNull.
Definition path_ops : list CacheOp :=
  [OpPut "agent" (JString "a") None [path_packet "src/auth.rs"] JNull 5; OpPut "agent" (JString "b") None [path_packet "src/pay.rs"] JNull 6]%string.
Definition path_options : RecallOptions := mkRecallOptions 3 (Some 1%Z) None None None Global [] ["auth.rs"]%string [] AutoMode false.

(** C17: recall through the indexes is a scan of the documents. On a cache whose indexes
    are those of its documents, the hits of a query are what judging every document by
    its own terms, paths, symbols and tests gives, in the same order with the same
    scores; at most the limit (or one) are returned, and the document of every hit
    satisfies each filter of the options and, unless superseded entries are asked for,
    is not marked superseded and, when some curated document has its dedupe key, is the
    newest of the curated documents with that key (standard documents do not supersede
    each other). *)
Theorem recall_exact {ENV : CacheEnv} (f64_ln : f64 → f64) (c : PacketCache) (query : string) (options : RecallOptions) (now : Z) :
  coherent c →
  let hits := recall f64_ln c query options now in
  hits = recall_reference f64_ln (workspace_root c) (recall_docs c) (average_of c) query options now ∧
  length hits ≤ Nat.max (ro_limit options) 1 ∧
  ∀ h, h ∈ hits → ∃ d, recall_docs c !! rh_cache_key h = Some d ∧ admissible (workspace_root c) (recall_docs c) options d.
Proof.
  intros Hc hits. assert (Heq : hits = recall_reference f64_ln (workspace_root c) (recall_docs c) (average_of c) query options now).
  { unfold hits. rewrite <- (co_average c Hc). by apply recall_scan. }
  split; [exact Heq|]. rewrite Heq. split; [apply reference_bounds|].
  apply reference_hits. intros k d. by apply doc_key.
Qed.

Lemma recall_exact_witness :
  let c := (run (@run_op MemoryExample.example_cache) (new_cache None) path_ops).1 in
  (λ h, (rh_cache_key h, rh_matched_paths h)) <$> @recall MemoryExample.example_recall (λ x, x) c "agent" path_options 9
    = [("agent::a", ["src/auth.rs"])]%string ∧
  ∃ d, recall_docs c !! "agent::a"%string = Some d ∧
    @admissible MemoryExample.example_recall (workspace_root c) (recall_docs c) path_options d.
Proof.
  intros c. assert (Hhits : (λ h, (rh_cache_key h, rh_matched_paths h)) <$> @recall MemoryExample.example_recall (λ x, x) c "agent" path_options 9
    = [("agent::a", ["src/auth.rs"])]%string) by (vm_compute; reflexivity).
  split; [exact Hhits|].
  pose proof (@run_represents MemoryExample.example_cache None _ _ path_ops (@represents_new MemoryExample.example_cache None)
    ltac:(vm_compute; discriminate)) as Hrun.
  destruct (@recall_exact MemoryExample.example_cache (λ x, x) c "agent" path_options 9) as (_ & _ & H).
  { unfold c. destruct (run (@run_op MemoryExample.example_cache) _ _), (run (@spec_op MemoryExample.example_cache) _ _). apply Hrun. }
  assert (Hin : ("agent::a"%string, ["src/auth.rs"%string]) ∈ (λ h, (rh_cache_key h, rh_matched_paths h)) <$> @recall MemoryExample.example_recall (λ x, x) c "agent" path_options 9)
    by (rewrite Hhits; constructor).
  apply list_elem_of_fmap in Hin as (h & Hk & Hin). injection Hk as -> _. exact (H h Hin).
Defined.

