(* ===== verification/RelatedSpec.v ===== *)
(** * RelatedSpec: the entries related to paths, symbols and tests

    Which entries are returned and what is listed for each, stated on the
    documents of the cache; the order inside a list is that of a [HashMap],
    so the lists are given up to order. *)

From S2P Require Export RecallSpec.
From S2P Require Import MemoryExample.

(** ** What relates a document *)

Definition field (kind : RelatedKind) (m : RelatedEntryMatch) : list string :=
  match kind with
  | PathRelated CanonicalMatch => rm_canonical_path_matches m
  | PathRelated BasenameMatch => rm_basename_path_matches m
  | SymbolRelated => rm_symbol_matches m
  | TestRelated => rm_test_matches m
  end.

(** The value of the document that an argument names: a path it lists; a path
    it lists that is the only one with its last component, which is that of
    an argument no document lists; a symbol or test that contains one. *)
Definition related (docs : gmap string RecallDocument) (paths symbols tests : list string) (d : RecallDocument)
    (kind : RelatedKind) (v : string) : Prop :=
  match kind with
  | PathRelated CanonicalMatch => v ∈ rd_paths d ∧ v ∈ paths
  | PathRelated BasenameMatch => v ∈ rd_paths d ∧
      ∃ path b, path ∈ paths ∧ path ∉ all_paths docs ∧ basename_alias path = Some b ∧ alias_set (all_paths docs) b = {[v]}
  | SymbolRelated => v ∈ rd_symbols d ∧ ∃ item, item ∈ symbols ∧ symbol_named (str_to_ascii_lowercase item) v = true
  | TestRelated => v ∈ rd_tests d ∧ ∃ item, item ∈ tests ∧ symbol_named (str_to_ascii_lowercase item) v = true
  end.
Definition of_task (task_id : option string) (d : RecallDocument) : Prop :=
  match task_id with Some t => str_to_ascii_lowercase t ∈ rd_task_ids d | None => True end.

(** ** Collecting matches *)

Lemma push_unique_elem l x y : y ∈ push_unique l x ↔ y ∈ l ∨ y = x.
Proof. unfold push_unique. case_bool_decide; set_solver. Qed.
Lemma push_unique_NoDup l x : NoDup l → NoDup (push_unique l x).
Proof. unfold push_unique. case_bool_decide; [done|]. intros. apply NoDup_app. split_and!; [done|set_solver|apply NoDup_singleton]. Qed.

Lemma push_related_entry kind v m : rm_entry (push_related kind v m) = rm_entry m.
Proof. destruct m, kind as [[]| |]; done. Qed.
Lemma push_related_field kind v m kind' : field kind' (push_related kind v m) = if decide (kind = kind') then push_unique (field kind' m) v else field kind' m.
Proof. by destruct m, kind as [[]| |], kind' as [[]| |]. Qed.

Section Collect.
Context (c : PacketCache) (task_keys : option (gset string)).

(** What has been collected for a key from the visits so far. *)
Definition collected (vs : list (RelatedKind * string * string)) (k : string) (item : option RelatedEntryMatch) : Prop :=
  match item with
  | Some m =>
      task_match_allowed k task_keys = true ∧ entries_by_hash c !! k = Some (rm_entry m) ∧ (∃ kind v, (kind, v, k) ∈ vs) ∧
      ∀ kind, NoDup (field kind m) ∧ ∀ v, v ∈ field kind m ↔ (kind, v, k) ∈ vs
  | None => ∀ kind v, (kind, v, k) ∈ vs → task_match_allowed k task_keys = false ∨ entries_by_hash c !! k = None
  end.

Lemma collected_other vs k x item : x.2 ≠ k → collected vs k item → collected (vs ++ [x]) k item.
Proof.
  intros Hx. assert (Hin : ∀ kind v, (kind, v, k) ∈ vs ++ [x] ↔ (kind, v, k) ∈ vs) by (intros; destruct x; set_solver).
  destruct item as [m|]; cbn [collected]; setoid_rewrite Hin; done.
Qed.
Lemma collected_skip vs k x : task_match_allowed k task_keys = false ∨ entries_by_hash c !! k = None →
  ∀ item, collected vs k item → collected (vs ++ [x]) k item.
Proof.
  intros Hno [m|]; cbn [collected]; [intros (Ha & He & _); destruct Hno; congruence|]. done.
Qed.
Lemma collected_pushed vs k kind v e item : task_match_allowed k task_keys = true → entries_by_hash c !! k = Some e →
  collected vs k item → collected (vs ++ [(kind, v, k)]) k (Some (push_related kind v (default (mkRelatedEntryMatch e [] [] [] []) item))).
Proof.
  intros Ha He Hitem. set (m := default _ item).
  assert (Hm : entries_by_hash c !! k = Some (rm_entry m) ∧ ∀ kind, NoDup (field kind m) ∧ ∀ v, v ∈ field kind m ↔ (kind, v, k) ∈ vs).
  { destruct item as [m'|]; [by destruct Hitem as (_ & ? & _ & ?)|]. split; [done|]. intros kind'. unfold m. simpl.
    assert (Hnil : field kind' (mkRelatedEntryMatch e [] [] [] []) = []) by by destruct kind' as [[]| |].
    rewrite Hnil. split; [constructor|]. intros v'. rewrite elem_of_nil. split; [done|]. intros Hv. destruct (Hitem _ _ Hv); congruence. }
  destruct Hm as [Hentry Hfields]. cbn [collected]. rewrite push_related_entry. split_and!; [done|done|exists kind, v; set_solver|].
  intros kind'. destruct (Hfields kind') as [Hnd Hin]. rewrite push_related_field. destruct (decide (kind = kind')) as [<-|Hne].
  - split; [by apply push_unique_NoDup|]. intros v'. rewrite push_unique_elem, Hin. set_solver.
  - split; [done|]. intros v'. rewrite Hin. set_solver.
Qed.

Lemma collect_spec vs k : collected vs k (foldl (note_related c task_keys) ∅ vs !! k).
Proof.
  induction vs as [|[[kind v] k'] vs IH] using rev_ind; [cbn [foldl]; by rewrite lookup_empty; intros ? ? ?%elem_of_nil|].
  rewrite foldl_app. cbn [foldl note_related]. destruct (decide (k' = k)) as [->|Hne].
  - destruct (task_match_allowed k task_keys) eqn:Ha; cbn [negb]; [|apply collected_skip; [by left|done]].
    destruct (entries_by_hash c !! k) as [e|] eqn:He; [|apply collected_skip; [by right|done]].
    rewrite lookup_insert_eq. by apply collected_pushed.
  - destruct (negb _); [by apply collected_other|]. destruct (entries_by_hash c !! k') as [e|]; [|by apply collected_other].
    rewrite lookup_insert_ne by done. by apply collected_other.
Qed.
End Collect.

(** ** What the indexes visit *)

Section Visits.
Context (c : PacketCache) (Hindexed : indexed c).
Local Abbreviation docs := (recall_docs c).

Lemma elem_of_related_paths path kind v k : (kind, v, k) ∈ related_path_visits c path ↔
  ∃ d, docs !! k = Some d ∧ v ∈ rd_paths d ∧
    (kind = PathRelated CanonicalMatch ∧ v = path ∨
     kind = PathRelated BasenameMatch ∧ path ∉ all_paths docs ∧
       ∃ b, basename_alias path = Some b ∧ alias_set (all_paths docs) b = {[v]}).
Proof using Hindexed.
  unfold related_path_visits. rewrite list_elem_of_fmap.
  assert (Hmap : ∀ l : list (PathMatch * string * string),
    (∃ y, (kind, v, k) = prod_map (prod_map PathRelated id) id y ∧ y ∈ l) ↔ ∃ m, kind = PathRelated m ∧ (m, v, k) ∈ l).
  { intros l. split; [intros ([[m v'] k'] & [= -> -> ->] & ?); eauto|intros (m & -> & ?); by exists (m, v, k)]. }
  rewrite Hmap. clear Hmap. pose proof (file_index_lookup c Hindexed path) as Hfile. destruct (file_ref_index c !! path) as [s|].
  - setoid_rewrite (elem_of_visits c Hindexed). split.
    + intros (m & -> & -> & -> & d & Hd & Hv). eauto 10.
    + intros (d & Hd & Hv & [[-> ->]|(-> & Hn & _)]); [exists CanonicalMatch; split_and!; [done..|by exists d]|].
      exfalso. apply Hn, Hfile. by eexists.
  - assert (Hnot : path ∉ all_paths docs) by (rewrite <- Hfile; by intros []).
    assert (Hown : ∀ d, docs !! k = Some d → v ∈ rd_paths d → v ≠ path).
    { intros d Hd Hv ->. apply Hnot. apply elem_of_all_paths. by exists k, d. }
    assert (Hvisits : (∃ m, kind = PathRelated m ∧ (m, v, k) ∈ match basename_alias path ≫= (λ b, basename_alias_index c !! b) with
        | Some canonicals => unique_visits c canonicals | None => [] end) ↔
      kind = PathRelated BasenameMatch ∧ lists c rd_paths k v ∧ ∃ b, basename_alias path = Some b ∧ alias_set (all_paths docs) b = {[v]}).
    { destruct (basename_alias path) as [b|]; simpl; [|setoid_rewrite elem_of_nil; naive_solver].
      rewrite (alias_lookup c Hindexed). unfold nonempty. case_bool_decide as Hempty.
      - split; [by intros (? & _ & ?%elem_of_nil)|]. intros (_ & _ & b' & [= <-] & Hs). set_solver.
      - setoid_rewrite (elem_of_unique_visits c Hindexed). naive_solver. }
    rewrite Hvisits. unfold lists. split.
    + intros (-> & (d & Hd & Hv) & Hb). exists d. split_and!; [done..|]. right. done.
    + intros (d & Hd & Hv & [[_ ->]|(-> & _ & Hb)]); [by destruct (Hown d Hd Hv)|]. eauto.
Qed.

Context (iterate : RefIndex → list (string * gset string)) (Hiterate : ∀ idx, iterate idx ≡ₚ map_to_list idx).

Lemma elem_of_related_texts (f : RecallDocument → list string) idx kind item kind' v k : ref_index_ok docs f idx →
  (kind', v, k) ∈ related_text_visits iterate kind idx item ↔ kind' = kind ∧ lists c f k v ∧ symbol_named (str_to_ascii_lowercase item) v = true.
Proof using Hiterate.
  intros Hok. rewrite <- (needle_symbol c f idx _ v k Hok). unfold related_text_visits, symbol_visits. rewrite !list_elem_of_bind.
  setoid_rewrite Hiterate. split.
  - intros (e & He & Hin). destruct (text_matches _ _) eqn:E; [|by apply elem_of_nil in He].
    apply list_elem_of_fmap in He as (k' & [= -> -> ->] & Hk). split; [done|]. exists e. rewrite E. split; [|done]. apply list_elem_of_fmap. by exists k'.
  - intros (-> & e & He & Hin). exists e. split; [|done]. destruct (text_matches _ _); [|by apply elem_of_nil in He].
    apply list_elem_of_fmap in He as (k' & [= -> ->] & Hk). apply list_elem_of_fmap. by exists k'.
Qed.

Lemma elem_of_related_visits paths symbols tests kind v k : (kind, v, k) ∈ related_visits iterate c paths symbols tests ↔
  ∃ d, docs !! k = Some d ∧ related docs paths symbols tests d kind v.
Proof using Hindexed Hiterate.
  unfold related_visits. rewrite !elem_of_app, !list_elem_of_bind. setoid_rewrite elem_of_related_paths.
  setoid_rewrite (elem_of_related_texts rd_symbols _ _ _ _ _ _ (symbols_ok c Hindexed)).
  setoid_rewrite (elem_of_related_texts rd_tests _ _ _ _ _ _ (tests_ok c Hindexed)). unfold lists. split.
  - intros [(p & (d & Hd & Hv & [[-> ->]|(-> & Hn & b & Hb & Hs)]) & Hp)|[(i & (-> & (d & Hd & Hv) & Hm) & Hi)|(i & (-> & (d & Hd & Hv) & Hm) & Hi)]];
      exists d; (split; [done|]); cbn [related]; eauto 10.
  - intros (d & Hd & Hrel). destruct kind as [[]| |]; cbn [related] in Hrel.
    + destruct Hrel as [Hv Hp]. left. exists v. eauto 10.
    + destruct Hrel as (Hv & path & b & Hp & Hn & Hb & Hs). left. exists path. eauto 10.
    + destruct Hrel as (Hv & i & Hi & Hm). right. left. exists i. eauto 10.
    + destruct Hrel as (Hv & i & Hi & Hm). right. right. exists i. eauto 10.
Qed.
End Visits.

(** ** The entries *)

Local Abbreviation entry_key m := (pe_cache_key (rm_entry m)).

#[export] Instance related_cmp_total : TotalCmp related_cmp.
Proof. apply (total_cmp_on (λ m, entry_key m) str_cmp), _. Qed.

(** A sorted list of distinct elements is strictly sorted. *)
Lemma sorted_strict {A} (cmp : A → A → comparison) l : StronglySorted (λ a b, cmp_leb cmp a b = true) l →
  (∀ i j x y, l !! i = Some x → l !! j = Some y → cmp x y = Eq → i = j) → StronglySorted (λ a b, cmp a b = Lt) l.
Proof.
  induction 1 as [|x l Hl IH Hx]; intros Hinj; constructor.
  - apply IH. intros i j y z Hy Hz Heq. assert (S i = S j) as [= ->]; [|done]. by apply (Hinj _ _ y z).
  - apply Forall_lookup. intros j y Hy. rewrite Forall_lookup in Hx. apply Hx in Hy as Hle. unfold cmp_leb in Hle.
    destruct (cmp x y) eqn:E; [|done..]. by specialize (Hinj 0 (S j) x y eq_refl Hy E).
Qed.

Section Entries.
Context {ENV : CacheEnv} (iterate : RefIndex → list (string * gset string)) (Hiterate : ∀ idx, iterate idx ≡ₚ map_to_list idx).
Context (c : PacketCache) (Hc : coherent c) (task_id : option string) (paths symbols tests : list string).
Local Abbreviation docs := (recall_docs c).
Local Abbreviation related := (related docs paths symbols tests).

Definition collects (task_keys : option (gset string)) : gmap string RelatedEntryMatch :=
  foldl (note_related c task_keys) ∅ (related_visits iterate c paths symbols tests).

Lemma collects_spec task_keys k :
  (∀ d, docs !! k = Some d → task_match_allowed k task_keys = true ↔ of_task task_id d) →
  match collects task_keys !! k with
  | Some m => entries_by_hash c !! k = Some (rm_entry m) ∧ entry_key m = k ∧
      ∃ d, docs !! k = Some d ∧ of_task task_id d ∧ (∃ kind v, related d kind v) ∧
        ∀ kind, NoDup (field kind m) ∧ ∀ v, v ∈ field kind m ↔ related d kind v
  | None => ∀ d, docs !! k = Some d → of_task task_id d → ∀ kind v, ¬ related d kind v
  end.
Proof using Hc Hiterate.
  intros Htask. pose proof (collect_spec c task_keys (related_visits iterate c paths symbols tests) k) as H. fold (collects task_keys) in H.
  assert (Hin := λ kind v, elem_of_related_visits c (co_index c Hc) iterate Hiterate paths symbols tests kind v k).
  pose proof (coherent_doc_key c k Hc) as Hdoc. destruct (collects task_keys !! k) as [m|]; cbn [collected] in H.
  - destruct H as (Ha & He & (kind & v & Hv) & Hfields). split; [done|]. split; [by apply (co_keys c Hc)|].
    apply Hin in Hv as (d & Hd & Hr). exists d. split; [done|]. split; [by apply Htask|]. split; [eauto|].
    intros kind'. destruct (Hfields kind') as [Hnd Hf]. split; [done|]. intros v'. rewrite Hf, Hin. split; [|eauto]. by intros (d' & Hd' & ?); simplify_eq.
  - intros d Hd Ht kind v Hr. destruct (H kind v) as [Ha|He]; [apply Hin; eauto| |].
    + apply (Htask d Hd) in Ht. congruence.
    + rewrite Hdoc, He in Hd. done.
Qed.

Lemma task_keys_spec keys t d k : docs !! k = Some d → (default ∅ (task_index c !! t) = keys) → (k ∈ keys ↔ t ∈ rd_task_ids d).
Proof using Hc.
  intros Hd <-. destruct (co_index c Hc) as (_ & _ & _ & _ & _ & Htask & _). rewrite (ref_index_elem c rd_task_ids _ Htask).
  unfold lists. split; [by intros (d' & Hd' & ?); simplify_eq|eauto].
Qed.
Lemma elem_of_collects task_keys m : (∀ k d, docs !! k = Some d → task_match_allowed k task_keys = true ↔ of_task task_id d) →
  m ∈ (map_to_list (collects task_keys)).*2 ↔ collects task_keys !! entry_key m = Some m.
Proof using Hc Hiterate.
  intros Ht. rewrite list_elem_of_fmap. split.
  - intros ([k m'] & -> & Hm%elem_of_map_to_list). cbn [snd]. pose proof (collects_spec task_keys k (Ht k)) as H. rewrite Hm in H.
    destruct H as (_ & -> & _). done.
  - intros Hm. exists (entry_key m, m). by rewrite elem_of_map_to_list.
Qed.

(** What is promised of the returned list. *)
Definition exact_answer (found : list RelatedEntryMatch) : Prop :=
  StronglySorted (λ a b, related_cmp a b = Lt) found ∧
  (∀ m, m ∈ found → entries_by_hash c !! entry_key m = Some (rm_entry m) ∧
    ∃ d, docs !! entry_key m = Some d ∧ of_task task_id d ∧ (∃ kind v, related d kind v) ∧
      ∀ kind, NoDup (field kind m) ∧ ∀ v, v ∈ field kind m ↔ related d kind v) ∧
  (∀ k d kind v, docs !! k = Some d → of_task task_id d → related d kind v → ∃ m, m ∈ found ∧ entry_key m = k).

Lemma collects_answer task_keys : (∀ k d, docs !! k = Some d → task_match_allowed k task_keys = true ↔ of_task task_id d) →
  exact_answer (sort_by_cmp related_cmp (map_to_list (collects task_keys)).*2).
Proof using Hc Hiterate.
  intros Ht. unfold exact_answer. split; [|setoid_rewrite elem_of_sort_by_cmp; setoid_rewrite (elem_of_collects _ _ Ht); split].
  - apply sorted_strict; [apply sort_by_cmp_sorted, _|].
    assert (Hnd : NoDup ((λ m, entry_key m) <$> sort_by_cmp related_cmp (map_to_list (collects task_keys)).*2)).
    { rewrite sort_by_cmp_perm, <- list_fmap_compose. assert (Heq : ((λ m, entry_key m) ∘ snd) <$> map_to_list (collects task_keys) = (map_to_list (collects task_keys)).*1).
      { apply list_fmap_ext. intros i [k m] Hm%list_elem_of_lookup_2%elem_of_map_to_list. cbn.
        pose proof (collects_spec task_keys k (Ht k)) as H. rewrite Hm in H. apply H. }
      rewrite Heq. apply NoDup_fst_map_to_list. }
    intros i j x y Hx Hy Hxy%str_cmp_Eq. apply (NoDup_lookup _ i j (entry_key x) Hnd); rewrite list_lookup_fmap; [by rewrite Hx|by rewrite Hy, Hxy].
  - intros m Hm. pose proof (collects_spec task_keys (entry_key m) (Ht _)) as H. rewrite Hm in H. by destruct H as (? & _ & ?).
  - intros k d kind v Hd Htask Hr. pose proof (collects_spec task_keys k (Ht k)) as H. destruct (collects task_keys !! k) as [m|] eqn:Hm.
    + destruct H as (_ & Hk & _). exists m. by rewrite Hk.
    + by destruct (H d Hd Htask kind v).
Qed.

Lemma related_answer : exact_answer (related_entries iterate c task_id paths symbols tests).
Proof using Hc Hiterate.
  unfold related_entries. set (filtered := task_id). assert (E : task_id = filtered) by done. clearbody filtered.
  destruct filtered as [t|]; cbn [fmap option_fmap option_map].
  - destruct (task_index c !! str_to_ascii_lowercase t) as [keys|] eqn:Ek.
    + apply collects_answer. intros k d Hd. rewrite E. cbn [of_task task_match_allowed]. rewrite bool_decide_eq_true.
      apply (task_keys_spec keys _ _ _ Hd). by rewrite Ek.
    + split; [constructor|]. split; [by intros m ?%elem_of_nil|]. intros k d kind v Hd Ht. exfalso. rewrite E in Ht.
      apply (task_keys_spec ∅ _ _ _ Hd) in Ht; [by apply elem_of_empty in Ht|by rewrite Ek].
  - apply collects_answer. by rewrite E.
Qed.
End Entries.

(** C18: the entries related to paths, symbols and tests are, in strictly increasing
    order of their keys, exactly those of the task (if one is given) whose document has
    a value that an argument names, and each lists every such value of its document
    once, whatever the order in which the hash maps are iterated. *)
Theorem related_entries_exact {ENV : CacheEnv} (iterate : RefIndex → list (string * gset string)) (c : PacketCache)
    (task_id : option string) (paths symbols tests : list string) :
  coherent c → (∀ idx, iterate idx ≡ₚ map_to_list idx) →
  exact_answer c task_id paths symbols tests (related_entries iterate c task_id paths symbols tests).
Proof. intros Hc Hiterate. by apply related_answer. Qed.

Lemma related_entries_exact_witness :
  let c := (run (@run_op MemoryExample.example_cache) (new_cache None) path_ops).1 in
  let found := related_entries map_to_list c None ["lib/auth.rs"; "src/pay.rs"]%string [] [] in
  (λ m, (pe_cache_key (rm_entry m), rm_canonical_path_matches m, rm_basename_path_matches m)) <$> found
    = [("agent::a", [], ["src/auth.rs"]); ("agent::b", ["src/pay.rs"], [])]%string ∧
  exact_answer c None ["lib/auth.rs"; "src/pay.rs"]%string [] [] found.
Proof.
  intros c found. split; [vm_compute; reflexivity|].
  pose proof (@run_represents MemoryExample.example_cache None _ _ path_ops (@represents_new MemoryExample.example_cache None)
    ltac:(vm_compute; discriminate)) as Hrun.
  assert (Hc : @coherent MemoryExample.example_cache c).
  { unfold c. destruct (run (@run_op MemoryExample.example_cache) _ _), (run (@spec_op MemoryExample.example_cache) _ _). apply Hrun. }
  exact (@related_entries_exact MemoryExample.example_cache map_to_list c None ["lib/auth.rs"; "src/pay.rs"]%string [] [] Hc (λ _, reflexivity _)).
Defined.

